(* ===== verification/_CoqProject ===== *)
-Q . S2P
Prelude.v
Coding.v
Crc32c.v
Log.v
Comparator.v
Hash.v
Random.v
SkipList.v
SkipListCorrect.v
KeyGen.v
Iterator.v
MergeIter.v
DbFormat.v
KVStore.v
WriteBatch.v
BatchOps.v
RangeDel.v
MemTable.v
SkipListRep.v
Block.v
DbIter.v
DbIterCorrect.v
Heap.v
InternalMerge.v
InternalMergeCorrect.v
BlockCorrect.v
BlockBuild.v
BlockGet.v
CompactionIter.v
CompactionCorrect.v
CompactionRun.v
MemStore.v
MemTableIter.v
MemTableMerge.v
Flush.v
StoreIter.v
WriteThread.v
WriteThreadCorrect.v
GroupCommit.v
Xxh3.v
Xxh3Correct.v
Double.v
Bloom.v
BloomCorrect.v
Filters.v
Recovery.v
Queue.v
Ycsb.v
Loader.v
ReadTest.v
Trace.v
Polling.v
OtherStores.v
ScanTest.v
Config.v
