(* ===== verification/Prelude.v ===== *)
(** * p2KVS: portable parallel key-value store instances

    p2KVS runs several instances of a key-value store behind one interface: a user
    thread partitions the requests by key over request queues, and one worker thread
    per queue executes them on a store of its own, gathering consecutive writes in one
    [WriteBatch] and consecutive point reads in one [MultiGet]; scans over all instances
    go through a merging iterator. This development models the programs of src/code
    (ycsb.cpp, write_test.cpp, read_test.cpp and their variants for LevelDB and
    WiredTiger, scan_test.cpp, merge_iter.h, random.h, defines.h) and the write and read
    path of the RocksDB that comes with them (src/code/rocksdb) down to bytes: group
    commit, write batches, the write-ahead log and its recovery, memtables over skip
    lists, the iterators of stores, data blocks of tables, the compaction iterator,
    internal keys, Bloom filters, checksums, hashes and integer encodings.

    ** Conventions

    Machine integers are [Z] with the wrap-around written out ([u8], [u32], [u64], [i32],
    [i64]); byte strings are [list Z]. Code that can fail an assertion, read outside an
    array, follow a null pointer or divide by zero returns [option], and [None] is that
    failure; statuses of the stores are values. Loops that are not structural take fuel,
    and the theorems show that the fuel of the definitions is enough: results are
    [Some], never only "if it returns". Code outside src/ is a parameter: the shuffle of
    the C++ library permutes, files may fail, and LevelDB and WiredTiger are interfaces
    with laws.

    ** Files, from the bottom up

    - Prelude: notations, tactics, lemmas on lists, integers and bytes.
    - Coding (util/coding): fixed-width and varint encodings, length-prefixed slices.
      Round trips, agreement of the portable and the fast encoders.
    - Crc32c (util/crc32c.cc): the table-driven checksum at any alignment is CRC-32C bit
      by bit, and detects every changed byte.
    - Log (db/log_writer.cc, db/log_reader.cc): records are read back, a log cut in its
      last record gives all records before it, the reader terminates on every file.
    - Comparator (include/rocksdb/slice.h, util/comparator.cc): the class [TotalCompare]
      of user comparators and its instances; separators and successors.
    - Random, KeyGen (random.h, the key generators): full period of the generator,
      order and uniqueness of generated keys.
    - SkipList (memtable/inlineskiplist.h): the list as an arena of nodes with partly
      initialised memory, splices, all searches and insertions with all assertions.
      SkipListCorrect: the invariants ([list_inv], [splice_inv]) and what each routine
      does. SkipListRep (memtable/skiplistrep.cc): the table of a memtable and its
      iterators; insertions through any entry point make a sorted set, iterators are
      cursors of it, and the table satisfies [MemTableRepLaws].
    - Iterator: the interface of iterators ([Iterator], [IteratorLaws]) and scans over it.
      MergeIter (merge_iter.h): the merging iterator satisfies the interface that it
      requires of its children, in both directions.
    - Hash (util/hash): the 32-bit hash with its range reductions.
    - Xxh3 (util/xxh3p.h): the 64-bit hash for inputs of all lengths with its scalar, SSE2
      and AVX2 code. Xxh3Correct: it reads in bounds, and all builds agree.
    - Double: the operations on binary64 numbers that the filters use.
    - Bloom (util/bloom_impl.h, table/block_based/filter_policy.cc, full_filter_block.cc,
      table/multiget_context.h): the three formats of Bloom filters, building and probing,
      lookups of one key and of a range of keys of a MultiGet. BloomCorrect: the bits
      that adding sets, the prefetching buffer, the lanes of AVX2. Filters: no false
      negatives, agreement of the optimised code, and reads of corrupt filters.
    - DbFormat (db/dbformat, db/lookup_key.h): internal keys, their order and lookup keys.
    - KVStore: what the programs require of batches and stores ([Batch], [DB] and their
      laws), with reference instances.
    - WriteBatch (db/write_batch.cc): building, save points, size limits, append,
      iteration and classification. BatchOps: what is promised of a batch as a list of
      records with a stack of save points, kept by any sequence of operations.
    - RangeDel (db/range_tombstone_fragmenter.cc): range tombstones are cut into fragments;
      looking up a key in them gives the newest tombstone that covers it in the snapshot.
    - MemTable (db/memtable.cc, the inserter of db/write_batch.cc): [Add], [Get] and
      [SaveValue] over the class [MemTableRep]; after batches were inserted, a read at a
      snapshot finds the last visible write. [Get] reads the range tombstones of the
      memtable ([covering_tombstones] says which one counts); the theorems about its
      results are for keys that none covers.
    - Block (table/block_based/block, block_builder, data_block_hash_index): the builder
      of data blocks, their format and their iterator. BlockCorrect: entries and restart
      points of a block, and what each operation of the iterator does. BlockBuild: a block
      of sorted versions is read back, and its iterator keeps the contract of an internal
      iterator. BlockGet: lookups through the hash index agree with seeks; what the
      decoder for corrupt blocks accepts.
    - DbIter (db/db_iter.cc): the iterator of a store over an internal iterator.
      DbIterCorrect: the class [InternalIteratorLaws], and that over every instance of it
      [DBIter] ranges over the newest visible value of each key, in both directions.
    - Heap (util/heap.h), InternalMerge (table/merging_iterator.cc): the merging iterator
      of a store over a binary heap with its cached child. InternalMergeCorrect: it keeps
      the contract of its children over the union of their versions.
    - CompactionIter (db/compaction/compaction_iterator.cc, compaction.cc, db/builder.cc):
      what flushes and compactions keep of their input. CompactionCorrect: the decisions of
      the iterator as a relation [steps] on versions, which keeps all reads. CompactionRun:
      runs of the iterator follow it and fail no assertion.
    - MemStore ([DBImpl::WriteImpl] of a writer alone in its group, [DBImpl::GetImpl] of a
      store without files): batches over a memtable refine the map of KVStore, given an
      iterator, as long as the sequence numbers last.
      MemTableIter (the iterator of db/memtable.cc): [DBIter] over it discharges this, and
      the merging iterator over several such stores scans their union. MemTableMerge:
      lookups of keys with merge operands.
    - Flush: memtable, compaction iterator, block builder, block iterator and [DBIter]
      together. StoreIter (db/db_impl/db_impl.cc): the iterator of a store over several
      memtables and what was flushed, and flushes of several memtables at once.
    - WriteThread (db/write_thread.cc, db/db_impl/db_impl_write.cc): group commit as a
      step relation of concurrent writers. WriteThreadCorrect: its invariant. GroupCommit:
      writes are serial and there is no deadlock, whatever the log returns, where insertions
      into the memtable succeed and leaders make them alone or writes do not overlap; and
      what goes wrong with parallel memtable writes and with failed insertions.
    - Recovery (db/db_impl/db_impl_open.cc): replaying a log that was cut anywhere loses no
      acknowledged batch. It is proved against the interface of tables and applied to
      skip lists.
    - Queue: the queues shared by the user thread and the workers as a step relation
      over single memory accesses, with invariants of all interleavings and a bound on
      runs, generic in requests and workers. Ycsb (ycsb.cpp), Loader (write_test.cpp)
      and ReadTest (read_test.cpp) instantiate it: every store ends up with what its
      share of the trace writes in order, results of point reads, termination.
    - Trace (the trace format of ycsb.cpp), Config (defines.h): parsing of traces, and
      the sizes of the queue arrays in every configuration.
    - Polling: the threads that the programs for LevelDB and WiredTiger share, over Queue.
      OtherStores (write_test_leveldb.cpp, read_test_leveldb.cpp, write_test_wt.cpp,
      read_test_wt.cpp): the loaders end with every key in its store, and the readers of the
      same keys find all of them where their requests fit the queues. ScanTest
      (scan_test.cpp): the merge of sorted vectors is in order, but no scan is ever handed over to it.

    ** How the parts compose

    [Ycsb.partition_serializable] and the theorems about the other programs are proved
    against the interfaces of KVStore, with the premise that writes succeed;
    [MemTableIter.memdb_implements_db] shows the laws of the interfaces for write batches
    over a memtable on a skip list, with [DBIter] for scans, and that its writes succeed as
    long as the sequence numbers last.
    [InternalIteratorLaws] is the interface between [DBIter] or the compaction iterator
    and what they read: memtables and data blocks satisfy it. Its law of seeks
    ([seek_split]) places the iterator between the versions before and after the target,
    also when the target is a key with any sequence number. The merging iterator satisfies
    it over children that do. [StoreIter.flush_memtables_preserve_scans] goes from several
    memtables through the merging iterator, the compaction iterator and a block back to
    the iterator of the store;
    [Recovery.crash_recovery] goes through the encoder of batches, the log writer, a cut
    file, the log reader, the decoder, the memtable and its table.

    ** Bounds and fuel

    Searches of the skip list get the number of nodes plus the height (each turn moves
    right or down); [DBIter] gets twice the number of versions plus two, since a loop may
    meet a version before and after a reseek; loops over a block get one more than its
    bytes, and the compaction iterator one more than the versions; the loops of a heap get
    at most one more than its elements; the log reader gets the bytes of the file that it has not
    read; the rounds of AVX2 probing get one more than the number of probes, the loop for the size of a
    cache line gets 32; the loops over a range of keys get one more than its keys; the loops
    over slices get the length of the slice. Queue arrays and counts are below 2^31, where
    the [int] counters of the programs do not overflow; [Config] checks this for the
    configurations and [Loader.loader_terminates] for the loader.

    ** Not modelled

    Memory is sequentially consistent and accesses are atomic. Concurrent insertions into
    a skip list run one at a time (the code with compare-and-swap is modelled, with one
    thread). Of group commit, pipelined writes, write stalls, callbacks and the second
    write queue are left out. Of RocksDB, versions, the choice of compactions, index blocks,
    partitioned filters and the layout of whole tables, caches, column families other than the
    default one, which is the only one the programs open, two-phase commit, in-place updates,
    timestamps, and range tombstones but those of memtables in point lookups
    are left out; the programs see them through the contract of [DB]. Of Bloom filters, the
    estimates of the false positive rate are left out, and the lookups of a table do not
    consult them. LevelDB and WiredTiger are not under src/: the programs for them
    are modelled over interfaces of a store and of a cursor. Several tail counters are
    plain variables, whose data races the step relation does not show. Opening stores,
    clocks and printing are input and output, and the trace generator (src/code/YCSB) and
    the scripts run before the programs. *)

From Stdlib Require Export ZArith Lia.
From stdpp Require Export base numbers list gmap sorting.

Global Open Scope Z_scope.

(** ** Machine integers

    A w-bit integer is a [Z]; the casts below write out the wrap-around. *)

Definition u8 (z : Z) : Z := z mod 2 ^ 8.
Definition u16 (z : Z) : Z := z mod 2 ^ 16.
Definition u32 (z : Z) : Z := z mod 2 ^ 32.
Definition u64 (z : Z) : Z := z mod 2 ^ 64.
Definition i32 (z : Z) : Z := (z + 2 ^ 31) mod 2 ^ 32 - 2 ^ 31.
Definition i64 (z : Z) : Z := (z + 2 ^ 63) mod 2 ^ 64 - 2 ^ 63.

(** A buffer of C++ [char]s read as [unsigned char]: a list of integers, each
    of them a byte where a lemma needs it. *)
Abbreviation bytes := (list Z).

Definition is_byte (b : Z) : Prop := 0 <= b < 256.
Definition is_bytes (s : bytes) : Prop := Forall is_byte s.

Definition zlen {A} (l : list A) : Z := Z.of_nat (length l).

#[global] Instance is_byte_dec b : Decision (is_byte b).
Proof. unfold is_byte. apply _. Defined.

#[global] Instance is_bytes_dec s : Decision (is_bytes s).
Proof. unfold is_bytes. apply _. Defined.

(** ** Automation *)

Create HintDb p2kvs.

(** Case analysis on the boolean tests the code makes. *)
Ltac case_bool :=
  repeat match goal with
  | H : context [(?a <? ?b)] |- _ => destruct (Z.ltb_spec a b)
  | H : context [(?a <=? ?b)] |- _ => destruct (Z.leb_spec a b)
  | H : context [(?a =? ?b)] |- _ => destruct (Z.eqb_spec a b)
  | |- context [(?a <? ?b)] => destruct (Z.ltb_spec a b)
  | |- context [(?a <=? ?b)] => destruct (Z.leb_spec a b)
  | |- context [(?a =? ?b)] => destruct (Z.eqb_spec a b)
  end.

(** Evaluates the powers of two that [lia] has to see as numerals. *)
Ltac pow2_norm :=
  repeat match goal with
  | H : context [Z.pow 2 (Zpos ?p)] |- _ =>
      let r := eval vm_compute in (Z.pow 2 (Zpos p)) in change (Z.pow 2 (Zpos p)) with r in H
  | |- context [Z.pow 2 (Zpos ?p)] =>
      let r := eval vm_compute in (Z.pow 2 (Zpos p)) in change (Z.pow 2 (Zpos p)) with r
  end.

(** [lia] for goals with divisions and remainders by numerals. *)
Ltac div_lia := pow2_norm; Z.to_euclidean_division_equations; lia.

(** Splits the byte ranges of an explicit buffer. *)
Ltac inv_bytes :=
  repeat match goal with
  | H : is_bytes (_ :: _) |- _ =>
      let h := fresh "Hb" in apply Forall_cons_1 in H as [h H]; red in h
  | H : Forall is_byte (_ :: _) |- _ => change (is_bytes) with (Forall is_byte) in H;
      let h := fresh "Hb" in apply Forall_cons_1 in H as [h H]; red in h
  end.

(** Byte ranges of a closed buffer, by evaluation. *)
Ltac bytes_dec :=
  lazymatch goal with
  | |- is_bytes ?s => refine (bool_decide_unpack (is_bytes s) _); vm_compute; exact I
  end.

(** ** Integers *)

Lemma u8_small z : 0 <= z < 2 ^ 8 -> u8 z = z.
Proof. apply Z.mod_small. Qed.

Lemma u32_small z : 0 <= z < 2 ^ 32 -> u32 z = z.
Proof. apply Z.mod_small. Qed.

Lemma u64_small z : 0 <= z < 2 ^ 64 -> u64 z = z.
Proof. apply Z.mod_small. Qed.

Lemma u8_range z : 0 <= u8 z < 2 ^ 8.
Proof. apply Z.mod_pos_bound. lia. Qed.

Lemma u32_range z : 0 <= u32 z < 2 ^ 32.
Proof. apply Z.mod_pos_bound. lia. Qed.

Lemma u64_range z : 0 <= u64 z < 2 ^ 64.
Proof. apply Z.mod_pos_bound. lia. Qed.

Lemma i32_small z : - 2 ^ 31 <= z < 2 ^ 31 -> i32 z = z.
Proof. intros. unfold i32. rewrite Z.mod_small; lia. Qed.

Lemma i64_small z : - 2 ^ 63 <= z < 2 ^ 63 -> i64 z = z.
Proof. intros. unfold i64. rewrite Z.mod_small; lia. Qed.

Lemma u8_is_byte z : is_byte (u8 z).
Proof. apply u8_range. Qed.

#[export] Hint Resolve u8_is_byte u8_range u32_range u64_range : p2kvs.

(** The bits of a number below [2 ^ n] and of one shifted left by [n] are
    disjoint, so that [lor] and [lxor] are additions. *)
Lemma land_shiftl_disjoint a b n : 0 <= n -> 0 <= a < 2 ^ n -> Z.land a (Z.shiftl b n) = 0.
Proof.
  intros Hn Ha. apply Z.bits_inj'. intros i Hi.
  rewrite Z.land_spec, Z.bits_0, Z.shiftl_spec by lia.
  destruct (Z.lt_ge_cases i n).
  - rewrite (Z.testbit_neg_r b) by lia. apply andb_false_r.
  - rewrite <- (Z.mod_small a (2 ^ n)) by lia.
    rewrite Z.mod_pow2_bits_high by lia. reflexivity.
Qed.

Lemma lxor_shiftl_add a b n :
  0 <= n -> 0 <= a < 2 ^ n -> Z.lxor a (Z.shiftl b n) = a + b * 2 ^ n.
Proof.
  intros Hn Ha. rewrite <- Z.shiftl_mul_pow2 by lia.
  by rewrite Z.add_nocarry_lxor by (by apply land_shiftl_disjoint).
Qed.

Lemma lor_shiftl_add a b n :
  0 <= n -> 0 <= a < 2 ^ n -> Z.lor a (Z.shiftl b n) = a + b * 2 ^ n.
Proof.
  intros Hn Ha. rewrite <- lxor_shiftl_add by done.
  symmetry. by apply Z.lxor_lor, land_shiftl_disjoint.
Qed.

Lemma land_lxor_distr a b c : Z.land (Z.lxor a b) c = Z.lxor (Z.land a c) (Z.land b c).
Proof.
  apply Z.bits_inj'. intros n _. rewrite Z.land_spec, !Z.lxor_spec, !Z.land_spec.
  by destruct (Z.testbit a n), (Z.testbit b n), (Z.testbit c n).
Qed.

Lemma lxor_range a b n : 0 <= n -> 0 <= a < 2 ^ n -> 0 <= b < 2 ^ n -> 0 <= Z.lxor a b < 2 ^ n.
Proof.
  intros Hn Ha Hb. assert (H0 : 0 <= Z.lxor a b) by (apply Z.lxor_nonneg; lia). split; [done|].
  rewrite <- (Z.mod_small a (2 ^ n)), <- (Z.mod_small b (2 ^ n)) by lia.
  rewrite <- !Z.land_ones, <- land_lxor_distr, Z.land_ones by lia. apply Z.mod_pos_bound. lia.
Qed.

Lemma land_ones_mod a n : 0 <= n -> Z.land a (2 ^ n - 1) = a mod 2 ^ n.
Proof. intros. rewrite <- Z.land_ones, Z.ones_equiv by lia. f_equal. Qed.

Lemma shiftr_div a n : 0 <= n -> Z.shiftr a n = a / 2 ^ n.
Proof. apply Z.shiftr_div_pow2. Qed.

(** A boolean fact about every byte, by evaluation. *)
Lemma byte_forall (P : Z -> bool) :
  forallb P (seqZ 0 256) = true -> forall b, is_byte b -> P b = true.
Proof.
  intros H b Hb. rewrite forallb_forall in H. apply H.
  apply list_elem_of_In, elem_of_seqZ. red in Hb. lia.
Qed.

(** ** Lists *)

Lemma zlen_app {A} (l k : list A) : zlen (l ++ k) = zlen l + zlen k.
Proof. unfold zlen. rewrite length_app. lia. Qed.

Lemma zlen_cons {A} (x : A) l : zlen (x :: l) = zlen l + 1.
Proof. unfold zlen. simpl. lia. Qed.

Lemma zlen_nil {A} : zlen (@nil A) = 0.
Proof. reflexivity. Qed.

Lemma zlen_nonneg {A} (l : list A) : 0 <= zlen l.
Proof. unfold zlen. lia. Qed.

Create Rewrite HintDb zlen.
#[export] Hint Rewrite @zlen_app @zlen_cons @zlen_nil : zlen.
#[export] Hint Resolve zlen_nonneg : p2kvs.

Lemma filter_none {A} (P : A -> Prop) `{!forall x, Decision (P x)} (l : list A) :
  (forall x, x ∈ l -> ~ P x) -> filter P l = [].
Proof.
  induction l as [|x l IH]; intros Hno; [done|]. rewrite filter_cons_False; [|apply Hno; left].
  apply IH. intros y Hy. apply Hno. by right.
Qed.

Lemma filter_every {A} (P : A -> Prop) `{!forall x, Decision (P x)} (l : list A) :
  (forall x, x ∈ l -> P x) -> filter P l = l.
Proof.
  induction l as [|x l IH]; intros Hall; [done|]. rewrite filter_cons_True by (apply Hall; left).
  f_equal. apply IH. intros y Hy. apply Hall. by right.
Qed.

(** A predicate that holds of everything before an element it holds of cuts a sorted
    list in two. *)
Lemma sorted_partition {A} (R : relation A) (P : A -> Prop) `{!forall x, Decision (P x)} (l : list A) :
  StronglySorted R l -> (forall x y, x ∈ l -> y ∈ l -> R x y -> P y -> P x) ->
  l = filter P l ++ filter (fun x => ~ P x) l.
Proof.
  induction 1 as [|x l Hs IH Hx]; intros Hdown; [done|]. rewrite Forall_forall in Hx.
  assert (IH' : l = filter P l ++ filter (fun x => ~ P x) l).
  { apply IH. intros y z Hy Hz. apply Hdown; by right. }
  destruct (decide (P x)) as [Hp|Hp].
  - rewrite filter_cons_True, (filter_cons_False (fun x => ~ P x)) by tauto. cbn. by f_equal.
  - rewrite filter_cons_False, (filter_cons_True (fun x => ~ P x)) by done.
    assert (E : filter P l = []).
    { apply filter_none. intros y Hy HPy. apply Hp. apply (Hdown x y); [by left|by right|by apply Hx|done]. }
    rewrite E in IH' |- *. cbn in *. by f_equal.
Qed.

Lemma sorted_filter {A} (R : relation A) (P : A -> Prop) `{!forall x, Decision (P x)} (l : list A) :
  StronglySorted R l -> StronglySorted R (filter P l).
Proof.
  induction 1 as [|x l Hs IH Hx]; [constructor|]. rewrite filter_cons. destruct (decide (P x)); [|done].
  constructor; [done|]. rewrite Forall_forall in *. intros y Hy. apply Hx. by apply list_elem_of_filter in Hy as [_ ?].
Qed.

Lemma sorted_before {A} (R : relation A) (l1 l2 : list A) x y :
  StronglySorted R (l1 ++ l2) -> x ∈ l1 -> y ∈ l2 -> R x y.
Proof. intros Hs. apply StronglySorted_app in Hs as (? & _ & _). auto. Qed.

(** The first element that a filter keeps. *)
Lemma filter_cons_split {A} (P : A -> Prop) `{!forall x, Decision (P x)} (l : list A) y r :
  filter P l = y :: r -> exists l1 l2, l = l1 ++ y :: l2 /\ P y /\ filter P l1 = [] /\ filter P l2 = r.
Proof.
  induction l as [|x l IH]; [done|]. rewrite filter_cons. destruct (decide (P x)) as [Hx|Hx].
  - intros [= -> <-]. by exists [], l.
  - intros E. destruct (IH E) as (l1 & l2 & -> & Hy & E1 & E2). exists (x :: l1), l2.
    by rewrite filter_cons_False.
Qed.

(** The ends of a sorted list. *)
Lemma sorted_last {A} (R : relation A) (l : list A) m x :
  StronglySorted R l -> last l = Some m -> x ∈ l -> x = m \/ R x m.
Proof.
  intros Hs Hm Hx. apply last_Some in Hm as [l' ->]. apply elem_of_app in Hx as [Hx|Hx].
  - right. eapply sorted_before; [done..|]. by left.
  - left. by apply list_elem_of_singleton in Hx.
Qed.

Lemma sorted_head {A} (R : relation A) (l : list A) m x :
  StronglySorted R l -> head l = Some m -> x ∈ l -> m = x \/ R m x.
Proof.
  intros Hs Hm Hx. destruct l as [|y l]; [done|]. cbn in Hm. injection Hm as ->.
  apply elem_of_cons in Hx as [->|Hx]; [by left|]. right. apply StronglySorted_inv in Hs as [_ Hs].
  rewrite Forall_forall in Hs. by apply Hs.
Qed.

Lemma in_snoc {A} (l : list A) a b : a ∈ l ++ [b] -> a ∈ l \/ a = b.
Proof. intros [Ha|Ha%list_elem_of_singleton]%elem_of_app; auto. Qed.

Lemma filter_same {A} (P Q : A -> Prop) `{!forall x, Decision (P x)} `{!forall x, Decision (Q x)} (l : list A) :
  (forall x, x ∈ l -> P x <-> Q x) -> filter P l = filter Q l.
Proof.
  induction l as [|x l IH]; intros Hpq; [done|]. rewrite !filter_cons, IH by (intros y Hy; apply Hpq; by right).
  pose proof (Hpq x ltac:(by left)). destruct (decide (P x)), (decide (Q x)); tauto.
Qed.

Lemma fmap_head {A B} (f : A -> B) (l : list A) : head (f <$> l) = f <$> head l.
Proof. by destruct l. Qed.

Lemma sorted_lookup {A} (R : relation A) (l : list A) i j x y :
  StronglySorted R l -> (i < j)%nat -> l !! i = Some x -> l !! j = Some y -> R x y.
Proof.
  intros Hs Hij Hx Hy. rewrite <- (take_drop j l) in Hs. apply (sorted_before R _ _ x y Hs).
  - eapply (list_elem_of_lookup_2 _ i). by rewrite lookup_take_lt.
  - eapply (list_elem_of_lookup_2 _ 0). by rewrite lookup_drop, Nat.add_0_r.
Qed.

Lemma elem_of_concat {A} (x : A) (ls : list (list A)) : x ∈ concat ls <-> exists l, l ∈ ls /\ x ∈ l.
Proof. rewrite list_elem_of_In, in_concat. by setoid_rewrite list_elem_of_In. Qed.

Lemma NoDup_concat_disjoint {A} (ls : list (list A)) i j l l' x : NoDup (concat ls) -> ls !! i = Some l -> ls !! j = Some l' -> x ∈ l -> x ∈ l' -> i = j.
Proof.
  revert i j. induction ls as [|l0 ls IH]; intros i j Hn Hi Hj Hx Hx'; [done|]. cbn in Hn. apply NoDup_app in Hn as (_ & Hd & Hn).
  destruct i as [|i], j as [|j]; [done| | |f_equal; by eapply IH]; cbn in Hi, Hj; simplify_eq; exfalso.
  - apply (Hd x Hx). apply elem_of_concat. exists l'. split; [|done]. by eapply list_elem_of_lookup_2.
  - apply (Hd x Hx'). apply elem_of_concat. exists l. split; [|done]. by eapply list_elem_of_lookup_2.
Qed.

#[global] Instance concat_Permutation {A} : Proper ((≡ₚ) ==> (≡ₚ)) (@concat A).
Proof.
  induction 1 as [|x l l' _ IH|x y l|l l' l'' _ IH1 _ IH2]; cbn; [done|by rewrite IH| |by rewrite IH1].
  rewrite !(assoc_L (++)). by rewrite (Permutation_app_comm y x).
Qed.
