(* ===== verification/Coding.v ===== *)
(** * util/coding: fixed-width and variable-length integers, and slices

    The byte encodings of [rocksdb/util/coding.h] and [coding.cc]. A
    [std::string*] that a [Put] routine appends to is an argument and a result;
    a [Slice*] that a [Get] routine reads from and advances is an argument, and
    the result is [Some (value, rest)] where the code returns true and [None]
    where it returns false. *)

From S2P Require Import Prelude.

(** ** Object representation

    [memcpy] of a [n]-byte unsigned integer on a little-endian machine: byte
    [i] in memory is the [i]-th least significant one. *)

Fixpoint memcpy_from (n : nat) (value : Z) : bytes :=
  match n with
  | O => []
  | S n' => value mod 256 :: memcpy_from n' (value / 256)
  end.

Fixpoint memcpy_to (n : nat) (ptr : bytes) : Z :=
  match n, ptr with
  | S n', b :: ptr' => b + 256 * memcpy_to n' ptr'
  | _, _ => 0
  end.

(** [port::kLittleEndian] of the x86 builds. *)
Definition kLittleEndian : bool := true.

(** ** Fixed-width integers *)

Definition EncodeFixed16_on (le : bool) (value : Z) : bytes :=
  if le then memcpy_from 2 value
  else [u8 (Z.land value 255); u8 (Z.land (Z.shiftr value 8) 255)].

Definition EncodeFixed32_on (le : bool) (value : Z) : bytes :=
  if le then memcpy_from 4 value
  else [u8 (Z.land value 255); u8 (Z.land (Z.shiftr value 8) 255);
        u8 (Z.land (Z.shiftr value 16) 255); u8 (Z.land (Z.shiftr value 24) 255)].

Definition EncodeFixed64_on (le : bool) (value : Z) : bytes :=
  if le then memcpy_from 8 value
  else [u8 (Z.land value 255); u8 (Z.land (Z.shiftr value 8) 255);
        u8 (Z.land (Z.shiftr value 16) 255); u8 (Z.land (Z.shiftr value 24) 255);
        u8 (Z.land (Z.shiftr value 32) 255); u8 (Z.land (Z.shiftr value 40) 255);
        u8 (Z.land (Z.shiftr value 48) 255); u8 (Z.land (Z.shiftr value 56) 255)].

(** [ptr[i]] read as an [unsigned char]. *)
Definition at_ (ptr : bytes) (i : nat) : Z := nth i ptr 0.

Definition DecodeFixed16_on (le : bool) (ptr : bytes) : Z :=
  if le then memcpy_to 2 ptr
  else Z.lor (at_ ptr 0) (Z.shiftl (at_ ptr 1) 8).

Definition DecodeFixed32_on (le : bool) (ptr : bytes) : Z :=
  if le then memcpy_to 4 ptr
  else Z.lor (Z.lor (Z.lor (at_ ptr 0) (u32 (Z.shiftl (at_ ptr 1) 8)))
                    (u32 (Z.shiftl (at_ ptr 2) 16)))
             (u32 (Z.shiftl (at_ ptr 3) 24)).

Definition DecodeFixed64_on (le : bool) (ptr : bytes) : Z :=
  if le then memcpy_to 8 ptr
  else let lo := DecodeFixed32_on le ptr in
       let hi := DecodeFixed32_on le (drop 4 ptr) in
       Z.lor (u64 (Z.shiftl hi 32)) lo.

Definition EncodeFixed16 := EncodeFixed16_on kLittleEndian.
Definition EncodeFixed32 := EncodeFixed32_on kLittleEndian.
Definition EncodeFixed64 := EncodeFixed64_on kLittleEndian.
Definition DecodeFixed16 := DecodeFixed16_on kLittleEndian.
Definition DecodeFixed32 := DecodeFixed32_on kLittleEndian.
Definition DecodeFixed64 := DecodeFixed64_on kLittleEndian.

Definition PutFixed16 (dst : bytes) (value : Z) : bytes :=
  if kLittleEndian then dst ++ memcpy_from 2 value else dst ++ EncodeFixed16 value.
Definition PutFixed32 (dst : bytes) (value : Z) : bytes :=
  if kLittleEndian then dst ++ memcpy_from 4 value else dst ++ EncodeFixed32 value.
Definition PutFixed64 (dst : bytes) (value : Z) : bytes :=
  if kLittleEndian then dst ++ memcpy_from 8 value else dst ++ EncodeFixed64 value.

Definition GetFixed64 (input : bytes) : option (Z * bytes) :=
  if zlen input <? 8 then None else Some (DecodeFixed64 input, drop 8 input).
Definition GetFixed32 (input : bytes) : option (Z * bytes) :=
  if zlen input <? 4 then None else Some (DecodeFixed32 input, drop 4 input).
Definition GetFixed16 (input : bytes) : option (Z * bytes) :=
  if zlen input <? 2 then None else Some (DecodeFixed16 input, drop 2 input).

(** ** Variable-length integers *)

Definition kMaxVarint64Length : Z := 10.

(** The bytes [EncodeVarint32] stores at [dst]; each store converts to
    [unsigned char]. *)
Definition EncodeVarint32 (v : Z) : bytes :=
  let B := 128 in
  if v <? 2 ^ 7 then [u8 v]
  else if v <? 2 ^ 14 then [u8 (Z.lor v B); u8 (Z.shiftr v 7)]
  else if v <? 2 ^ 21 then
    [u8 (Z.lor v B); u8 (Z.lor (Z.shiftr v 7) B); u8 (Z.shiftr v 14)]
  else if v <? 2 ^ 28 then
    [u8 (Z.lor v B); u8 (Z.lor (Z.shiftr v 7) B); u8 (Z.lor (Z.shiftr v 14) B);
     u8 (Z.shiftr v 21)]
  else
    [u8 (Z.lor v B); u8 (Z.lor (Z.shiftr v 7) B); u8 (Z.lor (Z.shiftr v 14) B);
     u8 (Z.lor (Z.shiftr v 21) B); u8 (Z.shiftr v 28)].

(** The loop of [EncodeVarint64]. The fuel is the number of significant bits,
    of which every iteration removes seven. *)
Fixpoint EncodeVarint64_loop (fuel : nat) (v : Z) : bytes :=
  match fuel with
  | O => [u8 v]
  | S fuel' =>
      if 128 <=? v
      then u8 (Z.lor (Z.land v (128 - 1)) 128) :: EncodeVarint64_loop fuel' (Z.shiftr v 7)
      else [u8 v]
  end.

Definition bits_fuel (v : Z) : nat := Z.to_nat (Z.log2 v + 1).

Definition EncodeVarint64 (v : Z) : bytes := EncodeVarint64_loop (bits_fuel v) v.

Fixpoint VarintLength_loop (fuel : nat) (v len : Z) : Z :=
  match fuel with
  | O => len
  | S fuel' => if 128 <=? v then VarintLength_loop fuel' (Z.shiftr v 7) (len + 1) else len
  end.

Definition VarintLength (v : Z) : Z := VarintLength_loop (bits_fuel v) v 1.

Definition PutVarint32 (dst : bytes) (v : Z) : bytes := dst ++ EncodeVarint32 v.
Definition PutVarint32Varint32 (dst : bytes) (v1 v2 : Z) : bytes :=
  dst ++ (EncodeVarint32 v1 ++ EncodeVarint32 v2).
Definition PutVarint32Varint32Varint32 (dst : bytes) (v1 v2 v3 : Z) : bytes :=
  dst ++ (EncodeVarint32 v1 ++ EncodeVarint32 v2 ++ EncodeVarint32 v3).
Definition PutVarint64 (dst : bytes) (v : Z) : bytes := dst ++ EncodeVarint64 v.
Definition PutVarint64Varint64 (dst : bytes) (v1 v2 : Z) : bytes :=
  dst ++ (EncodeVarint64 v1 ++ EncodeVarint64 v2).
Definition PutVarint32Varint64 (dst : bytes) (v1 v2 : Z) : bytes :=
  dst ++ (EncodeVarint32 v1 ++ EncodeVarint64 v2).
Definition PutVarint32Varint32Varint64 (dst : bytes) (v1 v2 v3 : Z) : bytes :=
  dst ++ (EncodeVarint32 v1 ++ EncodeVarint32 v2 ++ EncodeVarint64 v3).

(** The decoding loops read the bytes of [[p, limit)], one per iteration. The
    recursion is on those bytes; [maxshift] is 28 for 32 and 63 for 64 bits. *)
Fixpoint GetVarintPtr_loop (wrap : Z -> Z) (maxshift : Z) (p : bytes) (shift result : Z)
  : option (Z * bytes) :=
  match p with
  | [] => None
  | byte :: p' =>
      if shift <=? maxshift then
        if negb (Z.land byte 128 =? 0)
        then GetVarintPtr_loop wrap maxshift p' (shift + 7)
               (Z.lor result (wrap (Z.shiftl (Z.land byte 127) shift)))
        else Some (Z.lor result (wrap (Z.shiftl byte shift)), p')
      else None
  end.

Definition GetVarint32PtrFallback (p : bytes) : option (Z * bytes) :=
  GetVarintPtr_loop u32 28 p 0 0.

Definition GetVarint32Ptr (p : bytes) : option (Z * bytes) :=
  match p with
  | result :: p' =>
      if Z.land result 128 =? 0 then Some (result, p') else GetVarint32PtrFallback p
  | [] => GetVarint32PtrFallback p
  end.

Definition GetVarint64Ptr (p : bytes) : option (Z * bytes) :=
  GetVarintPtr_loop u64 63 p 0 0.

Definition GetVarint32 (input : bytes) : option (Z * bytes) := GetVarint32Ptr input.
Definition GetVarint64 (input : bytes) : option (Z * bytes) := GetVarint64Ptr input.

(** Zigzag: the shift of a negative [int64_t] is arithmetic, as in [Z.shiftr]. *)
Definition i64ToZigzag (l : Z) : Z :=
  Z.lxor (u64 (Z.shiftl (u64 l) 1)) (u64 (Z.shiftr l 63)).

Definition zigzagToI64 (n : Z) : Z :=
  i64 (Z.lxor (Z.shiftr n 1) (u64 (- Z.land n 1))).

Definition PutVarsignedint64 (dst : bytes) (v : Z) : bytes :=
  dst ++ EncodeVarint64 (i64ToZigzag v).

Definition GetVarsignedint64 (input : bytes) : option (Z * bytes) :=
  match GetVarint64Ptr input with
  | Some (u, q) => Some (zigzagToI64 u, q)
  | None => None
  end.

(** ** Slices *)

Definition PutLengthPrefixedSlice (dst value : bytes) : bytes :=
  PutVarint32 dst (u32 (zlen value)) ++ value.

Definition PutLengthPrefixedSliceParts (dst : bytes) (total_bytes : Z)
    (parts : list bytes) : bytes :=
  let total_bytes := fold_left (fun t p => t + zlen p) parts total_bytes in
  fold_left (fun d p => d ++ p) parts (PutVarint32 dst (u32 total_bytes)).

Definition PutLengthPrefixedSlicePartsWithPadding (dst : bytes) (parts : list bytes)
    (pad_sz : nat) : bytes :=
  PutLengthPrefixedSliceParts dst (Z.of_nat pad_sz) parts ++ replicate pad_sz 0.

(** On failure the code may have advanced [input] past the length; no caller
    reads it again. *)
Definition GetLengthPrefixedSlice (input : bytes) : option (bytes * bytes) :=
  match GetVarint32 input with
  | Some (len, rest) =>
      if len <=? zlen rest
      then Some (take (Z.to_nat len) rest, drop (Z.to_nat len) rest) else None
  | None => None
  end.

(** The overload that trusts its data: it looks at five bytes at most. *)
Definition GetLengthPrefixedSlice_data (data : bytes) : option bytes :=
  match GetVarint32Ptr (take 5 data) with
  | Some (len, rest5) =>
      let p := drop (length (take 5 data) - length rest5) data in
      Some (take (Z.to_nat len) p)
  | None => None
  end.

Fixpoint GetSliceUntil_len (slice : bytes) (delimiter : Z) : nat :=
  match slice with
  | [] => O
  | c :: slice' => if c =? delimiter then O else S (GetSliceUntil_len slice' delimiter)
  end.

(** Result: the returned slice and what is left of the argument. *)
Definition GetSliceUntil (slice : bytes) (delimiter : Z) : bytes * bytes :=
  let len := GetSliceUntil_len slice delimiter in
  (take len slice, drop (len + (if (Z.of_nat len <? zlen slice)%Z then 1 else 0))%nat slice).

(** The portable body of [EndianSwapValue] for a [size]-byte type. *)
Fixpoint EndianSwapValue_loop (size : Z) (n : nat) (v ret_val : Z) : Z :=
  match n with
  | O => ret_val
  | S n' =>
      let i := size - Z.of_nat n in
      EndianSwapValue_loop size n' v
        (Z.lor ret_val (Z.shiftl (Z.land (Z.shiftr v (8 * i)) 255) (8 * (size - 1 - i))))
  end.

Definition EndianSwapValue (size : nat) (v : Z) : Z :=
  EndianSwapValue_loop (Z.of_nat size) size v 0.

Example varint_300 : EncodeVarint32 300 = [172; 2] /\ GetVarint32 [172; 2; 9] = Some (300, [9]).
Proof. split; reflexivity. Qed.
Example zigzag_m3 : i64ToZigzag (-3) = 5 /\ zigzagToI64 5 = -3.
Proof. split; reflexivity. Qed.
Example swap32 : EndianSwapValue 4 0x01020304 = 0x04030201.
Proof. reflexivity. Qed.

(** ** Fixed-width integers: lemmas *)

Lemma memcpy_from_length n v : length (memcpy_from n v) = n.
Proof. revert v. induction n; intros; simpl; auto. Qed.

Lemma memcpy_from_bytes n v : is_bytes (memcpy_from n v).
Proof.
  revert v. induction n; intros; simpl; constructor; [apply Z.mod_pos_bound; lia | apply IHn].
Qed.

Lemma memcpy_to_from n v rest :
  memcpy_to n (memcpy_from n v ++ rest) = v mod 256 ^ Z.of_nat n.
Proof.
  revert v. induction n as [|n IH]; intros v.
  - symmetry. apply Z.mod_1_r.
  - cbn [memcpy_to memcpy_from app]. rewrite IH.
    rewrite Nat2Z.inj_succ, Z.pow_succ_r by lia.
    rewrite Z.rem_mul_r by lia. lia.
Qed.

Lemma memcpy_to_from_id n v rest :
  0 <= v < 256 ^ Z.of_nat n -> memcpy_to n (memcpy_from n v ++ rest) = v.
Proof. intros. rewrite memcpy_to_from. apply Z.mod_small. lia. Qed.

Lemma memcpy_from_to n p :
  is_bytes p -> length p = n -> memcpy_from n (memcpy_to n p) = p.
Proof.
  revert p. induction n as [|n IH]; intros p Hp Hl; destruct p as [|b p]; try discriminate.
  - reflexivity.
  - inv_bytes. cbn [memcpy_to memcpy_from].
    rewrite (Z.mul_comm 256), Z.mod_add, Z.div_add, (Z.mod_small b), (Z.div_small b) by lia.
    rewrite Z.add_0_l, IH; auto.
Qed.

(** [(v >> 8*i) & 0xff], the byte the portable branch stores. *)
Lemma shr_land_byte v i : 0 <= i -> u8 (Z.land (Z.shiftr v i) 255) = v / 2 ^ i mod 256.
Proof.
  intros. change 255 with (2 ^ 8 - 1). rewrite land_ones_mod, shiftr_div by lia.
  unfold u8. apply Z.mod_mod. lia.
Qed.

Lemma land_byte v : u8 (Z.land v 255) = v mod 256.
Proof. rewrite <- (Z.shiftr_0_r v) at 1. rewrite shr_land_byte by lia. f_equal. apply Z.div_1_r. Qed.

Lemma EncodeFixed32_portable v : EncodeFixed32_on false v = memcpy_from 4 v.
Proof.
  unfold EncodeFixed32_on. cbn [memcpy_from].
  rewrite land_byte, !shr_land_byte by lia.
  rewrite !Z.div_div by lia. reflexivity.
Qed.

Lemma EncodeFixed64_portable v : EncodeFixed64_on false v = memcpy_from 8 v.
Proof.
  unfold EncodeFixed64_on. cbn [memcpy_from].
  rewrite land_byte, !shr_land_byte by lia.
  rewrite !Z.div_div by lia. reflexivity.
Qed.

Lemma DecodeFixed32_portable b0 b1 b2 b3 rest :
  is_bytes [b0; b1; b2; b3] ->
  DecodeFixed32_on false ([b0; b1; b2; b3] ++ rest) = memcpy_to 4 ([b0; b1; b2; b3] ++ rest).
Proof.
  intros H. inv_bytes.
  unfold DecodeFixed32_on, at_. cbn [nth app memcpy_to].
  rewrite !u32_small by (rewrite ?Z.shiftl_mul_pow2 by lia; lia).
  rewrite (lor_shiftl_add b0) by lia.
  rewrite (lor_shiftl_add (b0 + b1 * 2 ^ 8)) by lia. rewrite lor_shiftl_add by lia. lia.
Qed.

Lemma GetFixed32_app v rest :
  0 <= v < 2 ^ 32 -> GetFixed32 (memcpy_from 4 v ++ rest) = Some (v, rest).
Proof.
  intros. unfold GetFixed32, DecodeFixed32, DecodeFixed32_on, kLittleEndian.
  rewrite memcpy_to_from_id by lia. autorewrite with zlen.
  case_bool; [pose proof (zlen_nonneg rest); unfold zlen in *; rewrite memcpy_from_length in *; lia|].
  rewrite drop_app_length'; [reflexivity | by rewrite memcpy_from_length].
Qed.

Lemma GetFixed64_app v rest :
  0 <= v < 2 ^ 64 -> GetFixed64 (memcpy_from 8 v ++ rest) = Some (v, rest).
Proof.
  intros. unfold GetFixed64, DecodeFixed64, DecodeFixed64_on, kLittleEndian.
  rewrite memcpy_to_from_id by lia. autorewrite with zlen.
  case_bool; [pose proof (zlen_nonneg rest); unfold zlen in *; rewrite memcpy_from_length in *; lia|].
  rewrite drop_app_length'; [reflexivity | by rewrite memcpy_from_length].
Qed.

(** ** Variable-length integers: lemmas *)

Lemma byte_flag b : 0 <= b < 128 -> Z.land b 128 = 0.
Proof.
  intros. apply Z.bits_inj'. intros i Hi.
  rewrite Z.land_spec, Z.bits_0. change 128 with (2 ^ 7).
  destruct (Z.eq_dec i 7) as [->|].
  - rewrite <- (Z.mod_small b (2 ^ 7)) by lia. rewrite Z.mod_pow2_bits_high by lia. reflexivity.
  - rewrite Z.pow2_bits_false by lia. apply andb_false_r.
Qed.

Lemma lor_128 b : 0 <= b < 128 -> Z.lor b 128 = b + 128.
Proof. intros. exact (lor_shiftl_add b 1 7 ltac:(lia) ltac:(lia)). Qed.

Lemma byte_cont b : 0 <= b < 128 -> Z.land (b + 128) 128 <> 0 /\ Z.land (b + 128) 127 = b.
Proof.
  intros. split.
  - intros E. apply (f_equal (fun z => Z.testbit z 7)) in E.
    rewrite <- (lor_128 b), Z.land_spec, Z.lor_spec, Z.bits_0 in E by lia.
    change (Z.testbit 128 7) with true in E. rewrite orb_true_r in E. discriminate.
  - change 127 with (2 ^ 7 - 1). rewrite land_ones_mod by lia.
    replace (b + 128) with (b + 1 * 2 ^ 7) by lia. rewrite Z.mod_add, Z.mod_small by lia. lia.
Qed.

(** The byte with the continuation flag, as the unrolled code writes it. *)
Lemma cont_byte_unrolled v : 0 <= v -> u8 (Z.lor v 128) = v mod 128 + 128.
Proof.
  intros. unfold u8. rewrite <- (Z.land_ones _ 8), Z.land_lor_distr_l by lia.
  change (Z.land 128 (Z.ones 8)) with 128. rewrite Z.land_ones by lia.
  assert (Hb : is_byte (v mod 2 ^ 8)) by (apply Z.mod_pos_bound; lia).
  assert (E : v mod 128 = (v mod 2 ^ 8) mod 128).
  { change (2 ^ 8) with (128 * 2). rewrite Z.rem_mul_r, Z.mul_comm, Z.mod_add, Z.mod_mod by lia. done. }
  rewrite E. generalize dependent (v mod 2 ^ 8). intros b Hb _.
  apply Z.eqb_eq. revert b Hb. apply byte_forall. vm_compute. reflexivity.
Qed.

Lemma cont_byte_loop v : u8 (Z.lor (Z.land v (128 - 1)) 128) = v mod 128 + 128.
Proof.
  change (128 - 1) with (2 ^ 7 - 1). rewrite land_ones_mod by lia.
  pose proof (Z.mod_pos_bound v (2 ^ 7) ltac:(lia)). pow2_norm.
  rewrite lor_128, u8_small by (pow2_norm; lia). done.
Qed.

Lemma EncodeVarint64_loop_step fuel v :
  EncodeVarint64_loop (S fuel) v
  = if 128 <=? v then v mod 128 + 128 :: EncodeVarint64_loop fuel (v / 128) else [u8 v].
Proof. cbn [EncodeVarint64_loop]. rewrite cont_byte_loop, shiftr_div by lia. reflexivity. Qed.

Lemma log2_div128 v : 128 <= v -> Z.log2 (v / 128) <= Z.log2 v - 7.
Proof.
  intros. change 128 with (2 ^ 7). rewrite <- Z.shiftr_div_pow2, Z.log2_shiftr by lia.
  pose proof (Z.log2_le_mono 128 v ltac:(lia)). change (Z.log2 128) with 7 in *. lia.
Qed.

(** More fuel than significant bits changes nothing. *)
Lemma EncodeVarint64_fuel n m v :
  (bits_fuel v <= n)%nat -> (bits_fuel v <= m)%nat ->
  EncodeVarint64_loop n v = EncodeVarint64_loop m v.
Proof.
  revert m v. induction n as [|n IH]; intros m v Hn Hm; unfold bits_fuel in *.
  - pose proof (Z.log2_nonneg v). lia.
  - destruct m as [|m]; [pose proof (Z.log2_nonneg v); lia|].
    rewrite !EncodeVarint64_loop_step. destruct (Z.leb_spec 128 v); [|done].
    f_equal. pose proof (log2_div128 v ltac:(lia)). apply IH; unfold bits_fuel; lia.
Qed.

Lemma EncodeVarint64_eq v :
  EncodeVarint64 v = if 128 <=? v then v mod 128 + 128 :: EncodeVarint64 (v / 128) else [u8 v].
Proof.
  unfold EncodeVarint64 at 1.
  rewrite (EncodeVarint64_fuel _ (S (bits_fuel v))) by lia.
  rewrite EncodeVarint64_loop_step. destruct (Z.leb_spec 128 v); [|done].
  f_equal. pose proof (log2_div128 v ltac:(lia)). apply EncodeVarint64_fuel; unfold bits_fuel; lia.
Qed.

Lemma VarintLength_loop_add fuel v len k :
  VarintLength_loop fuel v (len + k) = VarintLength_loop fuel v len + k.
Proof.
  revert v len. induction fuel as [|fuel IH]; intros; simpl; [done|].
  case_match; [|done]. rewrite <- IH. f_equal. lia.
Qed.

(** Induction that follows the seven-bit groups of an encoding. *)
Lemma varint_ind (P : Z -> Prop) :
  (forall v, 0 <= v < 128 -> P v) ->
  (forall v, 128 <= v -> P (v / 128) -> P v) ->
  forall v, 0 <= v -> P v.
Proof.
  intros Hs Hl v. induction (Z.lt_wf 0 v) as [v _ IH]. intros Hv.
  destruct (Z.lt_ge_cases v 128); [apply Hs; lia|].
  apply Hl; [lia|]. apply IH; cbv beta; div_lia.
Qed.

Lemma VarintLength_encode v : 0 <= v -> VarintLength v = zlen (EncodeVarint64 v).
Proof.
  intros Hv. unfold VarintLength, EncodeVarint64. generalize (bits_fuel v) as n.
  revert v Hv. intros v Hv n. revert v Hv. induction n as [|n IH]; intros v Hv; [done|].
  rewrite EncodeVarint64_loop_step. cbn [VarintLength_loop].
  destruct (128 <=? v); [|done]. rewrite VarintLength_loop_add, shiftr_div by lia.
  change (2 ^ 7) with 128. rewrite zlen_cons, IH; [lia|]. apply Z.div_pos; lia.
Qed.

Lemma EncodeVarint64_length v k :
  0 <= v < 2 ^ (7 * Z.of_nat k) -> (0 < k)%nat -> (length (EncodeVarint64 v) <= k)%nat.
Proof.
  revert v. induction k as [|k IH]; intros v Hv Hk; [lia|].
  rewrite EncodeVarint64_eq. case_bool; [|simpl; lia]. cbn [length].
  rewrite Nat2Z.inj_succ, Z.mul_succ_r, Z.pow_add_r in Hv by lia. change (2 ^ 7) with 128 in Hv.
  destruct k as [|k]; [simpl in *; lia|].
  enough (length (EncodeVarint64 (v / 128)) <= S k)%nat by lia.
  apply IH; [|lia]. split; [apply Z.div_pos; lia | apply Z.div_lt_upper_bound; lia].
Qed.

Lemma EncodeVarint64_bytes v : 0 <= v -> is_bytes (EncodeVarint64 v).
Proof.
  revert v. apply varint_ind; intros v Hv; rewrite (EncodeVarint64_eq v); case_bool; try lia.
  - repeat constructor; apply u8_range.
  - intros IH. constructor; [|done]. pose proof (Z.mod_pos_bound v 128 ltac:(lia)). red. lia.
Qed.

(** The unrolled 32-bit encoder writes what the 64-bit loop writes. *)
Lemma EncodeVarint32_loop v : 0 <= v < 2 ^ 32 -> EncodeVarint32 v = EncodeVarint64 v.
Proof.
  intros Hv. unfold EncodeVarint32.
  rewrite !cont_byte_unrolled, !shiftr_div by (rewrite ?shiftr_div by lia; try apply Z.div_pos; lia).
  repeat (case_match; case_bool; try lia);
    repeat (rewrite EncodeVarint64_eq; case_bool; try div_lia); unfold u8;
    repeat (apply (f_equal2 (@cons Z)); [div_lia|]); done.
Qed.

Section VarintDecode.
Context (wrap : Z -> Z) (w maxshift : Z).
Hypothesis wrap_small : forall z, 0 <= z < 2 ^ w -> wrap z = z.
Hypothesis maxshift_ok : forall k, 0 <= k -> 7 * k < w -> 7 * k <= maxshift.

(** The decoding loop, started anywhere in the shift sequence, adds the encoded
    number at its position and stops right behind it. *)
Lemma GetVarintPtr_loop_encode v :
  0 <= v -> forall k result rest,
  0 <= k -> 7 * k < w -> 0 <= result < 2 ^ (7 * k) -> v * 2 ^ (7 * k) < 2 ^ w ->
  GetVarintPtr_loop wrap maxshift (EncodeVarint64 v ++ rest) (7 * k) result
  = Some (result + v * 2 ^ (7 * k), rest).
Proof using All.
  revert v. refine (varint_ind _ _ _); intros v Hv.
  - intros k result rest Hk Hw Hr Hvw. rewrite EncodeVarint64_eq. case_bool; [lia|].
    rewrite u8_small by lia. cbn [app GetVarintPtr_loop].
    destruct (Z.leb_spec (7 * k) maxshift); [|specialize (maxshift_ok k); lia].
    rewrite byte_flag by lia. cbn.
    rewrite wrap_small by (rewrite Z.shiftl_mul_pow2 by lia; lia).
    rewrite lor_shiftl_add by lia. reflexivity.
  - intros IH k result rest Hk Hw Hr Hvw. rewrite (EncodeVarint64_eq v). case_bool; [|lia].
    cbn [app GetVarintPtr_loop].
    destruct (Z.leb_spec (7 * k) maxshift); [|specialize (maxshift_ok k); lia].
    pose proof (Z.mod_pos_bound v 128 ltac:(lia)) as Hm.
    destruct (byte_cont (v mod 128) Hm) as [E1 E2]. rewrite E2.
    apply Z.eqb_neq in E1. rewrite E1. cbn [negb].
    assert (Hp : 2 ^ (7 * (k + 1)) = 2 ^ (7 * k) * 128)
      by (replace (7 * (k + 1)) with (7 * k + 7) by lia; rewrite Z.pow_add_r by lia; done).
    assert (Hdm := Z.div_mod v 128 ltac:(lia)).
    assert (Hnext : v / 128 * 2 ^ (7 * (k + 1)) < 2 ^ w) by nia.
    rewrite wrap_small by (rewrite Z.shiftl_mul_pow2 by lia; nia).
    rewrite lor_shiftl_add by lia.
    replace (7 * k + 7) with (7 * (k + 1)) by lia. rewrite IH; [| |  | nia |]; try lia.
    + f_equal. f_equal. nia.
    + assert (1 <= v / 128) by div_lia.
      apply (Z.pow_lt_mono_r_iff 2); [lia| |nia].
      destruct (Z.lt_ge_cases w 0); [|lia]. rewrite (Z.pow_neg_r 2 w) in Hvw by lia. nia.
Qed.
End VarintDecode.

Lemma GetVarint64_app v rest :
  0 <= v < 2 ^ 64 -> GetVarint64 (EncodeVarint64 v ++ rest) = Some (v, rest).
Proof.
  intros. unfold GetVarint64, GetVarint64Ptr.
  pose proof (GetVarintPtr_loop_encode u64 64 63 u64_small ltac:(lia) v ltac:(lia) 0 0 rest) as E.
  rewrite Z.mul_0_r, Z.pow_0_r in E. rewrite E by lia. f_equal. f_equal. lia.
Qed.

Lemma GetVarint32PtrFallback_app v rest :
  0 <= v < 2 ^ 32 -> GetVarint32PtrFallback (EncodeVarint64 v ++ rest) = Some (v, rest).
Proof.
  intros. unfold GetVarint32PtrFallback.
  pose proof (GetVarintPtr_loop_encode u32 32 28 u32_small ltac:(lia) v ltac:(lia) 0 0 rest) as E.
  rewrite Z.mul_0_r, Z.pow_0_r in E. rewrite E by lia. f_equal. f_equal. lia.
Qed.

(** The fast path for one-byte values agrees with the general loop. *)
Lemma GetVarint32Ptr_fallback p : is_bytes p -> GetVarint32Ptr p = GetVarint32PtrFallback p.
Proof.
  intros Hp. destruct p as [|b p]; [done|]. inv_bytes. unfold GetVarint32Ptr.
  destruct (Z.eqb_spec (Z.land b 128) 0) as [E|]; [|done].
  unfold GetVarint32PtrFallback. cbn [GetVarintPtr_loop]. rewrite E. cbn.
  rewrite Z.shiftl_0_r, Z.lor_0_l, u32_small by lia. done.
Qed.

Lemma GetVarint32_app v rest :
  0 <= v < 2 ^ 32 -> GetVarint32 (EncodeVarint32 v ++ rest) = Some (v, rest).
Proof.
  intros Hv. rewrite EncodeVarint32_loop by done. rewrite <- (GetVarint32PtrFallback_app v rest) by done.
  unfold GetVarint32, GetVarint32Ptr. rewrite EncodeVarint64_eq. case_bool; cbn [app].
  - destruct (byte_cont (v mod 128) (Z.mod_pos_bound v 128 ltac:(lia))) as [E _].
    apply Z.eqb_neq in E. rewrite E. done.
  - rewrite u8_small, byte_flag by lia. unfold GetVarint32PtrFallback. cbn [GetVarintPtr_loop].
    rewrite byte_flag by lia. cbn. rewrite Z.shiftl_0_r, Z.lor_0_l, u32_small by lia. done.
Qed.

Lemma GetLengthPrefixedSlice_app value rest :
  zlen value < 2 ^ 32 ->
  GetLengthPrefixedSlice (EncodeVarint32 (u32 (zlen value)) ++ value ++ rest) = Some (value, rest).
Proof.
  intros H. pose proof (zlen_nonneg value). rewrite u32_small by lia.
  unfold GetLengthPrefixedSlice. rewrite GetVarint32_app by lia.
  autorewrite with zlen. pose proof (zlen_nonneg rest). case_bool; [|lia].
  unfold zlen. rewrite Nat2Z.id, take_app_length, drop_app_length. done.
Qed.

(** Every successful parse consumes input. *)
Lemma GetVarintPtr_loop_shorter wrap maxshift p shift result v q :
  GetVarintPtr_loop wrap maxshift p shift result = Some (v, q) -> (length q < length p)%nat.
Proof.
  revert shift result. induction p as [|b p IH]; intros shift result; simpl; [done|].
  repeat case_match; try done; intros E; [|simplify_eq; lia].
  apply IH in E. lia.
Qed.

Lemma GetVarint32_shorter p v q : GetVarint32 p = Some (v, q) -> (length q < length p)%nat.
Proof.
  unfold GetVarint32, GetVarint32Ptr. destruct p as [|b p]; [done|]. case_match.
  - intros; simplify_eq; simpl; lia.
  - apply GetVarintPtr_loop_shorter.
Qed.

Lemma GetLengthPrefixedSlice_shorter p s q :
  GetLengthPrefixedSlice p = Some (s, q) -> (length q < length p)%nat.
Proof.
  unfold GetLengthPrefixedSlice. repeat case_match; try done. intros; simplify_eq.
  apply GetVarint32_shorter in H. rewrite length_drop. lia.
Qed.

(** ** Zigzag *)

Lemma lxor_ones_sub n x : 0 <= n -> 0 <= x < 2 ^ n -> Z.lxor x (Z.ones n) = Z.ones n - x.
Proof.
  intros Hn Hx. set (y := Z.lxor x (Z.ones n)).
  assert (Hy : Z.lxor x y = Z.ones n) by (unfold y; rewrite <- Z.lxor_assoc, Z.lxor_nilpotent, Z.lxor_0_l; done).
  assert (Hd : Z.land x y = 0).
  { apply Z.bits_inj'. intros i Hi. unfold y.
    rewrite Z.land_spec, Z.lxor_spec, Z.bits_0.
    destruct (Z.lt_ge_cases i n).
    - rewrite Z.ones_spec_low by lia. destruct (Z.testbit x i); done.
    - rewrite <- (Z.mod_small x (2 ^ n)), Z.mod_pow2_bits_high by lia. done. }
  rewrite <- Hy, <- Z.add_nocarry_lxor by done. lia.
Qed.

Lemma i64ToZigzag_spec l :
  - 2 ^ 63 <= l < 2 ^ 63 -> i64ToZigzag l = if 0 <=? l then 2 * l else - 2 * l - 1.
Proof.
  intros Hl. unfold i64ToZigzag. rewrite shiftr_div, Z.shiftl_mul_pow2 by lia. case_bool.
  - rewrite (Z.div_small l) by lia. change (u64 0) with 0. rewrite Z.lxor_0_r.
    unfold u64. div_lia.
  - assert (l / 2 ^ 63 = -1) as -> by div_lia. change (u64 (-1)) with (Z.ones 64).
    assert (u64 (u64 l * 2 ^ 1) = 2 * l + 2 ^ 64) as -> by (unfold u64; div_lia).
    rewrite lxor_ones_sub by lia. change (Z.ones 64) with (2 ^ 64 - 1). lia.
Qed.

Lemma zigzag_roundtrip l : - 2 ^ 63 <= l < 2 ^ 63 -> zigzagToI64 (i64ToZigzag l) = l.
Proof.
  intros Hl. rewrite i64ToZigzag_spec by done. unfold zigzagToI64.
  rewrite shiftr_div by lia. change (Z.land ?n 1) with (Z.land n (2 ^ 1 - 1)).
  rewrite land_ones_mod by lia. case_bool.
  - replace ((2 * l) mod 2 ^ 1) with 0 by div_lia. replace (2 * l / 2 ^ 1) with l by div_lia.
    change (u64 (- 0)) with 0. rewrite Z.lxor_0_r. apply i64_small. lia.
  - replace ((- 2 * l - 1) mod 2 ^ 1) with 1 by div_lia.
    replace ((- 2 * l - 1) / 2 ^ 1) with (- l - 1) by div_lia.
    change (u64 (- (1))) with (Z.ones 64). rewrite lxor_ones_sub by lia.
    change (Z.ones 64) with (2 ^ 64 - 1). unfold i64. div_lia.
Qed.

(** ** Properties *)

(** The byte-by-byte branch of [EncodeFixed32] and [EncodeFixed64], which
    big-endian machines take, writes the bytes the little-endian [memcpy] branch
    writes, and [GetFixed32]/[GetFixed64] read back, from any continuation, the
    32- or 64-bit number that was put. *)
Theorem fixed_roundtrip v32 v64 rest :
  0 <= v32 < 2 ^ 32 -> 0 <= v64 < 2 ^ 64 ->
  EncodeFixed32_on false v32 = EncodeFixed32_on true v32 /\
  EncodeFixed64_on false v64 = EncodeFixed64_on true v64 /\
  GetFixed32 (PutFixed32 [] v32 ++ rest) = Some (v32, rest) /\
  GetFixed64 (PutFixed64 [] v64 ++ rest) = Some (v64, rest).
Proof.
  intros. rewrite EncodeFixed32_portable, EncodeFixed64_portable.
  unfold PutFixed32, PutFixed64, kLittleEndian. rewrite !app_nil_l.
  rewrite GetFixed32_app, GetFixed64_app by done. done.
Qed.

Lemma fixed_roundtrip_witness :
  GetFixed32 (PutFixed32 [] 0xdeadbeef ++ [7]) = Some (0xdeadbeef, [7]).
Proof. apply (fixed_roundtrip 0xdeadbeef 0x0102030405060708 [7]); lia. Defined.

(** Variable-length integers round-trip: what [PutVarint32], [PutVarint64] and
    the zigzag [PutVarsignedint64] append is read back by [GetVarint32],
    [GetVarint64] and [GetVarsignedint64], which leave exactly the bytes behind
    it; the unrolled 32-bit encoder writes the bytes of the 64-bit loop, and
    [VarintLength] is the number of bytes written, at most
    [kMaxVarint64Length]. *)
Theorem varint_roundtrip v32 v64 s64 rest :
  0 <= v32 < 2 ^ 32 -> 0 <= v64 < 2 ^ 64 -> - 2 ^ 63 <= s64 < 2 ^ 63 ->
  EncodeVarint32 v32 = EncodeVarint64 v32 /\
  GetVarint32 (PutVarint32 [] v32 ++ rest) = Some (v32, rest) /\
  GetVarint64 (PutVarint64 [] v64 ++ rest) = Some (v64, rest) /\
  GetVarsignedint64 (PutVarsignedint64 [] s64 ++ rest) = Some (s64, rest) /\
  VarintLength v64 = zlen (EncodeVarint64 v64) /\
  VarintLength v64 <= kMaxVarint64Length /\ VarintLength v32 <= 5.
Proof.
  intros H32 H64 Hs. unfold PutVarint32, PutVarint64, PutVarsignedint64, GetVarsignedint64.
  rewrite !app_nil_l, GetVarint32_app, GetVarint64_app, EncodeVarint32_loop by done.
  rewrite !VarintLength_encode by lia.
  change GetVarint64Ptr with GetVarint64. rewrite GetVarint64_app, zigzag_roundtrip
    by (rewrite ?i64ToZigzag_spec by done; case_bool; lia).
  pose proof (EncodeVarint64_length v64 10 ltac:(lia) ltac:(lia)).
  pose proof (EncodeVarint64_length v32 5 ltac:(lia) ltac:(lia)).
  unfold kMaxVarint64Length, zlen. repeat split; lia.
Qed.

Lemma varint_roundtrip_witness :
  GetVarint32 (PutVarint32 [] 300 ++ [1; 2]) = Some (300, [1; 2]) /\
  GetVarsignedint64 (PutVarsignedint64 [] (-300) ++ [1; 2]) = Some (-300, [1; 2]).
Proof.
  destruct (varint_roundtrip 300 (2 ^ 63) (-300) [1; 2]) as (_ & H1 & _ & H2 & _); [lia..|].
  exact (conj H1 H2).
Defined.

(** A length-prefixed slice is parsed back exactly, whatever bytes follow it;
    an encoded slice that is cut inside its payload is rejected. *)
Theorem length_prefixed_roundtrip value rest n :
  zlen value < 2 ^ 32 -> (n < length value)%nat ->
  GetLengthPrefixedSlice (PutLengthPrefixedSlice [] value ++ rest) = Some (value, rest) /\
  GetLengthPrefixedSlice (PutVarint32 [] (u32 (zlen value)) ++ take n value) = None.
Proof.
  intros Hv Hn. unfold PutLengthPrefixedSlice, PutVarint32. rewrite app_nil_l, <- app_assoc.
  rewrite GetLengthPrefixedSlice_app by done. split; [done|].
  rewrite u32_small by (unfold zlen in *; lia).
  unfold GetLengthPrefixedSlice. rewrite GetVarint32_app by (unfold zlen in *; lia).
  case_bool; [|done]. unfold zlen in *. rewrite length_take in *. lia.
Qed.

Lemma length_prefixed_roundtrip_witness :
  GetLengthPrefixedSlice (PutLengthPrefixedSlice [] [104; 105] ++ [0]) = Some ([104; 105], [0]).
Proof. apply (length_prefixed_roundtrip [104; 105] [0] 1); [reflexivity | simpl; lia]. Defined.
