(* ===== verification/Log.v ===== *)
(** * The write-ahead log ([db/log_format.h], [db/log_writer.cc], [db/log_reader.cc])

    [Writer::AddRecord] cuts a record into fragments that do not cross the 32 KiB
    blocks of the file; [Reader::ReadRecord] puts it together again and decides what
    a damaged or unfinished tail means. The file below the writer is an interface
    whose operations may fail; the file below the reader is its contents and a flag
    that makes the next read fail. [FragmentBufferedReader] is not modelled. *)

From S2P Require Import Prelude Coding Crc32c.

(** ** Format *)

Definition kZeroType : Z := 0.
Definition kFullType : Z := 1.
Definition kFirstType : Z := 2.
Definition kMiddleType : Z := 3.
Definition kLastType : Z := 4.
Definition kRecyclableFullType : Z := 5.
Definition kRecyclableFirstType : Z := 6.
Definition kRecyclableMiddleType : Z := 7.
Definition kRecyclableLastType : Z := 8.
Definition kMaxRecordType : Z := kRecyclableLastType.

Definition kBlockSize : Z := 32768.

Definition kHeaderSize : Z := 4 + 2 + 1.

Definition kRecyclableHeaderSize : Z := 4 + 2 + 1 + 4.

(** ** Writer *)

(** [WritableFileWriter]: every call returns whether it succeeded. *)
Class WritableFile (F : Type) := {
  file_Append : F -> bytes -> bool * F;
  file_Flush : F -> bool * F
}.

Record Writer (F : Type) := mkWriter {
  dest_ : F;
  block_offset_ : Z;
  w_log_number_ : Z;
  recycle_log_files_ : bool;
  manual_flush_ : bool
}.
Arguments mkWriter {F}.
Arguments dest_ {F}.
Arguments block_offset_ {F}.
Arguments w_log_number_ {F}.
Arguments recycle_log_files_ {F}.
Arguments manual_flush_ {F}.

Section Writer.
Context {F : Type} `{!WritableFile F}.

Definition Writer_new (dest : F) (log_number : Z) (recycle_log_files manual_flush : bool) : Writer F :=
  mkWriter dest 0 log_number recycle_log_files manual_flush.

Definition moved (w : Writer F) (dest : F) (block_offset : Z) : Writer F :=
  mkWriter dest block_offset (w_log_number_ w) (recycle_log_files_ w) (manual_flush_ w).

(** [type_crc_[t]]. *)
Definition type_crc_ (t : Z) : Z := Value [u8 t].

Definition header_size_of (t : Z) : Z := if t <? kRecyclableFullType then kHeaderSize else kRecyclableHeaderSize.

(** The log number that the header of a recyclable record has. *)
Definition log_number_bytes (log_number t : Z) : bytes :=
  if t <? kRecyclableFullType then [] else EncodeFixed32 (u32 log_number).

(** The header: checksum, length, type, log number. *)
Definition format_header (log_number t : Z) (payload : bytes) : bytes :=
  let n := zlen payload in
  let crc := type_crc_ t in
  let crc := if t <? kRecyclableFullType then crc else Extend crc (log_number_bytes log_number t) in
  let crc := Extend crc payload in
  let crc := Mask crc in
  EncodeFixed32 crc ++ [u8 (Z.land n 255); u8 (Z.shiftr n 8); u8 t] ++ log_number_bytes log_number t.

(** [None] where an assertion fails. *)
Definition EmitPhysicalRecord (w : Writer F) (t : Z) (payload : bytes) : option (bool * Writer F) :=
  let n := zlen payload in
  if n >? 0xffff then None
  else
    let header_size := header_size_of t in
    if block_offset_ w + header_size + n >? kBlockSize then None
    else
      let '(s, dest) := file_Append (dest_ w) (format_header (w_log_number_ w) t payload) in
      let '(s, dest) := if s : bool then file_Append dest payload else (s, dest) in
      Some (s, moved w dest (block_offset_ w + header_size + n)).

Definition fragment_type (recycle begin_ end_ : bool) : Z :=
  if begin_ && end_ then if recycle then kRecyclableFullType else kFullType
  else if begin_ then if recycle then kRecyclableFirstType else kFirstType
  else if end_ then if recycle then kRecyclableLastType else kLastType
  else if recycle then kRecyclableMiddleType else kMiddleType.

(** Switches to a new block where the header does not fit in this one. *)
Definition switch_block (w : Writer F) (header_size : Z) : bool * Writer F :=
  let leftover := kBlockSize - block_offset_ w in
  if leftover <? header_size then
    if leftover >? 0 then
      let '(s, dest) := file_Append (dest_ w) (replicate (Z.to_nat leftover) 0) in
      (s, moved w dest (if s : bool then 0 else block_offset_ w))
    else (true, moved w (dest_ w) 0)
  else (true, w).

(** The [do] loop of [AddRecord]. [None] where an assertion fails, or the fuel is
    out. *)
Fixpoint add_loop (fuel : nat) (w : Writer F) (data : bytes) (begin_ : bool) : option (bool * Writer F) :=
  match fuel with
  | O => None
  | S fuel' =>
      let header_size := if recycle_log_files_ w then kRecyclableHeaderSize else kHeaderSize in
      if kBlockSize - block_offset_ w <? 0 then None
      else
        let '(s, w) := switch_block w header_size in
        if negb s then Some (false, w)
        else if kBlockSize - block_offset_ w <? header_size then None
        else
          let avail := kBlockSize - block_offset_ w - header_size in
          let left := zlen data in
          let fragment_length := if left <? avail then left else avail in
          let end_ := left =? fragment_length in
          let type := fragment_type (recycle_log_files_ w) begin_ end_ in
          '(s, w) ← EmitPhysicalRecord w type (take (Z.to_nat fragment_length) data);
          let data := drop (Z.to_nat fragment_length) data in
          if s && (zlen data >? 0) then add_loop fuel' w data false else Some (s, w)
  end.

(** A turn that takes no byte fills a block, so that the next one takes some. *)
Definition AddRecord (w : Writer F) (slice : bytes) : option (bool * Writer F) :=
  '(s, w) ← add_loop (2 * length slice + 2) w slice true;
  if s && negb (manual_flush_ w) then
    let '(s, dest) := file_Flush (dest_ w) in Some (s, moved w dest (block_offset_ w))
  else Some (s, w).
End Writer.

(** ** Reader *)

Definition kEof : Z := kMaxRecordType + 1.
Definition kBadRecord : Z := kMaxRecordType + 2.
Definition kBadHeader : Z := kMaxRecordType + 3.
Definition kOldRecord : Z := kMaxRecordType + 4.
Definition kBadRecordLen : Z := kMaxRecordType + 5.
Definition kBadRecordChecksum : Z := kMaxRecordType + 6.

Inductive WALRecoveryMode :=
  | kTolerateCorruptedTailRecords
  | kAbsoluteConsistency
  | kPointInTimeRecovery
  | kSkipAnyCorruptedRecords.

#[global] Instance mode_eq_dec : EqDecision WALRecoveryMode.
Proof. solve_decision. Defined.

(** What the reporter is told, with the number of bytes dropped. *)
Inductive reason :=
  | partial_record_without_end
  | missing_start_of_fragmented_record
  | truncated_header
  | error_reading_trailing_data
  | error_in_middle_of_record
  | bad_record_length
  | checksum_mismatch
  | unknown_record_type
  | read_failed.

Record Reader := mkReader {
  rd_file : bytes;            (* what has not been read *)
  rd_fails : bool;            (* the next read fails *)
  buffer_ : bytes;
  eof_ : bool;
  read_error_ : bool;
  eof_offset_ : Z;
  last_record_offset_ : Z;
  end_of_buffer_offset_ : Z;
  recycled_ : bool;
  rd_reports : list (Z * reason)
}.

Definition Reader_new (file : bytes) (fails : bool) : Reader :=
  mkReader file fails [] false false 0 0 0 false [].

Definition set_buffer (r : Reader) (buffer : bytes) : Reader :=
  mkReader (rd_file r) (rd_fails r) buffer (eof_ r) (read_error_ r) (eof_offset_ r) (last_record_offset_ r)
    (end_of_buffer_offset_ r) (recycled_ r) (rd_reports r).

Definition set_recycled (r : Reader) : Reader :=
  mkReader (rd_file r) (rd_fails r) (buffer_ r) (eof_ r) (read_error_ r) (eof_offset_ r) (last_record_offset_ r)
    (end_of_buffer_offset_ r) true (rd_reports r).

Definition set_last_record_offset (r : Reader) (off : Z) : Reader :=
  mkReader (rd_file r) (rd_fails r) (buffer_ r) (eof_ r) (read_error_ r) (eof_offset_ r) off
    (end_of_buffer_offset_ r) (recycled_ r) (rd_reports r).

(** [ReportCorruption], [ReportDrop]. *)
Definition ReportDrop (r : Reader) (n : Z) (why : reason) : Reader :=
  mkReader (rd_file r) (rd_fails r) (buffer_ r) (eof_ r) (read_error_ r) (eof_offset_ r) (last_record_offset_ r)
    (end_of_buffer_offset_ r) (recycled_ r) (rd_reports r ++ [(n, why)]).

(** [ReadMore]: whether there is more to look at, the error and the bytes dropped. *)
Definition ReadMore (r : Reader) (drop_size : Z) : bool * Reader * Z * Z :=
  if negb (eof_ r) && negb (read_error_ r) then
    if rd_fails r then
      let r := mkReader (rd_file r) (rd_fails r) [] (eof_ r) true (eof_offset_ r) (last_record_offset_ r)
                 (end_of_buffer_offset_ r) (recycled_ r) (rd_reports r) in
      (false, ReportDrop r kBlockSize read_failed, kEof, drop_size)
    else
      let buffer := take (Z.to_nat kBlockSize) (rd_file r) in
      let short := zlen buffer <? kBlockSize in
      (true,
       mkReader (drop (Z.to_nat kBlockSize) (rd_file r)) (rd_fails r) buffer (if short then true else eof_ r)
         (read_error_ r) (if short then zlen buffer else eof_offset_ r) (last_record_offset_ r)
         (u64 (end_of_buffer_offset_ r + zlen buffer)) (recycled_ r) (rd_reports r),
       kEof, drop_size)
  else if 0 <? zlen (buffer_ r) then (false, set_buffer r [], kBadHeader, zlen (buffer_ r))
  else (false, set_buffer r [], kEof, drop_size).

Section Reader.
Context (checksum_ : bool) (log_number_ : Z).

(** [const unsigned int type = header[6]], a [char] that is extended with its sign. *)
Definition header_type (header : bytes) : Z :=
  let c := at_ header 6 in if c <? 128 then c else u32 (c - 256).

Definition header_length (header : bytes) : Z :=
  let a := Z.land (at_ header 4) 255 in
  let b := Z.land (at_ header 5) 255 in
  Z.lor a (u32 (Z.shiftl b 8)).

Definition recyclable (type : Z) : bool := (kRecyclableFullType <=? type) && (type <=? kRecyclableLastType).

(** What follows the header in [ReadPhysicalRecord]: the type or the error, the
    payload, and the bytes dropped. *)
Definition read_payload (r : Reader) (type length header_size drop_size : Z) : Z * bytes * Z * Reader :=
  let size := zlen (buffer_ r) in
  if header_size + length >? size then
    let r' := set_buffer r [] in
    if negb (eof_ r) then (kBadRecordLen, [], size, r')
    else if negb (size =? 0) then (kBadHeader, [], size, r')
    else (kEof, [], size, r')
  else if (type =? kZeroType) && (length =? 0) then (kBadRecord, [], drop_size, set_buffer r [])
  else if checksum_ &&
          negb (Value (take (Z.to_nat (length + header_size - 6)) (drop 6 (buffer_ r)))
                =? Unmask (DecodeFixed32 (buffer_ r)))
  then (kBadRecordChecksum, [], size, set_buffer r [])
  else (type, take (Z.to_nat length) (drop (Z.to_nat header_size) (buffer_ r)), drop_size,
        set_buffer r (drop (Z.to_nat (header_size + length)) (buffer_ r))).

(** [ReadPhysicalRecord]; a turn that reads a block is followed by at most two
    others. *)
Fixpoint read_physical (fuel : nat) (r : Reader) (drop_size : Z) : option (Z * bytes * Z * Reader) :=
  match fuel with
  | O => None
  | S fuel' =>
      if zlen (buffer_ r) <? kHeaderSize then
        let '(more, r, error, drop_size) := ReadMore r drop_size in
        if more : bool then read_physical fuel' r drop_size else Some (error, [], drop_size, r)
      else
        let header := buffer_ r in
        let type := header_type header in
        let length := header_length header in
        if recyclable type then
          let r := if u64 (end_of_buffer_offset_ r - zlen (buffer_ r)) =? 0 then set_recycled r else r in
          if zlen (buffer_ r) <? kRecyclableHeaderSize then
            let '(more, r, error, drop_size) := ReadMore r drop_size in
            if more : bool then read_physical fuel' r drop_size else Some (error, [], drop_size, r)
          else if negb (DecodeFixed32 (drop 7 header) =? log_number_) then Some (kOldRecord, [], drop_size, r)
          else Some (read_payload r type length kRecyclableHeaderSize drop_size)
        else Some (read_payload r type length kHeaderSize drop_size)
  end.

Definition ReadPhysicalRecord (r : Reader) (drop_size : Z) : option (Z * bytes * Z * Reader) :=
  read_physical 4 r drop_size.

(** The locals of [ReadRecord]. *)
Record rstate := mkRstate { rs_in_fragmented_record : bool; rs_scratch : bytes; rs_prospective_record_offset : Z }.

(** What a turn of [ReadRecord] does: it goes on, or returns. *)
Inductive turn := Go (r : Reader) (st : rstate) | Return (res : option bytes) (r : Reader).

(** The reports for a record that a later one, or an error, cuts off. *)
Definition drop_fragments (r : Reader) (st : rstate) : Reader * rstate :=
  if rs_in_fragmented_record st
  then (ReportDrop r (zlen (rs_scratch st)) error_in_middle_of_record, mkRstate false [] (rs_prospective_record_offset st))
  else (r, st).

Definition report_partial (r : Reader) (st : rstate) : Reader :=
  if rs_in_fragmented_record st && (0 <? zlen (rs_scratch st))
  then ReportDrop r (zlen (rs_scratch st)) partial_record_without_end else r.

Definition at_end (mode : WALRecoveryMode) (r : Reader) (st : rstate) : turn :=
  let r := if rs_in_fragmented_record st && bool_decide (mode = kAbsoluteConsistency)
           then ReportDrop r (zlen (rs_scratch st)) error_reading_trailing_data else r in
  Return None r.

(** The [switch] on the physical record. *)
Definition handle_fragment (mode : WALRecoveryMode) (physical_record_offset record_type : Z) (fragment : bytes)
    (drop_size : Z) (r : Reader) (st : rstate) : turn :=
  if (record_type =? kFullType) || (record_type =? kRecyclableFullType) then
    let r := report_partial r st in
    Return (Some fragment) (set_last_record_offset r physical_record_offset)
  else if (record_type =? kFirstType) || (record_type =? kRecyclableFirstType) then
    let r := report_partial r st in
    Go r (mkRstate true fragment physical_record_offset)
  else if (record_type =? kMiddleType) || (record_type =? kRecyclableMiddleType) then
    if negb (rs_in_fragmented_record st)
    then Go (ReportDrop r (zlen fragment) missing_start_of_fragmented_record) st
    else Go r (mkRstate true (rs_scratch st ++ fragment) (rs_prospective_record_offset st))
  else if (record_type =? kLastType) || (record_type =? kRecyclableLastType) then
    if negb (rs_in_fragmented_record st)
    then Go (ReportDrop r (zlen fragment) missing_start_of_fragmented_record) st
    else Return (Some (rs_scratch st ++ fragment)) (set_last_record_offset r (rs_prospective_record_offset st))
  else if record_type =? kBadHeader then
    let r := if bool_decide (mode = kAbsoluteConsistency) then ReportDrop r drop_size truncated_header else r in
    at_end mode r st
  else if record_type =? kEof then at_end mode r st
  else if record_type =? kOldRecord then
    if bool_decide (mode <> kSkipAnyCorruptedRecords) then at_end mode r st
    else let '(r, st) := drop_fragments r st in Go r st
  else if record_type =? kBadRecord then let '(r, st) := drop_fragments r st in Go r st
  else if (record_type =? kBadRecordLen) || (record_type =? kBadRecordChecksum) then
    if recycled_ r && bool_decide (mode = kTolerateCorruptedTailRecords) then Return None r
    else
      let r := ReportDrop r drop_size (if record_type =? kBadRecordLen then bad_record_length else checksum_mismatch) in
      let '(r, st) := drop_fragments r st in Go r st
  else
    let r := ReportDrop r (zlen fragment + (if rs_in_fragmented_record st then zlen (rs_scratch st) else 0)) unknown_record_type in
    Go r (mkRstate false [] (rs_prospective_record_offset st)).

(** The [while] loop of [ReadRecord]; [None] when the fuel is out. *)
Fixpoint read_loop (fuel : nat) (mode : WALRecoveryMode) (r : Reader) (st : rstate) : option (option bytes * Reader) :=
  match fuel with
  | O => None
  | S fuel' =>
      let physical_record_offset := u64 (end_of_buffer_offset_ r - zlen (buffer_ r)) in
      '(record_type, fragment, drop_size, r) ← ReadPhysicalRecord r 0;
      match handle_fragment mode physical_record_offset record_type fragment drop_size r st with
      | Go r st => read_loop fuel' mode r st
      | Return res r => Some (res, r)
      end
  end.

(** [ReadRecord]: the record, if there is one. The fuel is more than the number of
    bytes left; every turn of the loop that goes on takes some of them. *)
Definition ReadRecord (mode : WALRecoveryMode) (r : Reader) : option (option bytes * Reader) :=
  read_loop (length (buffer_ r) + length (rd_file r) + 2) mode r (mkRstate false [] 0).

(** *** Reading on after the end of the file *)

Definition UnmarkEOFInternal (r : Reader) : Reader :=
  let remaining := kBlockSize - eof_offset_ r in
  if rd_fails r then
    mkReader (rd_file r) (rd_fails r) (buffer_ r) (eof_ r) true (eof_offset_ r) (last_record_offset_ r)
      (end_of_buffer_offset_ r) (recycled_ r) (rd_reports r)
  else
    let read_buffer := take (Z.to_nat remaining) (rd_file r) in
    let added := zlen read_buffer in
    mkReader (drop (Z.to_nat remaining) (rd_file r)) (rd_fails r) (buffer_ r ++ read_buffer)
      (if added <? remaining then true else eof_ r) (read_error_ r)
      (if added <? remaining then eof_offset_ r + added else 0) (last_record_offset_ r)
      (u64 (end_of_buffer_offset_ r + added)) (recycled_ r) (rd_reports r).

Definition UnmarkEOF (r : Reader) : Reader :=
  if read_error_ r then r
  else
    let r := mkReader (rd_file r) (rd_fails r) (buffer_ r) false (read_error_ r) (eof_offset_ r) (last_record_offset_ r)
               (end_of_buffer_offset_ r) (recycled_ r) (rd_reports r) in
    if eof_offset_ r =? 0 then r else UnmarkEOFInternal r.
End Reader.

(** ** A file that is the bytes appended to it *)

#[export] Instance list_file : WritableFile bytes := {|
  file_Append := fun f s => (true, f ++ s); file_Flush := fun f => (true, f) |}.

(** ** Where the reader is *)

(** [S] is what the reader has not consumed, in the buffer and in the file, and [o]
    its offset in the block. *)
Record reads (r : Reader) (S : bytes) (o : Z) : Prop := {
  rd_ok : rd_fails r = false /\ read_error_ r = false;
  rd_range : 0 <= o <= kBlockSize;
  rd_buffer : buffer_ r = take (Z.to_nat (kBlockSize - o)) S;
  rd_rest : rd_file r = drop (Z.to_nat (kBlockSize - o)) S;
  rd_eof : eof_ r = bool_decide (zlen S < kBlockSize - o)
}.

Lemma block_size_bounds : 22 < kBlockSize < 2 ^ 16.
Proof. unfold kBlockSize. lia. Qed.

Lemma reads_new file : reads (Reader_new file false) file kBlockSize.
Proof.
  split; cbn [Reader_new rd_fails read_error_ buffer_ rd_file eof_]; try done.
  symmetry. apply bool_decide_eq_false. pose proof (zlen_nonneg file). lia.
Qed.

#[local] Opaque kBlockSize.

Lemma reads_set_recycled r S o : reads r S o -> reads (set_recycled r) S o.
Proof. intros [? ? ? ? ?]. by split. Qed.

Lemma reads_buffer_length r S o : reads r S o -> kBlockSize - o <= zlen S -> zlen (buffer_ r) = kBlockSize - o.
Proof. intros [_ Hr Hb _ _] Hl. rewrite Hb. unfold zlen in *. rewrite length_take. lia. Qed.

(** The next block. *)
Lemma ReadMore_next r S o d : reads r S o -> kBlockSize - o <= zlen S ->
  exists r1, ReadMore r d = (true, r1, kEof, d) /\ reads r1 (drop (Z.to_nat (kBlockSize - o)) S) 0 /\
    rd_reports r1 = rd_reports r.
Proof.
  intros [[Hf He] Hr Hb Hrest Heof] Hl. unfold ReadMore. rewrite Heof, He, Hf, Hrest.
  rewrite bool_decide_eq_false_2 by lia. cbn [negb andb]. eexists. split; [reflexivity|].
  split; [|done]. set (S1 := drop _ S) in *. pose proof block_size_bounds.
  split; cbn [rd_fails read_error_ buffer_ rd_file eof_]; rewrite ?Z.sub_0_r; try done; try lia.
  assert (El : zlen (take (Z.to_nat kBlockSize) S1) = Z.min kBlockSize (zlen S1)) by (unfold zlen; rewrite length_take; lia).
  rewrite El. destruct (Z.ltb_spec (Z.min kBlockSize (zlen S1)) kBlockSize).
  - symmetry. apply bool_decide_eq_true. lia.
  - symmetry. apply bool_decide_eq_false. lia.
Qed.

(** The end of the file. *)
Lemma ReadMore_end r S o d : reads r S o -> zlen S < kBlockSize - o ->
  ReadMore r d = if 0 <? zlen S then (false, set_buffer r [], kBadHeader, zlen S) else (false, set_buffer r [], kEof, d).
Proof.
  intros [[Hf He] Hr Hb Hrest Heof] Hl. unfold ReadMore. rewrite Heof, bool_decide_eq_true_2 by lia. cbn [negb andb].
  assert (Eb : buffer_ r = S) by (rewrite Hb; apply take_ge; unfold zlen in Hl; lia). by rewrite Eb.
Qed.

(** A tail too short for a header, at the end of a block. *)
Lemma read_physical_skip r S o d : reads r S o -> kBlockSize - o < kHeaderSize -> kBlockSize - o <= zlen S ->
  exists r1, reads r1 (drop (Z.to_nat (kBlockSize - o)) S) 0 /\ rd_reports r1 = rd_reports r /\
    forall checksum_ log_number_ fuel,
      read_physical checksum_ log_number_ (Datatypes.S fuel) r d = read_physical checksum_ log_number_ fuel r1 d.
Proof.
  intros Hr Ho Hl. destruct (ReadMore_next r S o d Hr Hl) as (r1 & E1 & Hr1 & Er1). exists r1. split_and!; try done.
  intros c l fuel. cbn [read_physical]. rewrite (reads_buffer_length r S o Hr Hl).
  destruct (Z.ltb_spec (kBlockSize - o) kHeaderSize); [|lia]. by rewrite E1.
Qed.

(** ** A physical record *)

Lemma header_shape log_number t payload :
  exists c0 c1 c2 c3, EncodeFixed32 (Mask (Extend (if t <? kRecyclableFullType then type_crc_ t
      else Extend (type_crc_ t) (log_number_bytes log_number t)) payload)) = [c0; c1; c2; c3] /\
    format_header log_number t payload
    = [c0; c1; c2; c3; u8 (Z.land (zlen payload) 255); u8 (Z.shiftr (zlen payload) 8); u8 t] ++ log_number_bytes log_number t.
Proof.
  unfold format_header. set (m := Mask _). do 4 eexists. split; [reflexivity|]. done.
Qed.

Lemma zlen_log_number_bytes log_number t : zlen (log_number_bytes log_number t) = header_size_of t - kHeaderSize.
Proof. unfold log_number_bytes, header_size_of. by destruct (t <? _). Qed.

Lemma zlen_format_header log_number t payload : zlen (format_header log_number t payload) = header_size_of t.
Proof.
  destruct (header_shape log_number t payload) as (c0 & c1 & c2 & c3 & _ & ->).
  rewrite zlen_app, zlen_log_number_bytes. unfold zlen. cbn [length]. unfold kHeaderSize. lia.
Qed.

Lemma header_size_bounds t : 7 <= header_size_of t <= 11.
Proof. unfold header_size_of. destruct (t <? _); done. Qed.

(** What [ReadPhysicalRecord] makes of a header in the buffer. *)
Lemma header_fields log_number t payload rest : 0 <= t < 128 -> zlen payload < 2 ^ 16 ->
  let buf := format_header log_number t payload ++ rest in
  header_type buf = t /\ header_length buf = zlen payload /\
  DecodeFixed32 buf = Mask (Extend (if t <? kRecyclableFullType then type_crc_ t
      else Extend (type_crc_ t) (log_number_bytes log_number t)) payload) /\
  drop 6 buf = [u8 t] ++ log_number_bytes log_number t ++ rest /\
  drop 7 buf = log_number_bytes log_number t ++ rest.
Proof.
  intros Ht Hn buf. destruct (header_shape log_number t payload) as (c0 & c1 & c2 & c3 & Ec & Eh).
  unfold buf. rewrite Eh, <- app_assoc. pose proof (zlen_nonneg payload).
  unfold header_type, header_length, at_. cbn [app nth drop].
  rewrite u8_small by lia. split_and!; [by destruct (Z.ltb_spec t 128); [|lia]| | |done|done].
  - change 255 with (2 ^ 8 - 1). rewrite !land_ones_mod, shiftr_div by lia. unfold u8, u32.
    rewrite Z.shiftl_mul_pow2, (Z.mod_small (_ * _)) by (try lia; div_lia). rewrite <- Z.shiftl_mul_pow2 by lia.
    rewrite lor_shiftl_add by (try lia; div_lia). div_lia.
  - change (DecodeFixed32 (c0 :: c1 :: c2 :: c3 :: ?tl)) with (DecodeFixed32 ([c0; c1; c2; c3] ++ tl)).
    rewrite <- Ec. apply memcpy_to_from_id. apply u32_range.
Qed.

Lemma payload_crc log_number t payload : is_bytes payload ->
  Extend (if t <? kRecyclableFullType then type_crc_ t else Extend (type_crc_ t) (log_number_bytes log_number t)) payload
  = Value ([u8 t] ++ log_number_bytes log_number t ++ payload).
Proof.
  intros Hp. unfold type_crc_, Value.
  assert (Ht : is_bytes [u8 t]) by (constructor; [apply u8_is_byte|constructor]).
  assert (Hl : is_bytes (log_number_bytes log_number t)).
  { unfold log_number_bytes. destruct (t <? _); [constructor|]. apply memcpy_from_bytes. }
  assert (H0 : 0 <= 0 < 2 ^ 32) by lia.
  unfold log_number_bytes in *. destruct (t <? kRecyclableFullType).
  - by apply Extend_app.
  - rewrite (Extend_app 0 [u8 t]) by done. rewrite Extend_app by (done || by apply Forall_app). by rewrite <- app_assoc.
Qed.

Lemma payload_crc_range log_number t payload : is_bytes payload ->
  0 <= Value ([u8 t] ++ log_number_bytes log_number t ++ payload) < 2 ^ 32.
Proof.
  intros Hp. apply Extend_range; [lia|]. repeat apply Forall_app_2; [constructor; [apply u8_is_byte|constructor]| |done].
  unfold log_number_bytes. destruct (t <? _); [constructor|]. apply memcpy_from_bytes.
Qed.

Section Read.
Context (checksum_ : bool) (log_number_ : Z).

(** The log number in the header is the reader's. *)
Definition same_log (log_number t : Z) : Prop := kRecyclableFullType <= t -> log_number = log_number_ /\ 0 <= log_number_ < 2 ^ 32.

Lemma log_number_decode log_number t rest : kRecyclableFullType <= t -> same_log log_number t ->
  DecodeFixed32 (log_number_bytes log_number t ++ rest) = log_number_.
Proof.
  intros Ht Hs. destruct (Hs Ht) as [-> Hl]. unfold log_number_bytes. destruct (Z.ltb_spec t kRecyclableFullType); [lia|].
  rewrite u32_small by done. by apply memcpy_to_from_id.
Qed.

Lemma recyclable_type t : 1 <= t <= 8 -> recyclable t = negb (t <? kRecyclableFullType).
Proof.
  intros Ht. unfold recyclable, kRecyclableFullType, kRecyclableLastType.
  destruct (Z.leb_spec 5 t), (Z.leb_spec t 8), (Z.ltb_spec t 5); try done; lia.
Qed.

(** A header of a record that is there as far as the buffer goes. *)
Lemma read_physical_header fuel r t log_number payload rest d : 1 <= t <= 8 -> zlen payload < 2 ^ 16 -> same_log log_number t ->
  buffer_ r = format_header log_number t payload ++ rest ->
  exists r1, (r1 = r \/ r1 = set_recycled r) /\
    read_physical checksum_ log_number_ (S fuel) r d = Some (read_payload checksum_ r1 t (zlen payload) (header_size_of t) d).
Proof.
  intros Ht Hn Hs Hb. cbn [read_physical].
  destruct (header_fields log_number t payload rest ltac:(lia) Hn) as (Et & El & _ & _ & E7). rewrite <- Hb in *.
  assert (Hl : zlen (buffer_ r) = header_size_of t + zlen rest) by (rewrite Hb, zlen_app, zlen_format_header; done).
  pose proof (header_size_bounds t). pose proof (zlen_nonneg rest).
  destruct (Z.ltb_spec (zlen (buffer_ r)) kHeaderSize) as [Hlt|_]; [unfold kHeaderSize in *; lia|].
  rewrite Et, El, recyclable_type by done. unfold header_size_of in *.
  destruct (Z.ltb_spec t kRecyclableFullType) as [Hlt|Hge]; cbn [negb]; [by exists r; auto|].
  assert (Eb : forall b : bool, buffer_ (if b then set_recycled r else r) = buffer_ r) by (intros []; done).
  rewrite Eb. destruct (Z.ltb_spec (zlen (buffer_ r)) kRecyclableHeaderSize); [lia|].
  rewrite E7, log_number_decode, Z.eqb_refl by done. cbn [negb]. eexists. split; [|reflexivity].
  destruct (_ =? 0); auto.
Qed.

Lemma read_payload_ok r t log_number payload rest d : 1 <= t <= 8 -> zlen payload < 2 ^ 16 -> is_bytes payload ->
  buffer_ r = format_header log_number t payload ++ payload ++ rest ->
  read_payload checksum_ r t (zlen payload) (header_size_of t) d = (t, payload, d, set_buffer r rest).
Proof.
  intros Ht Hn Hp Hb. unfold read_payload.
  destruct (header_fields log_number t payload (payload ++ rest) ltac:(lia) Hn) as (_ & _ & Ec & E6 & _). rewrite <- Hb in *.
  pose proof (zlen_format_header log_number t payload) as Eh. pose proof (header_size_bounds t).
  pose proof (zlen_nonneg rest). pose proof (zlen_nonneg payload).
  assert (Hl : zlen (buffer_ r) = header_size_of t + zlen payload + zlen rest) by (rewrite Hb, !zlen_app, Eh; lia).
  rewrite Z.gtb_ltb. destruct (Z.ltb_spec (zlen (buffer_ r)) (header_size_of t + zlen payload)); [lia|].
  destruct (Z.eqb_spec t kZeroType) as [->|_]; [unfold kZeroType in *; lia|]. cbn [andb].
  assert (Ev : Value (take (Z.to_nat (zlen payload + header_size_of t - 6)) (drop 6 (buffer_ r))) = Unmask (DecodeFixed32 (buffer_ r))).
  { rewrite Ec, E6, payload_crc by done. rewrite Unmask_Mask by (by apply payload_crc_range). f_equal.
    rewrite (app_assoc (log_number_bytes _ _)), app_assoc. apply take_app_length'.
    rewrite !length_app. pose proof (zlen_log_number_bytes log_number t) as Eln. unfold zlen, kHeaderSize in *. cbn [length]. lia. }
  rewrite Ev, Z.eqb_refl. cbn [negb]. rewrite andb_false_r.
  assert (E1 : take (Z.to_nat (zlen payload)) (drop (Z.to_nat (header_size_of t)) (buffer_ r)) = payload).
  { rewrite Hb, drop_app_length' by (unfold zlen in Eh; lia). apply take_app_length'. unfold zlen. lia. }
  assert (E2 : drop (Z.to_nat (header_size_of t + zlen payload)) (buffer_ r) = rest).
  { rewrite Hb, app_assoc, drop_app_length'; [done|]. rewrite length_app. unfold zlen in *. lia. }
  by rewrite E1, E2.
Qed.

Lemma reads_prefix r P S o : reads r (P ++ S) o -> zlen P <= kBlockSize - o ->
  buffer_ r = P ++ take (Z.to_nat (kBlockSize - o - zlen P)) S.
Proof.
  intros [_ Hr Hb _ _] Hl. rewrite Hb, take_app_ge by (unfold zlen in Hl; lia). do 2 f_equal. unfold zlen in *. lia.
Qed.

Lemma reads_consume r P S o : reads r (P ++ S) o -> zlen P <= kBlockSize - o ->
  reads (set_buffer r (take (Z.to_nat (kBlockSize - o - zlen P)) S)) S (o + zlen P).
Proof.
  intros [[Hf He] Hr Hb Hrest Heof] Hl. pose proof (zlen_nonneg P). split; cbn [set_buffer rd_fails read_error_ buffer_ rd_file eof_]; try done.
  - lia.
  - do 2 f_equal. lia.
  - rewrite Hrest, drop_app_ge by (unfold zlen in Hl; lia). f_equal. unfold zlen. lia.
  - rewrite Heof. apply bool_decide_ext. rewrite zlen_app. lia.
Qed.

(** Reads a physical record that fits in the block. *)
Lemma read_record_at fuel r S o t log_number payload d :
  reads r (format_header log_number t payload ++ payload ++ S) o ->
  1 <= t <= 8 -> is_bytes payload -> same_log log_number t -> o + header_size_of t + zlen payload <= kBlockSize ->
  exists r1, read_physical checksum_ log_number_ (Datatypes.S fuel) r d = Some (t, payload, d, r1) /\
    reads r1 S (o + header_size_of t + zlen payload) /\ rd_reports r1 = rd_reports r.
Proof.
  intros Hr Ht Hp Hs Hfit. pose proof (zlen_format_header log_number t payload) as Eh. pose proof (rd_range _ _ _ Hr).
  pose proof block_size_bounds. pose proof (header_size_bounds t). assert (Hn : zlen payload < 2 ^ 16) by lia.
  assert (HP : zlen (format_header log_number t payload ++ payload) = header_size_of t + zlen payload) by (rewrite zlen_app; lia).
  rewrite app_assoc in Hr. pose proof (reads_prefix _ _ _ _ Hr ltac:(lia)) as Hb. rewrite <- app_assoc in Hb.
  destruct (read_physical_header fuel r t log_number payload _ d Ht Hn Hs Hb) as (r1 & Hr1 & E). rewrite E.
  assert (Hb1 : buffer_ r1 = buffer_ r) by (by destruct Hr1 as [-> | ->]).
  assert (Hrr : reads r1 ((format_header log_number t payload ++ payload) ++ S) o)
    by (destruct Hr1 as [-> | ->]; [done|by apply reads_set_recycled]).
  rewrite <- Hb1 in Hb. rewrite (read_payload_ok r1 t log_number payload _ d Ht Hn Hp Hb). eexists. split; [reflexivity|].
  pose proof (reads_consume _ _ _ _ Hrr ltac:(lia)) as Hc. rewrite HP in *.
  rewrite <- Z.add_assoc. split; [done|]. by destruct Hr1 as [-> | ->].
Qed.

(** A block that ends with zeros for which a header, but no recyclable one, has
    room. *)
Lemma read_zero_trailer fuel r S o d : reads r (replicate (Z.to_nat (kBlockSize - o)) 0 ++ S) o ->
  7 <= kBlockSize - o < 11 ->
  exists r1, read_physical checksum_ log_number_ (Datatypes.S fuel) r d = Some (kBadRecord, [], d, r1) /\
    reads r1 S kBlockSize /\ rd_reports r1 = rd_reports r.
Proof.
  intros Hr Ho. set (m := Z.to_nat (kBlockSize - o)) in *. assert (Hm : zlen (replicate m 0) = kBlockSize - o)
    by (unfold zlen; rewrite length_replicate; lia).
  pose proof (reads_prefix _ _ _ _ Hr ltac:(lia)) as Hb. rewrite Hm, Z.sub_diag, take_0, app_nil_r in Hb.
  pose proof (reads_consume _ _ _ _ Hr ltac:(lia)) as Hc. rewrite Hm, Z.sub_diag, take_0 in Hc.
  replace (o + (kBlockSize - o)) with kBlockSize in Hc by lia.
  exists (set_buffer r []). split_and!; [|done|done].
  assert (Hz : zlen (buffer_ r) = kBlockSize - o) by (by rewrite Hb).
  cbn [read_physical]. rewrite Hz. unfold kHeaderSize. destruct (Z.ltb_spec (kBlockSize - o) (4 + 2 + 1)); [lia|].
  assert (E : header_type (buffer_ r) = 0 /\ header_length (buffer_ r) = 0).
  { rewrite Hb. assert (Hc7 : m = 7%nat \/ m = 8%nat \/ m = 9%nat \/ m = 10%nat) by lia.
    destruct Hc7 as [-> |[-> |[-> | ->]]]; split; reflexivity. }
  destruct E as [-> ->]. cbn [recyclable]. change (recyclable 0) with false. cbv iota.
  unfold read_payload. rewrite Hz, Z.gtb_ltb. destruct (Z.ltb_spec (kBlockSize - o) (4 + 2 + 1 + 0)); [lia|]. done.
Qed.

(** *** A turn of the reader on what a turn of the writer wrote *)

(** What [switch_block] writes, and the offset after it. *)
Definition trailer (b header_size : Z) : bytes :=
  if kBlockSize - b <? header_size then replicate (Z.to_nat (kBlockSize - b)) 0 else [].

Definition base (b header_size : Z) : Z := if kBlockSize - b <? header_size then 0 else b.

Lemma zlen_trailer b h : 0 <= b <= kBlockSize -> zlen (trailer b h) = if kBlockSize - b <? h then kBlockSize - b else 0.
Proof. intros Hb. unfold trailer, zlen. destruct (_ <? _); [rewrite length_replicate; lia|done]. Qed.

(** The reader at the start of the file has not read the block that the writer is
    at the start of. *)
Definition aligned (o b : Z) : Prop := o = b \/ (b = 0 /\ o = kBlockSize).

Lemma read_physical_mono fuel r d res : read_physical checksum_ log_number_ fuel r d = Some res ->
  read_physical checksum_ log_number_ (S fuel) r d = Some res.
Proof.
  revert r d. induction fuel as [|fuel IH]; intros r d E; [done|].
  cbn [read_physical] in E. cbn [read_physical]. destruct (_ <? kHeaderSize).
  - destruct (ReadMore r d) as [[[[] r1] e] d1]; [by apply IH|done].
  - destruct (recyclable _); [|done]. destruct (_ <? kRecyclableHeaderSize); [|done].
    destruct (ReadMore _ d) as [[[[] r1] e] d1]; [by apply IH|done].
Qed.

(** Past the trailer of a block, unless it looks like a header. *)
Lemma read_physical_base r S o b h d : reads r (trailer b h ++ S) o -> aligned o b -> 0 <= b <= kBlockSize ->
  7 <= h <= 11 -> kBlockSize - b < 7 \/ h <= kBlockSize - b ->
  exists r1, reads r1 S (base b h) /\ rd_reports r1 = rd_reports r /\
    forall fuel res, read_physical checksum_ log_number_ fuel r1 d = Some res ->
      read_physical checksum_ log_number_ (Datatypes.S fuel) r d = Some res.
Proof.
  intros Hr Ha Hb Hh Hc. pose proof block_size_bounds. unfold trailer, base in *.
  assert (Hskip : forall P, reads r (P ++ S) o -> zlen P = kBlockSize - o -> kBlockSize - o < 7 ->
    exists r1, reads r1 S 0 /\ rd_reports r1 = rd_reports r /\
      forall fuel res, read_physical checksum_ log_number_ fuel r1 d = Some res ->
        read_physical checksum_ log_number_ (Datatypes.S fuel) r d = Some res).
  { intros P HrP HP Ho. pose proof (zlen_nonneg S).
    destruct (read_physical_skip r (P ++ S) o d HrP ltac:(unfold kHeaderSize; lia) ltac:(rewrite zlen_app; lia)) as (r1 & Hr1 & Er & E).
    rewrite drop_app_length' in Hr1 by (unfold zlen in HP; lia). exists r1. split_and!; try done. intros fuel res Hres. by rewrite E. }
  destruct (Z.ltb_spec (kBlockSize - b) h) as [Hlt|Hge].
  - destruct Ha as [-> |[-> ->]]; [|lia]. apply (Hskip (replicate (Z.to_nat (kBlockSize - b)) 0)); [done| |lia].
    unfold zlen. rewrite length_replicate. lia.
  - destruct Ha as [-> |[-> ->]]; [exists r; split_and!; try done; intros; by apply read_physical_mono|].
    apply (Hskip []); [done| |lia]. rewrite zlen_nil. lia.
Qed.

Definition continue (fuel : nat) (mode : WALRecoveryMode) (t : turn) : option (option bytes * Reader) :=
  match t with
  | Go r st => read_loop checksum_ log_number_ fuel mode r st
  | Return res r => Some (res, r)
  end.

Lemma read_loop_S mode r st t fragment d r1 : ReadPhysicalRecord checksum_ log_number_ r 0 = Some (t, fragment, d, r1) ->
  exists off, forall fuel, read_loop checksum_ log_number_ (S fuel) mode r st
  = continue fuel mode (handle_fragment mode off t fragment d r1 st).
Proof. intros E. eexists. intros fuel. cbn [read_loop]. rewrite E. reflexivity. Qed.

(** Either the next turn of [ReadRecord] is past the trailer, or one turn drops the
    trailer as a bad record. *)
Lemma read_loop_base mode r st S o b h : reads r (trailer b h ++ S) o -> aligned o b -> 0 <= b <= kBlockSize ->
  7 <= h <= 11 -> rs_in_fragmented_record st = false \/ b = kBlockSize ->
  exists r1 n, (n = 0%nat \/ n = 1%nat /\ 7 <= zlen (trailer b h)) /\
    reads r1 S (base b h) /\ rd_reports r1 = rd_reports r /\
    forall t fragment d r2, read_physical checksum_ log_number_ 3 r1 0 = Some (t, fragment, d, r2) ->
    exists off, forall fuel, read_loop checksum_ log_number_ (n + Datatypes.S fuel) mode r st
    = continue fuel mode (handle_fragment mode off t fragment d r2 st).
Proof.
  intros Hr Ha Hb Hh Hst. pose proof block_size_bounds.
  destruct (decide (kBlockSize - b < 7 \/ h <= kBlockSize - b)) as [Hc|Hc].
  { destruct (read_physical_base r S o b h 0 Hr Ha Hb Hh Hc) as (r1 & Hr1 & Er & E).
    exists r1, 0%nat. split_and!; [by left|done|done|]. intros t fragment d r2 E1.
    apply read_loop_S. by apply E. }
  assert (Ho : o = b) by (destruct Ha as [?|[? ?]]; lia). subst o.
  assert (Et : trailer b h = replicate (Z.to_nat (kBlockSize - b)) 0) by (unfold trailer; destruct (Z.ltb_spec (kBlockSize - b) h); [done|lia]).
  assert (Hst' : rs_in_fragmented_record st = false) by (destruct Hst; [done|lia]).
  rewrite Et in Hr. destruct (read_zero_trailer 3 r S b 0 Hr ltac:(lia)) as (r1 & E1 & Hr1 & Er1).
  assert (Hz : trailer 0 h = [] /\ base 0 h = 0) by (unfold trailer, base; destruct (Z.ltb_spec (kBlockSize - 0) h); [lia|done]).
  destruct Hz as [Hz1 Hz2].
  destruct (read_physical_base r1 S kBlockSize 0 h 0 ltac:(by rewrite Hz1) ltac:(by right) ltac:(lia) Hh ltac:(lia)) as (r2 & Hr2 & Er2 & E2).
  rewrite Hz2 in Hr2. exists r2, 1%nat. split_and!.
  - right. split; [done|]. rewrite zlen_trailer by done. destruct (Z.ltb_spec (kBlockSize - b) h); lia.
  - unfold base. by destruct (Z.ltb_spec (kBlockSize - b) h); [|lia].
  - by rewrite Er2, Er1.
  - intros t fragment d r3 E3. destruct (read_loop_S mode r st _ _ _ _ E1) as [off E4].
    destruct (read_loop_S mode r1 st _ _ _ _ (E2 _ _ E3)) as [off2 E5]. exists off2. intros fuel. cbn [Nat.add]. rewrite E4.
    assert (Eh : handle_fragment mode off kBadRecord [] 0 r1 st = Go r1 st) by (unfold handle_fragment, drop_fragments; rewrite Hst'; done).
    rewrite Eh. cbn [continue]. apply E5.
Qed.

(** *** Unfinished records at the end of the file *)

Definition ends (t : Z) : Prop := t = kBadHeader \/ t = kEof.

Lemma handle_end mode off t d r st : ends t -> mode <> kAbsoluteConsistency ->
  handle_fragment mode off t [] d r st = Return None r.
Proof.
  intros Ht Hm. unfold handle_fragment. destruct Ht as [-> | ->]; cbn; unfold at_end;
    rewrite (bool_decide_eq_false_2 (mode = kAbsoluteConsistency)) by done; by rewrite andb_false_r.
Qed.

Lemma buffer_end r T o : reads r T o -> zlen T < kBlockSize - o -> buffer_ r = T /\ eof_ r = true.
Proof.
  intros [_ _ Hb _ He] Hl. rewrite Hb, He. split; [apply take_ge; unfold zlen in Hl; lia|]. by apply bool_decide_eq_true.
Qed.

Lemma ReadMore_ends r T o d : reads r T o -> zlen T < kBlockSize - o ->
  exists t d1, ReadMore r d = (false, set_buffer r [], t, d1) /\ ends t.
Proof.
  intros Hr Hl. rewrite (ReadMore_end r T o d Hr Hl). unfold ends. destruct (0 <? zlen T); eauto.
Qed.

Lemma read_physical_end fuel r T o d : reads r T o -> zlen T < kBlockSize - o -> zlen T < 7 ->
  exists t d1, read_physical checksum_ log_number_ (S fuel) r d = Some (t, [], d1, set_buffer r []) /\ ends t.
Proof.
  intros Hr Hl H7. destruct (buffer_end r T o Hr Hl) as [Hb _]. destruct (ReadMore_ends r T o d Hr Hl) as (t & d1 & E & Ht).
  exists t, d1. split; [|done]. cbn [read_physical]. rewrite Hb, E. unfold kHeaderSize. by destruct (Z.ltb_spec (zlen T) (4 + 2 + 1)); [|lia].
Qed.

Lemma header_type_prefix buf k : (7 <= k)%nat -> header_type (take k buf) = header_type buf.
Proof.
  intros Hk. unfold header_type, at_. enough (E : nth 6 (take k buf) 0 = nth 6 buf 0) by (by rewrite E).
  by rewrite !nth_lookup, lookup_take_lt by lia.
Qed.

(** A record of which the last bytes are missing. *)
Lemma read_torn_record fuel r k o t log_number payload d :
  let P := format_header log_number t payload ++ payload in
  reads r (take k P) o -> (k < length P)%nat -> 1 <= t <= 8 -> same_log log_number t ->
  o + header_size_of t + zlen payload <= kBlockSize ->
  exists t' d1 r1, read_physical checksum_ log_number_ (S fuel) r d = Some (t', [], d1, r1) /\ ends t' /\ rd_reports r1 = rd_reports r.
Proof.
  intros P Hr Hk Ht Hs Hfit. pose proof (zlen_format_header log_number t payload) as Eh. pose proof (header_size_bounds t).
  pose proof (rd_range _ _ _ Hr). pose proof block_size_bounds. pose proof (zlen_nonneg payload).
  assert (HP : zlen P = header_size_of t + zlen payload) by (unfold P; rewrite zlen_app; lia).
  assert (HT : zlen (take k P) = Z.of_nat k) by (unfold zlen; rewrite length_take; lia).
  assert (Hl : zlen (take k P) < kBlockSize - o) by (unfold zlen in *; lia).
  destruct (buffer_end _ _ _ Hr Hl) as [Hb He].
  destruct (Z.lt_ge_cases (Z.of_nat k) 7) as [H7|H7].
  { destruct (read_physical_end fuel r _ o d Hr Hl ltac:(lia)) as (t' & d1 & E & Et). by exists t', d1, (set_buffer r []). }
  assert (Hty : header_type (take k P) = t).
  { rewrite header_type_prefix by lia. apply (header_fields log_number t payload payload); [lia|unfold zlen in *; lia]. }
  destruct (Z.lt_ge_cases (Z.of_nat k) (header_size_of t)) as [Hh|Hh].
  - cbn [read_physical]. rewrite Hb, HT, Hty, recyclable_type by done.
    destruct (Z.ltb_spec (Z.of_nat k) kHeaderSize); [unfold kHeaderSize in *; lia|]. unfold header_size_of in Hh.
    destruct (Z.ltb_spec t kRecyclableFullType); [unfold kHeaderSize in *; lia|]. cbn [negb].
    set (r1 := if _ : bool then set_recycled r else r).
    assert (Hr1 : reads r1 (take k P) o) by (unfold r1; destruct (_ =? 0); [by apply reads_set_recycled|done]).
    destruct (buffer_end _ _ _ Hr1 Hl) as [Hb1 _]. rewrite Hb1, HT.
    destruct (Z.ltb_spec (Z.of_nat k) kRecyclableHeaderSize); [|lia].
    destruct (ReadMore_ends r1 _ o d Hr1 Hl) as (t' & d1 & -> & Ht'). exists t', d1, (set_buffer r1 []).
    split_and!; [done|done|]. unfold r1. by destruct (_ =? 0).
  - assert (Eb : buffer_ r = format_header log_number t payload ++ take (k - length (format_header log_number t payload)) payload).
    { rewrite Hb. unfold P. by rewrite take_app_ge by (unfold zlen in Eh; lia). }
    destruct (read_physical_header fuel r t log_number payload _ d Ht ltac:(lia) Hs Eb) as (r1 & Hr1 & ->).
    assert (Hb1 : buffer_ r1 = take k P /\ eof_ r1 = true) by (by destruct Hr1 as [-> | ->]). destruct Hb1 as [Hb1 He1].
    unfold read_payload. rewrite Hb1, HT, He1, Z.gtb_ltb.
    destruct (Z.ltb_spec (Z.of_nat k) (header_size_of t + zlen payload)); [|unfold zlen in *; lia]. cbn [negb].
    destruct (Z.eqb_spec (Z.of_nat k) 0); [lia|]. cbn [negb].
    exists kBadHeader, (Z.of_nat k), (set_buffer r1 []). split_and!; [done|by left|by destruct Hr1 as [-> | ->]].
Qed.

(** The zeros at the end of a block, some of them missing. *)
Lemma read_torn_trailer mode fuel r j o st : reads r (replicate j 0) o -> Z.of_nat j < kBlockSize - o < 11 ->
  rs_in_fragmented_record st = false -> mode <> kAbsoluteConsistency -> (2 <= fuel)%nat ->
  exists r1, read_loop checksum_ log_number_ fuel mode r st = Some (None, r1) /\ rd_reports r1 = rd_reports r.
Proof.
  intros Hr Hj Hst Hm Hf. assert (Hl : zlen (replicate j 0) = Z.of_nat j) by (unfold zlen; by rewrite length_replicate).
  destruct fuel as [|[|fuel]]; [lia..|]. destruct (Z.lt_ge_cases (Z.of_nat j) 7) as [H7|H7].
  - destruct (read_physical_end 3 r _ o 0 Hr ltac:(lia) ltac:(lia)) as (t & d1 & E & Ht).
    destruct (read_loop_S mode r st _ _ _ _ E) as [off E']. rewrite E', handle_end by done. by eexists.
  - destruct (buffer_end _ _ _ Hr ltac:(lia)) as [Hb He].
    assert (E : ReadPhysicalRecord checksum_ log_number_ r 0 = Some (kBadRecord, [], 0, set_buffer r [])).
    { unfold ReadPhysicalRecord. cbn [read_physical]. rewrite Hb, Hl. unfold kHeaderSize. destruct (Z.ltb_spec (Z.of_nat j) (4 + 2 + 1)); [lia|].
      assert (Eh : header_type (replicate j 0) = 0 /\ header_length (replicate j 0) = 0).
      { assert (Hc : j = 7%nat \/ j = 8%nat \/ j = 9%nat) by lia. destruct Hc as [-> |[-> | ->]]; split; reflexivity. }
      destruct Eh as [-> ->]. change (recyclable 0) with false. cbv iota. unfold read_payload.
      rewrite Hb, Hl, Z.gtb_ltb. by destruct (Z.ltb_spec (Z.of_nat j) (4 + 2 + 1 + 0)); [lia|]. }
    destruct (read_loop_S mode r st _ _ _ _ E) as [off E']. rewrite E'.
    assert (Eh : handle_fragment mode off kBadRecord [] 0 (set_buffer r []) st = Go (set_buffer r []) st)
      by (unfold handle_fragment, drop_fragments; by rewrite Hst). rewrite Eh. cbn [continue].
    pose proof (reads_consume r (replicate j 0) [] o ltac:(by rewrite app_nil_r) ltac:(lia)) as Hr1. rewrite take_nil in Hr1.
    destruct (read_physical_end 3 _ _ _ 0 Hr1) as (t & d1 & E2 & Ht); [rewrite zlen_nil; lia..|].
    destruct (read_loop_S mode _ st _ _ _ _ E2) as [off2 E2']. rewrite E2', handle_end by done. by eexists.
Qed.

(** *** The writer *)

Abbreviation header_size w := (if recycle_log_files_ w then kRecyclableHeaderSize else kHeaderSize).

Lemma fragment_type_facts recycle b e :
  1 <= fragment_type recycle b e <= 8 /\
  header_size_of (fragment_type recycle b e) = (if recycle then kRecyclableHeaderSize else kHeaderSize) /\
  (kRecyclableFullType <= fragment_type recycle b e -> recycle = true).
Proof. destruct recycle, b, e; vm_compute; split_and!; congruence. Qed.

Lemma switch_block_list (w : Writer bytes) h : 0 <= block_offset_ w <= kBlockSize ->
  switch_block w h = (true, moved w (dest_ w ++ trailer (block_offset_ w) h) (base (block_offset_ w) h)).
Proof.
  intros Hb. unfold switch_block, trailer, base. destruct (Z.ltb_spec (kBlockSize - block_offset_ w) h) as [Hlt|Hge].
  - rewrite Z.gtb_ltb. destruct (Z.ltb_spec 0 (kBlockSize - block_offset_ w)); [done|].
    replace (kBlockSize - block_offset_ w) with 0 by lia. cbn [Z.to_nat replicate]. by rewrite app_nil_r.
  - rewrite app_nil_r. by destruct w.
Qed.

Lemma base_bounds b h : 0 <= b <= kBlockSize -> 7 <= h <= 11 -> 0 <= base b h /\ base b h + h <= kBlockSize.
Proof. intros Hb Hh. pose proof block_size_bounds. unfold base. destruct (Z.ltb_spec (kBlockSize - b) h); lia. Qed.

(** A turn of [AddRecord]: the bytes it appends and the offset it leaves. *)
Definition turn_length (w : Writer bytes) (data : bytes) : nat :=
  Z.to_nat (Z.min (zlen data) (kBlockSize - base (block_offset_ w) (header_size w) - header_size w)).

Definition turn_type (w : Writer bytes) (data : bytes) (begin_ : bool) : Z :=
  fragment_type (recycle_log_files_ w) begin_ (bool_decide (length data <= turn_length w data)%nat).

Definition turn_bytes (w : Writer bytes) (data : bytes) (begin_ : bool) : bytes :=
  let fragment := take (turn_length w data) data in
  trailer (block_offset_ w) (header_size w) ++ format_header (w_log_number_ w) (turn_type w data begin_) fragment ++ fragment.

Definition turn_offset (w : Writer bytes) (data : bytes) : Z :=
  base (block_offset_ w) (header_size w) + header_size w + Z.of_nat (turn_length w data).

Lemma header_size_range (w : Writer bytes) : 7 <= header_size w <= 11.
Proof. by destruct (recycle_log_files_ w). Qed.

Lemma turn_fits w data : 0 <= block_offset_ w <= kBlockSize ->
  zlen (take (turn_length w data) data) = Z.of_nat (turn_length w data) /\ turn_offset w data <= kBlockSize /\
  (turn_length w data <= length data)%nat /\
  ((turn_length w data < length data)%nat -> turn_offset w data = kBlockSize).
Proof.
  intros Hb. pose proof (header_size_range w). destruct (base_bounds _ _ Hb H) as [H0 H1].
  unfold turn_offset, turn_length, zlen. rewrite length_take. split_and!; lia.
Qed.

Lemma add_loop_turn fuel w data begin_ : 0 <= block_offset_ w <= kBlockSize ->
  add_loop (S fuel) w data begin_
  = let w' := moved w (dest_ w ++ turn_bytes w data begin_) (turn_offset w data) in
    if (turn_length w data <? length data)%nat then add_loop fuel w' (drop (turn_length w data) data) false
    else Some (true, w').
Proof.
  intros Hb. pose proof (header_size_range w) as Hh. destruct (base_bounds _ _ Hb Hh) as [H0 H1].
  destruct (turn_fits w data Hb) as (Hlen & Hoff & Hle & _). pose proof block_size_bounds.
  cbn [add_loop]. destruct (Z.ltb_spec (kBlockSize - block_offset_ w) 0); [lia|].
  rewrite switch_block_list by done. cbn [negb moved block_offset_ recycle_log_files_].
  destruct (Z.ltb_spec (kBlockSize - base (block_offset_ w) (header_size w)) (header_size w)); [lia|].
  assert (En : (if zlen data <? kBlockSize - base (block_offset_ w) (header_size w) - header_size w then zlen data
    else kBlockSize - base (block_offset_ w) (header_size w) - header_size w) = Z.of_nat (turn_length w data)).
  { unfold turn_length. pose proof (zlen_nonneg data). destruct (Z.ltb_spec (zlen data) (kBlockSize - base (block_offset_ w) (header_size w) - header_size w)); lia. }
  rewrite En, Nat2Z.id.
  assert (Ee : (zlen data =? Z.of_nat (turn_length w data)) = bool_decide (length data <= turn_length w data)%nat).
  { destruct (Z.eqb_spec (zlen data) (Z.of_nat (turn_length w data))) as [E|E]; unfold zlen in E; symmetry;
      [apply bool_decide_eq_true|apply bool_decide_eq_false]; lia. }
  rewrite Ee. fold (turn_type w data begin_).
  destruct (fragment_type_facts (recycle_log_files_ w) begin_ (bool_decide (length data <= turn_length w data)%nat)) as (_ & Ehs & _).
  fold (turn_type w data begin_) in Ehs. unfold EmitPhysicalRecord. rewrite Hlen, Ehs, !Z.gtb_ltb. unfold turn_offset in Hoff.
  destruct (Z.ltb_spec 65535 (Z.of_nat (turn_length w data))); [lia|]. cbn [moved block_offset_ dest_ w_log_number_].
  destruct (Z.ltb_spec kBlockSize (base (block_offset_ w) (header_size w) + header_size w + Z.of_nat (turn_length w data))); [lia|].
  cbn [file_Append list_file mbind option_bind andb]. unfold turn_bytes. rewrite <- !app_assoc.
  assert (Ed : (0 <? zlen (drop (turn_length w data) data)) = (turn_length w data <? length data)%nat).
  { unfold zlen. rewrite length_drop.
    destruct (Nat.ltb_spec (turn_length w data) (length data)); [apply Z.ltb_lt|apply Z.ltb_ge]; lia. }
  rewrite Ed. done.
Qed.

(** *** What the writer wrote is read back *)

(** Within a record, the writer is at the end of a block. *)
Definition frag_state (begin_ : bool) (b : Z) (st : rstate) : Prop :=
  rs_in_fragmented_record st = negb begin_ /\ (begin_ = false -> b = kBlockSize).

Definition scratch_of (begin_ : bool) (st : rstate) : bytes := if begin_ then [] else rs_scratch st.

(** [S], written from the offset [b], is read as the rest [data] of a record. *)
Definition readable (b : Z) (S : bytes) (b' : Z) (begin_ : bool) (data : bytes) : Prop :=
  forall mode r st o tail fuel, reads r (S ++ tail) o -> aligned o b -> frag_state begin_ b st -> (length S <= fuel)%nat ->
  exists r', read_loop checksum_ log_number_ fuel mode r st = Some (Some (scratch_of begin_ st ++ data), r') /\
    reads r' tail b' /\ rd_reports r' = rd_reports r.

(** [S] without its end is read as no record, and nothing is reported. *)
Definition torn (b : Z) (S : bytes) (begin_ : bool) : Prop :=
  forall mode r st o k fuel, reads r (take k S) o -> (k < length S)%nat -> aligned o b -> frag_state begin_ b st ->
  (k + 2 <= fuel)%nat -> mode <> kAbsoluteConsistency ->
  exists r', read_loop checksum_ log_number_ fuel mode r st = Some (None, r') /\ rd_reports r' = rd_reports r.

(** What a turn of the reader does with the fragment. *)
Lemma handle_turn mode off recycle begin_ end_ fragment r st b : frag_state begin_ b st ->
  handle_fragment mode off (fragment_type recycle begin_ end_) fragment 0 r st
  = if end_ then Return (Some (scratch_of begin_ st ++ fragment))
      (set_last_record_offset r (if begin_ then off else rs_prospective_record_offset st))
    else Go r (mkRstate true (scratch_of begin_ st ++ fragment) (if begin_ then off else rs_prospective_record_offset st)).
Proof.
  intros [Hst _]. unfold handle_fragment, report_partial, scratch_of. rewrite Hst.
  destruct recycle, begin_, end_; reflexivity.
Qed.

Lemma reads_set_last r S o off : reads r S o -> reads (set_last_record_offset r off) S o.
Proof. intros [? ? ? ? ?]. by split. Qed.

Lemma trailer_split b h P : zlen (trailer b h ++ P) = zlen (trailer b h) + zlen P.
Proof. apply zlen_app. Qed.

Section Turn.
Context (w : Writer bytes) (data : bytes) (begin_ : bool).
Context (Hb : 0 <= block_offset_ w <= kBlockSize) (Hdata : is_bytes data).
Context (Hlog : recycle_log_files_ w = true -> w_log_number_ w = log_number_ /\ 0 <= log_number_ < 2 ^ 32).
Abbreviation fragment := (take (turn_length w data) data).
Abbreviation end_ := (bool_decide (length data <= turn_length w data)%nat).

Lemma turn_record : 1 <= turn_type w data begin_ <= 8 /\ header_size_of (turn_type w data begin_) = header_size w /\
  same_log (w_log_number_ w) (turn_type w data begin_) /\ is_bytes fragment.
Proof.
  destruct (fragment_type_facts (recycle_log_files_ w) begin_ end_) as (H1 & H2 & H3).
  split; [exact H1|]. split; [exact H2|]. split; [|by apply Forall_take]. intros Ht. by apply Hlog, H3.
Qed.

Lemma turn_bytes_length : (7 <= length (turn_bytes w data begin_))%nat.
Proof.
  unfold turn_bytes. rewrite !length_app. pose proof (zlen_format_header (w_log_number_ w) (turn_type w data begin_) fragment) as E.
  pose proof (header_size_bounds (turn_type w data begin_)). unfold zlen in E. lia.
Qed.

(** The reader's turn on the writer's turn. *)
Lemma turn_read mode r st o S : reads r (turn_bytes w data begin_ ++ S) o -> aligned o (block_offset_ w) ->
  frag_state begin_ (block_offset_ w) st ->
  exists r1 n off, (n + 7 <= length (turn_bytes w data begin_))%nat /\ reads r1 S (turn_offset w data) /\ rd_reports r1 = rd_reports r /\
    forall fuel, read_loop checksum_ log_number_ (n + Datatypes.S fuel) mode r st
    = continue fuel mode (handle_fragment mode off (turn_type w data begin_) fragment 0 r1 st).
Proof.
  intros Hr Ha [Hst1 Hst2]. destruct turn_record as (Ht & Hhs & Hsame & Hfb). destruct (turn_fits w data Hb) as (Hlen & Hoff & _).
  pose proof (header_size_range w) as Hh. unfold turn_bytes in *. cbv zeta in *. rewrite <- !app_assoc in Hr.
  assert (Hst' : rs_in_fragmented_record st = false \/ block_offset_ w = kBlockSize).
  { destruct begin_; [by left|right; by apply Hst2]. }
  destruct (read_loop_base mode r st _ o (block_offset_ w) (header_size w) Hr Ha Hb Hh Hst') as (r1 & n & Hn & Hr1 & Er1 & E).
  destruct (read_record_at 2 r1 S (base (block_offset_ w) (header_size w)) (turn_type w data begin_) (w_log_number_ w) fragment 0 Hr1 Ht Hfb Hsame)
    as (r2 & E2 & Hr2 & Er2). { rewrite Hhs, Hlen. unfold turn_offset in Hoff. lia. }
  rewrite Hhs, Hlen in Hr2. destruct (E _ _ _ _ E2) as [off E3].
  exists r2, n, off. split_and!; [|done|by rewrite Er2|done].
  pose proof (zlen_format_header (w_log_number_ w) (turn_type w data begin_) fragment) as Eh.
  pose proof (header_size_bounds (turn_type w data begin_)). rewrite !length_app. unfold zlen in *. lia.
Qed.

Lemma turn_torn : torn (block_offset_ w) (turn_bytes w data begin_) begin_.
Proof.
  intros mode r st o k fuel Hr Hk Ha [Hst1 Hst2] Hf Hm. destruct turn_record as (Ht & Hhs & Hsame & Hfb).
  destruct (turn_fits w data Hb) as (Hlen & Hoff & _). pose proof (header_size_range w) as Hh. pose proof block_size_bounds.
  pose proof (zlen_trailer (block_offset_ w) (header_size w) Hb) as Htr.
  unfold turn_bytes in *. cbv zeta in *. set (tr := trailer (block_offset_ w) (header_size w)) in *.
  destruct (Nat.lt_ge_cases k (length tr)) as [Hlt|Hge].
  - rewrite take_app_le in Hr by lia. unfold zlen in Htr.
    destruct (Z.ltb_spec (kBlockSize - block_offset_ w) (header_size w)); [|lia].
    assert (Ho : o = block_offset_ w) by (destruct Ha as [?|[? ?]]; lia). subst o.
    assert (Et : tr = replicate (Z.to_nat (kBlockSize - block_offset_ w)) 0) by (unfold tr, trailer; destruct (Z.ltb_spec (kBlockSize - block_offset_ w) (header_size w)); [done|lia]).
    rewrite Et, take_replicate, Nat.min_l in Hr by lia.
    eapply read_torn_trailer; [exact Hr|lia| |done|lia]. destruct begin_; [done|]. specialize (Hst2 eq_refl). lia.
  - rewrite take_app_ge in Hr by lia.
    assert (Hst' : rs_in_fragmented_record st = false \/ block_offset_ w = kBlockSize).
    { destruct begin_; [by left|right; by apply Hst2]. }
    destruct (read_loop_base mode r st _ o (block_offset_ w) (header_size w) Hr Ha Hb Hh Hst') as (r1 & n & Hn & Hr1 & Er1 & E).
    rewrite length_app in Hk.
    destruct (read_torn_record 2 r1 (k - length tr) _ (turn_type w data begin_) (w_log_number_ w) fragment 0 Hr1 ltac:(lia) Ht Hsame)
      as (t' & d1 & r2 & E2 & Ht' & Er2). { rewrite Hhs, Hlen. unfold turn_offset in Hoff. lia. }
    destruct (E _ _ _ _ E2) as [off E3]. exists r2. fold tr in Hn. unfold zlen in Hn.
    replace fuel with (n + S (fuel - n - 1))%nat by lia. rewrite E3, handle_end by done. split; [done|congruence].
Qed.

(** A turn within the record goes on with the fragment in the scratch buffer. *)
Lemma turn_go mode r st o S : (turn_length w data < length data)%nat ->
  reads r (turn_bytes w data begin_ ++ S) o -> aligned o (block_offset_ w) -> frag_state begin_ (block_offset_ w) st ->
  exists r1 st1 n, (n + 7 <= length (turn_bytes w data begin_))%nat /\ reads r1 S kBlockSize /\ rd_reports r1 = rd_reports r /\
    frag_state false kBlockSize st1 /\ rs_scratch st1 = scratch_of begin_ st ++ fragment /\
    forall fuel, read_loop checksum_ log_number_ (n + Datatypes.S fuel) mode r st = read_loop checksum_ log_number_ fuel mode r1 st1.
Proof.
  intros Hlt Hr Ha Hst. destruct (turn_fits w data Hb) as (_ & _ & _ & Hfull).
  destruct (turn_read mode r st o S Hr Ha Hst) as (r1 & n & off & Hn & Hr1 & Er1 & E). rewrite (Hfull Hlt) in Hr1.
  eexists r1, _, n. split; [done|]. split; [done|]. split; [done|]. split; [|split; [|intros fuel; rewrite E; unfold turn_type;
    rewrite (bool_decide_eq_false_2 (length data <= turn_length w data)%nat), (handle_turn _ _ _ _ _ _ _ _ _ Hst) by lia; reflexivity]]; done.
Qed.

(** The last turn returns the record. *)
Lemma turn_done : (length data <= turn_length w data)%nat ->
  readable (block_offset_ w) (turn_bytes w data begin_) (turn_offset w data) begin_ data.
Proof.
  intros Hge mode r st o tail fuel Hr Ha Hst HfR.
  destruct (turn_read mode r st o _ Hr Ha Hst) as (r1 & n & off & Hn & Hr1 & Er1 & E).
  replace fuel with (n + S (fuel - n - 1))%nat by lia. rewrite E. unfold turn_type.
  rewrite (bool_decide_eq_true_2 (length data <= turn_length w data)%nat), (handle_turn _ _ _ _ _ _ _ _ _ Hst) by done. cbn [continue].
  rewrite take_ge by done. eexists. split_and!; [done|by apply reads_set_last|done].
Qed.

Section More.
Context (S2 : bytes) (b' : Z) (Hlt : (turn_length w data < length data)%nat).

Lemma readable_cons : readable kBlockSize S2 b' false (drop (turn_length w data) data) ->
  readable (block_offset_ w) (turn_bytes w data begin_ ++ S2) b' begin_ data.
Proof.
  intros Hread mode r st o tail fuel Hr Ha Hst HfR. rewrite <- app_assoc in Hr. rewrite length_app in HfR.
  destruct (turn_go mode r st o _ Hlt Hr Ha Hst) as (r1 & st1 & n & Hn & Hr1 & Er1 & Hst1 & Es1 & E).
  replace fuel with (n + S (fuel - n - 1))%nat by lia. rewrite E.
  destruct (Hread mode r1 st1 kBlockSize tail (fuel - n - 1)%nat Hr1 (or_introl eq_refl) Hst1 ltac:(lia)) as (r' & E' & Hr' & Er').
  exists r'. rewrite E'. cbn [scratch_of]. rewrite Es1, <- app_assoc, take_drop. split_and!; [done|done|congruence].
Qed.

Lemma torn_cons : torn kBlockSize S2 false -> torn (block_offset_ w) (turn_bytes w data begin_ ++ S2) begin_.
Proof.
  intros Htorn mode r st o k fuel Hr Hk Ha Hst HfR Hm. rewrite length_app in Hk.
  destruct (Nat.lt_ge_cases k (length (turn_bytes w data begin_))) as [Hkl|Hkg].
  - rewrite take_app_le in Hr by lia. by eapply turn_torn.
  - rewrite take_app_ge in Hr by lia.
    destruct (turn_go mode r st o _ Hlt Hr Ha Hst) as (r1 & st1 & n & Hn & Hr1 & Er1 & Hst1 & Es1 & E).
    replace fuel with (n + S (fuel - n - 1))%nat by lia. rewrite E.
    destruct (Htorn mode r1 st1 kBlockSize _ (fuel - n - 1)%nat Hr1 ltac:(lia) (or_introl eq_refl) Hst1 ltac:(lia) Hm) as (r' & E' & Er').
    exists r'. split; [done|congruence].
Qed.
End More.
End Turn.

Lemma add_loop_spec fuel (w : Writer bytes) data begin_ : 0 <= block_offset_ w <= kBlockSize -> is_bytes data ->
  (recycle_log_files_ w = true -> w_log_number_ w = log_number_ /\ 0 <= log_number_ < 2 ^ 32) ->
  (begin_ = false -> block_offset_ w = kBlockSize /\ data <> []) ->
  (2 * length data + (if begin_ then 2 else 1) <= fuel)%nat ->
  exists S b', add_loop fuel w data begin_ = Some (true, moved w (dest_ w ++ S) b') /\ 0 <= b' <= kBlockSize /\
    readable (block_offset_ w) S b' begin_ data /\ torn (block_offset_ w) S begin_ /\ (7 <= length S)%nat.
Proof.
  revert w data begin_. induction fuel as [|fuel IH]; intros w data begin_ Hb Hd Hlog Hbeg Hf; [destruct begin_; lia|].
  rewrite add_loop_turn by done. destruct (turn_fits w data Hb) as (Hlen & Hoff & Hle & Hfull).
  pose proof (turn_bytes_length w data begin_) as H7. pose proof (header_size_range w) as Hh.
  destruct (base_bounds _ _ Hb Hh) as [Hb0 Hb1]. pose proof block_size_bounds.
  assert (Hoff0 : 0 <= turn_offset w data) by (unfold turn_offset; lia). cbv zeta.
  destruct (Nat.ltb_spec (turn_length w data) (length data)) as [Hlt|Hge].
  - specialize (Hfull Hlt). rewrite Hfull. set (w1 := moved w _ kBlockSize). set (rest := drop (turn_length w data) data).
    assert (Hne : rest <> []) by (intros E; apply (f_equal length) in E; unfold rest in E; rewrite length_drop in E; cbn in E; lia).
    assert (Hprog : begin_ = false -> (0 < turn_length w data)%nat).
    { intros E. destruct (Hbeg E) as [EK _]. unfold turn_length, base, zlen. rewrite EK.
      destruct (Z.ltb_spec (kBlockSize - kBlockSize) (header_size w)); lia. }
    destruct (IH w1 rest false ltac:(cbn; lia) ltac:(by apply Forall_drop) Hlog ltac:(done)) as (S2 & b' & E2 & Hb' & Hread & Htorn & _).
    { unfold rest. rewrite length_drop. destruct begin_; [lia|]. specialize (Hprog eq_refl). lia. }
    exists (turn_bytes w data begin_ ++ S2), b'. rewrite E2. split; [by cbn; rewrite <- app_assoc|]. split; [done|].
    split; [by apply readable_cons|]. split; [by apply torn_cons|]. rewrite length_app. lia.
  - exists (turn_bytes w data begin_), (turn_offset w data). split; [done|]. split; [lia|].
    split; [by apply turn_done|]. split; [by apply turn_torn|done].
Qed.
End Read.

(** ** Whole logs *)

Fixpoint write_all {F} `{!WritableFile F} (w : Writer F) (records : list bytes) : option (bool * Writer F) :=
  match records with
  | [] => Some (true, w)
  | x :: records' => '(s, w) ← AddRecord w x; if s : bool then write_all w records' else Some (false, w)
  end.

(** Reads until [ReadRecord] returns false. *)
Fixpoint read_all (checksum_ : bool) (log_number_ : Z) (fuel : nat) (mode : WALRecoveryMode) (r : Reader)
  : option (list bytes * Reader) :=
  match fuel with
  | O => None
  | S fuel' =>
      '(res, r) ← ReadRecord checksum_ log_number_ mode r;
      match res with
      | None => Some ([], r)
      | Some x => '(l, r) ← read_all checksum_ log_number_ fuel' mode r; Some (x :: l, r)
      end
  end.

Section Logs.
Context (checksum_ : bool) (log_number_ : Z).

Abbreviation log_ok w := (recycle_log_files_ w = true -> w_log_number_ w = log_number_ /\ 0 <= log_number_ < 2 ^ 32).

Lemma AddRecord_spec (w : Writer bytes) data : 0 <= block_offset_ w <= kBlockSize -> is_bytes data -> log_ok w ->
  exists S b', AddRecord w data = Some (true, moved w (dest_ w ++ S) b') /\ 0 <= b' <= kBlockSize /\
    readable checksum_ log_number_ (block_offset_ w) S b' true data /\ torn checksum_ log_number_ (block_offset_ w) S true /\ (7 <= length S)%nat.
Proof.
  intros Hb Hd Hlog. destruct (add_loop_spec checksum_ log_number_ (2 * length data + 2) w data true Hb Hd Hlog ltac:(done) (Nat.le_refl _))
    as (S & b' & E & Hb' & Hr & Ht & H7). exists S, b'. split_and!; try done; try lia.
  unfold AddRecord. rewrite E. cbn. by destruct (manual_flush_ w).
Qed.

Lemma reads_length r S o : reads r S o -> (length (buffer_ r) + length (rd_file r))%nat = length S.
Proof. intros [_ _ -> -> _]. rewrite length_take, length_drop. lia. Qed.

Lemma ReadRecord_readable mode r S tail o b b' data : readable checksum_ log_number_ b S b' true data ->
  reads r (S ++ tail) o -> aligned o b ->
  exists r', ReadRecord checksum_ log_number_ mode r = Some (Some data, r') /\ reads r' tail b' /\ rd_reports r' = rd_reports r.
Proof.
  intros Hread Hr Ha. unfold ReadRecord. pose proof (reads_length _ _ _ Hr) as El. rewrite length_app in El.
  apply (Hread mode r (mkRstate false [] 0) o tail); [done|done|by split|lia].
Qed.

(** At the end of the log there is no record, and nothing to report. *)
Lemma ReadRecord_end mode r o : reads r [] o ->
  exists r', ReadRecord checksum_ log_number_ mode r = Some (None, r') /\ rd_reports r' = rd_reports r.
Proof.
  intros Hr. pose proof block_size_bounds. unfold ReadRecord.
  assert (E : exists d r1, ReadPhysicalRecord checksum_ log_number_ r 0 = Some (kEof, [], d, r1) /\ rd_reports r1 = rd_reports r).
  { destruct (Z.lt_ge_cases 0 (kBlockSize - o)) as [Hlt|Hge].
    - unfold ReadPhysicalRecord. cbn [read_physical]. destruct (buffer_end r [] o Hr) as [Hb _]; [rewrite zlen_nil; lia|].
      rewrite Hb, (ReadMore_end r [] o 0 Hr) by (rewrite zlen_nil; lia). cbn. eauto.
    - destruct (read_physical_skip r [] o 0 Hr) as (r1 & Hr1 & Er1 & E); [unfold kHeaderSize; lia|rewrite zlen_nil; lia|].
      unfold ReadPhysicalRecord. rewrite E. rewrite drop_nil in Hr1. cbn [read_physical].
      destruct (buffer_end r1 [] 0 Hr1) as [Hb _]; [rewrite zlen_nil; lia|].
      rewrite Hb, (ReadMore_end r1 [] 0 0 Hr1) by (rewrite zlen_nil; lia). cbn. eauto. }
  destruct E as (d & r1 & E & Er1). destruct (read_loop_S checksum_ log_number_ mode r (mkRstate false [] 0) _ _ _ _ E) as [off E1].
  rewrite Nat.add_comm. cbn [Nat.add]. rewrite E1. exists r1. by destruct mode.
Qed.

(** Records from [w] on are read back, and then whatever is after them. *)
Lemma write_read_all rs (w : Writer bytes) : 0 <= block_offset_ w <= kBlockSize -> Forall is_bytes rs -> log_ok w ->
  exists S b', write_all w rs = Some (true, moved w (dest_ w ++ S) b') /\ 0 <= b' <= kBlockSize /\
    forall mode r o tail n res, reads r (S ++ tail) o -> aligned o (block_offset_ w) ->
      (forall r' o', reads r' tail o' -> aligned o' b' -> rd_reports r' = rd_reports r ->
        exists r'', read_all checksum_ log_number_ n mode r' = Some (res, r'') /\ rd_reports r'' = rd_reports r') ->
      exists r'', read_all checksum_ log_number_ (length rs + n) mode r = Some (rs ++ res, r'') /\ rd_reports r'' = rd_reports r.
Proof.
  revert w. induction rs as [|x rs IH]; intros w Hb Hrs Hlog.
  - exists [], (block_offset_ w). split; [cbn; rewrite app_nil_r; by destruct w|]. split; [done|].
    intros mode r o tail n res Hr Ha Hk. cbn [app length Nat.add] in *. by apply (Hk r o).
  - apply Forall_cons in Hrs as [Hx Hrs]. destruct (AddRecord_spec w x Hb Hx Hlog) as (S1 & b1 & E1 & Hb1 & Hread & _ & _).
    destruct (IH (moved w (dest_ w ++ S1) b1)) as (S2 & b' & E2 & Hb' & Hall); [done..|].
    exists (S1 ++ S2), b'. split; [|split; [done|]].
    { cbn [write_all]. rewrite E1. cbn [mbind option_bind]. rewrite E2. cbn. by rewrite app_assoc. }
    intros mode r o tail n res Hr Ha Hk. rewrite <- app_assoc in Hr.
    destruct (ReadRecord_readable mode r _ _ _ _ _ _ Hread Hr Ha) as (r1 & Er & Hr1 & Erep).
    destruct (Hall mode r1 b1 tail n res Hr1 ltac:(by left)) as (r2 & Er2 & Erep2).
    { intros r' o' Hr' Ha' Erep'. apply (Hk r' o'); [done|done|congruence]. }
    exists r2. cbn [length Nat.add read_all]. rewrite Er. cbn [mbind option_bind]. rewrite Er2. cbn. split; [done|congruence].
Qed.
End Logs.

(** A record that is not complete. *)
Lemma write_torn checksum_ log_number recycle manual_flush mode rs x k :
  Forall is_bytes rs -> is_bytes x -> (recycle = true -> 0 <= log_number < 2 ^ 32) -> mode <> kAbsoluteConsistency ->
  exists w w', write_all (Writer_new [] log_number recycle manual_flush) rs = Some (true, w) /\
    AddRecord w x = Some (true, w') /\ (length (dest_ w) < length (dest_ w'))%nat /\
    ((length (dest_ w) <= k < length (dest_ w'))%nat ->
     exists r, read_all checksum_ log_number (length rs + 1) mode (Reader_new (take k (dest_ w')) false) = Some (rs, r) /\ rd_reports r = []).
Proof.
  intros Hrs Hx Hl Hm. pose proof block_size_bounds.
  destruct (write_read_all checksum_ log_number rs (Writer_new [] log_number recycle manual_flush)) as (S & b' & E & Hb' & Hall);
    [cbn; lia|done|cbn; intros E; by split; [|apply Hl]|].
  destruct (AddRecord_spec checksum_ log_number (moved (Writer_new [] log_number recycle manual_flush) S b') x)
    as (S2 & b2 & E2 & _ & _ & Htorn & H7); [done|done|cbn; intros E2; by split; [|apply Hl]|].
  do 2 eexists. split; [exact E|]. split; [exact E2|]. cbn [moved dest_ Writer_new app]. split; [rewrite length_app; lia|].
  intros Hk. rewrite length_app in Hk.
  destruct (Hall mode (Reader_new (take k (S ++ S2)) false) kBlockSize (take (k - length S) S2) 1%nat []) as (r & Er & Erep).
  - rewrite take_app_ge by lia. apply reads_new.
  - by right.
  - intros r' o' Hr' Ha' Erep. pose proof (reads_length _ _ _ Hr') as El. rewrite length_take in El.
    destruct (Htorn mode r' (mkRstate false [] 0) o' (k - length S)%nat (length (buffer_ r') + length (rd_file r') + 2)%nat)
      as (r'' & E'' & Erep''); [done|lia|done|by split|lia|done|].
    exists r''. cbn [read_all]. unfold ReadRecord. by rewrite E''.
  - exists r. rewrite app_nil_r in Er. done.
Qed.

(** ** Theorems *)

(** C12. The log returns what was written: after any records have been added to a new
    log, plain or recyclable, a reader of the file returns exactly these records, in
    order, and then the end, in every recovery mode and with nothing reported; no
    assertion of the writer fails. *)
Theorem log_roundtrip checksum_ log_number recycle manual_flush mode rs :
  Forall is_bytes rs -> (recycle = true -> 0 <= log_number < 2 ^ 32) ->
  exists w r, write_all (Writer_new [] log_number recycle manual_flush) rs = Some (true, w) /\
    read_all checksum_ log_number (length rs + 1) mode (Reader_new (dest_ w) false) = Some (rs, r) /\ rd_reports r = [].
Proof.
  intros Hrs Hl. pose proof block_size_bounds.
  destruct (write_read_all checksum_ log_number rs (Writer_new [] log_number recycle manual_flush)) as (S & b' & E & _ & Hall);
    [cbn; lia|done|cbn; intros E; by split; [|apply Hl]|].
  destruct (Hall mode (Reader_new S false) kBlockSize [] 1%nat []) as (r & Er & Erep).
  - rewrite app_nil_r. apply reads_new.
  - by right.
  - intros r' o' Hr' _ Erep. destruct (ReadRecord_end checksum_ log_number mode r' o' Hr') as (r'' & E'' & Erep''). exists r''.
    cbn [read_all]. by rewrite E''.
  - eexists _, r. rewrite app_nil_r in Er. split_and!; [exact E|exact Er|done].
Qed.

Lemma log_roundtrip_witness :
  exists w r, write_all (Writer_new (F := bytes) [] 7 true false) [[1; 2; 3]; []; [255]] = Some (true, w) /\
    read_all true 7 4 kPointInTimeRecovery (Reader_new (dest_ w) false) = Some ([[1; 2; 3]; []; [255]], r) /\ rd_reports r = [].
Proof.
  apply (log_roundtrip true 7 true false kPointInTimeRecovery [[1; 2; 3]; []; [255]]).
  - repeat constructor; (lia || bytes_dec).
  - lia.
Defined.

(** C13. A crash while a record is being added loses that record and no other: when
    the file ends anywhere before the end of the last record, even in the middle of
    a header or of the padding, a reader returns all the records before it and then
    the end, and reports no corruption, unless it was asked for absolute
    consistency. *)
Theorem log_torn_tail checksum_ log_number recycle manual_flush mode rs x k :
  Forall is_bytes rs -> is_bytes x -> (recycle = true -> 0 <= log_number < 2 ^ 32) -> mode <> kAbsoluteConsistency ->
  exists w w', write_all (Writer_new [] log_number recycle manual_flush) rs = Some (true, w) /\
    AddRecord w x = Some (true, w') /\ (length (dest_ w) < length (dest_ w'))%nat /\
    ((length (dest_ w) <= k < length (dest_ w'))%nat ->
     exists r, read_all checksum_ log_number (length rs + 1) mode (Reader_new (take k (dest_ w')) false) = Some (rs, r) /\ rd_reports r = []).
Proof. apply write_torn. Qed.

Lemma log_torn_tail_witness :
  exists w w' r, write_all (Writer_new (F := bytes) [] 7 true false) [[1; 2; 3]; []] = Some (true, w) /\
    AddRecord w [4; 5] = Some (true, w') /\
    read_all true 7 3 kPointInTimeRecovery (Reader_new (take 30 (dest_ w')) false) = Some ([[1; 2; 3]; []], r) /\ rd_reports r = [].
Proof.
  destruct (log_torn_tail true 7 true false kPointInTimeRecovery [[1; 2; 3]; []] [4; 5] 30) as (w & w' & E & E' & _ & H).
  - repeat constructor; (lia || bytes_dec).
  - bytes_dec.
  - lia.
  - done.
  - pose proof E as Ew. vm_compute in Ew. injection Ew as <-. pose proof E' as Ew'. vm_compute in Ew'. injection Ew' as <-.
    destruct H as (r & Er & Erep); [cbn; lia|].
    exact (ex_intro _ _ (ex_intro _ _ (ex_intro _ r (conj E (conj E' (conj Er Erep)))))).
Defined.

(** ** Termination *)

Definition unread (r : Reader) : nat := (length (buffer_ r) + length (rd_file r))%nat.

(** The results of [ReadPhysicalRecord] that need not consume anything. *)
Definition stops (t : Z) : Prop := t = kEof \/ t = kBadHeader \/ t = kOldRecord.

Lemma ReadMore_cases r d :
  (exists r1 d1 t, ReadMore r d = (false, r1, t, d1) /\ stops t /\ (unread r1 <= unread r)%nat) \/
  (exists r1, ReadMore r d = (true, r1, kEof, d) /\ (unread r1 <= unread r)%nat /\ (eof_ r1 = true \/ 11 <= zlen (buffer_ r1)) /\
    eof_ r = false /\ read_error_ r = false).
Proof.
  pose proof block_size_bounds. unfold ReadMore, unread, stops.
  destruct (eof_ r) eqn:He, (read_error_ r) eqn:Hre; cbn [negb andb].
  1-3: left; destruct (0 <? zlen (buffer_ r)); do 3 eexists; split; [reflexivity| |reflexivity|]; cbn; split; auto; lia.
  destruct (rd_fails r).
  - left. do 3 eexists. split; [reflexivity|]. cbn. split; [auto|lia].
  - right. eexists. split; [reflexivity|]. cbn [buffer_ rd_file eof_].
    split; [rewrite length_take, length_drop; lia|]. split; [|done].
    destruct (Z.ltb_spec (zlen (take (Z.to_nat kBlockSize) (rd_file r))) kBlockSize); [by left|right; lia].
Qed.

Section Termination.
Context (checksum_ : bool) (log_number_ : Z).

Definition advances (r : Reader) (res : option (Z * bytes * Z * Reader)) : Prop :=
  exists t fragment d r1, res = Some (t, fragment, d, r1) /\ (unread r1 <= unread r)%nat /\ ((unread r1 < unread r)%nat \/ stops t).

Lemma read_payload_advances r t n h d : 7 <= h -> 7 <= zlen (buffer_ r) -> 0 <= n ->
  advances r (Some (read_payload checksum_ r t n h d)).
Proof.
  intros Hh Hb Hn. unfold read_payload, advances, unread, zlen in *.
  repeat case_match; do 4 eexists; (split; [reflexivity|]); cbn; rewrite ?length_drop; lia.
Qed.

Lemma header_length_nonneg buf : 0 <= header_length buf.
Proof. apply Z.lor_nonneg. split; [apply Z.land_nonneg; lia|apply u32_range]. Qed.

(** Two turns are enough. *)
Lemma read_physical_advances fuel r d : advances r (read_physical checksum_ log_number_ (2 + fuel) r d).
Proof.
  assert (Hstep : forall fuel r, (forall r1, (unread r1 <= unread r)%nat -> eof_ r1 = true \/ 11 <= zlen (buffer_ r1) -> eof_ r = false ->
      zlen (buffer_ r) < 11 -> advances r (read_physical checksum_ log_number_ fuel r1 d)) ->
    advances r (read_physical checksum_ log_number_ (S fuel) r d)).
  { clear. intros fuel r Hnext.
    assert (Hmore : forall r0 : Reader, (r0 = r \/ r0 = set_recycled r) -> zlen (buffer_ r) < 11 ->
      advances r (let '(more, r1, error, d1) := ReadMore r0 d in
        if more : bool then read_physical checksum_ log_number_ fuel r1 d1 else Some (error, [], d1, r1))).
    { intros r0 Hr0 Hl. assert (Hu : unread r0 = unread r /\ eof_ r0 = eof_ r) by (by destruct Hr0 as [-> | ->]). destruct Hu as [Hu He].
      destruct (ReadMore_cases r0 d) as [(r1 & d1 & t & -> & Ht & Hle)|(r1 & -> & Hle & Hr1 & He0 & _)].
      - exists t, [], d1, r1. split; [done|]. split; [lia|by right].
      - apply Hnext; [lia|done|congruence|done]. }
    cbn [read_physical]. destruct (Z.ltb_spec (zlen (buffer_ r)) kHeaderSize) as [H7|H7]; [apply Hmore; [by left|unfold kHeaderSize in *; lia]|].
    unfold kHeaderSize in H7. pose proof (header_length_nonneg (buffer_ r)).
    destruct (recyclable _); [|apply read_payload_advances; unfold kHeaderSize; lia].
    set (r0 := if _ : bool then set_recycled r else r). assert (Hr0 : r0 = r \/ r0 = set_recycled r) by (unfold r0; destruct (_ =? 0); auto).
    assert (Hb0 : buffer_ r0 = buffer_ r) by (by destruct Hr0 as [-> | ->]). rewrite Hb0.
    assert (Hu : unread r0 = unread r) by (by destruct Hr0 as [-> | ->]).
    destruct (Z.ltb_spec (zlen (buffer_ r)) kRecyclableHeaderSize) as [H11|H11]; [apply Hmore; [done|unfold kRecyclableHeaderSize in *; lia]|].
    destruct (negb _).
    - do 4 eexists. split; [reflexivity|]. split; [lia|right; unfold stops; auto].
    - assert (Ha : advances r0 (Some (read_payload checksum_ r0 (header_type (buffer_ r)) (header_length (buffer_ r)) kRecyclableHeaderSize d)))
        by (apply read_payload_advances; rewrite ?Hb0; unfold kRecyclableHeaderSize; lia).
      unfold advances in *. by rewrite Hu in Ha. }
  apply Hstep. intros r1 Hu Hr1 He Hl.
  assert (Ha : advances r1 (read_physical checksum_ log_number_ (S fuel) r1 d)).
  { apply Hstep. intros r2 _ _ He1 Hl1. destruct Hr1; [congruence|lia]. }
  destruct Ha as (t & fr & d1 & r2 & -> & Hle & Hc). exists t, fr, d1, r2. split; [done|]. split; [lia|]. destruct Hc; [left; lia|by right].
Qed.

Lemma handle_fragment_unread mode off t fragment d r st :
  match handle_fragment mode off t fragment d r st with Go r1 _ => unread r1 = unread r | Return _ _ => True end.
Proof.
  unfold handle_fragment, at_end, drop_fragments, report_partial, unread. repeat case_match; by simplify_eq/=.
Qed.

Lemma handle_fragment_stops mode off t fragment d r st : stops t -> mode <> kSkipAnyCorruptedRecords ->
  exists res r1, handle_fragment mode off t fragment d r st = Return res r1.
Proof.
  intros Ht Hm. unfold handle_fragment, at_end. destruct Ht as [-> |[-> | ->]]; cbn; try (do 2 eexists; reflexivity).
  rewrite (bool_decide_eq_true_2 (mode <> kSkipAnyCorruptedRecords)) by done. do 2 eexists. reflexivity.
Qed.

Lemma read_loop_total mode fuel r st : mode <> kSkipAnyCorruptedRecords -> (unread r < fuel)%nat ->
  is_Some (read_loop checksum_ log_number_ fuel mode r st).
Proof.
  intros Hm. revert r st. induction fuel as [|fuel IH]; intros r st Hf; [lia|]. cbn [read_loop].
  destruct (read_physical_advances 2 r 0) as (t & fr & d & r1 & E & Hle & Hc). unfold ReadPhysicalRecord.
  change (2 + 2)%nat with 4%nat in E. rewrite E. cbn [mbind option_bind].
  pose proof (handle_fragment_unread mode (u64 (end_of_buffer_offset_ r - zlen (buffer_ r))) t fr d r1 st) as Hu.
  destruct Hc as [Hlt|Hs].
  - destruct (handle_fragment _ _ _ _ _ _ _); [|by eexists]. apply IH. lia.
  - destruct (handle_fragment_stops mode (u64 (end_of_buffer_offset_ r - zlen (buffer_ r))) t fr d r1 st Hs Hm) as (res & r2 & ->).
    by eexists.
Qed.

(** A record of another log, for which the mode makes the reader go on. *)
Definition old_record (r : Reader) : Prop :=
  11 <= zlen (buffer_ r) /\ recyclable (header_type (buffer_ r)) = true /\ DecodeFixed32 (drop 7 (buffer_ r)) <> log_number_.

Lemma read_loop_old_record fuel r st : old_record r -> read_loop checksum_ log_number_ fuel kSkipAnyCorruptedRecords r st = None.
Proof.
  revert r st. induction fuel as [|fuel IH]; intros r st (Hb & Hty & Hl); [done|]. cbn [read_loop].
  unfold ReadPhysicalRecord. cbn [read_physical]. unfold kHeaderSize. destruct (Z.ltb_spec (zlen (buffer_ r)) (4 + 2 + 1)); [lia|].
  rewrite Hty. set (r0 := if _ : bool then set_recycled r else r).
  assert (Hb0 : buffer_ r0 = buffer_ r) by (unfold r0; by destruct (_ =? 0)). rewrite Hb0. unfold kRecyclableHeaderSize.
  destruct (Z.ltb_spec (zlen (buffer_ r)) (4 + 2 + 1 + 4)); [lia|].
  destruct (Z.eqb_spec (DecodeFixed32 (drop 7 (buffer_ r))) log_number_); [done|]. cbn [negb mbind option_bind].
  unfold handle_fragment. cbn. unfold drop_fragments. destruct (rs_in_fragmented_record st); apply IH; unfold old_record; cbn; by rewrite ?Hb0.
Qed.
End Termination.

(** ** Reports *)

(** The reader only ever adds to its reports. *)
Section Reports.
Context (checksum_ : bool) (log_number_ : Z).

Lemma ReadMore_reports r d : rd_reports r `prefix_of` rd_reports (ReadMore r d).1.1.2.
Proof. unfold ReadMore. repeat case_match; cbn; try done. by eexists. Qed.

Lemma read_payload_reports r t n h d : rd_reports (read_payload checksum_ r t n h d).2 = rd_reports r.
Proof. unfold read_payload. repeat case_match; done. Qed.

Lemma read_physical_reports fuel r d t fr d1 r1 : read_physical checksum_ log_number_ fuel r d = Some (t, fr, d1, r1) ->
  rd_reports r `prefix_of` rd_reports r1.
Proof.
  revert r d. induction fuel as [|fuel IH]; intros r d E; [done|]. cbn [read_physical] in E.
  assert (Hmore : forall r0, rd_reports r0 = rd_reports r ->
    (let '(more, r2, error, d2) := ReadMore r0 d in
     if more : bool then read_physical checksum_ log_number_ fuel r2 d2 else Some (error, [], d2, r2)) = Some (t, fr, d1, r1) ->
    rd_reports r `prefix_of` rd_reports r1).
  { intros r0 <- E0. pose proof (ReadMore_reports r0 d) as Hm. destruct (ReadMore r0 d) as [[[[] r2] e] d2]; cbn in Hm.
    - transitivity (rd_reports r2); [done|by eapply IH].
    - by injection E0 as <- <- <- <-. }
  destruct (_ <? kHeaderSize); [by apply (Hmore r)|]. destruct (recyclable _).
  - set (r0 := if _ : bool then set_recycled r else r) in E. assert (Hr0 : rd_reports r0 = rd_reports r) by (unfold r0; by destruct (_ =? 0)).
    destruct (_ <? kRecyclableHeaderSize); [by apply (Hmore r0)|]. destruct (negb _).
    + injection E as <- <- <- <-. by rewrite Hr0.
    + apply (f_equal (fun o => rd_reports (from_option snd r0 o))) in E. cbn in E. rewrite read_payload_reports in E. by rewrite <- E, Hr0.
  - apply (f_equal (fun o => rd_reports (from_option snd r o))) in E. cbn in E. rewrite read_payload_reports in E. by rewrite <- E.
Qed.

Lemma handle_fragment_reports mode off t fragment d r st :
  match handle_fragment mode off t fragment d r st with
  | Go r1 _ | Return _ r1 => rd_reports r `prefix_of` rd_reports r1
  end.
Proof.
  unfold handle_fragment, at_end, drop_fragments, report_partial.
  repeat case_match; simplify_eq/=; rewrite <- ?app_assoc; (reflexivity || by eexists).
Qed.

Lemma ReadRecord_reports mode r res r' : ReadRecord checksum_ log_number_ mode r = Some (res, r') -> rd_reports r `prefix_of` rd_reports r'.
Proof.
  unfold ReadRecord. generalize (length (buffer_ r) + length (rd_file r) + 2)%nat (mkRstate false [] 0). intros fuel.
  revert r. induction fuel as [|fuel IH]; intros r st E; [done|]. cbn [read_loop] in E.
  destruct (ReadPhysicalRecord checksum_ log_number_ r 0) as [[[[t fr] d] r1]|] eqn:E1; [|done]. cbn [mbind option_bind] in E.
  apply read_physical_reports in E1. transitivity (rd_reports r1); [done|].
  pose proof (handle_fragment_reports mode (u64 (end_of_buffer_offset_ r - zlen (buffer_ r))) t fr d r1 st) as Hh.
  destruct (handle_fragment _ _ _ _ _ _ _) as [r2 st2|res2 r2].
  - transitivity (rd_reports r2); [done|by eapply IH].
  - by injection E as <- <-.
Qed.

Lemma read_all_reports fuel mode r xs r' : read_all checksum_ log_number_ fuel mode r = Some (xs, r') -> rd_reports r `prefix_of` rd_reports r'.
Proof.
  revert r xs. induction fuel as [|fuel IH]; intros r xs E; [done|]. cbn [read_all] in E.
  destruct (ReadRecord checksum_ log_number_ mode r) as [[res r1]|] eqn:E1; [|done]. apply ReadRecord_reports in E1. cbn in E.
  destruct res as [x|]; [|by injection E as <- <-].
  destruct (read_all checksum_ log_number_ fuel mode r1) as [[l r2]|] eqn:E2; [|done]. cbn in E. injection E as <- <-.
  transitivity (rd_reports r1); [done|by eapply IH].
Qed.
End Reports.

(** C31. [ReadRecord] returns on every file, whatever its contents and also when a
    read fails, in every recovery mode but [kSkipAnyCorruptedRecords]. *)
Theorem read_record_terminates checksum_ log_number_ mode r : mode <> kSkipAnyCorruptedRecords ->
  exists res r', ReadRecord checksum_ log_number_ mode r = Some (res, r').
Proof.
  intros Hm. destruct (read_loop_total checksum_ log_number_ mode (length (buffer_ r) + length (rd_file r) + 2) r (mkRstate false [] 0) Hm)
    as [[res r'] E]; [unfold unread; lia|]. by exists res, r'.
Qed.

Lemma read_record_terminates_witness :
  exists res r', ReadRecord true 9 kPointInTimeRecovery (Reader_new [0; 0; 0; 0; 3; 0; 1; 2] false) = Some (res, r').
Proof. apply (read_record_terminates true 9 kPointInTimeRecovery). done. Defined.

(** In that mode it does not return on a recycled file that still begins with a
    record of its previous log: the record is skipped without being consumed, and
    read again. *)
Lemma read_record_loops fuel :
  exists w, write_all (Writer_new (F := bytes) [] 7 true false) [[1; 2; 3]] = Some (true, w) /\
    read_loop true 8 fuel kSkipAnyCorruptedRecords (Reader_new (dest_ w) false) (mkRstate false [] 0) = None.
Proof.
  destruct (write_all (Writer_new (F := bytes) [] 7 true false) [[1; 2; 3]]) as [[s w]|] eqn:E; vm_compute in E; [|done].
  injection E as <- <-. eexists. split; [reflexivity|]. destruct fuel as [|fuel]; [done|]. cbn [read_loop].
  match goal with |- context [ReadPhysicalRecord ?c ?l ?r ?d] =>
    destruct (ReadPhysicalRecord c l r d) as [[[[t fr] d1] r1]|] eqn:E1; vm_compute in E1; [|done] end.
  injection E1 as <- <- <- <-. cbn [mbind option_bind handle_fragment]. cbn.
  apply read_loop_old_record. unfold old_record. vm_compute. split_and!; discriminate || done.
Qed.

(** A recycled log whose number does not fit in 32 bits cannot be read: the writer
    stores the low half of the number, and the reader compares it with all of it. *)
Lemma large_log_number_unreadable :
  exists w r, write_all (Writer_new (F := bytes) [] (2 ^ 32 + 7) true false) [[1; 2; 3]] = Some (true, w) /\
    read_all true (2 ^ 32 + 7) 2 kPointInTimeRecovery (Reader_new (dest_ w) false) = Some ([], r) /\ rd_reports r = [].
Proof.
  destruct (write_all (Writer_new (F := bytes) [] (2 ^ 32 + 7) true false) [[1; 2; 3]]) as [[s w]|] eqn:E; vm_compute in E; [|done].
  injection E as <- <-. do 2 eexists. split; [reflexivity|]. split; [vm_compute; reflexivity|reflexivity].
Qed.
