(* ===== verification/Comparator.v ===== *)
(** * Slices and comparators

    [Slice::compare] of [rocksdb/include/rocksdb/slice.h] and the bytewise
    comparators of [rocksdb/util/comparator.cc], and the interface a
    [Comparator] promises to the iterators that use one. *)

From S2P Require Import Prelude.

(** ** The comparator interface

    [Compare] is three-way: negative, zero or positive. Its clients rely on its
    sign being that of a strict total order. *)

Class TotalCompare {A} (Compare : A -> A -> Z) : Prop := {
  cmp_eq : forall a b, Compare a b = 0 <-> a = b;
  cmp_flip : forall a b, Compare a b < 0 <-> 0 < Compare b a;
  cmp_trans : forall a b c, Compare a b < 0 -> Compare b c < 0 -> Compare a c < 0
}.

(** ** Slices *)

(** [memcmp] over the first [n] bytes; the code only uses the sign. *)
Fixpoint memcmp (a b : bytes) (n : nat) : Z :=
  match n, a, b with
  | S n', x :: a', y :: b' =>
      if x <? y then -1 else if y <? x then 1 else memcmp a' b' n'
  | _, _, _ => 0
  end.

Definition slice_compare (a b : bytes) : Z :=
  let min_len := if (length a <? length b)%nat then length a else length b in
  let r := memcmp a b min_len in
  if r =? 0 then
    if (length a <? length b)%nat then -1
    else if (length b <? length a)%nat then 1 else r
  else r.

Definition slice_eq (x y : bytes) : bool :=
  (length x =? length y)%nat && (memcmp x y (length x) =? 0).

Definition starts_with (s x : bytes) : bool :=
  (length x <=? length s)%nat && (memcmp s x (length x) =? 0).

Definition ends_with (s x : bytes) : bool :=
  (length x <=? length s)%nat && (memcmp (drop (length s - length x) s) x (length x) =? 0).

(** The loop of [difference_offset] and of the comparators: the length of the
    common prefix of two buffers. *)
Fixpoint difference_offset (a b : bytes) : nat :=
  match a, b with
  | x :: a', y :: b' => if x =? y then S (difference_offset a' b') else O
  | _, _ => O
  end.

(** ** BytewiseComparatorImpl *)

(** The inner loop of [FindShortestSeparator] from index [i] on: the first byte
    that is not 0xff is incremented and ends the string. *)
Fixpoint separator_skip_ff (fuel : nat) (start : bytes) (i : nat) : bytes :=
  match fuel with
  | O => start
  | S fuel' =>
      if (i <? length start)%nat then
        if nth i start 0 <? 255
        then take (i + 1) (<[i := u8 (nth i start 0 + 1)]> start)
        else separator_skip_ff fuel' start (i + 1)
      else start
  end.

Definition FindShortestSeparator (start limit : bytes) : bytes :=
  let min_length := Nat.min (length start) (length limit) in
  let diff_index := difference_offset start limit in
  if (min_length <=? diff_index)%nat then start
  else
    let start_byte := nth diff_index start 0 in
    let limit_byte := nth diff_index limit 0 in
    if limit_byte <=? start_byte then start
    else if (diff_index <? length limit - 1)%nat || (start_byte + 1 <? limit_byte)
    then take (diff_index + 1) (<[diff_index := u8 (start_byte + 1)]> start)
    else separator_skip_ff (length start) start (diff_index + 1).

Fixpoint FindShortSuccessor_loop (fuel : nat) (key : bytes) (i : nat) : bytes :=
  match fuel with
  | O => key
  | S fuel' =>
      if (i <? length key)%nat then
        let byte := nth i key 0 in
        if negb (byte =? 255) then take (i + 1) (<[i := u8 (byte + 1)]> key)
        else FindShortSuccessor_loop fuel' key (i + 1)
      else key
  end.

Definition FindShortSuccessor (key : bytes) : bytes :=
  FindShortSuccessor_loop (length key) key 0.

(** The loop over the bytes behind the first difference. *)
Fixpoint all_ff_00 (s t : bytes) : bool :=
  match s, t with
  | byte_s :: s', byte_t :: t' =>
      if negb (byte_s =? 255) || negb (byte_t =? 0) then false else all_ff_00 s' t'
  | _, _ => true
  end.

Definition IsSameLengthImmediateSuccessor (s t : bytes) : bool :=
  if negb (length s =? length t)%nat || (length s =? 0)%nat then false
  else
    let diff_ind := difference_offset s t in
    if (length s <=? diff_ind)%nat then false
    else
      let byte_s := nth diff_ind s 0 in
      let byte_t := nth diff_ind t 0 in
      if negb (byte_s =? 255) && (byte_s + 1 =? byte_t)
      then all_ff_00 (drop (diff_ind + 1) s) (drop (diff_ind + 1) t)
      else false.

Definition BytewiseCompare (a b : bytes) : Z := slice_compare a b.

(** ** ReverseBytewiseComparatorImpl *)

Definition ReverseBytewiseCompare (a b : bytes) : Z := - slice_compare a b.

Definition ReverseFindShortestSeparator (start limit : bytes) : bytes :=
  let min_length := Nat.min (length start) (length limit) in
  let diff_index := difference_offset start limit in
  if (diff_index =? min_length)%nat then start
  else
    let start_byte := nth diff_index start 0 in
    let limit_byte := nth diff_index limit 0 in
    if (limit_byte <? start_byte) && (diff_index <? length start - 1)%nat
    then take (diff_index + 1) start
    else start.

Example sep1 : FindShortestSeparator [1; 2; 3; 9] [1; 7] = [1; 3].
Proof. reflexivity. Qed.
Example sep2 : FindShortestSeparator [1; 1; 255; 5; 9] [1; 2] = [1; 1; 255; 6].
Proof. reflexivity. Qed.

(** ** Lexicographic order: lemmas *)

(** [Slice::compare] computes the lexicographic order, byte by byte. *)
Lemma slice_compare_nil_l b : slice_compare [] b = if (0 <? length b)%nat then -1 else 0.
Proof. destruct b; done. Qed.

Lemma slice_compare_nil_r a : slice_compare a [] = if (0 <? length a)%nat then 1 else 0.
Proof. destruct a; done. Qed.

Lemma slice_compare_cons x a y b :
  slice_compare (x :: a) (y :: b)
  = if x <? y then -1 else if y <? x then 1 else slice_compare a b.
Proof.
  unfold slice_compare. cbn [length].
  change (S (length a) <? S (length b))%nat with (length a <? length b)%nat.
  change (S (length b) <? S (length a))%nat with (length b <? length a)%nat.
  destruct (length a <? length b)%nat; cbn [memcmp]; case_bool; done.
Qed.

Lemma slice_compare_values a b :
  slice_compare a b = -1 \/ slice_compare a b = 0 \/ slice_compare a b = 1.
Proof.
  revert b. induction a as [|x a IH]; intros [|y b]; try (left; done); try (right; auto; done).
  rewrite slice_compare_cons. case_bool; auto.
Qed.

Lemma slice_compare_flip a b : slice_compare b a = - slice_compare a b.
Proof.
  revert b. induction a as [|x a IH]; intros [|y b]; try done.
  rewrite !slice_compare_cons. case_bool; try lia. apply IH.
Qed.

Lemma slice_compare_eq a b : slice_compare a b = 0 <-> a = b.
Proof.
  revert b. induction a as [|x a IH]; intros [|y b]; try (split; [done|discriminate]); [done|].
  rewrite slice_compare_cons. case_bool; [split; [done|intros; simplify_eq; lia]..|].
  rewrite IH. split; intros; simplify_eq; f_equal; lia.
Qed.

Lemma slice_compare_trans a b c :
  slice_compare a b < 0 -> slice_compare b c < 0 -> slice_compare a c < 0.
Proof.
  revert b c. induction a as [|x a IH]; intros [|y b] [|z c];
    rewrite ?slice_compare_nil_l, ?slice_compare_nil_r, ?slice_compare_cons; simpl; try lia.
  case_bool; try lia. eauto.
Qed.

#[global] Instance bytewise_total : TotalCompare BytewiseCompare.
Proof.
  unfold BytewiseCompare. split; [apply slice_compare_eq | | apply slice_compare_trans].
  intros a b. rewrite (slice_compare_flip a b). lia.
Qed.

#[global] Instance reverse_bytewise_total : TotalCompare ReverseBytewiseCompare.
Proof.
  unfold ReverseBytewiseCompare. split.
  - intros a b. rewrite <- slice_compare_eq. lia.
  - intros a b. rewrite (slice_compare_flip a b). lia.
  - intros a b c. rewrite <- !slice_compare_flip. intros. eauto using slice_compare_trans.
Qed.

Lemma slice_eq_spec x y : slice_eq x y = true <-> x = y.
Proof.
  unfold slice_eq. revert y. induction x as [|b x IH]; intros [|c y]; try done. cbn.
  change (S (length x) =? S (length y))%nat with (length x =? length y)%nat.
  destruct (Z.ltb_spec b c), (Z.ltb_spec c b);
    cbn; rewrite ?andb_false_r; try (split; [done|intros; simplify_eq; lia]).
  rewrite IH. split; intros; simplify_eq; f_equal; lia.
Qed.

Lemma slice_compare_app p a b : slice_compare (p ++ a) (p ++ b) = slice_compare a b.
Proof.
  induction p as [|x p IH]; [done|]. cbn [app]. rewrite slice_compare_cons, IH, Z.ltb_irrefl. done.
Qed.

Lemma slice_compare_refl a : slice_compare a a = 0.
Proof. by apply slice_compare_eq. Qed.

(** ** Separators: lemmas *)

Lemma difference_offset_split a b :
  (difference_offset a b < Nat.min (length a) (length b))%nat ->
  exists p x a' y b', a = p ++ x :: a' /\ b = p ++ y :: b' /\ x <> y /\
    length p = difference_offset a b.
Proof.
  revert b. induction a as [|x a IH]; intros [|y b]; simpl; try lia.
  destruct (Z.eqb_spec x y) as [->|]; intros H.
  - destruct (IH b) as (p & x' & a' & y' & b' & -> & -> & ? & <-); [lia|].
    exists (y :: p), x', a', y', b'. done.
  - exists [], x, a, y, b. done.
Qed.

(** What both skipping loops do to the bytes they run over. *)
Fixpoint incr_first_non_ff (s : bytes) : bytes :=
  match s with
  | [] => []
  | b :: s' => if b <? 255 then [b + 1] else b :: incr_first_non_ff s'
  end.

Lemma take_insert_middle (p : bytes) x s y :
  take (length p + 1) (<[length p := y]> (p ++ x :: s)) = p ++ [y].
Proof.
  rewrite insert_app_r_alt, Nat.sub_diag by lia. cbn [insert list_insert].
  rewrite take_app_ge by lia. replace (length p + 1 - length p)%nat with 1%nat by lia. done.
Qed.

Lemma separator_skip_ff_spec fuel p s :
  is_bytes s -> (length s <= fuel)%nat ->
  separator_skip_ff fuel (p ++ s) (length p) = p ++ incr_first_non_ff s.
Proof.
  revert p s. induction fuel as [|fuel IH]; intros p s Hs Hf.
  - destruct s; simpl in *; [done | lia].
  - cbn [separator_skip_ff]. destruct s as [|b s].
    { cbn [incr_first_non_ff]. rewrite !app_nil_r, Nat.ltb_irrefl. done. }
    inv_bytes. rewrite length_app. cbn [length incr_first_non_ff] in *.
    destruct (Nat.ltb_spec (length p) (length p + S (length s))) as [_|?]; [|lia].
    rewrite nth_middle. case_bool.
    + rewrite u8_small by lia. apply take_insert_middle.
    + specialize (IH (p ++ [b]) s). rewrite length_app, <- !app_assoc in IH. apply IH; [done|lia].
Qed.

Lemma FindShortSuccessor_loop_spec fuel p s :
  is_bytes s -> (length s <= fuel)%nat ->
  FindShortSuccessor_loop fuel (p ++ s) (length p) = p ++ incr_first_non_ff s.
Proof.
  revert p s. induction fuel as [|fuel IH]; intros p s Hs Hf.
  - destruct s; simpl in *; [done | lia].
  - cbn [FindShortSuccessor_loop]. destruct s as [|b s].
    { cbn [incr_first_non_ff]. rewrite !app_nil_r, Nat.ltb_irrefl. done. }
    inv_bytes. rewrite length_app. cbn [length incr_first_non_ff] in *.
    destruct (Nat.ltb_spec (length p) (length p + S (length s))) as [_|?]; [|lia].
    rewrite nth_middle. case_bool; cbn [negb]; try lia.
    + rewrite u8_small by lia. apply take_insert_middle.
    + specialize (IH (p ++ [b]) s). rewrite length_app, <- !app_assoc in IH. apply IH; [done|lia].
Qed.

Lemma incr_first_non_ff_ge s : slice_compare s (incr_first_non_ff s) <= 0.
Proof.
  induction s as [|b s IH]; [done|]. cbn [incr_first_non_ff]. destruct (Z.ltb_spec b 255).
  - rewrite slice_compare_cons. destruct (Z.ltb_spec b (b + 1)); lia.
  - rewrite slice_compare_cons, Z.ltb_irrefl. done.
Qed.

Lemma incr_first_non_ff_length s : (length (incr_first_non_ff s) <= length s)%nat.
Proof. induction s as [|b s IH]; simpl; [done|]. case_match; simpl; lia. Qed.

(** The common shape of the two results of [FindShortestSeparator]. *)
Lemma FindShortestSeparator_cases start limit :
  is_bytes start -> is_bytes limit -> slice_compare start limit < 0 ->
  FindShortestSeparator start limit = start \/
  exists p x s y l, start = p ++ x :: s /\ limit = p ++ y :: l /\ x < y /\
    ((FindShortestSeparator start limit = p ++ [x + 1] /\ (x + 1 < y \/ l <> [])) \/
     FindShortestSeparator start limit = p ++ x :: incr_first_non_ff s).
Proof.
  intros Hs Hl Hlt. unfold FindShortestSeparator.
  destruct (Nat.leb_spec (Nat.min (length start) (length limit)) (difference_offset start limit)) as [|Hd];
    [by left|].
  destruct (difference_offset_split _ _ Hd) as (p & x & s & y & l & Es & El & Hxy & Hp).
  rewrite <- Hp. subst start limit. rewrite slice_compare_app, slice_compare_cons in Hlt.
  rewrite !nth_middle. destruct (Z.leb_spec y x); [by left|]. right.
  exists p, x, s, y, l. split_and!; try done.
  apply Forall_app in Hs as [_ Hs]. apply Forall_app in Hl as [_ Hl].
  change (Forall is_byte) with is_bytes in *. inv_bytes.
  rewrite !length_app. cbn [length].
  destruct (Nat.ltb_spec (length p) (length p + S (length l) - 1)) as [Hll|Hll]; cbn [orb].
  - left. rewrite u8_small, take_insert_middle by lia. split; [done|]. right. destruct l; simpl in *; [lia|done].
  - destruct (Z.ltb_spec (x + 1) y).
    + left. rewrite u8_small, take_insert_middle by lia. auto.
    + right. pose proof (separator_skip_ff_spec (length p + S (length s)) (p ++ [x]) s Hs) as E.
      rewrite length_app, <- !app_assoc in E. apply E. lia.
Qed.

(** ** Properties *)

Lemma FindShortestSeparator_between start limit :
  is_bytes start -> is_bytes limit -> BytewiseCompare start limit < 0 ->
  let sep := FindShortestSeparator start limit in
  BytewiseCompare start sep <= 0 /\ BytewiseCompare sep limit < 0 /\
  (length sep <= length start)%nat.
Proof.
  intros Hs Hl Hlt sep. unfold BytewiseCompare in *.
  destruct (FindShortestSeparator_cases start limit Hs Hl Hlt)
    as [E | (p & x & s & y & l & -> & -> & Hxy & [[E Hy] | E])]; subst sep; rewrite E.
  - rewrite slice_compare_refl. lia.
  - rewrite !slice_compare_app, !slice_compare_cons, !length_app. simpl. case_bool; try lia.
    destruct Hy; [lia|]. destruct l; [done|]. rewrite slice_compare_nil_l. simpl. lia.
  - rewrite !slice_compare_app, !slice_compare_cons, !length_app, Z.ltb_irrefl. simpl.
    pose proof (incr_first_non_ff_ge s). pose proof (incr_first_non_ff_length s).
    destruct (Z.ltb_spec x y); lia.
Qed.

(** [FindShortestSeparator], with which the table builder shortens the index
    keys between two blocks, returns a string of at most the length of [start]
    that is not below [start] and strictly below [limit], whenever [start] is
    below [limit]. *)
Theorem separator_correct start limit :
  is_bytes start -> is_bytes limit -> BytewiseCompare start limit < 0 ->
  let sep := FindShortestSeparator start limit in
  BytewiseCompare start sep <= 0 /\ BytewiseCompare sep limit < 0 /\
  (length sep <= length start)%nat.
Proof. apply FindShortestSeparator_between. Qed.

Lemma separator_correct_witness :
  BytewiseCompare (FindShortestSeparator [1; 1; 255; 5; 9] [1; 2]) [1; 2] < 0.
Proof.
  apply (separator_correct [1; 1; 255; 5; 9] [1; 2]); [bytes_dec..|].
  reflexivity.
Defined.

(** [FindShortSuccessor] returns a string not below its argument. *)
Lemma short_successor_ge key :
  is_bytes key -> BytewiseCompare key (FindShortSuccessor key) <= 0.
Proof.
  intros Hk. pose proof (FindShortSuccessor_loop_spec (length key) [] key Hk ltac:(lia)) as E.
  unfold BytewiseCompare, FindShortSuccessor. cbn in E. rewrite E. apply incr_first_non_ff_ge.
Qed.

(** ** Immediate successors *)

Lemma all_ff_00_between s t u v :
  length u = length s -> length v = length t -> length s = length t ->
  is_bytes u -> is_bytes v -> all_ff_00 s t = true ->
  slice_compare u s <= 0 /\ 0 <= slice_compare v t.
Proof.
  revert t u v. induction s as [|bs s IH]; intros [|bt t] [|x u] [|z v]; simpl; try discriminate; [done|].
  intros Hu Hv Hst Hbu Hbv. case_match eqn:E; [discriminate|]. intros Hall.
  apply orb_false_iff in E as [E1 E2]. apply negb_false_iff in E1, E2. apply Z.eqb_eq in E1, E2. subst.
  inv_bytes. rewrite !slice_compare_cons.
  destruct (IH t u v) as [H1 H2]; [lia..|done|done|done|]. case_bool; lia.
Qed.

Lemma between_prefix p s t u :
  (forall u', is_bytes u' -> length u' = length s -> slice_compare u' s <= 0 \/ 0 <= slice_compare u' t) ->
  is_bytes u -> length u = length (p ++ s) ->
  slice_compare u (p ++ s) <= 0 \/ 0 <= slice_compare u (p ++ t).
Proof.
  intros Hst. revert u. induction p as [|c p IH]; intros u Hu Hlen; [auto|].
  destruct u as [|z u]; [discriminate|]. inv_bytes. cbn [app]. rewrite !slice_compare_cons.
  simpl in Hlen. case_bool; try lia. apply IH; [done|lia].
Qed.

(** When [IsSameLengthImmediateSuccessor s t] holds, [s] is below [t] and no
    string of their length lies strictly between them. *)
Theorem immediate_successor_tight s t u :
  is_bytes u -> length u = length s -> IsSameLengthImmediateSuccessor s t = true ->
  BytewiseCompare s t < 0 /\ (BytewiseCompare u s <= 0 \/ 0 <= BytewiseCompare u t).
Proof.
  intros Hu Hlen. unfold IsSameLengthImmediateSuccessor, BytewiseCompare.
  destruct (Nat.eqb_spec (length s) (length t)) as [Hst|]; [|discriminate].
  destruct (Nat.eqb_spec (length s) 0); [discriminate|]. cbn [negb orb].
  destruct (Nat.leb_spec (length s) (difference_offset s t)); [discriminate|].
  destruct (difference_offset_split s t) as (p & x & a & y & b & -> & -> & Hxy & Hp); [lia|].
  rewrite <- Hp, !nth_middle. rewrite !length_app in Hst. cbn [length] in Hst.
  destruct (negb (x =? 255) && (x + 1 =? y)) eqn:E; [|discriminate].
  apply andb_true_iff in E as [_ E]. apply Z.eqb_eq in E. subst y.
  rewrite !(drop_app_ge p) by lia. replace (length p + 1 - length p)%nat with 1%nat by lia.
  cbn [drop]. intros Hall. rewrite slice_compare_app, slice_compare_cons.
  split; [destruct (Z.ltb_spec x (x + 1)); lia|].
  apply between_prefix; [|done|done]. intros [|z v] Hv Hlv; [done|]. simpl in Hlv. inv_bytes.
  rewrite !slice_compare_cons. pose proof (all_ff_00_between a b v v) as Hff.
  destruct Hff; [lia..|done|done|done|]. case_bool; lia.
Qed.

Lemma immediate_successor_tight_witness :
  BytewiseCompare [1; 255] [2; 0] < 0 /\
  (BytewiseCompare [1; 200] [1; 255] <= 0 \/ 0 <= BytewiseCompare [1; 200] [2; 0]).
Proof.
  apply immediate_successor_tight; [bytes_dec|done|done].
Defined.
