(* ===== verification/Hash.v ===== *)
(** * Hash functions ([util/hash.h], [util/hash.cc])

    The 32-bit hash of the filters and of the hash index of a block, and the maps of a
    hash value into a range. *)

From S2P Require Import Prelude Coding.

Definition Hash_m : Z := 0xc6a4a793.

(** [static_cast<uint32_t>(static_cast<int8_t>(c))]. *)
Definition sign_extend (c : Z) : Z := u32 (if c <? 128 then c else c - 256).

(** Four bytes at a time; the loop ends with the bytes that remain. *)
Fixpoint Hash_words (fuel : nat) (data : bytes) (h : Z) : Z * bytes :=
  match fuel with
  | O => (h, data)
  | S fuel' =>
      if 4 <=? zlen data then
        let h := u32 (h + DecodeFixed32 data) in
        let h := u32 (h * Hash_m) in
        Hash_words fuel' (drop 4 data) (Z.lxor h (Z.shiftr h 16))
      else (h, data)
  end.

Definition Hash_last (h : Z) : Z :=
  let h := u32 (h * Hash_m) in Z.lxor h (Z.shiftr h 24).

(** A word per four bytes: the length of the data is enough fuel. *)
Definition Hash (data : bytes) (seed : Z) : Z :=
  let h := u32 (Z.lxor seed (u64 (zlen data * Hash_m))) in
  match Hash_words (length data) data h with
  | (h, [d0; d1; d2]) =>
      let h := u32 (h + u32 (Z.shiftl (sign_extend d2) 16)) in
      let h := u32 (h + u32 (Z.shiftl (sign_extend d1) 8)) in
      Hash_last (u32 (h + sign_extend d0))
  | (h, [d0; d1]) =>
      let h := u32 (h + u32 (Z.shiftl (sign_extend d1) 8)) in
      Hash_last (u32 (h + sign_extend d0))
  | (h, [d0]) => Hash_last (u32 (h + sign_extend d0))
  | (h, _) => h
  end.

Definition BloomHash (key : bytes) : Z := Hash key 0xbc9f1d34.
Definition GetSliceHash (s : bytes) : Z := Hash s 397.

Definition Upper32of64 (v : Z) : Z := u32 (Z.shiftr v 32).
Definition Lower32of64 (v : Z) : Z := u32 v.

Definition fastrange32 (hash range : Z) : Z := u32 (Z.shiftr (u64 (range * hash)) 32).

(** With the 128-bit type of the compiler, and without it. *)
Definition fastrange64_wide (hash range : Z) : Z := u64 (Z.shiftr ((range * hash) mod 2 ^ 128) 64).

Definition fastrange64 (hash range : Z) : Z :=
  let tmp := u64 (Z.land range 0xffffffff * Z.land hash 0xffffffff) in
  let tmp := Z.shiftr tmp 32 in
  let tmp := u64 (tmp + u64 (Z.land range 0xffffffff * Z.shiftr hash 32)) in
  let tmp2 := u64 (Z.shiftr range 32 * Z.land hash 0xffffffff) in
  let tmp := u64 (tmp + u32 tmp2) in
  let tmp := Z.shiftr tmp 32 in
  let tmp := u64 (tmp + Z.shiftr tmp2 32) in
  u64 (tmp + u64 (Z.shiftr range 32 * Z.shiftr hash 32)).

(** ** Lemmas *)

Lemma lxor_shiftr_range h n : 0 <= n -> 0 <= h < 2 ^ 32 -> 0 <= Z.lxor h (Z.shiftr h n) < 2 ^ 32.
Proof.
  intros Hn Hh. apply lxor_range; [lia|done|]. rewrite shiftr_div by done. pose proof (Z.pow_pos_nonneg 2 n).
  split; [apply Z.div_pos; lia|]. apply Z.div_lt_upper_bound; nia.
Qed.

Lemma Hash_words_range fuel data h : 0 <= h < 2 ^ 32 -> 0 <= (Hash_words fuel data h).1 < 2 ^ 32.
Proof.
  revert data h. induction fuel as [|fuel IH]; intros data h Hh; cbn [Hash_words]; [done|].
  destruct (4 <=? zlen data); [|done]. apply IH, lxor_shiftr_range; [lia|]. apply u32_range.
Qed.

Lemma Hash_range data seed : 0 <= Hash data seed < 2 ^ 32.
Proof.
  unfold Hash. pose proof (Hash_words_range (length data) data (u32 (Z.lxor seed (u64 (zlen data * Hash_m)))) (u32_range _)) as Hr.
  destruct (Hash_words _ _ _) as [h rest]. cbn in Hr.
  assert (Hl : forall x, 0 <= Hash_last x < 2 ^ 32) by (intros x; apply lxor_shiftr_range; [lia|apply u32_range]).
  destruct rest as [|? [|? [|? [|]]]]; auto.
Qed.

Lemma fastrange32_range hash range : 0 <= hash < 2 ^ 32 -> 0 < range < 2 ^ 32 -> 0 <= fastrange32 hash range < range.
Proof.
  intros Hh Hr. unfold fastrange32. rewrite u64_small by nia. rewrite shiftr_div by lia.
  assert (0 <= range * hash / 2 ^ 32 < range) by (split; [apply Z.div_pos; nia|apply Z.div_lt_upper_bound; nia]).
  rewrite u32_small by lia. done.
Qed.

Lemma fastrange64_wide_range hash range : 0 <= hash < 2 ^ 64 -> 0 < range < 2 ^ 64 -> 0 <= fastrange64_wide hash range < range.
Proof.
  intros Hh Hr. unfold fastrange64_wide. rewrite Z.mod_small by nia. rewrite shiftr_div by lia.
  assert (0 <= range * hash / 2 ^ 64 < range) by (split; [apply Z.div_pos; nia|apply Z.div_lt_upper_bound; nia]).
  rewrite u64_small by lia. done.
Qed.

(** The portable multiplication computes the upper half of the product. *)
Lemma fastrange64_eq hash range : 0 <= hash < 2 ^ 64 -> 0 <= range < 2 ^ 64 -> fastrange64 hash range = fastrange64_wide hash range.
Proof.
  intros Hh Hr. unfold fastrange64, fastrange64_wide. change 0xffffffff with (2 ^ 32 - 1). rewrite !land_ones_mod, !shiftr_div by lia.
  set (rl := range mod 2 ^ 32). set (rh := range / 2 ^ 32). set (hl := hash mod 2 ^ 32). set (hh := hash / 2 ^ 32).
  assert (Er : range = rh * 2 ^ 32 + rl) by (unfold rh, rl; rewrite Z.mul_comm; by apply Z.div_mod).
  assert (Eh : hash = hh * 2 ^ 32 + hl) by (unfold hh, hl; rewrite Z.mul_comm; by apply Z.div_mod).
  assert (0 <= rl < 2 ^ 32) by (by apply Z.mod_pos_bound). assert (0 <= hl < 2 ^ 32) by (by apply Z.mod_pos_bound).
  assert (0 <= rh < 2 ^ 32) by (split; [apply Z.div_pos; lia|apply Z.div_lt_upper_bound; lia]).
  assert (0 <= hh < 2 ^ 32) by (split; [apply Z.div_pos; lia|apply Z.div_lt_upper_bound; lia]).
  clearbody rl rh hl hh. subst.
  assert (B : forall a b, 0 <= a < 2 ^ 32 -> 0 <= b < 2 ^ 32 -> 0 <= a * b <= (2 ^ 32 - 1) * (2 ^ 32 - 1)) by (intros; nia).
  pose proof (B rl hl ltac:(lia) ltac:(lia)). pose proof (B rl hh ltac:(lia) ltac:(lia)). pose proof (B rh hl ltac:(lia) ltac:(lia)).
  pose proof (B rh hh ltac:(lia) ltac:(lia)).
  set (a := rl * hl) in *. set (b := rl * hh) in *. set (c := rh * hl) in *. set (d := rh * hh) in *.
  replace ((rh * 2 ^ 32 + rl) * (hh * 2 ^ 32 + hl)) with (d * 2 ^ 64 + (b + c) * 2 ^ 32 + a) by (unfold a, b, c, d; ring).
  clearbody a b c d. unfold u64, u32. pow2_norm. Z.to_euclidean_division_equations. lia.
Qed.
