(* ===== verification/Random.v ===== *)
(** * code/random.h: pseudo-random numbers

    [Random] is the multiplicative generator modulo 2^31 - 1, [Random32] and
    [Random64] wrap the Mersenne twisters of the C++ library. *)

From S2P Require Import Prelude.
From Stdlib Require Import Znumtheory Zpow_facts.

(** ** class Random *)

Definition Random_M : Z := 2147483647.
Definition Random_A : Z := 16807.
Definition kMaxNext : Z := Random_M.

(** The object is its [seed_]. *)
Definition GoodSeed (s : Z) : Z := if negb (Z.land s Random_M =? 0) then Z.land s Random_M else 1.

Definition Random_new (s : Z) : Z := GoodSeed s.
Definition Random_Reset (s : Z) : Z := GoodSeed s.

(** Returns the value and leaves it in [seed_]. *)
Definition Random_Next (seed_ : Z) : Z :=
  let product := u64 (seed_ * Random_A) in
  let seed_ := u32 (Z.shiftr product 31 + Z.land product Random_M) in
  if Random_M <? seed_ then u32 (seed_ - Random_M) else seed_.

(** [Next() % n] and the rest of the interface: value and new seed. The
    argument [n] is an [int]; it is converted to [uint32_t] for the remainder. *)
Definition Uniform (seed_ n : Z) : Z * Z :=
  let r := Random_Next seed_ in (r mod u32 n, r).

Definition OneIn (seed_ n : Z) : bool * Z :=
  let '(v, s) := Uniform seed_ n in (v =? 0, s).

Definition OneInOpt (seed_ n : Z) : bool * Z :=
  if 0 <? n then OneIn seed_ n else (false, seed_).

Definition PercentTrue (seed_ percentage : Z) : bool * Z :=
  let '(v, s) := Uniform seed_ 100 in (i32 v <? percentage, s).

Definition Skewed (seed_ max_log : Z) : Z * Z :=
  let '(base, s) := Uniform seed_ (max_log + 1) in Uniform s (i32 (Z.shiftl 1 base)).

Example next_1 : Random_Next 1 = 16807 /\ Random_Next 16807 = 282475249.
Proof. split; reflexivity. Qed.

(** ** The Mersenne twisters

    [std::mt19937] and [std::mt19937_64] are one algorithm with two sets of
    constants, fixed by the C++ standard. *)

Record mt_params := {
  mt_w : Z; mt_n : nat; mt_m : nat; mt_r : Z; mt_a : Z;
  mt_u : Z; mt_d : Z; mt_s : Z; mt_b : Z; mt_t : Z; mt_c : Z; mt_l : Z; mt_f : Z
}.

Definition mt19937 : mt_params := {|
  mt_w := 32; mt_n := 624; mt_m := 397; mt_r := 31; mt_a := 0x9908b0df;
  mt_u := 11; mt_d := 0xffffffff; mt_s := 7; mt_b := 0x9d2c5680;
  mt_t := 15; mt_c := 0xefc60000; mt_l := 18; mt_f := 1812433253 |}.

Definition mt19937_64 : mt_params := {|
  mt_w := 64; mt_n := 312; mt_m := 156; mt_r := 31; mt_a := 0xb5026f5aa96619e9;
  mt_u := 29; mt_d := 0x5555555555555555; mt_s := 17; mt_b := 0x71d67fffeda60000;
  mt_t := 37; mt_c := 0xfff7eee000000000; mt_l := 43; mt_f := 6364136223846793005 |}.

(** The state holds the last [mt_n] words, oldest first. *)
Definition mt_state := list Z.

Fixpoint mt_seed_loop (p : mt_params) (k : nat) (i prev : Z) : mt_state :=
  match k with
  | O => []
  | S k' =>
      let x := (mt_f p * Z.lxor prev (Z.shiftr prev (mt_w p - 2)) + i) mod 2 ^ mt_w p in
      x :: mt_seed_loop p k' (i + 1) x
  end.

Definition mt_seed (p : mt_params) (s : Z) : mt_state :=
  let x0 := s mod 2 ^ mt_w p in x0 :: mt_seed_loop p (mt_n p - 1) 1 x0.

Definition mt_temper (p : mt_params) (x : Z) : Z :=
  let y := Z.lxor x (Z.land (Z.shiftr x (mt_u p)) (mt_d p)) in
  let y := Z.lxor y (Z.land (Z.shiftl y (mt_s p) mod 2 ^ mt_w p) (mt_b p)) in
  let y := Z.lxor y (Z.land (Z.shiftl y (mt_t p) mod 2 ^ mt_w p) (mt_c p)) in
  Z.lxor y (Z.shiftr y (mt_l p)) mod 2 ^ mt_w p.

(** One call of the generator: the recurrence for the next word, tempered. *)
Definition mt_next (p : mt_params) (st : mt_state) : Z * mt_state :=
  let x0 := nth 0 st 0 in
  let y := Z.lor (Z.shiftl (Z.shiftr x0 (mt_r p)) (mt_r p)) (nth 1 st 0 mod 2 ^ mt_r p) in
  let alpha := if Z.testbit y 0 then mt_a p else 0 in
  let x := Z.lxor (Z.lxor (nth (mt_m p) st 0) (Z.shiftr y 1)) alpha in
  (mt_temper p x, tail st ++ [x]).

(** ** class Random32 and class Random64 *)

Definition Random32_new (s : Z) : mt_state := mt_seed mt19937 (u32 s).
Definition Random32_Next (g : mt_state) : Z * mt_state :=
  let '(v, g') := mt_next mt19937 g in (u32 v, g').
Definition Random32_Uniformish (g : mt_state) (n : Z) : Z * mt_state :=
  let '(v, g') := mt_next mt19937 g in (u32 (Z.shiftr (u64 (v * n)) 32), g').
Definition Random32_Seed (new_seed : Z) : mt_state := mt_seed mt19937 (u32 new_seed).

Definition Random64_new (s : Z) : mt_state := mt_seed mt19937_64 (u64 s).
Definition Random64_Next (g : mt_state) : Z * mt_state :=
  let '(v, g') := mt_next mt19937_64 g in (u64 v, g').

(** The first words for the default seed 5489. *)
Example mt64_first : (Random64_Next (Random64_new 5489)).1 = 14514284786278117030.
Proof. vm_compute. reflexivity. Qed.
Example mt32_first : (Random32_Next (Random32_new 5489)).1 = 3499211612.
Proof. vm_compute. reflexivity. Qed.

(** ** Random::Next computes seed * A mod M *)

Lemma Random_Next_spec s :
  0 < s < Random_M ->
  Random_Next s = s * Random_A mod Random_M /\ 0 < Random_Next s < Random_M.
Proof.
  intros Hs. enough (E : Random_Next s = s * Random_A mod Random_M /\ s * Random_A mod Random_M <> 0).
  { destruct E as [-> Hne]. split; [done|].
    pose proof (Z.mod_pos_bound (s * Random_A) Random_M ltac:(unfold Random_M; lia)). lia. }
  assert (Hnz : 0 < s mod Random_M) by (rewrite Z.mod_small; lia).
  unfold Random_Next.
  assert (E : Z.land (u64 (s * Random_A)) Random_M = u64 (s * Random_A) mod 2 ^ 31) by (apply (land_ones_mod _ 31); lia).
  rewrite E, shiftr_div by lia. unfold u64, u32, Random_A, Random_M in *. clear E.
  rewrite (Z.mod_small (s * 16807) (2 ^ 64)) by lia.
  set (p := s * 16807). assert (0 <= p < 2 ^ 31 * 16807) by (unfold p; lia).
  rewrite (Z.mod_small (p / 2 ^ 31 + p mod 2 ^ 31)) by div_lia.
  assert (Hp : p mod 2147483647 = (p / 2 ^ 31 + p mod 2 ^ 31) mod 2147483647).
  { rewrite (Z.div_mod p (2 ^ 31)) at 1 by lia.
    replace (2 ^ 31 * (p / 2 ^ 31) + p mod 2 ^ 31)
      with ((p / 2 ^ 31 + p mod 2 ^ 31) + (p / 2 ^ 31) * 2147483647) by lia.
    apply Z.mod_add. lia. }
  assert (Hb : 0 <= p / 2 ^ 31 + p mod 2 ^ 31 < 2 * 2147483647) by div_lia.
  assert (Hne : p mod 2147483647 <> 0).
  { unfold p. intros E. apply Z.mod_divide in E; [|lia].
    rewrite Z.mul_comm in E. apply Gauss in E; [|apply Zgcd_1_rel_prime; reflexivity].
    destruct E as [q E]. subst s. rewrite Z.mod_mul in Hnz by lia. lia. }
  split; [|done]. rewrite Hp in Hne |- *. set (q := p / 2 ^ 31 + p mod 2 ^ 31) in *. clearbody q.
  destruct (Z.ltb_spec 2147483647 q).
  - rewrite (Z.mod_small (q - _)) by lia. div_lia.
  - rewrite Z.mod_small; [done|]. split; [lia|].
    destruct (Z.eq_dec q 2147483647) as [->|]; [|lia]. exfalso. apply Hne. reflexivity.
Qed.

Lemma small_divide n x : (n | x) -> 0 <= x < n -> x = 0.
Proof.
  intros Hd Hx. destruct (Z.eq_dec x 0); [done|].
  apply Z.divide_pos_le in Hd; lia.
Qed.

(** ** The period of Random::Next

    The powers of [g] modulo [m], where [n] is an exponent with [g ^ n = 1] and
    [factors] are the prime factors of [n]. *)

Section Period.
Context (m g n : Z) (factors : list Z).
Hypothesis m_big : 1 < m.
Hypothesis n_eq : n = m - 1.
Hypothesis g_pos : 0 < g.
Hypothesis g_coprime : Z.gcd g m = 1.
Hypothesis g_n : g ^ n mod m = 1.
Hypothesis factors_prod : foldr Z.mul 1 factors = n.
Hypothesis factors_prime :
  Forall (fun f => 1 < f /\ forall d, (d | f) -> 0 <= d -> d = 1 \/ d = f) factors.
Hypothesis factors_order : Forall (fun f => g ^ (n / f) mod m <> 1) factors.

Local Definition unit_exp (x : Z) : Prop := 0 <= x /\ g ^ x mod m = 1.

Local Lemma unit_exp_mul x k : unit_exp x -> 0 <= k -> unit_exp (x * k).
Proof.
  intros [Hx E] Hk. split; [lia|]. rewrite Z.pow_mul_r by lia.
  rewrite <- Z.mod_pow_l, E, Z.pow_1_l, Z.mod_small by lia. done.
Qed.

Local Lemma unit_exp_mod a b : 0 < b -> unit_exp a -> unit_exp b -> unit_exp (a mod b).
Proof.
  intros Hb Ha Hub. pose proof (Z.mod_pos_bound a b Hb). split; [lia|].
  destruct (unit_exp_mul b (a / b) Hub) as [_ E]; [destruct Ha; apply Z.div_pos; lia|].
  destruct Ha as [Ha Ea]. rewrite (Z.div_mod a b) in Ea by lia.
  rewrite Z.pow_add_r in Ea by (try apply Z.mul_nonneg_nonneg; try apply Z.div_pos; lia).
  rewrite Z.mul_mod, E, Z.mul_1_l, Z.mod_mod in Ea by lia. done.
Qed.

Local Lemma unit_exp_gcd b a : unit_exp a -> unit_exp b -> unit_exp (Z.gcd a b).
Proof.
  revert a. induction (Z.lt_wf 0 b) as [b _ IH]. intros a Ha Hb.
  destruct (Z.eq_dec b 0) as [->|].
  - rewrite Z.gcd_0_r, Z.abs_eq; [done | apply Ha].
  - assert (0 < b) by (destruct Hb; lia). pose proof (Z.mod_pos_bound a b ltac:(lia)).
    rewrite Z.gcd_comm, <- Z.gcd_mod, Z.gcd_comm by lia.
    apply IH; [cbv beta; lia | done | by apply unit_exp_mod].
Qed.

Local Lemma common_factor t fs :
  Forall (fun f => 1 < f /\ forall d, (d | f) -> 0 <= d -> d = 1 \/ d = f) fs ->
  1 < t -> (t | foldr Z.mul 1 fs) -> exists f, f ∈ fs /\ (f | t).
Proof.
  intros Hfs Ht. induction Hfs as [|f fs [Hf Hp] _ IH]; cbn [foldr]; intros Hd.
  - apply Z.divide_1_r_nonneg in Hd; lia.
  - destruct (Hp (Z.gcd f t)) as [E|E]; [apply Z.gcd_divide_l | apply Z.gcd_nonneg | |].
    + destruct IH as (f' & Hin & Hdiv); [|exists f'; split; [by right|done]].
      apply (Gauss t f); [done|]. apply Zgcd_1_rel_prime. by rewrite Z.gcd_comm.
    + exists f. split; [by left|]. rewrite <- E. apply Z.gcd_divide_r.
Qed.

(** The order of [g] is exactly [n]. *)
Local Lemma order_divides d : 0 < d -> unit_exp d -> (n | d).
Proof.
  intros Hd Hu. assert (Hun : unit_exp n) by (split; [lia|done]).
  pose proof (unit_exp_gcd n d Hu Hun) as He. set (e := Z.gcd d n) in *.
  assert (Hen : (e | n)) by apply Z.gcd_divide_r.
  assert (Hed : (e | d)) by apply Z.gcd_divide_l.
  assert (He0 : e <> 0) by (intros E; apply Z.gcd_eq_0_l in E; lia). clearbody e.
  destruct (Z.eq_dec e n) as [E|Hne]; [by rewrite <- E|]. exfalso.
  assert (0 < e) by (destruct He; lia).
  destruct Hen as [t Ht]. assert (t <> 1) by (intros ->; lia).
  assert (1 < t) by (assert (0 < t * e) by lia; nia).
  destruct (common_factor t factors) as (f & Hf & [k Hk]); [done..| |].
  { rewrite factors_prod, Ht. apply Z.divide_factor_l. }
  rewrite Forall_forall in factors_order, factors_prime.
  destruct (factors_prime f Hf) as [Hf1 _]. apply (factors_order f Hf).
  replace (n / f) with (e * k) by (rewrite Ht, Hk; replace (k * f * e) with (e * k * f) by lia; rewrite Z.div_mul by lia; lia).
  apply unit_exp_mul; [done|nia].
Qed.

Local Lemma g_pow_coprime i : 0 <= i -> rel_prime m (g ^ i).
Proof.
  intros. apply rel_prime_sym. rewrite <- (Z.pow_1_r m).
  apply rel_prime_Zpower; [done..|]. by apply Zgcd_1_rel_prime.
Qed.

Local Lemma g_pow_inj i j : 0 <= i -> i <= j -> g ^ i mod m = g ^ j mod m -> (n | j - i).
Proof.
  intros Hi Hij E. destruct (Z.eq_dec i j) as [->|]; [rewrite Z.sub_diag; apply Z.divide_0_r|].
  apply order_divides; [lia|]. split; [lia|].
  assert (Hd : (m | g ^ i * (g ^ (j - i) - 1))).
  { rewrite Z.mul_sub_distr_l, <- Z.pow_add_r, Z.mul_1_r by lia.
    replace (i + (j - i)) with j by lia. apply Z.mod_divide; [lia|].
    rewrite Zminus_mod, E, Z.sub_diag. apply Z.mod_0_l. lia. }
  apply Gauss in Hd; [|by apply g_pow_coprime].
  apply Z.mod_divide in Hd; [|lia]. rewrite Zminus_mod, (Z.mod_small 1) in Hd by lia.
  pose proof (Z.mod_pos_bound (g ^ (j - i)) m ltac:(lia)) as Hb.
  destruct (Z.eq_dec (g ^ (j - i) mod m) 0) as [E0|]; [|rewrite Z.mod_small in Hd; lia].
  rewrite E0 in Hd. replace (0 - 1) with (m - 1 + (-1) * m) in Hd by lia.
  rewrite Z.mod_add, Z.mod_small in Hd by lia. lia.
Qed.

(** Every nonzero residue is a power of [g]. *)
Local Lemma g_generates x : 0 < x < m -> exists i, 0 <= i < n /\ g ^ i mod m = x.
Proof.
  intros Hx. set (f := fun i => g ^ i mod m).
  assert (Hnd : NoDup (f <$> seqZ 0 n)).
  { apply NoDup_fmap_2_strong; [|apply NoDup_seqZ].
    intros i j Hi Hj E. apply elem_of_seqZ in Hi, Hj. unfold f in E.
    destruct (Z.le_ge_cases i j).
    - pose proof (small_divide n (j - i) (g_pow_inj i j ltac:(lia) ltac:(lia) E)). lia.
    - pose proof (small_divide n (i - j) (g_pow_inj j i ltac:(lia) ltac:(lia) (eq_sym E))). lia. }
  assert (Hsub : f <$> seqZ 0 n ⊆+ seqZ 1 n).
  { apply NoDup_submseteq; [done|]. intros y Hy. apply list_elem_of_fmap in Hy as (i & -> & Hi).
    apply elem_of_seqZ in Hi. apply elem_of_seqZ. unfold f.
    pose proof (Z.mod_pos_bound (g ^ i) m ltac:(lia)).
    enough (g ^ i mod m <> 0) by lia. intros E0. apply Z.mod_divide in E0; [|lia].
    pose proof (g_pow_coprime i ltac:(lia)) as Hc. apply Zgcd_1_rel_prime in Hc.
    apply (Z.divide_gcd_iff m) in E0; [|lia]. rewrite Hc in E0. lia. }
  apply submseteq_length_Permutation in Hsub; [|rewrite length_fmap, !length_seqZ; lia].
  assert (Hin : x ∈ f <$> seqZ 0 n) by (rewrite Hsub; apply elem_of_seqZ; lia).
  apply list_elem_of_fmap in Hin as (i & -> & Hi). apply elem_of_seqZ in Hi. exists i. split; [lia|done].
Qed.
End Period.

Lemma prime_by_trial f :
  1 < f -> forallb (fun d => negb (f mod d =? 0)) (seqZ 2 (f - 2)) = true ->
  1 < f /\ forall d, (d | f) -> 0 <= d -> d = 1 \/ d = f.
Proof.
  intros Hf Hall. split; [done|]. intros d Hd Hpos.
  pose proof (Z.divide_pos_le d f ltac:(lia) Hd).
  assert (d <> 0) by (intros ->; apply Z.divide_0_l in Hd; lia).
  destruct (Z.eq_dec d 1), (Z.eq_dec d f); auto. exfalso.
  rewrite forallb_forall in Hall. specialize (Hall d).
  rewrite (proj2 (Z.mod_divide f d ltac:(lia)) Hd) in Hall.
  discriminate Hall. apply list_elem_of_In, elem_of_seqZ. lia.
Qed.

(** M - 1 = 2 * 3 * 3 * 7 * 11 * 31 * 151 * 331 *)
Definition M1_factors : list Z := [2; 3; 3; 7; 11; 31; 151; 331].

Lemma M1_factors_prime :
  Forall (fun f => 1 < f /\ forall d, (d | f) -> 0 <= d -> d = 1 \/ d = f) M1_factors.
Proof.
  unfold M1_factors.
  repeat (apply Forall_cons_2; [apply prime_by_trial; [lia | vm_compute; reflexivity]|]).
  apply Forall_nil_2.
Qed.

Lemma M1_factors_order :
  Forall (fun f => Random_A ^ ((Random_M - 1) / f) mod Random_M <> 1) M1_factors.
Proof.
  assert (E : forall f, 0 < f -> Random_A ^ ((Random_M - 1) / f) mod Random_M
                       = Zpow_mod Random_A ((Random_M - 1) / f) Random_M).
  { intros f Hf. symmetry. apply Zpow_mod_correct. unfold Random_M. lia. }
  unfold M1_factors.
  repeat (apply Forall_cons_2; [rewrite E by lia; vm_compute; discriminate|]).
  apply Forall_nil_2.
Qed.

Lemma A_pow_M1 : Random_A ^ (Random_M - 1) mod Random_M = 1.
Proof.
  rewrite <- Zpow_mod_correct by (unfold Random_M; lia). vm_compute. reflexivity.
Qed.

Lemma Random_generates x :
  0 < x < Random_M -> exists i, 0 <= i < Random_M - 1 /\ Random_A ^ i mod Random_M = x.
Proof.
  exact (g_generates Random_M Random_A (Random_M - 1) M1_factors ltac:(unfold Random_M; lia) eq_refl
    ltac:(unfold Random_A; lia) eq_refl A_pow_M1 eq_refl M1_factors_prime M1_factors_order x).
Qed.

Lemma Random_order i j :
  0 <= i -> i <= j -> Random_A ^ i mod Random_M = Random_A ^ j mod Random_M ->
  (Random_M - 1 | j - i).
Proof.
  exact (g_pow_inj Random_M Random_A (Random_M - 1) M1_factors ltac:(unfold Random_M; lia) eq_refl
    ltac:(unfold Random_A; lia) eq_refl A_pow_M1 eq_refl M1_factors_prime M1_factors_order i j).
Qed.

Lemma Random_iter k s :
  0 < s < Random_M ->
  Nat.iter k Random_Next s = s * Random_A ^ Z.of_nat k mod Random_M /\
  0 < Nat.iter k Random_Next s < Random_M.
Proof.
  intros Hs. induction k as [|k [IH IHb]].
  - cbn. rewrite Z.mul_1_r, Z.mod_small by lia. lia.
  - rewrite Nat.iter_succ. destruct (Random_Next_spec _ IHb) as [E Hb]. split; [|done].
    rewrite E, IH, Z.mul_mod_idemp_l, Nat2Z.inj_succ, Z.pow_succ_r by (unfold Random_M; lia).
    f_equal. ring.
Qed.

(** ** Properties *)

(** [Random::Next] computes [seed * A mod M] with shifts and one conditional
    subtraction: for every valid seed no 64-bit product and no 32-bit sum
    overflows, and the result is again a valid seed, in [[1, M - 1]]. *)
Theorem random_next_correct s :
  0 < s < Random_M ->
  Random_Next s = s * Random_A mod Random_M /\ 0 < Random_Next s < Random_M /\
  GoodSeed s = s /\ u64 (s * Random_A) = s * Random_A.
Proof.
  intros Hs. destruct (Random_Next_spec s Hs) as [E Hb]. split_and!; try done; try lia.
  - unfold GoodSeed. assert (Z.land s Random_M = s) as ->.
    { etransitivity; [apply (land_ones_mod s 31); lia|]. apply Z.mod_small. unfold Random_M in *. lia. }
    case_bool; [lia|done].
  - apply u64_small. unfold Random_M, Random_A in *. lia.
Qed.

Lemma random_next_correct_witness : Random_Next 2147483646 = 2147466840.
Proof. destruct (random_next_correct 2147483646) as [E _]; [unfold Random_M; lia|]. rewrite E. reflexivity. Defined.

(** The generator has full period, as its comment claims: from any valid seed
    [Next] reaches every number of [[1, M - 1]], and returns to the seed exactly
    at the multiples of [M - 1]. *)
Theorem random_full_period s t :
  0 < s < Random_M -> 0 < t < Random_M ->
  (exists k, Nat.iter k Random_Next s = t) /\
  (forall k, Nat.iter k Random_Next s = s <-> (Random_M - 1 | Z.of_nat k)).
Proof.
  intros Hs Ht.
  destruct (Random_generates s Hs) as (i & Hi & Ei), (Random_generates t Ht) as (j & Hj & Ej).
  assert (E : forall k, Nat.iter k Random_Next s = Random_A ^ (i + Z.of_nat k) mod Random_M).
  { intros k. rewrite (proj1 (Random_iter k s Hs)), <- Ei, Z.mul_mod_idemp_l, <- Z.pow_add_r
      by (unfold Random_M; lia). done. }
  split.
  - exists (Z.to_nat (j + (Random_M - 1) - i)). rewrite E, Z2Nat.id by lia.
    replace (i + (j + (Random_M - 1) - i)) with (j + (Random_M - 1)) by lia.
    rewrite Z.pow_add_r, <- Z.mul_mod_idemp_r, A_pow_M1, Z.mul_1_r by (unfold Random_M in *; lia). done.
  - intros k. rewrite E, <- Ei. split.
    + intros H. pose proof (Random_order i (i + Z.of_nat k) ltac:(lia) ltac:(lia) (eq_sym H)) as Hd.
      replace (i + Z.of_nat k - i) with (Z.of_nat k) in Hd by lia. done.
    + intros [q Hq]. rewrite Hq, Z.pow_add_r, (Z.mul_comm q), Z.pow_mul_r by (unfold Random_M in *; nia).
      rewrite <- Z.mul_mod_idemp_r, <- Z.mod_pow_l, A_pow_M1, Z.pow_1_l, Z.mod_1_l, Z.mul_1_r
        by (unfold Random_M in *; nia). done.
Qed.

Lemma random_full_period_witness : exists k, Nat.iter k Random_Next 301 = 3090.
Proof. apply (random_full_period 301 3090); unfold Random_M; lia. Defined.
