(* ===== verification/SkipList.v ===== *)
(** * The skip list of the memtable (memtable/inlineskiplist.h)

    Nodes live in one arena and are named by their place in it; node 0 is [head_].
    A node is its array of links, one per level, and its key. Every read of memory
    that is not initialised or not there, every null pointer that is followed and
    every assertion that fails is [None]. One thread inserts at a time; with
    [UseCAS] the code is that of concurrent insertion, run by one thread. *)

From S2P Require Import Prelude Random.

(** ** Memory *)

(** A word of memory: not initialised, the height that [StashHeight] left there, or
    a pointer. *)
Inductive cell := Uninit | Stash (height : nat) | Link (p : option nat).

Record Node := mkNode { next_ : list cell; nd_key : bytes }.

Record Splice := mkSplice { sp_height : nat; sp_prev : list cell; sp_next : list cell }.

(** The list without its own splice: the arena and [max_height_]. *)
Record InlineSkipList := mkSkipList { nodes : list Node; max_height_ : nat }.

Definition head_ : nat := 0.

Definition kMaxPossibleHeight : nat := 32.

(** An assertion, given the value of its condition. *)
Definition assert (c : option bool) : option unit := b ← c; if b : bool then Some tt else None.

(** *** Nodes *)

Definition Key (ns : list Node) (p : nat) : option bytes := nd_key <$> ns !! p.

Definition Next (ns : list Node) (p n : nat) : option (option nat) :=
  nd ← ns !! p; c ← next_ nd !! n;
  match c with Link q => Some q | _ => None end.

Definition SetNext (ns : list Node) (p n : nat) (x : option nat) : option (list Node) :=
  nd ← ns !! p; _ ← next_ nd !! n;
  Some (<[p := mkNode (<[n := Link x]> (next_ nd)) (nd_key nd)]> ns).

Definition UnstashHeight (ns : list Node) (p : nat) : option nat :=
  nd ← ns !! p; c ← next_ nd !! 0%nat;
  match c with Stash h => Some h | _ => None end.

(** [CASNext], run by one thread: whether the link was as expected. *)
Definition CASNext (ns : list Node) (p n : nat) (expected x : option nat) : option (bool * list Node) :=
  q ← Next ns p n;
  if bool_decide (q = expected) then ns' ← SetNext ns p n x; Some (true, ns') else Some (false, ns).

(** [PREFETCH(next->Next(level), 0, 1)] reads the link. *)
Definition prefetch (ns : list Node) (next : option nat) (level : nat) : option unit :=
  match next with None => Some tt | Some p => _ ← Next ns p level; Some tt end.

(** *** Splices *)

Definition prev_at (s : Splice) (i : nat) : option nat :=
  match sp_prev s !! i with Some (Link (Some p)) => Some p | _ => None end.

Definition next_at (s : Splice) (i : nat) : option (option nat) :=
  match sp_next s !! i with Some (Link q) => Some q | _ => None end.

(** [prev_[i] = p; next_[i] = q;] *)
Definition set_splice (s : Splice) (i : nat) (p : nat) (q : option nat) : option Splice :=
  _ ← sp_prev s !! i; _ ← sp_next s !! i;
  Some (mkSplice (sp_height s) (<[i := Link (Some p)]> (sp_prev s)) (<[i := Link q]> (sp_next s))).

(** ** The list *)

Section SkipList.
Context (compare : bytes -> bytes -> Z).
Context (kMaxHeight_ : nat) (kBranching_ : Z).

Definition kScaledInverseBranching_ : Z := u32 (kMaxNext + 1) / kBranching_.

Definition AllocateSplice : Splice :=
  mkSplice 0 (replicate (kMaxHeight_ + 1) Uninit) (replicate (kMaxHeight_ + 1) Uninit).

(** The splice of [InsertConcurrently], on the stack. *)
Definition stack_splice : Splice :=
  mkSplice 0 (replicate kMaxPossibleHeight Uninit) (replicate kMaxPossibleHeight Uninit).

(** A node with its height stashed; the key is what the caller fills in. *)
Definition AllocateNode (ns : list Node) (key : bytes) (height : nat) : list Node * nat :=
  (ns ++ [mkNode (<[0%nat := Stash height]> (replicate height Uninit)) key], length ns).

(** The constructor: [head_] and its links. *)
Definition InlineSkipList_new : InlineSkipList :=
  mkSkipList [mkNode (replicate kMaxHeight_ (Link None)) []] 1.

(** [RandomHeight], with the state of the thread's generator. *)
Fixpoint random_height_loop (fuel height : nat) (rnd : Z) : nat * Z :=
  match fuel with
  | O => (height, rnd)
  | S fuel' =>
      if bool_decide (height < kMaxHeight_)%nat && bool_decide (height < kMaxPossibleHeight)%nat then
        let rnd' := Random_Next rnd in
        if rnd' <? kScaledInverseBranching_ then random_height_loop fuel' (height + 1) rnd' else (height, rnd')
      else (height, rnd)
  end.

Definition RandomHeight (rnd : Z) : nat * Z := random_height_loop kMaxPossibleHeight 1 rnd.

Definition AllocateKey (ns : list Node) (key : bytes) (rnd : Z) : list Node * nat * Z :=
  let '(height, rnd') := RandomHeight rnd in
  (AllocateNode ns key height, rnd').

(** *** Searching *)

Definition Equal (a b : bytes) : bool := compare a b =? 0.

Definition LessThan (a b : bytes) : bool := compare a b <? 0.

Definition KeyIsAfterNode (ns : list Node) (key : bytes) (n : option nat) : option bool :=
  match n with
  | None => Some false
  | Some p => if (p =? head_)%nat then None else k ← Key ns p; Some (compare k key <? 0)
  end.

(** The assertions of the search loops: [x == head_ || next == nullptr ||
    KeyIsAfterNode(next->Key(), x)] and [x == head_ || KeyIsAfterNode(key, x)]. *)
Definition assert_sorted (ns : list Node) (x : nat) (next : option nat) : option unit :=
  assert (if (x =? head_)%nat then Some true
          else match next with
               | None => Some true
               | Some p => k ← Key ns p; KeyIsAfterNode ns k (Some x)
               end).

Definition assert_not_past (ns : list Node) (key : bytes) (x : nat) : option unit :=
  assert (if (x =? head_)%nat then Some true else KeyIsAfterNode ns key (Some x)).

Fixpoint find_ge (fuel : nat) (ns : list Node) (key : bytes) (x level : nat) (last_bigger : option nat)
  : option (option nat) :=
  match fuel with
  | O => None
  | S fuel' =>
      next ← Next ns x level;
      _ ← prefetch ns next level; _ ← assert_sorted ns x next; _ ← assert_not_past ns key x;
      cmp ← match next with
            | None => Some 1
            | Some p => if bool_decide (next = last_bigger) then Some 1 else k ← Key ns p; Some (compare k key)
            end;
      if (cmp =? 0) || ((0 <? cmp) && (level =? 0)%nat) then Some next
      else if cmp <? 0 then x' ← next; find_ge fuel' ns key x' level last_bigger
      else find_ge fuel' ns key x (level - 1) next
  end.

(** Enough for every search: each turn of a loop moves right or down. *)
Definition search_fuel (sl : InlineSkipList) : nat := length (nodes sl) + max_height_ sl + 1.

Definition FindGreaterOrEqual (sl : InlineSkipList) (key : bytes) : option (option nat) :=
  find_ge (search_fuel sl) (nodes sl) key head_ (max_height_ sl - 1) None.

(** [prev] is an array to fill, or null. *)
Fixpoint find_lt (fuel : nat) (ns : list Node) (key : bytes) (prev : option (list (option nat)))
    (x level bottom_level : nat) (last_not_after : option nat) : option (nat * option (list (option nat))) :=
  match fuel with
  | O => None
  | S fuel' =>
      next ← Next ns x level;
      _ ← prefetch ns next level; _ ← assert_sorted ns x next; _ ← assert_not_past ns key x;
      after ← if bool_decide (next = last_not_after) then Some false else KeyIsAfterNode ns key next;
      if after : bool then x' ← next; find_lt fuel' ns key prev x' level bottom_level last_not_after
      else
        let prev := (fun a => <[level := Some x]> a) <$> prev in
        if (level =? bottom_level)%nat then Some (x, prev)
        else find_lt fuel' ns key prev x (level - 1) bottom_level next
  end.

Definition FindLessThan_from (sl : InlineSkipList) (key : bytes) (prev : option (list (option nat)))
    (root top_level bottom_level : nat) : option (nat * option (list (option nat))) :=
  _ ← assert (Some (bool_decide (bottom_level < top_level)%nat));
  find_lt (search_fuel sl) (nodes sl) key prev root (top_level - 1) bottom_level None.

Definition FindLessThan (sl : InlineSkipList) (key : bytes) : option nat :=
  fst <$> FindLessThan_from sl key None head_ (max_height_ sl) 0.

Fixpoint find_last (fuel : nat) (ns : list Node) (x level : nat) : option nat :=
  match fuel with
  | O => None
  | S fuel' =>
      next ← Next ns x level;
      match next with
      | None => if (level =? 0)%nat then Some x else find_last fuel' ns x (level - 1)
      | Some x' => find_last fuel' ns x' level
      end
  end.

Definition FindLast (sl : InlineSkipList) : option nat :=
  find_last (search_fuel sl) (nodes sl) head_ (max_height_ sl - 1).

Fixpoint estimate_loop (fuel : nat) (ns : list Node) (key : bytes) (x level : nat) (count : Z) : option Z :=
  match fuel with
  | O => None
  | S fuel' =>
      _ ← assert (if (x =? head_)%nat then Some true else k ← Key ns x; Some (compare k key <? 0));
      next ← Next ns x level;
      _ ← prefetch ns next level;
      stop ← match next with None => Some true | Some p => k ← Key ns p; Some (0 <=? compare k key) end;
      if stop : bool then
        if (level =? 0)%nat then Some count
        else estimate_loop fuel' ns key x (level - 1) (u64 (count * kBranching_))
      else x' ← next; estimate_loop fuel' ns key x' level (u64 (count + 1))
  end.

Definition EstimateCount (sl : InlineSkipList) (key : bytes) : option Z :=
  estimate_loop (search_fuel sl) (nodes sl) key head_ (max_height_ sl - 1) 0.

Definition Contains (sl : InlineSkipList) (key : bytes) : option bool :=
  x ← FindGreaterOrEqual sl key;
  match x with None => Some false | Some p => k ← Key (nodes sl) p; Some (Equal key k) end.

(** *** Inserting *)

Fixpoint find_splice (fuel : nat) (ns : list Node) (prefetch_before : bool) (key : bytes) (before : nat)
    (after : option nat) (level : nat) : option (nat * option nat) :=
  match fuel with
  | O => None
  | S fuel' =>
      next ← Next ns before level;
      _ ← prefetch ns next level;
      _ ← (if prefetch_before && bool_decide (0 < level)%nat then prefetch ns next (level - 1) else Some tt);
      _ ← assert_sorted ns before next; _ ← assert_not_past ns key before;
      found ← if bool_decide (next = after) then Some true else negb <$> KeyIsAfterNode ns key next;
      if found : bool then Some (before, next)
      else before' ← next; find_splice fuel' ns prefetch_before key before' after level
  end.

Definition FindSpliceForLevel (ns : list Node) (prefetch_before : bool) (key : bytes) (before : nat)
    (after : option nat) (level : nat) : option (nat * option nat) :=
  find_splice (length ns + 1) ns prefetch_before key before after level.

(** The levels [i - 1] down to 0. *)
Fixpoint recompute_loop (ns : list Node) (key : bytes) (i : nat) (s : Splice) : option Splice :=
  match i with
  | O => Some s
  | S i' =>
      before ← prev_at s i; after ← next_at s i;
      '(p, q) ← FindSpliceForLevel ns true key before after i';
      s' ← set_splice s i' p q;
      recompute_loop ns key i' s'
  end.

Definition RecomputeSpliceLevels (ns : list Node) (key : bytes) (s : Splice) (recompute_level : nat) : option Splice :=
  _ ← assert (Some (bool_decide (0 < recompute_level)%nat));
  _ ← assert (Some (bool_decide (recompute_level <= sp_height s)%nat));
  recompute_loop ns key recompute_level s.

(** [while (a[r] == bad) ++r;] *)
Fixpoint skip_same (fuel : nat) (a : nat -> option (option nat)) (bad : option nat) (r : nat) : option nat :=
  match fuel with
  | O => None
  | S fuel' => q ← a r; if bool_decide (q = bad) then skip_same fuel' a bad (r + 1) else Some r
  end.

(** The loop that looks for a level at which the splice brackets the key. *)
Fixpoint bracket_loop (fuel : nat) (ns : list Node) (key : bytes) (s : Splice) (partial : bool)
    (max_height r : nat) : option nat :=
  match fuel with
  | O => None
  | S fuel' =>
      if bool_decide (r < max_height)%nat then
        p ← prev_at s r; q ← next_at s r; tight ← Next ns p r;
        if negb (bool_decide (tight = q)) then bracket_loop fuel' ns key s partial max_height (r + 1)
        else
          before ← if (p =? head_)%nat then Some false else negb <$> KeyIsAfterNode ns key (Some p);
          if before : bool then
            if partial then
              r' ← skip_same (sp_height s + 1) (fun i => Some <$> prev_at s i) (Some p) r;
              bracket_loop fuel' ns key s partial max_height r'
            else bracket_loop fuel' ns key s partial max_height max_height
          else
            after ← KeyIsAfterNode ns key q;
            if after : bool then
              if partial then
                r' ← skip_same (sp_height s + 1) (next_at s) q r;
                bracket_loop fuel' ns key s partial max_height r'
              else bracket_loop fuel' ns key s partial max_height max_height
            else Some r
      else Some r
  end.

(** What is compared at level 0 and asserted at every level, for a node of key [k]. *)
Definition duplicate (ns : list Node) (k : bytes) (i p : nat) (q : option nat) : option bool :=
  if (i =? 0)%nat then
    above ← match q with None => Some false | Some n => kn ← Key ns n; Some (0 <=? compare k kn) end;
    if above : bool then Some true
    else if (p =? head_)%nat then Some false else kp ← Key ns p; Some (0 <=? compare kp k)
  else Some false.

Definition assert_between (ns : list Node) (k : bytes) (p : nat) (q : option nat) : option unit :=
  _ ← assert (match q with None => Some true | Some n => kn ← Key ns n; Some (compare k kn <? 0) end);
  assert (if (p =? head_)%nat then Some true else kp ← Key ns p; Some (compare kp k <? 0)).

(** The place at level [i], looked up again where the splice was not recomputed and
    is not tight. *)
Definition refresh_level (ns : list Node) (key : bytes) (i recompute_height : nat) (s : Splice) : option Splice :=
  p ← prev_at s i; q ← next_at s i;
  stale ← if bool_decide (recompute_height <= i)%nat then tight ← Next ns p i; Some (negb (bool_decide (tight = q)))
          else Some false;
  if stale : bool then '(p, q) ← FindSpliceForLevel ns false key p None i; set_splice s i p q else Some s.

(** Linking node [x] at level [i] with [UseCAS] false; no arena for a duplicate key. *)
Definition link_level (ns : list Node) (key : bytes) (x i recompute_height : nat) (s : Splice)
  : option (option (list Node) * Splice) :=
  s ← refresh_level ns key i recompute_height s;
  p ← prev_at s i; q ← next_at s i;
  k ← Key ns x;
  dup ← duplicate ns k i p q;
  if dup : bool then Some (None, s)
  else
    _ ← assert_between ns k p q;
    tight ← Next ns p i; _ ← assert (Some (bool_decide (tight = q)));
    ns ← SetNext ns x i q; ns ← SetNext ns p i (Some x);
    Some (Some ns, s).

(** The same with [UseCAS]: also whether the splice is still valid; a failed
    exchange is tried again. *)
Fixpoint link_level_cas (fuel : nat) (ns : list Node) (key : bytes) (x i : nat) (s : Splice) (valid : bool)
  : option (option (list Node) * list Node * Splice * bool) :=
  match fuel with
  | O => None
  | S fuel' =>
      p ← prev_at s i; q ← next_at s i;
      k ← Key ns x;
      dup ← duplicate ns k i p q;
      if dup : bool then Some (None, ns, s, valid)
      else
        _ ← assert_between ns k p q;
        ns ← SetNext ns x i q;
        '(ok, ns) ← CASNext ns p i q (Some x);
        if ok : bool then Some (Some ns, ns, s, valid)
        else
          '(p, q) ← FindSpliceForLevel ns false key p None i;
          s ← set_splice s i p q;
          link_level_cas fuel' ns key x i s (if bool_decide (0 < i)%nat then false else valid)
  end.

(** All levels from [i] on: whether the node is in the list, the arena, the splice
    and whether it is valid. *)
Fixpoint link_levels (UseCAS : bool) (ns : list Node) (key : bytes) (x : nat) (todo i recompute_height : nat)
    (s : Splice) (valid : bool) : option (bool * list Node * Splice * bool) :=
  match todo with
  | O => Some (true, ns, s, valid)
  | S todo' =>
      if UseCAS then
        '(linked, ns, s, valid) ← link_level_cas (length ns + 1) ns key x i s valid;
        match linked with
        | None => Some (false, ns, s, valid)
        | Some ns => link_levels UseCAS ns key x todo' (i + 1) recompute_height s valid
        end
      else
        '(linked, s) ← link_level ns key x i recompute_height s;
        match linked with
        | None => Some (false, ns, s, valid)
        | Some ns => link_levels UseCAS ns key x todo' (i + 1) recompute_height s valid
        end
  end.

(** [for (i = 0; i < height; ++i) splice->prev_[i] = x;] *)
Fixpoint set_prevs (s : Splice) (x todo i : nat) : option Splice :=
  match todo with
  | O => Some s
  | S todo' => q ← next_at s i; s ← set_splice s i x q; set_prevs s x todo' (i + 1)
  end.

(** The assertions on the splice at the end of [Insert], from level [i] on. *)
Fixpoint assert_splice (ns : list Node) (key : bytes) (s : Splice) (todo i : nat) : option unit :=
  match todo with
  | O => Some tt
  | S todo' =>
      p ← prev_at s i; q ← next_at s i; p' ← prev_at s (i + 1); q' ← next_at s (i + 1);
      _ ← assert (match q with None => Some true | Some n => kn ← Key ns n; Some (compare key kn <? 0) end);
      _ ← assert (if (p =? head_)%nat then Some true else kp ← Key ns p; Some (compare kp key <=? 0));
      _ ← assert (if (p' =? p)%nat || (p' =? head_)%nat then Some true
                  else kp' ← Key ns p'; kp ← Key ns p; Some (compare kp' kp <? 0));
      _ ← assert (if bool_decide (q' = q) then Some true
                  else match q' with
                       | None => Some true
                       | Some n' => n ← q; kn ← Key ns n; kn' ← Key ns n'; Some (compare kn kn' <? 0)
                       end);
      assert_splice ns key s todo' (i + 1)
  end.

(** The part of [Insert] before the links are set: [max_height], the splice that
    brackets the key and [recompute_height]. *)
Definition position_splice (sl : InlineSkipList) (key : bytes) (height : nat) (s : Splice) (partial : bool)
  : option (nat * Splice * nat) :=
  let max_height := if bool_decide (max_height_ sl < height)%nat then height else max_height_ sl in
  _ ← assert (Some (bool_decide (max_height <= kMaxPossibleHeight)%nat));
  '(s, r) ← (if bool_decide (sp_height s < max_height)%nat then
               s ← set_splice s max_height head_ None;
               Some (mkSplice max_height (sp_prev s) (sp_next s), max_height)
             else r ← bracket_loop (max_height + 1) (nodes sl) key s partial max_height 0; Some (s, r));
  _ ← assert (Some (bool_decide (r <= max_height)%nat));
  s ← if bool_decide (0 < r)%nat then RecomputeSpliceLevels (nodes sl) key s r else Some s;
  Some (max_height, s, r).

Definition Insert_at (UseCAS : bool) (sl : InlineSkipList) (x : nat) (s : Splice) (allow_partial_splice_fix : bool)
  : option (bool * InlineSkipList * Splice) :=
  key ← Key (nodes sl) x;
  height ← UnstashHeight (nodes sl) x;
  _ ← assert (Some (bool_decide (1 <= height <= kMaxHeight_)%nat));
  '(max_height, s, r) ← position_splice sl key height s allow_partial_splice_fix;
  '(done, ns, s, valid) ← link_levels UseCAS (nodes sl) key x height 0 r s true;
  let sl := mkSkipList ns max_height in
  if done : bool then
    if valid : bool then
      s ← set_prevs s x height 0;
      top ← prev_at s (sp_height s); above ← next_at s (sp_height s);
      _ ← assert (Some ((top =? head_)%nat)); _ ← assert (Some (bool_decide (above = None)));
      _ ← assert_splice ns key s (sp_height s) 0;
      Some (true, sl, s)
    else Some (true, sl, mkSplice 0 (sp_prev s) (sp_next s))
  else Some (false, sl, s).

Definition Insert (sl : InlineSkipList) (seq_splice_ : Splice) (x : nat) : option (bool * InlineSkipList * Splice) :=
  Insert_at false sl x seq_splice_ false.

Definition InsertConcurrently (sl : InlineSkipList) (x : nat) : option (bool * InlineSkipList) :=
  '(res, sl, _) ← Insert_at true sl x stack_splice false; Some (res, sl).

(** [InsertWithHint] and [InsertWithHintConcurrently]; [*hint] is null or a splice. *)
Definition InsertWithHint (UseCAS : bool) (sl : InlineSkipList) (x : nat) (hint : option Splice)
  : option (bool * InlineSkipList * option Splice) :=
  '(res, sl, s) ← Insert_at UseCAS sl x (default AllocateSplice hint) true; Some (res, sl, Some s).

(** *** The iterator: [node_], null where it is not valid *)

Definition iter_Valid (node_ : option nat) : bool := bool_decide (node_ <> None).

Definition iter_key (sl : InlineSkipList) (node_ : option nat) : option bytes := p ← node_; Key (nodes sl) p.

Definition iter_Next (sl : InlineSkipList) (node_ : option nat) : option (option nat) :=
  p ← node_; Next (nodes sl) p 0.

(** [node_ == list_->head_] becomes null. *)
Definition not_head (p : nat) : option nat := if (p =? head_)%nat then None else Some p.

Definition iter_Prev (sl : InlineSkipList) (node_ : option nat) : option (option nat) :=
  p ← node_; k ← Key (nodes sl) p; not_head <$> FindLessThan sl k.

Definition iter_Seek (sl : InlineSkipList) (target : bytes) : option (option nat) := FindGreaterOrEqual sl target.

Definition iter_SeekToFirst (sl : InlineSkipList) : option (option nat) := Next (nodes sl) head_ 0.

Definition iter_SeekToLast (sl : InlineSkipList) : option (option nat) := not_head <$> FindLast sl.

(** [while (Valid() && list_->LessThan(target, key())) Prev();] *)
Fixpoint retreat (fuel : nat) (sl : InlineSkipList) (target : bytes) (node_ : option nat) : option (option nat) :=
  match fuel with
  | O => None
  | S fuel' =>
      match node_ with
      | None => Some None
      | Some _ =>
          k ← iter_key sl node_;
          if LessThan target k then node' ← iter_Prev sl node_; retreat fuel' sl target node' else Some node_
      end
  end.

Definition iter_SeekForPrev (sl : InlineSkipList) (target : bytes) : option (option nat) :=
  node ← iter_Seek sl target;
  node ← if iter_Valid node then Some node else iter_SeekToLast sl;
  retreat (length (nodes sl) + 1) sl target node.
End SkipList.
