(* ===== verification/SkipListCorrect.v ===== *)
(** * Correctness of the skip list

    The invariant: at every level the links go through the nodes of at least that
    height, in the order of their keys. Searches find the node that a scan of the
    sorted list would find, and an insertion adds the key at its place; no assertion
    fails, no memory is read that was not written, and the loops end within their
    fuel. *)

From S2P Require Import Prelude Random SkipList.

(** What the list requires of its comparator: a total preorder. Entries that compare
    equal need not be equal. *)
Class PreorderCompare (compare : bytes -> bytes -> Z) : Prop := {
  pre_flip : forall a b, compare a b < 0 <-> 0 < compare b a;
  pre_trans : forall a b c, compare a b <= 0 -> compare b c <= 0 -> compare a c <= 0
}.

Section Preorder.
Context (compare : bytes -> bytes -> Z) `{!PreorderCompare compare}.

Lemma pre_refl a : compare a a = 0.
Proof. pose proof (pre_flip a a). lia. Qed.

Lemma pre_le_lt_trans a b c : compare a b <= 0 -> compare b c < 0 -> compare a c < 0.
Proof.
  intros Hab Hbc. destruct (Z.lt_ge_cases (compare a c) 0) as [|Hac]; [done|].
  pose proof (pre_flip a c). pose proof (pre_flip c a). pose proof (pre_flip b c). pose proof (pre_flip c b).
  assert (Hca : compare c a <= 0) by lia. pose proof (pre_trans c a b Hca Hab). lia.
Qed.

Lemma pre_lt_le_trans a b c : compare a b < 0 -> compare b c <= 0 -> compare a c < 0.
Proof.
  intros Hab Hbc. destruct (Z.lt_ge_cases (compare a c) 0) as [|Hac]; [done|].
  pose proof (pre_flip a c). pose proof (pre_flip c a). pose proof (pre_flip a b). pose proof (pre_flip b a).
  assert (Hca : compare c a <= 0) by lia. pose proof (pre_trans b c a Hbc Hca). lia.
Qed.

Lemma pre_lt_trans a b c : compare a b < 0 -> compare b c < 0 -> compare a c < 0.
Proof. intros Hab Hbc. apply (pre_lt_le_trans a b c); [done|lia]. Qed.
End Preorder.

(** ** The shape of the list *)

Definition nkey (ns : list Node) (p : nat) : bytes := default [] (Key ns p).

Definition levels (ns : list Node) (p : nat) : nat := default 0%nat (length ∘ next_ <$> ns !! p).

(** The nodes that have a link at level [l]. *)
Definition tall (ns : list Node) (l p : nat) : Prop := (l < levels ns p)%nat.

#[global] Instance tall_dec ns l p : Decision (tall ns l p).
Proof. unfold tall. apply _. Defined.

(** At level [l] the links go through the tall nodes of [F] in order. *)
Definition linked (ns : list Node) (F : list nat) (l : nat) : Prop :=
  forall F1 x F2, F = F1 ++ x :: F2 -> tall ns l x -> Next ns x l = Some (head (filter (tall ns l) F2)).

Section Shape.
Context (compare : bytes -> bytes -> Z) `{!PreorderCompare compare}.
Context (kMaxHeight_ : nat).

Definition node_lt (ns : list Node) (p q : nat) : Prop :=
  q <> head_ /\ (p = head_ \/ compare (nkey ns p) (nkey ns q) < 0).

(** The nodes [F], of which the first is [head_]. *)
Record shape (ns : list Node) (mh : nat) (F : list nat) : Prop := {
  sh_head : head F = Some head_;
  sh_alloc : Forall (fun p => (p < length ns)%nat) F;
  sh_head_levels : levels ns head_ = kMaxHeight_;
  sh_levels : Forall (fun p => p = head_ \/ (1 <= levels ns p <= mh)%nat) F;
  sh_sorted : StronglySorted (node_lt ns) F;
  sh_max : (1 <= mh <= kMaxHeight_)%nat;
  sh_possible : (mh <= kMaxPossibleHeight)%nat
}.

(** The nodes before a key. *)
Definition below (ns : list Node) (k : bytes) (p : nat) : Prop := p = head_ \/ compare (nkey ns p) k < 0.

#[global] Instance below_dec ns k p : Decision (below ns k p).
Proof. unfold below. apply _. Defined.

Lemma node_lt_trans ns : Transitive (node_lt ns).
Proof.
  intros p q r [Hq Hpq] [Hr Hqr]. split; [done|]. destruct Hqr as [|Hqr]; [done|].
  destruct Hpq as [->|Hpq]; [by left|]. right. by apply (pre_lt_trans compare _ (nkey ns q)).
Qed.

Lemma node_lt_irrefl ns p : ~ node_lt ns p p.
Proof. intros [H1 [|H2]]; [done|]. rewrite pre_refl in H2 by done. lia. Qed.

Lemma below_down ns k p q : node_lt ns p q -> below ns k q -> below ns k p.
Proof.
  intros [Hq [->|Hpq]] Hk; [by left|]. destruct Hk as [|Hk]; [done|]. right. by apply (pre_lt_trans compare _ (nkey ns q)).
Qed.

Lemma assert_true (P : Prop) `{!Decision P} : P -> assert (Some (bool_decide P)) = Some tt.
Proof. intros HP. cbn. by rewrite bool_decide_eq_true_2. Qed.

Section Fixed.
Context (ns : list Node) (mh : nat) (F : list nat) (Hsh : shape ns mh F).

Lemma shape_split k : F = filter (below ns k) F ++ filter (fun p => ~ below ns k p) F.
Proof. apply (sorted_partition (node_lt ns)); [apply Hsh|]. intros p q _ _. apply below_down. Qed.

Lemma head_in_F : head_ ∈ F.
Proof. pose proof (sh_head _ _ _ Hsh) as Hh. destruct F as [|x F']; [done|]. cbn in Hh. injection Hh as ->. by left. Qed.

Lemma split_before L1 x L2 y : F = L1 ++ x :: L2 -> y ∈ L2 -> node_lt ns x y.
Proof.
  intros E Hy. pose proof (sh_sorted _ _ _ Hsh) as Hs. rewrite E in Hs.
  rewrite (assoc app L1 [x] L2) in Hs. eapply sorted_before; [done| |done]. apply elem_of_app. right. by left.
Qed.

Lemma F_nodup : NoDup F.
Proof.
  pose proof (sh_sorted _ _ _ Hsh) as Hs. clear Hsh. induction Hs as [|x l _ IH Hx]; constructor; [|done].
  intros Hin. rewrite Forall_forall in Hx. by apply (node_lt_irrefl ns x), Hx.
Qed.

Lemma Key_ok p : p ∈ F -> Key ns p = Some (nkey ns p).
Proof.
  intros Hp. pose proof (sh_alloc _ _ _ Hsh) as Ha. rewrite Forall_forall in Ha. specialize (Ha p Hp).
  apply lookup_lt_is_Some in Ha as [nd Hnd]. unfold nkey, Key. by rewrite Hnd.
Qed.

Lemma KeyIsAfterNode_ok k p : p ∈ F -> p <> head_ ->
  KeyIsAfterNode compare ns k (Some p) = Some (bool_decide (below ns k p)).
Proof.
  intros Hp Hne. cbn. destruct (Nat.eqb_spec p head_); [done|]. rewrite Key_ok by done. cbn. f_equal.
  destruct (Z.ltb_spec (compare (nkey ns p) k) 0); symmetry.
  - apply bool_decide_eq_true. by right.
  - apply bool_decide_eq_false. intros [|]; [done|lia].
Qed.

Lemma tall_down l l' p : (l' <= l)%nat -> tall ns l p -> tall ns l' p.
Proof. unfold tall. lia. Qed.

Lemma head_tall l : (l < kMaxHeight_)%nat -> tall ns l head_.
Proof. unfold tall. rewrite (sh_head_levels _ _ _ Hsh). done. Qed.

Lemma tall_0 p : p ∈ F -> tall ns 0 p.
Proof.
  intros Hp. pose proof (sh_levels _ _ _ Hsh) as Hl. rewrite Forall_forall in Hl.
  destruct (Hl p Hp) as [->|?]; [|unfold tall; lia]. apply head_tall. destruct (sh_max _ _ _ Hsh). lia.
Qed.

Lemma filter_tall_0 G : G ⊆ F -> filter (tall ns 0) G = G.
Proof. intros HG. apply filter_every. intros p Hp. by apply tall_0, HG. Qed.

(** The assertions of the loops hold on the way. *)
Lemma assert_sorted_ok F1 x F2 next : F = F1 ++ x :: F2 ->
  (forall y, next = Some y -> y ∈ F2) -> assert_sorted compare ns x next = Some tt.
Proof.
  intros E Hn. unfold assert_sorted. destruct (Nat.eqb_spec x head_) as [|Hx]; [done|].
  destruct next as [y|]; [|done]. pose proof (split_before F1 x F2 y E (Hn y eq_refl)) as [Hy [|Hlt]]; [done|].
  assert (x ∈ F) by (rewrite E; apply elem_of_app; right; by left).
  assert (y ∈ F) by (rewrite E; apply elem_of_app; right; right; by apply Hn).
  rewrite Key_ok by done. cbn [mbind option_bind]. rewrite KeyIsAfterNode_ok by done.
  rewrite bool_decide_eq_true_2 by (by right). done.
Qed.

Lemma assert_not_past_ok k x : x ∈ F -> below ns k x -> assert_not_past compare ns k x = Some tt.
Proof.
  intros Hx Hb. unfold assert_not_past. destruct (Nat.eqb_spec x head_); [done|].
  rewrite KeyIsAfterNode_ok by done. by rewrite bool_decide_eq_true_2.
Qed.

Lemma prefetch_ok l l' next : linked ns F l' -> (l' <= l)%nat -> (forall y, next = Some y -> y ∈ F /\ tall ns l y) ->
  prefetch ns next l' = Some tt.
Proof.
  intros Hl Hle Hn. destruct next as [y|]; [|done]. destruct (Hn y eq_refl) as [Hy Ht].
  apply list_elem_of_split in Hy as (F1 & F2 & E). cbn. rewrite (Hl F1 y F2 E) by (by eapply tall_down). done.
Qed.

(** *** Searching for a key *)

Section Search.
Context (k : bytes).

Abbreviation L := (filter (below ns k) F).
Abbreviation R := (filter (fun p => ~ below ns k p) F).

Lemma L_in p : p ∈ L -> p ∈ F /\ below ns k p.
Proof. intros Hp. by apply list_elem_of_filter in Hp as [? ?]. Qed.

Lemma R_in p : p ∈ R -> p ∈ F /\ p <> head_ /\ 0 <= compare (nkey ns p) k.
Proof.
  intros Hp. apply list_elem_of_filter in Hp as [Hn ?]. split_and!; [done|intros ->; apply Hn; by left|].
  destruct (Z.lt_ge_cases (compare (nkey ns p) k) 0); [|done]. exfalso. apply Hn. by right.
Qed.

Lemma head_in_L : head_ ∈ L.
Proof. apply list_elem_of_filter. split; [by left|apply head_in_F]. Qed.

(** One step of a loop: to the next node before the key, or none is left. *)
Lemma step_right l L1 x L2 : linked ns F l -> L = L1 ++ x :: L2 -> tall ns l x ->
  (filter (tall ns l) L2 = [] /\ Next ns x l = Some (head (filter (tall ns l) R))) \/
  (exists L3 y L4, L2 = L3 ++ y :: L4 /\ tall ns l y /\ filter (tall ns l) L3 = [] /\ Next ns x l = Some (Some y) /\
     L = (L1 ++ x :: L3) ++ y :: L4).
Proof.
  intros Hl E Ht.
  assert (EF : F = L1 ++ x :: (L2 ++ R)) by (rewrite (shape_split k) at 1; by rewrite E, <- app_assoc).
  rewrite (Hl L1 x (L2 ++ R) EF Ht), filter_app.
  destruct (filter (tall ns l) L2) as [|y r] eqn:E2; [by left|]. right.
  apply filter_cons_split in E2 as (L3 & L4 & -> & Hy & E3 & _). exists L3, y, L4.
  split_and!; try done. by rewrite E, <- app_assoc.
Qed.

Lemma L_split_F L1 x L2 : L = L1 ++ x :: L2 -> F = L1 ++ x :: (L2 ++ R).
Proof. intros E. rewrite (shape_split k) at 1. by rewrite E, <- app_assoc. Qed.

Lemma L_split_in L1 x L2 : L = L1 ++ x :: L2 -> x ∈ F /\ below ns k x.
Proof. intros E. apply L_in. rewrite E. apply elem_of_app. right. by left. Qed.

(** A node of [L] that comes after another is not [head_]. *)
Lemma L_next_not_head L1 x L3 y L4 : L = (L1 ++ x :: L3) ++ y :: L4 -> y <> head_.
Proof.
  intros E. pose proof (L_split_F _ _ _ E) as EF. rewrite <- app_assoc in EF. cbn in EF.
  assert (Hy : y ∈ L3 ++ y :: L4 ++ R) by (apply elem_of_app; right; by left).
  by destruct (split_before _ _ _ _ EF Hy).
Qed.

Lemma head_filter_in (G : list nat) l y : head (filter (tall ns l) G) = Some y -> y ∈ G /\ tall ns l y.
Proof. intros Hy. apply head_Some_elem_of, list_elem_of_filter in Hy as [? ?]. done. Qed.

(** The checks at the top of every loop. *)
Lemma step_checks l L1 x L2 next : linked ns F l -> L = L1 ++ x :: L2 -> tall ns l x -> Next ns x l = Some next ->
  prefetch ns next l = Some tt /\ assert_sorted compare ns x next = Some tt /\ assert_not_past compare ns k x = Some tt /\
  (forall y, next = Some y -> y ∈ F /\ tall ns l y).
Proof.
  intros Hl E Ht En. pose proof (L_split_F _ _ _ E) as EF. destruct (L_split_in _ _ _ E) as [Hx Hb].
  rewrite (Hl _ _ _ EF Ht) in En. injection En as En.
  assert (Hn : forall y, next = Some y -> y ∈ L2 ++ R /\ tall ns l y).
  { intros y ->. by apply head_filter_in. }
  assert (HF : forall y, next = Some y -> y ∈ F /\ tall ns l y).
  { intros y Hy. destruct (Hn y Hy) as [Hin ?]. split; [|done]. rewrite EF. apply elem_of_app. right. by right. }
  split_and!; [by eapply prefetch_ok|eapply assert_sorted_ok; [done|]|by apply assert_not_past_ok|done].
  intros y Hy. by destruct (Hn y Hy).
Qed.

Lemma find_splice_spec fuel pb L1 x L2 after l :
  linked ns F l -> (pb = true -> linked ns F (l - 1)) -> L = L1 ++ x :: L2 -> tall ns l x ->
  (forall a, after = Some a -> a ∉ L) -> (length L2 < fuel)%nat ->
  find_splice compare fuel ns pb k x after l
  = Some (default x (last (filter (tall ns l) L2)), head (filter (tall ns l) R)).
Proof.
  revert L1 x L2. induction fuel as [|fuel IH]; intros L1 x L2 Hl Hpb E Ht Ha Hf; [lia|]. cbn [find_splice].
  destruct (step_right l L1 x L2 Hl E Ht) as [[E2 En]|(L3 & y & L4 & -> & Hy & E3 & En & E')];
    destruct (step_checks l L1 x _ _ Hl E Ht En) as (Epf0 & Eas & Eap & Hn); rewrite En; cbn [mbind option_bind];
    rewrite Epf0, Eas, Eap; cbn [mbind option_bind].
  - assert (Epf : (if pb && bool_decide (0 < l)%nat then prefetch ns (head (filter (tall ns l) R)) (l - 1) else Some tt) = Some tt).
    { destruct pb; [|done]. destruct (bool_decide _); [|done]. cbn. apply (prefetch_ok l); [by apply Hpb|lia|done]. }
    rewrite Epf. clear Epf. cbn [mbind option_bind]. rewrite E2. cbn [last default].
    destruct (head (filter (tall ns l) R)) as [y|] eqn:Eh; [|by case_bool_decide].
    apply head_filter_in in Eh as [Hy _]. pose proof (R_in y Hy) as (HyF & Hne & Hc).
    rewrite KeyIsAfterNode_ok by done. apply list_elem_of_filter in Hy as [Hnb _].
    rewrite (bool_decide_eq_false_2 (below ns k y)) by done. by case_bool_decide.
  - assert (Epf : (if pb && bool_decide (0 < l)%nat then prefetch ns (Some y) (l - 1) else Some tt) = Some tt).
    { destruct pb; [|done]. destruct (bool_decide _); [|done]. cbn [andb]. apply (prefetch_ok l); [by apply Hpb|lia|done]. }
    rewrite Epf. clear Epf. cbn [mbind option_bind]. destruct (L_split_in _ _ _ E') as [HyF Hyb].
    rewrite bool_decide_eq_false_2 by (intros Ea; apply (Ha y); [done|rewrite E'; apply elem_of_app; right; by left]).
    rewrite KeyIsAfterNode_ok by (done || by eapply L_next_not_head). rewrite bool_decide_eq_true_2 by done.
    cbn. rewrite length_app in Hf. cbn in Hf. rewrite (IH _ _ _ Hl Hpb E' Hy Ha) by lia.
    rewrite filter_app, E3, filter_cons_True, app_nil_l, last_cons by done. by destruct (last _).
Qed.

(** The first node that is not before the key, when an equal one is found early. *)
Lemma head_R_equal y : y ∈ R -> compare (nkey ns y) k = 0 -> head R = Some y.
Proof.
  intros Hy Hc. pose proof (sorted_filter _ (fun p => ~ below ns k p) _ (sh_sorted _ _ _ Hsh)) as Hs.
  destruct R as [|z R'] eqn:ER; [by apply not_elem_of_nil in Hy|]. cbn. f_equal.
  apply elem_of_cons in Hy as [->|Hy]; [done|]. exfalso.
  apply StronglySorted_inv in Hs as [_ Hz]. rewrite Forall_forall in Hz. destruct (Hz y Hy) as [Hne [->|Hlt]].
  - destruct (R_in head_) as (_ & ? & _); [rewrite ER; by left|done].
  - destruct (R_in z) as (_ & _ & Hzk); [rewrite ER; by left|].
    pose proof (pre_lt_le_trans compare (nkey ns z) (nkey ns y) k Hlt ltac:(lia)). lia.
Qed.

Lemma R_tall_0 : filter (tall ns 0) R = R.
Proof. apply filter_tall_0. intros p Hp. by apply R_in in Hp as [? _]. Qed.

Lemma find_ge_spec fuel level L1 x L2 last_bigger :
  (forall l, (l <= level)%nat -> linked ns F l) -> L = L1 ++ x :: L2 -> tall ns level x ->
  (forall b, last_bigger = Some b -> 0 < compare (nkey ns b) k /\ b <> head_) -> (length L2 + level < fuel)%nat ->
  find_ge compare fuel ns k x level last_bigger = Some (head R).
Proof.
  revert level L1 x L2 last_bigger. induction fuel as [|fuel IH]; intros level L1 x L2 lb Hl E Ht Hlb Hf; [lia|].
  cbn [find_ge]. pose proof (Hl level ltac:(lia)) as Hll.
  destruct (step_right level L1 x L2 Hll E Ht) as [[E2 En]|(L3 & y & L4 & -> & Hy & E3 & En & E')];
    destruct (step_checks level L1 x _ _ Hll E Ht En) as (Epf & Eas & Eap & Hn); rewrite En; cbn [mbind option_bind];
    rewrite Epf, Eas, Eap; cbn [mbind option_bind].
  - assert (Hdown : forall lb', (forall b, lb' = Some b -> 0 < compare (nkey ns b) k /\ b <> head_) -> level <> 0%nat ->
      find_ge compare fuel ns k x (level - 1) lb' = Some (head R)).
    { intros lb' Hlb' Hne. apply (IH (level - 1)%nat L1 x L2 lb'); [|done| |done|lia].
      - intros l' Hl'. apply Hl. lia.
      - eapply tall_down; [|done]. lia. }
    destruct (head (filter (tall ns level) R)) as [y|] eqn:Eh.
    + pose proof (head_filter_in R level y Eh) as [HyR _]. pose proof (R_in y HyR) as (HyF & Hyh & Hyc).
      assert (Hpos : (if bool_decide (Some y = lb) then Some 1 else k0 ← Key ns y; Some (compare k0 k))
        = Some (if bool_decide (Some y = lb) then 1 else compare (nkey ns y) k)).
      { destruct (bool_decide _); [done|]. by rewrite Key_ok. }
      rewrite Hpos. cbn [mbind option_bind].
      assert (Hlbc : 0 <= (if bool_decide (Some y = lb) then 1 else compare (nkey ns y) k)) by (destruct (bool_decide _); lia).
      destruct (Z.eqb_spec (if bool_decide (Some y = lb) then 1 else compare (nkey ns y) k) 0) as [E0|E0].
      * cbn. f_equal. symmetry. apply head_R_equal; [done|]. by destruct (bool_decide _).
      * destruct (Z.ltb_spec 0 (if bool_decide (Some y = lb) then 1 else compare (nkey ns y) k)); [|lia].
        destruct (Nat.eqb_spec level 0) as [->|Hne]; cbn [orb andb].
        -- by rewrite R_tall_0 in Eh; rewrite Eh.
        -- destruct (Z.ltb_spec (if bool_decide (Some y = lb) then 1 else compare (nkey ns y) k) 0); [lia|].
           apply Hdown; [|done]. intros b [= <-]. split; [|done].
           destruct (decide (Some y = lb)) as [<-|Hn']; [by apply Hlb|].
           rewrite bool_decide_eq_false_2 in E0 by done. lia.
    + cbn. destruct (Nat.eqb_spec level 0) as [->|Hne]; [by rewrite R_tall_0 in Eh; rewrite Eh|].
      by apply Hdown.
  - destruct (L_split_in _ _ _ E') as [HyF Hyb]. pose proof (L_next_not_head _ _ _ _ _ E') as Hyh.
    destruct Hyb as [|Hyb]; [done|].
    rewrite bool_decide_eq_false_2 by (intros <-; destruct (Hlb y eq_refl); lia).
    rewrite Key_ok by done. cbn [mbind option_bind].
    destruct (Z.eqb_spec (compare (nkey ns y) k) 0); [lia|]. destruct (Z.ltb_spec 0 (compare (nkey ns y) k)); [lia|].
    cbn [orb andb]. destruct (Z.ltb_spec (compare (nkey ns y) k) 0); [|lia].
    rewrite length_app in Hf. cbn in Hf. apply (IH level (L1 ++ x :: L3) y L4 lb); try done. lia.
Qed.

(** The array [prev] is filled on the way; the result does not depend on it. *)
Lemma find_lt_spec fuel level bottom L1 x L2 prev last_not_after :
  (forall l, (l <= level)%nat -> linked ns F l) -> L = L1 ++ x :: L2 -> tall ns level x -> (bottom <= level)%nat ->
  (forall b, last_not_after = Some b -> b ∉ L) -> (length L2 + level < fuel)%nat ->
  fst <$> find_lt compare fuel ns k prev x level bottom last_not_after
  = Some (default x (last (filter (tall ns bottom) L2))).
Proof.
  revert level L1 x L2 prev last_not_after.
  induction fuel as [|fuel IH]; intros level L1 x L2 prev lna Hl E Ht Hb Hlna Hf; [lia|].
  cbn [find_lt]. pose proof (Hl level ltac:(lia)) as Hll.
  destruct (step_right level L1 x L2 Hll E Ht) as [[E2 En]|(L3 & y & L4 & -> & Hy & E3 & En & E')];
    destruct (step_checks level L1 x _ _ Hll E Ht En) as (Epf & Eas & Eap & Hn); rewrite En; cbn [mbind option_bind];
    rewrite Epf, Eas, Eap; clear Epf Eas Eap; cbn [mbind option_bind].
  - set (next := head (filter (tall ns level) R)) in *.
    assert (HnL : forall b, next = Some b -> b ∉ L).
    { intros b Hb' HbL. apply head_filter_in in Hb' as [Hb' _]. apply list_elem_of_filter in Hb' as [Hb' _].
      by apply Hb', L_in. }
    assert (Ea : (if bool_decide (next = lna) then Some false else KeyIsAfterNode compare ns k next) = Some false).
    { destruct (bool_decide _); [done|]. destruct next as [y|] eqn:Eh; [|done].
      apply head_filter_in in Eh as [HyR _]. pose proof (R_in y HyR) as (HyF & Hyh & _).
      rewrite KeyIsAfterNode_ok by done. apply list_elem_of_filter in HyR as [Hyb _].
      by rewrite bool_decide_eq_false_2. }
    rewrite Ea. cbn [mbind option_bind]. destruct (Nat.eqb_spec level bottom) as [->|Hne]; [by rewrite E2|].
    apply (IH (level - 1)%nat L1); [|done| |lia|done|lia].
    + intros l' Hl'. apply Hl. lia.
    + eapply tall_down; [|done]. lia.
  - destruct (L_split_in _ _ _ E') as [HyF Hyb]. pose proof (L_next_not_head _ _ _ _ _ E') as Hyh.
    rewrite bool_decide_eq_false_2 by (intros Ea; apply (Hlna y); [done|rewrite E'; apply elem_of_app; right; by left]).
    rewrite KeyIsAfterNode_ok by done. rewrite bool_decide_eq_true_2 by done. cbn [mbind option_bind].
    rewrite length_app in Hf. cbn in Hf. rewrite (IH level _ y L4 prev lna Hl E' Hy Hb Hlna) by lia.
    rewrite filter_app, filter_cons_True by (by eapply tall_down). rewrite last_app, last_cons.
    by destruct (last (filter _ L4)).
Qed.

Lemma estimate_terminates fuel kBranching_ level L1 x L2 count :
  (forall l, (l <= level)%nat -> linked ns F l) -> L = L1 ++ x :: L2 -> tall ns level x -> (length L2 + level < fuel)%nat ->
  is_Some (estimate_loop compare kBranching_ fuel ns k x level count).
Proof.
  revert level L1 x L2 count. induction fuel as [|fuel IH]; intros level L1 x L2 count Hl E Ht Hf; [lia|].
  cbn [estimate_loop]. pose proof (Hl level ltac:(lia)) as Hll. destruct (L_split_in _ _ _ E) as [HxF Hxb].
  assert (Ea : assert (if (x =? head_)%nat then Some true else k0 ← Key ns x; Some (compare k0 k <? 0)) = Some tt).
  { destruct (Nat.eqb_spec x head_); [done|]. rewrite Key_ok by done. cbn. destruct Hxb as [|Hxb]; [done|].
    by rewrite (proj2 (Z.ltb_lt _ _) Hxb). }
  rewrite Ea. cbn [mbind option_bind].
  destruct (step_right level L1 x L2 Hll E Ht) as [[E2 En]|(L3 & y & L4 & -> & Hy & E3 & En & E')];
    destruct (step_checks level L1 x _ _ Hll E Ht En) as (Epf & _ & _ & Hn); rewrite En; cbn [mbind option_bind];
    rewrite Epf; cbn [mbind option_bind].
  - assert (Es : match head (filter (tall ns level) R) with
      | None => Some true | Some p => k0 ← Key ns p; Some (0 <=? compare k0 k) end = Some true).
    { destruct (head (filter (tall ns level) R)) as [y|] eqn:Eh; [|done].
      apply head_filter_in in Eh as [HyR _]. pose proof (R_in y HyR) as (HyF & Hyh & Hyc).
      rewrite Key_ok by done. cbn. by rewrite (proj2 (Z.leb_le _ _) Hyc). }
    rewrite Es. cbn [mbind option_bind]. destruct (Nat.eqb_spec level 0) as [|Hne]; [done|].
    apply (IH (level - 1)%nat L1 x L2); [|done| |lia].
    + intros l' Hl'. apply Hl. lia.
    + eapply tall_down; [|done]. lia.
  - destruct (L_split_in _ _ _ E') as [HyF Hyb]. pose proof (L_next_not_head _ _ _ _ _ E') as Hyh.
    destruct Hyb as [|Hyb]; [done|]. rewrite Key_ok by done. cbn [mbind option_bind].
    rewrite (proj2 (Z.leb_gt _ _)) by lia. rewrite length_app in Hf. cbn in Hf. by apply (IH level (L1 ++ x :: L3) y L4); [..|lia].
Qed.
End Search.

Lemma find_last_spec fuel level F1 x F2 :
  (forall l, (l <= level)%nat -> linked ns F l) -> F = F1 ++ x :: F2 -> tall ns level x -> (length F2 + level < fuel)%nat ->
  find_last fuel ns x level = last (x :: F2).
Proof.
  revert level F1 x F2. induction fuel as [|fuel IH]; intros level F1 x F2 Hl E Ht Hf; [lia|].
  cbn [find_last]. rewrite (Hl level ltac:(lia) F1 x F2 E Ht). cbn [mbind option_bind].
  destruct (filter (tall ns level) F2) as [|y r] eqn:E2; cbn [head].
  - destruct (Nat.eqb_spec level 0) as [->|Hne].
    + rewrite filter_tall_0 in E2; [by rewrite E2|]. intros p Hp. rewrite E. apply elem_of_app. right. by right.
    + apply (IH (level - 1)%nat F1); [|done| |lia].
      * intros l' Hl'. apply Hl. lia.
      * eapply tall_down; [|done]. lia.
  - apply filter_cons_split in E2 as (F3 & F4 & -> & Hy & _ & _). rewrite length_app in Hf. cbn in Hf.
    rewrite (IH level (F1 ++ x :: F3) y F4 Hl); [|by rewrite E, <- app_assoc|done|lia].
    change (x :: F3 ++ y :: F4) with ((x :: F3) ++ y :: F4). rewrite last_app, (last_cons y F4).
    by destruct (last F4).
Qed.

(** *** The searches of a whole list *)

Lemma F_length : (length F <= length ns)%nat.
Proof.
  pose proof (sh_alloc _ _ _ Hsh) as Ha. rewrite <- (length_seq (length ns) 0).
  apply NoDup_incl_length; [apply NoDup_ListNoDup, F_nodup|].
  intros p Hp. apply list_elem_of_In in Hp. rewrite Forall_forall in Ha. apply in_seq. specialize (Ha p Hp). lia.
Qed.

Lemma L_starts k : exists L2, filter (below ns k) F = head_ :: L2 /\ (length L2 < length ns)%nat.
Proof.
  pose proof (sh_head _ _ _ Hsh) as Hh. pose proof F_length as Hl. destruct F as [|x F']; [done|]. cbn in Hh. injection Hh as ->.
  rewrite filter_cons_True by (by left). eexists. split; [done|].
  pose proof (length_filter (below ns k) F'). cbn in Hl. lia.
Qed.

Lemma tail_F p : p ∈ tail F <-> p ∈ F /\ p <> head_.
Proof.
  pose proof (sh_head _ _ _ Hsh) as Hh. pose proof F_nodup as Hnd. destruct F as [|x F']; [done|]. cbn in *.
  injection Hh as ->. apply NoDup_cons in Hnd as [Hnd _]. rewrite elem_of_cons. split.
  - intros Hp. split; [by right|]. by intros ->.
  - intros [[->|] ?]; done.
Qed.

Lemma top_tall : tall ns (mh - 1) head_.
Proof. apply head_tall. destruct (sh_max _ _ _ Hsh). lia. Qed.
End Fixed.

Record list_inv (sl : InlineSkipList) (F : list nat) : Prop := {
  li_shape : shape (nodes sl) (max_height_ sl) F;
  li_linked : forall l, linked (nodes sl) F l
}.

(** The keys of the list, in order. *)
Definition keys (sl : InlineSkipList) (F : list nat) : list bytes := nkey (nodes sl) <$> tail F.

Section Searches.
Context (sl : InlineSkipList) (F : list nat) (Hi : list_inv sl F).

Let Hsh := li_shape _ _ Hi.

Lemma FindGreaterOrEqual_ok k :
  FindGreaterOrEqual compare sl k = Some (head (filter (fun p => ~ below (nodes sl) k p) F)).
Proof.
  destruct (L_starts _ _ _ Hsh k) as (L2 & E & Hlen). pose proof (sh_max _ _ _ Hsh).
  apply (find_ge_spec _ _ _ Hsh k _ _ [] head_ L2); [|done|by eapply top_tall|done|].
  - intros l _. apply Hi.
  - unfold search_fuel. lia.
Qed.

Lemma FindLessThan_ok k : FindLessThan compare sl k = last (filter (below (nodes sl) k) F).
Proof.
  destruct (L_starts _ _ _ Hsh k) as (L2 & E & Hlen). pose proof (sh_max _ _ _ Hsh).
  unfold FindLessThan, FindLessThan_from. cbn [assert mbind option_bind].
  rewrite bool_decide_eq_true_2 by lia. cbn [mbind option_bind].
  rewrite (find_lt_spec _ _ _ Hsh k _ _ _ [] head_ L2); [|intros; apply Hi|done|by eapply top_tall|lia|done|unfold search_fuel; lia].
  rewrite (filter_tall_0 _ _ _ Hsh), E, last_cons; [by destruct (last L2)|].
  intros p Hp. assert (Hp' : p ∈ filter (below (nodes sl) k) F) by (rewrite E; by right).
  by apply list_elem_of_filter in Hp' as [_ ?].
Qed.

Lemma FindLast_ok : FindLast sl = last F.
Proof.
  pose proof (sh_head _ _ _ Hsh) as Hh. pose proof (F_length _ _ _ Hsh) as Hl. pose proof (sh_max _ _ _ Hsh).
  destruct F as [|x F'] eqn:EF; [done|]. cbn in Hh. injection Hh as ->. unfold FindLast.
  apply (find_last_spec _ _ _ Hsh _ _ []); [intros; apply Hi|done|by eapply top_tall|].
  unfold search_fuel. cbn in Hl. lia.
Qed.

Lemma EstimateCount_ok kBranching_ k : is_Some (EstimateCount compare kBranching_ sl k).
Proof.
  destruct (L_starts _ _ _ Hsh k) as (L2 & E & Hlen). pose proof (sh_max _ _ _ Hsh).
  eapply (estimate_terminates _ _ _ Hsh k _ _ _ [] head_ L2); [intros; apply Hi|done|by eapply top_tall|unfold search_fuel; lia].
Qed.

(** [Contains] is membership. *)
Lemma Contains_ok k : Contains compare sl k
  = Some (bool_decide (Exists (fun k' => compare k' k = 0) (keys sl F))).
Proof.
  unfold Contains. rewrite FindGreaterOrEqual_ok. cbn [mbind option_bind].
  pose proof (tail_F _ _ _ Hsh) as Htail.
  destruct (head (filter _ F)) as [p|] eqn:E.
  - apply head_Some_elem_of in E as HpR. pose proof (R_in _ F k p HpR) as (HpF & Hph & Hpc).
    rewrite (Key_ok _ _ _ Hsh) by done. cbn. f_equal. unfold Equal.
    pose proof (pre_flip k (nkey (nodes sl) p)). pose proof (pre_flip (nkey (nodes sl) p) k).
    destruct (Z.eqb_spec (compare k (nkey (nodes sl) p)) 0) as [E0|E0]; symmetry.
    + apply bool_decide_eq_true, Exists_exists. exists (nkey (nodes sl) p). split; [|lia].
      apply list_elem_of_fmap. exists p. by rewrite Htail.
    + apply bool_decide_eq_false. rewrite Exists_exists. intros (k' & Hk' & Hc).
      apply list_elem_of_fmap in Hk' as (q & -> & Hq). apply Htail in Hq as [HqF Hqh].
      assert (HqR : q ∈ filter (fun p => ~ below (nodes sl) k p) F).
      { apply list_elem_of_filter. split; [|done]. intros [|]; [done|lia]. }
      rewrite (head_R_equal _ _ _ Hsh k q HqR Hc) in E. injection E as ->. lia.
  - f_equal. symmetry. apply bool_decide_eq_false. rewrite Exists_exists. intros (k' & Hk' & Hc).
    apply list_elem_of_fmap in Hk' as (q & -> & Hq). apply Htail in Hq as [HqF Hqh].
    assert (HqR : q ∈ filter (fun p => ~ below (nodes sl) k p) F).
    { apply list_elem_of_filter. split; [|done]. intros [|]; [done|lia]. }
    by rewrite (head_R_equal _ _ _ Hsh k q HqR Hc) in E.
Qed.
End Searches.

(** ** Setting links *)

(** Keys and heights are as before. *)
Definition same_shape (ns ns' : list Node) : Prop :=
  length ns' = length ns /\ forall p, nkey ns' p = nkey ns p /\ levels ns' p = levels ns p.

Lemma same_shape_trans a b c : same_shape a b -> same_shape b c -> same_shape a c.
Proof. intros [E1 H1] [E2 H2]. split; [lia|]. intros p. destruct (H1 p), (H2 p). split; congruence. Qed.

Lemma same_shape_shape ns ns' mh F : same_shape ns ns' -> shape ns mh F -> shape ns' mh F.
Proof.
  intros [El Hp] [H1 H2 H3 H4 H5 H6 H7]. split; try done.
  - by rewrite El.
  - destruct (Hp head_) as [_ ->]. done.
  - eapply Forall_impl; [done|]. cbn. intros p. by destruct (Hp p) as [_ ->].
  - clear -H5 Hp. induction H5 as [|p F _ IH Hx]; constructor; [done|]. eapply Forall_impl; [done|]. cbn.
    intros q. unfold node_lt. destruct (Hp p) as [-> _], (Hp q) as [-> _]. done.
Qed.

Lemma same_shape_below ns ns' k p : same_shape ns ns' -> below ns' k p <-> below ns k p.
Proof. intros [_ Hp]. unfold below. by destruct (Hp p) as [-> _]. Qed.

Lemma same_shape_tall ns ns' l p : same_shape ns ns' -> tall ns' l p <-> tall ns l p.
Proof. intros [_ Hp]. unfold tall. by destruct (Hp p) as [_ ->]. Qed.

Lemma same_shape_filter_tall ns ns' l (G : list nat) : same_shape ns ns' -> filter (tall ns' l) G = filter (tall ns l) G.
Proof. intros Hs. apply list_filter_iff. intros p. by apply same_shape_tall. Qed.

Lemma SetNext_ok ns p n q : tall ns n p -> exists ns', SetNext ns p n q = Some ns' /\ same_shape ns ns' /\
  forall p' n', Next ns' p' n' = if decide (p' = p /\ n' = n) then Some q else Next ns p' n'.
Proof.
  unfold tall, levels. intros Ht. destruct (ns !! p) as [nd|] eqn:Ep; cbn in Ht; [|lia].
  pose proof (lookup_lt_Some _ _ _ Ep) as Hlt.
  destruct (next_ nd !! n) as [c|] eqn:Ec; [|apply lookup_ge_None in Ec; lia].
  unfold SetNext. rewrite Ep. cbn. rewrite Ec. cbn. eexists. split; [done|]. split.
  - split; [by rewrite length_insert|]. intros p'. unfold nkey, levels, Key. destruct (decide (p' = p)) as [->|Hne].
    + rewrite list_lookup_insert_eq, Ep by done. cbn. by rewrite length_insert.
    + by rewrite list_lookup_insert_ne.
  - intros p' n'. unfold Next. destruct (decide (p' = p)) as [->|Hne].
    + rewrite list_lookup_insert_eq by done. cbn. destruct (decide (n' = n)) as [->|Hne'].
      * rewrite list_lookup_insert_eq by lia. by rewrite decide_True.
      * rewrite list_lookup_insert_ne by done. rewrite decide_False by tauto. by rewrite Ep.
    + rewrite list_lookup_insert_ne by done. by rewrite decide_False by tauto.
Qed.

(** Links of other nodes and levels do not matter. *)
Lemma linked_same ns ns' F l : same_shape ns ns' -> (forall p, p ∈ F -> Next ns' p l = Next ns p l) ->
  linked ns F l -> linked ns' F l.
Proof.
  intros Hs Hn Hl F1 x F2 E Ht. rewrite same_shape_tall in Ht by done. rewrite (same_shape_filter_tall ns) by done.
  rewrite Hn; [by apply (Hl F1)|]. rewrite E. apply elem_of_app. right. by left.
Qed.

(** The last tall node before a place. *)
Lemma last_tall (P : nat -> Prop) `{!forall p, Decision (P p)} (A A1 A2 : list nat) y p : NoDup A -> A = A1 ++ y :: A2 -> P y ->
  last (filter P A) = Some p -> filter P A2 = [] <-> y = p.
Proof.
  intros Hnd -> Hy. rewrite filter_app, filter_cons_True by done. rewrite last_app, last_cons. intros Hl. split.
  - intros E. rewrite E in Hl. by injection Hl.
  - intros ->. destruct (filter P A2) as [|z r] eqn:E; [done|]. exfalso.
    assert (Hin : p ∈ A2).
    { destruct (last (z :: r)) as [w|] eqn:Ew.
      - injection Hl as ->. apply last_Some_elem_of in Ew. rewrite <- E in Ew. by apply list_elem_of_filter in Ew as [_ ?].
      - by apply last_None in Ew. }
    apply NoDup_app in Hnd as (_ & _ & Hnd). apply NoDup_cons in Hnd as [Hnd _]. done.
Qed.

(** A node between the last tall node before a place and the first after it. *)
Lemma link_between ns F A B x p l : F = A ++ B -> NoDup F -> x ∉ F -> linked ns F l -> tall ns l x ->
  last (filter (tall ns l) A) = Some p ->
  exists ns1 ns2, SetNext ns x l (head (filter (tall ns l) B)) = Some ns1 /\ SetNext ns1 p l (Some x) = Some ns2 /\
    same_shape ns ns1 /\ same_shape ns ns2 /\ linked ns2 (A ++ x :: B) l /\
    (forall p', p' <> x -> forall n', Next ns1 p' n' = Next ns p' n') /\
    (forall G n', n' <> l -> linked ns G n' -> linked ns2 G n').
Proof.
  intros EF Hnd Hx Hl Hxt Hp.
  assert (HpA : p ∈ A /\ tall ns l p) by (apply last_Some_elem_of, list_elem_of_filter in Hp as [? ?]; done).
  destruct HpA as [HpA Hpt].
  assert (Hxp : x <> p) by (intros ->; apply Hx; rewrite EF; apply elem_of_app; by left).
  destruct (SetNext_ok ns x l (head (filter (tall ns l) B)) Hxt) as (ns1 & E1 & Hs1 & Hn1).
  assert (Hpt1 : tall ns1 l p) by (by rewrite same_shape_tall).
  destruct (SetNext_ok ns1 p l (Some x) Hpt1) as (ns2 & E2 & Hs2 & Hn2). pose proof (same_shape_trans _ _ _ Hs1 Hs2) as Hs.
  assert (Hn : forall p', p' <> x -> forall n', Next ns1 p' n' = Next ns p' n').
  { intros p' Hne n'. rewrite Hn1. by rewrite decide_False by tauto. }
  exists ns1, ns2. split_and!; try done.
  - intros G1 y G2 E Hy. rewrite same_shape_tall in Hy by done. rewrite (same_shape_filter_tall ns) by done.
    assert (HndA : NoDup A) by (rewrite EF in Hnd; by apply NoDup_app in Hnd as [? _]).
    rewrite Hn2. apply app_eq_inv in E as [(K & EA & EK)|(K & EA & EK)].
    + destruct K as [|z K]; cbn in EK.
      * injection EK as -> ->. rewrite decide_False by (intros [? _]; done). rewrite Hn1. by rewrite decide_True.
      * injection EK as -> ->. rewrite filter_app, filter_cons_True by done.
        assert (Hzx : z <> x) by (intros ->; apply Hx; rewrite EF, EA; apply elem_of_app; left; apply elem_of_app; right; by left).
        pose proof (last_tall (tall ns l) A G1 K z p HndA EA Hy Hp) as Hlast.
        destruct (decide (z = p /\ l = l)) as [[-> _]|Hne].
        -- destruct Hlast as [_ ->]; done.
        -- rewrite Hn by done. rewrite (Hl G1 z (K ++ B)) by (done || by rewrite EF, EA, <- app_assoc). rewrite filter_app.
           destruct (filter (tall ns l) K); [|done]. exfalso. apply Hne. split; [by apply Hlast|done].
    + destruct K as [|z K]; cbn in EK.
      * injection EK as <- <-. rewrite decide_False by (intros [? _]; done). rewrite Hn1. by rewrite decide_True.
      * injection EK as <- EB.
        assert (HyB : y ∈ B) by (rewrite EB; apply elem_of_app; right; by left).
        assert (Hyx : y <> x) by (intros ->; apply Hx; rewrite EF; apply elem_of_app; by right).
        assert (Hyp : y <> p).
        { intros ->. rewrite EF in Hnd. apply NoDup_app in Hnd as (_ & Hd & _). by apply (Hd p). }
        rewrite decide_False by tauto. rewrite Hn by done. apply (Hl (A ++ K) y G2); [|done]. by rewrite EF, EB, <- app_assoc.
  - intros G n' Hne HG. eapply linked_same; [done| |done]. intros p' _. rewrite Hn2, decide_False, Hn1, decide_False; tauto.
Qed.

(** ** Splices *)

Definition at_level (s : Splice) (i p : nat) (q : option nat) : Prop :=
  sp_prev s !! i = Some (Link (Some p)) /\ sp_next s !! i = Some (Link q).

Definition node_le (ns : list Node) (p q : nat) : Prop := p = q \/ node_lt ns p q.

(** Null is after every node. *)
Definition next_le (ns : list Node) (q q' : option nat) : Prop :=
  forall n', q' = Some n' -> exists n, q = Some n /\ node_le ns n n'.

(** A level of a splice: its nodes are in the list and have a link there. *)
Definition level_ok (ns : list Node) (F : list nat) (i p : nat) (q : option nat) : Prop :=
  p ∈ F /\ tall ns i p /\ forall n, q = Some n -> n ∈ F /\ n <> head_ /\ tall ns i n.

(** From level [i] up, the invariant that the source states: [prev_[i+1] <= prev_[i]]
    and [next_[i] <= next_[i+1]], up to [head_] and null at the top. *)
Record splice_from (ns : list Node) (mh : nat) (F : list nat) (s : Splice) (i : nat) : Prop := {
  sf_room : (kMaxHeight_ < length (sp_prev s))%nat /\ (kMaxHeight_ < length (sp_next s))%nat;
  sf_height : (i <= sp_height s <= mh)%nat;
  sf_top : at_level s (sp_height s) head_ None;
  sf_levels : forall j, (i <= j < sp_height s)%nat -> exists p q, at_level s j p q /\ level_ok ns F j p q;
  sf_mono : forall j p q p' q', (i <= j < sp_height s)%nat -> at_level s j p q -> at_level s (j + 1) p' q' ->
    node_le ns p' p /\ next_le ns q q'
}.

(** A splice that has not been used yet, or is to be recomputed, or a valid one. *)
Definition splice_inv (ns : list Node) (mh : nat) (F : list nat) (s : Splice) : Prop :=
  ((kMaxHeight_ < length (sp_prev s))%nat /\ (kMaxHeight_ < length (sp_next s))%nat /\ sp_height s = 0%nat) \/
  splice_from ns mh F s 0.

Lemma same_shape_sym a b : same_shape a b -> same_shape b a.
Proof. intros [E H]. split; [done|]. intros p. by destruct (H p). Qed.

Lemma same_shape_Key ns ns' x k : same_shape ns ns' -> Key ns x = Some k -> Key ns' x = Some k.
Proof.
  intros [El Hk]. unfold Key. destruct (Hk x) as [Ek _]. unfold nkey, Key in Ek.
  destruct (ns !! x) as [nd|] eqn:E; [|done]. apply lookup_lt_Some in E. rewrite <- El in E.
  apply lookup_lt_is_Some_2 in E as [nd' E']. rewrite E' in Ek |- *. cbn in *. congruence.
Qed.

Lemma at_level_fun s i p q p' q' : at_level s i p q -> at_level s i p' q' -> p = p' /\ q = q'.
Proof. intros [E1 E2] [E3 E4]. by simplify_eq. Qed.

Lemma at_level_reads s i p q : at_level s i p q -> prev_at s i = Some p /\ next_at s i = Some q.
Proof. intros [E1 E2]. unfold prev_at, next_at. by rewrite E1, E2. Qed.

Lemma set_splice_ok s i p q : (i < length (sp_prev s))%nat -> (i < length (sp_next s))%nat ->
  exists s', set_splice s i p q = Some s' /\ sp_height s' = sp_height s /\ at_level s' i p q /\
    length (sp_prev s') = length (sp_prev s) /\ length (sp_next s') = length (sp_next s) /\
    forall j p' q', j <> i -> at_level s' j p' q' <-> at_level s j p' q'.
Proof.
  intros H1 H2. destruct (lookup_lt_is_Some_2 _ _ H1) as [c1 E1], (lookup_lt_is_Some_2 _ _ H2) as [c2 E2].
  unfold set_splice. rewrite E1, E2. cbn. eexists. split; [done|]. cbn. rewrite !length_insert.
  unfold at_level. cbn. split_and!; try done; [by rewrite list_lookup_insert_eq..|].
  intros j p' q' Hne. by rewrite !list_lookup_insert_ne by done.
Qed.

Lemma node_le_below ns k p q : node_le ns p q -> below ns k q -> below ns k p.
Proof. intros [->|Hlt]; [done|]. by apply below_down. Qed.


Lemma FindSplice_exact ns mh F k l pb p after : shape ns mh F -> linked ns F l -> (pb = true -> linked ns F (l - 1)) ->
  p ∈ F -> below ns k p -> tall ns l p -> (forall a, after = Some a -> ~ below ns k a) ->
  exists pl, FindSpliceForLevel compare ns pb k p after l = Some (pl, head (filter (tall ns l) (filter (fun p => ~ below ns k p) F))) /\
    last (filter (tall ns l) (filter (below ns k) F)) = Some pl.
Proof.
  intros Hsh Hl Hpb Hp Hb Ht Ha. assert (HpL : p ∈ filter (below ns k) F) by (by apply list_elem_of_filter).
  apply list_elem_of_split in HpL as (L1 & L2 & E).
  exists (default p (last (filter (tall ns l) L2))). split.
  - apply (find_splice_spec _ _ _ Hsh k _ _ L1 p L2); try done.
    + intros a Ea HaL. apply list_elem_of_filter in HaL as [HaL _]. by apply (Ha a).
    + pose proof (F_length _ _ _ Hsh). pose proof (length_filter (below ns k) F) as Hf.
      rewrite E, length_app in Hf. cbn in Hf. lia.
  - rewrite E, filter_app, filter_cons_True, last_app, last_cons by done. by destruct (last (filter _ L2)).
Qed.
Section Position.
Context (ns : list Node) (mh : nat) (F : list nat) (Hsh : shape ns mh F) (Hlk : forall l, linked ns F l) (k : bytes).

Abbreviation L := (filter (below ns k) F).
Abbreviation R := (filter (fun p => ~ below ns k p) F).

(** The level is on both sides of the key. *)
Definition brackets (p : nat) (q : option nat) : Prop := below ns k p /\ forall n, q = Some n -> ~ below ns k n.

Definition bracketed_from (s : Splice) (i : nat) : Prop :=
  forall j p q, (i <= j <= sp_height s)%nat -> at_level s j p q -> brackets p q.

(** The level is where the key belongs. *)
Definition exact (s : Splice) (i : nat) : Prop :=
  exists p, last (filter (tall ns i) L) = Some p /\ at_level s i p (head (filter (tall ns i) R)).

(** A level that brackets the key makes the higher ones do so. *)
Lemma bracketed_up s i p q : splice_from ns mh F s i -> at_level s i p q -> brackets p q -> bracketed_from s i.
Proof.
  intros Hs Hi Hb j p' q' [Hij Hjh]. revert p' q'. induction Hij as [|j Hij IH]; intros p' q' Hj.
  - destruct (at_level_fun _ _ _ _ _ _ Hi Hj) as [<- <-]. done.
  - destruct (sf_levels _ _ _ _ _ Hs j ltac:(lia)) as (p1 & q1 & Hj1 & _).
    destruct (IH ltac:(lia) p1 q1 Hj1) as [Hb1 Hb2]. rewrite <- Nat.add_1_r in Hj.
    destruct (sf_mono _ _ _ _ _ Hs j p1 q1 p' q' ltac:(lia) Hj1 Hj) as [Hp Hq]. split.
    + by eapply node_le_below.
    + intros n' En' Hn'. destruct (Hq n' En') as (n & En & Hle). apply (Hb2 n En). by eapply node_le_below.
Qed.

Lemma splice_from_up s i i' : splice_from ns mh F s i -> (i <= i' <= sp_height s)%nat -> splice_from ns mh F s i'.
Proof.
  intros [H1 H2 H3 H4 H5] Hi. split; [done|lia|done| |].
  - intros j Hj. apply H4. lia.
  - intros j p q p' q' Hj. apply H5. lia.
Qed.

Lemma top_brackets s i : splice_from ns mh F s i -> bracketed_from s (sp_height s).
Proof.
  intros Hs j p q Hj Ha. replace j with (sp_height s) in Ha by lia.
  destruct (at_level_fun _ _ _ _ _ _ (sf_top _ _ _ _ _ Hs) Ha) as [<- <-]. split; [by left|done].
Qed.

Lemma skip_same_ok s (a : nat -> option (option nat)) bad fuel r :
  (forall j, (r <= j <= sp_height s)%nat -> is_Some (a j)) -> a (sp_height s) <> Some bad ->
  (r <= sp_height s)%nat -> (sp_height s - r < fuel)%nat ->
  exists r', skip_same fuel a bad r = Some r' /\ (r <= r' <= sp_height s)%nat /\ (a r = Some bad -> r < r')%nat.
Proof.
  revert r. induction fuel as [|fuel IH]; intros r Ha Htop Hr Hf; [lia|]. cbn.
  destruct (Ha r ltac:(lia)) as [q Eq]. rewrite Eq. cbn. destruct (decide (q = bad)) as [->|Hne].
  - rewrite bool_decide_eq_true_2 by done. destruct (decide (r = sp_height s)) as [->|Hne]; [done|].
    destruct (IH (r + 1)%nat) as (r' & E & Hr' & _); [intros; apply Ha; lia|done|lia|lia|].
    exists r'. split_and!; [done|lia|lia|lia].
  - rewrite bool_decide_eq_false_2 by done. exists r. split_and!; [done|lia|lia|]. intros [= ->]. done.
Qed.

Lemma bracket_loop_ok s partial fuel r : splice_from ns mh F s 0 -> sp_height s = mh -> (r <= mh)%nat -> (mh - r < fuel)%nat ->
  exists r', bracket_loop compare fuel ns k s partial mh r = Some r' /\ (r' <= mh)%nat /\ bracketed_from s r'.
Proof.
  intros Hs Hh. revert r. induction fuel as [|fuel IH]; intros r Hr Hf; [lia|]. cbn [bracket_loop].
  destruct (decide (r < mh)%nat) as [Hlt|Hge].
  2:{ rewrite bool_decide_eq_false_2 by done. exists r. split_and!; [done|done|].
      replace r with (sp_height s) by lia. by eapply top_brackets. }
  rewrite bool_decide_eq_true_2 by done.
  destruct (sf_levels _ _ _ _ _ Hs r ltac:(lia)) as (p & q & Hat & Hp & Hpt & Hq).
  destruct (at_level_reads _ _ _ _ Hat) as [-> ->]. cbn [mbind option_bind].
  apply list_elem_of_split in Hp as Hp'. destruct Hp' as (F1 & F2 & EF).
  rewrite (Hlk r F1 p F2 EF Hpt). cbn [mbind option_bind].
  assert (Hup : exists r', bracket_loop compare fuel ns k s partial mh mh = Some r' /\ (r' <= mh)%nat /\ bracketed_from s r').
  { apply IH; lia. }
  destruct (bool_decide (head (filter (tall ns r) F2) = q)); cbn [negb]; [|apply IH; lia].
  assert (Eb : (if (p =? head_)%nat then Some false else negb <$> KeyIsAfterNode compare ns k (Some p))
    = Some (negb (bool_decide (below ns k p)))).
  { destruct (Nat.eqb_spec p head_) as [->|Hne].
    - by rewrite bool_decide_eq_true_2 by (by left).
    - by rewrite (KeyIsAfterNode_ok _ _ _ Hsh). }
  rewrite Eb. cbn [mbind option_bind]. destruct (decide (below ns k p)) as [Hbp|Hbp].
  - rewrite bool_decide_eq_true_2 by done. cbn [negb].
    assert (Ea : KeyIsAfterNode compare ns k q = Some (match q with None => false | Some n => bool_decide (below ns k n) end)).
    { destruct q as [n|]; [|done]. destruct (Hq n eq_refl) as (? & ? & _). by rewrite (KeyIsAfterNode_ok _ _ _ Hsh). }
    rewrite Ea. cbn [mbind option_bind].
    destruct (match q with None => false | Some n => bool_decide (below ns k n) end) eqn:Eq.
    + destruct partial; [|done]. destruct q as [n|]; [|done].
      destruct (skip_same_ok s (next_at s) (Some n) (sp_height s + 1) r) as (r' & -> & Hr' & Hlt'); [| |lia|lia|].
      * intros j Hj. destruct (decide (j = sp_height s)) as [->|Hne].
        -- destruct (at_level_reads _ _ _ _ (sf_top _ _ _ _ _ Hs)) as [_ ->]. done.
        -- destruct (sf_levels _ _ _ _ _ Hs j ltac:(lia)) as (p1 & q1 & H1 & _). by destruct (at_level_reads _ _ _ _ H1) as [_ ->].
      * by destruct (at_level_reads _ _ _ _ (sf_top _ _ _ _ _ Hs)) as [_ ->].
      * cbn [mbind option_bind]. destruct (at_level_reads _ _ _ _ Hat) as [_ En]. specialize (Hlt' En). apply IH; lia.
    + exists r. split_and!; [done|lia|]. eapply bracketed_up; [eapply splice_from_up; [exact Hs|lia]|exact Hat|].
      split; [done|]. intros n ->. by apply bool_decide_eq_false in Eq.
  - rewrite bool_decide_eq_false_2 by done. cbn [negb]. destruct partial; [|done].
    assert (Hph : p <> head_) by (intros ->; apply Hbp; by left).
    destruct (skip_same_ok s (fun i => Some <$> prev_at s i) (Some p) (sp_height s + 1) r) as (r' & -> & Hr' & Hlt'); [| |lia|lia|].
    + intros j Hj. destruct (decide (j = sp_height s)) as [->|Hne].
      * destruct (at_level_reads _ _ _ _ (sf_top _ _ _ _ _ Hs)) as [-> _]. done.
      * destruct (sf_levels _ _ _ _ _ Hs j ltac:(lia)) as (p1 & q1 & H1 & _). by destruct (at_level_reads _ _ _ _ H1) as [-> _].
    + destruct (at_level_reads _ _ _ _ (sf_top _ _ _ _ _ Hs)) as [-> _]. cbn. congruence.
    + cbn [mbind option_bind]. destruct (at_level_reads _ _ _ _ Hat) as [En _]. rewrite En in Hlt'. specialize (Hlt' eq_refl). apply IH; lia.
Qed.

(** A tight level that brackets the key is where the key belongs. *)
Lemma tight_exact s i p q : linked ns F i -> at_level s i p q -> level_ok ns F i p q -> brackets p q -> Next ns p i = Some q ->
  exact s i.
Proof.
  intros Hl Hat (Hp & Ht & _) [Hbp Hbq] En. assert (HpL : p ∈ L) by (by apply list_elem_of_filter).
  apply list_elem_of_split in HpL as (L1 & L2 & E).
  destruct (step_right _ _ _ Hsh k i L1 p L2 Hl E Ht) as [[E2 En']|(L3 & y & L4 & -> & Hy & E3 & En' & E')];
    rewrite En in En'; injection En' as ->.
  - exists p. split; [|done]. by rewrite E, filter_app, filter_cons_True, E2, last_app by done.
  - exfalso. apply (Hbq y eq_refl). assert (HyL : y ∈ L) by (rewrite E'; apply elem_of_app; right; by left).
    by apply list_elem_of_filter in HyL as [? _].
Qed.

Lemma exact_level s i : exact s i -> exists p q, at_level s i p q /\ level_ok ns F i p q /\ brackets p q.
Proof.
  intros (p & Hp & Hat). exists p, (head (filter (tall ns i) R)). split; [done|].
  apply last_Some_elem_of, list_elem_of_filter in Hp as [Ht Hp]. apply list_elem_of_filter in Hp as [Hb Hp].
  assert (Hn : forall n, head (filter (tall ns i) R) = Some n -> n ∈ R /\ tall ns i n).
  { intros n Hn. apply head_Some_elem_of, list_elem_of_filter in Hn as [? ?]. done. }
  split; [|split; [done|]].
  - split_and!; [done|done|]. intros n En. destruct (Hn n En) as [HnR Hnt].
    destruct (R_in ns F k n HnR) as (? & ? & _). done.
  - intros n En. destruct (Hn n En) as [HnR _]. by apply list_elem_of_filter in HnR as [? _].
Qed.

Lemma head_next_le i q' : (forall n, q' = Some n -> n ∈ F /\ ~ below ns k n /\ tall ns i n) ->
  next_le ns (head (filter (tall ns i) R)) q'.
Proof.
  intros Hq n' En'. destruct (Hq n' En') as (Hn' & Hnb & Ht).
  assert (HnR : n' ∈ filter (tall ns i) R) by (by repeat (apply list_elem_of_filter; split)).
  destruct (head (filter (tall ns i) R)) as [n|] eqn:Eh.
  - exists n. split; [done|]. eapply sorted_head; [|exact Eh|done]. apply sorted_filter, sorted_filter, (sh_sorted _ _ _ Hsh).
  - apply head_None in Eh. rewrite Eh in HnR. by apply not_elem_of_nil in HnR.
Qed.

(** The exact place at a level lies within the brackets of the level above. *)
Lemma exact_mono s i p q p' q' : exact s i -> at_level s i p q -> p' ∈ F -> tall ns i p' -> brackets p' q' ->
  (forall n, q' = Some n -> n ∈ F /\ tall ns i n) -> node_le ns p' p /\ next_le ns q q'.
Proof.
  intros (pl & Hpl & Hat) Hat' Hp' Ht' [Hb1 Hb2] Hq'. destruct (at_level_fun _ _ _ _ _ _ Hat Hat') as [<- <-].
  pose proof (sh_sorted _ _ _ Hsh) as Hs. split.
  - eapply sorted_last; [|exact Hpl|].
    + by apply sorted_filter, sorted_filter.
    + by repeat (apply list_elem_of_filter; split).
  - apply head_next_le. intros n En. destruct (Hq' n En). split_and!; [done|by apply Hb2|done].
Qed.

(** What is known of a level of a valid splice that brackets the key. *)
Lemma bracketed_level s i j : splice_from ns mh F s i -> bracketed_from s i -> (i <= j <= sp_height s)%nat -> (1 <= j)%nat ->
  exists p q, at_level s j p q /\ brackets p q /\ p ∈ F /\ tall ns (j - 1) p /\ forall n, q = Some n -> n ∈ F /\ tall ns (j - 1) n.
Proof.
  intros Hs Hb Hj Hj1. destruct (decide (j = sp_height s)) as [->|Hne].
  - exists head_, None. split_and!; [apply Hs|by apply (Hb (sp_height s)); [lia|apply Hs]|by eapply head_in_F| |done].
    eapply head_tall; [exact Hsh|]. pose proof (sh_max _ _ _ Hsh). pose proof (sf_height _ _ _ _ _ Hs). lia.
  - destruct (sf_levels _ _ _ _ _ Hs j ltac:(lia)) as (p & q & Hat & Hp & Ht & Hq). exists p, q.
    split_and!; [done|by apply (Hb j); [lia|]|done|eapply tall_down; [|done]; lia|].
    intros n En. destruct (Hq n En) as (? & _ & ?). split; [done|]. eapply tall_down; [|done]. lia.
Qed.

(** Replacing a level by the exact place keeps what is above valid. *)
Lemma set_exact s s' i : splice_from ns mh F s (i + 1) -> bracketed_from s (i + 1) ->
  sp_height s' = sp_height s -> length (sp_prev s') = length (sp_prev s) -> length (sp_next s') = length (sp_next s) ->
  (forall j p' q', j <> i -> at_level s' j p' q' <-> at_level s j p' q') -> exact s' i ->
  splice_from ns mh F s' i /\ bracketed_from s' i.
Proof.
  intros Hs Hb Eh El1 El2 Hoth Hex. pose proof (sf_height _ _ _ _ _ Hs) as Hh.
  destruct (exact_level _ _ Hex) as (pl & ql & Hatl & Hlev & Hbr). split.
  - split.
    + rewrite El1, El2. apply Hs.
    + lia.
    + rewrite Eh. apply Hoth; [lia|apply Hs].
    + intros j Hj. destruct (decide (j = i)) as [->|Hne]; [by exists pl, ql|].
      destruct (sf_levels _ _ _ _ _ Hs j ltac:(lia)) as (p & q & Hat & ?). exists p, q. split; [|done]. by apply Hoth.
    + intros j p q p' q' Hj Hat Hat'. destruct (decide (j = i)) as [->|Hne].
      * apply Hoth in Hat'; [|lia].
        destruct (bracketed_level s (i + 1) (i + 1) Hs Hb ltac:(lia) ltac:(lia)) as (p1 & q1 & Ha1 & Hb1 & Hp1 & Ht1 & Hq1).
        destruct (at_level_fun _ _ _ _ _ _ Ha1 Hat') as [<- <-]. rewrite Nat.add_sub in Ht1, Hq1.
        by apply (exact_mono s' i p q).
      * apply Hoth in Hat; [|lia]. apply Hoth in Hat'; [|lia]. eapply (sf_mono _ _ _ _ _ Hs j); [lia|done..].
  - intros j p q Hj Hat. destruct (decide (j = i)) as [->|Hne].
    + by destruct (at_level_fun _ _ _ _ _ _ Hat Hatl) as [-> ->].
    + apply Hoth in Hat; [|lia]. apply (Hb j); [lia|done].
Qed.

Lemma recompute_loop_ok i s : splice_from ns mh F s i -> bracketed_from s i ->
  exists s', recompute_loop compare ns k i s = Some s' /\ sp_height s' = sp_height s /\
    splice_from ns mh F s' 0 /\ bracketed_from s' 0 /\ (forall j, (j < i)%nat -> exact s' j).
Proof.
  assert (Hgen : forall i s, splice_from ns mh F s i -> bracketed_from s i ->
    exists s', recompute_loop compare ns k i s = Some s' /\ sp_height s' = sp_height s /\
      splice_from ns mh F s' 0 /\ bracketed_from s' 0 /\ (forall j, (j < i)%nat -> exact s' j) /\
      (forall j p q, (i <= j)%nat -> at_level s' j p q <-> at_level s j p q)).
  2:{ intros Hs Hb. destruct (Hgen i s Hs Hb) as (s' & ? & ? & ? & ? & ? & _). by exists s'. }
  clear i s. induction i as [|i IH]; intros s Hs Hb; cbn [recompute_loop].
  { exists s. split_and!; try done. lia. }
  pose proof (sf_height _ _ _ _ _ Hs) as Hh. pose proof (sh_max _ _ _ Hsh) as Hmax. pose proof (sf_room _ _ _ _ _ Hs) as [Hr1 Hr2].
  destruct (bracketed_level s (S i) (S i) Hs Hb ltac:(lia) ltac:(lia)) as (p & q & Hat & [Hbp Hbq] & Hp & Ht & Hq).
  cbn [Nat.sub] in Ht, Hq. rewrite Nat.sub_0_r in Ht, Hq.
  destruct (at_level_reads _ _ _ _ Hat) as [-> ->]. cbn [mbind option_bind].
  destruct (FindSplice_exact ns mh F k i true p q Hsh (Hlk i) (fun _ => Hlk (i - 1)%nat) Hp Hbp Ht Hbq) as (pl & -> & Hpl).
  cbn [mbind option_bind].
  destruct (set_splice_ok s i pl (head (filter (tall ns i) R))) as (s1 & -> & Eh & Hat1 & El1 & El2 & Hoth); [lia..|].
  cbn [mbind option_bind]. assert (Hex : exact s1 i) by (by exists pl). rewrite <- Nat.add_1_r in Hs, Hb.
  destruct (set_exact s s1 i Hs Hb Eh El1 El2 Hoth Hex) as [Hs1 Hb1].
  destruct (IH s1 Hs1 Hb1) as (s' & -> & Eh' & Hs' & Hb' & Hex' & Hsame). exists s'. split_and!; [done|congruence|done|done| |].
  - intros j Hj. destruct (decide (j = i)) as [->|Hne]; [|apply Hex'; lia]. destruct Hex as (p1 & Hp1 & Hat1').
    exists p1. split; [done|]. by apply Hsame.
  - intros j p1 q1 Hj. rewrite Hsame by lia. apply Hoth. lia.
Qed.

Lemma RecomputeSpliceLevels_ok i s : splice_from ns mh F s i -> (0 < i)%nat -> bracketed_from s i ->
  exists s', RecomputeSpliceLevels compare ns k s i = Some s' /\ sp_height s' = sp_height s /\
    splice_from ns mh F s' 0 /\ bracketed_from s' 0 /\ (forall j, (j < i)%nat -> exact s' j).
Proof.
  intros Hs Hi Hb. unfold RecomputeSpliceLevels. rewrite (assert_true (0 < i)%nat) by done. cbn [mbind option_bind].
  rewrite assert_true by (destruct (sf_height _ _ _ _ _ Hs); lia). cbn [mbind option_bind]. by apply recompute_loop_ok.
Qed.
End Position.

(** ** Linking a node *)

Lemma shape_raise ns mh mh' F : shape ns mh F -> (mh <= mh' <= kMaxHeight_)%nat -> (mh' <= kMaxPossibleHeight)%nat -> shape ns mh' F.
Proof.
  intros [H1 H2 H3 H4 H5 H6 H7] Hm Hp. split; try done; [|lia]. eapply Forall_impl; [done|]. cbn. intros p [|]; [by left|right; lia].
Qed.

Lemma splice_from_raise ns mh mh' F s i : splice_from ns mh F s i -> (mh <= mh')%nat -> splice_from ns mh' F s i.
Proof. intros [H1 H2 H3 H4 H5] Hm. split; try done. lia. Qed.

Lemma position_splice_ok sl F s partial k height :
  list_inv sl F -> splice_inv (nodes sl) (max_height_ sl) F s ->
  (1 <= height <= kMaxHeight_)%nat -> (height <= kMaxPossibleHeight)%nat ->
  exists mh s' r, position_splice compare sl k height s partial = Some (mh, s', r) /\
    (max_height_ sl <= mh)%nat /\ (height <= mh)%nat /\ shape (nodes sl) mh F /\ sp_height s' = mh /\
    splice_from (nodes sl) mh F s' 0 /\ bracketed_from (nodes sl) k s' 0 /\ (forall j, (j < r)%nat -> exact (nodes sl) F k s' j).
Proof.
  intros [Hsh0 Hlk] Hs Hh1 Hh2. unfold position_splice. cbv zeta.
  pose proof (sh_max _ _ _ Hsh0) as Hm1. pose proof (sh_possible _ _ _ Hsh0) as Hm2.
  set (mh := if bool_decide (max_height_ sl < height)%nat then height else max_height_ sl).
  assert (Hmh : (max_height_ sl <= mh <= kMaxHeight_)%nat /\ (height <= mh)%nat /\ (mh <= kMaxPossibleHeight)%nat).
  { unfold mh. case_bool_decide; lia. }
  clearbody mh.
  destruct Hmh as (Hmh1 & Hmh2 & Hmh3). pose proof (shape_raise _ _ mh _ Hsh0 Hmh1 Hmh3) as Hsh.
  rewrite (assert_true (mh <= kMaxPossibleHeight)%nat) by done. cbn [mbind option_bind].
  destruct (decide (sp_height s < mh)%nat) as [Hlt|Hge].
  - rewrite (bool_decide_eq_true_2 (sp_height s < mh)%nat) by done.
    assert (Hroom : (kMaxHeight_ < length (sp_prev s))%nat /\ (kMaxHeight_ < length (sp_next s))%nat).
    { destruct Hs as [(? & ? & _)|Hs]; [done|apply Hs]. }
    destruct (set_splice_ok s mh head_ None) as (s1 & -> & _ & Hat & El1 & El2 & _); [lia..|]. cbn [mbind option_bind].
    rewrite (assert_true (mh <= mh)%nat) by done. cbn [mbind option_bind]. rewrite (bool_decide_eq_true_2 (0 < mh)%nat) by lia.
    set (s2 := mkSplice mh (sp_prev s1) (sp_next s1)).
    assert (Hs2 : splice_from (nodes sl) mh F s2 mh).
    { split; cbn; [by rewrite El1, El2|lia|done|lia|lia]. }
    destruct (RecomputeSpliceLevels_ok _ _ _ Hsh Hlk k mh s2 Hs2) as (s' & -> & Eh & Hs' & Hb' & Hex); [lia| |].
    { by eapply (top_brackets _ _ _ _ s2). }
    exists mh, s', mh. split_and!; try done. lia.
  - rewrite (bool_decide_eq_false_2 (sp_height s < mh)%nat) by done. destruct Hs as [(_ & _ & ?)|Hs]; [lia|].
    pose proof (sf_height _ _ _ _ _ Hs) as Hh. pose proof (splice_from_raise _ _ mh _ _ _ Hs ltac:(lia)) as Hs1.
    destruct (bracket_loop_ok _ _ _ Hsh Hlk k s partial (mh + 1) 0 Hs1) as (r & -> & Hr & Hb); [lia..|].
    cbn [mbind option_bind]. rewrite (assert_true (r <= mh)%nat) by done. cbn [mbind option_bind].
    destruct (decide (0 < r)%nat) as [Hpos|Hz].
    + rewrite (bool_decide_eq_true_2 (0 < r)%nat) by done.
      destruct (RecomputeSpliceLevels_ok _ _ _ Hsh Hlk k r s) as (s' & -> & Eh & Hs' & Hb' & Hex); [|done..|].
      { eapply splice_from_up; [done|lia]. }
      exists mh, s', r. split_and!; try done; lia.
    + rewrite (bool_decide_eq_false_2 (0 < r)%nat) by done. exists mh, s, r. replace r with 0%nat in * by lia. split_and!; try done; lia.
Qed.

Lemma same_shape_filter_below ns ns' k (G : list nat) : same_shape ns ns' ->
  filter (below ns' k) G = filter (below ns k) G /\
  filter (fun p => ~ below ns' k p) G = filter (fun p => ~ below ns k p) G.
Proof. intros Hs. split; apply list_filter_iff; intros p; by rewrite (same_shape_below ns ns'). Qed.

Lemma exact_same ns ns' F k s i : same_shape ns ns' -> exact ns F k s i -> exact ns' F k s i.
Proof.
  intros Hs (p & Hp & Hat). exists p. destruct (same_shape_filter_below ns ns' k F Hs) as [-> ->].
  by rewrite !(same_shape_filter_tall ns ns').
Qed.

(** A level that is yet to be linked. *)
Definition waiting (ns : list Node) (F : list nat) (k : bytes) (r : nat) (s : Splice) (i : nat) : Prop :=
  (exists p q, at_level s i p q /\ level_ok ns F i p q /\ brackets ns k p q) /\ ((i < r)%nat -> exact ns F k s i).

Lemma waiting_same ns ns' F k r s i : same_shape ns ns' -> waiting ns F k r s i -> waiting ns' F k r s i.
Proof.
  intros Hs [(p & q & Hat & (Hp & Ht & Hq) & Hb1 & Hb2) Hex]. split; [|intros; by eapply exact_same, Hex].
  exists p, q. unfold level_ok, brackets. setoid_rewrite (same_shape_tall ns ns'); [|done..].
  setoid_rewrite (same_shape_below ns ns'); [|done..]. split_and!; try done.
Qed.

(** The splice that is not changed except at level [i], where it is exact. *)
Definition settled (ns : list Node) (F : list nat) (k : bytes) (s s' : Splice) (i : nat) : Prop :=
  sp_height s' = sp_height s /\ length (sp_prev s') = length (sp_prev s) /\ length (sp_next s') = length (sp_next s) /\
  (forall j p q, j <> i -> at_level s' j p q <-> at_level s j p q) /\ exact ns F k s' i.

Lemma refind_settled ns mh F k s i p q : shape ns mh F -> linked ns F i -> (i < length (sp_prev s))%nat -> (i < length (sp_next s))%nat ->
  level_ok ns F i p q -> brackets ns k p q ->
  exists p' q' s', FindSpliceForLevel compare ns false k p None i = Some (p', q') /\ set_splice s i p' q' = Some s' /\
    settled ns F k s s' i.
Proof.
  intros Hsh Hl H1 H2 (Hp & Ht & _) [Hb _].
  destruct (FindSplice_exact ns mh F k i false p None Hsh Hl) as (pl & E & Hpl); [done..|].
  destruct (set_splice_ok s i pl (head (filter (tall ns i) (filter (fun p => ~ below ns k p) F))) H1 H2)
    as (s' & E' & Eh & Hat & El1 & El2 & Hoth).
  eexists pl, _, s'. split; [exact E|]. split; [exact E'|]. split_and!; [done..|]. by exists pl.
Qed.

Lemma refresh_settled ns mh F k s i r : shape ns mh F -> linked ns F i -> (i < length (sp_prev s))%nat -> (i < length (sp_next s))%nat ->
  waiting ns F k r s i -> exists s', refresh_level compare ns k i r s = Some s' /\ settled ns F k s s' i.
Proof.
  intros Hsh Hl H1 H2 [(p & q & Hat & Hlev & Hbr) Hex]. unfold refresh_level.
  destruct (at_level_reads _ _ _ _ Hat) as [-> ->]. cbn [mbind option_bind].
  assert (Hsame : exact ns F k s i -> exists s', Some s = Some s' /\ settled ns F k s s' i) by (intros; by exists s).
  destruct (decide (r <= i)%nat) as [Hr|Hr].
  2:{ rewrite bool_decide_eq_false_2 by done. apply Hsame, Hex. lia. }
  rewrite bool_decide_eq_true_2 by done. pose proof Hlev as (Hp & Ht & _).
  apply list_elem_of_split in Hp as (F1 & F2 & EF). pose proof (Hl F1 p F2 EF Ht) as En. rewrite En. cbn [mbind option_bind].
  destruct (decide (head (filter (tall ns i) F2) = q)) as [Eq|Hne].
  - rewrite bool_decide_eq_true_2 by done. cbn. apply Hsame. rewrite Eq in En. by eapply tight_exact.
  - rewrite bool_decide_eq_false_2 by done. cbn [negb].
    destruct (refind_settled ns mh F k s i p q Hsh Hl H1 H2 Hlev Hbr) as (p' & q' & s' & -> & E' & Hset).
    cbn [mbind option_bind]. exists s'. done.
Qed.

(** No key of the list is equal to [k], or one is. *)
Definition fresh (ns : list Node) (F : list nat) (k : bytes) : Prop :=
  forall p, p ∈ F -> p <> head_ -> compare (nkey ns p) k <> 0.

Lemma assert_between_ok ns mh F k i p q : shape ns mh F -> level_ok ns F i p q -> brackets ns k p q ->
  (forall n, q = Some n -> compare (nkey ns n) k <> 0) -> assert_between compare ns k p q = Some tt.
Proof.
  intros Hsh (Hp & _ & Hq) [Hbp Hbq] Hne. unfold assert_between.
  assert (E1 : assert (match q with None => Some true | Some n => kn ← Key ns n; Some (compare k kn <? 0) end) = Some tt).
  { destruct q as [n|]; [|done]. destruct (Hq n eq_refl) as (HnF & Hnh & _). rewrite (Key_ok _ _ _ Hsh) by done. cbn.
    specialize (Hne n eq_refl). pose proof (pre_flip k (nkey ns n)) as Hfl.
    destruct (Z.ltb_spec (compare k (nkey ns n)) 0); [done|]. exfalso. apply (Hbq n eq_refl). right. lia. }
  rewrite E1. cbn [mbind option_bind]. destruct (Nat.eqb_spec p head_) as [|Hph]; [done|].
  rewrite (Key_ok _ _ _ Hsh) by done. cbn. destruct Hbp as [|Hbp]; [done|]. by rewrite (proj2 (Z.ltb_lt _ _) Hbp).
Qed.

Lemma duplicate_fresh ns mh F k i p q : shape ns mh F -> level_ok ns F i p q -> brackets ns k p q -> fresh ns F k ->
  duplicate compare ns k i p q = Some false.
Proof.
  intros Hsh (Hp & _ & Hq) [Hbp Hbq] Hf. unfold duplicate. destruct (i =? 0)%nat; [|done].
  assert (E1 : match q with None => Some false | Some n => kn ← Key ns n; Some (0 <=? compare k kn) end = Some false).
  { destruct q as [n|]; [|done]. destruct (Hq n eq_refl) as (HnF & Hnh & _). rewrite (Key_ok _ _ _ Hsh) by done. cbn. f_equal.
    apply Z.leb_gt. specialize (Hf n HnF Hnh). pose proof (pre_flip k (nkey ns n)).
    destruct (Z.lt_ge_cases (compare (nkey ns n) k) 0) as [Hlt|]; [|lia]. exfalso. apply (Hbq n eq_refl). by right. }
  rewrite E1. cbn [mbind option_bind]. destruct (Nat.eqb_spec p head_) as [|Hph]; [done|].
  rewrite (Key_ok _ _ _ Hsh) by done. cbn. destruct Hbp as [|Hbp]; [done|]. f_equal. apply Z.leb_gt. lia.
Qed.

(** At level 0 the exact place is next to an equal key, if there is one. *)
Lemma duplicate_found ns mh F k s p q : shape ns mh F -> exact ns F k s 0 -> at_level s 0 p q ->
  duplicate compare ns k 0 p q = Some false -> fresh ns F k.
Proof.
  intros Hsh (pl & _ & Hat) Hat' Hd y Hy Hyh Hc. destruct (at_level_fun _ _ _ _ _ _ Hat Hat') as [_ <-]. revert Hd.
  rewrite (R_tall_0 _ _ _ Hsh).
  assert (HyR : y ∈ filter (fun p => ~ below ns k p) F).
  { apply list_elem_of_filter. split; [|done]. intros [|]; [done|lia]. }
  rewrite (head_R_equal _ _ _ Hsh k y HyR Hc). cbn. rewrite (Key_ok _ _ _ Hsh y) by done. cbn.
  pose proof (pre_flip k (nkey ns y)). destruct (Z.leb_spec 0 (compare k (nkey ns y))); [done|lia].
Qed.

Lemma duplicate_total ns mh F k i p q : shape ns mh F -> level_ok ns F i p q -> exists d, duplicate compare ns k i p q = Some d.
Proof.
  intros Hsh (Hp & _ & Hq). unfold duplicate. destruct (i =? 0)%nat; [|by eexists]. rewrite (Key_ok _ _ _ Hsh p) by done.
  destruct q as [n|].
  - destruct (Hq n eq_refl) as (Hn & _). rewrite (Key_ok _ _ _ Hsh n) by done. cbn.
    destruct (0 <=? compare k (nkey ns n)); [by eexists|]. destruct (p =? head_)%nat; by eexists.
  - cbn. destruct (p =? head_)%nat; by eexists.
Qed.

(** What is not a duplicate at level 0 lies strictly between its neighbours. *)
Lemma no_duplicate_next ns mh F k p n : shape ns mh F -> n ∈ F -> duplicate compare ns k 0 p (Some n) = Some false ->
  compare (nkey ns n) k <> 0.
Proof.
  intros Hsh Hn. cbn. rewrite (Key_ok _ _ _ Hsh n) by done. cbn. pose proof (pre_flip (nkey ns n) k). pose proof (pre_flip k (nkey ns n)).
  destruct (Z.leb_spec 0 (compare k (nkey ns n))); [done|]. intros _. lia.
Qed.

(** What a linked level gives: the node is in the list at that level, the other
    levels are as they were. *)
Definition level_linked (ns ns' : list Node) (F : list nat) (k : bytes) (x i : nat) : Prop :=
  same_shape ns ns' /\
  linked ns' (filter (below ns k) F ++ x :: filter (fun p => ~ below ns k p) F) i /\
  (forall G n', n' <> i -> linked ns G n' -> linked ns' G n').

Section LinkLevel.
Context (ns : list Node) (mh : nat) (F : list nat) (k : bytes) (x i r : nat) (s : Splice).
Context (Hsh : shape ns mh F) (Hl : linked ns F i) (Hx : x ∉ F) (Hxk : Key ns x = Some k) (Hxt : tall ns i x).
Context (Hr1 : (i < length (sp_prev s))%nat) (Hr2 : (i < length (sp_next s))%nat) (Hw : waiting ns F k r s i).

Lemma exact_next s' p q : exact ns F k s' i -> at_level s' i p q -> Next ns p i = Some q.
Proof.
  intros (pl & Hpl & Hat) Hat'. destruct (at_level_fun _ _ _ _ _ _ Hat Hat') as [<- <-].
  assert (Hin : pl ∈ filter (below ns k) F /\ tall ns i pl) by (apply last_Some_elem_of, list_elem_of_filter in Hpl as [? ?]; done).
  destruct Hin as [Hin Hpt]. apply list_elem_of_split in Hin as (L1 & L2 & E).
  rewrite (Hl L1 pl (L2 ++ filter (fun p => ~ below ns k p) F)); [|by eapply L_split_F|done].
  assert (E2 : filter (tall ns i) L2 = []).
  { eapply (last_tall (tall ns i) _ L1 L2 pl pl); [|exact E|done|done|done].
    eapply NoDup_filter, F_nodup, Hsh. }
  by rewrite filter_app, E2.
Qed.

Lemma link_exact s' p q : exact ns F k s' i -> at_level s' i p q ->
  exists ns1 ns2, SetNext ns x i q = Some ns1 /\ SetNext ns1 p i (Some x) = Some ns2 /\ level_linked ns ns2 F k x i /\
    same_shape ns ns1 /\ Next ns1 p i = Some q.
Proof.
  intros Hex Hat. pose proof (exact_next s' p q Hex Hat) as En. destruct Hex as (pl & Hpl & Hat').
  destruct (at_level_fun _ _ _ _ _ _ Hat' Hat) as [<- <-].
  destruct (link_between ns F _ _ x pl i (shape_split _ _ _ Hsh k) (F_nodup _ _ _ Hsh) Hx Hl Hxt Hpl)
    as (ns1 & ns2 & E1 & E2 & Hs1 & Hs2 & Hl2 & Hn1 & Hoth).
  exists ns1, ns2. split_and!; [done|done|done|done|]. rewrite Hn1; [done|].
  intros ->. apply Hx. apply last_Some_elem_of, list_elem_of_filter in Hpl as [_ Hpl]. by apply list_elem_of_filter in Hpl as [_ ?].
Qed.

Lemma between_ok s' p q : at_level s' i p q -> level_ok ns F i p q -> brackets ns k p q -> fresh ns F k \/ i = 0%nat ->
  duplicate compare ns k i p q = Some false -> assert_between compare ns k p q = Some tt.
Proof.
  intros Hat Hlev Hbr Hf Hd. apply (assert_between_ok ns mh F k i); try done. intros n ->.
  destruct Hlev as (_ & _ & Hq). destruct (Hq n eq_refl) as (Hn & Hnh & _).
  destruct Hf as [Hf| ->]; [by apply Hf|]. by eapply no_duplicate_next.
Qed.

(** Without [UseCAS]: the key is found at level 0, or the node is linked. *)
Lemma link_level_ok : fresh ns F k \/ i = 0%nat ->
  (exists s', link_level compare ns k x i r s = Some (None, s') /\ i = 0%nat /\ ~ fresh ns F k /\ settled ns F k s s' i) \/
  (exists ns' s', link_level compare ns k x i r s = Some (Some ns', s') /\ (i = 0%nat -> fresh ns F k) /\
     level_linked ns ns' F k x i /\ settled ns F k s s' i).
Proof.
  intros Hf. destruct (refresh_settled ns mh F k s i r Hsh Hl Hr1 Hr2 Hw) as (s' & Es & Hset). unfold link_level.
  rewrite Es. cbn [mbind option_bind]. pose proof Hset as (_ & _ & _ & _ & Hex).
  destruct (exact_level _ _ _ _ _ Hex) as (p & q & Hat & Hlev & Hbr).
  destruct (at_level_reads _ _ _ _ Hat) as [-> ->]. cbn [mbind option_bind]. rewrite Hxk. cbn [mbind option_bind].
  destruct (duplicate_total ns mh F k i p q Hsh Hlev) as [d Ed]. rewrite Ed. cbn [mbind option_bind].
  assert (Hnf : d = true -> i = 0%nat /\ ~ fresh ns F k).
  { intros ->. split; [unfold duplicate in Ed; by destruct (Nat.eqb_spec i 0)|]. intros Hf'.
    by rewrite (duplicate_fresh ns mh F) in Ed. }
  destruct d; [left|right].
  { exists s'. destruct Hnf; done. }
  rewrite (between_ok s' p q) by done. cbn [mbind option_bind]. rewrite (exact_next s' p q Hex Hat). cbn [mbind option_bind].
  rewrite assert_true by done. cbn [mbind option_bind].
  destruct (link_exact s' p q Hex Hat) as (ns1 & ns2 & -> & E2 & Hll & _). cbn [mbind option_bind]. rewrite E2. cbn [mbind option_bind].
  exists ns2, s'. split_and!; try done. intros ->. by eapply duplicate_found.
Qed.

(** Only the link of [x] at level [i] may be different. *)
Definition touched (ns ns1 : list Node) : Prop :=
  same_shape ns ns1 /\ forall p' n', ~ (p' = x /\ n' = i) -> Next ns1 p' n' = Next ns p' n'.

Lemma touched_refl ns' : touched ns' ns'.
Proof. split; [split; [done|]; by intros|done]. Qed.

Lemma touched_linked ns1 G n' : touched ns ns1 -> x ∉ G \/ n' <> i -> linked ns G n' -> linked ns1 G n'.
Proof.
  intros [Hs Hn] Hor. apply linked_same; [done|]. intros p Hp. apply Hn. intros [-> ->]. by destruct Hor.
Qed.

(** One round with [UseCAS]: the key is found, the exchange succeeds, or the place
    is looked up again. *)
Lemma cas_round fuel valid : fresh ns F k \/ i = 0%nat ->
  (link_level_cas compare (S fuel) ns k x i s valid = Some (None, ns, s, valid) /\ i = 0%nat /\ ~ fresh ns F k) \/
  (exists ns', link_level_cas compare (S fuel) ns k x i s valid = Some (Some ns', ns', s, valid) /\
     (i = 0%nat -> fresh ns F k) /\ level_linked ns ns' F k x i /\ exact ns F k s i) \/
  (exists ns1 s' valid', link_level_cas compare (S fuel) ns k x i s valid = link_level_cas compare fuel ns1 k x i s' valid' /\
     touched ns ns1 /\ settled ns F k s s' i /\ ~ exact ns F k s i).
Proof.
  intros Hf. destruct Hw as [(p & q & Hat & Hlev & Hbr) _]. cbn [link_level_cas].
  destruct (at_level_reads _ _ _ _ Hat) as [-> ->]. cbn [mbind option_bind]. rewrite Hxk. cbn [mbind option_bind].
  destruct (duplicate_total ns mh F k i p q Hsh Hlev) as [d Ed]. rewrite Ed. cbn [mbind option_bind].
  destruct d; [left|right].
  { split_and!; [done|unfold duplicate in Ed; by destruct (Nat.eqb_spec i 0)|]. intros Hf'. by rewrite (duplicate_fresh ns mh F) in Ed. }
  rewrite (between_ok s p q) by done. cbn [mbind option_bind].
  destruct (SetNext_ok ns x i q Hxt) as (ns1 & E1 & Hs1 & Hn1). rewrite E1. cbn [mbind option_bind].
  assert (Htch : touched ns ns1) by (split; [done|]; intros p' n' Hne; by rewrite Hn1, decide_False).
  pose proof Hlev as (Hp & Hpt & _).
  assert (Hpx : p <> x) by (by intros ->). apply list_elem_of_split in Hp as Hp'. destruct Hp' as (F1 & F2 & EF).
  pose proof (Hl F1 p F2 EF Hpt) as En. unfold CASNext.
  assert (En1 : Next ns1 p i = Some (head (filter (tall ns i) F2))) by (by rewrite Hn1, decide_False by tauto). rewrite En1.
  cbn [mbind option_bind]. destruct (decide (head (filter (tall ns i) F2) = q)) as [Eq|Hne]; [left|right].
  - rewrite (bool_decide_eq_true_2 (_ = q)) by done. rewrite Eq in En.
    assert (Hex : exact ns F k s i) by (by eapply tight_exact).
    destruct (link_exact s p q Hex Hat) as (ns1' & ns2 & E1' & E2 & Hll & _). rewrite E1 in E1'. injection E1' as <-.
    rewrite E2. cbn [mbind option_bind]. exists ns2. split_and!; try done. intros ->. by eapply duplicate_found.
  - rewrite (bool_decide_eq_false_2 (_ = q)) by done. cbn [mbind option_bind].
    assert (Hl1 : linked ns1 F i) by (eapply touched_linked; [done|by left|done]).
    pose proof (same_shape_shape _ _ _ _ Hs1 Hsh) as Hsh1.
    destruct (waiting_same ns ns1 F k r s i Hs1 Hw) as [(p1 & q1 & Hat1 & Hlev1 & Hbr1) _].
    destruct (at_level_fun _ _ _ _ _ _ Hat1 Hat) as [-> ->].
    destruct (refind_settled ns1 mh F k s i p q Hsh1 Hl1 Hr1 Hr2 Hlev1 Hbr1) as (p' & q' & s' & E2 & E3 & Hset).
    rewrite E2. cbn [mbind option_bind]. rewrite E3. cbn [mbind option_bind]. eexists ns1, s', _. split; [done|].
    split_and!; [done| |].
    + destruct Hset as (? & ? & ? & ? & Hex). split_and!; [done..|]. eapply exact_same; [by apply same_shape_sym|done].
    + intros Hex. pose proof (exact_next s p q Hex Hat) as En'. congruence.
Qed.
End LinkLevel.

Section LinkLevels.
Context (F : list nat) (k : bytes) (x mh : nat) (Hx : x ∉ F).

Lemma same_shape_fresh ns ns' : same_shape ns ns' -> fresh ns F k <-> fresh ns' F k.
Proof. intros [_ Hk]. unfold fresh. split; intros Hf p Hp Hph; specialize (Hf p Hp Hph); destruct (Hk p) as [E _]; congruence. Qed.

(** What must hold to link a level. *)
Record ready (ns : list Node) (i r : nat) (s : Splice) : Prop := {
  rd_shape : shape ns mh F;
  rd_linked : linked ns F i;
  rd_key : Key ns x = Some k;
  rd_tall : tall ns i x;
  rd_room1 : (i < length (sp_prev s))%nat;
  rd_room2 : (i < length (sp_next s))%nat;
  rd_waiting : waiting ns F k r s i
}.

Lemma link_level_cas_ok ns i r s valid fuel : ready ns i r s -> fresh ns F k \/ i = 0%nat -> (1 < fuel)%nat ->
  (exists ns1 s' v', link_level_cas compare fuel ns k x i s valid = Some (None, ns1, s', v') /\ i = 0%nat /\ ~ fresh ns F k /\
     touched x i ns ns1 /\ (s' = s \/ settled ns F k s s' i)) \/
  (exists ns' s' v', link_level_cas compare fuel ns k x i s valid = Some (Some ns', ns', s', v') /\ (i = 0%nat -> fresh ns F k) /\
     level_linked ns ns' F k x i /\ settled ns F k s s' i).
Proof.
  intros [H1 H2 H3 H4 H5 H6 H7] Hf Hfuel. destruct fuel as [|[|fuel]]; [lia..|].
  destruct (cas_round ns mh F k x i r s H1 H2 Hx H3 H4 H5 H6 H7 (S fuel) valid Hf)
    as [(E & Hi & Hnf)|[(ns' & E & Hi & Hll & Hex)|(ns1 & s' & v' & E & Htch & Hset & Hnex)]]; rewrite E.
  - left. exists ns, s, valid. split_and!; first [done|apply touched_refl|by left].
  - right. by exists ns', s, valid.
  - pose proof Htch as [Hs1 _]. pose proof Hset as (Eh & El1 & El2 & Hoth & Hex).
    pose proof (exact_same _ _ _ _ _ _ Hs1 Hex) as Hex1. pose proof (same_shape_fresh _ _ Hs1) as Hfr.
    assert (Hr1 : ready ns1 i 0 s').
    { split; [by eapply same_shape_shape|eapply touched_linked; [done|by left|done]|by eapply same_shape_Key|
        by rewrite same_shape_tall|lia|lia|]. split; [by apply exact_level|lia]. }
    destruct Hr1 as [G1 G2 G3 G4 G5 G6 G7].
    destruct (cas_round ns1 mh F k x i 0 s' G1 G2 Hx G3 G4 G5 G6 G7 fuel v')
      as [(E1 & Hi & Hnf)|[(ns' & E1 & Hi & Hll & _)|(? & ? & ? & _ & _ & _ & Hnex1)]]; [by rewrite <- Hfr| | |done].
    + left. exists ns1, s', v'. rewrite Hfr. split_and!; try done. by right.
    + right. exists ns', s', v'. rewrite Hfr. split_and!; try done.
      destruct Hll as (Hs2 & Hl2 & Hoth2). destruct (same_shape_filter_below ns ns1 k F Hs1) as [Ef1 Ef2].
      rewrite Ef1, Ef2 in Hl2. split_and!; [by eapply same_shape_trans|done|].
      intros G n' Hne HG. apply Hoth2; [done|]. eapply touched_linked; [done|by right|done].
Qed.

Lemma link_levels_step UseCAS ns todo i r s valid : ready ns i r s -> fresh ns F k \/ i = 0%nat -> (0 < length ns)%nat ->
  (exists ns1 s' v', link_levels compare UseCAS ns k x (S todo) i r s valid = Some (false, ns1, s', v') /\ i = 0%nat /\
     ~ fresh ns F k /\ touched x i ns ns1 /\ (s' = s \/ settled ns F k s s' i)) \/
  (exists ns' s' v', link_levels compare UseCAS ns k x (S todo) i r s valid = link_levels compare UseCAS ns' k x todo (i + 1) r s' v' /\
     (i = 0%nat -> fresh ns F k) /\ level_linked ns ns' F k x i /\ settled ns F k s s' i).
Proof.
  intros Hr Hf Hlen. cbn [link_levels]. destruct UseCAS.
  - destruct (link_level_cas_ok ns i r s valid (length ns + 1) Hr Hf ltac:(lia)) as [(ns1 & s' & v' & -> & ?)|(ns' & s' & v' & -> & ?)].
    + left. by exists ns1, s', v'.
    + right. by exists ns', s', v'.
  - destruct Hr as [H1 H2 H3 H4 H5 H6 H7].
    destruct (link_level_ok ns mh F k x i r s H1 H2 Hx H3 H4 H5 H6 H7 Hf) as [(s' & -> & Hi & Hnf & Hset)|(ns' & s' & -> & ?)].
    + left. exists ns, s', valid. split_and!; first [done|apply touched_refl|by right].
    + right. by exists ns', s', valid.
Qed.

Lemma level_linked_exact ns ns' s s' i j : level_linked ns ns' F k x i -> settled ns F k s s' i ->
  exact ns F k s j \/ j = i -> exact ns' F k s' j.
Proof.
  intros (Hs & _) (_ & _ & _ & Hoth & Hex) Hj. apply (exact_same ns); [done|].
  destruct (decide (j = i)) as [->|Hne]; [done|]. destruct Hj as [(p & Hp & Hat)|]; [|done]. exists p. split; [done|]. by apply Hoth.
Qed.

(** The node goes into all the levels below its height. *)
Lemma link_levels_fresh UseCAS r F' todo ns i s valid : shape ns mh F -> Key ns x = Some k -> fresh ns F k ->
  F' = filter (below ns k) F ++ x :: filter (fun p => ~ below ns k p) F ->
  (i + todo <= levels ns x)%nat -> (i + todo <= length (sp_prev s))%nat -> (i + todo <= length (sp_next s))%nat ->
  (forall j, (j < i)%nat -> linked ns F' j /\ exact ns F k s j) -> (forall j, (i <= j)%nat -> linked ns F j) ->
  (forall j, (i <= j < i + todo)%nat -> waiting ns F k r s j) ->
  exists ns' s' valid', link_levels compare UseCAS ns k x todo i r s valid = Some (true, ns', s', valid') /\ same_shape ns ns' /\
    (forall j, (j < i + todo)%nat -> linked ns' F' j /\ exact ns' F k s' j) /\ (forall j, (i + todo <= j)%nat -> linked ns' F j) /\
    (forall j p q, (i + todo <= j)%nat -> at_level s' j p q <-> at_level s j p q) /\
    sp_height s' = sp_height s /\ length (sp_prev s') = length (sp_prev s) /\ length (sp_next s') = length (sp_next s).
Proof.
  revert ns i s valid. induction todo as [|todo IH]; intros ns i s valid Hsh Hxk Hf EF' Hlev Hr1 Hr2 Hdone Hrest Hwait.
  { rewrite Nat.add_0_r in *. exists ns, s, valid. split_and!; try done; by intros. }
  assert (Hready : ready ns i r s).
  { split; [done|by apply Hrest|done|unfold tall; lia|lia|lia|apply Hwait; lia]. }
  assert (Hlen : (0 < length ns)%nat) by (pose proof (sh_alloc _ _ _ Hsh) as Ha; rewrite Forall_forall in Ha; specialize (Ha head_ (head_in_F _ _ _ Hsh)); lia).
  destruct (link_levels_step UseCAS ns todo i r s valid Hready (or_introl Hf) Hlen)
    as [(ns1 & s1 & v1 & _ & _ & Hnf & _)|(ns1 & s1 & v1 & -> & _ & Hll & Hset)]; [done|].
  pose proof Hll as (Hs1 & Hl1 & Hoth1). pose proof Hset as (Eh & El1 & El2 & Hoth & _).
  destruct (same_shape_filter_below ns ns1 k F Hs1) as [Ef1 Ef2].
  destruct (IH ns1 (i + 1)%nat s1 v1) as (ns' & s' & v' & -> & Hs' & Hd' & Hr' & Ha' & Eh' & El1' & El2').
  - by eapply same_shape_shape.
  - by eapply same_shape_Key.
  - by apply (same_shape_fresh ns).
  - by rewrite Ef1, Ef2.
  - destruct Hs1 as [_ Hs1]. destruct (Hs1 x) as [_ ->]. lia.
  - lia.
  - lia.
  - intros j Hj. destruct (decide (j = i)) as [->|Hne].
    + split; [by rewrite EF'|]. eapply level_linked_exact; [done..|by right].
    + destruct (Hdone j ltac:(lia)). split; [by apply Hoth1|]. eapply level_linked_exact; [done..|by left].
  - intros j Hj. apply Hoth1; [lia|]. apply Hrest. lia.
  - intros j Hj. apply (waiting_same ns); [done|]. destruct (Hwait j ltac:(lia)) as [(p & q & Hat & ?) Hex]. split.
    + exists p, q. split; [|done]. apply Hoth; [lia|done].
    + intros Hjr. destruct (Hex Hjr) as (p1 & Hp1 & Hat1). exists p1. split; [done|]. apply Hoth; [lia|done].
  - replace (i + 1 + todo)%nat with (i + S todo)%nat in * by lia. exists ns', s', v'.
    split_and!; try done; [by eapply same_shape_trans| |congruence..]. intros j p q Hj. rewrite Ha' by done. apply Hoth. lia.
Qed.
End LinkLevels.

(** ** Insert *)

Lemma linked_skip ns A B x j : ~ tall ns j x -> linked ns (A ++ B) j -> linked ns (A ++ x :: B) j.
Proof.
  intros Hx Hl G1 y G2 E Hy. apply app_eq_inv in E as [(K & EA & EK)|(K & EA & EK)].
  - destruct K as [|z K]; cbn in EK; injection EK as -> ->; [done|].
    rewrite (Hl G1 z (K ++ B)) by (done || by rewrite EA, <- app_assoc).
    by rewrite !filter_app, (filter_cons_False _ x) by done.
  - destruct K as [|z K]; cbn in EK; injection EK as <- EB; [done|].
    apply (Hl (A ++ K) y G2); [|done]. by rewrite EB, <- app_assoc.
Qed.

Section InsertNode.
Context (ns : list Node) (mh : nat) (F : list nat) (k : bytes) (x : nat).
Context (Hsh : shape ns mh F) (Hx : x ∉ F) (Hxk : Key ns x = Some k) (Hf : fresh ns F k).
Context (Hxl : (1 <= levels ns x <= mh)%nat).

Abbreviation L := (filter (below ns k) F).
Abbreviation R := (filter (fun p => ~ below ns k p) F).

Lemma x_not_head : x <> head_.
Proof. intros ->. apply Hx. by eapply head_in_F. Qed.

Lemma x_key : nkey ns x = k.
Proof. unfold nkey. by rewrite Hxk. Qed.

Lemma before_x p : p ∈ F -> below ns k p -> node_lt ns p x.
Proof. intros Hp Hb. split; [apply x_not_head|]. rewrite x_key. done. Qed.

Lemma after_x p : p ∈ F -> ~ below ns k p -> node_lt ns x p.
Proof.
  intros Hp Hb. assert (Hph : p <> head_) by (intros ->; apply Hb; by left). split; [done|]. right. rewrite x_key.
  specialize (Hf p Hp Hph). pose proof (pre_flip k (nkey ns p)).
  destruct (Z.lt_ge_cases (compare (nkey ns p) k) 0); [|lia]. exfalso. apply Hb. by right.
Qed.

Lemma shape_insert : shape ns mh (L ++ x :: R).
Proof.
  pose proof (sh_sorted _ _ _ Hsh) as Hs. destruct (L_starts _ _ _ Hsh k) as (L2 & EL & _). destruct Hsh as [H1 H2 H3 H4 H5 H6 H7].
  assert (Hin : forall P : nat -> Prop, P x -> Forall P F -> Forall P (L ++ x :: R)).
  { intros P HPx HP. rewrite Forall_forall in HP. apply Forall_app. split; [|constructor; [done|]]; apply Forall_forall;
      intros p Hp; apply HP; by apply list_elem_of_filter in Hp as [_ ?]. }
  split; try done.
  - by rewrite EL.
  - apply Hin; [|done]. unfold Key in Hxk. destruct (ns !! x) eqn:E; [|done]. by eapply lookup_lt_Some.
  - apply Hin; [by right|done].
  - apply StronglySorted_app. split_and!; [|by apply sorted_filter|constructor; [by apply sorted_filter|]].
    + intros p q Hp Hq. apply list_elem_of_filter in Hp as [Hpb Hp]. apply elem_of_cons in Hq as [->|Hq]; [by apply before_x|].
      apply list_elem_of_filter in Hq as [Hqb Hq]. eapply node_lt_trans; [by apply before_x|by apply after_x].
    + apply Forall_forall. intros q Hq. apply list_elem_of_filter in Hq as [Hqb Hq]. by apply after_x.
Qed.

Lemma in_insert p : p ∈ F -> p ∈ L ++ x :: R.
Proof.
  intros Hp. apply elem_of_app. destruct (decide (below ns k p)); [left|right; right]; by apply list_elem_of_filter.
Qed.

(** The splice after the insertion: the node at the levels where it was linked. *)
Lemma splice_insert s0 s height : (height <= sp_height s0)%nat -> (height <= levels ns x)%nat ->
  splice_from ns mh F s0 0 -> bracketed_from ns k s0 0 ->
  sp_height s = sp_height s0 -> length (sp_prev s) = length (sp_prev s0) -> length (sp_next s) = length (sp_next s0) ->
  (forall j, (j < height)%nat -> at_level s j x (head (filter (tall ns j) R))) ->
  (forall j p q, (height <= j)%nat -> at_level s j p q <-> at_level s0 j p q) ->
  splice_from ns mh (L ++ x :: R) s 0 /\
  forall j p q, (j < sp_height s)%nat -> at_level s j p q -> (p = x \/ node_lt ns p x) /\ forall n, q = Some n -> node_lt ns x n.
Proof.
  intros Hh Hhl Hs0 Hb0 Eh El1 El2 Hlow Hhigh. pose proof (sf_height _ _ _ _ _ Hs0) as Hh0.
  assert (HR : forall j n, head (filter (tall ns j) R) = Some n -> n ∈ F /\ ~ below ns k n /\ tall ns j n).
  { intros j n Hn. apply head_Some_elem_of, list_elem_of_filter in Hn as [? Hn]. apply list_elem_of_filter in Hn as [? ?]. done. }
  assert (Hlev0 : forall j p q, (height <= j < sp_height s0)%nat -> at_level s j p q -> level_ok ns F j p q /\ brackets ns k p q).
  { intros j p q Hj Hat. apply Hhigh in Hat; [|lia]. destruct (sf_levels _ _ _ _ _ Hs0 j ltac:(lia)) as (p1 & q1 & Hat1 & Hl1).
    destruct (at_level_fun _ _ _ _ _ _ Hat Hat1) as [-> ->]. split; [done|]. apply (Hb0 j); [lia|done]. }
  split; [split|].
  - rewrite El1, El2. apply Hs0.
  - lia.
  - rewrite Eh. apply Hhigh; [done|]. apply Hs0.
  - intros j Hj. destruct (decide (j < height)%nat) as [Hlt|Hge].
    + eexists x, _. split; [by apply Hlow|]. split_and!; [apply elem_of_app; right; by left|unfold tall; lia|].
      intros n Hn. destruct (HR j n Hn) as (Hn1 & Hn2 & Hn3). split_and!; [by apply in_insert| |done].
      intros ->. apply Hn2. by left.
    + destruct (sf_levels _ _ _ _ _ Hs0 j ltac:(lia)) as (p & q & Hat & Hp & Ht & Hq). exists p, q.
      split; [by apply Hhigh; [lia|]|]. split_and!; [by apply in_insert|done|]. intros n Hn. destruct (Hq n Hn) as (? & ? & ?).
      split_and!; [by apply in_insert|done|done].
  - intros j p q p' q' Hj Hat Hat'. destruct (decide (j < height)%nat) as [Hlt|Hge].
    + destruct (at_level_fun _ _ _ _ _ _ (Hlow j Hlt) Hat) as [<- <-].
      destruct (decide (j + 1 < height)%nat) as [Hlt'|Hge'].
      * destruct (at_level_fun _ _ _ _ _ _ (Hlow (j + 1)%nat Hlt') Hat') as [<- <-]. split; [by left|].
        eapply head_next_le; [exact Hsh|]. intros n Hn. destruct (HR _ n Hn) as (? & ? & ?). split_and!; [done..|].
        eapply tall_down; [|done]. lia.
      * apply Hhigh in Hat'; [|lia].
        destruct (bracketed_level _ _ _ Hsh k s0 0 (j + 1) Hs0 Hb0 ltac:(lia) ltac:(lia)) as (p1 & q1 & Ha1 & [Hb1 Hb2] & Hp1 & Ht1 & Hq1).
        destruct (at_level_fun _ _ _ _ _ _ Ha1 Hat') as [<- <-]. rewrite Nat.add_sub in Ht1, Hq1. split.
        -- right. by apply before_x.
        -- eapply head_next_le; [exact Hsh|]. intros n Hn. destruct (Hq1 n Hn). split_and!; [done|by apply Hb2|done].
    + apply Hhigh in Hat; [|lia]. apply Hhigh in Hat'; [|lia]. eapply (sf_mono _ _ _ _ _ Hs0 j); [lia|done..].
  - intros j p q Hj Hat. destruct (decide (j < height)%nat) as [Hlt|Hge].
    + destruct (at_level_fun _ _ _ _ _ _ (Hlow j Hlt) Hat) as [<- <-]. split; [by left|]. intros n Hn.
      destruct (HR j n Hn) as (? & ? & _). by apply after_x.
    + destruct (Hlev0 j p q ltac:(lia) Hat) as [(Hp & _ & Hq) [Hb1 Hb2]]. split; [right; by apply before_x|].
      intros n Hn. destruct (Hq n Hn) as (? & _). apply after_x; [done|by apply Hb2].
Qed.
End InsertNode.

Lemma set_prevs_ok x todo i s : (i + todo <= length (sp_prev s))%nat -> (i + todo <= length (sp_next s))%nat ->
  (forall j, (i <= j < i + todo)%nat -> exists p q, at_level s j p q) ->
  exists s', set_prevs s x todo i = Some s' /\ sp_height s' = sp_height s /\
    length (sp_prev s') = length (sp_prev s) /\ length (sp_next s') = length (sp_next s) /\
    (forall j p q, (i <= j < i + todo)%nat -> at_level s j p q -> at_level s' j x q) /\
    (forall j p q, (j < i \/ i + todo <= j)%nat -> at_level s' j p q <-> at_level s j p q).
Proof.
  revert i s. induction todo as [|todo IH]; intros i s H1 H2 Hl; cbn [set_prevs].
  { exists s. split_and!; try done; lia. }
  destruct (Hl i ltac:(lia)) as (p & q & Hat). destruct (at_level_reads _ _ _ _ Hat) as [_ ->]. cbn [mbind option_bind].
  destruct (set_splice_ok s i x q) as (s1 & -> & Eh & Hat1 & El1 & El2 & Hoth); [lia..|]. cbn [mbind option_bind].
  destruct (IH (i + 1)%nat s1) as (s' & -> & Eh' & El1' & El2' & Hin & Hout); [lia..| |].
  { intros j Hj. destruct (Hl j ltac:(lia)) as (p1 & q1 & Ha1). exists p1, q1. apply Hoth; [lia|done]. }
  exists s'. split_and!; [done|congruence..| |].
  - intros j p1 q1 Hj Ha. destruct (decide (j = i)) as [->|Hne].
    + destruct (at_level_fun _ _ _ _ _ _ Ha Hat) as [-> ->]. apply Hout; [lia|done].
    + apply (Hin j p1); [lia|]. apply Hoth; [done|done].
  - intros j p1 q1 Hj. rewrite Hout by lia. apply Hoth. lia.
Qed.

(** The assertions at the end of [Insert]. *)
Lemma assert_splice_ok ns mh F s x k todo i : shape ns mh F -> splice_from ns mh F s 0 -> (i + todo <= sp_height s)%nat ->
  x ∈ F -> nkey ns x = k -> x <> head_ ->
  (forall j p q, (j < sp_height s)%nat -> at_level s j p q -> (p = x \/ node_lt ns p x) /\ forall n, q = Some n -> node_lt ns x n) ->
  assert_splice compare ns k s todo i = Some tt.
Proof.
  intros Hsh Hs Hh Hx Ek Hxh Hpos. revert i Hh. induction todo as [|todo IH]; intros i Hh; [done|]. cbn [assert_splice].
  assert (Hread : forall j, (j <= sp_height s)%nat -> exists p q, at_level s j p q /\ p ∈ F /\ forall n, q = Some n -> n ∈ F).
  { intros j Hj. destruct (decide (j = sp_height s)) as [->|Hne].
    - exists head_, None. split_and!; [apply Hs|by eapply head_in_F|done].
    - destruct (sf_levels _ _ _ _ _ Hs j ltac:(lia)) as (p & q & Hat & Hp & _ & Hq). exists p, q. split_and!; [done..|].
      intros n Hn. by destruct (Hq n Hn). }
  destruct (Hread i ltac:(lia)) as (p & q & Hat & Hp & Hq), (Hread (i + 1)%nat ltac:(lia)) as (p' & q' & Hat' & Hp' & Hq').
  destruct (at_level_reads _ _ _ _ Hat) as [-> ->], (at_level_reads _ _ _ _ Hat') as [-> ->]. cbn [mbind option_bind].
  destruct (Hpos i p q ltac:(lia) Hat) as [Hpx Hqx].
  destruct (sf_mono _ _ _ _ _ Hs i p q p' q' ltac:(lia) Hat Hat') as [Hpp Hqq].
  assert (E1 : assert (match q with None => Some true | Some n => kn ← Key ns n; Some (compare k kn <? 0) end) = Some tt).
  { destruct q as [n|]; [|done]. rewrite (Key_ok _ _ _ Hsh n) by (by apply Hq). cbn. destruct (Hqx n eq_refl) as [_ [|Hlt]]; [done|].
    rewrite Ek in Hlt. by rewrite (proj2 (Z.ltb_lt _ _) Hlt). }
  assert (E2 : assert (if (p =? head_)%nat then Some true else kp ← Key ns p; Some (compare kp k <=? 0)) = Some tt).
  { destruct (Nat.eqb_spec p head_); [done|]. rewrite (Key_ok _ _ _ Hsh p) by done. cbn.
    enough (Hle : compare (nkey ns p) k <= 0) by (by rewrite (proj2 (Z.leb_le _ _) Hle)).
    destruct Hpx as [->|[_ [|Hlt]]]; [rewrite Ek, pre_refl by done; lia|done|rewrite Ek in Hlt; lia]. }
  assert (E3 : assert (if (p' =? p)%nat || (p' =? head_)%nat then Some true
                  else kp' ← Key ns p'; kp ← Key ns p; Some (compare kp' kp <? 0)) = Some tt).
  { destruct (Nat.eqb_spec p' p); [done|]. destruct (Nat.eqb_spec p' head_); [done|]. cbn [orb].
    rewrite (Key_ok _ _ _ Hsh p'), (Key_ok _ _ _ Hsh p) by done. cbn. destruct Hpp as [|[_ [|Hlt]]]; [done|done|].
    by rewrite (proj2 (Z.ltb_lt _ _) Hlt). }
  assert (E4 : assert (if bool_decide (q' = q) then Some true
                  else match q' with
                       | None => Some true
                       | Some n' => n ← q; kn ← Key ns n; kn' ← Key ns n'; Some (compare kn kn' <? 0)
                       end) = Some tt).
  { case_bool_decide as Hne; [done|]. destruct q' as [n'|]; [|done]. destruct (Hqq n' eq_refl) as (n & -> & Hle). cbn [mbind option_bind].
    rewrite (Key_ok _ _ _ Hsh n), (Key_ok _ _ _ Hsh n') by auto. cbn. destruct Hle as [->|[_ [->|Hlt]]]; [done| |].
    - by destruct (Hqx head_ eq_refl).
    - by rewrite (proj2 (Z.ltb_lt _ _) Hlt). }
  rewrite E1, E2, E3, E4. cbn [mbind option_bind]. apply IH. lia.
Qed.

Lemma same_shape_splice_from ns ns' mh F s i : same_shape ns ns' -> splice_from ns mh F s i -> splice_from ns' mh F s i.
Proof.
  intros Hss [H1 H2 H3 H4 H5]. split; try done.
  - intros j Hj. destruct (H4 j Hj) as (p & q & Hat & Hp & Ht & Hq). exists p, q. split; [done|].
    split_and!; [done|by rewrite (same_shape_tall ns)|]. intros n Hn. destruct (Hq n Hn) as (? & ? & ?).
    split_and!; [done..|by rewrite (same_shape_tall ns)].
  - intros j p q p' q' Hj Hat Hat'. destruct (H5 j p q p' q' Hj Hat Hat') as [Hp Hq]. destruct Hss as [_ Hk].
    assert (Hle : forall a b, node_le ns a b -> node_le ns' a b).
    { unfold node_le, node_lt. intros a b. by destruct (Hk a) as [-> _], (Hk b) as [-> _]. }
    split; [by apply Hle|]. intros n' Hn'. destruct (Hq n' Hn') as (n & -> & Hn). exists n. split; [done|]. by apply Hle.
Qed.

Lemma same_shape_node_lt ns ns' p q : same_shape ns ns' -> node_lt ns p q -> node_lt ns' p q.
Proof. intros [_ Hk]. unfold node_lt. by destruct (Hk p) as [-> _], (Hk q) as [-> _]. Qed.

Lemma fresh_dec ns F k : fresh ns F k \/ ~ fresh ns F k.
Proof.
  destruct (decide (Forall (fun p => p = head_ \/ compare (nkey ns p) k <> 0) F)) as [Hf|Hf]; [left|right].
  - intros p Hp Hph. rewrite Forall_forall in Hf. by destruct (Hf p Hp).
  - intros Hfr. apply Hf, Forall_forall. intros p Hp. destruct (decide (p = head_)); [by left|right; by apply Hfr].
Qed.

Section InsertAt.
Context (UseCAS : bool) (sl : InlineSkipList) (F : list nat) (x : nat) (k : bytes) (height mh r : nat) (s0 : Splice).
Context (Hi : list_inv sl F) (Hx : x ∉ F) (Hxk : Key (nodes sl) x = Some k) (Hlev : levels (nodes sl) x = height).
Context (Hh1 : (1 <= height <= kMaxHeight_)%nat) (Hhm : (height <= mh)%nat) (Hsh : shape (nodes sl) mh F).
Context (Eh0 : sp_height s0 = mh) (Hs0 : splice_from (nodes sl) mh F s0 0) (Hb0 : bracketed_from (nodes sl) k s0 0).
Context (Hex0 : forall j, (j < r)%nat -> exact (nodes sl) F k s0 j).

Lemma all_waiting j : (0 <= j < height)%nat -> waiting (nodes sl) F k r s0 j.
Proof.
  intros Hj. split; [|by apply Hex0]. destruct (sf_levels _ _ _ _ _ Hs0 j ltac:(lia)) as (p & q & Hat & Hok).
  exists p, q. split_and!; [done..|]. apply (Hb0 j); [lia|done].
Qed.

Lemma insert_duplicate : ~ fresh (nodes sl) F k ->
  exists ns' s' v, link_levels compare UseCAS (nodes sl) k x height 0 r s0 true = Some (false, ns', s', v) /\
    list_inv (mkSkipList ns' mh) F /\ splice_inv ns' mh F s' /\ same_shape (nodes sl) ns'.
Proof.
  intros Hnf. pose proof (sf_room _ _ _ _ _ Hs0) as [Hr1 Hr2]. pose proof (li_linked _ _ Hi) as Hlk.
  assert (Hready : ready F k x mh (nodes sl) 0 r s0).
  { split; [done|done|done|unfold tall; lia|lia|lia|]. apply all_waiting. lia. }
  assert (Hlen : (0 < length (nodes sl))%nat) by (pose proof (F_length _ _ _ Hsh); pose proof (head_in_F _ _ _ Hsh) as Hin;
    apply list_elem_of_lookup_1 in Hin as [j Hj]; apply lookup_lt_Some in Hj; lia).
  replace height with (S (height - 1)) by lia.
  destruct (link_levels_step F k x mh Hx UseCAS (nodes sl) (height - 1) 0 r s0 true Hready (or_intror eq_refl) Hlen)
    as [(ns1 & s' & v' & -> & _ & _ & Htch & Hs')|(ns1 & s' & v' & _ & Hf & _)]; [|by destruct Hnf; apply Hf].
  pose proof Htch as [Hss _]. exists ns1, s', v'. split; [done|]. split_and!; [split|..].
  - by eapply same_shape_shape.
  - intros l. eapply touched_linked; [done|by left|apply Hlk].
  - right. eapply same_shape_splice_from; [done|]. destruct Hs' as [->|(Eh & El1 & El2 & Hoth & Hex)]; [done|].
    destruct (set_exact (nodes sl) mh F Hsh k s0 s' 0) as [? _]; try done.
    + eapply splice_from_up; [done|lia].
    + intros j p q Hj. apply Hb0. lia.
  - done.
Qed.

Lemma insert_fresh : fresh (nodes sl) F k ->
  let F' := filter (below (nodes sl) k) F ++ x :: filter (fun p => ~ below (nodes sl) k p) F in
  exists ns' s1 v, link_levels compare UseCAS (nodes sl) k x height 0 r s0 true = Some (true, ns', s1, v) /\
    list_inv (mkSkipList ns' mh) F' /\ same_shape (nodes sl) ns' /\
    sp_height s1 = mh /\ length (sp_prev s1) = length (sp_prev s0) /\ length (sp_next s1) = length (sp_next s0) /\
    exists s2, set_prevs s1 x height 0 = Some s2 /\ splice_from ns' mh F' s2 0 /\ sp_height s2 = mh /\
      assert_splice compare ns' k s2 mh 0 = Some tt.
Proof.
  intros Hf F'. pose proof (sf_room _ _ _ _ _ Hs0) as [Hr1 Hr2]. pose proof (li_linked _ _ Hi) as Hlk.
  destruct (link_levels_fresh F k x mh Hx UseCAS r F' height (nodes sl) 0 s0 true Hsh Hxk Hf eq_refl)
    as (ns' & s1 & v & E & Hss & Hlow & Hhigh & Hsame & Eh & El1 & El2); [lia..|by intros; apply Hlk|apply all_waiting|].
  exists ns', s1, v. split; [done|]. cbn [Nat.add] in *.
  assert (Hsh' : shape ns' mh F').
  { eapply same_shape_shape; [done|]. apply shape_insert; try done. lia. }
  split_and!; [split; [done|]|done|congruence|done|done|].
  - intros l. destruct (decide (l < height)%nat) as [Hlt|Hge]; [by apply Hlow|]. apply linked_skip.
    + rewrite (same_shape_tall (nodes sl)) by done. unfold tall. lia.
    + rewrite <- (shape_split _ _ _ Hsh k). apply Hhigh. lia.
  - assert (Hat1 : forall j, (j < height)%nat -> exists p, at_level s1 j p (head (filter (tall (nodes sl) j) (filter (fun p => ~ below (nodes sl) k p) F)))).
    { intros j Hj. destruct (Hlow j Hj) as [_ Hex]. apply same_shape_sym in Hss as Hss'.
      destruct (exact_same _ _ _ _ _ _ Hss' Hex) as (p & _ & Hat). by exists p. }
    destruct (set_prevs_ok x height 0 s1) as (s2 & E2 & Eh2 & El1' & El2' & Hin & Hout); [lia..| |].
    { intros j Hj. destruct (Hat1 j ltac:(lia)) as [p Hat]. eauto. }
    destruct (splice_insert (nodes sl) mh F k x Hsh Hx Hxk Hf ltac:(lia) s0 s2 height) as [Hs2 Hpos]; try done; try lia; try congruence.
    { intros j Hj. destruct (Hat1 j Hj) as [p Hat]. apply (Hin j p); [lia|done]. }
    { intros j p q Hj. rewrite Hout by lia. apply Hsame. lia. }
    exists s2. split_and!; [done|by eapply same_shape_splice_from|congruence|].
    apply (assert_splice_ok ns' mh F' s2 x k mh 0); try done; try lia.
    + by eapply same_shape_splice_from.
    + apply elem_of_app. right. by left.
    + destruct Hss as [_ Hk]. destruct (Hk x) as [-> _]. by apply x_key.
    + intros ->. apply Hx. by eapply head_in_F.
    + intros j p q Hj Hat. destruct (Hpos j p q Hj Hat) as [Hp Hq]. split.
      * destruct Hp; [by left|right]. by eapply same_shape_node_lt.
      * intros n Hn. eapply same_shape_node_lt; [done|]. by apply Hq.
Qed.
End InsertAt.

(** A key that is not in the list is added at its place; nothing changes for one that
    is. *)
Lemma Insert_at_ok UseCAS sl F s partial x k height :
  list_inv sl F -> splice_inv (nodes sl) (max_height_ sl) F s -> x ∉ F ->
  Key (nodes sl) x = Some k -> UnstashHeight (nodes sl) x = Some height -> levels (nodes sl) x = height ->
  (1 <= height <= kMaxHeight_)%nat -> (height <= kMaxPossibleHeight)%nat ->
  exists b sl' s' F', Insert_at compare kMaxHeight_ UseCAS sl x s partial = Some (b, sl', s') /\
    list_inv sl' F' /\ splice_inv (nodes sl') (max_height_ sl') F' s' /\ same_shape (nodes sl) (nodes sl') /\
    (max_height_ sl <= max_height_ sl')%nat /\
    ((b = true /\ fresh (nodes sl) F k /\
      F' = filter (below (nodes sl) k) F ++ x :: filter (fun p => ~ below (nodes sl) k p) F) \/
     (b = false /\ ~ fresh (nodes sl) F k /\ F' = F)).
Proof.
  intros Hi Hs Hx Hxk Hst Hlev Hh1 Hh2. unfold Insert_at. rewrite Hxk, Hst. cbn [mbind option_bind].
  rewrite assert_true by done. cbn [mbind option_bind].
  destruct (position_splice_ok sl F s partial k height Hi Hs Hh1 Hh2) as (mh & s0 & r & -> & Hmm & Hhm & Hsh & Eh0 & Hs0 & Hb0 & Hex0).
  cbn [mbind option_bind]. destruct (fresh_dec (nodes sl) F k) as [Hf|Hnf].
  - destruct (insert_fresh UseCAS sl F x k height mh r s0 Hi Hx Hxk Hlev Hh1 Hhm Hsh Eh0 Hs0 Hb0 Hex0 Hf)
      as (ns' & s1 & v & -> & Hi' & Hss & Eh1 & El1 & El2 & s2 & E2 & Hs2 & Eh2 & Ea). cbn [mbind option_bind].
    destruct v.
    + rewrite E2. cbn [mbind option_bind]. destruct (at_level_reads _ _ _ _ (sf_top _ _ _ _ _ Hs2)) as [-> ->].
      cbn [mbind option_bind assert Nat.eqb head_]. rewrite bool_decide_eq_true_2 by done. cbn [mbind option_bind].
      rewrite Eh2, Ea. cbn [mbind option_bind]. eexists true, _, s2, _. split; [done|]. split_and!; [exact Hi'|by right|done|done|by left].
    + eexists true, _, _, _. split; [done|]. split_and!; [exact Hi'| |done|done|by left]. left. cbn.
      destruct (sf_room _ _ _ _ _ Hs0) as [? ?]. split_and!; [lia|lia|done].
  - destruct (insert_duplicate UseCAS sl F x k height mh r s0 Hi Hx Hxk Hlev Hh1 Hhm Hsh Eh0 Hs0 Hb0 Hex0 Hnf)
      as (ns' & s' & v & -> & Hi' & Hs' & Hss). cbn [mbind option_bind].
    eexists false, _, s', F. split; [done|]. split_and!; try done. by right.
Qed.

(** ** What is seen from outside: the sorted list of keys *)

(** A key goes to its place, unless an equal one is there. *)
Definition sorted_insert (l : list bytes) (k : bytes) : bool * list bytes :=
  if bool_decide (Exists (fun k' => compare k' k = 0) l) then (false, l)
  else (true, filter (fun k' => compare k' k < 0) l ++ k :: filter (fun k' => ~ compare k' k < 0) l).

Lemma keys_filter ns (G : list nat) k : (forall p, p ∈ G -> p <> head_) ->
  nkey ns <$> filter (below ns k) G = filter (fun k' => compare k' k < 0) (nkey ns <$> G) /\
  nkey ns <$> filter (fun p => ~ below ns k p) G = filter (fun k' => ~ compare k' k < 0) (nkey ns <$> G).
Proof.
  induction G as [|p G IH]; intros HG; [done|]. destruct IH as [IH1 IH2]; [intros q Hq; apply HG; by right|].
  assert (Hp : below ns k p <-> compare (nkey ns p) k < 0).
  { split; [|by right]. intros [->|]; [|done]. exfalso. apply (HG head_); [by left|done]. }
  rewrite fmap_cons, !filter_cons. destruct (decide (below ns k p)) as [Hb|Hb].
  - rewrite (decide_True (P := compare _ _ < 0)) by tauto. rewrite decide_False, decide_False by tauto. cbn. by rewrite IH1, IH2.
  - rewrite (decide_False (P := compare _ _ < 0)) by tauto. rewrite decide_True, decide_True by tauto. cbn. by rewrite IH1, IH2.
Qed.

Lemma fresh_keys sl F k : shape (nodes sl) (max_height_ sl) F ->
  fresh (nodes sl) F k <-> ~ Exists (fun k' => compare k' k = 0) (keys sl F).
Proof.
  intros Hsh. pose proof (tail_F _ _ _ Hsh) as Ht. rewrite Exists_exists. split.
  - intros Hf (k' & Hk' & Hc). apply list_elem_of_fmap in Hk' as (p & -> & Hp). apply Ht in Hp as [Hp Hph]. by apply (Hf p).
  - intros Hne p Hp Hph Hc. apply Hne. exists (nkey (nodes sl) p). split; [|done]. apply list_elem_of_fmap. exists p. by rewrite Ht.
Qed.

Lemma keys_same ns ns' mh mh' F : same_shape ns ns' -> keys (mkSkipList ns' mh') F = keys (mkSkipList ns mh) F.
Proof. intros [_ Hk]. apply list_fmap_ext. intros i p _. cbn. by destruct (Hk p). Qed.

Lemma Insert_at_keys UseCAS sl F s partial x k height :
  list_inv sl F -> splice_inv (nodes sl) (max_height_ sl) F s -> x ∉ F ->
  Key (nodes sl) x = Some k -> UnstashHeight (nodes sl) x = Some height -> levels (nodes sl) x = height ->
  (1 <= height <= kMaxHeight_)%nat -> (height <= kMaxPossibleHeight)%nat ->
  exists sl' s' F', Insert_at compare kMaxHeight_ UseCAS sl x s partial = Some ((sorted_insert (keys sl F) k).1, sl', s') /\
    list_inv sl' F' /\ splice_inv (nodes sl') (max_height_ sl') F' s' /\ keys sl' F' = (sorted_insert (keys sl F) k).2 /\
    same_shape (nodes sl) (nodes sl') /\ F ⊆ F' /\ (max_height_ sl <= max_height_ sl')%nat.
Proof.
  intros Hi Hs Hx Hxk Hst Hlev Hh1 Hh2. pose proof (li_shape _ _ Hi) as Hsh.
  destruct (Insert_at_ok UseCAS sl F s partial x k height Hi Hs Hx Hxk Hst Hlev Hh1 Hh2)
    as (b & sl' & s' & F' & E & Hi' & Hs' & Hss & Hmm & Hcase).
  exists sl', s', F'. unfold sorted_insert. pose proof (fresh_keys sl F k Hsh) as Hfk.
  assert (Ek : forall G, keys sl' G = nkey (nodes sl) <$> tail G).
  { intros G. destruct sl as [ns mh], sl' as [ns' mh']. by apply (keys_same ns ns' mh mh'). }
  destruct Hcase as [(-> & Hf & ->)|(-> & Hf & ->)].
  - rewrite bool_decide_eq_false_2 by tauto. split_and!; [done|done|done| |done| |done].
    + rewrite Ek. unfold keys.  pose proof (tail_F _ _ _ Hsh) as Ht.
      pose proof (sh_head _ _ _ Hsh) as Hhd. destruct F as [|h G]; [done|]. cbn in Hhd. injection Hhd as ->.
      rewrite (filter_cons_True (below _ _)) by (by left). rewrite (filter_cons_False (fun p => ~ below _ _ p)) by (intros Hn; apply Hn; by left).
      cbn [tail app]. cbn [tail] in Ht. rewrite fmap_app, fmap_cons, (x_key _ _ _ Hxk).
      destruct (keys_filter (nodes sl) G k) as [-> ->]; [|done]. intros p Hp. by apply Ht.
    + intros p Hp. by apply in_insert.
  - rewrite bool_decide_eq_true_2.
    + split_and!; try done; by rewrite Ek.
    + destruct (decide (Exists (fun k' => compare k' k = 0) (keys sl F))); [done|]. tauto.
Qed.

(** Other splices stay valid. *)
Lemma splice_inv_mono ns ns' mh mh' F F' t : same_shape ns ns' -> F ⊆ F' -> (mh <= mh')%nat ->
  splice_inv ns mh F t -> splice_inv ns' mh' F' t.
Proof.
  intros Hss HF Hm [Hs|Hs]; [by left|right]. apply (same_shape_splice_from ns); [done|]. destruct Hs as [H1 H2 H3 H4 H5].
  split; try done; [lia|]. intros j Hj. destruct (H4 j Hj) as (p & q & Hat & Hp & Ht & Hq). exists p, q. split; [done|].
  split_and!; [by apply HF|done|]. intros n Hn. destruct (Hq n Hn) as (? & ? & ?). split_and!; [by apply HF|done|done].
Qed.

(** ** A new node *)

Section Allocate.
Context (ns : list Node) (nd : Node).

Lemma alloc_same p : (p < length ns)%nat -> nkey (ns ++ [nd]) p = nkey ns p /\ levels (ns ++ [nd]) p = levels ns p /\
  forall n, Next (ns ++ [nd]) p n = Next ns p n.
Proof. intros Hp. unfold nkey, levels, Next, Key. by rewrite lookup_app_l. Qed.

Lemma alloc_filter (F : list nat) l : Forall (fun p => (p < length ns)%nat) F ->
  filter (tall (ns ++ [nd]) l) F = filter (tall ns l) F.
Proof.
  induction 1 as [|p F Hp _ IH]; [done|]. rewrite !filter_cons, IH. destruct (alloc_same p Hp) as (_ & E & _).
  assert (Ht : tall (ns ++ [nd]) l p <-> tall ns l p) by (unfold tall; by rewrite E).
  destruct (decide (tall ns l p)); [rewrite decide_True by tauto|rewrite decide_False by tauto]; done.
Qed.

Lemma alloc_list_inv mh F : list_inv (mkSkipList ns mh) F -> list_inv (mkSkipList (ns ++ [nd]) mh) F.
Proof.
  intros [[H1 H2 H3 H4 H5 H6 H7] Hl]. cbn in *. assert (Hlt := H2). rewrite Forall_forall in Hlt.
  assert (Hhd : head_ ∈ F) by (destruct F as [|x F']; [done|]; cbn in H1; injection H1 as ->; by left).
  split; [split; cbn; try done|].
  - eapply Forall_impl; [exact H2|]. cbn. intros p Hp. rewrite length_app. cbn. lia.
  - by destruct (alloc_same head_ (Hlt _ Hhd)) as (_ & -> & _).
  - rewrite Forall_forall in *. intros p Hp. destruct (alloc_same p (Hlt _ Hp)) as (_ & -> & _). by apply H4.
  - clear -H5 Hlt. induction H5 as [|p F _ IH Hp]; constructor; [apply IH; intros; apply Hlt; by right|].
    rewrite Forall_forall in *. intros q Hq. specialize (Hp q Hq). unfold node_lt in *.
    destruct (alloc_same p (Hlt p ltac:(by left))) as (-> & _), (alloc_same q (Hlt q ltac:(by right))) as (-> & _). done.
  - cbn. intros l F1 x F2 E Ht.
    assert (Hx : x ∈ F) by (rewrite E; apply elem_of_app; right; by left).
    destruct (alloc_same x (Hlt x Hx)) as (_ & El & ->). unfold tall in Ht. rewrite El in Ht.
    rewrite (Hl l F1 x F2 E Ht). rewrite alloc_filter; [done|]. apply Forall_forall. intros p Hp. apply Hlt.
    rewrite E. apply elem_of_app. right. by right.
Qed.

Lemma alloc_keys mh F : list_inv (mkSkipList ns mh) F -> keys (mkSkipList (ns ++ [nd]) mh) F = keys (mkSkipList ns mh) F.
Proof.
  intros [Hsh _]. pose proof (sh_alloc _ _ _ Hsh) as Ha. rewrite Forall_forall in Ha. apply list_fmap_ext. intros i p Hp. cbn.
  apply list_elem_of_lookup_2, (tail_F _ _ _ Hsh) in Hp as [Hp _]. by destruct (alloc_same p (Ha p Hp)).
Qed.

Lemma alloc_splice mh F t : Forall (fun p => (p < length ns)%nat) F -> head_ ∈ F ->
  splice_inv ns mh F t -> splice_inv (ns ++ [nd]) mh F t.
Proof.
  intros Ha Hhd [Hs|Hs]; [by left|right]. rewrite Forall_forall in Ha.
  assert (Hin : forall j p q, (j <= sp_height t)%nat -> at_level t j p q -> p ∈ F /\ forall n, q = Some n -> n ∈ F).
  { intros j p q Hj Hat. destruct (decide (j = sp_height t)) as [->|Hne].
    - destruct (at_level_fun _ _ _ _ _ _ (sf_top _ _ _ _ _ Hs) Hat) as [<- <-]. done.
    - destruct (sf_levels _ _ _ _ _ Hs j ltac:(lia)) as (p' & q' & Hat' & Hp & _ & Hq).
      destruct (at_level_fun _ _ _ _ _ _ Hat' Hat) as [<- <-]. split; [done|]. intros n Hn. by destruct (Hq n Hn). }
  assert (Hle : forall a b, a ∈ F -> b ∈ F -> node_le ns a b -> node_le (ns ++ [nd]) a b).
  { intros a b Hpa Hpb. unfold node_le, node_lt. destruct (alloc_same a (Ha a Hpa)) as (-> & _), (alloc_same b (Ha b Hpb)) as (-> & _). done. }
  destruct Hs as [H1 H2 H3 H4 H5]. split; try done.
  - intros j Hj. destruct (H4 j Hj) as (p & q & Hat & Hp & Ht & Hq). exists p, q. split; [done|]. unfold level_ok, tall.
    destruct (alloc_same p (Ha p Hp)) as (_ & -> & _). split_and!; [done|done|]. intros n Hn. destruct (Hq n Hn) as (Hn1 & ? & ?).
    by destruct (alloc_same n (Ha n Hn1)) as (_ & -> & _).
  - intros j p q p' q' Hj Hat Hat'. destruct (H5 j p q p' q' Hj Hat Hat') as [Hp Hq].
    destruct (Hin j p q ltac:(lia) Hat) as [HpF HqF], (Hin (j + 1)%nat p' q' ltac:(lia) Hat') as [HpF' HqF']. split; [by apply Hle|].
    intros n' Hn'. destruct (Hq n' Hn') as (n & En & Hn). exists n. split; [done|]. apply Hle; [by apply HqF|by apply HqF'|done].
Qed.
End Allocate.

Lemma RandomHeight_range kBranching_ rnd : (1 <= kMaxHeight_)%nat ->
  (1 <= (RandomHeight kMaxHeight_ kBranching_ rnd).1 <= kMaxHeight_)%nat /\
  ((RandomHeight kMaxHeight_ kBranching_ rnd).1 <= kMaxPossibleHeight)%nat.
Proof.
  intros Hm. unfold RandomHeight.
  assert (H : forall fuel h rnd, (1 <= h <= kMaxHeight_)%nat -> (h <= kMaxPossibleHeight)%nat ->
    (1 <= (random_height_loop kMaxHeight_ kBranching_ fuel h rnd).1 <= kMaxHeight_)%nat /\
    ((random_height_loop kMaxHeight_ kBranching_ fuel h rnd).1 <= kMaxPossibleHeight)%nat).
  { induction fuel as [|fuel IH]; intros h g Hh Hp; [done|]. cbn [random_height_loop].
    destruct (decide (h < kMaxHeight_)%nat) as [Hlt|]; [|by rewrite bool_decide_eq_false_2].
    rewrite (bool_decide_eq_true_2 (h < kMaxHeight_)%nat) by done. cbn [andb].
    destruct (decide (h < kMaxPossibleHeight)%nat); [|by rewrite bool_decide_eq_false_2].
    rewrite bool_decide_eq_true_2 by done. destruct (_ <? _); [|done]. apply IH; lia. }
  apply H; [lia|unfold kMaxPossibleHeight; lia].
Qed.

(** Allocating a node for a key and inserting it. *)
Lemma allocate_insert_ok kBranching_ UseCAS sl F s partial k rnd :
  list_inv sl F -> splice_inv (nodes sl) (max_height_ sl) F s -> (1 <= kMaxHeight_)%nat ->
  let '(ns, x, _) := AllocateKey kMaxHeight_ kBranching_ (nodes sl) k rnd in
  exists sl' s' F', Insert_at compare kMaxHeight_ UseCAS (mkSkipList ns (max_height_ sl)) x s partial
      = Some ((sorted_insert (keys sl F) k).1, sl', s') /\
    list_inv sl' F' /\ splice_inv (nodes sl') (max_height_ sl') F' s' /\ keys sl' F' = (sorted_insert (keys sl F) k).2 /\
    forall t, splice_inv (nodes sl) (max_height_ sl) F t -> splice_inv (nodes sl') (max_height_ sl') F' t.
Proof.
  intros Hi Hs Hm. destruct (RandomHeight_range kBranching_ rnd Hm) as [Hh1 Hh2]. unfold AllocateKey.
  destruct (RandomHeight kMaxHeight_ kBranching_ rnd) as [height rnd']. cbn [fst] in *. unfold AllocateNode.
  destruct sl as [ns mh]. cbn [nodes max_height_] in *. set (nd := mkNode _ k).
  pose proof (sh_alloc _ _ _ (li_shape _ _ Hi)) as Ha. cbn in Ha. pose proof (head_in_F _ _ _ (li_shape _ _ Hi)) as Hhd.
  pose proof (alloc_list_inv ns nd mh F Hi) as Hi1.
  assert (Hnd : (ns ++ [nd]) !! length ns = Some nd) by (rewrite lookup_app_r, Nat.sub_diag by lia; done).
  assert (Hx : length ns ∉ F) by (intros Hx; rewrite Forall_forall in Ha; specialize (Ha _ Hx); lia).
  destruct (Insert_at_keys UseCAS (mkSkipList (ns ++ [nd]) mh) F s partial (length ns) k height)
    as (sl' & s' & F' & E & Hi' & Hs' & Hk & Hss & HF & Hmm); try done; cbn [nodes max_height_].
  - by apply alloc_splice.
  - unfold Key. by rewrite Hnd.
  - unfold UnstashHeight. rewrite Hnd. cbn. rewrite list_lookup_insert_eq; [done|]. rewrite length_replicate. lia.
  - unfold levels. rewrite Hnd. cbn. by rewrite length_insert, length_replicate.
  - exists sl', s', F'. rewrite (alloc_keys ns nd mh F Hi) in *. split_and!; try done.
    intros t Ht. eapply splice_inv_mono; [exact Hss|exact HF|exact Hmm|]. by apply alloc_splice.
Qed.

Lemma new_list_inv : (1 <= kMaxHeight_)%nat -> list_inv (InlineSkipList_new kMaxHeight_) [head_].
Proof.
  intros Hm. split; [split; cbn|].
  - done.
  - by repeat constructor.
  - unfold levels. cbn. apply length_replicate.
  - constructor; [by left|constructor].
  - repeat constructor.
  - lia.
  - unfold kMaxPossibleHeight. lia.
  - intros l F1 x F2 E Ht. destruct F1 as [|? [|]]; try done. injection E as <- <-. cbn.
    unfold tall, levels in Ht. cbn in Ht. rewrite length_replicate in Ht. unfold Next. cbn. by rewrite lookup_replicate_2.
Qed.

Lemma AllocateSplice_inv ns mh F : splice_inv ns mh F (AllocateSplice kMaxHeight_).
Proof. left. cbn. rewrite length_replicate. split_and!; [lia|lia|done]. Qed.

(** The array on the stack is large enough below the largest possible height. *)
Lemma stack_splice_inv ns mh F : (kMaxHeight_ < kMaxPossibleHeight)%nat -> splice_inv ns mh F stack_splice.
Proof. intros Hm. left. cbn [sp_prev sp_next sp_height stack_splice]. by rewrite !length_replicate. Qed.

(** ** The iterator *)

(** The keys that [Next], or [Prev], visits from a node on. *)
Fixpoint scan_forward (fuel : nat) (sl : InlineSkipList) (node_ : option nat) : option (list bytes) :=
  match fuel with
  | O => None
  | S fuel' =>
      if iter_Valid node_ then
        k ← iter_key sl node_; node' ← iter_Next sl node_; ks ← scan_forward fuel' sl node'; Some (k :: ks)
      else Some []
  end.

Fixpoint scan_backward (fuel : nat) (sl : InlineSkipList) (node_ : option nat) : option (list bytes) :=
  match fuel with
  | O => None
  | S fuel' =>
      if iter_Valid node_ then
        k ← iter_key sl node_; node' ← iter_Prev compare sl node_; ks ← scan_backward fuel' sl node'; Some (k :: ks)
      else Some []
  end.

Section Iteration.
Context (sl : InlineSkipList) (F : list nat) (Hi : list_inv sl F).

Abbreviation ns := (nodes sl).
Let Hsh := li_shape _ _ Hi.

Lemma suffix_in F1 G p : F = F1 ++ G -> p ∈ G -> p ∈ F.
Proof. intros -> Hp. apply elem_of_app. by right. Qed.

Lemma scan_forward_ok fuel F1 G : F = F1 ++ G -> (length G < fuel)%nat ->
  scan_forward fuel sl (head G) = Some (nkey ns <$> G).
Proof.
  revert F1 G. induction fuel as [|fuel IH]; intros F1 G E Hf; [lia|]. destruct G as [|p G]; [done|].
  cbn [head scan_forward]. change (iter_Valid (Some p)) with true. cbv iota.
  assert (Hp : p ∈ F) by (eapply suffix_in; [done|by left]). cbn [iter_key iter_Next mbind option_bind].
  rewrite (Key_ok _ _ _ Hsh p Hp). cbn [mbind option_bind].
  rewrite (li_linked _ _ Hi 0 F1 p G E) by (by eapply tall_0). cbn [mbind option_bind].
  rewrite (filter_tall_0 _ _ _ Hsh) by (intros q Hq; eapply suffix_in; [done|by right]).
  rewrite (IH (F1 ++ [p]) G); [done| |cbn in Hf; lia]. by rewrite <- app_assoc.
Qed.

(** The nodes before a node are those below its key. *)
Lemma below_prefix F1 p F2 : F = F1 ++ p :: F2 -> p <> head_ -> filter (below ns (nkey ns p)) F = F1.
Proof.
  intros E Hp. pose proof (sh_sorted _ _ _ Hsh) as Hs. rewrite E, filter_app.
  rewrite (filter_every _ F1), (filter_none _ (p :: F2)); [by rewrite app_nil_r| |].
  - intros q Hq Hb. apply elem_of_cons in Hq as [->|Hq].
    + destruct Hb as [|Hb]; [done|]. rewrite pre_refl in Hb by done. lia.
    + destruct (split_before _ _ _ Hsh F1 p F2 q E Hq) as [Hqh [|Hlt]]; [done|]. destruct Hb as [|Hb]; [done|].
      pose proof (pre_lt_trans compare _ _ _ Hlt Hb) as Hc. rewrite pre_refl in Hc by done. lia.
  - intros q Hq. assert (Hlt : node_lt ns q p).
    { rewrite E in Hs. eapply sorted_before; [exact Hs|done|by left]. }
    destruct Hlt as [_ [->|Hlt]]; [by left|by right].
Qed.

Lemma prefix_starts F1 p F2 : F = F1 ++ p :: F2 -> p <> head_ -> exists A, F1 = head_ :: A /\ forall q, q ∈ A -> q <> head_.
Proof.
  intros E Hp. pose proof (sh_head _ _ _ Hsh) as Hh. pose proof (tail_F _ _ _ Hsh) as Ht. rewrite E in Hh.
  destruct F1 as [|h A]; cbn in Hh; [congruence|]. injection Hh as ->. exists A. split; [done|]. intros q Hq. apply Ht.
  rewrite E. cbn. apply elem_of_app. by left.
Qed.

Lemma not_head_last A : (forall q, q ∈ A -> q <> head_) -> not_head <$> last (head_ :: A) = Some (last A).
Proof.
  intros HA. rewrite last_cons. destruct (last A) as [q|] eqn:El; [|done]. cbn. unfold not_head.
  destruct (Nat.eqb_spec q head_) as [->|]; [|done]. exfalso. apply (HA head_); [|done]. by apply last_Some_elem_of.
Qed.

Lemma iter_Prev_ok F1 p F2 : F = F1 ++ p :: F2 -> p <> head_ -> iter_Prev compare sl (Some p) = Some (last (tail F1)).
Proof.
  intros E Hp. assert (HpF : p ∈ F) by (eapply suffix_in; [done|by left]). cbn [iter_Prev mbind option_bind].
  rewrite (Key_ok _ _ _ Hsh p HpF). cbn [mbind option_bind]. rewrite (FindLessThan_ok _ _ Hi), (below_prefix F1 p F2 E Hp).
  destruct (prefix_starts F1 p F2 E Hp) as (A & -> & HA). by apply not_head_last.
Qed.

Lemma scan_backward_ok fuel A B : F = head_ :: A ++ B -> (length A < fuel)%nat ->
  scan_backward fuel sl (last A) = Some (reverse (nkey ns <$> A)).
Proof.
  revert A B. induction fuel as [|fuel IH]; intros A B E Hf; [lia|].
  destruct A as [|p A _] using rev_ind; [done|]. rewrite last_snoc.
  cbn [scan_backward]. change (iter_Valid (Some p)) with true. cbv iota.
  assert (E' : F = (head_ :: A) ++ p :: B) by (rewrite E; cbn; by rewrite <- app_assoc).
  assert (HpF : p ∈ F) by (eapply suffix_in; [done|by left]).
  assert (Hph : p <> head_).
  { apply (tail_F _ _ _ Hsh). rewrite E. cbn. rewrite <- app_assoc. apply elem_of_app. right. by left. }
  cbn [iter_key mbind option_bind]. rewrite (Key_ok _ _ _ Hsh p HpF). cbn [mbind option_bind].
  rewrite (iter_Prev_ok _ _ _ E' Hph). cbn [mbind option_bind tail]. rewrite length_app in Hf. cbn in Hf.
  rewrite (IH A (p :: B)) by (done || lia). cbn. by rewrite fmap_app, reverse_app.
Qed.

Lemma iter_SeekToFirst_ok : iter_SeekToFirst sl = Some (head (tail F)).
Proof.
  pose proof (sh_head _ _ _ Hsh) as Hh. unfold iter_SeekToFirst.
  assert (E : F = [] ++ head_ :: tail F) by (destruct F; [done|]; cbn in Hh |- *; congruence).
  rewrite (li_linked _ _ Hi 0 _ _ _ E) by (eapply tall_0; [exact Hsh|by eapply head_in_F]).
  rewrite (filter_tall_0 _ _ _ Hsh); [done|]. intros p Hp. by apply (tail_F _ _ _ Hsh) in Hp as [? _].
Qed.

Lemma F_cons : F = head_ :: tail F.
Proof. pose proof (sh_head _ _ _ Hsh) as Hh. destruct F; [done|]; cbn in Hh |- *; congruence. Qed.

Lemma iter_SeekToLast_ok : iter_SeekToLast sl = Some (last (tail F)).
Proof.
  unfold iter_SeekToLast. rewrite (FindLast_ok _ _ Hi), F_cons. apply not_head_last.
  intros q Hq. by apply (tail_F _ _ _ Hsh) in Hq as [_ ?].
Qed.

(** The nodes that are not above a target. *)
Definition not_above (t : bytes) (p : nat) : Prop := ~ compare t (nkey ns p) < 0.

#[local] Instance not_above_dec t p : Decision (not_above t p).
Proof. unfold not_above. apply _. Defined.

Lemma retreat_ok t fuel A B : F = head_ :: A ++ B -> (length A < fuel)%nat ->
  retreat compare fuel sl t (last A) = Some (last (filter (not_above t) A)).
Proof.
  revert A B. induction fuel as [|fuel IH]; intros A B E Hf; [lia|].
  destruct A as [|p A _] using rev_ind; [done|]. rewrite last_snoc. cbn [retreat iter_key mbind option_bind].
  assert (E' : F = (head_ :: A) ++ p :: B) by (rewrite E; cbn; by rewrite <- app_assoc).
  assert (HpF : p ∈ F) by (eapply suffix_in; [done|by left]).
  assert (Hph : p <> head_).
  { apply (tail_F _ _ _ Hsh). rewrite E. cbn. rewrite <- app_assoc. apply elem_of_app. right. by left. }
  rewrite (Key_ok _ _ _ Hsh p HpF). cbn [mbind option_bind]. unfold LessThan. rewrite filter_app, filter_cons. cbn [filter list_filter].
  rewrite length_app in Hf. cbn in Hf. destruct (Z.ltb_spec (compare t (nkey ns p)) 0) as [Hlt|Hge].
  - rewrite (iter_Prev_ok _ _ _ E' Hph). cbn [mbind option_bind tail]. rewrite decide_False by (unfold not_above; lia).
    rewrite (IH A (p :: B)) by (done || lia). cbn. by rewrite app_nil_r.
  - rewrite decide_True by (unfold not_above; lia). by rewrite last_snoc.
Qed.

Lemma tail_length : (length (tail F) < length ns + 1)%nat.
Proof. pose proof (F_length _ _ _ Hsh) as Hl. rewrite F_cons in Hl. cbn in Hl. lia. Qed.

Lemma iter_SeekForPrev_ok t : iter_SeekForPrev compare sl t = Some (last (filter (not_above t) (tail F))).
Proof.
  unfold iter_SeekForPrev, iter_Seek. rewrite (FindGreaterOrEqual_ok _ _ Hi t). cbn [mbind option_bind].
  pose proof (shape_split _ _ _ Hsh t) as Esp. pose proof tail_length as Hlen.
  destruct (filter (fun p => ~ below ns t p) F) as [|p R'] eqn:ER; cbn [head].
  - change (iter_Valid None) with false. cbv iota. rewrite iter_SeekToLast_ok. cbn [mbind option_bind].
    apply (retreat_ok t _ (tail F) []); [|done]. by rewrite app_nil_r, <- F_cons.
  - change (iter_Valid (Some p)) with true. cbv iota. cbn [mbind option_bind].
    assert (HpR : p ∈ filter (fun p => ~ below ns t p) F) by (rewrite ER; by left).
    destruct (R_in ns F t p HpR) as (HpF & Hph & Hpc).
    destruct (prefix_starts _ p R' Esp Hph) as (A & EA & HA). rewrite EA in Esp. cbn in Esp.
    rewrite <- (last_snoc p A) at 1. rewrite (retreat_ok t _ (A ++ [p]) R').
    + assert (Et : tail F = A ++ [p] ++ R') by (by rewrite Esp). rewrite Et, (assoc_L (++) A [p] R'), (filter_app _ (A ++ [p]) R').
      rewrite (filter_none (not_above t) R'); [by rewrite app_nil_r|]. intros q Hq Hna. apply Hna.
      destruct (split_before _ _ _ Hsh (head_ :: A) p R' q Esp Hq) as [_ [|Hlt]]; [done|].
      pose proof (pre_flip (nkey ns p) t). pose proof (pre_flip t (nkey ns p)).
      apply (pre_le_lt_trans compare t (nkey ns p)); [lia|done].
    + by rewrite <- app_assoc.
    + assert (Hl : tail F = A ++ p :: R') by (by rewrite Esp). rewrite Hl, length_app in Hlen. rewrite length_app. cbn in *. lia.
Qed.
End Iteration.
End Shape.
