(* ===== verification/KeyGen.v ===== *)
(** * Keys of the p2KVS programs

    [GenerateKeyFromInt] and class [KeyGenerator], which every benchmark program
    under [code/] carries a copy of ([ycsb.cpp], [write_test.cpp],
    [read_test.cpp], [scan_test.cpp] and the leveldb and wiredtiger variants).
    The macro [key_size_] is an argument. *)

From S2P Require Import Prelude Comparator Random.

(** ** GenerateKeyFromInt *)

(** The byte stored at [pos[i]]. *)
Definition key_byte (v bytes_to_fill i : Z) : Z :=
  u8 (Z.land (Z.shiftr v (Z.shiftl (bytes_to_fill - i - 1) 3)) 255).

(** The contents of the [key_size_] bytes at [key] after the call: the loop over
    [i] fills the first bytes, [memset] the rest with the character '0'. *)
Definition GenerateKeyFromInt (key_size_ : Z) (v : Z) : bytes :=
  let bytes_to_fill := Z.min key_size_ 8 in
  (key_byte v bytes_to_fill <$> seqZ 0 bytes_to_fill) ++
  (if bytes_to_fill <? key_size_ then replicate (Z.to_nat (key_size_ - bytes_to_fill)) 48 else []).

Example key_258 : GenerateKeyFromInt 10 258 = [0; 0; 0; 0; 0; 0; 1; 2; 48; 48].
Proof. reflexivity. Qed.

(** ** class KeyGenerator *)

Inductive WriteMode := RANDOM | SEQUENTIAL | UNIQUE_RANDOM.

Record KeyGenerator := mkKeyGenerator {
  rand_ : mt_state;
  mode_ : WriteMode;
  num_ : Z;
  next_ : Z;
  values_ : list Z
}.

Section KeyGenerator.
(** [std::shuffle] permutes its range with numbers it draws from the generator;
    which permutation is left to the C++ library. *)
Context (shuffle : list Z -> mt_state -> list Z).

Definition RandomShuffle (l : list Z) (seed : Z) : list Z :=
  let rng := mt_seed mt19937 (u32 seed) in shuffle l rng.

(** [SEED] is the macro of the program that instantiates the class. *)
Definition KeyGenerator_new (SEED : Z) (rand : mt_state) (mode : WriteMode) (num : Z)
  : KeyGenerator :=
  {| rand_ := rand; mode_ := mode; num_ := num; next_ := 0;
     values_ := match mode with
                | UNIQUE_RANDOM => RandomShuffle (seqZ 0 num) (u32 SEED)
                | _ => []
                end |}.
End KeyGenerator.

(** Value and new object; [None] where the assertion fails. *)
Definition KeyGenerator_Next (g : KeyGenerator) : option (Z * KeyGenerator) :=
  match mode_ g with
  | SEQUENTIAL =>
      Some (next_ g, mkKeyGenerator (rand_ g) (mode_ g) (num_ g) (u64 (next_ g + 1)) (values_ g))
  | RANDOM =>
      let '(r, rand') := Random64_Next (rand_ g) in
      Some (r mod num_ g, mkKeyGenerator rand' (mode_ g) (num_ g) (next_ g) (values_ g))
  | UNIQUE_RANDOM =>
      if next_ g <? num_ g then
        v ← values_ g !! Z.to_nat (next_ g);
        Some (v, mkKeyGenerator (rand_ g) (mode_ g) (num_ g) (u64 (next_ g + 1)) (values_ g))
      else None
  end.

(** [k] calls of [Next]: the keys in order, or [None] once an assertion fails. *)
Fixpoint KeyGenerator_take (k : nat) (g : KeyGenerator) : option (list Z * KeyGenerator) :=
  match k with
  | O => Some ([], g)
  | S k' =>
      '(v, g') ← KeyGenerator_Next g;
      '(vs, g'') ← KeyGenerator_take k' g';
      Some (v :: vs, g'')
  end.

(** ** Lemmas *)

(** The [n] low bytes of [v], most significant first. *)
Fixpoint be_bytes (n : nat) (v : Z) : bytes :=
  match n with
  | O => []
  | S n' => v / 256 ^ Z.of_nat n' mod 256 :: be_bytes n' v
  end.

Lemma be_bytes_length n v : length (be_bytes n v) = n.
Proof. induction n; simpl; auto. Qed.

Lemma be_bytes_is_bytes n v : is_bytes (be_bytes n v).
Proof. induction n; constructor; [apply Z.mod_pos_bound; lia | apply IHn]. Qed.

Lemma key_bytes_be n v :
  key_byte v (Z.of_nat n) <$> seqZ 0 (Z.of_nat n) = be_bytes n v.
Proof.
  assert (G : forall k m, (k <= m)%nat ->
    key_byte v (Z.of_nat m) <$> seqZ (Z.of_nat m - Z.of_nat k) (Z.of_nat k) = be_bytes k v).
  { induction k as [|k IH]; intros m Hm; [done|]. rewrite seqZ_cons by lia. cbn [fmap list_fmap be_bytes].
    f_equal.
    - unfold key_byte. change 255 with (2 ^ 8 - 1).
      rewrite land_ones_mod, Z.shiftl_mul_pow2, shiftr_div by lia.
      replace ((Z.of_nat m - (Z.of_nat m - Z.of_nat (S k)) - 1) * 2 ^ 3) with (8 * Z.of_nat k) by lia.
      rewrite Z.pow_mul_r by lia. change (2 ^ 8) with 256. unfold u8. apply Z.mod_mod. lia.
    - rewrite <- (IH m) by lia. f_equal. f_equal; lia. }
  rewrite <- (G n n) by lia. f_equal. f_equal. lia.
Qed.

Lemma GenerateKeyFromInt_be key_size_ v :
  8 <= key_size_ ->
  GenerateKeyFromInt key_size_ v = be_bytes 8 v ++ replicate (Z.to_nat (key_size_ - 8)) 48.
Proof.
  intros. unfold GenerateKeyFromInt. rewrite Z.min_r by lia.
  rewrite <- (key_bytes_be 8 v). f_equal. case_bool; [done|].
  replace key_size_ with 8 by lia. done.
Qed.

(** Lexicographic order of big-endian numbers is numeric order. *)
Lemma be_bytes_compare n a b :
  slice_compare (be_bytes n a) (be_bytes n b)
  = match a mod 256 ^ Z.of_nat n ?= b mod 256 ^ Z.of_nat n with Lt => -1 | Eq => 0 | Gt => 1 end.
Proof.
  induction n as [|n IH].
  - cbn. rewrite !Z.mod_1_r. done.
  - cbn [be_bytes]. rewrite slice_compare_cons, IH.
    rewrite Nat2Z.inj_succ, Z.pow_succ_r, (Z.mul_comm 256), !Z.rem_mul_r by lia.
    set (p := 256 ^ Z.of_nat n). assert (0 < p) by (apply Z.pow_pos_nonneg; lia).
    pose proof (Z.mod_pos_bound a p ltac:(lia)). pose proof (Z.mod_pos_bound b p ltac:(lia)).
    set (x := a / p mod 256). set (y := b / p mod 256).
    set (r := a mod p) in *. set (q := b mod p) in *.
    destruct (Z.ltb_spec x y), (Z.ltb_spec y x); try lia.
    + rewrite (proj2 (Z.compare_lt_iff _ _)); [done|nia].
    + rewrite (proj2 (Z.compare_gt_iff _ _)); [done|nia].
    + assert (x = y) as -> by lia. destruct (Z.compare_spec r q);
        [rewrite (proj2 (Z.compare_eq_iff _ _)) | rewrite (proj2 (Z.compare_lt_iff _ _))
        | rewrite (proj2 (Z.compare_gt_iff _ _))]; try done; lia.
Qed.

Lemma slice_compare_app_r a b s :
  length a = length b -> slice_compare (a ++ s) (b ++ s) = slice_compare a b.
Proof.
  revert b. induction a as [|x a IH]; intros [|y b] Hl; try discriminate; cbn [app].
  - rewrite slice_compare_refl. done.
  - rewrite !slice_compare_cons, IH by (simpl in Hl; lia). done.
Qed.

Lemma GenerateKeyFromInt_compare key_size_ a b :
  8 <= key_size_ -> 0 <= a < 2 ^ 64 -> 0 <= b < 2 ^ 64 ->
  slice_compare (GenerateKeyFromInt key_size_ a) (GenerateKeyFromInt key_size_ b)
  = match a ?= b with Lt => -1 | Eq => 0 | Gt => 1 end.
Proof.
  intros. rewrite !GenerateKeyFromInt_be by done.
  rewrite slice_compare_app_r by (rewrite !be_bytes_length; done).
  rewrite be_bytes_compare, !Z.mod_small by (change (256 ^ Z.of_nat 8) with (2 ^ 64); lia). done.
Qed.

Lemma GenerateKeyFromInt_inj key_size_ a b :
  8 <= key_size_ -> 0 <= a < 2 ^ 64 -> 0 <= b < 2 ^ 64 ->
  GenerateKeyFromInt key_size_ a = GenerateKeyFromInt key_size_ b -> a = b.
Proof.
  intros Hk Ha Hb E. apply slice_compare_eq in E. rewrite GenerateKeyFromInt_compare in E by done.
  destruct (Z.compare_spec a b); done.
Qed.

Lemma GenerateKeyFromInt_length key_size_ v :
  0 <= key_size_ -> zlen (GenerateKeyFromInt key_size_ v) = key_size_.
Proof.
  intros. unfold GenerateKeyFromInt, zlen. rewrite length_app, length_fmap, length_seqZ.
  case_bool; rewrite ?length_replicate; simpl; lia.
Qed.

Lemma KeyGenerator_take_unique k g :
  mode_ g = UNIQUE_RANDOM -> zlen (values_ g) = num_ g -> num_ g < 2 ^ 64 -> 0 <= next_ g ->
  next_ g + Z.of_nat k <= num_ g ->
  KeyGenerator_take k g
  = Some (take k (drop (Z.to_nat (next_ g)) (values_ g)),
          mkKeyGenerator (rand_ g) (mode_ g) (num_ g) (next_ g + Z.of_nat k) (values_ g)).
Proof.
  revert g. induction k as [|k IH]; intros [r m n i vs]; simpl; intros -> Hl Hn Hi Hk.
  - rewrite take_0, Z.add_0_r. done.
  - unfold KeyGenerator_Next. cbn [mode_ next_ num_ values_ rand_].
    destruct (Z.ltb_spec i n); [|lia].
    destruct (lookup_lt_is_Some_2 vs (Z.to_nat i)) as [v Hv]; [unfold zlen in Hl; lia|].
    rewrite Hv. cbn. rewrite u64_small by lia. rewrite IH by (simpl; done || lia). cbn.
    rewrite (drop_S vs v (Z.to_nat i) Hv). cbn [take]. f_equal. f_equal; [|f_equal; lia].
    f_equal. f_equal. f_equal. lia.
Qed.

Lemma KeyGenerator_take_sequential k g :
  mode_ g = SEQUENTIAL -> 0 <= next_ g -> next_ g + Z.of_nat k < 2 ^ 64 ->
  KeyGenerator_take k g
  = Some (seqZ (next_ g) (Z.of_nat k),
          mkKeyGenerator (rand_ g) (mode_ g) (num_ g) (next_ g + Z.of_nat k) (values_ g)).
Proof.
  revert g. induction k as [|k IH]; intros [r m n i vs]; simpl; intros -> Hi Hk.
  - rewrite Z.add_0_r. done.
  - unfold KeyGenerator_Next. cbn [mode_ next_ num_ values_ rand_].
    cbn. rewrite u64_small by lia. rewrite IH by (simpl; done || lia). cbn.
    rewrite (seqZ_cons i) by lia. f_equal. f_equal; [|f_equal; lia].
    f_equal. f_equal; lia.
Qed.

Lemma KeyGenerator_take_random k g :
  mode_ g = RANDOM -> 0 < num_ g ->
  exists ks g', KeyGenerator_take k g = Some (ks, g') /\ length ks = k /\
    Forall (fun v => 0 <= v < num_ g) ks.
Proof.
  revert g. induction k as [|k IH]; intros [r m n i vs]; simpl; intros -> Hn.
  - eexists _, _. done.
  - unfold KeyGenerator_Next. cbn [mode_ next_ num_ values_ rand_].
    destruct (Random64_Next r) as [x r'] eqn:E. cbn.
    destruct (IH (mkKeyGenerator r' RANDOM n i vs)) as (ks & g' & -> & Hl & Hf); [done..|]. cbn.
    eexists _, _. split_and!; [done|simpl; lia|]. constructor; [|done].
    apply Z.mod_pos_bound. done.
Qed.

(** Both modes without repetition hand out every key below [num]. *)
Lemma KeyGenerator_take_all shuffle SEED rand mode num :
  (forall l rng, shuffle l rng ≡ₚ l) -> 0 < num < 2 ^ 64 -> mode <> RANDOM ->
  exists ks g, KeyGenerator_take (Z.to_nat num) (KeyGenerator_new shuffle SEED rand mode num) = Some (ks, g) /\
    ks ≡ₚ seqZ 0 num /\ (mode = UNIQUE_RANDOM -> KeyGenerator_Next g = None) /\ (mode = SEQUENTIAL -> ks = seqZ 0 num).
Proof.
  intros Hsh Hn Hm. destruct mode; [done| |].
  - rewrite KeyGenerator_take_sequential; cbn; try done; try lia.
    eexists _, _. rewrite Z2Nat.id by lia. done.
  - assert (Hp : RandomShuffle shuffle (seqZ 0 num) (u32 SEED) ≡ₚ seqZ 0 num) by apply Hsh.
    pose proof (Permutation_length Hp) as Hl. rewrite length_seqZ in Hl.
    rewrite KeyGenerator_take_unique; unfold zlen; cbn; try done; try lia.
    eexists _, _. split; [done|]. rewrite drop_0, firstn_all2 by lia. split_and!; [done| |done]. intros _.
    unfold KeyGenerator_Next. cbn. case_bool; [lia|done].
Qed.

(** ** Properties *)

(** Keys generated from integers compare, under the bytewise comparator of
    the stores, exactly as the integers do, have [key_size_] bytes, and distinct
    integers get distinct keys: range scans and the merging iterator visit keys
    in numeric order. *)
Theorem generated_keys_ordered key_size_ a b :
  8 <= key_size_ -> 0 <= a < 2 ^ 64 -> 0 <= b < 2 ^ 64 ->
  let k := GenerateKeyFromInt key_size_ in
  (BytewiseCompare (k a) (k b) < 0 <-> a < b) /\ (k a = k b <-> a = b) /\
  zlen (k a) = key_size_.
Proof.
  intros Hk Ha Hb k. unfold k, BytewiseCompare.
  rewrite GenerateKeyFromInt_compare, GenerateKeyFromInt_length by (done || lia). split_and!; [|split|done].
  - destruct (Z.compare_spec a b); lia.
  - by apply GenerateKeyFromInt_inj.
  - by intros ->.
Qed.

Lemma generated_keys_ordered_witness :
  BytewiseCompare (GenerateKeyFromInt 28 255) (GenerateKeyFromInt 28 256) < 0.
Proof. destruct (generated_keys_ordered 28 255 256) as [H _]; [lia..|]. apply H. lia. Defined.

(** A [KeyGenerator] in mode [UNIQUE_RANDOM] hands out, in its first [num]
    calls, every key below [num] exactly once, and the next call fails its
    assertion; in mode [SEQUENTIAL] it counts up from 0, and in mode [RANDOM]
    every key is below [num]. *)
Theorem key_generator_modes shuffle SEED rand num :
  (forall l rng, shuffle l rng ≡ₚ l) -> 0 < num < 2 ^ 64 ->
  (exists ks g, KeyGenerator_take (Z.to_nat num) (KeyGenerator_new shuffle SEED rand UNIQUE_RANDOM num)
                = Some (ks, g) /\ ks ≡ₚ seqZ 0 num /\ KeyGenerator_Next g = None) /\
  (exists g, KeyGenerator_take (Z.to_nat num) (KeyGenerator_new shuffle SEED rand SEQUENTIAL num)
             = Some (seqZ 0 num, g)) /\
  (forall k, exists ks g, KeyGenerator_take k (KeyGenerator_new shuffle SEED rand RANDOM num) = Some (ks, g) /\
                     length ks = k /\ Forall (fun v => 0 <= v < num) ks).
Proof.
  intros Hsh Hn. split_and!.
  - destruct (KeyGenerator_take_all shuffle SEED rand UNIQUE_RANDOM num) as (ks & g & E & Hp & Hu & _); [done..|].
    exists ks, g. auto.
  - destruct (KeyGenerator_take_all shuffle SEED rand SEQUENTIAL num) as (ks & g & E & _ & _ & Hs); [done..|].
    exists g. by rewrite E, Hs.
  - intros k. apply KeyGenerator_take_random; [done|simpl; lia].
Qed.

Lemma key_generator_modes_witness :
  exists ks g, KeyGenerator_take 3 (KeyGenerator_new (fun l _ => rev l) 14664 [] UNIQUE_RANDOM 3)
               = Some (ks, g) /\ ks ≡ₚ seqZ 0 3 /\ KeyGenerator_Next g = None.
Proof.
  apply (key_generator_modes (fun l _ => rev l) 14664 [] 3); [|lia].
  intros l _. symmetry. apply Permutation_rev.
Defined.
