(* ===== verification/Iterator.v ===== *)
(** * The iterator interface

    [rocksdb::Iterator] ([rocksdb/include/rocksdb/iterator.h]) as a class of
    operations, the contract its implementations keep, and what every client can
    derive from the contract alone: a scan visits the entries in key order. *)

From S2P Require Import Prelude Comparator.

(** An entry of a store: a key and its value. *)
Abbreviation entry := (bytes * bytes)%type.

(** Operations with a precondition ([REQUIRES: Valid()]) return [None] where
    their assertion fails. *)
Class Iterator (I : Type) := {
  Valid : I -> bool;
  key : I -> option bytes;
  value : I -> option bytes;
  SeekToFirst : I -> option I;
  SeekToLast : I -> option I;
  Seek : I -> bytes -> option I;
  Next : I -> option I;
  Prev : I -> option I;
  status_ok : I -> bool
}.

Section Extrema.
Context (Compare : bytes -> bytes -> Z).

(** [o] is the entry of [l] with the smallest (largest) key among those that
    satisfy [P], and [None] when there is none. *)
Definition is_min (P : entry -> Prop) (l : list entry) (o : option entry) : Prop :=
  match o with
  | Some e => e ∈ l /\ P e /\ forall e', e' ∈ l -> P e' -> Compare e.1 e'.1 <= 0
  | None => forall e', e' ∈ l -> ~ P e'
  end.

Definition is_max (P : entry -> Prop) (l : list entry) (o : option entry) : Prop :=
  match o with
  | Some e => e ∈ l /\ P e /\ forall e', e' ∈ l -> P e' -> 0 <= Compare e.1 e'.1
  | None => forall e', e' ∈ l -> ~ P e'
  end.
End Extrema.

(** The contract, over the entries [entries i] the iterator ranges over, which
    never change, and its current entry [cur i]; the keys one may seek to are
    [seekable], those of the entries among them. *)
Class IteratorLaws {I} `{Iterator I} (Compare : bytes -> bytes -> Z) (seekable : bytes -> Prop)
    (inv : I -> Prop) (entries : I -> list entry) (cur : I -> option entry) : Prop := {
  law_Valid : forall i, inv i -> Valid i = bool_decide (is_Some (cur i));
  law_key : forall i, inv i -> key i = fst <$> cur i;
  law_value : forall i, inv i -> value i = snd <$> cur i;
  law_keys : forall i e e', inv i -> e ∈ entries i -> e' ∈ entries i -> e.1 = e'.1 -> e = e';
  law_SeekToFirst : forall i, inv i -> exists i', SeekToFirst i = Some i' /\ inv i' /\
    entries i' = entries i /\ is_min Compare (fun _ => True) (entries i) (cur i');
  law_SeekToLast : forall i, inv i -> exists i', SeekToLast i = Some i' /\ inv i' /\
    entries i' = entries i /\ is_max Compare (fun _ => True) (entries i) (cur i');
  law_seekable : forall i e, inv i -> e ∈ entries i -> seekable e.1;
  law_Seek : forall i k, inv i -> seekable k -> exists i', Seek i k = Some i' /\ inv i' /\
    entries i' = entries i /\ is_min Compare (fun e => Compare k e.1 <= 0) (entries i) (cur i');
  law_Next : forall i e, inv i -> cur i = Some e -> exists i', Next i = Some i' /\ inv i' /\
    entries i' = entries i /\ is_min Compare (fun e' => Compare e.1 e'.1 < 0) (entries i) (cur i');
  law_Prev : forall i e, inv i -> cur i = Some e -> exists i', Prev i = Some i' /\ inv i' /\
    entries i' = entries i /\ is_max Compare (fun e' => Compare e'.1 e.1 < 0) (entries i) (cur i')
}.

(** ** Scans

    [n] times: read the current entry, then [Next]; stops when not [Valid]. *)
Fixpoint scan {I} `{Iterator I} (n : nat) (i : I) : option (list entry * I) :=
  match n with
  | O => Some ([], i)
  | S n' =>
      if Valid i then
        k ← key i; v ← value i; i' ← Next i;
        '(es, i'') ← scan n' i';
        Some ((k, v) :: es, i'')
      else Some ([], i)
  end.

Fixpoint rscan {I} `{Iterator I} (n : nat) (i : I) : option (list entry * I) :=
  match n with
  | O => Some ([], i)
  | S n' =>
      if Valid i then
        k ← key i; v ← value i; i' ← Prev i;
        '(es, i'') ← rscan n' i';
        Some ((k, v) :: es, i'')
      else Some ([], i)
  end.

(** ** The sorted view *)

Section Sorted.
Context (Compare : bytes -> bytes -> Z) `{!TotalCompare Compare}.

Definition key_lt (a b : entry) : Prop := Compare a.1 b.1 < 0.

Lemma cmp_refl k : Compare k k = 0.
Proof. by apply cmp_eq. Qed.

Lemma cmp_le_lt_trans a b c : Compare a b <= 0 -> Compare b c < 0 -> Compare a c < 0.
Proof.
  intros Hab Hbc. destruct (Z.eq_dec (Compare a b) 0) as [E|].
  - apply cmp_eq in E. by subst.
  - eapply cmp_trans; [|done]. lia.
Qed.

Lemma cmp_lt_le_trans a b c : Compare a b < 0 -> Compare b c <= 0 -> Compare a c < 0.
Proof.
  intros Hab Hbc. destruct (Z.eq_dec (Compare b c) 0) as [E|].
  - apply cmp_eq in E. by subst.
  - eapply cmp_trans; [done|]. lia.
Qed.

Lemma cmp_le_trans a b c : Compare a b <= 0 -> Compare b c <= 0 -> Compare a c <= 0.
Proof.
  intros Hab Hbc. destruct (Z.eq_dec (Compare a b) 0) as [E|].
  - apply cmp_eq in E. by subst.
  - enough (Compare a c < 0) by lia. eapply cmp_lt_le_trans; [|done]. lia.
Qed.

Lemma cmp_flip_le a b : Compare a b <= 0 <-> 0 <= Compare b a.
Proof.
  pose proof (cmp_flip b a). pose proof (cmp_eq a b). pose proof (cmp_eq b a).
  pose proof (cmp_flip a b). destruct (Z.eq_dec (Compare a b) 0) as [E|], (Z.eq_dec (Compare b a) 0) as [E'|]; lia.
Qed.

(** The position of a minimum in the sorted list of all entries. *)
Lemma is_min_sorted P (l1 l2 : list entry) o es :
  StronglySorted key_lt (l1 ++ l2) -> es ≡ₚ l1 ++ l2 ->
  (forall e, e ∈ l1 -> ~ P e) -> (forall e, e ∈ l2 -> P e) ->
  is_min Compare P es o -> o = head l2.
Proof.
  intros Hs Hp H1 H2 Hm. apply StronglySorted_app_1_r in Hs.
  destruct o as [e|]; cbn in Hm.
  - destruct Hm as (He & HPe & Hmin). rewrite Hp in He. apply elem_of_app in He as [He|He]; [by apply H1 in He|].
    destruct l2 as [|a l2]; [by apply elem_of_nil in He|]. cbn. f_equal.
    apply elem_of_cons in He as [->|He]; [done|]. exfalso.
    apply StronglySorted_inv in Hs as [_ Hs]. rewrite Forall_forall in Hs.
    specialize (Hs e He). unfold key_lt in Hs.
    assert (Ha : Compare e.1 a.1 <= 0) by (apply Hmin; [rewrite Hp; set_solver | apply H2; set_solver]).
    apply cmp_flip in Hs. lia.
  - destruct l2 as [|a l2]; [done|]. exfalso. eapply (Hm a); [rewrite Hp; set_solver | apply H2; set_solver].
Qed.

Lemma is_max_sorted P (l1 l2 : list entry) o es :
  StronglySorted key_lt (l1 ++ l2) -> es ≡ₚ l1 ++ l2 ->
  (forall e, e ∈ l1 -> P e) -> (forall e, e ∈ l2 -> ~ P e) ->
  is_max Compare P es o -> o = last l1.
Proof.
  intros Hs Hp H1 H2 Hm. apply StronglySorted_app_1_l in Hs.
  destruct o as [e|]; cbn in Hm.
  - destruct Hm as (He & HPe & Hmax). rewrite Hp in He. apply elem_of_app in He as [He|He]; [|by apply H2 in He].
    destruct (last l1) as [a|] eqn:Hl; [|apply last_None in Hl; subst; by apply elem_of_nil in He].
    f_equal. apply last_Some in Hl as [l1' ->].
    apply elem_of_app in He as [He| He%list_elem_of_singleton]; [|done]. exfalso.
    assert (Hea : key_lt e a).
    { apply (StronglySorted_app_1_elem_of key_lt l1' [a]); [done|done|by apply list_elem_of_singleton]. }
    assert (Ha : 0 <= Compare e.1 a.1) by (apply Hmax; [rewrite Hp; set_solver | apply H1; set_solver]).
    unfold key_lt in Hea. lia.
  - destruct (last l1) as [a|] eqn:Hl; [|done]. exfalso. apply last_Some in Hl as [l1' ->].
    eapply (Hm a); [rewrite Hp; set_solver | apply H1; set_solver].
Qed.

(** The entries below a key and those not below it. *)
Definition below (k : bytes) (l : list entry) : list entry := filter (fun e => Compare e.1 k < 0) l.
Definition from (k : bytes) (l : list entry) : list entry := filter (fun e => Compare k e.1 <= 0) l.

Lemma below_from_split k l : StronglySorted key_lt l -> l = below k l ++ from k l.
Proof.
  unfold below, from. induction l as [|a l IH]; intros Hs; [done|].
  apply StronglySorted_inv in Hs as [Hs Ha]. rewrite !filter_cons.
  destruct (decide (Compare a.1 k < 0)) as [Hlt|Hge].
  - rewrite decide_False by (apply cmp_flip in Hlt; lia). cbn. f_equal. by apply IH.
  - rewrite decide_True by (apply cmp_flip_le; lia).
    assert (Hnil : filter (fun e : entry => Compare e.1 k < 0) l = []).
    { apply filter_none. intros e He Hlt. rewrite Forall_forall in Ha. specialize (Ha e He).
      unfold key_lt in Ha. assert (Compare a.1 k < 0) by (eapply cmp_trans; done). lia. }
    specialize (IH Hs). rewrite Hnil in *. cbn in *. f_equal. done.
Qed.
End Sorted.

(** ** What the contract gives a client *)

Section Client.
Context {I} `{Iterator I} (Compare : bytes -> bytes -> Z) `{!TotalCompare Compare}.
Context (seekable : bytes -> Prop).
Context (inv : I -> Prop) (entries : I -> list entry) (cur : I -> option entry).
Context `{!IteratorLaws Compare seekable inv entries cur}.

(** [i] ranges over the sorted list [l1 ++ l2] and stands in front of [l2]. *)
Definition stands (i : I) (l1 l2 : list entry) : Prop :=
  inv i /\ entries i ≡ₚ l1 ++ l2 /\ StronglySorted (key_lt Compare) (l1 ++ l2).

Lemma stands_first i l : stands i [] l -> exists i', SeekToFirst i = Some i' /\ stands i' [] l /\ cur i' = head l.
Proof.
  intros (Hi & Hp & Hs). destruct (law_SeekToFirst i Hi) as (i' & E & Hi' & He & Hm).
  exists i'. split_and!; [done| |eapply is_min_sorted; [done..| | |done]; set_solver].
  unfold stands. rewrite He. done.
Qed.

Lemma stands_last i l : stands i l [] -> exists i', SeekToLast i = Some i' /\ stands i' l [] /\ cur i' = last l.
Proof.
  intros (Hi & Hp & Hs). destruct (law_SeekToLast i Hi) as (i' & E & Hi' & He & Hm).
  exists i'. split_and!; [done| |eapply (is_max_sorted Compare _ l []); [done..| | |done]; set_solver].
  unfold stands. rewrite He. done.
Qed.

Lemma stands_seek i l k : stands i [] l -> seekable k ->
  exists i', Seek i k = Some i' /\ stands i' (below Compare k l) (from Compare k l) /\
    cur i' = head (from Compare k l).
Proof.
  intros (Hi & Hp & Hs) Hk. destruct (law_Seek i k Hi Hk) as (i' & E & Hi' & He & Hm).
  rewrite app_nil_l in *.
  pose proof (below_from_split Compare k l Hs) as Hsplit.
  exists i'. split_and!; [done|unfold stands; rewrite He, <- Hsplit; done|].
  eapply (is_min_sorted Compare _ (below Compare k l)); [rewrite <- Hsplit; done..| | |done].
  - unfold below. intros e [Hlt _]%list_elem_of_filter Hge. apply cmp_flip in Hlt. lia.
  - unfold from. intros e [Hge _]%list_elem_of_filter. done.
Qed.

Lemma stands_next i l1 a l2 :
  stands i l1 (a :: l2) -> cur i = Some a ->
  exists i', Next i = Some i' /\ stands i' (l1 ++ [a]) l2 /\ cur i' = head l2.
Proof.
  intros (Hi & Hp & Hs) Hc. destruct (law_Next i a Hi Hc) as (i' & E & Hi' & He & Hm).
  rewrite cons_middle, app_assoc in Hp, Hs.
  exists i'. split_and!; [done|unfold stands; rewrite He; done|].
  eapply (is_min_sorted Compare _ (l1 ++ [a])); [done..| | |done].
  - intros e [Hin|Hin%list_elem_of_singleton]%elem_of_app Hlt; [|subst; rewrite cmp_refl in Hlt by done; lia].
    apply StronglySorted_app_1_l in Hs.
    pose proof (StronglySorted_app_1_elem_of (key_lt Compare) l1 [a] e a Hs Hin) as Hlt'.
    specialize (Hlt' ltac:(set_solver)). unfold key_lt in Hlt'. apply cmp_flip in Hlt'. lia.
  - intros e Hin. apply (StronglySorted_app_1_elem_of (key_lt Compare) (l1 ++ [a]) l2 a e Hs); set_solver.
Qed.

Lemma stands_prev i l1 a l2 :
  stands i (l1 ++ [a]) l2 -> cur i = Some a ->
  exists i', Prev i = Some i' /\ stands i' l1 (a :: l2) /\ cur i' = last l1.
Proof.
  intros (Hi & Hp & Hs) Hc. destruct (law_Prev i a Hi Hc) as (i' & E & Hi' & He & Hm).
  rewrite <- app_assoc in Hp, Hs. cbn in Hp, Hs.
  exists i'. split_and!; [done|unfold stands; rewrite He; done|].
  eapply (is_max_sorted Compare _ l1 (a :: l2)); [done..| | |done].
  - intros e Hin. apply (StronglySorted_app_1_elem_of (key_lt Compare) l1 (a :: l2) e a Hs); set_solver.
  - intros e [->|Hin]%elem_of_cons Hlt; [rewrite cmp_refl in Hlt by done; lia|].
    apply StronglySorted_app_1_r in Hs. apply StronglySorted_inv in Hs as [_ Hs].
    rewrite Forall_forall in Hs. specialize (Hs e Hin). unfold key_lt in Hs. apply cmp_flip in Hs. lia.
Qed.

Lemma scan_stands n i l1 l2 :
  stands i l1 l2 -> cur i = head l2 ->
  exists i', scan n i = Some (take n l2, i') /\ stands i' (l1 ++ take n l2) (drop n l2) /\
    cur i' = head (drop n l2).
Proof.
  revert i l1 l2. induction n as [|n IH]; intros i l1 l2 Hst Hc.
  - exists i. rewrite app_nil_r. done.
  - pose proof (proj1 Hst) as Hi. cbn [scan]. rewrite law_Valid by done.
    destruct l2 as [|a l2]; rewrite Hc; cbn.
    + exists i. rewrite app_nil_r. done.
    + rewrite law_key, law_value, Hc by done. cbn.
      destruct (stands_next i l1 a l2 Hst Hc) as (i1 & -> & Hst1 & Hc1). cbn.
      destruct (IH i1 _ _ Hst1 Hc1) as (i2 & -> & Hst2 & Hc2). cbn.
      exists i2. rewrite <- app_assoc in Hst2. destruct a. done.
Qed.

Lemma rscan_stands n i l1 l2 :
  stands i l1 l2 -> cur i = last l1 ->
  exists i', rscan n i = Some (take n (reverse l1), i') /\ inv i' /\ cur i' = head (drop n (reverse l1)).
Proof.
  revert i l1 l2. induction n as [|n IH]; intros i l1 l2 Hst Hc.
  - exists i. rewrite take_0, drop_0. split_and!; [done|apply Hst|].
    rewrite head_reverse. done.
  - pose proof (proj1 Hst) as Hi. cbn [rscan]. rewrite law_Valid by done.
    destruct (last l1) as [a|] eqn:Hl; rewrite Hc; cbn -[take drop].
    + apply last_Some in Hl as [l1' ->]. rewrite law_key, law_value, Hc by done. cbn.
      destruct (stands_prev i l1' a l2 Hst Hc) as (i1 & -> & Hst1 & Hc1). cbn.
      destruct (IH i1 _ _ Hst1 Hc1) as (i2 & -> & Hst2 & Hc2). cbn.
      exists i2. rewrite reverse_snoc. destruct a. done.
    + apply last_None in Hl. subst. exists i. done.
Qed.
End Client.

(** ** A reference implementation

    An iterator over a sorted list that remembers its current entry; the
    iterators a store returns for a fixed snapshot behave like it. *)

Record ListIter := mkListIter { li_entries : list entry; li_cur : option entry }.

Section ListIter.
Context (Compare : bytes -> bytes -> Z).

Definition li_move (i : ListIter) (o : option entry) : ListIter := mkListIter (li_entries i) o.

#[export] Instance list_iterator : Iterator ListIter := {|
  Valid := fun i => bool_decide (is_Some (li_cur i));
  key := fun i => fst <$> li_cur i;
  value := fun i => snd <$> li_cur i;
  SeekToFirst := fun i => Some (li_move i (head (li_entries i)));
  SeekToLast := fun i => Some (li_move i (last (li_entries i)));
  Seek := fun i k => Some (li_move i (head (from Compare k (li_entries i))));
  Next := fun i => e ← li_cur i;
    Some (li_move i (head (filter (fun e' => Compare e.1 e'.1 < 0) (li_entries i))));
  Prev := fun i => e ← li_cur i;
    Some (li_move i (last (filter (fun e' => Compare e'.1 e.1 < 0) (li_entries i))));
  status_ok := fun _ => true |}.

Context `{!TotalCompare Compare}.

Definition li_inv (i : ListIter) : Prop := StronglySorted (key_lt Compare) (li_entries i).

Lemma is_min_head_filter (P : entry -> Prop) `{!forall e, Decision (P e)} l :
  StronglySorted (key_lt Compare) l -> is_min Compare P l (head (filter P l)).
Proof.
  induction l as [|a l IH]; intros Hs; [intros e He; by apply elem_of_nil in He|].
  apply StronglySorted_inv in Hs as [Hs Ha]. rewrite filter_cons. destruct (decide (P a)).
  - cbn. split_and!; [by left|done|]. intros e' [->|He']%elem_of_cons _; [rewrite cmp_refl by done; lia|].
    rewrite Forall_forall in Ha. specialize (Ha e' He'). unfold key_lt in Ha. lia.
  - specialize (IH Hs). destruct (head (filter P l)) as [e|]; cbn in *.
    + destruct IH as (Hin & HP & Hlow). split_and!; [by right|done|]. intros e' [->|]%elem_of_cons; [done|eauto].
    + intros e' [->|]%elem_of_cons; [done|eauto].
Qed.

Lemma is_max_last_filter (P : entry -> Prop) `{!forall e, Decision (P e)} l :
  StronglySorted (key_lt Compare) l -> is_max Compare P l (last (filter P l)).
Proof.
  induction l as [|a l IH]; intros Hs; [intros e He; by apply elem_of_nil in He|].
  apply StronglySorted_inv in Hs as [Hs Ha]. specialize (IH Hs). rewrite filter_cons. destruct (decide (P a)).
  - rewrite last_cons. destruct (last (filter P l)) as [e|]; cbn in *.
    + destruct IH as (Hin & HP & Hlow). split_and!; [by right|done|]. intros e' [->|]%elem_of_cons He'; [|eauto].
      rewrite Forall_forall in Ha. specialize (Ha e Hin). unfold key_lt in Ha. apply cmp_flip in Ha. lia.
    + split_and!; [by left|done|]. intros e' [->|]%elem_of_cons He'; [rewrite cmp_refl by done; lia|]. by apply IH in He'.
  - destruct (last (filter P l)) as [e|]; cbn in *.
    + destruct IH as (Hin & HP & Hlow). split_and!; [by right|done|]. intros e' [->|]%elem_of_cons; [done|eauto].
    + intros e' [->|]%elem_of_cons; [done|eauto].
Qed.

Lemma filter_True (l : list entry) : filter (fun _ => True) l = l.
Proof. induction l as [|a l IH]; [done|]. rewrite filter_cons_True by done. by rewrite IH. Qed.

#[export] Instance list_iterator_laws : IteratorLaws Compare (fun _ => True) li_inv li_entries li_cur.
Proof.
  split; try done.
  - intros i e e' Hs. unfold li_inv in Hs. revert Hs. generalize (li_entries i) as l.
    induction l as [|a l IH]; intros Hs He He' E; [by apply elem_of_nil in He|].
    apply StronglySorted_inv in Hs as [Hs Ha]. rewrite Forall_forall in Ha.
    apply elem_of_cons in He as [->|He], He' as [->|He']; [done| | |by apply IH];
      exfalso; [specialize (Ha e' He')|specialize (Ha e He)]; unfold key_lt in Ha;
      rewrite E, cmp_refl in Ha by done; lia.
  - intros i Hi. eexists. split_and!; [done..|]. rewrite <- (filter_True (li_entries i)) at 2.
    by apply is_min_head_filter.
  - intros i Hi. eexists. split_and!; [done..|]. rewrite <- (filter_True (li_entries i)) at 2.
    by apply is_max_last_filter.
  - intros i k Hi _. eexists. split_and!; [done..|]. by apply is_min_head_filter.
  - intros i e Hi Hc. cbn. rewrite Hc. eexists. split_and!; [done..|]. by apply is_min_head_filter.
  - intros i e Hi Hc. cbn. rewrite Hc. eexists. split_and!; [done..|]. by apply is_max_last_filter.
Qed.
End ListIter.
