(* ===== verification/MergeIter.v ===== *)
(** * code/merge_iter.h: the merging iterator

    [IteratorWrapper] caches the validity and key of one instance's iterator;
    [MergingIterator] presents the iterators of all instances as one. Both are
    instances of the [Iterator] interface; the main results are that each keeps
    the interface's contract when what is below it does. *)

From S2P Require Import Prelude Comparator Iterator.

Section MergeIter.
Context {I : Type} `{Iterator I} (Compare : bytes -> bytes -> Z).

(** ** class IteratorWrapper *)

(** [iter_] is a pointer that may be null; the destructor's and [Set]'s [delete]
    is not modelled. *)
Record IteratorWrapper := mkWrapper {
  iter_ : option I;
  valid_ : bool;
  key_ : bytes
}.

Definition wrapper_default : IteratorWrapper := mkWrapper None false [].

Definition wrapper_Update (w : IteratorWrapper) : option IteratorWrapper :=
  it ← iter_ w;
  if Valid it then k ← key it; Some (mkWrapper (Some it) true k)
  else Some (mkWrapper (Some it) false (key_ w)).

Definition wrapper_Set (w : IteratorWrapper) (iter : option I) : option IteratorWrapper :=
  match iter with
  | None => Some (mkWrapper None false (key_ w))
  | Some it => wrapper_Update (mkWrapper (Some it) (valid_ w) (key_ w))
  end.

Definition wrapper_Valid (w : IteratorWrapper) : bool := valid_ w.

Definition wrapper_key (w : IteratorWrapper) : option bytes :=
  if wrapper_Valid w then Some (key_ w) else None.

Definition wrapper_value (w : IteratorWrapper) : option bytes :=
  if wrapper_Valid w then it ← iter_ w; value it else None.

Definition wrapper_status (w : IteratorWrapper) : bool :=
  match iter_ w with Some it => status_ok it | None => false end.

Definition wrapper_Next (w : IteratorWrapper) : option IteratorWrapper :=
  it ← iter_ w; it' ← Next it; wrapper_Update (mkWrapper (Some it') (valid_ w) (key_ w)).

Definition wrapper_Prev (w : IteratorWrapper) : option IteratorWrapper :=
  it ← iter_ w; it' ← Prev it; wrapper_Update (mkWrapper (Some it') (valid_ w) (key_ w)).

Definition wrapper_Seek (w : IteratorWrapper) (k : bytes) : option IteratorWrapper :=
  it ← iter_ w; it' ← Seek it k; wrapper_Update (mkWrapper (Some it') (valid_ w) (key_ w)).

Definition wrapper_SeekToFirst (w : IteratorWrapper) : option IteratorWrapper :=
  it ← iter_ w; it' ← SeekToFirst it; wrapper_Update (mkWrapper (Some it') (valid_ w) (key_ w)).

Definition wrapper_SeekToLast (w : IteratorWrapper) : option IteratorWrapper :=
  it ← iter_ w; it' ← SeekToLast it; wrapper_Update (mkWrapper (Some it') (valid_ w) (key_ w)).

#[export] Instance wrapper_iterator : Iterator IteratorWrapper := {|
  Valid := wrapper_Valid; key := wrapper_key; value := wrapper_value;
  SeekToFirst := wrapper_SeekToFirst; SeekToLast := wrapper_SeekToLast;
  Seek := wrapper_Seek; Next := wrapper_Next; Prev := wrapper_Prev;
  status_ok := wrapper_status |}.

(** ** class MergingIterator *)

Inductive Direction := kForward | kReverse.

(** [current_] points into the array [children_]. *)
Record MergingIterator := mkMerging {
  children_ : list IteratorWrapper;
  current_ : option nat;
  direction_ : Direction
}.

(** One iteration of the loops of [FindSmallest] and [FindLargest] at index [i];
    [better] is the comparison that replaces the candidate. *)
Definition Find_step (better : bytes -> bytes -> bool) (children : list IteratorWrapper)
    (best : option nat) (i : nat) : option nat :=
  match children !! i with
  | Some child =>
      if valid_ child then
        match best with
        | None => Some i
        | Some b =>
            match children !! b with
            | Some best_child => if better (key_ child) (key_ best_child) then Some i else best
            | None => best
            end
        end
      else best
  | None => best
  end.

Definition FindSmallest (children : list IteratorWrapper) : option nat :=
  fold_left (Find_step (fun k smallest => Compare k smallest <? 0) children)
    (seq 0 (length children)) None.

Definition FindLargest (children : list IteratorWrapper) : option nat :=
  fold_left (Find_step (fun k largest => 0 <? Compare k largest) children)
    (reverse (seq 0 (length children))) None.

(** [for (int i = 0; i < n_; i++)] over the children, [i] counting from [i]. *)
Fixpoint for_children (f : nat -> IteratorWrapper -> option IteratorWrapper) (i : nat)
    (children : list IteratorWrapper) : option (list IteratorWrapper) :=
  match children with
  | [] => Some []
  | child :: rest =>
      child' ← f i child; rest' ← for_children f (S i) rest; Some (child' :: rest')
  end.

Definition MergingIterator_new (children : list I) : option MergingIterator :=
  cs ← for_children (fun i w => wrapper_Set w (children !! i)) 0
         (replicate (length children) wrapper_default);
  Some (mkMerging cs (FindSmallest cs) kForward).

Definition merging_Valid (m : MergingIterator) : bool := bool_decide (is_Some (current_ m)).

Definition merging_SeekToFirst (m : MergingIterator) : option MergingIterator :=
  cs ← for_children (fun _ => wrapper_SeekToFirst) 0 (children_ m);
  Some (mkMerging cs (FindSmallest cs) kForward).

Definition merging_SeekToLast (m : MergingIterator) : option MergingIterator :=
  cs ← for_children (fun _ => wrapper_SeekToLast) 0 (children_ m);
  Some (mkMerging cs (FindLargest cs) kReverse).

Definition merging_Seek (m : MergingIterator) (target : bytes) : option MergingIterator :=
  cs ← for_children (fun _ w => wrapper_Seek w target) 0 (children_ m);
  Some (mkMerging cs (FindSmallest cs) kForward).

(** The body of [SeekForPrev] is empty. *)
Definition merging_SeekForPrev (m : MergingIterator) (target : bytes) : MergingIterator := m.

Definition merging_key (m : MergingIterator) : option bytes :=
  c ← current_ m; child ← children_ m !! c; wrapper_key child.

Definition merging_value (m : MergingIterator) : option bytes :=
  c ← current_ m; child ← children_ m !! c; wrapper_value child.

(** The two loops that turn the iterator around. *)
Definition reposition_after (c : nat) (k : bytes) (i : nat) (child : IteratorWrapper)
  : option IteratorWrapper :=
  if decide (i = c) then Some child
  else
    child ← wrapper_Seek child k;
    if wrapper_Valid child then
      ck ← wrapper_key child;
      if Compare k ck =? 0 then wrapper_Next child else Some child
    else Some child.

Definition reposition_before (c : nat) (k : bytes) (i : nat) (child : IteratorWrapper)
  : option IteratorWrapper :=
  if decide (i = c) then Some child
  else
    child ← wrapper_Seek child k;
    if wrapper_Valid child then wrapper_Prev child else wrapper_SeekToLast child.

Definition merging_Next (m : MergingIterator) : option MergingIterator :=
  c ← current_ m;
  k ← merging_key m;
  cs ← match direction_ m with
       | kForward => Some (children_ m)
       | kReverse => for_children (reposition_after c k) 0 (children_ m)
       end;
  child ← cs !! c;
  child' ← wrapper_Next child;
  let cs := <[c := child']> cs in
  Some (mkMerging cs (FindSmallest cs) kForward).

Definition merging_Prev (m : MergingIterator) : option MergingIterator :=
  c ← current_ m;
  k ← merging_key m;
  cs ← match direction_ m with
       | kReverse => Some (children_ m)
       | kForward => for_children (reposition_before c k) 0 (children_ m)
       end;
  child ← cs !! c;
  child' ← wrapper_Prev child;
  let cs := <[c := child']> cs in
  Some (mkMerging cs (FindLargest cs) kReverse).

(** The first status that is not ok ends the loop. *)
Definition merging_status (m : MergingIterator) : bool :=
  forallb wrapper_status (children_ m).

#[export] Instance merging_iterator : Iterator MergingIterator := {|
  Valid := merging_Valid; key := merging_key; value := merging_value;
  SeekToFirst := merging_SeekToFirst; SeekToLast := merging_SeekToLast;
  Seek := merging_Seek; Next := merging_Next; Prev := merging_Prev;
  status_ok := merging_status |}.

(** ** The wrapper keeps the contract *)

Context `{!TotalCompare Compare}.
Context (seekable : bytes -> Prop).
Context (inv : I -> Prop) (entries : I -> list entry) (cur : I -> option entry).
Context `{!IteratorLaws Compare seekable inv entries cur}.

Definition wrapper_entries (w : IteratorWrapper) : list entry :=
  match iter_ w with Some it => entries it | None => [] end.

Definition wrapper_cur (w : IteratorWrapper) : option entry := iter_ w ≫= cur.

Definition wrapper_inv (w : IteratorWrapper) : Prop :=
  exists it, iter_ w = Some it /\ inv it /\ valid_ w = bool_decide (is_Some (cur it)) /\
    forall e, cur it = Some e -> key_ w = e.1.

Lemma wrapper_Update_spec it v k :
  inv it -> exists w, wrapper_Update (mkWrapper (Some it) v k) = Some w /\ wrapper_inv w /\
    wrapper_entries w = entries it /\ wrapper_cur w = cur it.
Proof.
  intros Hi. unfold wrapper_Update. cbn. rewrite law_Valid, law_key by done.
  destruct (cur it) as [e|] eqn:Hc; cbn; eexists; (split; [done|]);
    (split_and!; [|done|by cbn]); exists it; rewrite Hc; split_and!; try done.
  intros e' [= <-]. done.
Qed.

#[export] Instance wrapper_laws : IteratorLaws Compare seekable wrapper_inv wrapper_entries wrapper_cur.
Proof.
  assert (Hstep : forall (step : I -> option I) P it v k,
    (exists it', step it = Some it' /\ inv it' /\ entries it' = entries it /\ P (cur it')) ->
    exists w, (it' ← step it; wrapper_Update (mkWrapper (Some it') v k)) = Some w /\ wrapper_inv w /\
      wrapper_entries w = entries it /\ P (wrapper_cur w)).
  { intros step P it v k (it' & -> & Hi' & He' & HP). cbn.
    destruct (wrapper_Update_spec it' v k Hi') as (w & E & Hw & Hwe & Hwc).
    exists w. rewrite Hwe, Hwc, He'. done. }
  split.
  - intros w (it & Hit & Hi & Hv & Hk). cbn. unfold wrapper_Valid, wrapper_cur. rewrite Hit, Hv. done.
  - intros w (it & Hit & Hi & Hv & Hk). cbn. unfold wrapper_key, wrapper_Valid, wrapper_cur.
    rewrite Hit, Hv. cbn. destruct (cur it) as [e|]; cbn; [|done]. f_equal. by apply Hk.
  - intros w (it & Hit & Hi & Hv & Hk). cbn. unfold wrapper_value, wrapper_Valid, wrapper_cur.
    rewrite Hit, Hv. cbn. rewrite law_value by done. destruct (cur it); done.
  - intros w e e' (it & Hit & Hi & _). unfold wrapper_entries. rewrite Hit. by apply law_keys.
  - intros w (it & Hit & Hi & _). cbn. unfold wrapper_SeekToFirst, wrapper_entries at 2 3. rewrite Hit. cbn.
    apply (Hstep SeekToFirst (is_min Compare _ _) it (valid_ w) (key_ w)). by apply law_SeekToFirst.
  - intros w (it & Hit & Hi & _). cbn. unfold wrapper_SeekToLast, wrapper_entries at 2 3. rewrite Hit. cbn.
    apply (Hstep SeekToLast (is_max Compare _ _) it (valid_ w) (key_ w)). by apply law_SeekToLast.
  - intros w e (it & Hit & Hi & _). unfold wrapper_entries. rewrite Hit. by apply law_seekable.
  - intros w k (it & Hit & Hi & _) Hk. cbn. unfold wrapper_Seek, wrapper_entries at 2 3. rewrite Hit. cbn.
    apply (Hstep (fun i => Seek i k) (is_min Compare _ _) it (valid_ w) (key_ w)). by apply law_Seek.
  - intros w e (it & Hit & Hi & _) Hc. cbn. unfold wrapper_cur in Hc. rewrite Hit in Hc. cbn in Hc.
    unfold wrapper_Next, wrapper_entries at 2 3. rewrite Hit. cbn. apply (Hstep Next (is_min Compare _ _) it (valid_ w) (key_ w)). by apply law_Next.
  - intros w e (it & Hit & Hi & _) Hc. cbn. unfold wrapper_cur in Hc. rewrite Hit in Hc. cbn in Hc.
    unfold wrapper_Prev, wrapper_entries at 2 3. rewrite Hit. cbn. apply (Hstep Prev (is_max Compare _ _) it (valid_ w) (key_ w)). by apply law_Prev.
Qed.

(** ** Loops over the children: lemmas *)

Lemma for_children_spec f (Q : nat -> IteratorWrapper -> IteratorWrapper -> Prop) i cs :
  (forall j c, cs !! j = Some c -> exists c', f (i + j)%nat c = Some c' /\ Q (i + j)%nat c c') ->
  exists cs', for_children f i cs = Some cs' /\
    Forall2 (fun jc c' => Q jc.1 jc.2 c') (zip (seq i (length cs)) cs) cs'.
Proof.
  revert i. induction cs as [|c cs IH]; intros i Hf; cbn.
  - exists []. split; [done|constructor].
  - destruct (Hf 0%nat c) as (c' & E & HQ); [done|]. rewrite Nat.add_0_r in E, HQ. rewrite E. cbn.
    destruct (IH (S i)) as (cs' & E' & HF).
    { intros j d Hd. destruct (Hf (S j) d) as (d' & Ed & HQd); [done|].
      rewrite Nat.add_succ_r in Ed, HQd. exists d'. done. }
    rewrite E'. cbn. exists (c' :: cs'). split; [done|]. constructor; done.
Qed.

(** The same for loops that treat every child alike, in terms of lookups. *)
Lemma for_children_lookup f (Q : nat -> IteratorWrapper -> IteratorWrapper -> Prop) cs :
  (forall j c, cs !! j = Some c -> exists c', f j c = Some c' /\ Q j c c') ->
  exists cs', for_children f 0 cs = Some cs' /\ length cs' = length cs /\
    forall j c', cs' !! j = Some c' -> exists c, cs !! j = Some c /\ Q j c c'.
Proof.
  intros Hf. destruct (for_children_spec f Q 0 cs) as (cs' & E & HF); [done|].
  exists cs'. split; [done|]. pose proof (Forall2_length _ _ _ HF) as Hl.
  rewrite length_zip_with, length_seq, Nat.min_id in Hl. split; [done|].
  intros j c' Hc'. destruct (Forall2_lookup_r _ _ _ _ _ HF Hc') as ([j' c] & Hz & HQ).
  apply lookup_zip_with_Some in Hz as (a & b & [= -> ->] & Ha & Hb).
  apply lookup_seq in Ha as [-> _]. exists b. done.
Qed.

Section Find.
Context (better : bytes -> bytes -> bool) (leq : bytes -> bytes -> Prop).
Hypothesis better_true : forall a b, better a b = true -> leq a b.
Hypothesis better_false : forall a b, better a b = false -> leq b a.
Hypothesis leq_trans : forall a b c, leq a b -> leq b c -> leq a c.
Hypothesis leq_refl : forall a, leq a a.

(** The candidate after a scan of the indices [ixs]: valid, and best among the
    valid children seen. *)
Local Definition best_of (cs : list IteratorWrapper) (ixs : list nat) (o : option nat) : Prop :=
  match o with
  | Some b => exists cb, cs !! b = Some cb /\ valid_ cb = true /\
      forall i c, i ∈ ixs -> cs !! i = Some c -> valid_ c = true -> leq (key_ cb) (key_ c)
  | None => forall i c, i ∈ ixs -> cs !! i = Some c -> valid_ c = false
  end.

Lemma Find_step_best cs ixs o i :
  best_of cs ixs o -> best_of cs (ixs ++ [i]) (Find_step better cs o i).
Proof.
  intros Hb. unfold Find_step.
  destruct (cs !! i) as [c|] eqn:Hi; [|destruct o as [b|]; cbn in *].
  - destruct (valid_ c) eqn:Hv.
    + destruct o as [b|]; cbn in Hb.
      * destruct Hb as (cb & Hcb & Hvb & Hall). rewrite Hcb.
        destruct (better (key_ c) (key_ cb)) eqn:Hbt.
        -- exists c. split_and!; [done|done|]. intros j d [Hj|Hj%list_elem_of_singleton]%elem_of_app Hd Hvd.
           ++ eapply leq_trans; [by apply better_true|]. by eapply Hall.
           ++ simplify_eq. done.
        -- exists cb. split_and!; [done|done|]. intros j d [Hj|Hj%list_elem_of_singleton]%elem_of_app Hd Hvd.
           ++ by eapply Hall.
           ++ simplify_eq. by apply better_false.
      * exists c. split_and!; [done|done|]. intros j d [Hj|Hj%list_elem_of_singleton]%elem_of_app Hd Hvd.
        -- rewrite (Hb j d) in Hvd by done. done.
        -- simplify_eq. done.
    + destruct o as [b|]; cbn in *.
      * destruct Hb as (cb & Hcb & Hvb & Hall). exists cb. split_and!; [done|done|].
        intros j d [Hj|Hj%list_elem_of_singleton]%elem_of_app Hd Hvd; [by eapply Hall|]. simplify_eq. congruence.
      * intros j d [Hj|Hj%list_elem_of_singleton]%elem_of_app Hd; [by eapply Hb|]. simplify_eq. done.
  - destruct Hb as (cb & Hcb & Hvb & Hall). exists cb. split_and!; [done|done|].
    intros j d [Hj|Hj%list_elem_of_singleton]%elem_of_app Hd Hvd; [by eapply Hall|]. simplify_eq.
  - intros j d [Hj|Hj%list_elem_of_singleton]%elem_of_app Hd; [by eapply Hb|]. simplify_eq.
Qed.

Lemma Find_best cs ixs : best_of cs ixs (fold_left (Find_step better cs) ixs None).
Proof.
  enough (G : forall ixs' o, best_of cs ixs' o -> best_of cs (ixs' ++ ixs) (fold_left (Find_step better cs) ixs o)).
  { apply (G [] None). intros i c Hi. by apply elem_of_nil in Hi. }
  induction ixs as [|i ixs IH]; intros ixs' o Ho; cbn.
  - rewrite app_nil_r. done.
  - rewrite cons_middle, app_assoc. apply IH. by apply Find_step_best.
Qed.
End Find.

(** ** The merging iterator keeps the contract *)

Definition merging_entries (m : MergingIterator) : list entry :=
  concat (wrapper_entries <$> children_ m).

Definition merging_cur (m : MergingIterator) : option entry :=
  c ← current_ m; child ← children_ m !! c; wrapper_cur child.

(** No two children share a key: each key lives in one instance. *)
Definition disjoint_children (cs : list IteratorWrapper) : Prop :=
  forall i j ci cj e e', cs !! i = Some ci -> cs !! j = Some cj -> i <> j ->
    e ∈ wrapper_entries ci -> e' ∈ wrapper_entries cj -> e.1 <> e'.1.

(** The children other than the current one stand at the first entry not below
    (or the last entry not above) the current key. *)
Definition positioned (d : Direction) (k : bytes) (child : IteratorWrapper) : Prop :=
  match d with
  | kForward => is_min Compare (fun e => Compare k e.1 <= 0) (wrapper_entries child) (wrapper_cur child)
  | kReverse => is_max Compare (fun e => Compare e.1 k <= 0) (wrapper_entries child) (wrapper_cur child)
  end.

Definition merging_inv (m : MergingIterator) : Prop :=
  Forall wrapper_inv (children_ m) /\ disjoint_children (children_ m) /\
  match current_ m with
  | None => True
  | Some j => exists c e, children_ m !! j = Some c /\ wrapper_cur c = Some e /\
      e ∈ wrapper_entries c /\
      forall j' c', children_ m !! j' = Some c' -> j' <> j -> positioned (direction_ m) e.1 c'
  end.

Lemma elem_of_merging e (cs : list IteratorWrapper) :
  e ∈ concat (wrapper_entries <$> cs) <-> exists j c, cs !! j = Some c /\ e ∈ wrapper_entries c.
Proof.
  rewrite list_elem_of_In, in_concat. setoid_rewrite <- list_elem_of_In. split.
  - intros (l & Hl & He). apply list_elem_of_fmap in Hl as (c & -> & Hc).
    apply list_elem_of_lookup in Hc as [j Hj]. eauto.
  - intros (j & c & Hj & He). exists (wrapper_entries c). split; [|done].
    apply list_elem_of_fmap. exists c. split; [done|]. by eapply list_elem_of_lookup_2.
Qed.

Lemma wrapper_valid_cur w : wrapper_inv w -> valid_ w = true -> exists e, wrapper_cur w = Some e /\ key_ w = e.1.
Proof.
  intros (it & Hit & Hi & Hv & Hk) Hval. unfold wrapper_cur. rewrite Hit. cbn. rewrite Hval in Hv.
  symmetry in Hv. apply bool_decide_eq_true in Hv as [e He]. eauto.
Qed.

Lemma wrapper_invalid_cur w : wrapper_inv w -> valid_ w = false -> wrapper_cur w = None.
Proof.
  intros (it & Hit & Hi & Hv & Hk) Hval. unfold wrapper_cur. rewrite Hit. cbn. rewrite Hval in Hv.
  symmetry in Hv. apply bool_decide_eq_false in Hv. by apply eq_None_not_Some.
Qed.

(** What a scan of [FindSmallest] over well-formed children returns. *)
Lemma FindSmallest_spec cs :
  Forall wrapper_inv cs ->
  match FindSmallest cs with
  | Some j => exists c e, cs !! j = Some c /\ wrapper_cur c = Some e /\
      forall j' c' e', cs !! j' = Some c' -> wrapper_cur c' = Some e' -> Compare e.1 e'.1 <= 0
  | None => forall j c, cs !! j = Some c -> wrapper_cur c = None
  end.
Proof.
  intros Hw. rewrite Forall_lookup in Hw.
  assert (Hb : best_of (fun a b => Compare a b <= 0) cs (seq 0 (length cs)) (FindSmallest cs)).
  { apply Find_best; cbv beta.
    - intros a b ?%Z.ltb_lt. lia.
    - intros a b ?%Z.ltb_ge. by apply cmp_flip_le.
    - by apply cmp_le_trans.
    - intros a. rewrite cmp_refl by done. lia. }
  destruct (FindSmallest cs) as [j|].
  - destruct Hb as (c & Hc & Hv & Hall). destruct (wrapper_valid_cur c) as (e & He & Hke); [eauto|done|].
    exists c, e. split_and!; [done|done|]. intros j' c' e' Hc' He'.
    destruct (valid_ c') eqn:Hv'; [|rewrite (wrapper_invalid_cur c') in He'; [done|eauto|done]].
    destruct (wrapper_valid_cur c') as (e'' & He'' & Hke'); [eauto|done|]. simplify_eq.
    rewrite <- Hke, <- Hke'. eapply Hall; [|done|done]. apply elem_of_seq. apply lookup_lt_Some in Hc'. lia.
  - intros j c Hc. apply wrapper_invalid_cur; [eauto|]. eapply Hb; [|done].
    apply elem_of_seq. apply lookup_lt_Some in Hc. lia.
Qed.

Lemma FindLargest_spec cs :
  Forall wrapper_inv cs ->
  match FindLargest cs with
  | Some j => exists c e, cs !! j = Some c /\ wrapper_cur c = Some e /\
      forall j' c' e', cs !! j' = Some c' -> wrapper_cur c' = Some e' -> 0 <= Compare e.1 e'.1
  | None => forall j c, cs !! j = Some c -> wrapper_cur c = None
  end.
Proof.
  intros Hw. rewrite Forall_lookup in Hw.
  assert (Hb : best_of (fun a b => 0 <= Compare a b) cs (reverse (seq 0 (length cs))) (FindLargest cs)).
  { apply Find_best; cbv beta.
    - intros a b ?%Z.ltb_lt. lia.
    - intros a b ?%Z.ltb_ge. by apply cmp_flip_le.
    - intros a b c. rewrite <- !cmp_flip_le by done. intros. by eapply cmp_le_trans.
    - intros a. rewrite cmp_refl by done. lia. }
  destruct (FindLargest cs) as [j|].
  - destruct Hb as (c & Hc & Hv & Hall). destruct (wrapper_valid_cur c) as (e & He & Hke); [eauto|done|].
    exists c, e. split_and!; [done|done|]. intros j' c' e' Hc' He'.
    destruct (valid_ c') eqn:Hv'; [|rewrite (wrapper_invalid_cur c') in He'; [done|eauto|done]].
    destruct (wrapper_valid_cur c') as (e'' & He'' & Hke'); [eauto|done|]. simplify_eq.
    rewrite <- Hke, <- Hke'. eapply Hall; [|done|done].
    apply elem_of_reverse, elem_of_seq. apply lookup_lt_Some in Hc'. lia.
  - intros j c Hc. apply wrapper_invalid_cur; [eauto|]. eapply Hb; [|done].
    apply elem_of_reverse, elem_of_seq. apply lookup_lt_Some in Hc. lia.
Qed.

(** Once every child stands at its smallest entry of an upward-closed set, the
    smallest of them is the smallest of the union. *)
Lemma FindSmallest_settle (P : entry -> Prop) cs :
  (forall e e', P e -> Compare e.1 e'.1 <= 0 -> P e') ->
  Forall wrapper_inv cs -> disjoint_children cs ->
  (forall j c, cs !! j = Some c -> is_min Compare P (wrapper_entries c) (wrapper_cur c)) ->
  let m := mkMerging cs (FindSmallest cs) kForward in
  merging_inv m /\ is_min Compare P (merging_entries m) (merging_cur m).
Proof.
  intros Hup Hw Hd Hmin m. pose proof (FindSmallest_spec cs Hw) as Hs.
  unfold merging_inv, merging_cur, merging_entries, m. cbn.
  destruct (FindSmallest cs) as [j|]; cbn.
  - destruct Hs as (c & e & Hc & He & Hall).
    pose proof (Hmin j c Hc) as Hm. rewrite He in Hm. cbn in Hm. destruct Hm as (Hin & HPe & Hlow).
    split; [split_and!; [done|done|]|].
    + exists c, e. split_and!; [done..|]. intros j' c' Hc' Hj. cbn.
      pose proof (Hmin j' c' Hc') as Hm'. destruct (wrapper_cur c') as [e''|] eqn:He''; cbn in *.
      * destruct Hm' as (Hin' & HP' & Hlow'). split_and!; [done|by eapply Hall|]. intros; eauto.
      * intros e' Hin' Hle. eapply Hm'; [done|]. eauto.
    + rewrite Hc. cbn. rewrite He. cbn. split_and!; [|done|].
      * apply elem_of_merging. eauto.
      * intros e' He' HP'. apply elem_of_merging in He' as (j' & c' & Hc' & Hin').
        pose proof (Hmin j' c' Hc') as Hm'. destruct (wrapper_cur c') as [e''|] eqn:He''; cbn in Hm'.
        -- destruct Hm' as (Hin'' & HP'' & Hlow'). eapply cmp_le_trans; [done|by eapply Hall|eauto].
        -- exfalso. by eapply Hm'.
  - split; [done|]. intros e He HP. apply elem_of_merging in He as (j & c & Hc & Hin).
    pose proof (Hmin j c Hc) as Hm. rewrite (Hs j c Hc) in Hm. by eapply Hm.
Qed.

Lemma FindLargest_settle (P : entry -> Prop) cs :
  (forall e e', P e -> Compare e'.1 e.1 <= 0 -> P e') ->
  Forall wrapper_inv cs -> disjoint_children cs ->
  (forall j c, cs !! j = Some c -> is_max Compare P (wrapper_entries c) (wrapper_cur c)) ->
  let m := mkMerging cs (FindLargest cs) kReverse in
  merging_inv m /\ is_max Compare P (merging_entries m) (merging_cur m).
Proof.
  intros Hdown Hw Hd Hmax m. pose proof (FindLargest_spec cs Hw) as Hs.
  assert (Hfl : forall a b, 0 <= Compare a b -> Compare b a <= 0) by (intros; apply cmp_flip_le; done).
  unfold merging_inv, merging_cur, merging_entries, m. cbn.
  destruct (FindLargest cs) as [j|]; cbn.
  - destruct Hs as (c & e & Hc & He & Hall).
    pose proof (Hmax j c Hc) as Hm. rewrite He in Hm. cbn in Hm. destruct Hm as (Hin & HPe & Hlow).
    split; [split_and!; [done|done|]|].
    + exists c, e. split_and!; [done..|]. intros j' c' Hc' Hj. cbn.
      pose proof (Hmax j' c' Hc') as Hm'. destruct (wrapper_cur c') as [e''|] eqn:He''; cbn in *.
      * destruct Hm' as (Hin' & HP' & Hlow'). split_and!; [done|apply Hfl; by eapply Hall|]. intros; eauto.
      * intros e' Hin' Hle. eapply Hm'; [done|]. eauto.
    + rewrite Hc. cbn. rewrite He. cbn. split_and!; [|done|].
      * apply elem_of_merging. eauto.
      * intros e' He' HP'. apply elem_of_merging in He' as (j' & c' & Hc' & Hin').
        pose proof (Hmax j' c' Hc') as Hm'. destruct (wrapper_cur c') as [e''|] eqn:He''; cbn in Hm'.
        -- destruct Hm' as (Hin'' & HP'' & Hlow'). apply cmp_flip_le; [done|].
           eapply cmp_le_trans; [done|apply Hfl; eauto|apply Hfl; by eapply Hall].
        -- exfalso. by eapply Hm'.
  - split; [done|]. intros e He HP. apply elem_of_merging in He as (j & c & Hc & Hin).
    pose proof (Hmax j c Hc) as Hm. rewrite (Hs j c Hc) in Hm. by eapply Hm.
Qed.

(** [cs'] are the children [cs], moved: same entries at every index. *)
Definition moved (cs cs' : list IteratorWrapper) : Prop :=
  length cs' = length cs /\
  forall j c', cs' !! j = Some c' -> exists c, cs !! j = Some c /\ wrapper_entries c' = wrapper_entries c.

Lemma moved_entries cs cs' : moved cs cs' -> wrapper_entries <$> cs' = wrapper_entries <$> cs.
Proof.
  intros [Hl Hm]. apply list_eq_same_length with (length cs); [rewrite length_fmap; done..|].
  intros j a b Hj Ha Hb. rewrite list_lookup_fmap in Ha, Hb.
  destruct (cs' !! j) as [c'|] eqn:Hc'; [|done]. destruct (Hm j c' Hc') as (c & Hc & E).
  rewrite Hc in Hb. simplify_eq/=. done.
Qed.

Lemma moved_disjoint cs cs' : moved cs cs' -> disjoint_children cs -> disjoint_children cs'.
Proof.
  intros [_ Hm] Hd i j ci' cj' e e' Hi Hj Hij. destruct (Hm i ci' Hi) as (ci & Hci & ->), (Hm j cj' Hj) as (cj & Hcj & ->).
  by eapply Hd.
Qed.

Lemma moved_insert cs c child child' :
  cs !! c = Some child -> wrapper_entries child' = wrapper_entries child -> moved cs (<[c := child']> cs).
Proof.
  intros Hc E. split; [apply length_insert|]. intros j d Hd.
  destruct (decide (j = c)) as [->|].
  - rewrite list_lookup_insert_eq in Hd by (by eapply lookup_lt_Some). simplify_eq. eauto.
  - rewrite list_lookup_insert_ne in Hd by done. eauto.
Qed.

Lemma moved_trans cs1 cs2 cs3 : moved cs1 cs2 -> moved cs2 cs3 -> moved cs1 cs3.
Proof.
  intros [L1 H1] [L2 H2]. split; [lia|]. intros j c3 Hc3.
  destruct (H2 j c3 Hc3) as (c2 & Hc2 & ->), (H1 j c2 Hc2) as (c1 & Hc1 & ->). eauto.
Qed.

(** A loop over the children in which every step is lawful. *)
Lemma for_children_moved f cs (Q : nat -> IteratorWrapper -> Prop) :
  Forall wrapper_inv cs ->
  (forall j c, cs !! j = Some c -> wrapper_inv c ->
     exists c', f j c = Some c' /\ wrapper_inv c' /\ wrapper_entries c' = wrapper_entries c /\ Q j c') ->
  exists cs', for_children f 0 cs = Some cs' /\ moved cs cs' /\ Forall wrapper_inv cs' /\
    forall j c', cs' !! j = Some c' -> Q j c'.
Proof.
  intros Hw Hf. rewrite Forall_lookup in Hw.
  destruct (for_children_lookup f
    (fun j c c' => wrapper_inv c' /\ wrapper_entries c' = wrapper_entries c /\ Q j c') cs)
    as (cs' & E & Hl & Hall).
  { intros j c Hc. destruct (Hf j c Hc) as (c' & ?); eauto. }
  exists cs'. split_and!; [done|split; [done|]| |].
  - intros j c' Hc'. destruct (Hall j c' Hc') as (c & Hc & _ & E' & _). eauto.
  - apply Forall_lookup. intros j c' Hc'. destruct (Hall j c' Hc') as (c & Hc & ? & _). done.
  - intros j c' Hc'. destruct (Hall j c' Hc') as (c & Hc & _ & _ & ?). done.
Qed.

Lemma is_min_weaken P P' l o :
  (forall e, e ∈ l -> P e <-> P' e) -> is_min Compare P l o -> is_min Compare P' l o.
Proof.
  intros HP. destruct o as [e|]; cbn.
  - intros (Hin & He & Hlow). split_and!; [done|by apply HP|]. intros e' Hin' He'. apply Hlow; [done|]. by apply HP.
  - intros Hno e Hin He. apply (Hno e Hin). by apply HP.
Qed.

Lemma is_max_weaken P P' l o :
  (forall e, e ∈ l -> P e <-> P' e) -> is_max Compare P l o -> is_max Compare P' l o.
Proof.
  intros HP. destruct o as [e|]; cbn.
  - intros (Hin & He & Hlow). split_and!; [done|by apply HP|]. intros e' Hin' He'. apply Hlow; [done|]. by apply HP.
  - intros Hno e Hin He. apply (Hno e Hin). by apply HP.
Qed.

Lemma cmp_le_lt_iff a b : a <> b -> Compare a b <= 0 <-> Compare a b < 0.
Proof. intros Hne. split; [|lia]. intros. pose proof (cmp_eq a b). destruct (Z.eq_dec (Compare a b) 0); [tauto|lia]. Qed.

(** After turning around, a child other than the current one stands at its first
    entry above (last entry below) the current key. *)
Lemma reposition_after_spec c k j child :
  wrapper_inv child -> j <> c -> seekable k -> (forall e, e ∈ wrapper_entries child -> e.1 <> k) ->
  exists child', reposition_after c k j child = Some child' /\ wrapper_inv child' /\
    wrapper_entries child' = wrapper_entries child /\
    is_min Compare (fun e => Compare k e.1 < 0) (wrapper_entries child) (wrapper_cur child').
Proof.
  intros Hw Hj Hs Hk. unfold reposition_after. rewrite decide_False by done.
  destruct (law_Seek child k Hw Hs) as (d & E & Hd & Hde & Hmin). cbn in E. rewrite E. cbn.
  assert (Hmin' : is_min Compare (fun e => Compare k e.1 < 0) (wrapper_entries child) (wrapper_cur d)).
  { eapply is_min_weaken; [|done]. intros e He. cbv beta. apply cmp_le_lt_iff. intros E'. by apply (Hk e He). }
  change (wrapper_Valid d) with (Valid d). rewrite law_Valid by done.
  destruct (wrapper_cur d) as [e|] eqn:Hc; cbn -[wrapper_key]; [|exists d; rewrite Hc; done].
  change (wrapper_key d) with (key d). rewrite law_key, Hc by done. cbn.
  destruct (Z.eqb_spec (Compare k e.1) 0) as [E0|]; [|exists d; rewrite Hc; done].
  exfalso. apply cmp_eq in E0. apply (Hk e); [|done]. apply Hmin.
Qed.

Lemma reposition_before_spec c k j child :
  wrapper_inv child -> j <> c -> seekable k -> (forall e, e ∈ wrapper_entries child -> e.1 <> k) ->
  exists child', reposition_before c k j child = Some child' /\ wrapper_inv child' /\
    wrapper_entries child' = wrapper_entries child /\
    is_max Compare (fun e => Compare e.1 k < 0) (wrapper_entries child) (wrapper_cur child').
Proof.
  intros Hw Hj Hs Hk. unfold reposition_before. rewrite decide_False by done.
  destruct (law_Seek child k Hw Hs) as (d & E & Hd & Hde & Hmin). cbn in E. rewrite E. cbn.
  change (wrapper_Valid d) with (Valid d). rewrite law_Valid by done.
  destruct (wrapper_cur d) as [e|] eqn:Hc; cbn -[wrapper_Prev wrapper_SeekToLast].
  - destruct (law_Prev d e Hd Hc) as (d' & E' & Hd' & Hde' & Hmax). cbn in E'. rewrite Hde in *.
    exists d'. split_and!; [done..|]. eapply is_max_weaken; [|done]. intros e' He'. cbv beta.
    destruct Hmin as (Hin & Hge & Hlow). split; intros Hlt.
    + destruct (Z.lt_ge_cases (Compare e'.1 k) 0) as [|Hge']; [done|].
      apply cmp_flip_le in Hge'; [|done]. specialize (Hlow e' He' Hge'). apply cmp_flip_le in Hlow; [lia|done].
    + by eapply cmp_lt_le_trans.
  - destruct (law_SeekToLast d Hd) as (d' & E' & Hd' & Hde' & Hmax). cbn in E'. rewrite Hde in *.
    exists d'. split_and!; [done..|]. eapply is_max_weaken; [|done]. intros e' He'. cbv beta. split; [|done]. intros _.
    specialize (Hmin e' He'). cbn in Hmin. rewrite cmp_flip. lia.
Qed.

(** Turning around: every child but the current one is brought behind (before)
    the current key, whichever direction the iterator came from. *)
Lemma merging_others_after m j c e :
  merging_inv m -> current_ m = Some j -> children_ m !! j = Some c -> wrapper_cur c = Some e ->
  exists cs, match direction_ m with
             | kForward => Some (children_ m)
             | kReverse => for_children (reposition_after j e.1) 0 (children_ m)
             end = Some cs /\
    moved (children_ m) cs /\ Forall wrapper_inv cs /\ cs !! j = Some c /\
    forall j' c', cs !! j' = Some c' -> j' <> j ->
      is_min Compare (fun e' => Compare e.1 e'.1 < 0) (wrapper_entries c') (wrapper_cur c').
Proof.
  intros (Hw & Hd & Hpos) Hj Hc He. rewrite Hj in Hpos.
  destruct Hpos as (c0 & e0 & Hc0 & He0 & Hin0 & Hpos). simplify_eq.
  assert (Hne : forall j' c' e', children_ m !! j' = Some c' -> j' <> j -> e' ∈ wrapper_entries c' -> e'.1 <> e0.1).
  { intros j' c' e' Hc' Hjj Hin'. by eapply (Hd j' j). }
  assert (Hse : seekable e0.1) by (rewrite Forall_lookup in Hw; eapply (law_seekable c0); eauto).
  destruct (direction_ m).
  - exists (children_ m). split_and!; [done|split; [done|eauto]|done|done|].
    intros j' c' Hc' Hjj. eapply is_min_weaken; [|by apply (Hpos j' c' Hc' Hjj)].
    intros e' He'. cbv beta. apply cmp_le_lt_iff. intros E. by apply (Hne j' c' e').
  - destruct (for_children_moved (reposition_after j e0.1) (children_ m)
      (fun i c' => if decide (i = j) then c' = c0
        else is_min Compare (fun e' => Compare e0.1 e'.1 < 0) (wrapper_entries c') (wrapper_cur c')))
      as (cs & E & Hm & Hws & Hall); [done| |].
    + intros i d Hdi Hdw. destruct (decide (i = j)) as [->|Hij].
      * simplify_eq. exists c0. unfold reposition_after. rewrite decide_True by done. done.
      * destruct (reposition_after_spec j e0.1 i d Hdw Hij Hse) as (d' & E & Hd' & Hde & Hmin); [eauto|].
        exists d'. rewrite Hde. done.
    + exists cs. split_and!; [done|done|done| |].
      * destruct (lookup_lt_is_Some_2 cs j) as [d Hdj]; [destruct Hm as [-> _]; by eapply lookup_lt_Some|].
        rewrite Hdj. specialize (Hall j d Hdj). rewrite decide_True in Hall by done. by subst.
      * intros j' c' Hc' Hjj. specialize (Hall j' c' Hc'). by rewrite decide_False in Hall.
Qed.

Lemma merging_others_before m j c e :
  merging_inv m -> current_ m = Some j -> children_ m !! j = Some c -> wrapper_cur c = Some e ->
  exists cs, match direction_ m with
             | kReverse => Some (children_ m)
             | kForward => for_children (reposition_before j e.1) 0 (children_ m)
             end = Some cs /\
    moved (children_ m) cs /\ Forall wrapper_inv cs /\ cs !! j = Some c /\
    forall j' c', cs !! j' = Some c' -> j' <> j ->
      is_max Compare (fun e' => Compare e'.1 e.1 < 0) (wrapper_entries c') (wrapper_cur c').
Proof.
  intros (Hw & Hd & Hpos) Hj Hc He. rewrite Hj in Hpos.
  destruct Hpos as (c0 & e0 & Hc0 & He0 & Hin0 & Hpos). simplify_eq.
  assert (Hne : forall j' c' e', children_ m !! j' = Some c' -> j' <> j -> e' ∈ wrapper_entries c' -> e'.1 <> e0.1).
  { intros j' c' e' Hc' Hjj Hin'. by eapply (Hd j' j). }
  assert (Hse : seekable e0.1) by (rewrite Forall_lookup in Hw; eapply (law_seekable c0); eauto).
  destruct (direction_ m).
  - destruct (for_children_moved (reposition_before j e0.1) (children_ m)
      (fun i c' => if decide (i = j) then c' = c0
        else is_max Compare (fun e' => Compare e'.1 e0.1 < 0) (wrapper_entries c') (wrapper_cur c')))
      as (cs & E & Hm & Hws & Hall); [done| |].
    + intros i d Hdi Hdw. destruct (decide (i = j)) as [->|Hij].
      * simplify_eq. exists c0. unfold reposition_before. rewrite decide_True by done. done.
      * destruct (reposition_before_spec j e0.1 i d Hdw Hij Hse) as (d' & E & Hd' & Hde & Hmin); [eauto|].
        exists d'. rewrite Hde. done.
    + exists cs. split_and!; [done|done|done| |].
      * destruct (lookup_lt_is_Some_2 cs j) as [d Hdj]; [destruct Hm as [-> _]; by eapply lookup_lt_Some|].
        rewrite Hdj. specialize (Hall j d Hdj). rewrite decide_True in Hall by done. by subst.
      * intros j' c' Hc' Hjj. specialize (Hall j' c' Hc'). by rewrite decide_False in Hall.
  - exists (children_ m). split_and!; [done|split; [done|eauto]|done|done|].
    intros j' c' Hc' Hjj. eapply is_max_weaken; [|by apply (Hpos j' c' Hc' Hjj)].
    intros e' He'. cbv beta. apply cmp_le_lt_iff. intros E. by apply (Hne j' c' e').
Qed.

Lemma merging_cur_inv m e :
  merging_cur m = Some e ->
  exists j c, current_ m = Some j /\ children_ m !! j = Some c /\ wrapper_cur c = Some e.
Proof.
  unfold merging_cur. destruct (current_ m) as [j|]; cbn; [|done].
  destruct (children_ m !! j) as [c|] eqn:Hc; cbn; [|done]. eauto.
Qed.

Lemma merging_key_cur m : merging_inv m -> merging_key m = fst <$> merging_cur m.
Proof.
  intros (Hw & _ & Hpos). unfold merging_key, merging_cur. destruct (current_ m) as [j|]; cbn; [|done].
  destruct Hpos as (c & e & Hc & He & _). rewrite Hc. cbn. change (wrapper_key c) with (key c).
  rewrite law_key; [done|]. rewrite Forall_lookup in Hw. eauto.
Qed.

Lemma merging_Next_spec m e :
  merging_inv m -> merging_cur m = Some e ->
  exists m', merging_Next m = Some m' /\ merging_inv m' /\ merging_entries m' = merging_entries m /\
    is_min Compare (fun e' => Compare e.1 e'.1 < 0) (merging_entries m) (merging_cur m').
Proof.
  intros Hm Hcur. destruct (merging_cur_inv m e Hcur) as (j & c & Hj & Hc & He).
  destruct (merging_others_after m j c e Hm Hj Hc He) as (cs & Ecs & Hmv & Hw & Hcj & Hoth).
  assert (Hcw : wrapper_inv c) by (rewrite Forall_lookup in Hw; eauto).
  destruct (law_Next c e Hcw He) as (c' & Ec' & Hcw' & Hce & Hmin). cbn in Ec'.
  unfold merging_Next. rewrite merging_key_cur, Hcur, Hj by done. cbn. rewrite Ecs. cbn.
  rewrite Hcj. cbn. rewrite Ec'. cbn.
  pose proof (moved_insert cs j c c' Hcj Hce) as Hmv'. pose proof (moved_trans _ _ _ Hmv Hmv') as Hmv2.
  destruct (FindSmallest_settle (fun e' => Compare e.1 e'.1 < 0) (<[j:=c']> cs)) as [Hinv Hm'].
  - intros a b Ha Hab. by eapply cmp_lt_le_trans.
  - by apply Forall_insert.
  - eapply moved_disjoint; [done|]. apply Hm.
  - intros j' d Hd. destruct (decide (j' = j)) as [->|].
    + rewrite list_lookup_insert_eq in Hd by (by eapply lookup_lt_Some). simplify_eq. by rewrite Hce.
    + rewrite list_lookup_insert_ne in Hd by done. by eapply Hoth.
  - eexists. split; [done|]. split; [done|].
    assert (E : merging_entries (mkMerging (<[j:=c']> cs) (FindSmallest (<[j:=c']> cs)) kForward) = merging_entries m)
      by (unfold merging_entries; cbn; f_equal; by apply moved_entries).
    rewrite E in Hm' |- *. done.
Qed.

Lemma merging_Prev_spec m e :
  merging_inv m -> merging_cur m = Some e ->
  exists m', merging_Prev m = Some m' /\ merging_inv m' /\ merging_entries m' = merging_entries m /\
    is_max Compare (fun e' => Compare e'.1 e.1 < 0) (merging_entries m) (merging_cur m').
Proof.
  intros Hm Hcur. destruct (merging_cur_inv m e Hcur) as (j & c & Hj & Hc & He).
  destruct (merging_others_before m j c e Hm Hj Hc He) as (cs & Ecs & Hmv & Hw & Hcj & Hoth).
  assert (Hcw : wrapper_inv c) by (rewrite Forall_lookup in Hw; eauto).
  destruct (law_Prev c e Hcw He) as (c' & Ec' & Hcw' & Hce & Hmin). cbn in Ec'.
  unfold merging_Prev. rewrite merging_key_cur, Hcur, Hj by done. cbn. rewrite Ecs. cbn.
  rewrite Hcj. cbn. rewrite Ec'. cbn.
  pose proof (moved_insert cs j c c' Hcj Hce) as Hmv'. pose proof (moved_trans _ _ _ Hmv Hmv') as Hmv2.
  destruct (FindLargest_settle (fun e' => Compare e'.1 e.1 < 0) (<[j:=c']> cs)) as [Hinv Hm'].
  - intros a b Ha Hab. by eapply cmp_le_lt_trans.
  - by apply Forall_insert.
  - eapply moved_disjoint; [done|]. apply Hm.
  - intros j' d Hd. destruct (decide (j' = j)) as [->|].
    + rewrite list_lookup_insert_eq in Hd by (by eapply lookup_lt_Some). simplify_eq. by rewrite Hce.
    + rewrite list_lookup_insert_ne in Hd by done. by eapply Hoth.
  - eexists. split; [done|]. split; [done|].
    assert (E : merging_entries (mkMerging (<[j:=c']> cs) (FindLargest (<[j:=c']> cs)) kReverse) = merging_entries m)
      by (unfold merging_entries; cbn; f_equal; by apply moved_entries).
    rewrite E in Hm' |- *. done.
Qed.

Lemma merging_seek_spec (f : IteratorWrapper -> option IteratorWrapper) P m :
  (forall e e', P e -> Compare e.1 e'.1 <= 0 -> P e') -> merging_inv m ->
  (forall c, wrapper_inv c -> exists c', f c = Some c' /\ wrapper_inv c' /\
     wrapper_entries c' = wrapper_entries c /\ is_min Compare P (wrapper_entries c) (wrapper_cur c')) ->
  exists m', (cs ← for_children (fun _ => f) 0 (children_ m);
              Some (mkMerging cs (FindSmallest cs) kForward)) = Some m' /\ merging_inv m' /\
    merging_entries m' = merging_entries m /\ is_min Compare P (merging_entries m) (merging_cur m').
Proof.
  intros Hup (Hw & Hd & _) Hf.
  destruct (for_children_moved (fun _ => f) (children_ m)
    (fun _ c' => is_min Compare P (wrapper_entries c') (wrapper_cur c'))) as (cs & E & Hm & Hws & Hall); [done| |].
  { intros j c _ Hc. destruct (Hf c Hc) as (c' & E & Hc' & Hce & Hmin). exists c'. rewrite Hce. done. }
  rewrite E. cbn. destruct (FindSmallest_settle P cs Hup Hws) as [Hinv Hmin]; [by eapply moved_disjoint|done|].
  eexists. split; [done|]. split; [done|].
  assert (Ee : merging_entries (mkMerging cs (FindSmallest cs) kForward) = merging_entries m)
    by (unfold merging_entries; cbn; f_equal; by apply moved_entries).
  rewrite Ee in Hmin |- *. done.
Qed.

Lemma merging_SeekToLast_spec m :
  merging_inv m -> exists m', merging_SeekToLast m = Some m' /\ merging_inv m' /\
    merging_entries m' = merging_entries m /\
    is_max Compare (fun _ => True) (merging_entries m) (merging_cur m').
Proof.
  intros (Hw & Hd & _). unfold merging_SeekToLast.
  destruct (for_children_moved (fun _ => wrapper_SeekToLast) (children_ m)
    (fun _ c' => is_max Compare (fun _ => True) (wrapper_entries c') (wrapper_cur c'))) as (cs & E & Hm & Hws & Hall); [done| |].
  { intros j c _ Hc. destruct (law_SeekToLast c Hc) as (c' & E & Hc' & Hce & Hmax). exists c'. rewrite Hce. done. }
  rewrite E. cbn. destruct (FindLargest_settle (fun _ => True) cs) as [Hinv Hmax]; [done|done|by eapply moved_disjoint|done|].
  eexists. split; [done|]. split; [done|].
  assert (Ee : merging_entries (mkMerging cs (FindLargest cs) kReverse) = merging_entries m)
    by (unfold merging_entries; cbn; f_equal; by apply moved_entries).
  rewrite Ee in Hmax |- *. done.
Qed.

#[export] Instance merging_laws : IteratorLaws Compare seekable merging_inv merging_entries merging_cur.
Proof.
  split.
  - intros m (Hw & Hd & Hpos). cbn. unfold merging_Valid, merging_cur. destruct (current_ m) as [j|]; [|done].
    destruct Hpos as (c & e & Hc & He & _). cbn. rewrite Hc. cbn. rewrite He. done.
  - apply merging_key_cur.
  - intros m (Hw & Hd & Hpos). cbn. unfold merging_value, merging_cur. destruct (current_ m) as [j|]; [|done].
    destruct Hpos as (c & e & Hc & He & _). cbn. rewrite Hc. cbn. change (wrapper_value c) with (value c).
    rewrite law_value; [done|]. rewrite Forall_lookup in Hw. eauto.
  - intros m e e' (Hw & Hd & _) He He' E. apply elem_of_merging in He as (j & c & Hc & Hin), He' as (j' & c' & Hc' & Hin').
    rewrite Forall_lookup in Hw. destruct (decide (j = j')) as [<-|Hne].
    + assert (c = c') as <- by congruence. eapply (law_keys c); eauto.
    + exfalso. by eapply (Hd j j').
  - intros m Hm. apply (merging_seek_spec wrapper_SeekToFirst); [done..|].
    intros c Hc. exact (law_SeekToFirst c Hc).
  - apply merging_SeekToLast_spec.
  - intros m e (Hw & _) (j & c & Hc & Hin)%elem_of_merging. rewrite Forall_lookup in Hw. eapply (law_seekable c); eauto.
  - intros m k Hm Hk. apply (merging_seek_spec (fun w => wrapper_Seek w k)); [|done|].
    + intros e e' Hke Hee. by eapply cmp_le_trans.
    + intros c Hc. exact (law_Seek c k Hc Hk).
  - apply merging_Next_spec.
  - apply merging_Prev_spec.
Qed.

(** ** Construction *)

Lemma wrapper_Set_fresh w it :
  inv it -> exists w', wrapper_Set w (Some it) = Some w' /\ wrapper_inv w' /\
    wrapper_entries w' = entries it /\ wrapper_cur w' = cur it.
Proof. apply wrapper_Update_spec. Qed.

(** The instances' iterators as [NewIterator] returns them: not positioned yet,
    over disjoint sets of keys. *)
Definition fresh_children (its : list I) : Prop :=
  Forall (fun it => inv it /\ cur it = None) its /\
  forall i j a b e e', its !! i = Some a -> its !! j = Some b -> i <> j ->
    e ∈ entries a -> e' ∈ entries b -> e.1 <> e'.1.

Lemma MergingIterator_new_spec its :
  fresh_children its ->
  exists m, MergingIterator_new its = Some m /\ merging_inv m /\
    merging_entries m = concat (entries <$> its) /\ merging_cur m = None.
Proof.
  intros [Hf Hd]. rewrite Forall_lookup in Hf. unfold MergingIterator_new.
  destruct (for_children_lookup (fun i w => wrapper_Set w (its !! i))
    (fun j _ c' => exists it, its !! j = Some it /\ wrapper_inv c' /\
       wrapper_entries c' = entries it /\ wrapper_cur c' = None)
    (replicate (length its) wrapper_default)) as (cs & E & Hl & Hall).
  { intros j c [-> Hj]%lookup_replicate. destruct (lookup_lt_is_Some_2 its j Hj) as [it Hit].
    rewrite Hit. destruct (Hf j it Hit) as [Hi Hc].
    destruct (wrapper_Set_fresh wrapper_default it Hi) as (w' & -> & Hw & He & Hc').
    exists w'. split; [done|]. exists it. rewrite Hc', Hc. done. }
  rewrite length_replicate in Hl.
  assert (Hcs : forall j c, cs !! j = Some c -> exists it, its !! j = Some it /\ wrapper_inv c /\
    wrapper_entries c = entries it /\ wrapper_cur c = None).
  { intros j c Hc. destruct (Hall j c Hc) as (_ & _ & ?). done. }
  clear Hall. rewrite E. cbn. eexists. split; [done|].
  assert (Hw : Forall wrapper_inv cs).
  { apply Forall_lookup. intros j c Hc. by destruct (Hcs j c Hc) as (it & _ & ? & _). }
  pose proof (FindSmallest_spec cs Hw) as Hs.
  assert (Hnone : FindSmallest cs = None).
  { destruct (FindSmallest cs) as [j|]; [|done]. destruct Hs as (c & e & Hc & He & _).
    destruct (Hcs j c Hc) as (_ & _ & _ & _ & E'). congruence. }
  rewrite Hnone. split_and!; [split_and!; [done| |done]| |done].
  - intros i j ci cj e e' Hi Hj Hij. destruct (Hcs i ci Hi) as (a & Ha & _ & -> & _), (Hcs j cj Hj) as (b & Hb & _ & -> & _).
    by eapply Hd.
  - unfold merging_entries. cbn [children_]. apply (f_equal (@concat entry)).
    apply list_eq_same_length with (length its); [rewrite length_fmap; done..|].
    intros j x y Hj Hx Hy. rewrite list_lookup_fmap in Hx. rewrite list_lookup_fmap in Hy.
    destruct (cs !! j) as [c|] eqn:Hc; [|done]. destruct (Hcs j c Hc) as (it & Hit & _ & Ee & _).
    rewrite Hit in Hy. simplify_eq/=. done.
Qed.

(** ** Properties *)

(** A forward scan of the merging iterator over all instances is a scan of one
    sorted store: after [SeekToFirst], [n] steps visit the first [n] entries, in
    key order, of the sorted list [L] of all instances' entries; after
    [Seek target] they visit the first [n] entries of [L] not below [target]. No
    assertion fails on the way. *)
Theorem merge_scan_forward its L target n :
  seekable target ->
  fresh_children its -> L ≡ₚ concat (entries <$> its) -> StronglySorted (key_lt Compare) L ->
  exists m mf mk, MergingIterator_new its = Some m /\
    merging_SeekToFirst m = Some mf /\ (exists m', scan n mf = Some (take n L, m')) /\
    merging_Seek m target = Some mk /\
    (exists m', scan n mk = Some (take n (from Compare target L), m')).
Proof.
  intros Ht Hf Hp Hs. destruct (MergingIterator_new_spec its Hf) as (m & E & Hi & He & _).
  assert (Hst : stands Compare merging_inv merging_entries m [] L) by (split_and!; [done|by rewrite He|done]).
  destruct (stands_first Compare _ _ _ merging_cur m L Hst) as (mf & Ef & Hstf & Hcf).
  destruct (stands_seek Compare _ _ _ merging_cur m L target Hst Ht) as (mk & Ek & Hstk & Hck).
  destruct (scan_stands Compare _ _ _ merging_cur n mf _ _ Hstf Hcf) as (m1 & E1 & _).
  destruct (scan_stands Compare _ _ _ merging_cur n mk _ _ Hstk Hck) as (m2 & E2 & _).
  exists m, mf, mk. split_and!; eauto.
Qed.

(** A backward scan from [SeekToLast] visits the entries of all instances in
    descending key order. *)
Theorem merge_scan_backward its L n :
  fresh_children its -> L ≡ₚ concat (entries <$> its) -> StronglySorted (key_lt Compare) L ->
  exists m ml m', MergingIterator_new its = Some m /\ merging_SeekToLast m = Some ml /\
    rscan n ml = Some (take n (reverse L), m').
Proof.
  intros Hf Hp Hs. destruct (MergingIterator_new_spec its Hf) as (m & E & Hi & He & _).
  assert (Hst : stands Compare merging_inv merging_entries m L []).
  { unfold stands. rewrite app_nil_r, He. done. }
  destruct (stands_last Compare _ _ _ merging_cur m L Hst) as (ml & El & Hstl & Hcl).
  destruct (rscan_stands Compare _ _ _ merging_cur n ml _ _ Hstl Hcl) as (m' & E' & _).
  exists m, ml, m'. done.
Qed.

(** The iterator may change direction anywhere: on entry [i] of the sorted
    union, [Next] moves to entry [i + 1] and [Prev] to entry [i - 1] whether the
    last move was forward or backward, so that [Next] and [Prev] undo each
    other; beyond either end the iterator is not [Valid]. *)
Theorem merge_direction_switch m L i e :
  merging_inv m -> L ≡ₚ merging_entries m -> StronglySorted (key_lt Compare) L ->
  L !! i = Some e -> merging_cur m = Some e ->
  exists mn mp, merging_Next m = Some mn /\ merging_Prev m = Some mp /\
    merging_inv mn /\ merging_inv mp /\
    merging_key mn = fst <$> L !! S i /\
    merging_key mp = (if decide (i = 0%nat) then None else fst <$> L !! pred i) /\
    (forall b, L !! S i = Some b -> exists mb, merging_Prev mn = Some mb /\ merging_key mb = Some e.1) /\
    (forall a j, i = S j -> L !! j = Some a -> exists ma, merging_Next mp = Some ma /\ merging_key ma = Some e.1).
Proof.
  intros Hi Hp Hs Hl Hc. pose proof (take_drop_middle L i e Hl) as Hsplit.
  set (l1 := take i L) in *. set (l2 := drop (S i) L) in *.
  assert (Hnx : L !! S i = head l2).
  { unfold l2. rewrite head_lookup, lookup_drop, Nat.add_0_r. done. }
  assert (Hpv : (if decide (i = 0%nat) then None else L !! pred i) = last l1).
  { unfold l1. destruct i as [|i]; [rewrite decide_True by done; by rewrite take_0|]. rewrite decide_False by done.
    cbn [pred]. pose proof (lookup_lt_Some _ _ _ Hl) as Hlt.
    destruct (lookup_lt_is_Some_2 L i ltac:(lia)) as [a Ha]. rewrite (take_S_r L i a Ha), last_snoc. done. }
  assert (Hst : stands Compare merging_inv merging_entries m l1 (e :: l2)).
  { unfold stands. rewrite Hsplit. done. }
  destruct (stands_next Compare _ _ _ merging_cur m l1 e l2 Hst Hc) as (mn & En & Hstn & Hcn).
  assert (Hst' : stands Compare merging_inv merging_entries m (l1 ++ [e]) l2).
  { unfold stands. rewrite <- app_assoc. cbn. rewrite Hsplit. done. }
  destruct (stands_prev Compare _ _ _ merging_cur m l1 e l2 Hst' Hc) as (mp & Ep & Hstp & Hcp).
  exists mn, mp. split_and!; [done|done|apply Hstn|apply Hstp| | | |].
  - rewrite merging_key_cur, Hcn, Hnx by apply Hstn. done.
  - rewrite merging_key_cur, Hcp, <- Hpv by apply Hstp. by case_decide.
  - intros b Hb. rewrite Hnx in Hb. destruct l2 as [|b' l2']; [done|]. simplify_eq/=.
    destruct (stands_prev Compare _ _ _ merging_cur mn (l1 ++ [e]) b l2') as (mb & Eb & Hstb & Hcb); [|done|].
    { unfold stands in *. rewrite <- app_assoc. cbn. apply Hstn. }
    exists mb. split; [done|]. rewrite merging_key_cur, Hcb, last_snoc by apply Hstb. done.
  - intros a j -> Ha. rewrite decide_False in Hpv by done. cbn [pred] in Hpv. rewrite Ha in Hpv.
    destruct (last_Some l1 a) as [Hla _]. destruct (Hla (eq_sym Hpv)) as [l1' El1]. rewrite El1 in *.
    destruct (stands_next Compare _ _ _ merging_cur mp l1' a (e :: l2)) as (ma & Ea & Hsta & Hca).
    { unfold stands in *. rewrite <- app_assoc in Hstp. done. }
    { rewrite Hcp, last_snoc. done. }
    exists ma. split; [done|]. rewrite merging_key_cur, Hca by apply Hsta. done.
Qed.
End MergeIter.

(** ** Two instances, concretely *)

#[local] Instance two_list_iterator : Iterator ListIter := list_iterator BytewiseCompare.
#[local] Instance two_list_laws :
  IteratorLaws BytewiseCompare (fun _ => True) (li_inv BytewiseCompare) li_entries li_cur := list_iterator_laws BytewiseCompare.
#[local] Instance two_merging_iterator : Iterator (@MergingIterator ListIter) := merging_iterator BytewiseCompare.
#[local] Instance two_merging_laws :
  IteratorLaws BytewiseCompare (fun _ => True) (merging_inv BytewiseCompare (li_inv BytewiseCompare) li_entries li_cur)
    (merging_entries li_entries) (merging_cur li_cur) := merging_laws BytewiseCompare _ _ _ _.

Definition two_instances : list ListIter :=
  [mkListIter [([1], [10]); ([3], [30])] None; mkListIter [([2], [20]); ([4], [40])] None].

Definition two_sorted : list entry := [([1], [10]); ([2], [20]); ([3], [30]); ([4], [40])].

Lemma two_sorted_ok : StronglySorted (key_lt BytewiseCompare) two_sorted.
Proof. repeat (constructor; [|repeat (constructor; [reflexivity|]); constructor]). constructor. Qed.

Lemma two_sorted_perm : two_sorted ≡ₚ concat (li_entries <$> two_instances).
Proof. cbn. apply perm_skip, perm_swap. Qed.

Lemma two_instances_fresh :
  fresh_children (li_inv BytewiseCompare) li_entries li_cur two_instances.
Proof.
  split.
  - repeat (apply Forall_cons_2; [split; [|done]|]); [..|apply Forall_nil_2];
      repeat (constructor; [|repeat (constructor; [reflexivity|]); constructor]); constructor.
  - intros i j a b e e'. unfold two_instances.
    destruct i as [|[|i]], j as [|[|j]]; intros Ha Hb Hij He He'; try done; simplify_eq/=;
      repeat match goal with Hin : _ ∈ _ :: _ |- _ => apply elem_of_cons in Hin as [->|Hin] | Hin : _ ∈ [] |- _ => by apply elem_of_nil in Hin end; done || congruence.
Qed.

Lemma merge_scan_forward_witness :
  exists m mf mk, MergingIterator_new BytewiseCompare two_instances = Some m /\
    merging_SeekToFirst BytewiseCompare m = Some mf /\
    (exists m', scan 3 mf
                = Some (take 3 two_sorted, m')) /\
    merging_Seek BytewiseCompare m [3] = Some mk /\
    (exists m', scan 3 mk
                = Some (take 3 (from BytewiseCompare [3] two_sorted), m')).
Proof.
  apply (merge_scan_forward BytewiseCompare (fun _ => True)
    (li_inv BytewiseCompare) li_entries li_cur two_instances two_sorted [3] 3).
  - done.
  - apply two_instances_fresh.
  - apply two_sorted_perm.
  - apply two_sorted_ok.
Defined.

Lemma merge_scan_backward_witness :
  exists m ml m', MergingIterator_new BytewiseCompare two_instances = Some m /\
    merging_SeekToLast BytewiseCompare m = Some ml /\
    rscan 4 ml
    = Some (take 4 (reverse two_sorted), m').
Proof.
  apply (merge_scan_backward BytewiseCompare (fun _ => True)
    (li_inv BytewiseCompare) li_entries li_cur two_instances two_sorted 4).
  - apply two_instances_fresh.
  - apply two_sorted_perm.
  - apply two_sorted_ok.
Defined.

(** The iterator of [two_instances] after [SeekToFirst] and one [Next]. *)
Definition two_at_second : option MergingIterator :=
  m ← MergingIterator_new BytewiseCompare two_instances;
  mf ← merging_SeekToFirst BytewiseCompare m;
  merging_Next BytewiseCompare mf.

Lemma two_at_second_ok : exists m, two_at_second = Some m /\
  merging_inv BytewiseCompare (li_inv BytewiseCompare) li_entries li_cur m /\
  two_sorted ≡ₚ merging_entries li_entries m /\ merging_cur li_cur m = Some ([2], [20]).
Proof.
  destruct (MergingIterator_new_spec BytewiseCompare (fun _ => True)
    (li_inv BytewiseCompare) li_entries li_cur two_instances two_instances_fresh) as (m & E & Hi & He & _).
  destruct (law_SeekToFirst m Hi) as (mf & Ef & Hif & Hef & _).
  assert (Hcf : merging_cur li_cur mf = Some ([1], [10])).
  { vm_compute in E. simplify_eq. vm_compute in Ef. simplify_eq. reflexivity. }
  destruct (law_Next mf _ Hif Hcf) as (mn & En & Hin & Hen & _).
  exists mn. unfold two_at_second. rewrite E. cbn -[merging_SeekToFirst merging_Next].
  cbn in Ef, En. rewrite Ef. split_and!; [done|done| |].
  - rewrite Hen, Hef, He. apply two_sorted_perm.
  - vm_compute in E. simplify_eq. vm_compute in Ef. simplify_eq. vm_compute in En. simplify_eq. reflexivity.
Qed.

Lemma merge_direction_switch_witness :
  exists m mn mp, two_at_second = Some m /\
    merging_Next BytewiseCompare m = Some mn /\
    merging_Prev BytewiseCompare m = Some mp /\
    merging_key mn = Some [3] /\ merging_key mp = Some [1].
Proof.
  destruct two_at_second_ok as (m & E & Hi & Hp & Hc).
  destruct (merge_direction_switch BytewiseCompare (fun _ => True)
    (li_inv BytewiseCompare) li_entries li_cur m two_sorted 1 ([2], [20]) Hi Hp two_sorted_ok eq_refl Hc)
    as (mn & mp & En & Ep & _ & _ & Hkn & Hkp & _).
  exists m, mn, mp. exact (conj E (conj En (conj Ep (conj Hkn Hkp)))).
Defined.
