(* ===== verification/DbFormat.v ===== *)
(** * Internal keys ([db/dbformat.h], [db/dbformat.cc], [db/lookup_key.h])

    An internal key is a user key followed by eight bytes that pack a 56-bit
    sequence number and a value type. The assertions of the code on lengths and
    ranges are hypotheses of the theorems. *)

From S2P Require Import Prelude Coding Comparator.

(** ** Value types *)

Definition kTypeDeletion : Z := 0.
Definition kTypeValue : Z := 1.
Definition kTypeMerge : Z := 2.
Definition kTypeLogData : Z := 3.
Definition kTypeColumnFamilyDeletion : Z := 4.
Definition kTypeColumnFamilyValue : Z := 5.
Definition kTypeColumnFamilyMerge : Z := 6.
Definition kTypeSingleDeletion : Z := 7.
Definition kTypeColumnFamilySingleDeletion : Z := 8.
Definition kTypeBeginPrepareXID : Z := 9.
Definition kTypeEndPrepareXID : Z := 10.
Definition kTypeCommitXID : Z := 11.
Definition kTypeRollbackXID : Z := 12.
Definition kTypeNoop : Z := 13.
Definition kTypeColumnFamilyRangeDeletion : Z := 14.
Definition kTypeRangeDeletion : Z := 15.
Definition kTypeColumnFamilyBlobIndex : Z := 16.
Definition kTypeBlobIndex : Z := 17.
Definition kTypeBeginPersistedPrepareXID : Z := 18.
Definition kTypeBeginUnprepareXID : Z := 19.
Definition kTypeDeletionWithTimestamp : Z := 20.
Definition kMaxValue : Z := 127.

Definition kValueTypeForSeek : Z := kTypeDeletionWithTimestamp.
Definition kValueTypeForSeekForPrev : Z := kTypeDeletion.

Definition IsValueType (t : Z) : bool :=
  (t <=? kTypeMerge) || (t =? kTypeSingleDeletion) || (t =? kTypeBlobIndex) ||
  (kTypeDeletionWithTimestamp =? t).

Definition IsExtendedValueType (t : Z) : bool := IsValueType t || (t =? kTypeRangeDeletion).

Definition kMaxSequenceNumber : Z := Z.shiftl 1 56 - 1.
Definition kDisableGlobalSequenceNumber : Z := 2 ^ 64 - 1.

(** ** Parsed and encoded keys *)

Record ParsedInternalKey := mkParsed { pk_user_key : bytes; pk_sequence : Z; pk_type : Z }.

Definition InternalKeyEncodingLength (key : ParsedInternalKey) : Z := zlen (pk_user_key key) + 8.

Definition PackSequenceAndType (seq t : Z) : Z := Z.lor (u64 (Z.shiftl seq 8)) t.

Definition UnPackSequenceAndType (packed : Z) : Z * Z := (Z.shiftr packed 8, u8 (Z.land packed 255)).

Definition AppendInternalKey (result : bytes) (key : ParsedInternalKey) : bytes :=
  PutFixed64 (result ++ pk_user_key key) (PackSequenceAndType (pk_sequence key) (pk_type key)).

Definition AppendInternalKeyFooter (result : bytes) (s t : Z) : bytes :=
  PutFixed64 result (PackSequenceAndType s t).

(** The pointer [data() + size() - 8]. *)
Definition footer_ptr (internal_key : bytes) : bytes := drop (length internal_key - 8) internal_key.

Definition ExtractUserKey (internal_key : bytes) : bytes := take (length internal_key - 8) internal_key.

Definition ExtractInternalKeyFooter (internal_key : bytes) : Z := DecodeFixed64 (footer_ptr internal_key).

Definition ExtractValueType (internal_key : bytes) : Z :=
  u8 (Z.land (ExtractInternalKeyFooter internal_key) 255).

Definition GetInternalKeySeqno (internal_key : bytes) : Z :=
  Z.shiftr (DecodeFixed64 (footer_ptr internal_key)) 8.

Definition ParseInternalKey (internal_key : bytes) : option ParsedInternalKey :=
  if zlen internal_key <? 8 then None else
  let num := DecodeFixed64 (footer_ptr internal_key) in
  let c := u8 (Z.land num 255) in
  let result := mkParsed (ExtractUserKey internal_key) (Z.shiftr num 8) c in
  if IsExtendedValueType c then Some result else None.

Definition UpdateInternalKey (ikey : bytes) (seq t : Z) : bytes :=
  let newval := Z.lor (u64 (Z.shiftl seq 8)) t in
  take (length ikey - 8) ikey ++ EncodeFixed64 newval.

(** [LookupKey]: the memtable key (with its length), and the internal key in it. *)
Definition LookupKey_internal_key (user_key : bytes) (s : Z) : bytes :=
  user_key ++ EncodeFixed64 (PackSequenceAndType s kValueTypeForSeek).

Definition LookupKey_memtable_key (user_key : bytes) (s : Z) : bytes :=
  EncodeVarint32 (u32 (zlen user_key + 8)) ++ LookupKey_internal_key user_key s.

(** ** InternalKeyComparator *)

Section InternalKeyComparator.
(** The user comparator. *)
Context (user_Compare : bytes -> bytes -> Z).
Context (user_FindShortestSeparator : bytes -> bytes -> bytes) (user_FindShortSuccessor : bytes -> bytes).

Definition InternalKey_Compare (akey bkey : bytes) : Z :=
  let r := user_Compare (ExtractUserKey akey) (ExtractUserKey bkey) in
  if r =? 0 then
    let anum := DecodeFixed64 (footer_ptr akey) in
    let bnum := DecodeFixed64 (footer_ptr bkey) in
    if anum >? bnum then -1 else if anum <? bnum then 1 else r
  else r.

Definition InternalKey_CompareKeySeq (akey bkey : bytes) : Z :=
  let r := user_Compare (ExtractUserKey akey) (ExtractUserKey bkey) in
  if r =? 0 then
    let anum := Z.shiftr (DecodeFixed64 (footer_ptr akey)) 8 in
    let bnum := Z.shiftr (DecodeFixed64 (footer_ptr bkey)) 8 in
    if anum >? bnum then -1 else if anum <? bnum then 1 else r
  else r.

Definition InternalKey_CompareGlobal (a : bytes) (a_global_seqno : Z) (b : bytes) (b_global_seqno : Z) : Z :=
  let r := user_Compare (ExtractUserKey a) (ExtractUserKey b) in
  if r =? 0 then
    let footer k seqno := if seqno =? kDisableGlobalSequenceNumber then ExtractInternalKeyFooter k
                          else PackSequenceAndType seqno (ExtractValueType k) in
    let a_footer := footer a a_global_seqno in
    let b_footer := footer b b_global_seqno in
    if a_footer >? b_footer then -1 else if a_footer <? b_footer then 1 else r
  else r.

Definition Parsed_Compare (a b : ParsedInternalKey) : Z :=
  let r := user_Compare (pk_user_key a) (pk_user_key b) in
  if r =? 0 then
    if pk_sequence a >? pk_sequence b then -1
    else if pk_sequence a <? pk_sequence b then 1
    else if pk_type a >? pk_type b then -1
    else if pk_type a <? pk_type b then 1
    else r
  else r.

Definition InternalKey_FindShortestSeparator (start limit : bytes) : bytes :=
  let user_start := ExtractUserKey start in
  let user_limit := ExtractUserKey limit in
  let tmp := user_FindShortestSeparator user_start user_limit in
  if (zlen tmp <=? zlen user_start) && (user_Compare user_start tmp <? 0)
  then PutFixed64 tmp (PackSequenceAndType kMaxSequenceNumber kValueTypeForSeek)
  else start.

Definition InternalKey_FindShortSuccessor (key : bytes) : bytes :=
  let user_key := ExtractUserKey key in
  let tmp := user_FindShortSuccessor user_key in
  if (zlen tmp <=? zlen user_key) && (user_Compare user_key tmp <? 0)
  then PutFixed64 tmp (PackSequenceAndType kMaxSequenceNumber kValueTypeForSeek)
  else key.
End InternalKeyComparator.

(** What the code asserts of a key to encode. *)
Definition parsed_ok (p : ParsedInternalKey) : Prop :=
  0 <= pk_sequence p <= kMaxSequenceNumber /\ 0 <= pk_type p < 256 /\ IsExtendedValueType (pk_type p) = true.

Definition encode (p : ParsedInternalKey) : bytes := AppendInternalKey [] p.

(** ** Lemmas *)

Lemma pack_spec seq t : 0 <= seq <= kMaxSequenceNumber -> 0 <= t < 256 ->
  PackSequenceAndType seq t = seq * 256 + t /\ 0 <= PackSequenceAndType seq t < 2 ^ 64.
Proof.
  intros Hs Ht. unfold PackSequenceAndType. change kMaxSequenceNumber with (2 ^ 56 - 1) in Hs.
  rewrite Z.shiftl_mul_pow2 by lia. change (2 ^ 8) with 256. rewrite u64_small by lia.
  replace (seq * 256) with (Z.shiftl seq 8) by (rewrite Z.shiftl_mul_pow2; lia).
  rewrite Z.lor_comm, lor_shiftl_add by lia. rewrite Z.shiftl_mul_pow2 by lia. lia.
Qed.

Lemma unpack_pack seq t : 0 <= seq <= kMaxSequenceNumber -> 0 <= t < 256 ->
  UnPackSequenceAndType (PackSequenceAndType seq t) = (seq, t).
Proof.
  intros Hs Ht. destruct (pack_spec seq t Hs Ht) as [-> _]. unfold UnPackSequenceAndType.
  rewrite shiftr_div by lia. change 255 with (2 ^ 8 - 1). rewrite land_ones_mod by lia.
  change (2 ^ 8) with 256. unfold u8. change (2 ^ 8) with 256. rewrite Z.mod_mod by lia.
  f_equal; Z.to_euclidean_division_equations; lia.
Qed.

Lemma app_footer (u f : bytes) : length f = 8%nat ->
  take (length (u ++ f) - 8) (u ++ f) = u /\ drop (length (u ++ f) - 8) (u ++ f) = f.
Proof.
  intros Hf. rewrite length_app, Hf, Nat.add_sub, take_app_length, drop_app_length. done.
Qed.

Lemma parsed_ok_seq p g : parsed_ok p -> 0 <= g <= kMaxSequenceNumber ->
  parsed_ok (mkParsed (pk_user_key p) g (pk_type p)).
Proof. intros (_ & Ht & Hx) Hg. exact (conj Hg (conj Ht Hx)). Qed.

Lemma encode_eq p : encode p = pk_user_key p ++ memcpy_from 8 (PackSequenceAndType (pk_sequence p) (pk_type p)).
Proof. reflexivity. Qed.

Lemma encode_footer p : parsed_ok p ->
  ExtractUserKey (encode p) = pk_user_key p /\
  DecodeFixed64 (footer_ptr (encode p)) = PackSequenceAndType (pk_sequence p) (pk_type p).
Proof.
  intros (Hs & Ht & _). destruct (pack_spec _ _ Hs Ht) as [_ Hr].
  rewrite encode_eq. unfold ExtractUserKey, footer_ptr. set (f := memcpy_from 8 _).
  destruct (app_footer (pk_user_key p) f) as [-> ->]; [apply memcpy_from_length|].
  split; [done|]. unfold f, DecodeFixed64, DecodeFixed64_on, kLittleEndian.
  rewrite <- (app_nil_r (memcpy_from 8 _)). apply memcpy_to_from_id. lia.
Qed.

Lemma zlen_encode p : zlen (encode p) = InternalKeyEncodingLength p.
Proof.
  rewrite encode_eq. unfold InternalKeyEncodingLength, zlen. rewrite length_app, memcpy_from_length. lia.
Qed.

Lemma footer_lower_bits p : parsed_ok p ->
  let num := PackSequenceAndType (pk_sequence p) (pk_type p) in
  Z.shiftr num 8 = pk_sequence p /\ u8 (Z.land num 255) = pk_type p.
Proof.
  intros (Hs & Ht & _). pose proof (unpack_pack _ _ Hs Ht) as E. unfold UnPackSequenceAndType in E.
  cbv zeta. by injection E as -> ->.
Qed.

Lemma parse_encode p : parsed_ok p -> ParseInternalKey (encode p) = Some p.
Proof.
  intros Hp. destruct (encode_footer p Hp) as [Eu En]. destruct (footer_lower_bits p Hp) as [Es Et].
  unfold ParseInternalKey. rewrite Eu, En, Es, Et, zlen_encode. destruct Hp as (_ & _ & ->).
  unfold InternalKeyEncodingLength. case_bool; [pose proof (zlen_nonneg (pk_user_key p)); lia|]. by destruct p.
Qed.

(** ** Theorems *)

(** An encoded internal key is parsed back exactly, has the announced length,
    and the extraction functions return its parts; overwriting the sequence number
    and type in place gives the encoding of the key with these. *)
Theorem internal_key_roundtrip p seq t :
  parsed_ok p -> parsed_ok (mkParsed (pk_user_key p) seq t) ->
  ParseInternalKey (encode p) = Some p /\ zlen (encode p) = InternalKeyEncodingLength p /\
  ExtractUserKey (encode p) = pk_user_key p /\ ExtractValueType (encode p) = pk_type p /\
  GetInternalKeySeqno (encode p) = pk_sequence p /\
  UpdateInternalKey (encode p) seq t = encode (mkParsed (pk_user_key p) seq t).
Proof.
  intros Hp Hp'. destruct (encode_footer p Hp) as [Eu En]. destruct (footer_lower_bits p Hp) as [Es Et].
  split_and!; [by apply parse_encode|apply zlen_encode|done| | |].
  - unfold ExtractValueType, ExtractInternalKeyFooter. by rewrite En.
  - unfold GetInternalKeySeqno. by rewrite En.
  - unfold UpdateInternalKey. fold (PackSequenceAndType seq t). unfold ExtractUserKey in Eu. rewrite Eu. done.
Qed.

Lemma internal_key_roundtrip_witness :
  ParseInternalKey (encode (mkParsed [97; 98] 7 kTypeValue)) = Some (mkParsed [97; 98] 7 kTypeValue).
Proof.
  apply (internal_key_roundtrip (mkParsed [97; 98] 7 kTypeValue) 8 kTypeDeletion); repeat split; vm_compute; discriminate.
Defined.

Section Order.
Context (user_Compare : bytes -> bytes -> Z) `{!TotalCompare user_Compare}.

Lemma internal_compare_parsed p1 p2 : parsed_ok p1 -> parsed_ok p2 ->
  InternalKey_Compare user_Compare (encode p1) (encode p2) = Parsed_Compare user_Compare p1 p2.
Proof.
  intros H1 H2. destruct (encode_footer p1 H1) as [Eu1 En1], (encode_footer p2 H2) as [Eu2 En2].
  unfold InternalKey_Compare, Parsed_Compare. rewrite Eu1, Eu2, En1, En2.
  destruct H1 as (Hs1 & Ht1 & _), H2 as (Hs2 & Ht2 & _).
  destruct (pack_spec _ _ Hs1 Ht1) as [-> _], (pack_spec _ _ Hs2 Ht2) as [-> _].
  destruct (_ =? 0); [|done]. rewrite !Z.gtb_ltb.
  destruct (Z.ltb_spec (pk_sequence p2) (pk_sequence p1)), (Z.ltb_spec (pk_sequence p1) (pk_sequence p2)),
    (Z.ltb_spec (pk_type p2) (pk_type p1)), (Z.ltb_spec (pk_type p1) (pk_type p2));
    repeat case_bool; try lia; done.
Qed.

(** The comparisons of internal keys agree: comparing encodings is comparing
    the parsed keys (user keys first, then larger sequence numbers and types
    before smaller ones), without overriding sequence numbers the third overload
    is the first, and with them it compares as if the keys had been re-encoded
    with these; ignoring types gives the order on user keys and sequence numbers. *)
Theorem internal_compare_agree p1 p2 g1 g2 :
  parsed_ok p1 -> parsed_ok p2 -> 0 <= g1 <= kMaxSequenceNumber -> 0 <= g2 <= kMaxSequenceNumber ->
  InternalKey_Compare user_Compare (encode p1) (encode p2) = Parsed_Compare user_Compare p1 p2 /\
  InternalKey_CompareGlobal user_Compare (encode p1) kDisableGlobalSequenceNumber (encode p2) kDisableGlobalSequenceNumber
  = Parsed_Compare user_Compare p1 p2 /\
  InternalKey_CompareGlobal user_Compare (encode p1) g1 (encode p2) g2
  = Parsed_Compare user_Compare (mkParsed (pk_user_key p1) g1 (pk_type p1)) (mkParsed (pk_user_key p2) g2 (pk_type p2)) /\
  InternalKey_CompareKeySeq user_Compare (encode p1) (encode p2)
  = Parsed_Compare user_Compare (mkParsed (pk_user_key p1) (pk_sequence p1) 0) (mkParsed (pk_user_key p2) (pk_sequence p2) 0).
Proof.
  intros H1 H2 Hg1 Hg2. destruct (encode_footer p1 H1) as [Eu1 En1], (encode_footer p2 H2) as [Eu2 En2].
  destruct (footer_lower_bits p1 H1) as [Es1 Et1], (footer_lower_bits p2 H2) as [Es2 Et2].
  pose proof (internal_compare_parsed p1 p2 H1 H2) as Ec.
  assert (Hd : forall g, 0 <= g <= kMaxSequenceNumber -> (g =? kDisableGlobalSequenceNumber) = false).
  { intros g Hg. apply Z.eqb_neq. unfold kDisableGlobalSequenceNumber. change kMaxSequenceNumber with (2 ^ 56 - 1) in Hg. lia. }
  split_and!; [done|exact Ec| |].
  - unfold InternalKey_CompareGlobal. rewrite !Hd by done. unfold ExtractValueType, ExtractInternalKeyFooter.
    rewrite Eu1, Eu2, En1, En2, Et1, Et2.
    pose proof (parsed_ok_seq p1 g1 H1 Hg1) as H1'. pose proof (parsed_ok_seq p2 g2 H2 Hg2) as H2'.
    rewrite <- internal_compare_parsed by done. unfold InternalKey_Compare.
    by destruct (encode_footer _ H1') as [-> ->], (encode_footer _ H2') as [-> ->].
  - unfold InternalKey_CompareKeySeq, Parsed_Compare. by rewrite Eu1, Eu2, En1, En2, Es1, Es2.
Qed.
End Order.

Lemma internal_compare_agree_witness :
  InternalKey_Compare BytewiseCompare (encode (mkParsed [97] 7 kTypeValue)) (encode (mkParsed [97] 9 kTypeValue)) = 1.
Proof.
  destruct (internal_compare_agree BytewiseCompare (mkParsed [97] 7 kTypeValue) (mkParsed [97] 9 kTypeValue) 1 2)
    as [-> _]; repeat split; vm_compute; congruence.
Defined.

Lemma seek_key_ok u s : 0 <= s <= kMaxSequenceNumber -> parsed_ok (mkParsed u s kValueTypeForSeek).
Proof. intros Hs. split; [done|]. split; [cbn; unfold kValueTypeForSeek, kTypeDeletionWithTimestamp; lia|done]. Qed.

Lemma lookup_key_encode u s : LookupKey_internal_key u s = encode (mkParsed u s kValueTypeForSeek).
Proof. reflexivity. Qed.

Lemma extended_type_le_seek t : 0 <= t -> IsExtendedValueType t = true -> t <= kValueTypeForSeek.
Proof.
  unfold IsExtendedValueType, IsValueType, kTypeMerge, kTypeSingleDeletion, kTypeBlobIndex, kTypeRangeDeletion,
    kValueTypeForSeek, kTypeDeletionWithTimestamp.
  intros H0 H. repeat (apply orb_prop in H as [H|H]); lia.
Qed.

(** The lookup key of user key [u] at sequence number [s] sorts before or at
    exactly those internal keys that have a larger user key, or the user key [u]
    and a sequence number of at most [s]: the first entry from it on is the newest
    visible version of [u], if [u] has one. *)
Theorem lookup_key_seek (user_Compare : bytes -> bytes -> Z) `{!TotalCompare user_Compare} u s p :
  0 <= s <= kMaxSequenceNumber -> parsed_ok p ->
  InternalKey_Compare user_Compare (LookupKey_internal_key u s) (encode p) <= 0 <->
  user_Compare u (pk_user_key p) < 0 \/ (u = pk_user_key p /\ pk_sequence p <= s).
Proof.
  intros Hs Hp. rewrite lookup_key_encode, internal_compare_parsed by (done || by apply seek_key_ok).
  unfold Parsed_Compare. cbn [pk_user_key pk_sequence pk_type]. rewrite !Z.gtb_ltb.
  destruct Hp as (Hps & Hpt & Hx). pose proof (extended_type_le_seek (pk_type p) ltac:(lia) Hx) as Ht.
  destruct (Z.eqb_spec (user_Compare u (pk_user_key p)) 0) as [E|E].
  - pose proof (proj1 (cmp_eq _ _) E) as Eu.
    assert (R : (user_Compare u (pk_user_key p) < 0 \/ u = pk_user_key p /\ pk_sequence p <= s) <-> pk_sequence p <= s).
    { rewrite E. split; [intros [?|[_ ?]]; lia|]. intros. right. split; [done|lia]. }
    rewrite R, E. clear R.
    destruct (Z.ltb_spec (pk_sequence p) s); [lia|]. destruct (Z.ltb_spec s (pk_sequence p)); [lia|].
    destruct (Z.ltb_spec (pk_type p) kValueTypeForSeek); [lia|]. destruct (Z.ltb_spec kValueTypeForSeek (pk_type p)); lia.
  - split; [intros; left; lia|]. intros [Hlt|[-> _]]; [lia|]. exfalso. by apply E, cmp_eq.
Qed.

Lemma lookup_key_seek_witness :
  InternalKey_Compare BytewiseCompare (LookupKey_internal_key [97] 8) (encode (mkParsed [97] 7 kTypeValue)) <= 0.
Proof.
  apply (lookup_key_seek BytewiseCompare [97] 8 (mkParsed [97] 7 kTypeValue)).
  - vm_compute; split; discriminate.
  - repeat split; vm_compute; discriminate.
  - right. split; [done|]. cbn. lia.
Defined.

Abbreviation icompare := (InternalKey_Compare BytewiseCompare).

Lemma seek_max_ok u : parsed_ok (mkParsed u kMaxSequenceNumber kValueTypeForSeek).
Proof. apply seek_key_ok. vm_compute. split; discriminate. Qed.

Lemma icompare_refl k : icompare k k = 0.
Proof. unfold InternalKey_Compare, BytewiseCompare. by rewrite slice_compare_refl, Z.gtb_ltb, Z.ltb_irrefl. Qed.

(** A larger user key decides. *)
Lemma icompare_user_lt p1 p2 : parsed_ok p1 -> parsed_ok p2 ->
  BytewiseCompare (pk_user_key p1) (pk_user_key p2) < 0 -> icompare (encode p1) (encode p2) < 0.
Proof.
  intros H1 H2 Hc. rewrite internal_compare_parsed by done. unfold Parsed_Compare.
  destruct (Z.eqb_spec (BytewiseCompare (pk_user_key p1) (pk_user_key p2)) 0); lia.
Qed.

Lemma icompare_user_le p1 p2 : parsed_ok p1 -> parsed_ok p2 ->
  icompare (encode p1) (encode p2) < 0 -> BytewiseCompare (pk_user_key p1) (pk_user_key p2) <= 0.
Proof.
  intros H1 H2. rewrite internal_compare_parsed by done. unfold Parsed_Compare.
  destruct (Z.eqb_spec (BytewiseCompare (pk_user_key p1) (pk_user_key p2)) 0); lia.
Qed.

Lemma encode_length_le u1 s1 t1 p : zlen u1 <= zlen (pk_user_key p) ->
  (length (encode (mkParsed u1 s1 t1)) <= length (encode p))%nat.
Proof.
  intros Hl. pose proof (zlen_encode p). pose proof (zlen_encode (mkParsed u1 s1 t1)).
  unfold InternalKeyEncodingLength, zlen in *. cbn in *. lia.
Qed.

Lemma separator_same u : FindShortestSeparator u u = u.
Proof.
  unfold FindShortestSeparator. assert (E : difference_offset u u = length u).
  { induction u as [|b u IH]; cbn; [done|]. rewrite Z.eqb_refl. by rewrite IH. }
  rewrite E, Nat.min_id. by rewrite Nat.leb_refl.
Qed.

(** On internal keys, [FindShortestSeparator] returns a key that is not below
    [start], strictly below [limit] and not longer than [start], and
    [FindShortSuccessor] a key not below its argument and not longer; so the
    assertions in both hold. *)
Theorem internal_separator_correct p1 p2 :
  parsed_ok p1 -> parsed_ok p2 -> is_bytes (pk_user_key p1) -> is_bytes (pk_user_key p2) ->
  icompare (encode p1) (encode p2) < 0 ->
  let sep := InternalKey_FindShortestSeparator BytewiseCompare FindShortestSeparator (encode p1) (encode p2) in
  let succ := InternalKey_FindShortSuccessor BytewiseCompare FindShortSuccessor (encode p1) in
  icompare (encode p1) sep <= 0 /\ icompare sep (encode p2) < 0 /\ (length sep <= length (encode p1))%nat /\
  icompare (encode p1) succ <= 0 /\ (length succ <= length (encode p1))%nat.
Proof.
  intros H1 H2 Hb1 Hb2 Hlt. destruct (encode_footer p1 H1) as [Eu1 _], (encode_footer p2 H2) as [Eu2 _].
  cbv zeta. unfold InternalKey_FindShortestSeparator, InternalKey_FindShortSuccessor. rewrite Eu1, Eu2.
  set (tmp := FindShortestSeparator _ _). set (tmp2 := FindShortSuccessor _).
  match goal with |- ?A /\ ?B /\ ?C /\ ?D => enough ((A /\ B /\ C) /\ D) by tauto end. split.
  - destruct (Z.leb_spec (zlen tmp) (zlen (pk_user_key p1))) as [Hl|]; cbn [andb]; [|rewrite icompare_refl; lia].
    destruct (Z.ltb_spec (BytewiseCompare (pk_user_key p1) tmp) 0) as [Hc|]; [|rewrite icompare_refl; lia].
    change (PutFixed64 tmp _) with (encode (mkParsed tmp kMaxSequenceNumber kValueTypeForSeek)).
    pose proof (icompare_user_lt p1 (mkParsed tmp _ _) H1 (seek_max_ok tmp) Hc) as Hup.
    pose proof (icompare_user_le _ _ H1 H2 Hlt) as Hle.
    split_and!; [lia| |by apply encode_length_le]. apply icompare_user_lt; [apply seek_max_ok|done|]. cbn.
    destruct (Z.eq_dec (BytewiseCompare (pk_user_key p1) (pk_user_key p2)) 0) as [E|].
    + apply slice_compare_eq in E. unfold tmp in Hc. rewrite <- E, separator_same in Hc.
      unfold BytewiseCompare in Hc. rewrite slice_compare_refl in Hc. lia.
    + apply FindShortestSeparator_between; [done|done|lia].
  - destruct (Z.leb_spec (zlen tmp2) (zlen (pk_user_key p1))) as [Hl|]; cbn [andb]; [|rewrite icompare_refl; lia].
    destruct (Z.ltb_spec (BytewiseCompare (pk_user_key p1) tmp2) 0) as [Hc|]; [|rewrite icompare_refl; lia].
    change (PutFixed64 tmp2 _) with (encode (mkParsed tmp2 kMaxSequenceNumber kValueTypeForSeek)).
    pose proof (icompare_user_lt p1 (mkParsed tmp2 _ _) H1 (seek_max_ok tmp2) Hc) as Hup.
    split; [lia|by apply encode_length_le].
Qed.

Lemma internal_separator_correct_witness :
  icompare (InternalKey_FindShortestSeparator BytewiseCompare FindShortestSeparator
    (encode (mkParsed [97; 98; 99] 7 kTypeValue)) (encode (mkParsed [100] 9 kTypeValue)))
    (encode (mkParsed [100] 9 kTypeValue)) < 0.
Proof.
  apply (internal_separator_correct (mkParsed [97; 98; 99] 7 kTypeValue) (mkParsed [100] 9 kTypeValue)).
  - repeat split; vm_compute; discriminate.
  - repeat split; vm_compute; discriminate.
  - bytes_dec.
  - bytes_dec.
  - vm_compute. reflexivity.
Defined.
