(* ===== verification/KVStore.v ===== *)
(** * What the p2KVS programs require of a key-value store

    The programs use three parts of the store's interface: [WriteBatch]
    ([Put], [Clear]), [DB] ([Write], [Get], [MultiGet], [NewIterator]) and
    [Iterator]. They are classes here, with the contract of each over an abstract
    view: the list of puts of a batch and the map a store holds. *)

From S2P Require Import Prelude Comparator Iterator.

(** ** Batches of puts *)

Class Batch (B : Type) := {
  batch_new : B;
  batch_Put : B -> bytes -> bytes -> B;
  batch_Clear : B -> B
}.

(** The count of a batch is a 32-bit field, and so are the lengths of values and of
    keys with the eight bytes that the store adds to them. *)
Class BatchLaws {B} `{Batch B} (batch_inv : B -> Prop) (batch_ops : B -> list entry) : Prop := {
  law_batch_new : batch_inv batch_new /\ batch_ops batch_new = [];
  law_batch_Put : forall b k v, batch_inv b -> zlen k + 8 < 2 ^ 32 -> zlen v < 2 ^ 32 ->
    zlen (batch_ops b) < 2 ^ 32 - 1 ->
    batch_inv (batch_Put b k v) /\ batch_ops (batch_Put b k v) = batch_ops b ++ [(k, v)];
  law_batch_Clear : forall b, batch_inv b -> batch_inv (batch_Clear b) /\ batch_ops (batch_Clear b) = []
}.

(** ** Stores *)

Definition apply_puts (ops : list entry) (m : gmap bytes bytes) : gmap bytes bytes :=
  fold_left (fun m '(k, v) => <[k := v]> m) ops m.

(** [db_Write] returns [Status::ok()] and the new store. *)
Class DB (S B : Type) := {
  db_Write : S -> B -> bool * S;
  db_Get : S -> bytes -> option bytes;
  db_NewIterator : S -> list entry
}.

(** [MultiGet]: one status per key, in order. *)
Definition db_MultiGet {S B} `{DB S B} (s : S) (keys : list bytes) : list (option bytes) :=
  db_Get s <$> keys.

Class DBLaws {S B} `{DB S B} `{Batch B} (batch_inv : B -> Prop) (batch_ops : B -> list entry)
    (db_inv : S -> Prop) (contents : S -> gmap bytes bytes) : Prop := {
  law_Write : forall s b, db_inv s -> batch_inv b -> (db_Write s b).1 = true ->
    db_inv (db_Write s b).2 /\
    contents (db_Write s b).2 = apply_puts (batch_ops b) (contents s);
  law_Get : forall s k, db_inv s -> zlen k + 8 < 2 ^ 32 -> db_Get s k = contents s !! k;
  law_NewIterator : forall s, db_inv s ->
    StronglySorted (key_lt BytewiseCompare) (db_NewIterator s) /\
    forall k v, (k, v) ∈ db_NewIterator s <-> contents s !! k = Some v
}.

(** ** Lemmas on sequences of puts *)

Lemma apply_puts_app o1 o2 m : apply_puts (o1 ++ o2) m = apply_puts o2 (apply_puts o1 m).
Proof. apply fold_left_app. Qed.

Lemma apply_puts_nil m : apply_puts [] m = m.
Proof. done. Qed.

(** The last put of a key decides. *)
Lemma apply_puts_lookup ops m k :
  apply_puts ops m !! k
  = match last (filter (fun e : entry => e.1 = k) ops) with Some e => Some e.2 | None => m !! k end.
Proof.
  revert m. induction ops as [|[k' v'] ops IH]; intros m; [done|].
  change (apply_puts ((k', v') :: ops) m) with (apply_puts ops (<[k':=v']> m)).
  rewrite IH, filter_cons. cbn. destruct (decide (k' = k)) as [->|Hne].
  - rewrite last_cons. destruct (last _); [done|]. by rewrite lookup_insert_eq.
  - destruct (last _); [done|]. by rewrite lookup_insert_ne.
Qed.

(** Puts of other keys do not matter. *)
Lemma apply_puts_filter ops m k (P : entry -> Prop) `{!forall e, Decision (P e)} :
  (forall e, e ∈ ops -> e.1 = k -> P e) ->
  apply_puts ops m !! k = apply_puts (filter P ops) m !! k.
Proof.
  intros HP. rewrite !apply_puts_lookup. f_equal.
  enough (E : filter (fun e : entry => e.1 = k) ops
            = filter (fun e : entry => e.1 = k) (filter P ops)) by (by rewrite E).
  induction ops as [|e ops IH]; [done|]. rewrite !filter_cons.
  assert (IH' := IH ltac:(intros e' He'; apply HP; by right)).
  destruct (decide (e.1 = k)) as [Hk|Hk].
  - rewrite (decide_True (P := P e)) by (apply HP; [by left|done]).
    rewrite filter_cons, decide_True by done. by f_equal.
  - destruct (decide (P e)); [|done]. rewrite filter_cons, decide_False by done. done.
Qed.

(** ** Reference instances

    A batch that is the list of its puts and a store that is its map. *)

#[export] Instance list_batch : Batch (list entry) := {|
  batch_new := []; batch_Put := fun b k v => b ++ [(k, v)]; batch_Clear := fun _ => [] |}.

#[export] Instance list_batch_laws : BatchLaws (fun _ : list entry => True) (fun b => b).
Proof. by split. Qed.

(** The sorted entries of a map. *)
Definition entry_le (a b : entry) : Prop := slice_compare a.1 b.1 <= 0.

#[global] Instance entry_le_dec a b : Decision (entry_le a b).
Proof. unfold entry_le. apply _. Defined.

Definition sorted_entries (m : gmap bytes bytes) : list entry := merge_sort entry_le (map_to_list m).

#[export] Instance map_db : DB (gmap bytes bytes) (list entry) := {|
  db_Write := fun s b => (true, apply_puts b s);
  db_Get := fun s k => s !! k;
  db_NewIterator := sorted_entries |}.

#[export] Instance entry_le_trans : Transitive entry_le.
Proof.
  intros a b c Hab Hbc. unfold entry_le in *.
  exact (cmp_le_trans BytewiseCompare _ _ _ Hab Hbc).
Qed.

#[export] Instance entry_le_total : Total entry_le.
Proof. intros a b. unfold entry_le. rewrite (slice_compare_flip a.1 b.1). lia. Qed.

Lemma sorted_entries_spec m :
  StronglySorted (key_lt BytewiseCompare) (sorted_entries m) /\
  forall k v, (k, v) ∈ sorted_entries m <-> m !! k = Some v.
Proof.
  assert (Hp : sorted_entries m ≡ₚ map_to_list m) by apply merge_sort_Permutation.
  split; [|intros k v; rewrite Hp; apply elem_of_map_to_list].
  assert (Hs : StronglySorted entry_le (sorted_entries m)) by (apply StronglySorted_merge_sort; apply _).
  assert (Hnd : NoDup (sorted_entries m).*1) by (rewrite Hp; apply NoDup_fst_map_to_list).
  revert Hs Hnd. generalize (sorted_entries m) as l. clear. induction l as [|a l IH]; intros Hs Hnd; [constructor|].
  apply StronglySorted_inv in Hs as [Hs Ha]. cbn in Hnd. apply NoDup_cons in Hnd as [Hna Hnd].
  constructor; [by apply IH|]. apply Forall_forall. intros b Hb. rewrite Forall_forall in Ha.
  specialize (Ha b Hb). unfold entry_le in Ha. unfold key_lt, BytewiseCompare.
  destruct (Z.eq_dec (slice_compare a.1 b.1) 0) as [E|]; [|lia]. exfalso.
  apply slice_compare_eq in E. apply Hna. rewrite E. apply list_elem_of_fmap. eauto.
Qed.

#[export] Instance map_db_laws :
  DBLaws (fun _ : list entry => True) (fun b => b) (fun _ : gmap bytes bytes => True) (fun s => s).
Proof. split; [done|done|]. intros s _. apply sorted_entries_spec. Qed.
