(* ===== verification/WriteBatch.v ===== *)
(** * WriteBatch ([db/write_batch.cc], [db/write_batch_internal.h])

    A batch is a string: a sequence number, a count and a list of records, which
    [Iterate] decodes and hands to a handler. The file has the operations that
    build a batch, save points, concatenation, and iteration with its assertions;
    [None] where an assertion fails. *)

From S2P Require Import Prelude Coding DbFormat KVStore.

(** ** Statuses *)

Inductive Status :=
  | OK | NotFound | Corruption | NotSupported | InvalidArgument | IOError | MergeInProgress | TryAgain | MemoryLimit | Incomplete.

#[global] Instance Status_eq_dec : EqDecision Status.
Proof. solve_decision. Defined.

Definition ok (s : Status) : bool := bool_decide (s = OK).
Definition IsTryAgain (s : Status) : bool := bool_decide (s = TryAgain).

(** ** Content flags *)

Definition DEFERRED : Z := Z.shiftl 1 0.
Definition HAS_PUT : Z := Z.shiftl 1 1.
Definition HAS_DELETE : Z := Z.shiftl 1 2.
Definition HAS_SINGLE_DELETE : Z := Z.shiftl 1 3.
Definition HAS_MERGE : Z := Z.shiftl 1 4.
Definition HAS_BEGIN_PREPARE : Z := Z.shiftl 1 5.
Definition HAS_END_PREPARE : Z := Z.shiftl 1 6.
Definition HAS_COMMIT : Z := Z.shiftl 1 7.
Definition HAS_ROLLBACK : Z := Z.shiftl 1 8.
Definition HAS_DELETE_RANGE : Z := Z.shiftl 1 9.
Definition HAS_BLOB_INDEX : Z := Z.shiftl 1 10.
Definition HAS_BEGIN_UNPREPARE : Z := Z.shiftl 1 11.

(** ** The batch *)

Record SavePoint := mkSavePoint { sp_size : Z; sp_count : Z; sp_content_flags : Z }.

Definition SavePoint_cleared : SavePoint := mkSavePoint 0 0 0.

Definition is_cleared (p : SavePoint) : bool :=
  Z.lor (Z.lor (sp_size p) (sp_count p)) (sp_content_flags p) =? 0.

Record WriteBatch := mkWriteBatch {
  rep_ : bytes;
  content_flags_ : Z;
  max_bytes_ : Z;
  timestamp_size_ : Z;
  save_points_ : list SavePoint;   (* the top of the stack first *)
  wal_term_point_ : SavePoint
}.

Definition kHeader : Z := 12.

Definition WriteBatch_new (max_bytes ts_sz : Z) : WriteBatch :=
  mkWriteBatch (replicate (Z.to_nat kHeader) 0) 0 max_bytes ts_sz [] SavePoint_cleared.

Definition WriteBatch_from (rep : bytes) : WriteBatch :=
  mkWriteBatch rep DEFERRED 0 0 [] SavePoint_cleared.

Definition set_rep (b : WriteBatch) (rep : bytes) : WriteBatch :=
  mkWriteBatch rep (content_flags_ b) (max_bytes_ b) (timestamp_size_ b) (save_points_ b) (wal_term_point_ b).

Definition set_flags (b : WriteBatch) (flags : Z) : WriteBatch :=
  mkWriteBatch (rep_ b) flags (max_bytes_ b) (timestamp_size_ b) (save_points_ b) (wal_term_point_ b).

Definition set_save_points (b : WriteBatch) (sps : list SavePoint) : WriteBatch :=
  mkWriteBatch (rep_ b) (content_flags_ b) (max_bytes_ b) (timestamp_size_ b) sps (wal_term_point_ b).

Definition WriteBatch_Clear (b : WriteBatch) : WriteBatch :=
  mkWriteBatch (replicate (Z.to_nat kHeader) 0) 0 (max_bytes_ b) (timestamp_size_ b) [] SavePoint_cleared.

Definition Count (b : WriteBatch) : Z := DecodeFixed32 (drop 8 (rep_ b)).

Definition SetCount (b : WriteBatch) (n : Z) : WriteBatch :=
  set_rep b (take 8 (rep_ b) ++ EncodeFixed32 (u32 n) ++ drop 12 (rep_ b)).

Definition Sequence (b : WriteBatch) : Z := DecodeFixed64 (rep_ b).

Definition SetSequence (b : WriteBatch) (seq : Z) : WriteBatch :=
  set_rep b (EncodeFixed64 seq ++ drop 8 (rep_ b)).

Definition GetDataSize (b : WriteBatch) : Z := zlen (rep_ b).

Definition MarkWalTerminationPoint (b : WriteBatch) : WriteBatch :=
  mkWriteBatch (rep_ b) (content_flags_ b) (max_bytes_ b) (timestamp_size_ b) (save_points_ b)
    (mkSavePoint (GetDataSize b) (i32 (Count b)) (content_flags_ b)).

(** *** LocalSavePoint *)

Definition LocalSavePoint (b : WriteBatch) : SavePoint :=
  mkSavePoint (GetDataSize b) (i32 (Count b)) (content_flags_ b).

Definition restore (b : WriteBatch) (p : SavePoint) : WriteBatch :=
  set_flags (SetCount (set_rep b (take (Z.to_nat (sp_size p)) (rep_ b))) (sp_count p)) (sp_content_flags p).

Definition commit (save : SavePoint) (b : WriteBatch) : Status * WriteBatch :=
  if negb (max_bytes_ b =? 0) && (zlen (rep_ b) >? max_bytes_ b)
  then (MemoryLimit, restore b save) else (OK, b).

(** *** Adding records *)

Definition kMaxUint32 : Z := 2 ^ 32 - 1.

(** The tag, with the column family unless it is the default one. *)
Definition put_tag (rep : bytes) (tag cf_tag column_family_id : Z) : bytes :=
  if column_family_id =? 0 then rep ++ [tag] else PutVarint32 (rep ++ [cf_tag]) column_family_id.

(** The key, padded for a timestamp. *)
Definition put_key (ts_sz : Z) (rep key : bytes) : bytes :=
  if ts_sz =? 0 then PutLengthPrefixedSlice rep key
  else PutVarint32 rep (u32 (zlen key + ts_sz)) ++ key ++ replicate (Z.to_nat ts_sz) 0.

Definition incr_count (b : WriteBatch) : WriteBatch := SetCount b (Count b + 1).

Definition add_flag (b : WriteBatch) (flag : Z) : WriteBatch := set_flags b (Z.lor (content_flags_ b) flag).

Definition WriteBatch_Put (b : WriteBatch) (cf : Z) (key value : bytes) : Status * WriteBatch :=
  if zlen key >? kMaxUint32 then (InvalidArgument, b)
  else if zlen value >? kMaxUint32 then (InvalidArgument, b)
  else
    let save := LocalSavePoint b in
    let b1 := incr_count b in
    let rep := put_tag (rep_ b1) kTypeValue kTypeColumnFamilyValue cf in
    let rep := put_key (timestamp_size_ b1) rep key in
    let rep := PutLengthPrefixedSlice rep value in
    commit save (add_flag (set_rep b1 rep) HAS_PUT).

Definition WriteBatch_Delete (b : WriteBatch) (cf : Z) (key : bytes) : Status * WriteBatch :=
  let save := LocalSavePoint b in
  let b1 := incr_count b in
  let rep := put_tag (rep_ b1) kTypeDeletion kTypeColumnFamilyDeletion cf in
  let rep := put_key (timestamp_size_ b1) rep key in
  commit save (add_flag (set_rep b1 rep) HAS_DELETE).

Definition WriteBatch_SingleDelete (b : WriteBatch) (cf : Z) (key : bytes) : Status * WriteBatch :=
  let save := LocalSavePoint b in
  let b1 := incr_count b in
  let rep := put_tag (rep_ b1) kTypeSingleDeletion kTypeColumnFamilySingleDeletion cf in
  let rep := PutLengthPrefixedSlice rep key in
  commit save (add_flag (set_rep b1 rep) HAS_SINGLE_DELETE).

Definition WriteBatch_DeleteRange (b : WriteBatch) (cf : Z) (begin_key end_key : bytes) : Status * WriteBatch :=
  let save := LocalSavePoint b in
  let b1 := incr_count b in
  let rep := put_tag (rep_ b1) kTypeRangeDeletion kTypeColumnFamilyRangeDeletion cf in
  let rep := PutLengthPrefixedSlice rep begin_key in
  let rep := PutLengthPrefixedSlice rep end_key in
  commit save (add_flag (set_rep b1 rep) HAS_DELETE_RANGE).

Definition WriteBatch_Merge (b : WriteBatch) (cf : Z) (key value : bytes) : Status * WriteBatch :=
  if zlen key >? kMaxUint32 then (InvalidArgument, b)
  else if zlen value >? kMaxUint32 then (InvalidArgument, b)
  else
    let save := LocalSavePoint b in
    let b1 := incr_count b in
    let rep := put_tag (rep_ b1) kTypeMerge kTypeColumnFamilyMerge cf in
    let rep := PutLengthPrefixedSlice rep key in
    let rep := PutLengthPrefixedSlice rep value in
    commit save (add_flag (set_rep b1 rep) HAS_MERGE).

Definition WriteBatch_PutBlobIndex (b : WriteBatch) (cf : Z) (key value : bytes) : Status * WriteBatch :=
  let save := LocalSavePoint b in
  let b1 := incr_count b in
  let rep := put_tag (rep_ b1) kTypeBlobIndex kTypeColumnFamilyBlobIndex cf in
  let rep := PutLengthPrefixedSlice rep key in
  let rep := PutLengthPrefixedSlice rep value in
  commit save (add_flag (set_rep b1 rep) HAS_BLOB_INDEX).

Definition WriteBatch_PutLogData (b : WriteBatch) (blob : bytes) : Status * WriteBatch :=
  let save := LocalSavePoint b in
  commit save (set_rep b (PutLengthPrefixedSlice (rep_ b ++ [kTypeLogData]) blob)).

Definition InsertNoop (b : WriteBatch) : WriteBatch := set_rep b (rep_ b ++ [kTypeNoop]).

Definition MarkEndPrepare (b : WriteBatch) (xid : bytes) (write_after_commit unprepared_batch : bool)
  : option WriteBatch :=
  if decide (rep_ b !! 12%nat = Some kTypeNoop) then
    let b1 := set_save_points b [] in
    let marker := if write_after_commit then kTypeBeginPrepareXID
                  else if unprepared_batch then kTypeBeginUnprepareXID else kTypeBeginPersistedPrepareXID in
    let rep := <[12%nat := marker]> (rep_ b1) in
    let rep := PutLengthPrefixedSlice (rep ++ [kTypeEndPrepareXID]) xid in
    let b2 := add_flag (set_rep b1 rep) (Z.lor HAS_END_PREPARE HAS_BEGIN_PREPARE) in
    Some (if unprepared_batch then add_flag b2 HAS_BEGIN_UNPREPARE else b2)
  else None.

Definition MarkCommit (b : WriteBatch) (xid : bytes) : WriteBatch :=
  add_flag (set_rep b (PutLengthPrefixedSlice (rep_ b ++ [kTypeCommitXID]) xid)) HAS_COMMIT.

Definition MarkRollback (b : WriteBatch) (xid : bytes) : WriteBatch :=
  add_flag (set_rep b (PutLengthPrefixedSlice (rep_ b ++ [kTypeRollbackXID]) xid)) HAS_ROLLBACK.

(** *** Save points *)

Definition SetSavePoint (b : WriteBatch) : WriteBatch :=
  set_save_points b (mkSavePoint (GetDataSize b) (i32 (Count b)) (content_flags_ b) :: save_points_ b).

(** [None] where an assertion fails. *)
Definition RollbackToSavePoint (b : WriteBatch) : option (Status * WriteBatch) :=
  match save_points_ b with
  | [] => Some (NotFound, b)
  | savepoint :: sps =>
      let b1 := set_save_points b sps in
      if (zlen (rep_ b1) <? sp_size savepoint) || (Count b1 <? u32 (sp_count savepoint)) then None
      else if sp_size savepoint =? zlen (rep_ b1) then Some (OK, b1)
      else if sp_size savepoint =? 0 then Some (OK, WriteBatch_Clear b1)
      else Some (OK, restore b1 savepoint)
  end.

Definition PopSavePoint (b : WriteBatch) : Status * WriteBatch :=
  match save_points_ b with
  | [] => (NotFound, b)
  | _ :: sps => (OK, set_save_points b sps)
  end.

(** *** Whole batches *)

Definition SetContents (b : WriteBatch) (contents : bytes) : WriteBatch :=
  set_flags (set_rep b contents) DEFERRED.

Definition WriteBatch_Append (dst src : WriteBatch) (wal_only : bool) : WriteBatch :=
  let batch_end := wal_term_point_ src in
  let '(src_len, src_count, src_flags) :=
    if wal_only && negb (is_cleared batch_end)
    then (sp_size batch_end - kHeader, sp_count batch_end, sp_content_flags batch_end)
    else (zlen (rep_ src) - kHeader, Count src, content_flags_ src) in
  let d1 := SetCount dst (Count dst + src_count) in
  let d2 := set_rep d1 (rep_ d1 ++ take (Z.to_nat src_len) (drop (Z.to_nat kHeader) (rep_ src))) in
  add_flag d2 src_flags.

Definition AppendedByteSize (leftByteSize rightByteSize : Z) : Z :=
  if (leftByteSize =? 0) || (rightByteSize =? 0) then leftByteSize + rightByteSize
  else leftByteSize + rightByteSize - kHeader.

(** ** Decoding *)

(** A record: its tag and the out parameters that the tag sets. *)
Inductive record :=
  | RPut (cf : Z) (key value : bytes)
  | RDelete (cf : Z) (key : bytes)
  | RSingleDelete (cf : Z) (key : bytes)
  | RDeleteRange (cf : Z) (begin_key end_key : bytes)
  | RMerge (cf : Z) (key value : bytes)
  | RBlobIndex (cf : Z) (key value : bytes)
  | RLogData (blob : bytes)
  | RNoop
  | RBeginPrepare
  | RBeginPersistedPrepare
  | RBeginUnprepare
  | REndPrepare (xid : bytes)
  | RCommit (xid : bytes)
  | RRollback (xid : bytes).

(** The column family of a record, read only after the tag of one. *)
Definition read_cf (has_cf : bool) (input : bytes) : option (Z * bytes) :=
  if has_cf then GetVarint32 input else Some (0, input).

Definition read_key (f : Z -> bytes -> record) (has_cf : bool) (input : bytes) : option (record * bytes) :=
  '(cf, input) ← read_cf has_cf input;
  '(key, input) ← GetLengthPrefixedSlice input;
  Some (f cf key, input).

Definition read_key_value (f : Z -> bytes -> bytes -> record) (has_cf : bool) (input : bytes)
  : option (record * bytes) :=
  '(cf, input) ← read_cf has_cf input;
  '(key, input) ← GetLengthPrefixedSlice input;
  '(value, input) ← GetLengthPrefixedSlice input;
  Some (f cf key value, input).

Definition read_slice (f : bytes -> record) (input : bytes) : option (record * bytes) :=
  '(s, input) ← GetLengthPrefixedSlice input; Some (f s, input).

(** [None]: [Status::Corruption]. *)
Definition ReadRecordFromWriteBatch (input : bytes) : option (record * bytes) :=
  match input with
  | [] => None
  | tag :: input =>
      if tag =? kTypeColumnFamilyValue then read_key_value RPut true input
      else if tag =? kTypeValue then read_key_value RPut false input
      else if tag =? kTypeColumnFamilyDeletion then read_key RDelete true input
      else if tag =? kTypeColumnFamilySingleDeletion then read_key RSingleDelete true input
      else if tag =? kTypeDeletion then read_key RDelete false input
      else if tag =? kTypeSingleDeletion then read_key RSingleDelete false input
      else if tag =? kTypeColumnFamilyRangeDeletion then read_key_value RDeleteRange true input
      else if tag =? kTypeRangeDeletion then read_key_value RDeleteRange false input
      else if tag =? kTypeColumnFamilyMerge then read_key_value RMerge true input
      else if tag =? kTypeMerge then read_key_value RMerge false input
      else if tag =? kTypeColumnFamilyBlobIndex then read_key_value RBlobIndex true input
      else if tag =? kTypeBlobIndex then read_key_value RBlobIndex false input
      else if tag =? kTypeLogData then read_slice RLogData input
      else if tag =? kTypeNoop then Some (RNoop, input)
      else if tag =? kTypeBeginPrepareXID then Some (RBeginPrepare, input)
      else if tag =? kTypeBeginPersistedPrepareXID then Some (RBeginPersistedPrepare, input)
      else if tag =? kTypeBeginUnprepareXID then Some (RBeginUnprepare, input)
      else if tag =? kTypeEndPrepareXID then read_slice REndPrepare input
      else if tag =? kTypeCommitXID then read_slice RCommit input
      else if tag =? kTypeRollbackXID then read_slice RRollback input
      else None
  end.

(** [ReadKeyFromWriteBatchEntry]. *)
Definition ReadKeyFromWriteBatchEntry (input : bytes) (cf_record : bool) : option (bytes * bytes) :=
  '(_, input) ← read_cf cf_record (drop 1 input); GetLengthPrefixedSlice input.

(** ** Handlers and iteration *)

Record Handler (H : Type) := mkHandler {
  h_Continue : H -> bool;
  h_PutCF : H -> Z -> bytes -> bytes -> Status * H;
  h_DeleteCF : H -> Z -> bytes -> Status * H;
  h_SingleDeleteCF : H -> Z -> bytes -> Status * H;
  h_DeleteRangeCF : H -> Z -> bytes -> bytes -> Status * H;
  h_MergeCF : H -> Z -> bytes -> bytes -> Status * H;
  h_PutBlobIndexCF : H -> Z -> bytes -> bytes -> Status * H;
  h_LogData : H -> bytes -> H;
  h_MarkBeginPrepare : H -> bool -> H;
  h_MarkNoop : H -> bool -> H;
  h_MarkEndPrepare : H -> bytes -> H;
  h_MarkRollback : H -> bytes -> H;
  h_MarkCommit : H -> bytes -> H;
  h_WriteAfterCommit : H -> bool;
  h_WriteBeforePrepare : H -> bool
}.
Arguments h_Continue {H}.
Arguments h_PutCF {H}.
Arguments h_DeleteCF {H}.
Arguments h_SingleDeleteCF {H}.
Arguments h_DeleteRangeCF {H}.
Arguments h_MergeCF {H}.
Arguments h_PutBlobIndexCF {H}.
Arguments h_LogData {H}.
Arguments h_MarkBeginPrepare {H}.
Arguments h_MarkNoop {H}.
Arguments h_MarkEndPrepare {H}.
Arguments h_MarkRollback {H}.
Arguments h_MarkCommit {H}.
Arguments h_WriteAfterCommit {H}.
Arguments h_WriteBeforePrepare {H}.

(** The flag that the assertion on a record's tag wants, if there is one. *)
Definition flag_of (r : record) : option Z :=
  match r with
  | RPut _ _ _ => Some HAS_PUT
  | RDelete _ _ => Some HAS_DELETE
  | RSingleDelete _ _ => Some HAS_SINGLE_DELETE
  | RDeleteRange _ _ _ => Some HAS_DELETE_RANGE
  | RMerge _ _ _ => Some HAS_MERGE
  | RBlobIndex _ _ _ => Some HAS_BLOB_INDEX
  | RBeginPrepare | RBeginPersistedPrepare => Some HAS_BEGIN_PREPARE
  | RBeginUnprepare => Some HAS_BEGIN_UNPREPARE
  | REndPrepare _ => Some HAS_END_PREPARE
  | RCommit _ => Some HAS_COMMIT
  | RRollback _ => Some HAS_ROLLBACK
  | RLogData _ | RNoop => None
  end.

Definition flag_asserted (content_flags : Z) (r : record) : bool :=
  match flag_of r with
  | Some flag => negb (Z.land content_flags (Z.lor DEFERRED flag) =? 0)
  | None => true
  end.

Section Iterate.
Context {H : Type} (handler : Handler H).

(** The locals of the loop that a record changes. *)
Record iter_state := mkIter { it_s : Status; it_empty_batch : bool; it_found : Z; it_h : H }.

(** A data record: [s = handler->...CF(...); if (s.ok()) { empty_batch = false; found++; }] *)
Definition data_record (st : iter_state) (clears_empty : bool) (r : Status * H) : iter_state :=
  let '(s, h) := r in
  if ok s then mkIter s (if clears_empty then false else it_empty_batch st) (u32 (it_found st + 1)) h
  else mkIter s (it_empty_batch st) (it_found st) h.

(** The [switch] on the tag. *)
Definition handle_record (r : record) (st : iter_state) : iter_state :=
  let h := it_h st in
  match r with
  | RPut cf key value => data_record st true (h_PutCF handler h cf key value)
  | RDelete cf key => data_record st true (h_DeleteCF handler h cf key)
  | RSingleDelete cf key => data_record st true (h_SingleDeleteCF handler h cf key)
  | RDeleteRange cf b e => data_record st true (h_DeleteRangeCF handler h cf b e)
  | RMerge cf key value => data_record st true (h_MergeCF handler h cf key value)
  | RBlobIndex cf key value => data_record st false (h_PutBlobIndexCF handler h cf key value)
  | RLogData blob => mkIter (it_s st) false (it_found st) (h_LogData handler h blob)
  | RBeginPrepare =>
      let h1 := h_MarkBeginPrepare handler h false in
      let s1 := if h_WriteAfterCommit handler h1 then it_s st else NotSupported in
      let s2 := if h_WriteBeforePrepare handler h1 then NotSupported else s1 in
      mkIter s2 false (it_found st) h1
  | RBeginPersistedPrepare =>
      let h1 := h_MarkBeginPrepare handler h false in
      let s1 := if h_WriteAfterCommit handler h1 then NotSupported else it_s st in
      mkIter s1 false (it_found st) h1
  | RBeginUnprepare =>
      let h1 := h_MarkBeginPrepare handler h true in
      let s1 := if h_WriteAfterCommit handler h1 then NotSupported else it_s st in
      let s2 := if h_WriteBeforePrepare handler h1 then s1 else NotSupported in
      mkIter s2 false (it_found st) h1
  | REndPrepare xid => mkIter (it_s st) true (it_found st) (h_MarkEndPrepare handler h xid)
  | RCommit xid => mkIter (it_s st) true (it_found st) (h_MarkCommit handler h xid)
  | RRollback xid => mkIter (it_s st) true (it_found st) (h_MarkRollback handler h xid)
  | RNoop => mkIter (it_s st) true (it_found st) (h_MarkNoop handler h (it_empty_batch st))
  end.

(** How the loop ends: by its condition, by [Continue], or by a [return]. *)
Inductive loop_exit := Exited (st : iter_state) (handler_continue : bool) | ReturnedEarly (s : Status) (h : H).

(** The [while] loop; [tag] is the record of the last turn. [None] where an
    assertion fails, or the fuel is out. *)
Fixpoint iterate_loop (fuel : nat) (content_flags : Z) (input : bytes) (tag : record)
    (last_was_try_again : bool) (st : iter_state) : option loop_exit :=
  match fuel with
  | O => None
  | S fuel' =>
      if (ok (it_s st) && bool_decide (input <> [])) || IsTryAgain (it_s st) then
        if h_Continue handler (it_h st) then
          if IsTryAgain (it_s st) then
            if last_was_try_again then None
            else
              if flag_asserted content_flags tag
              then iterate_loop fuel' content_flags input tag true
                     (handle_record tag (mkIter OK (it_empty_batch st) (it_found st) (it_h st)))
              else None
          else
            match ReadRecordFromWriteBatch input with
            | None => Some (ReturnedEarly Corruption (it_h st))
            | Some (r, input') =>
                if flag_asserted content_flags r
                then iterate_loop fuel' content_flags input' r false (handle_record r st)
                else None
            end
        else Some (Exited st false)
      else Some (Exited st true)
  end.

(** [WriteBatchInternal::Iterate(wb, handler, begin, end)]. *)
Definition Iterate_range (wb : WriteBatch) (h : H) (begin_ end_ : Z) : option (Status * H) :=
  if (begin_ >? zlen (rep_ wb)) || (end_ >? zlen (rep_ wb)) || (end_ <? begin_) then Some (Corruption, h)
  else
    let input := take (Z.to_nat (end_ - begin_)) (drop (Z.to_nat begin_) (rep_ wb)) in
    let whole_batch := (begin_ =? kHeader) && (end_ =? zlen (rep_ wb)) in
    match iterate_loop (2 * length input + 2) (content_flags_ wb) input RNoop false (mkIter OK true 0 h) with
    | None => None
    | Some (ReturnedEarly s h') => Some (s, h')
    | Some (Exited st handler_continue) =>
        if negb (ok (it_s st)) then Some (it_s st, it_h st)
        else if handler_continue && whole_batch && negb (it_found st =? Count wb)
        then Some (Corruption, it_h st) else Some (OK, it_h st)
    end.

Definition Iterate (wb : WriteBatch) (h : H) : option (Status * H) :=
  if zlen (rep_ wb) <? kHeader then Some (Corruption, h)
  else Iterate_range wb h kHeader (zlen (rep_ wb)).
End Iterate.
Arguments mkIter {H}.
Arguments it_s {H}.
Arguments it_empty_batch {H}.
Arguments it_found {H}.
Arguments it_h {H}.
Arguments Exited {H}.
Arguments ReturnedEarly {H}.

(** ** BatchContentClassifier *)

Definition BatchContentClassifier : Handler Z :=
  let mark flag (content_flags : Z) := (OK, Z.lor content_flags flag) in
  {| h_Continue := fun _ => true;
     h_PutCF := fun f _ _ _ => mark HAS_PUT f;
     h_DeleteCF := fun f _ _ => mark HAS_DELETE f;
     h_SingleDeleteCF := fun f _ _ => mark HAS_SINGLE_DELETE f;
     h_DeleteRangeCF := fun f _ _ _ => mark HAS_DELETE_RANGE f;
     h_MergeCF := fun f _ _ _ => mark HAS_MERGE f;
     h_PutBlobIndexCF := fun f _ _ _ => mark HAS_BLOB_INDEX f;
     h_LogData := fun f _ => f;
     h_MarkBeginPrepare := fun f unprepare =>
       let f1 := Z.lor f HAS_BEGIN_PREPARE in if unprepare : bool then Z.lor f1 HAS_BEGIN_UNPREPARE else f1;
     h_MarkNoop := fun f _ => f;
     h_MarkEndPrepare := fun f _ => Z.lor f HAS_END_PREPARE;
     h_MarkRollback := fun f _ => Z.lor f HAS_ROLLBACK;
     h_MarkCommit := fun f _ => Z.lor f HAS_COMMIT;
     h_WriteAfterCommit := fun _ => true;
     h_WriteBeforePrepare := fun _ => false |}.

(** The flags, and the batch with them stored. *)
Definition ComputeContentFlags (b : WriteBatch) : option (Z * WriteBatch) :=
  let rv := content_flags_ b in
  if Z.land rv DEFERRED =? 0 then Some (rv, b)
  else '(_, flags) ← Iterate BatchContentClassifier b 0; Some (flags, set_flags b flags).

Definition has_flag (flag : Z) (b : WriteBatch) : option bool :=
  '(flags, _) ← ComputeContentFlags b; Some (negb (Z.land flags flag =? 0)).

Definition HasPut := has_flag HAS_PUT.
Definition HasDelete := has_flag HAS_DELETE.
Definition HasSingleDelete := has_flag HAS_SINGLE_DELETE.
Definition HasDeleteRange := has_flag HAS_DELETE_RANGE.
Definition HasMerge := has_flag HAS_MERGE.
Definition HasBeginPrepare := has_flag HAS_BEGIN_PREPARE.
Definition HasEndPrepare := has_flag HAS_END_PREPARE.
Definition HasCommit := has_flag HAS_COMMIT.
Definition HasRollback := has_flag HAS_ROLLBACK.

(** ** The format

    The layout that the comment at the top of [write_batch.cc] gives. *)

Definition varstring (s : bytes) : bytes := EncodeVarint32 (u32 (zlen s)) ++ s.

Definition encode_tag (tag cf_tag cf : Z) : bytes :=
  if cf =? 0 then [tag] else cf_tag :: EncodeVarint32 cf.

Definition encode_record (r : record) : bytes :=
  match r with
  | RPut cf k v => encode_tag kTypeValue kTypeColumnFamilyValue cf ++ varstring k ++ varstring v
  | RDelete cf k => encode_tag kTypeDeletion kTypeColumnFamilyDeletion cf ++ varstring k
  | RSingleDelete cf k => encode_tag kTypeSingleDeletion kTypeColumnFamilySingleDeletion cf ++ varstring k
  | RDeleteRange cf b e => encode_tag kTypeRangeDeletion kTypeColumnFamilyRangeDeletion cf ++ varstring b ++ varstring e
  | RMerge cf k v => encode_tag kTypeMerge kTypeColumnFamilyMerge cf ++ varstring k ++ varstring v
  | RBlobIndex cf k v => encode_tag kTypeBlobIndex kTypeColumnFamilyBlobIndex cf ++ varstring k ++ varstring v
  | RLogData blob => kTypeLogData :: varstring blob
  | RNoop => [kTypeNoop]
  | RBeginPrepare => [kTypeBeginPrepareXID]
  | RBeginPersistedPrepare => [kTypeBeginPersistedPrepareXID]
  | RBeginUnprepare => [kTypeBeginUnprepareXID]
  | REndPrepare xid => kTypeEndPrepareXID :: varstring xid
  | RCommit xid => kTypeCommitXID :: varstring xid
  | RRollback xid => kTypeRollbackXID :: varstring xid
  end.

Definition slice_ok (s : bytes) : Prop := zlen s < 2 ^ 32.
Definition cf_ok (cf : Z) : Prop := 0 <= cf < 2 ^ 32.

Definition record_ok (r : record) : Prop :=
  match r with
  | RPut cf k v | RMerge cf k v | RBlobIndex cf k v | RDeleteRange cf k v => cf_ok cf /\ slice_ok k /\ slice_ok v
  | RDelete cf k | RSingleDelete cf k => cf_ok cf /\ slice_ok k
  | RLogData s | REndPrepare s | RCommit s | RRollback s => slice_ok s
  | RNoop | RBeginPrepare | RBeginPersistedPrepare | RBeginUnprepare => True
  end.

(** The records that the count of a batch counts. *)
Definition counted (r : record) : bool :=
  match r with
  | RPut _ _ _ | RDelete _ _ | RSingleDelete _ _ | RDeleteRange _ _ _ | RMerge _ _ _ | RBlobIndex _ _ _ => true
  | _ => false
  end.

Definition count_of (recs : list record) : Z := zlen (filter (fun r => counted r = true) recs).

Definition payload (recs : list record) : bytes := recs ≫= encode_record.

(** A batch that holds [recs] under sequence number [seq]. *)
Record holds (b : WriteBatch) (seq : Z) (recs : list record) : Prop := {
  holds_rep : rep_ b = memcpy_from 8 seq ++ memcpy_from 4 (count_of recs) ++ payload recs;
  holds_seq : 0 <= seq < 2 ^ 64;
  holds_count : count_of recs < 2 ^ 32;
  holds_records : Forall record_ok recs;
  holds_flags : Forall (fun r => flag_asserted (content_flags_ b) r = true) recs
}.

(** ** Reading back what was written *)

Lemma GetLengthPrefixedSlice_varstring s rest : slice_ok s ->
  GetLengthPrefixedSlice (varstring s ++ rest) = Some (s, rest).
Proof. intros Hs. unfold varstring. rewrite <- app_assoc. by apply GetLengthPrefixedSlice_app. Qed.

Lemma read_key_encode f (has_cf : bool) cf k rest : cf_ok cf -> slice_ok k -> (has_cf = false -> cf = 0) ->
  read_key f has_cf ((if has_cf then EncodeVarint32 cf else []) ++ varstring k ++ rest) = Some (f cf k, rest).
Proof.
  intros Hc Hk H0. unfold read_key, read_cf. destruct has_cf.
  - rewrite GetVarint32_app by done. cbn. by rewrite GetLengthPrefixedSlice_varstring.
  - rewrite H0 by done. cbn. by rewrite GetLengthPrefixedSlice_varstring.
Qed.

Lemma read_key_value_encode f (has_cf : bool) cf k v rest :
  cf_ok cf -> slice_ok k -> slice_ok v -> (has_cf = false -> cf = 0) ->
  read_key_value f has_cf ((if has_cf then EncodeVarint32 cf else []) ++ varstring k ++ varstring v ++ rest)
  = Some (f cf k v, rest).
Proof.
  intros Hc Hk Hv H0. unfold read_key_value, read_cf. destruct has_cf.
  - rewrite GetVarint32_app by done. cbn. rewrite GetLengthPrefixedSlice_varstring by done. cbn.
    by rewrite GetLengthPrefixedSlice_varstring.
  - rewrite H0 by done. cbn. rewrite GetLengthPrefixedSlice_varstring by done. cbn.
    by rewrite GetLengthPrefixedSlice_varstring.
Qed.

Lemma read_slice_encode f s rest : slice_ok s -> read_slice f (varstring s ++ rest) = Some (f s, rest).
Proof. intros Hs. unfold read_slice. by rewrite GetLengthPrefixedSlice_varstring. Qed.

Lemma read_encode_record r rest : record_ok r ->
  ReadRecordFromWriteBatch (encode_record r ++ rest) = Some (r, rest).
Proof.
  destruct r; cbn [record_ok encode_record]; intros Hok; unfold encode_tag; rewrite <- ?app_assoc;
    try (destruct (Z.eqb_spec cf 0)); cbn -[read_key read_key_value read_slice varstring EncodeVarint32];
    try reflexivity;
    first [ by apply read_slice_encode
          | destruct Hok as [Hc [Hk Hv]]; by apply (read_key_value_encode _ false)
          | destruct Hok as [Hc [Hk Hv]]; by apply (read_key_value_encode _ true)
          | destruct Hok as [Hc Hk]; by apply (read_key_encode _ false)
          | destruct Hok as [Hc Hk]; by apply (read_key_encode _ true) ].
Qed.

Lemma encode_record_nonempty r : encode_record r <> [].
Proof. destruct r; cbn; unfold encode_tag; try destruct (_ =? 0); done. Qed.

Lemma payload_cons r recs : payload (r :: recs) = encode_record r ++ payload recs.
Proof. done. Qed.

Lemma payload_one r : payload [r] = encode_record r.
Proof. apply app_nil_r. Qed.

Lemma payload_app r1 r2 : payload (r1 ++ r2) = payload r1 ++ payload r2.
Proof. apply bind_app. Qed.

Lemma payload_length recs : (length recs <= length (payload recs))%nat.
Proof.
  induction recs as [|r recs IH]; [done|]. rewrite payload_cons, length_app. cbn.
  pose proof (encode_record_nonempty r). destruct (encode_record r); cbn; [done|lia].
Qed.

Lemma count_of_app r1 r2 : count_of (r1 ++ r2) = count_of r1 + count_of r2.
Proof. unfold count_of, zlen. rewrite filter_app, length_app. lia. Qed.

Lemma count_of_one r : count_of [r] = if counted r then 1 else 0.
Proof. unfold count_of. rewrite filter_cons. by destruct (counted r). Qed.

Lemma count_of_nonneg recs : 0 <= count_of recs.
Proof. unfold count_of, zlen. lia. Qed.

(** ** Building a batch *)

Lemma header_count seq n tl : 0 <= n < 2 ^ 32 ->
  DecodeFixed32 (drop 8 (memcpy_from 8 seq ++ memcpy_from 4 n ++ tl)) = n.
Proof.
  intros Hn. rewrite drop_app_length' by (by rewrite memcpy_from_length).
  unfold DecodeFixed32, DecodeFixed32_on, kLittleEndian. apply memcpy_to_from_id. lia.
Qed.

Lemma header_set_count seq n m tl :
  take 8 (memcpy_from 8 seq ++ memcpy_from 4 n ++ tl) ++ EncodeFixed32 m ++ drop 12 (memcpy_from 8 seq ++ memcpy_from 4 n ++ tl)
  = memcpy_from 8 seq ++ memcpy_from 4 m ++ tl.
Proof. reflexivity. Qed.

Lemma holds_Count b seq recs : holds b seq recs -> Count b = count_of recs.
Proof.
  intros [Hr _ Hc _ _]. unfold Count. rewrite Hr. apply header_count. pose proof (count_of_nonneg recs). lia.
Qed.

Lemma holds_Sequence b seq recs : holds b seq recs -> Sequence b = seq.
Proof.
  intros [Hr Hs _ _ _]. unfold Sequence. rewrite Hr. unfold DecodeFixed64, DecodeFixed64_on, kLittleEndian.
  apply memcpy_to_from_id. lia.
Qed.

Lemma holds_SetCount b seq recs n : holds b seq recs -> 0 <= n < 2 ^ 32 ->
  rep_ (SetCount b n) = memcpy_from 8 seq ++ memcpy_from 4 n ++ payload recs.
Proof. intros [Hr _ _ _ _] Hn. unfold SetCount, set_rep. cbn [rep_]. rewrite Hr, u32_small by lia. apply header_set_count. Qed.

(** The batch operation that writes a record, where there is one of its own. *)
Definition add_record (b : WriteBatch) (r : record) : option (Status * WriteBatch) :=
  match r with
  | RPut cf k v => Some (WriteBatch_Put b cf k v)
  | RDelete cf k => Some (WriteBatch_Delete b cf k)
  | RSingleDelete cf k => Some (WriteBatch_SingleDelete b cf k)
  | RDeleteRange cf k e => Some (WriteBatch_DeleteRange b cf k e)
  | RMerge cf k v => Some (WriteBatch_Merge b cf k v)
  | RBlobIndex cf k v => Some (WriteBatch_PutBlobIndex b cf k v)
  | RLogData blob => Some (WriteBatch_PutLogData b blob)
  | RNoop => Some (OK, InsertNoop b)
  | RCommit xid => Some (OK, MarkCommit b xid)
  | RRollback xid => Some (OK, MarkRollback b xid)
  | RBeginPrepare | RBeginPersistedPrepare | RBeginUnprepare | REndPrepare _ => None
  end.

(** The record as it is written: keys of puts and deletes get room for a timestamp. *)
Definition stamped (ts_sz : Z) (r : record) : record :=
  match r with
  | RPut cf k v => RPut cf (k ++ replicate (Z.to_nat ts_sz) 0) v
  | RDelete cf k => RDelete cf (k ++ replicate (Z.to_nat ts_sz) 0)
  | r => r
  end.

Lemma put_tag_app rep tag cf_tag cf : put_tag rep tag cf_tag cf = rep ++ encode_tag tag cf_tag cf.
Proof. unfold put_tag, encode_tag, PutVarint32. destruct (_ =? 0); [done|]. by rewrite <- app_assoc. Qed.

Lemma put_slice_app rep s : PutLengthPrefixedSlice rep s = rep ++ varstring s.
Proof. unfold PutLengthPrefixedSlice, PutVarint32, varstring. by rewrite <- app_assoc. Qed.

Lemma put_key_app ts_sz rep k : 0 <= ts_sz -> put_key ts_sz rep k = rep ++ varstring (k ++ replicate (Z.to_nat ts_sz) 0).
Proof.
  intros Hts. unfold put_key. destruct (Z.eqb_spec ts_sz 0) as [->|].
  - rewrite put_slice_app. cbn. by rewrite app_nil_r.
  - unfold PutVarint32, varstring. rewrite <- !app_assoc. do 3 f_equal. unfold zlen.
    rewrite length_app, length_replicate. f_equal. lia.
Qed.

(** What every operation that counts does between the save point and the commit. *)
Definition written (b : WriteBatch) (r : record) : WriteBatch :=
  let b1 := if counted r then incr_count b else b in
  let b2 := set_rep b1 (rep_ b1 ++ encode_record r) in
  match flag_of r with Some flag => add_flag b2 flag | None => b2 end.

(** Which records pass through a save point. *)
Definition limited (r : record) : bool :=
  match r with RNoop | RCommit _ | RRollback _ => false | _ => true end.

Lemma add_record_written b r s b' :
  record_ok (stamped (timestamp_size_ b) r) -> 0 <= timestamp_size_ b -> add_record b r = Some (s, b') ->
  (s, b') = if limited r then commit (LocalSavePoint b) (written b (stamped (timestamp_size_ b) r))
            else (OK, written b (stamped (timestamp_size_ b) r)).
Proof.
  intros Hok Hts Hadd. assert (Hle : forall k : bytes, slice_ok (k ++ replicate (Z.to_nat (timestamp_size_ b)) 0) -> slice_ok k).
  { intros k. unfold slice_ok, zlen. rewrite length_app. lia. }
  assert (Hgt : forall k : bytes, slice_ok k -> (zlen k >? kMaxUint32) = false).
  { intros k Hk. rewrite Z.gtb_ltb. apply Z.ltb_ge. unfold slice_ok, kMaxUint32 in *. lia. }
  destruct r; cbn in Hadd; try done; apply (inj Some) in Hadd; rewrite <- Hadd; cbn [limited stamped]; cbn [record_ok stamped] in Hok.
  - destruct Hok as (_ & Hk & Hv). unfold WriteBatch_Put. rewrite (Hgt key), (Hgt value) by auto.
    rewrite put_tag_app, put_key_app, put_slice_app, <- !app_assoc by done. done.
  - unfold WriteBatch_Delete. rewrite put_tag_app, put_key_app, <- !app_assoc by done. done.
  - unfold WriteBatch_SingleDelete. by rewrite put_tag_app, put_slice_app, <- !app_assoc.
  - unfold WriteBatch_DeleteRange. by rewrite put_tag_app, !put_slice_app, <- !app_assoc.
  - destruct Hok as (_ & Hk & Hv). unfold WriteBatch_Merge. rewrite (Hgt key), (Hgt value) by auto.
    by rewrite put_tag_app, !put_slice_app, <- !app_assoc.
  - unfold WriteBatch_PutBlobIndex. by rewrite put_tag_app, !put_slice_app, <- !app_assoc.
  - unfold WriteBatch_PutLogData. rewrite put_slice_app, <- app_assoc. done.
  - done.
  - unfold MarkCommit. rewrite put_slice_app, <- app_assoc. done.
  - unfold MarkRollback. rewrite put_slice_app, <- app_assoc. done.
Qed.

Lemma flag_asserted_lor f g r : 0 <= f -> 0 <= g -> flag_asserted f r = true -> flag_asserted (Z.lor f g) r = true.
Proof.
  intros Hf Hg. unfold flag_asserted. destruct (flag_of r) as [x|]; [|done].
  rewrite !negb_true_iff, !Z.eqb_neq. intros Hne E. apply Hne. rewrite Z.land_lor_distr_l in E.
  by apply Z.lor_eq_0_iff in E as [E _].
Qed.

Lemma flag_asserted_self f r flag : flag_of r = Some flag -> flag_asserted (Z.lor f flag) r = true.
Proof.
  intros E. unfold flag_asserted. rewrite E. apply negb_true_iff, Z.eqb_neq. intros Hz.
  rewrite Z.land_lor_distr_l in Hz. apply Z.lor_eq_0_iff in Hz as [_ Hz].
  destruct r; cbn in E; try done; injection E as <-; vm_compute in Hz; done.
Qed.

Lemma holds_written b seq recs r : holds b seq recs -> 0 <= content_flags_ b -> record_ok r ->
  count_of recs < 2 ^ 32 - 1 -> holds (written b r) seq (recs ++ [r]).
Proof.
  intros Hh Hf Hok Hc. pose proof (holds_Count _ _ _ Hh) as Ec. pose proof (count_of_nonneg recs) as H0.
  assert (Hrep : rep_ (written b r) = memcpy_from 8 seq ++ memcpy_from 4 (count_of (recs ++ [r])) ++ payload (recs ++ [r])).
  { rewrite count_of_app, payload_app. unfold written.
    assert (E : rep_ (if counted r then incr_count b else b)
      = memcpy_from 8 seq ++ memcpy_from 4 (count_of recs + count_of [r]) ++ payload recs).
    { rewrite count_of_one. destruct (counted r).
      - unfold incr_count. rewrite (holds_SetCount b seq recs) by (done || lia). by rewrite Ec.
      - rewrite Z.add_0_r. apply Hh. }
    destruct (flag_of r); cbn; rewrite E, <- !app_assoc; unfold payload at 2; cbn; by rewrite app_nil_r. }
  assert (Hfl : content_flags_ (written b r) = match flag_of r with Some flag => Z.lor (content_flags_ b) flag | None => content_flags_ b end).
  { unfold written. destruct (flag_of r), (counted r); done. }
  destruct Hh as [_ Hs _ Hrec Hflags]. split; [done|done| |by apply Forall_app; split; [|constructor]|].
  - rewrite count_of_app, count_of_one. destruct (counted r); lia.
  - rewrite Hfl. apply Forall_app. split.
    + destruct (flag_of r) as [flag|] eqn:E; [|done]. eapply Forall_impl; [done|]. intros r' Hr'.
      apply flag_asserted_lor; [done| |done]. destruct r; cbn in E; try done; injection E as <-; done.
    + constructor; [|done]. destruct (flag_of r) as [flag|] eqn:E; [by apply flag_asserted_self|].
      unfold flag_asserted. by rewrite E.
Qed.

(** *** Undoing *)

Lemma i32_u32 c : 0 <= c < 2 ^ 32 -> u32 (i32 c) = c.
Proof. intros Hc. unfold u32, i32. div_lia. Qed.

Lemma rep_size b seq recs : holds b seq recs -> zlen (rep_ b) = kHeader + zlen (payload recs).
Proof.
  intros [Hr _ _ _ _]. rewrite Hr. unfold zlen, kHeader. rewrite !length_app, !memcpy_from_length. lia.
Qed.

(** Truncating a batch that has grown gives the old one back. *)
Lemma restore_spec b b' seq recs more : holds b seq recs -> holds b' seq (recs ++ more) ->
  restore b' (LocalSavePoint b)
  = mkWriteBatch (rep_ b) (content_flags_ b) (max_bytes_ b') (timestamp_size_ b') (save_points_ b') (wal_term_point_ b').
Proof.
  intros Hh Hh'. pose proof (holds_Count _ _ _ Hh) as Ec. pose proof (rep_size _ _ _ Hh) as Es.
  pose proof (holds_rep _ _ _ Hh') as Er. rewrite payload_app in Er. destruct Hh as [Hr _ Hc _ _].
  pose proof (count_of_nonneg recs). unfold restore, LocalSavePoint, SetCount, set_flags, set_rep, GetDataSize.
  cbn [sp_size sp_count sp_content_flags rep_ content_flags_ max_bytes_ timestamp_size_ save_points_ wal_term_point_].
  f_equal. rewrite Es, Ec, i32_u32 by lia.
  replace (Z.to_nat (kHeader + zlen (payload recs)))
    with (length (memcpy_from 8 seq ++ memcpy_from 4 (count_of (recs ++ more)) ++ payload recs)).
  - assert (Er' : rep_ b' = (memcpy_from 8 seq ++ memcpy_from 4 (count_of (recs ++ more)) ++ payload recs) ++ payload more)
      by by rewrite Er, <- !app_assoc.
    rewrite Er', take_app_length, header_set_count. done.
  - rewrite !length_app, !memcpy_from_length. unfold kHeader, zlen. lia.
Qed.

Lemma written_frame b r : max_bytes_ (written b r) = max_bytes_ b /\ timestamp_size_ (written b r) = timestamp_size_ b /\
  save_points_ (written b r) = save_points_ b /\ wal_term_point_ (written b r) = wal_term_point_ b /\
  (0 <= content_flags_ b -> 0 <= content_flags_ (written b r)).
Proof.
  assert (Hf : forall flag, flag_of r = Some flag -> 0 <= flag) by (intros flag; destruct r; cbn; intros E; try done; injection E as <-; done).
  unfold written. destruct (flag_of r) as [flag|] eqn:E, (counted r); cbn; split_and!; try done;
    intros; apply Z.lor_nonneg; split; try done; by apply Hf.
Qed.

Lemma add_record_cases b seq recs r s b' :
  holds b seq recs -> 0 <= content_flags_ b -> 0 <= timestamp_size_ b ->
  record_ok (stamped (timestamp_size_ b) r) -> count_of recs < 2 ^ 32 - 1 -> add_record b r = Some (s, b') ->
  let r' := stamped (timestamp_size_ b) r in
  (s = OK /\ b' = written b r' /\ holds b' seq (recs ++ [r'])) \/
  (s = MemoryLimit /\ b' = b /\ limited r = true /\ max_bytes_ b <> 0 /\ max_bytes_ b < zlen (rep_ b) + zlen (encode_record r')).
Proof.
  intros Hh Hf Hts Hok Hc Hadd r'. pose proof (add_record_written _ _ _ _ Hok Hts Hadd) as E. fold r' in E, Hok.
  pose proof (holds_written _ _ _ _ Hh Hf Hok Hc) as Hw. destruct (limited r) eqn:Hl.
  2:{ injection E as -> ->. by left. }
  unfold commit in E. destruct (written_frame b r') as (Em & Et & Esp & Ew & _).
  rewrite Em in E. destruct (Z.eqb_spec (max_bytes_ b) 0); cbn [negb andb] in E; [injection E as -> ->; by left|].
  rewrite Z.gtb_ltb in E. destruct (Z.ltb_spec (max_bytes_ b) (zlen (rep_ (written b r')))) as [Hlt|]; injection E as -> ->; [|by left].
  right. split_and!; [done| |done|done|].
  - rewrite (restore_spec b _ seq recs [r'] Hh Hw), Em, Et, Esp, Ew. by destruct b.
  - rewrite (rep_size _ _ _ Hw), payload_app in Hlt. rewrite (rep_size _ _ _ Hh). rewrite payload_one in Hlt.
    unfold zlen in *. rewrite length_app in Hlt. lia.
Qed.

(** A sequence of operations, whatever their statuses. *)
Fixpoint add_records (b : WriteBatch) (rs : list record) : option WriteBatch :=
  match rs with
  | [] => Some b
  | r :: rs' => '(_, b1) ← add_record b r; add_records b1 rs'
  end.

Lemma add_records_holds rs b seq recs b' :
  holds b seq recs -> 0 <= content_flags_ b -> 0 <= timestamp_size_ b ->
  Forall (fun r => record_ok (stamped (timestamp_size_ b) r)) rs -> count_of recs + zlen rs < 2 ^ 32 ->
  add_records b rs = Some b' ->
  save_points_ b' = save_points_ b /\ max_bytes_ b' = max_bytes_ b /\ timestamp_size_ b' = timestamp_size_ b /\
  wal_term_point_ b' = wal_term_point_ b /\
  exists more, holds b' seq (recs ++ more) /\ (more = [] -> b' = b) /\
    (max_bytes_ b = 0 -> more = stamped (timestamp_size_ b) <$> rs).
Proof.
  revert b recs. induction rs as [|r rs IH]; intros b recs Hh Hf Hts Hok Hc Hadd; cbn in Hadd.
  - injection Hadd as <-. split_and!; try done. exists []. rewrite app_nil_r. done.
  - destruct (add_record b r) as [[s b1]|] eqn:E1; [|done]. cbn in Hadd.
    apply Forall_cons in Hok as [Hr Hok]. pose proof (count_of_nonneg recs).
    assert (Hc' : count_of recs + 1 + zlen rs < 2 ^ 32) by (unfold zlen in *; cbn in Hc; lia).
    destruct (add_record_cases b seq recs r s b1 Hh Hf Hts Hr ltac:(unfold zlen in Hc'; lia) E1) as [(_ & Eb & Hh1)|(_ & -> & _ & Hm & _)].
    + destruct (written_frame b (stamped (timestamp_size_ b) r)) as (Em & Et & Esp & Ew & Hf1). rewrite <- Eb in *.
      destruct (IH b1 _ Hh1) as (E3 & E4 & E5 & E6 & more & Hh2 & _ & Hz); rewrite ?Et; try done; try by apply Hf1.
      { rewrite count_of_app, count_of_one. destruct (counted _); lia. }
      split_and!; try congruence. exists (stamped (timestamp_size_ b) r :: more).
      rewrite cons_middle, app_assoc. split_and!; [done|done|]. intros Hmax. cbn. f_equal. rewrite Em, Et in Hz. by apply Hz.
    + destruct (IH b recs Hh Hf Hts Hok ltac:(lia) Hadd) as (E3 & E4 & E5 & E6 & more & Hh2 & Hn & _).
      split_and!; try done. exists more. split_and!; [done|done|]. intros; lia.
Qed.

(** ** Iterating over a batch *)

Section Run.
Context {H : Type} (handler : Handler H).

(** The loop of [Iterate] without the decoding. *)
Fixpoint run_records (recs : list record) (st : iter_state) : iter_state * bool :=
  match recs with
  | [] => (st, true)
  | r :: recs' =>
      if ok (it_s st) then
        if h_Continue handler (it_h st) then run_records recs' (handle_record handler r st) else (st, false)
      else (st, true)
  end.

(** Handlers that never ask for a retry. *)
Definition no_try_again : Prop := forall r st, it_s st = OK -> it_s (handle_record handler r st) <> TryAgain.

Lemma ok_spec s : ok s = true <-> s = OK.
Proof. unfold ok. apply bool_decide_eq_true. Qed.

Lemma iterate_payload fuel flags recs tag last st :
  no_try_again -> Forall record_ok recs -> Forall (fun r => flag_asserted flags r = true) recs ->
  (length recs < fuel)%nat -> it_s st <> TryAgain ->
  iterate_loop handler fuel flags (payload recs) tag last st
  = Some (Exited (run_records recs st).1 (run_records recs st).2).
Proof.
  intros Hno. revert fuel tag last st. induction recs as [|r recs IH]; intros fuel tag last st Hok Hfl Hfuel Hst;
    destruct fuel as [|fuel]; cbn in Hfuel; try lia; cbn [iterate_loop run_records].
  - rewrite bool_decide_eq_false_2 by (intros E; by apply E). rewrite andb_false_r.
    assert (Et : IsTryAgain (it_s st) = false) by (by apply bool_decide_eq_false). rewrite Et. done.
  - apply Forall_cons in Hok as [Hr Hok]. apply Forall_cons in Hfl as [Hf Hfl].
    assert (Et : IsTryAgain (it_s st) = false) by (by apply bool_decide_eq_false). rewrite Et, orb_false_r.
    rewrite bool_decide_eq_true_2.
    2:{ rewrite payload_cons. intros E. apply app_nil in E as [E _]. by apply (encode_record_nonempty r). }
    rewrite andb_true_r. destruct (ok (it_s st)) eqn:Eok; [|done].
    destruct (h_Continue handler (it_h st)); [|done].
    rewrite payload_cons, read_encode_record by done. rewrite Hf. apply IH; [done|done|lia|].
    apply Hno. by apply ok_spec.
Qed.

Lemma handle_record_found r st : it_s (handle_record handler r st) = OK ->
  it_found (handle_record handler r st) = if counted r then u32 (it_found st + 1) else it_found st.
Proof.
  assert (Hd : forall c x, it_s (data_record st c x) = OK -> it_found (data_record st c x) = u32 (it_found st + 1)).
  { intros c [s h]. unfold data_record. destruct (ok s) eqn:E; cbn; [done|]. intros ->. done. }
  destruct r; cbn -[data_record]; (apply Hd || done).
Qed.

Lemma run_records_found recs st :
  0 <= it_found st -> it_found st + count_of recs < 2 ^ 32 ->
  it_s (run_records recs st).1 = OK -> (run_records recs st).2 = true ->
  it_found (run_records recs st).1 = it_found st + count_of recs.
Proof.
  revert st. induction recs as [|r recs IH]; intros st H0 Hb; cbn [run_records].
  - intros _ _. change (count_of []) with 0. cbn. lia.
  - pose proof (count_of_nonneg recs). change (r :: recs) with ([r] ++ recs) in *. rewrite count_of_app, count_of_one in *.
    destruct (ok (it_s st)) eqn:Eok; cbn [fst snd]; [|intros E; rewrite E in Eok; done].
    destruct (h_Continue handler (it_h st)); [|done]. intros Es Ec.
    assert (Es' : it_s (handle_record handler r st) = OK).
    { destruct recs; cbn in Es; [done|]. destruct (ok (it_s (handle_record handler r st))) eqn:E; [by apply ok_spec|done]. }
    pose proof (handle_record_found r st Es') as Ef.
    rewrite (IH (handle_record handler r st)); [|destruct (counted r); rewrite Ef; try rewrite u32_small by lia; lia|..|done|done].
    + rewrite Ef. destruct (counted r); try rewrite u32_small by lia; lia.
    + rewrite Ef. destruct (counted r); try rewrite u32_small by lia; lia.
Qed.

Lemma iterate_holds b seq recs h : no_try_again -> holds b seq recs ->
  Iterate handler b h
  = Some (let st := (run_records recs (mkIter OK true 0 h)).1 in (it_s st, it_h st)).
Proof.
  intros Hno Hh. pose proof (rep_size _ _ _ Hh) as Es. pose proof (holds_Count _ _ _ Hh) as Ec.
  destruct Hh as [Hr _ Hc Hok Hfl]. pose proof (count_of_nonneg recs). pose proof (zlen_nonneg (payload recs)).
  unfold Iterate, Iterate_range. rewrite Es. unfold kHeader in *.
  destruct (Z.ltb_spec (12 + zlen (payload recs)) 12); [lia|]. rewrite !Z.gtb_ltb.
  destruct (Z.ltb_spec (12 + zlen (payload recs)) 12); [lia|]. rewrite Z.ltb_irrefl. cbn [orb].
  replace (12 + zlen (payload recs) - 12) with (zlen (payload recs)) by lia.
  assert (Ein : take (Z.to_nat (zlen (payload recs))) (drop (Z.to_nat 12) (rep_ b)) = payload recs).
  { rewrite Hr, app_assoc, drop_app_length' by (by rewrite length_app, !memcpy_from_length).
    unfold zlen. by rewrite Nat2Z.id, firstn_all. }
  rewrite Ein, iterate_payload; [|done|done|done|pose proof (payload_length recs); lia|done].
  set (res := run_records recs (mkIter OK true 0 h)) in *.
  destruct (ok (it_s res.1)) eqn:Eok; cbn [negb]; [|done]. apply ok_spec in Eok. rewrite Eok.
  destruct res.2 eqn:Econt; cbn [andb]; [|done]. unfold res in *.
  rewrite (run_records_found recs (mkIter OK true 0 h)); [|cbn; lia..|done|done].
  cbn [it_found]. rewrite Z.eqb_refl, andb_true_l, Z.eqb_refl, Ec, Z.add_0_l, Z.eqb_refl. done.
Qed.

(** *** What is promised to a handler *)

(** Whether nothing was written since the last marker, or at all; blob indexes do not
    count. [MarkNoop] is told so. *)
Definition relevant (r : record) : bool := match r with RBlobIndex _ _ _ => false | _ => true end.
Definition marker (r : record) : bool :=
  match r with RNoop | REndPrepare _ | RCommit _ | RRollback _ => true | _ => false end.
Definition empty_since_marker (before : list record) : bool := from_option marker true (last (filter (fun r => relevant r = true) before)).

(** The method of the handler that a record stands for. *)
Definition called (before : list record) (r : record) (h : H) : Status * H :=
  match r with
  | RPut cf k v => h_PutCF handler h cf k v
  | RDelete cf k => h_DeleteCF handler h cf k
  | RSingleDelete cf k => h_SingleDeleteCF handler h cf k
  | RDeleteRange cf k e => h_DeleteRangeCF handler h cf k e
  | RMerge cf k v => h_MergeCF handler h cf k v
  | RBlobIndex cf k v => h_PutBlobIndexCF handler h cf k v
  | RLogData blob => (OK, h_LogData handler h blob)
  | RNoop => (OK, h_MarkNoop handler h (empty_since_marker before))
  | REndPrepare xid => (OK, h_MarkEndPrepare handler h xid)
  | RCommit xid => (OK, h_MarkCommit handler h xid)
  | RRollback xid => (OK, h_MarkRollback handler h xid)
  | RBeginPrepare =>
      let h := h_MarkBeginPrepare handler h false in
      (if h_WriteAfterCommit handler h && negb (h_WriteBeforePrepare handler h) then OK else NotSupported, h)
  | RBeginPersistedPrepare =>
      let h := h_MarkBeginPrepare handler h false in (if h_WriteAfterCommit handler h then NotSupported else OK, h)
  | RBeginUnprepare =>
      let h := h_MarkBeginPrepare handler h true in
      (if negb (h_WriteAfterCommit handler h) && h_WriteBeforePrepare handler h then OK else NotSupported, h)
  end.

(** One call per record, in order, until the handler stops or fails. *)
Fixpoint deliver (before recs : list record) (h : H) : Status * H :=
  match recs with
  | [] => (OK, h)
  | r :: recs' =>
      if h_Continue handler h then
        let '(s, h') := called before r h in
        if ok s then deliver (before ++ [r]) recs' h' else (s, h')
      else (OK, h)
  end.

Definition never_retries : Prop := forall before r h, (called before r h).1 <> TryAgain.

Lemma empty_since_snoc before r : empty_since_marker (before ++ [r]) = if relevant r then marker r else empty_since_marker before.
Proof.
  unfold empty_since_marker. rewrite filter_app. destruct (relevant r) eqn:E.
  - rewrite filter_cons_True, filter_nil, last_snoc by done. done.
  - rewrite filter_cons_False, filter_nil, app_nil_r by (by rewrite E). done.
Qed.

Lemma handle_record_called before r st : it_s st = OK -> it_empty_batch st = empty_since_marker before ->
  (it_s (handle_record handler r st), it_h (handle_record handler r st)) = called before r (it_h st) /\
  (it_s (handle_record handler r st) = OK -> it_empty_batch (handle_record handler r st) = empty_since_marker (before ++ [r])).
Proof.
  intros Es Eb. rewrite empty_since_snoc.
  assert (Hd : forall clears x, (it_s (data_record st clears x), it_h (data_record st clears x)) = x /\
    (it_s (data_record st clears x) = OK -> it_empty_batch (data_record st clears x) = if clears then false else empty_since_marker before)).
  { intros clears [s h]. unfold data_record. destruct (ok s) eqn:E; cbn; [by destruct clears|]. split; [done|]. intros ->. done. }
  destruct r; cbn [handle_record called relevant marker]; try apply Hd; cbn; rewrite ?Es, ?Eb; (split; [|done]).
  - done.
  - done.
  - destruct (h_WriteAfterCommit _ _), (h_WriteBeforePrepare _ _); done.
  - destruct (h_WriteAfterCommit _ _); done.
  - destruct (h_WriteAfterCommit _ _), (h_WriteBeforePrepare _ _); done.
  - done.
  - done.
  - done.
Qed.

Lemma never_retries_ok : never_retries -> no_try_again.
Proof.
  intros Hn r st Es. set (before := if it_empty_batch st then [] else [RLogData []]).
  destruct (handle_record_called before r st Es) as [E _]; [unfold before; by destruct (it_empty_batch st)|].
  pose proof (Hn before r (it_h st)) as Hr. rewrite <- E in Hr. exact Hr.
Qed.

Lemma run_records_deliver recs : forall before st, it_s st = OK -> it_empty_batch st = empty_since_marker before ->
  (it_s (run_records recs st).1, it_h (run_records recs st).1) = deliver before recs (it_h st).
Proof.
  induction recs as [|r recs IH]; intros before st Es Eb; cbn [run_records deliver]; [by rewrite <- Es|]. rewrite Es. change (ok OK) with true. cbv iota.
  destruct (h_Continue handler (it_h st)); cbn [fst]; [|by rewrite Es].
  destruct (handle_record_called before r st Es Eb) as [<- He]. destruct (ok (it_s (handle_record handler r st))) eqn:Eok.
  - apply ok_spec in Eok. by apply IH; [|apply He].
  - destruct recs; cbn [run_records]; [done|]. by rewrite Eok.
Qed.
End Run.

Lemma holds_new max_bytes ts_sz : holds (WriteBatch_new max_bytes ts_sz) 0 [].
Proof. split; [reflexivity|lia|reflexivity|constructor|constructor]. Qed.

(** ** Theorems *)

(** C16. Whatever operations build a batch without a size limit, iterating over it
    calls the handler's methods for exactly these operations, in order and with
    their arguments (keys of puts and deletes with the room for a timestamp), until
    the handler fails or stops, and returns the handler's status, for handlers that do not
    ask for a retry ([TryAgain]); the count of the batch is the number of its updates. *)
Theorem batch_roundtrip {H} (handler : Handler H) (h : H) ts_sz rs b :
  0 <= ts_sz -> Forall (fun r => record_ok (stamped ts_sz r)) rs -> zlen rs < 2 ^ 32 ->
  add_records (WriteBatch_new 0 ts_sz) rs = Some b -> never_retries handler ->
  Count b = count_of (stamped ts_sz <$> rs) /\
  Iterate handler b h = Some (deliver handler [] (stamped ts_sz <$> rs) h).
Proof.
  intros Hts Hok Hl Hadd Hno.
  destruct (add_records_holds rs (WriteBatch_new 0 ts_sz) 0 [] b (holds_new 0 ts_sz)) as (_ & _ & _ & _ & more & Hh & _ & Em);
    [done|done|done|change (count_of []) with 0; lia|done|].
  rewrite (Em eq_refl) in Hh. cbn in Hh. split; [by eapply holds_Count|].
  rewrite (iterate_holds handler _ _ _ _ (never_retries_ok handler Hno) Hh). f_equal. by apply (run_records_deliver handler _ [] (mkIter OK true 0 h)).
Qed.

(** A handler that keeps the records it is given. *)
Definition collector : Handler (list record) :=
  {| h_Continue := fun _ => true;
     h_PutCF := fun l cf k v => (OK, l ++ [RPut cf k v]);
     h_DeleteCF := fun l cf k => (OK, l ++ [RDelete cf k]);
     h_SingleDeleteCF := fun l cf k => (OK, l ++ [RSingleDelete cf k]);
     h_DeleteRangeCF := fun l cf k e => (OK, l ++ [RDeleteRange cf k e]);
     h_MergeCF := fun l cf k v => (OK, l ++ [RMerge cf k v]);
     h_PutBlobIndexCF := fun l cf k v => (OK, l ++ [RBlobIndex cf k v]);
     h_LogData := fun l s => l ++ [RLogData s];
     h_MarkBeginPrepare := fun l _ => l ++ [RBeginPrepare];
     h_MarkNoop := fun l _ => l ++ [RNoop];
     h_MarkEndPrepare := fun l s => l ++ [REndPrepare s];
     h_MarkRollback := fun l s => l ++ [RRollback s];
     h_MarkCommit := fun l s => l ++ [RCommit s];
     h_WriteAfterCommit := fun _ => true;
     h_WriteBeforePrepare := fun _ => false |}.

Lemma collector_no_try_again : no_try_again collector.
Proof. intros r st E. destruct r; cbn; rewrite ?E; done. Qed.

Lemma collector_never_retries : never_retries collector.
Proof. intros before r h. destruct r; cbn; done. Qed.

Lemma batch_roundtrip_witness :
  exists b, add_records (WriteBatch_new 0 0) [RPut 0 [1] [2; 3]; RDelete 7 [4]; RLogData [5]] = Some b /\
  Iterate collector b [] = Some (OK, [RPut 0 [1] [2; 3]; RDelete 7 [4]; RLogData [5]]).
Proof.
  eexists. split; [vm_compute; reflexivity|].
  refine (proj2 (batch_roundtrip collector [] 0 [RPut 0 [1] [2; 3]; RDelete 7 [4]; RLogData [5]] _ _ _ _ _ collector_never_retries)).
  - lia.
  - repeat constructor; vm_compute; (reflexivity || discriminate).
  - reflexivity.
  - vm_compute. reflexivity.
Defined.

(** Rolling back to a save point gives back the very batch on which it was set,
    whatever operations were tried since, also those that hit the size limit; no
    assertion fails. *)
Theorem savepoint_rollback b seq recs rs b' :
  holds b seq recs -> 0 <= content_flags_ b -> 0 <= timestamp_size_ b ->
  Forall (fun r => record_ok (stamped (timestamp_size_ b) r)) rs -> count_of recs + zlen rs < 2 ^ 32 ->
  add_records (SetSavePoint b) rs = Some b' ->
  RollbackToSavePoint b' = Some (OK, b).
Proof.
  intros Hh Hf Hts Hok Hc Hadd.
  assert (Hh0 : holds (SetSavePoint b) seq recs) by (destruct Hh; by split).
  destruct (add_records_holds rs _ seq recs b' Hh0 Hf Hts Hok Hc Hadd) as (Esp & Em & Et & Ew & more & Hh' & Hnil & _).
  pose proof (rep_size _ _ _ Hh) as Es. pose proof (rep_size _ _ _ Hh') as Es'.
  pose proof (holds_Count _ _ _ Hh) as Ec. pose proof (holds_Count _ _ _ Hh') as Ec'.
  pose proof (count_of_nonneg recs). pose proof (count_of_nonneg more).
  rewrite payload_app in Es'. rewrite count_of_app in Ec'. destruct Hh as [Hr Hs Hcnt Hrec Hfl] eqn:EHh. clear EHh.
  assert (Hlen : zlen (payload recs ++ payload more) = zlen (payload recs) + zlen (payload more))
    by (unfold zlen; rewrite length_app; lia).
  pose proof (zlen_nonneg (payload more)). pose proof (zlen_nonneg (payload recs)).
  unfold RollbackToSavePoint. rewrite Esp. cbn [SetSavePoint set_save_points save_points_ sp_size sp_count rep_].
  change (rep_ (set_save_points b' (save_points_ b))) with (rep_ b').
  change (Count (set_save_points b' (save_points_ b))) with (Count b').
  unfold GetDataSize. rewrite Es, Es', Hlen, Ec, Ec', i32_u32 by lia. unfold kHeader in *.
  destruct (Z.ltb_spec (12 + (zlen (payload recs) + zlen (payload more))) (12 + zlen (payload recs))); [lia|].
  destruct (Z.ltb_spec (count_of recs + count_of more) (count_of recs)); [lia|]. cbn [orb].
  destruct (Z.eqb_spec (12 + zlen (payload recs)) (12 + (zlen (payload recs) + zlen (payload more)))) as [E|E].
  - assert (more = []) as Hm.
    { destruct more as [|r more]; [done|]. pose proof (payload_length (r :: more)) as Hpl. unfold zlen in E. cbn [length] in Hpl. lia. }
    rewrite (Hnil Hm). by destruct b.
  - destruct (Z.eqb_spec (12 + zlen (payload recs)) 0); [lia|].
    assert (Hh1 : holds (set_save_points b' (save_points_ b)) seq (recs ++ more)) by (destruct Hh'; by split).
    pose proof (restore_spec b _ seq recs more Hh Hh1) as Er. unfold LocalSavePoint, GetDataSize in Er.
    rewrite Es, Ec in Er. unfold kHeader in Er. rewrite Er. cbn. rewrite Em, Et, Ew. by destruct b.
Qed.

Lemma savepoint_rollback_witness :
  exists b', add_records (SetSavePoint (WriteBatch_new 20 0)) [RPut 0 [1] [2]; RPut 0 [1; 2; 3] [4; 5; 6; 7]] = Some b' /\
  RollbackToSavePoint b' = Some (OK, WriteBatch_new 20 0).
Proof.
  eexists. split; [vm_compute; reflexivity|].
  apply (savepoint_rollback (WriteBatch_new 20 0) 0 [] [RPut 0 [1] [2]; RPut 0 [1; 2; 3] [4; 5; 6; 7]]).
  - apply holds_new.
  - done.
  - done.
  - repeat constructor; vm_compute; (reflexivity || discriminate).
  - reflexivity.
  - vm_compute. reflexivity.
Defined.

(** Each operation that adds a record either appends exactly that record and
    returns ok, or returns [MemoryLimit] and leaves the batch as it was; the latter
    exactly when there is a size limit, the record is subject to it (a noop, commit
    or rollback marker is not) and the batch would outgrow it. *)
Theorem batch_size_limit b seq recs r s b' :
  holds b seq recs -> 0 <= content_flags_ b -> 0 <= timestamp_size_ b ->
  record_ok (stamped (timestamp_size_ b) r) -> count_of recs < 2 ^ 32 - 1 -> add_record b r = Some (s, b') ->
  let r' := stamped (timestamp_size_ b) r in
  let too_big := limited r = true /\ max_bytes_ b <> 0 /\ max_bytes_ b < zlen (rep_ b) + zlen (encode_record r') in
  (s = OK /\ holds b' seq (recs ++ [r']) /\ ~ too_big) \/ (s = MemoryLimit /\ b' = b /\ too_big).
Proof.
  intros Hh Hf Hts Hok Hc Hadd r' too_big.
  destruct (add_record_cases _ _ _ _ _ _ Hh Hf Hts Hok Hc Hadd) as [(-> & Eb & Hh')|(-> & -> & ? & ? & ?)]; [left|by right].
  split_and!; [done|done|]. intros (Hl & Hm & Hlt).
  pose proof (add_record_written _ _ _ _ Hok Hts Hadd) as E. rewrite Hl in E. unfold commit in E.
  destruct (written_frame b r') as (Em & _). fold r' in E. rewrite Em in E.
  destruct (Z.eqb_spec (max_bytes_ b) 0); [done|]. cbn [negb andb] in E. rewrite Z.gtb_ltb in E.
  destruct (Z.ltb_spec (max_bytes_ b) (zlen (rep_ (written b r')))) as [|Hge]; [done|].
  fold r' in Eb, Hh'. rewrite <- Eb in Hge. rewrite (rep_size _ _ _ Hh'), payload_app in Hge. rewrite (rep_size _ _ _ Hh) in Hlt.
  rewrite payload_one in Hge. unfold zlen in *. rewrite length_app in Hge. lia.
Qed.

Lemma batch_size_limit_witness :
  WriteBatch_Put (WriteBatch_new 16 0) 0 [1; 2; 3] [4; 5; 6] = (MemoryLimit, WriteBatch_new 16 0).
Proof.
  destruct (batch_size_limit (WriteBatch_new 16 0) 0 [] (RPut 0 [1; 2; 3] [4; 5; 6])
    (WriteBatch_Put (WriteBatch_new 16 0) 0 [1; 2; 3] [4; 5; 6]).1 (WriteBatch_Put (WriteBatch_new 16 0) 0 [1; 2; 3] [4; 5; 6]).2
    (holds_new 16 0) ltac:(done) ltac:(done) ltac:(repeat constructor; vm_compute; (reflexivity || discriminate))
    ltac:(reflexivity) ltac:(vm_compute; reflexivity)) as [(_ & _ & Hn)|(Hs & Hb & _)].
  - exfalso. apply Hn. vm_compute. repeat split; discriminate.
  - rewrite (surjective_pairing (WriteBatch_Put (WriteBatch_new 16 0) 0 [1; 2; 3] [4; 5; 6])). by rewrite Hs, Hb.
Defined.

(** What [Append] does when it copies the records [r2] of the source. *)
Lemma append_holds dst s1 r1 b seq r2 flags n : holds dst s1 r1 -> holds b seq r2 ->
  0 <= content_flags_ dst -> 0 <= flags -> Forall (fun r => flag_asserted flags r = true) r2 ->
  count_of r1 + count_of r2 < 2 ^ 32 -> n = count_of r2 ->
  let d1 := SetCount dst (Count dst + n) in
  holds (add_flag (set_rep d1 (rep_ d1 ++ payload r2)) flags) s1 (r1 ++ r2).
Proof.
  intros Hd Hb Hfd Hf Hfl Hc -> d1. pose proof (holds_Count _ _ _ Hd) as Ec.
  pose proof (count_of_nonneg r1). pose proof (count_of_nonneg r2).
  assert (Er : rep_ d1 = memcpy_from 8 s1 ++ memcpy_from 4 (count_of r1 + count_of r2) ++ payload r1).
  { unfold d1. rewrite (holds_SetCount dst s1 r1) by (done || lia). by rewrite Ec. }
  destruct Hd as [_ Hs _ Hrec Hfd'], Hb as [_ _ _ Hrec2 _].
  split; [|done|by rewrite count_of_app| |].
  - cbn [add_flag set_flags set_rep rep_]. rewrite Er, count_of_app, payload_app, <- !app_assoc. done.
  - by apply Forall_app.
  - cbn [add_flag set_flags set_rep content_flags_]. change (content_flags_ d1) with (content_flags_ dst).
    apply Forall_app. split; eapply Forall_impl; [exact Hfd'| |exact Hfl|]; intros r Hr.
    + by apply flag_asserted_lor.
    + rewrite Z.lor_comm. by apply flag_asserted_lor.
Qed.

Lemma drop_header b seq recs : holds b seq recs -> drop (Z.to_nat kHeader) (rep_ b) = payload recs.
Proof. intros [Hr _ _ _ _]. rewrite Hr. reflexivity. Qed.

(** Appending a batch appends its records, sums the counts and keeps the
    sequence number of the destination; for the WAL only, the records added to the
    source after its termination point are left out. *)
Theorem batch_append dst s1 r1 src s2 r2 rs src' :
  holds dst s1 r1 -> holds src s2 r2 -> 0 <= content_flags_ dst -> 0 <= content_flags_ src -> timestamp_size_ src = 0 ->
  Forall (fun r => record_ok (stamped 0 r)) rs -> count_of r2 + zlen rs < 2 ^ 32 ->
  add_records (MarkWalTerminationPoint src) rs = Some src' ->
  count_of r1 + count_of r2 < 2 ^ 31 ->
  holds (WriteBatch_Append dst src false) s1 (r1 ++ r2) /\ holds (WriteBatch_Append dst src' true) s1 (r1 ++ r2).
Proof.
  intros Hd Hs Hfd Hfs Hts Hok Hc Hadd Hsum. pose proof (rep_size _ _ _ Hs) as Es.
  pose proof (holds_Count _ _ _ Hs) as Ec. pose proof (count_of_nonneg r1). pose proof (count_of_nonneg r2).
  pose proof (holds_flags _ _ _ Hs) as Hfl. split.
  - unfold WriteBatch_Append. cbn [andb]. rewrite (drop_header src s2 r2 Hs), Es.
    replace (kHeader + zlen (payload r2) - kHeader) with (zlen (payload r2)) by lia.
    unfold zlen. rewrite Nat2Z.id, firstn_all. eapply append_holds; [done..|lia|done].
  - assert (Hs0 : holds (MarkWalTerminationPoint src) s2 r2) by (destruct Hs; by split).
    destruct (add_records_holds rs _ s2 r2 src' Hs0) as (_ & _ & _ & Ew & more & Hs' & _); [done|cbn; lia|by cbn; rewrite Hts|done|done|].
    unfold WriteBatch_Append. rewrite Ew. cbn [MarkWalTerminationPoint wal_term_point_ sp_size sp_count sp_content_flags].
    unfold GetDataSize. rewrite Es, Ec.
    assert (Ecl : is_cleared (mkSavePoint (kHeader + zlen (payload r2)) (i32 (count_of r2)) (content_flags_ src)) = false).
    { apply Z.eqb_neq. cbn. intros E. apply Z.lor_eq_0_iff in E as [E _]. apply Z.lor_eq_0_iff in E as [E _].
      unfold kHeader, zlen in E. lia. }
    rewrite Ecl. cbn [negb andb]. rewrite i32_small by lia. rewrite (drop_header _ _ _ Hs'), payload_app.
    replace (kHeader + zlen (payload r2) - kHeader) with (zlen (payload r2)) by lia.
    unfold zlen. rewrite Nat2Z.id, take_app_length. eapply append_holds; [done|exact Hs|done..|lia|done].
Qed.

Lemma batch_append_witness :
  holds (WriteBatch_Append (WriteBatch_Put (WriteBatch_new 0 0) 0 [1] [2]).2
    (WriteBatch_Delete (WriteBatch_new 0 0) 0 [3]).2 false) 0 [RPut 0 [1] [2]; RDelete 0 [3]].
Proof.
  apply (batch_append (WriteBatch_Put (WriteBatch_new 0 0) 0 [1] [2]).2 0 [RPut 0 [1] [2]]
    (WriteBatch_Delete (WriteBatch_new 0 0) 0 [3]).2 0 [RDelete 0 [3]] []
    (MarkWalTerminationPoint (WriteBatch_Delete (WriteBatch_new 0 0) 0 [3]).2)).
  - split; [reflexivity|lia|reflexivity|repeat constructor; vm_compute; (reflexivity || discriminate)|repeat constructor].
  - split; [reflexivity|lia|reflexivity|repeat constructor; vm_compute; (reflexivity || discriminate)|repeat constructor].
  - vm_compute. discriminate.
  - vm_compute. discriminate.
  - reflexivity.
  - constructor.
  - reflexivity.
  - reflexivity.
  - reflexivity.
Defined.

(** ** The content flags *)

Definition flags_of (recs : list record) : Z := fold_left (fun f r => Z.lor f (default 0 (flag_of r))) recs 0.

Lemma classifier_no_try_again : no_try_again BatchContentClassifier.
Proof. intros r st E. destruct r; cbn; rewrite ?E; done. Qed.

Definition no_prepare (r : record) : bool :=
  match r with RBeginPersistedPrepare | RBeginUnprepare => false | _ => true end.

Lemma classifier_run recs st : Forall (fun r => no_prepare r = true) recs -> it_s st = OK ->
  let st' := (run_records BatchContentClassifier recs st).1 in
  it_s st' = OK /\ it_h st' = fold_left (fun f r => Z.lor f (default 0 (flag_of r))) recs (it_h st).
Proof.
  intros Hp. revert st. induction Hp as [|r recs Hr _ IH]; intros st Hs; [done|]. cbn [run_records fold_left].
  rewrite Hs. cbn [ok h_Continue BatchContentClassifier].
  assert (E : it_s (handle_record BatchContentClassifier r st) = OK /\
    it_h (handle_record BatchContentClassifier r st) = Z.lor (it_h st) (default 0 (flag_of r))).
  { destruct r; cbn; try done; by rewrite ?Z.lor_0_r. }
  destruct E as [E1 <-]. by apply IH.
Qed.

Lemma add_records_flags rs b b' : 0 <= timestamp_size_ b -> max_bytes_ b = 0 ->
  Forall (fun r => record_ok (stamped (timestamp_size_ b) r)) rs -> add_records b rs = Some b' ->
  content_flags_ b' = fold_left (fun f r => Z.lor f (default 0 (flag_of r))) rs (content_flags_ b) /\
  Forall (fun r => no_prepare (stamped (timestamp_size_ b) r) = true) rs.
Proof.
  revert b. induction rs as [|r rs IH]; intros b Hts Hm Hok Hadd; cbn in Hadd; [by injection Hadd as <-|].
  destruct (add_record b r) as [[s b1]|] eqn:E; [|done]. cbn in Hadd. apply Forall_cons in Hok as [Hr Hok].
  pose proof (add_record_written _ _ _ _ Hr Hts E) as E1. unfold commit in E1.
  destruct (written_frame b (stamped (timestamp_size_ b) r)) as (Em & Et & _). rewrite Em, Hm in E1. cbn in E1.
  assert (Eb : b1 = written b (stamped (timestamp_size_ b) r)) by (destruct (limited r); congruence). subst b1.
  rewrite <- Et in Hok. destruct (IH _ ltac:(by rewrite Et) ltac:(by rewrite Em) Hok Hadd) as [-> Hnp]. rewrite Et in Hnp.
  assert (Ef : content_flags_ (written b (stamped (timestamp_size_ b) r)) = Z.lor (content_flags_ b) (default 0 (flag_of r))).
  { unfold written. destruct r; cbn; by rewrite ?Z.lor_0_r. }
  cbn [fold_left]. rewrite Ef. split; [done|]. constructor; [|done]. by destruct r.
Qed.

(** Classifying a deserialised batch computes exactly the flags that the
    operations which built it had collected, so [HasPut] and its siblings give the
    same answers before and after serialisation. *)
Theorem content_flags_recomputed rs b :
  Forall record_ok rs -> zlen rs < 2 ^ 32 -> add_records (WriteBatch_new 0 0) rs = Some b ->
  content_flags_ b = flags_of rs /\
  ComputeContentFlags (WriteBatch_from (rep_ b))
  = Some (content_flags_ b, set_flags (WriteBatch_from (rep_ b)) (content_flags_ b)) /\
  (forall flag, has_flag flag b = has_flag flag (WriteBatch_from (rep_ b))).
Proof.
  intros Hok Hl Hadd.
  assert (Est : forall r, stamped 0 r = r) by (intros []; cbn; by rewrite ?app_nil_r).
  assert (Hok' : Forall (fun r => record_ok (stamped 0 r)) rs).
  { eapply Forall_impl; [exact Hok|]. intros r Hr. by rewrite Est. }
  destruct (add_records_flags rs (WriteBatch_new 0 0) b ltac:(done) eq_refl Hok' Hadd) as [Ef Hnp].
  destruct (add_records_holds rs (WriteBatch_new 0 0) 0 [] b (holds_new 0 0)) as (_ & _ & _ & _ & more & Hh & _ & Em);
    [done|done|done|change (count_of []) with 0; lia|done|]. rewrite (Em eq_refl) in Hh. cbn in Hh.
  rewrite (list_fmap_ext _ (fun r => r)), list_fmap_id in Hh by (intros; apply Est).
  assert (Hh' : holds (WriteBatch_from (rep_ b)) 0 rs).
  { destruct Hh as [? ? ? ? _]. split; [done..|]. apply Forall_true. intros r. unfold flag_asserted.
    destruct (flag_of r) eqn:E; [|done]. destruct r; cbn in E; try done; injection E as <-; done. }
  assert (Ec : ComputeContentFlags (WriteBatch_from (rep_ b))
    = Some (content_flags_ b, set_flags (WriteBatch_from (rep_ b)) (content_flags_ b))).
  { unfold ComputeContentFlags. cbn [content_flags_ WriteBatch_from]. change (Z.land DEFERRED DEFERRED =? 0) with false. cbv iota.
    rewrite (iterate_holds _ _ _ _ _ classifier_no_try_again Hh'). cbn [mbind option_bind].
    destruct (classifier_run rs (mkIter OK true 0 0)) as [_ ->]; [|done|by rewrite Ef].
    eapply Forall_impl; [exact Hnp|]. intros r Hr. change (no_prepare (stamped 0 r) = true) in Hr. by rewrite Est in Hr. }
  split_and!; [done|done|]. intros flag. unfold has_flag. rewrite Ec. cbn.
  assert (Hd : Z.land (content_flags_ b) DEFERRED = 0).
  { rewrite Ef. cbn [WriteBatch_new content_flags_]. clear. assert (G : forall f, Z.land f DEFERRED = 0 ->
      Z.land (fold_left (fun f r => Z.lor f (default 0 (flag_of r))) rs f) DEFERRED = 0); [|by apply G].
    induction rs as [|r rs IH]; intros f Hf; [done|]. cbn. apply IH. rewrite Z.land_lor_distr_l, Hf. by destruct r. }
  unfold ComputeContentFlags. by rewrite Hd.
Qed.

Lemma content_flags_recomputed_witness :
  exists b, add_records (WriteBatch_new 0 0) [RPut 0 [1] [2]; RMerge 3 [4] [5]] = Some b /\
  HasMerge b = HasMerge (WriteBatch_from (rep_ b)).
Proof.
  eexists. split; [vm_compute; reflexivity|].
  apply (content_flags_recomputed [RPut 0 [1] [2]; RMerge 3 [4] [5]]).
  - repeat constructor; vm_compute; (reflexivity || discriminate).
  - reflexivity.
  - vm_compute. reflexivity.
Defined.

(** A prepared batch of the write-prepared policy is an exception: the classifier
    inherits [WriteAfterCommit() == true], so the iteration stops with
    [NotSupported] at the begin marker and no flag of the data is found. *)
Lemma prepared_batch_misclassified :
  exists b, MarkEndPrepare (WriteBatch_Put (InsertNoop (WriteBatch_new 0 0)) 0 [1] [2]).2 [120] false false = Some b /\
  HasPut b = Some true /\ HasPut (WriteBatch_from (rep_ b)) = Some false.
Proof. eexists. split; [vm_compute; reflexivity|]. split; vm_compute; reflexivity. Qed.
