(* ===== verification/BatchOps.v ===== *)
(** * Any sequence of operations on a write batch

    [WriteBatch] of db/write_batch.cc as a client sees it: what is promised of a
    batch is a sequence number, a list of records, a stack of earlier lists, the save
    points, and the list at the termination point of the WAL.  [spec_step] is that promise; the theorem shows that the bytes,
    counts and content flags of [WriteBatch] follow it under any interleaving of
    operations, with the size limit, and that no assertion ever fails. *)

From S2P Require Import Prelude Coding DbFormat KVStore WriteBatch.

(** ** The operations of a client *)

Inductive batch_op :=
  | OpAdd (r : record)
  | OpSetSequence (seq : Z)
  | OpSetSavePoint
  | OpRollbackToSavePoint
  | OpPopSavePoint
  | OpMarkWalTerminationPoint
  | OpAppend (src : WriteBatch) (src_records : list record)
  | OpClear.

Definition batch_step (b : WriteBatch) (op : batch_op) : option (Status * WriteBatch) :=
  match op with
  | OpAdd r => add_record b r
  | OpSetSequence seq => Some (OK, SetSequence b seq)
  | OpSetSavePoint => Some (OK, SetSavePoint b)
  | OpRollbackToSavePoint => RollbackToSavePoint b
  | OpPopSavePoint => Some (PopSavePoint b)
  | OpMarkWalTerminationPoint => Some (OK, MarkWalTerminationPoint b)
  | OpAppend src _ => Some (OK, WriteBatch_Append b src false)
  | OpClear => Some (OK, WriteBatch_Clear b)
  end.

Fixpoint batch_steps (b : WriteBatch) (ops : list batch_op) : option (list Status * WriteBatch) :=
  match ops with
  | [] => Some ([], b)
  | op :: ops' =>
      '(s, b1) ← batch_step b op;
      '(ss, b2) ← batch_steps b1 ops';
      Some (s :: ss, b2)
  end.

(** ** What is promised *)

Record spec_batch := mkSpec {
  sb_seq : Z;
  sb_records : list record;
  sb_saved : list (list record);  (* the top of the stack first *)
  sb_wal : option (list record)   (* at the last [MarkWalTerminationPoint] *)
}.

Section Spec.
Variables (max_bytes ts_sz : Z).

(** Whether a record would make the batch outgrow its limit. *)
Definition outgrows (recs : list record) (r : record) : bool :=
  limited r && negb (max_bytes =? 0) && (max_bytes <? kHeader + zlen (payload (recs ++ [stamped ts_sz r]))).

Definition spec_step (s : spec_batch) (op : batch_op) : Status * spec_batch :=
  match op with
  | OpAdd r =>
      if outgrows (sb_records s) r then (MemoryLimit, s)
      else (OK, mkSpec (sb_seq s) (sb_records s ++ [stamped ts_sz r]) (sb_saved s) (sb_wal s))
  | OpSetSequence seq => (OK, mkSpec seq (sb_records s) (sb_saved s) (sb_wal s))
  | OpSetSavePoint => (OK, mkSpec (sb_seq s) (sb_records s) (sb_records s :: sb_saved s) (sb_wal s))
  | OpRollbackToSavePoint =>
      match sb_saved s with
      | [] => (NotFound, s)
      | recs :: saved => (OK, mkSpec (sb_seq s) recs saved (sb_wal s))
      end
  | OpPopSavePoint =>
      match sb_saved s with
      | [] => (NotFound, s)
      | _ :: saved => (OK, mkSpec (sb_seq s) (sb_records s) saved (sb_wal s))
      end
  | OpMarkWalTerminationPoint => (OK, mkSpec (sb_seq s) (sb_records s) (sb_saved s) (Some (sb_records s)))
  | OpAppend _ recs => (OK, mkSpec (sb_seq s) (sb_records s ++ recs) (sb_saved s) (sb_wal s))
  | OpClear => (OK, mkSpec 0 [] [] None)
  end.

Fixpoint spec_steps (s : spec_batch) (ops : list batch_op) : list Status * spec_batch :=
  match ops with
  | [] => ([], s)
  | op :: ops' => let '(st, s1) := spec_step s op in let '(sts, s2) := spec_steps s1 ops' in (st :: sts, s2)
  end.

(** ** The arguments a client may give *)

Definition op_ok (op : batch_op) : Prop :=
  match op with
  | OpAdd r => record_ok (stamped ts_sz r) /\ forall b, is_Some (add_record b r)
  | OpSetSequence seq => 0 <= seq < 2 ^ 64
  | OpAppend src recs => content_flags_ src = flags_of recs /\ exists seq, holds src seq recs
  | _ => True
  end.

(** How many updates an operation can add. *)
Definition op_updates (op : batch_op) : Z :=
  match op with OpAdd _ => 1 | OpAppend _ recs => count_of recs | _ => 0 end.

Definition updates (ops : list batch_op) : Z := foldr (fun op n => op_updates op + n) 0 ops.
End Spec.

(** ** Well-formed batches *)

(** What a save point of [recs] is. *)
Definition point_of (recs : list record) : SavePoint := mkSavePoint (kHeader + zlen (payload recs)) (i32 (count_of recs)) (flags_of recs).

(** The save points of the stack stand for ever shorter prefixes of the records. *)
Fixpoint saved_ok (sps : list SavePoint) (recs : list record) (saved : list (list record)) : Prop :=
  match sps, saved with
  | [], [] => True
  | sp :: sps', p :: saved' => p `prefix_of` recs /\ sp = point_of p /\ saved_ok sps' p saved'
  | _, _ => False
  end.

Record batch_wf (max_bytes ts_sz : Z) (b : WriteBatch) (s : spec_batch) : Prop := {
  wf_holds : holds b (sb_seq s) (sb_records s);
  wf_flags : content_flags_ b = flags_of (sb_records s);
  wf_saved : saved_ok (save_points_ b) (sb_records s) (sb_saved s);
  wf_wal : wal_term_point_ b = from_option point_of SavePoint_cleared (sb_wal s);
  wf_max : max_bytes_ b = max_bytes;
  wf_ts : timestamp_size_ b = ts_sz
}.

(** Flags as the union over the records. *)
Lemma flags_of_fold recs f : fold_left (fun f r => Z.lor f (default 0 (flag_of r))) recs f = Z.lor f (flags_of recs).
Proof.
  unfold flags_of. revert f. induction recs as [|r recs IH]; intros f; cbn [fold_left]; [by rewrite Z.lor_0_r|].
  rewrite IH, (IH (Z.lor 0 _)), Z.lor_0_l. by rewrite Z.lor_assoc.
Qed.

Lemma flags_of_app r1 r2 : flags_of (r1 ++ r2) = Z.lor (flags_of r1) (flags_of r2).
Proof. unfold flags_of at 1. by rewrite fold_left_app, flags_of_fold. Qed.

Lemma flag_of_nonneg r : 0 <= default 0 (flag_of r).
Proof. destruct r; cbn; done. Qed.

Lemma flags_of_nonneg recs : 0 <= flags_of recs.
Proof.
  induction recs as [|r recs IH]; [done|]. change (r :: recs) with ([r] ++ recs). rewrite flags_of_app. apply Z.lor_nonneg. split; [apply flag_of_nonneg|done].
Qed.

(** They satisfy the assertions on the tags. *)
Lemma flags_of_asserted recs : Forall (fun r => flag_asserted (flags_of recs) r = true) recs.
Proof.
  apply Forall_forall. intros r (r1 & r2 & ->)%list_elem_of_split. change (r :: r2) with ([r] ++ r2). rewrite !flags_of_app, Z.lor_assoc.
  apply flag_asserted_lor; [apply Z.lor_nonneg; split; apply flags_of_nonneg|apply flags_of_nonneg|].
  destruct (flag_of r) as [flag|] eqn:E; [|unfold flag_asserted; by rewrite E]. unfold flags_of at 2. cbn. rewrite E. by apply flag_asserted_self.
Qed.

Lemma written_flags b r : content_flags_ (written b r) = Z.lor (content_flags_ b) (flags_of [r]).
Proof. unfold written. destruct r; cbn; by rewrite ?Z.lor_0_r. Qed.

Lemma saved_ok_app sps recs more saved : saved_ok sps recs saved -> saved_ok sps (recs ++ more) saved.
Proof.
  destruct sps as [|sp sps], saved as [|p saved]; cbn; try done. intros (Hp & H). split; [by apply prefix_app_r|done].
Qed.

Lemma holds_SetSequence b seq recs seq' : holds b seq recs -> 0 <= seq' < 2 ^ 64 -> holds (SetSequence b seq') seq' recs.
Proof. intros [Hr ? ? ? ?] Hs. split; try done. cbn. rewrite Hr. reflexivity. Qed.

Lemma add_record_outgrows max_bytes ts_sz b s r st b' :
  batch_wf max_bytes ts_sz b s -> 0 <= ts_sz -> record_ok (stamped ts_sz r) -> count_of (sb_records s) < 2 ^ 32 - 1 ->
  add_record b r = Some (st, b') ->
  if outgrows max_bytes ts_sz (sb_records s) r then st = MemoryLimit /\ b' = b
  else st = OK /\ b' = written b (stamped ts_sz r) /\ holds b' (sb_seq s) (sb_records s ++ [stamped ts_sz r]).
Proof.
  intros [Hh Hfl _ _ Em Et] Hts Hok Hc Hadd. subst max_bytes ts_sz. pose proof (flags_of_nonneg (sb_records s)) as Hf. rewrite <- Hfl in Hf.
  pose proof (holds_written _ _ _ _ Hh Hf Hok Hc) as Hw.
  pose proof (add_record_written _ _ _ _ Hok Hts Hadd) as E.
  destruct (written_frame b (stamped (timestamp_size_ b) r)) as (Em & _).
  destruct (add_record_cases _ _ _ _ _ _ Hh Hf Hts Hok Hc Hadd) as [(-> & -> & ?)|(-> & -> & Hl & Hm & Hlt)].
  - destruct (outgrows _ _ _ _) eqn:Eo; [|done]. exfalso. unfold outgrows in Eo.
    apply andb_true_iff in Eo as [[Hl Hm]%andb_true_iff Hlt]. rewrite Hl in E. unfold commit in E.
    rewrite Em, Hm, Z.gtb_ltb, (rep_size _ _ _ Hw), Hlt in E. done.
  - unfold outgrows. rewrite Hl. apply Z.eqb_neq in Hm. rewrite Hm. rewrite (rep_size _ _ _ Hh) in Hlt.
    rewrite payload_app, payload_one, zlen_app. destruct (Z.ltb_spec (max_bytes_ b)
      (kHeader + (zlen (payload (sb_records s)) + zlen (encode_record (stamped (timestamp_size_ b) r))))); [done|lia].
Qed.

(** The batch on which a save point was set. *)
Definition at_save_point (seq : Z) (p : list record) : WriteBatch :=
  mkWriteBatch (memcpy_from 8 seq ++ memcpy_from 4 (count_of p) ++ payload p) (flags_of p) 0 0 [] SavePoint_cleared.

Lemma LocalSavePoint_of b seq recs : holds b seq recs -> content_flags_ b = flags_of recs -> LocalSavePoint b = point_of recs.
Proof. intros Hh Hf. unfold LocalSavePoint, GetDataSize, point_of. by rewrite (rep_size _ _ _ Hh), (holds_Count _ _ _ Hh), Hf. Qed.

Lemma at_save_point_spec seq p : 0 <= seq < 2 ^ 64 -> count_of p < 2 ^ 32 -> Forall record_ok p ->
  holds (at_save_point seq p) seq p /\ LocalSavePoint (at_save_point seq p) = point_of p.
Proof.
  intros Hs Hc Hok. assert (Hh : holds (at_save_point seq p) seq p) by (split; [done..|apply flags_of_asserted]).
  split; [done|]. by eapply LocalSavePoint_of.
Qed.

Lemma rollback_ok max_bytes ts_sz b s p saved : batch_wf max_bytes ts_sz b s -> sb_saved s = p :: saved ->
  exists b', RollbackToSavePoint b = Some (OK, b') /\ batch_wf max_bytes ts_sz b' (mkSpec (sb_seq s) p saved (sb_wal s)).
Proof.
  intros [Hh Hf Hsv Hw Em Et] Esv. rewrite Esv in Hsv. unfold RollbackToSavePoint.
  destruct (save_points_ b) as [|sp sps]; [done|]. destruct Hsv as ((more & Er) & -> & Hsv).
  rewrite Er in Hh, Hf. set (b1 := set_save_points b sps).
  assert (Hh1 : holds b1 (sb_seq s) (p ++ more)) by (destruct Hh; by split).
  pose proof (count_of_nonneg p). pose proof (count_of_nonneg more). pose proof (zlen_nonneg (payload more)).
  pose proof (zlen_nonneg (payload p)). pose proof (holds_count _ _ _ Hh1) as Hcnt.
  rewrite (rep_size _ _ _ Hh1), (holds_Count _ _ _ Hh1), payload_app, zlen_app, count_of_app. cbn [point_of sp_size sp_count].
  rewrite count_of_app in Hcnt. rewrite i32_u32 by lia. unfold kHeader in *.
  destruct (Z.ltb_spec (12 + (zlen (payload p) + zlen (payload more))) (12 + zlen (payload p))); [lia|].
  destruct (Z.ltb_spec (count_of p + count_of more) (count_of p)); [lia|]. cbn [orb].
  destruct (Z.eqb_spec (12 + zlen (payload p)) (12 + (zlen (payload p) + zlen (payload more)))) as [E|E].
  - exists b1. split; [done|]. assert (more = []) as ->.
    { apply nil_length_inv. pose proof (payload_length more). unfold zlen in E. lia. }
    rewrite app_nil_r in Hh1, Hf. by split.
  - destruct (Z.eqb_spec (12 + zlen (payload p)) 0); [lia|].
    pose proof (holds_seq _ _ _ Hh1) as Hseq. pose proof (holds_records _ _ _ Hh1) as [Hrec _]%Forall_app.
    destruct (at_save_point_spec (sb_seq s) p) as [Hp Esp]; try done; [lia|].
    exists (restore b1 (point_of p)). split; [done|]. rewrite <- Esp at 1. rewrite (restore_spec _ _ _ _ _ Hp Hh1).
    split; cbn; try done. by destruct Hp; split.
Qed.

Lemma append_ok max_bytes ts_sz b s src seq recs : batch_wf max_bytes ts_sz b s ->
  content_flags_ src = flags_of recs -> holds src seq recs -> count_of (sb_records s) + count_of recs < 2 ^ 32 ->
  batch_wf max_bytes ts_sz (WriteBatch_Append b src false) (mkSpec (sb_seq s) (sb_records s ++ recs) (sb_saved s) (sb_wal s)).
Proof.
  intros [Hh Hf Hsv Hw Em Et] Hfs Hs Hc. pose proof (flags_of_nonneg (sb_records s)). pose proof (flags_of_nonneg recs). unfold WriteBatch_Append. cbn [andb].
  rewrite (drop_header _ _ _ Hs), (rep_size _ _ _ Hs).
  replace (kHeader + zlen (payload recs) - kHeader) with (zlen (payload recs)) by lia.
  unfold zlen at 1. rewrite Nat2Z.id, firstn_all. split; cbn -[flags_of]; try done.
  - eapply append_holds; [done..|by rewrite Hf|by rewrite Hfs|by eapply holds_flags|done|by eapply holds_Count].
  - by rewrite flags_of_app, Hf, Hfs.
  - by apply saved_ok_app.
Qed.

(** ** One operation *)

Lemma batch_step_ok max_bytes ts_sz b s op : 0 <= ts_sz -> batch_wf max_bytes ts_sz b s -> op_ok ts_sz op ->
  count_of (sb_records s) + op_updates op < 2 ^ 32 ->
  exists b', batch_step b op = Some ((spec_step max_bytes ts_sz s op).1, b') /\
    batch_wf max_bytes ts_sz b' (spec_step max_bytes ts_sz s op).2.
Proof.
  intros Hts Hwf Hok Hc. pose proof Hwf as [Hh Hf Hsv Hw Em Et].
  destruct op as [r|seq| | | | |src recs|]; cbn [batch_step spec_step op_ok op_updates] in *.
  - destruct Hok as [Hr Hadd]. destruct (Hadd b) as [[st b'] E]. rewrite E.
    pose proof (add_record_outgrows _ _ _ _ _ _ _ Hwf Hts Hr ltac:(lia) E) as Ho.
    destruct (outgrows _ _ _ _); [destruct Ho as [-> ->]; by exists b|]. destruct Ho as (-> & Eb & Hh').
    exists b'. split; [done|]. destruct (written_frame b (stamped ts_sz r)) as (E1 & E2 & E3 & E4 & _). rewrite <- Eb in E1, E2, E3, E4.
    split; cbn -[flags_of]; try congruence; [by rewrite Eb, written_flags, flags_of_app, Hf|]. rewrite E3. by apply saved_ok_app.
  - eexists. split; [done|]. split; try done. by eapply holds_SetSequence.
  - eexists. split; [done|]. split; cbn; try done; [by destruct Hh; split|].
    split_and!; try done. by eapply LocalSavePoint_of.
  - destruct (sb_saved s) as [|p saved] eqn:Es; [|by apply rollback_ok].
    exists b. split; [|done]. unfold RollbackToSavePoint. by destruct (save_points_ b).
  - unfold PopSavePoint. destruct (sb_saved s) as [|p saved] eqn:Es, (save_points_ b) as [|sp sps] eqn:Eb; cbn in Hsv; try done.
    + exists b. done.
    + eexists. split; [done|]. split; [by destruct Hh; split|done| |done..]. cbn.
      destruct Hsv as ([more ->] & _ & Hsv). by apply saved_ok_app.
  - eexists. split; [done|]. split; try done; [by destruct Hh; split|]. by eapply LocalSavePoint_of.
  - destruct Hok as (Hfs & seq & Hs). eexists. split; [done|]. by eapply append_ok.
  - eexists. split; [done|]. split; done.
Qed.

Lemma spec_step_count max_bytes ts_sz s op : Forall (fun p => count_of p <= count_of (sb_records s)) (sb_saved s) ->
  count_of (sb_records (spec_step max_bytes ts_sz s op).2) <= count_of (sb_records s) + op_updates op.
Proof.
  intros Hs. pose proof (count_of_nonneg (sb_records s)). destruct op; cbn; try lia.
  - destruct (outgrows _ _ _ _); cbn; [lia|]. rewrite count_of_app, count_of_one. destruct (counted _); lia.
  - destruct (sb_saved s) as [|p saved]; cbn; [lia|]. apply Forall_cons in Hs as [? _]. lia.
  - destruct (sb_saved s); cbn; lia.
  - rewrite count_of_app. lia.
  - change (count_of []) with 0. lia.
Qed.

Lemma saved_ok_count sps recs saved : saved_ok sps recs saved -> Forall (fun p => count_of p <= count_of recs) saved.
Proof.
  revert sps recs. induction saved as [|p saved IH]; intros [|sp sps] recs; cbn; try done.
  intros ([more ->] & _ & H). rewrite count_of_app. pose proof (count_of_nonneg more).
  constructor; [lia|]. eapply Forall_impl; [by eapply IH|]. cbn. lia.
Qed.

Lemma updates_nonneg ops : 0 <= updates ops.
Proof.
  induction ops as [|op ops IH]; [done|]. cbn. fold (updates ops).
  destruct op as [| | | | | |src recs|]; cbn; try lia. pose proof (count_of_nonneg recs). lia.
Qed.

Lemma batch_steps_ok max_bytes ts_sz ops b s : 0 <= ts_sz -> batch_wf max_bytes ts_sz b s -> Forall (op_ok ts_sz) ops ->
  count_of (sb_records s) + updates ops < 2 ^ 32 ->
  exists b', batch_steps b ops = Some ((spec_steps max_bytes ts_sz s ops).1, b') /\
    batch_wf max_bytes ts_sz b' (spec_steps max_bytes ts_sz s ops).2.
Proof.
  intros Hts. revert b s. induction ops as [|op ops IH]; intros b s Hwf Hok Hc; [by exists b|].
  apply Forall_cons in Hok as [Hop Hok]. cbn [updates foldr] in Hc. fold (updates ops) in Hc.
  pose proof (updates_nonneg ops).
  destruct (batch_step_ok max_bytes ts_sz b s op) as (b1 & E1 & Hwf1); [done..|lia|].
  pose proof (spec_step_count max_bytes ts_sz s op (saved_ok_count _ _ _ (wf_saved _ _ _ _ Hwf))) as Hc1.
  cbn [batch_steps spec_steps]. rewrite E1. destruct (spec_step max_bytes ts_sz s op) as [st s1]. cbn in Hwf1, Hc1 |- *.
  destruct (IH b1 s1 Hwf1 Hok) as (b2 & E2 & Hwf2); [lia|]. rewrite E2.
  destruct (spec_steps max_bytes ts_sz s1 ops) as [sts s2]. by exists b2.
Qed.

Lemma batch_wf_new max_bytes ts_sz : batch_wf max_bytes ts_sz (WriteBatch_new max_bytes ts_sz) (mkSpec 0 [] [] None).
Proof. by split. Qed.

(** ** Theorem *)

(** C18. Well-formedness of a write batch under any sequence of additions, save
    points, rollbacks, pops, appends, clears and changes of the sequence number:
    none of the code's assertions fails, every status is the promised one
    ([MemoryLimit] exactly when a record subject to the size limit would outgrow it,
    [NotFound] exactly when the stack of save points is empty), and the bytes, the
    count, the content flags and the save points of the batch are those of the
    promised records and nothing else (no flag of a record that is not there). *)
Theorem batch_operations_well_formed max_bytes ts_sz ops :
  0 <= ts_sz -> Forall (op_ok ts_sz) ops -> updates ops < 2 ^ 32 ->
  exists b, batch_steps (WriteBatch_new max_bytes ts_sz) ops
            = Some ((spec_steps max_bytes ts_sz (mkSpec 0 [] [] None) ops).1, b) /\
    batch_wf max_bytes ts_sz b (spec_steps max_bytes ts_sz (mkSpec 0 [] [] None) ops).2.
Proof. intros Hts Hok Hc. apply batch_steps_ok; [done|apply batch_wf_new|done|done]. Qed.

(** The second put of nine bytes does not fit in 24; the first rollback undoes the
    delete, the second the first put, and the third finds no save point. *)
Lemma batch_operations_well_formed_witness :
  exists b, batch_steps (WriteBatch_new 24 0)
    [OpSetSavePoint; OpAdd (RPut 0 [1] [2]); OpSetSavePoint; OpAdd (RDelete 7 [3]); OpAdd (RPut 0 [4; 5; 6] [7; 8; 9]);
     OpRollbackToSavePoint; OpSetSequence 77; OpRollbackToSavePoint; OpRollbackToSavePoint]
    = Some ([OK; OK; OK; OK; MemoryLimit; OK; OK; OK; NotFound], b) /\ batch_wf 24 0 b (mkSpec 77 [] [] None).
Proof.
  assert (Hok : Forall (op_ok 0)
    [OpSetSavePoint; OpAdd (RPut 0 [1] [2]); OpSetSavePoint; OpAdd (RDelete 7 [3]); OpAdd (RPut 0 [4; 5; 6] [7; 8; 9]);
     OpRollbackToSavePoint; OpSetSequence 77; OpRollbackToSavePoint; OpRollbackToSavePoint]).
  { repeat apply Forall_cons_2; try apply Forall_nil_2; try exact I; try (unfold op_ok; lia);
      (split; [vm_compute; repeat split; discriminate|intros b; eexists; reflexivity]). }
  destruct (batch_operations_well_formed 24 0 _ ltac:(lia) Hok ltac:(reflexivity)) as (b & E & Hwf).
  exists b. split; [rewrite E; vm_compute; reflexivity|].
  match type of Hwf with batch_wf _ _ _ ?s => replace (mkSpec 77 [] [] None) with s by (vm_compute; reflexivity) end. exact Hwf.
Defined.
