(* ===== verification/RangeDel.v ===== *)
(** * Range tombstones ([db/range_tombstone_fragmenter.cc])

    The tombstones of [DeleteRange] overlap. They are cut at all their ends into fragments
    that do not, each with the sequence numbers of the tombstones that it is a part of, and
    a lookup asks for the newest tombstone that covers a key in a snapshot. [None] is a
    failed assertion. *)

From S2P Require Import Prelude Coding Comparator Iterator DbFormat.

(** [std::lower_bound]: where the elements begin that are not [less]. *)
Fixpoint partition_point {A} (less : A -> bool) (l : list A) : nat :=
  match l with
  | [] => 0
  | x :: l' => if less x then S (partition_point less l') else 0
  end.

(** [std::greater], as what may come first. *)
Definition seq_ge (a b : Z) : Prop := b <= a.

#[global] Instance seq_ge_dec a b : Decision (seq_ge a b).
Proof. unfold seq_ge. apply _. Defined.

Record RangeTombstoneStack := mkStack { start_key : bytes; end_key : bytes; seq_start_idx : nat; seq_end_idx : nat }.

Record FragmentedRangeTombstoneList := mkFragmented {
  tombstones_ : list RangeTombstoneStack;
  tombstone_seqs_ : list Z;
  seq_set_ : gset Z
}.

Definition no_fragments : FragmentedRangeTombstoneList := mkFragmented [] [] ∅.

Definition ContainsRange (l : FragmentedRangeTombstoneList) (lower upper : Z) : bool :=
  existsb (fun s => (lower <=? s) && (s <=? upper)) (elements (seq_set_ l)).

Section Fragmenter.
Context (user_Compare : bytes -> bytes -> Z).

(** The order of [VectorIterator]. *)
Definition key_le (a b : entry) : Prop := InternalKey_Compare user_Compare a.1 b.1 <= 0.

#[global] Instance key_le_dec a b : Decision (key_le a b).
Proof. unfold key_le. apply _. Defined.

(** ** Fragmentation *)

(** [emplace] of a [std::set] in the order of internal keys. *)
Fixpoint set_emplace (x : ParsedInternalKey) (s : list ParsedInternalKey) : list ParsedInternalKey :=
  match s with
  | [] => [x]
  | y :: s' =>
      if Parsed_Compare user_Compare x y <? 0 then x :: s
      else if Parsed_Compare user_Compare y x <? 0 then y :: set_emplace x s'
      else s
  end.

(** In a compaction: the sequence numbers that a snapshot preserves. *)
Fixpoint preserved_seqs (snapshots : list Z) (next_snapshot : Z) (seqs : list Z) : list Z :=
  match seqs with
  | [] => []
  | seq :: seqs' =>
      if seq <=? next_snapshot then
        match last (take (partition_point (fun s => s <? seq) snapshots) snapshots) with
        | None => [seq]
        | Some prev => seq :: preserved_seqs snapshots prev seqs'
        end
      else preserved_seqs snapshots next_snapshot seqs'
  end.

Context (for_compaction : bool) (snapshots : list Z).

(** A fragment [cur_start_key, cur_end_key) of the tombstones from [it] on. *)
Definition flush_fragment (it : list ParsedInternalKey) (cur_start_key cur_end_key : bytes) (l : FragmentedRangeTombstoneList) : option FragmentedRangeTombstoneList :=
  if match last (tombstones_ l) with Some back => user_Compare (end_key back) cur_start_key <=? 0 | None => true end then
    let seqnums_to_flush := merge_sort seq_ge (pk_sequence <$> it) in
    let start_idx := length (tombstone_seqs_ l) in
    let flushed := if for_compaction then preserved_seqs snapshots kMaxSequenceNumber seqnums_to_flush else seqnums_to_flush in
    let end_idx := (start_idx + length flushed)%nat in
    if (start_idx <? end_idx)%nat then
      Some (mkFragmented (tombstones_ l ++ [mkStack cur_start_key cur_end_key start_idx end_idx]) (tombstone_seqs_ l ++ flushed) (seq_set_ l ∪ list_to_set flushed))
    else None
  else None.

(** The loop of [flush_current_tombstones] from [it] on: what is left of [cur_end_keys]
    where it reaches [next_start_key], and the fragments. *)
Fixpoint flush_loop (it : list ParsedInternalKey) (cur_start_key next_start_key : bytes) (l : FragmentedRangeTombstoneList)
    : option (option (list ParsedInternalKey) * FragmentedRangeTombstoneList) :=
  match it with
  | [] => Some (None, l)
  | cur_end :: it' =>
      let cur_end_key := pk_user_key cur_end in
      if user_Compare cur_start_key cur_end_key =? 0 then flush_loop it' cur_start_key next_start_key l
      else if user_Compare next_start_key cur_end_key <=? 0 then
        l ← flush_fragment it cur_start_key next_start_key l;
        Some (Some it, l)
      else
        l ← flush_fragment it cur_start_key cur_end_key l;
        flush_loop it' cur_end_key next_start_key l
  end.

(** [cur_end_keys] and the fragments; [cur_start_key] is then [next_start_key]. *)
Definition flush_current_tombstones (cur_end_keys : list ParsedInternalKey) (cur_start_key next_start_key : bytes) (l : FragmentedRangeTombstoneList)
    : option (list ParsedInternalKey * FragmentedRangeTombstoneList) :=
  '(reached, l) ← flush_loop cur_end_keys cur_start_key next_start_key l;
  Some (default [] reached, l).

(** The loop over the tombstones, each a key and the end of its range. *)
Fixpoint fragment_loop (ts : list entry) (cur_start_key : bytes) (cur_end_keys : list ParsedInternalKey) (l : FragmentedRangeTombstoneList)
    : option (bytes * list ParsedInternalKey * FragmentedRangeTombstoneList) :=
  match ts with
  | [] => Some (cur_start_key, cur_end_keys, l)
  | (ikey, tombstone_end_key) :: ts' =>
      let tombstone_start_key := ExtractUserKey ikey in
      let tombstone_seq := GetInternalKeySeqno ikey in
      '(cur_end_keys, l) ←
        (match cur_end_keys with
         | _ :: _ => if negb (user_Compare cur_start_key tombstone_start_key =? 0) then flush_current_tombstones cur_end_keys cur_start_key tombstone_start_key l else Some (cur_end_keys, l)
         | [] => Some ([], l)
         end);
      fragment_loop ts' tombstone_start_key (set_emplace (mkParsed tombstone_end_key tombstone_seq kTypeRangeDeletion) cur_end_keys) l
  end.

Definition FragmentTombstones (ts : list entry) : option FragmentedRangeTombstoneList :=
  '(cur_start_key, cur_end_keys, l) ← fragment_loop ts [] [] no_fragments;
  match last cur_end_keys with
  | Some last_end_key => '(_, l) ← flush_current_tombstones cur_end_keys cur_start_key (pk_user_key last_end_key) l; Some l
  | None => Some l
  end.

(** Whether no key comes before the one before it. *)
Fixpoint sorted_tombstones (last_start_key : option bytes) (ts : list entry) : bool :=
  match ts with
  | [] => true
  | (key, _) :: ts' =>
      match last_start_key with
      | Some k => if InternalKey_Compare user_Compare k key >? 0 then false else sorted_tombstones (Some key) ts'
      | None => sorted_tombstones (Some key) ts'
      end
  end.

(** The constructor of the list. [std::sort] leaves open how equal keys are ordered. *)
Definition FragmentedRangeTombstoneList_new (ts : list entry) : option FragmentedRangeTombstoneList :=
  if sorted_tombstones None ts then FragmentTombstones ts
  else FragmentTombstones (merge_sort key_le ts).

(** ** Lookup *)

(** [pos_] and [seq_pos_]. *)
Definition SeekToCoveringTombstone (l : FragmentedRangeTombstoneList) (upper_bound : Z) (target : bytes) : nat * nat :=
  let pos := partition_point (fun t => negb (user_Compare target (end_key t) <? 0)) (tombstones_ l) in
  match tombstones_ l !! pos with
  | None => (pos, length (tombstone_seqs_ l))
  | Some t => (pos, (seq_start_idx t + partition_point (fun s => s >? upper_bound)
                       (take (seq_end_idx t - seq_start_idx t) (drop (seq_start_idx t) (tombstone_seqs_ l))))%nat)
  end.

Definition MaxCoveringTombstoneSeqnum (l : FragmentedRangeTombstoneList) (upper_bound : Z) (target_user_key : bytes) : option Z :=
  let '(pos, seq_pos) := SeekToCoveringTombstone l upper_bound target_user_key in
  match tombstones_ l !! pos with
  | None => Some 0
  | Some t =>
      if negb (seq_pos =? seq_end_idx t)%nat && (user_Compare (start_key t) target_user_key <=? 0) then tombstone_seqs_ l !! seq_pos
      else Some 0
  end.
End Fragmenter.

(** ** Lists in order *)

Lemma partition_point_spec {A} (less : A -> bool) l :
  Forall (fun x => less x = true) (take (partition_point less l) l) /\
  match l !! partition_point less l with Some x => less x = false | None => Forall (fun x => less x = true) l end.
Proof.
  induction l as [|x l [IH1 IH2]]; [split; constructor|]. cbn [partition_point]. destruct (less x) eqn:E; [|split; [constructor|exact E]].
  cbn [take]. change ((x :: l) !! S (partition_point less l)) with (l !! partition_point less l). split; [by constructor|].
  destruct (l !! partition_point less l); [done|by constructor].
Qed.

(** The largest of some numbers, or 0. *)
Definition largest (l : list Z) : Z := foldr Z.max 0 l.

Lemma largest_ge l x : x ∈ l -> x <= largest l.
Proof. induction l as [|y l IH]; intros Hx; [by apply not_elem_of_nil in Hx|]. apply elem_of_cons in Hx as [->|Hx]; cbn; [|specialize (IH Hx)]; unfold largest in *; lia. Qed.

Lemma largest_intro l z : Forall (fun x => x <= z) l -> z ∈ l \/ (z = 0 /\ l = []) -> Forall (fun x => 0 <= x) l -> largest l = z.
Proof.
  intros Hall Hz H0. apply Z.le_antisymm.
  - assert (0 <= z) by (destruct Hz as [Hz|[-> _]]; [rewrite Forall_forall in H0; by apply H0|done]). clear Hz H0. induction Hall; cbn; [done|]. unfold largest in *. lia.
  - destruct Hz as [Hz|[-> ->]]; [by apply largest_ge|done].
Qed.

Lemma largest_permutation l l' : l ≡ₚ l' -> largest l = largest l'.
Proof. induction 1; cbn; unfold largest in *; lia. Qed.

(** In a list from the largest down, the first element not above a bound is the largest such. *)
Lemma first_below (u : Z) l : StronglySorted seq_ge l ->
  match l !! partition_point (fun s => s >? u) l with
  | Some z => z <= u /\ z ∈ l /\ forall x, x ∈ l -> x <= u -> x <= z
  | None => forall x, x ∈ l -> u < x
  end.
Proof.
  induction 1 as [|y l Hs IH Hy]; [intros x Hx; by apply not_elem_of_nil in Hx|]. cbn [partition_point]. rewrite Z.gtb_ltb. destruct (Z.ltb_spec u y).
  - change ((y :: l) !! S (partition_point (fun s => s >? u) l)) with (l !! partition_point (fun s => s >? u) l). destruct (l !! partition_point _ l) as [z|] eqn:E.
    + destruct IH as (Hz & Hin & Hmax). split_and!; [done|by right|]. intros x [->|Hx]%elem_of_cons Hu; [lia|by apply Hmax].
    + intros x [->|Hx]%elem_of_cons; [done|by apply IH].
  - cbn. split_and!; [done|left|]. rewrite Forall_forall in Hy. intros x [->|Hx]%elem_of_cons _; [lia|by apply Hy].
Qed.

(** ** The fragments *)

Record tombstone := mkTombstone { t_start : bytes; t_seq : Z; t_end : bytes }.

Definition tombstone_entry (t : tombstone) : entry := (encode (mkParsed (t_start t) (t_seq t) kTypeRangeDeletion), t_end t).

Section Correct.
Context (user_Compare : bytes -> bytes -> Z) `{!TotalCompare user_Compare}.
Abbreviation lt a b := (user_Compare a b < 0).
Abbreviation le a b := (user_Compare a b <= 0).

Definition covers (t : tombstone) (k : bytes) : Prop := le (t_start t) k /\ lt k (t_end t).

#[global] Instance covers_dec t k : Decision (covers t k).
Proof. unfold covers. apply _. Defined.

(** Its range does not end before it starts, and its number is one. *)
Definition tombstone_ok (t : tombstone) : Prop := 0 <= t_seq t <= kMaxSequenceNumber /\ le (t_start t) (t_end t).

Lemma not_lt a b : ~ lt a b <-> le b a.
Proof. pose proof (cmp_flip_le user_Compare b a). lia. Qed.

Lemma le_refl a : le a a.
Proof. rewrite (cmp_refl user_Compare). lia. Qed.

Definition stack_seqs (l : FragmentedRangeTombstoneList) (g : RangeTombstoneStack) : list Z :=
  take (seq_end_idx g - seq_start_idx g) (drop (seq_start_idx g) (tombstone_seqs_ l)).

Definition in_stack (g : RangeTombstoneStack) (k : bytes) : Prop := le (start_key g) k /\ lt k (end_key g).

(** Up to [cs] the fragments are the tombstones [P]: apart and in order, each with the
    numbers of those that cover its keys. *)
Record frag_inv (P : list tombstone) (cs : bytes) (l : FragmentedRangeTombstoneList) : Prop := {
  fr_range : forall g, g ∈ tombstones_ l -> lt (start_key g) (end_key g) /\ le (end_key g) cs;
  fr_index : forall g, g ∈ tombstones_ l -> (seq_start_idx g < seq_end_idx g <= length (tombstone_seqs_ l))%nat;
  fr_desc : forall g, g ∈ tombstones_ l -> StronglySorted seq_ge (stack_seqs l g);
  fr_sorted : StronglySorted (fun a b => le (end_key a) (start_key b)) (tombstones_ l);
  fr_seqs : forall g k s, g ∈ tombstones_ l -> in_stack g k -> s ∈ stack_seqs l g <-> exists t, t ∈ P /\ covers t k /\ t_seq t = s;
  fr_all : forall k t, lt k cs -> t ∈ P -> covers t k -> exists g, g ∈ tombstones_ l /\ in_stack g k
}.

(** The ends that are still to come. *)
Record ends_inv (P : list tombstone) (cs : bytes) (ce : list ParsedInternalKey) : Prop := {
  en_sorted : StronglySorted (fun a b => le (pk_user_key a) (pk_user_key b)) ce;
  en_from : forall e, e ∈ ce -> le cs (pk_user_key e) /\ exists t, t ∈ P /\ t_end t = pk_user_key e /\ t_seq t = pk_sequence e;
  en_all : forall t, t ∈ P -> lt cs (t_end t) -> exists e, e ∈ ce /\ pk_user_key e = t_end t /\ pk_sequence e = t_seq t;
  en_starts : forall t, t ∈ P -> le (t_start t) cs
}.

Lemma frag_inv_mono P cs cs' l : frag_inv P cs l -> le cs cs' -> (forall t, t ∈ P -> le (t_end t) cs) -> frag_inv P cs' l.
Proof.
  intros [Hr Hi Hd Hs Hq Ha] Hle Hend. split; [|done..|].
  - intros g Hg. destruct (Hr g Hg). split; [done|]. by eapply (cmp_le_trans user_Compare).
  - intros k t _ Ht Hc. eapply Ha; [|done|done]. eapply (cmp_lt_le_trans user_Compare); [apply Hc|by apply Hend].
Qed.

#[local] Instance seq_ge_trans : Transitive seq_ge.
Proof. intros a b c ? ?. unfold seq_ge in *. lia. Qed.

#[local] Instance seq_ge_total : Total seq_ge.
Proof. intros a b. unfold seq_ge. lia. Qed.

Lemma stack_seqs_app l ts seqs set_ g : (seq_end_idx g <= length (tombstone_seqs_ l))%nat ->
  stack_seqs (mkFragmented ts (tombstone_seqs_ l ++ seqs) set_) g = stack_seqs l g.
Proof.
  intros Hi. unfold stack_seqs. cbn [tombstone_seqs_]. destruct (decide (seq_start_idx g <= length (tombstone_seqs_ l))%nat).
  - rewrite drop_app_le by done. apply take_app_le. rewrite length_drop. lia.
  - by replace (seq_end_idx g - seq_start_idx g)%nat with 0%nat by lia.
Qed.

(** A fragment of the tombstones whose ends are left, up to the first of these at most. *)
Lemma flush_fragment_ok P snapshots cs ce' e it l : frag_inv P cs l -> ends_inv P cs (e :: it) -> lt cs ce' -> le ce' (pk_user_key e) ->
  exists l', flush_fragment user_Compare false snapshots (e :: it) cs ce' l = Some l' /\ frag_inv P ce' l'.
Proof.
  intros [Hr Hi Hd Hs Hq Ha] [Es Ef Ea Est] Hlt Hle. unfold flush_fragment.
  assert (Hb : match last (tombstones_ l) with Some back => user_Compare (end_key back) cs <=? 0 | None => true end = true).
  { destruct (last (tombstones_ l)) as [g|] eqn:El; [|done]. apply last_Some_elem_of in El. apply Z.leb_le. by apply Hr. }
  rewrite Hb. set (seqs := merge_sort _ _). assert (Hp : seqs ≡ₚ pk_sequence <$> e :: it) by apply merge_sort_Permutation.
  pose proof (Permutation_length Hp) as Hlen. rewrite length_fmap in Hlen. cbn [length] in Hlen.
  destruct (Nat.ltb_spec (length (tombstone_seqs_ l)) (length (tombstone_seqs_ l) + length seqs)); [|lia]. eexists. split; [done|].
  set (g0 := mkStack cs ce' _ _). set (l' := mkFragmented _ _ _).
  assert (Hold : forall g, g ∈ tombstones_ l -> stack_seqs l' g = stack_seqs l g) by (intros g Hg; apply stack_seqs_app; specialize (Hi g Hg); lia).
  assert (Hnew : stack_seqs l' g0 = seqs).
  { unfold stack_seqs. cbn. rewrite drop_app_length. apply take_ge. lia. }
  assert (Hin : forall g, g ∈ tombstones_ l' -> g ∈ tombstones_ l \/ g = g0) by (intros g; cbn; rewrite elem_of_app, list_elem_of_singleton; tauto).
  assert (Hall : forall e', e' ∈ e :: it -> le ce' (pk_user_key e')).
  { intros e' [->|He]%elem_of_cons; [done|]. apply StronglySorted_inv in Es as [_ Es]. rewrite Forall_forall in Es. eapply (cmp_le_trans user_Compare); [exact Hle|by apply Es]. }
  split.
  - intros g [Hg| ->]%Hin; [|by split; [|apply le_refl]]. destruct (Hr g Hg). split; [done|]. eapply (cmp_le_trans user_Compare); [done|lia].
  - intros g [Hg| ->]%Hin; cbn [l' tombstone_seqs_]; rewrite length_app; [specialize (Hi g Hg)|cbn [g0 seq_start_idx seq_end_idx]]; lia.
  - intros g [Hg| ->]%Hin; [rewrite Hold by done; by apply Hd|]. rewrite Hnew. apply StronglySorted_merge_sort; apply _.
  - cbn [l' tombstones_]. apply StronglySorted_app_2; [|done|repeat constructor]. intros a b Hg Hb2. apply list_elem_of_singleton in Hb2 as ->. by apply Hr.
  - intros g k s [Hg| ->]%Hin Hk; [rewrite Hold by done; by apply Hq|]. rewrite Hnew, Hp. destruct Hk as [Hk1 Hk2]. cbn [g0 start_key end_key] in Hk1, Hk2. split.
    + intros (e' & -> & He')%list_elem_of_fmap. destruct (Ef e' He') as (_ & t & Ht & Eend & Eseq). exists t. split_and!; [done| |done]. split; [eapply (cmp_le_trans user_Compare); [by apply Est|done]|].
      rewrite Eend. eapply (cmp_lt_le_trans user_Compare); [exact Hk2|by apply Hall].
    + intros (t & Ht & [_ Hc] & <-). destruct (Ea t Ht) as (e' & He' & _ & <-); [by eapply (cmp_le_lt_trans user_Compare)|]. apply list_elem_of_fmap. by exists e'.
  - intros k t Hk Ht Hc. destruct (decide (lt k cs)) as [Hkc|Hkc].
    + destruct (Ha k t Hkc Ht Hc) as (g & Hg & Hgk). exists g. split; [cbn; apply elem_of_app; by left|done].
    + exists g0. split; [cbn; apply elem_of_app; right; by apply list_elem_of_singleton|]. split; [by apply not_lt|done].
Qed.

(** The end that comes first is passed. *)
Lemma ends_inv_tail P cs e it : ends_inv P cs (e :: it) -> ends_inv P (pk_user_key e) it.
Proof.
  intros [Es Ef Ea Est]. apply StronglySorted_inv in Es as [Es He]. rewrite Forall_forall in He. destruct (Ef e) as [Hle _]; [left|]. split; [done| | |].
  - intros e' He'. split; [by apply He|]. apply Ef. by right.
  - intros t Ht Hlt. destruct (Ea t Ht) as (e' & He' & Ek & Eq); [by eapply (cmp_le_lt_trans user_Compare)|]. exists e'. split; [|done].
    apply elem_of_cons in He' as [->|He']; [|done]. rewrite <- Ek, (cmp_refl user_Compare) in Hlt. lia.
  - intros t Ht. eapply (cmp_le_trans user_Compare); [by apply Est|done].
Qed.

(** The ends are after [cs']. *)
Lemma ends_inv_reached P cs cs' it : ends_inv P cs it -> le cs cs' -> (forall e, e ∈ it -> le cs' (pk_user_key e)) -> ends_inv P cs' it.
Proof.
  intros [Es Ef Ea Est] Hle Hall. split; [done| | |].
  - intros e He. split; [by apply Hall|]. by apply Ef.
  - intros t Ht Hlt. apply Ea; [done|]. by eapply (cmp_le_lt_trans user_Compare).
  - intros t Ht. eapply (cmp_le_trans user_Compare); [by apply Est|done].
Qed.

Lemma flush_loop_ok P snapshots next it : forall cs l, frag_inv P cs l -> ends_inv P cs it -> le cs next -> (forall e, e ∈ it -> lt cs (pk_user_key e) -> lt cs next) ->
  exists reached l', flush_loop user_Compare false snapshots it cs next l = Some (reached, l') /\ frag_inv P next l' /\ ends_inv P next (default [] reached).
Proof.
  induction it as [|e it IH]; intros cs l Hf He Hle Hstrict; cbn [flush_loop].
  - exists None, l. assert (Hend : forall t, t ∈ P -> le (t_end t) cs).
    { intros t Ht. apply not_lt. intros Hlt. destruct (en_all _ _ _ He t Ht Hlt) as (e & []%not_elem_of_nil & _). }
    split_and!; [done|by eapply frag_inv_mono|]. cbn. eapply ends_inv_reached; [exact He|done|]. intros e []%not_elem_of_nil.
  - destruct (en_from _ _ _ He e) as [Hce _]; [left|]. destruct (Z.eqb_spec (user_Compare cs (pk_user_key e)) 0) as [E|E].
    + apply IH; [done| |done|intros e' Hin; apply Hstrict; by right]. apply cmp_eq in E. pose proof (ends_inv_tail P cs e it He) as Ht. by rewrite <- E in Ht.
    + assert (Hlt : lt cs (pk_user_key e)) by lia. specialize (Hstrict e ltac:(left) Hlt). destruct (Z.leb_spec (user_Compare next (pk_user_key e)) 0) as [Hn|Hn].
      * destruct (flush_fragment_ok P snapshots cs next e it l Hf He Hstrict Hn) as (l' & -> & Hf'). exists (Some (e :: it)), l'. split_and!; [done|done|]. cbn [default].
        eapply ends_inv_reached; [exact He|lia|]. intros e' [->|Hin]%elem_of_cons; [done|]. pose proof (en_sorted _ _ _ He) as Hs. apply StronglySorted_inv in Hs as [_ Hs]. rewrite Forall_forall in Hs.
        eapply (cmp_le_trans user_Compare); [exact Hn|by apply Hs].
      * destruct (flush_fragment_ok P snapshots cs (pk_user_key e) e it l Hf He Hlt) as (l' & -> & Hf'); [apply le_refl|]. cbn [mbind option_bind].
        assert (Hn' : lt (pk_user_key e) next) by (by apply cmp_flip). apply IH; [done|by eapply ends_inv_tail|lia|done].
Qed.

(** *** The set of ends *)

Lemma parsed_lt_le a b : Parsed_Compare user_Compare a b < 0 -> le (pk_user_key a) (pk_user_key b).
Proof. unfold Parsed_Compare. destruct (Z.eqb_spec (user_Compare (pk_user_key a) (pk_user_key b)) 0); lia. Qed.

(** Neither comes first: they are the same, but for the type. *)
Lemma parsed_same a b : ~ Parsed_Compare user_Compare a b < 0 -> ~ Parsed_Compare user_Compare b a < 0 -> pk_user_key a = pk_user_key b /\ pk_sequence a = pk_sequence b.
Proof.
  unfold Parsed_Compare. destruct (Z.eqb_spec (user_Compare (pk_user_key a) (pk_user_key b)) 0) as [E|E].
  - apply cmp_eq in E. rewrite E, (cmp_refl user_Compare). rewrite !Z.gtb_ltb. cbn [Z.eqb]. destruct (Z.ltb_spec (pk_sequence b) (pk_sequence a)); [lia|]. destruct (Z.ltb_spec (pk_sequence a) (pk_sequence b)); [lia|]. intros; split; [done|lia].
  - intros H1 H2. exfalso. pose proof (cmp_flip (Compare := user_Compare) (pk_user_key b) (pk_user_key a)). destruct (Z.eqb_spec (user_Compare (pk_user_key b) (pk_user_key a)) 0) as [E'|E']; [apply cmp_eq in E'; rewrite E', (cmp_refl user_Compare) in E; done|lia].
Qed.

Lemma set_emplace_in x s y : y ∈ set_emplace user_Compare x s -> y = x \/ y ∈ s.
Proof.
  induction s as [|z s IH]; cbn [set_emplace]; [rewrite list_elem_of_singleton; tauto|]. destruct (Z.ltb_spec (Parsed_Compare user_Compare x z) 0); [rewrite elem_of_cons; tauto|].
  destruct (Z.ltb_spec (Parsed_Compare user_Compare z x) 0); [|tauto]. rewrite !elem_of_cons. intros [->|?%IH]; tauto.
Qed.

Lemma set_emplace_has x s : (forall y, y ∈ s -> y ∈ set_emplace user_Compare x s) /\
  exists y, y ∈ set_emplace user_Compare x s /\ pk_user_key y = pk_user_key x /\ pk_sequence y = pk_sequence x.
Proof.
  induction s as [|z s [IH (y & Hy & Ey)]]; cbn [set_emplace]; [split; [intros y []%not_elem_of_nil|exists x; split; [left|done]]|].
  destruct (Z.ltb_spec (Parsed_Compare user_Compare x z) 0); [split; [intros; by right|exists x; split; [left|done]]|].
  destruct (Z.ltb_spec (Parsed_Compare user_Compare z x) 0).
  - split; [intros w [->|Hw]%elem_of_cons; [left|right; by apply IH]|exists y; split; [by right|done]].
  - split; [done|]. exists z. split; [left|]. destruct (parsed_same x z) as [? ?]; [lia|lia|done].
Qed.

Lemma set_emplace_sorted x s : StronglySorted (fun a b => le (pk_user_key a) (pk_user_key b)) s ->
  StronglySorted (fun a b => le (pk_user_key a) (pk_user_key b)) (set_emplace user_Compare x s).
Proof.
  induction 1 as [|z s Hs IH Hz]; cbn [set_emplace]; [repeat constructor|]. destruct (Z.ltb_spec (Parsed_Compare user_Compare x z) 0) as [Hxz|Hxz].
  - apply parsed_lt_le in Hxz. constructor; [by constructor|]. constructor; [done|]. eapply Forall_impl; [exact Hz|]. intros w Hw. cbn in Hw. by eapply (cmp_le_trans user_Compare).
  - destruct (Z.ltb_spec (Parsed_Compare user_Compare z x) 0) as [Hzx|Hzx]; [|by constructor]. apply parsed_lt_le in Hzx. constructor; [done|]. rewrite Forall_forall in *. intros w [->|Hw]%set_emplace_in; [done|by apply Hz].
Qed.

(** A tombstone that starts where the fragments end. *)
Lemma add_tombstone P cs ce l t : frag_inv P cs l -> ends_inv P cs ce -> tombstone_ok t -> t_start t = cs ->
  frag_inv (P ++ [t]) cs l /\ ends_inv (P ++ [t]) cs (set_emplace user_Compare (mkParsed (t_end t) (t_seq t) kTypeRangeDeletion) ce).
Proof.
  intros [Hr Hi Hd Hs Hq Ha] [Es Ef Ea Est] [_ Hok] Ecs. set (x := mkParsed _ _ _). split.
  - assert (Hno : forall k, lt k cs -> ~ covers t k) by (intros k Hk [Hc _]; rewrite Ecs in Hc; by apply not_lt in Hc).
    split; [done..| |].
    + intros g k s Hg Hk. rewrite (Hq g k s Hg Hk). split; [intros (u & Hu & Hc); exists u; split; [apply elem_of_app; by left|done]|].
      intros (u & Hu & Hc & Eu). apply elem_of_app in Hu as [Hu| ->%list_elem_of_singleton]; [by exists u|]. exfalso. apply (Hno k); [|done]. destruct Hk as [_ Hk]. eapply (cmp_lt_le_trans user_Compare); [exact Hk|by apply Hr].
    + intros k u Hk Hu Hc. apply elem_of_app in Hu as [Hu| ->%list_elem_of_singleton]; [by apply (Ha k u)|]. by destruct (Hno k Hk).
  - destruct (set_emplace_has x ce) as (Hkeep & y & Hy & Ek & Eq). split; [by apply set_emplace_sorted| | |].
    + intros e [->|He]%set_emplace_in; [cbn [x pk_user_key pk_sequence]; split; [by rewrite <- Ecs|]; exists t; split; [apply elem_of_app; right; by apply list_elem_of_singleton|done]|].
      destruct (Ef e He) as (Hle & u & Hu & Eu). split; [done|]. exists u. split; [apply elem_of_app; by left|done].
    + intros u Hu Hlt. apply elem_of_app in Hu as [Hu| ->%list_elem_of_singleton]; [destruct (Ea u Hu Hlt) as (e & He & Ee); exists e; split; [by apply Hkeep|done]|by exists y].
    + intros u Hu. apply elem_of_app in Hu as [Hu| ->%list_elem_of_singleton]; [by apply Est|]. rewrite Ecs. apply le_refl.
Qed.

(** *** The loop *)

Lemma entry_fields t : tombstone_ok t -> ExtractUserKey (encode (mkParsed (t_start t) (t_seq t) kTypeRangeDeletion)) = t_start t /\
  GetInternalKeySeqno (encode (mkParsed (t_start t) (t_seq t) kTypeRangeDeletion)) = t_seq t.
Proof.
  intros [Hs _]. assert (Hp : parsed_ok (mkParsed (t_start t) (t_seq t) kTypeRangeDeletion)) by (split; [exact Hs|by split]).
  destruct (encode_footer _ Hp) as [-> E]. split; [done|]. unfold GetInternalKeySeqno. rewrite E. by destruct (footer_lower_bits _ Hp) as [-> _].
Qed.

Lemma fragment_loop_ok snapshots ts : forall P cs ce l, frag_inv P cs l -> ends_inv P cs ce -> ce <> [] -> Forall tombstone_ok ts ->
  StronglySorted (fun a b => le (t_start a) (t_start b)) ts -> (forall t, t ∈ ts -> le cs (t_start t)) ->
  exists cs' ce' l', fragment_loop user_Compare false snapshots (tombstone_entry <$> ts) cs ce l = Some (cs', ce', l') /\
    frag_inv (P ++ ts) cs' l' /\ ends_inv (P ++ ts) cs' ce' /\ ce' <> [].
Proof.
  induction ts as [|t ts IH]; intros P cs ce l Hf He Hne Hok Hs Hcs; [exists cs, ce, l; by rewrite app_nil_r|].
  apply Forall_cons in Hok as [Ht Hok]. apply StronglySorted_inv in Hs as [Hs Hst]. rewrite Forall_forall in Hst. rewrite fmap_cons. unfold tombstone_entry at 1. cbn [fragment_loop].
  destruct (entry_fields t Ht) as [-> ->]. pose proof (Hcs t ltac:(left)) as Hle.
  assert (Hmid : exists ce1 l1, (match ce with _ :: _ => if negb (user_Compare cs (t_start t) =? 0) then flush_current_tombstones user_Compare false snapshots ce cs (t_start t) l else Some (ce, l) | [] => Some ([], l) end) = Some (ce1, l1) /\
    frag_inv P (t_start t) l1 /\ ends_inv P (t_start t) ce1).
  { destruct ce as [|e ce]; [done|]. destruct (Z.eqb_spec (user_Compare cs (t_start t)) 0) as [E|E]; cbn [negb]; [apply cmp_eq in E; rewrite <- E; by exists (e :: ce), l|].
    destruct (flush_loop_ok P snapshots (t_start t) (e :: ce) cs l Hf He Hle) as (reached & l1 & E1 & Hf1 & He1); [intros; lia|]. unfold flush_current_tombstones. rewrite E1. by exists (default [] reached), l1. }
  destruct Hmid as (ce1 & l1 & -> & Hf1 & He1). cbn [mbind option_bind]. destruct (add_tombstone P (t_start t) ce1 l1 t Hf1 He1 Ht eq_refl) as [Hf2 He2].
  destruct (IH (P ++ [t]) (t_start t) _ l1 Hf2 He2) as (cs' & ce' & l' & E & Hf' & He' & Hne'); [|done|done|by intros u Hu; apply Hst|exists cs', ce', l'; rewrite <- app_assoc in Hf', He'; by split_and!].
  destruct (set_emplace_has (mkParsed (t_end t) (t_seq t) kTypeRangeDeletion) ce1) as (_ & y & Hy & _). intros En. rewrite En in Hy. by apply not_elem_of_nil in Hy.
Qed.

Lemma no_fragments_inv cs : frag_inv [] cs no_fragments.
Proof. split; try (intros g []%not_elem_of_nil); [constructor|intros g k s []%not_elem_of_nil|intros k t _ []%not_elem_of_nil]. Qed.

(** All tombstones are in the fragments, which end where the last of them does. *)
Lemma FragmentTombstones_ok snapshots ts : Forall tombstone_ok ts -> StronglySorted (fun a b => le (t_start a) (t_start b)) ts ->
  exists l cs, FragmentTombstones user_Compare false snapshots (tombstone_entry <$> ts) = Some l /\ frag_inv ts cs l /\ forall t, t ∈ ts -> le (t_end t) cs.
Proof.
  intros Hok Hs. unfold FragmentTombstones. destruct ts as [|t ts]; [exists no_fragments, []; split_and!; [done|apply no_fragments_inv|intros t []%not_elem_of_nil]|].
  rewrite fmap_cons. unfold tombstone_entry at 1. cbn [fragment_loop]. pose proof (Forall_inv Hok) as Ht. destruct (entry_fields t Ht) as [-> ->]. cbn [mbind option_bind].
  apply StronglySorted_inv in Hs as [Hs Hst]. rewrite Forall_forall in Hst.
  assert (He0 : ends_inv [] (t_start t) []) by (split; [constructor|intros e []%not_elem_of_nil|intros u []%not_elem_of_nil|intros u []%not_elem_of_nil]).
  destruct (add_tombstone [] (t_start t) [] no_fragments t (no_fragments_inv _) He0 Ht eq_refl) as [Hf1 He1].
  destruct (fragment_loop_ok snapshots ts ([] ++ [t]) (t_start t) _ no_fragments Hf1 He1) as (cs & ce & l & E & Hf & He & Hne); [done|by inversion Hok|done|by intros u Hu; apply Hst|].
  cbn [app] in *. rewrite E. cbn [mbind option_bind]. destruct (last ce) as [z|] eqn:El; [|by apply last_None in El].
  assert (Hlast : forall e, e ∈ ce -> le (pk_user_key e) (pk_user_key z)).
  { apply last_Some in El as [ce' ->]. intros e Hin. apply elem_of_app in Hin as [Hin| ->%list_elem_of_singleton]; [|apply le_refl].
    eapply (StronglySorted_app_1_elem_of _ _ _ _ _ (en_sorted _ _ _ He) Hin). by apply list_elem_of_singleton. }
  apply last_Some_elem_of in El. destruct (en_from _ _ _ He z El) as [Hz _].
  destruct (flush_loop_ok (t :: ts) snapshots (pk_user_key z) ce cs l Hf He Hz) as (reached & l' & E' & Hf' & _).
  { intros e Hin Hlt. eapply (cmp_lt_le_trans user_Compare); [exact Hlt|by apply Hlast]. }
  unfold flush_current_tombstones. rewrite E'. exists l', (pk_user_key z). split_and!; [done|done|]. intros u Hu. destruct (decide (lt cs (t_end u))) as [Hlt|Hlt].
  - destruct (en_all _ _ _ He u Hu Hlt) as (e & Hin & <- & _). by apply Hlast.
  - apply not_lt in Hlt. by eapply (cmp_le_trans user_Compare).
Qed.

(** ** The lookup *)

Lemma max_covering_ok ts cs l u k : frag_inv ts cs l -> (forall t, t ∈ ts -> le (t_end t) cs) -> Forall tombstone_ok ts ->
  MaxCoveringTombstoneSeqnum user_Compare l u k = Some (largest (t_seq <$> filter (fun t => covers t k /\ t_seq t <= u) ts)).
Proof.
  intros Hf Hend Hok. set (S := t_seq <$> filter _ ts). assert (Hpos : Forall (fun x => 0 <= x) S).
  { apply Forall_fmap, Forall_forall. intros t [_ Ht]%list_elem_of_filter. rewrite Forall_forall in Hok. by apply Hok. }
  assert (HS : forall x, x ∈ S <-> exists t, t ∈ ts /\ covers t k /\ t_seq t = x /\ x <= u).
  { intros x. unfold S. rewrite list_elem_of_fmap. setoid_rewrite list_elem_of_filter. split; [intros (t & -> & [? ?] & ?); by exists t|intros (t & ? & ? & <- & ?); by exists t]. }
  assert (Hnone : (forall g, g ∈ tombstones_ l -> ~ in_stack g k) -> largest S = 0).
  { intros Hno. apply largest_intro; [|right; split; [done|]|done]; [apply Forall_forall; intros x|destruct S as [|x S'] eqn:E; [done|]; exfalso; assert (Hx : x ∈ x :: S') by left; revert Hx];
      intros (t & Ht & Hc & _)%HS; destruct (fr_all _ _ _ Hf k t) as (g & Hg & Hgk); try done; try (by destruct (Hno g Hg)); eapply (cmp_lt_le_trans user_Compare); [apply Hc|by apply Hend|apply Hc|by apply Hend]. }
  unfold MaxCoveringTombstoneSeqnum, SeekToCoveringTombstone. pose proof (partition_point_spec (fun t => negb (user_Compare k (end_key t) <? 0)) (tombstones_ l)) as [Hbefore Hat].
  set (pos := partition_point _ (tombstones_ l)) in *. assert (Hless : forall g, negb (user_Compare k (end_key g) <? 0) = true -> ~ in_stack g k).
  { intros g Hg [_ Hlt]. apply negb_true_iff, Z.ltb_ge in Hg. lia. }
  destruct (tombstones_ l !! pos) as [g|] eqn:Eg; [|].
  2: { rewrite Eg. rewrite Hnone; [done|]. rewrite Forall_forall in Hat. intros g Hg. by apply Hless, Hat. }
  rewrite Eg. apply negb_false_iff, Z.ltb_lt in Hat. pose proof (list_elem_of_lookup_2 _ _ _ Eg) as Hg. fold (stack_seqs l g). destruct (fr_index _ _ _ Hf g Hg) as [Hi1 Hi2].
  pose proof (first_below u (stack_seqs l g) (fr_desc _ _ _ Hf g Hg)) as Hfirst. set (pp := partition_point _ (stack_seqs l g)) in *.
  assert (Hlen : length (stack_seqs l g) = (seq_end_idx g - seq_start_idx g)%nat) by (unfold stack_seqs; rewrite length_take, length_drop; lia).
  destruct (Z.leb_spec (user_Compare (start_key g) k) 0) as [Hst|Hst].
  - rewrite andb_true_r. assert (Hgk : in_stack g k) by done. pose proof (fun s => fr_seqs _ _ _ Hf g k s Hg Hgk) as Hq.
    destruct (stack_seqs l g !! pp) as [z|] eqn:Ez.
    + pose proof (lookup_lt_Some _ _ _ Ez). destruct (Nat.eqb_spec (seq_start_idx g + pp) (seq_end_idx g)); [lia|]. cbn [negb].
      assert (Ez' : tombstone_seqs_ l !! (seq_start_idx g + pp)%nat = Some z) by (unfold stack_seqs in Ez; rewrite lookup_take_lt, lookup_drop in Ez by lia; done).
      rewrite Ez'. f_equal. symmetry. destruct Hfirst as (Hzu & Hzin & Hmax). apply largest_intro; [| |done].
      * apply Forall_forall. intros x (t & Ht & Hc & Ex & Hxu)%HS. apply Hmax; [apply Hq; by exists t|done].
      * left. apply HS. apply Hq in Hzin as (t & Ht & Hc & Et). by exists t.
    + apply lookup_ge_None in Ez. assert (Epp : (pp <= length (stack_seqs l g))%nat) by (unfold pp; clear; induction (stack_seqs l g) as [|x s IH]; cbn; [lia|destruct (_ >? _); lia]).
      replace (seq_start_idx g + pp)%nat with (seq_end_idx g) by lia. rewrite Nat.eqb_refl. cbn [negb]. f_equal. symmetry. apply largest_intro; [|right; split; [done|]|done].
      * apply Forall_forall. intros x (t & Ht & Hc & Ex & Hxu)%HS. assert (Hx : x ∈ stack_seqs l g) by (apply Hq; by exists t). specialize (Hfirst x Hx). lia.
      * destruct S as [|x S'] eqn:ES; [done|]. exfalso. assert (Hx : x ∈ x :: S') by left. apply HS in Hx as (t & Ht & Hc & Ex & Hxu). assert (Hx : x ∈ stack_seqs l g) by (apply Hq; by exists t). specialize (Hfirst x Hx). lia.
  - rewrite andb_false_r. rewrite Hnone; [done|]. intros g' Hg' Hk. apply list_elem_of_lookup in Hg' as [i Hi]. destruct (lt_eq_lt_dec i pos) as [[Hlt| ->]|Hgt].
    + rewrite Forall_forall in Hbefore. apply (Hless g'); [|done]. apply Hbefore, list_elem_of_lookup. exists i. by rewrite lookup_take_lt.
    + assert (g' = g) as -> by congruence. destruct Hk as [Hk _]. lia.
    + assert (Hord : le (end_key g) (start_key g')).
      { pose proof (fr_sorted _ _ _ Hf) as Hs. rewrite <- (take_drop_middle _ _ _ Eg) in Hs. apply StronglySorted_app_1_r, StronglySorted_inv in Hs as [_ Hs]. rewrite Forall_forall in Hs.
        apply Hs, list_elem_of_lookup. exists (i - Datatypes.S pos)%nat. rewrite lookup_drop. by replace (Datatypes.S pos + (i - Datatypes.S pos))%nat with i by lia. }
      destruct Hk as [Hk _]. pose proof (cmp_lt_le_trans user_Compare _ _ _ Hat Hord) as Hc1.
      pose proof (cmp_lt_le_trans user_Compare _ _ _ Hc1 Hk) as Hc2. rewrite (cmp_refl user_Compare) in Hc2. lia.
Qed.

(** *** In any order *)

Lemma internal_le a b : InternalKey_Compare user_Compare a b <= 0 <->
  lt (ExtractUserKey a) (ExtractUserKey b) \/ (ExtractUserKey a = ExtractUserKey b /\ DecodeFixed64 (footer_ptr b) <= DecodeFixed64 (footer_ptr a)).
Proof.
  unfold InternalKey_Compare. rewrite Z.gtb_ltb. pose proof (cmp_eq (Compare := user_Compare) (ExtractUserKey a) (ExtractUserKey b)) as Heq.
  destruct (Z.eqb_spec (user_Compare (ExtractUserKey a) (ExtractUserKey b)) 0) as [E|E]; [|split; [lia|intros [?|[?%Heq _]]; lia]].
  destruct (Z.ltb_spec (DecodeFixed64 (footer_ptr b)) (DecodeFixed64 (footer_ptr a))); [split; [|lia]; intros _; right; split; [by apply Heq|lia]|].
  destruct (Z.ltb_spec (DecodeFixed64 (footer_ptr a)) (DecodeFixed64 (footer_ptr b))); (split; [|lia]); [lia|]. intros _. right. split; [by apply Heq|lia].
Qed.

#[local] Instance key_le_trans : Transitive (key_le user_Compare).
Proof.
  intros a b c. unfold key_le. rewrite !internal_le. intros [Hab|[Eab Hab]] [Hbc|[Ebc Hbc]]; [left; by eapply cmp_trans|left; by rewrite <- Ebc|left; by rewrite Eab|right]. split; [congruence|lia].
Qed.

#[local] Instance key_le_total : Total (key_le user_Compare).
Proof.
  intros a b. unfold key_le. rewrite !internal_le. pose proof (cmp_flip (Compare := user_Compare) (ExtractUserKey b.1) (ExtractUserKey a.1)). pose proof (cmp_eq (Compare := user_Compare) (ExtractUserKey a.1) (ExtractUserKey b.1)) as Heq.
  destruct (Z.lt_trichotomy (user_Compare (ExtractUserKey a.1) (ExtractUserKey b.1)) 0) as [?|[E|?]]; [by left; left| |right; left; lia].
  apply Heq in E. destruct (Z.le_ge_cases (DecodeFixed64 (footer_ptr b.1)) (DecodeFixed64 (footer_ptr a.1))); [left|right]; right; by split.
Qed.

Lemma sorted_check ts : forall a, sorted_tombstones user_Compare (Some (tombstone_entry a).1) (tombstone_entry <$> ts) = true ->
  StronglySorted (key_le user_Compare) (tombstone_entry <$> a :: ts).
Proof.
  intros a Hs. apply Sorted_StronglySorted; [apply _|]. revert a Hs. induction ts as [|t ts IH]; intros a Hs; [repeat constructor|]. rewrite !fmap_cons in *. cbn [sorted_tombstones tombstone_entry fst] in Hs.
  rewrite Z.gtb_ltb in Hs. destruct (Z.ltb_spec 0 (InternalKey_Compare user_Compare (encode (mkParsed (t_start a) (t_seq a) kTypeRangeDeletion)) (encode (mkParsed (t_start t) (t_seq t) kTypeRangeDeletion)))); [done|].
  constructor; [by apply IH|]. constructor. done.
Qed.

Lemma sorted_starts ts : Forall tombstone_ok ts -> StronglySorted (key_le user_Compare) (tombstone_entry <$> ts) -> StronglySorted (fun a b => le (t_start a) (t_start b)) ts.
Proof.
  induction ts as [|t ts IH]; intros Hok Hs; [constructor|]. rewrite fmap_cons in Hs. apply StronglySorted_inv in Hs as [Hs Ht]. apply Forall_cons in Hok as [Hokt Hok]. constructor; [by apply IH|].
  apply Forall_forall. intros u Hu. rewrite Forall_forall in Hok. pose proof (proj1 (Forall_forall _ _) Ht (tombstone_entry u) ltac:(by apply list_elem_of_fmap_2)) as Hle. clear Ht. rename Hle into Ht. unfold key_le in Ht. rewrite internal_le in Ht. cbn [tombstone_entry fst] in Ht.
  destruct (entry_fields t Hokt) as [Et _], (entry_fields u (Hok u Hu)) as [Eu _]. rewrite Et, Eu in Ht. destruct Ht as [?|[-> _]]; [lia|apply le_refl].
Qed.

(** Whatever their order, the tombstones make a list of fragments, in which a lookup finds
    the newest one that covers the key and is not newer than the bound, or 0. *)
Lemma fragmented_lookup snapshots ts : Forall tombstone_ok ts ->
  exists l, FragmentedRangeTombstoneList_new user_Compare false snapshots (tombstone_entry <$> ts) = Some l /\
    forall u k, MaxCoveringTombstoneSeqnum user_Compare l u k = Some (largest (t_seq <$> filter (fun t => covers t k /\ t_seq t <= u) ts)).
Proof.
  intros Hok.
  assert (Hsorted : exists ts', ts' ≡ₚ ts /\ StronglySorted (fun a b => le (t_start a) (t_start b)) ts' /\
    FragmentedRangeTombstoneList_new user_Compare false snapshots (tombstone_entry <$> ts) = FragmentTombstones user_Compare false snapshots (tombstone_entry <$> ts')).
  { unfold FragmentedRangeTombstoneList_new. destruct (sorted_tombstones user_Compare None (tombstone_entry <$> ts)) eqn:E.
    - exists ts. split_and!; [done| |done]. destruct ts as [|t ts]; [constructor|]. apply sorted_starts; [done|]. by apply sorted_check.
    - set (sorted := merge_sort _ _). assert (Hms : sorted ≡ₚ map tombstone_entry ts) by apply merge_sort_Permutation.
      assert (Hst : StronglySorted (key_le user_Compare) sorted) by (apply StronglySorted_merge_sort; apply _). clearbody sorted.
      destruct (Permutation_map_inv tombstone_entry ts Hms) as (ts' & -> & Hp). exists ts'. split_and!; [done| |done]. apply sorted_starts; [by rewrite <- Hp|done]. }
  destruct Hsorted as (ts' & Hp & Hs & ->). assert (Hok' : Forall tombstone_ok ts') by (by rewrite Hp).
  destruct (FragmentTombstones_ok snapshots ts' Hok' Hs) as (l & cs & -> & Hf & Hend). exists l. split; [done|]. intros u k. rewrite (max_covering_ok ts' cs l u k Hf Hend Hok').
  f_equal. apply largest_permutation. by rewrite Hp.
Qed.
End Correct.
