(* ===== verification/MemTable.v ===== *)
(** * The memtable ([db/memtable.cc]) and its inserter ([db/write_batch.cc])

    A memtable keeps entries (length-prefixed internal key, length-prefixed value)
    in an ordered table, by user key and then by decreasing sequence number. The
    file models the entry format, [Add], [Get] with [SaveValue] and with the range
    tombstones of the memtable (RangeDel.v), and [MemTableInserter], the handler that moves a write batch into the memtable.
    The column family is the default one, the only one that the programs open.
    Not modelled: the optional bloom filter, in-place updates, user timestamps,
    flush scheduling, and the rebuilding of prepared transactions in recovery. *)

From S2P Require Import Prelude Coding Comparator DbFormat KVStore WriteBatch RangeDel.

(** ** Entries *)

(** The bytes [Add] writes. *)
Definition encode_entry (s type_ : Z) (key value : bytes) : bytes :=
  let key_size := u32 (zlen key) in
  let val_size := u32 (zlen value) in
  let internal_key_size := u32 (key_size + 8) in
  EncodeVarint32 internal_key_size ++ key ++ EncodeFixed64 (PackSequenceAndType s type_) ++
  EncodeVarint32 val_size ++ value.

Definition encoded_len (key value : bytes) : Z :=
  let internal_key_size := u32 (u32 (zlen key) + 8) in
  let val_size := u32 (zlen value) in
  u32 (VarintLength internal_key_size + internal_key_size + VarintLength val_size + val_size).

(** [GetVarint32Ptr(entry, entry + 5, &key_length)]: the key and what follows it. *)
Definition entry_split (entry : bytes) : bytes * bytes :=
  match GetVarint32Ptr (take 5 entry) with
  | Some (key_length, rest5) =>
      let key_ptr := drop (length (take 5 entry) - length rest5) entry in
      (take (Z.to_nat key_length) key_ptr, drop (Z.to_nat key_length) key_ptr)
  | None => ([], [])
  end.

Definition entry_key (entry : bytes) : bytes := (entry_split entry).1.

(** [GetLengthPrefixedSlice(key_ptr + key_length)]. *)
Definition entry_value (entry : bytes) : bytes := default [] (GetLengthPrefixedSlice_data (entry_split entry).2).

(** ** The ordered table

    What the memtable requires of its [MemTableRep] (by default a skip list);
    [None] where an assertion of the table fails. *)

Class MemTableRep (T : Type) := {
  rep_new : T;
  rep_InsertKey : T -> bytes -> option (bool * T); (* false: the key is there *)
  rep_Seek : T -> bytes -> option (list bytes);    (* the entries that Seek and Next visit *)
  rep_SeekToFirst : T -> option (list bytes)       (* those that SeekToFirst and Next visit *)
}.

(** How a table is seen from outside: its invariant and its entries in order. *)
Record RepView (T : Type) := mkRepView { rv_inv : T -> Prop; rv_entries :> T -> list bytes }.
Arguments mkRepView {T}.
Arguments rv_inv {T}.
Arguments rv_entries {T}.

(** ** The memtable *)

Record MemTable (T : Type) := mkMemTable {
  table_ : T;
  range_del_table_ : T;
  num_entries_ : Z;
  data_size_ : Z;
  num_deletes_ : Z;
  first_seqno_ : Z;
  earliest_seqno_ : Z;
  is_range_del_table_empty_ : bool
}.
Arguments mkMemTable {T}.
Arguments table_ {T}.
Arguments range_del_table_ {T}.
Arguments num_entries_ {T}.
Arguments data_size_ {T}.
Arguments num_deletes_ {T}.
Arguments first_seqno_ {T}.
Arguments earliest_seqno_ {T}.
Arguments is_range_del_table_empty_ {T}.

Section MemTable.
Context (user_Compare : bytes -> bytes -> Z).

(** [MemTable::KeyComparator]. *)
Definition KeyComparator (prefix_len_key1 prefix_len_key2 : bytes) : Z :=
  InternalKey_CompareKeySeq user_Compare (entry_key prefix_len_key1) (entry_key prefix_len_key2).

(** [InsertKey] adds an entry at its place unless one compares equal to it; [Seek]
    and [Next] visit the entries that are not below the key. *)
Class MemTableRepLaws {T} `{MemTableRep T} (entries : RepView T) : Prop := {
  law_rep_new : rv_inv entries rep_new /\ entries rep_new = [];
  law_rep_InsertKey : forall t e, rv_inv entries t ->
    exists t', rv_inv entries t' /\
      if bool_decide (Exists (fun e' => KeyComparator e' e = 0) (entries t))
      then rep_InsertKey t e = Some (false, t') /\ entries t' = entries t
      else rep_InsertKey t e = Some (true, t') /\
           entries t'
           = filter (fun e' => KeyComparator e' e < 0) (entries t) ++ e :: filter (fun e' => ~ KeyComparator e' e < 0) (entries t);
  law_rep_Seek : forall t k, rv_inv entries t ->
    rep_Seek t k = Some (filter (fun e => ~ KeyComparator e k < 0) (entries t));
  law_rep_SeekToFirst : forall t, rv_inv entries t -> rep_SeekToFirst t = Some (entries t)
}.

(** *** Writing *)

Context {T : Type} `{MemTableRep T}.

Definition MemTable_new (latest_seq : Z) : MemTable T :=
  mkMemTable rep_new rep_new 0 0 0 0 latest_seq true.

(** [MemTable::Add] with [allow_concurrent] false; [None] where an assertion fails, those
    of [PackSequenceAndType] on the sequence number and the type first. *)
Definition Add (m : MemTable T) (s type_ : Z) (key value : bytes) : option (bool * MemTable T) :=
  if negb ((s <=? kMaxSequenceNumber) && IsExtendedValueType type_) then None else
  let entry := encode_entry s type_ key value in
  let is_range := type_ =? kTypeRangeDeletion in
  '(res, table) ← rep_InsertKey (if is_range then range_del_table_ m else table_ m) entry;
  if res : bool then
    if (first_seqno_ m =? 0) || (first_seqno_ m <=? s) then
      let first := if first_seqno_ m =? 0 then s else first_seqno_ m in
      let earliest := if (first_seqno_ m =? 0) && (earliest_seqno_ m =? kMaxSequenceNumber) then first
                      else earliest_seqno_ m in
      if (first_seqno_ m =? 0) && (first <? earliest) then None
      else
        Some (true, mkMemTable
          (if is_range then table_ m else table) (if is_range then table else range_del_table_ m)
          (u64 (num_entries_ m + 1)) (u64 (data_size_ m + encoded_len key value))
          (if type_ =? kTypeDeletion then u64 (num_deletes_ m + 1) else num_deletes_ m)
          first earliest (if is_range then false else is_range_del_table_empty_ m))
    else None
  else Some (false, m).

(** ** Reading *)

(** A merge operator: [FullMergeV2] returns its success and the result. *)
Record MergeOperator := mkMergeOperator {
  FullMergeV2 : bytes -> option bytes -> list bytes -> bool * bytes;
  ShouldMerge : list bytes -> bool
}.

(** [MergeHelper::TimedFullMerge]; [None] where an assertion fails. *)
Definition TimedFullMerge (op : MergeOperator) (key : bytes) (value : option bytes) (operands : list bytes)
  : option (Status * bytes) :=
  match operands with
  | [] => v ← value; Some (OK, v)
  | _ => let '(success, result) := FullMergeV2 op key value operands in
         Some (if success : bool then OK else Corruption, result)
  end.

(** What a lookup is asked for; [max_covering_tombstone_seq] on entry. *)
Record lookup := mkLookup {
  l_user_key : bytes;
  l_max_covering_tombstone_seq : Z;
  l_merge_operator : option MergeOperator;
  l_do_merge : bool;
  l_callback : option (Z -> bool);
  l_is_blob_index : bool;     (* the caller takes blob indexes *)
  l_value : bool;             (* and the value: [value] is not null *)
  l_ignore_range_deletions : bool
}.

Definition set_max_covering (seq : Z) (l : lookup) : lookup :=
  mkLookup (l_user_key l) seq (l_merge_operator l) (l_do_merge l) (l_callback l) (l_is_blob_index l) (l_value l) (l_ignore_range_deletions l).

(** The out parameters of [Saver]; the operands with the newest first. *)
Record Saver := mkSaver {
  sv_status : Status;
  sv_found_final_value : bool;
  sv_merge_in_progress : bool;
  sv_value : option bytes;
  sv_seq : Z;
  sv_operands : list bytes;
  sv_is_blob_index : bool
}.

Definition CheckCallback (l : lookup) (seq : Z) : bool :=
  match l_callback l with Some IsVisible => IsVisible seq | None => true end.

Definition set_seq (seq : Z) (s : Saver) : Saver :=
  mkSaver (sv_status s) (sv_found_final_value s) (sv_merge_in_progress s) (sv_value s) seq (sv_operands s) (sv_is_blob_index s).

Definition final (status : Status) (value : option bytes) (operands : list bytes) (blob : bool) (s : Saver) : Saver :=
  mkSaver status true (sv_merge_in_progress s) value (sv_seq s) operands blob.

(** The operands in the order they were written, applied to [existing]; it asserts
    that there is a merge operator, and writes to [value]. *)
Definition full_merge (l : lookup) (existing : option bytes) (blob : bool) (s : Saver) : option Saver :=
  op ← l_merge_operator l;
  '(st, v) ← TimedFullMerge op (l_user_key l) existing (reverse (sv_operands s));
  if l_value l then Some (final st (Some v) (sv_operands s) blob s) else None.

(** A value, or a blob index that the caller takes. *)
Definition save_value (l : lookup) (is_blob : bool) (v : bytes) (s : Saver) : option Saver :=
  let blob := if l_is_blob_index l then is_blob else sv_is_blob_index s in
  if sv_merge_in_progress s then
    if l_do_merge l then if l_value l then full_merge l (Some v) blob s else Some (final OK (sv_value s) (sv_operands s) blob s)
    else Some (final OK (sv_value s) (sv_operands s ++ [v]) blob s)
  else if l_do_merge l then Some (final OK (if l_value l then Some v else sv_value s) (sv_operands s) blob s)
  else Some (final OK (sv_value s) (sv_operands s ++ [v]) blob s).

(** [SaveValue]: whether to go on to the next entry, and the new state; [None] where
    an assertion fails. *)
Definition SaveValue (l : lookup) (entry : bytes) (s : Saver) : option (bool * Saver) :=
  let key := entry_key entry in
  if zlen key <? 8 then None else
  if user_Compare (ExtractUserKey key) (l_user_key l) =? 0 then
    let '(seq, type_) := UnPackSequenceAndType (DecodeFixed64 (footer_ptr key)) in
    if negb (CheckCallback l seq) then Some (true, s)
    else
      let s := set_seq seq s in
      let type_ := if ((type_ =? kTypeValue) || (type_ =? kTypeMerge) || (type_ =? kTypeBlobIndex)) &&
                      (l_max_covering_tombstone_seq l >? seq)
                   then kTypeRangeDeletion else type_ in
      let v := entry_value entry in
      if type_ =? kTypeBlobIndex then
        if negb (l_is_blob_index l) || sv_merge_in_progress s
        then Some (false, final NotSupported (sv_value s) (sv_operands s) (sv_is_blob_index s) s)
        else s' ← save_value l true v s; Some (false, s')
      else if type_ =? kTypeValue then s' ← save_value l false v s; Some (false, s')
      else if (type_ =? kTypeDeletion) || (type_ =? kTypeDeletionWithTimestamp) ||
              (type_ =? kTypeSingleDeletion) || (type_ =? kTypeRangeDeletion) then
        if sv_merge_in_progress s then
          if l_value l then s' ← full_merge l None (sv_is_blob_index s) s; Some (false, s')
          else Some (false, final (sv_status s) (sv_value s) (sv_operands s) (sv_is_blob_index s) s)
        else Some (false, final NotFound (sv_value s) (sv_operands s) (sv_is_blob_index s) s)
      else if type_ =? kTypeMerge then
        match l_merge_operator l with
        | None => Some (false, final InvalidArgument (sv_value s) (sv_operands s) (sv_is_blob_index s) s)
        | Some op =>
            let s := mkSaver (sv_status s) (sv_found_final_value s) true (sv_value s) (sv_seq s)
                       (sv_operands s ++ [v]) (sv_is_blob_index s) in
            if l_do_merge l && ShouldMerge op (sv_operands s) then
              s' ← full_merge l None (sv_is_blob_index s) s; Some (false, s')
            else Some (true, s)
        end
      else None
  else Some (false, s).

(** [MemTableRep::Get]: the callback on the entries from the lookup key on. *)
Fixpoint rep_Get (l : lookup) (entries : list bytes) (s : Saver) : option Saver :=
  match entries with
  | [] => Some s
  | entry :: entries' =>
      '(go_on, s') ← SaveValue l entry s;
      if go_on : bool then rep_Get l entries' s' else Some s'
  end.

(** The range tombstones, if there are any to look at: the iterator over their table is
    sorted into fragments. *)
Definition NewRangeTombstoneIterator (m : MemTable T) (ignore_range_deletions : bool) : option (option FragmentedRangeTombstoneList) :=
  if ignore_range_deletions || is_range_del_table_empty_ m then Some None
  else
    entries ← rep_SeekToFirst (range_del_table_ m);
    l ← FragmentedRangeTombstoneList_new user_Compare false [] ((fun e => (entry_key e, entry_value e)) <$> entries);
    Some (Some l).

(** What [MemTable::Get] makes of [max_covering_tombstone_seq]. *)
Definition covering_seq (m : MemTable T) (l : lookup) (snapshot : Z) : option Z :=
  range_del_iter ← NewRangeTombstoneIterator m (l_ignore_range_deletions l);
  match range_del_iter with
  | Some tombstones =>
      seq ← MaxCoveringTombstoneSeqnum user_Compare tombstones snapshot (l_user_key l);
      Some (Z.max (l_max_covering_tombstone_seq l) seq)
  | None => Some (l_max_covering_tombstone_seq l)
  end.

(** [MemTable::Get] with [GetFromTable], for a memtable without a Bloom filter, which
    [memtable_prefix_bloom_size_ratio] leaves out by default; the status, the value and the
    operands on entry are those of [s0]. *)
Definition Get (m : MemTable T) (l : lookup) (snapshot : Z) (s0 : Saver) : option (bool * Saver) :=
  if first_seqno_ m =? 0 then Some (false, s0)
  else
    max_covering_tombstone_seq ← covering_seq m l snapshot;
    let l := set_max_covering max_covering_tombstone_seq l in
    let merge_in_progress := bool_decide (sv_status s0 = MergeInProgress) in
    let saver := mkSaver (sv_status s0) false merge_in_progress (sv_value s0) kMaxSequenceNumber
                   (sv_operands s0) (sv_is_blob_index s0) in
    seen ← rep_Seek (table_ m) (LookupKey_memtable_key (l_user_key l) snapshot);
    s ← rep_Get l seen saver;
    if negb (sv_found_final_value s) && sv_merge_in_progress s
    then Some (false, mkSaver MergeInProgress false true (sv_value s) (sv_seq s) (sv_operands s) (sv_is_blob_index s))
    else Some (sv_found_final_value s, s).

(** ** MemTableInserter

    Of a store without [inplace_update_support] and with [max_successive_merges] 0,
    outside recovery. [seq_per_batch_] and [ignore_missing_column_families_] are
    arguments, and so is whether there is a [db_]. *)

Record MemTableInserter := mkInserter { sequence_ : Z; ins_mem : MemTable T }.

Section Inserter.
Context (seq_per_batch_ ignore_missing_column_families_ has_db : bool).

Definition MaybeAdvanceSeq (batch_boundry : bool) (i : MemTableInserter) : MemTableInserter :=
  if Bool.eqb batch_boundry seq_per_batch_ then mkInserter (u64 (sequence_ i + 1)) (ins_mem i) else i.

(** [cf_mems_->Seek]: a store with the default column family. *)
Definition SeekToColumnFamily (cf : Z) : bool * Status :=
  if cf =? 0 then (true, OK)
  else (false, if ignore_missing_column_families_ then OK else InvalidArgument).

(** [mem->Add] and what follows it, common to puts, deletes and merges. *)
Definition add_to_memtable (i : MemTableInserter) (type_ : Z) (key value : bytes) : option (Status * MemTableInserter) :=
  '(mem_res, mem) ← Add (ins_mem i) (sequence_ i) type_ key value;
  let i1 := mkInserter (sequence_ i) mem in
  if mem_res : bool then Some (OK, MaybeAdvanceSeq false i1)
  else if seq_per_batch_ then Some (TryAgain, MaybeAdvanceSeq false (MaybeAdvanceSeq true i1)) else None.

(** After an assertion failure the handler's state is [None]. *)
Definition in_column_family (cf : Z) (f : MemTableInserter -> option (Status * MemTableInserter))
    (h : option MemTableInserter) : Status * option MemTableInserter :=
  match h with
  | None => (Corruption, None)
  | Some i =>
      let '(found, seek_status) := SeekToColumnFamily cf in
      if found : bool then
        match f i with
        | Some (st, i') => (st, Some i')
        | None => (Corruption, None)
        end
      else (seek_status, Some (MaybeAdvanceSeq false i))
  end.

Definition PutCFImpl (value_type cf : Z) (key value : bytes) :=
  in_column_family cf (fun i => add_to_memtable i value_type key value).

Definition DeleteImpl (key value : bytes) (delete_type : Z) (i : MemTableInserter) :=
  add_to_memtable i delete_type key value.

Definition DeleteCF (cf : Z) (key : bytes) := in_column_family cf (DeleteImpl key [] kTypeDeletion).

Definition SingleDeleteCF (cf : Z) (key : bytes) := in_column_family cf (DeleteImpl key [] kTypeSingleDeletion).

Definition DeleteRangeCF (cf : Z) (begin_key end_key : bytes) :=
  in_column_family cf (fun i =>
    let cmp := user_Compare begin_key end_key in
    if has_db && (cmp >? 0) then Some (InvalidArgument, i)
    else if has_db && (cmp =? 0) then Some (OK, i)
    else DeleteImpl begin_key end_key kTypeRangeDeletion i).

Definition MergeCF (cf : Z) (key value : bytes) := in_column_family cf (fun i => add_to_memtable i kTypeMerge key value).

Definition MarkNoop (empty_batch : bool) (i : MemTableInserter) : MemTableInserter :=
  if empty_batch then i else MaybeAdvanceSeq true i.

Definition inserter_handler : Handler (option MemTableInserter) :=
  {| h_Continue := fun _ => true;
     h_PutCF := fun h cf key value => PutCFImpl kTypeValue cf key value h;
     h_DeleteCF := fun h cf key => DeleteCF cf key h;
     h_SingleDeleteCF := fun h cf key => SingleDeleteCF cf key h;
     h_DeleteRangeCF := fun h cf b e => DeleteRangeCF cf b e h;
     h_MergeCF := fun h cf key value => MergeCF cf key value h;
     h_PutBlobIndexCF := fun h cf key value => PutCFImpl kTypeBlobIndex cf key value h;
     h_LogData := fun h _ => h;
     h_MarkBeginPrepare := fun h _ => h;
     h_MarkNoop := fun h empty_batch => MarkNoop empty_batch <$> h;
     h_MarkEndPrepare := fun h _ => MaybeAdvanceSeq true <$> h;
     h_MarkRollback := fun h _ => MaybeAdvanceSeq true <$> h;
     h_MarkCommit := fun h _ => MaybeAdvanceSeq true <$> h;
     h_WriteAfterCommit := fun _ => negb seq_per_batch_;
     h_WriteBeforePrepare := fun _ => false |}.

(** [WriteBatchInternal::InsertInto] of one batch: the status, the memtable and the
    next sequence number. *)
Definition InsertInto (batch : WriteBatch) (mem : MemTable T) : option (Status * MemTable T * Z) :=
  '(s, h) ← Iterate inserter_handler batch (Some (mkInserter (Sequence batch) mem));
  i ← h;
  Some (s, ins_mem i, sequence_ i).
End Inserter.
End MemTable.
Arguments mkInserter {T}.
Arguments sequence_ {T}.
Arguments ins_mem {T}.

(** ** Versions: what the entries stand for *)

Record version := mkVersion { v_seq : Z; v_type : Z; v_key : bytes; v_value : bytes }.

Definition v_parsed (v : version) : ParsedInternalKey := mkParsed (v_key v) (v_seq v) (v_type v).

Definition version_ok (v : version) : Prop :=
  parsed_ok (v_parsed v) /\ zlen (v_key v) + 8 < 2 ^ 32 /\ zlen (v_value v) < 2 ^ 32.

Definition entry_of (v : version) : bytes := encode_entry (v_seq v) (v_type v) (v_key v) (v_value v).

(** A varint at the start of an entry, read within its first five bytes. *)
Lemma varint_within_5 n rest : 0 <= n < 2 ^ 32 ->
  exists rest5, GetVarint32Ptr (take 5 (EncodeVarint32 n ++ rest)) = Some (n, rest5) /\
  drop (length (take 5 (EncodeVarint32 n ++ rest)) - length rest5) (EncodeVarint32 n ++ rest) = rest.
Proof.
  intros Hn. assert (Hl : (length (EncodeVarint32 n) <= 5)%nat).
  { rewrite EncodeVarint32_loop by done. apply EncodeVarint64_length; [lia|]. change (128 ^ Z.of_nat 5) with 34359738368. lia. }
  exists (take (5 - length (EncodeVarint32 n)) rest).
  rewrite take_app, (take_ge (EncodeVarint32 n)) by done. split; [by apply (GetVarint32_app n)|].
  rewrite length_app, Nat.add_sub. apply drop_app_length.
Qed.

Lemma entry_split_of v : version_ok v ->
  entry_split (entry_of v) = (encode (v_parsed v), EncodeVarint32 (zlen (v_value v)) ++ v_value v).
Proof.
  intros (Hp & Hk & Hv). pose proof (zlen_nonneg (v_key v)). pose proof (zlen_nonneg (v_value v)).
  unfold entry_split, entry_of, encode_entry. rewrite !u32_small by (rewrite ?u32_small; lia).
  destruct (varint_within_5 (zlen (v_key v) + 8) (v_key v ++ EncodeFixed64 (PackSequenceAndType (v_seq v) (v_type v)) ++
    EncodeVarint32 (zlen (v_value v)) ++ v_value v)) as (rest5 & -> & ->); [lia|].
  rewrite app_assoc. change (v_key v ++ EncodeFixed64 (PackSequenceAndType (v_seq v) (v_type v))) with (encode (v_parsed v)).
  pose proof (zlen_encode (v_parsed v)) as El. unfold InternalKeyEncodingLength in El. cbn [v_parsed pk_user_key] in El.
  rewrite <- El. replace (Z.to_nat (zlen (encode (v_parsed v)))) with (length (encode (v_parsed v))) by (unfold zlen; lia).
  by rewrite take_app_length, drop_app_length.
Qed.

Lemma entry_key_of v : version_ok v -> entry_key (entry_of v) = encode (v_parsed v).
Proof. intros Hv. unfold entry_key. by rewrite entry_split_of. Qed.

Lemma entry_value_of v : version_ok v -> entry_value (entry_of v) = v_value v.
Proof.
  intros Hv. unfold entry_value. rewrite entry_split_of by done. destruct Hv as (_ & _ & Hv).
  cbn [snd]. unfold GetLengthPrefixedSlice_data. pose proof (zlen_nonneg (v_value v)).
  destruct (varint_within_5 (zlen (v_value v)) (v_value v)) as (rest5 & -> & ->); [lia|].
  cbn. unfold zlen. by rewrite Nat2Z.id, firstn_all.
Qed.

(** The size that [Add] allocates is the size of the entry: the assertion on the
    number of bytes written holds. *)
Lemma encoded_len_spec v : version_ok v -> zlen (entry_of v) < 2 ^ 32 ->
  encoded_len (v_key v) (v_value v) = zlen (entry_of v).
Proof.
  intros (_ & Hk & Hv) Hl. pose proof (zlen_nonneg (v_key v)). pose proof (zlen_nonneg (v_value v)).
  unfold encoded_len. unfold entry_of, encode_entry in *.
  rewrite !(u32_small (zlen (v_key v))), !(u32_small (zlen (v_key v) + 8)), !(u32_small (zlen (v_value v))) in * by lia.
  rewrite !VarintLength_encode by lia. rewrite <- !EncodeVarint32_loop by lia.
  assert (E : zlen (EncodeVarint32 (zlen (v_key v) + 8) ++ v_key v ++ EncodeFixed64 (PackSequenceAndType (v_seq v) (v_type v)) ++
      EncodeVarint32 (zlen (v_value v)) ++ v_value v)
    = zlen (EncodeVarint32 (zlen (v_key v) + 8)) + (zlen (v_key v) + 8) + zlen (EncodeVarint32 (zlen (v_value v))) + zlen (v_value v)).
  { unfold zlen. rewrite !length_app. change (length (EncodeFixed64 _)) with 8%nat. lia. }
  rewrite E in *. apply u32_small. pose proof (zlen_nonneg (EncodeVarint32 (zlen (v_key v) + 8))).
  pose proof (zlen_nonneg (EncodeVarint32 (zlen (v_value v)))). lia.
Qed.

(** ** The order of the entries *)

Lemma compare_key_seq_encode (user_Compare : bytes -> bytes -> Z) p1 p2 : parsed_ok p1 -> parsed_ok p2 ->
  InternalKey_CompareKeySeq user_Compare (encode p1) (encode p2)
  = let r := user_Compare (pk_user_key p1) (pk_user_key p2) in
    if r =? 0 then if pk_sequence p1 >? pk_sequence p2 then -1 else if pk_sequence p1 <? pk_sequence p2 then 1 else r
    else r.
Proof.
  intros H1 H2. destruct (encode_footer p1 H1) as [Eu1 En1], (encode_footer p2 H2) as [Eu2 En2].
  destruct (footer_lower_bits p1 H1) as [Es1 _], (footer_lower_bits p2 H2) as [Es2 _].
  unfold InternalKey_CompareKeySeq. by rewrite Eu1, Eu2, En1, En2, Es1, Es2.
Qed.

Section Correct.
Context (user_Compare : bytes -> bytes -> Z) `{!TotalCompare user_Compare}.
Context {T : Type} `{MemTableRep T} (entries : RepView T) `{!MemTableRepLaws user_Compare entries}.

(** Versions by user key, then newest first. *)
Definition version_cmp (a b : version) : Z :=
  let r := user_Compare (v_key a) (v_key b) in
  if r =? 0 then if v_seq a >? v_seq b then -1 else if v_seq a <? v_seq b then 1 else r else r.

Definition vlt (a b : version) : Prop := version_cmp a b < 0.

Lemma vlt_spec a b : vlt a b <-> user_Compare (v_key a) (v_key b) < 0 \/ (v_key a = v_key b /\ v_seq b < v_seq a).
Proof.
  unfold vlt, version_cmp. rewrite Z.gtb_ltb. destruct (Z.eqb_spec (user_Compare (v_key a) (v_key b)) 0) as [E|E].
  - pose proof (proj1 (cmp_eq _ _) E) as Ek. rewrite E.
    destruct (Z.ltb_spec (v_seq b) (v_seq a)); [intuition lia|].
    destruct (Z.ltb_spec (v_seq a) (v_seq b)); intuition lia.
  - split; [auto|]. intros [|[Ek _]]; [done|]. rewrite Ek in E. exfalso. by apply E, cmp_eq.
Qed.

Lemma version_cmp_eq a b : version_cmp a b = 0 -> v_key a = v_key b /\ v_seq a = v_seq b.
Proof.
  unfold version_cmp. rewrite Z.gtb_ltb. destruct (Z.eqb_spec (user_Compare (v_key a) (v_key b)) 0) as [E|E]; [|lia].
  pose proof (proj1 (cmp_eq _ _) E). repeat case_bool; try lia. intros _. split; [done|lia].
Qed.

#[local] Instance vlt_trans : Transitive vlt.
Proof.
  intros a b c. rewrite !vlt_spec. intros [H1|[E1 H1]] [H2|[E2 H2]].
  - left. by eapply cmp_trans.
  - left. by rewrite <- E2.
  - left. by rewrite E1.
  - right. split; [congruence|lia].
Qed.

Lemma vlt_total a b : ~ vlt a b -> version_cmp a b <> 0 -> vlt b a.
Proof.
  rewrite !vlt_spec. unfold version_cmp. rewrite Z.gtb_ltb. intros Hn Hne.
  destruct (Z.eqb_spec (user_Compare (v_key a) (v_key b)) 0) as [E|E].
  - pose proof (proj1 (cmp_eq _ _) E) as Ek. right. split; [done|].
    destruct (Z.lt_trichotomy (v_seq a) (v_seq b)) as [|[Es|]]; [done| |exfalso; apply Hn; by right].
    exfalso. apply Hne. rewrite Es, Z.ltb_irrefl. done.
  - left. apply cmp_flip. destruct (Z.lt_ge_cases (user_Compare (v_key a) (v_key b)) 0); [tauto|lia].
Qed.

#[local] Instance vlt_dec a b : Decision (vlt a b).
Proof. unfold vlt. apply _. Defined.

Lemma key_comparator_of a b : version_ok a -> version_ok b ->
  KeyComparator user_Compare (entry_of a) (entry_of b) = version_cmp a b.
Proof.
  intros Ha Hb. unfold KeyComparator. rewrite !entry_key_of by done.
  destruct Ha as (Ha & _), Hb as (Hb & _). by rewrite compare_key_seq_encode.
Qed.

(** The lookup key stands where a version of sequence number [s] would. *)
Definition seek_version (u : bytes) (s : Z) : version := mkVersion s kValueTypeForSeek u [].

Lemma key_comparator_lookup v u s : version_ok v -> 0 <= s <= kMaxSequenceNumber -> zlen u + 8 < 2 ^ 32 ->
  KeyComparator user_Compare (entry_of v) (LookupKey_memtable_key u s) = version_cmp v (seek_version u s).
Proof.
  intros Hv Hs Hu. unfold KeyComparator. rewrite entry_key_of by done.
  assert (E : entry_key (LookupKey_memtable_key u s) = encode (v_parsed (seek_version u s))).
  { unfold LookupKey_memtable_key, entry_key, entry_split. pose proof (zlen_nonneg u).
    destruct (varint_within_5 (u32 (zlen u + 8)) (LookupKey_internal_key u s)) as (rest5 & -> & ->); [rewrite u32_small; lia|].
    rewrite u32_small by lia. rewrite lookup_key_encode. cbn [fst].
    replace (Z.to_nat (zlen u + 8)) with (length (encode (mkParsed u s kValueTypeForSeek))); [apply firstn_all|].
    pose proof (zlen_encode (mkParsed u s kValueTypeForSeek)) as El. unfold InternalKeyEncodingLength in El. cbn [pk_user_key] in El.
    unfold zlen in *. lia. }
  rewrite E. destruct Hv as (Hp & _). by rewrite compare_key_seq_encode by (done || by apply seek_key_ok).
Qed.

(** ** The invariant of a memtable *)

(** Its table of points holds the versions [vs], none newer than [last]. *)
Record table_inv (m : MemTable T) (vs : list version) (last : Z) : Prop := {
  mi_table : rv_inv entries (table_ m);
  mi_entries : entries (table_ m) = entry_of <$> vs;
  mi_ok : Forall version_ok vs;
  mi_sorted : StronglySorted vlt vs;
  mi_last : Forall (fun v => v_seq v <= last) vs;
  mi_first : 0 <= first_seqno_ m <= last;
  mi_empty : first_seqno_ m = 0 -> vs = [];
  mi_earliest : earliest_seqno_ m = kMaxSequenceNumber \/ earliest_seqno_ m <= last + 1
}.

(** And there are no range tombstones. *)
Record mem_inv (m : MemTable T) (vs : list version) (last : Z) : Prop := {
  mi_inv :> table_inv m vs last;
  mi_range : is_range_del_table_empty_ m = true
}.

Definition insert_version (v : version) (vs : list version) : list version :=
  filter (fun a => vlt a v) vs ++ v :: filter (fun a => ~ vlt a v) vs.

Lemma filter_entries (P : bytes -> Prop) (Q : version -> Prop)
    `{!forall e, Decision (P e)} `{!forall v, Decision (Q v)} (vs : list version) :
  (forall v, v ∈ vs -> P (entry_of v) <-> Q v) -> filter P (entry_of <$> vs) = entry_of <$> filter Q vs.
Proof.
  induction vs as [|v vs IH]; intros HPQ; [done|]. cbn [fmap list_fmap]. rewrite !filter_cons.
  assert (Hv := HPQ v ltac:(by left)). rewrite IH by (intros; apply HPQ; by right).
  destruct (decide (P (entry_of v))), (decide (Q v)); try tauto; done.
Qed.

Lemma insert_version_sorted v vs : StronglySorted vlt vs -> Forall (fun a => version_cmp a v <> 0) vs ->
  StronglySorted vlt (insert_version v vs).
Proof.
  intros Hs Hne. unfold insert_version. apply StronglySorted_app.
  split_and!; [|by apply sorted_filter|constructor; [by apply sorted_filter|]].
  - intros a b Ha Hb. apply list_elem_of_filter in Ha as [Ha _]. apply elem_of_cons in Hb as [->|Hb]; [done|].
    apply list_elem_of_filter in Hb as [Hb Hin]. rewrite Forall_forall in Hne.
    transitivity v; [done|]. apply vlt_total; [done|by apply Hne].
  - apply Forall_forall. intros b Hb. apply list_elem_of_filter in Hb as [Hb Hin]. rewrite Forall_forall in Hne.
    apply vlt_total; [done|by apply Hne].
Qed.

(** *** Add *)

Lemma rep_insert_versions t vs v : rv_inv entries t -> entries t = entry_of <$> vs -> Forall version_ok vs -> version_ok v ->
  Forall (fun a => version_cmp a v <> 0) vs ->
  exists t', rep_InsertKey t (entry_of v) = Some (true, t') /\ rv_inv entries t' /\ entries t' = entry_of <$> insert_version v vs.
Proof.
  intros Hi Ee Hok Hv Hne. destruct (law_rep_InsertKey user_Compare t (entry_of v) Hi) as (t' & Hi' & Hl). rewrite Forall_forall in Hok, Hne.
  rewrite bool_decide_eq_false_2 in Hl.
  2:{ rewrite Ee, Exists_exists. intros (e & He & Hc). apply list_elem_of_fmap in He as (a & -> & Ha).
      rewrite key_comparator_of in Hc by auto. by apply (Hne a). }
  destruct Hl as [E1 E2]. exists t'. split; [done|]. split; [done|].
  rewrite E2, Ee. unfold insert_version. rewrite fmap_app. cbn.
  assert (Hc : forall a, a ∈ vs -> KeyComparator user_Compare (entry_of a) (entry_of v) < 0 <-> vlt a v).
  { intros a Ha. rewrite key_comparator_of by auto. done. }
  rewrite (filter_entries _ (fun a => vlt a v)) by done.
  rewrite (filter_entries _ (fun a => ~ vlt a v)) by (intros a Ha; by rewrite Hc). done.
Qed.

(** A version newer than all others is added, and no assertion fails. *)
Lemma Add_spec m vs last v : mem_inv m vs last -> version_ok v -> last < v_seq v -> v_type v <> kTypeRangeDeletion ->
  exists m', Add m (v_seq v) (v_type v) (v_key v) (v_value v) = Some (true, m') /\
    mem_inv m' (insert_version v vs) (v_seq v).
Proof.
  intros [[Hi He Hok Hs Hl Hf Hemp Hearly] Hrange] Hv Hlt Hty.
  assert (Hne : Forall (fun a => version_cmp a v <> 0) vs).
  { eapply Forall_impl; [exact Hl|]. cbn. intros a Ha Ec. apply version_cmp_eq in Ec as [_ ?]. lia. }
  destruct (rep_insert_versions (table_ m) vs v Hi He Hok Hv Hne) as (t' & Ei & Hi' & Et).
  unfold Add. assert (Hpack : (v_seq v <=? kMaxSequenceNumber) && IsExtendedValueType (v_type v) = true).
  { destruct Hv as ((Hseq & _ & Htype) & _). cbn in Hseq, Htype. rewrite Htype, andb_true_r. apply Z.leb_le. lia. }
  rewrite Hpack. cbn [negb]. destruct (Z.eqb_spec (v_type v) kTypeRangeDeletion) as [|_]; [done|].
  change (encode_entry _ _ _ _) with (entry_of v). rewrite Ei. cbn [mbind option_bind].
  assert (Hv0 : v_seq v <= kMaxSequenceNumber) by (destruct Hv as ((? & _) & _); cbn in *; lia).
  assert (Hfirst : (first_seqno_ m =? 0) || (first_seqno_ m <=? v_seq v) = true).
  { destruct (Z.eqb_spec (first_seqno_ m) 0); [done|]. apply Z.leb_le. lia. }
  rewrite Hfirst.
  assert (Hchk : (first_seqno_ m =? 0) && ((if first_seqno_ m =? 0 then v_seq v else first_seqno_ m) <?
    (if (first_seqno_ m =? 0) && (earliest_seqno_ m =? kMaxSequenceNumber)
     then if first_seqno_ m =? 0 then v_seq v else first_seqno_ m else earliest_seqno_ m)) = false).
  { destruct (Z.eqb_spec (first_seqno_ m) 0); cbn [andb]; [|done].
    destruct (Z.eqb_spec (earliest_seqno_ m) kMaxSequenceNumber); apply Z.ltb_ge; [lia|]. destruct Hearly; [done|lia]. }
  rewrite Hchk. eexists. split; [done|].
  split; [|done]. split; cbn [table_ first_seqno_ earliest_seqno_]; [done|done| |by apply insert_version_sorted| | | |].
  - unfold insert_version. apply Forall_app. split; [|constructor; [done|]];
      rewrite Forall_forall in *; intros a Ha; apply list_elem_of_filter in Ha as [_ ?]; auto.
  - unfold insert_version. apply Forall_app. split; [|constructor; [done|]];
      rewrite Forall_forall in *; intros a Ha; apply list_elem_of_filter in Ha as [_ ?]; (apply Z.le_trans with last; [by apply Hl|lia]).
  - destruct (Z.eqb_spec (first_seqno_ m) 0); lia.
  - destruct (Z.eqb_spec (first_seqno_ m) 0) as [E0|]; [|done]. intros E. rewrite E in Hlt. lia.
  - destruct (Z.eqb_spec (first_seqno_ m) 0), (Z.eqb_spec (earliest_seqno_ m) kMaxSequenceNumber); cbn [andb]; try lia;
      destruct Hearly; try done; try (by left); right; lia.
Qed.

(** *** Get *)

Definition visible (k : bytes) (snapshot : Z) (v : version) : Prop := v_key v = k /\ v_seq v <= snapshot.

#[global] Instance visible_dec k snapshot v : Decision (visible k snapshot v).
Proof. unfold visible. apply _. Defined.

(** The newest version of [k] that [snapshot] sees. *)
Definition newest (vs : list version) (k : bytes) (snapshot : Z) : option version :=
  head (filter (visible k snapshot) vs).

(** What a read finds in it. *)
Definition version_value (v : version) : option bytes := if v_type v =? kTypeValue then Some (v_value v) else None.

(** The entries from the lookup key on start with the newest visible version, or
    are of larger user keys. *)
Lemma seek_head vs k snapshot : StronglySorted vlt vs ->
  match filter (fun v => ~ vlt v (seek_version k snapshot)) vs with
  | [] => newest vs k snapshot = None
  | v :: _ => newest vs k snapshot = if decide (v_key v = k) then Some v else None
  end.
Proof.
  intros Hs. set (Q := fun v => ~ vlt v (seek_version k snapshot)).
  assert (HQ : forall v, visible k snapshot v -> Q v).
  { intros v [Ek Hsq]. unfold Q. rewrite vlt_spec. cbn. intros [Hc|[_ Hc]]; [|lia].
    rewrite Ek in Hc. pose proof (proj2 (cmp_eq k k) eq_refl). lia. }
  assert (Hvis : forall v, Q v -> v_key v = k -> visible k snapshot v).
  { intros v Hv Ek. split; [done|]. destruct (Z.le_gt_cases (v_seq v) snapshot); [done|]. exfalso. apply Hv.
    apply vlt_spec. right. cbn. split; [done|lia]. }
  assert (Hge : forall v, Q v -> 0 <= user_Compare (v_key v) k).
  { intros v Hv. destruct (Z.lt_ge_cases (user_Compare (v_key v) k) 0); [|done]. exfalso. apply Hv, vlt_spec. by left. }
  assert (Ef : filter (visible k snapshot) vs = filter (visible k snapshot) (filter Q vs)).
  { clear -HQ. induction vs as [|v vs IH]; [done|]. rewrite !filter_cons.
    destruct (decide (visible k snapshot v)) as [Hv|Hv].
    - rewrite decide_True by auto. rewrite filter_cons, decide_True by done. by rewrite IH.
    - destruct (decide (Q v)); [|done]. by rewrite filter_cons, decide_False. }
  unfold newest. rewrite Ef. pose proof (sorted_filter vlt Q vs Hs) as Hsq.
  assert (HQall : Forall Q (filter Q vs)) by (apply Forall_forall; intros v Hv; by apply list_elem_of_filter in Hv as [? _]).
  destruct (filter Q vs) as [|v l]; [done|]. rewrite filter_cons. apply Forall_cons in HQall as [HQv HQl].
  destruct (decide (v_key v = k)) as [Ek|Ek]; [by rewrite decide_True by auto|].
  rewrite decide_False by (intros [? _]; done). rewrite filter_none; [done|].
  intros a Ha [Eka _]. apply StronglySorted_inv in Hsq as [_ Hlt]. rewrite Forall_forall in Hlt.
  specialize (Hlt a Ha). apply vlt_spec in Hlt as [Hc|[Ec _]]; [|congruence].
  rewrite Eka in Hc. specialize (Hge v HQv). lia.
Qed.

(** What a lookup of a plain key-value store finds. *)
Definition plain (l : lookup) : Prop :=
  l_max_covering_tombstone_seq l = 0 /\ l_do_merge l = true /\ l_callback l = None.

Definition get_result (l : lookup) (s0 : Saver) (o : option version) : bool * Saver :=
  match o with
  | Some v =>
      let blob := if l_is_blob_index l then false else sv_is_blob_index s0 in
      if v_type v =? kTypeValue
      then (true, mkSaver OK true false (if l_value l then Some (v_value v) else sv_value s0) (v_seq v) (sv_operands s0) blob)
      else (true, mkSaver NotFound true false (sv_value s0) (v_seq v) (sv_operands s0) (sv_is_blob_index s0))
  | None => (false, mkSaver (sv_status s0) false false (sv_value s0) kMaxSequenceNumber (sv_operands s0) (sv_is_blob_index s0))
  end.

Definition plain_type (t : Z) : Prop := t = kTypeValue \/ t = kTypeDeletion \/ t = kTypeSingleDeletion.

Lemma SaveValue_same l v s : version_ok v -> plain l -> v_key v = l_user_key l -> plain_type (v_type v) ->
  sv_merge_in_progress s = false ->
  SaveValue user_Compare l (entry_of v) s = Some (false, (get_result l s (Some v)).2).
Proof.
  intros Hv (Ht & Hd & Hcb) Ek Hty Hm. unfold SaveValue. rewrite entry_key_of, entry_value_of by done.
  destruct Hv as (Hp & _ & _). destruct (encode_footer _ Hp) as [Eu En]. rewrite Eu, En. cbn [v_parsed pk_user_key pk_sequence pk_type].
  rewrite Ek, (proj2 (cmp_eq _ _) eq_refl).
  assert (Hl : (zlen (encode (v_parsed v)) <? 8) = false).
  { apply Z.ltb_ge. rewrite zlen_encode. unfold InternalKeyEncodingLength. pose proof (zlen_nonneg (pk_user_key (v_parsed v))). lia. }
  rewrite Hl. destruct Hp as (Hs & Htt & _). rewrite unpack_pack by done. cbn [v_parsed pk_sequence pk_type].
  unfold CheckCallback. rewrite Hcb. cbn [negb]. rewrite Ht, Z.gtb_ltb.
  destruct (Z.ltb_spec (v_seq v) 0); [cbn in Hs; lia|]. rewrite andb_false_r.
  unfold get_result. cbn [set_seq sv_merge_in_progress]. unfold save_value. cbn [set_seq sv_merge_in_progress]. rewrite Hm, Hd.
  destruct Hty as [-> |[-> | ->]]; unfold final, set_seq; cbn; rewrite Hm; done.
Qed.

Lemma SaveValue_other l v s : version_ok v -> v_key v <> l_user_key l ->
  SaveValue user_Compare l (entry_of v) s = Some (false, s).
Proof.
  intros Hv Ek. unfold SaveValue. rewrite entry_key_of by done.
  destruct Hv as (Hp & _ & _). destruct (encode_footer _ Hp) as [Eu En]. rewrite Eu. cbn [v_parsed pk_user_key].
  assert (Hl : (zlen (encode (v_parsed v)) <? 8) = false).
  { apply Z.ltb_ge. rewrite zlen_encode. unfold InternalKeyEncodingLength. pose proof (zlen_nonneg (pk_user_key (v_parsed v))). lia. }
  rewrite Hl. destruct (Z.eqb_spec (user_Compare (v_key v) (l_user_key l)) 0) as [E|]; [|done].
  by apply cmp_eq in E.
Qed.

(** Without range tombstones the lookup is as it was asked. *)
Lemma no_tombstones m l snapshot : is_range_del_table_empty_ m = true -> covering_seq user_Compare m l snapshot = Some (l_max_covering_tombstone_seq l).
Proof. intros E. unfold covering_seq, NewRangeTombstoneIterator. by rewrite E, orb_true_r. Qed.

(** The entry of a range tombstone, as [Add] writes it. *)
Definition tombstone_version (t : tombstone) : version := mkVersion (t_seq t) kTypeRangeDeletion (t_start t) (t_end t).

(** With range tombstones the newest one counts that covers the key in the snapshot. *)
Lemma covering_tombstones m l snapshot ts : is_range_del_table_empty_ m = false -> l_ignore_range_deletions l = false ->
  rv_inv entries (range_del_table_ m) -> entries (range_del_table_ m) = entry_of ∘ tombstone_version <$> ts ->
  Forall (tombstone_ok user_Compare) ts -> Forall (version_ok ∘ tombstone_version) ts ->
  covering_seq user_Compare m l snapshot
  = Some (Z.max (l_max_covering_tombstone_seq l) (largest (t_seq <$> filter (fun t => covers user_Compare t (l_user_key l) /\ t_seq t <= snapshot) ts))).
Proof.
  intros Ee Ei Hi Hent Hok Hver. unfold covering_seq, NewRangeTombstoneIterator. rewrite Ee, Ei. cbn [orb]. rewrite (law_rep_SeekToFirst user_Compare), Hent by done. cbn [mbind option_bind].
  assert (Ef : (fun e => (entry_key e, entry_value e)) <$> (entry_of ∘ tombstone_version <$> ts) = tombstone_entry <$> ts).
  { rewrite <- list_fmap_compose. clear -Hver. induction Hver as [|t ts Ht _ IH]; [done|]. rewrite !fmap_cons, IH. f_equal. cbn. by rewrite entry_key_of, entry_value_of. }
  rewrite Ef. destruct (fragmented_lookup user_Compare [] ts Hok) as (frags & -> & Hl). cbn [mbind option_bind]. by rewrite Hl.
Qed.

Lemma set_max_same l seq : seq = l_max_covering_tombstone_seq l -> set_max_covering seq l = l.
Proof. intros ->. by destruct l. Qed.

Lemma Get_newest m vs last l snapshot s0 :
  table_inv m vs last -> covering_seq user_Compare m l snapshot = Some 0 -> plain l -> zlen (l_user_key l) + 8 < 2 ^ 32 -> 0 <= snapshot <= kMaxSequenceNumber ->
  sv_status s0 <> MergeInProgress ->
  (forall v, newest vs (l_user_key l) snapshot = Some v -> plain_type (v_type v)) -> vs <> [] ->
  Get user_Compare m l snapshot s0 = Some (get_result l s0 (newest vs (l_user_key l) snapshot)).
Proof.
  intros [Hi He Hok Hs Hl Hf Hemp _] Hcov Hp Hk Hsn Hst Hty Hne. unfold Get.
  destruct (Z.eqb_spec (first_seqno_ m) 0); [by rewrite Hemp in Hne|]. rewrite Hcov. cbn [mbind option_bind]. rewrite (set_max_same l 0) by (symmetry; apply Hp).
  rewrite bool_decide_eq_false_2 by done. rewrite (law_rep_Seek user_Compare), He by done. cbn [mbind option_bind].
  rewrite Forall_forall in Hok.
  rewrite (filter_entries _ (fun v => ~ vlt v (seek_version (l_user_key l) snapshot))).
  2:{ intros v Hv. rewrite key_comparator_lookup by auto. done. }
  pose proof (seek_head vs (l_user_key l) snapshot Hs) as Hh.
  assert (Hin : forall v, v ∈ filter (fun v => ~ vlt v (seek_version (l_user_key l) snapshot)) vs -> version_ok v).
  { intros v Hv. apply list_elem_of_filter in Hv as [_ ?]. auto. }
  destruct (filter _ vs) as [|v rest]; cbn [fmap list_fmap rep_Get]; [by rewrite Hh|].
  specialize (Hin v ltac:(by left)). rewrite Hh in *. destruct (decide (v_key v = l_user_key l)) as [Ek|Ek].
  - rewrite SaveValue_same by (done || by apply Hty). cbn [mbind option_bind]. unfold get_result.
    destruct (v_type v =? kTypeValue); done.
  - by rewrite SaveValue_other.
Qed.

(** *** Inserting a batch *)

Lemma partition_sorted v vs : StronglySorted vlt vs ->
  filter (fun a => vlt a v) vs ++ filter (fun a => ~ vlt a v) vs = vs.
Proof. intros Hs. symmetry. apply (sorted_partition vlt); [done|]. intros a b _ _ Hab Hb. by transitivity b. Qed.

Lemma newest_insert vs v k s : StronglySorted vlt vs -> Forall (fun a => v_seq a < v_seq v) vs ->
  newest (insert_version v vs) k s = if decide (visible k s v) then Some v else newest vs k s.
Proof.
  intros Hs Hlt. unfold newest, insert_version. rewrite filter_app, filter_cons.
  destruct (decide (visible k s v)) as [[Ek Hv]|Hv].
  - rewrite (filter_none (visible k s)); [done|]. intros a Ha [Eka _]. apply list_elem_of_filter in Ha as [Hav Hin].
    rewrite Forall_forall in Hlt. specialize (Hlt a Hin). apply vlt_spec in Hav as [Hc|[_ Hc]]; [|lia].
    rewrite Eka, Ek in Hc. pose proof (proj2 (cmp_eq k k) eq_refl). lia.
  - by rewrite <- filter_app, partition_sorted.
Qed.

(** The records that a plain store writes, and the versions they become. *)
Definition record_version (seq : Z) (r : record) : option version :=
  match r with
  | RPut 0 k v => Some (mkVersion seq kTypeValue k v)
  | RDelete 0 k => Some (mkVersion seq kTypeDeletion k [])
  | RSingleDelete 0 k => Some (mkVersion seq kTypeSingleDeletion k [])
  | _ => None
  end.

Definition plain_record (r : record) : Prop :=
  exists v, record_version 0 r = Some v /\ zlen (v_key v) + 8 < 2 ^ 32 /\ zlen (v_value v) < 2 ^ 32.

Fixpoint insert_records (vs : list version) (seq : Z) (recs : list record) : list version :=
  match recs with
  | [] => vs
  | r :: recs' =>
      insert_records (match record_version seq r with Some v => insert_version v vs | None => vs end) (seq + 1) recs'
  end.

Lemma record_version_seq seq r v : record_version 0 r = Some v ->
  record_version seq r = Some (mkVersion seq (v_type v) (v_key v) (v_value v)) /\ plain_type (v_type v).
Proof. destruct r; cbn; try done; destruct cf; try done; intros [= <-]; cbn; unfold plain_type; auto. Qed.

Section Insert.
Context (ignore_missing has_db : bool).
Abbreviation handler := (inserter_handler user_Compare false ignore_missing has_db).

Lemma handle_plain_record m vs last seq r st :
  mem_inv m vs last -> last < seq <= kMaxSequenceNumber -> plain_record r ->
  it_h st = Some (mkInserter seq m) -> it_s st = OK ->
  exists m' v, record_version seq r = Some v /\ v_seq v = seq /\ plain_type (v_type v) /\
    mem_inv m' (insert_version v vs) seq /\
    it_s (handle_record handler r st) = OK /\ it_h (handle_record handler r st) = Some (mkInserter (seq + 1) m').
Proof.
  intros Hm Hseq (v0 & Hv0 & Hk & Hval) Hh Hs. destruct (record_version_seq seq r v0 Hv0) as [Hv Hty].
  assert (Hok : version_ok (mkVersion seq (v_type v0) (v_key v0) (v_value v0))).
  { split; [|done]. split; [pose proof (mi_first _ _ _ Hm); cbn; lia|]. cbn. destruct Hty as [-> |[-> | ->]]; done. }
  assert (Hnr : v_type v0 <> kTypeRangeDeletion) by (destruct Hty as [-> |[-> | ->]]; done).
  destruct (Add_spec m vs last _ Hm Hok ltac:(cbn; lia) Hnr) as (m' & Ea & Hm'). cbn in Ea.
  exists m', (mkVersion seq (v_type v0) (v_key v0) (v_value v0)). split_and!; try done.
  all: assert (Hadv : MaybeAdvanceSeq false false (mkInserter seq m') = mkInserter (seq + 1) m')
    by (unfold MaybeAdvanceSeq; cbn [Bool.eqb sequence_ ins_mem]; rewrite u64_small; [done|];
        pose proof (mi_first _ _ _ Hm); change kMaxSequenceNumber with (2 ^ 56 - 1) in Hseq; lia).
  all: destruct r; cbn in Hv0; try done; destruct cf; try done; injection Hv0 as <-;
    cbn [v_type v_key v_value] in Ea; cbn -[MaybeAdvanceSeq Add]; rewrite Hh;
    cbn -[MaybeAdvanceSeq Add]; unfold DeleteImpl, add_to_memtable; cbn [ins_mem sequence_]; rewrite Ea;
    cbn -[MaybeAdvanceSeq Add]; rewrite ?Hadv; done.
Qed.

Lemma run_plain_records recs m vs last seq st :
  mem_inv m vs last -> last < seq -> seq + zlen recs - 1 <= kMaxSequenceNumber -> Forall plain_record recs ->
  it_h st = Some (mkInserter seq m) -> it_s st = OK ->
  exists m', it_s (run_records handler recs st).1 = OK /\
    it_h (run_records handler recs st).1 = Some (mkInserter (seq + zlen recs) m') /\
    mem_inv m' (insert_records vs seq recs) (match recs with [] => last | _ => seq + zlen recs - 1 end).
Proof.
  revert m vs last seq st. induction recs as [|r recs IH]; intros m vs last seq st Hm Hseq Hb Hp Hh Hs.
  - exists m. cbn [run_records fst]. rewrite Hh. unfold zlen. cbn. rewrite Z.add_0_r. done.
  - apply Forall_cons in Hp as [Hr Hp]. assert (El : zlen (r :: recs) = 1 + zlen recs) by (unfold zlen; cbn [length]; lia).
    pose proof (zlen_nonneg recs). rewrite El in *. cbn [run_records insert_records]. rewrite Hs.
    change (ok OK) with true. cbv iota. change (h_Continue handler (it_h st)) with true. cbv iota.
    destruct (handle_plain_record m vs last seq r st Hm ltac:(lia) Hr Hh Hs) as (m1 & v & Ev & Evs & _ & Hm1 & Es1 & Eh1).
    rewrite Ev. destruct (IH m1 _ seq (seq + 1) _ Hm1 ltac:(lia) ltac:(lia) Hp Eh1 Es1) as (m' & E1 & E2 & Hm').
    exists m'. split_and!; [done|by rewrite E2; do 2 f_equal; lia|].
    destruct recs; [by replace (seq + (1 + zlen []) - 1) with seq by (unfold zlen; cbn; lia)|].
    by replace (seq + (1 + zlen (r0 :: recs)) - 1) with (seq + 1 + zlen (r0 :: recs) - 1) by lia.
Qed.

(** Past the last sequence number an assertion fails. *)
Lemma handle_overflow m seq r st : kMaxSequenceNumber < seq -> plain_record r -> it_h st = Some (mkInserter seq m) ->
  it_s (handle_record handler r st) <> OK /\ it_h (handle_record handler r st) = None.
Proof.
  intros Hseq (v0 & Hv0 & _) Hh.
  assert (Ha : forall t k v, Add m seq t k v = None) by (intros t k v; unfold Add; destruct (Z.leb_spec seq kMaxSequenceNumber); [lia|done]).
  destruct r; cbn in Hv0; try done; destruct cf; try done; cbn -[Add]; rewrite Hh; cbn -[Add];
    unfold DeleteImpl, add_to_memtable; cbn [ins_mem sequence_]; rewrite Ha; done.
Qed.

Lemma run_overflow recs m vs last seq st :
  mem_inv m vs last -> last < seq <= kMaxSequenceNumber + 1 -> kMaxSequenceNumber < seq + zlen recs - 1 -> Forall plain_record recs ->
  it_h st = Some (mkInserter seq m) -> it_s st = OK -> it_h (run_records handler recs st).1 = None.
Proof.
  revert m vs last seq st. induction recs as [|r recs IH]; intros m vs last seq st Hm Hseq Hb Hp Hh Hs; [unfold zlen in Hb; cbn in Hb; lia|].
  apply Forall_cons in Hp as [Hr Hp]. assert (El : zlen (r :: recs) = 1 + zlen recs) by (unfold zlen; cbn [length]; lia).
  pose proof (zlen_nonneg recs). rewrite El in *. cbn [run_records]. rewrite Hs.
  change (ok OK) with true. cbv iota. change (h_Continue handler (it_h st)) with true. cbv iota.
  destruct (Z.le_gt_cases seq kMaxSequenceNumber) as [Hle|Hgt].
  - destruct (handle_plain_record m vs last seq r st Hm ltac:(lia) Hr Hh Hs) as (m1 & v & Ev & Evs & _ & Hm1 & Es1 & Eh1).
    by apply (IH m1 _ seq (seq + 1) _ Hm1 ltac:(lia) ltac:(lia) Hp Eh1 Es1).
  - destruct (handle_overflow m seq r st Hgt Hr Hh) as [Es Eh].
    destruct recs; cbn [run_records fst]; [done|]. unfold ok. by rewrite bool_decide_eq_false_2.
Qed.

Lemma inserter_no_try_again : no_try_again handler.
Proof.
  intros r st Hs.
  assert (Hadd : forall i t k v st' i', add_to_memtable false i t k v = Some (st', i') -> st' <> TryAgain).
  { intros i t k v st' i'. unfold add_to_memtable. destruct (Add _ _ _ _ _) as [[[] m']|]; cbn; [|done..]. by intros [= <- _]. }
  assert (Hcf : forall cf f h, (forall i st' i', f i = Some (st', i') -> st' <> TryAgain) ->
    (in_column_family (T := T) false ignore_missing cf f h).1 <> TryAgain).
  { intros cf f [i|] Hf; [|done]. unfold in_column_family, SeekToColumnFamily. destruct (cf =? 0); cbn.
    - destruct (f i) as [[st' i']|] eqn:E; [|done]. by eapply Hf.
    - by destruct ignore_missing. }
  assert (Hdata : forall b x, x.1 <> TryAgain -> it_s (data_record st b x) <> TryAgain).
  { intros b [s' h'] Hx. unfold data_record. by destruct (ok s'). }
  destruct r; cbn -[data_record in_column_family]; rewrite ?Hs; try done; try (apply Hdata, Hcf; intros i st' i'; try apply Hadd).
  cbv zeta. do 2 (case_match; [by intros [= <- _]|]). apply Hadd.
Qed.

Lemma InsertInto_holds b seq recs m vs last :
  holds b seq recs -> Forall plain_record recs -> mem_inv m vs last -> last < seq ->
  seq + zlen recs - 1 <= kMaxSequenceNumber ->
  exists m', InsertInto user_Compare false ignore_missing has_db b m = Some (OK, m', seq + zlen recs) /\
    mem_inv m' (insert_records vs seq recs) (match recs with [] => last | _ => seq + zlen recs - 1 end).
Proof.
  intros Hh Hp Hm Hseq Hb. unfold InsertInto. rewrite (holds_Sequence _ _ _ Hh).
  rewrite (iterate_holds _ _ _ _ _ inserter_no_try_again Hh). cbn [mbind option_bind].
  destruct (run_plain_records recs m vs last seq (mkIter OK true 0 (Some (mkInserter seq m)))) as (m' & E1 & E2 & Hm'); try done.
  rewrite E1, E2. exists m'. done.
Qed.

Lemma InsertInto_overflow b seq recs m vs last :
  holds b seq recs -> Forall plain_record recs -> mem_inv m vs last -> last < seq <= kMaxSequenceNumber + 1 ->
  kMaxSequenceNumber < seq + zlen recs - 1 -> InsertInto user_Compare false ignore_missing has_db b m = None.
Proof.
  intros Hh Hp Hm Hseq Hb. unfold InsertInto. rewrite (holds_Sequence _ _ _ Hh).
  rewrite (iterate_holds _ _ _ _ _ inserter_no_try_again Hh). cbn [mbind option_bind]. by erewrite run_overflow.
Qed.
End Insert.

(** *** The versions of a sequence of records *)

Fixpoint record_versions (seq : Z) (recs : list record) : list version :=
  match recs with
  | [] => []
  | r :: recs' =>
      match record_version seq r with
      | Some v => v :: record_versions (seq + 1) recs'
      | None => record_versions (seq + 1) recs'
      end
  end.

Lemma insert_record_facts vs seq last r : Forall (fun v => v_seq v <= last) vs -> last < seq -> plain_record r ->
  exists v, record_version seq r = Some v /\ v_seq v = seq /\ plain_type (v_type v) /\
    Forall (fun a => v_seq a <= seq) (insert_version v vs) /\ Forall (fun a => v_seq a < v_seq v) vs.
Proof.
  intros Hl Hs (v0 & Hv0 & _). destruct (record_version_seq seq r v0 Hv0) as [-> Hty].
  eexists. split_and!; [done|done|done| |].
  - unfold insert_version. rewrite Forall_forall in Hl. apply Forall_app. split; [|constructor; [cbn; lia|]];
      apply Forall_forall; intros a Ha; apply list_elem_of_filter in Ha as [_ Ha]; specialize (Hl a Ha); lia.
  - eapply Forall_impl; [exact Hl|]. cbn. intros a Ha. lia.
Qed.

Lemma insert_records_nonempty recs vs seq : Forall plain_record recs -> vs <> [] \/ recs <> [] ->
  insert_records vs seq recs <> [].
Proof.
  intros Hp. revert vs seq. induction Hp as [|r recs (v0 & Hv0 & _) _ IH]; intros vs seq Hne.
  - by destruct Hne.
  - cbn [insert_records]. destruct (record_version_seq seq r v0 Hv0) as [-> _]. apply IH. left.
    unfold insert_version. by destruct (filter _ vs).
Qed.

Lemma newest_insert_records recs vs last seq k s : StronglySorted vlt vs -> Forall (fun v => v_seq v <= last) vs ->
  last < seq -> Forall plain_record recs ->
  newest (insert_records vs seq recs) k s
  = match list.last (filter (visible k s) (record_versions seq recs)) with Some v => Some v | None => newest vs k s end.
Proof.
  revert vs last seq. induction recs as [|r recs IH]; intros vs last seq Hs Hl Hlt Hp; [done|].
  apply Forall_cons in Hp as [Hr Hp]. destruct (insert_record_facts vs seq last r Hl Hlt Hr) as (v & Ev & Evs & _ & Hl' & Hv).
  cbn [insert_records record_versions]. rewrite Ev.
  assert (Hs' : StronglySorted vlt (insert_version v vs)).
  { apply insert_version_sorted; [done|]. eapply Forall_impl; [exact Hv|]. cbn. intros a Ha Ec.
    apply version_cmp_eq in Ec as [_ ?]. lia. }
  rewrite (IH _ seq) by (done || lia). rewrite filter_cons.
  rewrite newest_insert by done. destruct (decide (visible k s v)); [|done].
  rewrite last_cons. by destruct (list.last _).
Qed.

(** *** A sequence of batches *)

Fixpoint insert_batches (ignore_missing has_db : bool) (m : MemTable T) (bs : list WriteBatch) : option (MemTable T) :=
  match bs with
  | [] => Some m
  | b :: bs' =>
      '(s, m', _) ← InsertInto user_Compare false ignore_missing has_db b m;
      if ok s then insert_batches ignore_missing has_db m' bs' else None
  end.

(** Batches that hold the records [recss], numbered on from [seq]. *)
Inductive batches_hold : Z -> list WriteBatch -> list (list record) -> Prop :=
  | hold_nil seq : batches_hold seq [] []
  | hold_cons seq b bs recs recss :
      holds b seq recs -> Forall plain_record recs -> batches_hold (seq + zlen recs) bs recss ->
      batches_hold seq (b :: bs) (recs :: recss).

Lemma record_versions_app seq r1 r2 :
  record_versions seq (r1 ++ r2) = record_versions seq r1 ++ record_versions (seq + zlen r1) r2.
Proof.
  revert seq. induction r1 as [|r r1 IH]; intros seq; [by unfold zlen; rewrite Z.add_0_r|].
  cbn [app record_versions]. rewrite IH.
  replace (seq + zlen (r :: r1)) with (seq + 1 + zlen r1) by (unfold zlen; cbn [length]; lia).
  by destruct (record_version seq r).
Qed.

Lemma insert_records_app vs seq r1 r2 :
  insert_records vs seq (r1 ++ r2) = insert_records (insert_records vs seq r1) (seq + zlen r1) r2.
Proof.
  revert vs seq. induction r1 as [|r r1 IH]; intros vs seq; [by unfold zlen; rewrite Z.add_0_r|].
  cbn [app insert_records]. rewrite IH. f_equal. unfold zlen. cbn [length]. lia.
Qed.

Lemma insert_batches_holds ign db bs recss seq m vs last :
  batches_hold seq bs recss -> mem_inv m vs last -> last < seq -> seq + zlen (concat recss) - 1 <= kMaxSequenceNumber ->
  exists m' last', insert_batches ign db m bs = Some m' /\ mem_inv m' (insert_records vs seq (concat recss)) last' /\
    last' < seq + zlen (concat recss).
Proof.
  intros Hb. revert m vs last. induction Hb as [seq|seq b bs recs recss Hh Hp Hb IH]; intros m vs last Hm Hlt Hmax.
  - exists m, last. cbn. unfold zlen. cbn. split_and!; [done|done|lia].
  - cbn [concat] in *. assert (El : zlen (recs ++ concat recss) = zlen recs + zlen (concat recss))
      by (unfold zlen; rewrite length_app; lia). rewrite El in *.
    pose proof (zlen_nonneg recs). pose proof (zlen_nonneg (concat recss)).
    destruct (InsertInto_holds ign db b seq recs m vs last Hh Hp Hm Hlt ltac:(lia)) as (m1 & E1 & Hm1).
    cbn [insert_batches]. rewrite E1. cbn [mbind option_bind]. change (ok OK) with true. cbv iota.
    destruct (IH m1 _ _ Hm1) as (m' & last' & E' & Hm' & Hl'); [destruct recs; lia|lia|].
    exists m', last'. rewrite insert_records_app. split_and!; [done|done|lia].
Qed.

Lemma record_versions_plain seq recs : Forall plain_record recs ->
  Forall (fun v => plain_type (v_type v)) (record_versions seq recs).
Proof.
  intros Hp. revert seq. induction Hp as [|r recs (v0 & Hv0 & _) _ IH]; intros seq; [constructor|].
  cbn [record_versions]. destruct (record_version_seq seq r v0 Hv0) as [-> Hty]. constructor; [done|apply IH].
Qed.

Lemma insert_records_plain recs vs seq : Forall plain_record recs -> Forall (fun v => plain_type (v_type v)) vs ->
  Forall (fun v => plain_type (v_type v)) (insert_records vs seq recs).
Proof.
  intros Hp. revert vs seq. induction Hp as [|r recs (v0 & Hv0 & _) _ IH]; intros vs seq Hvs; [done|].
  cbn [insert_records]. destruct (record_version_seq seq r v0 Hv0) as [-> Hty]. apply IH.
  rewrite Forall_forall in Hvs. unfold insert_version. apply Forall_app.
  split; [|constructor; [done|]]; apply Forall_forall; intros a Ha; apply list_elem_of_filter in Ha as [_ ?]; auto.
Qed.

Lemma batches_hold_plain seq bs recss : batches_hold seq bs recss -> Forall plain_record (concat recss).
Proof. induction 1; [constructor|]. cbn. by apply Forall_app. Qed.

(** [Get] on a memtable that holds the versions of the records. *)
Lemma Get_record_versions recs latest m last l snapshot s0 : Forall plain_record recs -> recs <> [] ->
  mem_inv m (insert_records [] (latest + 1) recs) last -> plain l -> zlen (l_user_key l) + 8 < 2 ^ 32 ->
  0 <= snapshot <= kMaxSequenceNumber -> sv_status s0 <> MergeInProgress ->
  Get user_Compare m l snapshot s0
  = Some (get_result l s0 (list.last (filter (visible (l_user_key l) snapshot) (record_versions (latest + 1) recs)))).
Proof.
  intros Hpl Hne Hm Hp Hk Hsn Hst. set (vs := insert_records _ _ _) in Hm.
  assert (En : newest vs (l_user_key l) snapshot
    = list.last (filter (visible (l_user_key l) snapshot) (record_versions (latest + 1) recs))).
  { unfold vs. rewrite (newest_insert_records _ _ latest); [|constructor..|lia|done]. by destruct (list.last _). }
  rewrite <- En. eapply Get_newest; [apply Hm| |done..| |].
  - rewrite (no_tombstones _ _ _ (mi_range _ _ _ Hm)). f_equal. apply Hp.
  - intros v Hv. rewrite En in Hv. apply last_Some_elem_of, list_elem_of_filter in Hv as [_ Hv].
    pose proof (record_versions_plain (latest + 1) _ Hpl) as Hty. rewrite Forall_forall in Hty. by apply Hty.
  - apply insert_records_nonempty; auto.
Qed.

Lemma mem_inv_new latest : 0 <= latest -> mem_inv (MemTable_new latest) [] latest.
Proof.
  intros Hl. destruct (law_rep_new user_Compare (entries := entries)) as [Hi He]. split; [|done]. split; cbn; [done|by rewrite He|constructor..| | |]; [lia|done|right; lia].
Qed.
End Correct.

(** ** A reference table: the sorted list of its entries *)

Definition list_rep (user_Compare : bytes -> bytes -> Z) : MemTableRep (list bytes) := {|
  rep_new := [];
  rep_InsertKey := fun t e =>
    if bool_decide (Exists (fun e' => KeyComparator user_Compare e' e = 0) t) then Some (false, t)
    else Some (true, filter (fun e' => KeyComparator user_Compare e' e < 0) t ++
                     e :: filter (fun e' => ~ KeyComparator user_Compare e' e < 0) t);
  rep_Seek := fun t k => Some (filter (fun e => ~ KeyComparator user_Compare e k < 0) t);
  rep_SeekToFirst := Some |}.

Definition list_view : RepView (list bytes) := mkRepView (fun _ => True) (fun t => t).

Lemma list_rep_laws user_Compare : @MemTableRepLaws user_Compare (list bytes) (list_rep user_Compare) list_view.
Proof.
  split; [done| |done|done]. intros t e _. cbn [rep_InsertKey list_rep rv_inv rv_entries list_view].
  destruct (bool_decide _); eexists; split; done.
Qed.

(** ** Theorems *)

(** C14. After any sequence of batches of puts, deletes and single deletes has been
    inserted into a new memtable, [Get] at a snapshot finds the last write of the
    key that the snapshot sees, where the writes are numbered one by one across the
    batches: its value, or NotFound for a delete, with its sequence number; and it
    reports that the memtable does not know the key when there is no such write. *)
Theorem memtable_batches user_Compare `{!TotalCompare user_Compare} {T} `{!MemTableRep T}
    (entries : RepView T) `{!MemTableRepLaws user_Compare entries} ign db latest bs recss l snapshot s0 :
  0 <= latest -> batches_hold (latest + 1) bs recss -> latest + zlen (concat recss) <= kMaxSequenceNumber ->
  concat recss <> [] -> plain l -> zlen (l_user_key l) + 8 < 2 ^ 32 -> 0 <= snapshot <= kMaxSequenceNumber ->
  sv_status s0 <> MergeInProgress ->
  exists m, insert_batches user_Compare ign db (MemTable_new latest) bs = Some m /\
    Get user_Compare m l snapshot s0
    = Some (get_result l s0
        (last (filter (visible (l_user_key l) snapshot) (record_versions (latest + 1) (concat recss))))).
Proof.
  intros Hlat Hb Hmax Hne Hp Hk Hsn Hst. pose proof (mem_inv_new user_Compare entries latest Hlat) as Hm0.
  destruct (insert_batches_holds user_Compare entries ign db bs recss _ _ [] latest Hb Hm0) as (m & last' & Em & Hm & _); [lia..|].
  exists m. split; [done|]. pose proof (batches_hold_plain _ _ _ Hb) as Hpl. by eapply Get_record_versions.
Qed.

Lemma memtable_batches_witness :
  let b1 := SetSequence (WriteBatch_Put (WriteBatch_Put (WriteBatch_new 0 0) 0 [1] [10]).2 0 [2] [20]).2 8 in
  let b2 := SetSequence (WriteBatch_Delete (WriteBatch_new 0 0) 0 [1]).2 10 in
  let s0 := mkSaver OK false false None 0 [] false in
  let l := mkLookup [1] 0 None true None false true false in
  exists m, @insert_batches BytewiseCompare _ (list_rep BytewiseCompare) false false (@MemTable_new _ (list_rep BytewiseCompare) 7) [b1; b2] = Some m /\
    @Get BytewiseCompare _ (list_rep BytewiseCompare) m l 9 s0 = Some (true, mkSaver OK true false (Some [10]) 8 [] false).
Proof.
  intros b1 b2 s0 l.
  apply (@memtable_batches BytewiseCompare _ _ (list_rep BytewiseCompare) list_view (list_rep_laws BytewiseCompare)
    false false 7 [b1; b2] [[RPut 0 [1] [10]; RPut 0 [2] [20]]; [RDelete 0 [1]]] l 9 s0).
  - lia.
  - repeat constructor; try (eexists; split_and!; [reflexivity|reflexivity|reflexivity]); try reflexivity; vm_compute; (reflexivity || discriminate).
  - vm_compute. discriminate.
  - discriminate.
  - repeat split.
  - reflexivity.
  - vm_compute. split; discriminate.
  - discriminate.
Defined.
