(* ===== verification/SkipListRep.v ===== *)
(** * SkipListRep: the skip list as the table of a memtable (memtable/skiplistrep.cc)

    The adapter with its entry points for insertion, its plain iterator and the
    look-ahead iterator. It satisfies the interface that the memtable requires of its
    table, so what is proved of memtables holds of memtables over skip lists. *)

From S2P Require Import Prelude Coding Comparator DbFormat Random WriteBatch MemTable SkipList SkipListCorrect.

(** ** The table *)

(** The default arguments of the constructor of [InlineSkipList]. *)
Definition max_height : nat := 12.
Definition branching_factor : Z := 4.

(** [rnd] is the generator of the thread that inserts. *)
Record SkipListRep := mkSkipListRep { skip_list_ : InlineSkipList; seq_splice_ : Splice; rnd : Z }.

Section Rep.
Context (compare : bytes -> bytes -> Z).

Definition SkipListRep_new (seed : Z) : SkipListRep :=
  mkSkipListRep (InlineSkipList_new max_height) (AllocateSplice max_height) (Random_new seed).

(** [Allocate], the entry copied to the buffer, and [InsertKey]. *)
Definition SkipListRep_InsertKey (t : SkipListRep) (entry : bytes) : option (bool * SkipListRep) :=
  let '(ns, x, rnd') := AllocateKey max_height branching_factor (nodes (skip_list_ t)) entry (rnd t) in
  '(res, sl, s) ← Insert compare max_height (mkSkipList ns (max_height_ (skip_list_ t))) (seq_splice_ t) x;
  Some (res, mkSkipListRep sl s rnd').

(** The other entry points: concurrent insertion by one thread, and insertion with a
    hint, whose splice the caller keeps. *)
Definition SkipListRep_InsertKeyConcurrently (t : SkipListRep) (entry : bytes) : option (bool * SkipListRep) :=
  let '(ns, x, rnd') := AllocateKey max_height branching_factor (nodes (skip_list_ t)) entry (rnd t) in
  '(res, sl) ← InsertConcurrently compare max_height (mkSkipList ns (max_height_ (skip_list_ t))) x;
  Some (res, mkSkipListRep sl (seq_splice_ t) rnd').

Definition SkipListRep_InsertKeyWithHint (UseCAS : bool) (t : SkipListRep) (entry : bytes) (hint : option Splice)
  : option (bool * SkipListRep * option Splice) :=
  let '(ns, x, rnd') := AllocateKey max_height branching_factor (nodes (skip_list_ t)) entry (rnd t) in
  '(res, sl, hint) ← InsertWithHint compare max_height UseCAS (mkSkipList ns (max_height_ (skip_list_ t))) x hint;
  Some (res, mkSkipListRep sl (seq_splice_ t) rnd', hint).

Definition SkipListRep_Contains (t : SkipListRep) (key : bytes) : option bool := Contains compare (skip_list_ t) key.

(** [ApproximateNumEntries] between two keys, encoded for the list. *)
Definition ApproximateNumEntries (t : SkipListRep) (start_key end_key : bytes) : option Z :=
  start_count ← EstimateCount compare branching_factor (skip_list_ t) start_key;
  end_count ← EstimateCount compare branching_factor (skip_list_ t) end_key;
  Some (if start_count <=? end_count then end_count - start_count else 0).

(** The entries that [Get] offers to its callback, from the key on. *)
Definition SkipListRep_Seek (t : SkipListRep) (key : bytes) : option (list bytes) :=
  node ← iter_Seek compare (skip_list_ t) key;
  scan_forward (length (nodes (skip_list_ t)) + 1) (skip_list_ t) node.

(** All entries, from [SeekToFirst] on. *)
Definition SkipListRep_SeekToFirst (t : SkipListRep) : option (list bytes) :=
  node ← iter_SeekToFirst (skip_list_ t);
  scan_forward (length (nodes (skip_list_ t)) + 1) (skip_list_ t) node.

Definition skip_list_rep (seed : Z) : MemTableRep SkipListRep := {|
  rep_new := SkipListRep_new seed;
  rep_InsertKey := SkipListRep_InsertKey;
  rep_Seek := SkipListRep_Seek;
  rep_SeekToFirst := SkipListRep_SeekToFirst |}.

(** *** The look-ahead iterator *)

Record LookaheadIterator := mkLookahead { la_iter_ : option nat; la_prev_ : option nat }.

Context (transform_ : option (bytes -> bytes)) (lookahead_ : nat).

(** [MemTableRep::UserKey]. *)
Definition UserKey (key : bytes) : bytes :=
  let slice := entry_key key in take (length slice - 8) slice.

(** Whether [Next] takes [prev_] along. *)
Definition advance_prev (sl : InlineSkipList) (it : LookaheadIterator) : option bool :=
  if iter_Valid (la_prev_ it) then
    kp ← iter_key sl (la_prev_ it); ki ← iter_key sl (la_iter_ it);
    if slice_compare (UserKey kp) (UserKey ki) =? 0 then Some false
    else match transform_ with
         | Some transform => Some (slice_compare (transform (UserKey kp)) (transform (UserKey ki)) =? 0)
         | None => Some true
         end
  else Some true.

Definition lookahead_Next (sl : InlineSkipList) (it : LookaheadIterator) : option LookaheadIterator :=
  _ ← assert (Some (iter_Valid (la_iter_ it)));
  adv ← advance_prev sl it;
  let prev := if adv : bool then la_iter_ it else la_prev_ it in
  node ← iter_Next sl (la_iter_ it);
  Some (mkLookahead node prev).

Definition lookahead_Prev (sl : InlineSkipList) (it : LookaheadIterator) : option LookaheadIterator :=
  _ ← assert (Some (iter_Valid (la_iter_ it)));
  node ← iter_Prev compare sl (la_iter_ it);
  Some (mkLookahead node node).

(** The linear search: the iterator, and whether it has arrived. *)
Fixpoint lookahead_loop (todo : nat) (sl : InlineSkipList) (key : bytes) (it : LookaheadIterator)
  : option (bool * LookaheadIterator) :=
  match todo with
  | O => Some (false, it)
  | S todo' =>
      if iter_Valid (la_iter_ it) then
        k ← iter_key sl (la_iter_ it);
        if compare key k <=? 0 then Some (true, it)
        else it' ← lookahead_Next sl it; lookahead_loop todo' sl key it'
      else Some (false, it)
  end.

Definition lookahead_Seek (sl : InlineSkipList) (encoded_key : bytes) (it : LookaheadIterator) : option LookaheadIterator :=
  near ← if iter_Valid (la_prev_ it) then kp ← iter_key sl (la_prev_ it); Some (0 <=? compare encoded_key kp) else Some false;
  '(arrived, it) ← if near : bool then lookahead_loop (lookahead_ + 1) sl encoded_key (mkLookahead (la_prev_ it) (la_prev_ it))
                   else Some (false, it);
  if arrived : bool then Some it
  else node ← iter_Seek compare sl encoded_key; Some (mkLookahead node node).

Definition lookahead_SeekForPrev (sl : InlineSkipList) (encoded_key : bytes) : option LookaheadIterator :=
  node ← iter_SeekForPrev compare sl encoded_key; Some (mkLookahead node node).

Definition lookahead_SeekToFirst (sl : InlineSkipList) : option LookaheadIterator :=
  node ← iter_SeekToFirst sl; Some (mkLookahead node node).

Definition lookahead_SeekToLast (sl : InlineSkipList) : option LookaheadIterator :=
  node ← iter_SeekToLast sl; Some (mkLookahead node node).
End Rep.

(** ** The comparator of memtables is a preorder *)

#[export] Instance key_comparator_preorder user_Compare `{!TotalCompare user_Compare} : PreorderCompare (KeyComparator user_Compare).
Proof.
  assert (Hlt : forall a b, InternalKey_CompareKeySeq user_Compare a b < 0 <->
    user_Compare (ExtractUserKey a) (ExtractUserKey b) < 0 \/
    (ExtractUserKey a = ExtractUserKey b /\ Z.shiftr (DecodeFixed64 (footer_ptr b)) 8 < Z.shiftr (DecodeFixed64 (footer_ptr a)) 8)).
  { intros a b. unfold InternalKey_CompareKeySeq. rewrite Z.gtb_ltb.
    pose proof (cmp_eq (ExtractUserKey a) (ExtractUserKey b)) as He.
    repeat case_bool; intuition lia. }
  assert (Hgt : forall a b, 0 < InternalKey_CompareKeySeq user_Compare a b <->
    0 < user_Compare (ExtractUserKey a) (ExtractUserKey b) \/
    (ExtractUserKey a = ExtractUserKey b /\ Z.shiftr (DecodeFixed64 (footer_ptr a)) 8 < Z.shiftr (DecodeFixed64 (footer_ptr b)) 8)).
  { intros a b. unfold InternalKey_CompareKeySeq. rewrite Z.gtb_ltb.
    pose proof (cmp_eq (ExtractUserKey a) (ExtractUserKey b)) as He.
    repeat case_bool; intuition lia. }
  split; unfold KeyComparator; intros a b.
  - rewrite Hlt, Hgt, cmp_flip. intuition congruence.
  - intros c. rewrite !Z.le_ngt, !Hgt, <- !cmp_flip.
    generalize (Z.shiftr (DecodeFixed64 (footer_ptr (entry_key a))) 8), (Z.shiftr (DecodeFixed64 (footer_ptr (entry_key b))) 8),
      (Z.shiftr (DecodeFixed64 (footer_ptr (entry_key c))) 8). intros na nb nc.
    generalize (ExtractUserKey (entry_key a)), (ExtractUserKey (entry_key b)), (ExtractUserKey (entry_key c)).
    clear Hlt Hgt a b c.
    intros ua ub uc Hab Hbc Hca.
    assert (Hirr : forall u, ~ user_Compare u u < 0) by (intros u; rewrite (proj2 (cmp_eq u u)) by done; lia).
    assert (Hle : forall u v, ~ user_Compare v u < 0 -> user_Compare u v < 0 \/ u = v).
    { intros u v Hn. destruct (Z.lt_trichotomy (user_Compare v u) 0) as [|[E|Hg]]; [done| |].
      - right. symmetry. by apply cmp_eq.
      - left. by apply cmp_flip. }
    destruct (Hle ua ub) as [Hab'|<-]; [tauto| |].
    + destruct (Hle ub uc) as [Hbc'|<-]; [tauto| |].
      * pose proof (cmp_trans _ _ _ Hab' Hbc') as Hac. destruct Hca as [Hca|[<- _]]; [|by apply (Hirr ua)].
        apply (Hirr ua). by eapply cmp_trans.
      * destruct Hca as [Hca|[<- _]]; [|by apply (Hirr ua)]. apply (Hirr ua). by eapply cmp_trans.
    + destruct (Hle ua uc) as [Hbc'|<-]; [tauto| |].
      * destruct Hca as [Hca|[<- _]]; [|by apply (Hirr ua)]. apply (Hirr ua). by eapply cmp_trans.
      * destruct Hca as [Hca|[_ Hca]]; [by apply (Hirr ua)|].
        assert (~ na < nb) by tauto. assert (~ nb < nc) by tauto. lia.
Qed.

(** ** The table satisfies the interface *)

Section Laws.
Context (compare : bytes -> bytes -> Z) `{!PreorderCompare compare}.

Definition rep_inv (t : SkipListRep) (F : list nat) : Prop :=
  list_inv compare max_height (skip_list_ t) F /\
  splice_inv compare max_height (nodes (skip_list_ t)) (max_height_ (skip_list_ t)) F (seq_splice_ t).

(** All entries, as [SeekToFirst] and [Next] visit them. *)
Definition rep_entries (t : SkipListRep) : list bytes :=
  default [] (SkipListRep_SeekToFirst t).

Definition skip_list_view : RepView SkipListRep := mkRepView (fun t => exists F, rep_inv t F) rep_entries.

Lemma scan_suffix sl F F1 G : list_inv compare max_height sl F -> F = F1 ++ G ->
  scan_forward (length (nodes sl) + 1) sl (head G) = Some (nkey (nodes sl) <$> G).
Proof.
  intros Hi E. eapply (scan_forward_ok compare max_height sl F Hi _ F1 G E).
  pose proof (F_length _ _ _ _ _ (li_shape _ _ _ _ Hi)) as Hl. rewrite E, length_app in Hl. lia.
Qed.

Lemma scan_all sl F : list_inv compare max_height sl F ->
  (node ← iter_SeekToFirst sl; scan_forward (length (nodes sl) + 1) sl node) = Some (keys sl F).
Proof.
  intros Hi. rewrite (iter_SeekToFirst_ok _ _ _ _ Hi). cbn [mbind option_bind].
  apply (scan_suffix sl F [head_]); [done|]. exact (F_cons _ _ _ _ Hi).
Qed.

Lemma rep_entries_ok t F : rep_inv t F -> rep_entries t = keys (skip_list_ t) F.
Proof. intros [Hi _]. unfold rep_entries, SkipListRep_SeekToFirst. by rewrite (scan_all _ F). Qed.

Lemma keys_after sl F k : list_inv compare max_height sl F ->
  nkey (nodes sl) <$> filter (fun p => ~ below compare (nodes sl) k p) F = filter (fun k' => ~ compare k' k < 0) (keys sl F).
Proof.
  intros Hi. pose proof (tail_F _ _ _ _ _ (li_shape _ _ _ _ Hi)) as Ht. unfold keys. rewrite (F_cons _ _ _ _ Hi) at 1.
  rewrite filter_cons_False by (intros Hn; apply Hn; by left). apply keys_filter. intros p Hp. by apply Ht.
Qed.

Lemma SkipListRep_Seek_ok t F k : rep_inv t F ->
  SkipListRep_Seek compare t k = Some (filter (fun e => ~ compare e k < 0) (keys (skip_list_ t) F)).
Proof.
  intros [Hi _]. unfold SkipListRep_Seek, iter_Seek. rewrite (FindGreaterOrEqual_ok _ _ _ _ Hi). cbn [mbind option_bind].
  rewrite (scan_suffix _ F (filter (below compare (nodes (skip_list_ t)) k) F)); [by rewrite keys_after|done|].
  exact (shape_split _ _ _ _ _ (li_shape _ _ _ _ Hi) k).
Qed.

Lemma SkipListRep_InsertKey_ok t F k : rep_inv t F ->
  exists t' F', SkipListRep_InsertKey compare t k = Some ((sorted_insert compare (keys (skip_list_ t) F) k).1, t') /\
    rep_inv t' F' /\ keys (skip_list_ t') F' = (sorted_insert compare (keys (skip_list_ t) F) k).2.
Proof.
  intros [Hi Hs]. unfold SkipListRep_InsertKey.
  pose proof (allocate_insert_ok compare max_height branching_factor false _ F _ false k (rnd t) Hi Hs ltac:(unfold max_height; lia)) as H.
  destruct (AllocateKey _ _ _ _ _) as [[ns x] rnd']. destruct H as (sl' & s' & F' & E & Hi' & Hs' & Hk & _).
  unfold Insert. rewrite E. cbn [mbind option_bind]. eexists _, F'. split; [done|]. by split.
Qed.

Lemma new_rep_inv seed : rep_inv (SkipListRep_new seed) [head_].
Proof. split; [apply new_list_inv; unfold max_height; lia|apply AllocateSplice_inv]. Qed.
End Laws.

Lemma skip_list_laws user_Compare `{!TotalCompare user_Compare} seed :
  @MemTableRepLaws user_Compare SkipListRep (skip_list_rep (KeyComparator user_Compare) seed) (skip_list_view (KeyComparator user_Compare)).
Proof.
  set (compare := KeyComparator user_Compare). split; cbn [rep_new rep_InsertKey rep_Seek rep_SeekToFirst skip_list_rep rv_inv rv_entries skip_list_view].
  - split; [exists [head_]; apply new_rep_inv|]. by rewrite (rep_entries_ok compare _ [head_]) by apply new_rep_inv.
  - intros t e [F Hi]. rewrite (rep_entries_ok compare t F) by done.
    destruct (SkipListRep_InsertKey_ok compare t F e Hi) as (t' & F' & E & Hi' & Hk). exists t'. split; [by exists F'|].
    rewrite E, (rep_entries_ok compare t' F'), Hk by done. unfold sorted_insert. by destruct (bool_decide _).
  - intros t k [F Hi]. by rewrite (SkipListRep_Seek_ok compare t F), (rep_entries_ok compare t F) by done.
  - intros t [F Hi]. rewrite (rep_entries_ok compare t F) by done. destruct Hi as [Hi _]. by apply (scan_all compare).
Qed.

(** ** Histories of insertions *)

(** The ways to insert a key; hints are named by their address. *)
Inductive entry_point := Sequential | Concurrent | Hinted (UseCAS : bool) (hint : nat).

Record tables := mkTables { tb_rep : SkipListRep; tb_hints : gmap nat Splice }.

Section History.
Context (compare : bytes -> bytes -> Z) `{!PreorderCompare compare}.

Definition insert_by (op : entry_point * bytes) (st : tables) : option (bool * tables) :=
  match op.1 with
  | Sequential => '(res, t) ← SkipListRep_InsertKey compare (tb_rep st) op.2; Some (res, mkTables t (tb_hints st))
  | Concurrent => '(res, t) ← SkipListRep_InsertKeyConcurrently compare (tb_rep st) op.2; Some (res, mkTables t (tb_hints st))
  | Hinted UseCAS hint =>
      '(res, t, s) ← SkipListRep_InsertKeyWithHint compare UseCAS (tb_rep st) op.2 (tb_hints st !! hint);
      Some (res, mkTables t (partial_alter (fun _ => s) hint (tb_hints st)))
  end.

Fixpoint run_inserts (ops : list (entry_point * bytes)) (st : tables) : option (list bool * tables) :=
  match ops with
  | [] => Some ([], st)
  | op :: ops' => '(res, st) ← insert_by op st; '(rest, st) ← run_inserts ops' st; Some (res :: rest, st)
  end.

(** The same on a sorted list. *)
Fixpoint sorted_inserts (ks : list bytes) (l : list bytes) : list bool * list bytes :=
  match ks with
  | [] => ([], l)
  | k :: ks' =>
      let '(res, l1) := sorted_insert compare l k in
      let '(rest, l2) := sorted_inserts ks' l1 in (res :: rest, l2)
  end.

Definition tables_inv (st : tables) (F : list nat) : Prop :=
  rep_inv compare (tb_rep st) F /\
  map_Forall (fun _ s => splice_inv compare max_height (nodes (skip_list_ (tb_rep st))) (max_height_ (skip_list_ (tb_rep st))) F s) (tb_hints st).

Lemma insert_by_ok op st F : tables_inv st F ->
  exists st' F', insert_by op st = Some ((sorted_insert compare (keys (skip_list_ (tb_rep st)) F) op.2).1, st') /\
    tables_inv st' F' /\ keys (skip_list_ (tb_rep st')) F' = (sorted_insert compare (keys (skip_list_ (tb_rep st)) F) op.2).2.
Proof.
  destruct st as [t hints], op as [e k]. cbn [tb_rep tb_hints fst snd]. intros [[Hi Hs] Hh].
  assert (Hm : (1 <= max_height)%nat) by (unfold max_height; lia). cbn [tb_rep tb_hints] in *.
  destruct e as [| |UseCAS hint]; cbn [insert_by tb_rep tb_hints fst snd];
    unfold SkipListRep_InsertKey, SkipListRep_InsertKeyConcurrently, SkipListRep_InsertKeyWithHint.
  - pose proof (allocate_insert_ok compare max_height branching_factor false _ F _ false k (rnd t) Hi Hs Hm) as H.
    destruct (AllocateKey _ _ _ _ _) as [[ns x] rnd']. destruct H as (sl' & s' & F' & E & Hi' & Hs' & Hk & Hother).
    unfold Insert. rewrite E. cbn [mbind option_bind]. eexists _, F'. split; [done|]. split; [|done]. split; [by split|].
    intros j s Hj. apply Hother. by apply (Hh j).
  - pose proof (allocate_insert_ok compare max_height branching_factor true _ F stack_splice false k (rnd t) Hi) as H.
    specialize (H ltac:(apply stack_splice_inv; unfold max_height, kMaxPossibleHeight; lia) Hm).
    destruct (AllocateKey _ _ _ _ _) as [[ns x] rnd']. destruct H as (sl' & s' & F' & E & Hi' & Hs' & Hk & Hother).
    unfold InsertConcurrently. rewrite E. cbn [mbind option_bind]. eexists _, F'. split; [done|]. split; [|done].
    split; [split; [done|by apply Hother]|]. intros j s Hj. apply Hother. by apply (Hh j).
  - assert (Hs0 : splice_inv compare max_height (nodes (skip_list_ t)) (max_height_ (skip_list_ t)) F
      (default (AllocateSplice max_height) (hints !! hint))).
    { destruct (hints !! hint) eqn:E; [by apply (Hh hint)|apply AllocateSplice_inv]. }
    pose proof (allocate_insert_ok compare max_height branching_factor UseCAS _ F _ true k (rnd t) Hi Hs0 Hm) as H.
    destruct (AllocateKey _ _ _ _ _) as [[ns x] rnd']. destruct H as (sl' & s' & F' & E & Hi' & Hs' & Hk & Hother).
    unfold InsertWithHint. rewrite E. cbn [mbind option_bind]. eexists _, F'. split; [done|]. split; [|done].
    split; [split; [done|by apply Hother]|]. cbn [tb_rep tb_hints]. intros j s Hj. destruct (decide (j = hint)) as [->|Hne].
    + rewrite lookup_partial_alter_eq in Hj. by injection Hj as <-.
    + rewrite lookup_partial_alter_ne in Hj by done. apply Hother. by apply (Hh j).
Qed.

Lemma run_inserts_ok ops st F : tables_inv st F ->
  exists st' F', run_inserts ops st = Some ((sorted_inserts ops.*2 (keys (skip_list_ (tb_rep st)) F)).1, st') /\
    tables_inv st' F' /\ keys (skip_list_ (tb_rep st')) F' = (sorted_inserts ops.*2 (keys (skip_list_ (tb_rep st)) F)).2.
Proof.
  revert st F. induction ops as [|op ops IH]; intros st F Hi; [by exists st, F|]. rewrite fmap_cons. cbn [run_inserts sorted_inserts].
  destruct (insert_by_ok op st F Hi) as (st1 & F1 & -> & Hi1 & Hk1). cbn [mbind option_bind].
  destruct (IH st1 F1 Hi1) as (st' & F' & -> & Hi' & Hk'). cbn [mbind option_bind]. rewrite Hk1 in *.
  destruct (sorted_insert compare _ op.2) as [res l1]. cbn [fst snd] in *. destruct (sorted_inserts ops.*2 l1) as [rest l2].
  exists st', F'. done.
Qed.

Definition tables_new (seed : Z) : tables := mkTables (SkipListRep_new seed) ∅.

Lemma tables_new_inv seed : tables_inv (tables_new seed) [head_].
Proof. split; [apply new_rep_inv|]. apply map_Forall_empty. Qed.

Lemma keys_sorted sl F : list_inv compare max_height sl F -> StronglySorted (fun a b => compare a b < 0) (keys sl F).
Proof.
  intros Hi. pose proof (sh_sorted _ _ _ _ _ (li_shape _ _ _ _ Hi)) as Hs. rewrite (F_cons _ _ _ _ Hi) in Hs. unfold keys.
  pose proof (tail_F _ _ _ _ _ (li_shape _ _ _ _ Hi)) as Ht. revert Hs Ht. generalize (tail F). intros G Hs Ht.
  assert (Hh : forall p, p ∈ G -> p <> head_) by (intros p Hp; by apply Ht in Hp as [_ ?]). clear Ht.
  apply StronglySorted_inv in Hs as [Hs _]. induction Hs as [|p G Hs IH Hp]; [constructor|]. rewrite fmap_cons. constructor.
  - apply IH. intros q Hq. apply Hh. by right.
  - apply Forall_fmap. eapply Forall_impl; [exact Hp|]. intros q [_ [->|Hlt]]; [|done]. exfalso. apply (Hh head_); [by left|done].
Qed.
End History.

(** ** Cursors *)

(** The operations of an iterator over a table. *)
Inductive iter_op := OpSeek (k : bytes) | OpSeekForPrev (k : bytes) | OpSeekToFirst | OpSeekToLast | OpNext | OpPrev.

(** The keys at which an iterator stands after each operation, [None] where it is not
    valid; [None] as a whole when an operation fails. *)
Fixpoint visits {S} (do_op : iter_op -> S -> option S) (at_key : S -> option (option bytes)) (its : list iter_op) (s : S)
  : option (list (option bytes)) :=
  match its with
  | [] => Some []
  | it :: its' => s' ← do_op it s; k ← at_key s'; ks ← visits do_op at_key its' s'; Some (k :: ks)
  end.

Section Cursor.
Context (compare : bytes -> bytes -> Z) `{!PreorderCompare compare}.

(** The specification: a key of a sorted list. *)
Definition cursor_op (l : list bytes) (it : iter_op) (cur : option bytes) : option (option bytes) :=
  match it with
  | OpSeek k => Some (head (filter (fun k' => ~ compare k' k < 0) l))
  | OpSeekForPrev k => Some (last (filter (fun k' => ~ compare k k' < 0) l))
  | OpSeekToFirst => Some (head l)
  | OpSeekToLast => Some (last l)
  | OpNext => k ← cur; Some (head (filter (fun k' => compare k k' < 0) l))
  | OpPrev => k ← cur; Some (last (filter (fun k' => compare k' k < 0) l))
  end.

(** [SkipListRep::Iterator]. *)
Definition plain_op (sl : InlineSkipList) (it : iter_op) (node : option nat) : option (option nat) :=
  match it with
  | OpSeek k => iter_Seek compare sl k
  | OpSeekForPrev k => iter_SeekForPrev compare sl k
  | OpSeekToFirst => iter_SeekToFirst sl
  | OpSeekToLast => iter_SeekToLast sl
  | OpNext => iter_Next sl node
  | OpPrev => iter_Prev compare sl node
  end.

(** [SkipListRep::LookaheadIterator]. *)
Definition lookahead_op transform_ lookahead_ (sl : InlineSkipList) (it : iter_op) (s : LookaheadIterator) : option LookaheadIterator :=
  match it with
  | OpSeek k => lookahead_Seek compare transform_ lookahead_ sl k s
  | OpSeekForPrev k => lookahead_SeekForPrev compare sl k
  | OpSeekToFirst => lookahead_SeekToFirst sl
  | OpSeekToLast => lookahead_SeekToLast sl
  | OpNext => lookahead_Next transform_ sl s
  | OpPrev => lookahead_Prev compare sl s
  end.

Definition node_key (sl : InlineSkipList) (node : option nat) : option (option bytes) :=
  if iter_Valid node then Some <$> iter_key sl node else Some None.

Section Steps.
Context (sl : InlineSkipList) (F : list nat) (Hi : list_inv compare max_height sl F).
Abbreviation ns := (nodes sl).
Let Hsh := li_shape _ _ _ _ Hi.

(** A position of an iterator: null, or a node other than the head. *)
Definition at_node (node : option nat) : Prop := forall p, node = Some p -> p ∈ tail F.

Lemma at_split p : p ∈ tail F -> exists A B, F = (head_ :: A) ++ p :: B /\ tail F = A ++ p :: B /\ p <> head_.
Proof.
  intros Hp. pose proof (proj1 (tail_F _ _ _ _ _ Hsh p) Hp) as [_ Hh]. apply list_elem_of_split in Hp as (A & B & E).
  exists A, B. split_and!; [|done..]. rewrite (F_cons _ _ _ _ Hi), E. done.
Qed.

Lemma node_key_ok node : at_node node -> node_key sl node = Some (nkey ns <$> node).
Proof.
  intros Hn. destruct node as [p|]; [|done]. unfold node_key. change (iter_Valid (Some p)) with true. cbv iota.
  cbn [iter_key mbind option_bind]. rewrite (Key_ok _ _ _ _ _ Hsh); [done|]. by apply (tail_F _ _ _ _ _ Hsh), Hn.
Qed.

Lemma at_filter_head (P : nat -> Prop) `{!forall x, Decision (P x)} (G : list nat) :
  (forall q, q ∈ G -> q ∈ tail F) -> at_node (head (filter P G)).
Proof.
  intros HG p E. apply HG. apply head_Some_elem_of in E. by apply list_elem_of_filter in E as [_ ?].
Qed.

Lemma at_last (G : list nat) : (forall q, q ∈ G -> q ∈ tail F) -> at_node (last G).
Proof. intros HG p E. apply HG. by apply last_Some_elem_of. Qed.

Lemma at_head (G : list nat) : (forall q, q ∈ G -> q ∈ tail F) -> at_node (head G).
Proof. intros HG p E. apply HG. by apply head_Some_elem_of. Qed.

Lemma keys_around p A B : tail F = A ++ p :: B ->
  filter (fun k' => compare (nkey ns p) k' < 0) (keys sl F) = nkey ns <$> B /\
  filter (fun k' => compare k' (nkey ns p) < 0) (keys sl F) = nkey ns <$> A.
Proof.
  intros E. pose proof (keys_sorted compare sl F Hi) as Hs. unfold keys in *. rewrite E, fmap_app, fmap_cons in *.
  assert (Hsp : StronglySorted (fun a b => compare a b < 0) (nkey ns p :: (nkey ns <$> B))) by (by apply StronglySorted_app in Hs as (_ & _ & ?)).
  apply StronglySorted_inv in Hsp as [_ HB]. rewrite Forall_forall in HB.
  assert (HA : forall k, k ∈ nkey ns <$> A -> compare k (nkey ns p) < 0) by (intros k Hk; eapply (sorted_before _ _ _ _ _ Hs Hk); by left).
  assert (Hanti : forall a b, compare a b < 0 -> ~ compare b a < 0) by (intros a b H; pose proof (pre_flip b a); pose proof (pre_flip a b); lia).
  assert (Hpp : ~ compare (nkey ns p) (nkey ns p) < 0) by (rewrite pre_refl by done; lia).
  rewrite !filter_app, !filter_cons_False by done. split.
  - rewrite filter_none, filter_every; [done|done|]. intros k Hk. by apply Hanti, HA.
  - rewrite filter_every, filter_none; [by rewrite app_nil_r| |done]. intros k Hk. by apply Hanti, HB.
Qed.

Lemma seek_at k : at_node (head (filter (fun p => ~ below compare ns k p) F)).
Proof.
  rewrite (F_cons _ _ _ _ Hi). rewrite filter_cons_False by (intros Hn; apply Hn; by left). by apply at_filter_head.
Qed.

Lemma filter_keys_not_above k (G : list nat) :
  filter (fun k' => ~ compare k k' < 0) (nkey ns <$> G) = nkey ns <$> filter (not_above compare sl k) G.
Proof.
  induction G as [|p G IH]; [done|]. rewrite fmap_cons, !filter_cons, IH.
  destruct (decide (~ compare k (nkey ns p) < 0)) as [H|H], (decide (not_above compare sl k p)) as [H'|H']; done.
Qed.

(** An operation of the plain iterator is that of the cursor. *)
Lemma plain_op_ok it node : at_node node ->
  cursor_op (keys sl F) it (fmap (M:=option) (nkey ns) node) = fmap (M:=option) (fmap (M:=option) (nkey ns)) (plain_op sl it node) /\
  (forall node', plain_op sl it node = Some node' -> at_node node').
Proof.
  intros Hn. destruct it as [k|k| | | |]; cbn [cursor_op plain_op].
  - unfold iter_Seek. rewrite (FindGreaterOrEqual_ok _ _ _ _ Hi). split; [|intros ? [= <-]; apply seek_at].
    cbn. rewrite <- (keys_after compare sl F k Hi). by destruct (filter _ F).
  - rewrite (iter_SeekForPrev_ok _ _ _ _ Hi). split.
    + cbn. unfold keys. rewrite filter_keys_not_above, fmap_last. done.
    + intros ? [= <-]. apply at_last. intros q Hq. by apply list_elem_of_filter in Hq as [_ ?].
  - rewrite (iter_SeekToFirst_ok _ _ _ _ Hi). split; [|intros ? [= <-]; by apply at_head]. cbn. unfold keys. by destruct (tail F).
  - rewrite (iter_SeekToLast_ok _ _ _ _ Hi). split; [|intros ? [= <-]; by apply at_last]. cbn. unfold keys. by rewrite fmap_last.
  - destruct node as [p|]; [|done]. destruct (at_split p (Hn p eq_refl)) as (A & B & EF & Et & Hp).
    assert (E : iter_Next sl (Some p) = Some (head B)).
    { cbn [iter_Next mbind option_bind]. assert (HpF : p ∈ F) by (apply (tail_F _ _ _ _ _ Hsh); by apply Hn).
      rewrite (li_linked _ _ _ _ Hi 0 _ p B EF) by (by eapply tall_0). rewrite (filter_tall_0 _ _ _ _ _ Hsh); [done|].
      intros q Hq. rewrite EF. apply elem_of_app. right. by right. }
    rewrite E. cbn. rewrite (proj1 (keys_around p A B Et)). split; [by destruct B|].
    intros ? [= <-]. apply at_head. intros q Hq. rewrite Et. apply elem_of_app. right. by right.
  - destruct node as [p|]; [|done]. destruct (at_split p (Hn p eq_refl)) as (A & B & EF & Et & Hp).
    rewrite (iter_Prev_ok _ _ _ _ Hi _ p B EF Hp). cbn. rewrite (proj2 (keys_around p A B Et)), fmap_last. split; [done|].
    intros ? [= <-]. apply at_last. intros q Hq. rewrite Et. apply elem_of_app. by left.
Qed.
(** Both positions of the look-ahead iterator. *)
Definition at_nodes (s : LookaheadIterator) : Prop := at_node (la_iter_ s) /\ at_node (la_prev_ s).

Lemma iter_key_ok p : p ∈ tail F -> iter_key sl (Some p) = Some (nkey ns p).
Proof. intros Hp. cbn [iter_key mbind option_bind]. apply (Key_ok _ _ _ _ _ Hsh). by apply (tail_F _ _ _ _ _ Hsh). Qed.

Lemma lookahead_Next_ok transform_ s : at_nodes s ->
  la_iter_ <$> lookahead_Next transform_ sl s = iter_Next sl (la_iter_ s) /\
  (forall s', lookahead_Next transform_ sl s = Some s' -> at_nodes s').
Proof.
  destruct s as [[p|] prev]; intros [Hn Hprev]; [|done]. cbn [la_iter_ la_prev_] in *. specialize (Hn p eq_refl) as Hp.
  assert (Hadv : exists b, advance_prev transform_ sl (mkLookahead (Some p) prev) = Some b).
  { unfold advance_prev. cbn [la_iter_ la_prev_]. destruct prev as [q|]; [|by eexists]. change (iter_Valid (Some q)) with true. cbv iota.
    rewrite !iter_key_ok by auto. cbn [mbind option_bind]. destruct (_ =? 0); [by eexists|]. destruct transform_; by eexists. }
  destruct Hadv as [b Hb]. unfold lookahead_Next. cbn [la_iter_ la_prev_]. change (iter_Valid (Some p)) with true.
  cbn [assert mbind option_bind]. rewrite Hb. cbn [mbind option_bind].
  destruct (plain_op_ok OpNext (Some p) Hn) as [_ Hat]. cbn [plain_op] in Hat.
  destruct (iter_Next sl (Some p)) as [node'|]; [|done]. split; [done|]. intros s' [= <-]. split; cbn [la_iter_ la_prev_]; [by apply Hat|].
  by destruct b.
Qed.

Lemma lookahead_loop_ok transform_ k todo F1 G s : F = F1 ++ G -> head_ ∈ F1 -> la_iter_ s = head G -> at_nodes s ->
  (forall q, q ∈ F1 -> below compare ns k q) ->
  exists arrived s', lookahead_loop compare transform_ todo sl k s = Some (arrived, s') /\ at_nodes s' /\
    (arrived = true -> la_iter_ s' = head (filter (fun p => ~ below compare ns k p) F)).
Proof.
  revert F1 G s. induction todo as [|todo IH]; intros F1 G s E Hh Es Hs HF1; [by exists false, s|]. cbn [lookahead_loop].
  destruct G as [|p G]; [rewrite Es; by exists false, s|]. cbn [head] in Es. pose proof (proj1 Hs p Es) as Hp. rewrite Es.
  change (iter_Valid (Some p)) with true. cbv iota. rewrite (iter_key_ok p Hp). cbn [mbind option_bind].
  pose proof (proj1 (tail_F _ _ _ _ _ Hsh p) Hp) as [HpF Hph]. pose proof (pre_flip k (nkey ns p)). pose proof (pre_flip (nkey ns p) k).
  destruct (Z.leb_spec (compare k (nkey ns p)) 0) as [Hle|Hgt].
  - exists true, s. split_and!; [done..|]. intros _. rewrite Es, E, filter_app, filter_none, filter_cons_True; [done| |].
    + intros [|]; [done|lia].
    + intros q Hq Hn. by apply Hn, HF1.
  - destruct (lookahead_Next_ok transform_ s Hs) as [EN Hat]. rewrite Es in EN.
    assert (EB : iter_Next sl (Some p) = Some (head G)).
    { cbn [iter_Next mbind option_bind]. rewrite (li_linked _ _ _ _ Hi 0 F1 p G E) by (by eapply tall_0).
      rewrite (filter_tall_0 _ _ _ _ _ Hsh); [done|]. intros q Hq. rewrite E. apply elem_of_app. right. by right. }
    rewrite EB in EN. destruct (lookahead_Next transform_ sl s) as [s'|]; [|done]. cbn in EN. injection EN as EN. cbn [mbind option_bind].
    apply (IH (F1 ++ [p]) G s'); [by rewrite <- app_assoc|apply elem_of_app; by left|done|by apply Hat|].
    intros q Hq. apply elem_of_app in Hq as [Hq|Hq]; [by apply HF1|]. apply list_elem_of_singleton in Hq as ->. right. lia.
Qed.

Lemma lookahead_Seek_ok transform_ lookahead_ k s : at_nodes s ->
  exists s', lookahead_Seek compare transform_ lookahead_ sl k s = Some s' /\ at_nodes s' /\
    la_iter_ s' = head (filter (fun p => ~ below compare ns k p) F).
Proof.
  intros Hs. assert (Hfar : forall s', exists s'', (if false then Some s' else node ← iter_Seek compare sl k; Some (mkLookahead node node)) = Some s'' /\
    at_nodes s'' /\ la_iter_ s'' = head (filter (fun p => ~ below compare ns k p) F)).
  { intros s'. unfold iter_Seek. rewrite (FindGreaterOrEqual_ok _ _ _ _ Hi). cbn [mbind option_bind]. eexists. split; [done|].
    split; [|done]. split; apply (seek_at). }
  unfold lookahead_Seek. destruct s as [node prev]. cbn [la_prev_]. destruct prev as [p|]; [|apply (Hfar (mkLookahead node None))].
  change (iter_Valid (Some p)) with true. cbv iota. pose proof (proj2 Hs p eq_refl) as Hp. rewrite (iter_key_ok p Hp). cbn [mbind option_bind].
  destruct (Z.leb_spec 0 (compare k (nkey ns p))) as [Hge|Hlt]; [|apply (Hfar (mkLookahead node (Some p)))].
  destruct (at_split p Hp) as (A & B & EF & Et & Hph).
  destruct (lookahead_loop_ok transform_ k (lookahead_ + 1) (head_ :: A) (p :: B) (mkLookahead (Some p) (Some p)) EF) as (arrived & s' & -> & Hs' & Ha).
  - by left.
  - done.
  - by split; intros q [= <-].
  - intros q Hq. rewrite <- (below_prefix _ _ _ _ Hi _ p B EF Hph) in Hq. apply list_elem_of_filter in Hq as [[|Hlt] _]; [by left|]. right.
    apply (pre_lt_le_trans compare _ (nkey ns p)); [done|]. pose proof (pre_flip (nkey ns p) k). pose proof (pre_flip k (nkey ns p)). lia.
  - cbn [mbind option_bind]. destruct arrived; [|apply (Hfar s')]. exists s'. auto.
Qed.

(** An operation of the look-ahead iterator is that of the plain one. *)
Lemma lookahead_op_ok transform_ lookahead_ it s : at_nodes s ->
  la_iter_ <$> lookahead_op transform_ lookahead_ sl it s = plain_op sl it (la_iter_ s) /\
  (forall s', lookahead_op transform_ lookahead_ sl it s = Some s' -> at_nodes s').
Proof.
  intros Hs. pose proof (fun node' => proj2 (plain_op_ok it (la_iter_ s) (proj1 Hs)) node') as Hat.
  destruct it as [k|k| | | |]; cbn [lookahead_op plain_op] in *.
  - destruct (lookahead_Seek_ok transform_ lookahead_ k s Hs) as (s' & -> & Hs' & E). unfold iter_Seek.
    rewrite (FindGreaterOrEqual_ok _ _ _ _ Hi), <- E. split; [done|]. by intros ? [= <-].
  - unfold lookahead_SeekForPrev. destruct (iter_SeekForPrev _ _ _); [|done]. split; [done|]. intros ? [= <-]. split; by apply Hat.
  - unfold lookahead_SeekToFirst. destruct (iter_SeekToFirst _); [|done]. split; [done|]. intros ? [= <-]. split; by apply Hat.
  - unfold lookahead_SeekToLast. destruct (iter_SeekToLast _); [|done]. split; [done|]. intros ? [= <-]. split; by apply Hat.
  - by apply lookahead_Next_ok.
  - unfold lookahead_Prev. destruct (la_iter_ s) as [p|]; [|done]. change (iter_Valid (Some p)) with true. cbn [assert mbind option_bind].
    destruct (iter_Prev compare sl (Some p)); [|done]. split; [done|]. intros ? [= <-]. split; by apply Hat.
Qed.

Lemma plain_visits its node : at_node node ->
  visits (plain_op sl) (node_key sl) its node = visits (cursor_op (keys sl F)) Some its (fmap (M:=option) (nkey ns) node).
Proof.
  revert node. induction its as [|it its IH]; intros node Hn; [done|]. cbn [visits].
  destruct (plain_op_ok it node Hn) as [-> Hat]. destruct (plain_op sl it node) as [node'|]; [|done].
  cbn [fmap option_fmap option_map mbind option_bind]. rewrite (node_key_ok) by auto. cbn [mbind option_bind]. by rewrite IH by auto.
Qed.

Lemma lookahead_visits transform_ lookahead_ its s : at_nodes s ->
  visits (lookahead_op transform_ lookahead_ sl) (fun s => node_key sl (la_iter_ s)) its s = visits (plain_op sl) (node_key sl) its (la_iter_ s).
Proof.
  revert s. induction its as [|it its IH]; intros s Hs; [done|]. cbn [visits].
  destruct (lookahead_op_ok transform_ lookahead_ it s Hs) as [<- Hat]. destruct (lookahead_op _ _ _ _ _) as [s'|]; [|done].
  cbn [fmap option_fmap option_map mbind option_bind]. by rewrite IH by auto.
Qed.
End Steps.
End Cursor.

(** ** Theorems *)

(** C5. A skip list is a sorted set of keys. Whatever keys are inserted, in any order
    and through any of the entry points (sequentially, with the concurrent code, or
    with splices kept as hints, fresh or stale), every insertion returns whether the
    key was new, [Contains] is membership, and iteration visits the keys inserted, in
    order and without repetitions. No assertion fails and every loop ends. *)
Theorem skiplist_inserts compare `{!PreorderCompare compare} seed ops k k_end :
  let l := (sorted_inserts compare ops.*2 []).2 in
  exists st, run_inserts compare ops (tables_new seed) = Some ((sorted_inserts compare ops.*2 []).1, st) /\
    rep_entries (tb_rep st) = l /\ StronglySorted (fun a b => compare a b < 0) l /\
    SkipListRep_Contains compare (tb_rep st) k = Some (bool_decide (Exists (fun k' => compare k' k = 0) l)) /\
    is_Some (ApproximateNumEntries compare (tb_rep st) k k_end).
Proof.
  intros l. destruct (run_inserts_ok compare ops (tables_new seed) [head_] (tables_new_inv compare seed)) as (st & F & E & [Hr _] & Hk).
  change (keys (skip_list_ (tb_rep (tables_new seed))) [head_]) with (@nil bytes) in *. fold l in Hk. pose proof Hr as [Hi _].
  exists st. split; [done|]. rewrite (rep_entries_ok compare _ F), Hk by done. split; [done|]. split; [rewrite <- Hk; by apply keys_sorted|].
  unfold SkipListRep_Contains. rewrite (Contains_ok _ _ _ _ Hi), Hk. split; [done|]. unfold ApproximateNumEntries.
  destruct (EstimateCount_ok _ _ _ _ Hi branching_factor k) as [c ->].
  destruct (EstimateCount_ok _ _ _ _ Hi branching_factor k_end) as [c' ->]. by eexists.
Qed.

(** C20. Iterators over a skip list are cursors of the sorted list. Over any list built
    by insertions, any sequence of [Seek], [SeekForPrev], [SeekToFirst], [SeekToLast],
    [Next] and [Prev] leaves the plain iterator, after every operation, at the key
    where a cursor of the sorted list would stand, and fails exactly when the cursor
    has no key to move from. The look-ahead iterator stands at the same keys, whatever
    its prefix extractor and its number of steps: its linear search from the previous
    position is only a shortcut. *)
Theorem skiplist_iterators compare `{!PreorderCompare compare} seed ops its transform_ lookahead_ :
  let cursor := visits (cursor_op compare (sorted_inserts compare ops.*2 []).2) Some its None in
  exists res st, run_inserts compare ops (tables_new seed) = Some (res, st) /\
    let sl := skip_list_ (tb_rep st) in
    visits (plain_op compare sl) (node_key sl) its None = cursor /\
    visits (lookahead_op compare transform_ lookahead_ sl) (fun s => node_key sl (la_iter_ s)) its (mkLookahead None None) = cursor.
Proof.
  intros cursor. destruct (run_inserts_ok compare ops (tables_new seed) [head_] (tables_new_inv compare seed)) as (st & F & E & [[Hi _] _] & Hk).
  change (keys (skip_list_ (tb_rep (tables_new seed))) [head_]) with (@nil bytes) in *.
  eexists _, st. split; [exact E|]. intros sl.
  assert (Hp : visits (plain_op compare sl) (node_key sl) its None = cursor).
  { unfold cursor. rewrite <- Hk. by apply (plain_visits compare sl F Hi). }
  split; [done|]. rewrite <- Hp. by apply (lookahead_visits compare sl F Hi).
Qed.

Lemma skiplist_inserts_witness :
  let compare := KeyComparator BytewiseCompare in
  let e1 := encode_entry 1 1 [7] [10] in
  let e2 := encode_entry 2 1 [7] [20] in
  let e3 := encode_entry 3 1 [3] [30] in
  exists st, run_inserts compare [(Sequential, e1); (Hinted true 5, e2); (Concurrent, e3); (Hinted false 5, e2)] (tables_new 9)
      = Some ([true; true; true; false], st) /\
    rep_entries (tb_rep st) = [e3; e2; e1] /\ SkipListRep_Contains compare (tb_rep st) e2 = Some true.
Proof.
  intros compare e1 e2 e3.
  destruct (skiplist_inserts compare 9 [(Sequential, e1); (Hinted true 5, e2); (Concurrent, e3); (Hinted false 5, e2)] e2 e3)
    as (st & E & Hl & _ & Hc & _).
  exists st. split_and!; [rewrite E|rewrite Hl|rewrite Hc]; vm_compute; reflexivity.
Defined.

Lemma skiplist_iterators_witness :
  let compare := KeyComparator BytewiseCompare in
  let e1 := encode_entry 1 1 [7] [10] in
  let e2 := encode_entry 2 1 [7] [20] in
  let e3 := encode_entry 3 1 [3] [30] in
  exists res st, run_inserts compare [(Sequential, e1); (Concurrent, e2); (Sequential, e3)] (tables_new 9) = Some (res, st) /\
    let sl := skip_list_ (tb_rep st) in
    visits (lookahead_op compare None 1 sl) (fun s => node_key sl (la_iter_ s)) [OpSeekToFirst; OpNext; OpSeek e1; OpPrev; OpSeek e3] (mkLookahead None None)
      = Some [Some e3; Some e2; Some e1; Some e2; Some e3].
Proof.
  intros compare e1 e2 e3.
  destruct (skiplist_iterators compare 9 [(Sequential, e1); (Concurrent, e2); (Sequential, e3)]
    [OpSeekToFirst; OpNext; OpSeek e1; OpPrev; OpSeek e3] None 1) as (res & st & E & _ & Hv).
  exists res, st. split; [exact E|]. cbv zeta. rewrite Hv. vm_compute. reflexivity.
Defined.
