(* ===== verification/Block.v ===== *)
(** * Data blocks of tables ([table/block_based/])

    [BlockBuilder] writes sorted keys with shared prefixes, an array of restart points
    and optionally a hash index; [Block] and [DataBlockIter] read them. A pointer into
    the block is its offset; a read outside the block, a failed assertion and a
    conversion without defined result are [None]. Statistics of read amplification and
    pinning are left out. *)

From Stdlib Require Import SpecFloat.
From S2P Require Import Prelude Coding Comparator DbFormat WriteBatch Hash.

(** ** Block footer ([data_block_footer.cc]) *)

Inductive DataBlockIndexType := kDataBlockBinarySearch | kDataBlockBinaryAndHash.

#[global] Instance DataBlockIndexType_eq_dec : EqDecision DataBlockIndexType.
Proof. solve_decision. Defined.

Definition kDataBlockIndexTypeBitShift : Z := 31.
Definition kMaxNumRestarts : Z := Z.shiftl 1 kDataBlockIndexTypeBitShift - 1.
Definition kNumRestartsMask : Z := Z.shiftl 1 kDataBlockIndexTypeBitShift - 1.

Definition PackIndexTypeAndNumRestarts (index_type : DataBlockIndexType) (num_restarts : Z) : option Z :=
  if num_restarts >? kMaxNumRestarts then None
  else Some match index_type with
            | kDataBlockBinaryAndHash => Z.lor num_restarts (Z.shiftl 1 kDataBlockIndexTypeBitShift)
            | kDataBlockBinarySearch => num_restarts
            end.

Definition UnPackIndexTypeAndNumRestarts (block_footer : Z) : DataBlockIndexType * Z :=
  (if Z.land block_footer (Z.shiftl 1 kDataBlockIndexTypeBitShift) =? 0 then kDataBlockBinarySearch else kDataBlockBinaryAndHash,
   Z.land block_footer kNumRestartsMask).

(** ** Hash index ([data_block_hash_index.cc])

    A [double] is a binary64 number of the standard library. *)

Definition kNoEntry : Z := 255.
Definition kCollision : Z := 254.
Definition kMaxRestartSupportedByHashIndex : Z := 253.
Definition kMaxBlockSizeSupportedByHashIndex : Z := Z.shiftl 1 16.

Definition double_add : spec_float -> spec_float -> spec_float := SFadd 53 1024.
Definition double_div : spec_float -> spec_float -> spec_float := SFdiv 53 1024.
Definition double_one : spec_float := S754_finite false (2 ^ 52)%positive (-52).
Definition kDefaultUtilRatio : spec_float := S754_finite false (3 * 2 ^ 51)%positive (-53).

(** [static_cast<uint16_t>] of a [double]: defined where the truncated value fits. *)
Definition double_to_u16 (x : spec_float) : option Z :=
  match x with
  | S754_zero _ => Some 0
  | S754_finite s m e =>
      let a := if 0 <=? e then Z.pos m * 2 ^ e else Z.pos m / 2 ^ (- e) in
      if (if s then a =? 0 else a <? 2 ^ 16) then Some a else None
  | _ => None
  end.

Record DataBlockHashIndexBuilder := mkHashBuilder {
  hb_bucket_per_key : spec_float;
  hb_estimated_num_buckets : spec_float;
  hb_valid : bool;
  hb_pairs : list (Z * Z)  (* hash and restart index *)
}.

Definition HashBuilder_new : DataBlockHashIndexBuilder :=
  mkHashBuilder (S754_finite true (2 ^ 52)%positive (-52)) (S754_zero false) false [].

Definition HashBuilder_Initialize (util_ratio : spec_float) (b : DataBlockHashIndexBuilder) : DataBlockHashIndexBuilder :=
  let util_ratio := if SFleb util_ratio (S754_zero false) then kDefaultUtilRatio else util_ratio in
  mkHashBuilder (double_div double_one util_ratio) (hb_estimated_num_buckets b) true (hb_pairs b).

Definition HashBuilder_Valid (b : DataBlockHashIndexBuilder) : bool :=
  hb_valid b && SFltb (S754_zero false) (hb_bucket_per_key b).

Definition HashBuilder_Add (key : bytes) (restart_index : Z) (b : DataBlockHashIndexBuilder) : option DataBlockHashIndexBuilder :=
  if negb (HashBuilder_Valid b) then None
  else if restart_index >? kMaxRestartSupportedByHashIndex
  then Some (mkHashBuilder (hb_bucket_per_key b) (hb_estimated_num_buckets b) false (hb_pairs b))
  else Some (mkHashBuilder (hb_bucket_per_key b) (double_add (hb_estimated_num_buckets b) (hb_bucket_per_key b))
               (hb_valid b) (hb_pairs b ++ [(GetSliceHash key, u8 restart_index)])).

Definition HashBuilder_num_buckets (b : DataBlockHashIndexBuilder) : option Z :=
  n ← double_to_u16 (hb_estimated_num_buckets b);
  Some (Z.lor (if n =? 0 then 1 else n) 1).

(** The loop over the pairs. *)
Fixpoint fill_buckets (num_buckets : Z) (pairs : list (Z * Z)) (buckets : list Z) : list Z :=
  match pairs with
  | [] => buckets
  | (hash_value, restart_index) :: pairs' =>
      let buck_idx := Z.to_nat (u16 (hash_value mod num_buckets)) in
      let buckets :=
        match buckets !! buck_idx with
        | Some b => if b =? kNoEntry then <[buck_idx := restart_index]> buckets
                    else if negb (b =? restart_index) then <[buck_idx := kCollision]> buckets
                    else buckets
        | None => buckets
        end in
      fill_buckets num_buckets pairs' buckets
  end.

Definition HashBuilder_Finish (b : DataBlockHashIndexBuilder) (buffer : bytes) : option bytes :=
  if negb (HashBuilder_Valid b) then None
  else
    num_buckets ← HashBuilder_num_buckets b;
    let buckets := fill_buckets num_buckets (hb_pairs b) (replicate (Z.to_nat num_buckets) kNoEntry) in
    let buffer := PutFixed16 (buffer ++ buckets) num_buckets in
    if zlen buffer <=? kMaxBlockSizeSupportedByHashIndex then Some buffer else None.

Definition HashBuilder_Reset (b : DataBlockHashIndexBuilder) : DataBlockHashIndexBuilder :=
  mkHashBuilder (hb_bucket_per_key b) (S754_zero false) true [].

Definition HashBuilder_EstimateSize (b : DataBlockHashIndexBuilder) : option Z :=
  n ← double_to_u16 (hb_estimated_num_buckets b); Some (2 + Z.lor n 1).

(** [DataBlockHashIndex]: its number of buckets and the offset of the table. *)
Definition HashIndex_Initialize (data : bytes) (size : Z) : option (Z * Z) :=
  if size <? 2 then None
  else
    let num_buckets := DecodeFixed16 (drop (Z.to_nat (size - 2)) data) in
    if (num_buckets >? 0) && (size >? num_buckets) then Some (num_buckets, u16 (size - 2 - num_buckets)) else None.

Definition HashIndex_Lookup (num_buckets : Z) (data : bytes) (map_offset : Z) (key : bytes) : option Z :=
  let idx := u16 (GetSliceHash key mod num_buckets) in
  data !! Z.to_nat (map_offset + idx).

(** ** BlockBuilder ([block_builder.cc]) *)

Record BlockBuilder := mkBlockBuilder {
  bb_block_restart_interval : Z;
  bb_use_delta_encoding : bool;
  bb_use_value_delta_encoding : bool;
  bb_buffer : bytes;
  bb_restarts : list Z;
  bb_estimate : Z;
  bb_counter : Z;
  bb_finished : bool;
  bb_last_key : bytes;
  bb_hash : DataBlockHashIndexBuilder
}.

(** It asserts that the interval is positive. *)
Definition BlockBuilder_new (block_restart_interval : Z) (use_delta_encoding use_value_delta_encoding : bool)
    (index_type : DataBlockIndexType) (data_block_hash_table_util_ratio : spec_float) : option BlockBuilder :=
  let hash := match index_type with
              | kDataBlockBinarySearch => HashBuilder_new
              | kDataBlockBinaryAndHash => HashBuilder_Initialize data_block_hash_table_util_ratio HashBuilder_new
              end in
  if block_restart_interval >=? 1
  then Some (mkBlockBuilder block_restart_interval use_delta_encoding use_value_delta_encoding [] [0] (4 + 4) 0 false [] hash)
  else None.

Definition BlockBuilder_Reset (b : BlockBuilder) : BlockBuilder :=
  mkBlockBuilder (bb_block_restart_interval b) (bb_use_delta_encoding b) (bb_use_value_delta_encoding b)
    [] [0] (4 + 4) 0 false [] (if HashBuilder_Valid (bb_hash b) then HashBuilder_Reset (bb_hash b) else bb_hash b).

(** The buffer and the builder after the swap. *)
Definition BlockBuilder_SwapAndReset (b : BlockBuilder) : bytes * BlockBuilder := (bb_buffer b, BlockBuilder_Reset b).

Definition CurrentSizeEstimate (b : BlockBuilder) : option Z :=
  h ← (if HashBuilder_Valid (bb_hash b) then HashBuilder_EstimateSize (bb_hash b) else Some 0);
  Some (bb_estimate b + h).

Definition EstimateSizeAfterKV (b : BlockBuilder) (key value : bytes) : option Z :=
  estimate ← CurrentSizeEstimate b;
  let restart := bb_counter b >=? bb_block_restart_interval b in
  let full := negb (bb_use_value_delta_encoding b) || restart in
  Some (estimate + zlen key + (if full then zlen value else zlen value / 2) + (if restart then 4 else 0) + 4 +
        VarintLength (zlen key) + (if full then VarintLength (zlen value) else 0)).

Definition BlockBuilder_Add (key value : bytes) (delta_value : option bytes) (b : BlockBuilder) : option BlockBuilder :=
  if bb_finished b || negb (bb_counter b <=? bb_block_restart_interval b) ||
     (bb_use_value_delta_encoding b && negb (bool_decide (is_Some delta_value))) then None
  else
    let restart := bb_counter b >=? bb_block_restart_interval b in
    let restarts := if restart then bb_restarts b ++ [u32 (zlen (bb_buffer b))] else bb_restarts b in
    let estimate := if restart then bb_estimate b + 4 else bb_estimate b in
    let counter := if restart then 0 else bb_counter b in
    let shared := if restart then O
                  else if bb_use_delta_encoding b then difference_offset key (bb_last_key b) else O in
    let last_key := if bb_use_delta_encoding b then key else bb_last_key b in
    let non_shared := zlen key - Z.of_nat shared in
    let buffer :=
      if bb_use_value_delta_encoding b
      then PutVarint32Varint32 (bb_buffer b) (u32 (Z.of_nat shared)) (u32 non_shared)
      else PutVarint32Varint32Varint32 (bb_buffer b) (u32 (Z.of_nat shared)) (u32 non_shared) (u32 (zlen value)) in
    let buffer := buffer ++ drop shared key in
    let buffer := buffer ++ (if negb (shared =? 0)%nat && bb_use_value_delta_encoding b then default [] delta_value else value) in
    hash ← (if HashBuilder_Valid (bb_hash b)
            then HashBuilder_Add (ExtractUserKey key) (zlen restarts - 1) (bb_hash b) else Some (bb_hash b));
    Some (mkBlockBuilder (bb_block_restart_interval b) (bb_use_delta_encoding b) (bb_use_value_delta_encoding b)
            buffer restarts (estimate + (zlen buffer - zlen (bb_buffer b))) (counter + 1) false last_key hash).

Definition put_restarts (restarts : list Z) (buffer : bytes) : bytes := fold_left PutFixed32 restarts buffer.

(** The contents of the block and the builder. *)
Definition BlockBuilder_Finish (b : BlockBuilder) : option (bytes * BlockBuilder) :=
  let buffer := put_restarts (bb_restarts b) (bb_buffer b) in
  let num_restarts := u32 (zlen (bb_restarts b)) in
  size ← CurrentSizeEstimate b;
  '(buffer, index_type) ←
    (if HashBuilder_Valid (bb_hash b) && (size <=? kMaxBlockSizeSupportedByHashIndex)
     then buffer ← HashBuilder_Finish (bb_hash b) buffer; Some (buffer, kDataBlockBinaryAndHash)
     else Some (buffer, kDataBlockBinarySearch));
  block_footer ← PackIndexTypeAndNumRestarts index_type num_restarts;
  let buffer := PutFixed32 buffer block_footer in
  Some (buffer, mkBlockBuilder (bb_block_restart_interval b) (bb_use_delta_encoding b) (bb_use_value_delta_encoding b)
                  buffer (bb_restarts b) (bb_estimate b) (bb_counter b) true (bb_last_key b) (bb_hash b)).

(** ** Block ([block.cc]) *)

(** [bl_num_buckets] is 0 where there is no hash index; a [bl_size] of 0 marks an error. *)
Record Block := mkBlock {
  bl_data : bytes;
  bl_size : Z;
  bl_restart_offset : Z;
  bl_num_restarts : Z;
  bl_num_buckets : Z
}.

Definition NumRestarts (data : bytes) : option Z :=
  let size := zlen data in
  if size <? 8 then None
  else
    let block_footer := DecodeFixed32 (drop (Z.to_nat (size - 4)) data) in
    if size >? kMaxBlockSizeSupportedByHashIndex then Some block_footer
    else Some (UnPackIndexTypeAndNumRestarts block_footer).2.

Definition Block_IndexType (data : bytes) : option DataBlockIndexType :=
  let size := zlen data in
  if size <? 8 then None
  else if size >? kMaxBlockSizeSupportedByHashIndex then Some kDataBlockBinarySearch
  else Some (UnPackIndexTypeAndNumRestarts (DecodeFixed32 (drop (Z.to_nat (size - 4)) data))).1.

Definition Block_new (data : bytes) : option Block :=
  let size := zlen data in
  if size <? 4 then Some (mkBlock data 0 0 0 0)
  else
    num_restarts ← NumRestarts data;
    index_type ← Block_IndexType data;
    match index_type with
    | kDataBlockBinarySearch =>
        let restart_offset := u32 (u32 size - u32 (1 + num_restarts) * 4) in
        Some (mkBlock data (if restart_offset >? size - 4 then 0 else size) restart_offset num_restarts 0)
    | kDataBlockBinaryAndHash =>
        if size <? 6 then Some (mkBlock data 0 0 num_restarts 0)
        else
          '(num_buckets, map_offset) ← HashIndex_Initialize data (u16 (size - 4));
          let restart_offset := u32 (map_offset - num_restarts * 4) in
          Some (mkBlock data (if restart_offset >? map_offset then 0 else size) restart_offset num_restarts num_buckets)
    end.

(** ** Decoding an entry *)

(** The bytes from [p] to [limit]. *)
Definition segment (data : bytes) (p limit : Z) : bytes := take (Z.to_nat (limit - p)) (drop (Z.to_nat p) data).

(** Both decoders up to their last test: the lengths and the bytes behind them. *)
Definition decode_lengths (s : bytes) : option (Z * Z * Z * bytes) :=
  match s with
  | shared :: non_shared :: value_length :: rest =>
      if Z.lor (Z.lor shared non_shared) value_length <? 128 then Some (shared, non_shared, value_length, rest)
      else
        '(shared, s) ← GetVarint32Ptr s;
        '(non_shared, s) ← GetVarint32Ptr s;
        '(value_length, s) ← GetVarint32Ptr s;
        Some (shared, non_shared, value_length, s)
  | _ => None
  end.

(** [Some None] is a null pointer; else the three lengths and the offset of the key. *)
Definition decoder := bytes -> Z -> Z -> option (option (Z * Z * Z * Z)).

Definition DecodeEntry : decoder := fun data p limit =>
  if limit - p <? 3 then None
  else match decode_lengths (segment data p limit) with
       | None => Some None
       | Some (shared, non_shared, value_length, rest) =>
           if u32 (zlen rest) <? u32 (non_shared + value_length) then None
           else Some (Some (shared, non_shared, value_length, limit - zlen rest))
       end.

Definition CheckAndDecodeEntry : decoder := fun data p limit =>
  if limit - p <? 3 then Some None
  else match decode_lengths (segment data p limit) with
       | None => Some None
       | Some (shared, non_shared, value_length, rest) =>
           if u32 (zlen rest) <? u32 (non_shared + value_length) then Some None
           else Some (Some (shared, non_shared, value_length, limit - zlen rest))
       end.

(** ** DataBlockIter ([block.h], [block.cc]) *)

(** A key: in the block, or copied into the buffer of its [IterKey]. *)
Inductive span := InBlock (offset size : Z) | InBuffer (key : bytes).

Definition span_size (k : span) : Z := match k with InBlock _ size => size | InBuffer key => zlen key end.
Definition span_clear (k : span) : span := match k with InBlock offset _ => InBlock offset 0 | InBuffer _ => InBuffer [] end.

Definition read_block (data : bytes) (offset size : Z) : option bytes :=
  if offset + size <=? zlen data then Some (take (Z.to_nat size) (drop (Z.to_nat offset) data)) else None.

Definition read_span (data : bytes) (k : span) : option bytes :=
  match k with InBlock offset size => read_block data offset size | InBuffer key => Some key end.

(** What an iterator knows of its block; [vw_num_buckets] is 0 without a hash index. *)
Record block_view := mkView {
  vw_data : bytes;
  vw_restarts : Z;
  vw_num_restarts : Z;
  vw_global_seqno : Z;
  vw_num_buckets : Z
}.

(** Where it stands; the value is an offset and a size. *)
Record cursor := mkCursor {
  c_restart_index : Z;
  c_current : Z;
  c_raw_key : span;
  c_value : Z * Z;
  c_status : Status
}.

Record CachedPrevEntry := mkCachedPrevEntry {
  pe_offset : Z;
  pe_key_ptr : option Z;   (* where the key is in the block, null for a copied key *)
  pe_key_offset : Z;
  pe_key_size : Z;
  pe_value : Z * Z
}.

Record prev_cache := mkPrevCache {
  pc_keys_buff : bytes;
  pc_entries : list CachedPrevEntry;
  pc_idx : Z
}.

Section Iter.
Context (user_Compare : bytes -> bytes -> Z) (w : block_view).
Abbreviation data := (vw_data w).
Abbreviation restarts := (vw_restarts w).
Abbreviation num_restarts := (vw_num_restarts w).

Definition NextEntryOffset (c : cursor) : Z := u32 ((c_value c).1 + (c_value c).2).

Definition GetRestartPoint (index : Z) : option Z :=
  if index <? num_restarts then Some (DecodeFixed32 (drop (Z.to_nat (restarts + index * 4)) data)) else None.

Definition SeekToRestartPoint (index : Z) (c : cursor) : option cursor :=
  offset ← GetRestartPoint index;
  Some (mkCursor index (c_current c) (span_clear (c_raw_key c)) (offset, 0) (c_status c)).

Definition c_Valid (c : cursor) : bool := c_current c <? restarts.

Definition CorruptionError (c : cursor) : cursor :=
  mkCursor num_restarts restarts (span_clear (c_raw_key c)) (0, 0) Corruption.

Definition CompareCurrentKey (c : cursor) (other : bytes) : option Z :=
  k ← read_span data (c_raw_key c);
  Some (if vw_global_seqno w =? kDisableGlobalSequenceNumber then InternalKey_Compare user_Compare k other
        else InternalKey_CompareGlobal user_Compare k (vw_global_seqno w) other kDisableGlobalSequenceNumber).

(** [while (restart_index_ + 1 < num_restarts_ && GetRestartPoint(...) < current_)]. *)
Fixpoint next_restart (fuel : nat) (restart_index current : Z) : option Z :=
  match fuel with
  | O => None
  | S fuel' =>
      if u32 (restart_index + 1) <? num_restarts then
        point ← GetRestartPoint (u32 (restart_index + 1));
        if point <? current then next_restart fuel' (u32 (restart_index + 1)) current else Some restart_index
      else Some restart_index
  end.

(** The assertions about keys with a global sequence number. *)
Definition global_seqno_ok (k : bytes) : bool :=
  let '(seqno, value_type) := UnPackSequenceAndType (ExtractInternalKeyFooter k) in
  ((value_type =? kTypeValue) || (value_type =? kTypeMerge) || (value_type =? kTypeDeletion) ||
   (value_type =? kTypeRangeDeletion)) && (seqno =? 0).

Definition ParseNextDataKey (decode : decoder) (limit : option Z) (c : cursor) : option (bool * cursor) :=
  let current := NextEntryOffset c in
  let limit := default restarts limit in
  if current >=? limit then Some (false, mkCursor num_restarts restarts (c_raw_key c) (c_value c) (c_status c))
  else
    r ← decode data current limit;
    match r with
    | None => Some (false, CorruptionError c)
    | Some (shared, non_shared, value_length, p) =>
        if span_size (c_raw_key c) <? shared then Some (false, CorruptionError c)
        else
          raw_key ← (if shared =? 0 then Some (InBlock p non_shared)
                     else
                       k ← read_span data (c_raw_key c);
                       d ← read_block data p non_shared;
                       Some (InBuffer (take (Z.to_nat shared) k ++ d)));
          _ ← (if vw_global_seqno w =? kDisableGlobalSequenceNumber then Some tt
               else k ← read_span data raw_key; if global_seqno_ok k then Some tt else None);
          restart_index ← (if shared =? 0 then next_restart (Z.to_nat num_restarts + 1) (c_restart_index c) current
                           else Some (c_restart_index c));
          Some (true, mkCursor restart_index current raw_key (p + non_shared, value_length) (c_status c))
    end.

Definition NextImpl (c : cursor) : option cursor := '(_, c) ← ParseNextDataKey DecodeEntry None c; Some c.
Definition NextOrReportImpl (c : cursor) : option cursor := '(_, c) ← ParseNextDataKey CheckAndDecodeEntry None c; Some c.

(** *** Seeks *)

Fixpoint binary_loop (fuel : nat) (target : bytes) (left right : Z) (skip_linear_scan : bool) (c : cursor)
  : option (option (Z * bool) * cursor) :=
  match fuel with
  | O => None
  | S fuel' =>
      if left =? right
      then Some (Some (if left =? -1 then (0, true) else (u32 left, skip_linear_scan)), c)
      else
        let mid := left + (right - left + 1) / 2 in
        region_offset ← GetRestartPoint (u32 mid);
        r ← DecodeEntry data region_offset restarts;
        match r with
        | None => Some (None, CorruptionError c)
        | Some (shared, non_shared, _, key_ptr) =>
            if negb (shared =? 0) then Some (None, CorruptionError c)
            else
              let c := mkCursor (c_restart_index c) (c_current c) (InBlock key_ptr non_shared) (c_value c) (c_status c) in
              cmp ← CompareCurrentKey c target;
              if cmp <? 0 then binary_loop fuel' target mid right skip_linear_scan c
              else if cmp >? 0 then binary_loop fuel' target left (mid - 1) skip_linear_scan c
              else binary_loop fuel' target mid mid true c
        end
  end.

(** [None] in the result: the search failed; else the index and [skip_linear_scan]. *)
Definition BinarySeek (target : bytes) (c : cursor) : option (option (Z * bool) * cursor) :=
  if restarts =? 0 then Some (None, c)
  else binary_loop (Z.to_nat num_restarts + 1) target (-1) (num_restarts - 1) false c.

Fixpoint linear_scan (fuel : nat) (target : bytes) (max_offset : Z) (c : cursor) : option cursor :=
  match fuel with
  | O => None
  | S fuel' =>
      c ← NextImpl c;
      if negb (c_Valid c) then Some c
      else
        cmp ← CompareCurrentKey c target;
        if c_current c =? max_offset then if cmp >? 0 then Some c else None
        else if cmp >=? 0 then Some c
        else linear_scan fuel' target max_offset c
  end.

Definition FindKeyAfterBinarySeek (target : bytes) (index : Z) (skip_linear_scan : bool) (c : cursor) : option cursor :=
  c ← SeekToRestartPoint index c;
  c ← NextImpl c;
  if skip_linear_scan then Some c
  else
    max_offset ← (if u32 (index + 1) <? num_restarts then GetRestartPoint (u32 (index + 1)) else Some (2 ^ 32 - 1));
    linear_scan (length data + 1) target max_offset c.

Definition SeekImpl (target : bytes) (c : cursor) : option cursor :=
  '(r, c) ← BinarySeek target c;
  match r with
  | None => Some c
  | Some (index, skip_linear_scan) => FindKeyAfterBinarySeek target index skip_linear_scan c
  end.

Definition SeekToFirstImpl (c : cursor) : option cursor := c ← SeekToRestartPoint 0 c; NextImpl c.
Definition SeekToFirstOrReportImpl (c : cursor) : option cursor := c ← SeekToRestartPoint 0 c; NextOrReportImpl c.

Fixpoint skip_to_last (fuel : nat) (c : cursor) : option cursor :=
  match fuel with
  | O => None
  | S fuel' =>
      '(ok, c) ← ParseNextDataKey DecodeEntry None c;
      if ok && (NextEntryOffset c <? restarts) then skip_to_last fuel' c else Some c
  end.

Definition SeekToLastImpl (c : cursor) : option cursor :=
  c ← SeekToRestartPoint (u32 (num_restarts - 1)) c; skip_to_last (length data + 1) c.

(** *** Prev *)

(** The scan backwards to a restart point before [original]; [None] inside: there are no
    more entries. *)
Fixpoint restart_before (fuel : nat) (restart_index original : Z) : option (option Z) :=
  match fuel with
  | O => None
  | S fuel' =>
      point ← GetRestartPoint restart_index;
      if point >=? original then
        if restart_index =? 0 then Some None else restart_before fuel' (restart_index - 1) original
      else Some (Some restart_index)
  end.

Definition cache_entry (c : cursor) (pc : prev_cache) : option prev_cache :=
  match c_raw_key c with
  | InBlock offset size =>
      Some (mkPrevCache (pc_keys_buff pc) (pc_entries pc ++ [mkCachedPrevEntry (c_current c) (Some offset) 0 size (c_value c)]) (pc_idx pc))
  | InBuffer key =>
      Some (mkPrevCache (pc_keys_buff pc ++ key)
              (pc_entries pc ++ [mkCachedPrevEntry (c_current c) None (zlen (pc_keys_buff pc)) (zlen key) (c_value c)]) (pc_idx pc))
  end.

(** [do ... while (NextEntryOffset() < original)]. *)
Fixpoint cache_loop (fuel : nat) (original : Z) (c : cursor) (pc : prev_cache) : option (cursor * prev_cache) :=
  match fuel with
  | O => None
  | S fuel' =>
      '(ok, c) ← ParseNextDataKey DecodeEntry None c;
      if ok : bool then
        pc ← cache_entry c pc;
        if NextEntryOffset c <? original then cache_loop fuel' original c pc else Some (c, pc)
      else Some (c, pc)
  end.

Definition cached_key (pc : prev_cache) (e : CachedPrevEntry) : option span :=
  match pe_key_ptr e with
  | Some offset => Some (InBlock offset (pe_key_size e))
  | None => k ← read_block (pc_keys_buff pc) (pe_key_offset e) (pe_key_size e); Some (InBuffer k)
  end.

(** The cache is cleared and filled again from a restart point. *)
Definition prev_uncached (c : cursor) : option (cursor * prev_cache) :=
  let pc := mkPrevCache [] [] (-1) in
  let original := c_current c in
  r ← restart_before (Z.to_nat num_restarts + 1) (c_restart_index c) original;
  match r with
  | None => Some (mkCursor num_restarts restarts (c_raw_key c) (c_value c) (c_status c), pc)
  | Some restart_index =>
      c ← SeekToRestartPoint restart_index c;
      '(c, pc) ← cache_loop (length data + 1) original c pc;
      Some (c, mkPrevCache (pc_keys_buff pc) (pc_entries pc) (i32 (zlen (pc_entries pc)) - 1))
  end.

Definition PrevImpl (c : cursor) (pc : prev_cache) : option (cursor * prev_cache) :=
  if negb (c_Valid c) || negb ((pc_idx pc =? -1) || (pc_idx pc <? zlen (pc_entries pc))) then None
  else
    cached ← (if pc_idx pc >? 0 then e ← pc_entries pc !! Z.to_nat (pc_idx pc); Some (pe_offset e =? c_current c) else Some false);
    if cached : bool then
      e ← pc_entries pc !! Z.to_nat (pc_idx pc - 1);
      raw_key ← cached_key pc e;
      Some (mkCursor (c_restart_index c) (pe_offset e) raw_key (pe_value e) (c_status c),
            mkPrevCache (pc_keys_buff pc) (pc_entries pc) (pc_idx pc - 1))
    else prev_uncached c.

Fixpoint prev_while_greater (fuel : nat) (target : bytes) (c : cursor) (pc : prev_cache) : option (cursor * prev_cache) :=
  match fuel with
  | O => None
  | S fuel' =>
      if c_Valid c then
        cmp ← CompareCurrentKey c target;
        if cmp >? 0 then '(c, pc) ← PrevImpl c pc; prev_while_greater fuel' target c pc else Some (c, pc)
      else Some (c, pc)
  end.

Definition SeekForPrevImpl (target : bytes) (c : cursor) (pc : prev_cache) : option (cursor * prev_cache) :=
  '(r, c) ← BinarySeek target c;
  match r with
  | None => Some (c, pc)
  | Some (index, skip_linear_scan) =>
      c ← FindKeyAfterBinarySeek target index skip_linear_scan c;
      if negb (c_Valid c) then c ← SeekToLastImpl c; Some (c, pc)
      else prev_while_greater (length data + 1) target c pc
  end.

(** *** Point lookups with the hash index *)

Fixpoint scan_interval (fuel : nat) (target : bytes) (limit : Z) (c : cursor) : option cursor :=
  match fuel with
  | O => None
  | S fuel' =>
      '(ok, c) ← ParseNextDataKey DecodeEntry (Some limit) c;
      if ok : bool then
        cmp ← CompareCurrentKey c target;
        if cmp >=? 0 then Some c else scan_interval fuel' target limit c
      else Some c
  end.

Definition SeekForGetImpl (target : bytes) (c : cursor) : option (bool * cursor) :=
  let target_user_key := ExtractUserKey target in
  let map_offset := u32 (restarts + num_restarts * 4) in
  entry ← HashIndex_Lookup (vw_num_buckets w) data map_offset target_user_key;
  if entry =? kCollision then c ← SeekImpl target c; Some (true, c)
  else
    let restart_index := if entry =? kNoEntry then u8 (num_restarts - 1) else entry in
    if negb (restart_index <? num_restarts) then None
    else
      c ← SeekToRestartPoint restart_index c;
      limit ← (if u32 (c_restart_index c + 1) <? num_restarts then GetRestartPoint (u32 (c_restart_index c + 1)) else Some restarts);
      c ← scan_interval (length data + 1) target limit c;
      if c_current c =? restarts then Some (true, c)
      else
        k ← read_span data (c_raw_key c);
        if negb (user_Compare (ExtractUserKey k) target_user_key =? 0) then Some (false, c)
        else
          let value_type := ExtractValueType k in
          if negb (value_type =? kTypeValue) && negb (value_type =? kTypeDeletion) &&
             negb (value_type =? kTypeSingleDeletion) && negb (value_type =? kTypeBlobIndex)
          then c ← SeekImpl target c; Some (true, c)
          else Some (true, c).

(** [UpdateKey]: the key to show, while the iterator is valid. *)
Definition UpdateKey (c : cursor) (key : span) : option span :=
  if negb (c_Valid c) then Some key
  else if vw_global_seqno w =? kDisableGlobalSequenceNumber then Some (c_raw_key c)
  else
    k ← read_span data (c_raw_key c);
    Some (InBuffer (ExtractUserKey k ++ EncodeFixed64 (PackSequenceAndType (vw_global_seqno w) (ExtractValueType k)))).
End Iter.

(** *** The interface

    [bi_view] is [None] for an iterator without a block: [data_] is null. *)
Record DataBlockIter := mkDataBlockIter {
  bi_view : option block_view;
  bi_cursor : cursor;
  bi_key : span;
  bi_prev : prev_cache
}.

(** [Invalidate] on a new iterator. *)
Definition DataBlockIter_invalid (s : Status) : DataBlockIter :=
  mkDataBlockIter None (mkCursor 0 0 (InBuffer []) (0, 0) s) (InBuffer []) (mkPrevCache [] [] (-1)).

Definition DataBlockIter_Initialize (w : block_view) : DataBlockIter :=
  mkDataBlockIter (Some w) (mkCursor (vw_num_restarts w) (vw_restarts w) (InBuffer []) (0, 0) OK) (InBuffer []) (mkPrevCache [] [] (-1)).

Definition NewDataIterator (b : Block) (global_seqno : Z) : DataBlockIter :=
  if bl_size b <? 8 then DataBlockIter_invalid Corruption
  else if bl_num_restarts b =? 0 then DataBlockIter_invalid OK
  else DataBlockIter_Initialize (mkView (bl_data b) (bl_restart_offset b) (bl_num_restarts b) global_seqno (bl_num_buckets b)).

Section Interface.
Context (user_Compare : bytes -> bytes -> Z).

Definition bi_Valid (i : DataBlockIter) : bool :=
  match bi_view i with Some w => c_Valid w (bi_cursor i) | None => false end.

(** A move of the cursor, then [UpdateKey]; nothing without a block. *)
Definition bi_move (move : block_view -> cursor -> option cursor) (i : DataBlockIter) : option DataBlockIter :=
  match bi_view i with
  | None => Some i
  | Some w => c ← move w (bi_cursor i); k ← UpdateKey w c (bi_key i); Some (mkDataBlockIter (Some w) c k (bi_prev i))
  end.

Definition bi_move_prev (move : block_view -> cursor -> prev_cache -> option (cursor * prev_cache)) (i : DataBlockIter) : option DataBlockIter :=
  match bi_view i with
  | None => Some i
  | Some w => '(c, pc) ← move w (bi_cursor i) (bi_prev i); k ← UpdateKey w c (bi_key i); Some (mkDataBlockIter (Some w) c k pc)
  end.

Definition bi_SeekToFirst : DataBlockIter -> option DataBlockIter := bi_move SeekToFirstImpl.
Definition bi_SeekToLast : DataBlockIter -> option DataBlockIter := bi_move SeekToLastImpl.
Definition bi_Seek (i : DataBlockIter) (target : bytes) : option DataBlockIter := bi_move (fun w => SeekImpl user_Compare w target) i.
Definition bi_SeekForPrev (i : DataBlockIter) (target : bytes) : option DataBlockIter :=
  bi_move_prev (fun w => SeekForPrevImpl user_Compare w target) i.

(** [Next] and [Prev] of an iterator without a block have no defined behaviour. *)
Definition bi_Next (i : DataBlockIter) : option DataBlockIter := if bi_view i then bi_move NextImpl i else None.
Definition bi_Prev (i : DataBlockIter) : option DataBlockIter := if bi_view i then bi_move_prev PrevImpl i else None.
Definition bi_NextOrReport (i : DataBlockIter) : option DataBlockIter := if bi_view i then bi_move NextOrReportImpl i else None.
Definition bi_SeekToFirstOrReport : DataBlockIter -> option DataBlockIter := bi_move SeekToFirstOrReportImpl.

(** Without a block the pointer to the hash index is not initialised. *)
Definition bi_SeekForGet (i : DataBlockIter) (target : bytes) : option (bool * DataBlockIter) :=
  match bi_view i with
  | None => None
  | Some w =>
      if vw_num_buckets w =? 0 then i ← bi_Seek i target; Some (true, i)
      else
        '(res, c) ← SeekForGetImpl user_Compare w target (bi_cursor i);
        k ← UpdateKey w c (bi_key i);
        Some (res, mkDataBlockIter (Some w) c k (bi_prev i))
  end.

Definition bi_show_key (i : DataBlockIter) : option bytes :=
  w ← bi_view i; if c_Valid w (bi_cursor i) then read_span (vw_data w) (bi_key i) else None.

Definition bi_show_value (i : DataBlockIter) : option bytes :=
  w ← bi_view i;
  if c_Valid w (bi_cursor i) then read_block (vw_data w) (c_value (bi_cursor i)).1 (c_value (bi_cursor i)).2 else None.
End Interface.
