(* ===== verification/DbIter.v ===== *)
(** * The iterator of a store (db/db_iter.cc)

    [DBIter] turns an iterator over internal keys into one over the user keys that are
    live at a sequence number. The model is that of a store without timestamps, read
    callback, prefix extractor, iteration bounds, start sequence number and range
    tombstones, of an internal iterator whose values are always prepared, and of a merge
    operator that does not return one of its operands by reference; tracing, statistics
    and pinning are left out. [None] is a failed assertion, or fuel that is out. *)

From S2P Require Import Prelude Coding Comparator DbFormat Iterator WriteBatch MemTable.

(** ** Iterators over internal keys *)

Class InternalIterator (I : Type) := {
  internal_iterator :: Iterator I;
  SeekForPrev : I -> bytes -> option I
}.

(** ** IterKey (db/dbformat.h): a user key or an internal key *)

Record IterKey := mkIterKey { ik_key : bytes; ik_is_user_key : bool }.

Definition IterKey_GetUserKey (k : IterKey) : bytes :=
  if ik_is_user_key k then ik_key k else ExtractUserKey (ik_key k).

Definition IterKey_GetInternalKey (k : IterKey) : option bytes :=
  if ik_is_user_key k then None else Some (ik_key k).

Definition IterKey_SetUserKey (key : bytes) : IterKey := mkIterKey key true.

Definition IterKey_SetInternalKey (user_key : bytes) (s t : Z) : IterKey :=
  mkIterKey (user_key ++ EncodeFixed64 (PackSequenceAndType s t)) false.

(** ** DBIter *)

Inductive iter_direction := Forward | Reverse.

#[global] Instance iter_direction_eq_dec : EqDecision iter_direction.
Proof. solve_decision. Defined.

(** [di_pinned_value] is a slice that may be null; [di_operands] has the newest operand
    first. *)
Record DBIter (I : Type) := mkDBIter {
  di_iter : I;
  di_saved_key : IterKey;
  di_saved_value : bytes;
  di_pinned_value : option bytes;
  di_status : Status;
  di_direction : iter_direction;
  di_valid : bool;
  di_current_entry_is_merged : bool;
  di_is_key_seqnum_zero : bool;
  di_is_blob : bool;
  di_num_internal_keys_skipped : Z;
  di_operands : list bytes
}.
Arguments mkDBIter {I}.
Arguments di_iter {I}.
Arguments di_saved_key {I}.
Arguments di_saved_value {I}.
Arguments di_pinned_value {I}.
Arguments di_status {I}.
Arguments di_direction {I}.
Arguments di_valid {I}.
Arguments di_current_entry_is_merged {I}.
Arguments di_is_key_seqnum_zero {I}.
Arguments di_is_blob {I}.
Arguments di_num_internal_keys_skipped {I}.
Arguments di_operands {I}.

Section Setters.
Context {I : Type}.

Definition set_iter x (d : DBIter I) : DBIter I := mkDBIter x (di_saved_key d) (di_saved_value d) (di_pinned_value d) (di_status d) (di_direction d) (di_valid d)
  (di_current_entry_is_merged d) (di_is_key_seqnum_zero d) (di_is_blob d) (di_num_internal_keys_skipped d) (di_operands d).
Definition set_saved_key x (d : DBIter I) : DBIter I := mkDBIter (di_iter d) x (di_saved_value d) (di_pinned_value d) (di_status d) (di_direction d) (di_valid d)
  (di_current_entry_is_merged d) (di_is_key_seqnum_zero d) (di_is_blob d) (di_num_internal_keys_skipped d) (di_operands d).
Definition set_saved_value x (d : DBIter I) : DBIter I := mkDBIter (di_iter d) (di_saved_key d) x (di_pinned_value d) (di_status d) (di_direction d) (di_valid d)
  (di_current_entry_is_merged d) (di_is_key_seqnum_zero d) (di_is_blob d) (di_num_internal_keys_skipped d) (di_operands d).
Definition set_pinned x (d : DBIter I) : DBIter I := mkDBIter (di_iter d) (di_saved_key d) (di_saved_value d) x (di_status d) (di_direction d) (di_valid d)
  (di_current_entry_is_merged d) (di_is_key_seqnum_zero d) (di_is_blob d) (di_num_internal_keys_skipped d) (di_operands d).
Definition set_status x (d : DBIter I) : DBIter I := mkDBIter (di_iter d) (di_saved_key d) (di_saved_value d) (di_pinned_value d) x (di_direction d) (di_valid d)
  (di_current_entry_is_merged d) (di_is_key_seqnum_zero d) (di_is_blob d) (di_num_internal_keys_skipped d) (di_operands d).
Definition set_direction x (d : DBIter I) : DBIter I := mkDBIter (di_iter d) (di_saved_key d) (di_saved_value d) (di_pinned_value d) (di_status d) x (di_valid d)
  (di_current_entry_is_merged d) (di_is_key_seqnum_zero d) (di_is_blob d) (di_num_internal_keys_skipped d) (di_operands d).
Definition set_valid x (d : DBIter I) : DBIter I := mkDBIter (di_iter d) (di_saved_key d) (di_saved_value d) (di_pinned_value d) (di_status d) (di_direction d) x
  (di_current_entry_is_merged d) (di_is_key_seqnum_zero d) (di_is_blob d) (di_num_internal_keys_skipped d) (di_operands d).
Definition set_merged x (d : DBIter I) : DBIter I := mkDBIter (di_iter d) (di_saved_key d) (di_saved_value d) (di_pinned_value d) (di_status d) (di_direction d) (di_valid d)
  x (di_is_key_seqnum_zero d) (di_is_blob d) (di_num_internal_keys_skipped d) (di_operands d).
Definition set_zero x (d : DBIter I) : DBIter I := mkDBIter (di_iter d) (di_saved_key d) (di_saved_value d) (di_pinned_value d) (di_status d) (di_direction d) (di_valid d)
  (di_current_entry_is_merged d) x (di_is_blob d) (di_num_internal_keys_skipped d) (di_operands d).
Definition set_blob x (d : DBIter I) : DBIter I := mkDBIter (di_iter d) (di_saved_key d) (di_saved_value d) (di_pinned_value d) (di_status d) (di_direction d) (di_valid d)
  (di_current_entry_is_merged d) (di_is_key_seqnum_zero d) x (di_num_internal_keys_skipped d) (di_operands d).
Definition set_skipped x (d : DBIter I) : DBIter I := mkDBIter (di_iter d) (di_saved_key d) (di_saved_value d) (di_pinned_value d) (di_status d) (di_direction d) (di_valid d)
  (di_current_entry_is_merged d) (di_is_key_seqnum_zero d) (di_is_blob d) x (di_operands d).
Definition set_operands x (d : DBIter I) : DBIter I := mkDBIter (di_iter d) (di_saved_key d) (di_saved_value d) (di_pinned_value d) (di_status d) (di_direction d) (di_valid d)
  (di_current_entry_is_merged d) (di_is_key_seqnum_zero d) (di_is_blob d) (di_num_internal_keys_skipped d) x.
End Setters.

(** The options of a read and of the column family. *)
Record DBIterOptions := mkDBIterOptions {
  opt_Compare : bytes -> bytes -> Z;
  opt_merge_operator : option MergeOperator;
  opt_sequence : Z;
  opt_max_skip : Z;
  opt_max_skippable_internal_keys : Z;
  opt_allow_blob : bool
}.

Section DBIter.
Context {I : Type} `{InternalIterator I} (o : DBIterOptions) (fuel : nat).
Implicit Types d : DBIter I.

Definition DBIter_new (iter : I) : DBIter I :=
  mkDBIter iter (mkIterKey [] true) [] (Some []) OK Forward false false false false 0 [].

(** What a function of the code that loops comes to: it returns, or it goes on. *)
Abbreviation outcome := ((bool * DBIter I) + DBIter I)%type.

Definition ParseKey d : option (option ParsedInternalKey * DBIter I) :=
  k ← key (di_iter d);
  Some match ParseInternalKey k with
       | Some ikey => (Some ikey, d)
       | None => (None, set_valid false (set_status Corruption d))
       end.

Definition saved_user_key d : bytes := IterKey_GetUserKey (di_saved_key d).

Definition inner_Next d : option (DBIter I) := i ← Next (di_iter d); Some (set_iter i d).
Definition inner_Prev d : option (DBIter I) := i ← Prev (di_iter d); Some (set_iter i d).
Definition inner_Seek (k : bytes) d : option (DBIter I) := i ← Seek (di_iter d) k; Some (set_iter i d).

Definition TooManyInternalKeysSkipped (increment : bool) d : bool * DBIter I :=
  if (opt_max_skippable_internal_keys o >? 0) &&
     (di_num_internal_keys_skipped d >? opt_max_skippable_internal_keys o)
  then (true, set_status Incomplete (set_valid false d))
  else (false, if increment then set_skipped (u64 (di_num_internal_keys_skipped d + 1)) d else d).

Definition IsVisible (sequence : Z) : bool := sequence <=? opt_sequence o.

(** [merge_context_.PushOperand], for entries from new to old, and [PushOperandBack],
    for entries from old to new; [GetOperands] has the oldest first. *)
Definition PushOperand (v : bytes) d := set_operands (di_operands d ++ [v]) d.
Definition PushOperandBack (v : bytes) d := set_operands (v :: di_operands d) d.
Definition GetOperands d : list bytes := reverse (di_operands d).

(** [TimedFullMerge] into [saved_value_] and [pinned_value_], and the test of its status:
    [true] when the merge succeeded. *)
Definition merge_saved (user_key : bytes) (existing : option bytes) d : option (bool * DBIter I) :=
  op ← opt_merge_operator o;
  '(s, result) ← TimedFullMerge op user_key existing (GetOperands d);
  let d := set_pinned (match GetOperands d with [] => di_pinned_value d | _ => None end) (set_saved_value result d) in
  Some (if decide (s = OK) then (true, d) else (false, set_status s (set_valid false d))).

(** A blob index where the code does not take one. *)
Definition unexpected_blob d : DBIter I := set_valid false (set_status NotSupported d).

(** The loop of [MergeValuesNewToOld]; [inr] when the loop is left. *)
Fixpoint merge_new_to_old (todo : nat) d : option outcome :=
  match todo with
  | O => None
  | S todo' =>
      if negb (Valid (di_iter d)) then Some (inr d)
      else
        '(p, d) ← ParseKey d;
        match p with
        | None => Some (inl (false, d))
        | Some ikey =>
            if negb (opt_Compare o (pk_user_key ikey) (saved_user_key d) =? 0) then Some (inr d)
            else if (pk_type ikey =? kTypeDeletion) || (pk_type ikey =? kTypeSingleDeletion) then
              d ← inner_Next d; Some (inr d)
            else if pk_type ikey =? kTypeValue then
              val ← value (di_iter d);
              '(ok, d) ← merge_saved (pk_user_key ikey) (Some val) d;
              if ok : bool then
                d ← inner_Next d;
                Some (inl (if status_ok (di_iter d) then (true, d) else (false, set_valid false d)))
              else Some (inl (false, d))
            else if pk_type ikey =? kTypeMerge then
              v ← value (di_iter d);
              d ← inner_Next (PushOperand v d); merge_new_to_old todo' d
            else if pk_type ikey =? kTypeBlobIndex then Some (inl (false, unexpected_blob d))
            else None
        end
  end.

Definition MergeValuesNewToOld d : option (bool * DBIter I) :=
  match opt_merge_operator o with
  | None => Some (false, set_valid false (set_status InvalidArgument d))
  | Some _ =>
      v ← value (di_iter d);
      d ← inner_Next (PushOperand v (set_operands [] d));
      r ← merge_new_to_old fuel d;
      match r with
      | inl res => Some res
      | inr d =>
          if negb (status_ok (di_iter d)) then Some (false, set_valid false d)
          else
            '(ok, d) ← merge_saved (saved_user_key d) None d;
            if ok : bool then if decide (di_status d = OK) then Some (true, d) else None
            else Some (false, d)
      end
  end.

(** The [switch] on the type of an entry that is not skipped, in the forward direction;
    [inr]: go on and skip the other entries of its key. *)
Definition yield_entry (ikey : ParsedInternalKey) d : option outcome :=
  let d1 := set_saved_key (IterKey_SetUserKey (pk_user_key ikey)) d in
  if (pk_type ikey =? kTypeDeletion) || (pk_type ikey =? kTypeDeletionWithTimestamp) ||
     (pk_type ikey =? kTypeSingleDeletion) then Some (inr d1)
  else if pk_type ikey =? kTypeValue then Some (inl (true, set_valid true d1))
  else if pk_type ikey =? kTypeBlobIndex then
    Some (inl (if opt_allow_blob o then (true, set_valid true (set_blob true d1)) else (false, unexpected_blob d1)))
  else if pk_type ikey =? kTypeMerge then
    res ← MergeValuesNewToOld (set_valid true (set_merged true d1)); Some (inl res)
  else None.

(** The variables of the loop of [FindNextUserEntryInternal]. *)
Record skip_vars := mkSkipVars { skipping_saved_key : bool; num_skipped : Z; reseek_done : bool }.

(** One round up to the reseek: the entry is skipped, hidden or returned. *)
Definition examine (x : skip_vars) (is_prev_key_seqnum_zero : bool) (ikey : ParsedInternalKey) d
  : option ((bool * DBIter I) + skip_vars * DBIter I) :=
  let cmp := opt_Compare o (pk_user_key ikey) (saved_user_key d) in
  if IsVisible (pk_sequence ikey) then
    if negb is_prev_key_seqnum_zero && skipping_saved_key x && (cmp <=? 0) then
      Some (inr (mkSkipVars true (u64 (num_skipped x + 1)) (reseek_done x), d))
    else if negb (skipping_saved_key x) || (cmp >? 0) then
      r ← yield_entry ikey d;
      Some match r with inl res => inl res | inr d => inr (mkSkipVars true 0 false, d) end
    else None
  else if (cmp =? 0) || (skipping_saved_key x && (cmp <? 0)) then
    Some (inr (mkSkipVars (skipping_saved_key x) (u64 (num_skipped x + 1)) (reseek_done x), d))
  else
    Some (inr (mkSkipVars false 0 false, set_saved_key (IterKey_SetUserKey (pk_user_key ikey)) d)).

(** The end of a round: a seek when too many entries were skipped in a row. *)
Definition advance (x : skip_vars) d : option (skip_vars * DBIter I) :=
  if (num_skipped x >? opt_max_skip o) && negb (reseek_done x) then
    let last_key :=
      if skipping_saved_key x
      then AppendInternalKey [] (mkParsed (saved_user_key d) 0 kTypeDeletion)
      else AppendInternalKey [] (mkParsed (saved_user_key d) (opt_sequence o) kValueTypeForSeek) in
    d ← inner_Seek last_key (set_zero false d);
    Some (mkSkipVars (skipping_saved_key x) 0 true, d)
  else d ← inner_Next d; Some (x, d).

(** [do ... while (iter_.Valid())]. *)
Fixpoint find_next_loop (todo : nat) (x : skip_vars) d : option (bool * DBIter I) :=
  match todo with
  | O => None
  | S todo' =>
      let is_prev_key_seqnum_zero := di_is_key_seqnum_zero d in
      '(p, d) ← ParseKey d;
      match p with
      | None => Some (false, set_zero false d)
      | Some ikey =>
          let d := set_zero (pk_sequence ikey =? 0) d in
          let '(too_many, d) := TooManyInternalKeysSkipped true d in
          if too_many : bool then Some (false, d)
          else
            r ← examine x is_prev_key_seqnum_zero ikey d;
            match r with
            | inl res => Some res
            | inr (x, d) =>
                '(x, d) ← advance x d;
                if Valid (di_iter d) then find_next_loop todo' x d
                else let d := set_valid false d in Some (status_ok (di_iter d), d)
            end
      end
  end.

Definition FindNextUserEntryInternal (skipping_saved_key : bool) d : option (bool * DBIter I) :=
  if negb (Valid (di_iter d)) then None
  else if decide (di_status d = OK) then
    if decide (di_direction d = Forward) then
      find_next_loop fuel (mkSkipVars skipping_saved_key 0 false) (set_blob false (set_merged false d))
    else None
  else None.

(** *** Backwards *)

(** [FindValueForCurrentKeyUsingSeek]: the loop to the first visible entry of the key;
    [inr] with the entry where it stops. *)
Fixpoint seek_visible (todo : nat) d : option ((bool * DBIter I) + ParsedInternalKey * DBIter I) :=
  match todo with
  | O => None
  | S todo' =>
      if negb (Valid (di_iter d)) then Some (inl (status_ok (di_iter d), set_valid false d))
      else
        '(p, d) ← ParseKey d;
        match p with
        | None => Some (inl (false, d))
        | Some ikey =>
            if negb (opt_Compare o (pk_user_key ikey) (saved_user_key d) =? 0) then Some (inl (true, set_valid false d))
            else if IsVisible (pk_sequence ikey) then Some (inr (ikey, d))
            else d ← inner_Next d; seek_visible todo' d
        end
  end.

(** Its loop over the merge operands. *)
Fixpoint merge_using_seek (todo : nat) d : option outcome :=
  match todo with
  | O => None
  | S todo' =>
      d ← inner_Next d;
      if negb (Valid (di_iter d)) then
        Some (if status_ok (di_iter d) then inr d else inl (false, set_valid false d))
      else
        '(p, d) ← ParseKey d;
        match p with
        | None => Some (inl (false, d))
        | Some ikey =>
            if negb (opt_Compare o (pk_user_key ikey) (saved_user_key d) =? 0) then Some (inr d)
            else if (pk_type ikey =? kTypeDeletion) || (pk_type ikey =? kTypeSingleDeletion) then Some (inr d)
            else if pk_type ikey =? kTypeValue then
              val ← value (di_iter d);
              '(ok, d) ← merge_saved (saved_user_key d) (Some val) d;
              Some (inl (if ok : bool then (true, set_valid true d) else (false, d)))
            else if pk_type ikey =? kTypeMerge then
              v ← value (di_iter d); merge_using_seek todo' (PushOperand v d)
            else if pk_type ikey =? kTypeBlobIndex then Some (inl (false, unexpected_blob d))
            else None
        end
  end.

(** A seek that ends at the last entry when there is none from the key on. *)
Definition seek_or_last (k : bytes) d : option (DBIter I) :=
  d ← inner_Seek k d;
  if negb (Valid (di_iter d)) && status_ok (di_iter d)
  then i ← SeekToLast (di_iter d); Some (set_iter i d)
  else Some d.

Definition FindValueForCurrentKeyUsingSeek d : option (bool * DBIter I) :=
  let last_key := AppendInternalKey [] (mkParsed (saved_user_key d) (opt_sequence o) kValueTypeForSeek) in
  d ← inner_Seek last_key d;
  r ← seek_visible fuel (set_blob false d);
  match r with
  | inl res => Some res
  | inr (ikey, d) =>
      if (pk_type ikey =? kTypeDeletion) || (pk_type ikey =? kTypeSingleDeletion) then Some (true, set_valid false d)
      else if (pk_type ikey =? kTypeBlobIndex) && negb (opt_allow_blob o) then Some (false, unexpected_blob d)
      else if (pk_type ikey =? kTypeValue) || (pk_type ikey =? kTypeBlobIndex) then
        v ← value (di_iter d);
        Some (true, set_valid true (set_blob (pk_type ikey =? kTypeBlobIndex) (set_pinned (Some v) d)))
      else if pk_type ikey =? kTypeMerge then
        v ← value (di_iter d);
        r ← merge_using_seek fuel (PushOperand v (set_operands [] (set_merged true d)));
        match r with
        | inl res => Some res
        | inr d =>
            '(ok, d) ← merge_saved (saved_user_key d) None d;
            if ok : bool then
              d ← (if Valid (di_iter d) then Some d else seek_or_last last_key d);
              Some (true, set_valid true d)
            else Some (false, d)
        end
      else None
  end.

(** The loop of [FindValueForCurrentKey], from the oldest entry of the key to the newest
    visible one: [inr] with [last_key_entry_type] and [last_not_merge_type] when it is
    left. *)
Fixpoint find_value_loop (todo : nat) (last_key_entry_type last_not_merge_type num_skipped : Z) d
  : option ((bool * DBIter I) + Z * Z * DBIter I) :=
  match todo with
  | O => None
  | S todo' =>
      if negb (Valid (di_iter d)) then Some (inr (last_key_entry_type, last_not_merge_type, d))
      else
        '(p, d) ← ParseKey d;
        match p with
        | None => Some (inl (false, d))
        | Some ikey =>
            if negb (IsVisible (pk_sequence ikey)) ||
               negb (opt_Compare o (pk_user_key ikey) (saved_user_key d) =? 0)
            then Some (inr (last_key_entry_type, last_not_merge_type, d))
            else
              let '(too_many, d) := TooManyInternalKeysSkipped true d in
              if too_many : bool then Some (inl (false, d))
              else if num_skipped >=? opt_max_skip o then
                res ← FindValueForCurrentKeyUsingSeek d; Some (inl res)
              else
                let t := pk_type ikey in
                '(not_merge, d) ←
                  (if (t =? kTypeValue) || (t =? kTypeBlobIndex) then
                     v ← value (di_iter d); Some (t, set_operands [] (set_pinned (Some v) d))
                   else if (t =? kTypeDeletion) || (t =? kTypeSingleDeletion) then Some (t, set_operands [] d)
                   else if t =? kTypeMerge then
                     _ ← opt_merge_operator o; v ← value (di_iter d); Some (last_not_merge_type, PushOperandBack v d)
                   else None);
                d ← inner_Prev d;
                find_value_loop todo' t not_merge (u64 (num_skipped + 1)) d
        end
  end.

Definition FindValueForCurrentKey d : option (bool * DBIter I) :=
  if negb (Valid (di_iter d)) then None
  else
    r ← find_value_loop fuel kTypeDeletion kTypeDeletion 0 (set_merged false (set_operands [] d));
    match r with
    | inl res => Some res
    | inr (last_key_entry_type, last_not_merge_type, d) =>
        if negb (status_ok (di_iter d)) then Some (false, set_valid false d)
        else
          let d := set_blob false d in
          if (last_key_entry_type =? kTypeDeletion) || (last_key_entry_type =? kTypeSingleDeletion)
          then Some (true, set_valid false d)
          else if last_key_entry_type =? kTypeMerge then
            let d := set_merged true d in
            if last_not_merge_type =? kTypeBlobIndex then Some (false, unexpected_blob d)
            else
              existing ←
                (if (last_not_merge_type =? kTypeDeletion) || (last_not_merge_type =? kTypeSingleDeletion) then Some None
                 else if last_not_merge_type =? kTypeValue then Some (di_pinned_value d)
                 else None);
              '(ok, d) ← merge_saved (saved_user_key d) existing d;
              Some (if ok : bool then (true, set_valid true d) else (false, d))
          else if last_key_entry_type =? kTypeValue then Some (true, set_valid true d)
          else if last_key_entry_type =? kTypeBlobIndex then
            Some (if opt_allow_blob o then (true, set_valid true (set_blob true d)) else (false, unexpected_blob d))
          else None
    end.

(** [FindUserKeyBeforeSavedKey]. *)
Fixpoint before_saved_loop (todo : nat) (num_skipped : Z) d : option (bool * DBIter I) :=
  match todo with
  | O => None
  | S todo' =>
      if negb (Valid (di_iter d)) then
        Some (if status_ok (di_iter d) then (true, d) else (false, set_valid false d))
      else
        '(p, d) ← ParseKey d;
        match p with
        | None => Some (false, d)
        | Some ikey =>
            if opt_Compare o (pk_user_key ikey) (saved_user_key d) <? 0 then Some (true, d)
            else
              let '(too_many, d) := TooManyInternalKeysSkipped true d in
              if too_many : bool then Some (false, d)
              else if pk_sequence ikey =? kMaxSequenceNumber then None
              else if num_skipped >=? opt_max_skip o then
                let last_key := IterKey_SetInternalKey (saved_user_key d) kMaxSequenceNumber kValueTypeForSeek in
                k ← IterKey_GetInternalKey last_key;
                d ← inner_Seek k d;
                if negb (Valid (di_iter d)) then
                  Some (if status_ok (di_iter d) then (true, d) else (false, set_valid false d))
                else d ← inner_Prev d; before_saved_loop todo' 0 d
              else d ← inner_Prev d; before_saved_loop todo' (u64 (num_skipped + 1)) d
        end
  end.

Definition FindUserKeyBeforeSavedKey d : option (bool * DBIter I) :=
  if decide (di_status d = OK) then before_saved_loop fuel 0 d else None.

Fixpoint prev_internal_loop (todo : nat) d : option (DBIter I) :=
  match todo with
  | O => None
  | S todo' =>
      if negb (Valid (di_iter d)) then Some (set_valid false d)
      else
        k ← key (di_iter d);
        '(ok, d) ← FindValueForCurrentKey (set_saved_key (IterKey_SetUserKey (ExtractUserKey k)) d);
        if negb ok then Some d
        else
          '(ok, d) ← FindUserKeyBeforeSavedKey d;
          if negb ok then Some d
          else if di_valid d then Some d
          else
            let '(too_many, d) := TooManyInternalKeysSkipped false d in
            if too_many : bool then Some d else prev_internal_loop todo' d
  end.

Definition PrevInternal d : option (DBIter I) := prev_internal_loop fuel d.

(** *** Changes of direction *)

Fixpoint to_forward_loop (todo : nat) d : option (bool * DBIter I) :=
  match todo with
  | O => None
  | S todo' =>
      if negb (Valid (di_iter d)) then
        Some (if status_ok (di_iter d) then (true, d) else (false, set_valid false d))
      else
        '(p, d) ← ParseKey d;
        match p with
        | None => Some (false, d)
        | Some ikey =>
            if opt_Compare o (pk_user_key ikey) (saved_user_key d) >=? 0 then Some (true, d)
            else d ← inner_Next d; to_forward_loop todo' d
        end
  end.

Definition ReverseToForward d : option (bool * DBIter I) :=
  if negb (status_ok (di_iter d)) then None
  else
    d ← (if Valid (di_iter d) then Some d
         else
           k ← IterKey_GetInternalKey (IterKey_SetInternalKey (saved_user_key d) kMaxSequenceNumber kValueTypeForSeek);
           inner_Seek k d);
    to_forward_loop fuel (set_direction Forward d).

Definition ReverseToBackward d : option (bool * DBIter I) :=
  if negb (status_ok (di_iter d)) then None
  else
    d ← (if di_current_entry_is_merged d && negb (Valid (di_iter d)) then
           k ← IterKey_GetInternalKey (IterKey_SetInternalKey (saved_user_key d) kMaxSequenceNumber kValueTypeForSeek);
           seek_or_last k d
         else Some d);
    FindUserKeyBeforeSavedKey (set_direction Reverse d).

(** *** The interface *)

Definition DBIter_Next d : option (DBIter I) :=
  if negb (di_valid d) then None
  else if decide (di_status d = OK) then
    let d := set_skipped 0 d in
    '(ok, d) ←
      (if decide (di_direction d = Reverse) then ReverseToForward (set_zero false d)
       else if negb (di_current_entry_is_merged d) then
         if Valid (di_iter d) then d ← inner_Next d; Some (true, d) else None
       else Some (true, d));
    if ok && Valid (di_iter d) then '(_, d) ← FindNextUserEntryInternal true d; Some d
    else Some (set_valid false (set_zero false d))
  else None.

Definition DBIter_Prev d : option (DBIter I) :=
  if negb (di_valid d) then None
  else if decide (di_status d = OK) then
    let d := set_skipped 0 d in
    '(ok, d) ← (if decide (di_direction d = Forward) then ReverseToBackward d else Some (true, d));
    if ok : bool then PrevInternal d else Some d
  else None.

Definition SetSavedKeyToSeekTarget (target : bytes) d : DBIter I :=
  set_saved_key (IterKey_SetInternalKey target (opt_sequence o) kValueTypeForSeek) (set_zero false d).

Definition SetSavedKeyToSeekForPrevTarget (target : bytes) d : DBIter I :=
  set_saved_key (IterKey_SetInternalKey target 0 kValueTypeForSeekForPrev) (set_zero false d).

Definition DBIter_Seek d (target : bytes) : option (DBIter I) :=
  let d := SetSavedKeyToSeekTarget target (set_skipped 0 (set_status OK d)) in
  k ← IterKey_GetInternalKey (di_saved_key d);
  d ← inner_Seek k d;
  if negb (Valid (di_iter d)) then Some (set_valid false d)
  else
    '(_, d) ← FindNextUserEntryInternal false (set_saved_value [] (set_direction Forward d));
    Some d.

Definition DBIter_SeekForPrev d (target : bytes) : option (DBIter I) :=
  let d := SetSavedKeyToSeekForPrevTarget target (set_skipped 0 (set_status OK d)) in
  k ← IterKey_GetInternalKey (di_saved_key d);
  i ← SeekForPrev (di_iter d) k;
  let d := set_iter i d in
  if negb (Valid (di_iter d)) then Some (set_valid false d)
  else PrevInternal (set_saved_value [] (set_direction Reverse d)).

Definition DBIter_SeekToFirst d : option (DBIter I) :=
  let d := set_zero false (set_saved_value [] (set_skipped 0 (set_direction Forward (set_status OK d)))) in
  i ← SeekToFirst (di_iter d);
  let d := set_iter i d in
  if Valid (di_iter d) then
    k ← key (di_iter d);
    '(_, d) ← FindNextUserEntryInternal false (set_saved_key (IterKey_SetUserKey (ExtractUserKey k)) d);
    Some d
  else Some (set_valid false d).

Definition DBIter_SeekToLast d : option (DBIter I) :=
  let d := set_zero false (set_saved_value [] (set_skipped 0 (set_direction Reverse (set_status OK d)))) in
  i ← SeekToLast (di_iter d);
  PrevInternal (set_iter i d).

Definition DBIter_key d : option bytes :=
  if di_valid d then Some (saved_user_key d) else None.

Definition DBIter_value d : option bytes :=
  if negb (di_valid d) then None
  else if di_current_entry_is_merged d then
    Some match di_pinned_value d with Some v => v | None => di_saved_value d end
  else if decide (di_direction d = Reverse) then di_pinned_value d
  else value (di_iter d).

Definition DBIter_status_ok d : bool :=
  bool_decide (di_status d = OK) && status_ok (di_iter d).

Definition db_iterator : InternalIterator (DBIter I) := {|
  internal_iterator := {|
    Valid := di_valid; key := DBIter_key; value := DBIter_value;
    SeekToFirst := DBIter_SeekToFirst; SeekToLast := DBIter_SeekToLast; Seek := DBIter_Seek;
    Next := DBIter_Next; Prev := DBIter_Prev; status_ok := DBIter_status_ok |};
  SeekForPrev := DBIter_SeekForPrev |}.
End DBIter.
