(* ===== verification/DbIterCorrect.v ===== *)
(** * Correctness of the iterator of a store

    Over any internal iterator that keeps its contract, a [DBIter] whose entries are
    values and deletions keeps the contract of [Iterator]: it ranges, in both
    directions and through all changes of direction and reseeks, over the newest
    visible value of each user key. *)

From S2P Require Import Prelude Coding Comparator DbFormat Iterator WriteBatch MemTable DbIter.

#[local] Existing Instance vlt_dec.

#[local] Ltac in_list := repeat first [rewrite elem_of_app | rewrite elem_of_cons | rewrite list_elem_of_singleton]; tauto.

(** ** The contract of an internal iterator

    It ranges over versions, ordered by key and then from new to old. A seek splits them
    at the target; entries that differ from the target only by a larger type may be on
    either side, since some comparators look at types and others do not. A backward seek
    stays away from this: its target is not of a larger type than such an entry. *)
Definition seek_split (user_Compare : bytes -> bytes -> Z) (l A B : list version) (target : version) : Prop :=
  l = A ++ B /\
  (forall a, a ∈ A -> vlt user_Compare a target \/ (v_key a = v_key target /\ v_seq a = v_seq target /\ v_type target < v_type a)) /\
  (forall b, b ∈ B -> ~ vlt user_Compare b target).

Lemma seek_split_filter (user_Compare : bytes -> bytes -> Z) `{!TotalCompare user_Compare} l target : StronglySorted (vlt user_Compare) l ->
  seek_split user_Compare l (filter (fun v => vlt user_Compare v target) l) (filter (fun v => ~ vlt user_Compare v target) l) target.
Proof.
  intros Hs. split_and!; [symmetry; by apply partition_sorted|..].
  - intros a [Ha _]%list_elem_of_filter. by left.
  - by intros b [Hb _]%list_elem_of_filter.
Qed.

Class InternalIteratorLaws {I} `{InternalIterator I} (user_Compare : bytes -> bytes -> Z) (seekable : bytes -> Prop)
    (inv : I -> Prop) (versions : I -> list version) (cur : I -> option version) : Prop := {
  ilaw_Valid : forall i, inv i -> Valid i = bool_decide (is_Some (cur i));
  ilaw_key : forall i, inv i -> key i = (fun v => encode (v_parsed v)) <$> cur i;
  ilaw_value : forall i, inv i -> value i = v_value <$> cur i;
  ilaw_status : forall i, inv i -> status_ok i = true;
  ilaw_sorted : forall i, inv i -> StronglySorted (vlt user_Compare) (versions i);
  ilaw_versions : forall i v, inv i -> v ∈ versions i -> version_ok v /\ seekable (v_key v);
  ilaw_SeekToFirst : forall i, inv i -> exists i', SeekToFirst i = Some i' /\ inv i' /\
    versions i' = versions i /\ cur i' = head (versions i);
  ilaw_SeekToLast : forall i, inv i -> exists i', SeekToLast i = Some i' /\ inv i' /\
    versions i' = versions i /\ cur i' = last (versions i);
  ilaw_Seek : forall i u s t, inv i -> seekable u -> parsed_ok (mkParsed u s t) ->
    exists i' A B, Seek i (encode (mkParsed u s t)) = Some i' /\ inv i' /\ versions i' = versions i /\
      seek_split user_Compare (versions i) A B (mkVersion s t u []) /\ cur i' = head B;
  ilaw_SeekForPrev : forall i u s t, inv i -> seekable u -> parsed_ok (mkParsed u s t) ->
    (forall v, v ∈ versions i -> v_key v = u -> v_seq v = s -> t <= v_type v) ->
    exists i', SeekForPrev i (encode (mkParsed u s t)) = Some i' /\ inv i' /\ versions i' = versions i /\
      cur i' = last (filter (fun v => ~ vlt user_Compare (mkVersion s t u []) v) (versions i));
  ilaw_Next : forall i A v B, inv i -> versions i = A ++ v :: B -> cur i = Some v ->
    exists i', Next i = Some i' /\ inv i' /\ versions i' = versions i /\ cur i' = head B;
  ilaw_Prev : forall i A v B, inv i -> versions i = A ++ v :: B -> cur i = Some v ->
    exists i', Prev i = Some i' /\ inv i' /\ versions i' = versions i /\ cur i' = last A
}.

(** ** What an iterator at sequence number [s] shows *)

(** The newest version of its key that [s] sees, if it is a value. *)
Definition shown (s : Z) (vs : list version) (v : version) : Prop :=
  v_seq v <= s /\ v_type v = kTypeValue /\
  Forall (fun v' => v_key v' = v_key v -> v_seq v' <= s -> v_seq v' <= v_seq v) vs.

#[export] Instance shown_dec s vs v : Decision (shown s vs v).
Proof. unfold shown. apply _. Defined.

Definition version_entry (v : version) : entry := (v_key v, v_value v).

Section Correct.
Context {I : Type} `{InternalIterator I} (o : DBIterOptions) (fuel : nat).
Abbreviation cmp := (opt_Compare o).
Abbreviation seqno := (opt_sequence o).
Context `{!TotalCompare cmp} (seekable : bytes -> Prop).
Context (inv : I -> Prop) (versions : I -> list version) (cur : I -> option version).
Context `{!InternalIteratorLaws cmp seekable inv versions cur}.
Implicit Types d : DBIter I.

(** The options: no limit on skipped keys, counters in range. *)
Definition options_ok : Prop :=
  0 <= seqno <= kMaxSequenceNumber /\ 0 <= opt_max_skip o /\ opt_max_skippable_internal_keys o = 0.

Context (Ho : options_ok) (vs : list version).

(** The entries are values and deletions. *)
Definition plain_versions (l : list version) : Prop :=
  Forall (fun v => plain_type (v_type v)) l.

(** None has the largest sequence number; moving backwards asserts it. *)
Definition below_max (l : list version) : Prop := Forall (fun v => v_seq v < kMaxSequenceNumber) l.

Context (Hplain : plain_versions vs) (Hfuel : (2 * length vs + 2 <= fuel)%nat).

(** The inner iterator stands at [c]. *)
Definition stands_at (i : I) (c : option version) : Prop := inv i /\ versions i = vs /\ cur i = c.

Lemma cmp_cases a b : (a = b /\ cmp a b = 0 /\ cmp b a = 0) \/ (cmp a b < 0 /\ 0 < cmp b a) \/ (0 < cmp a b /\ cmp b a < 0).
Proof.
  destruct (Z.lt_trichotomy (cmp a b) 0) as [Hl|[He|Hg]].
  - right; left. pose proof (proj1 (cmp_flip a b) Hl). lia.
  - left. apply cmp_eq in He as ->. by rewrite !cmp_refl.
  - right; right. pose proof (cmp_flip b a). lia.
Qed.

Context (Hsorted : StronglySorted (vlt cmp) vs) (Hversions : forall v, v ∈ vs -> version_ok v /\ seekable (v_key v)).

(** *** The inner iterator *)

Lemma stands_at_Valid i c : stands_at i c -> Valid i = bool_decide (is_Some c).
Proof. intros (Hi & _ & <-). by apply ilaw_Valid. Qed.

Lemma stands_at_status i c : stands_at i c -> status_ok i = true.
Proof. intros (Hi & _). by apply ilaw_status. Qed.

Lemma stands_at_value i v : stands_at i (Some v) -> value i = Some (v_value v).
Proof. intros (Hi & _ & Hc). by rewrite ilaw_value, Hc. Qed.

Lemma stands_at_key i v : stands_at i (Some v) -> key i = Some (encode (v_parsed v)).
Proof. intros (Hi & _ & Hc). by rewrite ilaw_key, Hc. Qed.

Lemma ParseKey_ok d v : stands_at (di_iter d) (Some v) -> v ∈ vs -> ParseKey d = Some (Some (v_parsed v), d).
Proof.
  intros Hst Hv. unfold ParseKey. rewrite (stands_at_key _ _ Hst). cbn -[encode ParseInternalKey].
  by rewrite parse_encode by apply (Hversions v Hv).
Qed.

Lemma inner_Next_ok d A v B : stands_at (di_iter d) (Some v) -> vs = A ++ v :: B ->
  exists i, inner_Next d = Some (set_iter i d) /\ stands_at i (head B).
Proof.
  intros (Hi & Ev & Hc) E. destruct (ilaw_Next (di_iter d) A v B) as (i & En & Hi' & Ev' & Hc'); [done|congruence|done|].
  exists i. unfold inner_Next. rewrite En. split; [done|]. split_and!; [done|congruence|done].
Qed.

Lemma inner_Prev_ok d A v B : stands_at (di_iter d) (Some v) -> vs = A ++ v :: B ->
  exists i, inner_Prev d = Some (set_iter i d) /\ stands_at i (last A).
Proof.
  intros (Hi & Ev & Hc) E. destruct (ilaw_Prev (di_iter d) A v B) as (i & En & Hi' & Ev' & Hc'); [done|congruence|done|].
  exists i. unfold inner_Prev. rewrite En. split; [done|]. split_and!; [done|congruence|done].
Qed.

Lemma inner_Seek_split d c u s t : stands_at (di_iter d) c -> seekable u -> parsed_ok (mkParsed u s t) ->
  exists i A B, inner_Seek (encode (mkParsed u s t)) d = Some (set_iter i d) /\
    seek_split cmp vs A B (mkVersion s t u []) /\ stands_at i (head B).
Proof.
  intros (Hi & Ev & _) Hu Hp. destruct (ilaw_Seek (di_iter d) u s t) as (i & A & B & En & Hi' & Ev' & Hsp & Hc'); [done..|].
  exists i, A, B. unfold inner_Seek. rewrite En. rewrite Ev in Ev', Hsp. done.
Qed.

(** No type is larger than that of a seek. *)
Lemma seek_split_exact A B u s : seek_split cmp vs A B (mkVersion s kValueTypeForSeek u []) ->
  A = filter (fun v => vlt cmp v (mkVersion s kValueTypeForSeek u [])) vs /\
  B = filter (fun v => ~ vlt cmp v (mkVersion s kValueTypeForSeek u [])) vs.
Proof.
  intros (E & HA & HB).
  assert (HA' : forall a, a ∈ A -> vlt cmp a (mkVersion s kValueTypeForSeek u [])).
  { intros a Ha. destruct (HA a Ha) as [?|(_ & _ & Ht)]; [done|]. cbn in Ht.
    destruct (Hversions a) as [((_ & Ht' & Hx) & _) _]; [rewrite E; in_list|]. cbn in Ht', Hx.
    pose proof (extended_type_le_seek (v_type a) ltac:(lia) Hx). lia. }
  rewrite E, !filter_app. split.
  - rewrite filter_every, filter_none by done. by rewrite app_nil_r.
  - rewrite filter_none, filter_every by (done || (intros a Ha Hn; by apply Hn, HA')). done.
Qed.

Lemma inner_Seek_ok d c u s : stands_at (di_iter d) c -> seekable u -> parsed_ok (mkParsed u s kValueTypeForSeek) ->
  exists i, inner_Seek (encode (mkParsed u s kValueTypeForSeek)) d = Some (set_iter i d) /\
    stands_at i (head (filter (fun v => ~ vlt cmp v (mkVersion s kValueTypeForSeek u [])) vs)).
Proof.
  intros Hst Hu Hp. destruct (inner_Seek_split d c u s kValueTypeForSeek Hst Hu Hp) as (i & A & B & Es & Hsp & Hi).
  exists i. split; [done|]. by rewrite <- (proj2 (seek_split_exact A B u s Hsp)).
Qed.

Lemma no_limit b d : TooManyInternalKeysSkipped o b d
  = (false, if b then set_skipped (u64 (di_num_internal_keys_skipped d + 1)) d else d).
Proof. unfold TooManyInternalKeysSkipped. destruct Ho as (_ & _ & ->). done. Qed.

(** *** Order *)

Lemma in_order A B a b : vs = A ++ B -> a ∈ A -> b ∈ B -> vlt cmp a b.
Proof. intros E Ha Hb. rewrite E in Hsorted. by apply (StronglySorted_app_1_elem_of (vlt cmp) A B). Qed.

Lemma in_order_le A B a b : vs = A ++ B -> a ∈ A -> b ∈ B -> cmp (v_key a) (v_key b) <= 0.
Proof.
  intros E Ha Hb. pose proof (in_order A B a b E Ha Hb) as Hl. apply vlt_spec in Hl as [|[-> _]]; [lia| |done].
  by rewrite cmp_refl.
Qed.

Lemma shown_newest v v' : shown seqno vs v -> v' ∈ vs -> v_key v' = v_key v -> v_seq v' <= seqno -> v_seq v' <= v_seq v.
Proof. intros (_ & _ & Hf) Hin. rewrite Forall_forall in Hf. by apply Hf. Qed.

(** A version behind a visible one of its key is not shown. *)
Lemma shadowed A B p r : vs = A ++ B -> p ∈ A -> r ∈ B -> v_seq p <= seqno -> v_key p = v_key r -> ~ shown seqno vs r.
Proof.
  intros E Hp Hr Hv Hk Hsh. pose proof (in_order A B p r E Hp Hr) as Hl.
  assert (Hin : p ∈ vs) by (rewrite E; in_list). pose proof (shown_newest r p Hsh Hin Hk Hv).
  apply vlt_spec in Hl as [Hl|[_ Hl]]; [|lia|done]. rewrite Hk, cmp_refl in Hl by done. lia.
Qed.

(** *** Forwards *)

(** What [FindNextUserEntryInternal] looks for: the first shown version with [Q]. *)
Section Forward.
Context (Q : version -> Prop) `{!forall v, Decision (Q v)}.

Abbreviation wanted := (fun v => shown seqno vs v /\ Q v).

(** The loop has passed [P] and stands in front of [R]; [u] is the saved key and [zero]
    the flag that the entry before was of sequence number 0. *)
Record forward_inv (x : skip_vars) (u : bytes) (zero : bool) (P R : list version) : Prop := {
  fi_passed : forall p, p ∈ P -> ~ wanted p;
  fi_visible : forall p r, p ∈ P -> r ∈ R -> v_seq p <= seqno -> v_key p = v_key r ->
    skipping_saved_key x = true /\ cmp (v_key r) u <= 0;
  fi_skip : forall r, skipping_saved_key x = true -> r ∈ R -> cmp (v_key r) u <= 0 -> ~ wanted r;
  fi_above : forall r, r ∈ R -> (skipping_saved_key x = true -> 0 < cmp (v_key r) u) -> Q r;
  fi_ge : forall r, skipping_saved_key x = true -> r ∈ R -> cmp u (v_key r) <= 0;
  fi_zero : zero = true -> exists P' p, P = P' ++ [p] /\ v_seq p = 0 /\
    (skipping_saved_key x = true -> cmp u (v_key p) <= 0)
}.

(** The iterator stands on [r], the wanted version, or is not valid. *)
Definition forward_result d (r : option version) : Prop :=
  di_status d = OK /\
  match r with
  | Some v => stands_at (di_iter d) (Some v) /\ di_valid d = true /\ di_direction d = Forward /\
      di_current_entry_is_merged d = false /\ saved_user_key d = v_key v /\
      (di_is_key_seqnum_zero d = true -> v_seq v = 0)
  | None => (exists c, stands_at (di_iter d) c) /\ di_valid d = false
  end.

(** After a round at [r] with [x0] the loop goes on with [x] and [d]. *)
Definition round_done (P R : list version) (r : version) (x0 x : skip_vars) d : Prop :=
  forward_inv x (saved_user_key d) (v_seq r =? 0) (P ++ [r]) R /\
  (0 < num_skipped x -> v_key r = saved_user_key d /\ reseek_done x = reseek_done x0 /\
     (skipping_saved_key x = false -> seqno < v_seq r)).

(** An entry that is not skipped is above the saved key, and so are those after it. *)
Lemma not_skipped_after P R r x u zero (a : version) :
  vs = P ++ r :: R -> forward_inv x u zero P (r :: R) ->
  (skipping_saved_key x = true -> 0 < cmp (v_key r) u) -> a ∈ r :: R ->
  (skipping_saved_key x = true -> 0 < cmp (v_key a) u) /\ Q a /\
  forall p, p ∈ P -> v_seq p <= seqno -> v_key p <> v_key a.
Proof.
  intros E Hinv Hns Ha.
  assert (Hup : skipping_saved_key x = true -> 0 < cmp (v_key a) u).
  { intros Hx. specialize (Hns Hx). apply elem_of_cons in Ha as [->|Ha]; [done|].
    assert (Hra : cmp (v_key r) (v_key a) <= 0).
    { apply (in_order_le (P ++ [r]) R); [by rewrite <- app_assoc|in_list|done]. }
    apply cmp_flip. eapply cmp_lt_le_trans; [done|by apply cmp_flip|done]. }
  split_and!; [done|by eapply fi_above|]. intros p Hp Hv Hk.
  destruct (fi_visible _ _ _ _ _ Hinv p a Hp Ha Hv Hk) as [Hx Hle]. specialize (Hup Hx). lia.
Qed.

(** A round that leaves the saved key: the entry is skipped, or it is too new. *)
Lemma round_same P R r x n u zero :
  vs = P ++ r :: R -> forward_inv x u zero P (r :: R) -> ~ wanted r ->
  (v_seq r <= seqno -> skipping_saved_key x = true /\ cmp (v_key r) u <= 0) ->
  forward_inv (mkSkipVars (skipping_saved_key x) n (reseek_done x)) u (v_seq r =? 0) (P ++ [r]) R.
Proof.
  intros E Hinv Hr Hv. destruct Hinv as [Hpass Hvis Hskip Hab Hge Hz]. split; cbn.
  - intros p [Hp| ->]%in_snoc; [by apply Hpass|done].
  - intros p r' [Hp| ->]%in_snoc Hr' Hs Hk; [apply (Hvis p); [done|in_list|done..]|].
    rewrite <- Hk. by apply Hv.
  - intros r' Hx Hr'. apply Hskip; [done|in_list].
  - intros r' Hr'. apply Hab. in_list.
  - intros r' Hx Hr'. apply Hge; [done|in_list].
  - intros Hz'%Z.eqb_eq. exists P, r. split_and!; [done|done|]. intros Hx. apply Hge; [done|in_list].
Qed.

(** A round that saves the key of an entry that is too new. *)
Lemma round_hidden P R r x u zero :
  vs = P ++ r :: R -> forward_inv x u zero P (r :: R) -> seqno < v_seq r ->
  (skipping_saved_key x = true -> 0 < cmp (v_key r) u) ->
  forward_inv (mkSkipVars false 0 false) (v_key r) (v_seq r =? 0) (P ++ [r]) R.
Proof.
  intros E Hinv Hr Hns. split; cbn; try done.
  - intros p [Hp| ->]%in_snoc; [by eapply fi_passed|].
    intros [(Hv & _) _]. lia.
  - intros p r' [Hp| ->]%in_snoc Hr' Hs Hk; [|lia]. exfalso.
    apply (not_skipped_after P R r x u zero r' E Hinv Hns ltac:(in_list)) in Hk; done.
  - intros r' Hr' _. apply (not_skipped_after P R r x u zero r' E Hinv Hns ltac:(in_list)).
  - intros Hz%Z.eqb_eq. by exists P, r.
Qed.

(** A round at a deletion: the rest of its key is skipped. *)
Lemma round_deleted P R r x u zero :
  vs = P ++ r :: R -> forward_inv x u zero P (r :: R) -> v_seq r <= seqno -> ~ wanted r ->
  (skipping_saved_key x = true -> 0 < cmp (v_key r) u) ->
  forward_inv (mkSkipVars true 0 false) (v_key r) (v_seq r =? 0) (P ++ [r]) R.
Proof.
  intros E Hinv Hr Hw Hns. assert (E' : vs = (P ++ [r]) ++ R) by (by rewrite <- app_assoc).
  assert (Hge : forall r', r' ∈ R -> cmp (v_key r) (v_key r') <= 0).
  { intros r' Hr'. apply (in_order_le (P ++ [r]) R); [done|in_list|done]. }
  split; cbn; try done.
  - intros p [Hp| ->]%in_snoc; [by eapply fi_passed|done].
  - intros p r' [Hp| ->]%in_snoc Hr' Hs Hk.
    + exfalso. apply (not_skipped_after P R r x u zero r' E Hinv Hns ltac:(in_list)) in Hk; done.
    + split; [done|]. by rewrite Hk, cmp_refl.
  - intros r' _ Hr' Hle [Hsh _]. assert (Ek : v_key r = v_key r').
    { specialize (Hge r' Hr'). destruct (cmp_cases (v_key r) (v_key r')) as [[? _]|?]; [done|lia]. }
    revert Hsh. apply (shadowed (P ++ [r]) R r r'); [done|in_list|done..].
  - intros r' Hr' _. apply (not_skipped_after P R r x u zero r' E Hinv Hns ltac:(in_list)).
  - auto.
  - intros Hz%Z.eqb_eq. exists P, r. split_and!; [done|done|]. intros _. by rewrite cmp_refl.
Qed.

(** The parts of the state that a round leaves alone. *)
Definition same_frame d d' : Prop :=
  di_iter d' = di_iter d /\ di_status d' = di_status d /\ di_direction d' = di_direction d /\
  di_current_entry_is_merged d' = di_current_entry_is_merged d /\ di_is_key_seqnum_zero d' = di_is_key_seqnum_zero d.

Lemma wanted_new P R r x u zero :
  vs = P ++ r :: R -> forward_inv x u zero P (r :: R) -> v_seq r <= seqno -> v_type r = kTypeValue ->
  (skipping_saved_key x = true -> 0 < cmp (v_key r) u) -> wanted r.
Proof.
  intros E Hinv Hv Ht Hns. destruct (not_skipped_after P R r x u zero r E Hinv Hns ltac:(in_list)) as (_ & HQ & Hne).
  split; [|done]. split_and!; [done|done|]. apply Forall_forall. intros v' Hin Hk Hv'. rewrite E in Hin.
  apply elem_of_app in Hin as [Hin|[->|Hin]%elem_of_cons]; [by destruct (Hne v' Hin Hv')|done|].
  assert (Hl : vlt cmp r v') by (apply (in_order (P ++ [r]) R); [by rewrite <- app_assoc|in_list|done]).
  apply vlt_spec in Hl as [Hl|[_ Hl]]; [|lia|done]. rewrite Hk, cmp_refl in Hl by done. lia.
Qed.

(** After an entry of sequence number 0 comes a new key. *)
Lemma zero_not_skipped P R r x u :
  vs = P ++ r :: R -> forward_inv x u true P (r :: R) -> skipping_saved_key x = true -> 0 < cmp (v_key r) u.
Proof.
  intros E Hinv Hx. destruct (fi_zero _ _ _ _ _ Hinv eq_refl) as (P' & p & -> & Hp & Hle). specialize (Hle Hx).
  assert (Hl : vlt cmp p r) by (apply (in_order (P' ++ [p]) (r :: R)); [done|in_list|in_list]).
  assert (Hr : 0 <= v_seq r) by (apply (Hversions r); rewrite E; in_list).
  apply vlt_spec in Hl as [Hl|[_ Hl]]; [|lia|done]. apply cmp_flip. by eapply cmp_le_lt_trans.
Qed.

Lemma yield_ok P R r x u zero d :
  vs = P ++ r :: R -> forward_inv x u zero P (r :: R) -> v_seq r <= seqno ->
  (skipping_saved_key x = true -> 0 < cmp (v_key r) u) ->
  (exists d', yield_entry o fuel (v_parsed r) d = Some (inl (true, d')) /\ wanted r /\ same_frame d d' /\
     di_valid d' = true /\ saved_user_key d' = v_key r) \/
  (exists d', yield_entry o fuel (v_parsed r) d = Some (inr d') /\ same_frame d d' /\
     round_done P R r x (mkSkipVars true 0 false) d').
Proof.
  intros E Hinv Hv Hns. assert (Ht : plain_type (v_type r)).
  { unfold plain_versions in Hplain. rewrite Forall_forall in Hplain. apply Hplain. rewrite E. in_list. }
  assert (Hdel : v_type r <> kTypeValue -> round_done P R r x (mkSkipVars true 0 false) (set_saved_key (IterKey_SetUserKey (v_key r)) d)).
  { intros Hne. split; [|done]. cbn. eapply round_deleted; [done..| |done]. by intros [(_ & ? & _) _]. }
  unfold yield_entry. destruct Ht as [Ht|[Ht|Ht]]; cbn -[round_done]; rewrite Ht; cbn -[round_done].
  - left. eexists. split; [done|]. split; [by eapply wanted_new|]. by split_and!.
  - right. eexists. split; [done|]. split; [by split_and!|]. apply Hdel. by rewrite Ht.
  - right. eexists. split; [done|]. split; [by split_and!|]. apply Hdel. by rewrite Ht.
Qed.

Lemma examine_ok P R r x zero d :
  vs = P ++ r :: R -> forward_inv x (saved_user_key d) zero P (r :: R) ->
  (exists d', examine o fuel x zero (v_parsed r) d = Some (inl (true, d')) /\ wanted r /\ same_frame d d' /\
     di_valid d' = true /\ saved_user_key d' = v_key r) \/
  (exists x' d', examine o fuel x zero (v_parsed r) d = Some (inr (x', d')) /\ same_frame d d' /\
     round_done P R r x x' d').
Proof.
  intros E Hinv. unfold examine, IsVisible. change (pk_sequence (v_parsed r)) with (v_seq r).
  change (pk_user_key (v_parsed r)) with (v_key r). destruct (Z.leb_spec (v_seq r) seqno) as [Hv|Hv].
  - destruct (negb zero && skipping_saved_key x && (cmp (v_key r) (saved_user_key d) <=? 0)) eqn:Hb.
    + apply andb_true_iff in Hb as [[Hz Hx]%andb_true_iff Hle%Z.leb_le]. right. eexists _, d.
      split; [done|]. split; [by split_and!|]. rewrite <- Hx. split; [|cbn].
      * eapply round_same; [done..| |done]. by eapply fi_skip; [done|done|in_list|].
      * intros _. split_and!; [|done|congruence]. pose proof (fi_ge _ _ _ _ _ Hinv r Hx ltac:(in_list)).
        destruct (cmp_cases (v_key r) (saved_user_key d)) as [[? _]|?]; [done|lia].
    + assert (Hns : skipping_saved_key x = true -> 0 < cmp (v_key r) (saved_user_key d)).
      { intros Hx. destruct zero; [by eapply zero_not_skipped|]. rewrite Hx in Hb. cbn in Hb. by apply Z.leb_gt in Hb. }
      assert (Ha : negb (skipping_saved_key x) || (cmp (v_key r) (saved_user_key d) >? 0) = true).
      { destruct (skipping_saved_key x); [|done]. specialize (Hns eq_refl). cbn. rewrite Z.gtb_ltb. by apply Z.ltb_lt. }
      rewrite Ha. destruct (yield_ok P R r x _ zero d E Hinv Hv Hns) as [(d' & -> & Hres)|(d' & -> & Hf & Hres)].
      * left. by exists d'.
      * right. by eexists _, d'.
  - right. destruct ((cmp (v_key r) (saved_user_key d) =? 0) || (skipping_saved_key x && (cmp (v_key r) (saved_user_key d) <? 0))) eqn:Hb.
    + eexists _, d. split; [done|]. split; [by split_and!|]. split; [|cbn].
      * eapply round_same; [done..| |lia]. intros [(? & _) _]. lia.
      * intros _. split_and!; [|done|done]. apply orb_true_iff in Hb as [Hb%Z.eqb_eq|Hb]; [by apply cmp_eq in Hb|].
        apply andb_true_iff in Hb as [Hx Hlt%Z.ltb_lt]. pose proof (fi_ge _ _ _ _ _ Hinv r Hx ltac:(in_list)).
        destruct (cmp_cases (v_key r) (saved_user_key d)) as [[? _]|?]; [done|lia].
    + eexists _, _. split; [done|]. split; [by split_and!|]. split; [|done]. cbn.
      eapply round_hidden; [done..|]. intros Hx. rewrite Hx in Hb. apply orb_false_iff in Hb as [?%Z.eqb_neq ?%Z.ltb_ge]. lia.
Qed.

(** A seek to the key of [r], at most as new as [r], does not go back behind [r]. *)
Lemma seek_not_back P R r s t :
  vs = P ++ r :: R -> s <= v_seq r ->
  forall v, v ∈ vs -> ~ vlt cmp v (mkVersion s t (v_key r) []) -> v ∈ r :: R.
Proof.
  intros E Hs v Hv Ht. rewrite E in Hv. apply elem_of_app in Hv as [Hv|Hv]; [|done]. destruct Ht.
  assert (Hl : vlt cmp v r) by (apply (in_order P (r :: R)); [done|done|in_list]).
  apply vlt_spec; [done|]. apply vlt_spec in Hl as [Hl|[Hl Hl']]; [by left| |done]. right. split; [done|]. cbn. lia.
Qed.

Lemma seek_suffix P R r s t :
  vs = P ++ r :: R -> s <= v_seq r ->
  (length (filter (fun v => ~ vlt cmp v (mkVersion s t (v_key r) [])) vs) <= length (r :: R))%nat.
Proof.
  intros E Hs. rewrite E at 1. rewrite filter_app, (filter_none _ P); [apply length_filter|].
  intros p Hp Ht. pose proof (seek_not_back P R r s t E Hs p) as Hback. rewrite E in Hback.
  assert (Hpr : p ∈ r :: R) by (apply Hback; [in_list|done]).
  pose proof (in_order P (r :: R) p p E Hp Hpr) as Hl. unfold vlt, version_cmp in Hl. rewrite cmp_refl in Hl by done.
  cbn in Hl. rewrite Z.gtb_ltb, Z.ltb_irrefl in Hl. lia.
Qed.

(** The reseek goes to a place behind which nothing is wanted: either all of it is
    skipped, or all of it is too new. *)
Lemma reseek_skipping P R r x0 x d t A B :
  vs = P ++ r :: R -> round_done P R r x0 x d -> v_key r = saved_user_key d -> skipping_saved_key x = true ->
  seek_split cmp vs A B (mkVersion 0 t (saved_user_key d) []) ->
  forward_inv (mkSkipVars true 0 true) (saved_user_key d) false A B.
Proof.
  intros E [Hinv _] Hk Hx (EAB & HA & HB).
  assert (Hbelow : forall p, p ∈ A -> cmp (v_key p) (saved_user_key d) <= 0).
  { intros p Hp. destruct (HA p Hp) as [Hlt|(Ek & _)]; [|rewrite Ek; cbn; by rewrite cmp_refl].
    apply vlt_spec in Hlt as [Hlt|[Hlt _]]; cbn in Hlt; [lia| |done]. by rewrite Hlt, cmp_refl. }
  assert (Hr0 : 0 <= v_seq r) by (apply (Hversions r); rewrite E; in_list).
  assert (HR : forall v, v ∈ B -> v = r \/ v ∈ R).
  { intros v Hv. pose proof (HB v Hv) as Hn. rewrite <- Hk in Hn. apply elem_of_cons. eapply seek_not_back; [done..| |done]. rewrite EAB. in_list. }
  split; cbn.
  - intros p Hp. assert (Hin : p ∈ vs) by (rewrite EAB; in_list). rewrite E, cons_middle, app_assoc in Hin.
    apply elem_of_app in Hin as [Hin|Hin]; [by eapply fi_passed|]. eapply fi_skip; eauto.
  - intros p r' Hp _ _ <-. auto.
  - intros r' _ [->|Hr']%HR Hle; [|by eapply fi_skip]. eapply fi_passed; [done|in_list].
  - intros r' [->|Hr']%HR Hns; [|eapply fi_above; eauto]. specialize (Hns eq_refl). rewrite Hk, cmp_refl in Hns by done. lia.
  - intros r' _ [->|Hr']%HR; [|by eapply fi_ge]. by rewrite Hk, cmp_refl.
  - done.
Qed.

Lemma reseek_hidden P R r x0 x d t :
  vs = P ++ r :: R -> round_done P R r x0 x d -> v_key r = saved_user_key d -> skipping_saved_key x = false ->
  seqno < v_seq r ->
  let target := mkVersion seqno t (saved_user_key d) [] in
  forward_inv (mkSkipVars false 0 true) (saved_user_key d) false
    (filter (fun v => vlt cmp v target) vs) (filter (fun v => ~ vlt cmp v target) vs).
Proof.
  intros E [Hinv _] Hk Hx Hr target. assert (E' : vs = (P ++ [r]) ++ R) by (by rewrite <- app_assoc).
  assert (HR : forall v, v ∈ filter (fun v => ~ vlt cmp v target) vs -> v ∈ R).
  { intros v [Hn Hv]%list_elem_of_filter. unfold target in Hn. rewrite <- Hk in Hn.
    assert (Hin : v ∈ r :: R) by (eapply seek_not_back; [done| |done|done]; lia).
    apply elem_of_cons in Hin as [->|]; [|done]. destruct Hn. apply vlt_spec; [done|]. by right. }
  assert (Hnew : forall p, p ∈ R -> vlt cmp p target -> seqno < v_seq p).
  { intros p Hp Hlt. pose proof (in_order_le (P ++ [r]) R r p E' ltac:(in_list) Hp) as Hle.
    apply vlt_spec in Hlt as [Hlt|[_ Hlt]]; cbn in Hlt; [|done..]. rewrite Hk in Hle.
    destruct (cmp_cases (v_key p) (saved_user_key d)) as [(_ & ? & _)|?]; lia. }
  split; cbn; try done.
  - intros p [Hp Hin]%list_elem_of_filter. rewrite E' in Hin.
    apply elem_of_app in Hin as [Hin|Hin]; [by eapply fi_passed|]. specialize (Hnew p Hin Hp). intros [(? & _) _]. lia.
  - intros p r' [Hp Hin]%list_elem_of_filter Hr'%HR Hv Hkk. rewrite E' in Hin.
    apply elem_of_app in Hin as [Hin|Hin]; [|specialize (Hnew p Hin Hp); lia].
    destruct (fi_visible _ _ _ _ _ Hinv p r' Hin Hr' Hv Hkk). congruence.
  - intros r' Hr'%HR _. eapply fi_above; [done..|congruence].
Qed.

Lemma advance_ok P R r x0 x d :
  vs = P ++ r :: R -> round_done P R r x0 x d -> stands_at (di_iter d) (Some r) ->
  di_is_key_seqnum_zero d = (v_seq r =? 0) ->
  exists x' d' P' R', advance o x d = Some (x', d') /\ vs = P' ++ R' /\ stands_at (di_iter d') (head R') /\
    forward_inv x' (saved_user_key d') (di_is_key_seqnum_zero d') P' R' /\
    di_status d' = di_status d /\ di_direction d' = di_direction d /\
    di_current_entry_is_merged d' = di_current_entry_is_merged d /\
    (2 * length R' + (if reseek_done x' then 0 else 1) < 2 * length (r :: R) + (if reseek_done x0 then 0 else 1))%nat.
Proof.
  intros E Hd Hst Hz. unfold advance. destruct Ho as (Hseq & Hmax & _).
  destruct ((num_skipped x >? opt_max_skip o) && negb (reseek_done x)) eqn:Hb.
  - apply andb_true_iff in Hb as [Hn Hrd%negb_true_iff]. rewrite Z.gtb_ltb in Hn. apply Z.ltb_lt in Hn.
    pose proof (proj2 Hd) as Hfacts. destruct Hfacts as (Hk & Hrd0 & Hhid); [lia|]. rewrite Hrd in Hrd0.
    assert (Hr : r ∈ vs) by (rewrite E; in_list). destruct (Hversions r Hr) as [((Hs0 & _) & _) Hsk]. rewrite Hk in Hsk.
    change (0 <= v_seq r <= kMaxSequenceNumber) in Hs0.
    set (s := if skipping_saved_key x then 0 else seqno).
    set (t := if skipping_saved_key x then kTypeDeletion else kValueTypeForSeek).
    assert (Hp : parsed_ok (mkParsed (saved_user_key d) s t)).
    { unfold s, t. destruct (skipping_saved_key x); split; cbn; [lia|done|lia|done]. }
    assert (Hs : s <= v_seq r) by (unfold s; destruct (skipping_saved_key x); [lia|by apply Z.lt_le_incl, Hhid]).
    destruct (inner_Seek_split (set_zero false d) _ _ s t Hst Hsk Hp) as (i & A & B & Es & Hsp & Hi).
    assert (Ek : (if skipping_saved_key x then AppendInternalKey [] (mkParsed (saved_user_key d) 0 kTypeDeletion)
      else AppendInternalKey [] (mkParsed (saved_user_key d) seqno kValueTypeForSeek)) = encode (mkParsed (saved_user_key d) s t)).
    { unfold s, t. by destruct (skipping_saved_key x). }
    rewrite Ek, Es. eexists _, _, A, B. split; [done|]. split; [apply Hsp|]. split; [exact Hi|].
    split_and!; [|done..|].
    + change (di_is_key_seqnum_zero _) with false. change (saved_user_key (set_iter i (set_zero false d))) with (saved_user_key d).
      unfold s, t in Hsp. destruct (skipping_saved_key x) eqn:Hx; [by eapply reseek_skipping|].
      apply seek_split_exact in Hsp as [-> ->]. eapply reseek_hidden; [done..|]. by apply Hhid.
    + cbn [reseek_done]. rewrite <- Hrd0. pose proof (seek_suffix P R r s t E Hs) as Hlen. rewrite Hk in Hlen.
      destruct Hsp as (EAB & _ & HB). rewrite EAB in Hlen at 1. rewrite filter_app, (filter_every _ B HB), length_app in Hlen. lia.
  - destruct (inner_Next_ok d P r R Hst E) as (i & -> & Hi).
    eexists x, _, (P ++ [r]), R. split; [done|]. split; [by rewrite <- app_assoc|]. split; [exact Hi|].
    split_and!; [|done..|cbn [length]; destruct (reseek_done x), (reseek_done x0); lia].
    change (di_is_key_seqnum_zero _) with (di_is_key_seqnum_zero d). rewrite Hz. apply Hd.
Qed.

Lemma find_next_loop_ok todo x d P R r :
  vs = P ++ r :: R -> stands_at (di_iter d) (Some r) ->
  forward_inv x (saved_user_key d) (di_is_key_seqnum_zero d) P (r :: R) ->
  di_status d = OK -> di_direction d = Forward -> di_current_entry_is_merged d = false ->
  (2 * length (r :: R) + (if reseek_done x then 0 else 1) <= todo)%nat ->
  exists b d', find_next_loop o fuel todo x d = Some (b, d') /\ forward_result d' (head (filter wanted vs)).
Proof.
  revert x d P R r. induction todo as [|todo IH]; intros x d P R r E Hst Hinv Hok Hdir Hm Ht; [cbn in Ht; lia|].
  cbn [find_next_loop]. rewrite (ParseKey_ok d r Hst) by (rewrite E; in_list). cbn -[examine advance].
  rewrite no_limit. cbn -[examine advance].
  set (d1 := set_skipped _ (set_zero (v_seq r =? 0) d)).
  destruct (examine_ok P R r x (di_is_key_seqnum_zero d) d1 E Hinv)
    as [(d' & Ee & Hw & (Fi & Fs & Fd & Fm & Fz) & Hv & Hk)|(x' & d' & Ee & (Fi & Fs & Fd & Fm & Fz) & Hd)]; rewrite Ee; cbn -[advance].
  - exists true, d'. split; [done|]. pose proof (filter_app wanted P (r :: R)) as Ef. rewrite <- E in Ef.
    rewrite Ef, (filter_none _ P).
    + rewrite filter_cons, decide_True by done. cbn. split; [by rewrite Fs|].
      rewrite Fi, Fd, Fm, Fz. split_and!; [done..|]. cbn. by intros ?%Z.eqb_eq.
    + by eapply fi_passed.
  - destruct (advance_ok P R r x x' d' E Hd) as (x2 & d2 & P2 & R2 & Ea & E2 & Hst2 & Hinv2 & As & Ad & Am & Hlt);
      [by rewrite Fi|by rewrite Fz|].
    rewrite Ea. cbn. rewrite (stands_at_Valid _ _ Hst2). destruct R2 as [|r2 R2].
    + eexists _, _. split; [done|]. rewrite app_nil_r in E2. rewrite filter_none by (intros p Hp; rewrite E2 in Hp; by eapply fi_passed).
      split; [by cbn; rewrite As, Fs|]. split; [by eexists|done].
    + apply (IH x2 d2 P2 R2 r2); [done|done|done| | | |lia].
      * by rewrite As, Fs.
      * by rewrite Ad, Fd.
      * by rewrite Am, Fm.
Qed.
End Forward.

Lemma find_next_ok (Q : version -> Prop) `{!forall v, Decision (Q v)} skipping d P R r :
  vs = P ++ r :: R -> stands_at (di_iter d) (Some r) ->
  forward_inv Q (mkSkipVars skipping 0 false) (saved_user_key d) (di_is_key_seqnum_zero d) P (r :: R) ->
  di_status d = OK -> di_direction d = Forward ->
  exists b d', FindNextUserEntryInternal o fuel skipping d = Some (b, d') /\
    forward_result d' (head (filter (fun v => shown seqno vs v /\ Q v) vs)).
Proof.
  intros E Hst Hinv Hok Hdir. unfold FindNextUserEntryInternal. rewrite (stands_at_Valid _ _ Hst). cbn -[find_next_loop].
  rewrite !decide_True by done. apply (find_next_loop_ok Q fuel _ _ P R r); try done.
  assert (length vs = (length P + length (r :: R))%nat) by (by rewrite E, length_app). cbn [reseek_done]. lia.
Qed.

(** *** Backwards *)

#[local] Arguments saved_user_key : simpl never.
#[local] Arguments IterKey_GetInternalKey : simpl never.

Lemma internal_key_set k s t : IterKey_GetInternalKey (IterKey_SetInternalKey k s t) = Some (encode (mkParsed k s t)).
Proof. done. Qed.

(** The versions of smaller keys, and the others. *)
Definition below_key (u : bytes) : list version := filter (fun v => cmp (v_key v) u < 0) vs.

Lemma below_key_split u : below_key u ++ filter (fun v => ~ cmp (v_key v) u < 0) vs = vs.
Proof.
  symmetry. apply (sorted_partition (vlt cmp)); [done|]. intros a b _ _ Hab Hb.
  apply vlt_spec in Hab as [Hab|[-> _]]; [|done..]. by eapply cmp_trans.
Qed.

(** A prefix of smaller keys in front of keys that are not smaller. *)
Lemma below_key_app u A B : vs = A ++ B -> (forall a, a ∈ A -> cmp (v_key a) u < 0) ->
  (forall b, b ∈ B -> ~ cmp (v_key b) u < 0) -> below_key u = A.
Proof.
  intros E HA HB. unfold below_key. rewrite E, filter_app, (filter_none _ B) by done.
  rewrite app_nil_r. by apply filter_every.
Qed.

(** A seek to the newest possible version of [u] comes to the first key not below [u]. *)
Lemma seek_max_filter u : filter (fun v => ~ vlt cmp v (mkVersion kMaxSequenceNumber kValueTypeForSeek u [])) vs
  = filter (fun v => ~ cmp (v_key v) u < 0) vs.
Proof.
  apply filter_same. intros v Hv. rewrite vlt_spec by done. cbn.
  destruct (Hversions v Hv) as [((Hs & _) & _) _]. change (0 <= v_seq v <= kMaxSequenceNumber) in Hs. intuition lia.
Qed.

Lemma seek_max_at d c u : stands_at (di_iter d) c -> seekable u ->
  exists i, inner_Seek (encode (mkParsed u kMaxSequenceNumber kValueTypeForSeek)) d = Some (set_iter i d) /\
    stands_at i (head (filter (fun v => ~ cmp (v_key v) u < 0) vs)).
Proof.
  intros Hst Hu. destruct (inner_Seek_ok d c u kMaxSequenceNumber Hst Hu (seek_max_ok u)) as (i & E & Hi).
  exists i. by rewrite seek_max_filter in Hi.
Qed.

Lemma not_below_rest u X : vs = below_key u ++ X -> X = filter (fun v => ~ cmp (v_key v) u < 0) vs.
Proof. intros E. apply (app_inv_head (below_key u)). by rewrite <- E, below_key_split. Qed.

Context (Hmax : below_max vs).

(** From a place at or behind the key, the loop moves in front of it. *)
Lemma before_saved_loop_ok todo n d B1 B2 :
  vs = below_key (saved_user_key d) ++ B1 ++ B2 -> seekable (saved_user_key d) ->
  stands_at (di_iter d) (last (below_key (saved_user_key d) ++ B1)) -> (length B1 < todo)%nat ->
  exists i m, before_saved_loop o todo n d = Some (true, set_skipped m (set_iter i d)) /\
    stands_at i (last (below_key (saved_user_key d))).
Proof.
  set (u := saved_user_key d). revert n d B1 B2 u. induction todo as [|todo IH]; intros n d B1 B2 u E Hsk Hst Ht; [lia|].
  cbn [before_saved_loop]. destruct B1 as [|v B1 _] using rev_ind.
  - rewrite app_nil_r in Hst. rewrite (stands_at_Valid _ _ Hst).
    exists (di_iter d), (di_num_internal_keys_skipped d). split; [|done].
    destruct (last (below_key u)) as [v|] eqn:Hl; cbn; [|rewrite (stands_at_status _ _ Hst); by destruct d].
    apply last_Some_elem_of, list_elem_of_filter in Hl as [Hlt Hv]. rewrite (ParseKey_ok d v Hst Hv). cbn.
    change (saved_user_key d) with u. apply Z.ltb_lt in Hlt. rewrite Hlt. by destruct d.
  - rewrite app_assoc, last_snoc in Hst. rewrite (stands_at_Valid _ _ Hst). cbn -[before_saved_loop].
    pose proof (not_below_rest u _ E) as Erest.
    assert (Hv : v ∈ filter (fun v => ~ cmp (v_key v) u < 0) vs) by (rewrite <- Erest; in_list).
    apply list_elem_of_filter in Hv as [Hge Hv]. rewrite (ParseKey_ok d v Hst Hv). cbn -[before_saved_loop].
    change (saved_user_key d) with u. apply Z.ltb_nlt in Hge. rewrite Hge, no_limit. cbn -[before_saved_loop].
    assert (Hvmax : v_seq v < kMaxSequenceNumber).
    { unfold below_max in Hmax. rewrite Forall_forall in Hmax. by apply Hmax. }
    rewrite (proj2 (Z.eqb_neq _ _)) by lia. rewrite length_app in Ht. cbn in Ht.
    set (d1 := set_skipped _ d). destruct (n >=? opt_max_skip o).
    + rewrite internal_key_set. cbn -[before_saved_loop encode].
      destruct (seek_max_at d1 _ u Hst Hsk) as (i & Ei & Hi). change (saved_user_key d1) with u. rewrite Ei.
      rewrite <- Erest in Hi. destruct ((B1 ++ [v]) ++ B2) as [|b B] eqn:EB; [by destruct B1|].
      cbn -[before_saved_loop]. rewrite (stands_at_Valid _ _ Hi). cbn -[before_saved_loop].
      destruct (inner_Prev_ok (set_iter i d1) (below_key u) b B Hi E) as (i2 & -> & Hi2). cbn -[before_saved_loop].
      destruct (IH 0 (set_iter i2 (set_iter i d1)) [] (b :: B)) as (i' & m & -> & Hi').
      * exact E.
      * done.
      * rewrite app_nil_r. exact Hi2.
      * cbn. lia.
      * exists i', m. by split.
    + destruct (inner_Prev_ok d1 (below_key u ++ B1) v B2 Hst) as (i & -> & Hi).
      { rewrite E at 1. by rewrite <- !app_assoc. }
      cbn. destruct (IH (u64 (n + 1)) (set_iter i d1) B1 (v :: B2)) as (i' & m & -> & Hi').
      * rewrite <- app_assoc in E. exact E.
      * done.
      * exact Hi.
      * lia.
      * exists i', m. by split.
Qed.

(** The entries [G] of one key [u], between the smaller keys and the larger ones. *)
Section OneKey.
Context (u : bytes) (A G C : list version).
Context (Hsplit : vs = A ++ G ++ C).
Context (HA : forall a, a ∈ A -> cmp (v_key a) u < 0) (HG : forall g, g ∈ G -> v_key g = u).
Context (HC : forall c, c ∈ C -> 0 < cmp (v_key c) u) (Hu : seekable u).

(** Those that are visible, the newest first. *)
Definition seen : list version := filter (fun v => v_seq v <= seqno) G.

Definition head_type (l : list version) : Z := from_option v_type kTypeDeletion (head l).

(** What the search for the value of the key comes to. *)
Definition value_result d d' : Prop :=
  di_status d' = di_status d /\ di_saved_key d' = di_saved_key d /\ di_direction d' = di_direction d /\
  di_current_entry_is_merged d' = false /\
  (exists G1 G2, G = G1 ++ G2 /\ stands_at (di_iter d') (last (A ++ G1))) /\
  di_valid d' = (head_type seen =? kTypeValue) /\
  (di_valid d' = true -> di_pinned_value d' = v_value <$> head seen).

Lemma group_in g : g ∈ G -> g ∈ vs /\ plain_type (v_type g).
Proof.
  intros Hg. assert (Hv : g ∈ vs) by (rewrite Hsplit; in_list). split; [done|].
  unfold plain_versions in Hplain. rewrite Forall_forall in Hplain. by apply Hplain.
Qed.

(** The seek to the visible entries of the key. *)
Lemma seek_seen t : filter (fun v => ~ vlt cmp v (mkVersion seqno t u [])) vs = seen ++ C.
Proof.
  rewrite Hsplit, !filter_app, (filter_none _ A), (filter_every _ C).
  - cbn. f_equal. apply filter_same. intros g Hg. rewrite vlt_spec by done. cbn. rewrite (HG g Hg), cmp_refl by done.
    intuition lia.
  - intros c Hc. rewrite vlt_spec by done. cbn. specialize (HC c Hc). intros [?|[Ec _]]; [lia|].
    rewrite Ec, cmp_refl in HC by done. lia.
  - intros a Ha Hn. apply Hn, vlt_spec; [done|]. left. by apply HA.
Qed.

Lemma using_seek_ok d c : saved_user_key d = u -> stands_at (di_iter d) c -> di_current_entry_is_merged d = false ->
  seen <> [] -> exists d', FindValueForCurrentKeyUsingSeek o fuel d = Some (true, d') /\ value_result d d'.
Proof.
  intros Hk Hst Hm Hne. unfold FindValueForCurrentKeyUsingSeek. rewrite Hk.
  destruct (inner_Seek_ok d c u seqno Hst Hu) as (i & Ei & Hi); [apply seek_key_ok, Ho|].
  change (AppendInternalKey [] (mkParsed u seqno kValueTypeForSeek)) with (encode (mkParsed u seqno kValueTypeForSeek)).
  rewrite Ei. rewrite seek_seen in Hi. destruct seen as [|g l] eqn:Es; [done|]. cbn in Hi.
  cbn -[seek_visible merge_using_seek]. destruct (filter_cons_split _ _ _ _ Es) as (G1 & G2 & EG & Hg & _).
  destruct (group_in g) as [Hgv Ht]; [rewrite EG; in_list|].
  assert (Ev : seek_visible o fuel (set_blob false (set_iter i d)) = Some (inr (v_parsed g, set_blob false (set_iter i d)))).
  { destruct fuel as [|f]; [lia|]. cbn [seek_visible di_iter set_blob set_iter].
    rewrite (stands_at_Valid _ _ Hi). cbn -[seek_visible].
    rewrite (ParseKey_ok (set_blob false (set_iter i d)) g Hi Hgv). cbn -[seek_visible].
    change (saved_user_key (set_blob false (set_iter i d))) with (saved_user_key d).
    rewrite Hk, HG, cmp_refl by (done || rewrite EG; in_list). cbn. unfold IsVisible. rewrite (proj2 (Z.leb_le _ _)) by done. done. }
  rewrite Ev. cbn -[merge_using_seek].
  assert (Hpos : exists G1 G2, G = G1 ++ G2 /\ stands_at i (last (A ++ G1))).
  { exists (G1 ++ [g]), G2. split; [by rewrite <- app_assoc|]. by rewrite app_assoc, last_snoc. }
  destruct Ht as [Ht|[Ht|Ht]]; rewrite Ht; cbn -[merge_using_seek].
  - rewrite (stands_at_value _ _ Hi). cbn. eexists. split; [done|].
    unfold value_result, head_type. rewrite Es. cbn. rewrite Ht. by split_and!.
  - eexists. split; [done|]. unfold value_result, head_type. rewrite Es. cbn. rewrite Ht. by split_and!.
  - eexists. split; [done|]. unfold value_result, head_type. rewrite Es. cbn. rewrite Ht. by split_and!.
Qed.

(** Where the loop stops, everything visible has been passed. *)
Lemma seen_passed G1 G2 : G = G1 ++ G2 -> (forall g, g ∈ G2 -> v_seq g <= seqno) ->
  (forall g, last G1 = Some g -> seqno < v_seq g) -> seen = G2.
Proof.
  intros EG H2 H1. unfold seen. rewrite EG, filter_app, (filter_none _ G1), (filter_every _ G2); [done|done|].
  intros g Hg Hv. destruct (last G1) as [l|] eqn:Hl; [|apply last_None in Hl; subst; by apply elem_of_nil in Hg].
  specialize (H1 l eq_refl). apply last_Some in Hl as [G0 ->]. apply in_snoc in Hg as [Hg| ->]; [|lia].
  assert (Hlt : vlt cmp g l).
  { apply (in_order (A ++ G0) ([l] ++ G2 ++ C)); [|in_list|in_list]. rewrite Hsplit, EG. by rewrite <- !app_assoc. }
  apply vlt_spec in Hlt as [Hlt|[_ Hlt]]; [|lia|done].
  rewrite (HG g), (HG l), cmp_refl in Hlt by (done || rewrite EG; in_list). lia.
Qed.

(** The loop has passed [G2], and holds the type and the value of its first entry. *)
Definition loop_state d d0 (t : Z) (G1 G2 : list version) : Prop :=
  di_status d = di_status d0 /\ di_saved_key d = di_saved_key d0 /\ di_direction d = di_direction d0 /\
  di_current_entry_is_merged d = false /\ G = G1 ++ G2 /\ stands_at (di_iter d) (last (A ++ G1)) /\
  t = head_type G2 /\ (t = kTypeValue -> di_pinned_value d = v_value <$> head G2).

Definition loop_result d0 (r : option ((bool * DBIter I) + Z * Z * DBIter I)) : Prop :=
  (exists d', r = Some (inl (true, d')) /\ value_result d0 d') \/
  (exists t nm d' G1 G2, r = Some (inr (t, nm, d')) /\ loop_state d' d0 t G1 G2 /\ seen = G2).

Lemma find_value_step d d0 t nm G1 g G2 n :
  loop_state d d0 t (G1 ++ [g]) G2 -> saved_user_key d0 = u ->
  exists nm' i d', loop_state (set_iter i d') d0 (v_type g) G1 (g :: G2) /\
    forall todo, v_seq g <= seqno -> (n >=? opt_max_skip o) = false ->
      find_value_loop o fuel (S todo) t nm n d = find_value_loop o fuel todo (v_type g) nm' (u64 (n + 1)) (set_iter i d').
Proof.
  intros (Ls & Lk & Ld & Lm & EG & Lst & Lt & Lp) Hk. rewrite app_assoc, last_snoc in Lst.
  destruct (group_in g) as [Hgv Ht]; [rewrite EG; in_list|].
  set (d1 := set_skipped (u64 (di_num_internal_keys_skipped d + 1)) d).
  set (d2 := if v_type g =? kTypeValue then set_operands [] (set_pinned (Some (v_value g)) d1) else set_operands [] d1).
  assert (Hst2 : stands_at (di_iter d2) (Some g)) by (unfold d2; by destruct (v_type g =? kTypeValue)).
  assert (Evs : vs = (A ++ G1) ++ g :: G2 ++ C) by (rewrite Hsplit, EG; by rewrite <- !app_assoc).
  destruct (inner_Prev_ok d2 (A ++ G1) g (G2 ++ C) Hst2 Evs) as (i & Ei & Hi).
  exists (v_type g), i, d2. split.
  - rewrite <- app_assoc in EG. unfold d2, loop_state, head_type. cbn.
    destruct Ht as [Ht|[Ht|Ht]]; rewrite Ht; cbn; split_and!; done.
  - intros todo Hv Hn. cbn [find_value_loop]. rewrite (stands_at_Valid _ _ Lst). cbn -[find_value_loop].
    rewrite (ParseKey_ok d g Lst Hgv). cbn -[find_value_loop]. unfold IsVisible. rewrite (proj2 (Z.leb_le _ _)) by done.
    replace (saved_user_key d) with u by (unfold saved_user_key; rewrite Lk; by symmetry).
    rewrite HG, cmp_refl by (done || rewrite EG; in_list). cbn -[find_value_loop]. rewrite no_limit, Hn.
    revert Ei. unfold d2. destruct Ht as [Ht|[Ht|Ht]]; rewrite Ht; cbn -[find_value_loop]; intros Ei.
    + change (di_iter d1) with (di_iter d). rewrite (stands_at_value _ _ Lst). cbn -[find_value_loop]. fold d1. by rewrite Ei.
    + fold d1. by rewrite Ei.
    + fold d1. by rewrite Ei.
Qed.

Lemma find_value_loop_ok todo d d0 t nm n G1 G2 :
  loop_state d d0 t G1 G2 -> saved_user_key d0 = u -> (forall g, g ∈ G2 -> v_seq g <= seqno) -> (length G1 < todo)%nat ->
  loop_result d0 (find_value_loop o fuel todo t nm n d).
Proof.
  revert d t nm n G1 G2. induction todo as [|todo IH]; intros d t nm n G1 G2 Hl Hk H2 Ht; [lia|].
  assert (Hkd : saved_user_key d = u) by (destruct Hl as (_ & Lk & _); unfold saved_user_key; by rewrite Lk).
  pose proof Hl as (Ls & Lk & Ld & Lm & EG & Lst & Lt & Lp).
  destruct G1 as [|g G1 _] using rev_ind.
  - right. exists t, nm, d, [], G2. split; [|split; [done|by apply (seen_passed [] G2)]].
    rewrite app_nil_r in Lst. cbn [find_value_loop]. rewrite (stands_at_Valid _ _ Lst).
    destruct (last A) as [a|] eqn:Ha; [|done]. apply last_Some_elem_of in Ha. cbn -[find_value_loop].
    rewrite (ParseKey_ok d a Lst) by (rewrite Hsplit; in_list). cbn -[find_value_loop]. specialize (HA a Ha).
    rewrite Hkd, (proj2 (Z.eqb_neq (cmp (v_key a) u) 0)), orb_true_r by lia. done.
  - destruct (Z.leb_spec (v_seq g) seqno) as [Hv|Hv].
    + destruct (n >=? opt_max_skip o) eqn:Hn.
      * left. rewrite app_assoc, last_snoc in Lst. destruct (group_in g) as [Hgv _]; [rewrite EG; in_list|].
        cbn [find_value_loop]. rewrite (stands_at_Valid _ _ Lst). cbn -[find_value_loop].
        rewrite (ParseKey_ok d g Lst Hgv). cbn -[find_value_loop]. unfold IsVisible. rewrite (proj2 (Z.leb_le _ _)) by done.
        rewrite Hkd, HG, cmp_refl by (done || rewrite EG; in_list). cbn -[find_value_loop]. rewrite no_limit, Hn.
        set (d1 := set_skipped _ d). destruct (using_seek_ok d1 (Some g)) as (d' & -> & Hres); [done..| |].
        { intros Es. eapply (filter_nil_not_elem_of _ G g); [exact Es|done|]. rewrite EG. in_list. }
        exists d'. split; [done|]. unfold value_result in *. by rewrite <- Ls, <- Lk, <- Ld.
      * destruct (find_value_step d d0 t nm G1 g G2 n Hl Hk) as (nm' & i & d' & Hl' & Estep).
        rewrite Estep by done. apply (IH (set_iter i d') _ _ _ G1 (g :: G2)); [done|done| |].
        -- intros g' [->|Hg']%elem_of_cons; auto.
        -- rewrite length_app in Ht. cbn in Ht. lia.
    + right. exists t, nm, d, (G1 ++ [g]), G2. split; [|split; [done|]].
      * rewrite app_assoc, last_snoc in Lst. destruct (group_in g) as [Hgv _]; [rewrite EG; in_list|].
        cbn [find_value_loop]. rewrite (stands_at_Valid _ _ Lst). cbn -[find_value_loop].
        rewrite (ParseKey_ok d g Lst Hgv). cbn -[find_value_loop]. unfold IsVisible. by rewrite (proj2 (Z.leb_gt _ _)).
      * apply (seen_passed (G1 ++ [g]) G2); [done..|]. rewrite last_snoc. by intros g' [= <-].
Qed.

(** Of one key at most the newest visible version is shown. *)
Lemma shown_group : filter (shown seqno vs) G = if head_type seen =? kTypeValue then take 1 seen else [].
Proof.
  assert (Hold : forall G1 g G2 r, G = G1 ++ g :: G2 -> v_seq g <= seqno -> r ∈ G2 -> ~ shown seqno vs r).
  { intros G1 g G2 r EG Hg Hr. apply (shadowed (A ++ G1 ++ [g]) (G2 ++ C) g r); [|in_list|in_list|done|].
    - rewrite Hsplit, EG. by rewrite <- !app_assoc.
    - by rewrite (HG g), (HG r) by (rewrite EG; in_list). }
  destruct seen as [|g l] eqn:Es; unfold seen in Es.
  - cbn. apply filter_none. intros g Hg (Hv & _). by apply (filter_nil_not_elem_of _ _ g Es Hv).
  - destruct (filter_cons_split _ _ _ _ Es) as (G1 & G2 & EG & Hg & E1 & _). unfold head_type. cbn.
    rewrite EG, filter_app, (filter_none _ G1), filter_cons, (filter_none _ G2).
    2: by eauto. 2:{ intros r Hr (Hv & _). by apply (filter_nil_not_elem_of _ _ r E1 Hv). }
    destruct (Z.eqb_spec (v_type g) kTypeValue) as [Ht|Ht].
    + rewrite decide_True; [done|]. split_and!; [done|done|]. apply Forall_forall. intros v Hin Hk Hv.
      rewrite (HG g) in Hk by (rewrite EG; in_list). rewrite Hsplit, EG in Hin.
      apply elem_of_app in Hin as [Hin|[[Hin|[->|Hin]%elem_of_cons]%elem_of_app|Hin]%elem_of_app]; [| |done| |].
      * specialize (HA v Hin). rewrite Hk, cmp_refl in HA by done. lia.
      * by destruct (filter_nil_not_elem_of _ _ v E1 Hv).
      * assert (Hl : vlt cmp g v).
        { apply (in_order (A ++ G1 ++ [g]) (G2 ++ C)); [|in_list|in_list]. rewrite Hsplit, EG. by rewrite <- !app_assoc. }
        apply vlt_spec in Hl as [Hl|[_ Hl]]; [|lia|done]. rewrite Hk, (HG g), cmp_refl in Hl by (done || rewrite EG; in_list). lia.
      * specialize (HC v Hin). rewrite Hk, cmp_refl in HC by done. lia.
    + by rewrite decide_False by (intros (_ & ? & _); done).
Qed.

Lemma find_value_ok d : saved_user_key d = u -> G <> [] -> stands_at (di_iter d) (last (A ++ G)) ->
  exists d', FindValueForCurrentKey o fuel d = Some (true, d') /\ value_result d d'.
Proof.
  intros Hk HGne Hst. unfold FindValueForCurrentKey. rewrite (stands_at_Valid _ _ Hst).
  rewrite (bool_decide_eq_true_2 (is_Some _)).
  2:{ destruct G as [|g l _] using rev_ind; [done|]. rewrite app_assoc, last_snoc. by eexists. }
  cbn -[find_value_loop]. set (d1 := set_merged false (set_operands [] d)).
  assert (Hlen : (length G <= length vs)%nat) by (rewrite Hsplit, !length_app; lia).
  destruct (find_value_loop_ok fuel d1 d kTypeDeletion kTypeDeletion 0 G [])
    as [(d' & -> & Hres)|(t & nm & d' & G1 & G2 & -> & (Ls & Lk & Ld & Lm & EG & Lst & Lt & Lp) & Es)].
  - split_and!; try done. by rewrite app_nil_r.
  - done.
  - intros g Hg. by apply elem_of_nil in Hg.
  - lia.
  - by exists d'.
  - cbn. rewrite (stands_at_status _ _ Lst). cbn. assert (Htp : t = kTypeValue \/ t = kTypeDeletion \/ t = kTypeSingleDeletion).
    { rewrite Lt. unfold head_type. destruct G2 as [|g G2]; [right; by left|]. apply group_in. rewrite EG. in_list. }
    destruct Htp as [Ht|[Ht|Ht]]; rewrite Ht in *; cbn; eexists; (split; [done|]);
      unfold value_result; rewrite Es, <- Lt; split_and!; try done; eauto.
Qed.
End OneKey.

(** The iterator shows [r] and stands in front of its key, or is not valid. *)
Definition backward_result d (r : option version) : Prop :=
  di_status d = OK /\
  match r with
  | Some v => stands_at (di_iter d) (last (below_key (v_key v))) /\ di_valid d = true /\ di_direction d = Reverse /\
      di_current_entry_is_merged d = false /\ saved_user_key d = v_key v /\ di_pinned_value d = Some (v_value v)
  | None => (exists c, stands_at (di_iter d) c) /\ di_valid d = false
  end.

(** The last key of a prefix whose keys are all smaller than those after it. *)
Lemma last_key_split P C v : vs = (P ++ [v]) ++ C -> (forall p c, p ∈ P ++ [v] -> c ∈ C -> cmp (v_key p) (v_key c) < 0) ->
  exists G, P ++ [v] = below_key (v_key v) ++ G /\ vs = below_key (v_key v) ++ G ++ C /\ G <> [] /\
    (forall g, g ∈ G -> v_key g = v_key v) /\ (forall c, c ∈ C -> 0 < cmp (v_key c) (v_key v)).
Proof.
  intros E Hc. exists (filter (fun p => ~ cmp (v_key p) (v_key v) < 0) (P ++ [v])).
  assert (HC : forall c, c ∈ C -> 0 < cmp (v_key c) (v_key v)) by (intros c Hin; apply cmp_flip, Hc; [in_list|done]).
  assert (Hb : below_key (v_key v) = filter (fun p => cmp (v_key p) (v_key v) < 0) (P ++ [v])).
  { unfold below_key. rewrite E, (filter_app _ (P ++ [v]) C), (filter_none _ C), app_nil_r; [done|].
    intros c Hin. specialize (HC c Hin). lia. }
  pose proof (below_key_split (v_key v)) as Hs. rewrite Hb, E, (filter_app _ (P ++ [v]) C), (filter_every _ C), app_assoc in Hs.
  2:{ intros c Hin. specialize (HC c Hin). lia. }
  apply app_inv_tail in Hs. rewrite Hb. split_and!; [done|by rewrite app_assoc, Hs| | |done].
  - intros En. apply (filter_nil_not_elem_of _ _ v En); [rewrite cmp_refl by done; lia|in_list].
  - intros g [Hg Hin]%list_elem_of_filter. apply in_snoc in Hin as [Hin| ->]; [|done].
    assert (Hle : cmp (v_key g) (v_key v) <= 0).
    { apply (in_order_le P ([v] ++ C)); [by rewrite E, <- app_assoc|done|in_list]. }
    destruct (cmp_cases (v_key g) (v_key v)) as [[? _]|?]; [done|lia].
Qed.

Lemma below_key_lt u a : a ∈ below_key u -> cmp (v_key a) u < 0.
Proof. by intros [? _]%list_elem_of_filter. Qed.

Lemma prev_internal_loop_ok todo d P C :
  vs = P ++ C -> (forall p c, p ∈ P -> c ∈ C -> cmp (v_key p) (v_key c) < 0) ->
  stands_at (di_iter d) (last P) -> di_status d = OK -> di_direction d = Reverse -> (length P < todo)%nat ->
  exists d', prev_internal_loop o fuel todo d = Some d' /\ backward_result d' (last (filter (shown seqno vs) P)).
Proof.
  revert d P C. induction todo as [|todo IH]; intros d P C E Hc Hst Hok Hdir Ht; [lia|].
  cbn [prev_internal_loop]. rewrite (stands_at_Valid _ _ Hst). destruct P as [|v P _] using rev_ind.
  { eexists. split; [done|]. split; [done|]. split; [by eexists|done]. }
  rewrite last_snoc in Hst |- *. cbn -[prev_internal_loop FindValueForCurrentKey FindUserKeyBeforeSavedKey filter].
  destruct (last_key_split P C v E Hc) as (G & EP & Evs & HGne & HG & HC). set (A := below_key (v_key v)) in *.
  assert (Hv : v ∈ vs) by (rewrite E; in_list). destruct (Hversions v Hv) as [[Hp _] Hsk].
  rewrite (stands_at_key _ _ Hst). cbn -[prev_internal_loop FindValueForCurrentKey FindUserKeyBeforeSavedKey filter encode].
  destruct (encode_footer _ Hp) as [-> _]. change (pk_user_key (v_parsed v)) with (v_key v).
  set (d1 := set_saved_key (IterKey_SetUserKey (v_key v)) d).
  destruct (find_value_ok (v_key v) A G C Evs (below_key_lt _) HG HC Hsk d1)
    as (d2 & -> & (Vs & Vk & Vd & Vm & (G1 & G2 & EG & Vst) & Vv & Vp)); [done|done|rewrite <- EP, last_snoc; exact Hst|].
  cbn -[prev_internal_loop FindUserKeyBeforeSavedKey filter].
  unfold FindUserKeyBeforeSavedKey. rewrite decide_True by (by rewrite Vs).
  assert (Hk2 : saved_user_key d2 = v_key v) by (unfold saved_user_key; by rewrite Vk).
  destruct (before_saved_loop_ok fuel 0 d2 G1 (G2 ++ C)) as (i & m & -> & Hi); rewrite ?Hk2.
  { rewrite Evs at 1. rewrite EG. by rewrite <- app_assoc. } { done. } { done. }
  { assert (length vs = length (A ++ G1 ++ G2 ++ C)) by (rewrite Evs at 1; rewrite EG; by rewrite <- app_assoc).
    rewrite !length_app in *. lia. }
  rewrite Hk2 in Hi. fold A in Hi. cbn -[prev_internal_loop filter]. rewrite EP, filter_app.
  rewrite (shown_group (v_key v) A G C Evs (below_key_lt _) HG HC).
  destruct (di_valid d2) eqn:Hv2; rewrite <- Vv.
  - eexists. split; [done|]. specialize (Vp eq_refl). unfold head_type in Vv.
    destruct (seen G) as [|g l] eqn:Es; [done|].
    change (take 1 (g :: l)) with [g]. rewrite last_snoc.
    assert (Hg : g ∈ G) by (apply (list_elem_of_filter (fun v => v_seq v <= seqno)); fold (seen G); rewrite Es; by left).
    split; [by cbn; rewrite Vs|]. cbn. rewrite (HG g Hg). by rewrite Vd.
  - rewrite no_limit. cbn -[prev_internal_loop filter]. rewrite app_nil_r.
    apply (IH _ A (G ++ C)); [done| |done|by cbn; rewrite Vs|by cbn; rewrite Vd|].
    + intros p c Hp' Hin. apply below_key_lt in Hp'. apply elem_of_app in Hin as [Hin|Hin]; [by rewrite (HG c Hin)|].
      eapply cmp_trans; [done|]. apply cmp_flip. by apply HC.
    + apply (f_equal length) in EP. rewrite !length_app in EP. rewrite length_app in Ht. destruct G; [done|cbn in *; lia].
Qed.

(** *** The operations *)

Definition shows d (v : version) : Prop :=
  v ∈ vs /\ shown seqno vs v /\ (forward_result d (Some v) \/ backward_result d (Some v)).

Definition result d (r : option version) : Prop :=
  match r with
  | Some v => shows d v
  | None => (exists c, stands_at (di_iter d) c) /\ di_valid d = false
  end.

Lemma forward_shows (Q : version -> Prop) `{!forall v, Decision (Q v)} d :
  forward_result d (head (filter (fun v => shown seqno vs v /\ Q v) vs)) ->
  result d (head (filter (fun v => shown seqno vs v /\ Q v) vs)).
Proof.
  destruct (head _) as [v|] eqn:Hh; [|by intros [_ ?]]. intros Hf.
  apply head_Some_elem_of, list_elem_of_filter in Hh as [[Hs _] Hv]. split_and!; [done|done|by left].
Qed.

Lemma backward_shows d P C : vs = P ++ C ->
  backward_result d (last (filter (shown seqno vs) P)) -> result d (last (filter (shown seqno vs) P)).
Proof.
  intros E. destruct (last _) as [v|] eqn:Hh; [|by intros [_ ?]]. intros Hf.
  apply last_Some_elem_of, list_elem_of_filter in Hh as [Hs Hv]. split_and!; [rewrite E; in_list|done|by right].
Qed.

Lemma shows_entry d v : shows d v ->
  di_valid d = true /\ DBIter_key d = Some (v_key v) /\ DBIter_value d = Some (v_value v).
Proof.
  intros (_ & _ & [(_ & Hst & Hv & Hd & Hm & Hk & _)|(_ & Hst & Hv & Hd & Hm & Hk & Hp)]);
    unfold DBIter_key, DBIter_value; rewrite Hv, Hk, Hm, Hd; cbn; [|done].
  by rewrite (stands_at_value _ _ Hst).
Qed.

Lemma SeekToFirst_forward d c : stands_at (di_iter d) c ->
  exists d', DBIter_SeekToFirst o fuel d = Some d' /\ forward_result d' (head (filter (fun v => shown seqno vs v /\ True) vs)).
Proof.
  intros (Hi & Ev & _). unfold DBIter_SeekToFirst. destruct (ilaw_SeekToFirst (di_iter d) Hi) as (i & Ei & Hi' & Ev' & Hc).
  cbn -[FindNextUserEntryInternal filter]. rewrite Ei. cbn -[FindNextUserEntryInternal filter].
  assert (Hst : stands_at i (head vs)) by (split_and!; [done|congruence|by rewrite Hc, Ev]).
  rewrite (stands_at_Valid _ _ Hst). destruct (head vs) as [r|] eqn:Hh.
  2:{ eexists. split; [done|]. apply head_None in Hh. rewrite filter_none by (rewrite Hh; by intros v ?%elem_of_nil).
      split; [done|]. split; [by eexists|done]. }
  apply head_Some in Hh as [R ER]. cbn -[FindNextUserEntryInternal filter]. rewrite (stands_at_key _ _ Hst). cbn -[FindNextUserEntryInternal filter].
  set (d1 := set_saved_key _ _).
  destruct (find_next_ok (fun _ => True) false d1 [] R r ER Hst) as (b & d' & -> & Hr); [|done|done|].
  - split; try done; intros p; by intros ?%elem_of_nil || intros ? ?%elem_of_nil.
  - by exists d'.
Qed.

Lemma SeekToFirst_ok d c : stands_at (di_iter d) c ->
  exists d', DBIter_SeekToFirst o fuel d = Some d' /\ result d' (head (filter (fun v => shown seqno vs v /\ True) vs)).
Proof. intros Hst. destruct (SeekToFirst_forward d c Hst) as (d' & E & Hr). exists d'. split; [done|]. by apply forward_shows. Qed.

Lemma Seek_ok d c k : stands_at (di_iter d) c -> seekable k ->
  exists d', DBIter_Seek o fuel d k = Some d' /\
    result d' (head (filter (fun v => shown seqno vs v /\ cmp k (v_key v) <= 0) vs)).
Proof.
  intros Hst Hk. unfold DBIter_Seek. set (d0 := SetSavedKeyToSeekTarget _ _ _).
  set (t := mkVersion seqno kValueTypeForSeek k []).
  destruct (inner_Seek_ok d0 c k seqno Hst Hk (seek_key_ok k seqno (proj1 Ho))) as (i & Ei & Hi).
  fold t in Hi. change (di_saved_key d0) with (IterKey_SetInternalKey k seqno kValueTypeForSeek). rewrite internal_key_set.
  cbn -[FindNextUserEntryInternal filter encode]. rewrite Ei. cbn -[FindNextUserEntryInternal filter].
  rewrite (stands_at_Valid _ _ Hi). pose proof (partition_sorted cmp t vs Hsorted) as Hpart.
  assert (Hsaved : saved_user_key d0 = k) by (destruct (encode_footer _ (seek_key_ok k seqno (proj1 Ho))) as [E _]; exact E).
  assert (HP : forall p, p ∈ filter (fun v => vlt cmp v t) vs -> v_seq p <= seqno -> cmp (v_key p) k < 0).
  { intros p [Hp _]%list_elem_of_filter Hv. apply vlt_spec in Hp as [Hp|[_ Hp]]; cbn in Hp; [done|lia|done]. }
  assert (HR : forall r, r ∈ filter (fun v => ~ vlt cmp v t) vs -> cmp k (v_key r) <= 0).
  { intros r [Hr _]%list_elem_of_filter. destruct (Z.le_gt_cases (cmp k (v_key r)) 0); [done|]. destruct Hr.
    apply vlt_spec; [done|]. left. by apply cmp_flip. }
  destruct (filter (fun v => ~ vlt cmp v t) vs) as [|r R] eqn:ER.
  - cbn -[FindNextUserEntryInternal filter]. eexists. split; [done|]. rewrite app_nil_r in Hpart. rewrite filter_none; [split; [by eexists|done]|].
    intros p Hp [(Hv & _) Hle]. rewrite <- Hpart in Hp. specialize (HP p Hp Hv). apply cmp_flip in HP. lia.
  - cbn -[FindNextUserEntryInternal filter]. set (d1 := set_saved_value _ _).
    destruct (find_next_ok (fun v => cmp k (v_key v) <= 0) false d1 (filter (fun v => vlt cmp v t) vs) R r) as (b & d' & -> & Hr);
      [by symmetry|exact Hi| |done|done|exists d'; split; [done|]; by apply forward_shows].
    change (saved_user_key d1) with (saved_user_key d0). rewrite Hsaved. split; try done.
    + intros p Hp [(Hv & _) Hle]. specialize (HP p Hp Hv). apply cmp_flip in HP. lia.
    + intros p r' Hp Hr' Hv Ek. specialize (HP p Hp Hv). specialize (HR r' Hr'). rewrite Ek in HP. apply cmp_flip in HP. lia.
    + auto.
Qed.

Lemma prev_internal_ok d P C :
  vs = P ++ C -> (forall p c, p ∈ P -> c ∈ C -> cmp (v_key p) (v_key c) < 0) ->
  stands_at (di_iter d) (last P) -> di_status d = OK -> di_direction d = Reverse ->
  exists d', PrevInternal o fuel d = Some d' /\ result d' (last (filter (shown seqno vs) P)).
Proof.
  intros E Hc Hst Hok Hdir. assert (length P <= length vs)%nat by (rewrite E, length_app; lia).
  destruct (prev_internal_loop_ok fuel d P C E Hc Hst Hok Hdir ltac:(lia)) as (d' & Ed & Hr).
  exists d'. split; [done|]. by eapply backward_shows.
Qed.

Lemma SeekToLast_ok d c : stands_at (di_iter d) c ->
  exists d', DBIter_SeekToLast o fuel d = Some d' /\ result d' (last (filter (shown seqno vs) vs)).
Proof.
  intros (Hi & Ev & _). unfold DBIter_SeekToLast. destruct (ilaw_SeekToLast (di_iter d) Hi) as (i & Ei & Hi' & Ev' & Hc).
  cbn -[PrevInternal filter]. rewrite Ei. cbn -[PrevInternal filter].
  assert (Hst : stands_at i (last vs)) by (split_and!; [done|congruence|by rewrite Hc, Ev]).
  apply (prev_internal_ok _ vs []); [by rewrite app_nil_r|by intros ? ? _ ?%elem_of_nil|done..].
Qed.

(** The oldest possible version of a key is behind all versions of it. *)
Lemma oldest_filter k : filter (fun v => ~ vlt cmp (mkVersion 0 kValueTypeForSeekForPrev k []) v) vs = filter (fun v => cmp (v_key v) k <= 0) vs.
Proof.
  apply filter_same. intros v Hv. destruct (Hversions v Hv) as [((Hs & _) & _) _]. cbn in Hs. rewrite vlt_spec by done. cbn.
  rewrite (cmp_flip k (v_key v)). split; [intros Hn; lia|intros Hle [?|[-> ?]]; lia].
Qed.

Lemma oldest_ok k : parsed_ok (mkParsed k 0 kValueTypeForSeekForPrev).
Proof. by split; [|split]. Qed.

Lemma SeekForPrev_ok d c k : stands_at (di_iter d) c -> seekable k ->
  exists d', DBIter_SeekForPrev o fuel d k = Some d' /\
    result d' (last (filter (shown seqno vs) (filter (fun v => cmp (v_key v) k <= 0) vs))).
Proof.
  intros (Hi & Ev & _) Hk. unfold DBIter_SeekForPrev. set (d0 := SetSavedKeyToSeekForPrevTarget _ _).
  destruct (ilaw_SeekForPrev (di_iter d) k 0 kValueTypeForSeekForPrev Hi Hk (oldest_ok k)) as (i & Ei & Hi' & Ev' & Hc).
  { intros v Hv _ _. destruct (ilaw_versions _ v Hi Hv) as [((_ & Ht & _) & _) _]. cbn in Ht. change kValueTypeForSeekForPrev with 0. lia. }
  rewrite Ev in Ev', Hc. rewrite oldest_filter in Hc.
  change (di_saved_key d0) with (IterKey_SetInternalKey k 0 kValueTypeForSeekForPrev). rewrite internal_key_set.
  cbn -[PrevInternal filter encode]. rewrite Ei. cbn -[PrevInternal filter].
  set (P := filter (fun v => cmp (v_key v) k <= 0) vs) in *.
  assert (Hst : stands_at i (last P)) by done. rewrite (stands_at_Valid _ _ Hst).
  assert (Hpart : vs = P ++ filter (fun v => ~ cmp (v_key v) k <= 0) vs).
  { apply (sorted_partition (vlt cmp)); [done|]. intros a b _ _ Hab Hb.
    apply vlt_spec in Hab as [Hab|[-> _]]; [|done..]. apply Z.lt_le_incl. by eapply cmp_lt_le_trans. }
  destruct (last P) as [v|] eqn:Hl.
  - cbn -[PrevInternal filter]. eapply (prev_internal_ok _ P); [done| |by rewrite Hl|done|done].
    intros p c' [Hp _]%list_elem_of_filter [Hc' _]%list_elem_of_filter.
    eapply cmp_le_lt_trans; [done|done|]. apply cmp_flip. lia.
  - eexists. split; [done|]. apply last_None in Hl. rewrite Hl. split; [by eexists|done].
Qed.

Lemma Prev_ok d v : shows d v ->
  exists d', DBIter_Prev o fuel d = Some d' /\ result d' (last (filter (shown seqno vs) (below_key (v_key v)))).
Proof.
  intros (Hin & Hsh & Hcase). destruct (Hversions v Hin) as [_ Hsk]. pose proof (below_key_split (v_key v)) as Hpart.
  assert (Hc : forall p c, p ∈ below_key (v_key v) -> c ∈ filter (fun a => ~ cmp (v_key a) (v_key v) < 0) vs ->
    cmp (v_key p) (v_key c) < 0).
  { intros p c Hp%below_key_lt [Hc _]%list_elem_of_filter. eapply cmp_lt_le_trans; [done|done|]. apply cmp_flip_le; [done|lia]. }
  unfold DBIter_Prev. destruct Hcase as [(Hok & Hst & Hv & Hd & Hm & Hk & _)|(Hok & Hst & Hv & Hd & Hm & Hk & _)].
  - rewrite Hv, decide_True by done. cbn -[PrevInternal filter ReverseToBackward]. rewrite Hd, decide_True by done.
    unfold ReverseToBackward. cbn -[PrevInternal filter FindUserKeyBeforeSavedKey].
    rewrite (stands_at_status _ _ Hst), Hm. cbn -[PrevInternal filter FindUserKeyBeforeSavedKey].
    set (d1 := set_direction Reverse (set_skipped 0 d)). unfold FindUserKeyBeforeSavedKey. rewrite decide_True by done.
    assert (Hge : v ∈ filter (fun a => ~ cmp (v_key a) (v_key v) < 0) vs).
    { apply list_elem_of_filter. split; [rewrite cmp_refl by done; lia|done]. }
    apply list_elem_of_split in Hge as (B1 & B2 & EB). rewrite EB in Hpart.
    destruct (before_saved_loop_ok fuel 0 d1 (B1 ++ [v]) B2) as (i & m & -> & Hi);
      change (saved_user_key d1) with (saved_user_key d) in *; rewrite ?Hk in *.
    { rewrite <- app_assoc. by symmetry. } { done. } { rewrite app_assoc, last_snoc. exact Hst. }
    { assert (length vs = length (below_key (v_key v) ++ B1 ++ v :: B2)) by (by rewrite Hpart).
      rewrite !length_app in *. cbn in *. lia. }
    cbn -[PrevInternal filter]. eapply (prev_internal_ok _ (below_key (v_key v))); [by symmetry|by rewrite <- EB|done..].
  - rewrite Hv, decide_True by done. cbn -[PrevInternal filter ReverseToBackward]. rewrite Hd, decide_False by done.
    cbn -[PrevInternal filter]. eapply (prev_internal_ok _ (below_key (v_key v))); [by symmetry|done..].
Qed.

Lemma to_forward_stop n d b : stands_at (di_iter d) (Some b) -> b ∈ vs -> ~ cmp (v_key b) (saved_user_key d) < 0 ->
  to_forward_loop o (S n) d = Some (true, d).
Proof.
  intros Hst Hb Hge. cbn [to_forward_loop]. rewrite (stands_at_Valid _ _ Hst). cbn -[to_forward_loop].
  rewrite (ParseKey_ok d b Hst Hb). cbn -[to_forward_loop]. rewrite Z.geb_leb, (proj2 (Z.leb_le _ _)) by lia. done.
Qed.

Lemma to_forward_step n d a : stands_at (di_iter d) (Some a) -> a ∈ vs -> cmp (v_key a) (saved_user_key d) < 0 ->
  to_forward_loop o (S n) d = (d ← inner_Next d; to_forward_loop o n d).
Proof.
  intros Hst Ha Hlt. cbn [to_forward_loop]. rewrite (stands_at_Valid _ _ Hst). cbn -[to_forward_loop].
  rewrite (ParseKey_ok d a Hst Ha). cbn -[to_forward_loop]. by rewrite Z.geb_leb, (proj2 (Z.leb_gt _ _)).
Qed.

Lemma reverse_to_forward_ok d b B :
  vs = below_key (saved_user_key d) ++ b :: B -> seekable (saved_user_key d) ->
  stands_at (di_iter d) (last (below_key (saved_user_key d))) ->
  exists i, ReverseToForward o fuel d = Some (true, set_iter i (set_direction Forward d)) /\ stands_at i (Some b).
Proof.
  set (u := saved_user_key d). intros E Hsk Hst. pose proof (not_below_rest u _ E) as Erest.
  assert (Hb : b ∈ filter (fun v => ~ cmp (v_key v) u < 0) vs) by (rewrite <- Erest; by left).
  apply list_elem_of_filter in Hb as [Hge Hb]. unfold ReverseToForward. rewrite (stands_at_status _ _ Hst), (stands_at_Valid _ _ Hst).
  assert (Hf : fuel = S (S (fuel - 2))) by lia. rewrite Hf. destruct (last (below_key u)) as [a|] eqn:Hl; cbn -[to_forward_loop encode].
  - apply last_Some in Hl as [A EA].
    assert (Ha : cmp (v_key a) u < 0) by (apply below_key_lt; rewrite EA; in_list).
    assert (Hin : a ∈ vs) by (rewrite E, EA; in_list).
    rewrite (to_forward_step _ (set_direction Forward d) a Hst Hin Ha).
    destruct (inner_Next_ok (set_direction Forward d) A a (b :: B) Hst) as (i & -> & Hi).
    { rewrite E at 1. rewrite EA. by rewrite <- app_assoc. }
    cbn -[to_forward_loop]. exists i. split; [|done]. by apply (to_forward_stop _ _ b).
  - rewrite internal_key_set. cbn -[to_forward_loop encode]. destruct (seek_max_at d _ u Hst Hsk) as (i & Ei & Hi).
    change (saved_user_key d) with u. rewrite Ei. rewrite <- Erest in Hi. cbn -[to_forward_loop].
    exists i. split; [|done]. by apply (to_forward_stop _ _ b).
Qed.

Lemma Next_forward_ok d v : v ∈ vs -> forward_result d (Some v) ->
  exists d', DBIter_Next o fuel d = Some d' /\
    forward_result d' (head (filter (fun w => shown seqno vs w /\ cmp (v_key v) (v_key w) < 0) vs)).
Proof.
  intros Hin (Hok & Hst & Hv & Hd & Hm & Hk & Hz). unfold DBIter_Next.
  rewrite Hv, decide_True by done. cbn -[FindNextUserEntryInternal filter]. rewrite Hd, decide_False, Hm by done. cbn -[FindNextUserEntryInternal filter].
  rewrite (stands_at_Valid _ _ Hst). cbn -[FindNextUserEntryInternal filter].
  apply list_elem_of_split in Hin as (P & R & E). set (d1 := set_skipped 0 d).
  assert (E' : vs = (P ++ [v]) ++ R) by (by rewrite <- app_assoc).
  assert (HP : forall p, p ∈ P ++ [v] -> cmp (v_key p) (v_key v) <= 0).
  { intros p [Hp| ->]%in_snoc; [|by rewrite cmp_refl]. apply (in_order_le P (v :: R)); [done|done|in_list]. }
  destruct (inner_Next_ok d1 P v R Hst E) as (i & -> & Hi). cbn -[FindNextUserEntryInternal filter].
  rewrite (stands_at_Valid _ _ Hi). destruct R as [|r R].
  { eexists. split; [done|]. rewrite filter_none; [split; [done|]; split; [by eexists|done]|].
    intros p Hp [_ Hlt]. rewrite app_nil_r in E'. rewrite E' in Hp. specialize (HP p Hp). apply cmp_flip in Hlt. lia. }
  cbn -[FindNextUserEntryInternal filter].
  destruct (find_next_ok (fun w => cmp (v_key v) (v_key w) < 0) true (set_iter i d1) (P ++ [v]) R r E' Hi) as (b & d' & -> & Hr);
    [|done|done|by exists d'].
  change (saved_user_key (set_iter i d1)) with (saved_user_key d). change (di_is_key_seqnum_zero _) with (di_is_key_seqnum_zero d).
  rewrite Hk. split; cbn.
  - intros p Hp [_ Hlt]. specialize (HP p Hp). apply cmp_flip in Hlt. lia.
  - intros p r' Hp _ _ <-. split; [done|by apply HP].
  - intros r' _ Hr' Hle [_ Hlt]. apply cmp_flip in Hlt. lia.
  - intros r' _ Hlt. apply cmp_flip. by apply Hlt.
  - intros r' _ Hr'. apply (in_order_le (P ++ [v]) (r :: R)); [done|in_list|done].
  - intros Hz'. exists P, v. split_and!; [done|by apply Hz|]. intros _. by rewrite cmp_refl.
Qed.

Lemma Next_backward_ok d v : v ∈ vs -> backward_result d (Some v) ->
  exists d', DBIter_Next o fuel d = Some d' /\
    result d' (head (filter (fun w => shown seqno vs w /\ cmp (v_key v) (v_key w) < 0) vs)).
Proof.
  intros Hin (Hok & Hst & Hv & Hd & Hm & Hk & _). destruct (Hversions v Hin) as [_ Hsk]. unfold DBIter_Next.
  rewrite Hv, decide_True by done. cbn -[FindNextUserEntryInternal filter ReverseToForward]. rewrite Hd, decide_True by done.
  set (d1 := set_zero false (set_skipped 0 d)). pose proof (below_key_split (v_key v)) as Hpart.
  assert (Hge : forall r, r ∈ filter (fun a => ~ cmp (v_key a) (v_key v) < 0) vs -> cmp (v_key v) (v_key r) <= 0).
  { intros r [Hr _]%list_elem_of_filter. apply cmp_flip_le; [done|lia]. }
  destruct (filter (fun a => ~ cmp (v_key a) (v_key v) < 0) vs) as [|b B] eqn:EB.
  { exfalso. apply (filter_nil_not_elem_of _ _ v EB); [rewrite cmp_refl by done; lia|done]. }
  destruct (reverse_to_forward_ok d1 b B) as (i & -> & Hi); change (saved_user_key d1) with (saved_user_key d); rewrite ?Hk; [by symmetry|done|done|].
  cbn -[FindNextUserEntryInternal filter]. rewrite (stands_at_Valid _ _ Hi). cbn -[FindNextUserEntryInternal filter].
  set (d2 := set_iter i _).
  destruct (find_next_ok (fun w => cmp (v_key v) (v_key w) < 0) true d2 (below_key (v_key v)) B b) as (bb & d' & -> & Hr);
    [by symmetry|done| |done|done|exists d'; split; [done|]; by apply forward_shows].
  change (saved_user_key d2) with (saved_user_key d). rewrite Hk. split; cbn; try done.
  - intros p Hp%below_key_lt [_ Hlt]. apply cmp_flip in Hlt. lia.
  - intros p r' Hp%below_key_lt Hr' _ Ek. specialize (Hge r' Hr'). rewrite Ek in Hp. apply cmp_flip in Hp. lia.
  - intros r' _ Hr' Hle [_ Hlt]. apply cmp_flip in Hlt. lia.
  - intros r' _ Hlt. apply cmp_flip. by apply Hlt.
  - auto.
Qed.

Lemma Next_ok d v : shows d v ->
  exists d', DBIter_Next o fuel d = Some d' /\
    result d' (head (filter (fun w => shown seqno vs w /\ cmp (v_key v) (v_key w) < 0) vs)).
Proof.
  intros (Hin & _ & [Hf|Hb]); [|by apply Next_backward_ok].
  destruct (Next_forward_ok d v Hin Hf) as (d' & E & Hr). exists d'. split; [done|]. by apply forward_shows.
Qed.
End Correct.

(** ** The contract of [Iterator] *)

Lemma shown_sorted cmp `{!TotalCompare cmp} s (vs : list version) : StronglySorted (vlt cmp) vs ->
  StronglySorted (key_lt cmp) (version_entry <$> filter (shown s vs) vs).
Proof.
  intros Hs. assert (Hk : forall a b, a ∈ filter (shown s vs) vs -> b ∈ filter (shown s vs) vs -> vlt cmp a b ->
    key_lt cmp (version_entry a) (version_entry b)).
  { intros a b [Ha Hain]%list_elem_of_filter [Hb Hbin]%list_elem_of_filter Hab.
    apply vlt_spec in Hab as [Hab|[Ek Hab]]; [done| |done]. destruct Ha as (Hav & _ & _), Hb as (_ & _ & Hb).
    rewrite Forall_forall in Hb. specialize (Hb a Hain Ek Hav). lia. }
  apply (sorted_filter _ (shown s vs)) in Hs. induction Hs as [|a l Hs IH Ha]; [constructor|].
  rewrite fmap_cons. constructor; [apply IH; intros; apply Hk; [by right..|done]|].
  apply Forall_fmap. rewrite Forall_forall in *. intros b Hb. apply Hk; [by left|by right|by apply Ha].
Qed.

Section Laws.
Context {I : Type} `{InternalIterator I} (o : DBIterOptions) (fuel : nat).
Abbreviation cmp := (opt_Compare o).
Abbreviation seqno := (opt_sequence o).
Context `{!TotalCompare cmp} (seekable : bytes -> Prop).
Context (inv : I -> Prop) (versions : I -> list version) (cur : I -> option version).
Context `{!InternalIteratorLaws cmp seekable inv versions cur}.
Context (Ho : options_ok o).
Implicit Types d : DBIter I.

Definition db_versions d : list version := versions (di_iter d).

Definition db_entries d : list entry := version_entry <$> filter (shown seqno (db_versions d)) (db_versions d).

Definition db_cur d : option entry := k ← DBIter_key d; v ← DBIter_value d; Some (k, v).

(** Fuel for every loop: each goes through the versions at most twice. *)
Definition db_inv d : Prop :=
  inv (di_iter d) /\ plain_versions (db_versions d) /\ below_max (db_versions d) /\ (2 * length (db_versions d) + 2 <= fuel)%nat /\
  (di_valid d = true -> exists v, shows o inv versions cur (db_versions d) d v).

(** What an operation leaves behind: the same versions, and the entry of [r]. *)
Lemma result_inv d d' r : db_inv d -> result o inv versions cur (db_versions d) d' r ->
  db_inv d' /\ db_entries d' = db_entries d /\ db_cur d' = version_entry <$> r.
Proof.
  intros (_ & Hp & Hm & Hf & _) Hr.
  assert (Hst : exists c, stands_at inv versions cur (db_versions d) (di_iter d') c).
  { destruct r as [v|]; [destruct Hr as (_ & _ & [(_ & Hst & _)|(_ & Hst & _)]); by eexists|by destruct Hr]. }
  destruct Hst as (c & Hi & Ev & _). assert (Ed : db_versions d' = db_versions d) by exact Ev.
  unfold db_inv, db_entries. rewrite Ed. split_and!; try done.
  - intros Hv. destruct r as [v|]; [by exists v|]. destruct Hr as [_ Hr]. congruence.
  - unfold db_cur. destruct r as [v|].
    + destruct (shows_entry _ _ _ _ _ _ _ _ Hr) as (_ & -> & ->). done.
    + destruct Hr as [_ Hr]. unfold DBIter_key. by rewrite Hr.
Qed.

Lemma entries_sorted d : db_inv d -> StronglySorted (key_lt cmp) (db_entries d).
Proof. intros (Hi & _). apply shown_sorted; [done|]. by apply (ilaw_sorted (di_iter d)). Qed.

Lemma filter_entries_shown (Q : entry -> Prop) `{!forall e, Decision (Q e)} d :
  filter Q (db_entries d) = version_entry <$> filter (fun v => shown seqno (db_versions d) v /\ Q (version_entry v)) (db_versions d).
Proof.
  unfold db_entries. generalize (shown seqno (db_versions d)) (shown_dec seqno (db_versions d)). intros P HP.
  induction (db_versions d) as [|v l IH]; [done|]. rewrite !filter_cons. destruct (decide (P v)) as [Hp|Hp].
  - rewrite fmap_cons, filter_cons, IH. destruct (decide (Q (version_entry v))) as [Hq|Hq].
    + by rewrite decide_True.
    + by rewrite decide_False by tauto.
  - by rewrite IH, decide_False by tauto.
Qed.

Lemma min_result (Q : entry -> Prop) `{!forall e, Decision (Q e)} d (r : option (DBIter I)) :
  db_inv d ->
  (exists d', r = Some d' /\ result o inv versions cur (db_versions d) d'
     (head (filter (fun v => shown seqno (db_versions d) v /\ Q (version_entry v)) (db_versions d)))) ->
  exists d', r = Some d' /\ db_inv d' /\ db_entries d' = db_entries d /\ is_min cmp Q (db_entries d) (db_cur d').
Proof.
  intros Hi (d' & -> & Hr). exists d'. destruct (result_inv d d' _ Hi Hr) as (Hi' & He & Hc). split_and!; [done..|].
  rewrite Hc, <- fmap_head, <- filter_entries_shown. apply is_min_head_filter; [done|]. by apply entries_sorted.
Qed.

Lemma max_result (Q : entry -> Prop) `{!forall e, Decision (Q e)} d (r : option (DBIter I)) :
  db_inv d ->
  (exists d', r = Some d' /\ result o inv versions cur (db_versions d) d'
     (last (filter (shown seqno (db_versions d)) (filter (fun v => Q (version_entry v)) (db_versions d))))) ->
  exists d', r = Some d' /\ db_inv d' /\ db_entries d' = db_entries d /\ is_max cmp Q (db_entries d) (db_cur d').
Proof.
  intros Hi (d' & -> & Hr). exists d'. destruct (result_inv d d' _ Hi Hr) as (Hi' & He & Hc). split_and!; [done..|].
  rewrite Hc, list_filter_filter, <- fmap_last, <- filter_entries_shown. apply is_max_last_filter; [done|]. by apply entries_sorted.
Qed.

Lemma inv_facts d : db_inv d ->
  exists c, stands_at inv versions cur (db_versions d) (di_iter d) c /\ plain_versions (db_versions d) /\ below_max (db_versions d) /\
    (2 * length (db_versions d) + 2 <= fuel)%nat /\ StronglySorted (vlt cmp) (db_versions d) /\
    (forall v, v ∈ db_versions d -> version_ok v /\ seekable (v_key v)).
Proof.
  intros (Hi & Hp & Hm & Hf & _). exists (cur (di_iter d)). split_and!; try done.
  - by apply (ilaw_sorted (di_iter d)).
  - intros v Hv. by apply (ilaw_versions (di_iter d)).
Qed.

Lemma cur_shows d e : db_inv d -> db_cur d = Some e ->
  exists v, shows o inv versions cur (db_versions d) d v /\ e = version_entry v.
Proof.
  intros (_ & _ & _ & _ & Hv) Hc. unfold db_cur in Hc. destruct (di_valid d) eqn:Ev.
  - destruct (Hv eq_refl) as [v Hs]. exists v. split; [done|].
    destruct (shows_entry _ _ _ _ _ _ _ _ Hs) as (_ & Ek & Eval). rewrite Ek, Eval in Hc. by injection Hc.
  - unfold DBIter_key in Hc. by rewrite Ev in Hc.
Qed.

Lemma SeekForPrev_law d k : db_inv d -> seekable k ->
  exists d', DBIter_SeekForPrev o fuel d k = Some d' /\ db_inv d' /\ db_entries d' = db_entries d /\
    is_max cmp (fun e => cmp e.1 k <= 0) (db_entries d) (db_cur d').
Proof.
  intros Hi Hk. destruct (inv_facts d Hi) as (c & Hst & Hp & Hm & Hf & Hs & Hvs).
  apply (max_result (fun e => cmp e.1 k <= 0)); [done|]. by eapply SeekForPrev_ok.
Qed.

#[local] Instance db_iterator_of : InternalIterator (DBIter I) := db_iterator o fuel.

Lemma db_iterator_laws : IteratorLaws cmp seekable db_inv db_entries db_cur.
Proof.
  split.
  - intros d (_ & _ & _ & _ & Hv). cbn. unfold db_cur. destruct (di_valid d) eqn:Ev.
    + destruct (Hv eq_refl) as [v Hs]. by destruct (shows_entry _ _ _ _ _ _ _ _ Hs) as (_ & -> & ->).
    + unfold DBIter_key. by rewrite Ev.
  - intros d (_ & _ & _ & _ & Hv). cbn. unfold db_cur. destruct (di_valid d) eqn:Ev.
    + destruct (Hv eq_refl) as [v Hs]. by destruct (shows_entry _ _ _ _ _ _ _ _ Hs) as (_ & -> & ->).
    + unfold DBIter_key. by rewrite Ev.
  - intros d (_ & _ & _ & _ & Hv). cbn. unfold db_cur. destruct (di_valid d) eqn:Ev.
    + destruct (Hv eq_refl) as [v Hs]. by destruct (shows_entry _ _ _ _ _ _ _ _ Hs) as (_ & -> & ->).
    + unfold DBIter_key, DBIter_value. by rewrite Ev.
  - intros d e e' Hi%entries_sorted. exact (@law_keys ListIter (list_iterator cmp) cmp _ (li_inv cmp) li_entries li_cur
      (list_iterator_laws cmp) (mkListIter (db_entries d) None) e e' Hi).
  - intros d Hi. destruct (inv_facts d Hi) as (c & Hst & Hp & Hm & Hf & Hs & Hvs).
    apply (min_result (fun _ => True)); [done|]. by eapply SeekToFirst_ok.
  - intros d Hi. destruct (inv_facts d Hi) as (c & Hst & Hp & Hm & Hf & Hs & Hvs).
    apply (max_result (fun _ => True)); [done|]. rewrite (filter_every (fun _ => True)) by done. by eapply SeekToLast_ok.
  - intros d e (Hi & _) He. apply list_elem_of_fmap in He as (v & -> & [_ Hv]%list_elem_of_filter).
    exact (proj2 (ilaw_versions (di_iter d) v Hi Hv)).
  - intros d k Hi Hk. destruct (inv_facts d Hi) as (c & Hst & Hp & Hm & Hf & Hs & Hvs).
    apply (min_result (fun e => cmp k e.1 <= 0)); [done|]. by eapply Seek_ok.
  - intros d e Hi Hc. destruct (inv_facts d Hi) as (c & Hst & Hp & Hm & Hf & Hs & Hvs).
    destruct (cur_shows d e Hi Hc) as (v & Hsh & ->). apply (min_result (fun e' => cmp (v_key v) e'.1 < 0)); [done|].
    by eapply Next_ok.
  - intros d e Hi Hc. destruct (inv_facts d Hi) as (c & Hst & Hp & Hm & Hf & Hs & Hvs).
    destruct (cur_shows d e Hi Hc) as (v & Hsh & ->). apply (max_result (fun e' => cmp e'.1 (v_key v) < 0)); [done|].
    by eapply Prev_ok.
Qed.

(** *** A scan from the first entry

    Moving forwards only, the iterator also passes versions of the largest sequence
    number. *)

Lemma shown_above vs L0 v L : StronglySorted (vlt cmp) vs -> filter (shown seqno vs) vs = L0 ++ v :: L ->
  filter (fun w => shown seqno vs w /\ cmp (v_key v) (v_key w) < 0) vs = L.
Proof.
  intros Hs E. pose proof (shown_sorted cmp seqno vs Hs) as Hk. rewrite E, fmap_app, fmap_cons in Hk.
  transitivity (filter (fun w => cmp (v_key v) (v_key w) < 0) (filter (shown seqno vs) vs)).
  { rewrite list_filter_filter. apply filter_same. tauto. }
  rewrite E, filter_app, filter_cons_False, filter_none, filter_every; [done| | |rewrite cmp_refl by done; lia].
  - intros w Hw. apply StronglySorted_app_1_r, StronglySorted_inv in Hk as [_ Hk].
    rewrite Forall_fmap in Hk. rewrite Forall_forall in Hk. by apply Hk.
  - intros w Hw Hlt. assert (Hl : key_lt cmp (version_entry w) (version_entry v)).
    { apply (sorted_before _ _ _ _ _ Hk); [by apply list_elem_of_fmap_2|by left]. }
    apply cmp_flip in Hl. unfold version_entry in Hl. cbn in Hl. lia.
Qed.

Lemma db_scan_forward_ok n vs d L0 L :
  plain_versions vs -> (2 * length vs + 2 <= fuel)%nat -> StronglySorted (vlt cmp) vs ->
  (forall v, v ∈ vs -> version_ok v /\ seekable (v_key v)) -> filter (shown seqno vs) vs = L0 ++ L ->
  forward_result inv versions cur vs d (head L) ->
  exists d', scan n d = Some (take n (version_entry <$> L), d').
Proof.
  intros Hp Hf Hs Hvs. revert d L0 L. induction n as [|n IH]; intros d L0 L E Hr; [by exists d|]. cbn [scan].
  destruct L as [|v L].
  { destruct Hr as (_ & _ & Hv). cbn in Hv |- *. rewrite Hv. by exists d. }
  assert (Hin : v ∈ filter (shown seqno vs) vs) by (rewrite E; apply elem_of_app; right; by left).
  apply list_elem_of_filter in Hin as [Hsh Hin]. cbn [head] in Hr.
  destruct (shows_entry o seekable inv versions cur vs d v) as (Hv & Hk & Hval); [split_and!; [done|done|by left]|].
  change (Valid d) with (di_valid d). change (key d) with (DBIter_key d). change (value d) with (DBIter_value d).
  change (Next d) with (DBIter_Next o fuel d). rewrite Hv, Hk, Hval. cbn [mbind option_bind].
  destruct (Next_forward_ok o fuel seekable inv versions cur Ho vs Hp Hf Hs Hvs d v Hin Hr) as (d' & -> & Hr').
  rewrite (shown_above vs L0 v L Hs E) in Hr'. cbn [mbind option_bind].
  destruct (IH d' (L0 ++ [v]) L) as (d2 & ->); [by rewrite <- app_assoc|done|]. by exists d2.
Qed.

Lemma scan_all_ok n d : inv (di_iter d) -> plain_versions (db_versions d) -> (2 * length (db_versions d) + 2 <= fuel)%nat ->
  exists d1 d2, SeekToFirst d = Some d1 /\ scan n d1 = Some (take n (db_entries d), d2).
Proof.
  intros Hi Hp Hf. assert (Hs : StronglySorted (vlt cmp) (db_versions d)) by (by apply (ilaw_sorted (di_iter d))).
  assert (Hvs : forall v, v ∈ db_versions d -> version_ok v /\ seekable (v_key v)).
  { intros v Hv. by apply (ilaw_versions (di_iter d)). }
  destruct (SeekToFirst_forward o fuel seekable inv versions cur Ho (db_versions d) Hp Hf Hs Hvs d (cur (di_iter d))) as (d1 & E & Hr); [done|].
  rewrite (filter_same _ (shown seqno (db_versions d))) in Hr by tauto.
  destruct (db_scan_forward_ok n (db_versions d) d1 [] _ Hp Hf Hs Hvs eq_refl Hr) as (d2 & E2). by exists d1, d2.
Qed.
End Laws.

(** C6. The iterator of a store keeps the contract of [Iterator]. Over any internal
    iterator that keeps its own contract, with values and deletions as entries, it
    ranges over the newest visible value of every user key: [SeekToFirst],
    [SeekToLast], [Seek], [SeekForPrev], [Next] and [Prev], in any order and through
    changes of direction, come to the entry they promise, whatever the reseek
    threshold is. No assertion of the code fails, and every loop ends within the
    fuel. *)
Theorem dbiter_contract {I} `{InternalIterator I} o fuel `{!TotalCompare (opt_Compare o)} seekable
    (inv : I -> Prop) (versions : I -> list version) (cur : I -> option version)
    `{!InternalIteratorLaws (opt_Compare o) seekable inv versions cur} :
  options_ok o ->
  (forall i, inv i -> plain_versions (versions i) -> below_max (versions i) -> (2 * length (versions i) + 2 <= fuel)%nat ->
     db_inv o fuel inv versions cur (DBIter_new i)) /\
  @IteratorLaws _ (@internal_iterator _ (db_iterator o fuel)) (opt_Compare o) seekable
    (db_inv o fuel inv versions cur) (db_entries o versions) db_cur /\
  (forall d k, db_inv o fuel inv versions cur d -> seekable k ->
     exists d', DBIter_SeekForPrev o fuel d k = Some d' /\ db_inv o fuel inv versions cur d' /\
       db_entries o versions d' = db_entries o versions d /\
       is_max (opt_Compare o) (fun e => opt_Compare o e.1 k <= 0) (db_entries o versions d) (db_cur d')).
Proof.
  intros Ho. split_and!.
  - intros i Hi Hp Hm Hf. by split_and!.
  - exact (db_iterator_laws o fuel seekable inv versions cur Ho).
  - intros d k Hd Hk. by apply (SeekForPrev_law o fuel seekable inv versions cur).
Qed.
