(* ===== verification/Heap.v ===== *)
(** * Binary heaps (util/heap.h)

    [BinaryHeap<T, Compare>]: the vector and the cached child of the root. The
    comparison is a parameter that may fail an assertion; it gives the less-than
    relation, and the top is a maximum. *)

From S2P Require Import Prelude.

Definition kMaxSizet : Z := 2 ^ 64 - 1.

Record BinaryHeap (T : Type) := mkHeap { hp_data : list T; hp_root_cmp_cache : Z }.
Arguments mkHeap {T}.
Arguments hp_data {T}.
Arguments hp_root_cmp_cache {T}.

Definition get_parent (index : nat) : nat := (index - 1) / 2.
Definition get_left (index : nat) : nat := 2 * index + 1.
Definition get_right (index : nat) : nat := 2 * index + 2.

Definition heap_empty {T} (h : BinaryHeap T) : bool := match hp_data h with [] => true | _ => false end.

Definition heap_clear {T} (h : BinaryHeap T) : BinaryHeap T := mkHeap [] kMaxSizet.

Definition heap_new {T} : BinaryHeap T := mkHeap [] kMaxSizet.

Definition heap_top {T} (h : BinaryHeap T) : option T := head (hp_data h).

Section Heap.
Context {T : Type} (cmp_ : T -> T -> option bool).

(** The loop of [upheap]: the vector and the place for [v]. *)
Fixpoint upheap_loop (fuel : nat) (data : list T) (v : T) (index : nat) : option (list T * nat) :=
  match fuel with
  | O => None
  | S fuel' =>
      if (index =? 0)%nat then Some (data, index)
      else
        p ← data !! get_parent index;
        less ← cmp_ p v;
        if less : bool then upheap_loop fuel' (<[index := p]> data) v (get_parent index) else Some (data, index)
  end.

Definition upheap (data : list T) (index : nat) : option (BinaryHeap T) :=
  v ← data !! index;
  '(data, index) ← upheap_loop (S index) data v index;
  Some (mkHeap (<[index := v]> data) kMaxSizet).

(** The loop of [downheap]: the vector, the place for [v] and [picked_child]. *)
Definition pick_child (cache : Z) (data : list T) (index : nat) : option Z :=
  let left_child := get_left index in
  let right_child := (left_child + 1)%nat in
  if (index =? 0)%nat && (cache <? zlen data) then Some cache
  else if (right_child <? length data)%nat then
    l ← data !! left_child;
    r ← data !! right_child;
    less ← cmp_ l r;
    Some (Z.of_nat (if less : bool then right_child else left_child))
  else Some (Z.of_nat left_child).

Fixpoint downheap_loop (fuel : nat) (cache : Z) (data : list T) (v : T) (index : nat) (picked_child : Z) : option (list T * nat * Z) :=
  match fuel with
  | O => None
  | S fuel' =>
      if (length data <=? get_left index)%nat then Some (data, index, picked_child)
      else
        picked ← pick_child cache data index;
        c ← data !! Z.to_nat picked;
        less ← cmp_ v c;
        if less : bool then downheap_loop fuel' cache (<[index := c]> data) v (Z.to_nat picked) picked else Some (data, index, picked)
  end.

Definition downheap (h : BinaryHeap T) (index : nat) : option (BinaryHeap T) :=
  v ← hp_data h !! index;
  '(data, index, picked_child) ← downheap_loop (S (length (hp_data h))) (hp_root_cmp_cache h) (hp_data h) v index kMaxSizet;
  Some (mkHeap (<[index := v]> data) (if (index =? 0)%nat then picked_child else kMaxSizet)).

Definition heap_push (value : T) (h : BinaryHeap T) : option (BinaryHeap T) := upheap (hp_data h ++ [value]) (length (hp_data h)).

Definition heap_replace_top (value : T) (h : BinaryHeap T) : option (BinaryHeap T) :=
  match hp_data h with
  | [] => None
  | _ => downheap (mkHeap (<[0%nat := value]> (hp_data h)) (hp_root_cmp_cache h)) 0
  end.

Definition heap_pop (h : BinaryHeap T) : option (BinaryHeap T) :=
  match last (hp_data h) with
  | None => None
  | Some back =>
      let data := removelast (<[0%nat := back]> (hp_data h)) in
      match data with
      | [] => Some (mkHeap [] kMaxSizet)
      | _ => downheap (mkHeap data (hp_root_cmp_cache h)) 0
      end
  end.
End Heap.

(** ** Order *)

Section Correct.
Context {T : Type} (cmp_ : T -> T -> option bool) (less : T -> T -> bool) (P : T -> Prop).

Definition ge (a b : T) : Prop := less a b = false.

(** The comparison works on the elements of the heap, and is a strict weak order. *)
Context (Hcmp : forall a b, P a -> P b -> cmp_ a b = Some (less a b)).
Context (Htrans : forall a b c, ge a b -> ge b c -> ge a c) (Htotal : forall a b, less a b = true -> ge b a).

(** The element at [i] is not above its parent. *)
Definition below_parent (data : list T) (i : nat) : Prop :=
  forall p c, data !! get_parent i = Some p -> data !! i = Some c -> ge p c.

Definition is_heap (data : list T) : Prop := forall i, (0 < i)%nat -> below_parent data i.

(** All but the children of the root are below their parents. *)
Definition heap_below (data : list T) : Prop := forall i, (0 < i)%nat -> get_parent i <> 0%nat -> below_parent data i.

(** The children of [i] are not above its parent. *)
Definition below_grandparent (data : list T) (i : nat) : Prop :=
  (0 < i)%nat -> forall j, (0 < j)%nat -> get_parent j = i -> forall g c, data !! get_parent i = Some g -> data !! j = Some c -> ge g c.

(** A cached child is the larger one. *)
Definition cache_ok (data : list T) (cache : Z) : Prop := cache < zlen data ->
  (cache = 1 /\ forall a b, data !! 1%nat = Some a -> data !! 2%nat = Some b -> ge a b) \/
  (cache = 2 /\ forall a b, data !! 1%nat = Some a -> data !! 2%nat = Some b -> ge b a).

Lemma parent_spec i j : (0 < i)%nat -> get_parent i = j <-> i = get_left j \/ i = get_right j.
Proof.
  unfold get_parent, get_left, get_right. intros Hi. pose proof (Nat.div_mod_eq (i - 1) 2). pose proof (Nat.mod_upper_bound (i - 1) 2). lia.
Qed.

Lemma parent_lt i : (0 < i)%nat -> (get_parent i < i)%nat.
Proof. intros Hi. pose proof (proj1 (parent_spec i _ Hi) eq_refl). unfold get_left, get_right in *. lia. Qed.

(** The root is a maximum. *)
Lemma heap_max data x y : is_heap data -> head data = Some x -> y ∈ data -> ge x y.
Proof.
  intros Hh Hx [i Hy]%list_elem_of_lookup. rewrite head_lookup in Hx. revert y Hy. induction (lt_wf i) as [i _ IH]. intros y Hy.
  destruct (decide (i = 0)%nat) as [->|Hi].
  - rewrite Hx in Hy. injection Hy as <-. unfold ge. destruct (less x x) eqn:E; [|done]. by rewrite <- E, (Htotal _ _ E).
  - assert (H0 : (0 < i)%nat) by lia. pose proof (parent_lt i H0) as Hp. destruct (lookup_lt_is_Some_2 data (get_parent i)) as [p Ep].
    { apply lookup_lt_Some in Hy. lia. }
    eapply Htrans; [by eapply (IH _ Hp)|]. by eapply (Hh i).
Qed.

(** *** Up *)

(** [D] is the vector with [v] in its place. *)
Lemma upheap_loop_ok fuel data v index : (index < fuel)%nat -> (index < length data)%nat -> Forall P data -> P v ->
  let D := <[index := v]> data in
  (forall i, (0 < i)%nat -> i <> index -> below_parent D i) -> below_grandparent D index ->
  exists data' index', upheap_loop cmp_ fuel data v index = Some (data', index') /\ <[index' := v]> data' ≡ₚ D /\ is_heap (<[index' := v]> data').
Proof.
  revert data index. induction fuel as [|fuel IH]; intros data index Hf Hl HP Hv D Hb Hg; [lia|]. cbn [upheap_loop].
  destruct (Nat.eqb_spec index 0) as [->|Hi]; [exists data, 0%nat; split_and!; [done..|]; intros i H0; apply Hb; lia|].
  assert (H0 : (0 < index)%nat) by lia. pose proof (parent_lt index H0) as Hp. set (q := get_parent index) in *.
  destruct (lookup_lt_is_Some_2 data q) as [p Ep]; [lia|]. rewrite Ep. cbn [mbind option_bind].
  assert (HPp : P p) by (by eapply Forall_lookup_1). rewrite (Hcmp p v HPp Hv). cbn [mbind option_bind].
  assert (EDq : D !! q = Some p) by (unfold D; rewrite list_lookup_insert_ne by lia; done).
  assert (EDi : D !! index = Some v) by (unfold D; by rewrite list_lookup_insert_eq).
  destruct (less p v) eqn:Hless.
  - set (data1 := <[index := p]> data). assert (ED1 : <[q := v]> data1 = <[q := v]> (<[index := p]> D)) by (unfold data1, D; by rewrite list_insert_insert_eq).
    assert (Hsame : forall j, j <> index -> j <> q -> <[q := v]> data1 !! j = D !! j) by (intros j ? ?; unfold data1, D; by rewrite !list_lookup_insert_ne by done).
    assert (E1q : <[q := v]> data1 !! q = Some v) by (rewrite list_lookup_insert_eq; [done|unfold data1; rewrite length_insert; lia]).
    assert (E1i : <[q := v]> data1 !! index = Some p) by (unfold data1; rewrite list_lookup_insert_ne, list_lookup_insert_eq by lia; done).
    destruct (IH data1 q) as (data' & index' & -> & Hperm & Hheap); [lia|unfold data1; rewrite length_insert; lia|by apply Forall_insert|done|..].
    + intros i Hi0 Hiq a b Ea Eb. destruct (decide (i = index)) as [->|Hii]; [fold q in Ea; simplify_eq; by apply Htotal|]. rewrite Hsame in Eb by done.
      destruct (decide (get_parent i = index)) as [Hpi|Hpi].
      * rewrite Hpi in Ea. simplify_eq. by eapply (Hg H0 i).
      * destruct (decide (get_parent i = q)) as [Hpq|Hpq].
        -- rewrite Hpq in Ea. simplify_eq. apply Htrans with p; [by apply Htotal|]. eapply (Hb i); [done..| |done]. by rewrite Hpq.
        -- rewrite Hsame in Ea by done. by eapply (Hb i).
    + intros Hq0 j Hj Hpj g b Eg Eb. pose proof (parent_lt q Hq0). rewrite Hsame in Eg by lia.
      assert (Hgp : ge g p) by (eapply (Hb q); [done|lia|done|done]). destruct (decide (j = index)) as [->|Hji]; [by simplify_eq|].
      rewrite Hsame in Eb by (pose proof (parent_lt j Hj); lia). apply Htrans with p; [done|]. eapply (Hb j); [done|done| |done]. by rewrite Hpj.
    + exists data', index'. split_and!; [done| |done]. rewrite Hperm, ED1. by apply Permutation_insert_swap.
  - exists data, index. split_and!; [done..|]. intros i Hi0. destruct (decide (i = index)) as [->|Hne]; [|by apply Hb].
    intros a b Ea Eb. fold D q in Ea, Eb. by simplify_eq.
Qed.

(** *** Down *)

Lemma ge_refl a : ge a a.
Proof. unfold ge. destruct (less a a) eqn:E; [|done]. by rewrite <- E, (Htotal _ _ E). Qed.

(** The picked child is a largest child. *)
Definition picked_ok (data : list T) (index k : nat) : Prop :=
  (0 < k)%nat /\ get_parent k = index /\ (k < length data)%nat /\
  forall j a b, (0 < j)%nat -> get_parent j = index -> data !! k = Some a -> data !! j = Some b -> ge a b.

Lemma children index j : (0 < j)%nat -> get_parent j = index -> j = get_left index \/ j = get_right index.
Proof. intros Hj Hp. by apply parent_spec. Qed.

Lemma picked_left data index : (get_left index < length data)%nat ->
  (forall a b, data !! get_left index = Some a -> data !! get_right index = Some b -> ge a b) -> picked_ok data index (get_left index).
Proof.
  intros Hl Hab. split_and!; [unfold get_left; lia|apply parent_spec; [unfold get_left; lia|by left]|done|].
  intros j a b Hj Hp Ea Eb. destruct (children index j Hj Hp) as [->| ->]; [simplify_eq; apply ge_refl|by apply Hab].
Qed.

Lemma picked_right data index : (get_right index < length data)%nat ->
  (forall a b, data !! get_left index = Some a -> data !! get_right index = Some b -> ge b a) -> picked_ok data index (get_right index).
Proof.
  intros Hl Hab. split_and!; [unfold get_right; lia|apply parent_spec; [unfold get_right; lia|by right]|done|].
  intros j a b Hj Hp Ea Eb. destruct (children index j Hj Hp) as [->| ->]; [by apply Hab|simplify_eq; apply ge_refl].
Qed.

Lemma pick_child_ok cache data index : (get_left index < length data)%nat -> Forall P data -> (index = 0%nat -> cache_ok data cache) ->
  exists k, pick_child cmp_ cache data index = Some (Z.of_nat k) /\ picked_ok data index k.
Proof.
  intros Hl HP Hc. unfold pick_child. assert (Er : (get_left index + 1)%nat = get_right index) by (unfold get_left, get_right; lia). rewrite Er.
  destruct ((index =? 0)%nat && (cache <? zlen data)) eqn:Ec.
  - apply andb_prop in Ec as [->%Nat.eqb_eq Hz%Z.ltb_lt]. destruct (Hc eq_refl Hz) as [[-> Hab]|[-> Hab]].
    + exists (get_left 0). split; [done|]. by apply picked_left.
    + exists (get_right 0). split; [done|]. apply picked_right; [|done]. unfold zlen in Hz. change (get_right 0) with 2%nat. lia.
  - destruct (Nat.ltb_spec (get_right index) (length data)) as [Hr|Hr].
    + destruct (lookup_lt_is_Some_2 _ _ Hl) as [a Ea], (lookup_lt_is_Some_2 _ _ Hr) as [b Eb]. rewrite Ea, Eb. cbn [mbind option_bind].
      rewrite Hcmp by (by eapply Forall_lookup_1). cbn [mbind option_bind].
      destruct (less a b) eqn:Hless; eexists; (split; [done|]); [apply picked_right|apply picked_left]; try done; intros; simplify_eq; [by apply Htotal|done].
    + exists (get_left index). split; [done|]. apply picked_left; [done|]. intros a b _ Eb. apply lookup_lt_Some in Eb. lia.
Qed.

Definition down_inv (D : list T) (index : nat) : Prop :=
  (forall i, (0 < i)%nat -> get_parent i <> index -> below_parent D i) /\ below_grandparent D index.

(** One turn of the loop. *)
Lemma down_step data v index k c : let D := <[index := v]> data in (index < length data)%nat -> down_inv D index -> picked_ok D index k ->
  data !! k = Some c -> less v c = true -> let D' := <[k := v]> (<[index := c]> data) in down_inv D' k /\ D' ≡ₚ D.
Proof.
  intros D Hl [Hb Hg] (Hk & Hpk & Hkl & Hmax) Ec Hless D'. pose proof (parent_lt k Hk) as Hlt. rewrite Hpk in Hlt.
  assert (EDk : D !! k = Some c) by (unfold D; by rewrite list_lookup_insert_ne by lia).
  assert (EDi : D !! index = Some v) by (unfold D; by rewrite list_lookup_insert_eq).
  assert (ED' : D' = <[k := v]> (<[index := c]> D)) by (unfold D', D; by rewrite list_insert_insert_eq).
  assert (Hsame : forall j, j <> index -> j <> k -> D' !! j = D !! j) by (intros j ? ?; rewrite ED'; by rewrite !list_lookup_insert_ne by done).
  assert (E'k : D' !! k = Some v) by (rewrite ED', list_lookup_insert_eq; [done|by rewrite length_insert]).
  assert (E'i : D' !! index = Some c).
  { rewrite ED', list_lookup_insert_ne by lia. rewrite list_lookup_insert_eq; [done|]. unfold D. by rewrite length_insert. }
  split; [|rewrite ED'; by apply Permutation_insert_swap]. split.
  - intros i Hi Hpi a b Ea Eb. destruct (decide (i = k)) as [->|Hik]; [rewrite Hpk in Ea; simplify_eq; by apply Htotal|].
    destruct (decide (get_parent i = index)) as [Hpi'|Hpi'].
    + rewrite Hpi', E'i in Ea. injection Ea as <-. rewrite Hsame in Eb by (pose proof (parent_lt i Hi); lia). by eapply (Hmax i).
    + rewrite Hsame in Ea by done. destruct (decide (i = index)) as [->|Hii]; [simplify_eq; by eapply (Hg Hi k)|].
      rewrite Hsame in Eb by done. by eapply (Hb i).
  - intros _ j Hj Hpj g b Eg Eb. rewrite Hpk, E'i in Eg. injection Eg as <-. pose proof (parent_lt j Hj). rewrite Hsame in Eb by lia. eapply (Hb j); [done|lia| |done].
    by rewrite Hpj.
Qed.

(** The children of the place are not above [v]: the loop ends. *)
Lemma down_done D index v : down_inv D index -> D !! index = Some v ->
  (forall j b, (0 < j)%nat -> get_parent j = index -> D !! j = Some b -> ge v b) -> is_heap D.
Proof.
  intros [Hb _] Ev Hv i Hi. destruct (decide (get_parent i = index)) as [Hp|Hp]; [|by apply Hb].
  intros a b Ea Eb. rewrite Hp in Ea. simplify_eq. by eapply Hv.
Qed.

Lemma downheap_loop_ok fuel cache data v index picked : (length data <= fuel + index)%nat -> (index < length data)%nat -> Forall P data -> P v ->
  let D := <[index := v]> data in down_inv D index -> (index = 0%nat -> cache_ok D cache) ->
  exists data' index' picked', downheap_loop cmp_ (S fuel) cache data v index picked = Some (data', index', picked') /\
    <[index' := v]> data' ≡ₚ D /\ is_heap (<[index' := v]> data') /\ (index <= index')%nat /\
    (index' = 0%nat -> data' = data /\ (picked' = picked \/ exists k, picked' = Z.of_nat k /\ picked_ok D 0 k)).
Proof.
  revert data index picked. induction fuel as [|fuel IH]; intros data index picked Hf Hl HP Hv D Hd Hc; [lia|].
  assert (EDi : D !! index = Some v) by (unfold D; by rewrite list_lookup_insert_eq). assert (ELD : length D = length data) by (unfold D; by rewrite length_insert).
  change (downheap_loop cmp_ (S (S fuel)) cache data v index picked) with
    (if (length data <=? get_left index)%nat then Some (data, index, picked)
     else picked ← pick_child cmp_ cache data index; c ← data !! Z.to_nat picked; less ← cmp_ v c;
       if less : bool then downheap_loop cmp_ (S fuel) cache (<[index := c]> data) v (Z.to_nat picked) picked else Some (data, index, picked)).
  destruct (Nat.leb_spec (length data) (get_left index)) as [Hle|Hgt].
  - exists data, index, picked. split_and!; [done..| |done|intros _; by split; [|left]]. eapply down_done; [done..|].
    intros j b Hj Hp Eb. apply lookup_lt_Some in Eb. fold D in Eb. rewrite ELD in Eb. destruct (children index j Hj Hp) as [->| ->]; unfold get_left, get_right in *; lia.
  - assert (Hpick : pick_child cmp_ cache data index = pick_child cmp_ cache D index).
    { unfold pick_child, zlen. rewrite ELD. unfold D. by rewrite !list_lookup_insert_ne by (unfold get_left; lia). }
    destruct (pick_child_ok cache D index) as (k & Ek & Hk); [lia|by apply Forall_insert|done|]. rewrite Hpick, Ek. cbn [mbind option_bind]. rewrite Nat2Z.id.
    pose proof Hk as (Hk0 & Hpk & Hkl & Hmax). pose proof (parent_lt k Hk0) as Hlt. rewrite Hpk in Hlt. destruct (lookup_lt_is_Some_2 data k) as [c Ec]; [lia|].
    assert (EDk : D !! k = Some c) by (unfold D; by rewrite list_lookup_insert_ne by lia).
    rewrite Ec. cbn [mbind option_bind]. rewrite Hcmp by (done || by eapply Forall_lookup_1). cbn [mbind option_bind]. destruct (less v c) eqn:Hless.
    + destruct (down_step data v index k c Hl Hd Hk Ec Hless) as [Hd' Hperm].
      destruct (IH (<[index := c]> data) k (Z.of_nat k)) as (data' & index' & picked' & -> & Hp' & Hh & Hle' & H0).
      { rewrite length_insert. lia. } { rewrite length_insert. lia. } { apply Forall_insert; [done|by eapply Forall_lookup_1]. } { done. } { done. } { lia. }
      exists data', index', picked'. split_and!; [done|by rewrite Hp'|done|lia|]. intros ->. lia.
    + exists data, index, (Z.of_nat k). split_and!; [done..| |done|]. 2:{ intros ->. split; [done|]. right. by exists k. }
      eapply down_done; [done..|]. intros j b Hj Hp Eb. apply Htrans with c; [done|]. by eapply (Hmax j).
Qed.

(** *** Operations *)

Definition heap_ok (h : BinaryHeap T) : Prop := is_heap (hp_data h) /\ cache_ok (hp_data h) (hp_root_cmp_cache h).

Lemma cache_none data : zlen data <= kMaxSizet -> cache_ok data kMaxSizet.
Proof. intros ? ?. lia. Qed.

Lemma heap_empty_ok : heap_ok heap_new.
Proof. split; [by intros [|i] _ p c|]. by apply cache_none. Qed.

Lemma push_ok value h : heap_ok h -> Forall P (hp_data h) -> P value -> zlen (hp_data h) < kMaxSizet ->
  exists h', heap_push cmp_ value h = Some h' /\ heap_ok h' /\ hp_data h' ≡ₚ value :: hp_data h.
Proof.
  intros [Hh _] HP Hv Hz. unfold heap_push, upheap. set (n := length (hp_data h)). set (data := hp_data h ++ [value]).
  assert (En : data !! n = Some value) by (unfold data, n; by rewrite lookup_app_r, Nat.sub_diag by done). rewrite En. cbn [mbind option_bind].
  assert (El : length data = S n) by (unfold data; rewrite length_app; cbn; lia).
  assert (EI : <[n := value]> data = data) by (by apply list_insert_id).
  destruct (upheap_loop_ok (S n) data value n) as (data' & index' & -> & Hp & Hheap); [lia|lia|by apply Forall_app; split; [|constructor]|done|..].
  - rewrite EI. intros i Hi Hin p c Ep Ec. assert (Hlt : (i < n)%nat) by (apply lookup_lt_Some in Ec; lia). pose proof (parent_lt i Hi).
    unfold data in Ep, Ec. rewrite lookup_app_l in Ep, Ec by (unfold n in *; lia). by eapply (Hh i).
  - rewrite EI. intros Hn j Hj Hpj g c _ Ec. pose proof (parent_lt j Hj). apply lookup_lt_Some in Ec. lia.
  - cbn [mbind option_bind]. eexists. split; [done|]. cbn [hp_data]. rewrite EI in Hp. split; [split; [done|]|].
    + cbn [hp_data hp_root_cmp_cache]. apply cache_none. unfold zlen in *. rewrite Hp, El. unfold n. lia.
    + rewrite Hp. unfold data. by rewrite <- Permutation_cons_append.
Qed.

Lemma downheap_ok h : hp_data h <> [] -> heap_below (hp_data h) -> cache_ok (hp_data h) (hp_root_cmp_cache h) -> Forall P (hp_data h) ->
  zlen (hp_data h) <= kMaxSizet -> exists h', downheap cmp_ h 0 = Some h' /\ heap_ok h' /\ hp_data h' ≡ₚ hp_data h.
Proof.
  intros Hne Hb Hc HP Hz. unfold downheap. destruct (hp_data h) as [|v rest] eqn:Ed; [done|]. set (data := v :: rest) in *.
  change (data !! 0%nat) with (Some v). cbn [mbind option_bind]. assert (EI : <[0%nat := v]> data = data) by (by apply list_insert_id).
  destruct (downheap_loop_ok (length data) (hp_root_cmp_cache h) data v 0 kMaxSizet) as (data' & index' & picked' & -> & Hp & Hheap & _ & H0).
  - lia. - cbn; lia. - done. - by inversion HP. - rewrite EI. split; [done|]. intros ?; lia. - by rewrite EI.
  - cbn [mbind option_bind]. rewrite EI in Hp, H0. eexists. split; [done|]. split; [|done]. split; [done|]. cbn [hp_data hp_root_cmp_cache].
    destruct (Nat.eqb_spec index' 0) as [->|Hi]; [|apply cache_none; unfold zlen in *; by rewrite Hp].
    destruct (H0 eq_refl) as [-> [->|(k & -> & Hk)]]; rewrite EI; [by apply cache_none|]. intros _. destruct Hk as (Hk0 & Hpk & Hkl & Hmax).
    destruct (children 0 k Hk0 Hpk) as [->| ->]; [left|right]; (split; [done|]); intros a b Ea Eb;
      [apply (Hmax 2%nat a b)|apply (Hmax 1%nat b a)]; done || lia.
Qed.

Lemma replace_top_ok value h x rest : hp_data h = x :: rest -> heap_below (x :: rest) -> cache_ok (x :: rest) (hp_root_cmp_cache h) ->
  Forall P rest -> P value -> zlen (x :: rest) <= kMaxSizet ->
  exists h', heap_replace_top cmp_ value h = Some h' /\ heap_ok h' /\ hp_data h' ≡ₚ value :: rest.
Proof.
  intros Ed Hb Hc HP Hv Hz. unfold heap_replace_top. rewrite Ed. apply (downheap_ok (mkHeap (value :: rest) (hp_root_cmp_cache h))).
  - done.
  - intros [|i] Hi Hp p c; [lia|]. cbn [hp_data]. destruct (get_parent (S i)) as [|q] eqn:Eq; [done|]. intros Ep Ec.
    eapply (Hb (S i)); [lia|by rewrite Eq|by rewrite Eq|done].
  - exact Hc.
  - by constructor.
  - exact Hz.
Qed.

Lemma pop_ok h x rest : hp_data h = x :: rest -> heap_below (x :: rest) -> cache_ok (x :: rest) (hp_root_cmp_cache h) ->
  Forall P rest -> zlen (x :: rest) <= kMaxSizet -> exists h', heap_pop cmp_ h = Some h' /\ heap_ok h' /\ hp_data h' ≡ₚ rest.
Proof.
  intros Ed Hb Hc HP Hz. unfold heap_pop. rewrite Ed. destruct rest as [|back rest0 _] using rev_ind; [exists heap_new; split; [done|]; split; [apply heap_empty_ok|done]|].
  rewrite last_cons, last_snoc. change (<[0%nat := back]> (x :: rest0 ++ [back])) with ((back :: rest0) ++ [back]). rewrite removelast_last.
  assert (Hsub : forall i y, (back :: rest0) !! S i = Some y -> (x :: rest0 ++ [back]) !! S i = Some y) by (intros i y Hy; cbn in Hy |- *; by apply lookup_app_l_Some).
  destruct (downheap_ok (mkHeap (back :: rest0) (hp_root_cmp_cache h))) as (h' & -> & Hh' & Hp').
  - done.
  - intros [|i] Hi Hp p c; [lia|]. cbn [hp_data]. destruct (get_parent (S i)) as [|q] eqn:Eq; [done|]. intros Ep Ec.
    eapply (Hb (S i)); [lia|by rewrite Eq|rewrite Eq; by apply Hsub|by apply Hsub].
  - cbn [hp_data hp_root_cmp_cache]. intros Hlt. destruct Hc as [[-> Hab]|[-> Hab]]; [unfold zlen in *; cbn in *; rewrite length_app; cbn; lia|left|right];
      (split; [done|]); intros a b Ea Eb; eapply Hab; by apply Hsub.
  - cbn [hp_data]. apply Forall_app in HP as [HP Hbk]. constructor; [by inversion Hbk|done].
  - cbn [hp_data]. unfold zlen in *. cbn in *. rewrite length_app in Hz. cbn in Hz. lia.
  - exists h'. split_and!; [done..|]. cbn [hp_data] in Hp'. rewrite Hp'. by rewrite <- Permutation_cons_append.
Qed.
End Correct.

(** Only the elements below the root matter where the root is about to change. *)
Lemma heap_below_ext {T} (less less' : T -> T -> bool) x x' rest : (forall a b, a ∈ rest -> b ∈ rest -> less' a b = less a b) ->
  heap_below less (x :: rest) -> heap_below less' (x' :: rest).
Proof.
  intros Hl Hb [|i] Hi Hp p c; [lia|]. destruct (get_parent (S i)) as [|q] eqn:Eq; [done|]. intros Ep Ec. cbn in Ep, Ec. unfold ge.
  rewrite Hl by (by eapply list_elem_of_lookup_2). eapply (Hb (S i)); [lia|by rewrite Eq|by rewrite Eq|done].
Qed.

Lemma cache_ok_ext {T} (less less' : T -> T -> bool) x x' rest cache : (forall a b, a ∈ rest -> b ∈ rest -> less' a b = less a b) ->
  cache_ok less (x :: rest) cache -> cache_ok less' (x' :: rest) cache.
Proof.
  intros Hl Hc Hlt. destruct (Hc Hlt) as [[-> Hab]|[-> Hab]]; [left|right]; (split; [done|]); intros a b Ea Eb; unfold ge; cbn in Ea, Eb;
    rewrite Hl by (by eapply list_elem_of_lookup_2); by eapply Hab.
Qed.
