(* ===== verification/InternalMerge.v ===== *)
(** * The merging iterator of a store (table/merging_iterator.cc)

    Several iterators over internal keys as one: the children that stand at an entry are
    in a heap, of the smallest key while moving forward and of the largest while moving
    backward. The heap holds pointers to the children, which are indices here. Pinning,
    prepared values and bounds of an iteration are left out; a status is whether it is
    ok. [None] is a failed assertion. *)

From S2P Require Import Prelude Comparator DbFormat Iterator DbIter Heap.

(** ** IteratorWrapper (table/iterator_wrapper.h): an iterator with its cached key *)

Record IteratorWrapper (I : Type) := mkWrapper { wr_iter : I; wr_valid : bool; wr_key : bytes }.
Arguments mkWrapper {I}.
Arguments wr_iter {I}.
Arguments wr_valid {I}.
Arguments wr_key {I}.

Section Wrapper.
Context {I : Type} `{InternalIterator I}.

(** [Update], with the iterator moved to [i]. *)
Definition iw_Update (w : IteratorWrapper I) (i : I) : option (IteratorWrapper I) :=
  if Valid i then if status_ok i then k ← key i; Some (mkWrapper i true k) else None
  else Some (mkWrapper i false (wr_key w)).

Definition iw_Set (i : I) : option (IteratorWrapper I) := iw_Update (mkWrapper i false []) i.

Definition iw_key (w : IteratorWrapper I) : option bytes := if wr_valid w then Some (wr_key w) else None.
Definition iw_value (w : IteratorWrapper I) : option bytes := if wr_valid w then value (wr_iter w) else None.
Definition iw_status (w : IteratorWrapper I) : bool := status_ok (wr_iter w).

Definition iw_Next (w : IteratorWrapper I) : option (IteratorWrapper I) := i ← Next (wr_iter w); iw_Update w i.
Definition iw_Prev (w : IteratorWrapper I) : option (IteratorWrapper I) := i ← Prev (wr_iter w); iw_Update w i.
Definition iw_Seek (k : bytes) (w : IteratorWrapper I) : option (IteratorWrapper I) := i ← Seek (wr_iter w) k; iw_Update w i.
Definition iw_SeekForPrev (k : bytes) (w : IteratorWrapper I) : option (IteratorWrapper I) := i ← SeekForPrev (wr_iter w) k; iw_Update w i.
Definition iw_SeekToFirst (w : IteratorWrapper I) : option (IteratorWrapper I) := i ← SeekToFirst (wr_iter w); iw_Update w i.
Definition iw_SeekToLast (w : IteratorWrapper I) : option (IteratorWrapper I) := i ← SeekToLast (wr_iter w); iw_Update w i.
End Wrapper.

(** ** MergingIterator *)

Record MergingIter (I : Type) := mkMerging {
  mg_children : list (IteratorWrapper I);
  mg_current : option nat;
  mg_status_ok : bool;
  mg_direction : iter_direction;
  mg_minHeap : BinaryHeap nat;
  mg_maxHeap : option (BinaryHeap nat)
}.
Arguments mkMerging {I}.
Arguments mg_children {I}.
Arguments mg_current {I}.
Arguments mg_status_ok {I}.
Arguments mg_direction {I}.
Arguments mg_minHeap {I}.
Arguments mg_maxHeap {I}.

Section Merging.
Context {I : Type} `{InternalIterator I} (user_Compare : bytes -> bytes -> Z) (prefix_seek_mode_ : bool).
Implicit Types m : MergingIter I.

Definition mg_set_children x m : MergingIter I := mkMerging x (mg_current m) (mg_status_ok m) (mg_direction m) (mg_minHeap m) (mg_maxHeap m).
Definition mg_set_current x m : MergingIter I := mkMerging (mg_children m) x (mg_status_ok m) (mg_direction m) (mg_minHeap m) (mg_maxHeap m).
Definition mg_set_status x m : MergingIter I := mkMerging (mg_children m) (mg_current m) x (mg_direction m) (mg_minHeap m) (mg_maxHeap m).
Definition mg_set_direction x m : MergingIter I := mkMerging (mg_children m) (mg_current m) (mg_status_ok m) x (mg_minHeap m) (mg_maxHeap m).
Definition mg_set_minHeap x m : MergingIter I := mkMerging (mg_children m) (mg_current m) (mg_status_ok m) (mg_direction m) x (mg_maxHeap m).
Definition mg_set_maxHeap x m : MergingIter I := mkMerging (mg_children m) (mg_current m) (mg_status_ok m) (mg_direction m) (mg_minHeap m) x.

(** The comparators of table/iter_heap.h. *)
Definition compare_children (children : list (IteratorWrapper I)) (a b : nat) : option Z :=
  x ← children !! a ≫= iw_key; y ← children !! b ≫= iw_key; Some (InternalKey_Compare user_Compare x y).
Definition MinIteratorComparator (children : list (IteratorWrapper I)) (a b : nat) : option bool := r ← compare_children children a b; Some (r >? 0).
Definition MaxIteratorComparator (children : list (IteratorWrapper I)) (a b : nat) : option bool := r ← compare_children children a b; Some (r <? 0).

Definition considerStatus (s : bool) m : MergingIter I := if negb s && mg_status_ok m then mg_set_status s m else m.

Definition AddToMinHeapOrCheckStatus (i : nat) m : option (MergingIter I) :=
  child ← mg_children m !! i;
  if wr_valid child then
    if iw_status child then h ← heap_push (MinIteratorComparator (mg_children m)) i (mg_minHeap m); Some (mg_set_minHeap h m) else None
  else Some (considerStatus (iw_status child) m).

Definition AddToMaxHeapOrCheckStatus (i : nat) m : option (MergingIter I) :=
  child ← mg_children m !! i;
  if wr_valid child then
    if iw_status child then
      max ← mg_maxHeap m; h ← heap_push (MaxIteratorComparator (mg_children m)) i max; Some (mg_set_maxHeap (Some h) m)
    else None
  else Some (considerStatus (iw_status child) m).

Definition ClearHeaps m : MergingIter I := mg_set_minHeap (heap_clear (mg_minHeap m)) (mg_set_maxHeap (heap_clear <$> mg_maxHeap m) m).

Definition InitMaxHeap m : MergingIter I := match mg_maxHeap m with Some _ => m | None => mg_set_maxHeap (Some heap_new) m end.

Definition CurrentForward m : option (option nat) :=
  if decide (mg_direction m = Forward) then Some (if heap_empty (mg_minHeap m) then None else heap_top (mg_minHeap m)) else None.

Definition CurrentReverse m : option (option nat) :=
  if decide (mg_direction m = Reverse) then max ← mg_maxHeap m; Some (if heap_empty max then None else heap_top max) else None.

(** Loops over the children. *)
Fixpoint for_children (f : nat -> MergingIter I -> option (MergingIter I)) (l : list nat) m : option (MergingIter I) :=
  match l with [] => Some m | i :: l' => m ← f i m; for_children f l' m end.

Definition all_children (f : nat -> MergingIter I -> option (MergingIter I)) m : option (MergingIter I) :=
  for_children f (seq 0 (length (mg_children m))) m.

Definition move_child (f : IteratorWrapper I -> option (IteratorWrapper I)) (i : nat) m : option (MergingIter I) :=
  c ← mg_children m !! i; c ← f c; Some (mg_set_children (<[i := c]> (mg_children m)) m).

Definition mg_new (children : list I) : option (MergingIter I) :=
  ws ← mapM iw_Set children;
  m ← all_children AddToMinHeapOrCheckStatus (mkMerging ws None true Forward heap_new None);
  cur ← CurrentForward m;
  Some (mg_set_current cur m).

Definition mg_Valid m : bool := match mg_current m with Some _ => mg_status_ok m | None => false end.

Definition mg_key m : option bytes := if mg_Valid m then i ← mg_current m; c ← mg_children m !! i; iw_key c else None.
Definition mg_value m : option bytes := if mg_Valid m then i ← mg_current m; c ← mg_children m !! i; iw_value c else None.

(** What the seeks forward and backward share. *)
Definition seek_forward (f : IteratorWrapper I -> option (IteratorWrapper I)) m : option (MergingIter I) :=
  m ← all_children (fun i m => m ← move_child f i m; AddToMinHeapOrCheckStatus i m) (mg_set_status true (ClearHeaps m));
  let m := mg_set_direction Forward m in
  cur ← CurrentForward m;
  Some (mg_set_current cur m).

Definition seek_backward (f : IteratorWrapper I -> option (IteratorWrapper I)) m : option (MergingIter I) :=
  m ← all_children (fun i m => m ← move_child f i m; AddToMaxHeapOrCheckStatus i m) (mg_set_status true (InitMaxHeap (ClearHeaps m)));
  let m := mg_set_direction Reverse m in
  cur ← CurrentReverse m;
  Some (mg_set_current cur m).

Definition mg_SeekToFirst m : option (MergingIter I) := seek_forward iw_SeekToFirst m.
Definition mg_SeekToLast m : option (MergingIter I) := seek_backward iw_SeekToLast m.
Definition mg_Seek m (target : bytes) : option (MergingIter I) := seek_forward (iw_Seek target) m.
Definition mg_SeekForPrev m (target : bytes) : option (MergingIter I) := seek_backward (iw_SeekForPrev target) m.

(** A child that is not the current one is moved to the other side of the target. *)
Definition pass_target (seek step : IteratorWrapper I -> option (IteratorWrapper I)) (target : bytes) (c : IteratorWrapper I) : option (IteratorWrapper I) :=
  c ← seek c;
  match iw_key c with
  | Some k => if InternalKey_Compare user_Compare target k =? 0 then if iw_status c then step c else None else Some c
  | None => Some c
  end.

Definition switch_child (seek step : IteratorWrapper I -> option (IteratorWrapper I)) (target : bytes) (i : nat) m : option (MergingIter I) :=
  if decide (mg_current m = Some i) then Some m else move_child (pass_target seek step target) i m.

Definition SwitchToForward m : option (MergingIter I) :=
  let m := ClearHeaps m in
  target ← mg_key m;
  m ← all_children (fun i m => m ← switch_child (iw_Seek target) iw_Next target i m; AddToMinHeapOrCheckStatus i m) m;
  Some (mg_set_direction Forward m).

Definition SwitchToBackward m : option (MergingIter I) :=
  let m := InitMaxHeap (ClearHeaps m) in
  target ← mg_key m;
  m ← all_children (fun i m => m ← switch_child (iw_SeekForPrev target) iw_Prev target i m; AddToMaxHeapOrCheckStatus i m) m;
  let m := mg_set_direction Reverse m in
  cur ← CurrentReverse m;
  let m := if prefix_seek_mode_ then m else mg_set_current cur m in
  if decide (mg_current m = cur) then Some m else None.

Definition mg_Next m : option (MergingIter I) :=
  if mg_Valid m then
    m ← (if decide (mg_direction m = Forward) then Some m else SwitchToForward m);
    cur ← CurrentForward m;
    if decide (mg_current m = cur) then
      i ← mg_current m;
      m ← move_child iw_Next i m;
      c ← mg_children m !! i;
      m ← (if wr_valid c then
             if iw_status c then h ← heap_replace_top (MinIteratorComparator (mg_children m)) i (mg_minHeap m); Some (mg_set_minHeap h m) else None
           else
             let m := considerStatus (iw_status c) m in
             h ← heap_pop (MinIteratorComparator (mg_children m)) (mg_minHeap m); Some (mg_set_minHeap h m));
      cur ← CurrentForward m;
      Some (mg_set_current cur m)
    else None
  else None.

Definition mg_Prev m : option (MergingIter I) :=
  if mg_Valid m then
    m ← (if decide (mg_direction m = Reverse) then Some m else SwitchToBackward m);
    cur ← CurrentReverse m;
    if decide (mg_current m = cur) then
      i ← mg_current m;
      m ← move_child iw_Prev i m;
      c ← mg_children m !! i;
      max ← mg_maxHeap m;
      m ← (if wr_valid c then
             if iw_status c then h ← heap_replace_top (MaxIteratorComparator (mg_children m)) i max; Some (mg_set_maxHeap (Some h) m) else None
           else
             let m := considerStatus (iw_status c) m in
             h ← heap_pop (MaxIteratorComparator (mg_children m)) max; Some (mg_set_maxHeap (Some h) m));
      cur ← CurrentReverse m;
      Some (mg_set_current cur m)
    else None
  else None.

Definition merging_iterator : InternalIterator (MergingIter I) := {|
  internal_iterator := {|
    Iterator.Valid := mg_Valid; Iterator.key := mg_key; Iterator.value := mg_value;
    Iterator.SeekToFirst := mg_SeekToFirst; Iterator.SeekToLast := mg_SeekToLast; Iterator.Seek := mg_Seek;
    Iterator.Next := mg_Next; Iterator.Prev := mg_Prev; Iterator.status_ok := mg_status_ok |};
  DbIter.SeekForPrev := mg_SeekForPrev |}.

(** ** MergeIteratorBuilder *)

(** [AddIterator]. The wrapper that goes to the heap is a local variable, so that only a
    child that is not valid may be added. *)
Definition mg_AddIterator (iter : I) m : option (MergingIter I) :=
  if decide (mg_direction m = Forward) then
    w ← iw_Set iter;
    if wr_valid w then None
    else Some (considerStatus (iw_status w) (mg_set_children (mg_children m ++ [w]) m))
  else None.

Record MergeIteratorBuilder := mkBuilder { mb_first_iter : option I; mb_use_merging_iter : bool; mb_merge_iter : MergingIter I }.

Definition Builder_new : option MergeIteratorBuilder := m ← mg_new []; Some (mkBuilder None false m).

Definition Builder_AddIterator (iter : I) (b : MergeIteratorBuilder) : option MergeIteratorBuilder :=
  b ← (match mb_first_iter b with
       | Some first => if mb_use_merging_iter b then Some b else m ← mg_AddIterator first (mb_merge_iter b); Some (mkBuilder None true m)
       | None => Some b
       end);
  if mb_use_merging_iter b then m ← mg_AddIterator iter (mb_merge_iter b); Some (mkBuilder (mb_first_iter b) true m)
  else Some (mkBuilder (Some iter) false (mb_merge_iter b)).

(** A single iterator is returned as it is; without any the pointer is null. *)
Definition Builder_Finish (b : MergeIteratorBuilder) : option (I + MergingIter I) :=
  if mb_use_merging_iter b then Some (inr (mb_merge_iter b)) else inl <$> mb_first_iter b.
End Merging.

(** ** Other iterators *)

(** [EmptyInternalIterator] (table/iterator.cc), with an ok status. *)
Inductive EmptyIter := mkEmpty.

Definition empty_iterator : InternalIterator EmptyIter := {|
  internal_iterator := {|
    Iterator.Valid := fun _ => false; Iterator.key := fun _ => None; Iterator.value := fun _ => None;
    Iterator.SeekToFirst := fun i => Some i; Iterator.SeekToLast := fun i => Some i; Iterator.Seek := fun i _ => Some i;
    Iterator.Next := fun _ => None; Iterator.Prev := fun _ => None; Iterator.status_ok := fun _ => true |};
  DbIter.SeekForPrev := fun i _ => Some i |}.

(** The dynamic dispatch of virtual functions. *)
Section Sum.
Context {I J : Type} `{InternalIterator I} `{InternalIterator J}.

Definition on_sum (f : I -> option I) (g : J -> option J) (x : I + J) : option (I + J) :=
  match x with inl i => inl <$> f i | inr j => inr <$> g j end.

Definition ask_sum {A} (f : I -> A) (g : J -> A) (x : I + J) : A := match x with inl i => f i | inr j => g j end.

Definition sum_iterator : InternalIterator (I + J) := {|
  internal_iterator := {|
    Iterator.Valid := ask_sum Valid Valid; Iterator.key := ask_sum key key; Iterator.value := ask_sum value value;
    Iterator.SeekToFirst := on_sum SeekToFirst SeekToFirst; Iterator.SeekToLast := on_sum SeekToLast SeekToLast;
    Iterator.Seek := fun x k => on_sum (fun i => Seek i k) (fun j => Seek j k) x;
    Iterator.Next := on_sum Next Next; Iterator.Prev := on_sum Prev Prev; Iterator.status_ok := ask_sum status_ok status_ok |};
  DbIter.SeekForPrev := fun x k => on_sum (fun i => SeekForPrev i k) (fun j => SeekForPrev j k) x |}.
End Sum.

Definition NewMergingIterator {I} `{InternalIterator I} (user_Compare : bytes -> bytes -> Z) (l : list I) : option (EmptyIter + (I + MergingIter I)) :=
  match l with
  | [] => Some (inl mkEmpty)
  | [i] => Some (inr (inl i))
  | _ => m ← mg_new user_Compare l; Some (inr (inr m))
  end.
