(* ===== verification/InternalMergeCorrect.v ===== *)
(** * The merging iterator keeps the contract of its children

    Over children that keep the contract of an internal iterator and have no sequence
    number of a key in common, [MergingIterator] keeps the contract over the sorted union
    of their versions: seeks, moves and changes of direction. *)

From S2P Require Import Prelude Comparator DbFormat Iterator WriteBatch MemTable DbIter DbIterCorrect Heap InternalMerge.

#[local] Existing Instance vlt_dec.
#[local] Existing Instance vlt_trans.

Lemma bool_decide_iff (b : bool) (P : Prop) `{!Decision P} : (b = true <-> P) -> b = bool_decide P.
Proof. intros HbP. case_bool_decide; destruct b; intuition done. Qed.

(** ** Versions *)

Definition v_id (v : version) : bytes * Z := (v_key v, v_seq v).

Section Order.
Context (user_Compare : bytes -> bytes -> Z) `{!TotalCompare user_Compare}.
Abbreviation lt := (vlt user_Compare).

Lemma vlt_irrefl a : ~ lt a a.
Proof. rewrite vlt_spec, cmp_refl by done. intuition lia. Qed.

Lemma vlt_asym a b : lt a b -> ~ lt b a.
Proof. intros Hab Hba. apply (vlt_irrefl a). by etransitivity. Qed.

Lemma vlt_neg_trans a b c : ~ lt a b -> ~ lt b c -> ~ lt a c.
Proof.
  intros Hab Hbc Hac. destruct (Z.eq_dec (version_cmp user_Compare b c) 0) as [E|E].
  - destruct (version_cmp_eq user_Compare _ _ E) as [Ek Es]. apply Hab. rewrite vlt_spec in Hac |- * by done. by rewrite Ek, Es.
  - pose proof (vlt_total user_Compare _ _ Hbc E). apply Hab. by etransitivity.
Qed.

Lemma vlt_cases a b : v_id a = v_id b \/ lt a b \/ lt b a.
Proof.
  destruct (decide (lt a b)) as [|Hn]; [by right; left|]. destruct (Z.eq_dec (version_cmp user_Compare a b) 0) as [E|E].
  - left. destruct (version_cmp_eq user_Compare _ _ E) as [Ek Es]. unfold v_id. congruence.
  - right; right. by apply (vlt_total user_Compare).
Qed.

Lemma vlt_id a b : lt a b -> v_id a <> v_id b.
Proof. intros Hl [= Ek Es]. rewrite vlt_spec, Ek, Es, cmp_refl in Hl by done. lia. Qed.

(** Comparing the encoded keys of versions with different sequence numbers or keys. *)
Lemma compare_versions a b : version_ok a -> version_ok b -> v_id a <> v_id b ->
  (InternalKey_Compare user_Compare (encode (v_parsed a)) (encode (v_parsed b)) < 0 <-> lt a b) /\
  (InternalKey_Compare user_Compare (encode (v_parsed a)) (encode (v_parsed b)) > 0 <-> lt b a).
Proof.
  intros [Ha _] [Hb _] Hne. rewrite internal_compare_parsed by done. rewrite !vlt_spec by done. unfold Parsed_Compare. cbn. rewrite !Z.gtb_ltb.
  pose proof (cmp_flip (v_key b) (v_key a)) as Hfl. destruct (Z.eqb_spec (user_Compare (v_key a) (v_key b)) 0) as [E|E].
  - pose proof (proj1 (cmp_eq _ _) E) as Ek. assert (Hs : v_seq a <> v_seq b) by (intros Es; apply Hne; unfold v_id; congruence).
    rewrite Ek, cmp_refl in * by done. repeat case_bool; intuition lia.
  - split; (split; [intros ?; left; lia|]); intros [?|[Ek _]]; try lia; rewrite Ek, cmp_refl in E by done; done.
Qed.

Lemma compare_same a : version_ok a -> InternalKey_Compare user_Compare (encode (v_parsed a)) (encode (v_parsed a)) = 0.
Proof. intros [Ha _]. rewrite internal_compare_parsed by done. unfold Parsed_Compare. by rewrite cmp_refl, !Z.gtb_ltb, !Z.ltb_irrefl by done. Qed.

(** Versions none of which share key and sequence number. *)
Definition distinct (L : list version) : Prop := NoDup (v_id <$> L).

Definition vle (a b : version) : Prop := ~ lt b a.

#[local] Instance vle_dec a b : Decision (vle a b) := _.
#[local] Instance vle_trans : Transitive vle.
Proof. intros a b c Hab Hbc. by apply (vlt_neg_trans c b a). Qed.
#[local] Instance vle_total : Total vle.
Proof. intros a b. destruct (decide (lt b a)) as [Hl|]; [right; by apply vlt_asym|by left]. Qed.

(** The sorted union. *)
Definition sorted_versions (L : list version) : list version := merge_sort vle L.

Lemma sorted_versions_perm L : sorted_versions L ≡ₚ L.
Proof. apply merge_sort_Permutation. Qed.

Lemma distinct_NoDup L : distinct L -> NoDup L.
Proof. apply NoDup_fmap_1. Qed.

Lemma distinct_perm L L' : L ≡ₚ L' -> distinct L -> distinct L'.
Proof. unfold distinct. by intros ->. Qed.

Lemma distinct_eq L a b : distinct L -> a ∈ L -> b ∈ L -> v_id a = v_id b -> a = b.
Proof.
  intros Hd [i Ha]%list_elem_of_lookup [j Hb]%list_elem_of_lookup E.
  assert (i = j) as <-; [|congruence]. eapply (NoDup_lookup (v_id <$> L)); [done|by rewrite list_lookup_fmap, Ha|by rewrite list_lookup_fmap, Hb, E].
Qed.

Lemma sorted_versions_sorted L : distinct L -> StronglySorted lt (sorted_versions L).
Proof.
  intros Hd. apply (distinct_perm _ _ (symmetry (sorted_versions_perm L))) in Hd. assert (Hs : StronglySorted vle (sorted_versions L)) by (apply StronglySorted_merge_sort; apply _).
  induction Hs as [|a l Hs IH Ha]; constructor.
  - apply IH. unfold distinct in *. by apply NoDup_cons in Hd as [_ ?].
  - rewrite Forall_forall in Ha |- *. intros b Hb. specialize (Ha b Hb). destruct (vlt_cases a b) as [E|[?|?]]; [|done..]. exfalso.
    unfold distinct in Hd. cbn in Hd. apply NoDup_cons in Hd as [Hn _]. apply Hn. rewrite E. by apply list_elem_of_fmap_2.
Qed.

Lemma sorted_distinct L : StronglySorted lt L -> distinct L.
Proof.
  induction 1 as [|a l _ IH Ha]; [constructor|]. unfold distinct. cbn. constructor; [|done]. intros (b & E & Hb)%list_elem_of_fmap.
  rewrite Forall_forall in Ha. by apply (vlt_id a b (Ha b Hb)).
Qed.

Lemma sorted_versions_unique L l : StronglySorted lt l -> l ≡ₚ L -> l = sorted_versions L.
Proof.
  intros Hs Hp. pose proof (distinct_perm _ _ Hp (sorted_distinct _ Hs)) as Hd.
  apply (StronglySorted_unique_strong lt); [|done|by apply sorted_versions_sorted|by rewrite sorted_versions_perm].
  intros a b _ _ Hab Hba. by apply vlt_asym in Hab.
Qed.

(** Two parts with all of the first before all of the second. *)
Lemma sorted_versions_split L LA LB : distinct L -> L ≡ₚ LA ++ LB -> (forall a b, a ∈ LA -> b ∈ LB -> lt a b) ->
  sorted_versions L = sorted_versions LA ++ sorted_versions LB.
Proof.
  intros Hd Hp Hab. pose proof (distinct_perm _ _ Hp Hd) as Hd'. unfold distinct in Hd'. rewrite fmap_app in Hd'. apply NoDup_app in Hd' as (HA & _ & HB).
  symmetry. apply sorted_versions_unique; [|by rewrite !sorted_versions_perm].
  apply StronglySorted_app. split_and!; [|by apply sorted_versions_sorted..].
  intros a b Ha Hb. rewrite sorted_versions_perm in Ha, Hb. by apply Hab.
Qed.
End Order.

(** ** Children *)

Section Correct.
Context {I : Type} `{InternalIterator I} (user_Compare : bytes -> bytes -> Z) `{!TotalCompare user_Compare} (prefix_seek_mode_ : bool).
Context (seekable : bytes -> Prop) (inv : I -> Prop) (versions : I -> list version) (cur : I -> option version).
Context `{!InternalIteratorLaws user_Compare seekable inv versions cur}.
Abbreviation lt := (vlt user_Compare).
Implicit Types m : MergingIter I.
Implicit Types c w : IteratorWrapper I.
Implicit Types cs : list (IteratorWrapper I).
Implicit Types d : iter_direction.

Abbreviation w_versions w := (versions (wr_iter w)).
Abbreviation w_cur w := (cur (wr_iter w)).

(** The cache is that of the iterator. *)
Definition wr_ok w : Prop := inv (wr_iter w) /\ wr_valid w = bool_decide (is_Some (w_cur w)) /\ forall v, w_cur w = Some v -> wr_key w = encode (v_parsed v).

Lemma wrapper_Update_ok w i : inv i -> exists w', iw_Update w i = Some w' /\ wr_ok w' /\ wr_iter w' = i.
Proof.
  intros Hi. unfold iw_Update. rewrite (ilaw_Valid i Hi), (ilaw_status i Hi), (ilaw_key i Hi).
  case_bool_decide as Hc.
  - destruct Hc as [v Hv]. rewrite Hv. cbn. eexists. split; [done|]. split; [|done]. split_and!; cbn; [done|by rewrite Hv|]. by intros ? [= <-]%(eq_trans (eq_sym Hv)).
  - eexists. split; [done|]. split; [|done]. split_and!; cbn; [done|by rewrite bool_decide_eq_false_2|]. intros v Hv. destruct Hc. by eexists.
Qed.

Lemma wrapper_key_ok w : wr_ok w -> iw_key w = (fun v => encode (v_parsed v)) <$> w_cur w.
Proof. intros (_ & Hv & Hk). unfold iw_key. rewrite Hv. destruct (w_cur w) as [v|]; [|done]. cbn. by rewrite (Hk v). Qed.

Lemma wrapper_status_ok w : wr_ok w -> iw_status w = true.
Proof. intros (Hi & _). by apply ilaw_status. Qed.

Lemma wr_sorted w : wr_ok w -> StronglySorted lt (w_versions w).
Proof. intros (Hi & _). by apply ilaw_sorted. Qed.

(** A move of the iterator of a child. *)
Lemma wrapper_move_ok w i o : wr_ok w -> inv i -> versions i = w_versions w -> cur i = o ->
  exists w', iw_Update w i = Some w' /\ wr_ok w' /\ w_versions w' = w_versions w /\ w_cur w' = o.
Proof. intros Hw Hi Ev Ec. destruct (wrapper_Update_ok w i Hi) as (w' & -> & Hw' & Ei). exists w'. by rewrite Ei. Qed.

Definition all_versions cs : list version := concat ((fun w => w_versions w) <$> cs).

Record children_ok cs : Prop := {
  co_wrappers : Forall wr_ok cs;
  co_distinct : distinct (all_versions cs);
  co_bound : zlen cs <= kMaxSizet
}.

Lemma child_version cs i c v : cs !! i = Some c -> v ∈ w_versions c -> v ∈ all_versions cs.
Proof.
  intros Hc%list_elem_of_lookup_2 Hv. unfold all_versions. apply elem_of_concat. exists (w_versions c). split; [|done].
  apply list_elem_of_fmap. by exists c.
Qed.

Lemma version_child cs v : v ∈ all_versions cs -> exists i c, cs !! i = Some c /\ v ∈ w_versions c.
Proof.
  unfold all_versions. intros (vs & Hin & Hv)%elem_of_concat. apply list_elem_of_fmap in Hin as (c & -> & [i Hc]%list_elem_of_lookup). by exists i, c.
Qed.

Lemma distinct_children cs i j ci cj a b : distinct (all_versions cs) -> cs !! i = Some ci -> cs !! j = Some cj -> a ∈ w_versions ci -> b ∈ w_versions cj ->
  v_id a = v_id b -> i = j.
Proof.
  intros Hd Hi Hj Ha Hb E. pose proof (distinct_eq _ a b Hd (child_version _ _ _ _ Hi Ha) (child_version _ _ _ _ Hj Hb) E) as <-.
  eapply (NoDup_concat_disjoint _ i j); [by apply distinct_NoDup|by rewrite list_lookup_fmap, Hi|by rewrite list_lookup_fmap, Hj|done|done].
Qed.

(** *** The order of the children that stand at a version *)

Definition at_ cs (i : nat) : version := default (mkVersion 0 0 [] []) (cs !! i ≫= fun c => w_cur c).

Definition standing cs (i : nat) : Prop := exists c v, cs !! i = Some c /\ w_cur c = Some v /\ v ∈ w_versions c.

Definition less_of d cs (i j : nat) : bool :=
  match d with Forward => bool_decide (lt (at_ cs j) (at_ cs i)) | Reverse => bool_decide (lt (at_ cs i) (at_ cs j)) end.

Definition cmp_of d cs (i j : nat) : option bool :=
  match d with Forward => MinIteratorComparator user_Compare cs i j | Reverse => MaxIteratorComparator user_Compare cs i j end.

Lemma less_trans d cs (a b e : nat) : ge (less_of d cs) a b -> ge (less_of d cs) b e -> ge (less_of d cs) a e.
Proof.
  unfold ge, less_of. destruct d; rewrite !bool_decide_eq_false; intros Hab Hbc; [by eapply vlt_neg_trans|by eapply vlt_neg_trans].
Qed.

Lemma less_total d cs a b : less_of d cs a b = true -> ge (less_of d cs) b a.
Proof. unfold ge, less_of. destruct d; rewrite bool_decide_eq_true, bool_decide_eq_false; by apply vlt_asym. Qed.

Lemma standing_at cs i c v : cs !! i = Some c -> w_cur c = Some v -> at_ cs i = v.
Proof. intros Hc Hv. unfold at_. rewrite Hc. cbn. by rewrite Hv. Qed.

Lemma cmp_of_ok d cs i j : children_ok cs -> standing cs i -> standing cs j -> cmp_of d cs i j = Some (less_of d cs i j).
Proof.
  intros [Hw Hd _] (ci & a & Hi & Ea & Ha) (cj & b & Hj & Eb & Hb). pose proof (Forall_lookup_1 _ _ _ _ Hw Hi) as Hwi. pose proof (Forall_lookup_1 _ _ _ _ Hw Hj) as Hwj.
  unfold less_of. rewrite (standing_at _ _ _ _ Hi Ea), (standing_at _ _ _ _ Hj Eb).
  assert (Ec : compare_children user_Compare cs i j = Some (InternalKey_Compare user_Compare (encode (v_parsed a)) (encode (v_parsed b)))).
  { unfold compare_children. rewrite Hi, Hj. cbn [mbind option_bind]. rewrite (wrapper_key_ok _ Hwi), (wrapper_key_ok _ Hwj), Ea, Eb. done. }
  destruct (ilaw_versions _ a (proj1 Hwi) Ha) as [Hoa _], (ilaw_versions _ b (proj1 Hwj) Hb) as [Hob _].
  unfold cmp_of. assert (Em : MinIteratorComparator user_Compare cs i j = Some (InternalKey_Compare user_Compare (encode (v_parsed a)) (encode (v_parsed b)) >? 0)
    /\ MaxIteratorComparator user_Compare cs i j = Some (InternalKey_Compare user_Compare (encode (v_parsed a)) (encode (v_parsed b)) <? 0)).
  { unfold MinIteratorComparator, MaxIteratorComparator. by rewrite Ec. }
  destruct Em as [Em1 Em2].
  rewrite Em1, Em2.
  destruct (decide (v_id a = v_id b)) as [E|E].
  - assert (a = b) as <- by (eapply distinct_eq; [done|exact (child_version _ _ _ _ Hi Ha)|exact (child_version _ _ _ _ Hj Hb)|done]).
    rewrite compare_same by done. assert (bool_decide (lt a a) = false) as -> by (apply bool_decide_eq_false, vlt_irrefl; done). by destruct d.
  - destruct (compare_versions user_Compare a b Hoa Hob E) as [H1 H2].
    destruct d; f_equal; apply bool_decide_iff; [rewrite <- H2, Z.gtb_lt|rewrite <- H1, Z.ltb_lt]; lia.
Qed.

(** *** The heap of a direction *)

Definition heap_of d m : option (BinaryHeap nat) := match d with Forward => Some (mg_minHeap m) | Reverse => mg_maxHeap m end.
Definition set_heap d h m : MergingIter I := match d with Forward => mg_set_minHeap h m | Reverse => mg_set_maxHeap (Some h) m end.
Definition add_of d (i : nat) m : option (MergingIter I) :=
  match d with Forward => AddToMinHeapOrCheckStatus user_Compare i m | Reverse => AddToMaxHeapOrCheckStatus user_Compare i m end.
Definition current_of d m : option (option nat) := match d with Forward => CurrentForward m | Reverse => CurrentReverse m end.

Lemma set_heap_same d h m : heap_of d m = Some h -> set_heap d h m = m.
Proof. destruct m, d; cbn; intros [= ->]; done. Qed.

Lemma set_heap_heap d h m : heap_of d (set_heap d h m) = Some h.
Proof. by destruct d. Qed.

Lemma set_heap_fields d h m : mg_children (set_heap d h m) = mg_children m /\ mg_current (set_heap d h m) = mg_current m /\
  mg_status_ok (set_heap d h m) = mg_status_ok m /\ mg_direction (set_heap d h m) = mg_direction m.
Proof. by destruct d. Qed.

Lemma considerStatus_ok m : considerStatus true m = m.
Proof. done. Qed.

Lemma add_ok d m h i c : children_ok (mg_children m) -> mg_children m !! i = Some c -> (forall v, w_cur c = Some v -> v ∈ w_versions c) ->
  heap_of d m = Some h -> heap_ok (less_of d (mg_children m)) h -> Forall (standing (mg_children m)) (hp_data h) -> zlen (hp_data h) < kMaxSizet ->
  exists h', add_of d i m = Some (set_heap d h' m) /\ heap_ok (less_of d (mg_children m)) h' /\
    hp_data h' ≡ₚ (if decide (is_Some (w_cur c)) then [i] else []) ++ hp_data h.
Proof.
  intros Hco Hc Hin Hh Hok HP Hz. pose proof (Forall_lookup_1 _ _ _ _ (co_wrappers _ Hco) Hc) as Hw.
  unfold add_of, AddToMinHeapOrCheckStatus, AddToMaxHeapOrCheckStatus. rewrite Hc. cbn [mbind option_bind].
  rewrite (wrapper_status_ok _ Hw), considerStatus_ok, (proj1 (proj2 Hw)). destruct (decide (is_Some (w_cur c))) as [Hs|Hs].
  - rewrite bool_decide_eq_true_2 by done. destruct Hs as [v Hv].
    assert (Hst : standing (mg_children m) i) by (exists c, v; split_and!; [done|done|by apply Hin]).
    destruct (push_ok (cmp_of d (mg_children m)) (less_of d (mg_children m)) (standing (mg_children m)) (fun a b => cmp_of_ok d _ a b Hco)
      (less_trans d _) (less_total d _) i h Hok HP Hst Hz) as (h' & Ep & Hh' & Hp). exists h'. split_and!; [|done|done].
    destruct d; cbn [heap_of] in Hh; [injection Hh as ->|rewrite Hh; cbn [mbind option_bind]].
    + change (cmp_of Forward (mg_children m)) with (MinIteratorComparator user_Compare (mg_children m)) in Ep. by rewrite Ep.
    + change (cmp_of Reverse (mg_children m)) with (MaxIteratorComparator user_Compare (mg_children m)) in Ep. by rewrite Ep.
  - rewrite bool_decide_eq_false_2 by done. exists h. split_and!; [|done|done]. rewrite set_heap_same by done. by destruct d.
Qed.

(** *** Loops over the children *)

Definition standing_ix cs (l : list nat) : list nat := filter (fun i => is_Some (cs !! i ≫= fun c => w_cur c)) l.

Lemma heap_ok_ext {T} (less less' : T -> T -> bool) h : (forall a b, a ∈ hp_data h -> b ∈ hp_data h -> less' a b = less a b) -> heap_ok less h -> heap_ok less' h.
Proof.
  intros Hl [Hh Hc]. split.
  - intros i Hi p x Ep Ex. unfold ge. rewrite Hl by (by eapply list_elem_of_lookup_2). by eapply (Hh i).
  - intros Hlt. destruct (Hc Hlt) as [[-> Hab]|[-> Hab]]; [left|right]; (split; [done|]); intros a b Ea Eb; unfold ge;
      rewrite Hl by (by eapply list_elem_of_lookup_2); by eapply Hab.
Qed.

Lemma less_of_ext d cs cs' i j : cs' !! i = cs !! i -> cs' !! j = cs !! j -> less_of d cs' i j = less_of d cs i j.
Proof. intros Ei Ej. unfold less_of, at_. by rewrite Ei, Ej. Qed.

Lemma all_versions_ext cs cs' : (forall i : nat, (fun c => w_versions c) <$> cs' !! i = (fun c => w_versions c) <$> cs !! i) -> all_versions cs' = all_versions cs.
Proof. intros E. unfold all_versions. f_equal. apply list_eq. intros i. by rewrite !list_lookup_fmap, E. Qed.

Lemma children_ok_insert cs i c c' : children_ok cs -> cs !! i = Some c -> wr_ok c' -> w_versions c' = w_versions c -> children_ok (<[i := c']> cs).
Proof.
  intros [Hw Hd Hb] Hc Hw' Ev. split; [by apply Forall_insert| |unfold zlen in *; by rewrite length_insert].
  rewrite (all_versions_ext cs); [done|]. intros j. destruct (decide (j = i)) as [->|Hne].
  - rewrite list_lookup_insert_eq by (by eapply lookup_lt_Some). rewrite Hc. cbn. by rewrite Ev.
  - by rewrite list_lookup_insert_ne.
Qed.

Section Loop.
Context d (mv : nat -> MergingIter I -> option (MergingIter I)) (Q : nat -> IteratorWrapper I -> IteratorWrapper I -> Prop) (m0 : MergingIter I).
Context (Hco : children_ok (mg_children m0)).
Context (Hmv : forall m i c, mg_current m = mg_current m0 -> mg_children m !! i = Some c -> mg_children m0 !! i = Some c ->
  exists c', mv i m = Some (mg_set_children (<[i := c']> (mg_children m)) m) /\ wr_ok c' /\ w_versions c' = w_versions c /\
    (forall v, w_cur c' = Some v -> v ∈ w_versions c') /\ Q i c c').

(** The first [k] children have been moved. *)
Record moved (k : nat) cs : Prop := {
  mo_ok : children_ok cs;
  mo_length : length cs = length (mg_children m0);
  mo_done : forall i c, (i < k)%nat -> mg_children m0 !! i = Some c -> exists c', cs !! i = Some c' /\ w_versions c' = w_versions c /\
    (forall v, w_cur c' = Some v -> v ∈ w_versions c') /\ Q i c c';
  mo_todo : forall i, (k <= i)%nat -> cs !! i = mg_children m0 !! i
}.

Lemma moved_step k cs h c : moved k cs -> heap_ok (less_of d cs) h -> hp_data h ≡ₚ standing_ix cs (seq 0 k) -> mg_children m0 !! k = Some c ->
  exists cs' h', (m ← mv k (set_heap d h (mg_set_children cs m0)); add_of d k m) = Some (set_heap d h' (mg_set_children cs' m0)) /\
    moved (S k) cs' /\ heap_ok (less_of d cs') h' /\ hp_data h' ≡ₚ standing_ix cs' (seq 0 (S k)).
Proof.
  intros [Mok Mlen Mdone Mtodo] Hh Hp Hc. set (m := set_heap d h (mg_set_children cs m0)).
  assert (Em : mg_children m = cs /\ mg_current m = mg_current m0 /\ heap_of d m = Some h) by (by destruct d). destruct Em as (Ecs & Ecur & Eh).
  assert (Hck : cs !! k = Some c) by (by rewrite Mtodo).
  destruct (Hmv m k c) as (c' & -> & Hw' & Ev & Hin & HQ); [done|by rewrite Ecs|done|]. cbn [mbind option_bind]. rewrite Ecs.
  set (cs' := <[k := c']> cs). assert (Hk : (k < length cs)%nat) by (by eapply lookup_lt_Some).
  assert (Eck : cs' !! k = Some c') by (unfold cs'; by rewrite list_lookup_insert_eq).
  assert (Eother : forall j, j <> k -> cs' !! j = cs !! j) by (intros j ?; unfold cs'; by rewrite list_lookup_insert_ne).
  assert (Hco' : children_ok cs') by (by eapply children_ok_insert).
  assert (Hdata : forall j, j ∈ hp_data h -> (j < k)%nat /\ is_Some (cs !! j ≫= fun c => w_cur c)).
  { intros j. rewrite Hp. intros [Hj Hs]%list_elem_of_filter. apply elem_of_seq in Hs. split; [lia|done]. }
  assert (HP : Forall (standing cs') (hp_data h)).
  { apply Forall_forall. intros j Hj. destruct (Hdata j Hj) as [Hlt [v Hv]]. destruct (lookup_lt_is_Some_2 (mg_children m0) j) as [c0 Hc0]; [lia|].
    destruct (Mdone j c0 Hlt Hc0) as (cj & Ecj & _ & Hinj & _). rewrite Ecj in Hv. cbn in Hv. exists cj, v. rewrite Eother by lia. split_and!; [done|done|by apply Hinj]. }
  assert (Hz : zlen (hp_data h) < kMaxSizet).
  { pose proof (co_bound _ Mok) as Hb. unfold zlen in *. rewrite Hp. pose proof (length_filter (fun i => is_Some (cs !! i ≫= fun c => w_cur c)) (seq 0 k)) as Hl.
    rewrite length_seq in Hl. unfold standing_ix. lia. }
  destruct (add_ok d (mg_set_children cs' m) h k c') as (h' & Ea & Hh' & Hp').
  - by destruct d. - by destruct d. - done. - by destruct d.
  - replace (mg_children (mg_set_children cs' m)) with cs' by (by destruct d). eapply heap_ok_ext; [|exact Hh].
    intros a b Ha Hb. destruct (Hdata a Ha), (Hdata b Hb). apply less_of_ext; apply Eother; lia.
  - by destruct d. - done.
  - exists cs', h'. split_and!.
    + rewrite Ea. by destruct d.
    + split; [done|unfold cs'; by rewrite length_insert| |].
      * intros i ci Hi Hci. destruct (decide (i = k)) as [->|Hne]; [simplify_eq; by exists c'|]. rewrite Eother by done. apply Mdone; [lia|done].
      * intros i Hi. rewrite Eother by lia. apply Mtodo. lia.
    + by destruct d.
    + rewrite Hp', Hp, seq_S. unfold standing_ix. rewrite filter_app, Permutation_app_comm. cbn [plus].
      rewrite (filter_same _ (fun i => is_Some (cs' !! i ≫= fun c => w_cur c)) (seq 0 k)); [|intros j Hj%elem_of_seq; by rewrite Eother by lia].
      destruct (decide (is_Some (w_cur c'))) as [Hs|Hs]; [rewrite filter_cons_True by (by rewrite Eck)|rewrite filter_cons_False by (by rewrite Eck)]; done.
Qed.

Lemma loop_ok h0 : heap_of d m0 = Some h0 -> heap_ok (less_of d (mg_children m0)) h0 -> hp_data h0 = [] ->
  exists cs h, all_children (fun i m => m ← mv i m; add_of d i m) m0 = Some (set_heap d h (mg_set_children cs m0)) /\
    moved (length (mg_children m0)) cs /\ heap_ok (less_of d cs) h /\ hp_data h ≡ₚ standing_ix cs (seq 0 (length cs)).
Proof.
  intros Hh0 Hok0 Hd0. set (n := length (mg_children m0)).
  assert (Hgo : forall todo k cs h, (k + todo = n)%nat -> moved k cs -> heap_ok (less_of d cs) h -> hp_data h ≡ₚ standing_ix cs (seq 0 k) ->
    exists cs' h', for_children (fun i m => m ← mv i m; add_of d i m) (seq k todo) (set_heap d h (mg_set_children cs m0)) = Some (set_heap d h' (mg_set_children cs' m0)) /\
      moved n cs' /\ heap_ok (less_of d cs') h' /\ hp_data h' ≡ₚ standing_ix cs' (seq 0 n)).
  { induction todo as [|todo IH]; intros k cs h Hk Hm Hh Hp; [exists cs, h; assert (k = n) as -> by lia; done|]. cbn [seq for_children].
    destruct (lookup_lt_is_Some_2 (mg_children m0) k) as [c Hc]; [unfold n in Hk; lia|].
    destruct (moved_step k cs h c Hm Hh Hp Hc) as (cs' & h' & -> & Hm' & Hh' & Hp'). cbn [mbind option_bind]. apply IH; [lia|done..]. }
  destruct (Hgo n 0%nat (mg_children m0) h0) as (cs & h & E & Hm & Hh & Hp); [done| |done|by rewrite Hd0|].
  - split; [done|done|intros; lia|done].
  - exists cs, h. unfold all_children. assert (Es : set_heap d h0 (mg_set_children (mg_children m0) m0) = m0) by (destruct m0, d; cbn in *; by simplify_eq).
    rewrite Es in E. split_and!; [done..|]. by rewrite (mo_length _ _ Hm).
Qed.
End Loop.

(** ** Positions

    The merged versions are cut in two, and each child stands next to the cut: behind it
    while moving forward, before it while moving backward. *)

Definition side {A} d (l1 l2 : list A) : option A := match d with Forward => head l2 | Reverse => last l1 end.

Definition part d (A B : list version) : list version := match d with Forward => B | Reverse => A end.

Definition stand d c (A B : list version) : Prop :=
  exists Ac Bc, w_versions c = Ac ++ Bc /\ Ac ⊆ A /\ Bc ⊆ B /\ w_cur c = side d Ac Bc.

Definition mg_versions m : list version := sorted_versions user_Compare (all_versions (mg_children m)).

Definition mg_cur m : option version := mg_current m ≫= fun i => mg_children m !! i ≫= fun c => w_cur c.

Record placed d m (A B : list version) : Prop := {
  pl_direction : mg_direction m = d;
  pl_status : mg_status_ok m = true;
  pl_children : children_ok (mg_children m);
  pl_versions : mg_versions m = A ++ B;
  pl_stand : forall i c, mg_children m !! i = Some c -> stand d c A B;
  pl_heap : exists h, heap_of d m = Some h /\ heap_ok (less_of d (mg_children m)) h /\
    hp_data h ≡ₚ standing_ix (mg_children m) (seq 0 (length (mg_children m))) /\ mg_current m = head (hp_data h)
}.

Lemma side_in d (A B : list version) v : side d A B = Some v -> v ∈ part d A B.
Proof. destruct d; cbn; [apply head_Some_elem_of|apply last_Some_elem_of]. Qed.

Lemma stand_cur d c A B v : stand d c A B -> w_cur c = Some v -> v ∈ w_versions c /\ v ∈ part d A B.
Proof.
  intros (Ac & Bc & E & HA & HB & Ec) Hv. rewrite Ec in Hv. apply side_in in Hv. rewrite E, elem_of_app. destruct d; cbn in Hv |- *; auto.
Qed.

(** The version next to the cut is where its child stands. *)
Lemma stand_side d c A B v : StronglySorted lt (A ++ B) -> StronglySorted lt (w_versions c) -> stand d c A B -> v ∈ w_versions c -> side d A B = Some v -> w_cur c = Some v.
Proof.
  intros Hs Hsc (Ac & Bc & E & HA & HB & ->) Hv Hside. rewrite E in Hsc, Hv. apply elem_of_app in Hv. destruct d; cbn in Hside |- *.
  - assert (HvB : v ∈ B) by (by apply head_Some_elem_of). destruct Hv as [Hv|Hv].
    { exfalso. apply (vlt_irrefl user_Compare v). eapply sorted_before; [exact Hs|by apply HA|done]. }
    destruct (head Bc) as [x|] eqn:Ex; [|destruct Bc; [by apply elem_of_nil in Hv|done]]. f_equal.
    assert (HxB : x ∈ B) by (apply HB; by apply head_Some_elem_of).
    destruct (sorted_head lt Bc x v) as [?|Hxv]; [by apply StronglySorted_app_1_r in Hsc|done|done|done|].
    destruct (sorted_head lt B v x) as [?|Hvx]; [by apply StronglySorted_app_1_r in Hs|done|done|done|]. by apply vlt_asym in Hxv.
  - assert (HvA : v ∈ A) by (by apply last_Some_elem_of). destruct Hv as [Hv|Hv].
    2:{ exfalso. apply (vlt_irrefl user_Compare v). eapply sorted_before; [exact Hs|done|by apply HB]. }
    destruct (last Ac) as [x|] eqn:Ex; [|apply last_None in Ex as ->; by apply elem_of_nil in Hv]. f_equal.
    assert (HxA : x ∈ A) by (apply HA; by apply last_Some_elem_of).
    destruct (sorted_last lt Ac x v) as [?|Hvx]; [by apply StronglySorted_app_1_l in Hsc|done|done|done|].
    destruct (sorted_last lt A v x) as [?|Hxv]; [by apply StronglySorted_app_1_l in Hs|done|done|done|]. by apply vlt_asym in Hxv.
Qed.

(** None is on the wrong side of it. *)
Lemma side_extreme d (A B : list version) v x : StronglySorted lt (A ++ B) -> side d A B = Some v -> x ∈ part d A B ->
  (match d with Forward => ~ lt v x | Reverse => ~ lt x v end) -> x = v.
Proof.
  intros Hs Hv Hx Hn. destruct d; cbn in *.
  - destruct (sorted_head lt B v x) as [?|?]; [by apply StronglySorted_app_1_r in Hs|done|done|done|done].
  - destruct (sorted_last lt A v x) as [?|?]; [by apply StronglySorted_app_1_l in Hs|done|done|done|done].
Qed.

Lemma merged_sorted cs : children_ok cs -> StronglySorted lt (sorted_versions user_Compare (all_versions cs)).
Proof. intros Hco. apply sorted_versions_sorted; [done|]. apply Hco. Qed.

Lemma standing_ix_elem cs i : i ∈ standing_ix cs (seq 0 (length cs)) <-> exists c v, cs !! i = Some c /\ w_cur c = Some v.
Proof.
  unfold standing_ix. rewrite list_elem_of_filter, elem_of_seq. split.
  - intros [[v Hv] _]. destruct (cs !! i) as [c|]; [|done]. by exists c, v.
  - intros (c & v & Hc & Hv). rewrite Hc. cbn. split; [by exists v|]. apply lookup_lt_Some in Hc. lia.
Qed.

(** The top of the heap stands next to the cut. *)
Lemma heap_side d cs A B h : children_ok cs -> sorted_versions user_Compare (all_versions cs) = A ++ B -> (forall i c, cs !! i = Some c -> stand d c A B) ->
  heap_ok (less_of d cs) h -> hp_data h ≡ₚ standing_ix cs (seq 0 (length cs)) ->
  (head (hp_data h) ≫= fun i => cs !! i ≫= fun c => w_cur c) = side d A B.
Proof.
  intros Hco El Hst [Hh _] Hp. pose proof (merged_sorted cs Hco) as Hs. rewrite El in Hs.
  destruct (head (hp_data h)) as [i|] eqn:Ei; cbn [mbind option_bind].
  - assert (Hi : i ∈ hp_data h) by (by apply head_Some_elem_of). rewrite Hp in Hi. apply standing_ix_elem in Hi as (c & x & Hc & Hx). rewrite Hc. cbn [mbind option_bind].
    rewrite Hx. destruct (stand_cur d c A B x (Hst i c Hc) Hx) as [_ Hxp]. destruct (side d A B) as [v|] eqn:Hv.
    2:{ exfalso. destruct d; cbn in *; [destruct B; [by apply elem_of_nil in Hxp|done]|apply last_None in Hv as ->; by apply elem_of_nil in Hxp]. }
    f_equal. apply (side_extreme d A B v x Hs Hv Hxp).
    assert (Hvl : v ∈ all_versions cs). { rewrite <- (sorted_versions_perm user_Compare), El, elem_of_app. apply side_in in Hv. destruct d; auto. }
    destruct (version_child cs v Hvl) as (j & cj & Hcj & Hvj).
    pose proof (stand_side d cj A B v Hs (wr_sorted _ (Forall_lookup_1 _ _ _ _ (co_wrappers _ Hco) Hcj)) (Hst j cj Hcj) Hvj Hv) as Ecj.
    assert (Hj : j ∈ hp_data h) by (rewrite Hp; apply standing_ix_elem; by exists cj, v).
    pose proof (heap_max _ (less_trans d cs) (less_total d cs) _ _ _ Hh Ei Hj) as Hge. unfold ge, less_of in Hge.
    rewrite (standing_at _ _ _ _ Hc Hx), (standing_at _ _ _ _ Hcj Ecj) in Hge. destruct d; by apply bool_decide_eq_false in Hge.
  - destruct (side d A B) as [v|] eqn:Hv; [|done]. exfalso.
    assert (Hvl : v ∈ all_versions cs). { rewrite <- (sorted_versions_perm user_Compare), El, elem_of_app. apply side_in in Hv. destruct d; auto. }
    destruct (version_child cs v Hvl) as (j & cj & Hcj & Hvj).
    pose proof (stand_side d cj A B v Hs (wr_sorted _ (Forall_lookup_1 _ _ _ _ (co_wrappers _ Hco) Hcj)) (Hst j cj Hcj) Hvj Hv) as Ecj.
    assert (Hj : j ∈ hp_data h) by (rewrite Hp; apply standing_ix_elem; by exists cj, v). destruct (hp_data h); [by apply elem_of_nil in Hj|done].
Qed.

Lemma placed_cur d m A B : placed d m A B -> mg_cur m = side d A B.
Proof. intros [_ _ Hco El Hst (h & _ & Hok & Hp & Hc)]. unfold mg_cur. rewrite Hc. by apply heap_side. Qed.

(** ** Seeks *)

Lemma current_of_ok d m h : mg_direction m = d -> heap_of d m = Some h -> current_of d m = Some (head (hp_data h)).
Proof.
  intros Hd Hh. destruct d; cbn [current_of heap_of] in *; unfold CurrentForward, CurrentReverse, heap_empty, heap_top; rewrite decide_True by done.
  - injection Hh as ->. by destruct (hp_data h).
  - rewrite Hh. cbn [mbind option_bind]. by destruct (hp_data h).
Qed.

Definition seek_of d (f : IteratorWrapper I -> option (IteratorWrapper I)) m : option (MergingIter I) :=
  match d with Forward => seek_forward user_Compare f m | Reverse => seek_backward user_Compare f m end.

(** Before a loop: heaps are empty. *)
Definition cleared d m : MergingIter I := match d with Forward => ClearHeaps m | Reverse => InitMaxHeap (ClearHeaps m) end.

Lemma cleared_ok d m : mg_children (cleared d m) = mg_children m /\ mg_current (cleared d m) = mg_current m /\
  mg_status_ok (cleared d m) = mg_status_ok m /\ heap_of d (cleared d m) = Some heap_new.
Proof. destruct d; unfold cleared, InitMaxHeap, ClearHeaps; [done|]. cbn. by destruct (mg_maxHeap m). Qed.

Lemma seek_of_eq d f m : seek_of d f m =
  (m ← all_children (fun i m => m ← move_child f i m; add_of d i m) (mg_set_status true (cleared d m));
   let m := mg_set_direction d m in cur ← current_of d m; Some (mg_set_current cur m)).
Proof. by destruct d. Qed.

Lemma moved_versions Q m0 cs : moved Q m0 (length (mg_children m0)) cs -> all_versions cs = all_versions (mg_children m0).
Proof.
  intros [_ Hl Hd _]. apply all_versions_ext. intros i. destruct (mg_children m0 !! i) as [c|] eqn:Ec.
  - destruct (Hd i c (lookup_lt_Some _ _ _ Ec) Ec) as (c' & -> & Ev & _). cbn. by rewrite Ev.
  - apply lookup_ge_None in Ec. by rewrite lookup_ge_None_2 by lia.
Qed.

(** A child that is moved keeps its versions and stands next to the cut. *)
Definition goes d c (A B : list version) (r : option (IteratorWrapper I)) : Prop :=
  exists c', r = Some c' /\ wr_ok c' /\ w_versions c' = w_versions c /\ stand d c' A B.

Lemma seek_ok d f m A B : children_ok (mg_children m) -> mg_versions m = A ++ B ->
  (forall i c, mg_children m !! i = Some c -> goes d c A B (f c)) ->
  exists m', seek_of d f m = Some m' /\ placed d m' A B /\ mg_versions m' = mg_versions m.
Proof.
  intros Hco El Hf. rewrite seek_of_eq. destruct (cleared_ok d m) as (Ec & _ & _ & Eh). set (m0 := mg_set_status true (cleared d m)).
  assert (Ec0 : mg_children m0 = mg_children m) by (by destruct d). assert (Eh0 : heap_of d m0 = Some heap_new) by (by destruct d).
  assert (Hco0 : children_ok (mg_children m0)) by (by rewrite Ec0).
  destruct (loop_ok d (move_child f) (fun _ _ c' => stand d c' A B) m0 Hco0) with (h0 := @heap_new nat) as (cs & h & -> & Hm & Hh & Hp).
  - intros m1 i c _ Hc Hc0. rewrite Ec0 in Hc0. destruct (Hf i c Hc0) as (c' & Ef & Hw & Ev & Hst). exists c'. unfold move_child. rewrite Hc. cbn [mbind option_bind].
    rewrite Ef. split_and!; [done..| |done]. intros v Hv. by apply (stand_cur d c' A B).
  - done. - apply heap_empty_ok. - done.
  - cbn [mbind option_bind]. set (m1 := mg_set_direction d (set_heap d h (mg_set_children cs m0))).
    assert (Em1 : mg_children m1 = cs /\ mg_status_ok m1 = true /\ heap_of d m1 = Some h /\ mg_direction m1 = d) by (by destruct d).
    destruct Em1 as (E1 & E2 & E3 & E4). rewrite (current_of_ok d m1 h E4 E3). cbn [mbind option_bind].
    assert (Ev : all_versions cs = all_versions (mg_children m)) by (rewrite (moved_versions _ _ _ Hm); by rewrite Ec0).
    eexists. split; [done|]. split; [|unfold mg_versions; cbn [mg_children mg_set_current]; by rewrite E1, Ev].
    split; cbn [mg_children mg_set_current mg_direction mg_status_ok mg_current]; rewrite ?E1; [done|done|apply Hm| | |].
    + unfold mg_versions. cbn [mg_children mg_set_current]. rewrite E1, Ev. exact El.
    + intros i c Hc. destruct (lookup_lt_is_Some_2 (mg_children m0) i) as [c0 Hc0]; [rewrite <- (mo_length _ _ _ _ Hm); by eapply lookup_lt_Some|].
      destruct (mo_done _ _ _ _ Hm i c0 (lookup_lt_Some _ _ _ Hc0) Hc0) as (c' & Hc' & _ & _ & Hst). by simplify_eq.
    + exists h. split_and!; [by destruct d|done..].
Qed.

Lemma wrapper_goes d c (op : I -> option I) A B Ac Bc : wr_ok c -> w_versions c = Ac ++ Bc -> Ac ⊆ A -> Bc ⊆ B ->
  (exists i, op (wr_iter c) = Some i /\ inv i /\ versions i = w_versions c /\ cur i = side d Ac Bc) ->
  goes d c A B (i ← op (wr_iter c); iw_Update c i).
Proof.
  intros Hw E HA HB (i & -> & Hi & Ev & Ec). cbn [mbind option_bind]. destruct (wrapper_move_ok c i _ Hw Hi Ev Ec) as (c' & -> & Hw' & Ev' & Ec').
  exists c'. split_and!; [done..|]. exists Ac, Bc. split_and!; [by rewrite Ev'|done..].
Qed.

Lemma child_subset m i c : children_ok (mg_children m) -> mg_children m !! i = Some c -> w_versions c ⊆ mg_versions m.
Proof. intros Hco Hc v Hv. unfold mg_versions. rewrite sorted_versions_perm. by eapply child_version. Qed.

Lemma mg_SeekToFirst_ok m : children_ok (mg_children m) -> exists m', mg_SeekToFirst user_Compare m = Some m' /\ placed Forward m' [] (mg_versions m) /\ mg_versions m' = mg_versions m.
Proof.
  intros Hco. apply (seek_ok Forward iw_SeekToFirst m); [done|done|]. intros i c Hc. pose proof (Forall_lookup_1 _ _ _ _ (co_wrappers _ Hco) Hc) as Hw.
  apply (wrapper_goes Forward c SeekToFirst _ _ [] (w_versions c)); [done..|by eapply child_subset|]. apply ilaw_SeekToFirst. apply Hw.
Qed.

Lemma mg_SeekToLast_ok m : children_ok (mg_children m) -> exists m', mg_SeekToLast user_Compare m = Some m' /\ placed Reverse m' (mg_versions m) [] /\ mg_versions m' = mg_versions m.
Proof.
  intros Hco. apply (seek_ok Reverse iw_SeekToLast m); [done|by rewrite app_nil_r|]. intros i c Hc. pose proof (Forall_lookup_1 _ _ _ _ (co_wrappers _ Hco) Hc) as Hw.
  apply (wrapper_goes Reverse c SeekToLast _ _ (w_versions c) []); [done|by rewrite app_nil_r|by eapply child_subset|done|]. apply ilaw_SeekToLast. apply Hw.
Qed.

Lemma cut_before (l : list version) tv : StronglySorted lt l ->
  l = filter (fun v => ~ lt tv v) l ++ filter (fun v => ~ ~ lt tv v) l.
Proof. intros Hs. apply (sorted_partition lt); [done|]. intros a b _ _ Hab Hb Ha. apply Hb. by etransitivity. Qed.

Lemma mg_SeekForPrev_ok m u s t : children_ok (mg_children m) -> seekable u -> parsed_ok (mkParsed u s t) ->
  (forall v, v ∈ mg_versions m -> v_key v = u -> v_seq v = s -> t <= v_type v) ->
  exists m', mg_SeekForPrev user_Compare m (encode (mkParsed u s t)) = Some m' /\
    placed Reverse m' (filter (fun v => ~ lt (mkVersion s t u []) v) (mg_versions m)) (filter (fun v => ~ ~ lt (mkVersion s t u []) v) (mg_versions m)) /\
    mg_versions m' = mg_versions m.
Proof.
  intros Hco Hu Hq Hty. apply (seek_ok Reverse (iw_SeekForPrev (encode (mkParsed u s t))) m); [done|apply cut_before, merged_sorted; done|].
  intros i c Hc. pose proof (Forall_lookup_1 _ _ _ _ (co_wrappers _ Hco) Hc) as Hw. pose proof (child_subset m i c Hco Hc) as Hsub.
  apply (wrapper_goes Reverse c (fun i => SeekForPrev i (encode (mkParsed u s t))) _ _ (filter (fun v => ~ lt (mkVersion s t u []) v) (w_versions c))
    (filter (fun v => ~ ~ lt (mkVersion s t u []) v) (w_versions c))); [done|by apply cut_before, wr_sorted|..].
  - intros v [? Hv]%list_elem_of_filter. apply list_elem_of_filter. split; [done|by apply Hsub].
  - intros v [? Hv]%list_elem_of_filter. apply list_elem_of_filter. split; [done|by apply Hsub].
  - apply ilaw_SeekForPrev; [apply Hw|done|done|]. intros v Hv. by apply Hty, Hsub.
Qed.

(** The parts of the children before and behind a target. *)
Lemma collect cs (R : IteratorWrapper I -> list version -> list version -> Prop) :
  (forall i c, cs !! i = Some c -> exists Ac Bc, w_versions c = Ac ++ Bc /\ R c Ac Bc) ->
  exists LA LB, all_versions cs ≡ₚ LA ++ LB /\
    (forall i c, cs !! i = Some c -> exists Ac Bc, w_versions c = Ac ++ Bc /\ R c Ac Bc /\ Ac ⊆ LA /\ Bc ⊆ LB) /\
    (forall a, a ∈ LA -> exists c Ac Bc, R c Ac Bc /\ a ∈ Ac) /\ (forall b, b ∈ LB -> exists c Ac Bc, R c Ac Bc /\ b ∈ Bc).
Proof.
  induction cs as [|c cs IH]; intros HR.
  - exists [], []. split_and!; [done|by intros ? ?|by intros ? ?%elem_of_nil|by intros ? ?%elem_of_nil].
  - destruct (HR 0%nat c eq_refl) as (Ac & Bc & E & Hc). destruct IH as (LA & LB & Hp & Hsub & HA & HB); [intros i; apply (HR (S i))|].
    exists (Ac ++ LA), (Bc ++ LB). split_and!.
    + unfold all_versions in *. cbn. rewrite E, Hp. solve_Permutation.
    + intros [|i] c' Hc'; cbn in Hc'.
      * simplify_eq. exists Ac, Bc. split_and!; [done|done|set_solver|set_solver].
      * destruct (Hsub i c' Hc') as (A' & B' & E' & HR' & ? & ?). exists A', B'. split_and!; [done|done|set_solver|set_solver].
    + intros a [Ha|Ha]%elem_of_app; [by exists c, Ac, Bc|by apply HA].
    + intros b [Hb|Hb]%elem_of_app; [by exists c, Ac, Bc|by apply HB].
Qed.

Lemma seek_parts m u s t : children_ok (mg_children m) -> seekable u -> parsed_ok (mkParsed u s t) ->
  exists A B, seek_split user_Compare (mg_versions m) A B (mkVersion s t u []) /\
    forall i c, mg_children m !! i = Some c -> goes Forward c A B (iw_Seek (encode (mkParsed u s t)) c).
Proof.
  intros Hco Hu Hq. set (tv := mkVersion s t u []).
  set (R := fun c Ac Bc => seek_split user_Compare (w_versions c) Ac Bc tv /\
    exists i, Seek (wr_iter c) (encode (mkParsed u s t)) = Some i /\ inv i /\ versions i = w_versions c /\ cur i = head Bc).
  destruct (collect (mg_children m) R) as (LA & LB & Hp & Hsub & HA & HB).
  { intros i c Hc. pose proof (Forall_lookup_1 _ _ _ _ (co_wrappers _ Hco) Hc) as Hw.
    destruct (ilaw_Seek (wr_iter c) u s t (proj1 Hw) Hu Hq) as (i' & Ac & Bc & Es & Hi' & Ev & Hsp & Ec).
    exists Ac, Bc. split; [apply Hsp|]. split; [done|]. by exists i'. }
  assert (Hid : forall a b, a ∈ LA -> b ∈ LB -> v_id a <> v_id b).
  { intros a b Ha Hb E. pose proof (distinct_perm _ _ Hp (co_distinct _ Hco)) as Hd. unfold distinct in Hd. rewrite fmap_app in Hd.
    apply NoDup_app in Hd as (_ & Hd & _). apply (Hd (v_id a)); [by apply list_elem_of_fmap_2|rewrite E; by apply list_elem_of_fmap_2]. }
  assert (HAB : forall a b, a ∈ LA -> b ∈ LB -> lt a b).
  { intros a b Ha Hb. specialize (Hid a b Ha Hb). destruct (HA a Ha) as (ca & A1 & B1 & [(_ & H1 & _) _] & Ha1). destruct (HB b Hb) as (cb & A2 & B2 & [(_ & _ & H2) _] & Hb2).
    specialize (H2 b Hb2). destruct (vlt_cases user_Compare a b) as [?|[?|Hba]]; [done|done|]. destruct H2. destruct (H1 a Ha1) as [?|(Ek & Es & _)]; [by etransitivity|].
    rewrite vlt_spec in Hba |- * by done. by rewrite <- Ek, <- Es. }
  exists (sorted_versions user_Compare LA), (sorted_versions user_Compare LB). split.
  - split_and!.
    + unfold mg_versions. apply sorted_versions_split; [done|apply Hco|done|done].
    + intros a. rewrite sorted_versions_perm. intros (ca & A1 & B1 & [(_ & H1 & _) _] & Ha1)%HA. by apply H1.
    + intros b. rewrite sorted_versions_perm. intros (cb & A2 & B2 & [(_ & _ & H2) _] & Hb2)%HB. by apply H2.
  - intros i c Hc. pose proof (Forall_lookup_1 _ _ _ _ (co_wrappers _ Hco) Hc) as Hw. destruct (Hsub i c Hc) as (Ac & Bc & E & [_ HR] & HsA & HsB).
    apply (wrapper_goes Forward c (fun i => Seek i (encode (mkParsed u s t))) _ _ Ac Bc); [done|done|..|done]; intros v Hv; rewrite sorted_versions_perm; auto.
Qed.

Lemma mg_Seek_ok m u s t : children_ok (mg_children m) -> seekable u -> parsed_ok (mkParsed u s t) ->
  exists m' A B, mg_Seek user_Compare m (encode (mkParsed u s t)) = Some m' /\ placed Forward m' A B /\ mg_versions m' = mg_versions m /\
    seek_split user_Compare (mg_versions m) A B (mkVersion s t u []).
Proof.
  intros Hco Hu Hq. destruct (seek_parts m u s t Hco Hu Hq) as (A & B & Hsp & Hgo).
  destruct (seek_ok Forward (iw_Seek (encode (mkParsed u s t))) m A B Hco (proj1 Hsp) Hgo) as (m' & E & Hpl & Ev). by exists m', A, B.
Qed.

(** ** Moves

    A move passes the version next to the cut: [(A, v :: B)] becomes [(A ++ [v], B)]
    while moving forward, and the other way round. *)

Definition opposite d : iter_direction := match d with Forward => Reverse | Reverse => Forward end.
Definition left_of d (A : list version) v : list version := match d with Forward => A | Reverse => A ++ [v] end.
Definition right_of d v (B : list version) : list version := match d with Forward => v :: B | Reverse => B end.
Definition step_of d : IteratorWrapper I -> option (IteratorWrapper I) := match d with Forward => iw_Next | Reverse => iw_Prev end.

Lemma side_cut d (A B : list version) v : side d A B = Some v -> exists A' B', A = left_of d A' v /\ B = right_of d v B'.
Proof.
  destruct d; cbn; intros E; [destruct B as [|x B']; [done|]; injection E as ->; by exists A, B'|].
  apply last_Some in E as [A' ->]. by exists A', B.
Qed.

Lemma cut_app d A v B : left_of d A v ++ right_of d v B = A ++ v :: B.
Proof. destruct d; cbn; [done|]. by rewrite <- app_assoc. Qed.

Lemma cut_side d A v B : side d (left_of d A v) (right_of d v B) = Some v.
Proof. destruct d; cbn; [done|]. apply last_snoc. Qed.

(** The child that stands there. *)
Lemma step_child d c A v B : wr_ok c -> stand d c (left_of d A v) (right_of d v B) -> w_cur c = Some v ->
  goes d c (left_of (opposite d) A v) (right_of (opposite d) v B) (step_of d c).
Proof.
  intros Hw (Ac & Bc & E & HA & HB & Ec) Hv. rewrite Ec in Hv. pose proof (wr_sorted _ Hw) as Hs. rewrite E in Hs. destruct d; cbn in *.
  - destruct Bc as [|x Bc]; [done|]. injection Hv as ->. unfold iw_Next. apply (wrapper_goes Forward c Next _ _ (Ac ++ [v]) Bc); [done|by rewrite <- app_assoc|set_solver| |].
    + intros b Hb. assert (Hin : b ∈ v :: B) by (apply HB; by right). apply elem_of_cons in Hin as [->|?]; [|done]. exfalso. apply (vlt_irrefl user_Compare v).
      apply StronglySorted_app_1_r, StronglySorted_inv in Hs as [_ Hs]. rewrite Forall_forall in Hs. by apply Hs.
    + apply (ilaw_Next (wr_iter c) Ac v Bc); [apply Hw|done|by rewrite Ec].
  - apply last_Some in Hv as [Ac' ->]. unfold iw_Prev. apply (wrapper_goes Reverse c Prev _ _ Ac' (v :: Bc)); [done|by rewrite E, <- app_assoc| |set_solver|].
    + intros a Ha. assert (Hin : a ∈ A ++ [v]) by (apply HA; set_solver). apply in_snoc in Hin as [?| ->]; [done|]. exfalso. apply (vlt_irrefl user_Compare v).
      apply StronglySorted_app_1_l in Hs. eapply sorted_before; [exact Hs|done|by left].
    + apply (ilaw_Prev (wr_iter c) Ac' v Bc); [apply Hw|by rewrite E, <- app_assoc|by rewrite Ec, last_snoc].
Qed.

(** The others. *)
Lemma step_other d c A v B : stand d c (left_of d A v) (right_of d v B) -> v ∉ w_versions c -> stand d c (left_of (opposite d) A v) (right_of (opposite d) v B).
Proof.
  intros (Ac & Bc & E & HA & HB & Ec) Hv. rewrite E, not_elem_of_app in Hv. destruct Hv as [HvA HvB]. exists Ac, Bc. split_and!; [done|..|done].
  - intros a Ha. specialize (HA a Ha). destruct d; cbn in *; [set_solver|]. apply in_snoc in HA as [?| ->]; [done|]. done.
  - intros b Hb. specialize (HB b Hb). destruct d; cbn in *; [|set_solver]. apply elem_of_cons in HB as [->|?]; done.
Qed.

Lemma standing_NoDup cs l : NoDup l -> NoDup (standing_ix cs l).
Proof. apply NoDup_filter. Qed.

(** The heap after the child at its top has moved. *)
Lemma heap_moved d cs i c' h rest : children_ok (<[i := c']> cs) -> (i < length cs)%nat -> (forall v, w_cur c' = Some v -> v ∈ w_versions c') ->
  heap_ok (less_of d cs) h -> hp_data h = i :: rest -> hp_data h ≡ₚ standing_ix cs (seq 0 (length cs)) ->
  Forall (standing (<[i := c']> cs)) rest ->
  exists h', (if wr_valid c' then heap_replace_top (cmp_of d (<[i := c']> cs)) i h else heap_pop (cmp_of d (<[i := c']> cs)) h) = Some h' /\
    heap_ok (less_of d (<[i := c']> cs)) h' /\ hp_data h' ≡ₚ standing_ix (<[i := c']> cs) (seq 0 (length (<[i := c']> cs))).
Proof.
  intros Hco Hi Hin [Hh Hc] Ed Hp HP. set (cs' := <[i := c']> cs) in *. rewrite Ed in Hh, Hc, Hp.
  assert (Hnd : NoDup (i :: rest)) by (rewrite Hp; apply standing_NoDup, NoDup_seq). apply NoDup_cons in Hnd as [Hir Hnr].
  assert (Eo : forall j, j <> i -> cs' !! j = cs !! j) by (intros j ?; unfold cs'; by rewrite list_lookup_insert_ne).
  assert (Ei : cs' !! i = Some c') by (unfold cs'; by rewrite list_lookup_insert_eq).
  assert (Hl : forall a b, a ∈ rest -> b ∈ rest -> less_of d cs' a b = less_of d cs a b).
  { intros a b Ha Hb. apply less_of_ext; apply Eo; by intros ->. }
  assert (Hb : heap_below (less_of d cs') (i :: rest)) by (apply (heap_below_ext (less_of d cs) _ i); [done|]; intros j Hj _; by apply Hh).
  assert (Hcache : cache_ok (less_of d cs') (i :: rest) (hp_root_cmp_cache h)) by (by apply (cache_ok_ext (less_of d cs) _ i)).
  assert (Hz : zlen (i :: rest) <= kMaxSizet).
  { pose proof (co_bound _ Hco) as Hz. unfold zlen in *. rewrite Hp. unfold cs' in Hz. rewrite length_insert in Hz.
    pose proof (length_filter (fun i => is_Some (cs !! i ≫= fun c => w_cur c)) (seq 0 (length cs))) as Hlf. rewrite length_seq in Hlf. unfold standing_ix. lia. }
  assert (Hix : forall j, j ∈ standing_ix cs' (seq 0 (length cs')) <-> j ∈ rest \/ (j = i /\ is_Some (w_cur c'))).
  { intros j. rewrite standing_ix_elem. destruct (decide (j = i)) as [->|Hne].
    - rewrite Ei. split; [intros (? & v & [= <-] & Hv); right; split; [done|by exists v]|intros [?|[_ [v Hv]]]; [done|by exists c', v]].
    - rewrite Eo, <- standing_ix_elem, <- Hp, elem_of_cons by done. naive_solver. }
  pose proof (Forall_lookup_1 _ _ _ _ (co_wrappers _ Hco) Ei) as Hw. rewrite (proj1 (proj2 Hw)). case_bool_decide as Hs.
  - destruct (replace_top_ok (cmp_of d cs') (less_of d cs') (standing cs') (fun a b => cmp_of_ok d _ a b Hco) (less_trans d _) (less_total d _) i h i rest Ed Hb Hcache HP) as (h' & E & Hh' & Hp').
    { destruct Hs as [v Hv]. exists c', v. split_and!; [done|done|by apply Hin]. } { done. }
    exists h'. split_and!; [done..|]. rewrite Hp'. apply NoDup_Permutation; [by constructor|apply standing_NoDup, NoDup_seq|].
    intros j. rewrite Hix, elem_of_cons. naive_solver.
  - destruct (pop_ok (cmp_of d cs') (less_of d cs') (standing cs') (fun a b => cmp_of_ok d _ a b Hco) (less_trans d _) (less_total d _) h i rest Ed Hb Hcache HP Hz) as (h' & E & Hh' & Hp').
    exists h'. split_and!; [done..|]. rewrite Hp'. apply NoDup_Permutation; [done|apply standing_NoDup, NoDup_seq|]. intros j. rewrite Hix. naive_solver.
Qed.

Lemma mg_advance d m A v B : placed d m (left_of d A v) (right_of d v B) ->
  exists i c c' h h', let cs' := <[i := c']> (mg_children m) in
    let m' := mg_set_current (head (hp_data h')) (set_heap d h' (mg_set_children cs' m)) in
    mg_current m = Some i /\ mg_children m !! i = Some c /\ heap_of d m = Some h /\ head (hp_data h) = Some i /\ step_of d c = Some c' /\ wr_ok c' /\
    (if wr_valid c' then heap_replace_top (cmp_of d cs') i h else heap_pop (cmp_of d cs') h) = Some h' /\
    placed d m' (left_of (opposite d) A v) (right_of (opposite d) v B) /\ mg_versions m' = mg_versions m.
Proof.
  intros Hpl. pose proof (placed_cur _ _ _ _ Hpl) as Hcur. rewrite cut_side in Hcur. pose proof Hpl as [Hd Hs Hco Hv Hst (h & Eh & Hok & Hp & Ec)].
  unfold mg_cur in Hcur. destruct (mg_current m) as [i|] eqn:Ei; [|done]. cbn [mbind option_bind] in Hcur.
  destruct (mg_children m !! i) as [c|] eqn:Hc; [|done]. cbn [mbind option_bind] in Hcur. pose proof (Forall_lookup_1 _ _ _ _ (co_wrappers _ Hco) Hc) as Hw.
  destruct (step_child d c A v B Hw (Hst i c Hc) Hcur) as (c' & Es & Hw' & Ev & Hst'). set (cs' := <[i := c']> (mg_children m)).
  assert (Hil : (i < length (mg_children m))%nat) by (by eapply lookup_lt_Some). assert (Hco' : children_ok cs') by (by eapply children_ok_insert).
  assert (Eci : cs' !! i = Some c') by (unfold cs'; by rewrite list_lookup_insert_eq).
  assert (Eo : forall j, j <> i -> cs' !! j = mg_children m !! j) by (intros j ?; unfold cs'; by rewrite list_lookup_insert_ne).
  assert (Hst2 : forall j cj, cs' !! j = Some cj -> stand d cj (left_of (opposite d) A v) (right_of (opposite d) v B)).
  { intros j cj Hcj. destruct (decide (j = i)) as [->|Hne]; [by simplify_eq|]. rewrite Eo in Hcj by done. apply step_other; [by eapply Hst|]. intros Hin.
    apply Hne. eapply (distinct_children _ j i cj c v v (co_distinct _ Hco)); [done|done|done| |done]. by apply (stand_cur d c (left_of d A v) (right_of d v B)); [apply (Hst i)|]. }
  destruct (hp_data h) as [|i0 rest] eqn:Ed; [done|]. cbn in Ec. injection Ec as <-.
  assert (HP : Forall (standing cs') rest).
  { apply Forall_forall. intros j Hj. assert (Hji : j ∈ i :: rest) by (by right). rewrite Hp in Hji. apply standing_ix_elem in Hji as (cj & x & Hcj & Hx).
    assert (Hne : j <> i). { intros ->. assert (Hnd : NoDup (i :: rest)) by (rewrite Hp; apply standing_NoDup, NoDup_seq). by apply NoDup_cons in Hnd as [? _]. }
    exists cj, x. rewrite Eo by done. split_and!; [done|done|]. by apply (stand_cur d cj _ _ x (Hst j cj Hcj)). }
  destruct (heap_moved d (mg_children m) i c' h rest Hco' Hil) as (h' & Eh' & Hok' & Hp').
  { intros x Hx. by apply (stand_cur d c' _ _ x Hst'). } { done. } { done. } { by rewrite Ed. } { done. }
  assert (Eav : all_versions cs' = all_versions (mg_children m)).
  { apply all_versions_ext. intros j. destruct (decide (j = i)) as [->|Hne]; [rewrite Eci, Hc; cbn; by rewrite Ev|by rewrite Eo]. }
  exists i, c, c', h, h'. cbv zeta. fold cs'. rewrite Ed. split_and!; [done..| |].
  - assert (Ef : mg_children (mg_set_current (head (hp_data h')) (set_heap d h' (mg_set_children cs' m))) = cs') by (by destruct d).
    split; rewrite ?Ef; [by destruct d|by destruct d|done| |done|exists h'; split_and!; by destruct d].
    unfold mg_versions in *. rewrite Ef, Eav, Hv, cut_app. by rewrite cut_app.
  - unfold mg_versions. replace (mg_children _) with cs' by (by destruct d). by rewrite Eav.
Qed.

(** *** Changes of direction *)

Definition switch_of d m : option (MergingIter I) :=
  match d with Forward => SwitchToForward user_Compare m | Reverse => SwitchToBackward user_Compare prefix_seek_mode_ m end.

Definition pass_of d (target : bytes) : IteratorWrapper I -> option (IteratorWrapper I) :=
  match d with
  | Forward => pass_target user_Compare (iw_Seek target) iw_Next target
  | Reverse => pass_target user_Compare (iw_SeekForPrev target) iw_Prev target
  end.

(** A child without the version [v] comes to the other side of it; it needs no further step. *)
Lemma pass_child d cs i j c ci A v B : children_ok cs -> sorted_versions user_Compare (all_versions cs) = A ++ v :: B ->
  cs !! i = Some ci -> v ∈ w_versions ci -> cs !! j = Some c -> j <> i ->
  goes d c (left_of d A v) (right_of d v B) (pass_of d (encode (v_parsed v)) c).
Proof.
  intros Hco El Hi Hv Hj Hne. pose proof (Forall_lookup_1 _ _ _ _ (co_wrappers _ Hco) Hj) as Hw. pose proof (Forall_lookup_1 _ _ _ _ (co_wrappers _ Hco) Hi) as Hwi.
  destruct (ilaw_versions _ v (proj1 Hwi) Hv) as [Hvo Hvs]. pose proof (merged_sorted cs Hco) as Hs. rewrite El in Hs.
  assert (Hid : forall x, x ∈ w_versions c -> v_id x <> v_id v).
  { intros x Hx E. apply Hne. eapply (distinct_children cs j i c ci x v); [apply Hco|done..]. }
  assert (Hin : forall x, x ∈ w_versions c -> x ∈ A /\ lt x v \/ x ∈ B /\ lt v x).
  { intros x Hx. assert (Hxl : x ∈ A ++ v :: B) by (rewrite <- El, sorted_versions_perm; by eapply child_version). apply elem_of_app in Hxl as [Hxa|Hxb].
    - left. split; [done|]. eapply sorted_before; [exact Hs|done|by left].
    - apply elem_of_cons in Hxb as [->|Hxb]; [by destruct (Hid v Hx)|]. right. split; [done|]. apply StronglySorted_app_1_r, StronglySorted_inv in Hs as [_ Hs].
      rewrite Forall_forall in Hs. by apply Hs. }
  assert (Hfin : forall c', wr_ok c' -> w_versions c' = w_versions c -> stand d c' (left_of d A v) (right_of d v B) ->
    match iw_key c' with
    | Some k => if InternalKey_Compare user_Compare (encode (v_parsed v)) k =? 0 then if iw_status c' then step_of d c' else None else Some c'
    | None => Some c' end = Some c').
  { intros c' Hw' Ev' Hst'. rewrite (wrapper_key_ok _ Hw'). destruct (w_cur c') as [x|] eqn:Ex; [|done]. cbn [fmap option_fmap option_map].
    destruct (stand_cur d c' _ _ x Hst' Ex) as [Hx _]. rewrite Ev' in Hx. destruct (ilaw_versions _ x (proj1 Hw) Hx) as [Hxo _].
    destruct (compare_versions user_Compare v x Hvo Hxo) as [C1 C2]; [intros E; by apply (Hid x Hx)|].
    destruct (Z.eqb_spec (InternalKey_Compare user_Compare (encode (v_parsed v)) (encode (v_parsed x))) 0) as [E0|]; [|done]. exfalso.
    destruct (Hin x Hx) as [[_ Hl]|[_ Hl]]; [apply C2 in Hl|apply C1 in Hl]; lia. }
  destruct d; cbn [pass_of]; unfold pass_target.
  - destruct (ilaw_Seek (wr_iter c) (v_key v) (v_seq v) (v_type v) (proj1 Hw) Hvs (proj1 Hvo)) as (it & Ac & Bc & Es & Hit & Evi & (E & H1 & H2) & Eci).
    assert (Hgo : goes Forward c A (v :: B) (iw_Seek (encode (v_parsed v)) c)).
    { apply (wrapper_goes Forward c (fun i => Seek i (encode (v_parsed v))) _ _ Ac Bc); [done|done|..|by exists it].
      - intros a Ha. destruct (Hin a) as [[? _]|[_ Hl]]; [rewrite E; set_solver|done|]. exfalso. destruct (H1 a Ha) as [Hlt|(Ek & Es' & _)].
        + apply vlt_asym in Hl; [|done]. apply Hl. rewrite vlt_spec in Hlt |- * by done. exact Hlt.
        + apply (Hid a); [rewrite E; set_solver|]. unfold v_id. cbn in Ek, Es'. congruence.
      - intros b Hb. destruct (Hin b) as [[_ Hl]|[? _]]; [rewrite E; set_solver| |by right]. exfalso. apply (H2 b Hb). rewrite vlt_spec in Hl |- * by done. exact Hl. }
    destruct Hgo as (c' & -> & Hw' & Ev' & Hst'). cbn [mbind option_bind]. exists c'. split_and!; [|done..]. by apply Hfin.
  - destruct (ilaw_SeekForPrev (wr_iter c) (v_key v) (v_seq v) (v_type v) (proj1 Hw) Hvs (proj1 Hvo)) as (it & Es & Hit & Evi & Eci).
    { intros x Hx Ek Es'. exfalso. apply (Hid x Hx). unfold v_id. congruence. }
    assert (Hlv : forall x, lt (mkVersion (v_seq v) (v_type v) (v_key v) []) x <-> lt v x) by (intros x; by rewrite !vlt_spec by done).
    assert (Hgo : goes Reverse c (A ++ [v]) B (iw_SeekForPrev (encode (v_parsed v)) c)).
    { apply (wrapper_goes Reverse c (fun i => SeekForPrev i (encode (v_parsed v))) _ _ (filter (fun x => ~ lt (mkVersion (v_seq v) (v_type v) (v_key v) []) x) (w_versions c))
        (filter (fun x => ~ ~ lt (mkVersion (v_seq v) (v_type v) (v_key v) []) x) (w_versions c))); [done|by apply cut_before, wr_sorted|..|by exists it].
      - intros a [Hn Ha]%list_elem_of_filter. rewrite Hlv in Hn. destruct (Hin a Ha) as [[? _]|[_ ?]]; [set_solver|done].
      - intros b [Hn Hb]%list_elem_of_filter. apply dec_stable in Hn. rewrite Hlv in Hn. destruct (Hin b Hb) as [[_ Hl]|[? _]]; [by apply vlt_asym in Hl|done]. }
    destruct Hgo as (c' & -> & Hw' & Ev' & Hst'). cbn [mbind option_bind]. exists c'. split_and!; [|done..]. by apply Hfin.
Qed.

(** The current child stays, now on the other side of the cut. *)
Lemma flip_child d c A v B : wr_ok c -> stand (opposite d) c (left_of (opposite d) A v) (right_of (opposite d) v B) -> w_cur c = Some v ->
  stand d c (left_of d A v) (right_of d v B).
Proof.
  intros Hw (Ac & Bc & E & HA & HB & Ec) Hv. rewrite Ec in Hv. pose proof (wr_sorted _ Hw) as Hs. rewrite E in Hs. destruct d; cbn in *.
  - apply last_Some in Hv as [Ac' ->]. exists Ac', (v :: Bc). split_and!; [by rewrite E, <- app_assoc| |set_solver|by rewrite Ec, last_snoc].
    intros a Ha. assert (Hin : a ∈ A ++ [v]) by (apply HA; set_solver). apply in_snoc in Hin as [?| ->]; [done|]. exfalso. apply (vlt_irrefl user_Compare v).
    apply StronglySorted_app_1_l in Hs. eapply sorted_before; [exact Hs|done|by left].
  - destruct Bc as [|x Bc]; [done|]. injection Hv as ->. exists (Ac ++ [v]), Bc. split_and!; [by rewrite E, <- app_assoc|set_solver| |cbn; by rewrite Ec, last_snoc].
    intros b Hb. assert (Hin : b ∈ v :: B) by (apply HB; by right). apply elem_of_cons in Hin as [->|?]; [|done]. exfalso. apply (vlt_irrefl user_Compare v).
    apply StronglySorted_app_1_r, StronglySorted_inv in Hs as [_ Hs]. rewrite Forall_forall in Hs. by apply Hs.
Qed.

Definition switching d (target : bytes) (i : nat) m : option (MergingIter I) :=
  match d with
  | Forward => switch_child user_Compare (iw_Seek target) iw_Next target i m
  | Reverse => switch_child user_Compare (iw_SeekForPrev target) iw_Prev target i m
  end.

Lemma switching_eq d target i m : switching d target i m = if decide (mg_current m = Some i) then Some m else move_child (pass_of d target) i m.
Proof. by destruct d. Qed.

Lemma switch_loop d m A v B i c : placed (opposite d) m (left_of (opposite d) A v) (right_of (opposite d) v B) -> mg_current m = Some i -> mg_children m !! i = Some c -> w_cur c = Some v ->
  exists cs h, all_children (fun i m => m ← switching d (encode (v_parsed v)) i m; add_of d i m) (cleared d m) = Some (set_heap d h (mg_set_children cs (cleared d m))) /\
    children_ok cs /\ all_versions cs = all_versions (mg_children m) /\ (forall j cj, cs !! j = Some cj -> stand d cj (left_of d A v) (right_of d v B)) /\
    heap_ok (less_of d cs) h /\ hp_data h ≡ₚ standing_ix cs (seq 0 (length cs)) /\ head (hp_data h) = Some i.
Proof.
  intros Hpl Ei Hc Hcur. pose proof Hpl as [_ Hs Hco Hv Hst _]. rewrite cut_app in Hv. destruct (cleared_ok d m) as (Ec & Ecu & _ & Eh).
  assert (Hvc : v ∈ w_versions c) by (eapply stand_cur; [by eapply Hst|done]). pose proof (Forall_lookup_1 _ _ _ _ (co_wrappers _ Hco) Hc) as Hw.
  destruct (loop_ok d (switching d (encode (v_parsed v))) (fun _ _ c' => stand d c' (left_of d A v) (right_of d v B)) (cleared d m)) with (h0 := @heap_new nat)
    as (cs & h & E & Hm & Hh & Hp).
  - by rewrite Ec.
  - intros m1 j cj Ecur Hcj Hcj0. rewrite Ec in Hcj0. rewrite switching_eq, Ecur, Ecu, Ei. destruct (decide (Some i = Some j)) as [[= <-]|Hne].
    + simplify_eq. exists c. pose proof (flip_child d c A v B Hw (Hst i c Hc) Hcur) as Hst'.
      split_and!; [|done|done|intros x Hx; by apply (stand_cur d c _ _ x Hst')|done]. rewrite list_insert_id by done. by destruct m1.
    + destruct (pass_child d (mg_children m) i j cj c A v B Hco Hv Hc Hvc Hcj0) as (c' & Ep & Hw' & Ev & Hst'); [congruence|]. exists c'.
      unfold move_child. rewrite Hcj. cbn [mbind option_bind]. rewrite Ep. split_and!; [done..|intros x Hx; by apply (stand_cur d c' _ _ x Hst')|done].
  - done. - apply heap_empty_ok. - done.
  - assert (Ev : all_versions cs = all_versions (mg_children m)) by (rewrite (moved_versions _ _ _ Hm); by rewrite Ec).
    assert (Hst' : forall j cj, cs !! j = Some cj -> stand d cj (left_of d A v) (right_of d v B)).
    { intros j cj Hcj. destruct (lookup_lt_is_Some_2 (mg_children (cleared d m)) j) as [c0 Hc0]; [rewrite <- (mo_length _ _ _ _ Hm); by eapply lookup_lt_Some|].
      destruct (mo_done _ _ _ _ Hm j c0 (lookup_lt_Some _ _ _ Hc0) Hc0) as (c' & Hc' & _ & _ & Hst'). by simplify_eq. }
    pose proof (mo_ok _ _ _ _ Hm) as Hco'. exists cs, h. split_and!; [done..|].
    assert (Hside : (head (hp_data h) ≫= fun i => cs !! i ≫= fun c => w_cur c) = Some v).
    { rewrite (heap_side d cs (left_of d A v) (right_of d v B) h Hco'); [apply cut_side|rewrite Ev, cut_app; exact Hv|done..]. }
    destruct (head (hp_data h)) as [j|]; [|done]. cbn [mbind option_bind] in Hside. destruct (cs !! j) as [cj|] eqn:Hcj; [|done]. cbn [mbind option_bind] in Hside.
    f_equal. rewrite <- Ec in Hc. destruct (mo_done _ _ _ _ Hm i c (lookup_lt_Some _ _ _ Hc) Hc) as (c1 & Hc1 & Ev1 & _).
    eapply (distinct_children cs j i cj c1 v v (co_distinct _ Hco')); [done|done| |by rewrite Ev1|done]. by eapply stand_cur; [eapply Hst'|].
Qed.

Lemma switch_ok d m A v B : placed (opposite d) m (left_of (opposite d) A v) (right_of (opposite d) v B) ->
  exists m', switch_of d m = Some m' /\ placed d m' (left_of d A v) (right_of d v B) /\ mg_versions m' = mg_versions m.
Proof.
  intros Hpl. pose proof (placed_cur _ _ _ _ Hpl) as Hcur. rewrite cut_side in Hcur. pose proof Hpl as [_ Hs Hco Hv _ _]. rewrite cut_app in Hv.
  unfold mg_cur in Hcur. destruct (mg_current m) as [i|] eqn:Ei; [|done]. cbn [mbind option_bind] in Hcur.
  destruct (mg_children m !! i) as [c|] eqn:Hc; [|done]. cbn [mbind option_bind] in Hcur. pose proof (Forall_lookup_1 _ _ _ _ (co_wrappers _ Hco) Hc) as Hw.
  destruct (switch_loop d m A v B i c Hpl Ei Hc Hcur) as (cs & h & E & Hco' & Ev & Hst' & Hh & Hp & Hhead).
  destruct (cleared_ok d m) as (Ec & Ecu & Est & Eh).
  assert (Ek : mg_key (cleared d m) = Some (encode (v_parsed v))).
  { unfold mg_key, mg_Valid. rewrite Ecu, Ei, Est, Hs. cbn [mbind option_bind]. rewrite Ec, Hc. cbn [mbind option_bind]. by rewrite (wrapper_key_ok _ Hw), Hcur. }
  set (m1 := mg_set_direction d (set_heap d h (mg_set_children cs (cleared d m)))).
  assert (Em : mg_children m1 = cs /\ mg_status_ok m1 = true /\ heap_of d m1 = Some h /\ mg_direction m1 = d /\ mg_current m1 = Some i).
  { split_and!; [by destruct d|transitivity (mg_status_ok (cleared d m)); [by destruct d|congruence]|by destruct d|done|transitivity (mg_current (cleared d m)); [by destruct d|congruence]]. }
  destruct Em as (E1 & E2 & E3 & E4 & E5).
  assert (Hpl' : placed d m1 (left_of d A v) (right_of d v B)).
  { split; rewrite ?E1; [done|done|done| |done|exists h; by rewrite Hhead]. unfold mg_versions in *. by rewrite E1, Ev, cut_app. }
  exists m1. split_and!; [|done|unfold mg_versions; by rewrite E1, Ev]. pose proof (current_of_ok d m1 h E4 E3) as Ecur. rewrite Hhead in Ecur.
  destruct d; cbn [switch_of current_of switching add_of cleared] in *; unfold SwitchToForward, SwitchToBackward; rewrite Ek; cbn [mbind option_bind]; rewrite E; cbn [mbind option_bind]; [done|].
  fold m1. rewrite Ecur. cbn [mbind option_bind]. assert (Eset : mg_set_current (Some i) m1 = m1) by (rewrite <- E5; by destruct m1).
  destruct prefix_seek_mode_; [|rewrite Eset]; by rewrite decide_True.
Qed.

Lemma cut_unique (A B A' B' : list version) v : StronglySorted lt (A ++ v :: B) -> A' ++ v :: B' = A ++ v :: B -> A' = A /\ B' = B.
Proof.
  intros Hs E. assert (Hn : NoDup (A ++ v :: B)) by (apply distinct_NoDup; by eapply sorted_distinct). apply NoDup_app in Hn as (_ & Hd & Hn). apply NoDup_cons in Hn as [Hn _].
  revert A E Hs Hd. induction A' as [|a A' IH]; intros [|b A] E Hs Hd; cbn in E; simplify_eq; [done| | |].
  - destruct (Hd b); [by left|]. by left.
  - destruct Hn. apply elem_of_app. right. by left.
  - destruct (IH A) as [-> ->]; [done|by apply StronglySorted_inv in Hs as [? _]|intros x Hx; apply Hd; by right|done].
Qed.

Lemma placed_at d m A0 B0 A v B : placed d m A0 B0 -> mg_versions m = A ++ v :: B -> mg_cur m = Some v -> A0 = left_of d A v /\ B0 = right_of d v B.
Proof.
  intros Hpl Ev Hc. rewrite (placed_cur _ _ _ _ Hpl) in Hc. destruct (side_cut d A0 B0 v Hc) as (A' & B' & -> & ->).
  pose proof (pl_versions _ _ _ _ Hpl) as El. rewrite Ev, cut_app in El. pose proof (merged_sorted _ (pl_children _ _ _ _ Hpl)) as Hs. fold (mg_versions m) in Hs. rewrite Ev in Hs.
  destruct (cut_unique A B A' B' v Hs (eq_sym El)) as [-> ->]. done.
Qed.

Lemma placed_Valid d m A B : placed d m A B -> mg_Valid m = bool_decide (is_Some (mg_cur m)).
Proof.
  intros [_ Hs Hco _ _ (h & _ & _ & Hp & Hc)]. unfold mg_Valid, mg_cur. rewrite Hs. destruct (mg_current m) as [i|]; [|done]. cbn [mbind option_bind].
  symmetry in Hc. apply head_Some_elem_of in Hc. rewrite Hp in Hc. apply standing_ix_elem in Hc as (c & v & -> & Hv). cbn [mbind option_bind]. by rewrite Hv.
Qed.

(** In the direction of the move, possibly after a switch. *)
Lemma turned d m A0 B0 A v B : placed d m A0 B0 -> mg_versions m = A ++ v :: B -> mg_cur m = Some v -> forall d',
  exists m', (if decide (mg_direction m = d') then Some m else switch_of d' m) = Some m' /\ placed d' m' (left_of d' A v) (right_of d' v B) /\ mg_versions m' = mg_versions m.
Proof.
  intros Hpl Ev Hc d'. destruct (placed_at _ _ _ _ _ _ _ Hpl Ev Hc) as [-> ->]. rewrite (pl_direction _ _ _ _ Hpl). destruct (decide (d = d')) as [->|Hne]; [by exists m|].
  assert (d = opposite d') as -> by (by destruct d, d'). by apply switch_ok.
Qed.

Lemma mg_Next_ok d m A0 B0 A v B : placed d m A0 B0 -> mg_versions m = A ++ v :: B -> mg_cur m = Some v ->
  exists m', mg_Next user_Compare m = Some m' /\ placed Forward m' (A ++ [v]) B /\ mg_versions m' = mg_versions m.
Proof.
  intros Hpl Ev Hc. unfold mg_Next. rewrite (placed_Valid _ _ _ _ Hpl), Hc. cbn [bool_decide]. destruct (turned _ _ _ _ _ _ _ Hpl Ev Hc Forward) as (m1 & E1 & Hpl1 & Ev1).
  rewrite bool_decide_eq_true_2 by (by eexists). cbn [switch_of] in E1. rewrite E1. cbn [mbind option_bind].
  destruct (mg_advance Forward m1 A v B Hpl1) as (i & c & c' & h & h' & Ei & Hci & Eh & Ehd & Es & Hw' & Eop & Hpl' & Ev').
  pose proof (current_of_ok Forward m1 h (pl_direction _ _ _ _ Hpl1) Eh) as Ecur. cbn [current_of] in Ecur. rewrite Ecur, Ehd, Ei. cbn [mbind option_bind]. rewrite decide_True by done.
  unfold move_child. rewrite Hci. cbn [mbind option_bind]. cbn [step_of] in Es. rewrite Es. cbn [mbind option_bind mg_children mg_set_children].
  rewrite list_lookup_insert_eq by (by eapply lookup_lt_Some). cbn [mbind option_bind]. rewrite (wrapper_status_ok _ Hw'), considerStatus_ok. cbn [heap_of] in Eh. injection Eh as Eh.
  change (cmp_of Forward (<[i := c']> (mg_children m1))) with (MinIteratorComparator user_Compare (<[i := c']> (mg_children m1))) in Eop. rewrite <- Eh in Eop.
  cbn [mg_minHeap mg_children mg_set_children].
  assert (Hfin : forall m2, m2 = mg_set_minHeap h' (mg_set_children (<[i := c']> (mg_children m1)) m1) -> (cur ← CurrentForward m2; Some (mg_set_current cur m2)) =
    Some (mg_set_current (head (hp_data h')) (set_heap Forward h' (mg_set_children (<[i := c']> (mg_children m1)) m1)))).
  { intros m2 ->. pose proof (current_of_ok Forward (mg_set_minHeap h' (mg_set_children (<[i := c']> (mg_children m1)) m1)) h' (pl_direction _ _ _ _ Hpl1) eq_refl) as E2.
    cbn [current_of] in E2. by rewrite E2. }
  eexists. split; [|split; [exact Hpl'|congruence]]. destruct (wr_valid c'); rewrite Eop; cbn [mbind option_bind]; by apply Hfin.
Qed.

Lemma mg_Prev_ok d m A0 B0 A v B : placed d m A0 B0 -> mg_versions m = A ++ v :: B -> mg_cur m = Some v ->
  exists m', mg_Prev user_Compare prefix_seek_mode_ m = Some m' /\ placed Reverse m' A (v :: B) /\ mg_versions m' = mg_versions m.
Proof.
  intros Hpl Ev Hc. unfold mg_Prev. rewrite (placed_Valid _ _ _ _ Hpl), Hc. destruct (turned _ _ _ _ _ _ _ Hpl Ev Hc Reverse) as (m1 & E1 & Hpl1 & Ev1).
  rewrite bool_decide_eq_true_2 by (by eexists). cbn [switch_of] in E1. rewrite E1. cbn [mbind option_bind].
  destruct (mg_advance Reverse m1 A v B Hpl1) as (i & c & c' & h & h' & Ei & Hci & Eh & Ehd & Es & Hw' & Eop & Hpl' & Ev').
  pose proof (current_of_ok Reverse m1 h (pl_direction _ _ _ _ Hpl1) Eh) as Ecur. cbn [current_of] in Ecur. rewrite Ecur, Ehd, Ei. cbn [mbind option_bind]. rewrite decide_True by done.
  unfold move_child. rewrite Hci. cbn [mbind option_bind]. cbn [step_of] in Es. rewrite Es. cbn [mbind option_bind mg_children mg_set_children].
  rewrite list_lookup_insert_eq by (by eapply lookup_lt_Some). cbn [mbind option_bind mg_maxHeap mg_set_children]. cbn [heap_of] in Eh. rewrite Eh. cbn [mbind option_bind].
  rewrite (wrapper_status_ok _ Hw'), considerStatus_ok.
  change (cmp_of Reverse (<[i := c']> (mg_children m1))) with (MaxIteratorComparator user_Compare (<[i := c']> (mg_children m1))) in Eop.
  cbn [mg_children mg_set_children].
  assert (Hfin : forall m2, m2 = mg_set_maxHeap (Some h') (mg_set_children (<[i := c']> (mg_children m1)) m1) -> (cur ← CurrentReverse m2; Some (mg_set_current cur m2)) =
    Some (mg_set_current (head (hp_data h')) (set_heap Reverse h' (mg_set_children (<[i := c']> (mg_children m1)) m1)))).
  { intros m2 ->. pose proof (current_of_ok Reverse (mg_set_maxHeap (Some h') (mg_set_children (<[i := c']> (mg_children m1)) m1)) h' (pl_direction _ _ _ _ Hpl1) eq_refl) as E2.
    cbn [current_of] in E2. by rewrite E2. }
  eexists. split; [|split; [exact Hpl'|congruence]]. destruct (wr_valid c'); rewrite Eop; cbn [mbind option_bind]; by apply Hfin.
Qed.

(** ** The contract *)

Definition mg_inv m : Prop := exists d A B, placed d m A B.

#[local] Instance merging_instance : InternalIterator (MergingIter I) := merging_iterator user_Compare prefix_seek_mode_.

Lemma placed_current d m A B v : placed d m A B -> mg_cur m = Some v -> exists i c, mg_current m = Some i /\ mg_children m !! i = Some c /\ w_cur c = Some v /\ wr_ok c.
Proof.
  intros Hpl Hc. unfold mg_cur in Hc. destruct (mg_current m) as [i|]; [|done]. cbn [mbind option_bind] in Hc. destruct (mg_children m !! i) as [c|] eqn:Ec; [|done]. exists i, c.
  split_and!; [done..|]. exact (Forall_lookup_1 _ _ _ _ (co_wrappers _ (pl_children _ _ _ _ Hpl)) Ec).
Qed.

Lemma placed_shows d m A B : placed d m A B -> mg_key m = (fun v => encode (v_parsed v)) <$> mg_cur m /\ mg_value m = v_value <$> mg_cur m.
Proof.
  intros Hpl. unfold mg_key, mg_value. rewrite (placed_Valid _ _ _ _ Hpl). destruct (mg_cur m) as [v|] eqn:Hc; [|done].
  destruct (placed_current _ _ _ _ _ Hpl Hc) as (i & c & -> & Ec & Hv & Hw). rewrite bool_decide_eq_true_2 by (by eexists). cbn [mbind option_bind]. rewrite Ec. cbn [mbind option_bind].
  rewrite (wrapper_key_ok _ Hw), Hv. split; [done|]. unfold iw_value. rewrite (proj1 (proj2 Hw)), Hv. cbn. by rewrite (ilaw_value _ (proj1 Hw)), Hv.
Qed.

Lemma merging_laws : InternalIteratorLaws user_Compare seekable mg_inv mg_versions mg_cur.
Proof.
  split.
  - intros m (d & A & B & Hpl). by eapply placed_Valid.
  - intros m (d & A & B & Hpl). by apply (placed_shows d m A B).
  - intros m (d & A & B & Hpl). by apply (placed_shows d m A B).
  - intros m (d & A & B & Hpl). apply (pl_status _ _ _ _ Hpl).
  - intros m (d & A & B & Hpl). apply merged_sorted, Hpl.
  - intros m v (d & A & B & Hpl) Hv. unfold mg_versions in Hv. rewrite sorted_versions_perm in Hv. apply version_child in Hv as (i & c & Hc & Hv).
    eapply ilaw_versions; [|done]. exact (proj1 (Forall_lookup_1 _ _ _ _ (co_wrappers _ (pl_children _ _ _ _ Hpl)) Hc)).
  - intros m (d & A & B & Hpl). destruct (mg_SeekToFirst_ok m (pl_children _ _ _ _ Hpl)) as (m' & E & Hpl' & Ev). exists m'. split_and!; [done|by eexists _, _, _|done|].
    by rewrite (placed_cur _ _ _ _ Hpl').
  - intros m (d & A & B & Hpl). destruct (mg_SeekToLast_ok m (pl_children _ _ _ _ Hpl)) as (m' & E & Hpl' & Ev). exists m'. split_and!; [done|by eexists _, _, _|done|].
    by rewrite (placed_cur _ _ _ _ Hpl').
  - intros m u s t (d & A & B & Hpl) Hu Hq. destruct (mg_Seek_ok m u s t (pl_children _ _ _ _ Hpl) Hu Hq) as (m' & A' & B' & E & Hpl' & Ev & Hsp).
    exists m', A', B'. split_and!; [done|by eexists _, _, _|done|done|]. by rewrite (placed_cur _ _ _ _ Hpl').
  - intros m u s t (d & A & B & Hpl) Hu Hq Hty. destruct (mg_SeekForPrev_ok m u s t (pl_children _ _ _ _ Hpl) Hu Hq Hty) as (m' & E & Hpl' & Ev).
    exists m'. split_and!; [done|by eexists _, _, _|done|]. by rewrite (placed_cur _ _ _ _ Hpl').
  - intros m A v B (d & A0 & B0 & Hpl) Ev Hc. destruct (mg_Next_ok d m A0 B0 A v B Hpl Ev Hc) as (m' & E & Hpl' & Ev').
    exists m'. split_and!; [done|by eexists _, _, _|done|]. by rewrite (placed_cur _ _ _ _ Hpl').
  - intros m A v B (d & A0 & B0 & Hpl) Ev Hc. destruct (mg_Prev_ok d m A0 B0 A v B Hpl Ev Hc) as (m' & E & Hpl' & Ev').
    exists m'. split_and!; [done|by eexists _, _, _|done|]. by rewrite (placed_cur _ _ _ _ Hpl').
Qed.

(** ** Construction

    Iterators that stand nowhere yet, as they are when the iterator of a store is made. *)

Definition unpositioned (i : I) : Prop := inv i /\ cur i = None.

Definition fresh m : Prop := placed Forward m (mg_versions m) [].

Lemma fresh_cur m i c : fresh m -> mg_children m !! i = Some c -> w_cur c = None.
Proof.
  intros Hf Hc. destruct (pl_stand _ _ _ _ Hf i c Hc) as (Ac & Bc & _ & _ & HB & ->). destruct Bc as [|b Bc]; [done|]. by destruct (not_elem_of_nil b (HB b ltac:(by left))).
Qed.

Lemma no_standing cs l : (forall i c, cs !! i = Some c -> w_cur c = None) -> standing_ix cs l = [].
Proof. intros Hn. apply filter_none. intros i _ [v Hv]. destruct (cs !! i) as [c|] eqn:Hc; [|done]. cbn in Hv. by rewrite (Hn i c Hc) in Hv. Qed.

Lemma fresh_intro cs h max : children_ok cs -> (forall i c, cs !! i = Some c -> w_cur c = None) -> heap_ok (less_of Forward cs) h -> hp_data h = [] ->
  fresh (mkMerging cs None true Forward h max).
Proof.
  intros Hco Hn Hh Hd. split; cbn [mg_direction mg_status_ok mg_children mg_current]; [done|done|done|by rewrite app_nil_r| |].
  - intros i c Hc. exists (w_versions c), []. split_and!; [by rewrite app_nil_r| |done|by apply (Hn i)]. by eapply (child_subset (mkMerging cs None true Forward h max)).
  - exists h. split_and!; [done|done| |by rewrite Hd]. by rewrite no_standing, Hd.
Qed.

Lemma wrapper_Set_ok i : unpositioned i -> exists w, iw_Set i = Some w /\ wr_ok w /\ wr_iter w = i /\ w_cur w = None /\ wr_valid w = false.
Proof.
  intros [Hi Hc]. destruct (wrapper_Update_ok (mkWrapper i false []) i Hi) as (w & E & Hw & Ei). exists w. rewrite Ei. split_and!; [done..|].
  by rewrite (proj1 (proj2 Hw)), Ei, Hc.
Qed.

Lemma set_all children : Forall unpositioned children -> exists ws, mapM iw_Set children = Some ws /\ Forall wr_ok ws /\ wr_iter <$> ws = children /\
  forall i c, ws !! i = Some c -> w_cur c = None.
Proof.
  induction 1 as [|i children Hi _ (ws & E & Hw & Es & Hn)]; [exists []; by split_and!|]. destruct (wrapper_Set_ok i Hi) as (w & Ew & Hw' & Ei & Ec & _).
  exists (w :: ws). cbn. rewrite Ew. cbn. rewrite E. cbn. split_and!; [done|by constructor|by rewrite Ei, Es|]. intros [|j] c; [by intros [= <-]|apply Hn].
Qed.

Lemma all_versions_children ws children : wr_iter <$> ws = children -> all_versions ws = concat (versions <$> children).
Proof. intros <-. unfold all_versions. by rewrite <- list_fmap_compose. Qed.

Lemma MergingIterator_new_ok children : Forall unpositioned children -> distinct (concat (versions <$> children)) -> zlen children <= kMaxSizet ->
  exists m, mg_new user_Compare children = Some m /\ fresh m /\ mg_versions m ≡ₚ concat (versions <$> children).
Proof.
  intros Hu Hd Hz. unfold mg_new. destruct (set_all children Hu) as (ws & -> & Hw & Es & Hn). cbn [mbind option_bind].
  pose proof (all_versions_children ws children Es) as Ev. set (m0 := mkMerging ws None true Forward heap_new None).
  assert (Hco : children_ok ws) by (split; [done|by rewrite Ev|by rewrite <- Es in Hz; unfold zlen in *; rewrite length_fmap in Hz]).
  destruct (loop_ok Forward (fun _ m => Some m) (fun _ c c' => w_cur c' = None) m0 Hco) with (h0 := @heap_new nat) as (cs & h & E & Hm & Hh & Hp).
  - intros m i c _ Hc Hc0. exists c. pose proof (Hn i c Hc0) as Ec. split_and!; [rewrite list_insert_id by done; by destruct m| |done|by rewrite Ec|done].
    exact (Forall_lookup_1 _ _ _ _ Hw Hc0).
  - done. - apply heap_empty_ok. - done.
  - assert (E' : all_children (AddToMinHeapOrCheckStatus user_Compare) m0 = Some (set_heap Forward h (mg_set_children cs m0))) by exact E. rewrite E'. cbn [mbind option_bind].
    assert (Hn' : forall i c, cs !! i = Some c -> w_cur c = None).
    { intros i c Hc. destruct (lookup_lt_is_Some_2 ws i) as [c0 Hc0]; [pose proof (mo_length _ _ _ _ Hm) as Hl; cbn in Hl; rewrite <- Hl; by eapply lookup_lt_Some|].
      destruct (mo_done _ _ _ _ Hm i c0 (lookup_lt_Some _ _ _ Hc0) Hc0) as (c' & Hc' & _ & _ & Hq). by simplify_eq. }
    rewrite no_standing in Hp by done. apply Permutation_nil_r in Hp. unfold CurrentForward. cbn. unfold heap_empty. rewrite Hp. cbn. eexists. split; [done|]. split.
    + apply (fresh_intro cs h None); [apply Hm|done..].
    + unfold mg_versions. rewrite sorted_versions_perm. cbn [mg_children mg_set_current mg_set_minHeap mg_set_children]. rewrite (moved_versions _ _ _ Hm). cbn [mg_children m0]. by rewrite Ev.
Qed.

Lemma mg_AddIterator_ok m iter L : fresh m -> mg_versions m ≡ₚ L -> unpositioned iter -> distinct (L ++ versions iter) -> zlen (mg_children m) < kMaxSizet ->
  exists m', mg_AddIterator iter m = Some m' /\ fresh m' /\ mg_versions m' ≡ₚ L ++ versions iter /\ length (mg_children m') = S (length (mg_children m)).
Proof.
  intros Hf EL Hu Hd Hz. pose proof Hf as [Hdir Hs Hco _ _ (h & Eh & Hok & Hp & Hcur)]. unfold mg_AddIterator. rewrite decide_True by done.
  destruct (wrapper_Set_ok iter Hu) as (w & -> & Hw & Ei & Ec & Ew). cbn [mbind option_bind]. rewrite Ew, (wrapper_status_ok _ Hw), considerStatus_ok. set (cs := mg_children m ++ [w]).
  assert (Ev : all_versions cs = all_versions (mg_children m) ++ versions iter) by (unfold all_versions, cs; rewrite fmap_app, concat_app; cbn; by rewrite app_nil_r, Ei).
  unfold mg_versions in EL. rewrite sorted_versions_perm in EL.
  assert (Hco' : children_ok cs).
  { split; [apply Forall_app; split; [apply Hco|by constructor]| |unfold cs; rewrite zlen_app; change (zlen [w]) with 1; lia]. rewrite Ev. eapply distinct_perm; [|exact Hd]. by rewrite EL. }
  assert (Hn : forall i c, cs !! i = Some c -> w_cur c = None).
  { intros i c [Hc|[_ Hc]]%lookup_app_Some; [by apply (fresh_cur m i)|]. apply list_lookup_singleton_Some in Hc as [_ <-]. done. }
  assert (Hdata : hp_data h = []) by (rewrite no_standing in Hp by (intros; by eapply fresh_cur); by apply Permutation_nil_r in Hp).
  eexists. split; [done|]. split_and!.
  - assert (Em : mg_set_children cs m = mkMerging cs None true Forward h (mg_maxHeap m)).
    { destruct m; cbn in *. rewrite Hdata in Hcur. cbn in Hcur. by simplify_eq. }
    rewrite Em. apply fresh_intro; [done|done| |done]. eapply heap_ok_ext; [|exact Hok]. intros a b Ha. rewrite Hdata in Ha. by apply elem_of_nil in Ha.
  - unfold mg_versions. rewrite sorted_versions_perm. cbn [mg_children mg_set_children]. rewrite Ev. by rewrite EL.
  - cbn. unfold cs. rewrite length_app. cbn. lia.
Qed.
End Correct.
