(* ===== verification/BlockCorrect.v ===== *)
(** * Correctness of data blocks

    A block that the builder made is read back by its iterator: the iterator keeps the
    contract of an internal iterator over the entries of the block, whatever the restart
    interval is, with and without shared prefixes. *)

From Stdlib Require Import SpecFloat.
From S2P Require Import Prelude Coding Comparator DbFormat Iterator WriteBatch MemTable Hash Block DbIter DbIterCorrect.

#[local] Existing Instance vlt_dec.

(** ** Layout *)

Record ent := mkEnt { e_key : bytes; e_value : bytes; e_shared : nat }.

Definition enc_lengths (e : ent) : bytes :=
  EncodeVarint32 (Z.of_nat (e_shared e)) ++ EncodeVarint32 (zlen (e_key e) - Z.of_nat (e_shared e)) ++ EncodeVarint32 (zlen (e_value e)).

Definition enc (e : ent) : bytes := enc_lengths e ++ drop (e_shared e) (e_key e) ++ e_value e.

Definition encs (l : list ent) : bytes := concat (enc <$> l).

(** The offset of entry [j]. *)
Definition off (l : list ent) (j : nat) : Z := zlen (encs (take j l)).

(** The shared bytes are a prefix of the key and of the key before. *)
Definition shares (l : list ent) (j : nat) (e : ent) : Prop :=
  e_shared e = O \/
  exists p, l !! pred j = Some p /\ j <> O /\ (e_shared e <= length (e_key p))%nat /\
    take (e_shared e) (e_key p) = take (e_shared e) (e_key e).

Definition linked (l : list ent) : Prop :=
  forall j e, l !! j = Some e -> (e_shared e <= length (e_key e))%nat /\ shares l j e.

Lemma encs_app l k : encs (l ++ k) = encs l ++ encs k.
Proof. unfold encs. by rewrite fmap_app, concat_app. Qed.

Lemma encs_cons e l : encs (e :: l) = enc e ++ encs l.
Proof. done. Qed.

Lemma off_0 l : off l 0 = 0.
Proof. unfold off. by rewrite take_0. Qed.

Lemma off_S l j e : l !! j = Some e -> off l (S j) = off l j + zlen (enc e).
Proof. intros E. unfold off. rewrite (take_S_r _ _ e) by done. rewrite encs_app, zlen_app. cbn. by rewrite app_nil_r. Qed.

Lemma off_all l j : (length l <= j)%nat -> off l j = zlen (encs l).
Proof. intros. unfold off. by rewrite take_ge. Qed.

Lemma encs_split l j : encs l = encs (take j l) ++ encs (drop j l).
Proof. by rewrite <- encs_app, take_drop. Qed.

Lemma off_snoc l e j : (j <= length l)%nat -> off (l ++ [e]) j = off l j.
Proof. intros. unfold off. by rewrite take_app_le. Qed.

(** *** The lengths of an entry *)

Lemma EncodeVarint32_pos v : 0 <= v < 2 ^ 32 -> 1 <= zlen (EncodeVarint32 v).
Proof.
  intros Hv. rewrite EncodeVarint32_loop, EncodeVarint64_eq by done. destruct (128 <=? v); [|done].
  rewrite zlen_cons. pose proof (zlen_nonneg (EncodeVarint64 (v / 128))). lia.
Qed.

(** The first byte tells whether the encoding has one byte. *)
Lemma EncodeVarint32_head v : 0 <= v < 2 ^ 32 ->
  exists b r, EncodeVarint32 v = b :: r /\ 0 <= b /\ is_bytes r /\ (b < 128 <-> v < 128) /\ (v < 128 -> b = v /\ r = []).
Proof.
  intros Hv. rewrite EncodeVarint32_loop by done. pose proof (EncodeVarint64_bytes v ltac:(lia)) as Hb. rewrite EncodeVarint64_eq in *.
  destruct (Z.leb_spec 128 v).
  - apply Forall_cons in Hb as [Hb Hr]. eexists _, _. split; [done|]. red in Hb. split_and!; [lia|done| |lia].
    pose proof (Z.mod_pos_bound v 128 ltac:(lia)). lia.
  - exists (u8 v), []. rewrite u8_small by lia. split_and!; try done; try lia; constructor.
Qed.

Lemma lor_lt_128 a b : 0 <= a -> 0 <= b -> Z.lor a b < 128 <-> a < 128 /\ b < 128.
Proof.
  intros Ha Hb. assert (Hl : forall z, 0 <= z -> z < 128 <-> Z.shiftr z 7 = 0).
  { intros z Hz. rewrite shiftr_div by lia. change (2 ^ 7) with 128. Z.to_euclidean_division_equations. lia. }
  rewrite !Hl by (try done; by apply Z.lor_nonneg). rewrite Z.shiftr_lor, Z.lor_eq_0_iff. done.
Qed.

Lemma decode_lengths_ok a b c rest : 0 <= a < 2 ^ 32 -> 0 <= b < 2 ^ 32 -> 0 <= c < 2 ^ 32 ->
  decode_lengths (EncodeVarint32 a ++ EncodeVarint32 b ++ EncodeVarint32 c ++ rest) = Some (a, b, c, rest).
Proof.
  intros Ha Hb Hc. unfold decode_lengths.
  assert (Hslow : ('(shared, s) ← GetVarint32Ptr (EncodeVarint32 a ++ EncodeVarint32 b ++ EncodeVarint32 c ++ rest);
    '(non_shared, s) ← GetVarint32Ptr s; '(value_length, s) ← GetVarint32Ptr s; Some (shared, non_shared, value_length, s))
    = Some (a, b, c, rest)).
  { change GetVarint32Ptr with GetVarint32. by rewrite GetVarint32_app by done; cbn; rewrite GetVarint32_app by done; cbn; rewrite GetVarint32_app by done. }
  destruct (EncodeVarint32_head a Ha) as (x & xr & Ex & Hx & Hxr & Hxa & Hxs), (EncodeVarint32_head b Hb) as (y & yr & Ey & Hy & Hyr & Hyb & Hys),
    (EncodeVarint32_head c Hc) as (z & zr & Ez & Hz & Hzr & Hzc & Hzs).
  revert Hslow. rewrite Ex, Ey, Ez. cbn [app]. intros Hslow.
  assert (Hn : forall s b, is_bytes s -> b ∈ s -> 0 <= b) by (intros s b' Hs Hin; red in Hs; rewrite Forall_forall in Hs; apply Hs in Hin; red in Hin; lia).
  destruct xr as [|x1 xr]; cbn [app] in *.
  - destruct yr as [|y1 yr]; cbn [app] in *.
    + destruct (Z.ltb_spec (Z.lor (Z.lor x y) z) 128) as [Hlt|]; [|done].
      rewrite !lor_lt_128 in Hlt by (try apply Z.lor_nonneg; done). destruct Hlt as [[H1 H2] H3].
      destruct Hxs as [-> _], Hys as [-> _], Hzs as [-> ->]; [tauto..|]. done.
    + pose proof (Hn _ y1 Hyr ltac:(by left)). destruct (Z.ltb_spec (Z.lor (Z.lor x y) y1) 128) as [Hlt|]; [|done].
      rewrite !lor_lt_128 in Hlt by (try apply Z.lor_nonneg; done). destruct Hys as [_ ?]; [tauto|done].
  - pose proof (Hn _ x1 Hxr ltac:(by left)).
    assert (Hgo : forall u, 0 <= u -> (Z.lor (Z.lor x x1) u <? 128) = false).
    { intros u Hu. apply Z.ltb_ge. destruct (Z.lt_ge_cases (Z.lor (Z.lor x x1) u) 128) as [Hlt|]; [|done].
      rewrite !lor_lt_128 in Hlt by (try apply Z.lor_nonneg; done). destruct Hxs as [_ ?]; [tauto|done]. }
    destruct xr as [|x2 xr]; cbn [app] in *; rewrite Hgo; try done. apply (Hn _ x2 Hxr). right. by left.
Qed.

(** ** Reading *)

Lemma segment_mid (A B C : bytes) : segment (A ++ B ++ C) (zlen A) (zlen A + zlen B) = B.
Proof.
  unfold segment, zlen. rewrite Nat2Z.id, drop_app_length. replace (Z.to_nat _) with (length B) by lia. apply take_app_length.
Qed.

Lemma read_block_mid (A B C : bytes) : read_block (A ++ B ++ C) (zlen A) (zlen B) = Some B.
Proof.
  unfold read_block. rewrite !zlen_app. pose proof (zlen_nonneg C). destruct (Z.leb_spec (zlen A + zlen B) (zlen A + (zlen B + zlen C))); [|lia].
  unfold zlen. by rewrite !Nat2Z.id, drop_app_length, take_app_length.
Qed.

Section Read.
Context (user_Compare : bytes -> bytes -> Z) (w : block_view) (l : list ent) (R : list nat).
Abbreviation data := (vw_data w).
Abbreviation restarts := (vw_restarts w).
Abbreviation num_restarts := (vw_num_restarts w).
Abbreviation icmp := (InternalKey_Compare user_Compare).

Record block_ok : Prop := {
  bo_data : exists rest, data = encs l ++ rest;
  bo_restarts : restarts = zlen (encs l);
  bo_size : zlen (encs l) < 2 ^ 32;
  bo_linked : linked l;
  bo_num : num_restarts = zlen R;
  bo_num_range : zlen R < 2 ^ 31;
  bo_points : forall r j, R !! r = Some j -> GetRestartPoint w (Z.of_nat r) = Some (off l j);
  bo_sorted : StronglySorted lt R;
  bo_first : R !! O = Some O;
  bo_entries : l <> [] -> forall j, j ∈ R -> exists e, l !! j = Some e /\ e_shared e = O;
  bo_seqno : vw_global_seqno w = kDisableGlobalSequenceNumber
}.

Context (Hb : block_ok).

Lemma off_le i j : (i <= j)%nat -> off l i <= off l j.
Proof.
  intros Hij. unfold off. replace (take j l) with (take i l ++ drop i (take j l)).
  - rewrite encs_app, zlen_app. pose proof (zlen_nonneg (encs (drop i (take j l)))). lia.
  - rewrite <- (take_drop i (take j l)) at 2. by rewrite take_take, Nat.min_l.
Qed.

Lemma enc_pos e : 0 < zlen (enc_lengths e) + 1 /\ 0 <= zlen (enc e).
Proof. pose proof (zlen_nonneg (enc_lengths e)). pose proof (zlen_nonneg (enc e)). lia. Qed.

Lemma off_nonneg j : 0 <= off l j.
Proof. apply zlen_nonneg. Qed.

Lemma off_end j : off l j <= restarts.
Proof. rewrite (bo_restarts Hb), (encs_split l j), zlen_app. pose proof (zlen_nonneg (encs (drop j l))). unfold off. lia. Qed.

Lemma restarts_range : 0 <= restarts < 2 ^ 32.
Proof. rewrite (bo_restarts Hb). split; [apply zlen_nonneg|apply (bo_size Hb)]. Qed.

Lemma zlen_enc e : (e_shared e <= length (e_key e))%nat ->
  zlen (enc e) = zlen (enc_lengths e) + (zlen (e_key e) - Z.of_nat (e_shared e)) + zlen (e_value e).
Proof. intros Hs. unfold enc, zlen. rewrite !length_app, length_drop. lia. Qed.

(** A key is not longer than what is written up to it. *)
Lemma entry_key_fits j e : l !! j = Some e -> zlen (e_key e) <= off l (S j).
Proof.
  revert e. induction j as [|j IH]; intros e E; rewrite (off_S _ _ e E); destruct (bo_linked Hb _ e E) as [Hs [Hz|(p & Ep & Hj & Hle & _)]];
    rewrite zlen_enc by done; pose proof (zlen_nonneg (enc_lengths e)); pose proof (zlen_nonneg (e_value e)); try done.
  - rewrite Hz, off_0. lia.
  - rewrite Hz. pose proof (off_nonneg (S j)). lia.
  - specialize (IH p Ep). unfold zlen at 1 in IH. lia.
Qed.

Lemma ent_fits j e : l !! j = Some e ->
  (e_shared e <= length (e_key e))%nat /\ zlen (e_key e) < 2 ^ 32 /\ zlen (e_value e) < 2 ^ 32 /\
  off l (S j) = off l j + zlen (enc_lengths e) + (zlen (e_key e) - Z.of_nat (e_shared e)) + zlen (e_value e) /\
  off l (S j) <= restarts /\ 3 <= zlen (enc_lengths e).
Proof.
  intros E. destruct (bo_linked Hb j e E) as [Hs _]. pose proof (off_end (S j)) as He. pose proof (entry_key_fits j e E).
  pose proof restarts_range. pose proof (off_nonneg j). pose proof (off_S l j e E) as Ho. rewrite zlen_enc in Ho by done.
  pose proof (zlen_nonneg (enc_lengths e)). pose proof (zlen_nonneg (e_value e)).
  assert (Hk : Z.of_nat (e_shared e) <= zlen (e_key e)) by (unfold zlen; lia).
  split_and!; try lia. unfold enc_lengths. rewrite !zlen_app.
  pose proof (EncodeVarint32_pos (Z.of_nat (e_shared e)) ltac:(lia)). pose proof (EncodeVarint32_pos (zlen (e_key e) - Z.of_nat (e_shared e)) ltac:(lia)).
  pose proof (EncodeVarint32_pos (zlen (e_value e)) ltac:(lia)). lia.
Qed.

Lemma off_lt i j : (i < j)%nat -> (i < length l)%nat -> off l i < off l j.
Proof.
  intros Hij Hi. apply lookup_lt_is_Some_2 in Hi as [e E]. destruct (ent_fits i e E) as (? & _ & _ & Ho & _ & ?).
  pose proof (off_le (S i) j ltac:(lia)). pose proof (zlen_nonneg (e_value e)). unfold zlen at 2 in Ho. lia.
Qed.

Lemma off_inj i j : (i <= length l)%nat -> (j <= length l)%nat -> off l i = off l j -> i = j.
Proof.
  intros Hi Hj E. destruct (Nat.lt_trichotomy i j) as [Hl|[?|Hl]]; [|done|];
    [pose proof (off_lt i j Hl ltac:(lia))|pose proof (off_lt j i Hl ltac:(lia))]; lia.
Qed.

Lemma data_split j m : (j <= m)%nat ->
  exists rest, data = encs (take j l) ++ encs (take (m - j) (drop j l)) ++ rest.
Proof.
  intros Hjm. destruct (bo_data Hb) as [rest ->]. exists (encs (drop m l) ++ rest). rewrite !app_assoc. f_equal.
  rewrite <- !encs_app. f_equal. rewrite <- (take_drop j l) at 1. rewrite <- app_assoc. f_equal.
  rewrite <- (take_drop (m - j) (drop j l)) at 1. f_equal. rewrite drop_drop. f_equal. lia.
Qed.

Lemma segment_at j m e : l !! j = Some e -> (j < m)%nat ->
  exists rest, segment data (off l j) (off l m) = enc e ++ rest.
Proof.
  intros E Hjm. destruct (data_split j m ltac:(lia)) as [rest ->].
  assert (Eo : off l m = off l j + zlen (encs (take (m - j) (drop j l)))).
  { unfold off. rewrite <- zlen_app, <- encs_app. do 2 f_equal. rewrite take_drop_commute. replace (j + (m - j))%nat with m by lia.
    rewrite <- (take_drop j (take m l)) at 1. by rewrite take_take, Nat.min_l by lia. }
  rewrite Eo. unfold off at 1 2. rewrite segment_mid. exists (encs (take (m - S j) (drop (S j) l))).
  rewrite (drop_S l e j E). replace (m - j)%nat with (S (m - S j)) by lia. done.
Qed.

(** Where the parts of an entry are. *)
Definition key_off (j : nat) (e : ent) : Z := off l j + zlen (enc_lengths e).
Definition value_off (j : nat) (e : ent) : Z := key_off j e + (zlen (e_key e) - Z.of_nat (e_shared e)).

Lemma decode_at dec j m e : dec = DecodeEntry \/ dec = CheckAndDecodeEntry -> l !! j = Some e -> (j < m)%nat ->
  dec data (off l j) (off l m) =
    Some (Some (Z.of_nat (e_shared e), zlen (e_key e) - Z.of_nat (e_shared e), zlen (e_value e), key_off j e)).
Proof.
  intros Hdec E Hjm. destruct (segment_at j m e E Hjm) as [rest Es]. destruct (ent_fits j e E) as (Hs & Hk & Hv & Ho & He & H3).
  assert (Hsh : 0 <= Z.of_nat (e_shared e) <= zlen (e_key e)) by (unfold zlen; lia). pose proof (zlen_nonneg (e_value e)).
  pose proof (off_le (S j) m Hjm). pose proof (off_end m). pose proof restarts_range. pose proof (off_nonneg j).
  assert (Hz : zlen (segment data (off l j) (off l m)) = off l m - off l j).
  { unfold segment, zlen. rewrite length_take_le; [lia|].
    destruct (bo_data Hb) as [r Hd]. rewrite Hd, length_drop, length_app. pose proof (bo_restarts Hb) as Er. unfold zlen in Er. lia. }
  assert (Hd : decode_lengths (segment data (off l j) (off l m)) =
    Some (Z.of_nat (e_shared e), zlen (e_key e) - Z.of_nat (e_shared e), zlen (e_value e), drop (e_shared e) (e_key e) ++ e_value e ++ rest)).
  { rewrite Es. unfold enc, enc_lengths. rewrite <- !app_assoc. apply decode_lengths_ok; lia. }
  rewrite Es in Hz. unfold enc in Hz. rewrite !zlen_app in Hz.
  assert (Hrest : zlen (drop (e_shared e) (e_key e) ++ e_value e ++ rest) = off l m - key_off j e).
  { rewrite !zlen_app. unfold key_off. lia. }
  assert (Hle : zlen (e_key e) - Z.of_nat (e_shared e) + zlen (e_value e) <= off l m - key_off j e) by (unfold key_off; lia).
  unfold key_off in *.
  destruct Hdec as [-> | ->]; unfold DecodeEntry, CheckAndDecodeEntry; (destruct (Z.ltb_spec (off l m - off l j) 3); [lia|]);
    rewrite Hd, Hrest, !u32_small by lia; (destruct (Z.ltb_spec (off l m - (off l j + zlen (enc_lengths e)))
      (zlen (e_key e) - Z.of_nat (e_shared e) + zlen (e_value e))); [lia|]); repeat f_equal; lia.
Qed.

Lemma read_delta j e : l !! j = Some e -> read_block data (key_off j e) (zlen (e_key e) - Z.of_nat (e_shared e)) = Some (drop (e_shared e) (e_key e)).
Proof.
  intros E. destruct (data_split j (S j) ltac:(lia)) as [rest ->]. destruct (ent_fits j e E) as (Hs & _).
  rewrite (drop_S l e j E). replace (S j - j)%nat with 1%nat by lia. cbn [take]. rewrite encs_cons. cbn. unfold enc.
  unfold key_off, off. rewrite <- zlen_app.
  replace (zlen (e_key e) - Z.of_nat (e_shared e)) with (zlen (drop (e_shared e) (e_key e))) by (unfold zlen; rewrite length_drop; lia).
  rewrite app_nil_r, <- !app_assoc, (app_assoc (encs (take j l))). apply read_block_mid.
Qed.

Lemma read_value j e : l !! j = Some e -> read_block data (value_off j e) (zlen (e_value e)) = Some (e_value e).
Proof.
  intros E. destruct (data_split j (S j) ltac:(lia)) as [rest ->]. destruct (ent_fits j e E) as (Hs & _).
  rewrite (drop_S l e j E). replace (S j - j)%nat with 1%nat by lia. cbn [take]. rewrite encs_cons. cbn. unfold enc.
  unfold value_off, key_off, off.
  replace (zlen (e_key e) - Z.of_nat (e_shared e)) with (zlen (drop (e_shared e) (e_key e))) by (unfold zlen; rewrite length_drop; lia).
  rewrite <- !zlen_app, app_nil_r, <- !app_assoc. rewrite (app_assoc (encs (take j l))), (app_assoc _ (drop _ _)), <- (app_assoc (encs (take j l))).
  apply read_block_mid.
Qed.

(** *** Where a cursor stands *)

Definition holds_key (c : cursor) (k : bytes) : Prop :=
  read_span data (c_raw_key c) = Some k /\ span_size (c_raw_key c) = zlen k.

Definition cursor_at (c : cursor) (j : nat) : Prop :=
  exists e, l !! j = Some e /\ c_current c = off l j /\ holds_key c (e_key e) /\
    c_value c = (value_off j e, zlen (e_value e)) /\ 0 <= c_restart_index c < num_restarts /\ c_status c = OK.

(** At entry [j], or at the end when there is none. *)
Definition stands (c : cursor) (j : nat) : Prop :=
  ((j < length l)%nat /\ cursor_at c j) \/ (j = length l /\ c_current c = restarts /\ c_status c = OK).

Lemma restarts_off : restarts = off l (length l).
Proof. rewrite (bo_restarts Hb). by rewrite off_all. Qed.

Lemma cursor_at_Valid c j : cursor_at c j -> c_Valid w c = true.
Proof.
  intros (e & E & Hc & _). unfold c_Valid. apply Z.ltb_lt. rewrite Hc, restarts_off. apply off_lt; by eapply lookup_lt_Some.
Qed.

Lemma stands_Valid c j : stands c j -> c_Valid w c = bool_decide (j < length l)%nat.
Proof.
  intros [[Hj Hc]|(-> & Hc & _)].
  - rewrite bool_decide_eq_true_2 by done. by eapply cursor_at_Valid.
  - rewrite bool_decide_eq_false_2 by lia. unfold c_Valid. apply Z.ltb_ge. lia.
Qed.

Lemma next_offset c j : cursor_at c j -> NextEntryOffset c = off l (S j).
Proof.
  intros (e & E & _ & _ & Hv & _). unfold NextEntryOffset. rewrite Hv. cbn [fst snd]. destruct (ent_fits j e E) as (_ & _ & _ & Ho & He & _).
  pose proof restarts_range. pose proof (off_nonneg (S j)). rewrite u32_small; unfold value_off, key_off; lia.
Qed.

Lemma num_pos : 0 < num_restarts < 2 ^ 31.
Proof.
  rewrite (bo_num Hb). pose proof (bo_num_range Hb). pose proof (bo_first Hb) as H0. apply lookup_lt_Some in H0. unfold zlen in *. lia.
Qed.

Lemma restart_point r : 0 <= r < num_restarts -> exists j, R !! Z.to_nat r = Some j /\ GetRestartPoint w r = Some (off l j).
Proof.
  intros Hr. rewrite (bo_num Hb) in Hr. destruct (lookup_lt_is_Some_2 R (Z.to_nat r)) as [j Ej]; [unfold zlen in Hr; lia|].
  exists j. split; [done|]. rewrite <- (bo_points Hb _ _ Ej). f_equal. lia.
Qed.

Lemma next_restart_ok fuel ri cur : 0 <= ri < num_restarts -> (Z.to_nat (num_restarts - ri) <= fuel)%nat ->
  exists ri', next_restart w fuel ri cur = Some ri' /\ 0 <= ri' < num_restarts.
Proof.
  pose proof num_pos. revert ri. induction fuel as [|fuel IH]; intros ri Hri Hf; [lia|]. cbn [next_restart].
  rewrite u32_small by lia. destruct (Z.ltb_spec (ri + 1) num_restarts); [|eauto].
  destruct (restart_point (ri + 1)) as (j & _ & ->); [lia|]. cbn. destruct (off l j <? cur); [|eauto]. apply IH; lia.
Qed.

(** What the parser needs of the key it holds: nothing at an entry that shares nothing,
    else the key before. *)
Definition key_before (c : cursor) (j : nat) (e : ent) : Prop :=
  (e_shared e = O /\ span_size (c_raw_key c) = 0) \/ (exists p, l !! pred j = Some p /\ j <> O /\ holds_key c (e_key p)).

Lemma raw_key_ok c j e : l !! j = Some e -> key_before c j e ->
  (span_size (c_raw_key c) <? Z.of_nat (e_shared e)) = false /\
  exists raw, (if Z.of_nat (e_shared e) =? 0 then Some (InBlock (key_off j e) (zlen (e_key e) - Z.of_nat (e_shared e)))
     else k ← read_span data (c_raw_key c); d ← read_block data (key_off j e) (zlen (e_key e) - Z.of_nat (e_shared e));
          Some (InBuffer (take (Z.to_nat (Z.of_nat (e_shared e))) k ++ d))) = Some raw /\
     read_span data raw = Some (e_key e) /\ span_size raw = zlen (e_key e).
Proof.
  intros E Hkb. pose proof (read_delta j e E) as Hr.
  assert (Hsz : (span_size (c_raw_key c) <? Z.of_nat (e_shared e)) = false).
  { apply Z.ltb_ge. destruct Hkb as [[-> ->]|(p & Ep & Hj & _ & ->)]; [done|].
    destruct (bo_linked Hb j e E) as [_ [->|(p' & Ep' & _ & Hle & _)]]; [apply zlen_nonneg|]. rewrite Ep in Ep'. injection Ep' as <-.
    unfold zlen. lia. }
  split; [done|]. destruct (Z.eqb_spec (Z.of_nat (e_shared e)) 0) as [E0|E0].
  - assert (Hz : e_shared e = O) by lia. rewrite Hz, drop_0 in Hr. eexists. split; [done|]. cbn. rewrite Hz in *. split; [done|lia].
  - destruct Hkb as [[? _]|(p & Ep & Hj & Hrd & _)]; [lia|]. rewrite Hrd, Hr. cbn [mbind option_bind]. eexists. split; [done|]. cbn.
    destruct (bo_linked Hb j e E) as [_ [?|(p' & Ep' & _ & Hle & Ht)]]; [lia|]. rewrite Ep in Ep'. injection Ep' as <-.
    by rewrite Nat2Z.id, Ht, take_drop.
Qed.

Lemma parse_ok dec c j m lim e :
  dec = DecodeEntry \/ dec = CheckAndDecodeEntry -> default restarts lim = off l m ->
  NextEntryOffset c = off l j -> 0 <= c_restart_index c < num_restarts -> c_status c = OK ->
  l !! j = Some e -> (j < m)%nat -> key_before c j e ->
  exists c', ParseNextDataKey w dec lim c = Some (true, c') /\ cursor_at c' j.
Proof.
  intros Hdec Hlim Hnext Hri Hst E Hjm Hkb. unfold ParseNextDataKey. rewrite Hnext, Hlim.
  pose proof (off_lt j m Hjm ltac:(by eapply lookup_lt_Some)).
  destruct (off l j >=? off l m) eqn:Hge; [lia|]. rewrite (decode_at dec j m e Hdec E Hjm). cbn [mbind option_bind].
  destruct (raw_key_ok c j e E Hkb) as (-> & raw & -> & Hrd & Hsz). rewrite (bo_seqno Hb), Z.eqb_refl. cbn [mbind option_bind].
  assert (Hri' : exists ri, (if Z.of_nat (e_shared e) =? 0 then next_restart w (Z.to_nat num_restarts + 1) (c_restart_index c) (off l j)
    else Some (c_restart_index c)) = Some ri /\ 0 <= ri < num_restarts).
  { destruct (_ =? 0); [apply next_restart_ok; [done|lia]|eauto]. }
  destruct Hri' as (ri & -> & Hri'). cbn [mbind option_bind]. eexists. split; [done|].
  exists e. cbn. split_and!; done || lia.
Qed.

Lemma parse_end dec c j lim : default restarts lim = off l j -> NextEntryOffset c = off l j -> c_status c = OK ->
  exists c', ParseNextDataKey w dec lim c = Some (false, c') /\ c_current c' = restarts /\ c_status c' = OK.
Proof.
  intros Hlim Hnext Hst. unfold ParseNextDataKey. rewrite Hnext, Hlim. destruct (off l j >=? off l j) eqn:Hge; [|lia].
  eexists. by split_and!.
Qed.

(** The next entry. *)
Lemma parse_next dec c j m lim : dec = DecodeEntry \/ dec = CheckAndDecodeEntry -> default restarts lim = off l m -> (m <= length l)%nat ->
  cursor_at c j -> (j < m)%nat ->
  exists c', ParseNextDataKey w dec lim c = Some (bool_decide (S j < m)%nat, c') /\
    if decide (S j < m)%nat then cursor_at c' (S j) else c_current c' = restarts /\ c_status c' = OK.
Proof.
  intros Hdec Hlim Hm Hc Hj. pose proof (next_offset c j Hc) as Hn. destruct Hc as (e & E & _ & Hk & _ & Hri & Hst).
  destruct (decide (S j < m)%nat) as [Hlt|Hge].
  - rewrite bool_decide_eq_true_2 by done. destruct (lookup_lt_is_Some_2 l (S j)) as [e' E']; [lia|].
    apply (parse_ok dec c (S j) m lim e'); try done. right. exists e. by split_and!.
  - rewrite bool_decide_eq_false_2 by done. apply (parse_end dec c (S j)); [|done..]. rewrite Hlim. f_equal. lia.
Qed.

(** The first entry of a restart interval. *)
Lemma seek_restart c r j : R !! r = Some j -> c_status c = OK -> exists c1, SeekToRestartPoint w (Z.of_nat r) c = Some c1 /\
  NextEntryOffset c1 = off l j /\ c_restart_index c1 = Z.of_nat r /\ c_status c1 = OK /\ span_size (c_raw_key c1) = 0.
Proof.
  intros Er Hst. unfold SeekToRestartPoint. rewrite (bo_points Hb r j Er). cbn [mbind option_bind]. eexists. split; [done|]. cbn.
  unfold NextEntryOffset. cbn [c_value fst snd]. rewrite u32_small by (pose proof restarts_range; pose proof (off_nonneg j); pose proof (off_end j); lia).
  split_and!; [lia|done|done|]. by destruct (c_raw_key c).
Qed.

Lemma restart_lt r j : R !! r = Some j -> 0 <= Z.of_nat r < num_restarts.
Proof. intros Er. apply lookup_lt_Some in Er. rewrite (bo_num Hb). unfold zlen. lia. Qed.

Lemma parse_restart dec c r j m lim : dec = DecodeEntry \/ dec = CheckAndDecodeEntry -> default restarts lim = off l m ->
  R !! r = Some j -> NextEntryOffset c = off l j -> c_restart_index c = Z.of_nat r -> c_status c = OK -> span_size (c_raw_key c) = 0 ->
  (j < m)%nat -> (m <= length l)%nat -> exists c', ParseNextDataKey w dec lim c = Some (true, c') /\ cursor_at c' j.
Proof.
  intros Hdec Hlim Er Hn Hri Hst Hsz Hj Hm. destruct (bo_entries Hb) with j as (e & E & Hsh); [by destruct l; cbn in *; [lia|]|by eapply list_elem_of_lookup_2|].
  apply (parse_ok dec c j m lim e); try done; [rewrite Hri; by eapply restart_lt|]. by left.
Qed.

Lemma stands_status c j : stands c j -> c_status c = OK.
Proof. intros [[_ (e & _ & _ & _ & _ & _ & ?)]|(_ & _ & ?)]; done. Qed.

Lemma stands_intro c j : (j < length l)%nat -> cursor_at c j -> stands c j.
Proof. by left. Qed.

Lemma entries_size : 3 * zlen l <= restarts.
Proof.
  assert (Hn : forall j, (j <= length l)%nat -> 3 * Z.of_nat j <= off l j).
  { induction j as [|j IH]; intros Hj; [rewrite off_0; lia|]. destruct (lookup_lt_is_Some_2 l j) as [e E]; [lia|].
    destruct (ent_fits j e E) as (Hs & _ & _ & Ho & _ & H3). specialize (IH ltac:(lia)). pose proof (zlen_nonneg (e_value e)).
    unfold zlen at 2 in Ho. lia. }
  rewrite restarts_off. by apply Hn.
Qed.

Lemma entries_bound : (length l <= length data)%nat.
Proof.
  pose proof entries_size as Hs. rewrite (bo_restarts Hb) in Hs. destruct (bo_data Hb) as [rest ->]. rewrite length_app. unfold zlen in Hs. lia.
Qed.

Lemma limit_none : default restarts (@None Z) = off l (length l).
Proof. exact restarts_off. Qed.

(** *** The ends *)

Lemma first_ok dec c : dec = DecodeEntry \/ dec = CheckAndDecodeEntry -> c_status c = OK ->
  exists c1 b c', SeekToRestartPoint w 0 c = Some c1 /\ ParseNextDataKey w dec None c1 = Some (b, c') /\ stands c' 0.
Proof.
  intros Hdec Hst. destruct (seek_restart c 0 0 (bo_first Hb) Hst) as (c1 & E1 & Hn & Hri & Hst1 & Hsz).
  destruct (decide (0 < length l)%nat) as [Hlt|Hge].
  - destruct (parse_restart dec c1 0 0 (length l) None Hdec limit_none (bo_first Hb) Hn Hri Hst1 Hsz Hlt ltac:(lia)) as (c' & E & Hc).
    exists c1, true, c'. split_and!; [done..|]. by left.
  - destruct (parse_end dec c1 0 None) as (c' & E & Hc & Hst'); [rewrite limit_none; f_equal; lia|done..|].
    exists c1, false, c'. split_and!; [done..|]. right. split_and!; [lia|done..].
Qed.

Lemma block_SeekToFirst_ok c : c_status c = OK -> exists c', SeekToFirstImpl w c = Some c' /\ stands c' 0.
Proof.
  intros Hst. destruct (first_ok DecodeEntry c (or_introl eq_refl) Hst) as (c1 & b & c' & E1 & E2 & Hc). exists c'. split; [|done].
  unfold SeekToFirstImpl. rewrite E1. cbn [mbind option_bind]. unfold NextImpl. by rewrite E2.
Qed.

Lemma skip_to_last_ok fuel c j : (exists c1, ParseNextDataKey w DecodeEntry None c = Some (true, c1) /\ cursor_at c1 j) ->
  (length l - j <= fuel)%nat -> exists c', skip_to_last w fuel c = Some c' /\ cursor_at c' (pred (length l)).
Proof.
  revert c j. induction fuel as [|fuel IH]; intros c j (c1 & E & Hc) Hf.
  { destruct Hc as (e & Ej & _). apply lookup_lt_Some in Ej. lia. }
  assert (Hj : (j < length l)%nat) by (destruct Hc as (e & Ej & _); by eapply lookup_lt_Some).
  cbn [skip_to_last]. rewrite E. cbn [mbind option_bind andb]. rewrite (next_offset c1 j Hc), restarts_off.
  destruct (parse_next DecodeEntry c1 j (length l) None (or_introl eq_refl) limit_none ltac:(lia) Hc Hj) as (c2 & E2 & Hc2).
  destruct (decide (S j < length l)%nat) as [Hlt|Hge].
  - rewrite (proj2 (Z.ltb_lt _ _)) by (by apply off_lt). rewrite bool_decide_eq_true_2 in E2 by done. apply (IH c1 (S j)); [eauto|lia].
  - replace (S j) with (length l) by lia. rewrite Z.ltb_irrefl. exists c1. split; [done|]. by replace (pred (length l)) with j by lia.
Qed.

Lemma block_SeekToLast_ok c : c_status c = OK -> exists c', SeekToLastImpl w c = Some c' /\ stands c' (pred (length l)).
Proof.
  intros Hst. unfold SeekToLastImpl. pose proof num_pos as Hn. rewrite u32_small by lia.
  destruct (restart_point (num_restarts - 1)) as (j & Ej & _); [lia|].
  destruct (seek_restart c _ j Ej Hst) as (c1 & E1 & Hno & Hri & Hst1 & Hsz). rewrite Z2Nat.id in E1 by lia. rewrite E1. cbn [mbind option_bind].
  destruct (decide (l = [])) as [El|El].
  - assert (Hj0 : off l j = off l 0) by (unfold off; rewrite El, take_nil; done).
    destruct (parse_end DecodeEntry c1 0 None) as (c' & E & Hc & Hst'); [rewrite limit_none; by rewrite El|congruence|done|].
    rewrite Nat.add_1_r. cbn [skip_to_last]. rewrite E. cbn. exists c'. split; [done|]. right. split_and!; [by rewrite El|done..].
  - destruct (bo_entries Hb El j) as (e & E & _); [by eapply list_elem_of_lookup_2|]. apply lookup_lt_Some in E.
    destruct (parse_restart DecodeEntry c1 _ j (length l) None (or_introl eq_refl) limit_none Ej Hno Hri Hst1 Hsz E ltac:(lia)) as (c2 & E2 & Hc2).
    pose proof entries_bound. destruct (skip_to_last_ok (length data + 1) c1 j) as (c' & E' & Hc'); [eauto|lia|]. exists c'. split; [done|].
    left. split; [lia|done].
Qed.

(** *** Binary search *)

(** Entry [p] is the first that is not below the target. *)
Definition seek_pos (t : bytes) (p : nat) : Prop :=
  (p <= length l)%nat /\ forall i e, l !! i = Some e ->
    ((i < p)%nat -> icmp (e_key e) t < 0) /\ (i = p -> 0 <= icmp (e_key e) t) /\ ((p < i)%nat -> 0 < icmp (e_key e) t).

Lemma compare_holds c k t : holds_key c k -> CompareCurrentKey user_Compare w c t = Some (icmp k t).
Proof. intros [Hr _]. unfold CompareCurrentKey. by rewrite Hr, (bo_seqno Hb), Z.eqb_refl. Qed.

Lemma seek_pos_lt t p i e : seek_pos t p -> l !! i = Some e -> icmp (e_key e) t < 0 -> (i < p)%nat.
Proof. intros [_ Hp] E Hc. destruct (Hp i e E) as (_ & H1 & H2). destruct (Nat.lt_trichotomy i p) as [?|[?|?]]; [done|lia|lia]. Qed.

Lemma seek_pos_eq t p i e : seek_pos t p -> l !! i = Some e -> icmp (e_key e) t = 0 -> i = p.
Proof. intros [_ Hp] E Hc. destruct (Hp i e E) as (H0 & _ & H2). destruct (Nat.lt_trichotomy i p) as [?|[?|?]]; [lia|done|lia]. Qed.

Lemma seek_pos_gt t p i e : seek_pos t p -> l !! i = Some e -> 0 < icmp (e_key e) t -> (p <= i)%nat.
Proof. intros [_ Hp] E Hc. destruct (Hp i e E) as (H0 & _). destruct (Nat.lt_ge_cases i p); [lia|done]. Qed.

(** What the search finds: the interval to scan, or the entry itself. *)
Definition found (t : bytes) (p r : nat) (skip : bool) : Prop :=
  exists j, R !! r = Some j /\
    if skip then j = p
    else (j < p)%nat /\ forall j' e', R !! S r = Some j' -> l !! j' = Some e' -> (p <= j')%nat /\ 0 < icmp (e_key e') t.

Lemma binary_loop_ok t p fuel left right c : seek_pos t p -> l <> [] -> -1 <= left <= right -> right < num_restarts ->
  (Z.to_nat (right - left) < fuel)%nat -> c_status c = OK ->
  (forall r j, R !! r = Some j -> Z.of_nat r <= left -> (j < p)%nat) ->
  (forall r j e, R !! r = Some j -> l !! j = Some e -> right < Z.of_nat r -> (p <= j)%nat /\ 0 < icmp (e_key e) t) ->
  exists r skip c', binary_loop user_Compare w fuel t left right false c = Some (Some (Z.of_nat r, skip), c') /\ c_status c' = OK /\ found t p r skip.
Proof.
  intros Hp Hl. pose proof num_pos as Hn. revert left right c. induction fuel as [|fuel IH]; intros left right c Hlr Hr Hf Hst HL HR; [lia|].
  cbn [binary_loop]. destruct (Z.eqb_spec left right) as [->|Hne].
  - destruct (Z.eqb_spec right (-1)) as [->|Hr1].
    + exists O, true, c. split_and!; [done..|]. exists O. split; [apply (bo_first Hb)|].
      destruct (bo_entries Hb Hl O) as (e & E & _); [eapply list_elem_of_lookup_2, (bo_first Hb)|].
      destruct (HR O O e (bo_first Hb) E ltac:(lia)). lia.
    + exists (Z.to_nat right), false, c. rewrite u32_small, Z2Nat.id by lia. split_and!; [done..|].
      destruct (restart_point right) as (j & Ej & _); [lia|]. exists j. split; [done|]. split; [apply (HL _ _ Ej); lia|].
      intros j' e' Ej' E'. apply (HR _ _ _ Ej' E'). lia.
  - set (mid := left + (right - left + 1) / 2).
    assert (Hmid : left < mid <= right) by (unfold mid; Z.to_euclidean_division_equations; lia). clearbody mid.
    rewrite u32_small by lia. destruct (restart_point mid) as (j & Ej & ->); [lia|]. cbn [mbind option_bind].
    destruct (bo_entries Hb Hl j) as (e & E & Hsh); [by eapply list_elem_of_lookup_2|]. pose proof (lookup_lt_Some _ _ _ E) as Hj.
    rewrite restarts_off, (decode_at DecodeEntry j (length l) e (or_introl eq_refl) E Hj). cbn [mbind option_bind]. rewrite Hsh. change (negb (Z.of_nat 0 =? 0)) with false. cbn iota.
    set (c1 := mkCursor _ _ _ _ _). assert (Hk : holds_key c1 (e_key e)).
    { pose proof (read_delta j e E) as Hd. rewrite Hsh, drop_0 in Hd. split; [exact Hd|]. cbn. lia. }
    rewrite (compare_holds c1 _ t Hk). cbn [mbind option_bind].
    destruct (Z.ltb_spec (icmp (e_key e) t) 0) as [Hlt|Hge]; [|rewrite Z.gtb_ltb; destruct (Z.ltb_spec 0 (icmp (e_key e) t)) as [Hgt|Hle]].
    + pose proof (seek_pos_lt t p j e Hp E Hlt) as Hjp. apply IH; try done; try lia. intros r' j' Ej' Hr'.
      destruct (decide (r' = Z.to_nat mid)) as [->|]; [congruence|].
      pose proof (sorted_lookup lt R r' (Z.to_nat mid) j' j (bo_sorted Hb) ltac:(lia) Ej' Ej). lia.
    + pose proof (seek_pos_gt t p j e Hp E Hgt) as Hpj. apply IH; try done; try lia. intros r' j' e' Ej' E' Hr'.
      destruct (decide (r' = Z.to_nat mid)) as [->|]; [by simplify_eq|].
      pose proof (sorted_lookup lt R (Z.to_nat mid) r' j j' (bo_sorted Hb) ltac:(lia) Ej Ej').
      split; [lia|]. apply (proj2 Hp j' e' E'). lia.
    + destruct fuel as [|fuel]; [lia|]. cbn [binary_loop]. rewrite Z.eqb_refl. destruct (Z.eqb_spec mid (-1)); [lia|].
      exists (Z.to_nat mid), true, c1. rewrite u32_small, Z2Nat.id by lia. split_and!; [done..|].
      exists j. split; [done|]. apply (seek_pos_eq t p j e Hp E). lia.
Qed.

Lemma BinarySeek_ok t p c : seek_pos t p -> l <> [] -> c_status c = OK ->
  exists r skip c', BinarySeek user_Compare w t c = Some (Some (Z.of_nat r, skip), c') /\ c_status c' = OK /\ found t p r skip.
Proof.
  intros Hp Hl Hst. unfold BinarySeek. pose proof num_pos as Hn.
  assert (Hr : restarts <> 0).
  { assert (Hlen : (0 < length l)%nat) by (destruct l; [done|cbn; lia]). rewrite restarts_off.
    pose proof (off_lt 0 (length l) Hlen Hlen) as Ho. rewrite off_0 in Ho. lia. }
  apply Z.eqb_neq in Hr. rewrite Hr. apply binary_loop_ok; try done; try lia.
  intros r j e Ej _ Hr1. apply restart_lt in Ej. lia.
Qed.

(** The end of the interval: the offset of the next restart point, or none. *)
Definition scan_end (t : bytes) (p : nat) (mo : Z) : Prop :=
  mo = 2 ^ 32 - 1 \/ exists j' e', l !! j' = Some e' /\ mo = off l j' /\ (p <= j')%nat /\ 0 < icmp (e_key e') t.

Lemma linear_scan_ok t p mo fuel c j : seek_pos t p -> scan_end t p mo -> cursor_at c j -> (j < p)%nat -> (length l - j <= fuel)%nat ->
  exists c', linear_scan user_Compare w fuel t mo c = Some c' /\ stands c' p.
Proof.
  intros Hp Hmo. revert c j. induction fuel as [|fuel IH]; intros c j Hc Hj Hf.
  { destruct Hp as [Hp _]. lia. }
  assert (Hjl : (j < length l)%nat) by (destruct Hp as [Hp _]; lia).
  destruct (parse_next DecodeEntry c j (length l) None (or_introl eq_refl) limit_none ltac:(lia) Hc Hjl) as (c1 & E1 & Hc1).
  cbn [linear_scan]. unfold NextImpl. rewrite E1. cbn [mbind option_bind].
  destruct (decide (S j < length l)%nat) as [Hlt|Hge].
  - rewrite (cursor_at_Valid c1 (S j) Hc1). cbn [negb]. pose proof Hc1 as (e & E & Hcur & Hk & _). rewrite (compare_holds c1 _ t Hk). cbn [mbind option_bind].
    destruct (proj2 Hp _ _ E) as (H0 & H1 & H2). rewrite Hcur.
    destruct (Nat.lt_ge_cases (S j) p) as [Hsp|Hsp].
    + assert (Hno : (off l (S j) =? mo) = false).
      { apply Z.eqb_neq. intros <-. pose proof (off_lt (S j) (length l) Hlt ltac:(lia)). rewrite <- restarts_off in *. pose proof restarts_range.
        destruct Hmo as [?|(j' & e' & E' & Ho & Hpj & _)]; [lia|]. apply off_inj in Ho; [lia|lia|]. apply lookup_lt_Some in E'. lia. }
      rewrite Hno. destruct (Z.geb_spec (icmp (e_key e) t) 0) as [Hge0|_]; [specialize (H0 Hsp); lia|]. apply (IH c1 (S j)); [done..|lia].
    + assert (Ep : S j = p) by lia. exists c1. split; [|left; by rewrite <- Ep]. specialize (H1 Ep).
      destruct (Z.eqb_spec (off l (S j)) mo) as [Ho|Ho].
      * assert (Hgt : 0 < icmp (e_key e) t).
        { pose proof (off_lt (S j) (length l) Hlt ltac:(lia)). rewrite <- restarts_off in *. pose proof restarts_range.
          destruct Hmo as [?|(j' & e' & E' & Ho' & _ & Hg)]; [lia|]. rewrite Ho' in Ho. apply off_inj in Ho; [|lia|apply lookup_lt_Some in E'; lia].
          simplify_eq. done. }
        rewrite Z.gtb_ltb. by rewrite (proj2 (Z.ltb_lt _ _) Hgt).
      * by rewrite (proj2 (Z.geb_le _ _)).
  - destruct Hc1 as [Hcur Hst]. assert (Ev : c_Valid w c1 = false) by (apply Z.ltb_ge; lia). rewrite Ev. cbn [negb].
    exists c1. split; [done|]. right. destruct Hp as [Hp _]. split_and!; [lia|done..].
Qed.

Lemma FindKey_ok t p r skip c : seek_pos t p -> found t p r skip -> l <> [] -> c_status c = OK ->
  exists c', FindKeyAfterBinarySeek user_Compare w t (Z.of_nat r) skip c = Some c' /\ stands c' p.
Proof.
  intros Hp (j & Ej & Hf) Hl Hst. unfold FindKeyAfterBinarySeek.
  destruct (seek_restart c r j Ej Hst) as (c1 & E1 & Hno & Hri & Hst1 & Hsz). rewrite E1. cbn [mbind option_bind].
  destruct (bo_entries Hb Hl j) as (e & E & _); [by eapply list_elem_of_lookup_2|]. pose proof (lookup_lt_Some _ _ _ E) as Hj.
  destruct (parse_restart DecodeEntry c1 r j (length l) None (or_introl eq_refl) limit_none Ej Hno Hri Hst1 Hsz Hj ltac:(lia)) as (c2 & E2 & Hc2).
  unfold NextImpl. rewrite E2. cbn [mbind option_bind]. destruct skip; [subst j; exists c2; split; [done|by left]|].
  destruct Hf as [Hjp Hnext]. pose proof (restart_lt r j Ej) as Hr. pose proof num_pos. rewrite u32_small by lia.
  assert (Hmo : exists mo, (if Z.of_nat r + 1 <? num_restarts then GetRestartPoint w (Z.of_nat r + 1) else Some (2 ^ 32 - 1)) = Some mo /\ scan_end t p mo).
  { destruct (Z.ltb_spec (Z.of_nat r + 1) num_restarts); [|eexists; split; [done|by left]].
    destruct (restart_point (Z.of_nat r + 1)) as (j' & Ej' & ->); [lia|]. eexists. split; [done|]. right.
    replace (Z.to_nat (Z.of_nat r + 1)) with (S r) in Ej' by lia.
    destruct (bo_entries Hb Hl j') as (e' & E' & _); [by eapply list_elem_of_lookup_2|]. destruct (Hnext j' e' Ej' E'). by exists j', e'. }
  destruct Hmo as (mo & -> & Hmo). cbn [mbind option_bind]. pose proof entries_bound. apply (linear_scan_ok t p mo _ c2 j); try done. lia.
Qed.

Lemma block_Seek_ok t p c k : seek_pos t p -> stands c k -> exists c', SeekImpl user_Compare w t c = Some c' /\ stands c' p.
Proof.
  intros Hp Hc. unfold SeekImpl. destruct (decide (l = [])) as [El|El].
  - unfold BinarySeek. rewrite (bo_restarts Hb), El. cbn. exists c. split; [done|]. destruct Hc as [[Hlt _]|(-> & Hc)]; [rewrite El in Hlt; cbn in Hlt; lia|].
    destruct Hp as [Hp _]. replace p with (length l) by (rewrite El in *; cbn in *; lia). right. done.
  - destruct (BinarySeek_ok t p c Hp El (stands_status c k Hc)) as (r & skip & c1 & -> & Hst & Hf). cbn [mbind option_bind]. by apply FindKey_ok.
Qed.

(** *** Prev *)

Definition cached_at (pc : prev_cache) (j : nat) (pe : CachedPrevEntry) : Prop :=
  exists e raw, l !! j = Some e /\ pe_offset pe = off l j /\ 0 <= pe_key_offset pe /\ 0 <= pe_key_size pe /\
    cached_key pc pe = Some raw /\ read_span data raw = Some (e_key e) /\ span_size raw = zlen (e_key e) /\
    pe_value pe = (value_off j e, zlen (e_value e)).

(** The cached entries are neighbours in the block, from entry [a] on. *)
Definition cached_from (pc : prev_cache) (a : nat) : Prop :=
  forall i pe, pc_entries pc !! i = Some pe -> cached_at pc (a + i) pe.

Definition cache_ok (pc : prev_cache) : Prop :=
  (pc_idx pc = -1 \/ 0 <= pc_idx pc < zlen (pc_entries pc)) /\ exists a, cached_from pc a.

Lemma cache_empty a : cached_from (mkPrevCache [] [] (-1)) a.
Proof. intros i pe Hi. cbn in Hi. by rewrite lookup_nil in Hi. Qed.

Lemma read_block_app A B o s x : 0 <= o -> 0 <= s -> read_block A o s = Some x -> read_block (A ++ B) o s = Some x.
Proof.
  unfold read_block. rewrite zlen_app. intros Ho Hs. pose proof (zlen_nonneg B). destruct (Z.leb_spec (o + s) (zlen A)); [|done].
  rewrite (proj2 (Z.leb_le _ _)) by lia. intros [= <-]. f_equal. unfold zlen in *.
  rewrite drop_app_le, take_app_le by (rewrite ?length_drop; lia). done.
Qed.

Lemma cached_at_app pc k es idx j pe : cached_at pc j pe -> cached_at (mkPrevCache (pc_keys_buff pc ++ k) es idx) j pe.
Proof.
  intros (e & raw & E & Ho & Hko & Hks & Hk & Hrest). exists e, raw. split_and!; try done; try by apply Hrest.
  unfold cached_key in *. destruct (pe_key_ptr pe); [done|]. cbn [pc_keys_buff].
  destruct (read_block (pc_keys_buff pc) _ _) as [x|] eqn:Er; [|done]. by rewrite (read_block_app _ k _ _ x).
Qed.

Lemma cache_entry_ok c pc a j : cursor_at c j -> cached_from pc a -> (a + length (pc_entries pc))%nat = j ->
  exists pc', cache_entry c pc = Some pc' /\ cached_from pc' a /\ length (pc_entries pc') = S (length (pc_entries pc)).
Proof.
  intros (e & E & Hcur & [Hr Hs] & Hv & _) Hpc Hj. unfold cache_entry.
  assert (Hz : 0 <= zlen (e_key e)) by apply zlen_nonneg.
  destruct (c_raw_key c) as [o s|k] eqn:Ek; (eexists; split; [done|]; cbn [pc_entries]; split; [|by rewrite length_app, Nat.add_1_r]);
    intros i pe Hi; apply lookup_app_Some in Hi as [Hi|[Hi1 Hi2]].
  - specialize (Hpc i pe Hi). by rewrite <- (app_nil_r (pc_keys_buff pc)) in *; apply cached_at_app.
  - apply list_lookup_singleton_Some in Hi2 as [Hi2 <-]. replace (a + i)%nat with j by lia. cbn in Hs. subst s.
    exists e, (InBlock o (zlen (e_key e))). cbn. by split_and!.
  - apply cached_at_app. by apply Hpc.
  - apply list_lookup_singleton_Some in Hi2 as [Hi2 <-]. replace (a + i)%nat with j by lia. cbn in Hr, Hs. injection Hr as ->.
    exists e, (InBuffer (e_key e)). cbn. split_and!; try done; [apply zlen_nonneg|].
    pose proof (read_block_mid (pc_keys_buff pc) (e_key e) []) as Hm. rewrite app_nil_r in Hm. by rewrite Hm.
Qed.

Lemma cache_loop_ok fuel c pc a i j : (exists c1, ParseNextDataKey w DecodeEntry None c = Some (true, c1) /\ cursor_at c1 i) ->
  (i < j)%nat -> (j <= length l)%nat -> cached_from pc a -> (a + length (pc_entries pc))%nat = i -> (j - i <= fuel)%nat ->
  exists c' pc', cache_loop w fuel (off l j) c pc = Some (c', pc') /\ cursor_at c' (pred j) /\ cached_from pc' a /\
    (a + length (pc_entries pc'))%nat = j.
Proof.
  revert c pc i. induction fuel as [|fuel IH]; intros c pc i (c1 & E & Hc) Hij Hj Hpc Ha Hf; [lia|].
  cbn [cache_loop]. rewrite E. cbn [mbind option_bind].
  destruct (cache_entry_ok c1 pc a i Hc Hpc Ha) as (pc1 & -> & Hpc1 & Hlen). cbn [mbind option_bind]. rewrite (next_offset c1 i Hc).
  destruct (decide (S i < j)%nat) as [Hlt|Hge].
  - rewrite (proj2 (Z.ltb_lt _ _)) by (apply off_lt; lia).
    destruct (parse_next DecodeEntry c1 i (length l) None (or_introl eq_refl) limit_none ltac:(lia) Hc ltac:(lia)) as (c2 & E2 & Hc2).
    rewrite bool_decide_eq_true_2 in E2 by lia. rewrite decide_True in Hc2 by lia. apply (IH c1 pc1 (S i)); [eauto|done..|lia|lia].
  - assert (Ej : S i = j) by lia. rewrite Ej, Z.ltb_irrefl. exists c1, pc1. split_and!; try done; [by rewrite <- Ej|lia].
Qed.

Lemma restart_before_ok fuel ri j : 0 <= ri < num_restarts -> (Z.to_nat ri < fuel)%nat -> (j < length l)%nat ->
  exists r, restart_before w fuel ri (off l j) = Some r /\
    match r with
    | None => j = O
    | Some r => exists i, 0 <= r < num_restarts /\ R !! Z.to_nat r = Some i /\ (i < j)%nat
    end.
Proof.
  revert ri. induction fuel as [|fuel IH]; intros ri Hri Hf Hj; [lia|]. cbn [restart_before].
  destruct (restart_point ri Hri) as (i & Ei & ->). cbn [mbind option_bind].
  destruct (Z.geb_spec (off l i) (off l j)) as [Hge|Hlt].
  - destruct (Z.eqb_spec ri 0) as [->|]; [|apply IH; lia]. exists None. split; [done|].
    change (Z.to_nat 0) with O in Ei. rewrite (bo_first Hb) in Ei. injection Ei as <-. destruct j as [|j]; [done|]. pose proof (off_lt 0 (S j) ltac:(lia) ltac:(lia)). lia.
  - exists (Some ri). split; [done|]. exists i. split_and!; [lia..|done|]. destruct (Nat.lt_ge_cases i j); [done|].
    pose proof (off_le j i ltac:(lia)). lia.
Qed.

Lemma prev_cached_ok c pc j a : cursor_at c j -> cached_from pc a -> 0 < pc_idx pc < zlen (pc_entries pc) ->
  forall pe, pc_entries pc !! Z.to_nat (pc_idx pc) = Some pe -> pe_offset pe = off l j ->
  exists pe' raw, pc_entries pc !! Z.to_nat (pc_idx pc - 1) = Some pe' /\ cached_key pc pe' = Some raw /\ j <> O /\
    cursor_at (mkCursor (c_restart_index c) (pe_offset pe') raw (pe_value pe') (c_status c)) (pred j).
Proof.
  intros Hc Ha Hidx pe Epe Ho. destruct (Ha _ _ Epe) as (e1 & raw1 & E1 & Ho1 & _).
  assert (Ej : (a + Z.to_nat (pc_idx pc))%nat = j).
  { apply off_inj; [apply lookup_lt_Some in E1; lia|destruct Hc as (e & E & _); apply lookup_lt_Some in E; lia|congruence]. }
  destruct (lookup_lt_is_Some_2 (pc_entries pc) (Z.to_nat (pc_idx pc - 1))) as [pe' Epe']; [unfold zlen in Hidx; lia|].
  destruct (Ha _ _ Epe') as (e' & raw & E' & Ho' & _ & _ & Hk & Hr & Hs & Hv). exists pe', raw. split_and!; [done..|lia|].
  replace (a + Z.to_nat (pc_idx pc - 1))%nat with (pred j) in * by lia. destruct Hc as (e & _ & _ & _ & _ & Hri & Hst).
  exists e'. split_and!; try done; cbn; try lia.
Qed.

(** After a move back from entry [j]. *)
Definition moved_back (j : nat) (c' : cursor) : Prop :=
  match j with O => c_current c' = restarts /\ c_status c' = OK | S j' => cursor_at c' j' end.

Lemma prev_uncached_ok c j : cursor_at c j -> exists c' pc', prev_uncached w c = Some (c', pc') /\ cache_ok pc' /\ moved_back j c'.
Proof.
  intros (e & E & Hcur & _ & _ & Hri & Hst). pose proof (lookup_lt_Some _ _ _ E) as Hj. unfold prev_uncached. rewrite Hcur.
  destruct (restart_before_ok (Z.to_nat num_restarts + 1) (c_restart_index c) j Hri ltac:(lia) Hj) as (r & -> & Hr). cbn [mbind option_bind].
  destruct r as [r|].
  - destruct Hr as (i & Hr & Ei & Hij). destruct (seek_restart c _ i Ei Hst) as (c1 & E1 & Hno & Hri1 & Hst1 & Hsz). rewrite Z2Nat.id in E1 by lia.
    rewrite E1. cbn [mbind option_bind].
    destruct (parse_restart DecodeEntry c1 _ i (length l) None (or_introl eq_refl) limit_none Ei Hno Hri1 Hst1 Hsz ltac:(lia) ltac:(lia)) as (c2 & E2 & Hc2).
    pose proof entries_bound. destruct (cache_loop_ok (length data + 1) c1 (mkPrevCache [] [] (-1)) i i j) as (c' & pc' & -> & Hc' & Hpc' & Hlen);
      [eauto|done|lia|apply cache_empty|cbn; lia|lia|]. cbn [mbind option_bind]. eexists _, _. split; [done|].
    pose proof entries_size. pose proof restarts_range. split.
    + assert (Hz : zlen (pc_entries pc') < 2 ^ 31) by (unfold zlen in *; lia). pose proof (zlen_nonneg (pc_entries pc')).
      rewrite i32_small by lia. split; [right; cbn; unfold zlen in *; lia|]. exists i. exact Hpc'.
    + destruct j as [|j]; [lia|]. exact Hc'.
  - subst j. eexists _, _. split; [done|]. split; [|done]. split; [by left|]. exists O. apply cache_empty.
Qed.

Lemma block_Prev_ok c pc j : cursor_at c j -> cache_ok pc -> exists c' pc', PrevImpl w c pc = Some (c', pc') /\ cache_ok pc' /\ moved_back j c'.
Proof.
  intros Hc [Hidx [a Ha]]. unfold PrevImpl. rewrite (cursor_at_Valid c j Hc). cbn [negb orb].
  assert (Hi : (pc_idx pc =? -1) || (pc_idx pc <? zlen (pc_entries pc)) = true).
  { apply orb_true_iff. destruct Hidx as [->|?]; [by left|right; apply Z.ltb_lt; lia]. }
  rewrite Hi. cbn [negb]. pose proof (prev_uncached_ok c j Hc) as Hfresh.
  rewrite Z.gtb_ltb. destruct (Z.ltb_spec 0 (pc_idx pc)) as [Hpos|]; [|exact Hfresh].
  destruct (lookup_lt_is_Some_2 (pc_entries pc) (Z.to_nat (pc_idx pc))) as [pe Epe]; [unfold zlen in Hidx; lia|].
  rewrite Epe. cbn [mbind option_bind]. destruct (Z.eqb_spec (pe_offset pe) (c_current c)) as [Ho|]; [|exact Hfresh].
  assert (Hcur : c_current c = off l j) by (by destruct Hc as (e & _ & ? & _)). rewrite Hcur in Ho.
  destruct (prev_cached_ok c pc j a Hc Ha ltac:(lia) pe Epe Ho) as (pe' & raw & -> & Hk & Hj0 & Hc'). cbn [mbind option_bind].
  rewrite Hk. cbn [mbind option_bind]. eexists _, _. split; [done|]. split; [|by destruct j].
  split; [right; cbn; lia|]. exists a. exact Ha.
Qed.

(** *** SeekForPrev *)

Definition at_opt (c : cursor) (o : option nat) : Prop :=
  match o with Some j => cursor_at c j | None => c_current c = restarts /\ c_status c = OK end.

Lemma at_opt_stands c o : at_opt c o -> exists j, stands c j.
Proof.
  destruct o as [j|]; [intros Hc; exists j; left; split; [|done]|intros [? ?]; exists (length l); by right].
  destruct Hc as (e & E & _). by eapply lookup_lt_Some.
Qed.

Lemma stands_at_opt c j : stands c j -> at_opt c (if decide (j < length l)%nat then Some j else None).
Proof. intros [[Hj Hc]|(-> & Hc)]; [by rewrite decide_True|rewrite decide_False by lia; done]. Qed.

(** [o] is the last entry that is not above the target. *)
Definition last_pos (t : bytes) (o : option nat) : Prop :=
  (forall j, o = Some j -> (j < length l)%nat) /\
  forall i e, l !! i = Some e -> icmp (e_key e) t <= 0 <-> exists j, o = Some j /\ (i <= j)%nat.

Lemma moved_back_opt j c : moved_back j c -> at_opt c (match j with O => None | S j' => Some j' end).
Proof. by destruct j. Qed.

Lemma prev_while_ok t p c pc fuel : seek_pos t p -> cursor_at c p -> cache_ok pc -> (2 <= fuel)%nat ->
  exists c' pc' o, prev_while_greater user_Compare w fuel t c pc = Some (c', pc') /\ cache_ok pc' /\ at_opt c' o /\ last_pos t o.
Proof.
  intros Hp Hc Hpc Hf. destruct fuel as [|[|fuel]]; [lia..|]. pose proof Hc as (e & E & _ & Hk & _).
  pose proof (lookup_lt_Some _ _ _ E) as Hpl. destruct (proj2 Hp p e E) as (_ & Hp0 & _). specialize (Hp0 eq_refl).
  cbn [prev_while_greater]. rewrite (cursor_at_Valid c p Hc), (compare_holds c _ t Hk). cbn [mbind option_bind].
  rewrite Z.gtb_ltb. destruct (Z.ltb_spec 0 (icmp (e_key e) t)) as [Hgt|Hle].
  - destruct (block_Prev_ok c pc p Hc Hpc) as (c1 & pc1 & -> & Hpc1 & Hback). cbn [mbind option_bind].
    assert (Hall : forall o, (o = match p with O => None | S q => Some q end) -> last_pos t o).
    { intros o ->. split; [intros j Ej; destruct p; simplify_eq; lia|]. intros i e' E'. destruct (proj2 Hp i e' E') as (Hi1 & Hi2 & Hi3). split.
      - intros Hle. assert (i < p)%nat.
        { destruct (Nat.lt_trichotomy i p) as [?|[->|?]]; [done| |specialize (Hi3 ltac:(lia)); lia]. simplify_eq. lia. }
        destruct p as [|q]; [lia|]. exists q. split; [done|lia].
      - intros (j & Ej & Hij). destruct p as [|q]; [done|]. simplify_eq. specialize (Hi1 ltac:(lia)). lia. }
    apply moved_back_opt in Hback. destruct p as [|q].
    + exists c1, pc1, None. split_and!; [|done..|by apply Hall]. destruct Hback as [Hcur _].
      assert (Ev : c_Valid w c1 = false) by (apply Z.ltb_ge; lia). by rewrite Ev.
    + exists c1, pc1, (Some q). split_and!; [|done..|by apply Hall]. pose proof Hback as (eq & Eq & _ & Hkq & _).
      rewrite (cursor_at_Valid c1 q Hback), (compare_holds c1 _ t Hkq). cbn [mbind option_bind].
      destruct (proj2 Hp q eq Eq) as (Hq & _). specialize (Hq ltac:(lia)).
      destruct (Z.gtb_spec (icmp (e_key eq) t) 0); [lia|done].
  - exists c, pc, (Some p). split_and!; [done..|]. split; [by intros j [= <-]|]. intros i e' E'. destruct (proj2 Hp i e' E') as (Hi1 & Hi2 & Hi3). split.
    + intros Hi. exists p. split; [done|]. destruct (Nat.le_gt_cases i p); [done|]. specialize (Hi3 ltac:(lia)). lia.
    + intros (j & [= <-] & Hij). destruct (decide (i = p)) as [->|]; [simplify_eq; lia|]. specialize (Hi1 ltac:(lia)). lia.
Qed.

Lemma block_SeekForPrev_ok t p c k pc : seek_pos t p -> stands c k -> cache_ok pc ->
  exists c' pc' o, SeekForPrevImpl user_Compare w t c pc = Some (c', pc') /\ cache_ok pc' /\ at_opt c' o /\ last_pos t o.
Proof.
  intros Hp Hc Hpc. unfold SeekForPrevImpl. destruct (decide (l = [])) as [El|El].
  - unfold BinarySeek. rewrite (bo_restarts Hb), El. cbn. exists c, pc, None. split_and!; [done..| |].
    + destruct Hc as [[Hlt _]|(_ & Hc)]; [rewrite El in Hlt; cbn in Hlt; lia|done].
    + split; [done|]. intros i e E. by rewrite El, lookup_nil in E.
  - destruct (BinarySeek_ok t p c Hp El (stands_status c k Hc)) as (r & skip & c1 & -> & Hst & Hf). cbn [mbind option_bind].
    destruct (FindKey_ok t p r skip c1 Hp Hf El Hst) as (c2 & -> & Hc2). cbn [mbind option_bind]. rewrite (stands_Valid c2 p Hc2).
    assert (Hlen : (0 < length l)%nat) by (destruct l; [done|cbn; lia]).
    destruct (decide (p < length l)%nat) as [Hlt|Hge].
    + rewrite bool_decide_eq_true_2 by done. cbn [negb]. pose proof entries_bound. apply (prev_while_ok t p); [done| |done|lia].
      destruct Hc2 as [[_ ?]|[? _]]; [done|lia].
    + rewrite bool_decide_eq_false_2 by done. cbn [negb]. destruct (block_SeekToLast_ok c2 (stands_status _ _ Hc2)) as (c3 & -> & Hc3).
      cbn [mbind option_bind]. exists c3, pc, (Some (pred (length l))). split_and!; [done..| |].
      * destruct Hc3 as [[_ ?]|[? _]]; [done|lia].
      * split; [intros j [= <-]; lia|]. intros i e E. apply lookup_lt_Some in E as Hi. destruct (proj2 Hp i e E) as (Hi1 & _).
        specialize (Hi1 ltac:(lia)). split; [intros _; eexists; split; [done|lia]|lia].
Qed.
End Read.

(** ** The contract of an internal iterator *)

Definition block_iterator (user_Compare : bytes -> bytes -> Z) : InternalIterator DataBlockIter := {|
  internal_iterator := {|
    Iterator.Valid := bi_Valid; Iterator.key := bi_show_key; Iterator.value := bi_show_value;
    Iterator.SeekToFirst := bi_SeekToFirst; Iterator.SeekToLast := bi_SeekToLast; Iterator.Seek := bi_Seek user_Compare;
    Iterator.Next := bi_Next; Iterator.Prev := bi_Prev;
    Iterator.status_ok := fun i => bool_decide (c_status (bi_cursor i) = OK) |};
  DbIter.SeekForPrev := bi_SeekForPrev user_Compare |}.

(** The version that an iterator shows. *)
Definition bi_cur (i : DataBlockIter) : option version :=
  k ← bi_show_key i;
  v ← bi_show_value i;
  p ← ParseInternalKey k;
  Some (mkVersion (pk_sequence p) (pk_type p) (pk_user_key p) v).

(** *** The order of parsed keys *)

Section Order.
Context (user_Compare : bytes -> bytes -> Z) `{!TotalCompare user_Compare}.

Lemma Parsed_lt_spec a b : Parsed_Compare user_Compare a b < 0 <->
  user_Compare (pk_user_key a) (pk_user_key b) < 0 \/
  (pk_user_key a = pk_user_key b /\ (pk_sequence b < pk_sequence a \/ (pk_sequence b = pk_sequence a /\ pk_type b < pk_type a))).
Proof.
  unfold Parsed_Compare. rewrite !Z.gtb_ltb. destruct (Z.eqb_spec (user_Compare (pk_user_key a) (pk_user_key b)) 0) as [E|E].
  - pose proof E as Ek. apply cmp_eq in Ek. rewrite E. case_bool; split; intros Hc; first [lia | right; split; [done|lia] | destruct Hc as [Hc|[_ Hc]]; lia].
  - split; [by left|]. intros [?|[Ek _]]; [done|]. rewrite Ek, cmp_refl in E by done. lia.
Qed.

Lemma Parsed_gt_spec a b : 0 < Parsed_Compare user_Compare a b <-> Parsed_Compare user_Compare b a < 0.
Proof.
  rewrite Parsed_lt_spec. unfold Parsed_Compare. rewrite !Z.gtb_ltb. destruct (Z.eqb_spec (user_Compare (pk_user_key a) (pk_user_key b)) 0) as [E|E].
  - pose proof E as Ek. apply cmp_eq in Ek. rewrite E, Ek, cmp_refl by done. case_bool; split; intros Hc; first [lia | right; split; [done|lia] | destruct Hc as [Hc|[_ Hc]]; lia].
  - rewrite (cmp_flip (pk_user_key b) (pk_user_key a)). split; [by left|]. intros [?|[Ek _]]; [done|]. rewrite Ek, cmp_refl in E by done. lia.
Qed.

Lemma Parsed_lt_trans a b c : Parsed_Compare user_Compare a b < 0 -> Parsed_Compare user_Compare b c < 0 -> Parsed_Compare user_Compare a c < 0.
Proof.
  rewrite !Parsed_lt_spec. intros [H1|[E1 H1]] [H2|[E2 H2]].
  - left. by eapply cmp_trans.
  - left. by rewrite <- E2.
  - left. by rewrite E1.
  - right. split; [congruence|lia].
Qed.

Lemma vlt_Parsed a b : vlt user_Compare a b -> Parsed_Compare user_Compare (v_parsed a) (v_parsed b) < 0.
Proof. rewrite Parsed_lt_spec, vlt_spec by done. cbn. tauto. Qed.

(** Against the entry below, a target that is not above it is below. *)
Lemma Parsed_le_lt a b q : Parsed_Compare user_Compare a b < 0 -> 0 <= Parsed_Compare user_Compare a q -> 0 < Parsed_Compare user_Compare b q.
Proof.
  intros Hab Haq. destruct (Z.lt_trichotomy (Parsed_Compare user_Compare b q) 0) as [Hlt|[Heq|]]; [| |done].
  - pose proof (Parsed_lt_trans a b q Hab Hlt). lia.
  - enough (Parsed_Compare user_Compare a q < 0) by lia. revert Heq. unfold Parsed_Compare at 1. rewrite !Z.gtb_ltb.
    destruct (Z.eqb_spec (user_Compare (pk_user_key b) (pk_user_key q)) 0) as [E|E]; [|lia]. pose proof E as Ek. apply cmp_eq in Ek. rewrite E.
    case_bool; try lia. intros _. apply Parsed_lt_spec. apply Parsed_lt_spec in Hab. rewrite Ek in Hab.
    replace (pk_sequence q) with (pk_sequence b) by lia. replace (pk_type q) with (pk_type b) by lia. done.
Qed.
End Order.

Section Versions.
Context (user_Compare : bytes -> bytes -> Z) `{!TotalCompare user_Compare} (w : block_view) (l : list ent) (R : list nat) (Hb : block_ok w l R).
Context (vs : list version) (Hok : Forall version_ok vs) (Hsorted : StronglySorted (vlt user_Compare) vs).
Abbreviation icmp := (InternalKey_Compare user_Compare).

Definition entry_holds (v : version) (e : ent) : Prop := e_key e = encode (v_parsed v) /\ e_value e = v_value v.

Context (Hvs : Forall2 entry_holds vs l).

Lemma version_at j e : l !! j = Some e -> exists v, vs !! j = Some v /\ version_ok v /\ entry_holds v e.
Proof.
  intros E. destruct (Forall2_lookup_r _ _ _ _ _ Hvs E) as (v & Ev & Hv). exists v. split_and!; try done; try apply Hv.
  eapply Forall_lookup_1; [exact Hok|exact Ev].
Qed.

Lemma entry_at j v : vs !! j = Some v -> exists e, l !! j = Some e /\ version_ok v /\ entry_holds v e.
Proof.
  intros Ev. destruct (Forall2_lookup_l _ _ _ _ _ Hvs Ev) as (e & E & Hv). exists e. split_and!; try done; try apply Hv.
  eapply Forall_lookup_1; [exact Hok|exact Ev].
Qed.

(** *** Positions *)

Lemma seek_index q ws : StronglySorted (vlt user_Compare) ws -> exists p, (p <= length ws)%nat /\ forall i v, ws !! i = Some v ->
  ((i < p)%nat -> Parsed_Compare user_Compare (v_parsed v) q < 0) /\ (i = p -> 0 <= Parsed_Compare user_Compare (v_parsed v) q) /\
  ((p < i)%nat -> 0 < Parsed_Compare user_Compare (v_parsed v) q).
Proof.
  induction 1 as [|a ws Hs (p & Hp & IH) Ha]; [by exists 0%nat|]. destruct (Z.lt_ge_cases (Parsed_Compare user_Compare (v_parsed a) q) 0) as [Hlt|Hge].
  - exists (S p). split; [cbn; lia|]. intros [|i] v Ev; [injection Ev as <-; repeat split; lia || done|].
    destruct (IH i v Ev) as (H1 & H2 & H3). split_and!; intros; [apply H1|apply H2|apply H3]; lia.
  - exists 0%nat. split; [cbn; lia|]. intros [|i] v Ev; [injection Ev as <-; repeat split; lia || done|]. split_and!; [lia..|intros _].
    eapply Parsed_le_lt; [done| |exact Hge]. apply vlt_Parsed; [done|]. eapply Forall_lookup_1 in Ha; [|exact Ev]. done.
Qed.

Lemma icmp_at j e v q : l !! j = Some e -> vs !! j = Some v -> parsed_ok q -> icmp (e_key e) (encode q) = Parsed_Compare user_Compare (v_parsed v) q.
Proof.
  intros E Ev Hq. destruct (version_at _ _ E) as (v' & Ev' & [Hv _] & [-> _]). rewrite Ev in Ev'. injection Ev' as <-. by apply internal_compare_parsed.
Qed.

Lemma seek_pos_exists q : parsed_ok q -> exists p, seek_pos user_Compare l (encode q) p /\ (p <= length vs)%nat /\
  forall i v, vs !! i = Some v -> ((i < p)%nat <-> Parsed_Compare user_Compare (v_parsed v) q < 0).
Proof.
  intros Hq. destruct (seek_index q vs Hsorted) as (p & Hp & Hi). exists p. split_and!; [|done|].
  - split; [by rewrite <- (Forall2_length _ _ _ Hvs)|]. intros i e E. destruct (version_at _ _ E) as (v & Ev & _). rewrite (icmp_at _ _ _ _ E Ev Hq). by apply Hi.
  - intros i v Ev. destruct (Hi i v Ev) as (H1 & H2 & H3). split; [done|]. intros Hc. destruct (Nat.lt_trichotomy i p) as [?|[?|?]]; [done|lia|lia].
Qed.

Lemma seek_pos_split u s t p : (forall i v, vs !! i = Some v -> ((i < p)%nat <-> Parsed_Compare user_Compare (v_parsed v) (mkParsed u s t) < 0)) ->
  seek_split user_Compare vs (take p vs) (drop p vs) (mkVersion s t u []).
Proof.
  intros Hp. split_and!; [by rewrite take_drop|..].
  - intros a [i Ha]%list_elem_of_lookup. apply lookup_take_Some in Ha as [Ha Hi]. apply (Hp _ _ Ha), Parsed_lt_spec in Hi; [|done].
    cbn in Hi. rewrite vlt_spec by done. cbn. intuition.
  - intros b [i Hb']%list_elem_of_lookup. rewrite lookup_drop in Hb'. intros Hlt. apply vlt_Parsed in Hlt; [|done]. apply (Hp _ _ Hb') in Hlt. lia.
Qed.

(** Against a target that is not of a larger type than a version with its sequence number. *)
Lemma not_behind_spec v u s t : (v_key v = u -> v_seq v = s -> t <= v_type v) ->
  Parsed_Compare user_Compare (v_parsed v) (mkParsed u s t) <= 0 <-> ~ vlt user_Compare (mkVersion s t u []) v.
Proof.
  intros Ht. rewrite vlt_spec by done. cbn. pose proof (cmp_flip u (v_key v)) as Hfl.
  unfold Parsed_Compare. rewrite !Z.gtb_ltb. cbn. destruct (Z.eqb_spec (user_Compare (v_key v) u) 0) as [E|E].
  - pose proof (proj1 (cmp_eq _ _) E) as Ek. specialize (Ht Ek). rewrite Ek, cmp_refl in * by done.
    repeat case_bool; intuition lia.
  - split; [intros ? [?|[-> _]]; [lia|by rewrite cmp_refl in E by done]|]. intros Hn. destruct (Z.le_gt_cases (user_Compare (v_key v) u) 0); [done|].
    destruct Hn. left. lia.
Qed.

Lemma filter_prefix {A} (P : A -> Prop) `{!forall x, Decision (P x)} (k : list A) n :
  (forall i x, k !! i = Some x -> (P x <-> (i < n)%nat)) -> filter P k = take n k.
Proof.
  revert n. induction k as [|x k IH]; intros n Hn; [by rewrite take_nil|]. rewrite filter_cons. pose proof (Hn 0%nat x eq_refl) as H0.
  destruct n as [|n]; cbn [take].
  - rewrite decide_False by (intros ?%H0; lia). rewrite (IH 0%nat); [by destruct k|]. intros i y Ey. rewrite (Hn (S i) y Ey). lia.
  - rewrite decide_True by (apply H0; lia). f_equal. apply IH. intros i y Ey. rewrite (Hn (S i) y Ey). lia.
Qed.

Lemma last_take {A} (k : list A) j : (j < length k)%nat -> last (take (S j) k) = k !! j.
Proof. intros Hj. rewrite last_lookup, length_take, Nat.min_l by lia. cbn. by rewrite lookup_take_lt by lia. Qed.

Lemma last_pos_versions u s t o : parsed_ok (mkParsed u s t) -> (forall v, v ∈ vs -> v_key v = u -> v_seq v = s -> t <= v_type v) ->
  last_pos user_Compare l (encode (mkParsed u s t)) o ->
  last (filter (fun v => ~ vlt user_Compare (mkVersion s t u []) v) vs) = o ≫= (vs !!.).
Proof.
  intros Hq Hty [Hlt Hp]. rewrite (filter_prefix _ _ (match o with Some j => S j | None => 0%nat end)).
  - destruct o as [j|]; [|done]. apply last_take. rewrite (Forall2_length _ _ _ Hvs). by apply Hlt.
  - intros i v Ev. destruct (entry_at _ _ Ev) as (e & E & _).
    rewrite <- not_behind_spec by (apply Hty; by eapply list_elem_of_lookup_2). rewrite <- (icmp_at _ _ _ _ E Ev) by done. rewrite (Hp _ _ E).
    destruct o as [j|]; split; [intros (? & [= <-] & ?); lia|exists j; split; [done|lia]|intros (? & ? & _); done|lia].
Qed.

(** *** The iterator *)

Definition bi_at (i : DataBlockIter) (o : option nat) : Prop :=
  bi_view i = Some w /\ cache_ok w l (bi_prev i) /\ at_opt w l (bi_cursor i) o /\ (is_Some o -> bi_key i = c_raw_key (bi_cursor i)).

Definition bi_inv (i : DataBlockIter) : Prop := exists o, bi_at i o.

Lemma at_opt_Valid c o : at_opt w l c o -> c_Valid w c = bool_decide (is_Some o).
Proof.
  destruct o as [j|]; [intros Hc; by rewrite (cursor_at_Valid _ _ _ Hb _ _ Hc)|]. intros [Hc _]. unfold c_Valid. rewrite Hc. by rewrite Z.ltb_irrefl.
Qed.

Lemma at_opt_status c o : at_opt w l c o -> c_status c = OK.
Proof. destruct o as [j|]; [by intros (e & _ & _ & _ & _ & _ & ?)|by intros [_ ?]]. Qed.

Lemma bi_at_lookup i o : bi_at i o -> is_Some o -> is_Some (o ≫= (vs !!.)).
Proof.
  intros (_ & _ & Hc & _) [j ->]. destruct Hc as (e & E & _). destruct (version_at _ _ E) as (v & Ev & _). by exists v.
Qed.

Lemma bi_at_shows i o : bi_at i o ->
  bi_show_key i = (fun v => encode (v_parsed v)) <$> (o ≫= (vs !!.)) /\ bi_show_value i = v_value <$> (o ≫= (vs !!.)) /\ bi_cur i = o ≫= (vs !!.).
Proof.
  intros (Ew & _ & Hc & Hk). pose proof (at_opt_Valid _ _ Hc) as HV. unfold bi_cur, bi_show_key, bi_show_value. rewrite Ew. cbn [mbind option_bind].
  rewrite HV. destruct o as [j|]; [|done]. specialize (Hk ltac:(done)). cbn [mbind option_bind].
  destruct Hc as (e & E & _ & [Hr _] & Hval & _). destruct (version_at _ _ E) as (v & -> & [Hv _] & Ek & Eval).
  rewrite bool_decide_eq_true_2 by done. rewrite Hk, Hr, Hval. cbn [fst snd]. rewrite (read_value w l R Hb _ _ E), Ek, Eval. cbn [mbind option_bind fmap option_fmap option_map].
  rewrite parse_encode by done. split_and!; try done. by destruct v.
Qed.

Lemma update_key c o k : at_opt w l c o -> exists k', UpdateKey w c k = Some k' /\ (is_Some o -> k' = c_raw_key c).
Proof.
  intros Hc. unfold UpdateKey. rewrite (at_opt_Valid _ _ Hc), (bo_seqno w l R Hb), Z.eqb_refl.
  case_bool_decide as Ho; cbn; eexists; (split; [done|]); [done|by intros].
Qed.

(** A move of the cursor to [o]. *)
Lemma bi_move_ok move i c' o : bi_inv i -> move w (bi_cursor i) = Some c' -> at_opt w l c' o ->
  exists i', bi_move move i = Some i' /\ bi_inv i' /\ bi_cur i' = o ≫= (vs !!.).
Proof.
  intros (o0 & Ew & Hp & _) Em Hc. unfold bi_move. rewrite Ew, Em. cbn [mbind option_bind]. destruct (update_key c' o (bi_key i) Hc) as (k & -> & Hk).
  eexists. split; [done|]. assert (Hat : bi_at (mkDataBlockIter (Some w) c' k (bi_prev i)) o) by (split_and!; done).
  split; [by exists o|]. by apply bi_at_shows in Hat as (_ & _ & ?).
Qed.

Lemma bi_move_prev_ok move i c' pc o : bi_inv i -> move w (bi_cursor i) (bi_prev i) = Some (c', pc) -> cache_ok w l pc -> at_opt w l c' o ->
  exists i', bi_move_prev move i = Some i' /\ bi_inv i' /\ bi_cur i' = o ≫= (vs !!.).
Proof.
  intros (o0 & Ew & _) Em Hp Hc. unfold bi_move_prev. rewrite Ew, Em. cbn [mbind option_bind]. destruct (update_key c' o (bi_key i) Hc) as (k & -> & Hk).
  eexists. split; [done|]. assert (Hat : bi_at (mkDataBlockIter (Some w) c' k pc) o) by (split_and!; done).
  split; [by exists o|]. by apply bi_at_shows in Hat as (_ & _ & ?).
Qed.

Lemma stands_versions c j : stands w l c j -> exists o, at_opt w l c o /\ o ≫= (vs !!.) = vs !! j.
Proof.
  intros Hs. pose proof (stands_at_opt _ _ _ _ Hs) as Ho. eexists. split; [exact Ho|]. destruct (decide (j < length l)%nat) as [Hj|Hj]; [done|]. cbn.
  symmetry. apply lookup_ge_None. rewrite (Forall2_length _ _ _ Hvs). lia.
Qed.

Lemma bi_inv_cursor i : bi_inv i -> exists k, stands w l (bi_cursor i) k.
Proof. intros (o & _ & _ & Hc & _). by eapply at_opt_stands. Qed.

Lemma bi_inv_status i : bi_inv i -> c_status (bi_cursor i) = OK.
Proof. intros (o & _ & _ & Hc & _). by eapply at_opt_status. Qed.

Lemma bi_stands_ok move i c' j : bi_inv i -> move w (bi_cursor i) = Some c' -> stands w l c' j ->
  exists i', bi_move move i = Some i' /\ bi_inv i' /\ bi_cur i' = vs !! j.
Proof. intros Hi Em (o & Ho & <-)%stands_versions. by eapply bi_move_ok. Qed.

Lemma version_index j A v B : vs = A ++ v :: B -> vs !! j = Some v -> j = length A.
Proof.
  intros E Ej. assert (EA : vs !! length A = Some v) by (by rewrite E, list_lookup_middle).
  assert (Hirr : ~ vlt user_Compare v v) by (rewrite vlt_spec, cmp_refl by done; intuition lia).
  destruct (Nat.lt_trichotomy j (length A)) as [Hj|[?|Hj]]; [|done|]; destruct Hirr.
  - by eapply (sorted_lookup _ _ _ _ _ _ Hsorted Hj).
  - by eapply (sorted_lookup _ _ _ _ _ _ Hsorted Hj).
Qed.

Lemma bi_standing i A v B : bi_inv i -> vs = A ++ v :: B -> bi_cur i = Some v -> bi_at i (Some (length A)).
Proof.
  intros (o & Ho) E Hc. destruct (bi_at_shows _ _ Ho) as (_ & _ & Ec). rewrite Ec in Hc. destruct o as [j|]; [|done]. cbn in Hc.
  by rewrite <- (version_index _ _ _ _ E Hc).
Qed.

Lemma bi_next_ok i A v B : bi_inv i -> vs = A ++ v :: B -> bi_cur i = Some v -> exists i', bi_Next i = Some i' /\ bi_inv i' /\ bi_cur i' = head B.
Proof.
  intros Hi E Hc. pose proof (bi_standing _ _ _ _ Hi E Hc) as (Ew & _ & Hat & _). unfold bi_Next. rewrite Ew. cbn in Hat.
  destruct Hat as (e & El & Hrest). pose proof (lookup_lt_Some _ _ _ El) as Hl.
  destruct (parse_next w l R Hb DecodeEntry (bi_cursor i) (length A) (length l) None ltac:(by left) (limit_none _ _ _ Hb) ltac:(done) ltac:(by exists e) Hl) as (c' & Ep & Hc').
  destruct (bi_stands_ok NextImpl i c' (S (length A)) Hi) as (i' & Ei & Hi' & Ec').
  - unfold NextImpl. by rewrite Ep.
  - case_decide as Hd; [by left|]. right. split; [lia|done].
  - exists i'. split_and!; try done. rewrite Ec', E, lookup_app_r, head_lookup by lia. by replace (S (length A) - length A)%nat with 1%nat by lia.
Qed.

Lemma bi_prev_ok i A v B : bi_inv i -> vs = A ++ v :: B -> bi_cur i = Some v -> exists i', bi_Prev i = Some i' /\ bi_inv i' /\ bi_cur i' = last A.
Proof.
  intros Hi E Hc. pose proof (bi_standing _ _ _ _ Hi E Hc) as (Ew & Hpc & Hat & _). unfold bi_Prev. rewrite Ew. cbn in Hat.
  destruct (block_Prev_ok w l R Hb _ _ _ Hat Hpc) as (c' & pc' & Ep & Hpc' & Hm). apply moved_back_opt in Hm.
  destruct (bi_move_prev_ok PrevImpl i c' pc' _ Hi Ep Hpc' Hm) as (i' & Ei & Hi' & Ec'). exists i'. split_and!; try done.
  rewrite Ec', last_lookup. destruct (length A) as [|n] eqn:EA; [by destruct A|]. cbn. rewrite E, lookup_app_l by lia. done.
Qed.

Lemma bi_seek_ok i q : bi_inv i -> parsed_ok q -> exists i' p, bi_Seek user_Compare i (encode q) = Some i' /\ bi_inv i' /\ bi_cur i' = head (drop p vs) /\
  forall j v, vs !! j = Some v -> ((j < p)%nat <-> Parsed_Compare user_Compare (v_parsed v) q < 0).
Proof.
  intros Hi Hq. destruct (seek_pos_exists q Hq) as (p & Hp & Hl & Hspec). destruct (bi_inv_cursor i Hi) as (k & Hk).
  destruct (block_Seek_ok user_Compare w l R Hb _ p _ k Hp Hk) as (c' & Ec & Hc').
  destruct (bi_stands_ok (fun w => SeekImpl user_Compare w (encode q)) i c' p Hi Ec Hc') as (i' & Ei & Hi' & Ecur). exists i', p. split_and!; try done.
  by rewrite Ecur, head_lookup, lookup_drop, Nat.add_0_r.
Qed.

Lemma bi_seek_for_prev_ok i u s t : bi_inv i -> parsed_ok (mkParsed u s t) -> (forall v, v ∈ vs -> v_key v = u -> v_seq v = s -> t <= v_type v) ->
  exists i', bi_SeekForPrev user_Compare i (encode (mkParsed u s t)) = Some i' /\ bi_inv i' /\
    bi_cur i' = last (filter (fun v => ~ vlt user_Compare (mkVersion s t u []) v) vs).
Proof.
  intros Hi Hq Hty. destruct (seek_pos_exists (mkParsed u s t) Hq) as (p & Hp & _). destruct (bi_inv_cursor i Hi) as (k & Hk).
  pose proof Hi as (o0 & _ & Hpc & _).
  destruct (block_SeekForPrev_ok user_Compare w l R Hb _ p _ k _ Hp Hk Hpc) as (c' & pc' & o & Ec & Hpc' & Hc' & Hlast).
  rewrite (last_pos_versions _ _ _ _ Hq Hty Hlast). by eapply (bi_move_prev_ok (fun w => SeekForPrevImpl user_Compare w (encode _))).
Qed.

#[local] Instance this_block_iterator : InternalIterator DataBlockIter := block_iterator user_Compare.

(** The iterator of the block keeps the contract over the versions that were added. *)
#[export] Instance block_iterator_laws : InternalIteratorLaws user_Compare (fun _ => True) bi_inv (fun _ => vs) bi_cur.
Proof.
  constructor.
  - intros i (o & Ho). destruct (bi_at_shows _ _ Ho) as (_ & _ & ->). pose proof Ho as (Ew & Hp & Hc & Hk). cbn. unfold bi_Valid.
    rewrite Ew, (at_opt_Valid _ _ Hc). apply bool_decide_ext. split; [by apply (bi_at_lookup i)|]. intros [v Hv]. by destruct o.
  - intros i (o & Ho). destruct (bi_at_shows _ _ Ho) as (Ek & _ & ->). exact Ek.
  - intros i (o & Ho). destruct (bi_at_shows _ _ Ho) as (_ & Ev & ->). exact Ev.
  - intros i Hi. cbn. by rewrite (bi_inv_status i Hi).
  - done.
  - intros i v _ Hv. split; [|done]. by eapply Forall_forall in Hok.
  - intros i Hi. destruct (block_SeekToFirst_ok w l R Hb _ (bi_inv_status i Hi)) as (c' & Ec & Hc').
    destruct (bi_stands_ok SeekToFirstImpl i c' 0 Hi Ec Hc') as (i' & Ei & Hi' & Ecur). exists i'. split_and!; try done. by rewrite Ecur, head_lookup.
  - intros i Hi. destruct (block_SeekToLast_ok w l R Hb _ (bi_inv_status i Hi)) as (c' & Ec & Hc').
    destruct (bi_stands_ok SeekToLastImpl i c' _ Hi Ec Hc') as (i' & Ei & Hi' & Ecur). exists i'. split_and!; try done.
    by rewrite Ecur, last_lookup, (Forall2_length _ _ _ Hvs).
  - intros i u s t Hi _ Hq. destruct (bi_seek_ok i _ Hi Hq) as (i' & p & Ei & Hi' & Ecur & Hp). exists i', (take p vs), (drop p vs). split_and!; try done.
    by apply seek_pos_split.
  - intros i u s t Hi _ Hq Hty. destruct (bi_seek_for_prev_ok i u s t Hi Hq Hty) as (i' & Ei & Hi' & Ecur). by exists i'.
  - intros i A v B Hi E Hc. destruct (bi_next_ok i A v B Hi E Hc) as (i' & Ei & Hi' & Ecur). by exists i'.
  - intros i A v B Hi E Hc. destruct (bi_prev_ok i A v B Hi E Hc) as (i' & Ei & Hi' & Ecur). by exists i'.
Qed.
End Versions.
