(* ===== verification/BlockBuild.v ===== *)
(** * Building data blocks

    Whatever sorted versions are added to a [BlockBuilder], the block that [Finish]
    returns is laid out the way its iterator reads it: the iterator keeps the contract
    of an internal iterator over these versions. With a hash index, a point lookup
    through it agrees with a seek. *)

From Stdlib Require Import SpecFloat.
From S2P Require Import Prelude Coding Comparator DbFormat Iterator WriteBatch MemTable Hash Block DbIter DbIterCorrect BlockCorrect.

(** ** Runs of the builder *)

Fixpoint add_entries (vs : list version) (b : BlockBuilder) : option BlockBuilder :=
  match vs with
  | [] => Some b
  | v :: vs' => b ← BlockBuilder_Add (encode (v_parsed v)) (v_value v) None b; add_entries vs' b
  end.

(** A builder of data blocks: values are not delta encoded. *)
Definition build_block (interval : Z) (delta : bool) (index_type : DataBlockIndexType) (ratio : spec_float) (vs : list version) : option bytes :=
  b ← BlockBuilder_new interval delta false index_type ratio;
  b ← add_entries vs b;
  '(data, _) ← BlockBuilder_Finish b;
  Some data.

(** The bytes that the entries take at most: three varints, a footer of the key and a restart point each. *)
Definition block_bound (vs : list version) : Z :=
  foldr (fun v n => zlen (v_key v) + zlen (v_value v) + 27 + n) 8 vs.

Lemma block_bound_snoc vs v : block_bound (vs ++ [v]) = block_bound vs + zlen (v_key v) + zlen (v_value v) + 27.
Proof. unfold block_bound. induction vs as [|v' vs IH]; cbn; [lia|]. rewrite IH. lia. Qed.

Lemma block_bound_app vs ws : block_bound vs <= block_bound (vs ++ ws).
Proof.
  induction ws as [|v ws IH] using rev_ind; [by rewrite app_nil_r|]. rewrite app_assoc, block_bound_snoc.
  pose proof (zlen_nonneg (v_key v)). pose proof (zlen_nonneg (v_value v)). lia.
Qed.

Lemma EncodeVarint32_le v : 0 <= v < 2 ^ 32 -> zlen (EncodeVarint32 v) <= 5.
Proof. intros Hv. rewrite EncodeVarint32_loop by done. pose proof (EncodeVarint64_length v 5 ltac:(lia) ltac:(lia)). unfold zlen. lia. Qed.

(** ** Prefixes *)

Lemma difference_offset_le a b : (difference_offset a b <= length a)%nat /\ (difference_offset a b <= length b)%nat.
Proof. revert b. induction a as [|x a IH]; intros [|y b]; cbn; try lia. destruct (x =? y); [|lia]. specialize (IH b). lia. Qed.

Lemma difference_offset_take a b : take (difference_offset a b) b = take (difference_offset a b) a.
Proof. revert b. induction a as [|x a IH]; intros [|y b]; cbn; try done. destruct (Z.eqb_spec x y) as [->|]; [|done]. cbn. by rewrite IH. Qed.

Lemma difference_offset_nil a : difference_offset a [] = O.
Proof. by destruct a. Qed.

(** ** The builder's state *)

Record built (b : BlockBuilder) (vs : list version) (l : list ent) (R : list nat) : Prop := {
  bu_interval : 1 <= bb_block_restart_interval b;
  bu_value_delta : bb_use_value_delta_encoding b = false;
  bu_open : bb_finished b = false;
  bu_buffer : bb_buffer b = encs l;
  bu_restarts : bb_restarts b = off l <$> R;
  bu_linked : linked l;
  bu_holds : Forall2 entry_holds vs l;
  bu_sorted : StronglySorted lt R;
  bu_first : R !! O = Some O;
  bu_points : l <> [] -> forall j, j ∈ R -> exists e, l !! j = Some e /\ e_shared e = O;
  bu_counter : exists r, last R = Some r /\ Z.of_nat r + bb_counter b = zlen l;
  bu_counter_range : 0 <= bb_counter b <= bb_block_restart_interval b;
  bu_last : (l = [] -> bb_last_key b = []) /\ (bb_use_delta_encoding b = true -> forall e, last l = Some e -> bb_last_key b = e_key e);
  bu_estimate : bb_estimate b = zlen (encs l) + 4 * zlen R + 4;
  bu_size : zlen (encs l) + 4 * zlen R + 4 <= block_bound vs
}.

Lemma built_new interval delta index_type ratio : 1 <= interval ->
  exists b, BlockBuilder_new interval delta false index_type ratio = Some b /\ built b [] [] [0%nat].
Proof.
  intros Hi. unfold BlockBuilder_new. rewrite Z.geb_leb, (proj2 (Z.leb_le _ _)) by done. eexists. split; [done|].
  constructor; cbn; try done; try lia.
  - repeat constructor.
  - by exists 0%nat.
Qed.

(** *** Adding an entry at the end *)

Lemma shares_snoc l e' j e : shares l j e -> shares (l ++ [e']) j e.
Proof. intros [?|(p & Ep & ?)]; [by left|]. right. exists p. split; [by apply lookup_app_l_Some|done]. Qed.

Lemma linked_snoc l e : linked l -> (e_shared e <= length (e_key e))%nat ->
  (e_shared e = O \/ exists p, last l = Some p /\ (e_shared e <= length (e_key p))%nat /\ take (e_shared e) (e_key p) = take (e_shared e) (e_key e)) ->
  linked (l ++ [e]).
Proof.
  intros Hl Hs Hp j e' [Ej|[Hj Ej]]%lookup_app_Some.
  - destruct (Hl j e' Ej). split; [done|]. by apply shares_snoc.
  - apply list_lookup_singleton_Some in Ej as [Ej <-]. split; [done|]. destruct Hp as [?|(p & Ep & Hp)]; [by left|]. right. exists p.
    rewrite last_lookup in Ep. replace j with (length l) by lia. split; [by apply lookup_app_l_Some|]. split; [|done]. destruct l; [done|cbn; lia].
Qed.

Lemma encs_snoc l e : encs (l ++ [e]) = encs l ++ enc e.
Proof. rewrite encs_app. unfold encs at 2. cbn. by rewrite app_nil_r. Qed.

Lemma zlen_enc_le e : (e_shared e <= length (e_key e))%nat -> zlen (e_key e) < 2 ^ 32 -> zlen (e_value e) < 2 ^ 32 ->
  zlen (enc e) <= 15 + zlen (e_key e) + zlen (e_value e).
Proof.
  intros Hs Hk Hv. pose proof (zlen_nonneg (e_value e)). unfold enc, enc_lengths. rewrite !zlen_app.
  assert (zlen (drop (e_shared e) (e_key e)) = zlen (e_key e) - Z.of_nat (e_shared e)) by (unfold zlen; rewrite length_drop; lia).
  assert (Z.of_nat (e_shared e) <= zlen (e_key e)) by (unfold zlen; lia).
  pose proof (EncodeVarint32_le (Z.of_nat (e_shared e)) ltac:(lia)). pose proof (EncodeVarint32_le (zlen (e_key e) - Z.of_nat (e_shared e)) ltac:(lia)).
  pose proof (EncodeVarint32_le (zlen (e_value e)) ltac:(lia)). lia.
Qed.

(** What [Add] decides: whether the entry is a restart point, and its shared bytes. *)
Definition restarting (b : BlockBuilder) : bool := bb_counter b >=? bb_block_restart_interval b.

Definition shared_by (b : BlockBuilder) (key : bytes) : nat :=
  if restarting b then O else if bb_use_delta_encoding b then difference_offset key (bb_last_key b) else O.

Definition ent_of (b : BlockBuilder) (v : version) : ent :=
  mkEnt (encode (v_parsed v)) (v_value v) (shared_by b (encode (v_parsed v))).

Lemma shared_by_ok b vs l R key : built b vs l R -> (shared_by b key <= length key)%nat /\
  (shared_by b key = O \/ exists p, last l = Some p /\ (shared_by b key <= length (e_key p))%nat /\
     take (shared_by b key) (e_key p) = take (shared_by b key) key).
Proof.
  intros Hu. unfold shared_by. destruct (restarting b); [split; [lia|by left]|]. destruct (bb_use_delta_encoding b) eqn:Ed; [|split; [lia|by left]].
  destruct (difference_offset_le key (bb_last_key b)) as [H1 H2]. split; [done|]. destruct (bu_last _ _ _ _ Hu) as [Hnil Hlast].
  destruct (last l) as [p|] eqn:El.
  - right. exists p. rewrite (Hlast Ed p eq_refl) in *. split_and!; try done. apply difference_offset_take.
  - left. apply last_None in El. by rewrite (Hnil El), difference_offset_nil.
Qed.

Lemma ent_of_linked b vs l R v : built b vs l R -> linked (l ++ [ent_of b v]).
Proof. intros Hu. destruct (shared_by_ok b vs l R (encode (v_parsed v)) Hu). apply linked_snoc; [by apply (bu_linked _ _ _ _ Hu)|done..]. Qed.

Lemma zlen_version_key v : zlen (encode (v_parsed v)) = zlen (v_key v) + 8.
Proof. apply zlen_encode. Qed.

Lemma ent_of_size b vs l R v : built b vs l R -> version_ok v -> zlen (enc (ent_of b v)) <= zlen (v_key v) + zlen (v_value v) + 23.
Proof.
  intros Hu (Hp & Hk & Hv). destruct (shared_by_ok b vs l R (encode (v_parsed v)) Hu) as [Hs _].
  pose proof (zlen_version_key v) as Ez.
  pose proof (zlen_enc_le (ent_of b v) Hs ltac:(cbn [ent_of e_key]; lia) Hv) as H. cbn [ent_of e_key e_value] in H. cbn [ent_of]. lia.
Qed.

(** What [Add] appends. *)
Lemma Add_buffer b v : version_ok v -> (shared_by b (encode (v_parsed v)) <= length (encode (v_parsed v)))%nat ->
  PutVarint32Varint32Varint32 (bb_buffer b) (u32 (Z.of_nat (shared_by b (encode (v_parsed v)))))
    (u32 (zlen (encode (v_parsed v)) - Z.of_nat (shared_by b (encode (v_parsed v))))) (u32 (zlen (v_value v))) ++
    drop (shared_by b (encode (v_parsed v))) (encode (v_parsed v)) ++ v_value v = bb_buffer b ++ enc (ent_of b v).
Proof.
  intros (Hp & Hk & Hv) Hs. pose proof (zlen_version_key v) as Ez.
  pose proof (zlen_nonneg (v_value v)). assert (Z.of_nat (shared_by b (encode (v_parsed v))) <= zlen (encode (v_parsed v))) by (unfold zlen; lia).
  unfold PutVarint32Varint32Varint32, u32. rewrite !Z.mod_small by lia. unfold enc, enc_lengths, ent_of. cbn [e_key e_value e_shared]. by rewrite <- !app_assoc.
Qed.

(** The hash index after [Add]; [restarts] counts the restart points. *)
Definition hash_after (b : BlockBuilder) (v : version) (restarts : Z) : option DataBlockHashIndexBuilder :=
  if HashBuilder_Valid (bb_hash b) then HashBuilder_Add (ExtractUserKey (encode (v_parsed v))) (restarts - 1) (bb_hash b) else Some (bb_hash b).

Lemma hash_after_some b v restarts : exists h, hash_after b v restarts = Some h.
Proof. unfold hash_after, HashBuilder_Add. destruct (HashBuilder_Valid (bb_hash b)); [|by eexists]. cbn. destruct (_ >? _); by eexists. Qed.

Definition points_after (b : BlockBuilder) (l : list ent) (R : list nat) : list nat := if restarting b then R ++ [length l] else R.

(** A restart point is not behind the last entry. *)
Lemma points_le b vs l R j : built b vs l R -> j ∈ R -> (j <= length l)%nat.
Proof.
  intros Hu [i Ei]%list_elem_of_lookup. destruct (bu_counter _ _ _ _ Hu) as (r & Er & Hr). pose proof (bu_counter_range _ _ _ _ Hu).
  rewrite last_lookup in Er. pose proof (lookup_lt_Some _ _ _ Ei). assert (r <= length l)%nat by (unfold zlen in Hr; lia).
  destruct (decide (i = pred (length R))) as [->|Hi]; [rewrite Ei in Er; by injection Er as ->|].
  pose proof (sorted_lookup _ _ i (pred (length R)) j r (bu_sorted _ _ _ _ Hu) ltac:(lia) Ei Er). lia.
Qed.

Lemma points_eq b vs l R v : built b vs l R -> block_bound vs < 2 ^ 32 ->
  (if restarting b then bb_restarts b ++ [u32 (zlen (bb_buffer b))] else bb_restarts b) = off (l ++ [ent_of b v]) <$> points_after b l R.
Proof.
  intros Hu Hsize. assert (E : off l <$> R = off (l ++ [ent_of b v]) <$> R).
  { apply list_fmap_ext. intros i j Ej. symmetry. apply off_snoc. apply list_elem_of_lookup_2 in Ej. by eapply points_le. }
  unfold points_after. rewrite (bu_restarts _ _ _ _ Hu), (bu_buffer _ _ _ _ Hu). destruct (restarting b); [|done]. rewrite fmap_app, E. f_equal. cbn.
  rewrite off_snoc, off_all by lia. unfold u32. rewrite Z.mod_small; [done|].
  pose proof (bu_size _ _ _ _ Hu). pose proof (zlen_nonneg R). pose proof (zlen_nonneg (encs l)). lia.
Qed.

(** The builder after [Add]. *)
Lemma Add_eq b vs l R v : built b vs l R -> version_ok v -> block_bound vs < 2 ^ 32 -> exists h,
  hash_after b v (zlen (points_after b l R)) = Some h /\
  BlockBuilder_Add (encode (v_parsed v)) (v_value v) None b =
    Some (mkBlockBuilder (bb_block_restart_interval b) (bb_use_delta_encoding b) false (encs (l ++ [ent_of b v]))
            (off (l ++ [ent_of b v]) <$> points_after b l R)
            (zlen (encs (l ++ [ent_of b v])) + 4 * zlen (points_after b l R) + 4)
            ((if restarting b then 0 else bb_counter b) + 1) false
            (if bb_use_delta_encoding b then encode (v_parsed v) else bb_last_key b) h).
Proof.
  intros Hu Hv Hsize. destruct (hash_after_some b v (zlen (points_after b l R))) as (h & Eh). exists h. split; [done|].
  destruct (shared_by_ok b vs l R (encode (v_parsed v)) Hu) as [Hs _].
  pose proof (points_eq b vs l R v Hu Hsize) as ER. unfold BlockBuilder_Add. fold (restarting b). fold (shared_by b (encode (v_parsed v))).
  rewrite (bu_open _ _ _ _ Hu), (bu_value_delta _ _ _ _ Hu), ER. pose proof (bu_counter_range _ _ _ _ Hu) as Hc.
  rewrite (proj2 (Z.leb_le _ _)) by lia. cbn [orb negb andb]. rewrite andb_false_r.
  replace (zlen (off (l ++ [ent_of b v]) <$> points_after b l R)) with (zlen (points_after b l R)) by (unfold zlen; by rewrite length_fmap).
  fold (hash_after b v (zlen (points_after b l R))). rewrite Eh. cbn [mbind option_bind].
  rewrite <- app_assoc, (Add_buffer b v Hv Hs), (bu_buffer _ _ _ _ Hu), <- encs_snoc, (bu_estimate _ _ _ _ Hu). do 2 f_equal.
  unfold points_after. destruct (restarting b); rewrite ?zlen_app; unfold zlen; cbn [length]; lia.
Qed.

Lemma points_sorted b vs l R : built b vs l R -> StronglySorted lt (points_after b l R).
Proof.
  intros Hu. unfold points_after. pose proof (bu_sorted _ _ _ _ Hu) as Hs. destruct (restarting b) eqn:Er; [|done].
  apply StronglySorted_app. split_and!; [intros x1 x2|done|repeat constructor]. intros Hx ->%list_elem_of_singleton.
  pose proof Hx as [i Ei]%list_elem_of_lookup. destruct (bu_counter _ _ _ _ Hu) as (r & Elast & Hr). rewrite last_lookup in Elast.
  unfold restarting in Er. rewrite Z.geb_leb in Er. apply Z.leb_le in Er. pose proof (bu_interval _ _ _ _ Hu).
  assert (r < length l)%nat by (unfold zlen in Hr; lia). pose proof (lookup_lt_Some _ _ _ Ei).
  destruct (decide (i = pred (length R))) as [->|Hi]; [rewrite Ei in Elast; by injection Elast as ->|].
  pose proof (sorted_lookup _ _ i (pred (length R)) x1 r Hs ltac:(lia) Ei Elast). lia.
Qed.

Lemma points_entries b vs l R v j : built b vs l R -> j ∈ points_after b l R -> exists e, (l ++ [ent_of b v]) !! j = Some e /\ e_shared e = O.
Proof.
  intros Hu Hj. assert (Hend : restarting b = true \/ l = [] -> j = length l -> exists e, (l ++ [ent_of b v]) !! j = Some e /\ e_shared e = O).
  { intros Hc ->. exists (ent_of b v). rewrite list_lookup_middle by done. split; [done|]. cbn. unfold shared_by. destruct (restarting b); [done|].
    destruct Hc as [|Hl]; [done|]. destruct (bu_last _ _ _ _ Hu) as [Hnil _]. rewrite (Hnil Hl), difference_offset_nil. by destruct (bb_use_delta_encoding b). }
  unfold points_after in Hj. assert (Hold : j ∈ R -> exists e, (l ++ [ent_of b v]) !! j = Some e /\ e_shared e = O).
  { intros HR. destruct (decide (l = [])) as [El|Hl].
    - apply Hend; [by right|]. pose proof (points_le _ _ _ _ _ Hu HR). rewrite El in *. cbn in *. lia.
    - destruct (bu_points _ _ _ _ Hu Hl j HR) as (e & E & Es). exists e. split; [by apply lookup_app_l_Some|done]. }
  destruct (restarting b) eqn:Er; [|by apply Hold]. apply elem_of_app in Hj as [Hj|Hj%list_elem_of_singleton]; [by apply Hold|]. apply Hend; [by left|done].
Qed.

Lemma points_counter b vs l R v : built b vs l R -> exists r, last (points_after b l R) = Some r /\
  Z.of_nat r + ((if restarting b then 0 else bb_counter b) + 1) = zlen (l ++ [ent_of b v]).
Proof.
  intros Hu. rewrite zlen_app. unfold points_after. destruct (restarting b).
  - exists (length l). rewrite last_snoc. split; [done|]. unfold zlen. cbn. lia.
  - destruct (bu_counter _ _ _ _ Hu) as (r & Er & Hr). exists r. split; [done|]. unfold zlen in *. cbn. lia.
Qed.

Lemma built_add b vs l R v : built b vs l R -> version_ok v -> block_bound (vs ++ [v]) < 2 ^ 32 -> exists b',
  BlockBuilder_Add (encode (v_parsed v)) (v_value v) None b = Some b' /\ built b' (vs ++ [v]) (l ++ [ent_of b v]) (points_after b l R) /\
  hash_after b v (zlen (points_after b l R)) = Some (bb_hash b').
Proof.
  intros Hu Hv Hsize. pose proof (block_bound_app vs [v]). destruct (Add_eq b vs l R v Hu Hv ltac:(lia)) as (h & Eh & Ea).
  eexists. split; [exact Ea|]. split; [|exact Eh]. pose proof (bu_counter_range _ _ _ _ Hu) as Hc. pose proof (bu_interval _ _ _ _ Hu).
  constructor; cbn [bb_block_restart_interval bb_use_delta_encoding bb_use_value_delta_encoding bb_buffer bb_restarts bb_estimate bb_counter bb_finished bb_last_key]; try done.
  - by eapply ent_of_linked.
  - apply Forall2_app; [by apply (bu_holds _ _ _ _ Hu)|]. by repeat constructor.
  - by eapply points_sorted.
  - unfold points_after. pose proof (bu_first _ _ _ _ Hu). destruct (restarting b); [by apply lookup_app_l_Some|done].
  - intros _ j Hj. by eapply points_entries.
  - by eapply points_counter.
  - unfold restarting. rewrite Z.geb_leb. destruct (Z.leb_spec (bb_block_restart_interval b) (bb_counter b)); lia.
  - split; [by destruct l|]. intros Ed e. rewrite last_snoc, Ed. by intros [= <-].
  - rewrite encs_snoc, zlen_app, block_bound_snoc. pose proof (bu_size _ _ _ _ Hu). pose proof (ent_of_size b vs l R v Hu Hv).
    unfold points_after. destruct (restarting b); rewrite ?zlen_app; [change (zlen [length l]) with 1|]; lia.
Qed.

(** *** The hash index *)

(** Entry [j] is in the interval of restart point [r]. *)
Definition covers (R : list nat) (j r : nat) : Prop :=
  (exists a, R !! r = Some a /\ (a <= j)%nat) /\ forall a', R !! S r = Some a' -> (j < a')%nat.

(** What [n] keys add up to. *)
Definition bucket_estimate (per_key : spec_float) (n : nat) : spec_float := Nat.iter n (fun x => double_add x per_key) (S754_zero false).

Definition hashed (h : DataBlockHashIndexBuilder) (vs : list version) (R : list nat) : Prop :=
  HashBuilder_Valid h = true ->
    hb_estimated_num_buckets h = bucket_estimate (hb_bucket_per_key h) (length vs) /\ length (hb_pairs h) = length vs /\
    forall j v, vs !! j = Some v -> exists r, hb_pairs h !! j = Some (GetSliceHash (v_key v), Z.of_nat r) /\ (r <= 253)%nat /\ covers R j r.

Lemma covers_after b l R j r : (j < length l)%nat -> covers R j r -> covers (points_after b l R) j r.
Proof.
  intros Hj [(a & Ea & Ha) Hn]. unfold points_after. destruct (restarting b); [|split; [by exists a|done]]. split.
  - exists a. split; [by apply lookup_app_l_Some|done].
  - intros a' [Ea'|[_ [_ <-]%list_lookup_singleton_Some]]%lookup_app_Some; [by apply Hn|done].
Qed.

Lemma covers_last b vs l R : built b vs l R -> covers (points_after b l R) (length l) (pred (length (points_after b l R))).
Proof.
  intros Hu. destruct (points_counter b vs l R (mkVersion 0 0 [] []) Hu) as (r & Er & Hr). rewrite last_lookup in Er. split.
  - exists r. split; [done|]. rewrite zlen_app in Hr. pose proof (bu_counter_range _ _ _ _ Hu). destruct (restarting b); unfold zlen in Hr; cbn in Hr; lia.
  - intros a' Ha'%lookup_lt_Some. lia.
Qed.

Lemma hashed_add b vs l R v h : built b vs l R -> version_ok v -> hashed (bb_hash b) vs R -> hash_after b v (zlen (points_after b l R)) = Some h ->
  hashed h (vs ++ [v]) (points_after b l R).
Proof.
  intros Hu Hv Hh Eh HV. unfold hash_after in Eh. destruct (HashBuilder_Valid (bb_hash b)) eqn:Eb; [|injection Eh as <-; congruence].
  destruct (Hh Eb) as (He & Hlen & Hp). unfold HashBuilder_Add in Eh. rewrite Eb in Eh. cbn [negb] in Eh.
  set (R' := points_after b l R) in *. pose proof (Forall2_length _ _ _ (bu_holds _ _ _ _ Hu)) as Hl.
  assert (HR : 0 < zlen R'). { destruct (points_counter b vs l R v Hu) as (r & Er & _). fold R' in Er. destruct R'; [done|]. unfold zlen. cbn. lia. }
  rewrite Z.gtb_ltb in Eh. destruct (Z.ltb_spec kMaxRestartSupportedByHashIndex (zlen R' - 1)) as [|Hmax]; injection Eh as <-; [done|].
  cbn [hb_estimated_num_buckets hb_bucket_per_key hb_pairs]. rewrite !length_app, Hlen. split_and!; [|done|].
  - cbn. by rewrite Nat.add_1_r, He.
  - destruct (encode_footer (v_parsed v) ltac:(apply Hv)) as [-> _]. change (pk_user_key (v_parsed v)) with (v_key v).
    intros j v' [Ej|[Hj Ej]]%lookup_app_Some.
    + destruct (Hp j v' Ej) as (r & Er & Hr & Hc). exists r. split_and!; [by apply lookup_app_l_Some|done|]. apply covers_after; [|done].
      apply lookup_lt_Some in Ej. lia.
    + apply list_lookup_singleton_Some in Ej as [Ej <-]. exists (pred (length R')). replace j with (length vs) by lia.
      rewrite list_lookup_middle by done. change kMaxRestartSupportedByHashIndex with 253 in Hmax. unfold zlen in *. split_and!; [|lia|].
      * do 2 f_equal. unfold u8. rewrite Z.mod_small; lia.
      * rewrite Hl. by eapply covers_last.
Qed.

Lemma built_all vs : forall b us l R, built b us l R -> hashed (bb_hash b) us R -> Forall version_ok vs -> block_bound (us ++ vs) < 2 ^ 32 ->
  exists b' l' R', add_entries vs b = Some b' /\ built b' (us ++ vs) l' R' /\ hashed (bb_hash b') (us ++ vs) R' /\
    hb_bucket_per_key (bb_hash b') = hb_bucket_per_key (bb_hash b).
Proof.
  induction vs as [|v vs IH]; intros b us l R Hu Hh Hvs Hsize; [exists b, l, R; by rewrite app_nil_r|]. apply Forall_cons_1 in Hvs as [Hv Hvs].
  replace (us ++ v :: vs) with ((us ++ [v]) ++ vs) in * by (by rewrite <- app_assoc).
  destruct (built_add b us l R v Hu Hv) as (b1 & E1 & Hu1 & Eh); [pose proof (block_bound_app (us ++ [v]) vs); lia|].
  pose proof (hashed_add _ _ _ _ _ _ Hu Hv Hh Eh) as Hh1.
  destruct (IH b1 (us ++ [v]) _ _ Hu1 Hh1 Hvs Hsize) as (b' & l' & R' & E' & Hu' & Hh' & Ek). exists b', l', R'. cbn [add_entries]. rewrite E1, Ek.
  split_and!; try done. unfold hash_after, HashBuilder_Add in Eh. destruct (HashBuilder_Valid (bb_hash b)); [|by injection Eh as ->].
  cbn in Eh. destruct (_ >? _); by injection Eh as <-.
Qed.

(** ** The finished block *)

Definition restart_bytes (l : list ent) (R : list nat) : bytes := concat (memcpy_from 4 <$> (off l <$> R)).

Lemma put_restarts_eq rs buffer : put_restarts rs buffer = buffer ++ concat (memcpy_from 4 <$> rs).
Proof.
  unfold put_restarts. revert buffer. induction rs as [|r rs IH]; intros buffer; cbn [fold_left fmap list_fmap concat]; [by rewrite app_nil_r|].
  rewrite IH. unfold PutFixed32. cbn. by rewrite <- app_assoc.
Qed.

Lemma zlen_fixed_bytes n rs : zlen (concat (memcpy_from n <$> rs)) = Z.of_nat n * zlen rs.
Proof. unfold zlen. induction rs as [|r rs IH]; cbn [fmap list_fmap concat length]; [lia|]. rewrite length_app, memcpy_from_length. lia. Qed.

Lemma drop_fixed_bytes n rs i x : rs !! i = Some x ->
  exists rest, drop (n * i) (concat (memcpy_from n <$> rs)) = memcpy_from n x ++ rest.
Proof.
  revert i. induction rs as [|r rs IH]; intros [|i] E; try done.
  - injection E as ->. rewrite Nat.mul_0_r, drop_0. by eexists.
  - destruct (IH i E) as (rest & Er). exists rest. cbn [fmap list_fmap concat]. rewrite <- Er, drop_app_ge by (rewrite memcpy_from_length; lia).
    f_equal. rewrite memcpy_from_length. lia.
Qed.

Lemma DecodeFixed32_at A x rest : 0 <= x < 2 ^ 32 -> DecodeFixed32 (drop (Z.to_nat (zlen A)) (A ++ memcpy_from 4 x ++ rest)) = x.
Proof.
  intros Hx. unfold zlen. rewrite Nat2Z.id, drop_app_length. unfold DecodeFixed32, DecodeFixed32_on, kLittleEndian. by apply memcpy_to_from_id.
Qed.

Lemma DecodeFixed16_at A x rest : 0 <= x < 2 ^ 16 -> DecodeFixed16 (drop (Z.to_nat (zlen A)) (A ++ memcpy_from 2 x ++ rest)) = x.
Proof.
  intros Hx. unfold zlen. rewrite Nat2Z.id, drop_app_length. unfold DecodeFixed16, DecodeFixed16_on, kLittleEndian. by apply memcpy_to_from_id.
Qed.

Lemma restart_bytes_zlen l R : zlen (restart_bytes l R) = 4 * zlen R.
Proof. unfold restart_bytes. rewrite zlen_fixed_bytes. unfold zlen. rewrite length_fmap. lia. Qed.

(** What follows the entries in a block of the builder. *)
Definition laid_out (w : block_view) (l : list ent) (R : list nat) (tail : bytes) : Prop :=
  vw_data w = encs l ++ restart_bytes l R ++ tail /\ vw_restarts w = zlen (encs l) /\ vw_num_restarts w = zlen R /\
  vw_global_seqno w = kDisableGlobalSequenceNumber.

Lemma off_total l j : off l j <= zlen (encs l).
Proof. rewrite (encs_split l j), zlen_app. unfold off. pose proof (zlen_nonneg (encs (drop j l))). lia. Qed.

Lemma laid_out_ok b vs w l R tail : built b vs l R -> block_bound vs < 2 ^ 32 -> laid_out w l R tail -> block_ok w l R.
Proof.
  intros Hu Hsize (Hd & Hr & Hn & Hg). pose proof (bu_size _ _ _ _ Hu) as Hs. pose proof (zlen_nonneg R). pose proof (zlen_nonneg (encs l)).
  constructor; try done; try lia.
  - by exists (restart_bytes l R ++ tail).
  - by apply (bu_linked _ _ _ _ Hu).
  - intros r j Ej. unfold GetRestartPoint. rewrite Hn, Hr, Hd. pose proof (lookup_lt_Some _ _ _ Ej).
    rewrite (proj2 (Z.ltb_lt _ _)) by (unfold zlen; lia). f_equal.
    destruct (drop_fixed_bytes 4 (off l <$> R) r (off l j)) as (rest & Er); [by rewrite list_lookup_fmap, Ej|]. fold (restart_bytes l R) in Er.
    replace (Z.to_nat (zlen (encs l) + Z.of_nat r * 4)) with (length (encs l) + 4 * r)%nat by (unfold zlen; lia).
    rewrite drop_app_add, drop_app_le by (pose proof (restart_bytes_zlen l R); unfold zlen in *; lia). rewrite Er, <- app_assoc.
    apply (DecodeFixed32_at []). unfold off at 1. pose proof (off_total l j). pose proof (zlen_nonneg (encs (take j l))). unfold off in *. lia.
  - by apply (bu_sorted _ _ _ _ Hu).
  - by apply (bu_first _ _ _ _ Hu).
  - by apply (bu_points _ _ _ _ Hu).
Qed.

(** *** The footer *)

Lemma footer_binary n : 0 <= n < 2 ^ 31 ->
  PackIndexTypeAndNumRestarts kDataBlockBinarySearch n = Some n /\ UnPackIndexTypeAndNumRestarts n = (kDataBlockBinarySearch, n).
Proof.
  intros Hn. unfold PackIndexTypeAndNumRestarts, UnPackIndexTypeAndNumRestarts. change kMaxNumRestarts with (2 ^ 31 - 1). change kNumRestartsMask with (Z.ones 31).
  change (Z.shiftl 1 kDataBlockIndexTypeBitShift) with (2 ^ 31). rewrite Z.gtb_ltb, (proj2 (Z.ltb_ge _ _)) by lia. split; [done|].
  rewrite Z.land_ones, Z.mod_small by lia. replace (Z.land n (2 ^ 31)) with 0; [done|]. symmetry. apply Z.bits_inj'. intros i Hi.
  rewrite Z.land_spec, Z.bits_0, Z.pow2_bits_eqb by lia. destruct (Z.eqb_spec 31 i) as [<-|]; [|by rewrite andb_false_r].
  rewrite andb_true_r. apply Z.testbit_false; [lia|]. by rewrite Z.div_small.
Qed.

Lemma footer_hash n : 0 <= n < 2 ^ 31 -> exists f, 0 <= f < 2 ^ 32 /\
  PackIndexTypeAndNumRestarts kDataBlockBinaryAndHash n = Some f /\ UnPackIndexTypeAndNumRestarts f = (kDataBlockBinaryAndHash, n).
Proof.
  intros Hn. exists (n + 1 * 2 ^ 31). split; [lia|]. unfold PackIndexTypeAndNumRestarts, UnPackIndexTypeAndNumRestarts.
  change kMaxNumRestarts with (2 ^ 31 - 1). change kNumRestartsMask with (Z.ones 31). rewrite Z.gtb_ltb, (proj2 (Z.ltb_ge _ _)) by lia.
  split; [f_equal; by apply lor_shiftl_add|]. rewrite Z.land_ones, Z.mod_add, Z.mod_small by lia.
  change (Z.shiftl 1 kDataBlockIndexTypeBitShift) with (2 ^ 31). destruct (Z.eqb_spec (Z.land (n + 1 * 2 ^ 31) (2 ^ 31)) 0) as [E|]; [|done]. exfalso.
  assert (T : Z.testbit (Z.land (n + 1 * 2 ^ 31) (2 ^ 31)) 31 = true).
  { rewrite Z.land_spec, Z.pow2_bits_true, andb_true_r by lia. apply Z.testbit_true; [lia|]. by rewrite Z.div_add, Z.div_small by lia. }
  rewrite E in T. by rewrite Z.bits_0 in T.
Qed.

(** *** Opening the block *)

Definition opens (data : bytes) (w : block_view) : Prop :=
  exists blk, Block_new data = Some blk /\ NewDataIterator blk kDisableGlobalSequenceNumber = DataBlockIter_Initialize w.

Lemma zlen_memcpy n v : zlen (memcpy_from n v) = Z.of_nat n.
Proof. unfold zlen. by rewrite memcpy_from_length. Qed.

Lemma footer_read A f : 0 <= f < 2 ^ 32 -> DecodeFixed32 (drop (Z.to_nat (zlen (A ++ memcpy_from 4 f) - 4)) (A ++ memcpy_from 4 f)) = f.
Proof.
  intros Hf. rewrite zlen_app, zlen_memcpy. replace (zlen A + Z.of_nat 4 - 4) with (zlen A) by lia.
  rewrite <- (app_nil_r (memcpy_from 4 f)). by apply DecodeFixed32_at.
Qed.

Lemma open_binary l R data : data = encs l ++ restart_bytes l R ++ memcpy_from 4 (zlen R) -> 0 < zlen R -> zlen data < 2 ^ 32 ->
  opens data (mkView data (zlen (encs l)) (zlen R) kDisableGlobalSequenceNumber 0).
Proof.
  intros Hd HR Hsize. pose proof (zlen_nonneg (encs l)). assert (Hlen : zlen data = zlen (encs l) + 4 * zlen R + 4).
  { rewrite Hd, !zlen_app, restart_bytes_zlen, zlen_memcpy. lia. }
  assert (Hf : DecodeFixed32 (drop (Z.to_nat (zlen data - 4)) data) = zlen R) by (rewrite Hd, app_assoc; apply footer_read; lia).
  destruct (footer_binary (zlen R) ltac:(lia)) as [_ Hunpack].
  assert (HN : NumRestarts data = Some (zlen R)).
  { unfold NumRestarts. rewrite Hf, Hunpack, (proj2 (Z.ltb_ge _ _)) by lia. by destruct (_ >? _). }
  assert (HI : Block_IndexType data = Some kDataBlockBinarySearch).
  { unfold Block_IndexType. rewrite Hf, Hunpack, (proj2 (Z.ltb_ge _ _)) by lia. by destruct (_ >? _). }
  unfold opens, Block_new. rewrite (proj2 (Z.ltb_ge _ _)), HN, HI by lia. cbn [mbind option_bind]. unfold u32.
  rewrite !(Z.mod_small (zlen data)), !(Z.mod_small (1 + zlen R)), !Z.mod_small by lia. rewrite Z.gtb_ltb, (proj2 (Z.ltb_ge _ _)) by lia.
  eexists. split; [done|]. unfold NewDataIterator. cbn [bl_size bl_num_restarts bl_data bl_restart_offset bl_num_buckets].
  rewrite (proj2 (Z.ltb_ge _ _)), (proj2 (Z.eqb_neq _ _)) by lia. do 3 f_equal. lia.
Qed.

Lemma open_hash l R buckets n f data : zlen R < 2 ^ 31 -> 0 <= f < 2 ^ 32 -> UnPackIndexTypeAndNumRestarts f = (kDataBlockBinaryAndHash, zlen R) ->
  zlen buckets = n -> 0 < n < 2 ^ 16 ->
  data = encs l ++ restart_bytes l R ++ (buckets ++ memcpy_from 2 n) ++ memcpy_from 4 f -> 0 < zlen R -> zlen data <= 2 ^ 16 ->
  opens data (mkView data (zlen (encs l)) (zlen R) kDisableGlobalSequenceNumber n).
Proof.
  intros HRm Hf0 Hunpack Hb Hn Hd HR Hsize. pose proof (zlen_nonneg (encs l)). assert (Hlen : zlen data = zlen (encs l) + 4 * zlen R + n + 2 + 4).
  { rewrite Hd, !zlen_app, restart_bytes_zlen, !zlen_memcpy. lia. }
  assert (Hf : DecodeFixed32 (drop (Z.to_nat (zlen data - 4)) data) = f) by (rewrite Hd, !app_assoc; by apply footer_read).
  assert (HN : NumRestarts data = Some (zlen R)).
  { unfold NumRestarts. change kMaxBlockSizeSupportedByHashIndex with (2 ^ 16). by rewrite Hf, Hunpack, Z.gtb_ltb, !(proj2 (Z.ltb_ge _ _)) by lia. }
  assert (HI : Block_IndexType data = Some kDataBlockBinaryAndHash).
  { unfold Block_IndexType. change kMaxBlockSizeSupportedByHashIndex with (2 ^ 16). by rewrite Hf, Hunpack, Z.gtb_ltb, !(proj2 (Z.ltb_ge _ _)) by lia. }
  assert (HH : HashIndex_Initialize data (zlen data - 4) = Some (n, zlen (encs l) + 4 * zlen R)).
  { unfold HashIndex_Initialize. rewrite (proj2 (Z.ltb_ge _ _)) by lia.
    assert (En : DecodeFixed16 (drop (Z.to_nat (zlen data - 4 - 2)) data) = n).
    { replace (zlen data - 4 - 2) with (zlen (encs l ++ restart_bytes l R ++ buckets)) by (rewrite !zlen_app, restart_bytes_zlen; lia).
      rewrite Hd, !app_assoc, <- (app_assoc _ (memcpy_from 2 n)). apply DecodeFixed16_at. lia. }
    rewrite En, !Z.gtb_ltb, !(proj2 (Z.ltb_lt _ _)) by lia. cbn [andb]. unfold u16. rewrite Z.mod_small by lia. do 2 f_equal. lia. }
  unfold opens, Block_new. rewrite !(proj2 (Z.ltb_ge _ _)), HN, HI by lia. cbn [mbind option_bind]. unfold u16. rewrite Z.mod_small, HH by lia. cbn [mbind option_bind].
  unfold u32. rewrite Z.mod_small, Z.gtb_ltb, (proj2 (Z.ltb_ge _ _)) by lia. eexists. split; [done|].
  unfold NewDataIterator. cbn [bl_size bl_num_restarts bl_data bl_restart_offset bl_num_buckets].
  rewrite (proj2 (Z.ltb_ge _ _)), (proj2 (Z.eqb_neq _ _)) by lia. do 3 f_equal. lia.
Qed.

(** *** Finish *)

Lemma fill_buckets_length n pairs : forall buckets, length (fill_buckets n pairs buckets) = length buckets.
Proof.
  induction pairs as [|[h r] pairs IH]; intros buckets; [done|]. cbn [fill_buckets]. rewrite IH.
  repeat case_match; by rewrite ?length_insert.
Qed.

Lemma double_to_u16_range x n : double_to_u16 x = Some n -> 0 <= n < 2 ^ 16.
Proof.
  unfold double_to_u16. destruct x as [s|s| |s m e]; try done; [intros [= <-]; lia|].
  assert (Ha : 0 <= (if 0 <=? e then Z.pos m * 2 ^ e else Z.pos m / 2 ^ (- e))).
  { destruct (Z.leb_spec 0 e); [|apply Z.div_pos]; lia. }
  destruct s; [destruct (Z.eqb_spec (if 0 <=? e then Z.pos m * 2 ^ e else Z.pos m / 2 ^ (- e)) 0)|destruct (Z.ltb_spec (if 0 <=? e then Z.pos m * 2 ^ e else Z.pos m / 2 ^ (- e)) (2 ^ 16))];
    intros [= <-]; lia.
Qed.

Lemma lor_one n : 0 <= n < 2 ^ 16 -> 0 < Z.lor n 1 < 2 ^ 16.
Proof.
  intros Hn. assert (0 <= Z.lor n 1) by (apply Z.lor_nonneg; lia). assert (Z.lor n 1 <> 0) by (intros [_ ?]%Z.lor_eq_0_iff; done).
  split; [lia|]. apply Z.log2_lt_pow2; [lia|]. rewrite Z.log2_lor by lia. change (Z.log2 1) with 0. pose proof (Z.log2_nonneg n). rewrite Z.max_l by done.
  destruct (decide (n = 0)) as [->|]; [cbn; lia|]. apply Z.log2_lt_pow2; lia.
Qed.

(** The estimated buckets fit their 16 bits. *)
Definition buckets_fit (h : DataBlockHashIndexBuilder) : Prop :=
  HashBuilder_Valid h = true -> is_Some (double_to_u16 (hb_estimated_num_buckets h)).

(** The table of the hash index, at the end of the block. *)
Definition indexed (w : block_view) (l : list ent) (R : list nat) (pairs : list (Z * Z)) (tail : bytes) : Prop :=
  0 < vw_num_buckets w < 2 ^ 16 /\ zlen (encs l) + 4 * zlen R + vw_num_buckets w <= 2 ^ 16 /\
  exists rest, tail = fill_buckets (vw_num_buckets w) pairs (replicate (Z.to_nat (vw_num_buckets w)) kNoEntry) ++ rest.

Definition finishes (b : BlockBuilder) (l : list ent) (R : list nat) : Prop :=
  exists data b' w tail, BlockBuilder_Finish b = Some (data, b') /\ opens data w /\ laid_out w l R tail /\
    (vw_num_buckets w = 0 \/ (HashBuilder_Valid (bb_hash b) = true /\ indexed w l R (hb_pairs (bb_hash b)) tail)).

Lemma finish_binary b vs l R size : built b vs l R -> block_bound vs < 2 ^ 32 -> CurrentSizeEstimate b = Some size ->
  HashBuilder_Valid (bb_hash b) && (size <=? kMaxBlockSizeSupportedByHashIndex) = false -> finishes b l R.
Proof.
  intros Hu Hsize Es Hh. pose proof (bu_size _ _ _ _ Hu) as Hs. pose proof (zlen_nonneg (encs l)).
  assert (HR : 0 < zlen R). { pose proof (bu_first _ _ _ _ Hu). destruct R; [done|]. unfold zlen. cbn. lia. }
  assert (Er : zlen (bb_restarts b) = zlen R) by (rewrite (bu_restarts _ _ _ _ Hu); unfold zlen; by rewrite length_fmap).
  destruct (footer_binary (zlen R) ltac:(lia)) as [Hp _].
  unfold finishes, BlockBuilder_Finish. rewrite Es. cbn [mbind option_bind]. rewrite Hh, Er. cbn [mbind option_bind]. unfold u32. rewrite Z.mod_small, Hp by lia. cbn [mbind option_bind].
  rewrite put_restarts_eq, (bu_restarts _ _ _ _ Hu), (bu_buffer _ _ _ _ Hu). fold (restart_bytes l R). unfold PutFixed32. cbn [kLittleEndian].
  do 2 eexists. exists (mkView ((encs l ++ restart_bytes l R) ++ memcpy_from 4 (zlen R)) (zlen (encs l)) (zlen R) kDisableGlobalSequenceNumber 0), (memcpy_from 4 (zlen R)).
  split; [done|]. split_and!; [|split_and!; try done; by rewrite <- app_assoc|by left].
  apply open_binary; [by rewrite <- app_assoc|done|]. rewrite !zlen_app, restart_bytes_zlen, zlen_memcpy. lia.
Qed.

Lemma finish_hash b vs l R size : built b vs l R -> buckets_fit (bb_hash b) -> CurrentSizeEstimate b = Some size ->
  HashBuilder_Valid (bb_hash b) = true -> size <= 2 ^ 16 -> finishes b l R.
Proof.
  intros Hu Hfit Es HV Hsize. pose proof (zlen_nonneg (encs l)). destruct (Hfit HV) as [m Em]. pose proof (double_to_u16_range _ _ Em) as Hm.
  pose proof (lor_one m Hm) as Hn. set (n := Z.lor m 1) in *. pose proof Es as Esize. unfold CurrentSizeEstimate, HashBuilder_EstimateSize in Esize.
  rewrite HV, Em in Esize. cbn [mbind option_bind] in Esize. injection Esize as Esize. fold n in Esize. rewrite (bu_estimate _ _ _ _ Hu) in Esize.
  assert (HR : 0 < zlen R). { pose proof (bu_first _ _ _ _ Hu). destruct R; [done|]. unfold zlen. cbn. lia. }
  assert (Er : zlen (bb_restarts b) = zlen R) by (rewrite (bu_restarts _ _ _ _ Hu); unfold zlen; by rewrite length_fmap).
  destruct (footer_hash (zlen R) ltac:(lia)) as (f & Hf & Hp & Hup).
  set (buckets := fill_buckets n (hb_pairs (bb_hash b)) (replicate (Z.to_nat n) kNoEntry)).
  assert (Hlen : zlen buckets = n) by (unfold zlen, buckets; rewrite fill_buckets_length, length_replicate; lia).
  assert (EF : HashBuilder_Finish (bb_hash b) (encs l ++ restart_bytes l R) = Some (((encs l ++ restart_bytes l R) ++ buckets) ++ memcpy_from 2 n)).
  { unfold HashBuilder_Finish, HashBuilder_num_buckets. rewrite HV, Em. cbn [negb mbind option_bind].
    replace (Z.lor (if m =? 0 then 1 else m) 1) with n by (unfold n; by destruct (Z.eqb_spec m 0) as [->|]). fold buckets. unfold PutFixed16. cbn [kLittleEndian].
    change kMaxBlockSizeSupportedByHashIndex with (2 ^ 16). rewrite (proj2 (Z.leb_le _ _)); [done|]. rewrite !zlen_app, restart_bytes_zlen, zlen_memcpy. lia. }
  unfold finishes, BlockBuilder_Finish. rewrite Es. cbn [mbind option_bind]. change kMaxBlockSizeSupportedByHashIndex with (2 ^ 16). rewrite HV, (proj2 (Z.leb_le _ _)) by done.
  cbn [andb]. rewrite put_restarts_eq, (bu_restarts _ _ _ _ Hu), (bu_buffer _ _ _ _ Hu) in *. fold (restart_bytes l R). rewrite EF. cbn [mbind option_bind].
  rewrite Er. unfold u32. rewrite Z.mod_small, Hp by lia. cbn [mbind option_bind]. unfold PutFixed32. cbn [kLittleEndian].
  set (data := (((encs l ++ restart_bytes l R) ++ buckets) ++ memcpy_from 2 n) ++ memcpy_from 4 f).
  assert (Ed : data = encs l ++ restart_bytes l R ++ (buckets ++ memcpy_from 2 n) ++ memcpy_from 4 f) by (unfold data; by rewrite <- !app_assoc).
  do 2 eexists. exists (mkView data (zlen (encs l)) (zlen R) kDisableGlobalSequenceNumber n), ((buckets ++ memcpy_from 2 n) ++ memcpy_from 4 f).
  split; [done|]. split_and!; [|done|right; split; [done|]].
  - eapply (open_hash l R buckets n f); try done; try lia. rewrite Ed, !zlen_app, restart_bytes_zlen, !zlen_memcpy. lia.
  - split_and!; cbn [vw_num_buckets]; try lia. eexists. rewrite <- app_assoc. done.
Qed.

Lemma finish_ok b vs l R : built b vs l R -> block_bound vs < 2 ^ 32 -> buckets_fit (bb_hash b) -> finishes b l R.
Proof.
  intros Hu Hsize Hfit. destruct (HashBuilder_Valid (bb_hash b)) eqn:HV.
  - destruct (Hfit HV) as [m Em]. assert (Es : exists size, CurrentSizeEstimate b = Some size).
    { unfold CurrentSizeEstimate, HashBuilder_EstimateSize. rewrite HV, Em. by eexists. }
    destruct Es as [size Es]. destruct (Z.leb_spec size (2 ^ 16)); [by eapply finish_hash|]. eapply finish_binary; [done..|].
    rewrite HV. apply Z.leb_gt. done.
  - eapply finish_binary; [done..| |by rewrite HV]. unfold CurrentSizeEstimate. rewrite HV. done.
Qed.

(** ** Blocks of sorted versions *)

Definition index_buckets_fit (index_type : DataBlockIndexType) (ratio : spec_float) (n : nat) : Prop :=
  index_type = kDataBlockBinaryAndHash ->
  is_Some (double_to_u16 (bucket_estimate (hb_bucket_per_key (HashBuilder_Initialize ratio HashBuilder_new)) n)).

(** What a run of the builder leaves. *)
Lemma build_block_ok interval delta index_type ratio vs : 1 <= interval -> Forall version_ok vs -> block_bound vs < 2 ^ 32 ->
  index_buckets_fit index_type ratio (length vs) ->
  exists data w l R b tail, build_block interval delta index_type ratio vs = Some data /\ opens data w /\ built b vs l R /\
    hashed (bb_hash b) vs R /\ laid_out w l R tail /\
    (vw_num_buckets w = 0 \/ (HashBuilder_Valid (bb_hash b) = true /\ indexed w l R (hb_pairs (bb_hash b)) tail)).
Proof.
  intros Hi Hok Hsize Hfit. unfold build_block. destruct (built_new interval delta index_type ratio Hi) as (b0 & E0 & Hu0). rewrite E0. cbn [mbind option_bind].
  assert (Eh : bb_hash b0 = match index_type with kDataBlockBinarySearch => HashBuilder_new | kDataBlockBinaryAndHash => HashBuilder_Initialize ratio HashBuilder_new end).
  { unfold BlockBuilder_new in E0. destruct (_ >=? _); [|done]. by injection E0 as <-. }
  assert (Hh0 : hashed (bb_hash b0) [] [0%nat]) by (rewrite Eh; intros _; by destruct index_type).
  destruct (built_all vs b0 [] [] [0%nat] Hu0 Hh0 Hok Hsize) as (b & l & R & E & Hu & Hh & Ek). cbn [app] in *. rewrite E. cbn [mbind option_bind].
  assert (HF : buckets_fit (bb_hash b)).
  { intros HV. destruct (Hh HV) as (-> & _). rewrite Ek, Eh. destruct index_type; [|by apply Hfit]. exfalso.
    unfold HashBuilder_Valid in HV. rewrite Ek, Eh in HV. rewrite andb_comm in HV. done. }
  destruct (finish_ok b vs l R Hu Hsize HF) as (data & b' & w & tail & EF & Ho & Hl & Hx). exists data, w, l, R, b, tail. by rewrite EF.
Qed.

Lemma new_iterator_inv w l : bi_inv w l (DataBlockIter_Initialize w).
Proof. exists None. split_and!; [done|by split; [left|exists O; apply cache_empty]|done|by intros [? ?]]. Qed.

Lemma build_block_laws user_Compare `{!TotalCompare user_Compare} interval delta index_type ratio vs :
  1 <= interval -> Forall version_ok vs -> StronglySorted (vlt user_Compare) vs -> block_bound vs < 2 ^ 32 ->
  index_buckets_fit index_type ratio (length vs) ->
  exists data blk inv, build_block interval delta index_type ratio vs = Some data /\ Block_new data = Some blk /\
    inv (NewDataIterator blk kDisableGlobalSequenceNumber) /\
    InternalIteratorLaws (H := block_iterator user_Compare) user_Compare (fun _ => True) inv (fun _ => vs) bi_cur.
Proof.
  intros Hi Hok Hs Hsize Hfit.
  destruct (build_block_ok interval delta index_type ratio vs Hi Hok Hsize Hfit) as (data & w & l & R & b & tail & E & (blk & Eb & Ei) & Hu & _ & Hl & _).
  exists data, blk, (bi_inv w l). split_and!; [done..| |].
  - rewrite Ei. apply new_iterator_inv.
  - eapply block_iterator_laws; [done|by eapply laid_out_ok|done..|]. by apply (bu_holds _ _ _ _ Hu).
Qed.

(** C9. A block that [BlockBuilder] makes of versions in the order of internal keys is
    read back as these versions: whatever the restart interval is (at least 1), with or
    without delta encoding of the keys and with or without a hash index, the builder
    succeeds while the sizes fit their 32 bits and the estimated buckets their 16; the
    block opens, and its [DataBlockIter] keeps the contract of an internal iterator over
    exactly these versions (positioning, both seeks, and steps in both directions). *)
Theorem block_iterator_contract user_Compare `{!TotalCompare user_Compare} interval delta index_type ratio vs :
  1 <= interval -> Forall version_ok vs -> StronglySorted (vlt user_Compare) vs -> block_bound vs < 2 ^ 32 ->
  index_buckets_fit index_type ratio (length vs) ->
  exists data blk inv, build_block interval delta index_type ratio vs = Some data /\ Block_new data = Some blk /\
    inv (NewDataIterator blk kDisableGlobalSequenceNumber) /\
    InternalIteratorLaws (H := block_iterator user_Compare) user_Compare (fun _ => True) inv (fun _ => vs) bi_cur.
Proof. exact (build_block_laws user_Compare interval delta index_type ratio vs). Qed.

(** ** A concrete block *)

Definition block_versions : list version :=
  [mkVersion 5 kTypeValue [97; 98] [1]; mkVersion 3 kTypeDeletion [97; 98] []; mkVersion 4 kTypeValue [97; 98; 99] [2; 3];
   mkVersion 9 kTypeValue [98] [4]; mkVersion 2 kTypeValue [99] [5; 6]].

Lemma block_versions_ok : Forall version_ok block_versions.
Proof. repeat constructor; vm_compute; reflexivity || discriminate. Qed.

Lemma block_versions_sorted : StronglySorted (vlt BytewiseCompare) block_versions.
Proof. repeat (apply SSorted_cons || apply SSorted_nil || constructor); vm_compute; reflexivity. Qed.

Lemma block_iterator_contract_witness :
  exists data blk i, build_block 2 true kDataBlockBinaryAndHash kDefaultUtilRatio block_versions = Some data /\ Block_new data = Some blk /\
    bi_Seek BytewiseCompare (NewDataIterator blk kDisableGlobalSequenceNumber) (encode (mkParsed [97; 98] 4 kValueTypeForSeek)) = Some i /\
    bi_cur i = Some (mkVersion 3 kTypeDeletion [97; 98] []).
Proof.
  destruct (block_iterator_contract BytewiseCompare 2 true kDataBlockBinaryAndHash kDefaultUtilRatio block_versions) as (data & blk & inv & E & Eb & Hi & Hl).
  - lia.
  - exact block_versions_ok.
  - exact block_versions_sorted.
  - vm_compute. reflexivity.
  - intros _. vm_compute. by eexists.
  - destruct (@ilaw_Seek _ _ _ _ _ _ _ Hl _ [97; 98] 4 kValueTypeForSeek Hi I ltac:(repeat split; vm_compute; discriminate)) as (i & A & B & Es & _ & _ & (Hsp & HA & HB) & Hc).
    exists data, blk, i. split_and!; [exact E|exact Eb|exact Es|]. rewrite Hc.
    destruct A as [|a1 [|a2 A]].
    + exfalso. apply (HB (mkVersion 5 kTypeValue [97; 98] [1])); [cbn in Hsp; rewrite <- Hsp; left|vm_compute; reflexivity].
    + injection Hsp as _ <-. reflexivity.
    + exfalso. injection Hsp as _ <- _. destruct (HA (mkVersion 3 kTypeDeletion [97; 98] [])) as [H|(_ & H & _)]; [right; left|vm_compute in H; discriminate H|vm_compute in H; discriminate H].
Defined.
