(* ===== verification/BlockGet.v ===== *)
(** * Point lookups in data blocks through the hash index

    [SeekForGet] of a block with a hash index looks at one restart interval only. It
    finds the version that [Seek] finds whenever that version has the user key of the
    lookup, and it never shows another version of that key. *)

From Stdlib Require Import SpecFloat.
From S2P Require Import Prelude Coding Comparator DbFormat Iterator WriteBatch MemTable Hash Block DbIter DbIterCorrect BlockCorrect BlockBuild.

(** ** The table of buckets *)

Definition bucket_of (n h : Z) : nat := Z.to_nat (u16 (h mod n)).

Lemma fill_buckets_spec n ps : forall bs x b0, Forall (fun p => 0 <= p.2 <= kMaxRestartSupportedByHashIndex) ps -> bs !! x = Some b0 ->
  exists b, fill_buckets n ps bs !! x = Some b /\ (b0 <> kNoEntry -> b = b0 \/ b = kCollision) /\
    (forall h r, (h, r) ∈ ps -> bucket_of n h = x -> b = r \/ b = kCollision) /\
    (b = b0 \/ b = kCollision \/ exists h r, (h, r) ∈ ps /\ bucket_of n h = x /\ b = r).
Proof.
  induction ps as [|[h r] ps IH]; intros bs x b0 Hps Hx.
  { exists b0. split_and!; [done|by left|by intros ? ? ?%not_elem_of_nil|by left]. }
  apply Forall_cons_1 in Hps as [Hr Hps]. cbn in Hr. change kMaxRestartSupportedByHashIndex with 253 in Hr. cbn [fill_buckets]. fold (bucket_of n h).
  destruct (decide (bucket_of n h = x)) as [Hh|Hh].
  - rewrite Hh, Hx. set (b1 := if b0 =? kNoEntry then r else if negb (b0 =? r) then kCollision else b0).
    assert (Hb1 : (if b0 =? kNoEntry then <[x:=r]> bs else if negb (b0 =? r) then <[x:=kCollision]> bs else bs) !! x = Some b1).
    { unfold b1. pose proof (lookup_lt_Some _ _ _ Hx). destruct (b0 =? kNoEntry); [by apply list_lookup_insert_eq|].
      destruct (negb (b0 =? r)); [by apply list_lookup_insert_eq|done]. }
    destruct (IH _ x b1 Hps Hb1) as (b & Eb & Hkeep & Hin & Hsrc). exists b. split; [done|].
    assert (Hk1 : b1 <> kNoEntry) by (unfold b1, kNoEntry, kCollision; case_bool; cbn; lia).
    assert (H1r : b1 = r \/ b1 = kCollision) by (unfold b1; destruct (Z.eqb_spec b0 kNoEntry); [by left|]; destruct (Z.eqb_spec b0 r); cbn; auto).
    specialize (Hkeep Hk1). split_and!.
    + intros H0. unfold b1 in Hkeep. rewrite (proj2 (Z.eqb_neq _ _) H0) in Hkeep. destruct (Z.eqb_spec b0 r); cbn in Hkeep; tauto.
    + intros h' r' [[= -> ->]|Hin']%elem_of_cons Hx'; [|by eapply Hin]. destruct Hkeep as [->|]; tauto.
    + destruct Hkeep as [->|]; [|tauto]. destruct H1r as [->|]; [|tauto]. right. right. exists h, r. split_and!; [left|done|done].
  - assert (Hbs : match bs !! bucket_of n h with Some b => if b =? kNoEntry then <[bucket_of n h:=r]> bs else if negb (b =? r) then <[bucket_of n h:=kCollision]> bs else bs | None => bs end !! x = Some b0).
    { repeat case_match; by rewrite ?list_lookup_insert_ne. }
    destruct (IH _ x b0 Hps Hbs) as (b & Eb & Hkeep & Hin & Hsrc). exists b. split_and!; try done.
    + intros h' r' [[= -> ->]|Hin']%elem_of_cons Hx'; [done|by eapply Hin].
    + destruct Hsrc as [?|[?|(h' & r' & ? & ? & ?)]]; [tauto..|]. right. right. exists h', r'. split_and!; [by right|done..].
Qed.

Section Get.
Context (user_Compare : bytes -> bytes -> Z) `{!TotalCompare user_Compare} (w : block_view) (l : list ent) (R : list nat) (Hb : block_ok w l R).
Context (vs : list version) (Hok : Forall version_ok vs) (Hsorted : StronglySorted (vlt user_Compare) vs) (Hvs : Forall2 entry_holds vs l).
Context (pairs : list (Z * Z)) (tail : bytes) (Hlay : laid_out w l R tail) (Hix : indexed w l R pairs tail).
Context (Hlen : length pairs = length vs).
Context (Hpairs : forall j v, vs !! j = Some v -> exists r, pairs !! j = Some (GetSliceHash (v_key v), Z.of_nat r) /\ (r <= 253)%nat /\ covers R j r).
Context (HR : zlen R <= 254) (HRle : forall j, j ∈ R -> (j <= length l)%nat).
Abbreviation data := (vw_data w).
Abbreviation restarts := (vw_restarts w).
Abbreviation icmp := (InternalKey_Compare user_Compare).

Lemma pairs_small : Forall (fun p => 0 <= p.2 <= kMaxRestartSupportedByHashIndex) pairs.
Proof.
  apply Forall_lookup_2. intros j p Ep. destruct (lookup_lt_is_Some_2 vs j) as [v Ev]; [rewrite <- Hlen; by eapply lookup_lt_Some|].
  destruct (Hpairs j v Ev) as (r & Er & Hr & _). rewrite Ep in Er. injection Er as ->. cbn. change kMaxRestartSupportedByHashIndex with 253. lia.
Qed.

(** What a lookup in the hash index returns. *)
Definition index_answer (u : bytes) (b : Z) : Prop :=
  (forall j v, vs !! j = Some v -> v_key v = u -> b = kCollision \/ exists r, b = Z.of_nat r /\ (r <= 253)%nat /\ covers R j r) /\
  (b = kNoEntry \/ b = kCollision \/ exists r j, b = Z.of_nat r /\ (r <= 253)%nat /\ covers R j r).

Lemma lookup_table u : HashIndex_Lookup (vw_num_buckets w) data (u32 (restarts + vw_num_restarts w * 4)) u =
  fill_buckets (vw_num_buckets w) pairs (replicate (Z.to_nat (vw_num_buckets w)) kNoEntry) !! bucket_of (vw_num_buckets w) (GetSliceHash u).
Proof.
  destruct Hlay as (Hd & Hr & Hn & _), Hix as (Hnb & Hsize & rest & Ht). pose proof (zlen_nonneg (encs l)). pose proof (zlen_nonneg R).
  unfold HashIndex_Lookup, bucket_of. rewrite Hr, Hn, Hd, Ht. pose proof (Z.mod_pos_bound (GetSliceHash u) (vw_num_buckets w) ltac:(lia)).
  unfold u16, u32. rewrite (Z.mod_small (zlen (encs l) + _) (2 ^ 32)), (Z.mod_small (GetSliceHash u mod _) (2 ^ 16)) by lia.
  replace (Z.to_nat (zlen (encs l) + zlen R * 4 + GetSliceHash u mod vw_num_buckets w))
    with (length (encs l ++ restart_bytes l R) + Z.to_nat (GetSliceHash u mod vw_num_buckets w))%nat
    by (rewrite length_app; pose proof (restart_bytes_zlen l R); unfold zlen in *; lia).
  rewrite app_assoc, lookup_app_r by lia. rewrite Nat.add_comm, Nat.add_sub. apply lookup_app_l. rewrite fill_buckets_length, length_replicate. lia.
Qed.

Lemma lookup_answer u : exists b, HashIndex_Lookup (vw_num_buckets w) data (u32 (restarts + vw_num_restarts w * 4)) u = Some b /\ index_answer u b.
Proof.
  rewrite lookup_table. destruct Hix as ([Hnb _] & _). set (n := vw_num_buckets w) in *.
  assert (Hx : replicate (Z.to_nat n) kNoEntry !! bucket_of n (GetSliceHash u) = Some kNoEntry).
  { apply lookup_replicate. split; [done|]. unfold bucket_of, u16. pose proof (Z.mod_pos_bound (GetSliceHash u) n ltac:(lia)).
    pose proof (Z.mod_le (GetSliceHash u mod n) (2 ^ 16)). pose proof (Z.mod_pos_bound (GetSliceHash u mod n) (2 ^ 16) ltac:(lia)). lia. }
  destruct (fill_buckets_spec n pairs _ _ _ pairs_small Hx) as (b & Eb & _ & Hin & Hsrc). exists b. split; [done|]. split.
  - intros j v Ev <-. destruct (Hpairs j v Ev) as (r & Er & Hr & Hc). apply list_elem_of_lookup_2 in Er.
    destruct (Hin _ _ Er eq_refl) as [->|]; [|by left]. right. by exists r.
  - destruct Hsrc as [?|[?|(h & r & Hp & _ & ->)]]; [tauto..|]. right. right. apply list_elem_of_lookup in Hp as [j Ej].
    destruct (lookup_lt_is_Some_2 vs j) as [v Ev]; [rewrite <- Hlen; by eapply lookup_lt_Some|].
    destruct (Hpairs j v Ev) as (r' & Er & Hr & Hc). rewrite Ej in Er. injection Er as _ ->. by exists r', j.
Qed.

(** *** Scanning a restart interval *)

Definition ended (c : cursor) : Prop := c_current c = restarts /\ c_status c = OK.

Lemma scan_interval_ok t p m lim fuel : forall c i, seek_pos user_Compare l t p -> lim = off l m -> (m <= length l)%nat -> (i <= m)%nat -> (m - i < fuel)%nat ->
  (exists c1, ParseNextDataKey w DecodeEntry (Some lim) c = Some (bool_decide (i < m)%nat, c1) /\ if decide (i < m)%nat then cursor_at w l c1 i else ended c1) ->
  exists c', scan_interval user_Compare w fuel t lim c = Some c' /\ if decide (Nat.max i p < m)%nat then cursor_at w l c' (Nat.max i p) else ended c'.
Proof.
  induction fuel as [|fuel IH]; intros c i Hp Hlim Hm Hi Hf (c1 & E1 & Hc1); [lia|]. cbn [scan_interval]. rewrite E1. cbn [mbind option_bind].
  destruct (decide (i < m)%nat) as [Him|Him].
  - rewrite bool_decide_eq_true_2 by done. pose proof Hc1 as (e & E & _ & Hk & _). rewrite (compare_holds user_Compare w l R Hb c1 _ t Hk). cbn [mbind option_bind].
    rewrite Z.geb_leb. destruct (Z.leb_spec 0 (icmp (e_key e) t)) as [Hge|Hlt].
    + assert (Hpi : (p <= i)%nat). { destruct (Nat.lt_ge_cases i p) as [Hip|]; [|done]. destruct (proj2 Hp i e E) as (H0 & _). specialize (H0 Hip). lia. }
      exists c1. rewrite Nat.max_l by lia. by rewrite decide_True.
    + pose proof (seek_pos_lt user_Compare l t p i e Hp E Hlt). replace (Nat.max i p) with (Nat.max (S i) p) by lia. apply IH; try done; try lia.
      apply (parse_next w l R Hb DecodeEntry c1 i m (Some lim)); try done. by left.
  - rewrite bool_decide_eq_false_2 by done. exists c1. by rewrite decide_False by lia.
Qed.

(** The end of interval [r]. *)
Definition interval_end (r : nat) : nat := match R !! S r with Some a => a | None => length l end.

Lemma interval_end_ok r a : R !! r = Some a -> (a <= interval_end r <= length l)%nat.
Proof.
  intros Ea. pose proof (HRle a (list_elem_of_lookup_2 _ _ _ Ea)). unfold interval_end. destruct (R !! S r) as [a'|] eqn:Ea'; [|lia].
  pose proof (HRle a' (list_elem_of_lookup_2 _ _ _ Ea')). pose proof (sorted_lookup lt R r (S r) a a' (bo_sorted w l R Hb) ltac:(lia) Ea Ea'). lia.
Qed.

Lemma covers_interval j r : (j < length l)%nat -> covers R j r -> exists a, R !! r = Some a /\ (a <= j < interval_end r)%nat.
Proof. intros Hj [(a & Ea & Ha) Hn]. exists a. split; [done|]. split; [done|]. unfold interval_end. destruct (R !! S r) as [a'|]; [by apply Hn|done]. Qed.

(** The scan of interval [r] from its restart point. *)
Lemma scan_from t p r a c : seek_pos user_Compare l t p -> R !! r = Some a -> c_status c = OK -> exists c1 c',
  SeekToRestartPoint w (Z.of_nat r) c = Some c1 /\
  (if u32 (c_restart_index c1 + 1) <? vw_num_restarts w then GetRestartPoint w (u32 (c_restart_index c1 + 1)) else Some restarts) = Some (off l (interval_end r)) /\
  scan_interval user_Compare w (length data + 1) t (off l (interval_end r)) c1 = Some c' /\
  if decide (Nat.max a p < interval_end r)%nat then cursor_at w l c' (Nat.max a p) else ended c'.
Proof.
  intros Hp Ea Hst. destruct (seek_restart w l R Hb c r a Ea Hst) as (c1 & E1 & Hn & Hri & Hst1 & Hsz). pose proof (interval_end_ok r a Ea) as [Hae Hel].
  pose proof (entries_bound w l R Hb) as Hbound. assert (Hr : Z.of_nat r < zlen R) by (apply lookup_lt_Some in Ea; unfold zlen; lia).
  destruct (scan_interval_ok t p (interval_end r) (off l (interval_end r)) (length data + 1) c1 a) as (c' & Ec & Hc); try done; try lia.
  { destruct (decide (a < interval_end r)%nat) as [Hlt|Hge].
    - rewrite bool_decide_eq_true_2 by done. eapply (parse_restart w l R Hb DecodeEntry); try done. by left.
    - rewrite bool_decide_eq_false_2 by done. apply (parse_end w l DecodeEntry c1 a); [cbn; f_equal; lia|done..]. }
  exists c1, c'. split_and!; [done| |done|done].
  rewrite Hri, (bo_num w l R Hb). unfold u32. rewrite Z.mod_small by lia. unfold interval_end. destruct (R !! S r) as [a'|] eqn:Ea'.
  - pose proof (lookup_lt_Some _ _ _ Ea'). rewrite (proj2 (Z.ltb_lt _ _)) by (unfold zlen; lia). rewrite <- (bo_points w l R Hb _ _ Ea'). f_equal. lia.
  - apply lookup_ge_None in Ea'. rewrite (proj2 (Z.ltb_ge _ _)) by (unfold zlen; lia). f_equal. by rewrite (restarts_off w l R Hb).
Qed.

(** *** The lookup *)

(** Between the place of the target and a version of its key there are only versions of that key. *)
Lemma same_key_between q p i j vi vj : (forall i v, vs !! i = Some v -> ((i < p)%nat <-> Parsed_Compare user_Compare (v_parsed v) q < 0)) ->
  (p <= i <= j)%nat -> vs !! i = Some vi -> vs !! j = Some vj -> v_key vj = pk_user_key q -> v_key vi = pk_user_key q.
Proof.
  intros Hp Hij Ei Ej Ek. assert (Hge : ~ Parsed_Compare user_Compare (v_parsed vi) q < 0) by (intros ?%(Hp _ _ Ei); lia).
  rewrite Parsed_lt_spec in Hge by done. cbn in Hge. assert (Hle : user_Compare (v_key vi) (v_key vj) <= 0).
  { destruct (decide (i = j)) as [->|Hne]; [rewrite Ei in Ej; injection Ej as ->; by rewrite cmp_refl|].
    pose proof (sorted_lookup _ _ i j vi vj Hsorted ltac:(lia) Ei Ej) as Hlt. apply vlt_spec in Hlt as [?|[-> _]]; [lia|by rewrite cmp_refl|done]. }
  apply (cmp_eq (Compare := user_Compare)). rewrite Ek in Hle. destruct (Z.lt_trichotomy (user_Compare (v_key vi) (pk_user_key q)) 0) as [?|[?|?]]; [tauto|done|lia].
Qed.

(** The interval that the answer of the index selects. *)
Lemma answer_interval u b : index_answer u b -> b <> kCollision -> exists r a,
  (if b =? kNoEntry then u8 (vw_num_restarts w - 1) else b) = Z.of_nat r /\ R !! r = Some a /\
  forall j v, vs !! j = Some v -> v_key v = u -> (a <= j < interval_end r)%nat.
Proof.
  intros [Hin Hsrc] Hnc. destruct (Z.eqb_spec b kNoEntry) as [Hno|Hno].
  - pose proof (num_pos w l R Hb) as Hn. rewrite (bo_num w l R Hb) in *.
    destruct (lookup_lt_is_Some_2 R (pred (length R))) as [a Ea]; [unfold zlen in Hn; lia|]. exists (pred (length R)), a. split_and!; [|done|].
    + unfold u8, zlen in *. rewrite Z.mod_small; lia.
    + intros j v Ev Ek. destruct (Hin j v Ev Ek) as [?|(r & -> & Hr & _)]; [done|]. change kNoEntry with 255 in Hno. lia.
  - destruct Hsrc as [?|[?|(r & j0 & -> & Hr & (a & Ea & _) & _)]]; [done..|]. exists r, a. split_and!; [done..|].
    intros j v Ev Ek. destruct (Hin j v Ev Ek) as [?|(r' & Er & _ & Hc)]; [done|]. apply Nat2Z.inj in Er as <-.
    destruct (covers_interval j r) as (a' & Ea' & Ha); [rewrite <- (Forall2_length _ _ _ Hvs); by eapply lookup_lt_Some|done|]. rewrite Ea in Ea'. by injection Ea' as <-.
Qed.

(** Where a lookup for [q], whose place is [p], leaves the cursor. *)
Definition got (q : ParsedInternalKey) (p : nat) (res : bool) (c : cursor) : Prop :=
  let missing := forall j v, (p <= j)%nat -> vs !! j = Some v -> v_key v <> pk_user_key q in
  if res then stands w l c p \/ (ended c /\ missing) else (exists j, cursor_at w l c j) /\ missing /\ (p < length vs)%nat.

Lemma SeekForGet_cursor q p c k : parsed_ok q -> seek_pos user_Compare l (encode q) p ->
  (forall i v, vs !! i = Some v -> ((i < p)%nat <-> Parsed_Compare user_Compare (v_parsed v) q < 0)) -> stands w l c k ->
  exists res c', SeekForGetImpl user_Compare w (encode q) c = Some (res, c') /\ got q p res c'.
Proof.
  intros Hq Hp Hspec Hk. pose proof (stands_status w l c k Hk) as Hst. unfold SeekForGetImpl. destruct (encode_footer q Hq) as [-> _].
  destruct (lookup_answer (pk_user_key q)) as (b & -> & Hans). cbn [mbind option_bind].
  assert (Hseek : forall c, (exists k, stands w l c k) -> exists res c', (c ← SeekImpl user_Compare w (encode q) c; Some (true, c)) = Some (res, c') /\ got q p res c').
  { intros c0 [k0 Hk0]. destruct (block_Seek_ok user_Compare w l R Hb _ p _ k0 Hp Hk0) as (c' & -> & Hc'). exists true, c'. split; [done|by left]. }
  destruct (Z.eqb_spec b kCollision) as [Hcol|Hcol]; [by apply Hseek; eauto|].
  destruct (answer_interval _ b Hans Hcol) as (r & a & -> & Ea & Hcov). pose proof (restart_lt w l R Hb r a Ea) as Hr. rewrite (proj2 (Z.ltb_lt _ _)) by lia. cbn [negb].
  destruct (scan_from (encode q) p r a c Hp Ea Hst) as (c1 & c' & -> & Elim & Escan & Hc'). cbn [mbind option_bind]. rewrite Elim. cbn [mbind option_bind].
  rewrite Escan. cbn [mbind option_bind]. destruct (decide (Nat.max a p < interval_end r)%nat) as [Hlt|Hge].
  - pose proof (cursor_at_Valid w l R Hb _ _ Hc') as HV. unfold c_Valid in HV. apply Z.ltb_lt in HV. rewrite (proj2 (Z.eqb_neq _ _)) by lia.
    pose proof Hc' as (e & E & _ & [Hrd _] & _). rewrite Hrd. cbn [mbind option_bind].
    destruct (version_at l vs Hok Hvs _ _ E) as (v & Ev & [Hv _] & [-> _]). destruct (encode_footer (v_parsed v) Hv) as [-> _]. change (pk_user_key (v_parsed v)) with (v_key v).
    destruct (Z.eqb_spec (user_Compare (v_key v) (pk_user_key q)) 0) as [Eq|Ne]; cbn [negb].
    + apply cmp_eq in Eq. assert (Emax : Nat.max a p = p).
      { destruct (Nat.le_gt_cases a p); [lia|]. destruct (lookup_lt_is_Some_2 vs p) as [vp Ep]; [apply lookup_lt_Some in Ev; lia|].
        pose proof (same_key_between q p p _ vp v Hspec ltac:(split; [done|apply Nat.le_max_r]) Ep Ev Eq) as Ek. pose proof (Hcov p vp Ep Ek). lia. }
      rewrite Emax in Hc'. assert (Hs : stands w l c' p) by (apply stands_intro; [|done]; apply lookup_lt_Some in E; lia).
      destruct (_ && _ && _ && _); [by apply Hseek; eauto|]. exists true, c'. split; [done|by left].
    + exists false, c'. split; [done|]. split_and!; [by eexists| |apply lookup_lt_Some in Ev; lia]. intros j vj Hj Ej Ek. destruct Ne. apply cmp_eq.
      pose proof (Hcov j vj Ej Ek). apply (same_key_between q p (Nat.max a p) j v vj); try done. lia.
  - pose proof Hc' as [-> _]. rewrite Z.eqb_refl. exists true, c'. split; [done|]. right. split; [done|]. intros j vj Hj Ej Ek. pose proof (Hcov j vj Ej Ek). lia.
Qed.

Lemma bi_get_ok i q : bi_inv w l i -> parsed_ok q -> 0 < vw_num_buckets w -> exists res i' p, bi_SeekForGet user_Compare i (encode q) = Some (res, i') /\ bi_inv w l i' /\
  (forall i v, vs !! i = Some v -> ((i < p)%nat <-> Parsed_Compare user_Compare (v_parsed v) q < 0)) /\
  let missing := forall j v, (p <= j)%nat -> vs !! j = Some v -> v_key v <> pk_user_key q in
  if res then bi_cur i' = vs !! p \/ (bi_cur i' = None /\ missing) else missing /\ (p < length vs)%nat.
Proof.
  intros Hi Hq Hnb. destruct (seek_pos_exists user_Compare l vs Hok Hsorted Hvs q Hq) as (p & Hp & _ & Hspec). destruct (bi_inv_cursor w l i Hi) as (k & Hk).
  destruct (SeekForGet_cursor q p (bi_cursor i) k Hq Hp Hspec Hk) as (res & c' & Ec & Hg). pose proof Hi as (o0 & Ew & Hpc & _).
  assert (Hat : exists o, at_opt w l c' o /\ if res then o ≫= (vs !!.) = vs !! p \/ (o = None /\ forall j v, (p <= j)%nat -> vs !! j = Some v -> v_key v <> pk_user_key q)
    else (forall j v, (p <= j)%nat -> vs !! j = Some v -> v_key v <> pk_user_key q) /\ (p < length vs)%nat).
  { destruct res; cbn in Hg.
    - destruct Hg as [Hg|[Hg Hm]]; [|exists None; by split; [|right]]. destruct (stands_versions w l vs Hvs c' p Hg) as (o & Ho & Eo). exists o. by split; [|left].
    - destruct Hg as ((j & Hj) & Hm). by exists (Some j). }
  destruct Hat as (o & Ho & Hres). destruct (update_key w l R Hb c' o (bi_key i) Ho) as (k' & Ek & Hk').
  unfold bi_SeekForGet. rewrite Ew, (proj2 (Z.eqb_neq _ _)), Ec by lia. cbn [mbind option_bind]. rewrite Ek. cbn [mbind option_bind].
  assert (Hbi : bi_at w l (mkDataBlockIter (Some w) c' k' (bi_prev i)) o) by (split_and!; done). do 2 eexists. exists p. split; [done|].
  split; [by exists o|]. split; [done|]. destruct (bi_at_shows w l R Hb vs Hok Hvs _ _ Hbi) as (_ & _ & ->). destruct res; [|done]. by destruct Hres as [?|[-> ?]]; [left|right].
Qed.
End Get.

(** A builder with a valid hash index has at most 254 restart points. *)
Lemma hashed_points b vs l R : built b vs l R -> hashed (bb_hash b) vs R -> HashBuilder_Valid (bb_hash b) = true -> zlen R <= 254.
Proof.
  intros Hu Hh HV. destruct (Hh HV) as (_ & _ & Hp). pose proof (Forall2_length _ _ _ (bu_holds _ _ _ _ Hu)) as Hl. unfold zlen.
  destruct (decide (l = [])) as [El|Hne].
  - destruct (R !! 1%nat) as [x|] eqn:Ex; [|apply lookup_ge_None in Ex; lia]. pose proof (points_le _ _ _ _ x Hu (list_elem_of_lookup_2 _ _ _ Ex)).
    pose proof (sorted_lookup lt R 0 1 _ _ (bu_sorted _ _ _ _ Hu) ltac:(lia) (bu_first _ _ _ _ Hu) Ex). rewrite El in *. cbn in *. lia.
  - destruct (lookup_lt_is_Some_2 vs (pred (length vs))) as [v Ev]; [rewrite Hl; destruct l; [done|cbn; lia]|]. destruct (Hp _ _ Ev) as (r & _ & Hr & _ & Hn).
    destruct (R !! S r) as [a|] eqn:Ea; [|apply lookup_ge_None in Ea; lia]. specialize (Hn a eq_refl).
    destruct (bu_points _ _ _ _ Hu Hne a (list_elem_of_lookup_2 _ _ _ Ea)) as (e & E & _). apply lookup_lt_Some in E. lia.
Qed.

(** What a point lookup promises: [B] are the versions from the target on. *)
Definition get_answer (u : bytes) (B : list version) (res : bool) (cur : option version) : Prop :=
  (forall v, head B = Some v -> v_key v = u -> res = true /\ cur = Some v) /\
  (res = true -> cur = head B \/ (cur = None /\ forall v, v ∈ B -> v_key v <> u)) /\
  (res = false -> B <> [] /\ forall v, v ∈ B -> v_key v <> u).

Lemma get_answer_intro u p vs res cur :
  (if res : bool then cur = vs !! p \/ (cur = None /\ forall j v, (p <= j)%nat -> vs !! j = Some v -> v_key v <> u)
   else (forall j v, (p <= j)%nat -> vs !! j = Some v -> v_key v <> u) /\ (p < length vs)%nat) -> get_answer u (drop p vs) res cur.
Proof.
  assert (Hh : head (drop p vs) = vs !! p) by (by rewrite head_lookup, lookup_drop, Nat.add_0_r). unfold get_answer. rewrite Hh.
  assert (Hm : (forall j v, (p <= j)%nat -> vs !! j = Some v -> v_key v <> u) -> forall v, v ∈ drop p vs -> v_key v <> u).
  { intros H v [j Ej]%list_elem_of_lookup. rewrite lookup_drop in Ej. eapply H; [|done]. lia. }
  destruct res; intros H; split_and!; try done.
  - intros v Ev Ek. split; [done|]. destruct H as [->|[_ H]]; [done|]. by destruct (H p v).
  - intros _. destruct H as [?|[? H]]; [by left|right; split; [done|by apply Hm]].
  - intros v Ev Ek. destruct H as [H _]. by destruct (H p v).
  - intros _. destruct H as [H Hlt]. split; [|by apply Hm]. intros E. apply (f_equal length) in E. rewrite length_drop in E. cbn in E. lia.
Qed.

(** C19. A point lookup with the hash index of a block agrees with a seek. For every
    target, the lookup returns; if the first version at or after the target has the user
    key of the target, it says that the key may exist and stands at that version. If it
    says that the key may exist it stands where a seek stands, or nowhere when the block
    has no version of the key at or after the target; if it denies the key there is no
    such version and a larger key is in the block, so none is in a later block. *)
Theorem seek_for_get_agrees user_Compare `{!TotalCompare user_Compare} interval delta index_type ratio vs :
  1 <= interval -> Forall version_ok vs -> StronglySorted (vlt user_Compare) vs -> block_bound vs < 2 ^ 32 ->
  index_buckets_fit index_type ratio (length vs) ->
  exists data blk inv, build_block interval delta index_type ratio vs = Some data /\ Block_new data = Some blk /\
    inv (NewDataIterator blk kDisableGlobalSequenceNumber) /\
    forall i u s t, inv i -> parsed_ok (mkParsed u s t) ->
      exists res i' A B, bi_SeekForGet user_Compare i (encode (mkParsed u s t)) = Some (res, i') /\ inv i' /\
        seek_split user_Compare vs A B (mkVersion s t u []) /\ get_answer u B res (bi_cur i').
Proof.
  intros Hi Hok Hs Hsize Hfit.
  destruct (build_block_ok interval delta index_type ratio vs Hi Hok Hsize Hfit) as (data & w & l & R & b & tail & E & (blk & Eb & Ei) & Hu & Hh & Hl & Hx).
  exists data, blk, (bi_inv w l). split_and!; [done..| |]; [rewrite Ei; apply new_iterator_inv|]. intros i u s t Hinv Hq.
  pose proof (laid_out_ok b vs w l R tail Hu Hsize Hl) as Hbo. pose proof (bu_holds _ _ _ _ Hu) as Hvs. destruct Hx as [H0|[HV Hix]].
  - destruct (bi_seek_ok user_Compare w l R Hbo vs Hok Hs Hvs i _ Hinv Hq) as (i' & p & Es & Hi' & Ec & Hp). exists true, i', (take p vs), (drop p vs).
    split_and!; [|done|by apply seek_pos_split|].
    + unfold bi_SeekForGet. pose proof Hinv as (o & Ew & _). by rewrite Ew, H0, Es.
    + apply get_answer_intro. left. by rewrite Ec, head_lookup, lookup_drop, Nat.add_0_r.
  - destruct (Hh HV) as (_ & Hlen & Hp). pose proof (hashed_points _ _ _ _ Hu Hh HV) as HR.
    destruct (bi_get_ok user_Compare w l R Hbo vs Hok Hs Hvs _ tail Hl Hix Hlen Hp HR (fun j => points_le _ _ _ _ j Hu) i _ Hinv Hq) as (res & i' & p & Es & Hi' & Hspec & Hres); [apply Hix|].
    exists res, i', (take p vs), (drop p vs). split_and!; [done|done|by apply seek_pos_split|by apply get_answer_intro].
Qed.

(** The lookup of an older version than the block has of a key: the scan ends with the
    second of three intervals, and the iterator is not valid although a larger key follows. *)
Lemma seek_for_get_agrees_witness :
  exists data blk i A B, build_block 2 true kDataBlockBinaryAndHash kDefaultUtilRatio block_versions = Some data /\ Block_new data = Some blk /\
    bi_SeekForGet BytewiseCompare (NewDataIterator blk kDisableGlobalSequenceNumber) (encode (mkParsed [98] 5 kValueTypeForSeek)) = Some (true, i) /\
    bi_Valid i = false /\
    seek_split BytewiseCompare block_versions A B (mkVersion 5 kValueTypeForSeek [98] []) /\ get_answer [98] B true (bi_cur i).
Proof.
  destruct (seek_for_get_agrees BytewiseCompare 2 true kDataBlockBinaryAndHash kDefaultUtilRatio block_versions) as (data & blk & inv & E & Eb & Hi & Hget).
  - lia.
  - exact block_versions_ok.
  - exact block_versions_sorted.
  - vm_compute. reflexivity.
  - intros _. vm_compute. by eexists.
  - destruct (Hget _ [98] 5 kValueTypeForSeek Hi ltac:(repeat split; vm_compute; discriminate)) as (res & i & A & B & Es & _ & Hsp & Hans).
    exists data, blk, i, A, B. pose proof E as E'. vm_compute in E'. injection E' as <-. pose proof Eb as Eb'. vm_compute in Eb'. injection Eb' as <-.
    pose proof Es as Es'. vm_compute in Es'. injection Es' as <- <-. split_and!; [exact E|exact Eb|exact Es|vm_compute; reflexivity|exact Hsp|exact Hans].
Defined.

(** ** Corrupted blocks *)

Lemma GetVarintPtr_loop_range maxshift p : forall shift result v q, 0 <= result < 2 ^ 32 ->
  GetVarintPtr_loop u32 maxshift p shift result = Some (v, q) -> 0 <= v < 2 ^ 32.
Proof.
  induction p as [|b p IH]; intros shift result v q Hr; [done|]. cbn [GetVarintPtr_loop].
  assert (Hl : forall x, 0 <= Z.lor result (u32 x) < 2 ^ 32).
  { intros x. pose proof (u32_range x) as Hx. assert (H0 : 0 <= Z.lor result (u32 x)) by (apply Z.lor_nonneg; lia). split; [done|].
    destruct (decide (Z.lor result (u32 x) = 0)) as [->|]; [lia|]. apply Z.log2_lt_pow2; [lia|]. rewrite Z.log2_lor by lia. apply Z.max_lub_lt;
      (destruct (decide (0 < result)), (decide (0 < u32 x)); try (apply Z.log2_lt_pow2; lia); rewrite Z.log2_nonpos by lia; lia). }
  destruct (_ <=? _); [|done]. destruct (negb _); [by apply IH|]. intros [= <- <-]. apply Hl.
Qed.

Lemma GetVarint32Ptr_range p v q : is_bytes p -> GetVarint32Ptr p = Some (v, q) -> 0 <= v < 2 ^ 32 /\ is_bytes q /\ (length q < length p)%nat.
Proof.
  intros Hp E. rewrite GetVarint32Ptr_fallback in E by done. split; [eapply GetVarintPtr_loop_range; [|exact E]; lia|].
  unfold GetVarint32PtrFallback in E. split; [|by eapply GetVarintPtr_loop_shorter].
  revert E. generalize 0 at 1 as shift. generalize 0 as result. induction p as [|b p IH]; intros result shift; [done|]. cbn [GetVarintPtr_loop].
  apply Forall_cons_1 in Hp as [_ Hp]. repeat case_match; try done; [by apply IH|]. by intros [= _ <-].
Qed.

Lemma decode_lengths_range s a b c rest : is_bytes s -> decode_lengths s = Some (a, b, c, rest) ->
  0 <= a < 2 ^ 32 /\ 0 <= b < 2 ^ 32 /\ 0 <= c < 2 ^ 32 /\ (length rest + 3 <= length s)%nat.
Proof.
  intros Hs. unfold decode_lengths. destruct s as [|x [|y [|z s]]]; [done..|]. pose proof Hs as Hall.
  apply Forall_cons_1 in Hall as [Hx [Hy [Hz _]%Forall_cons_1]%Forall_cons_1]. destruct (_ <? 128).
  - intros [= -> -> -> ->]. cbn. unfold is_byte in *. split_and!; lia.
  - destruct (GetVarint32Ptr (x :: y :: z :: s)) as [[a' s1]|] eqn:E1; [|done]. cbn [mbind option_bind]. destruct (GetVarint32Ptr_range _ _ _ Hs E1) as (? & Hs1 & ?).
    destruct (GetVarint32Ptr s1) as [[b' s2]|] eqn:E2; [|done]. cbn [mbind option_bind]. destruct (GetVarint32Ptr_range _ _ _ Hs1 E2) as (? & Hs2 & ?).
    destruct (GetVarint32Ptr s2) as [[c' s3]|] eqn:E3; [|done]. cbn [mbind option_bind]. destruct (GetVarint32Ptr_range _ _ _ Hs2 E3) as (? & Hs3 & ?).
    intros [= <- <- <- <-]. cbn [length] in *. split_and!; lia.
Qed.

(** A block of 24 bytes whose only entry says it has 2 ^ 32 - 1 bytes of key and 10 of value. *)
Definition overflowing_block : bytes :=
  [0] ++ EncodeVarint32 (2 ^ 32 - 1) ++ EncodeVarint32 10 ++ replicate 9 0 ++ EncodeFixed32 0 ++ EncodeFixed32 1.

(** C30. The decoder for blocks that may be corrupt never runs into an assertion and reads
    no byte behind its limit; an entry that it accepts lies in front of the limit, unless
    the lengths of its key and value add up to 2^32 or more. The sum wraps around there:
    for one block of 24 bytes, [SeekToFirstOrReport] reports no corruption and leaves a
    valid iterator whose key is 4 GiB long and not inside the block. *)
Theorem check_decode_bounds data p limit :
  is_bytes data -> 0 <= p <= limit -> limit <= zlen data -> zlen data < 2 ^ 32 ->
  (exists r, CheckAndDecodeEntry data p limit = Some r /\
     forall shared non_shared value_length q, r = Some (shared, non_shared, value_length, q) ->
       p + 3 <= q <= limit /\ (q + non_shared + value_length <= limit \/ 2 ^ 32 <= non_shared + value_length)) /\
  (exists blk i, Block_new overflowing_block = Some blk /\
     bi_SeekToFirstOrReport (NewDataIterator blk kDisableGlobalSequenceNumber) = Some i /\
     bi_Valid i = true /\ c_status (bi_cursor i) = OK /\ bi_key i = InBlock 7 (2 ^ 32 - 1) /\ bi_show_key i = None).
Proof.
  intros Hd Hp Hl Hsize. split.
  - unfold CheckAndDecodeEntry. destruct (Z.ltb_spec (limit - p) 3) as [|H3]; [by exists None|].
    assert (Hlen : zlen (segment data p limit) = limit - p) by (unfold segment, zlen in *; rewrite length_take, length_drop; lia).
    assert (Hseg : is_bytes (segment data p limit)) by (by apply Forall_take, Forall_drop).
    destruct (decode_lengths (segment data p limit)) as [[[[a b] c] rest]|] eqn:E; [|by exists None].
    destruct (decode_lengths_range _ _ _ _ _ Hseg E) as (Ha & Hb & Hc & Hrest). unfold zlen in Hlen.
    assert (Hr : u32 (zlen rest) = zlen rest) by (unfold u32, zlen in *; rewrite Z.mod_small; lia). rewrite Hr.
    destruct (Z.ltb_spec (zlen rest) (u32 (b + c))) as [|Hge]; [by exists None|]. eexists. split; [done|].
    intros ? ? ? ? [= <- <- <- <-]. unfold zlen in *. split; [lia|]. destruct (Z.le_gt_cases (2 ^ 32) (b + c)) as [|Hlt]; [by right|left].
    unfold u32 in Hge. rewrite Z.mod_small in Hge by lia. lia.
  - eexists. eexists. split; [vm_compute; reflexivity|]. split; [vm_compute; reflexivity|]. repeat split; vm_compute; reflexivity.
Qed.

Lemma check_decode_bounds_witness :
  exists r, CheckAndDecodeEntry overflowing_block 0 16 = Some r /\
    forall shared non_shared value_length q, r = Some (shared, non_shared, value_length, q) ->
      0 + 3 <= q <= 16 /\ (q + non_shared + value_length <= 16 \/ 2 ^ 32 <= non_shared + value_length).
Proof.
  destruct (check_decode_bounds overflowing_block 0 16) as [H _]; [|lia|vm_compute; discriminate|vm_compute; reflexivity|exact H].
  repeat constructor; vm_compute; reflexivity || discriminate.
Defined.
