(* ===== verification/CompactionIter.v ===== *)
(** * The compaction iterator ([db/compaction/compaction_iterator.cc])

    What flushes and compactions write: of the versions of their input, those that some
    snapshot, or a reader of the newest state, can still see. The input is any internal
    iterator. Modelled for stores without a merge operator, compaction filter, snapshot
    checker and range tombstones, and without a shutdown or a pause meanwhile; statistics
    are left out. A failed assertion and a loop that outruns its fuel are [None]. *)

From S2P Require Import Prelude Coding Comparator DbFormat Iterator WriteBatch MemTable DbIter.

(** ** Compaction ([db/compaction/compaction.cc]) *)

(** The boundaries of a file, as user keys. *)
Record FileMetaData := mkFileMetaData { f_smallest : bytes; f_largest : bytes }.

Record Compaction := mkCompaction {
  co_bottommost_level : bool;
  co_output_level : nat;
  co_number_levels : nat;
  co_style_level : bool;                 (* compaction_style == kCompactionStyleLevel *)
  co_levels : list (list FileMetaData);  (* LevelFiles *)
  co_allow_ingest_behind : bool;
  co_preserve_deletes : bool
}.

Section Beyond.
Context (user_Compare : bytes -> bytes -> Z) (cp : Compaction).

(** The files of a level from the pointer [p] on: whether the key falls in the range of
    the first file that does not end before it, and the new pointer. *)
Fixpoint scan_files (user_key : bytes) (files : list FileMetaData) (p : nat) : bool * nat :=
  match files with
  | [] => (false, p)
  | f :: files' =>
      if user_Compare user_key (f_largest f) <=? 0 then (user_Compare user_key (f_smallest f) >=? 0, p)
      else scan_files user_key files' (S p)
  end.

Fixpoint check_levels (n lvl : nat) (user_key : bytes) (level_ptrs : list nat) : option (bool * list nat) :=
  match n with
  | O => Some (true, level_ptrs)
  | S n' =>
      files ← co_levels cp !! lvl;
      p ← level_ptrs !! lvl;
      let '(hit, p') := scan_files user_key (drop p files) p in
      let level_ptrs := <[lvl := p']> level_ptrs in
      if hit : bool then Some (false, level_ptrs) else check_levels n' (S lvl) user_key level_ptrs
  end.

Definition KeyNotExistsBeyondOutputLevel (user_key : bytes) (level_ptrs : list nat) : option (bool * list nat) :=
  if negb (length level_ptrs =? co_number_levels cp)%nat then None
  else if co_bottommost_level cp then Some (true, level_ptrs)
  else if negb (co_output_level cp =? 0)%nat && co_style_level cp
  then check_levels (co_number_levels cp - S (co_output_level cp)) (S (co_output_level cp)) user_key level_ptrs
  else Some (false, level_ptrs).
End Beyond.

(** ** The iterator *)

Record CompactionOptions := mkCompactionOptions {
  ci_Compare : bytes -> bytes -> Z;
  ci_snapshots : list Z;
  ci_earliest_write_conflict_snapshot : Z;
  ci_expect_valid_internal_key : bool;
  ci_compaction : option Compaction;
  ci_preserve_deletes_seqnum : Z
}.

(** [key_] is always a slice of [current_key_]; both are [ci_key]. *)
Record CompactionIterator (I : Type) := mkCompactionIterator {
  ci_input : I;
  ci_valid : bool;
  ci_at_next : bool;
  ci_key : bytes;
  ci_value : bytes;
  ci_status : Status;
  ci_ikey : ParsedInternalKey;
  ci_has_current_user_key : bool;
  ci_current_user_key : bytes;
  ci_current_user_key_sequence : Z;
  ci_current_user_key_snapshot : Z;
  ci_has_outputted_key : bool;
  ci_clear_and_output_next_key : bool;
  ci_level_ptrs : list nat
}.
Arguments mkCompactionIterator {I}.
Arguments ci_input {I}.
Arguments ci_valid {I}.
Arguments ci_at_next {I}.
Arguments ci_key {I}.
Arguments ci_value {I}.
Arguments ci_status {I}.
Arguments ci_ikey {I}.
Arguments ci_has_current_user_key {I}.
Arguments ci_current_user_key {I}.
Arguments ci_current_user_key_sequence {I}.
Arguments ci_current_user_key_snapshot {I}.
Arguments ci_has_outputted_key {I}.
Arguments ci_clear_and_output_next_key {I}.
Arguments ci_level_ptrs {I}.

Section Iterator.
Context {I : Type} `{InternalIterator I} (o : CompactionOptions) (fuel : nat).
Implicit Types c : CompactionIterator I.

Definition ci_set_input (i : I) c : CompactionIterator I :=
  mkCompactionIterator i (ci_valid c) (ci_at_next c) (ci_key c) (ci_value c) (ci_status c) (ci_ikey c) (ci_has_current_user_key c)
    (ci_current_user_key c) (ci_current_user_key_sequence c) (ci_current_user_key_snapshot c) (ci_has_outputted_key c)
    (ci_clear_and_output_next_key c) (ci_level_ptrs c).

Definition ci_set_valid (valid at_next : bool) c : CompactionIterator I :=
  mkCompactionIterator (ci_input c) valid at_next (ci_key c) (ci_value c) (ci_status c) (ci_ikey c) (ci_has_current_user_key c)
    (ci_current_user_key c) (ci_current_user_key_sequence c) (ci_current_user_key_snapshot c) (ci_has_outputted_key c)
    (ci_clear_and_output_next_key c) (ci_level_ptrs c).

Definition ci_set_entry (key value : bytes) (ikey : ParsedInternalKey) c : CompactionIterator I :=
  mkCompactionIterator (ci_input c) (ci_valid c) (ci_at_next c) key value (ci_status c) ikey (ci_has_current_user_key c)
    (ci_current_user_key c) (ci_current_user_key_sequence c) (ci_current_user_key_snapshot c) (ci_has_outputted_key c)
    (ci_clear_and_output_next_key c) (ci_level_ptrs c).

Definition ci_set_user_key (has_current : bool) (user_key : bytes) (sequence snapshot : Z) c : CompactionIterator I :=
  mkCompactionIterator (ci_input c) (ci_valid c) (ci_at_next c) (ci_key c) (ci_value c) (ci_status c) (ci_ikey c) has_current
    user_key sequence snapshot (ci_has_outputted_key c) (ci_clear_and_output_next_key c) (ci_level_ptrs c).

Definition ci_set_flags (has_outputted clear_next : bool) (level_ptrs : list nat) c : CompactionIterator I :=
  mkCompactionIterator (ci_input c) (ci_valid c) (ci_at_next c) (ci_key c) (ci_value c) (ci_status c) (ci_ikey c) (ci_has_current_user_key c)
    (ci_current_user_key c) (ci_current_user_key_sequence c) (ci_current_user_key_snapshot c) has_outputted clear_next level_ptrs.

Definition ci_set_status (s : Status) c : CompactionIterator I :=
  mkCompactionIterator (ci_input c) (ci_valid c) (ci_at_next c) (ci_key c) (ci_value c) s (ci_ikey c) (ci_has_current_user_key c)
    (ci_current_user_key c) (ci_current_user_key_sequence c) (ci_current_user_key_snapshot c) (ci_has_outputted_key c)
    (ci_clear_and_output_next_key c) (ci_level_ptrs c).

(** The constructor asserts that the snapshots ascend. *)
Fixpoint ascending (l : list Z) : bool :=
  match l with
  | x :: (y :: _) as l' => (x <? y) && ascending l'
  | _ => true
  end.

Definition CompactionIterator_new (input : I) : option (CompactionIterator I) :=
  if ascending (ci_snapshots o)
  then Some (mkCompactionIterator input false false [] [] OK (mkParsed [] 0 0) false [] 0 0 false false
               (match ci_compaction o with Some cp => replicate (co_number_levels cp) O | None => [] end))
  else None.

Definition bottommost_level : bool := match ci_compaction o with Some cp => co_bottommost_level cp | None => false end.
Definition earliest_snapshot : Z := match ci_snapshots o with [] => kMaxSequenceNumber | s :: _ => s end.

(** [std::lower_bound]: the last snapshot before [seq] (or [prev]) and the first that sees it. *)
Fixpoint lower_bound (prev : Z) (snapshots : list Z) (seq : Z) : Z * Z :=
  match snapshots with
  | [] => (prev, kMaxSequenceNumber)
  | s :: snapshots' => if s <? seq then lower_bound s snapshots' seq else (prev, s)
  end.

Definition findEarliestVisibleSnapshot (seq : Z) : option (Z * Z) :=
  match ci_snapshots o with
  | [] => None
  | _ => Some (lower_bound 0 (ci_snapshots o) seq)
  end.

Definition ikeyNotNeededForIncrementalSnapshot (cp : Compaction) (ikey : ParsedInternalKey) : bool :=
  negb (co_preserve_deletes cp) || (pk_sequence ikey <? ci_preserve_deletes_seqnum o).

Definition same_user_key (a b : bytes) : bool := ci_Compare o a b =? 0.

(** What [ParseInternalKey] leaves in its result where it fails. *)
Definition ParseInternalKey_failed (key : bytes) (old : ParsedInternalKey) : ParsedInternalKey :=
  if zlen key <? 8 then old
  else let num := DecodeFixed64 (footer_ptr key) in mkParsed (ExtractUserKey key) (Z.shiftr num 8) (u8 (Z.land num 255)).

(** The key of the current entry becomes the current key. *)
Definition enter_key (key value : bytes) (ikey : ParsedInternalKey) c : CompactionIterator I :=
  if negb (ci_has_current_user_key c) || negb (same_user_key (pk_user_key ikey) (ci_current_user_key c))
  then ci_set_flags false (ci_clear_and_output_next_key c) (ci_level_ptrs c)
         (ci_set_user_key true (pk_user_key ikey) kMaxSequenceNumber 0 (ci_set_entry key value ikey c))
  else
    let key := UpdateInternalKey (ci_key c) (pk_sequence ikey) (pk_type ikey) in
    ci_set_entry key value (mkParsed (ExtractUserKey key) (pk_sequence ikey) (pk_type ikey)) c.

(** The entry under the input iterator, if its user key is that of [ikey]. *)
Definition peek_same_key (ikey : ParsedInternalKey) (i : I) : option (option ParsedInternalKey) :=
  if Valid i then
    k ← key i;
    Some (next_ikey ← ParseInternalKey k; if same_user_key (pk_user_key ikey) (pk_user_key next_ikey) then Some next_ikey else None)
  else Some None.

(** Whether [next] is in the same snapshot as an entry whose previous snapshot is [prev]. *)
Definition in_same_snapshot (prev_snapshot : Z) (next : ParsedInternalKey) : bool :=
  (prev_snapshot =? 0) || (pk_sequence next >? prev_snapshot).

Definition key_not_beyond (cp : Compaction) c : option (bool * CompactionIterator I) :=
  '(r, level_ptrs) ← KeyNotExistsBeyondOutputLevel (ci_Compare o) cp (pk_user_key (ci_ikey c)) (ci_level_ptrs c);
  Some (r, ci_set_flags (ci_has_outputted_key c) (ci_clear_and_output_next_key c) level_ptrs c).

(** *** The cases of [NextFromInput] *)

Definition single_deletion (prev_snapshot : Z) c : option (CompactionIterator I) :=
  let ikey := ci_ikey c in
  i ← Next (ci_input c);
  next ← peek_same_key ikey i;
  c ← match next with
      | Some next_ikey =>
          if in_same_snapshot prev_snapshot next_ikey then
            if pk_type next_ikey =? kTypeSingleDeletion then Some (ci_set_input i c)
            else if ci_has_outputted_key c || (pk_sequence ikey <=? ci_earliest_write_conflict_snapshot o)
            then i ← Next i; Some (ci_set_input i c)
            else Some (ci_set_flags (ci_has_outputted_key c) true (ci_level_ptrs c) (ci_set_valid true (ci_at_next c) (ci_set_input i c)))
          else Some (ci_set_valid true (ci_at_next c) (ci_set_input i c))
      | None =>
          let c := ci_set_user_key false (ci_current_user_key c) (ci_current_user_key_sequence c) (ci_current_user_key_snapshot c) (ci_set_input i c) in
          '(obsolete, c) ← match ci_compaction o with
                           | Some cp => if pk_sequence ikey <=? earliest_snapshot then key_not_beyond cp c else Some (false, c)
                           | None => Some (false, c)
                           end;
          Some (if obsolete : bool then c else ci_set_valid true (ci_at_next c) c)
      end;
  Some (if ci_valid c then ci_set_valid true true c else c).

(** The tests for a deletion that nothing older needs. *)
Definition obsolete_deletion c : option (bool * CompactionIterator I) :=
  let ikey := ci_ikey c in
  match ci_compaction o with
  | Some cp =>
      if (pk_type ikey =? kTypeDeletion) && (pk_sequence ikey <=? earliest_snapshot) && ikeyNotNeededForIncrementalSnapshot cp ikey
      then key_not_beyond cp c else Some (false, c)
  | None => Some (false, c)
  end.

Definition bottommost_deletion_case (ikey : ParsedInternalKey) : bool :=
  match ci_compaction o with
  | Some cp => (pk_type ikey =? kTypeDeletion) && co_bottommost_level cp && ikeyNotNeededForIncrementalSnapshot cp ikey
  | None => false
  end.

(** Over the versions of the key in the same snapshot. *)
Fixpoint skip_snapshot (n : nat) (prev_snapshot : Z) (ikey : ParsedInternalKey) (i : I) : option I :=
  match n with
  | O => None
  | S n' =>
      next ← peek_same_key ikey i;
      match next with
      | Some next_ikey => if in_same_snapshot prev_snapshot next_ikey then i ← Next i; skip_snapshot n' prev_snapshot ikey i else Some i
      | None => Some i
      end
  end.

Definition bottommost_deletion (prev_snapshot : Z) c : option (CompactionIterator I) :=
  i ← Next (ci_input c);
  i ← skip_snapshot fuel prev_snapshot (ci_ikey c) i;
  next ← peek_same_key (ci_ikey c) i;
  Some (match next with Some _ => ci_set_valid true true (ci_set_input i c) | None => ci_set_input i c end).

(** One round for a key that was parsed; the flag says that the function returns. *)
Definition process_key c : option (bool * CompactionIterator I) :=
  let ikey := ci_ikey c in
  let last_sequence := ci_current_user_key_sequence c in
  let last_snapshot := ci_current_user_key_snapshot c in
  '(prev_snapshot, snapshot) ← (if bool_decide (ci_snapshots o = []) then Some (0, earliest_snapshot) else findEarliestVisibleSnapshot (pk_sequence ikey));
  let c := ci_set_user_key (ci_has_current_user_key c) (ci_current_user_key c) (pk_sequence ikey) snapshot c in
  if ci_clear_and_output_next_key c then
    if negb (pk_type ikey =? kTypeValue) || negb (snapshot =? last_snapshot) then None
    else Some (false, ci_set_flags (ci_has_outputted_key c) false (ci_level_ptrs c) (ci_set_valid true (ci_at_next c) (ci_set_entry (ci_key c) [] ikey c)))
  else if pk_type ikey =? kTypeSingleDeletion then c ← single_deletion prev_snapshot c; Some (false, c)
  else if (last_snapshot =? snapshot) || ((last_snapshot >? 0) && (last_snapshot <? snapshot)) then
    if last_sequence >=? pk_sequence ikey then i ← Next (ci_input c); Some (false, ci_set_input i c) else None
  else
    '(obsolete, c) ← obsolete_deletion c;
    if obsolete : bool then i ← Next (ci_input c); Some (false, ci_set_input i c)
    else if bottommost_deletion_case ikey then c ← bottommost_deletion prev_snapshot c; Some (false, c)
    else if pk_type ikey =? kTypeMerge then Some (true, ci_set_status InvalidArgument c)
    else Some (false, ci_set_valid true (ci_at_next c) c).

Fixpoint next_loop (n : nat) c : option (CompactionIterator I) :=
  match n with
  | O => None
  | S n' =>
      if negb (ci_valid c) && Valid (ci_input c) then
        k ← key (ci_input c);
        v ← value (ci_input c);
        match ParseInternalKey k with
        | None =>
            if ci_expect_valid_internal_key o then None
            else Some (ci_set_valid true (ci_at_next c)
                         (ci_set_user_key false (ci_current_user_key c) kMaxSequenceNumber 0
                            (ci_set_entry k v (ParseInternalKey_failed k (ci_ikey c)) c)))
        | Some ikey =>
            '(returns, c) ← process_key (enter_key k v ikey c);
            if returns : bool then Some c else next_loop n' c
        end
      else Some c
  end.

Definition NextFromInput c : option (CompactionIterator I) := next_loop fuel (ci_set_valid false false c).

Definition PrepareOutput c : option (CompactionIterator I) :=
  match ci_compaction o with
  | Some cp =>
      let ikey := ci_ikey c in
      if ci_valid c && negb (co_allow_ingest_behind cp) && ikeyNotNeededForIncrementalSnapshot cp ikey && bottommost_level &&
         (pk_sequence ikey <=? earliest_snapshot) && negb (pk_type ikey =? kTypeMerge) then
        if (pk_type ikey =? kTypeDeletion) || (pk_type ikey =? kTypeSingleDeletion) then None
        else Some (ci_set_entry (UpdateInternalKey (ci_key c) 0 (pk_type ikey)) (ci_value c) (mkParsed (pk_user_key ikey) 0 (pk_type ikey)) c)
      else Some c
  | None => Some c
  end.

Definition ci_SeekToFirst c : option (CompactionIterator I) := c ← NextFromInput c; PrepareOutput c.

Definition ci_Next c : option (CompactionIterator I) :=
  i ← (if ci_at_next c then Some (ci_input c) else Next (ci_input c));
  c ← NextFromInput (ci_set_input i c);
  PrepareOutput (if ci_valid c then ci_set_flags true (ci_clear_and_output_next_key c) (ci_level_ptrs c) c else c).

(** ** The loop that writes its output ([db/builder.cc]) *)

Fixpoint output_loop (n : nat) c : option (list (bytes * bytes) * CompactionIterator I) :=
  match n with
  | O => None
  | S n' =>
      if ci_valid c then
        c' ← ci_Next c;
        '(rest, c') ← output_loop n' c';
        Some ((ci_key c, ci_value c) :: rest, c')
      else Some ([], c)
  end.

Definition compaction_output (input : I) : option (list (bytes * bytes) * CompactionIterator I) :=
  i ← SeekToFirst input;
  c ← CompactionIterator_new i;
  c ← ci_SeekToFirst c;
  output_loop fuel c.
End Iterator.
