(* ===== verification/CompactionCorrect.v ===== *)
(** * Correctness of the compaction iterator

    Compactions keep what can be read. The versions that the iterator drops, and the
    sequence numbers that it zeroes, change no read at a live snapshot or of the newest
    state, whatever the levels below hold, provided that single deletions are used as
    documented. The output is sorted, and no assertion of the code fails. *)

From S2P Require Import Prelude Coding Comparator DbFormat Iterator WriteBatch MemTable DbIter DbIterCorrect CompactionIter.

#[local] Existing Instance vlt_dec.

(** ** Reads through two sorted runs *)

(** A read looks into the upper run first. *)
Definition read_runs (s : Z) (k : bytes) (upper lower : list version) : option bytes :=
  match newest upper k s with
  | Some v => version_value v
  | None => newest lower k s ≫= version_value
  end.

Lemma newest_cons s k v l : newest (v :: l) k s = if decide (visible k s v) then Some v else newest l k s.
Proof. unfold newest. rewrite filter_cons. by case_decide. Qed.

Lemma read_cons_yes s v upper lower : v_seq v <= s -> read_runs s (v_key v) (v :: upper) lower = version_value v.
Proof. intros Hs. unfold read_runs. rewrite newest_cons. by rewrite decide_True. Qed.

Lemma read_cons_no s k v upper lower : ~ (v_key v = k /\ v_seq v <= s) -> read_runs s k (v :: upper) lower = read_runs s k upper lower.
Proof. intros Hs. unfold read_runs. rewrite newest_cons. by rewrite decide_False. Qed.

Lemma read_absent s k upper lower : (forall v, v ∈ upper -> v_key v <> k) -> read_runs s k upper lower = newest lower k s ≫= version_value.
Proof.
  intros Ha. unfold read_runs, newest. rewrite filter_none; [done|]. intros v Hv [Ek _]. by eapply Ha.
Qed.

Lemma newest_absent s k l : (forall v, v ∈ l -> v_key v <> k) -> newest l k s = None.
Proof. intros Ha. unfold newest. rewrite filter_none; [done|]. intros v Hv [Ek _]. by eapply Ha. Qed.

(** ** Snapshots *)

Section Snapshots.
Context (snapshots : list Z).
Hypothesis (snapshots_sorted : StronglySorted Z.lt snapshots) (snapshots_pos : Forall (fun s => 0 < s <= kMaxSequenceNumber) snapshots).

(** The snapshots before a sequence number, and the first that sees it. *)
Definition stripe (seq : Z) : Z := (lower_bound 0 snapshots seq).2.
Definition prev_snapshot (seq : Z) : Z := (lower_bound 0 snapshots seq).1.

Lemma lower_bound_spec l p seq : StronglySorted Z.lt l ->
  let '(prev, st) := lower_bound p l seq in
  (prev = p /\ Forall (fun s => seq <= s) l \/ prev ∈ l /\ prev < seq) /\
  (st ∈ l /\ seq <= st \/ st = kMaxSequenceNumber /\ Forall (fun s => s < seq) l) /\
  forall s, s ∈ l -> (s < seq -> s <= prev) /\ (seq <= s -> st <= s).
Proof.
  revert p. induction l as [|x l IH]; intros p Hs; cbn; [split_and!; [by left|by right|by intros s Hs'%elem_of_nil]|].
  apply StronglySorted_inv in Hs as [Hs Hx]. rewrite Forall_forall in Hx. destruct (Z.ltb_spec x seq) as [Hlt|Hge].
  - specialize (IH x Hs). destruct (lower_bound x l seq) as [prev st]. destruct IH as (IHp & IHs & IHb). split_and!.
    + right. destruct IHp as [[-> _]|[? ?]]; [split; [left|done]|split; [by right|done]].
    + destruct IHs as [[? ?]|[-> ?]]; [left; split; [by right|done]|right; split; [done|by constructor]].
    + intros s [->|Hs']%elem_of_cons; [split; [intros _|lia]|by apply IHb]. destruct IHp as [[-> _]|[Hp _]]; [lia|]. specialize (Hx _ Hp). lia.
  - split_and!.
    + left. split; [done|]. constructor; [done|]. apply Forall_forall. intros s Hs'. specialize (Hx s Hs'). lia.
    + left. split; [left|done].
    + intros s [->|Hs']%elem_of_cons; [lia|]. specialize (Hx s Hs'). lia.
Qed.

Lemma stripe_spec seq : (stripe seq ∈ snapshots /\ seq <= stripe seq \/ stripe seq = kMaxSequenceNumber /\ Forall (fun s => s < seq) snapshots) /\
  forall s, s ∈ snapshots -> seq <= s -> stripe seq <= s.
Proof.
  unfold stripe. pose proof (lower_bound_spec snapshots 0 seq snapshots_sorted) as Hl. destruct (lower_bound 0 snapshots seq) as [prev st]. cbn.
  destruct Hl as (_ & Hs & Hb). split; [done|]. intros s Hs' Hle. by apply Hb.
Qed.

Lemma prev_spec seq : (prev_snapshot seq = 0 /\ Forall (fun s => seq <= s) snapshots \/ prev_snapshot seq ∈ snapshots /\ 0 < prev_snapshot seq < seq) /\
  forall s, s ∈ snapshots -> s < seq -> s <= prev_snapshot seq.
Proof.
  unfold prev_snapshot. pose proof (lower_bound_spec snapshots 0 seq snapshots_sorted) as Hl. destruct (lower_bound 0 snapshots seq) as [prev st]. cbn.
  destruct Hl as (Hp & _ & Hb). split; [|intros s Hs' Hle; by apply Hb]. destruct Hp as [?|[Hp Hlt]]; [by left|]. right. split; [done|].
  rewrite Forall_forall in snapshots_pos. specialize (snapshots_pos _ Hp). lia.
Qed.

Lemma stripe_le_max seq : stripe seq <= kMaxSequenceNumber.
Proof. destruct (stripe_spec seq) as [[[Hs _]|[-> _]] _]; [|done]. rewrite Forall_forall in snapshots_pos. by apply snapshots_pos. Qed.

Lemma stripe_pos seq : 0 < stripe seq.
Proof. destruct (stripe_spec seq) as [[[Hs _]|[-> _]] _]; [|done]. rewrite Forall_forall in snapshots_pos. by apply snapshots_pos. Qed.

Lemma stripe_mono a b : a <= b -> stripe a <= stripe b.
Proof.
  intros Hab. destruct (stripe_spec b) as [[[Hs Hle]|[-> _]] _]; [|apply stripe_le_max]. apply (stripe_spec a); [done|lia].
Qed.

(** What is not behind the previous snapshot is in the same stripe. *)
Lemma same_stripe a b : a <= b -> prev_snapshot b = 0 \/ prev_snapshot b < a -> stripe a = stripe b.
Proof.
  intros Hab Hp. apply Z.le_antisymm; [by apply stripe_mono|]. destruct (stripe_spec a) as [[[Hs Hle]|[-> _]] _]; [|apply stripe_le_max].
  apply (stripe_spec b); [done|]. destruct (Z.le_gt_cases b (stripe a)) as [|Hlt]; [done|]. exfalso. destruct (prev_spec b) as [Hpb Hb].
  specialize (Hb _ Hs Hlt). destruct Hp as [Hp|Hp]; [|lia]. pose proof (stripe_pos a). lia.
Qed.

Definition first_snapshot : Z := match snapshots with [] => kMaxSequenceNumber | s :: _ => s end.

Lemma first_snapshot_le s : s ∈ snapshots -> first_snapshot <= s.
Proof.
  unfold first_snapshot. destruct snapshots as [|x l]; [by intros ?%elem_of_nil|]. apply StronglySorted_inv in snapshots_sorted as [_ Hx].
  rewrite Forall_forall in Hx. intros [->|Hs]%elem_of_cons; [done|]. specialize (Hx _ Hs). lia.
Qed.

Lemma first_snapshot_in : first_snapshot ∈ snapshots \/ first_snapshot = kMaxSequenceNumber.
Proof. unfold first_snapshot. destruct snapshots; [by right|left; left]. Qed.

(** All that the first snapshot sees is one stripe. *)
Lemma first_stripe seq : seq <= first_snapshot -> stripe seq = first_snapshot.
Proof.
  intros Hs. apply Z.le_antisymm.
  - destruct first_snapshot_in as [Hin|E]; [by apply (stripe_spec seq)|]. rewrite E. apply stripe_le_max.
  - destruct (stripe_spec seq) as [[[Hin _]|[-> _]] _]; [by apply first_snapshot_le|]. destruct first_snapshot_in as [Hin| ->]; [|done].
    rewrite Forall_forall in snapshots_pos. by apply snapshots_pos.
Qed.

Lemma after_first seq : first_snapshot < seq -> seq <= kMaxSequenceNumber -> first_snapshot < stripe seq.
Proof.
  intros Hs Hm. destruct (stripe_spec seq) as [[[Hin Hle]|[-> _]] _]; lia.
Qed.

Lemma prev_first seq : prev_snapshot seq <> 0 -> first_snapshot < seq.
Proof. intros Hp. destruct (prev_spec seq) as [[[? _]|[Hin Hlt]] _]; [done|]. pose proof (first_snapshot_le _ Hin). lia. Qed.

(** Who reads: a snapshot, or a reader that sees every version. *)
Definition live_reader (s : Z) (vs : list version) : Prop := s ∈ snapshots \/ forall v, v ∈ vs -> v_seq v <= s.

Definition seqs_ok (vs : list version) : Prop := Forall (fun v => 0 <= v_seq v <= kMaxSequenceNumber) vs.

(** A reader sees all of a stripe or nothing. *)
Lemma reader_stripe s vs u v : live_reader s vs -> seqs_ok vs -> u ∈ vs -> stripe (v_seq u) = stripe (v_seq v) -> v_seq v <= s -> v_seq u <= s.
Proof.
  intros [Hs|Hs] Hok Hu E Hv; [|by apply Hs]. unfold seqs_ok in Hok. rewrite Forall_forall in Hok. specialize (Hok u Hu).
  pose proof (proj2 (stripe_spec (v_seq v)) s Hs Hv). destruct (stripe_spec (v_seq u)) as [[[_ ?]|[Em _]] _]; [lia|]. lia.
Qed.

Lemma reader_first s vs v : live_reader s vs -> v ∈ vs -> v_seq v <= first_snapshot -> v_seq v <= s.
Proof. intros [Hs|Hs] Hv Hle; [|by apply Hs]. pose proof (first_snapshot_le s Hs). lia. Qed.
End Snapshots.

(** ** What the iterator does to a run *)

Section Steps.
Context (user_Compare : bytes -> bytes -> Z) `{!TotalCompare user_Compare} (snapshots : list Z) (write_conflict : Z) (lower : list version) (bottommost : bool) (zeroable : Z -> bool).
Abbreviation stripe := (stripe snapshots).
Abbreviation prev_snapshot := (prev_snapshot snapshots).
Abbreviation first_snapshot := (first_snapshot snapshots).

Definition absent (k : bytes) (l : list version) : Prop := forall v, v ∈ l -> v_key v <> k.

Definition cleared (v : version) : version := mkVersion (v_seq v) (v_type v) (v_key v) [].

(** The version before it, if it is of the same key, is in the same stripe. *)
Definition hidden (u : option version) (v : version) : Prop :=
  match u with Some u => v_key u = v_key v /\ stripe (v_seq u) = stripe (v_seq v) | None => False end.

(** Two versions of one key in one stripe. *)
Definition together (v n : version) : Prop := v_key n = v_key v /\ (prev_snapshot (v_seq v) = 0 \/ prev_snapshot (v_seq v) < v_seq n).

Definition next_key (v : version) (rest : list version) : Prop := match rest with n :: _ => v_key n <> v_key v | [] => True end.

(** [steps u clear rest out]: after version [u] of the current key, with the flag to
    clear the next value, the input [rest] leads to the output [out]. *)
Inductive steps : option version -> bool -> list version -> list version -> Prop :=
| steps_nil u : steps u false [] []
| steps_clear u v rest out : v_type v = kTypeValue -> hidden (Some u) v -> steps (Some v) false rest out ->
    steps (Some u) true (v :: rest) (cleared v :: out)
| steps_single_skip u v n rest out : v_type v = kTypeSingleDeletion -> v_type n = kTypeSingleDeletion -> together v n ->
    steps (Some v) false (n :: rest) out -> steps u false (v :: n :: rest) out
| steps_single_pair u v n rest out : v_type v = kTypeSingleDeletion -> v_type n <> kTypeSingleDeletion -> together v n ->
    steps (Some v) false rest out -> steps u false (v :: n :: rest) out
| steps_single_clear u v n rest out : v_type v = kTypeSingleDeletion -> v_type n <> kTypeSingleDeletion -> together v n ->
    write_conflict < v_seq v -> steps (Some v) true (n :: rest) out -> steps u false (v :: n :: rest) (v :: out)
| steps_single_obsolete u v rest out : v_type v = kTypeSingleDeletion -> next_key v rest -> absent (v_key v) lower ->
    steps None false rest out -> steps u false (v :: rest) out
| steps_single_keep u u' v rest out : v_type v = kTypeSingleDeletion -> u' = Some v \/ (u' = None /\ next_key v rest) ->
    (bottommost = true -> first_snapshot < v_seq v) -> steps u' false rest out -> steps u false (v :: rest) (v :: out)
| steps_hidden u v rest out : v_type v <> kTypeSingleDeletion -> hidden u v -> steps (Some v) false rest out -> steps u false (v :: rest) out
| steps_obsolete u v rest out : v_type v = kTypeDeletion -> ~ hidden u v -> v_seq v <= first_snapshot -> absent (v_key v) lower ->
    steps (Some v) false rest out -> steps u false (v :: rest) out
| steps_bottom_drop u v skipped rest out : v_type v = kTypeDeletion -> ~ hidden u v -> absent (v_key v) lower ->
    Forall (together v) skipped -> next_key v rest -> steps (Some v) false rest out -> steps u false (v :: skipped ++ rest) out
| steps_bottom_keep u v skipped rest out : v_type v = kTypeDeletion -> ~ hidden u v -> first_snapshot < v_seq v ->
    Forall (together v) skipped -> steps (Some v) false rest out -> steps u false (v :: skipped ++ rest) (v :: out)
| steps_keep u v rest out : v_type v <> kTypeSingleDeletion -> ~ hidden u v -> (v_type v = kTypeDeletion -> zeroable (v_seq v) = false) ->
    steps (Some v) false rest out -> steps u false (v :: rest) (v :: out).

(** *** Keys *)

Lemma skipped_key v skipped n : Forall (together v) skipped -> n ∈ skipped -> v_key n = v_key v.
Proof. rewrite Forall_forall. intros Hs Hn. by apply Hs. Qed.

(** A version of the output comes from one of the input; its value may be cleared. *)
Definition taken_from (w v : version) : Prop :=
  v_key w = v_key v /\ v_seq w = v_seq v /\ v_type w = v_type v /\ (v_value w = v_value v \/ v_value w = []).

Lemma steps_from u c rest out : steps u c rest out -> forall w, w ∈ out -> exists v, v ∈ rest /\ taken_from w v.
Proof.
  assert (Hsub : forall (l rest out : list version) w, (forall w, w ∈ out -> exists v, v ∈ rest /\ taken_from w v) -> w ∈ out ->
    exists v, v ∈ l ++ rest /\ taken_from w v).
  { intros l rest0 out0 w IH Hw. destruct (IH w Hw) as (v & Hv & E). exists v. split; [|done]. apply elem_of_app. by right. }
  induction 1; intros w; rewrite ?elem_of_cons, ?elem_of_nil; [done|..].
  - intros [->|Hw]; [exists v; split; [left|by repeat split; auto]|by apply (Hsub [v] rest out)].
  - intros Hw. by apply (Hsub [v] (n :: rest) out).
  - intros Hw. by apply (Hsub [v; n] rest out).
  - intros [->|Hw]; [exists v; split; [left|by repeat split; auto]|by apply (Hsub [v] (n :: rest) out)].
  - intros Hw. by apply (Hsub [v] rest out).
  - intros [->|Hw]; [exists v; split; [left|by repeat split; auto]|by apply (Hsub [v] rest out)].
  - intros Hw. by apply (Hsub [v] rest out).
  - intros Hw. by apply (Hsub [v] rest out).
  - intros Hw. by apply (Hsub (v :: skipped) rest out).
  - intros [->|Hw]; [exists v; split; [left|by repeat split; auto]|by apply (Hsub (v :: skipped) rest out)].
  - intros [->|Hw]; [exists v; split; [left|by repeat split; auto]|by apply (Hsub [v] rest out)].
Qed.

(** Nothing grows. *)
Lemma steps_size (f : version -> Z) u c rest out : (forall v, 0 <= f (cleared v) <= f v) -> steps u c rest out ->
  foldr (fun v n => f v + n) 0 out <= foldr (fun v n => f v + n) 0 rest.
Proof.
  intros Hf. assert (Happ : forall l l' : list version, foldr (fun v n => f v + n) 0 l' <= foldr (fun v n => f v + n) 0 (l ++ l')).
  { induction l as [|v l IH]; intros l'; cbn; [done|]. specialize (IH l'). specialize (Hf v). lia. }
  induction 1; cbn [foldr] in *; try (specialize (Happ skipped rest)); try (pose proof (Hf n)); try (pose proof (Hf v)); lia.
Qed.

Lemma steps_absent u c rest out k : steps u c rest out -> absent k rest -> absent k out.
Proof. intros Hs Ha w Hw. destruct (steps_from _ _ _ _ Hs w Hw) as (v & Hv & -> & _). by apply Ha. Qed.

Lemma read_both_absent s k out rest : absent k rest -> absent k out -> read_runs s k out lower = read_runs s k rest lower.
Proof. intros H1 H2. by rewrite !read_absent. Qed.

(** The last version of the current key is newer than the rest. *)
Definition after (u : option version) (rest : list version) : Prop :=
  match u with Some u => forall v, v ∈ rest -> vlt user_Compare u v | None => True end.

Lemma after_head v rest : StronglySorted (vlt user_Compare) (v :: rest) -> after (Some v) rest.
Proof. intros [_ Hv]%StronglySorted_inv. by rewrite Forall_forall in Hv. Qed.

(** Keys do not come back. *)
Lemma key_passed k v rest : StronglySorted (vlt user_Compare) (v :: rest) -> user_Compare k (v_key v) < 0 -> absent k (v :: rest).
Proof.
  intros Hs Hk w [->|Hw]%elem_of_cons E; [rewrite <- E, cmp_refl in Hk; [lia|done]|]. pose proof (after_head v rest Hs w Hw) as Hlt.
  apply vlt_spec in Hlt as [Hlt|[Ek _]]; [|rewrite Ek, E, cmp_refl in Hk; [lia|done]|done]. rewrite E in Hlt. apply cmp_flip in Hlt. lia.
Qed.

Lemma key_left u v rest : StronglySorted (vlt user_Compare) (v :: rest) -> vlt user_Compare u v -> v_key v <> v_key u -> absent (v_key u) (v :: rest).
Proof. intros Hs Hlt Hne. apply key_passed; [done|]. apply vlt_spec in Hlt as [?|[Ek _]]; [done|by destruct Hne|done]. Qed.

Lemma next_key_absent v rest : StronglySorted (vlt user_Compare) (v :: rest) -> next_key v rest -> absent (v_key v) rest.
Proof.
  intros Hs Hn. pose proof (after_head v rest Hs) as Ha. apply StronglySorted_inv in Hs as [Hs _]. destruct rest as [|n rest]; [by intros w Hw%elem_of_nil|].
  apply key_left; [done|apply Ha; left|done].
Qed.

Lemma older_seq u v : vlt user_Compare u v -> v_key v = v_key u -> v_seq v < v_seq u.
Proof. intros [Hlt|[_ ?]]%vlt_spec Ek; [rewrite Ek, cmp_refl in Hlt; [lia|done]|done|done]. Qed.

(** *** Reads *)

Context (Hsorted : StronglySorted Z.lt snapshots) (Hpos : Forall (fun s => 0 < s <= kMaxSequenceNumber) snapshots).
Abbreviation sorted := (StronglySorted (vlt user_Compare)).

Lemma together_stripe v n : vlt user_Compare v n -> together v n -> stripe (v_seq n) = stripe (v_seq v).
Proof. intros Hlt [Ek Hp]. pose proof (older_seq v n Hlt Ek). apply same_stripe; [done|done|lia|done]. Qed.

Lemma sorted_drop v l rest : sorted (v :: l ++ rest) -> sorted (v :: rest).
Proof.
  intros [Hs Hv]%StronglySorted_inv. apply StronglySorted_app in Hs as (_ & _ & Hr). constructor; [done|]. by apply Forall_app in Hv as [_ Hv].
Qed.

Lemma version_value_none v : v_type v <> kTypeValue -> version_value v = None.
Proof. intros Hv. unfold version_value. by rewrite (proj2 (Z.eqb_neq _ _) Hv). Qed.

Lemma single_read v : v_type v = kTypeSingleDeletion -> version_value v = None.
Proof. intros Hv. apply version_value_none. by rewrite Hv. Qed.

Lemma deletion_read v : v_type v = kTypeDeletion -> version_value v = None.
Proof. intros Hv. apply version_value_none. by rewrite Hv. Qed.

Lemma read_lower_none s k out : absent k lower -> absent k out -> read_runs s k out lower = None.
Proof. intros Hl Ho. rewrite read_absent by done. by rewrite newest_absent. Qed.

(** Behind a dropped version, with no version of the key below and all of it in one stripe. *)
Lemma steps_dead s k u rest out : steps (Some u) false rest out -> v_key u = k -> v_seq u <= s -> absent k lower ->
  sorted (u :: rest) -> (forall v, v ∈ rest -> v_key v = k -> stripe (v_seq v) = stripe (v_seq u)) -> read_runs s k out lower = None.
Proof.
  intros Hst. pose proof Hst as Hall. revert Hall. remember (Some u) as cu eqn:Eu. remember false as c eqn:Ec. revert u Eu Ec.
  induction Hst as [u0|u0 v rest out Hv Hh Hst IH|u0 v n rest out Hv Hn Ht Hst IH|u0 v n rest out Hv Hn Ht Hst IH|u0 v n rest out Hv Hn Ht Hwc Hst IH
    |u0 v rest out Hv Hnk Hab Hst IH|u0 u' v rest out Hv Hu' Hz Hst IH|u0 v rest out Hv Hh Hst IH|u0 v rest out Hv Hh Hf Hab Hst IH
    |u0 v skipped rest out Hv Hh Hab Hsk Hnk Hst IH|u0 v skipped rest out Hv Hh Hf Hsk Hst IH|u0 v rest out Hv Hh Hz Hst IH];
    intros u Eu Ec Hall Ek Hs Hl Hso Hstr; try discriminate Ec; try subst u0;
    try (destruct (decide (v_key v = k)) as [Ev|Nv]; [|subst k; apply read_lower_none; [done|]; eapply steps_absent; [exact Hall|];
      apply key_left; [by apply StronglySorted_inv in Hso as [? _]|apply (after_head _ _ Hso); left|done]];
      pose proof (older_seq u v (after_head _ _ Hso v ltac:(left)) ltac:(congruence)) as Hseq; pose proof (proj1 (StronglySorted_inv Hso)) as Hso';
      pose proof (Hstr v ltac:(left) Ev) as Hsv).
  - by apply read_lower_none; [|intros w Hw%elem_of_nil].
  - apply (IH v); try done; [lia|]. intros w Hw Ew. rewrite Hsv. by apply Hstr; [right|].
  - apply (IH v); try done; [lia|by apply (sorted_drop v [n])|]. intros w Hw Ew. rewrite Hsv. by apply Hstr; [do 2 right|].
  - subst k. rewrite <- Ev, read_cons_yes by lia. by apply single_read.
  - subst k. rewrite <- Ev in *. apply read_lower_none; [done|]. eapply steps_absent; [exact Hst|]. by apply next_key_absent.
  - subst k. rewrite <- Ev, read_cons_yes by lia. by apply single_read.
  - apply (IH v); try done; [lia|]. intros w Hw Ew. rewrite Hsv. by apply Hstr; [right|].
  - destruct Hh. cbn. split; congruence.
  - destruct Hh. cbn. split; congruence.
  - destruct Hh. cbn. split; congruence.
  - destruct Hh. cbn. split; congruence.
Qed.

(** The versions of a key, from new to old, use single deletions as documented: each is
    for one value, and nothing else is below that value. *)
Definition history (k : bytes) (l : list version) : list version := filter (fun v => v_key v = k) l.

Fixpoint single_ok (h : list version) : Prop :=
  match h with
  | [] => True
  | v :: h' =>
      (v_type v = kTypeSingleDeletion ->
       match h' with
       | [] => True
       | n :: h'' => v_type n = kTypeSingleDeletion \/
           (v_type n = kTypeValue /\ match h'' with [] => True | w :: _ => v_type w = kTypeSingleDeletion end)
       end) /\ single_ok h'
  end.

Definition single_first (k : bytes) (l : list version) : Prop :=
  match history k l with [] => True | v :: _ => v_type v = kTypeSingleDeletion end.

Definition settled (s : Z) (k : bytes) (u : option version) : Prop :=
  match u with Some u => v_key u = k /\ v_seq u <= s | None => False end.

Definition full (u : option version) (rest : list version) : list version := match u with Some u => u :: rest | None => rest end.

(** The levels below hold older versions. *)
Definition older_below (vs : list version) : Prop := forall v w, v ∈ vs -> w ∈ lower -> v_key w = v_key v -> v_seq w < v_seq v.

Record run_ok (s : Z) (k : bytes) (u : option version) (rest : list version) : Prop := {
  ro_reader : live_reader snapshots s (full u rest);
  ro_seqs : seqs_ok (full u rest);
  ro_sorted : sorted (full u rest);
  ro_older : older_below rest;
  ro_single : single_ok (history k (rest ++ lower))
}.

Lemma history_cons_yes k v l : v_key v = k -> history k (v :: l) = v :: history k l.
Proof. intros E. unfold history. by rewrite filter_cons, decide_True. Qed.

Lemma history_cons_no k v l : v_key v <> k -> history k (v :: l) = history k l.
Proof. intros E. unfold history. by rewrite filter_cons, decide_False. Qed.

Lemma single_ok_app k l l' : single_ok (history k (l ++ l')) -> single_ok (history k l').
Proof.
  induction l as [|v l IH]; [done|]. cbn [app]. destruct (decide (v_key v = k)); [rewrite history_cons_yes by done; intros [_ ?]|rewrite history_cons_no by done]; auto.
Qed.

Lemma full_in u rest : forall v, v ∈ rest -> v ∈ full u rest.
Proof. destruct u; [by right|done]. Qed.

Lemma full_sorted u rest : sorted (full u rest) -> sorted rest.
Proof. destruct u; [by intros [? _]%StronglySorted_inv|done]. Qed.

Lemma run_tail s k u u' v l rest : run_ok s k u (v :: l ++ rest) -> u' = Some v \/ u' = None -> run_ok s k u' rest.
Proof.
  intros [Hr Hq Hs Ho Hg] Hu'. assert (Hsub : forall w, w ∈ full u' rest -> w ∈ full u (v :: l ++ rest)).
  { intros w Hw. apply full_in. destruct Hu' as [->| ->]; cbn in Hw; [apply elem_of_cons in Hw as [->|Hw]; [left|]|]; right; apply elem_of_app; by right. }
  constructor.
  - destruct Hr as [?|Hr]; [by left|]. right. intros w Hw. by apply Hr, Hsub.
  - unfold seqs_ok in *. rewrite Forall_forall in *. intros w Hw. by apply Hq, Hsub.
  - apply full_sorted, sorted_drop in Hs. destruct Hu' as [->| ->]; [done|]. by apply StronglySorted_inv in Hs as [? _].
  - intros w x Hw Hx. apply Ho; [|done]. right. apply elem_of_app. by right.
  - rewrite app_comm_cons, <- app_assoc in Hg. by apply single_ok_app in Hg.
Qed.

Lemma read_skip s k l rest : (forall n, n ∈ l -> ~ (v_key n = k /\ v_seq n <= s)) -> read_runs s k (l ++ rest) lower = read_runs s k rest lower.
Proof.
  induction l as [|v l IH]; intros Hl; [done|]. cbn [app]. rewrite read_cons_no by (apply Hl; left). apply IH. intros n Hn. apply Hl. by right.
Qed.

Lemma newest_history s k v l : history k l = v :: tail (history k l) -> v_seq v <= s -> newest l k s = Some v.
Proof.
  induction l as [|x l IH]; [done|]. destruct (decide (v_key x = k)) as [E|E].
  - rewrite history_cons_yes by done. cbn [tail]. intros [= ->] Hs. rewrite newest_cons. by rewrite decide_True.
  - rewrite history_cons_no by done. intros Hh Hs. rewrite newest_cons, decide_False by (by intros [? _]). by apply IH.
Qed.

Lemma history_in k l v : v ∈ history k l -> v ∈ l /\ v_key v = k.
Proof. unfold history. rewrite list_elem_of_filter. tauto. Qed.

Lemma head_older s k u v l rest : run_ok s k u (v :: l ++ rest) -> v_key v = k -> forall w, w ∈ history k (rest ++ lower) -> v_seq w < v_seq v.
Proof.
  intros [_ _ Hs Ho _] Ek w [Hw Ew]%history_in. apply elem_of_app in Hw as [Hw|Hw].
  - apply older_seq; [|congruence]. apply full_sorted in Hs. apply (after_head _ _ Hs). apply elem_of_app. by right.
  - apply (Ho v w); [left|done|congruence].
Qed.

(** What is below a single deletion and its value. *)
Lemma pair_below s k u v n rest : run_ok s k u (v :: n :: rest) -> v_type v = kTypeSingleDeletion -> v_type n <> kTypeSingleDeletion ->
  v_key v = k -> v_key n = k -> single_first k rest /\ (v_seq v <= s -> read_runs s k rest lower = None).
Proof.
  intros Hr Hv Hn Ev En. pose proof (head_older s k u v [n] rest Hr Ev) as Hold. pose proof (ro_single _ _ _ _ Hr) as Hg. cbn [app] in Hg.
  rewrite !history_cons_yes in Hg by done. destruct Hg as [Hg _]. specialize (Hg Hv). destruct Hg as [?|[_ Hg]]; [done|].
  assert (Hap : history k (rest ++ lower) = history k rest ++ history k lower) by apply filter_app. rewrite Hap in Hg, Hold.
  unfold single_first. destruct (history k rest) as [|w h] eqn:Eh.
  - split; [done|]. intros Hs. rewrite read_absent.
    + destruct (history k lower) as [|w h] eqn:El.
      * rewrite newest_absent; [done|]. intros x Hx Ex. assert (Hin : x ∈ history k lower) by (apply list_elem_of_filter; done). rewrite El in Hin. by apply elem_of_nil in Hin.
      * rewrite (newest_history s k w); [by apply single_read|by rewrite El|]. specialize (Hold w ltac:(left)). lia.
    + intros x Hx Ex. assert (Hin : x ∈ history k rest) by (apply list_elem_of_filter; done). rewrite Eh in Hin. by apply elem_of_nil in Hin.
  - split; [done|]. intros Hs. unfold read_runs. rewrite (newest_history s k w); [by apply single_read|by rewrite Eh|]. specialize (Hold w ltac:(left)). lia.
Qed.

(** Two versions of a key in a stripe: an unseen newer one hides the older. *)
Lemma unseen s k u rest x v : run_ok s k u rest -> x ∈ full u rest -> stripe (v_seq x) = stripe (v_seq v) -> s < v_seq x -> ~ v_seq v <= s.
Proof. intros [Hr Hq _ _ _] Hx E Hlt Hle. pose proof (reader_stripe snapshots Hsorted s _ x v Hr Hq Hx E Hle). lia. Qed.

Lemma together_unseen s k u v l n rest : run_ok s k u (v :: l ++ rest) -> n ∈ l -> together v n -> ~ (v_key v = k /\ v_seq v <= s) -> ~ (v_key n = k /\ v_seq n <= s).
Proof.
  intros Hr Hn Ht Hv [En Hle]. pose proof (proj1 Ht) as Ekn. assert (Hlt : s < v_seq v) by (destruct (Z.le_gt_cases (v_seq v) s); [destruct Hv; split; [congruence|done]|done]).
  pose proof (full_sorted _ _ (ro_sorted _ _ _ _ Hr)) as Hs. pose proof (after_head _ _ Hs n ltac:(apply elem_of_app; by left)) as Hvn.
  eapply (unseen s k u _ v n Hr); [apply full_in; left|symmetry; by apply together_stripe|done|done].
Qed.

(** A version that is kept, with those of its stripe behind it dropped. *)
Lemma keep_reads s k u u' v l rest out : run_ok s k u (v :: l ++ rest) -> Forall (together v) l -> u' = Some v \/ u' = None ->
  (run_ok s k u' rest -> ~ settled s k u' -> read_runs s k out lower = read_runs s k rest lower) ->
  read_runs s k (v :: out) lower = read_runs s k (v :: l ++ rest) lower.
Proof.
  intros Hr Hl Hu' IH. destruct (decide (v_key v = k /\ v_seq v <= s)) as [[Ek Hs]|Hno].
  - subst k. by rewrite !read_cons_yes.
  - rewrite !read_cons_no by done. rewrite read_skip.
    + apply IH; [by eapply run_tail|]. destruct Hu' as [->| ->]; [exact Hno|by intros []].
    + rewrite Forall_forall in Hl. intros n Hn. eapply together_unseen; [done|done|by apply Hl|done].
Qed.

(** A deletion that is dropped, with those of its stripe behind it. *)
Lemma drop_reads s k u u' v l rest out : run_ok s k u (v :: l ++ rest) -> Forall (together v) l -> v_type v <> kTypeValue -> u' = Some v \/ u' = None ->
  (run_ok s k u' rest -> ~ settled s k u' -> read_runs s k out lower = read_runs s k rest lower) ->
  (v_key v = k -> v_seq v <= s -> read_runs s k out lower = None) ->
  read_runs s k out lower = read_runs s k (v :: l ++ rest) lower.
Proof.
  intros Hr Hl Hv Hu' IH Hnone. destruct (decide (v_key v = k /\ v_seq v <= s)) as [[Ek Hs]|Hno].
  - rewrite Hnone by done. subst k. rewrite read_cons_yes by done. symmetry. by apply version_value_none.
  - rewrite read_cons_no by done. rewrite read_skip.
    + apply IH; [by eapply run_tail|]. destruct Hu' as [->| ->]; [exact Hno|by intros []].
    + rewrite Forall_forall in Hl. intros n Hn. eapply together_unseen; [done|done|by apply Hl|done].
Qed.

Lemma hidden_reads s k u v rest out : run_ok s k u (v :: rest) -> hidden u v -> ~ settled s k u ->
  (run_ok s k (Some v) rest -> ~ settled s k (Some v) -> read_runs s k out lower = read_runs s k rest lower) ->
  ~ (v_key v = k /\ v_seq v <= s) /\ read_runs s k out lower = read_runs s k (v :: rest) lower.
Proof.
  intros Hr Hh Hc IH. destruct u as [u|]; [|done]. destruct Hh as [Ek Es].
  assert (Hno : ~ (v_key v = k /\ v_seq v <= s)).
  { intros [Ev Hle]. cbn in Hc. destruct (Z.le_gt_cases (v_seq u) s); [destruct Hc; split; [congruence|done]|]. by eapply (unseen s k (Some u) _ u v Hr ltac:(left)). }
  split; [done|]. rewrite read_cons_no by done. apply IH; [|done]. by apply (run_tail s k (Some u) (Some v) v [] rest Hr); left.
Qed.

Lemma steps_reads s k u c rest out : steps u c rest out -> run_ok s k u rest -> ~ settled s k u \/ (c = false /\ single_first k rest) ->
  read_runs s k out lower = read_runs s k rest lower.
Proof.
  induction 1 as [u0|u0 v rest out Hv Hh Hst IH|u0 v n rest out Hv Hn Ht Hst IH|u0 v n rest out Hv Hn Ht Hst IH|u0 v n rest out Hv Hn Ht Hwc Hst IH
    |u0 v rest out Hv Hnk Hab Hst IH|u0 u' v rest out Hv Hu' Hz Hst IH|u0 v rest out Hv Hh Hst IH|u0 v rest out Hv Hh Hf Hab Hst IH
    |u0 v skipped rest out Hv Hh Hab Hsk Hnk Hst IH|u0 v skipped rest out Hv Hh Hf Hsk Hst IH|u0 v rest out Hv Hh Hz Hst IH];
    intros Hr Hc; [done|..]; pose proof (full_sorted _ _ (ro_sorted _ _ _ _ Hr)) as Hso.
  - destruct Hc as [Hc|[? _]]; [|done]. destruct (hidden_reads s k (Some u0) v rest out Hr Hh Hc) as [Hno E]; [intros; apply IH; auto|]. rewrite read_cons_no by done. done.
  - apply (drop_reads s k u0 (Some v) v [] (n :: rest) out Hr); [done|by rewrite Hv|by left|intros; apply IH; auto|]. intros Ek Hs.
    rewrite IH; [|by apply (run_tail s k u0 (Some v) v [] (n :: rest) Hr); left|].
    + destruct Ht as [En _]. rewrite <- Ek, <- En, read_cons_yes; [by apply single_read|]. pose proof (older_seq v n (after_head _ _ Hso n ltac:(left)) En). lia.
    + right. split; [done|]. unfold single_first. destruct Ht as [En _]. by rewrite history_cons_yes by congruence.
  - apply (drop_reads s k u0 (Some v) v [n] rest out Hr); [by constructor|by rewrite Hv|by left|intros; apply IH; auto|]. intros Ek Hs.
    destruct (pair_below s k u0 v n rest Hr Hv Hn Ek ltac:(destruct Ht; congruence)) as [Hsf Hnone].
    rewrite IH; [by apply Hnone|by apply (run_tail s k u0 (Some v) v [n] rest Hr); left|by right].
  - apply (keep_reads s k u0 (Some v) v [] (n :: rest) out Hr); [done|by left|intros; apply IH; auto].
  - apply (drop_reads s k u0 None v [] rest out Hr); [done|by rewrite Hv|by right|intros; apply IH; auto|]. intros <- Hs.
    apply read_lower_none; [done|]. eapply steps_absent; [done|]. by apply next_key_absent.
  - apply (keep_reads s k u0 u' v [] rest out Hr); [done|destruct Hu' as [|[? _]]; auto|intros; apply IH; auto].
  - destruct Hc as [Hc|[_ Hc]].
    + by apply (hidden_reads s k u0 v rest out Hr Hh Hc); intros; apply IH; auto.
    + destruct (decide (v_key v = k)) as [Ek|Nk]; [unfold single_first in Hc; by rewrite history_cons_yes in Hc|].
      rewrite read_cons_no by (by intros [? _]). apply IH; [by apply (run_tail s k u0 (Some v) v [] rest Hr); left|]. left. by intros [? _].
  - apply (drop_reads s k u0 (Some v) v [] rest out Hr); [done|by rewrite Hv|by left|intros; apply IH; auto|]. intros <- Hs.
    eapply (steps_dead s (v_key v) v rest out); try done. intros w Hw Ew. pose proof (older_seq v w (after_head _ _ Hso w Hw) Ew).
    rewrite !first_stripe; try done. lia.
  - apply (drop_reads s k u0 (Some v) v skipped rest out Hr); [done|by rewrite Hv|by left|intros; apply IH; auto|]. intros <- Hs.
    apply read_lower_none; [done|]. eapply steps_absent; [done|]. apply next_key_absent; [|done]. by apply sorted_drop in Hso.
  - apply (keep_reads s k u0 (Some v) v skipped rest out Hr); [done|by left|intros; apply IH; auto].
  - apply (keep_reads s k u0 (Some v) v [] rest out Hr); [done|by left|intros; apply IH; auto].
Qed.

(** *** Zeroed sequence numbers, and the order of the output *)

Context (Hconflict : first_snapshot <= write_conflict) (Hzero : forall q, zeroable q = true -> bottommost = true /\ q <= first_snapshot).

Definition zeroed (v : version) : version := if zeroable (v_seq v) then mkVersion 0 (v_type v) (v_key v) (v_value v) else v.

Lemma zeroed_key v : v_key (zeroed v) = v_key v.
Proof. unfold zeroed. by destruct (zeroable (v_seq v)). Qed.

Lemma zeroed_read v : version_value (zeroed v) = version_value v.
Proof. unfold zeroed. by destruct (zeroable (v_seq v)). Qed.

Lemma zeroed_seq_le v : 0 <= v_seq v -> v_seq (zeroed v) <= v_seq v.
Proof. unfold zeroed. by destruct (zeroable (v_seq v)). Qed.

Lemma newest_zeroed s k out : (forall w, w ∈ out -> 0 <= v_seq w /\ (v_seq w <= first_snapshot -> v_seq w <= s)) ->
  newest (zeroed <$> out) k s = zeroed <$> newest out k s.
Proof.
  induction out as [|w out IH]; intros Hout; [done|]. cbn [fmap list_fmap]. rewrite !newest_cons. unfold visible.
  destruct (Hout w ltac:(left)) as [H0 Hf]. assert (Hiff : (v_key (zeroed w) = k /\ v_seq (zeroed w) <= s) <-> (v_key w = k /\ v_seq w <= s)).
  { unfold zeroed. destruct (zeroable (v_seq w)) eqn:Ez; [|done]. cbn. destruct (Hzero _ Ez) as [_ Hle]. specialize (Hf Hle). intuition lia. }
  destruct (decide (v_key w = k /\ v_seq w <= s)) as [Hy|Hn].
  - rewrite decide_True by tauto. done.
  - rewrite decide_False by tauto. apply IH. intros x Hx. apply Hout. by right.
Qed.

Lemma read_zeroed s k u c rest out : steps u c rest out -> live_reader snapshots s rest -> seqs_ok rest ->
  read_runs s k (zeroed <$> out) lower = read_runs s k out lower.
Proof.
  intros Hst Hr Hq. unfold read_runs. rewrite newest_zeroed.
  - destruct (newest out k s) as [v|]; [apply zeroed_read|done].
  - intros w Hw. destruct (steps_from _ _ _ _ Hst w Hw) as (v & Hv & _ & -> & _). unfold seqs_ok in Hq. rewrite Forall_forall in Hq.
    split; [by apply Hq|]. by eapply reader_first.
Qed.

Lemma steps_below u c rest out x : steps u c rest out -> (forall v, v ∈ rest -> vlt user_Compare x v) -> forall w, w ∈ out -> vlt user_Compare x w.
Proof.
  intros Hst Hx w Hw. destruct (steps_from _ _ _ _ Hst w Hw) as (v & Hv & Ek & Es & _). specialize (Hx v Hv). rewrite vlt_spec in * by done. by rewrite Ek, Es.
Qed.

(** At the bottom, nothing follows a version that the first snapshot sees. *)
Lemma steps_quiet u rest out : steps (Some u) false rest out -> sorted (u :: rest) -> bottommost = true -> v_seq u <= first_snapshot -> absent (v_key u) out.
Proof.
  intros Hst. pose proof Hst as Hall. revert Hall. remember (Some u) as cu eqn:Eu. remember false as c eqn:Ec. revert u Eu Ec.
  induction Hst as [u0|u0 v rest out Hv Hh Hst IH|u0 v n rest out Hv Hn Ht Hst IH|u0 v n rest out Hv Hn Ht Hst IH|u0 v n rest out Hv Hn Ht Hwc Hst IH
    |u0 v rest out Hv Hnk Hab Hst IH|u0 u' v rest out Hv Hu' Hz Hst IH|u0 v rest out Hv Hh Hst IH|u0 v rest out Hv Hh Hf Hab Hst IH
    |u0 v skipped rest out Hv Hh Hab Hsk Hnk Hst IH|u0 v skipped rest out Hv Hh Hf Hsk Hst IH|u0 v rest out Hv Hh Hz Hst IH];
    intros u Eu Ec Hall Hso Hbot Hfirst; try discriminate Ec; try subst u0;
    try (destruct (decide (v_key v = v_key u)) as [Ev|Nv]; [|eapply steps_absent; [exact Hall|];
      apply key_left; [by apply StronglySorted_inv in Hso as [? _]|apply (after_head _ _ Hso); left|done]];
      pose proof (older_seq u v (after_head _ _ Hso v ltac:(left)) Ev) as Hseq; pose proof (proj1 (StronglySorted_inv Hso)) as Hso'; rewrite <- Ev).
  - by intros w Hw%elem_of_nil.
  - apply IH; try done. lia.
  - apply IH; try done; [by apply (sorted_drop v [n])|lia].
  - lia.
  - eapply steps_absent; [exact Hst|]. by apply next_key_absent.
  - specialize (Hz Hbot). lia.
  - apply IH; try done. lia.
  - destruct Hh. cbn. rewrite !first_stripe by (done || lia). done.
  - destruct Hh. cbn. rewrite !first_stripe by (done || lia). done.
  - lia.
  - destruct Hh. cbn. rewrite !first_stripe by (done || lia). done.
Qed.

Lemma emit_sorted v out : sorted (zeroed <$> out) -> (forall w, w ∈ out -> vlt user_Compare v w /\ 0 <= v_seq w) ->
  (zeroable (v_seq v) = true -> absent (v_key v) out) -> sorted (zeroed <$> v :: out).
Proof.
  intros Hs Hb Hz. cbn [fmap list_fmap]. constructor; [done|]. apply Forall_fmap, Forall_forall. intros w Hw. destruct (Hb w Hw) as [Hlt H0]. cbn.
  apply vlt_spec; [done|]. rewrite !zeroed_key. apply vlt_spec in Hlt as [?|[Ek Hlt]]; [by left| |done]. right. split; [done|].
  pose proof (zeroed_seq_le w H0). unfold zeroed at 2. destruct (zeroable (v_seq v)); [|lia]. by destruct (Hz eq_refl w Hw).
Qed.

Lemma steps_sorted u c rest out : steps u c rest out -> sorted rest -> seqs_ok rest -> sorted (zeroed <$> out).
Proof.
  assert (Hemit : forall u c v (l rest out : list version), steps u c rest out -> sorted (v :: l ++ rest) -> seqs_ok (v :: l ++ rest) ->
    forall w, w ∈ out -> vlt user_Compare v w /\ 0 <= v_seq w).
  { intros u0 c0 v l rest0 out0 Hst Hso Hq w Hw. apply sorted_drop in Hso. split; [by eapply steps_below; [| |done]; [|by apply after_head]|].
    destruct (steps_from _ _ _ _ Hst w Hw) as (x & Hx & _ & -> & _). unfold seqs_ok in Hq. rewrite Forall_forall in Hq. apply Hq. right. apply elem_of_app. by right. }
  assert (Hsub : forall v (l rest : list version), sorted (v :: l ++ rest) -> sorted rest).
  { intros v l rest0 Hso. apply sorted_drop in Hso. by apply StronglySorted_inv in Hso as [? _]. }
  assert (Hseq : forall v (l rest : list version), seqs_ok (v :: l ++ rest) -> seqs_ok rest).
  { intros v l rest0 [_ Hq]%Forall_cons_1. by apply Forall_app in Hq as [_ ?]. }
  assert (Hlate : forall v, first_snapshot < v_seq v -> zeroable (v_seq v) = true -> False) by (intros v Hl Hz; apply Hzero in Hz; lia).
  induction 1 as [u0|u0 v rest out Hv Hh Hst IH|u0 v n rest out Hv Hn Ht Hst IH|u0 v n rest out Hv Hn Ht Hst IH|u0 v n rest out Hv Hn Ht Hwc Hst IH
    |u0 v rest out Hv Hnk Hab Hst IH|u0 u' v rest out Hv Hu' Hz Hst IH|u0 v rest out Hv Hh Hst IH|u0 v rest out Hv Hh Hf Hab Hst IH
    |u0 v skipped rest out Hv Hh Hab Hsk Hnk Hst IH|u0 v skipped rest out Hv Hh Hf Hsk Hst IH|u0 v rest out Hv Hh Hz Hst IH]; intros Hso Hq; [constructor|..].
  - apply (emit_sorted (cleared v)); [by eapply IH; [eapply (Hsub v [])|eapply (Hseq v [])]|exact (Hemit _ _ v [] _ _ Hst Hso Hq)|]. intros Hz.
    apply Hzero in Hz as [? ?]. by apply (steps_quiet v rest).
  - by apply IH; [eapply (Hsub v [])|eapply (Hseq v [])].
  - by apply IH; [eapply (Hsub v [n])|eapply (Hseq v [n])].
  - apply emit_sorted; [by eapply IH; [eapply (Hsub v [])|eapply (Hseq v [])]|by apply (Hemit _ _ _ [] _ _ Hst)|]. intros []%Hlate. lia.
  - by apply IH; [eapply (Hsub v [])|eapply (Hseq v [])].
  - apply emit_sorted; [by eapply IH; [eapply (Hsub v [])|eapply (Hseq v [])]|by apply (Hemit _ _ _ [] _ _ Hst)|]. intros Hz'. pose proof (Hzero _ Hz') as [Hbot _].
    by destruct (Hlate v (Hz Hbot) Hz').
  - by apply IH; [eapply (Hsub v [])|eapply (Hseq v [])].
  - by apply IH; [eapply (Hsub v [])|eapply (Hseq v [])].
  - by apply IH; [eapply (Hsub v skipped)|eapply (Hseq v skipped)].
  - apply emit_sorted; [by eapply IH; [eapply (Hsub v skipped)|eapply (Hseq v skipped)]|by apply (Hemit _ _ _ skipped _ _ Hst)|]. by intros []%Hlate.
  - apply emit_sorted; [by eapply IH; [eapply (Hsub v [])|eapply (Hseq v [])]|by apply (Hemit _ _ _ [] _ _ Hst)|]. intros Hz'. apply Hzero in Hz' as [? ?]. by eapply steps_quiet.
Qed.
End Steps.
