(* ===== verification/CompactionRun.v ===== *)
(** * Runs of the compaction iterator

    Over an input that keeps the contract of an internal iterator, the iterator does to
    the versions what [steps] says, and its assertions hold. *)

From S2P Require Import Prelude Coding Comparator DbFormat Iterator WriteBatch MemTable DbIter DbIterCorrect Block BlockCorrect BlockBuild CompactionIter CompactionCorrect.

#[local] Existing Instance vlt_dec.

(** ** Files below the output level *)

Section Beyond.
Context (user_Compare : bytes -> bytes -> Z) `{!TotalCompare user_Compare} (cp : Compaction).

Definition file_covers (k : bytes) (f : FileMetaData) : Prop := user_Compare (f_smallest f) k <= 0 /\ user_Compare k (f_largest f) <= 0.

(** The files of a level are disjoint and in order. *)
Definition level_sorted (files : list FileMetaData) : Prop :=
  StronglySorted (fun f g => user_Compare (f_largest f) (f_smallest g) < 0) files.

Definition levels_ok : Prop := length (co_levels cp) = co_number_levels cp /\ Forall level_sorted (co_levels cp).

(** The files before the pointer end before [k]. *)
Definition ptr_ok (k : bytes) (files : list FileMetaData) (p : nat) : Prop := forall j f, (j < p)%nat -> files !! j = Some f -> user_Compare (f_largest f) k < 0.

Definition ptrs_ok (k : bytes) (ptrs : list nat) : Prop :=
  length ptrs = co_number_levels cp /\ forall lvl files p, co_levels cp !! lvl = Some files -> ptrs !! lvl = Some p -> ptr_ok k files p.

Lemma ptr_covers k files p j f : ptr_ok k files p -> (j < p)%nat -> files !! j = Some f -> ~ file_covers k f.
Proof. intros Hp Hj Ef [_ Hc]. specialize (Hp j f Hj Ef). apply cmp_flip in Hp. lia. Qed.

Lemma scan_files_ok k files : level_sorted files -> forall n p, (length files - p = n)%nat -> ptr_ok k files p ->
  let '(hit, p') := scan_files user_Compare k (drop p files) p in ptr_ok k files p' /\ (hit = false -> forall f, f ∈ files -> ~ file_covers k f).
Proof.
  intros Hs. induction n as [|n IH]; intros p Hn Hp.
  - rewrite drop_ge by lia. cbn. split; [done|]. intros _ f [j Ef]%list_elem_of_lookup. apply (ptr_covers k files p j); [done| |done]. apply lookup_lt_Some in Ef. lia.
  - destruct (lookup_lt_is_Some_2 files p) as [f Ef]; [lia|]. rewrite (drop_S _ f p Ef). cbn [scan_files].
    destruct (Z.leb_spec (user_Compare k (f_largest f)) 0) as [Hle|Hgt].
    + split; [done|]. intros Hsm g [j Eg]%list_elem_of_lookup. rewrite Z.geb_leb in Hsm. apply Z.leb_gt in Hsm.
      destruct (Nat.lt_trichotomy j p) as [Hj|[->|Hj]]; [by apply (ptr_covers k files p j)|..].
      * rewrite Ef in Eg. injection Eg as <-. intros [Hc _]. apply cmp_flip in Hsm. lia.
      * intros [Hc _]. pose proof (sorted_lookup _ _ p j f g Hs Hj Ef Eg) as Hfg. cbn in Hfg.
        destruct (Z.eq_dec (user_Compare k (f_largest f)) 0) as [E%cmp_eq|]; [rewrite <- E in Hfg; apply cmp_flip in Hfg; lia|].
        assert (Hkl : user_Compare k (f_largest f) < 0) by lia. pose proof (cmp_trans _ _ _ Hkl Hfg) as Ht. apply cmp_flip in Ht. lia.
    + apply (IH (S p)); [lia|]. intros j g Hj Eg. destruct (decide (j = p)) as [->|]; [|apply (Hp j); [lia|done]].
      rewrite Ef in Eg. injection Eg as <-. by apply cmp_flip.
Qed.

Lemma ptrs_mono k k' ptrs : user_Compare k k' <= 0 -> ptrs_ok k ptrs -> ptrs_ok k' ptrs.
Proof.
  intros Hk [Hlen Hp]. split; [done|]. intros lvl files p Ef Ep j f Hj Efj. specialize (Hp lvl files p Ef Ep j f Hj Efj).
  destruct (Z.eq_dec (user_Compare k k') 0) as [E%cmp_eq|]; [by rewrite <- E|]. assert (Hlt : user_Compare k k' < 0) by lia. exact (cmp_trans _ _ _ Hp Hlt).
Qed.

Lemma ptrs_new k : ptrs_ok k (replicate (co_number_levels cp) O).
Proof. split; [by rewrite length_replicate|]. intros lvl files p _ [-> _]%lookup_replicate j f Hj. lia. Qed.

Lemma check_levels_ok k n : forall lvl ptrs, levels_ok -> ptrs_ok k ptrs -> (lvl + n <= co_number_levels cp)%nat ->
  exists r ptrs', check_levels user_Compare cp n lvl k ptrs = Some (r, ptrs') /\ ptrs_ok k ptrs' /\
    (r = true -> forall l files f, (lvl <= l < lvl + n)%nat -> co_levels cp !! l = Some files -> f ∈ files -> ~ file_covers k f).
Proof.
  induction n as [|n IH]; intros lvl ptrs [Hlen Hls] Hp Hn; cbn [check_levels]; [exists true, ptrs; split_and!; [done..|lia]|].
  destruct (lookup_lt_is_Some_2 (co_levels cp) lvl) as [files Ef]; [lia|]. destruct (lookup_lt_is_Some_2 ptrs lvl) as [p Ep]; [destruct Hp; lia|].
  rewrite Ef, Ep. cbn [mbind option_bind]. pose proof (Forall_lookup_1 _ _ _ _ Hls Ef) as Hs.
  pose proof (scan_files_ok k files Hs _ p eq_refl (proj2 Hp _ _ _ Ef Ep)) as Hscan. destruct (scan_files user_Compare k (drop p files) p) as [hit p'].
  destruct Hscan as [Hp' Hhit]. assert (Hptrs : ptrs_ok k (<[lvl:=p']> ptrs)).
  { destruct Hp as [Hl Hp]. split; [by rewrite length_insert|]. intros l fs q El Eq. destruct (decide (l = lvl)) as [->|Hne].
    - rewrite list_lookup_insert_eq in Eq by (apply lookup_lt_Some in Ep; done). injection Eq as <-. rewrite Ef in El. by injection El as <-.
    - rewrite list_lookup_insert_ne in Eq by done. by eapply Hp. }
  destruct hit; [by exists false, (<[lvl:=p']> ptrs)|].
  destruct (IH (S lvl) (<[lvl:=p']> ptrs) (conj Hlen Hls) Hptrs ltac:(lia)) as (r & ptrs' & Er & Hp'' & Hr). exists r, ptrs'. split_and!; [done..|].
  intros Hrt l fs f Hl El Hf. destruct (decide (l = lvl)) as [->|Hne]; [|apply (Hr Hrt l fs); [lia|done..]]. rewrite Ef in El. injection El as <-. by apply Hhit.
Qed.

(** What the levels below the output hold, while versions [vs] are compacted. *)
Definition held_below (vs lower : list version) : Prop :=
  forall w, w ∈ lower ->
    if co_bottommost_level cp then absent (v_key w) vs
    else exists l files f, (co_output_level cp < l < co_number_levels cp)%nat /\ co_levels cp !! l = Some files /\ f ∈ files /\ file_covers (v_key w) f.

Lemma beyond_ok vs lower v ptrs : levels_ok -> held_below vs lower -> v ∈ vs -> ptrs_ok (v_key v) ptrs ->
  exists r ptrs', KeyNotExistsBeyondOutputLevel user_Compare cp (v_key v) ptrs = Some (r, ptrs') /\ ptrs_ok (v_key v) ptrs' /\
    (r = true -> absent (v_key v) lower) /\ (co_bottommost_level cp = true -> r = true).
Proof.
  intros Hl Hh Hv Hp. unfold KeyNotExistsBeyondOutputLevel. destruct (Nat.eqb_spec (length ptrs) (co_number_levels cp)) as [|Hne]; [cbn|by destruct Hp].
  destruct (co_bottommost_level cp) eqn:Eb.
  - exists true, ptrs. split_and!; try done. intros _ w Hw Ek. specialize (Hh w Hw). rewrite Eb in Hh. by apply (Hh v).
  - destruct (negb (co_output_level cp =? 0)%nat && co_style_level cp); [|by exists false, ptrs].
    destruct (decide (S (co_output_level cp) <= co_number_levels cp)%nat) as [Hle|Hgt].
    + destruct (check_levels_ok (v_key v) (co_number_levels cp - S (co_output_level cp)) (S (co_output_level cp)) ptrs Hl Hp ltac:(lia)) as (r & ptrs' & Er & Hp' & Hr).
      exists r, ptrs'. split_and!; try done. intros Hrt w Hw Ek. specialize (Hh w Hw). rewrite Eb in Hh. destruct Hh as (l & files & f & Hrange & El & Hf & Hc).
      rewrite Ek in Hc. eapply (Hr Hrt l files f); [lia|done..].
    + replace (co_number_levels cp - S (co_output_level cp))%nat with O by lia. exists true, ptrs. split_and!; try done.
      intros _ w Hw Ek. specialize (Hh w Hw). rewrite Eb in Hh. destruct Hh as (l & files & f & Hrange & _). lia.
Qed.
End Beyond.

Lemma update_encode k q t q' t' : UpdateInternalKey (encode (mkParsed k q t)) q' t' = encode (mkParsed k q' t').
Proof.
  unfold UpdateInternalKey. rewrite encode_eq. destruct (app_footer k (memcpy_from 8 (PackSequenceAndType q t)) ltac:(apply memcpy_from_length)) as [E _].
  cbn [pk_user_key pk_sequence pk_type]. rewrite E. done.
Qed.

Lemma encode_key_inj p p' : encode p = encode p' -> pk_user_key p = pk_user_key p'.
Proof. rewrite !encode_eq. intros [E _]%app_inj_2; [done|]. by rewrite !memcpy_from_length. Qed.

(** ** The iterator over its input *)

(** Whether [PrepareOutput] zeroes a sequence number. *)
Definition zeroes (o : CompactionOptions) (q : Z) : bool :=
  match ci_compaction o with
  | Some cp => negb (co_allow_ingest_behind cp) && ikeyNotNeededForIncrementalSnapshot o cp (mkParsed [] q 0) && bottommost_level o && (q <=? earliest_snapshot o)
  | None => false
  end.

#[export] Instance hidden_dec snapshots u v : Decision (hidden snapshots u v).
Proof. destruct u; cbn; apply _. Defined.

Section Run.
Context {I : Type} `{InternalIterator I} (o : CompactionOptions) (fuel : nat) (seekable : bytes -> Prop)
  (inv : I -> Prop) (versions : I -> list version) (cur : I -> option version).
Abbreviation cmp := (ci_Compare o).
Context `{!TotalCompare cmp} `{!InternalIteratorLaws cmp seekable inv versions cur}.
Context (vs lower : list version).
Abbreviation snapshots := (ci_snapshots o).
Abbreviation stripe := (stripe snapshots).
Abbreviation first := (earliest_snapshot o).
Abbreviation steps := (steps snapshots (ci_earliest_write_conflict_snapshot o) lower (bottommost_level o) (zeroes o)).
Implicit Types c : CompactionIterator I.

Context (Hsorted : StronglySorted Z.lt snapshots) (Hpos : Forall (fun s => 0 < s <= kMaxSequenceNumber) snapshots).
Context (Hconflict : first <= ci_earliest_write_conflict_snapshot o).
Context (Htypes : plain_versions vs) (Hsingle : forall k, single_ok (history k (vs ++ lower))) (Hfuel : (length vs < fuel)%nat).
Context (Hlevels : match ci_compaction o with Some cp => levels_ok cmp cp /\ held_below cmp cp vs lower | None => True end).

(** *** The input *)

Definition input_at (i : I) (rest : list version) : Prop :=
  inv i /\ versions i = vs /\ cur i = head rest /\ exists pre, vs = pre ++ rest.

Lemma input_next i v rest : input_at i (v :: rest) -> exists i', Next i = Some i' /\ input_at i' rest.
Proof.
  intros (Hi & Ev & Hc & pre & Ep). destruct (ilaw_Next i pre v rest Hi) as (i' & En & Hi' & Ev' & Hc'); [congruence|done|].
  exists i'. split; [done|]. split_and!; [done|congruence|done|]. exists (pre ++ [v]). by rewrite <- app_assoc.
Qed.

Lemma input_ok i rest : input_at i rest -> StronglySorted (vlt cmp) vs /\ StronglySorted (vlt cmp) rest /\ Forall version_ok rest /\
  Forall (fun v => plain_type (v_type v)) rest /\ (forall k, single_ok (history k (rest ++ lower))) /\ (length rest <= length vs)%nat /\ forall v, v ∈ rest -> v ∈ vs.
Proof.
  intros (Hi & Ev & _ & pre & Ep). pose proof (ilaw_sorted i Hi) as Hs. rewrite Ev in Hs. split; [done|]. rewrite Ep in Hs, Htypes. apply StronglySorted_app in Hs as (_ & _ & Hs).
  apply Forall_app in Htypes as [_ Ht]. split_and!; try done.
  - apply Forall_forall. intros v Hv. apply (ilaw_versions i v Hi). rewrite Ev, Ep. apply elem_of_app. by right.
  - intros k. specialize (Hsingle k). rewrite Ep, <- app_assoc in Hsingle. by apply single_ok_app in Hsingle.
  - rewrite Ep, length_app. lia.
  - intros v Hv. rewrite Ep. apply elem_of_app. by right.
Qed.

Lemma input_Valid i rest : input_at i rest -> Valid i = match rest with [] => false | _ => true end.
Proof. intros (Hi & _ & Hc & _). rewrite (ilaw_Valid i Hi), Hc. by destruct rest. Qed.

Lemma input_entry i v rest : input_at i (v :: rest) -> key i = Some (encode (v_parsed v)) /\ value i = Some (v_value v) /\ ParseInternalKey (encode (v_parsed v)) = Some (v_parsed v).
Proof.
  intros Hi. pose proof (input_ok _ _ Hi) as (_ & _ & Hok & _). apply Forall_cons_1 in Hok as [[Hp _] _]. destruct Hi as (Hi & _ & Hc & _).
  rewrite (ilaw_key i Hi), (ilaw_value i Hi), Hc. split_and!; [done|done|]. by apply parse_encode.
Qed.

Lemma same_user_key_spec a b : same_user_key o a b = bool_decide (a = b).
Proof.
  unfold same_user_key. destruct (Z.eqb_spec (cmp a b) 0) as [E|E]; [apply cmp_eq in E; by rewrite bool_decide_eq_true_2|].
  rewrite bool_decide_eq_false_2; [done|]. intros ->. by rewrite cmp_refl in E.
Qed.

Lemma peek_ok i rest ikey : input_at i rest -> peek_same_key o ikey i =
  Some match rest with n :: _ => if decide (v_key n = pk_user_key ikey) then Some (v_parsed n) else None | [] => None end.
Proof.
  intros Hi. unfold peek_same_key. rewrite (input_Valid i rest Hi). destruct rest as [|n rest]; [done|]. destruct (input_entry i n rest Hi) as (-> & _ & Ep).
  cbn [mbind option_bind]. rewrite Ep. cbn [mbind option_bind]. rewrite same_user_key_spec. change (pk_user_key (v_parsed n)) with (v_key n).
  destruct (decide (v_key n = pk_user_key ikey)) as [E|E]; [rewrite bool_decide_eq_true_2 by done|rewrite bool_decide_eq_false_2 by congruence]; done.
Qed.

(** *** The state between two entries of the input *)

Definition ptrs_at (rest : list version) c : Prop :=
  match ci_compaction o with Some cp => forall v, v ∈ rest -> ptrs_ok cmp cp (v_key v) (ci_level_ptrs c) | None => True end.

(** [u] is the last version of the current key. *)
Definition after_version (u : version) c : Prop :=
  ci_has_current_user_key c = true /\ ci_current_user_key c = v_key u /\ ci_current_user_key_sequence c = v_seq u /\
  ci_current_user_key_snapshot c = stripe (v_seq u) /\ exists q t, ci_key c = encode (mkParsed (v_key u) q t).

Definition at_key (u : option version) (rest : list version) c : Prop :=
  match u with
  | Some u => after_version u c /\ forall v, v ∈ rest -> vlt cmp u v
  | None => ci_has_current_user_key c = false
  end.

Record at_state (u : option version) (clear : bool) (rest : list version) c : Prop := {
  as_input : input_at (ci_input c) rest;
  as_key : at_key u rest c;
  as_clear : ci_clear_and_output_next_key c = clear;
  as_next : clear = true -> exists u0 v rest', u = Some u0 /\ rest = v :: rest' /\ v_type v = kTypeValue /\ hidden snapshots (Some u0) v;
  as_status : ci_status c = OK;
  as_ptrs : ptrs_at rest c
}.

(** The state of a version [v] that has become the current one; [u] was before it. *)
Record entered (u : option version) (clear : bool) (v : version) (rest : list version) c : Prop := {
  en_input : input_at (ci_input c) (v :: rest);
  en_valid : ci_valid c = false /\ ci_at_next c = false;
  en_entry : ci_key c = encode (v_parsed v) /\ ci_value c = v_value v /\ ci_ikey c = v_parsed v;
  en_key : ci_has_current_user_key c = true /\ ci_current_user_key c = v_key v;
  en_last : v_seq v <= ci_current_user_key_sequence c;
  en_hidden : if decide (hidden snapshots u v) then ci_current_user_key_snapshot c = stripe (v_seq v)
              else ci_current_user_key_snapshot c = 0 \/ stripe (v_seq v) < ci_current_user_key_snapshot c;
  en_clear : ci_clear_and_output_next_key c = clear;
  en_status : ci_status c = OK;
  en_ptrs : ptrs_at (v :: rest) c
}.

Lemma seq_range v : version_ok v -> 0 <= v_seq v <= kMaxSequenceNumber.
Proof. intros [[Hs _] _]. exact Hs. Qed.

Lemma enter_ok u clear v rest c : at_state u clear (v :: rest) c -> ci_valid c = false -> ci_at_next c = false ->
  entered u clear v rest (enter_key o (encode (v_parsed v)) (v_value v) (v_parsed v) c).
Proof.
  intros [Hi Hk Hcl Hnx Hst Hp] HV HA. pose proof (input_ok _ _ Hi) as (_ & Hso & Hok & _). apply Forall_cons_1 in Hok as [Hv _].
  pose proof (seq_range v Hv) as Hs. pose proof (stripe_pos snapshots Hsorted Hpos (v_seq v)) as Hst0. unfold enter_key.
  assert (Hfresh : ci_has_current_user_key c = false \/ v_key v <> ci_current_user_key c -> ~ hidden snapshots u v).
  { intros Hf Hh. destruct u as [u|]; [|done]. destruct Hk as [(Hc & Ek & _) _], Hh as [Eh _]. destruct Hf; congruence. }
  rewrite same_user_key_spec. change (pk_user_key (v_parsed v)) with (v_key v).
  destruct (decide (ci_has_current_user_key c = false \/ v_key v <> ci_current_user_key c)) as [Hf|Hf].
  - assert (Ef : negb (ci_has_current_user_key c) || negb (bool_decide (v_key v = ci_current_user_key c)) = true).
    { destruct Hf as [->|Hf]; [done|]. rewrite bool_decide_eq_false_2 by done. by rewrite orb_true_r. }
    rewrite Ef. constructor; cbn; try done; [lia|]. rewrite decide_False by auto. by left.
  - assert (Hcur : ci_has_current_user_key c = true) by (destruct (ci_has_current_user_key c); [done|destruct Hf; by left]).
    assert (Ek : v_key v = ci_current_user_key c) by (destruct (decide (v_key v = ci_current_user_key c)); [done|destruct Hf; by right]).
    rewrite Hcur, bool_decide_eq_true_2 by done. cbn [negb orb]. destruct u as [u|]; [|cbn in Hk; congruence].
    destruct Hk as [(_ & Eu & Eseq & Esnap & q & t & Ekey) Hlt]. pose proof (older_seq cmp u v (Hlt v ltac:(left)) ltac:(congruence)) as Hold.
    assert (Eupd : UpdateInternalKey (ci_key c) (v_seq v) (v_type v) = encode (v_parsed v)) by (rewrite Ekey, update_encode; unfold v_parsed; congruence).
    change (pk_sequence (v_parsed v)) with (v_seq v). change (pk_type (v_parsed v)) with (v_type v). rewrite Eupd. destruct (encode_footer (v_parsed v) (proj1 Hv)) as [-> _].
    constructor; cbn -[encode]; try done; [lia|]. rewrite Esnap. case_decide as Hd; [by apply Hd|]. right.
    pose proof (stripe_mono snapshots Hsorted Hpos (v_seq v) (v_seq u) ltac:(lia)). assert (stripe (v_seq u) <> stripe (v_seq v)); [|lia].
    intros E. apply Hd. split; [congruence|done].
Qed.

(** *** What one round leads to *)

Definition emitted (w : version) (u' : option version) (clear' : bool) (rest' : list version) c : Prop :=
  ci_valid c = true /\ ci_key c = encode (v_parsed w) /\ ci_value c = v_value w /\ ci_ikey c = v_parsed w /\
  (zeroes o (v_seq w) = true -> v_type w = kTypeValue) /\
  exists i, (if ci_at_next c then Some (ci_input c) else Next (ci_input c)) = Some i /\ at_state u' clear' rest' (ci_set_input i c).

Definition outcome (u : option version) (clear : bool) (rest : list version) c : Prop :=
  (exists u' rest', ci_valid c = false /\ ci_at_next c = false /\ at_state u' false rest' c /\ (length rest' < length rest)%nat /\
     forall out, steps u' false rest' out -> steps u clear rest out) \/
  (exists w u' clear' rest', emitted w u' clear' rest' c /\ (length rest' < length rest)%nat /\
     forall out, steps u' clear' rest' out -> steps u clear rest (w :: out)).

(** The state when the stripe of the current version is known. *)
Record current (clear : bool) (v : version) (rest : list version) c : Prop := {
  cu_input : input_at (ci_input c) (v :: rest);
  cu_valid : ci_valid c = false;
  cu_at_next : ci_at_next c = false;
  cu_entry : ci_key c = encode (v_parsed v) /\ ci_value c = v_value v /\ ci_ikey c = v_parsed v;
  cu_after : after_version v c;
  cu_clear : ci_clear_and_output_next_key c = clear;
  cu_status : ci_status c = OK;
  cu_ptrs : ptrs_at (v :: rest) c
}.

Lemma current_sorted clear v rest c : current clear v rest c -> StronglySorted (vlt cmp) (v :: rest) /\ version_ok v /\ plain_type (v_type v) /\ v ∈ vs.
Proof.
  intros Hc. destruct (input_ok _ _ (cu_input _ _ _ _ Hc)) as (_ & Hs & Hok & Ht & _ & _ & Hin). apply Forall_cons_1 in Hok as [? _]. apply Forall_cons_1 in Ht as [? _].
  split_and!; try done. apply Hin. left.
Qed.

(** Moving the input behind the current version. *)
Lemma current_move clear v rest c i l rest' : current clear v rest c -> rest = l ++ rest' -> clear = false -> input_at i rest' -> at_state (Some v) false rest' (ci_set_input i c).
Proof.
  intros Hc Er -> Hi. destruct (current_sorted _ _ _ _ Hc) as (Hs & _). destruct Hc as [_ _ _ _ Ha Hcl Hst Hp]. constructor; try done.
  - split; [done|]. intros x Hx. apply (after_head _ _ _ Hs). rewrite Er. apply elem_of_app. by right.
  - unfold ptrs_at in *. destruct (ci_compaction o); [|done]. intros x Hx. apply Hp. right. rewrite Er. apply elem_of_app. by right.
Qed.

Lemma current_next clear v rest c : current clear v rest c -> exists i, Next (ci_input c) = Some i /\ input_at i rest.
Proof. intros Hc. exact (input_next _ _ _ (cu_input _ _ _ _ Hc)). Qed.

(** A version that is dropped alone. *)
Lemma drop_outcome u v rest c i : current false v rest c -> Next (ci_input c) = Some i -> input_at i rest ->
  (forall out, steps (Some v) false rest out -> steps u false (v :: rest) out) -> outcome u false (v :: rest) (ci_set_input i c).
Proof.
  intros Hc En Hi Hs. left. exists (Some v), rest. split_and!; [by apply (cu_valid _ _ _ _ Hc)|by apply (cu_at_next _ _ _ _ Hc)| |cbn; lia|done].
  by apply (current_move false v rest c i []).
Qed.

(** A version that is output, with the input still on it. *)
Lemma keep_outcome u v rest c : current false v rest c -> (zeroes o (v_seq v) = true -> v_type v = kTypeValue) ->
  (forall out, steps (Some v) false rest out -> steps u false (v :: rest) (v :: out)) -> outcome u false (v :: rest) (ci_set_valid true (ci_at_next c) c).
Proof.
  intros Hc Hz Hs. right. destruct (current_next _ _ _ _ Hc) as (i & En & Hi). destruct (cu_entry _ _ _ _ Hc) as (Ek & Ev & Ei).
  exists v, (Some v), false, rest. split_and!; [|cbn; lia|done]. split_and!; try done. exists i. cbn. rewrite (cu_at_next _ _ _ _ Hc). split; [done|].
  destruct (current_move false v rest c i [] rest Hc eq_refl eq_refl Hi) as [H1 H2 H3 H4 H5 H6]. by constructor.
Qed.

(** The files below the output level, asked for the current key. *)
Lemma beyond_call v rest c cp : StronglySorted (vlt cmp) (v :: rest) -> v ∈ vs -> ci_ikey c = v_parsed v -> ptrs_at (v :: rest) c -> ci_compaction o = Some cp ->
  exists r ptrs, let c' := ci_set_flags (ci_has_outputted_key c) (ci_clear_and_output_next_key c) ptrs c in
    key_not_beyond o cp c = Some (r, c') /\ ptrs_at (v :: rest) c' /\ (r = true -> absent (v_key v) lower) /\ (co_bottommost_level cp = true -> r = true).
Proof.
  intros Hs Hin Ei Hp Ecp. rewrite Ecp in Hlevels. destruct Hlevels as [Hlv Hh]. unfold ptrs_at in *. rewrite Ecp in *.
  destruct (beyond_ok cmp cp vs lower v (ci_level_ptrs c) Hlv Hh Hin (Hp v ltac:(left))) as (r & ptrs & Er & Hp' & Hr & Hb).
  unfold key_not_beyond. rewrite Ei. change (pk_user_key (v_parsed v)) with (v_key v). rewrite Er. cbn [mbind option_bind].
  exists r, ptrs. split_and!; try done. cbn. intros x [->|Hx]%elem_of_cons; [done|].
  apply (ptrs_mono cmp cp (v_key v)); [|exact Hp']. pose proof (after_head _ _ _ Hs x Hx) as Hlt. apply vlt_spec in Hlt as [?|[-> _]]; [lia|by rewrite cmp_refl|done].
Qed.

Lemma current_flags clear v rest c has_outputted ptrs : current clear v rest c -> ptrs_at (v :: rest) (ci_set_flags has_outputted clear ptrs c) ->
  current clear v rest (ci_set_flags has_outputted clear ptrs c).
Proof. intros [] Hp. by constructor. Qed.

Lemma zeroes_spec q : zeroes o q = true -> bottommost_level o = true /\ q <= first /\ exists cp, ci_compaction o = Some cp /\ co_bottommost_level cp = true /\
  ikeyNotNeededForIncrementalSnapshot o cp (mkParsed [] q 0) = true.
Proof.
  unfold zeroes, bottommost_level. destruct (ci_compaction o) as [cp|]; [|done]. intros [[[_ Hn]%andb_true_iff Hb]%andb_true_iff Hq%Z.leb_le]%andb_true_iff.
  split_and!; try done. by exists cp.
Qed.

Lemma in_same_snapshot_spec v n : v_key n = v_key v -> if in_same_snapshot (prev_snapshot snapshots (v_seq v)) (v_parsed n) then together snapshots v n
  else prev_snapshot snapshots (v_seq v) <> 0.
Proof.
  intros Ek. unfold in_same_snapshot. rewrite Z.gtb_ltb. change (pk_sequence (v_parsed n)) with (v_seq n).
  destruct (Z.eqb_spec (prev_snapshot snapshots (v_seq v)) 0) as [E|E]; cbn; [by split; [|left]|].
  destruct (Z.ltb_spec (prev_snapshot snapshots (v_seq v)) (v_seq n)); [by split; [|right]|done].
Qed.

Lemma late_zeroes v : first < v_seq v -> zeroes o (v_seq v) = true -> v_type v = kTypeValue.
Proof. intros Hl (_ & Hq & _)%zeroes_spec. lia. Qed.

(** *** Single deletions *)

(** No version of the key follows. *)
Lemma single_alone u v rest c i : current false v rest c -> v_type v = kTypeSingleDeletion -> input_at i rest -> next_key v rest ->
  exists c1 c', (let c := ci_set_user_key false (ci_current_user_key c) (ci_current_user_key_sequence c) (ci_current_user_key_snapshot c) (ci_set_input i c) in
    '(obsolete, c) ← match ci_compaction o with
                     | Some cp => if v_seq v <=? first then key_not_beyond o cp c else Some (false, c)
                     | None => Some (false, c)
                     end;
    Some (if obsolete : bool then c else ci_set_valid true (ci_at_next c) c)) = Some c1 /\
    (if ci_valid c1 then ci_set_valid true true c1 else c1) = c' /\ outcome u false (v :: rest) c'.
Proof.
  intros Hc Hv Hi Hn. destruct (current_sorted _ _ _ _ Hc) as (Hs & Hok & _ & Hin). pose proof Hc as [_ HV HA (Ek & Ev & Ei) Ha Hcl Hst Hp].
  cbv zeta. set (c0 := ci_set_user_key false _ _ _ _).
  assert (Hst0 : forall ptrs, ptrs_at (v :: rest) (ci_set_flags (ci_has_outputted_key c0) (ci_clear_and_output_next_key c0) ptrs c0) ->
    at_state None false rest (ci_set_flags (ci_has_outputted_key c0) (ci_clear_and_output_next_key c0) ptrs c0)).
  { intros ptrs Hptrs. constructor; try done. unfold ptrs_at in *. destruct (ci_compaction o); [|done]. intros x Hx. apply Hptrs. by right. }
  assert (Hout : forall ptrs, ptrs_at (v :: rest) (ci_set_flags (ci_has_outputted_key c0) (ci_clear_and_output_next_key c0) ptrs c0) ->
    (bottommost_level o = true -> first < v_seq v) ->
    outcome u false (v :: rest) (ci_set_valid true true (ci_set_valid true (ci_at_next c) (ci_set_flags (ci_has_outputted_key c0) (ci_clear_and_output_next_key c0) ptrs c0)))).
  { intros ptrs Hptrs Hb. right. exists v, None, false, rest. split_and!; [|cbn; lia|intros out; eapply (steps_single_keep _ _ _ _ _ _ None); auto]. split_and!; try done.
    - intros Hz. pose proof (zeroes_spec _ Hz) as (Hbot & Hq & _). specialize (Hb Hbot). lia.
    - exists i. split; [done|]. destruct (Hst0 ptrs Hptrs). by constructor. }
  case_eq (ci_compaction o); [intros cp Ecp|intros Ecp].
  - destruct (Z.leb_spec (v_seq v) first) as [Hle|Hgt].
    + destruct (beyond_call v rest c0 cp Hs Hin Ei Hp Ecp) as (r & ptrs & Er & Hp' & Hr & Hb). rewrite Er. cbn [mbind option_bind]. destruct r.
      * do 2 eexists. split; [done|]. split; [done|]. cbn [ci_valid ci_set_flags c0 ci_set_user_key ci_set_input]. rewrite HV. left. exists None, rest.
        split_and!; [done|done|by apply Hst0|cbn; lia|]. intros out. apply steps_single_obsolete; auto.
      * do 2 eexists. split; [done|]. split; [done|]. apply Hout; [done|]. unfold bottommost_level. rewrite Ecp. intros Hbot. by specialize (Hb Hbot).
    + do 2 eexists. split; [done|]. split; [done|]. exact (Hout (ci_level_ptrs c0) Hp (fun _ => Hgt)).
  - do 2 eexists. split; [done|]. split; [done|]. apply (Hout (ci_level_ptrs c0) Hp). unfold bottommost_level. by rewrite Ecp.
Qed.

(** The value behind a single deletion. *)
Lemma single_value v n rest i : input_at i (v :: n :: rest) -> v_type v = kTypeSingleDeletion -> v_key n = v_key v -> v_type n <> kTypeSingleDeletion -> v_type n = kTypeValue.
Proof.
  intros Hi Hv Ek Hn. destruct (input_ok _ _ Hi) as (_ & _ & _ & _ & Hs & _). specialize (Hs (v_key v)). cbn [app] in Hs.
  rewrite !history_cons_yes in Hs by done. destruct Hs as [Hs _]. by destruct (Hs Hv) as [?|[? _]].
Qed.

Lemma single_outcome u v rest c : current false v rest c -> v_type v = kTypeSingleDeletion ->
  exists c', single_deletion o (prev_snapshot snapshots (v_seq v)) c = Some c' /\ outcome u false (v :: rest) c'.
Proof.
  intros Hc Hv. destruct (current_sorted _ _ _ _ Hc) as (Hs & Hok & _ & _). pose proof Hc as [Hi0 HV HA (Ek & Ev & Ei) Ha Hcl Hst Hp].
  destruct (current_next _ _ _ _ Hc) as (i & En & Hi). unfold single_deletion. rewrite En. cbn [mbind option_bind]. rewrite (peek_ok i rest (ci_ikey c) Hi), Ei.
  cbn [mbind option_bind]. change (pk_user_key (v_parsed v)) with (v_key v). change (pk_sequence (v_parsed v)) with (v_seq v).
  assert (Halone : next_key v rest -> exists c1 c', (let c := ci_set_user_key false (ci_current_user_key c) (ci_current_user_key_sequence c) (ci_current_user_key_snapshot c) (ci_set_input i c) in
    '(obsolete, c) ← match ci_compaction o with
                     | Some cp => if v_seq v <=? first then key_not_beyond o cp c else Some (false, c)
                     | None => Some (false, c)
                     end;
    Some (if obsolete : bool then c else ci_set_valid true (ci_at_next c) c)) = Some c1 /\
    (if ci_valid c1 then ci_set_valid true true c1 else c1) = c' /\ outcome u false (v :: rest) c') by (by apply single_alone).
  destruct rest as [|n rest]; [destruct (Halone Logic.I) as (c1 & c' & E1 & E & Ho); exists c'; cbn [mbind option_bind] in E1; rewrite E1; cbn [mbind option_bind]; by rewrite E|].
  destruct (decide (v_key n = v_key v)) as [Ekn|Nkn]; [|destruct (Halone Nkn) as (c1 & c' & E1 & E & Ho); exists c'; cbn [mbind option_bind] in E1; rewrite E1; cbn [mbind option_bind]; by rewrite E].
  clear Halone. cbv zeta. pose proof (in_same_snapshot_spec v n Ekn) as Hsame. destruct (in_same_snapshot _ _).
  - change (pk_type (v_parsed n)) with (v_type n). destruct (Z.eqb_spec (v_type n) kTypeSingleDeletion) as [Hn|Hn].
    + exists (ci_set_input i c). cbn [mbind option_bind ci_valid ci_set_input]. rewrite HV. split; [done|]. apply drop_outcome; try done. intros out. by apply steps_single_skip.
    + pose proof (single_value v n rest _ Hi0 Hv Ekn Hn) as Hval. destruct (ci_has_outputted_key c || (v_seq v <=? ci_earliest_write_conflict_snapshot o)) eqn:Ed.
      * destruct (input_next i n rest Hi) as (i2 & E2 & Hi2). rewrite E2. exists (ci_set_input i2 c). cbn [mbind option_bind ci_valid ci_set_input]. rewrite HV. split; [done|].
        left. exists (Some v), rest. split_and!; [done|done|by apply (current_move false v (n :: rest) c i2 [n])|cbn; lia|]. intros out. by apply steps_single_pair.
      * apply orb_false_iff in Ed as [_ Ed%Z.leb_gt]. eexists. split; [done|]. right. exists v, (Some v), true, (n :: rest).
        split_and!; [|cbn; lia|intros out; apply steps_single_clear; try done; lia]. split_and!; try done; [apply late_zeroes; lia|]. exists i. split; [done|].
        destruct (current_move false v (n :: rest) c i [] (n :: rest) Hc eq_refl eq_refl Hi) as [A1 A2 A3 A4 A5 A6]. constructor; try done. intros _.
        exists v, n, rest. split_and!; try done. split; [done|]. symmetry. eapply (together_stripe cmp); try done. apply (after_head _ _ _ Hs). left.
  - eexists. split; [done|]. right. exists v, (Some v), false, (n :: rest). pose proof (prev_first snapshots Hsorted Hpos _ Hsame) as Hfirst.
    split_and!; [|cbn; lia|intros out; eapply (steps_single_keep _ _ _ _ _ _ (Some v)); auto]. split_and!; try done; [by apply late_zeroes|]. exists i. split; [done|].
    destruct (current_move false v (n :: rest) c i [] (n :: rest) Hc eq_refl eq_refl Hi) as [A1 A2 A3 A4 A5 A6]. by constructor.
Qed.

(** *** Deletions at the bottom *)

Lemma skip_snapshot_ok v n : forall rest i, input_at i rest -> (length rest < n)%nat -> exists i' skipped rest',
  skip_snapshot o n (prev_snapshot snapshots (v_seq v)) (v_parsed v) i = Some i' /\ rest = skipped ++ rest' /\ input_at i' rest' /\ Forall (together snapshots v) skipped /\
  (next_key v rest' \/ ((exists x r, rest' = x :: r /\ v_key x = v_key v) /\ prev_snapshot snapshots (v_seq v) <> 0)).
Proof.
  induction n as [|n IH]; intros rest i Hi Hn; [lia|]. cbn [skip_snapshot]. rewrite (peek_ok i rest _ Hi). cbn [mbind option_bind].
  change (pk_user_key (v_parsed v)) with (v_key v). destruct rest as [|x rest]; [exists i, [], []; split_and!; try done; by left|].
  destruct (decide (v_key x = v_key v)) as [Ek|Nk]; [|exists i, [], (x :: rest); split_and!; try done; by left].
  pose proof (in_same_snapshot_spec v x Ek) as Hsame. destruct (in_same_snapshot _ _).
  - destruct (input_next i x rest Hi) as (i1 & -> & Hi1). cbn [mbind option_bind]. destruct (IH rest i1 Hi1 ltac:(cbn in Hn; lia)) as (i' & sk & rest' & E & Er & Hi' & Hsk & Hn').
    exists i', (x :: sk), rest'. split_and!; try done; [by rewrite Er|by constructor].
  - exists i, [], (x :: rest). split_and!; try done. right. split; [|done]. by exists x, rest.
Qed.

Lemma bottom_absent cp v : ci_compaction o = Some cp -> co_bottommost_level cp = true -> v ∈ vs -> absent (v_key v) lower.
Proof.
  intros Ecp Eb Hv w Hw Ek. pose proof Hlevels as Hl. rewrite Ecp in Hl. destruct Hl as [_ Hh]. specialize (Hh w Hw). rewrite Eb in Hh. by apply (Hh v).
Qed.

Lemma bottom_outcome u v rest c cp : current false v rest c -> v_type v = kTypeDeletion -> ~ hidden snapshots u v -> ci_compaction o = Some cp -> co_bottommost_level cp = true ->
  exists c', bottommost_deletion o fuel (prev_snapshot snapshots (v_seq v)) c = Some c' /\ outcome u false (v :: rest) c'.
Proof.
  intros Hc Hv Hh Ecp Eb. destruct (current_sorted _ _ _ _ Hc) as (Hs & Hok & _ & Hin). pose proof Hc as [Hi0 HV HA (Ek & Ev & Ei) Ha Hcl Hst Hp].
  destruct (current_next _ _ _ _ Hc) as (i & En & Hi). destruct (input_ok _ _ Hi) as (_ & _ & _ & _ & _ & Hlen & _).
  destruct (skip_snapshot_ok v fuel rest i Hi ltac:(lia)) as (i' & sk & rest' & Es & Er & Hi' & Hsk & Hn).
  unfold bottommost_deletion. rewrite En. cbn [mbind option_bind]. rewrite Ei, Es. cbn [mbind option_bind]. rewrite (peek_ok i' rest' _ Hi'). cbn [mbind option_bind].
  change (pk_user_key (v_parsed v)) with (v_key v). eexists. split; [done|]. pose proof (current_move false v rest c i' sk rest' Hc Er eq_refl Hi') as Hat.
  assert (Hl : (length rest' < length (v :: rest))%nat) by (rewrite Er; cbn; rewrite length_app; lia).
  destruct Hn as [Hn|[(x & r & -> & Ex) Hprev]].
  - left. exists (Some v), rest'. assert (Enone : match rest' with n :: _ => if decide (v_key n = v_key v) then Some (v_parsed n) else None | [] => None end = None).
    { destruct rest' as [|n r]; [done|]. by rewrite decide_False. }
    rewrite Enone. split_and!; try done. intros out. rewrite Er. apply steps_bottom_drop; try done. by eapply bottom_absent.
  - rewrite decide_True by done. right. exists v, (Some v), false, (x :: r). pose proof (prev_first snapshots Hsorted Hpos _ Hprev) as Hfirst.
    split_and!; [|done|intros out; rewrite Er; by apply steps_bottom_keep]. split_and!; try done; [by apply late_zeroes|]. exists i'. split; [done|].
    destruct Hat as [A1 A2 A3 A4 A5 A6]. by constructor.
Qed.

(** *** One round *)

Lemma obsolete_ok u v rest c : current false v rest c -> ~ hidden snapshots u v -> exists r c', obsolete_deletion o c = Some (r, c') /\ current false v rest c' /\
  (r = true -> v_type v = kTypeDeletion /\ v_seq v <= first /\ absent (v_key v) lower).
Proof.
  intros Hc Hh. destruct (current_sorted _ _ _ _ Hc) as (Hs & Hok & _ & Hin). pose proof Hc as [Hi0 HV HA (Ek & Ev & Ei) Ha Hcl Hst Hp].
  unfold obsolete_deletion. rewrite Ei. change (pk_type (v_parsed v)) with (v_type v). change (pk_sequence (v_parsed v)) with (v_seq v).
  case_eq (ci_compaction o); [intros cp Ecp|intros Ecp; by exists false, c].
  destruct (Z.eqb_spec (v_type v) kTypeDeletion) as [Et|]; [|by exists false, c]. destruct (Z.leb_spec (v_seq v) first); [|by exists false, c]. cbn [andb].
  destruct (ikeyNotNeededForIncrementalSnapshot _ _ _); [|by exists false, c].
  destruct (beyond_call v rest c cp Hs Hin Ei Hp Ecp) as (r & ptrs & Er & Hp' & Hr & _). exists r. eexists. split; [exact Er|]. rewrite Hcl in *.
  split; [by apply current_flags|]. intros Hrt. by split_and!; [| |apply Hr].
Qed.

Lemma stripes_ok seq : (if bool_decide (ci_snapshots o = []) then Some (0, first) else findEarliestVisibleSnapshot o seq) = Some (prev_snapshot snapshots seq, stripe seq).
Proof.
  unfold findEarliestVisibleSnapshot, earliest_snapshot, prev_snapshot, CompactionCorrect.stripe. destruct (ci_snapshots o) as [|s l]; [done|].
  rewrite bool_decide_eq_false_2 by done. by rewrite <- surjective_pairing.
Qed.

Lemma keep_case v cp : ci_compaction o = Some cp -> bottommost_deletion_case o (v_parsed v) = false -> v_type v = kTypeDeletion -> zeroes o (v_seq v) = false.
Proof.
  intros Ecp Hb Ht. destruct (zeroes o (v_seq v)) eqn:Ez; [|done]. apply zeroes_spec in Ez as (_ & _ & cp' & Ecp' & Hbot & Hn). rewrite Ecp in Ecp'. injection Ecp' as <-.
  unfold bottommost_deletion_case in Hb. rewrite Ecp in Hb. change (pk_type (v_parsed v)) with (v_type v) in Hb. rewrite Ht, Hbot in Hb. cbn [andb] in Hb.
  unfold ikeyNotNeededForIncrementalSnapshot in *. cbn [pk_sequence v_parsed] in *. rewrite Hn in Hb. done.
Qed.

Lemma keep_case_ok v : bottommost_deletion_case o (v_parsed v) = false -> v_type v = kTypeDeletion -> zeroes o (v_seq v) = false.
Proof.
  intros Hb Ht. case_eq (ci_compaction o); [intros cp Ecp; by eapply keep_case|]. intros Ecp. unfold zeroes. by rewrite Ecp.
Qed.

Lemma process_clear u v rest c : current true v rest c -> v_type v = kTypeValue -> hidden snapshots u v ->
  outcome u true (v :: rest) (ci_set_flags (ci_has_outputted_key c) false (ci_level_ptrs c) (ci_set_valid true (ci_at_next c) (ci_set_entry (ci_key c) [] (ci_ikey c) c))).
Proof.
  intros Hc Hv Hh. destruct (current_sorted _ _ _ _ Hc) as (Hs & _). destruct (current_next _ _ _ _ Hc) as (i & En & Hi). destruct Hc as [Hi0 HV HA (Ek & Ev & Ei) Ha Hcl Hst Hp].
  destruct u as [u|]; [|done]. right. exists (cleared v), (Some v), false, rest. split_and!; [|cbn; lia|intros out; by apply steps_clear].
  split_and!; try done. exists i. split; [cbn; by rewrite HA|]. constructor; try done.
  - split; [done|]. intros x Hx. by apply (after_head _ _ _ Hs).
  - unfold ptrs_at in *. destruct (ci_compaction o); [|done]. intros x Hx. apply Hp. by right.
Qed.

Lemma process_ok u clear v rest c : entered u clear v rest c -> (clear = true -> v_type v = kTypeValue /\ hidden snapshots u v) ->
  exists c', process_key o fuel c = Some (false, c') /\ outcome u clear (v :: rest) c'.
Proof.
  intros [Hi [HV HA] (Ek & Ev & Ei) [Hcur Ecur] Hlast Hhid Hcl Hst Hp] Hclear. unfold process_key. rewrite Ei. change (pk_sequence (v_parsed v)) with (v_seq v).
  change (pk_type (v_parsed v)) with (v_type v). rewrite stripes_ok. cbn [mbind option_bind].
  set (c1 := ci_set_user_key _ _ _ _ c). assert (Hc : current clear v rest c1).
  { constructor; try done. split_and!; try done. cbn -[encode]. exists (v_seq v), (v_type v). exact Ek. }
  change (ci_clear_and_output_next_key c1) with (ci_clear_and_output_next_key c). rewrite Hcl. destruct clear.
  - destruct (Hclear eq_refl) as [Hv Hh]. rewrite decide_True in Hhid by done. rewrite Hhid, Hv, !Z.eqb_refl. cbn [negb orb].
    eexists. split; [done|]. rewrite <- Ei. by apply (process_clear u v rest c1).
  - destruct (Z.eqb_spec (v_type v) kTypeSingleDeletion) as [Hs|Hs].
    + destruct (single_outcome u v rest c1 Hc Hs) as (c' & -> & Ho). by exists c'.
    + pose proof (stripe_pos snapshots Hsorted Hpos (v_seq v)) as Hsp. destruct (decide (hidden snapshots u v)) as [Hh|Hh].
      * rewrite Hhid, Z.eqb_refl. cbn [orb]. rewrite Z.geb_leb, (proj2 (Z.leb_le _ _)) by done. destruct (current_next _ _ _ _ Hc) as (i & En & Hi'). rewrite En.
        eexists. split; [done|]. eapply drop_outcome; try done. intros out. by apply steps_hidden.
      * assert (Enh : (ci_current_user_key_snapshot c =? stripe (v_seq v)) ||
          ((ci_current_user_key_snapshot c >? 0) && (ci_current_user_key_snapshot c <? stripe (v_seq v))) = false).
        { rewrite Z.gtb_ltb. destruct Hhid as [->|Hhid]; [by rewrite (proj2 (Z.eqb_neq _ _)) by lia|].
          rewrite (proj2 (Z.eqb_neq _ _)), (proj2 (Z.ltb_ge (ci_current_user_key_snapshot c) _)) by lia. by rewrite andb_false_r. }
        rewrite Enh. destruct (obsolete_ok u v rest c1 Hc Hh) as (r & c2 & -> & Hc2 & Hr). cbn [mbind option_bind]. destruct r.
        -- destruct (Hr eq_refl) as (Ht & Hf & Hab). destruct (current_next _ _ _ _ Hc2) as (i & En & Hi'). rewrite En. eexists. split; [done|].
           eapply drop_outcome; try done. intros out. by apply steps_obsolete.
        -- destruct (bottommost_deletion_case o (v_parsed v)) eqn:Eb.
           ++ pose proof Eb as Eb'. unfold bottommost_deletion_case in Eb'. case_eq (ci_compaction o); [intros cp Ecp|intros Ecp; by rewrite Ecp in Eb'].
              rewrite Ecp in Eb'. apply andb_true_iff in Eb' as [[Ht%Z.eqb_eq Hbot]%andb_true_iff _]. destruct (bottom_outcome u v rest c2 cp Hc2 Ht Hh Ecp Hbot) as (c' & -> & Ho).
              by exists c'.
           ++ destruct (current_sorted _ _ _ _ Hc) as (_ & _ & Hk & _). assert (Hm : v_type v <> kTypeMerge) by (destruct Hk as [->|[->| ->]]; done).
              rewrite (proj2 (Z.eqb_neq _ _) Hm). eexists. split; [done|]. apply keep_outcome; [done| |].
              ** intros Hz. destruct Hk as [?|[Ht|?]]; [done|by rewrite (keep_case_ok v Eb Ht) in Hz|done].
              ** intros out. apply steps_keep; [done|done|]. by apply keep_case_ok.
Qed.

(** *** The loops *)

Lemma at_state_valid u clear rest c a b : at_state u clear rest c -> at_state u clear rest (ci_set_valid a b c).
Proof. intros []. by constructor. Qed.

(** The loop of [NextFromInput]: to the end of the input or to the next output. *)
Lemma next_loop_ok n : forall rest u clear c, at_state u clear rest c -> ci_valid c = false -> ci_at_next c = false -> (length rest < n)%nat ->
  exists c', next_loop o fuel n c = Some c' /\
    ((ci_valid c' = false /\ ci_status c' = OK /\ steps u clear rest []) \/
     exists w u' clear' rest', emitted w u' clear' rest' c' /\ (length rest' < length rest)%nat /\ forall out, steps u' clear' rest' out -> steps u clear rest (w :: out)).
Proof.
  induction n as [|n IH]; intros rest u clear c Hat HV HA Hn; [lia|]. cbn [next_loop]. pose proof Hat as [Hi Hk Hcl Hnx Hst Hp]. rewrite HV, (input_Valid _ _ Hi). cbn [negb andb].
  destruct rest as [|v rest].
  - exists c. split; [done|]. left. split_and!; try done. destruct clear; [|apply steps_nil]. destruct (Hnx eq_refl) as (? & ? & ? & _ & ? & _). done.
  - destruct (input_entry _ _ _ Hi) as (-> & -> & Ep). cbn [mbind option_bind]. rewrite Ep.
    destruct (process_ok u clear v rest _ (enter_ok u clear v rest c Hat HV HA)) as (c1 & -> & Ho).
    { intros Hc. destruct (Hnx Hc) as (u0 & v0 & r0 & -> & [= <- <-] & Hv & Hh). done. }
    cbn [mbind option_bind]. destruct Ho as [(u' & rest' & HV' & HA' & Hat' & Hl & Hs)|(w & u' & clear' & rest' & He & Hl & Hs)].
    + destruct (IH rest' u' false c1 Hat' HV' HA' ltac:(lia)) as (c' & E' & Hres). exists c'. split; [done|].
      destruct Hres as [(? & ? & ?)|(w & u2 & clear2 & rest2 & He & Hl2 & Hs2)]; [left; split_and!; auto|]. right. exists w, u2, clear2, rest2. split_and!; [done|lia|auto].
    + exists c1. split.
      * destruct n as [|n]; [cbn in Hn; lia|]. cbn [next_loop]. by rewrite (proj1 He).
      * right. by exists w, u', clear', rest'.
Qed.

(** The output as it is shown: the version [w] with its sequence number zeroed or not. *)
Definition shows (w : version) (u' : option version) (clear' : bool) (rest' : list version) c : Prop :=
  ci_valid c = true /\ (ci_key c, ci_value c) = (encode (v_parsed (zeroed (zeroes o) w)), v_value w) /\
  exists i, (if ci_at_next c then Some (ci_input c) else Next (ci_input c)) = Some i /\ at_state u' clear' rest' (ci_set_input i c).

Lemma prepare_ok w u' clear' rest' c : emitted w u' clear' rest' c ->
  exists c', PrepareOutput o c = Some c' /\ shows w u' clear' rest' c'.
Proof.
  intros (HV & Ek & Ev & Ei & Hz & i & En & Hat). unfold PrepareOutput.
  assert (Hkeep : zeroes o (v_seq w) = false -> shows w u' clear' rest' c).
  { intros Ez. split_and!; [done| |by exists i]. unfold zeroed. by rewrite Ez, Ek, Ev. }
  case_eq (ci_compaction o); [intros cp Ecp|intros Ecp; exists c; split; [done|]; apply Hkeep; unfold zeroes; by rewrite Ecp].
  rewrite HV, Ei. change (pk_sequence (v_parsed w)) with (v_seq w). change (pk_type (v_parsed w)) with (v_type w). cbn [andb].
  assert (Ez : negb (co_allow_ingest_behind cp) && ikeyNotNeededForIncrementalSnapshot o cp (v_parsed w) && bottommost_level o && (v_seq w <=? first) = zeroes o (v_seq w)).
  { unfold zeroes. rewrite Ecp. done. }
  rewrite Ez. destruct (zeroes o (v_seq w)) eqn:Ezw; [|exists c; by split; [|apply Hkeep]]. rewrite (Hz eq_refl). cbn [andb negb orb Z.eqb].
  eexists. split; [done|]. split_and!; [done| |].
  - cbn -[encode UpdateInternalKey]. rewrite Ek, Ev. unfold zeroed. rewrite Ezw. f_equal. unfold v_parsed. rewrite update_encode. by rewrite (Hz eq_refl).
  - exists i. split; [done|]. destruct Hat as [A1 A2 A3 A4 A5 A6]. constructor; try done. destruct u' as [u0|]; [|done]. destruct A2 as [(B1 & B2 & B3 & B4 & q & t & B6) B5].
    assert (Hu : v_key w = v_key u0) by (change (encode (v_parsed w) = encode (mkParsed (v_key u0) q t)) in B6 || (cbn -[encode] in B6; rewrite Ek in B6); by apply encode_key_inj in B6).
    split; [|done]. split_and!; try done. exists 0, (v_type w). cbn -[encode UpdateInternalKey]. rewrite Ek. unfold v_parsed. rewrite update_encode, Hu. by rewrite (Hz eq_refl).
Qed.

Lemma from_state_ok rest u clear c : at_state u clear rest c -> exists c', NextFromInput o fuel c = Some c' /\
    ((ci_valid c' = false /\ ci_status c' = OK /\ steps u clear rest []) \/
     exists w u' clear' rest', emitted w u' clear' rest' c' /\ (length rest' < length rest)%nat /\ forall out, steps u' clear' rest' out -> steps u clear rest (w :: out)).
Proof.
  intros Hat. destruct (input_ok _ _ (as_input _ _ _ _ Hat)) as (_ & _ & _ & _ & _ & Hl & _). unfold NextFromInput.
  apply (next_loop_ok fuel rest u clear (ci_set_valid false false c)); [by apply at_state_valid|done|done|lia].
Qed.

Lemma shows_status w u' clear' rest' c : shows w u' clear' rest' c -> ci_status c = OK.
Proof. intros (_ & _ & i & _ & Hat). exact (as_status _ _ _ _ Hat). Qed.

(** The rest of the output. *)
Lemma output_ok n : forall rest u clear c, at_state u clear rest c -> (length rest < n)%nat ->
  exists c1 out c', (c1 ← NextFromInput o fuel c; PrepareOutput o (if ci_valid c1 then ci_set_flags true (ci_clear_and_output_next_key c1) (ci_level_ptrs c1) c1 else c1)) = Some c1 /\
    output_loop o fuel n c1 = Some ((fun w => (encode (v_parsed w), v_value w)) <$> (zeroed (zeroes o) <$> out), c') /\ ci_status c' = OK /\ steps u clear rest out.
Proof.
  induction n as [|n IH]; intros rest u clear c Hat Hn; [lia|]. destruct (from_state_ok rest u clear c Hat) as (c0 & -> & Hres). cbn [mbind option_bind].
  destruct Hres as [(HV & Hst & Hs)|(w & u' & clear' & rest' & He & Hl & Hs)].
  - rewrite HV. exists c0, [], c0. unfold PrepareOutput. rewrite HV. cbn [andb output_loop]. rewrite HV. split_and!; try done. by destruct (ci_compaction o).
  - rewrite (proj1 He). assert (He' : emitted w u' clear' rest' (ci_set_flags true (ci_clear_and_output_next_key c0) (ci_level_ptrs c0) c0)).
    { destruct He as (HV & Ek & Ev & Ei & Hz & i & En & [A1 A2 A3 A4 A5 A6]). split_and!; try done. exists i. split; [done|]. by constructor. }
    destruct (prepare_ok _ _ _ _ _ He') as (c1 & E1 & Hsh). pose proof Hsh as (HV1 & Ekv & i & En & Hat'). exists c1.
    destruct (IH rest' u' clear' _ Hat' ltac:(lia)) as (c2 & out & c' & E2 & Eo & Hst & Hsteps). exists (w :: out), c'. split_and!; [exact E1| |done|by apply Hs].
    cbn [output_loop]. rewrite HV1. unfold ci_Next. rewrite En. cbn [mbind option_bind]. rewrite E2. cbn [mbind option_bind]. rewrite Eo. cbn [mbind option_bind fmap list_fmap].
    do 3 f_equal. rewrite Ekv. f_equal. unfold zeroed. by destruct (zeroes o (v_seq w)).
Qed.

Lemma ascending_ok l : StronglySorted Z.lt l -> ascending l = true.
Proof.
  induction 1 as [|x l Hs IH Hx]; [done|]. destruct l as [|y l]; [done|]. change (ascending (x :: y :: l)) with ((x <? y) && ascending (y :: l)).
  rewrite IH. apply Forall_cons_1 in Hx as [Hx _]. by rewrite (proj2 (Z.ltb_lt _ _)).
Qed.

(** A whole run over an input that holds [vs]. *)
Lemma compaction_output_ok input : inv input -> versions input = vs -> exists out c,
  compaction_output o fuel input = Some ((fun w => (encode (v_parsed w), v_value w)) <$> (zeroed (zeroes o) <$> out), c) /\ ci_status c = OK /\ steps None false vs out.
Proof.
  intros Hi Ev. destruct (ilaw_SeekToFirst input Hi) as (i & E & Hi' & Ev' & Hc). unfold compaction_output, CompactionIterator_new. rewrite E. cbn [mbind option_bind].
  rewrite (ascending_ok _ Hsorted). cbn [mbind option_bind]. set (c0 := mkCompactionIterator _ _ _ _ _ _ _ _ _ _ _ _ _ _).
  assert (Hat : at_state None false vs c0).
  { constructor; try done.
    - split_and!; [done|exact (eq_trans Ev' Ev)|rewrite <- Ev; exact Hc|by exists []].
    - unfold ptrs_at, c0. cbn. destruct (ci_compaction o) as [cp|]; [|done]. intros v _. apply ptrs_new. }
  assert (Hn : exists n, fuel = S n) by (exists (pred fuel); lia). destruct Hn as [n Efuel].
  unfold ci_SeekToFirst. destruct (from_state_ok vs None false c0 Hat) as (c1 & -> & Hres). cbn [mbind option_bind].
  destruct Hres as [(HV & Hst & Hs)|(w & u' & clear' & rest' & He & Hl & Hs)].
  - exists [], c1. unfold PrepareOutput. rewrite HV. cbn [andb].
    case (ci_compaction o); intros; cbn [mbind option_bind]; rewrite Efuel at 2; cbn [output_loop]; rewrite HV; done.
  - destruct (prepare_ok _ _ _ _ _ He) as (c2 & -> & Hsh). cbn [mbind option_bind]. destruct Hsh as (HV & Ekv & i' & En & Hat').
    destruct (output_ok n rest' u' clear' _ Hat' ltac:(lia)) as (c3 & out & c' & E3 & Eo & Hst & Hsteps).
    exists (w :: out), c'. split_and!; [|done|by apply Hs]. rewrite Efuel at 2. cbn [output_loop]. rewrite HV. unfold ci_Next. rewrite En. cbn [mbind option_bind].
    rewrite E3. cbn [mbind option_bind]. rewrite Eo. cbn [mbind option_bind fmap list_fmap]. do 3 f_equal. rewrite Ekv. f_equal. unfold zeroed. by destruct (zeroes o (v_seq w)).
Qed.
End Run.

(** ** What compactions keep *)

(** What the iterator relies on: ascending snapshots, of which none is the first state of
    the store; a write conflict boundary that is not before the first snapshot; values,
    deletions, and single deletions used as documented; and lower levels with older
    versions, in the files that the compaction knows of. *)
Record compaction_ok (o : CompactionOptions) (vs lower : list version) : Prop := {
  ok_snapshots : StronglySorted Z.lt (ci_snapshots o) /\ Forall (fun s => 0 < s <= kMaxSequenceNumber) (ci_snapshots o);
  ok_conflict : earliest_snapshot o <= ci_earliest_write_conflict_snapshot o;
  ok_types : plain_versions vs;
  ok_single : forall k, single_ok (history k (vs ++ lower));
  ok_older : older_below lower vs;
  ok_levels : match ci_compaction o with Some cp => levels_ok (ci_Compare o) cp /\ held_below (ci_Compare o) cp vs lower | None => True end
}.

Lemma zeroed_version_ok o v : version_ok v -> version_ok (zeroed (zeroes o) v).
Proof. unfold zeroed. destruct (zeroes o (v_seq v)); [|done]. intros ((Hs & Ht) & Hk & Hv). split_and!; try done. Qed.

Lemma output_version_ok snapshots wc lower bottom z u c vs out : steps snapshots wc lower bottom z u c vs out -> Forall version_ok vs -> Forall version_ok out.
Proof.
  intros Hst Hok. rewrite Forall_forall in *. intros w Hw. destruct (steps_from _ _ _ _ _ _ _ _ _ Hst w Hw) as (v & Hv & Ek & Es & Et & Ev).
  destruct (Hok v Hv) as (Hp & Hk & Hval). unfold version_ok, v_parsed. rewrite Ek, Es, Et. split_and!; try apply Hp; [done|]. destruct Ev as [->| ->]; done.
Qed.

Lemma zeroed_bound o out : block_bound (zeroed (zeroes o) <$> out) = block_bound out.
Proof. unfold block_bound. induction out as [|v out IH]; cbn; [done|]. rewrite IH. unfold zeroed. by destruct (zeroes o (v_seq v)). Qed.

Lemma bound_sum vs : block_bound vs = 8 + foldr (fun v n => (zlen (v_key v) + zlen (v_value v) + 27) + n) 0 vs.
Proof. unfold block_bound. induction vs as [|v vs IH]; cbn; lia. Qed.

Lemma output_bound snapshots wc lower bottom z u c vs out : steps snapshots wc lower bottom z u c vs out -> block_bound out <= block_bound vs.
Proof. intros Hst. rewrite !bound_sum. apply Z.add_le_mono_l. eapply steps_size, Hst. intros v. unfold cleared, zlen. cbn. lia. Qed.

Lemma output_length snapshots wc lower bottom z u c vs out : steps snapshots wc lower bottom z u c vs out -> (length out <= length vs)%nat.
Proof.
  intros Hst. assert (E : forall l : list version, foldr (fun v n => 1 + n) 0 l = zlen l) by (unfold zlen; induction l as [|v l IH]; cbn [foldr length]; lia).
  apply (steps_size _ _ _ _ _ (fun _ => 1)) in Hst; [|lia]. rewrite !E in Hst. unfold zlen in Hst. lia.
Qed.

Lemma output_reads {I} `{InternalIterator I} o fuel seekable (inv : I -> Prop) (versions : I -> list version) (cur : I -> option version)
    `{!TotalCompare (ci_Compare o)} `{!InternalIteratorLaws (ci_Compare o) seekable inv versions cur} input lower :
  inv input -> (length (versions input) < fuel)%nat -> compaction_ok o (versions input) lower ->
  exists out c, compaction_output o fuel input = Some ((fun w => (encode (v_parsed w), v_value w)) <$> out, c) /\ ci_status c = OK /\
    StronglySorted (vlt (ci_Compare o)) out /\ Forall version_ok out /\ (length out <= length (versions input))%nat /\ block_bound out <= block_bound (versions input) /\
    Forall (fun w => exists v, v ∈ versions input /\ v_key w = v_key v /\ v_type w = v_type v /\ v_seq w = if zeroes o (v_seq v) then 0 else v_seq v) out /\
    forall s k, live_reader (ci_snapshots o) s (versions input) -> read_runs s k out lower = read_runs s k (versions input) lower.
Proof.
  intros Hi Hf [[Hs Hp] Hwc Ht Hsg Ho Hl]. set (vs := versions input) in *.
  destruct (compaction_output_ok o fuel seekable inv versions cur vs lower Hs Hp Hwc Ht Hsg Hf Hl input Hi eq_refl) as (out & c & E & Hst & Hsteps).
  pose proof (ilaw_sorted input Hi) as Hso. assert (Hok : Forall version_ok vs) by (apply Forall_forall; intros v Hv; by apply (ilaw_versions input v Hi)).
  assert (Hq : seqs_ok vs) by (eapply Forall_impl; [exact Hok|]; apply seq_range).
  assert (Hz : forall q, zeroes o q = true -> bottommost_level o = true /\ q <= first_snapshot (ci_snapshots o)) by (intros q Hq'; by destruct (zeroes_spec o vs lower Hl q Hq') as (? & ? & _)).
  exists (zeroed (zeroes o) <$> out), c. split_and!; try done.
  - by eapply (steps_sorted (ci_Compare o)).
  - apply Forall_fmap. eapply Forall_impl; [by eapply output_version_ok|]. intros v. apply zeroed_version_ok.
  - rewrite length_fmap. by eapply output_length.
  - rewrite zeroed_bound. by eapply output_bound.
  - apply Forall_fmap, Forall_forall. intros w Hw. destruct (steps_from _ _ _ _ _ _ _ _ _ Hsteps w Hw) as (v & Hv & Ek & Es & Et & _).
    exists v. split; [done|]. rewrite <- Et, <- Ek, <- Es. unfold zeroed. by destruct (zeroes o (v_seq w)).
  - intros s k Hr. rewrite (read_zeroed _ _ _ _ _ Hs Hp Hz s k None false vs out Hsteps Hr Hq).
    eapply (steps_reads (ci_Compare o)); try done. left. by intros [].
Qed.

(** C3. Flushes and compactions keep what can be read. Over any input that keeps the
    contract of an internal iterator, with values, deletions and documented uses of single
    deletions, a run of the compaction iterator comes to its end without a failed
    assertion and writes well-formed versions in the order of internal keys. For every
    live snapshot, and for a reader of the newest state, each key reads the same in the
    output above the lower levels as in the input above them: no visible value is lost,
    no deleted value comes back, and the zeroed sequence numbers hide nothing. *)
Theorem compaction_preserves_reads {I} `{InternalIterator I} o fuel seekable (inv : I -> Prop) (versions : I -> list version) (cur : I -> option version)
    `{!TotalCompare (ci_Compare o)} `{!InternalIteratorLaws (ci_Compare o) seekable inv versions cur} input lower :
  inv input -> (length (versions input) < fuel)%nat -> compaction_ok o (versions input) lower ->
  exists out c, compaction_output o fuel input = Some ((fun w => (encode (v_parsed w), v_value w)) <$> out, c) /\ ci_status c = OK /\
    StronglySorted (vlt (ci_Compare o)) out /\ Forall version_ok out /\
    forall s k, live_reader (ci_snapshots o) s (versions input) -> read_runs s k out lower = read_runs s k (versions input) lower.
Proof. intros Hi Hf Ho. destruct (output_reads o fuel seekable inv versions cur input lower Hi Hf Ho) as (out & c & E & Hc & Hs & Hok & _ & _ & _ & Hr). by exists out, c. Qed.

(** ** A concrete compaction

    Into level 1 of 3, with one snapshot, of a block. The level below holds an older
    version of the second key. *)

Definition compacted_versions : list version :=
  [mkVersion 9 kTypeValue [97] [1]; mkVersion 8 kTypeValue [97] [2]; mkVersion 4 kTypeValue [97] [3]; mkVersion 3 kTypeDeletion [97] [];
   mkVersion 7 kTypeDeletion [98] []; mkVersion 6 kTypeSingleDeletion [99] []; mkVersion 2 kTypeValue [99] [4]; mkVersion 3 kTypeDeletion [100] []].

Definition lower_versions : list version := [mkVersion 1 kTypeValue [98] [5]].

Definition sample_compaction : Compaction := mkCompaction false 1 3 true [[]; []; [mkFileMetaData [98] [98]]] false false.

Definition sample_options : CompactionOptions := mkCompactionOptions BytewiseCompare [5] 9 true (Some sample_compaction) 0.

Lemma compacted_single k : single_ok (history k (compacted_versions ++ lower_versions)).
Proof.
  unfold history, lower_versions. cbn [compacted_versions app]. repeat (rewrite filter_cons; cbn [v_key]).
  destruct (decide ([97] = k)) as [<-|Ha]; [vm_compute; repeat split; solve [discriminate|auto]|].
  destruct (decide ([98] = k)) as [<-|Hb]; [vm_compute; repeat split; solve [discriminate|auto]|].
  destruct (decide ([99] = k)) as [<-|Hc]; [vm_compute; repeat split; solve [discriminate|auto]|].
  destruct (decide ([100] = k)) as [<-|Hd]; vm_compute; repeat split; solve [discriminate|auto].
Qed.

Lemma sample_compaction_ok : compaction_ok sample_options compacted_versions lower_versions.
Proof.
  split.
  - split; repeat constructor; vm_compute; discriminate || reflexivity.
  - vm_compute. discriminate.
  - repeat apply Forall_cons_2; [vm_compute; auto..|constructor].
  - exact compacted_single.
  - intros v w Hv ->%list_elem_of_singleton Hk. unfold compacted_versions in Hv. rewrite !elem_of_cons in Hv.
    destruct Hv as [->|[->|[->|[->|[->|[->|[->|[->|Hv]]]]]]]]; try discriminate Hk; [reflexivity|by apply elem_of_nil in Hv].
  - split; [split; [reflexivity|]; repeat constructor|]. intros w ->%list_elem_of_singleton. cbn.
    exists 2%nat, [mkFileMetaData [98] [98]], (mkFileMetaData [98] [98]). split; [lia|]. split; [reflexivity|]. split; [left|]. split; vm_compute; discriminate.
Qed.

Lemma compaction_preserves_reads_witness :
  exists data blk out c, build_block 2 true kDataBlockBinarySearch kDefaultUtilRatio compacted_versions = Some data /\ Block_new data = Some blk /\
    compaction_output (H := block_iterator BytewiseCompare) sample_options 9 (NewDataIterator blk kDisableGlobalSequenceNumber) =
      Some ((fun w => (encode (v_parsed w), v_value w)) <$> out, c) /\
    read_runs 5 [97] out lower_versions = Some [3] /\ read_runs 9 [97] out lower_versions = Some [1] /\
    read_runs 9 [98] out lower_versions = None /\ read_runs 5 [98] out lower_versions = Some [5].
Proof.
  destruct (build_block_laws BytewiseCompare 2 true kDataBlockBinarySearch kDefaultUtilRatio compacted_versions) as (data & blk & inv & E & Eb & Hi & Hl).
  - lia.
  - repeat constructor; vm_compute; reflexivity || discriminate.
  - repeat (apply SSorted_cons || apply SSorted_nil || constructor); vm_compute; reflexivity.
  - vm_compute. reflexivity.
  - discriminate.
  - destruct (compaction_preserves_reads (H := block_iterator BytewiseCompare) sample_options 9 (fun _ => True) inv (fun _ => compacted_versions) bi_cur
      (NewDataIterator blk kDisableGlobalSequenceNumber) lower_versions Hi) as (out & c & Eo & _ & _ & _ & Hr).
    + vm_compute. lia.
    + exact sample_compaction_ok.
    + assert (Hnew : live_reader [5] 9 compacted_versions).
      { right. apply Forall_forall. repeat constructor; vm_compute; discriminate. }
      assert (Hold : live_reader [5] 5 compacted_versions) by (left; left).
      exists data, blk, out, c. split_and!; [exact E|exact Eb|exact Eo|rewrite Hr by exact Hold|rewrite Hr by exact Hnew|rewrite Hr by exact Hnew|rewrite Hr by exact Hold];
        vm_compute; reflexivity.
Defined.
