(* ===== verification/MemStore.v ===== *)
(** * A store of one memtable behind the interface of the p2KVS programs

    [WriteBatch] and a memtable together keep the contract of [KVStore]: a write
    numbers the batch with the next sequence numbers, inserts it and publishes the
    last of them ([DBImpl::WriteImpl] of a writer alone in its group, while the log takes
    its records and the memtable is not full), and a read looks at the memtable at the
    last published sequence number ([DBImpl::GetImpl] of a store without immutable
    memtables and files). Past the last sequence number an assertion fails. Iteration over the store is an argument, which
    MemTableIter gives. *)

From S2P Require Import Prelude Comparator Iterator DbFormat KVStore WriteBatch MemTable SkipListRep.

(** ** Batches *)

#[export] Instance write_batch : Batch WriteBatch := {|
  batch_new := WriteBatch_new 0 0;
  batch_Put := fun b k v => (WriteBatch_Put b 0 k v).2;
  batch_Clear := WriteBatch_Clear |}.

Definition put_record (e : entry) : record := RPut 0 e.1 e.2.

Definition put_ok (e : entry) : Prop := zlen e.1 + 8 < 2 ^ 32 /\ zlen e.2 < 2 ^ 32.

(** The puts that iterating over the batch shows. *)
Definition batch_puts (b : WriteBatch) : list entry :=
  match Iterate collector b [] with
  | Some (_, recs) => omap (fun r => match r with RPut _ k v => Some (k, v) | _ => None end) recs
  | None => []
  end.

Definition batch_of_puts (b : WriteBatch) : Prop :=
  exists ops, holds b 0 (put_record <$> ops) /\ Forall put_ok ops /\ zlen ops < 2 ^ 32 /\
    0 <= content_flags_ b /\ max_bytes_ b = 0 /\ timestamp_size_ b = 0.

Lemma count_of_puts (ops : list entry) : count_of (put_record <$> ops) = zlen ops.
Proof.
  induction ops as [|e ops IH]; [done|]. rewrite fmap_cons.
  change (put_record e :: (put_record <$> ops)) with ([put_record e] ++ (put_record <$> ops)).
  rewrite count_of_app, count_of_one, IH. unfold zlen. cbn [counted put_record length]. lia.
Qed.

Lemma collector_puts (ops : list entry) st : it_s st = OK ->
  it_h (run_records collector (put_record <$> ops) st).1 = it_h st ++ (put_record <$> ops).
Proof.
  revert st. induction ops as [|e ops IH]; intros st Hs; [by cbn; rewrite app_nil_r|].
  rewrite fmap_cons. cbn [run_records]. rewrite Hs. change (ok OK) with true. cbv iota.
  change (h_Continue collector (it_h st)) with true. cbv iota. rewrite IH by done.
  change (it_h (handle_record collector (put_record e) st)) with (it_h st ++ [put_record e]).
  by rewrite <- app_assoc.
Qed.

Lemma batch_puts_holds b seq ops : holds b seq (put_record <$> ops) -> batch_puts b = ops.
Proof.
  intros Hh. unfold batch_puts. rewrite (iterate_holds _ _ _ _ _ collector_no_try_again Hh). cbn [it_s it_h].
  rewrite collector_puts by done. cbn [it_h app]. clear. induction ops as [|[k v] ops IH]; [done|].
  rewrite fmap_cons. cbn. by rewrite IH.
Qed.

Lemma put_ok_plain e : put_ok e -> plain_record (put_record e).
Proof. intros [? ?]. eexists. split; [reflexivity|done]. Qed.

Lemma put_ok_record e : put_ok e -> record_ok (stamped 0 (put_record e)).
Proof. intros [? ?]. cbn. rewrite app_nil_r. unfold slice_ok, cf_ok. split_and!; lia. Qed.

#[export] Instance write_batch_laws : BatchLaws batch_of_puts batch_puts.
Proof.
  split.
  - split; [|reflexivity]. exists []. split_and!; [apply holds_new|constructor|reflexivity|done..].
  - intros b k v (ops & Hh & Hok & Hl & Hf & Hm & Ht) Hk Hv Hn. rewrite (batch_puts_holds _ _ _ Hh) in *.
    cbn [batch_Put write_batch].
    assert (Hokr : record_ok (stamped (timestamp_size_ b) (put_record (k, v)))) by (rewrite Ht; by apply put_ok_record).
    destruct (WriteBatch_Put b 0 k v) as [s b'] eqn:E.
    assert (Hadd : add_record b (put_record (k, v)) = Some (s, b')) by (cbn; by rewrite E).
    destruct (add_record_cases b 0 _ _ s b' Hh Hf ltac:(lia) Hokr ltac:(rewrite count_of_puts; lia) Hadd)
      as [(_ & Eb & Hh')|(_ & _ & _ & Hmx & _)]; [|done].
    assert (Est : stamped (timestamp_size_ b) (put_record (k, v)) = put_record (k, v)).
    { rewrite Ht. cbn. by rewrite app_nil_r. }
    rewrite Est in *. destruct (written_frame b (put_record (k, v))) as (Em & Et & _ & _ & Hf'). rewrite <- Eb in *.
    assert (Hh2 : holds b' 0 (put_record <$> (ops ++ [(k, v)]))) by (by rewrite fmap_app).
    cbn [snd]. split; [|by apply batch_puts_holds in Hh2]. exists (ops ++ [(k, v)]).
    split_and!; [done|by apply Forall_app; split; [|constructor]|unfold zlen in *; rewrite length_app; cbn; lia|by apply Hf'|congruence|congruence].
  - intros b (ops & Hh & Hok & Hl & Hf & Hm & Ht). split; [|reflexivity].
    exists []. split_and!; [|constructor|reflexivity|done|done|done].
    destruct (holds_new 0 0). by split.
Qed.

(** ** The store *)

Section Store.
Context (user_Compare : bytes -> bytes -> Z) `{!TotalCompare user_Compare}.
Context {T : Type} `{!MemTableRep T} (entries : RepView T) `{!MemTableRepLaws user_Compare entries}.

Record memdb := mkMemdb { md_mem : MemTable T; md_last_sequence : Z }.

(** [DBImpl::WriteImpl] of a writer that leads a group of its own, without a callback, in
    a store with one write queue and without pipelined and unordered writes, as by default.
    What [PreprocessWrite] and [WriteToWAL] return are arguments; [PreprocessWrite] leaves
    the memtable as it is while that is not full. [None] where an assertion fails. *)
Definition memdb_WriteImpl (sync disableWAL ignore_missing_column_families : bool) (preprocess io_s : Status)
    (s : memdb) (my_batch : WriteBatch) : option (Status * memdb) :=
  if sync && disableWAL then Some (InvalidArgument, s)
  else if negb (ok preprocess) then Some (preprocess, s)
  else
    let last_sequence := md_last_sequence s in
    let status := if disableWAL then OK else io_s in
    if last_sequence =? kMaxSequenceNumber then None
    else
      let current_sequence := u64 (last_sequence + 1) in
      let last_sequence := u64 (last_sequence + Count my_batch) in
      if ok status then
        '(w_status, mem, _) ← InsertInto user_Compare false ignore_missing_column_families true
                                (SetSequence my_batch current_sequence) (md_mem s);
        if md_last_sequence s <=? last_sequence then Some (w_status, mkMemdb mem last_sequence) else None
      else Some (status, s).

(** The write with the default [WriteOptions], as the interface shows it, while the log
    takes the record: whether it succeeded. *)
Definition memdb_Write (s : memdb) (b : WriteBatch) : bool * memdb :=
  match memdb_WriteImpl false false false OK OK s b with
  | Some (status, s') => (ok status, s')
  | None => (false, s)
  end.

Definition get_lookup (merge_operator : option MergeOperator) (k : bytes) : lookup :=
  mkLookup k 0 merge_operator true None false true false.

Definition no_result : Saver := mkSaver OK false false None 0 [] false.

(** [Version::Get] of a version that has no files. *)
Definition Version_Get (merge_operator : option MergeOperator) (k : bytes) (sv : Saver) : option (Status * option bytes) :=
  if bool_decide (sv_status sv = MergeInProgress) then
    match merge_operator with
    | None => Some (InvalidArgument, sv_value sv)
    | Some op =>
        '(status, v) ← TimedFullMerge op k None (reverse (sv_operands sv));
        Some (status, Some v)
    end
  else Some (NotFound, sv_value sv).

(** [DBImpl::GetImpl] without a snapshot, of a store without immutable memtables and
    without files: the status and the value. *)
Definition memdb_GetImpl (merge_operator : option MergeOperator) (s : memdb) (k : bytes) : option (Status * option bytes) :=
  '(found, sv) ← Get user_Compare (md_mem s) (get_lookup merge_operator k) (md_last_sequence s) no_result;
  if found : bool then Some (sv_status sv, sv_value sv)
  else if negb (ok (sv_status sv)) && negb (bool_decide (sv_status sv = MergeInProgress)) then Some (sv_status sv, sv_value sv)
  else Version_Get merge_operator k sv.

(** The value of a read that returns OK, as the interface shows it. *)
Definition memdb_Get (s : memdb) (k : bytes) : option bytes :=
  match memdb_GetImpl None s k with
  | Some (status, v) => if ok status then v else None
  | None => None
  end.

(** The map: the newest version of every key. *)
Fixpoint version_map (vs : list version) : gmap bytes bytes :=
  match vs with
  | [] => ∅
  | v :: vs' => match version_value v with Some x => <[v_key v := x]> (version_map vs') | None => delete (v_key v) (version_map vs') end
  end.

(** The version an entry stands for. *)
Definition version_of (e : bytes) : version :=
  match ParseInternalKey (entry_key e) with
  | Some p => mkVersion (pk_sequence p) (pk_type p) (pk_user_key p) (entry_value e)
  | None => mkVersion 0 0 [] []
  end.

Definition memdb_contents (s : memdb) : gmap bytes bytes := version_map (version_of <$> entries (table_ (md_mem s))).

Definition memdb_inv (s : memdb) : Prop :=
  md_last_sequence s <= kMaxSequenceNumber /\
  exists vs, mem_inv user_Compare entries (md_mem s) vs (md_last_sequence s) /\ Forall (fun v => plain_type (v_type v)) vs.

Lemma version_of_entry v : version_ok v -> version_of (entry_of v) = v.
Proof.
  intros Hv. unfold version_of. rewrite entry_key_of, entry_value_of by done. destruct Hv as (Hp & _).
  rewrite parse_encode by done. by destruct v.
Qed.

Lemma contents_versions s vs : mem_inv user_Compare entries (md_mem s) vs (md_last_sequence s) ->
  memdb_contents s = version_map vs.
Proof.
  intros [[_ He Hok _ _ _ _ _] _]. unfold memdb_contents. rewrite He, <- list_fmap_compose.
  f_equal. clear He. induction Hok as [|v vs Hv _ IH]; [done|]. cbn. by rewrite version_of_entry, IH.
Qed.

Lemma version_map_newest (vs : list version) k s : Forall (fun v => v_seq v <= s) vs ->
  version_map vs !! k = newest vs k s ≫= version_value.
Proof.
  intros Hs. induction Hs as [|v vs Hv _ IH]; [done|]. cbn [version_map]. unfold newest in *. rewrite filter_cons.
  destruct (decide (visible k s v)) as [[<- _]|Hn]; cbn.
  - destruct (version_value v); [by rewrite lookup_insert_eq|by rewrite lookup_delete_eq].
  - assert (v_key v <> k) by (intros E; by apply Hn).
    destruct (version_value v); [by rewrite lookup_insert_ne|by rewrite lookup_delete_ne].
Qed.

Lemma SetSequence_holds b recs seq : holds b 0 recs -> 0 <= seq < 2 ^ 64 -> holds (SetSequence b seq) seq recs.
Proof.
  intros [Hr _ Hc Hrec Hf] Hs. split; [|done..]. cbn [SetSequence set_rep rep_]. by rewrite Hr.
Qed.

Lemma versions_of_puts (ops : list entry) seq k s : seq + zlen ops - 1 <= s ->
  version_value <$> last (filter (visible k s) (record_versions seq (put_record <$> ops)))
  = (fun e : entry => Some e.2) <$> last (filter (fun e : entry => e.1 = k) ops).
Proof.
  revert seq. induction ops as [|[k' v'] ops IH]; intros seq Hs; [done|].
  rewrite fmap_cons. cbn [record_versions put_record record_version fst snd]. rewrite !filter_cons. cbn [fst].
  assert (El : zlen ((k', v') :: ops) = 1 + zlen ops) by (unfold zlen; cbn [length]; lia). rewrite El in Hs.
  specialize (IH (seq + 1) ltac:(lia)). pose proof (zlen_nonneg ops).
  destruct (decide (k' = k)) as [Ek|Ek].
  - rewrite decide_True by (split; cbn; [done|lia]). rewrite !last_cons.
    destruct (last (filter (visible k s) _)), (last (filter _ ops)); cbn in IH |- *; done.
  - rewrite decide_False by (by intros [? _]). done.
Qed.

Lemma puts_plain (ops : list entry) : Forall put_ok ops -> Forall plain_record (put_record <$> ops).
Proof. intros Hok. apply Forall_fmap. eapply Forall_impl; [exact Hok|]. intros e. apply put_ok_plain. Qed.

(** The map after the puts have been inserted. *)
Lemma contents_after_puts s m' vs (ops : list entry) :
  mem_inv user_Compare entries (md_mem s) vs (md_last_sequence s) -> Forall put_ok ops ->
  mem_inv user_Compare entries m' (insert_records user_Compare vs (md_last_sequence s + 1) (put_record <$> ops)) (md_last_sequence s + zlen ops) ->
  memdb_contents (mkMemdb m' (md_last_sequence s + zlen ops)) = apply_puts ops (memdb_contents s).
Proof.
  intros Hm Hok Hm2. rewrite (contents_versions (mkMemdb m' (md_last_sequence s + zlen ops)) _ Hm2), (contents_versions _ _ Hm).
  apply map_eq. intros k. rewrite apply_puts_lookup.
  rewrite (version_map_newest _ k (md_last_sequence s + zlen ops)) by apply Hm2.
  rewrite (newest_insert_records user_Compare _ _ (md_last_sequence s)); [|apply Hm|apply Hm|lia|by apply puts_plain].
  pose proof (versions_of_puts ops (md_last_sequence s + 1) k (md_last_sequence s + zlen ops) ltac:(lia)) as Ev.
  destruct (last (filter (visible k _) _)), (last (filter _ ops)); cbn in Ev |- *; try done; [congruence|].
  symmetry. apply version_map_newest. eapply Forall_impl; [exact (mi_last _ _ _ _ _ Hm)|]. cbn. pose proof (zlen_nonneg ops). intros; lia.
Qed.

(** What a write of a batch of puts does to a store with room for their sequence numbers. *)
Lemma WriteImpl_spec sync disableWAL ign s b : memdb_inv s -> batch_of_puts b -> sync && disableWAL = false ->
  md_last_sequence s < kMaxSequenceNumber -> md_last_sequence s + zlen (batch_puts b) <= kMaxSequenceNumber ->
  exists s', memdb_WriteImpl sync disableWAL ign OK OK s b = Some (OK, s') /\ memdb_inv s' /\
    md_last_sequence s' = md_last_sequence s + zlen (batch_puts b) /\
    memdb_contents s' = apply_puts (batch_puts b) (memdb_contents s).
Proof.
  intros (Hmax & vs & Hm & Hty) (ops & Hh & Hok & Hl & Hf & Hmx & Hts) Hopt Hlt Hroom. rewrite (batch_puts_holds _ _ _ Hh) in *.
  pose proof (mi_first _ _ _ _ _ Hm) as Hlast. pose proof (zlen_nonneg ops). set (seq := md_last_sequence s + 1).
  assert (Hseq : 0 <= seq < 2 ^ 64) by (change kMaxSequenceNumber with (2 ^ 56 - 1) in *; lia).
  pose proof (SetSequence_holds b _ seq Hh Hseq) as Hh'. pose proof (puts_plain ops Hok) as Hpl.
  assert (El : zlen (put_record <$> ops) = zlen ops) by (unfold zlen; by rewrite length_fmap).
  destruct (InsertInto_holds user_Compare entries ign true (SetSequence b seq) seq _ (md_mem s) vs (md_last_sequence s) Hh' Hpl Hm)
    as (m' & Em & Hm'); [lia..|].
  assert (Hm2 : mem_inv user_Compare entries m' (insert_records user_Compare vs seq (put_record <$> ops)) (md_last_sequence s + zlen ops)).
  { destruct ops as [|e ops]; rewrite ?fmap_cons in Hm'; [by unfold zlen; rewrite Z.add_0_r|].
    by replace (md_last_sequence s + zlen (e :: ops)) with (seq + zlen (put_record <$> e :: ops) - 1) by (unfold seq in *; rewrite El; lia). }
  exists (mkMemdb m' (md_last_sequence s + zlen ops)). split.
  { unfold memdb_WriteImpl. rewrite Hopt, (holds_Count _ _ _ Hh), count_of_puts. change (negb (ok OK)) with false. cbv iota.
    destruct (Z.eqb_spec (md_last_sequence s) kMaxSequenceNumber); [lia|].
    replace (if disableWAL then OK else OK) with OK by (by destruct disableWAL). change (ok OK) with true. cbv iota.
    change kMaxSequenceNumber with (2 ^ 56 - 1) in *. rewrite !u64_small by lia. fold seq. rewrite Em. cbn [mbind option_bind].
    destruct (Z.leb_spec (md_last_sequence s) (md_last_sequence s + zlen ops)); [done|lia]. }
  split; [split; [cbn; lia|eexists; split; [exact Hm2|by apply insert_records_plain]]|]. split; [done|].
  by apply (contents_after_puts _ m' vs ops).
Qed.

(** Without that room the store stops at an assertion. *)
Lemma WriteImpl_overflow sync disableWAL ign s b : memdb_inv s -> batch_of_puts b -> sync && disableWAL = false -> kMaxSequenceNumber < md_last_sequence s + zlen (batch_puts b) ->
  memdb_WriteImpl sync disableWAL ign OK OK s b = None.
Proof.
  intros (Hmax & vs & Hm & Hty) (ops & Hh & Hok & Hl & Hf & Hmx & Hts) Hopt Hover. rewrite (batch_puts_holds _ _ _ Hh) in *.
  pose proof (mi_first _ _ _ _ _ Hm) as Hlast. unfold memdb_WriteImpl. rewrite Hopt. change (negb (ok OK)) with false. cbv iota.
  destruct (Z.eqb_spec (md_last_sequence s) kMaxSequenceNumber); [done|].
  replace (if disableWAL then OK else OK) with OK by (by destruct disableWAL). change (ok OK) with true. cbv iota.
  assert (El : zlen (put_record <$> ops) = zlen ops) by (unfold zlen; by rewrite length_fmap).
  assert (Hseq : 0 <= md_last_sequence s + 1 < 2 ^ 64) by (change kMaxSequenceNumber with (2 ^ 56 - 1) in *; lia).
  rewrite (u64_small (md_last_sequence s + 1)) by done.
  by rewrite (InsertInto_overflow user_Compare entries ign true _ _ _ (md_mem s) vs (md_last_sequence s)
    (SetSequence_holds b _ _ Hh Hseq) (puts_plain ops Hok) Hm) by lia.
Qed.

Lemma memdb_Write_spec s b : memdb_inv s -> batch_of_puts b -> (memdb_Write s b).1 = true ->
  memdb_inv (memdb_Write s b).2 /\
  memdb_contents (memdb_Write s b).2 = apply_puts (batch_puts b) (memdb_contents s).
Proof.
  intros Hs Hb Hw. unfold memdb_Write in *. pose proof (proj1 Hs) as Hmax.
  destruct (Z.lt_ge_cases kMaxSequenceNumber (md_last_sequence s + zlen (batch_puts b))) as [Hov|Hroom]; [by rewrite WriteImpl_overflow in Hw|].
  destruct (Z.eq_dec (md_last_sequence s) kMaxSequenceNumber) as [E|].
  { unfold memdb_WriteImpl in Hw. by rewrite E in Hw. }
  destruct (WriteImpl_spec false false false s b Hs Hb eq_refl) as (s' & -> & Hs' & _ & Hc); [lia..|done].
Qed.

(** A read finds the last value, and reports NotFound where there is none. *)
Lemma GetImpl_spec s k : memdb_inv s -> zlen k + 8 < 2 ^ 32 ->
  memdb_GetImpl None s k = Some (if memdb_contents s !! k is Some _ then OK else NotFound, memdb_contents s !! k).
Proof.
  intros (Hmax & vs & Hm & Hty) Hk. rewrite (contents_versions _ _ Hm).
  rewrite (version_map_newest _ k (md_last_sequence s)) by exact (mi_last _ _ _ _ _ Hm). unfold memdb_GetImpl.
  pose proof (mi_first _ _ _ _ _ Hm) as Hf.
  pose proof (no_tombstones user_Compare (md_mem s) (get_lookup None k) (md_last_sequence s) (mi_range _ _ _ _ _ Hm)) as Hcov.
  destruct (decide (vs = [])) as [->|Hne].
  - unfold Get. destruct (_ =? 0); [done|]. rewrite Hcov. cbn [newest mbind option_bind].
    rewrite (law_rep_Seek user_Compare), (mi_entries _ _ _ _ _ Hm) by exact (mi_table _ _ _ _ _ Hm). done.
  - rewrite (Get_newest user_Compare entries _ vs (md_last_sequence s)); [|apply Hm|exact Hcov|done|done|lia|done| |done].
    + cbn [get_lookup l_user_key mbind option_bind]. destruct (newest vs k (md_last_sequence s)) as [v|] eqn:E; [|done]. cbn.
      unfold version_value. by destruct (v_type v =? kTypeValue).
    + intros v Hv. unfold newest in Hv. apply head_Some_elem_of, list_elem_of_filter in Hv as [_ Hv].
      rewrite Forall_forall in Hty. by apply Hty.
Qed.

Lemma memdb_Get_spec s k : memdb_inv s -> zlen k + 8 < 2 ^ 32 -> memdb_Get s k = memdb_contents s !! k.
Proof. intros Hs Hk. unfold memdb_Get. rewrite GetImpl_spec by done. by destruct (memdb_contents s !! k). Qed.

Definition memdb_new (latest : Z) : memdb := mkMemdb (MemTable_new latest) latest.

Lemma memdb_new_inv latest : 0 <= latest <= kMaxSequenceNumber ->
  memdb_inv (memdb_new latest) /\ memdb_contents (memdb_new latest) = ∅.
Proof.
  intros Hl. pose proof (mem_inv_new user_Compare entries latest ltac:(lia)) as Hm.
  split; [split; [cbn; lia|by exists []]|]. by rewrite (contents_versions (memdb_new latest) _ Hm).
Qed.

(** The batches in order, with whether every write succeeded. *)
Fixpoint memdb_run (s : memdb) (bs : list WriteBatch) : bool * memdb :=
  match bs with
  | [] => (true, s)
  | b :: bs' =>
      let '(ok1, s1) := memdb_Write s b in
      let '(ok2, s2) := memdb_run s1 bs' in
      (ok1 && ok2, s2)
  end.

Lemma memdb_run_spec bs s : memdb_inv s -> Forall batch_of_puts bs ->
  md_last_sequence s + zlen (concat (batch_puts <$> bs)) < kMaxSequenceNumber ->
  (memdb_run s bs).1 = true /\ memdb_inv (memdb_run s bs).2 /\
  memdb_contents (memdb_run s bs).2 = apply_puts (concat (batch_puts <$> bs)) (memdb_contents s).
Proof.
  intros Hs Hbs. revert s Hs. induction Hbs as [|b bs Hb _ IH]; intros s Hs Hl; [done|]. rewrite fmap_cons in *. cbn [concat] in *.
  assert (El : zlen (batch_puts b ++ concat (batch_puts <$> bs)) = zlen (batch_puts b) + zlen (concat (batch_puts <$> bs)))
    by (unfold zlen; rewrite length_app; lia).
  pose proof (zlen_nonneg (concat (batch_puts <$> bs))).
  pose proof (zlen_nonneg (batch_puts b)).
  destruct (WriteImpl_spec false false false s b Hs Hb eq_refl ltac:(lia) ltac:(lia)) as (s1 & Ew & Hs1 & El1 & Hc1).
  cbn [memdb_run]. unfold memdb_Write. rewrite Ew. change (ok OK) with true. cbn [andb].
  destruct (IH s1 Hs1 ltac:(lia)) as (E2 & Hs2 & Hc2). destruct (memdb_run s1 bs) as [ok2 s2]. cbn [fst snd] in *. subst ok2.
  split_and!; [done|done|]. by rewrite Hc2, Hc1, apply_puts_app.
Qed.
End Store.

(** ** Theorems *)

(** A store of write batches over a memtable refines the map that the p2KVS
    programs rely on: while sequence numbers last, every write of a batch of puts
    succeeds, and a read returns the last value put for the key in the batches so
    far, or nothing when there is none. *)
Theorem memdb_refines user_Compare `{!TotalCompare user_Compare} {T} `{!MemTableRep T}
    (entries : RepView T) `{!MemTableRepLaws user_Compare entries} latest bs k :
  0 <= latest -> Forall batch_of_puts bs -> latest + zlen (concat (batch_puts <$> bs)) < kMaxSequenceNumber ->
  zlen k + 8 < 2 ^ 32 ->
  (memdb_run user_Compare (memdb_new latest) bs).1 = true /\
  memdb_Get user_Compare (memdb_run user_Compare (memdb_new latest) bs).2 k
  = apply_puts (concat (batch_puts <$> bs)) ∅ !! k.
Proof.
  intros Hlat Hbs Hmax Hk. pose proof (zlen_nonneg (concat (batch_puts <$> bs))).
  destruct (memdb_new_inv user_Compare entries latest ltac:(lia)) as [Hs Hc].
  destruct (memdb_run_spec user_Compare entries bs _ Hs Hbs) as (-> & Hs' & Hc'); [done|].
  split; [done|]. by rewrite (memdb_Get_spec user_Compare entries), Hc', Hc.
Qed.

Lemma memdb_refines_witness :
  let b1 := batch_Put (batch_Put batch_new [1] [10]) [2] [20] in
  let b2 := batch_Put (batch_Clear b1) [1] [30] in
  @memdb_Get BytewiseCompare _ (skip_list_rep (KeyComparator BytewiseCompare) 301)
    (@memdb_run BytewiseCompare _ (skip_list_rep (KeyComparator BytewiseCompare) 301) (@memdb_new _ (skip_list_rep (KeyComparator BytewiseCompare) 301) 0) [b1; b2]).2 [1] = Some [30].
Proof.
  intros b1 b2.
  assert (H1 : batch_of_puts b1 /\ batch_puts b1 = [([1], [10]); ([2], [20])]).
  { destruct (law_batch_new (BatchLaws := write_batch_laws)) as [H0 E0].
    destruct (law_batch_Put batch_new [1] [10] H0) as [H1 E1]; [reflexivity|reflexivity|rewrite E0; reflexivity|].
    destruct (law_batch_Put _ [2] [20] H1) as [H2 E2]; [reflexivity|reflexivity|rewrite E1, E0; reflexivity|].
    split; [exact H2|]. unfold b1. by rewrite E2, E1, E0. }
  destruct H1 as [H1 _]. destruct (law_batch_Clear b1 H1) as [Hc Ec].
  destruct (law_batch_Put _ [1] [30] Hc) as [H2 _]; [reflexivity|reflexivity|rewrite Ec; reflexivity|].
  refine (proj2 (@memdb_refines BytewiseCompare _ _ (skip_list_rep (KeyComparator BytewiseCompare) 301) (skip_list_view (KeyComparator BytewiseCompare)) (skip_list_laws BytewiseCompare 301)
    0 [b1; b2] [1] _ _ _ _)).
  - lia.
  - repeat constructor; done.
  - vm_compute. reflexivity.
  - reflexivity.
Defined.

(** Together with an iterator that lists the entries in order, the store satisfies
    the interface. *)
Section Interface.
Context (user_Compare : bytes -> bytes -> Z) `{!TotalCompare user_Compare}.
Context {T : Type} `{!MemTableRep T} (entries : RepView T) `{!MemTableRepLaws user_Compare entries}.
Context (NewIterator : @memdb T -> list entry).

Definition memdb_db : DB memdb WriteBatch := {|
  db_Write := memdb_Write user_Compare; db_Get := memdb_Get user_Compare; db_NewIterator := NewIterator |}.

Lemma memdb_laws :
  (forall s, memdb_inv user_Compare entries s ->
    StronglySorted (key_lt BytewiseCompare) (NewIterator s) /\
    forall k v, (k, v) ∈ NewIterator s <-> memdb_contents entries s !! k = Some v) ->
  @DBLaws memdb WriteBatch memdb_db write_batch batch_of_puts batch_puts
    (memdb_inv user_Compare entries) (memdb_contents entries).
Proof.
  intros Hit. split; cbn [db_Write db_Get db_NewIterator memdb_db].
  - intros s b. by apply memdb_Write_spec.
  - intros s k. by apply memdb_Get_spec.
  - done.
Qed.
End Interface.
