(* ===== verification/MemTableIter.v ===== *)
(** * Iterators over a memtable ([db/memtable.cc]) and over a store of one memtable

    [MemTableIterator] moves over the entries of a memtable on its skip list; below a
    [DBIter] it makes the iterator that a store of one memtable returns. The optional
    bloom filter and prefix extractor are left out. *)

From S2P Require Import Prelude Coding Comparator DbFormat Iterator MergeIter KVStore WriteBatch MemTable SkipList SkipListCorrect SkipListRep MemStore DbIter DbIterCorrect.

#[local] Existing Instance vlt_dec.

(** ** MemTableIterator *)

Record MemTableIterator := mkMemTableIterator {
  mti_table : SkipListRep;
  mti_node : option nat;  (* where [iter_] stands *)
  mti_valid : bool
}.

Definition EncodeKey (target : bytes) : bytes := EncodeVarint32 (u32 (zlen target)) ++ target.

Section MemTableIterator.
Context (user_Compare : bytes -> bytes -> Z).
Abbreviation compare := (KeyComparator user_Compare).

(** [iter_->op(); valid_ = iter_->Valid();] *)
Definition mti_move (op : iter_op) (it : MemTableIterator) : option MemTableIterator :=
  node ← plain_op compare (skip_list_ (mti_table it)) op (mti_node it);
  Some (mkMemTableIterator (mti_table it) node (iter_Valid node)).

Definition mti_key (it : MemTableIterator) : option bytes :=
  if mti_valid it then entry_key <$> iter_key (skip_list_ (mti_table it)) (mti_node it) else None.

Definition mti_value (it : MemTableIterator) : option bytes :=
  if mti_valid it then entry_value <$> iter_key (skip_list_ (mti_table it)) (mti_node it) else None.

Definition mti_Seek (it : MemTableIterator) (k : bytes) : option MemTableIterator := mti_move (OpSeek (EncodeKey k)) it.
Definition mti_SeekToFirst (it : MemTableIterator) : option MemTableIterator := mti_move OpSeekToFirst it.
Definition mti_SeekToLast (it : MemTableIterator) : option MemTableIterator := mti_move OpSeekToLast it.
Definition mti_Next (it : MemTableIterator) : option MemTableIterator := if mti_valid it then mti_move OpNext it else None.
Definition mti_Prev (it : MemTableIterator) : option MemTableIterator := if mti_valid it then mti_move OpPrev it else None.

(** [while (Valid() && comparator_.comparator.Compare(k, key()) < 0) Prev();] *)
Fixpoint mti_retreat (todo : nat) (k : bytes) (it : MemTableIterator) : option MemTableIterator :=
  match todo with
  | O => None
  | S todo' =>
      if mti_valid it then
        key ← mti_key it;
        if InternalKey_Compare user_Compare k key <? 0 then it ← mti_Prev it; mti_retreat todo' k it
        else Some it
      else Some it
  end.

(** At most one step for each node. *)
Definition mti_SeekForPrev (it : MemTableIterator) (k : bytes) : option MemTableIterator :=
  it ← mti_Seek it k;
  it ← (if mti_valid it then Some it else mti_SeekToLast it);
  mti_retreat (length (nodes (skip_list_ (mti_table it))) + 1) k it.

Definition memtable_iterator : InternalIterator MemTableIterator := {|
  internal_iterator := {|
    Iterator.Valid := mti_valid; Iterator.key := mti_key; Iterator.value := mti_value;
    Iterator.SeekToFirst := mti_SeekToFirst; Iterator.SeekToLast := mti_SeekToLast; Iterator.Seek := mti_Seek;
    Iterator.Next := mti_Next; Iterator.Prev := mti_Prev; Iterator.status_ok := fun _ => true |};
  DbIter.SeekForPrev := mti_SeekForPrev |}.

(** [MemTable::NewIterator]. *)
Definition MemTable_NewIterator (m : MemTable SkipListRep) : MemTableIterator := mkMemTableIterator (table_ m) None false.
End MemTableIterator.

(** ** It keeps the contract of an internal iterator *)

Section Laws.
Context (user_Compare : bytes -> bytes -> Z) `{!TotalCompare user_Compare}.
Abbreviation compare := (KeyComparator user_Compare).

(** The keys one may seek to: their length is written in 32 bits. *)
Definition key_fits (u : bytes) : Prop := zlen u + 8 < 2 ^ 32.

Definition mti_versions (it : MemTableIterator) : list version := version_of <$> rep_entries (mti_table it).

Definition mti_cur (it : MemTableIterator) : option version :=
  if mti_valid it then version_of <$> iter_key (skip_list_ (mti_table it)) (mti_node it) else None.

(** The table holds [vs] on the nodes [F]. *)
Definition table_holds (t : SkipListRep) (F : list nat) (vs : list version) : Prop :=
  rep_inv compare t F /\ keys (skip_list_ t) F = entry_of <$> vs /\ Forall version_ok vs.

(** The iterator stands at [w]. *)
Definition mti_at (it : MemTableIterator) (F : list nat) (vs : list version) (w : option version) : Prop :=
  at_node F (mti_node it) /\ mti_valid it = bool_decide (is_Some w) /\
  fmap (M:=option) (nkey (nodes (skip_list_ (mti_table it)))) (mti_node it) = fmap (M:=option) entry_of w /\
  forall v, w = Some v -> v ∈ vs.

Definition mti_inv (it : MemTableIterator) : Prop :=
  exists F vs w, table_holds (mti_table it) F vs /\ mti_at it F vs w.

Lemma table_versions t F vs : table_holds t F vs -> version_of <$> rep_entries t = vs.
Proof.
  intros (Hi & Hk & Hok). rewrite (rep_entries_ok compare t F Hi), Hk, <- list_fmap_compose. clear Hk Hi.
  induction Hok as [|v vs Hv _ IH]; [done|]. cbn. by rewrite version_of_entry, IH.
Qed.

Lemma table_sorted t F vs : table_holds t F vs -> StronglySorted (vlt user_Compare) vs.
Proof.
  intros ((Hi & _) & Hk & Hok). pose proof (keys_sorted compare (skip_list_ t) F Hi) as Hs. rewrite Hk in Hs. clear Hk Hi.
  induction Hok as [|v vs Hv Hok IH]; [constructor|]. rewrite fmap_cons in Hs. apply StronglySorted_inv in Hs as [Hs Ha].
  constructor; [by apply IH|]. rewrite Forall_fmap in Ha. rewrite Forall_forall in *. intros a Hin. specialize (Ha a Hin). cbn in Ha.
  unfold vlt. by rewrite <- key_comparator_of by auto.
Qed.

Lemma mti_cur_at it F vs w : table_holds (mti_table it) F vs -> mti_at it F vs w ->
  mti_cur it = w /\ mti_key it = (fun v => encode (v_parsed v)) <$> w /\ mti_value it = v_value <$> w.
Proof.
  intros ((Hi & _) & _ & Hok) (Hn & Hv & Hk & Hin). unfold mti_cur, mti_key, mti_value. rewrite Hv.
  destruct w as [v|]; [|done]. destruct (mti_node it) as [p|]; [|done]. injection Hk as Hk.
  rewrite (iter_key_ok compare _ F Hi p) by (by apply Hn). rewrite Hk. cbn.
  assert (Hvo : version_ok v) by (rewrite Forall_forall in Hok; by apply Hok, Hin).
  by rewrite version_of_entry, entry_key_of, entry_value_of.
Qed.

(** An operation of the skip list moves to the version that the cursor finds. *)
Lemma mti_move_ok op it F vs w w' :
  table_holds (mti_table it) F vs -> mti_at it F vs w ->
  cursor_op compare (entry_of <$> vs) op (fmap (M:=option) entry_of w) = Some (fmap (M:=option) entry_of w') ->
  (forall v, w' = Some v -> v ∈ vs) ->
  exists it', mti_move user_Compare op it = Some it' /\ mti_table it' = mti_table it /\ mti_at it' F vs w'.
Proof.
  intros ((Hi & _) & Hk & Hok) (Hn & Hv & Hw & Hin) Hc Hin'. unfold mti_move.
  destruct (plain_op_ok compare _ F Hi op (mti_node it) Hn) as [E Hn']. rewrite Hw, Hk, Hc in E.
  destruct (plain_op compare (skip_list_ (mti_table it)) op (mti_node it)) as [node|]; [|done]. injection E as E.
  eexists. split; [done|]. split; [done|]. unfold mti_at. cbn. split_and!; [by apply Hn'| |done|done].
  destruct node, w'; done.
Qed.

(** *** Targets *)

Lemma entry_key_EncodeKey u s t : key_fits u -> entry_key (EncodeKey (encode (mkParsed u s t))) = encode (mkParsed u s t).
Proof.
  intros Hu. unfold EncodeKey, entry_key, entry_split, key_fits in *. pose proof (zlen_nonneg u).
  pose proof (zlen_encode (mkParsed u s t)) as El. unfold InternalKeyEncodingLength in El. cbn [pk_user_key] in El. rewrite El.
  destruct (varint_within_5 (u32 (zlen u + 8)) (encode (mkParsed u s t))) as (rest5 & -> & ->); [rewrite u32_small; lia|].
  rewrite u32_small by lia. cbn [fst]. replace (Z.to_nat (zlen u + 8)) with (length (encode (mkParsed u s t))); [apply firstn_all|].
  unfold zlen in *. lia.
Qed.

Lemma compare_target v u s t : version_ok v -> parsed_ok (mkParsed u s t) -> key_fits u ->
  compare (entry_of v) (EncodeKey (encode (mkParsed u s t))) = version_cmp user_Compare v (mkVersion s t u []).
Proof.
  intros Hv Hp Hu. unfold KeyComparator. rewrite entry_key_of, entry_key_EncodeKey by done.
  destruct Hv as (Hv & _). by rewrite compare_key_seq_encode.
Qed.

(** A target is below exactly the versions behind it, if it is not of a larger type than
    a version with its sequence number. *)
Lemma target_compare v u s t : version_ok v -> parsed_ok (mkParsed u s t) -> (v_key v = u -> v_seq v = s -> t <= v_type v) ->
  InternalKey_Compare user_Compare (encode (mkParsed u s t)) (encode (v_parsed v)) < 0 <-> vlt user_Compare (mkVersion s t u []) v.
Proof.
  intros (Hp & _) Hq Ht. rewrite internal_compare_parsed by done. rewrite vlt_spec by done. unfold Parsed_Compare. cbn. rewrite !Z.gtb_ltb.
  destruct (Z.eqb_spec (user_Compare u (v_key v)) 0) as [E|E].
  - pose proof (proj1 (cmp_eq _ _) E) as Ek. specialize (fun H => Ht (eq_sym Ek) H). repeat case_bool; intuition lia.
  - split; [by left|]. intros [?|[-> _]]; [done|]. by rewrite cmp_refl in E.
Qed.

Lemma filter_target vs u s t : Forall version_ok vs -> parsed_ok (mkParsed u s t) -> key_fits u ->
  filter (fun k' => ~ compare k' (EncodeKey (encode (mkParsed u s t))) < 0) (entry_of <$> vs)
  = entry_of <$> filter (fun v => ~ vlt user_Compare v (mkVersion s t u [])) vs.
Proof.
  intros Hok Hp Hu. apply filter_entries. intros v Hv. rewrite Forall_forall in Hok. unfold vlt. by rewrite compare_target by auto.
Qed.

(** *** Steps *)

Section Steps.
Context (F : list nat) (vs : list version).

(** What an operation comes to. *)
Definition moved_to (t : SkipListRep) (w : option version) (r : option MemTableIterator) : Prop :=
  exists it', r = Some it' /\ mti_table it' = t /\ mti_at it' F vs w.

Lemma Seek_at it w u s t : table_holds (mti_table it) F vs -> mti_at it F vs w -> key_fits u -> parsed_ok (mkParsed u s t) ->
  moved_to (mti_table it) (head (filter (fun v => ~ vlt user_Compare v (mkVersion s t u [])) vs))
    (mti_Seek user_Compare it (encode (mkParsed u s t))).
Proof.
  intros Ht Hat Hu Hp. eapply mti_move_ok; [done..| |].
  - unfold cursor_op. rewrite filter_target by (done || apply Ht). by rewrite fmap_head.
  - intros v Hv%head_Some_elem_of. by apply list_elem_of_filter in Hv as [_ ?].
Qed.

Lemma SeekToFirst_at it w : table_holds (mti_table it) F vs -> mti_at it F vs w ->
  moved_to (mti_table it) (head vs) (mti_SeekToFirst user_Compare it).
Proof.
  intros Ht Hat. eapply mti_move_ok; [done..| |]; [unfold cursor_op; by rewrite fmap_head|]. intros v Hv. by apply head_Some_elem_of.
Qed.

Lemma SeekToLast_at it w : table_holds (mti_table it) F vs -> mti_at it F vs w ->
  moved_to (mti_table it) (last vs) (mti_SeekToLast user_Compare it).
Proof.
  intros Ht Hat. eapply mti_move_ok; [done..| |]; [unfold cursor_op; by rewrite fmap_last|]. intros v Hv. by apply last_Some_elem_of.
Qed.

(** The versions around one of them. *)
Lemma around A v B : StronglySorted (vlt user_Compare) vs -> vs = A ++ v :: B ->
  filter (fun w => vlt user_Compare v w) vs = B /\ filter (fun w => vlt user_Compare w v) vs = A.
Proof.
  intros Hs ->. assert (HA : forall a, a ∈ A -> vlt user_Compare a v).
  { intros a Ha. eapply sorted_before; [done..|]. by left. }
  assert (HB : forall b, b ∈ B -> vlt user_Compare v b).
  { intros b Hb. eapply (sorted_before _ (A ++ [v]) B); [by rewrite <- app_assoc| |done]. apply elem_of_app. right. by left. }
  assert (Hanti : forall a b, vlt user_Compare a b -> ~ vlt user_Compare b a).
  { intros a b Hab Hba. apply vlt_spec in Hab; [|done]. apply vlt_spec in Hba; [|done].
    destruct Hab as [Hab|[Ea Hab]], Hba as [Hba|[Eb Hba]]; [apply cmp_flip in Hab; lia| | |lia].
    - rewrite Eb, cmp_refl in Hab by done. lia.
    - rewrite Ea, cmp_refl in Hba by done. lia. }
  assert (Hirr : ~ vlt user_Compare v v) by (intros Hv; by apply (Hanti v v)).
  rewrite !filter_app, !filter_cons_False by done. split.
  - rewrite filter_none, filter_every; [done|done|]. intros a Ha. by apply Hanti, HA.
  - rewrite filter_every, filter_none; [by rewrite app_nil_r| |done]. intros b Hb. by apply Hanti, HB.
Qed.

Lemma Next_at it A v B : table_holds (mti_table it) F vs -> mti_at it F vs (Some v) -> vs = A ++ v :: B ->
  moved_to (mti_table it) (head B) (mti_Next user_Compare it).
Proof.
  intros Ht Hat E. unfold mti_Next. rewrite (proj1 (proj2 Hat)). pose proof Ht as (_ & _ & Hok).
  eapply mti_move_ok; [done..| |].
  - cbn. rewrite (filter_entries _ (fun w => vlt user_Compare v w)), (proj1 (around A v B (table_sorted _ _ _ Ht) E)), fmap_head; [done|].
    intros a Ha. rewrite Forall_forall in Hok. assert (v ∈ vs) by (rewrite E; apply elem_of_app; right; by left).
    unfold vlt. by rewrite key_comparator_of by auto.
  - intros a Ha%head_Some_elem_of. rewrite E. apply elem_of_app. right. by right.
Qed.

Lemma Prev_at it A v B : table_holds (mti_table it) F vs -> mti_at it F vs (Some v) -> vs = A ++ v :: B ->
  moved_to (mti_table it) (last A) (mti_Prev user_Compare it).
Proof.
  intros Ht Hat E. unfold mti_Prev. rewrite (proj1 (proj2 Hat)). pose proof Ht as (_ & _ & Hok).
  eapply mti_move_ok; [done..| |].
  - cbn. rewrite (filter_entries _ (fun w => vlt user_Compare w v)), (proj2 (around A v B (table_sorted _ _ _ Ht) E)), fmap_last; [done|].
    intros a Ha. rewrite Forall_forall in Hok. assert (v ∈ vs) by (rewrite E; apply elem_of_app; right; by left).
    unfold vlt. by rewrite key_comparator_of by auto.
  - intros a Ha%last_Some_elem_of. rewrite E. apply elem_of_app. by left.
Qed.

Section Backwards.
Context (u : bytes) (s t : Z) (Hq : parsed_ok (mkParsed u s t)) (Hty : forall v, v ∈ vs -> v_key v = u -> v_seq v = s -> t <= v_type v).
Abbreviation target := (encode (mkParsed u s t)).
Abbreviation tv := (mkVersion s t u []).

Lemma retreat_step n it w : table_holds (mti_table it) F vs -> mti_at it F vs w ->
  mti_retreat user_Compare (S n) target it
  = match w with
    | Some v => if decide (vlt user_Compare tv v)
                then it ← mti_Prev user_Compare it; mti_retreat user_Compare n target it else Some it
    | None => Some it
    end.
Proof.
  intros Ht Hat. destruct (mti_cur_at it F vs w Ht Hat) as (_ & Ek & _). destruct Hat as (_ & Hv & _ & Hin).
  destruct Ht as (_ & _ & Hok). rewrite Forall_forall in Hok. cbn [mti_retreat]. rewrite Hv, Ek. destruct w as [v|]; [|done].
  cbn -[encode mti_retreat]. pose proof (target_compare v u s t (Hok v (Hin v eq_refl)) Hq (Hty v (Hin v eq_refl))) as Hc.
  destruct (Z.ltb_spec (InternalKey_Compare user_Compare target (encode (v_parsed v))) 0), (decide (vlt user_Compare tv v)); done || (exfalso; intuition lia).
Qed.

(** At the last version that is not behind the target, or at the one after it, the loop
    comes to the former. *)
Lemma mti_retreat_ok n it P C w : table_holds (mti_table it) F vs -> mti_at it F vs w -> vs = P ++ C ->
  (forall v, v ∈ P -> ~ vlt user_Compare tv v) -> (forall v, v ∈ C -> vlt user_Compare tv v) ->
  w = last P \/ (exists c C', C = c :: C' /\ w = Some c) ->
  moved_to (mti_table it) (last P) (mti_retreat user_Compare (S (S n)) target it).
Proof.
  intros Ht Hat E HP HC Hw.
  assert (Hstop : forall m it', mti_table it' = mti_table it -> mti_at it' F vs (last P) ->
    mti_retreat user_Compare (S m) target it' = Some it').
  { intros m it' Et Hat'. rewrite (retreat_step m it' (last P)) by (by rewrite ?Et).
    destruct (last P) as [v|] eqn:Hl; [|done]. apply last_Some_elem_of, HP in Hl. by rewrite decide_False. }
  destruct Hw as [->|(c & C' & -> & ->)]; [exists it; by rewrite Hstop|].
  rewrite (retreat_step _ it (Some c)) by done. rewrite decide_True by (apply HC; by left).
  destruct (Prev_at it P c C' Ht Hat E) as (it' & -> & Et & Hat'). exists it'. cbn [mbind option_bind]. by rewrite Hstop.
Qed.

(** A version that is neither before nor behind the target is the last that is not behind. *)
Lemma target_last P x : StronglySorted (vlt user_Compare) P -> (forall v, v ∈ P -> ~ vlt user_Compare tv v) -> x ∈ P ->
  ~ vlt user_Compare x tv -> last P = Some x.
Proof.
  intros Hs HP Hx Hn. apply list_elem_of_split in Hx as (P1 & P2 & ->). destruct P2 as [|y P2]; [by rewrite last_snoc|]. exfalso.
  assert (Hy : y ∈ P1 ++ x :: y :: P2) by (apply elem_of_app; right; right; by left). apply (HP y Hy).
  assert (Hl : vlt user_Compare x y).
  { eapply (sorted_before _ (P1 ++ [x]) (y :: P2)); [by rewrite <- app_assoc| |by left]. apply elem_of_app. right. by left. }
  rewrite vlt_spec in Hl, Hn |- * by done. cbn in Hn |- *. pose proof (cmp_flip u (v_key x)). pose proof (cmp_eq (v_key x) u) as He.
  assert (Hux : user_Compare u (v_key x) <= 0) by (apply cmp_flip_le; [done|]; lia).
  destruct Hl as [Hl|[Ek Hl]]; [left; by eapply cmp_le_lt_trans|].
  destruct (Z.eq_dec (user_Compare u (v_key x)) 0) as [E0|E0]; [|left; rewrite <- Ek; lia]. apply cmp_eq in E0.
  right. split; [congruence|]. destruct (Z.le_gt_cases (v_seq x) s); [lia|]. destruct Hn. right. split; [done|lia].
Qed.

(** Where the seek comes to: the last version that is not behind the target, the one
    after it, or nowhere when there is none after it. *)
Lemma seek_target P C : StronglySorted (vlt user_Compare) P ->
  (forall v, v ∈ P -> ~ vlt user_Compare tv v) -> (forall v, v ∈ C -> vlt user_Compare tv v) ->
  let w := head (filter (fun v => ~ vlt user_Compare v tv) (P ++ C)) in
  (is_Some w /\ (w = last P \/ exists c C', C = c :: C' /\ w = Some c)) \/ (w = None /\ C = []).
Proof.
  intros Hs HP HC w. unfold w. rewrite filter_app, (filter_every _ C).
  2:{ intros c Hc. specialize (HC c Hc). rewrite vlt_spec in HC |- * by done. cbn in HC |- *. pose proof (cmp_flip u (v_key c)).
      intros [Hlt|[Ek Hl]]; destruct HC as [HC|[Ek' HC]]; try lia; subst; rewrite cmp_refl in * by done; lia. }
  destruct (filter _ P) as [|x D] eqn:ED.
  - destruct C as [|c C']; [by right|]. left. split; [by eexists|]. right. by exists c, C'.
  - left. split; [by eexists|]. left. symmetry.
    assert (Hx : x ∈ x :: D) by (by left). rewrite <- ED in Hx. apply list_elem_of_filter in Hx as [Hn Hx]. by apply (target_last P x).
Qed.

Lemma SeekForPrev_at it w : table_holds (mti_table it) F vs -> mti_at it F vs w -> key_fits u ->
  moved_to (mti_table it) (last (filter (fun v => ~ vlt user_Compare tv v) vs)) (mti_SeekForPrev user_Compare it target).
Proof.
  intros Ht Hat Hu. pose proof (table_sorted _ _ _ Ht) as Hs. pose proof Ht as ((Hi & _) & _ & Hok).
  set (P := filter (fun v => ~ vlt user_Compare tv v) vs). set (C := filter (fun v => ~ ~ vlt user_Compare tv v) vs).
  assert (Hpart : vs = P ++ C).
  { apply (sorted_partition (vlt user_Compare)); [done|]. intros a b _ _ Hab Hb Ha. apply Hb. by eapply vlt_trans. }
  assert (HP : forall v, v ∈ P -> ~ vlt user_Compare tv v) by (by intros v [? _]%list_elem_of_filter).
  assert (HC : forall v, v ∈ C -> vlt user_Compare tv v).
  { intros v [Hv _]%list_elem_of_filter. by apply dec_stable. }
  assert (Hlen : exists n, length (nodes (skip_list_ (mti_table it))) = S n).
  { pose proof (F_length _ _ _ _ _ (li_shape _ _ _ _ Hi)) as Hl. rewrite (F_cons _ _ _ _ Hi) in Hl. cbn in Hl.
    exists (length (nodes (skip_list_ (mti_table it))) - 1)%nat. lia. }
  destruct Hlen as [n Hlen]. unfold mti_SeekForPrev.
  destruct (Seek_at it w u s t Ht Hat Hu Hq) as (it1 & -> & Et1 & Hat1).
  assert (Hgo : forall it2 w2, mti_table it2 = mti_table it -> mti_at it2 F vs w2 -> w2 = last P \/ (exists c C', C = c :: C' /\ w2 = Some c) ->
    moved_to (mti_table it) (last P) (mti_retreat user_Compare (length (nodes (skip_list_ (mti_table it2))) + 1) target it2)).
  { intros it2 w2 E2 Hat2 Hw2. rewrite <- E2 in Hlen, Ht |- *. rewrite Hlen, Nat.add_1_r. by apply (mti_retreat_ok n it2 P C w2). }
  cbn [mbind option_bind]. rewrite (proj1 (proj2 Hat1)).
  rewrite Hpart in Hs. apply StronglySorted_app_1_l in Hs.
  pose proof (seek_target P C Hs HP HC) as Hw1. rewrite <- Hpart in Hw1. cbv zeta in Hw1.
  destruct Hw1 as [[Hsome Hw1]|[Hw1 HCn]].
  - rewrite bool_decide_eq_true_2 by done. by eapply (Hgo it1).
  - rewrite bool_decide_eq_false_2 by (rewrite Hw1; by intros [? ?]). rewrite <- Et1 in Ht.
    destruct (SeekToLast_at it1 _ Ht Hat1) as (it2 & -> & Et2 & Hat2). cbn [mbind option_bind].
    apply (Hgo it2 (last vs)); [congruence|done|]. left. by rewrite Hpart, HCn, app_nil_r.
Qed.
End Backwards.
End Steps.

Lemma moved_result it F vs w r : table_holds (mti_table it) F vs -> moved_to F vs (mti_table it) w r ->
  exists it', r = Some it' /\ mti_inv it' /\ mti_versions it' = mti_versions it /\ mti_cur it' = w.
Proof.
  intros Ht (it' & -> & Et & Hat). exists it'. rewrite <- Et in Ht. unfold mti_versions. rewrite Et.
  split_and!; [done|by exists F, vs, w|done|]. by apply (mti_cur_at it' F vs w).
Qed.

#[local] Instance mti_iterator : InternalIterator MemTableIterator := memtable_iterator user_Compare.

Lemma memtable_iterator_laws : InternalIteratorLaws user_Compare key_fits mti_inv mti_versions mti_cur.
Proof.
  split.
  - intros it (F & vs & w & Ht & Hat). destruct (mti_cur_at it F vs w Ht Hat) as (-> & _). apply Hat.
  - intros it (F & vs & w & Ht & Hat). by destruct (mti_cur_at it F vs w Ht Hat) as (-> & ? & _).
  - intros it (F & vs & w & Ht & Hat). by destruct (mti_cur_at it F vs w Ht Hat) as (-> & _ & ?).
  - done.
  - intros it (F & vs & w & Ht & _). unfold mti_versions. rewrite (table_versions _ _ _ Ht). by eapply table_sorted.
  - intros it v (F & vs & w & Ht & _). unfold mti_versions. rewrite (table_versions _ _ _ Ht). intros Hv.
    destruct Ht as (_ & _ & Hok). rewrite Forall_forall in Hok. specialize (Hok v Hv). split; [done|]. by destruct Hok as (_ & ? & _).
  - intros it (F & vs & w & Ht & Hat). eapply moved_result; [done|].
    unfold mti_versions. rewrite (table_versions _ _ _ Ht). by eapply SeekToFirst_at.
  - intros it (F & vs & w & Ht & Hat). eapply moved_result; [done|].
    unfold mti_versions. rewrite (table_versions _ _ _ Ht). by eapply SeekToLast_at.
  - intros it u s t (F & vs & w & Ht & Hat) Hu Hp. assert (Evs : mti_versions it = vs) by exact (table_versions _ _ _ Ht).
    destruct (moved_result it F vs _ _ Ht (Seek_at F vs it w u s t Ht Hat Hu Hp)) as (i' & Es & Hi & Ev & Hc).
    eexists i', _, _. split_and!; [done..| |exact Hc]. rewrite Evs. apply seek_split_filter; [done|]. by eapply table_sorted.
  - intros it u s t (F & vs & w & Ht & Hat) Hu Hq Hty. unfold mti_versions in Hty |- *. rewrite (table_versions _ _ _ Ht) in Hty |- *.
    destruct (moved_result it F vs _ _ Ht (SeekForPrev_at F vs u s t Hq Hty it w Ht Hat Hu)) as (i' & Es & Hi & Ev & Hc).
    exists i'. split_and!; [done..|unfold mti_versions in Ev; by rewrite Ev, (table_versions _ _ _ Ht)|done].
  - intros it A v B (F & vs & w & Ht & Hat) E Hc. destruct (mti_cur_at it F vs w Ht Hat) as (Ec & _). rewrite Hc in Ec. subst w.
    unfold mti_versions in E. rewrite (table_versions _ _ _ Ht) in E. eapply moved_result; [done|]. by eapply Next_at.
  - intros it A v B (F & vs & w & Ht & Hat) E Hc. destruct (mti_cur_at it F vs w Ht Hat) as (Ec & _). rewrite Hc in Ec. subst w.
    unfold mti_versions in E. rewrite (table_versions _ _ _ Ht) in E. eapply moved_result; [done|]. by eapply Prev_at.
Qed.
End Laws.

(** ** The iterators of a store of one memtable *)

Section Store.
Context (user_Compare : bytes -> bytes -> Z) `{!TotalCompare user_Compare} (seed : Z).
#[local] Instance skip_rep : MemTableRep SkipListRep := skip_list_rep (KeyComparator user_Compare) seed.
#[local] Instance skip_rep_laws : MemTableRepLaws user_Compare (skip_list_view (KeyComparator user_Compare)) :=
  skip_list_laws user_Compare seed.
Abbreviation view := (skip_list_view (KeyComparator user_Compare)).

(** [DBImpl::NewIterator] at the last published sequence number, without a merge operator. *)
Definition memdb_options (max_skip : Z) (s : @memdb SkipListRep) : DBIterOptions :=
  mkDBIterOptions user_Compare None (md_last_sequence s) max_skip 0 false.

Definition memdb_NewIterator (s : @memdb SkipListRep) : DBIter MemTableIterator := DBIter_new (MemTable_NewIterator (md_mem s)).

(** Enough for the loops of the iterator, and for a scan. *)
Definition memdb_fuel (s : @memdb SkipListRep) : nat := 2 * length (nodes (skip_list_ (table_ (md_mem s)))) + 2.

#[local] Instance mem_iterator : InternalIterator MemTableIterator := memtable_iterator user_Compare.
#[local] Instance mem_iterator_laws : InternalIteratorLaws user_Compare key_fits (mti_inv user_Compare) mti_versions mti_cur :=
  memtable_iterator_laws user_Compare.

Definition memdb_entries (s : @memdb SkipListRep) : list entry :=
  db_entries (memdb_options 0 s) mti_versions (memdb_NewIterator s).

(** The versions of a store, as its iterator sees them. *)
Lemma store_versions s : memdb_inv user_Compare view s ->
  exists vs, mti_inv user_Compare (MemTable_NewIterator (md_mem s)) /\ mti_versions (MemTable_NewIterator (md_mem s)) = vs /\
    plain_versions vs /\ Forall (fun v => v_seq v <= md_last_sequence s) vs /\ StronglySorted (vlt user_Compare) vs /\
    (length vs < length (nodes (skip_list_ (table_ (md_mem s)))))%nat /\ memdb_contents view s = version_map vs /\
    0 <= md_last_sequence s <= kMaxSequenceNumber.
Proof.
  intros (Hl & vs & Hm & Hp). pose proof (contents_versions user_Compare view s vs Hm) as Hc. destruct Hm as [[[F Hi] He Hok Hs Hseq Hf _ _] _].
  cbn in He. rewrite (rep_entries_ok _ _ F Hi) in He.
  assert (Ht : table_holds user_Compare (table_ (md_mem s)) F vs) by done. exists vs.
  split_and!; [|by apply (table_versions user_Compare _ F)|done|done|done| |done|lia|done].
  - exists F, vs, None. split; [done|]. by split_and!.
  - pose proof (F_length _ _ _ _ _ (li_shape _ _ _ _ (proj1 Hi))) as Hlen. apply (f_equal length) in He. unfold keys in He.
    rewrite !length_fmap in He. rewrite (F_cons _ _ _ _ (proj1 Hi)) in Hlen. cbn in Hlen. lia.
Qed.

(** *** What the iterator shows is what the store holds *)

Lemma version_unique vs a b : StronglySorted (vlt user_Compare) vs -> a ∈ vs -> b ∈ vs -> v_key a = v_key b -> v_seq a = v_seq b -> a = b.
Proof.
  intros Hs Ha Hb Hk Hq. apply list_elem_of_split in Ha as (A & B & ->).
  assert (Hno : forall x y, v_key x = v_key y -> v_seq x = v_seq y -> ~ vlt user_Compare x y).
  { intros x y Ek Eq Hl. apply vlt_spec in Hl as [Hl|[_ Hl]]; [|lia|done]. rewrite Ek, cmp_refl in Hl by done. lia. }
  apply elem_of_app in Hb as [Hb|[->|Hb]%elem_of_cons]; [|done|].
  - destruct (Hno b a); [done..|]. eapply sorted_before; [done..|]. by left.
  - destruct (Hno a b); [done..|]. eapply (sorted_before _ (A ++ [a]) B); [by rewrite <- app_assoc| |done]. apply elem_of_app. right. by left.
Qed.

Lemma newest_shown vs s k v : StronglySorted (vlt user_Compare) vs ->
  (newest vs k s = Some v /\ v_type v = kTypeValue) <-> (v ∈ vs /\ shown s vs v /\ v_key v = k).
Proof.
  intros Hs. unfold newest. split.
  - intros [Hn Ht]. apply head_Some in Hn as [l E].
    destruct (filter_cons_split _ _ _ _ E) as (l1 & l2 & El & [Hk Hv] & E1 & _).
    split_and!; [rewrite El; apply elem_of_app; right; by left| |done]. split_and!; [done|done|].
    apply Forall_forall. intros v' Hin Hk' Hv'. rewrite El in Hin. apply elem_of_app in Hin as [Hin|[->|Hin]%elem_of_cons]; [|done|].
    + destruct (filter_nil_not_elem_of _ _ v' E1); [split; congruence|done].
    + assert (Hlt : vlt user_Compare v v').
      { rewrite El in Hs. eapply (sorted_before _ (l1 ++ [v]) l2); [by rewrite <- app_assoc| |done]. apply elem_of_app. right. by left. }
      apply vlt_spec in Hlt as [Hlt|[_ Hlt]]; [|lia|done]. rewrite Hk', cmp_refl in Hlt by done. lia.
  - intros (Hin & (Hv & Ht & Hmax) & Hk). split; [|done].
    assert (Hf : v ∈ filter (visible k s) vs) by (by apply list_elem_of_filter).
    destruct (filter (visible k s) vs) as [|w l] eqn:E; [by apply elem_of_nil in Hf|]. cbn. f_equal.
    assert (Hw : w ∈ filter (visible k s) vs) by (rewrite E; by left). apply list_elem_of_filter in Hw as [[Hwk Hwv] Hw].
    rewrite Forall_forall in Hmax. specialize (Hmax w Hw ltac:(congruence) Hwv).
    apply (version_unique vs); [done..|congruence|]. apply elem_of_cons in Hf as [->|Hf]; [done|].
    apply (sorted_filter _ (visible k s)) in Hs. rewrite E in Hs. apply StronglySorted_inv in Hs as [_ Hs].
    rewrite Forall_forall in Hs. specialize (Hs v Hf). apply vlt_spec in Hs as [Hs|[_ Hs]]; [|lia|done].
    rewrite Hwk, Hk, cmp_refl in Hs by done. lia.
Qed.

Lemma memdb_entries_contents s k v : memdb_inv user_Compare view s ->
  (k, v) ∈ memdb_entries s <-> memdb_contents view s !! k = Some v.
Proof.
  intros Hs. destruct (store_versions s Hs) as (vs & Hi & Ev & Hp & Hseq & Hsort & _ & Hc & _).
  unfold memdb_entries, db_entries, db_versions. cbn [di_iter memdb_NewIterator DBIter_new opt_sequence memdb_options]. rewrite Ev, Hc.
  rewrite (version_map_newest vs k (md_last_sequence s) Hseq), list_elem_of_fmap. unfold version_value. split.
  - intros (w & E & [Hsh Hin]%list_elem_of_filter). injection E as -> ->.
    destruct (proj2 (newest_shown vs (md_last_sequence s) (v_key w) w Hsort)) as [-> Ht]; [done|]. cbn. by rewrite Ht.
  - destruct (newest vs k (md_last_sequence s)) as [w|] eqn:Hn; [|done]. cbn. destruct (Z.eqb_spec (v_type w) kTypeValue) as [Ht|]; [|done].
    intros [= <-]. destruct (proj1 (newest_shown vs (md_last_sequence s) k w Hsort)) as (Hin & Hsh & <-); [done|].
    exists w. split; [done|]. by apply list_elem_of_filter.
Qed.

Lemma memdb_entries_sorted s : memdb_inv user_Compare view s -> StronglySorted (key_lt user_Compare) (memdb_entries s).
Proof.
  intros Hs. destruct (store_versions s Hs) as (vs & _ & Ev & _ & _ & Hsort & _). apply shown_sorted; [done|].
  unfold db_versions. cbn [di_iter memdb_NewIterator DBIter_new]. by rewrite Ev.
Qed.

Lemma memdb_options_ok max_skip s : memdb_inv user_Compare view s -> 0 <= max_skip -> options_ok (memdb_options max_skip s).
Proof. intros Hs Hm. destruct (store_versions s Hs) as (vs & _ & _ & _ & _ & _ & _ & _ & Hl). split; [exact Hl|by split]. Qed.

(** The scan of a fresh iterator: [SeekToFirst], then [Next] until it is not valid. *)
Definition memdb_scan (max_skip : Z) (s : @memdb SkipListRep) : option (list entry) :=
  d ← DBIter_SeekToFirst (memdb_options max_skip s) (memdb_fuel s) (memdb_NewIterator s);
  '(es, _) ← @scan _ (@internal_iterator _ (db_iterator (memdb_options max_skip s) (memdb_fuel s))) (memdb_fuel s) d;
  Some es.

Lemma memdb_scan_ok max_skip s : memdb_inv user_Compare view s -> 0 <= max_skip -> memdb_scan max_skip s = Some (memdb_entries s).
Proof.
  intros Hs Hm. destruct (store_versions s Hs) as (vs & Hi & Ev & Hp & _ & _ & Hlen & _).
  assert (Hf : (2 * length (mti_versions (MemTable_NewIterator (md_mem s))) + 2 <= memdb_fuel s)%nat) by (rewrite Ev; unfold memdb_fuel; lia).
  rewrite <- Ev in Hp.
  destruct (scan_all_ok (memdb_options max_skip s) (memdb_fuel s) key_fits (mti_inv user_Compare) mti_versions mti_cur
    (memdb_options_ok max_skip s Hs Hm) (memdb_fuel s) (memdb_NewIterator s) Hi Hp Hf) as (d1 & d2 & E1 & E2).
  assert (E1' : DBIter_SeekToFirst (memdb_options max_skip s) (memdb_fuel s) (memdb_NewIterator s) = Some d1) by exact E1.
  assert (E2' : @scan _ (@internal_iterator _ (db_iterator (memdb_options max_skip s) (memdb_fuel s))) (memdb_fuel s) d1
    = Some (take (memdb_fuel s) (memdb_entries s), d2)) by exact E2.
  unfold memdb_scan. rewrite E1'. cbn [mbind option_bind]. rewrite E2'. cbn [mbind option_bind].
  f_equal. apply take_ge. unfold memdb_entries, db_entries, db_versions. rewrite length_fmap.
  etransitivity; [apply length_filter|]. cbn [di_iter memdb_NewIterator DBIter_new]. lia.
Qed.

(** *** Iterators of several stores

    Each iterator carries its own sequence number. *)

Record StoreIter := mkStoreIter { sti_sequence : Z; sti_max_skip : Z; sti_fuel : nat; sti_iter : DBIter MemTableIterator }.

Definition sti_options (i : StoreIter) : DBIterOptions := mkDBIterOptions user_Compare None (sti_sequence i) (sti_max_skip i) 0 false.

Definition sti_set (i : StoreIter) (d : option (DBIter MemTableIterator)) : option StoreIter :=
  d ← d; Some (mkStoreIter (sti_sequence i) (sti_max_skip i) (sti_fuel i) d).

Definition store_iterator : Iterator StoreIter := {|
  Iterator.Valid := fun i => di_valid (sti_iter i);
  Iterator.key := fun i => DBIter_key (sti_iter i);
  Iterator.value := fun i => DBIter_value (sti_iter i);
  Iterator.SeekToFirst := fun i => sti_set i (DBIter_SeekToFirst (sti_options i) (sti_fuel i) (sti_iter i));
  Iterator.SeekToLast := fun i => sti_set i (DBIter_SeekToLast (sti_options i) (sti_fuel i) (sti_iter i));
  Iterator.Seek := fun i k => sti_set i (DBIter_Seek (sti_options i) (sti_fuel i) (sti_iter i) k);
  Iterator.Next := fun i => sti_set i (DBIter_Next (sti_options i) (sti_fuel i) (sti_iter i));
  Iterator.Prev := fun i => sti_set i (DBIter_Prev (sti_options i) (sti_fuel i) (sti_iter i));
  Iterator.status_ok := fun i => DBIter_status_ok (sti_iter i) |}.

Definition store_NewIterator (max_skip : Z) (s : @memdb SkipListRep) : StoreIter :=
  mkStoreIter (md_last_sequence s) max_skip (memdb_fuel s) (memdb_NewIterator s).

Definition sti_inv (i : StoreIter) : Prop :=
  options_ok (sti_options i) /\ db_inv (sti_options i) (sti_fuel i) (mti_inv user_Compare) mti_versions mti_cur (sti_iter i).

Definition sti_entries (i : StoreIter) : list entry := db_entries (sti_options i) mti_versions (sti_iter i).

Definition sti_cur (i : StoreIter) : option entry := db_cur (sti_iter i).

#[local] Instance sti_iterator : Iterator StoreIter := store_iterator.

Lemma sti_step i (r : option (DBIter MemTableIterator)) (R : list entry -> option entry -> Prop) : options_ok (sti_options i) ->
  (exists d', r = Some d' /\ db_inv (sti_options i) (sti_fuel i) (mti_inv user_Compare) mti_versions mti_cur d' /\
     db_entries (sti_options i) mti_versions d' = sti_entries i /\ R (sti_entries i) (db_cur d')) ->
  exists i', sti_set i r = Some i' /\ sti_inv i' /\ sti_entries i' = sti_entries i /\ R (sti_entries i) (sti_cur i').
Proof. intros Ho (d' & -> & Hd & He & HR). eexists. split; [done|]. by split_and!. Qed.

Lemma store_iterator_laws : IteratorLaws user_Compare key_fits sti_inv sti_entries sti_cur.
Proof.
  assert (Hlaws : forall i, sti_inv i -> @IteratorLaws _ (@internal_iterator _ (db_iterator (sti_options i) (sti_fuel i))) user_Compare key_fits
    (db_inv (sti_options i) (sti_fuel i) (mti_inv user_Compare) mti_versions mti_cur) (db_entries (sti_options i) mti_versions) db_cur).
  { intros i [Ho _]. exact (db_iterator_laws (sti_options i) (sti_fuel i) key_fits _ _ _ Ho). }
  split.
  - intros i Hi. exact (@law_Valid _ _ _ _ _ _ _ (Hlaws i Hi) (sti_iter i) (proj2 Hi)).
  - intros i Hi. exact (@law_key _ _ _ _ _ _ _ (Hlaws i Hi) (sti_iter i) (proj2 Hi)).
  - intros i Hi. exact (@law_value _ _ _ _ _ _ _ (Hlaws i Hi) (sti_iter i) (proj2 Hi)).
  - intros i e e' Hi. exact (@law_keys _ _ _ _ _ _ _ (Hlaws i Hi) (sti_iter i) e e' (proj2 Hi)).
  - intros i Hi. apply (sti_step i _ (is_min user_Compare (fun _ => True)) (proj1 Hi)).
    exact (@law_SeekToFirst _ _ _ _ _ _ _ (Hlaws i Hi) (sti_iter i) (proj2 Hi)).
  - intros i Hi. apply (sti_step i _ (is_max user_Compare (fun _ => True)) (proj1 Hi)).
    exact (@law_SeekToLast _ _ _ _ _ _ _ (Hlaws i Hi) (sti_iter i) (proj2 Hi)).
  - intros i e Hi. exact (@law_seekable _ _ _ _ _ _ _ (Hlaws i Hi) (sti_iter i) e (proj2 Hi)).
  - intros i k Hi Hk. apply (sti_step i _ (is_min user_Compare (fun e => user_Compare k e.1 <= 0)) (proj1 Hi)).
    exact (@law_Seek _ _ _ _ _ _ _ (Hlaws i Hi) (sti_iter i) k (proj2 Hi) Hk).
  - intros i e Hi Hc. apply (sti_step i _ (is_min user_Compare (fun e' => user_Compare e.1 e'.1 < 0)) (proj1 Hi)).
    exact (@law_Next _ _ _ _ _ _ _ (Hlaws i Hi) (sti_iter i) e (proj2 Hi) Hc).
  - intros i e Hi Hc. apply (sti_step i _ (is_max user_Compare (fun e' => user_Compare e'.1 e.1 < 0)) (proj1 Hi)).
    exact (@law_Prev _ _ _ _ _ _ _ (Hlaws i Hi) (sti_iter i) e (proj2 Hi) Hc).
Qed.

Lemma store_NewIterator_ok max_skip s : memdb_inv user_Compare view s -> md_last_sequence s < kMaxSequenceNumber -> 0 <= max_skip ->
  sti_inv (store_NewIterator max_skip s) /\ sti_entries (store_NewIterator max_skip s) = memdb_entries s /\
  sti_cur (store_NewIterator max_skip s) = None.
Proof.
  intros Hs Hl Hm. destruct (store_versions s Hs) as (vs & Hi & Ev & Hp & Hseq & _ & Hlen & _).
  split_and!; [|done|done]. split; [exact (memdb_options_ok max_skip s Hs Hm)|]. unfold db_inv, db_versions.
  cbn [store_NewIterator sti_iter memdb_NewIterator DBIter_new di_iter sti_fuel di_valid]. rewrite Ev.
  split_and!; [done|done| |unfold memdb_fuel; lia|done].
  unfold below_max. eapply Forall_impl; [exact Hseq|]. cbn. lia.
Qed.
End Store.

(** ** Theorems *)

(** The interface of the programs over the store, with the scan of a fresh iterator. *)
Definition memdb_store (seed max_skip : Z) : DB (@memdb SkipListRep) WriteBatch :=
  @memdb_db BytewiseCompare _ (skip_list_rep (KeyComparator BytewiseCompare) seed)
    (fun s => default [] (memdb_scan BytewiseCompare max_skip s)).

(** C11. The store of one memtable keeps the laws of the interface that the p2KVS programs
    are verified against: write batches into the memtable, lookups in its skip list, and
    an iterator that [DBIter] makes over the memtable's. A scan of a fresh iterator
    ends, and visits exactly the keys of the store, in order, with their values. A
    lookup returns OK with the value of the key, or NotFound. A write of a batch of puts,
    with any write options that are allowed together, returns OK and puts them in order,
    as long as the sequence numbers last; the store does not write past the last of them:
    an assertion fails. *)
Theorem memdb_implements_db seed max_skip : 0 <= max_skip ->
  let view := skip_list_view (KeyComparator BytewiseCompare) in
  let WriteImpl := @memdb_WriteImpl BytewiseCompare _ (skip_list_rep (KeyComparator BytewiseCompare) seed) in
  let GetImpl := @memdb_GetImpl BytewiseCompare _ (skip_list_rep (KeyComparator BytewiseCompare) seed) in
  @DBLaws memdb WriteBatch (memdb_store seed max_skip) write_batch batch_of_puts batch_puts
    (memdb_inv BytewiseCompare view) (memdb_contents view) /\
  (forall s, memdb_inv BytewiseCompare view s -> is_Some (memdb_scan BytewiseCompare max_skip s)) /\
  (forall s k, memdb_inv BytewiseCompare view s -> zlen k + 8 < 2 ^ 32 ->
    GetImpl None s k = Some (if memdb_contents view s !! k is Some _ then OK else NotFound, memdb_contents view s !! k)) /\
  (forall sync disableWAL ign s b, memdb_inv BytewiseCompare view s -> batch_of_puts b -> sync && disableWAL = false ->
    md_last_sequence s < kMaxSequenceNumber ->
    if bool_decide (md_last_sequence s + zlen (batch_puts b) <= kMaxSequenceNumber)
    then exists s', WriteImpl sync disableWAL ign OK OK s b = Some (OK, s') /\ memdb_inv BytewiseCompare view s' /\
      md_last_sequence s' = md_last_sequence s + zlen (batch_puts b) /\
      memdb_contents view s' = apply_puts (batch_puts b) (memdb_contents view s)
    else WriteImpl sync disableWAL ign OK OK s b = None).
Proof.
  intros Hm view WriteImpl GetImpl. set (rep := skip_list_rep (KeyComparator BytewiseCompare) seed).
  pose proof (skip_list_laws BytewiseCompare seed) as Hlaws. split_and!.
  - apply (@memdb_laws BytewiseCompare _ _ rep _ Hlaws). intros s Hs.
    rewrite (memdb_scan_ok BytewiseCompare) by done. cbn [default].
    split; [by apply (memdb_entries_sorted BytewiseCompare)|]. intros k v. by apply (memdb_entries_contents BytewiseCompare).
  - intros s Hs. rewrite (memdb_scan_ok BytewiseCompare) by done. by eexists.
  - intros s k. by apply (@GetImpl_spec BytewiseCompare _ _ rep view Hlaws).
  - intros sync disableWAL ign s b Hs Hb Hopt Hlt. case_bool_decide.
    + by apply (@WriteImpl_spec BytewiseCompare _ _ rep view Hlaws).
    + apply (@WriteImpl_overflow BytewiseCompare _ _ rep view Hlaws); [done..|lia].
Qed.

(** *** Several stores behind one merging iterator *)

#[local] Instance bytewise_store_iterator : Iterator StoreIter := store_iterator BytewiseCompare.
#[local] Instance bytewise_store_laws :
  IteratorLaws BytewiseCompare key_fits (sti_inv BytewiseCompare) (sti_entries BytewiseCompare) (sti_cur BytewiseCompare) := store_iterator_laws BytewiseCompare.
#[local] Instance stores_merging_iterator : Iterator (@MergingIterator StoreIter) := merging_iterator BytewiseCompare.
#[local] Instance stores_merging_laws :
  IteratorLaws BytewiseCompare key_fits (merging_inv BytewiseCompare (sti_inv BytewiseCompare) (sti_entries BytewiseCompare) (sti_cur BytewiseCompare))
    (merging_entries (sti_entries BytewiseCompare)) (merging_cur (sti_cur BytewiseCompare)) := merging_laws BytewiseCompare _ _ _ _.

Abbreviation bytewise_view := (skip_list_view (KeyComparator BytewiseCompare)).

(** The stores of the instances: readable, and over disjoint keys. *)
Definition stores_ok (ss : list (@memdb SkipListRep)) : Prop :=
  Forall (fun s => memdb_inv BytewiseCompare bytewise_view s /\ md_last_sequence s < kMaxSequenceNumber) ss /\
  forall i j a b k, ss !! i = Some a -> ss !! j = Some b -> i <> j ->
    is_Some (memdb_contents bytewise_view a !! k) -> memdb_contents bytewise_view b !! k = None.

Lemma sorted_NoDup (L : list entry) : StronglySorted (key_lt BytewiseCompare) L -> NoDup L.
Proof.
  induction 1 as [|e L _ IH He]; constructor; [|done]. intros Hin. rewrite Forall_forall in He. specialize (He e Hin).
  unfold key_lt in He. rewrite cmp_refl in He by apply _. lia.
Qed.

Lemma stores_fresh max_skip ss : 0 <= max_skip -> stores_ok ss ->
  fresh_children (sti_inv BytewiseCompare) (sti_entries BytewiseCompare) (sti_cur BytewiseCompare) (store_NewIterator max_skip <$> ss).
Proof.
  intros Hm [Hss Hd]. rewrite Forall_lookup in Hss. split.
  - apply Forall_fmap, Forall_lookup. intros i s Hi. destruct (Hss i s Hi) as [Hs Hl].
    by destruct (store_NewIterator_ok BytewiseCompare max_skip s Hs Hl Hm) as (? & _ & ?).
  - intros i j a b e e' Ha Hb Hij He He' Ek. apply list_lookup_fmap_Some in Ha as (sa & -> & Ha), Hb as (sb & -> & Hb).
    destruct (Hss i sa Ha) as [Hsa Hla], (Hss j sb Hb) as [Hsb Hlb]. destruct e as [k v], e' as [k' v']. cbn in Ek. subst k'.
    rewrite (proj1 (proj2 (store_NewIterator_ok BytewiseCompare max_skip _ Hsa Hla Hm))) in He.
    rewrite (proj1 (proj2 (store_NewIterator_ok BytewiseCompare max_skip _ Hsb Hlb Hm))) in He'.
    apply (memdb_entries_contents BytewiseCompare) in He; [|done]. apply (memdb_entries_contents BytewiseCompare) in He'; [|done].
    rewrite (Hd i j sa sb k Ha Hb Hij) in He' by (by eexists). done.
Qed.

Lemma stores_union max_skip ss L : 0 <= max_skip -> stores_ok ss -> StronglySorted (key_lt BytewiseCompare) L ->
  (forall k v, (k, v) ∈ L <-> exists s, s ∈ ss /\ memdb_contents bytewise_view s !! k = Some v) ->
  L ≡ₚ concat (sti_entries BytewiseCompare <$> (store_NewIterator max_skip <$> ss)).
Proof.
  intros Hm [Hss Hd] HL Hin. rewrite <- list_fmap_compose.
  assert (Ee : sti_entries BytewiseCompare ∘ store_NewIterator max_skip <$> ss = memdb_entries BytewiseCompare <$> ss) by done.
  rewrite Ee. clear Ee.
  assert (Hc : forall s, s ∈ ss -> forall k v, (k, v) ∈ memdb_entries BytewiseCompare s <-> memdb_contents bytewise_view s !! k = Some v).
  { intros s Hs k v. rewrite Forall_forall in Hss. apply (memdb_entries_contents BytewiseCompare). by apply Hss. }
  apply NoDup_Permutation; [by apply sorted_NoDup| |].
  - clear Hin HL L. induction ss as [|s ss IH]; [constructor|]. apply Forall_cons in Hss as [[Hs _] Hss]. rewrite fmap_cons. cbn [concat].
    apply NoDup_app. split_and!.
    + apply sorted_NoDup. by apply (memdb_entries_sorted BytewiseCompare).
    + intros [k v] Hkv Hkv'. apply elem_of_concat in Hkv' as (l & Hl & Hkv'). apply list_elem_of_fmap in Hl as (s' & -> & Hs').
      apply Hc in Hkv; [|by left]. apply Hc in Hkv'; [|by right]. apply list_elem_of_lookup in Hs' as [j Hj].
      rewrite (Hd 0%nat (S j) s s' k eq_refl Hj) in Hkv' by (done || by eexists). done.
    + apply IH; [done| |].
      * intros i j a b k Ha Hb Hij. by apply (Hd (S i) (S j) a b k Ha Hb); lia.
      * intros s' Hs'. apply Hc. by right.
  - intros [k v]. rewrite Hin, elem_of_concat. split.
    + intros (s & Hs & E). exists (memdb_entries BytewiseCompare s). split; [by apply list_elem_of_fmap_2|by apply Hc].
    + intros (l & Hl & Hkv). apply list_elem_of_fmap in Hl as (s & -> & Hs). exists s. split; [done|by apply Hc].
Qed.

(** C28. Iteration over all instances of p2KVS, down to the skip lists: the merging
    iterator over the iterators of several stores visits, forwards from the first key
    or from a target and backwards from the last key, exactly the keys of all stores,
    in order and with their values. No assertion of any of the layers fails. *)
Theorem merged_stores_scan max_skip ss L target n :
  0 <= max_skip -> key_fits target -> stores_ok ss -> StronglySorted (key_lt BytewiseCompare) L ->
  (forall k v, (k, v) ∈ L <-> exists s, s ∈ ss /\ memdb_contents bytewise_view s !! k = Some v) ->
  exists m mf mk ml, MergingIterator_new BytewiseCompare (store_NewIterator max_skip <$> ss) = Some m /\
    merging_SeekToFirst BytewiseCompare m = Some mf /\ (exists m', scan n mf = Some (take n L, m')) /\
    merging_Seek BytewiseCompare m target = Some mk /\ (exists m', scan n mk = Some (take n (from BytewiseCompare target L), m')) /\
    merging_SeekToLast BytewiseCompare m = Some ml /\ (exists m', rscan n ml = Some (take n (reverse L), m')).
Proof.
  intros Hm Ht Hss HL Hin. pose proof (stores_fresh max_skip ss Hm Hss) as Hf. pose proof (stores_union max_skip ss L Hm Hss HL Hin) as Hp.
  destruct (MergingIterator_new_spec BytewiseCompare key_fits (sti_inv BytewiseCompare) (sti_entries BytewiseCompare)
    (sti_cur BytewiseCompare) _ Hf) as (m & E & Hi & He & _).
  set (inv := merging_inv BytewiseCompare (sti_inv BytewiseCompare) (sti_entries BytewiseCompare) (sti_cur BytewiseCompare)) in *.
  set (es := merging_entries (sti_entries BytewiseCompare)) in *. set (c := merging_cur (sti_cur BytewiseCompare)).
  assert (Hst : stands BytewiseCompare inv es m [] L) by (split_and!; [done|by rewrite He|done]).
  assert (Hst' : stands BytewiseCompare inv es m L []) by (unfold stands; rewrite app_nil_r, He; done).
  destruct (stands_first BytewiseCompare key_fits inv es c m L Hst) as (mf & Ef & Hstf & Hcf).
  destruct (stands_seek BytewiseCompare key_fits inv es c m L target Hst Ht) as (mk & Ek & Hstk & Hck).
  destruct (stands_last BytewiseCompare key_fits inv es c m L Hst') as (ml & El & Hstl & Hcl).
  destruct (scan_stands BytewiseCompare key_fits inv es c n mf _ _ Hstf Hcf) as (m1 & E1 & _).
  destruct (scan_stands BytewiseCompare key_fits inv es c n mk _ _ Hstk Hck) as (m2 & E2 & _).
  destruct (rscan_stands BytewiseCompare key_fits inv es c n ml _ _ Hstl Hcl) as (m3 & E3 & _).
  exists m, mf, mk, ml. split_and!; eauto.
Qed.

(** ** Concrete stores *)

#[local] Instance bytewise_rep : MemTableRep SkipListRep := skip_list_rep (KeyComparator BytewiseCompare) 301.
#[local] Instance bytewise_rep_laws : MemTableRepLaws BytewiseCompare bytewise_view := skip_list_laws BytewiseCompare 301.

Fixpoint add_versions (m : MemTable SkipListRep) (vs : list version) : option (MemTable SkipListRep) :=
  match vs with
  | [] => Some m
  | v :: vs' => '(_, m') ← Add m (v_seq v) (v_type v) (v_key v) (v_value v); add_versions m' vs'
  end.

(** A value overwritten and one deleted after the snapshot, one deleted before it. *)
Definition some_versions : list version :=
  [mkVersion 1 kTypeValue [1] [10]; mkVersion 2 kTypeValue [2] [20]; mkVersion 3 kTypeValue [3] [30];
   mkVersion 4 kTypeDeletion [1] []; mkVersion 5 kTypeValue [2] [21]; mkVersion 6 kTypeDeletion [3] []].

Definition store_of (vs : list version) : @memdb SkipListRep :=
  mkMemdb (default (MemTable_new 0) (add_versions (MemTable_new 0) vs)) (default 0 (list.last (v_seq <$> vs))).

Definition some_store : @memdb SkipListRep := store_of some_versions.

Definition some_iterator : MemTableIterator := MemTable_NewIterator (md_mem some_store).

(** An iterator at sequence number 4 that seeks after one skipped entry. *)
Definition some_options : DBIterOptions := mkDBIterOptions BytewiseCompare None 4 1 0 false.

Definition insert_all (vs us : list version) : list version :=
  fold_left (fun us v => insert_version BytewiseCompare v us) vs us.

Lemma add_versions_inv vs : forall m us last, mem_inv BytewiseCompare bytewise_view m us last ->
  Forall (fun v => version_ok v /\ v_type v <> kTypeRangeDeletion) vs -> StronglySorted Z.lt (last :: (v_seq <$> vs)) ->
  exists m', add_versions m vs = Some m' /\
    mem_inv BytewiseCompare bytewise_view m' (insert_all vs us) (default last (list.last (v_seq <$> vs))).
Proof.
  induction vs as [|v vs IH]; intros m us last Hm Hok Hs; [by exists m|].
  apply Forall_cons in Hok as [[Hv Hpv] Hok]. rewrite fmap_cons in Hs. apply StronglySorted_inv in Hs as [Hs Hlt].
  apply Forall_cons in Hlt as [Hlt _]. cbn [add_versions].
  destruct (Add_spec BytewiseCompare bytewise_view m us last v Hm Hv Hlt Hpv) as (m' & -> & Hm').
  cbn [mbind option_bind].
  replace (default last (list.last (v_seq <$> v :: vs))) with (default (v_seq v) (list.last (v_seq <$> vs))).
  2:{ rewrite fmap_cons, last_cons. by destruct (list.last _). }
  exact (IH m' (insert_version BytewiseCompare v us) (v_seq v) Hm' Hok Hs).
Qed.

Lemma insert_all_Forall (P : version -> Prop) vs us : Forall P vs -> Forall P us -> Forall P (insert_all vs us).
Proof.
  intros Hvs. revert us. induction Hvs as [|v vs Hv _ IH]; intros us Hus; [done|]. apply (IH (insert_version BytewiseCompare v us)).
  unfold insert_version. apply Forall_app. split; [|constructor; [done|]]; apply Forall_forall; intros a [_ Ha]%list_elem_of_filter;
    rewrite Forall_forall in Hus; by apply Hus.
Qed.

Lemma store_of_inv vs : Forall (fun v => version_ok v /\ plain_type (v_type v)) vs -> StronglySorted Z.lt (0 :: (v_seq <$> vs)) ->
  default 0 (list.last (v_seq <$> vs)) < kMaxSequenceNumber ->
  memdb_inv BytewiseCompare bytewise_view (store_of vs) /\ md_last_sequence (store_of vs) < kMaxSequenceNumber.
Proof.
  intros Hok Hs Hl. destruct (add_versions_inv vs (MemTable_new 0) [] 0) as (m & E & Hm); [| |done|].
  - by apply (mem_inv_new BytewiseCompare bytewise_view 0).
  - eapply Forall_impl; [exact Hok|]. intros v [Hv [Ht|[Ht|Ht]]]; (split; [done|by rewrite Ht]).
  - split; [|done]. unfold store_of. rewrite E. split; [cbn [md_last_sequence]; lia|]. exists (insert_all vs []). split; [done|].
    apply insert_all_Forall; [|constructor]. eapply Forall_impl; [exact Hok|]. by intros v [_ ?].
Qed.

#[local] Ltac concrete_store :=
  apply store_of_inv;
  [repeat (constructor; [split; [by split_and!|by (left + (right; left))]|]); constructor
  |cbn; repeat (constructor; [|repeat (constructor; [lia|]); constructor]); constructor
  |vm_compute; reflexivity].

Lemma some_store_inv : memdb_inv BytewiseCompare bytewise_view some_store /\ md_last_sequence some_store < kMaxSequenceNumber.
Proof. concrete_store. Qed.

Lemma some_iterator_length : length (mti_versions some_iterator) = 6%nat.
Proof. vm_compute. reflexivity. Qed.

Lemma fresh_iterator_ok s : memdb_inv BytewiseCompare bytewise_view s -> md_last_sequence s < kMaxSequenceNumber ->
  mti_inv BytewiseCompare (MemTable_NewIterator (md_mem s)) /\ plain_versions (mti_versions (MemTable_NewIterator (md_mem s))) /\
  below_max (mti_versions (MemTable_NewIterator (md_mem s))).
Proof.
  intros Hs Hl. destruct (store_versions BytewiseCompare _ Hs) as (vs & Hi & Ev & Hp & Hseq & _).
  rewrite Ev. split_and!; [done|done|]. unfold below_max. eapply Forall_impl; [exact Hseq|]. cbn. lia.
Qed.

Lemma dbiter_contract_witness :
  exists d, @DBIter_SeekForPrev _ (memtable_iterator BytewiseCompare) some_options 14 (DBIter_new some_iterator) [2; 5] = Some d /\
    is_max BytewiseCompare (fun e => BytewiseCompare e.1 [2; 5] <= 0) [([2], [20]); ([3], [30])]
      (@db_cur _ (memtable_iterator BytewiseCompare) d).
Proof.
  destruct some_store_inv as [Hs Hlast]. destruct (fresh_iterator_ok some_store Hs Hlast) as (Hi & Hp & Hm). pose proof some_iterator_length as Hl.
  destruct (@dbiter_contract MemTableIterator (memtable_iterator BytewiseCompare) some_options 14 bytewise_total key_fits
    (mti_inv BytewiseCompare) mti_versions mti_cur (memtable_iterator_laws BytewiseCompare)) as (Hnew & _ & Hprev).
  { split; [split; vm_compute; discriminate|split; [vm_compute; discriminate|reflexivity]]. }
  assert (Hd := Hnew some_iterator Hi Hp Hm ltac:(rewrite Hl; lia)).
  destruct (Hprev _ [2; 5] Hd ltac:(reflexivity)) as (d & E & _ & _ & Hmax). exists d. split; [exact E|].
  assert (Ee : db_entries some_options mti_versions (DBIter_new some_iterator) = [([2], [20]); ([3], [30])]) by (vm_compute; reflexivity).
  rewrite <- Ee. exact Hmax.
Defined.

Lemma memdb_implements_db_witness :
  memdb_scan BytewiseCompare 8 some_store = Some [([2], [21])] /\
  StronglySorted (key_lt BytewiseCompare) (@db_NewIterator _ _ (memdb_store 301 8) some_store) /\
  @db_Get _ _ (memdb_store 301 8) some_store [2] = memdb_contents bytewise_view some_store !! [2] /\
  exists s', @memdb_WriteImpl BytewiseCompare _ (skip_list_rep (KeyComparator BytewiseCompare) 301) true false false OK OK some_store batch_new = Some (OK, s').
Proof.
  destruct some_store_inv as [Hs Hlt]. destruct (memdb_implements_db 301 8 ltac:(lia)) as (Hlaws & _ & _ & Hwrite).
  split; [vm_compute; reflexivity|]. split_and!.
  - exact (proj1 (@law_NewIterator _ _ _ _ _ _ _ _ Hlaws some_store Hs)).
  - exact (@law_Get _ _ _ _ _ _ _ _ Hlaws some_store [2] Hs ltac:(reflexivity)).
  - destruct (law_batch_new (BatchLaws := write_batch_laws)) as [Hb Eb].
    specialize (Hwrite true false false some_store batch_new Hs Hb eq_refl Hlt). rewrite Eb in Hwrite.
    rewrite bool_decide_eq_true_2 in Hwrite by (unfold zlen; cbn [length]; lia). destruct Hwrite as (s' & E & _). by exists s'.
Defined.

(** Two instances with two keys each. *)
Definition instance_1 : @memdb SkipListRep := store_of [mkVersion 1 kTypeValue [3] [30]; mkVersion 2 kTypeValue [1] [10]].
Definition instance_2 : @memdb SkipListRep :=
  store_of [mkVersion 1 kTypeValue [4] [40]; mkVersion 2 kTypeValue [2] [21]; mkVersion 3 kTypeValue [2] [20]].

Lemma instance_1_contents : memdb_contents bytewise_view instance_1 = list_to_map [([1], [10]); ([3], [30])].
Proof. vm_compute. reflexivity. Qed.

Lemma instance_2_contents : memdb_contents bytewise_view instance_2 = list_to_map [([2], [20]); ([4], [40])].
Proof. vm_compute. reflexivity. Qed.

Lemma instances_in k v :
  (k, v) ∈ two_sorted <-> exists s, s ∈ [instance_1; instance_2] /\ memdb_contents bytewise_view s !! k = Some v.
Proof.
  transitivity (memdb_contents bytewise_view instance_1 !! k = Some v \/ memdb_contents bytewise_view instance_2 !! k = Some v).
  - rewrite instance_1_contents, instance_2_contents.
    rewrite <- !(elem_of_list_to_map (M := gmap bytes)) by (apply (bool_decide_unpack (NoDup _)); vm_compute; exact Logic.I).
    unfold two_sorted. rewrite !elem_of_cons, !elem_of_nil. tauto.
  - split; [intros [E|E]; [exists instance_1|exists instance_2]; (split; [by rewrite !elem_of_cons; auto|done])|].
    intros (s & [->|[->|Hin%elem_of_nil]%elem_of_cons]%elem_of_cons & E); [by left|by right|done].
Qed.

Lemma two_stores_ok a b :
  memdb_inv BytewiseCompare bytewise_view a /\ md_last_sequence a < kMaxSequenceNumber ->
  memdb_inv BytewiseCompare bytewise_view b /\ md_last_sequence b < kMaxSequenceNumber ->
  map_disjoint (memdb_contents bytewise_view a) (memdb_contents bytewise_view b) -> stores_ok [a; b].
Proof.
  intros Ha Hb Hd. split; [constructor; [done|constructor; [done|constructor]]|].
  intros i j x y k Hx Hy Hij [v Hv]. destruct i as [|[|i]], j as [|[|j]]; simplify_eq/=; try done.
  - by eapply map_disjoint_Some_l.
  - by eapply map_disjoint_Some_r.
Qed.

Lemma instances_ok : stores_ok [instance_1; instance_2].
Proof.
  apply two_stores_ok; [concrete_store..|]. rewrite instance_1_contents, instance_2_contents.
  apply (bool_decide_unpack (map_disjoint _ _)). vm_compute. exact Logic.I.
Qed.

Lemma merged_stores_scan_witness :
  exists m mf mk ml, MergingIterator_new BytewiseCompare (store_NewIterator 8 <$> [instance_1; instance_2]) = Some m /\
    merging_SeekToFirst BytewiseCompare m = Some mf /\ (exists m', scan 3 mf = Some (take 3 two_sorted, m')) /\
    merging_Seek BytewiseCompare m [2; 7] = Some mk /\ (exists m', scan 3 mk = Some (take 3 (from BytewiseCompare [2; 7] two_sorted), m')) /\
    merging_SeekToLast BytewiseCompare m = Some ml /\ (exists m', rscan 3 ml = Some (take 3 (reverse two_sorted), m')).
Proof.
  apply (merged_stores_scan 8 [instance_1; instance_2] two_sorted [2; 7] 3).
  - lia.
  - reflexivity.
  - exact instances_ok.
  - exact two_sorted_ok.
  - exact instances_in.
Defined.
