(* ===== verification/MemTableMerge.v ===== *)
(** * Lookups of merged values in a memtable ([db/memtable.cc], [db/merge_helper.cc])

    [MemTable::Get] of a key whose newest versions are merge operands: the operands
    are collected from new to old and given to the merge operator from old to new. *)

From S2P Require Import Prelude Comparator Iterator DbFormat WriteBatch MemTable SkipListRep MemStore MemTableIter.

#[local] Existing Instance vlt_dec.

Section Merge.
Context (user_Compare : bytes -> bytes -> Z) `{!TotalCompare user_Compare}.
Context {T : Type} `{!MemTableRep T} (entries : RepView T) `{!MemTableRepLaws user_Compare entries}.

(** A lookup of the value with a merge operator that keeps the default [ShouldMerge]. *)
Definition merging (l : lookup) (op : MergeOperator) : Prop :=
  plain l /\ l_merge_operator l = Some op /\ (forall ops, ShouldMerge op ops = false) /\ l_value l = true.

(** The entries from the lookup key on: the visible ones of the key, then other keys. *)
Lemma seek_visible_split vs k s : StronglySorted (vlt user_Compare) vs ->
  exists C, filter (fun v => ~ vlt user_Compare v (seek_version k s)) vs = filter (visible k s) vs ++ C /\
    forall c, c ∈ C -> c ∈ vs /\ v_key c <> k.
Proof.
  intros Hs. set (X := filter (fun v => ~ vlt user_Compare v (seek_version k s)) vs). exists (filter (fun v => ~ v_key v = k) X).
  assert (HX : forall v, v ∈ X -> v ∈ vs /\ ~ user_Compare (v_key v) k < 0 /\ (v_key v = k -> v_seq v <= s)).
  { intros v [Hn Hv]%list_elem_of_filter. rewrite vlt_spec in Hn by done. cbn in Hn. split_and!; [done|tauto|].
    intros Ek. destruct (Z.le_gt_cases (v_seq v) s); [done|tauto]. }
  split; [|intros c [Hn Hc]%list_elem_of_filter; split; [by apply HX|done]].
  rewrite (sorted_partition (vlt user_Compare) (fun v => v_key v = k) X) at 1; [|by apply sorted_filter|].
  - f_equal. unfold X. rewrite list_filter_filter. apply filter_same. intros v Hv. unfold visible. rewrite vlt_spec by done. cbn. split.
    + intros [Ek Hn]. split; [done|]. destruct (Z.le_gt_cases (v_seq v) s); [done|tauto].
    + intros [Ek Hv']. split; [done|]. rewrite Ek, cmp_refl by done. intros [?|[_ ?]]; lia.
  - intros a b Ha Hb Hab Eb. destruct (HX a Ha) as (_ & Hge & _). apply vlt_spec in Hab as [Hab|[Ek _]]; [|congruence|done].
    rewrite Eb in Hab. done.
Qed.
(** What [SaveValue] makes of an entry of the key while a merge is in progress. *)
Definition merged (l : lookup) (op : MergeOperator) (base : option bytes) (seq : Z) (ops : list bytes) (blob : bool) : Saver :=
  let r := FullMergeV2 op (l_user_key l) base (reverse ops) in
  mkSaver (if r.1 then OK else Corruption) true true (Some r.2) seq ops blob.

Lemma full_merge_ok l op base blob s :
  l_merge_operator l = Some op -> l_value l = true -> sv_merge_in_progress s = true -> sv_operands s <> [] ->
  full_merge l base blob s = Some (merged l op base (sv_seq s) (sv_operands s) blob).
Proof.
  intros Hop Hval Hm Hne. unfold full_merge, TimedFullMerge, merged, final. rewrite Hop, Hval, Hm. cbn [mbind option_bind].
  destruct (reverse (sv_operands s)) as [|a b] eqn:Er; [|by destruct (FullMergeV2 _ _ _ _)].
  apply (f_equal reverse) in Er. by rewrite reverse_involutive in Er.
Qed.

Lemma SaveValue_entry l v s : version_ok v -> plain l -> v_key v = l_user_key l ->
  v_type v = kTypeMerge \/ plain_type (v_type v) -> sv_merge_in_progress s = true \/ v_type v = kTypeMerge ->
  forall op, merging l op -> (v_type v <> kTypeMerge -> sv_operands s <> []) ->
  SaveValue user_Compare l (entry_of v) s = Some (
    if v_type v =? kTypeMerge
    then (true, mkSaver (sv_status s) (sv_found_final_value s) true (sv_value s) (v_seq v) (sv_operands s ++ [v_value v]) (sv_is_blob_index s))
    else if v_type v =? kTypeValue
    then (false, merged l op (Some (v_value v)) (v_seq v) (sv_operands s) (if l_is_blob_index l then false else sv_is_blob_index s))
    else (false, merged l op None (v_seq v) (sv_operands s) (sv_is_blob_index s))).
Proof.
  intros Hv (Ht & Hd & Hcb) Ek Hty Hm op (_ & Hop & Hsm & Hval) Hne. unfold SaveValue. rewrite entry_key_of, entry_value_of by done.
  destruct Hv as (Hp & _ & _). destruct (encode_footer _ Hp) as [Eu En]. rewrite Eu, En. cbn [v_parsed pk_user_key pk_sequence pk_type].
  rewrite Ek, cmp_refl by done.
  assert (Hl : (zlen (encode (v_parsed v)) <? 8) = false).
  { apply Z.ltb_ge. rewrite zlen_encode. unfold InternalKeyEncodingLength. pose proof (zlen_nonneg (pk_user_key (v_parsed v))). lia. }
  rewrite Hl. destruct Hp as (Hs & Htt & _). rewrite unpack_pack by done. cbn [v_parsed pk_sequence pk_type].
  unfold CheckCallback. rewrite Hcb. cbn [negb]. rewrite Ht, Z.gtb_ltb.
  destruct (Z.ltb_spec (v_seq v) 0); [cbn in Hs; lia|]. rewrite andb_false_r. unfold save_value. cbn [set_seq sv_merge_in_progress].
  destruct Hty as [E|Hty]; [rewrite E; cbn; by rewrite Hop, Hd, Hsm|].
  assert (Hn : v_type v <> kTypeMerge) by (destruct Hty as [-> |[-> | ->]]; done).
  destruct Hm as [Hm|]; [|done]. rewrite Hm, Hd, Hval, !(full_merge_ok l op) by (done || by apply Hne).
  destruct Hty as [-> |[-> | ->]]; done.
Qed.

(** The operands of a run of merge entries. *)
Lemma rep_Get_operands l op ms rest : merging l op ->
  Forall (fun v => version_ok v /\ v_key v = l_user_key l /\ v_type v = kTypeMerge) ms ->
  forall s, exists seq, rep_Get user_Compare l ((entry_of <$> ms) ++ rest) s =
    rep_Get user_Compare l rest (mkSaver (sv_status s) (sv_found_final_value s) (sv_merge_in_progress s || negb (bool_decide (ms = [])))
      (sv_value s) seq (sv_operands s ++ (v_value <$> ms)) (sv_is_blob_index s)).
Proof.
  intros Hl. induction 1 as [|v ms (Hv & Ek & Et) _ IH]; intros s.
  - exists (sv_seq s). cbn. rewrite orb_false_r, app_nil_r. by destruct s.
  - rewrite fmap_cons. cbn [app rep_Get].
    rewrite (SaveValue_entry l v s Hv (proj1 Hl) Ek (or_introl Et) (or_intror Et) op Hl ltac:(done)), Et. cbn [Z.eqb mbind option_bind].
    change (kTypeMerge =? kTypeMerge) with true. cbn iota.
    destruct (IH (mkSaver (sv_status s) (sv_found_final_value s) true (sv_value s) (v_seq v) (sv_operands s ++ [v_value v]) (sv_is_blob_index s)))
      as (seq & ->). exists seq. cbn -[bool_decide]. rewrite (bool_decide_eq_false_2 (v :: ms = [])) by done.
    by rewrite orb_true_r, <- app_assoc.
Qed.

(** C15. A lookup of a key that no range tombstone covers, and whose newest versions
    visible to the snapshot are the merge operands [ms], from new to old, with the
    versions [tail] below them. Over a value
    the lookup returns what the merge operator makes of that value and the operands
    in the order they were written; over a deletion it gives the operator no
    existing value; a failure of the operator is reported as corruption. With nothing
    below the operands the lookup does not end in this memtable: it reports
    [MergeInProgress] and hands the operands on, newest first. *)
Theorem memtable_get_merge m vs last l op snapshot s0 ms tail :
  table_inv user_Compare entries m vs last -> covering_seq user_Compare m l snapshot = Some 0 -> merging l op ->
  zlen (l_user_key l) + 8 < 2 ^ 32 -> 0 <= snapshot <= kMaxSequenceNumber ->
  sv_status s0 = OK -> sv_operands s0 = [] ->
  filter (visible (l_user_key l) snapshot) vs = ms ++ tail -> ms <> [] ->
  Forall (fun v => v_type v = kTypeMerge) ms -> (forall v, head tail = Some v -> plain_type (v_type v)) ->
  exists s, Get user_Compare m l snapshot s0 = Some (bool_decide (is_Some (head tail)), s) /\ sv_operands s = v_value <$> ms /\
    match head tail with
    | Some v =>
        let r := FullMergeV2 op (l_user_key l) (if v_type v =? kTypeValue then Some (v_value v) else None)
                   (reverse (v_value <$> ms)) in
        sv_status s = (if r.1 then OK else Corruption) /\ sv_value s = Some r.2 /\ sv_seq s = v_seq v
    | None => sv_status s = MergeInProgress /\ sv_value s = sv_value s0
    end.
Proof.
  intros [Hi He Hok Hs Hl Hf Hemp _] Hcov Hm Hk Hsn Hst Hops Hfil Hne Hms Htl. unfold Get.
  destruct (Z.eqb_spec (first_seqno_ m) 0) as [E0|_].
  { rewrite Hemp in Hfil by done. by destruct ms. }
  rewrite Hcov. cbn [mbind option_bind]. rewrite (set_max_same l 0) by (symmetry; apply Hm).
  rewrite Hst, bool_decide_eq_false_2 by done. rewrite (law_rep_Seek user_Compare), He by done. cbn [mbind option_bind].
  rewrite Forall_forall in Hok.
  rewrite (filter_entries _ (fun v => ~ vlt user_Compare v (seek_version (l_user_key l) snapshot))).
  2:{ intros v Hv. rewrite (key_comparator_lookup user_Compare) by auto. done. }
  destruct (seek_visible_split vs (l_user_key l) snapshot Hs) as (C & -> & HC). rewrite Hfil.
  assert (Hvis : forall v, v ∈ ms ++ tail -> version_ok v /\ v_key v = l_user_key l).
  { intros v Hv. rewrite <- Hfil in Hv. apply list_elem_of_filter in Hv as [[? _] ?]. auto. }
  rewrite <- app_assoc, fmap_app.
  edestruct (rep_Get_operands l op ms (entry_of <$> tail ++ C) Hm) as (seq & ->).
  { apply Forall_forall. intros v Hv. rewrite Forall_forall in Hms. destruct (Hvis v); [by apply elem_of_app; left|]. auto. }
  cbn -[bool_decide head]. rewrite Hops, bool_decide_eq_false_2 by done. cbn [negb app].
  destruct tail as [|v tail]; cbn [head app].
  - destruct C as [|c C]; cbn; [eauto|]. destruct (HC c ltac:(by left)) as [Hc Hck].
    rewrite SaveValue_other by auto. cbn. eauto.
  - destruct (Hvis v ltac:(apply elem_of_app; right; by left)) as [Hv Ek]. specialize (Htl v eq_refl).
    rewrite fmap_cons. cbn [rep_Get].
    erewrite (SaveValue_entry l v _ Hv (proj1 Hm) Ek (or_intror Htl)); [|by left|done|intros _; cbn; by destruct ms].
    destruct Htl as [-> |[-> | ->]]; cbn; eauto 6.
Qed.
End Merge.

#[local] Existing Instance bytewise_rep.
#[local] Existing Instance bytewise_rep_laws.

(** A key with a value and two operands in a memtable on the skip list; the operator
    appends. *)
Definition appending : MergeOperator :=
  mkMergeOperator (fun _ existing ops => (true, default [] existing ++ concat ops)) (fun _ => false).

Definition merge_versions : list version :=
  [mkVersion 1 kTypeValue [5] [10]; mkVersion 2 kTypeMerge [5] [11]; mkVersion 3 kTypeValue [6] [20]; mkVersion 4 kTypeMerge [5] [12]].

Lemma memtable_get_merge_witness :
  exists m, add_versions (MemTable_new 0) merge_versions = Some m /\
    exists s, Get BytewiseCompare m (mkLookup [5] 0 (Some appending) true None false true false) 9
      (mkSaver OK false false None 0 [] false) = Some (true, s) /\ sv_status s = OK /\ sv_value s = Some [10; 11; 12].
Proof.
  destruct (add_versions_inv merge_versions (MemTable_new 0) [] 0 (mem_inv_new BytewiseCompare bytewise_view 0 (Z.le_refl 0))) as (m & E & Hm).
  - repeat (constructor; [split; [by split_and!|done]|]). constructor.
  - cbn. repeat (constructor; [|repeat (constructor; [lia|]); constructor]). constructor.
  - exists m. split; [exact E|].
    destruct (memtable_get_merge BytewiseCompare bytewise_view m _ _ (mkLookup [5] 0 (Some appending) true None false true false) appending 9
      (mkSaver OK false false None 0 [] false) [mkVersion 4 kTypeMerge [5] [12]; mkVersion 2 kTypeMerge [5] [11]]
      [mkVersion 1 kTypeValue [5] [10]] (mi_inv _ _ _ _ _ Hm)) as (s & Es & _ & Hs).
    + exact (no_tombstones BytewiseCompare m _ 9 (mi_range _ _ _ _ _ Hm)).
    + repeat split.
    + reflexivity.
    + split; discriminate.
    + reflexivity.
    + reflexivity.
    + vm_compute. reflexivity.
    + discriminate.
    + repeat constructor.
    + intros v [= <-]. left. reflexivity.
    + exists s. split; [exact Es|]. destruct Hs as (Hst & Hv & _). split; [exact Hst|exact Hv].
Defined.
