(* ===== verification/Flush.v ===== *)
(** * Flushes of a memtable

    The parts together: the compaction iterator runs over the iterator of a memtable, as
    [BuildTable] in [db/builder.cc] makes it run, and its output goes into a data block.
    A [DBIter] over the block shows what one over the memtable shows. How a table is cut
    into several blocks is not modelled: the flush is into one. *)

From S2P Require Import Prelude Comparator DbFormat Iterator WriteBatch MemTable SkipList SkipListRep MemStore DbIter DbIterCorrect MemTableIter Block BlockCorrect BlockBuild CompactionIter CompactionCorrect CompactionRun.

(** The iterator of [BuildTable]: no compaction below it, and keys that must parse. *)
Definition flush_options (user_Compare : bytes -> bytes -> Z) (snapshots : list Z) (earliest_write_conflict_snapshot : Z) : CompactionOptions :=
  mkCompactionOptions user_Compare snapshots earliest_write_conflict_snapshot true None 0.

(** ** Scans at a sequence number *)

(** [SeekToFirst], then [Next] until the iterator is not valid. *)
Definition scan_at {I} `{InternalIterator I} (o : DBIterOptions) (fuel : nat) (i : I) : option (list entry) :=
  d ← DBIter_SeekToFirst o fuel (DBIter_new i);
  '(es, _) ← @scan _ (@internal_iterator _ (db_iterator o fuel)) fuel d;
  Some es.

Definition entries_at (s : Z) (vs : list version) : list entry := version_entry <$> filter (shown s vs) vs.

Lemma scan_at_ok {I} `{InternalIterator I} o fuel seekable (inv : I -> Prop) (versions : I -> list version) (cur : I -> option version)
    `{!TotalCompare (opt_Compare o)} `{!InternalIteratorLaws (opt_Compare o) seekable inv versions cur} i :
  options_ok o -> inv i -> plain_versions (versions i) -> (2 * length (versions i) + 2 <= fuel)%nat ->
  scan_at o fuel i = Some (entries_at (opt_sequence o) (versions i)).
Proof.
  intros Ho Hi Hp Hf. destruct (scan_all_ok o fuel seekable inv versions cur Ho fuel (DBIter_new i) Hi Hp Hf) as (d1 & d2 & E1 & E2).
  assert (E1' : DBIter_SeekToFirst o fuel (DBIter_new i) = Some d1) by exact E1.
  assert (E2' : @scan _ (@internal_iterator _ (db_iterator o fuel)) fuel d1 = Some (take fuel (db_entries o versions (DBIter_new i)), d2)) by exact E2.
  unfold scan_at. rewrite E1'. cbn [mbind option_bind]. rewrite E2'. cbn [mbind option_bind]. f_equal. apply take_ge. unfold entries_at. rewrite length_fmap.
  etransitivity; [apply length_filter|]. lia.
Qed.

Section Same.
Context (user_Compare : bytes -> bytes -> Z) `{!TotalCompare user_Compare}.

Lemma entries_at_read s vs k x : StronglySorted (vlt user_Compare) vs -> (k, x) ∈ entries_at s vs <-> read_runs s k vs [] = Some x.
Proof.
  intros Hs. unfold entries_at. rewrite list_elem_of_fmap. unfold read_runs. split.
  - intros (w & E & [Hsh Hin]%list_elem_of_filter). injection E as -> ->.
    destruct (proj2 (newest_shown user_Compare vs s (v_key w) w Hs)) as [-> Ht]; [done|]. unfold version_value. by rewrite Ht.
  - destruct (newest vs k s) as [w|] eqn:Hn; [|done]. unfold version_value. destruct (Z.eqb_spec (v_type w) kTypeValue) as [Ht|]; [|done].
    intros [= <-]. destruct (proj1 (newest_shown user_Compare vs s k w Hs)) as (Hin & Hsh & <-); [done|].
    exists w. split; [done|]. by apply list_elem_of_filter.
Qed.

Lemma key_lt_NoDup (L : list entry) : StronglySorted (key_lt user_Compare) L -> NoDup L.
Proof.
  induction 1 as [|e L _ IH He]; constructor; [|done]. intros Hin. rewrite Forall_forall in He. specialize (He e Hin).
  unfold key_lt in He. rewrite cmp_refl in He by done. lia.
Qed.

(** Sorted runs that read the same show the same. *)
Lemma entries_at_same s vs ws : StronglySorted (vlt user_Compare) vs -> StronglySorted (vlt user_Compare) ws ->
  (forall k, read_runs s k ws [] = read_runs s k vs []) -> entries_at s ws = entries_at s vs.
Proof.
  intros Hv Hw Hr. pose proof (shown_sorted user_Compare s vs Hv) as Hsv. pose proof (shown_sorted user_Compare s ws Hw) as Hsw.
  apply (StronglySorted_unique_strong (key_lt user_Compare)); [|done..|].
  - intros a b _ _ Hab Hba. unfold key_lt in *. apply cmp_flip in Hab. lia.
  - apply NoDup_Permutation; [by apply key_lt_NoDup..|]. intros [k x]. by rewrite !entries_at_read, Hr.
Qed.
End Same.

(** ** Flushes *)

Section Flush.
Context (user_Compare : bytes -> bytes -> Z) `{!TotalCompare user_Compare}.
Abbreviation view := (skip_list_view (KeyComparator user_Compare)).
#[local] Instance flushed_iterator : InternalIterator MemTableIterator := memtable_iterator user_Compare.
#[local] Instance flushed_laws : InternalIteratorLaws user_Compare key_fits (mti_inv user_Compare) mti_versions mti_cur :=
  memtable_iterator_laws user_Compare.

Definition memtable_versions (s : @memdb SkipListRep) : list version := mti_versions (MemTable_NewIterator (md_mem s)).

(** What a flush relies on: the snapshots, and single deletions used as documented. *)
Record flush_ok (snapshots : list Z) (ewcs : Z) (s : @memdb SkipListRep) : Prop := {
  fl_snapshots : StronglySorted Z.lt snapshots /\ Forall (fun q => 0 < q <= kMaxSequenceNumber) snapshots;
  fl_conflict : earliest_snapshot (flush_options user_Compare snapshots ewcs) <= ewcs;
  fl_single : forall k, single_ok (history k (memtable_versions s));
  fl_size : block_bound (memtable_versions s) < 2 ^ 32
}.

Lemma flush_compaction_ok snapshots ewcs s : memdb_inv user_Compare view s -> flush_ok snapshots ewcs s ->
  compaction_ok (flush_options user_Compare snapshots ewcs) (memtable_versions s) [].
Proof.
  intros Hs [Hsn Hc Hsi _]. destruct (store_versions user_Compare s Hs) as (vs & _ & Ev & Hp & _). unfold memtable_versions in *. rewrite Ev in *.
  split; [done|done|done|by setoid_rewrite app_nil_r|by intros v w _ ?%elem_of_nil|done].
Qed.

Definition scan_options (q max_skip : Z) : DBIterOptions := mkDBIterOptions user_Compare None q max_skip 0 false.

(** What a flush writes. *)
Lemma flush_output snapshots ewcs s fuel : memdb_inv user_Compare view s -> flush_ok snapshots ewcs s -> (length (memtable_versions s) < fuel)%nat ->
  exists out c, compaction_output (flush_options user_Compare snapshots ewcs) fuel (MemTable_NewIterator (md_mem s)) =
      Some ((fun w => (encode (v_parsed w), v_value w)) <$> out, c) /\ ci_status c = OK /\
    StronglySorted (vlt user_Compare) out /\ Forall version_ok out /\ plain_versions out /\ (length out <= length (memtable_versions s))%nat /\
    block_bound out < 2 ^ 32 /\
    forall q, q = md_last_sequence s \/ q ∈ snapshots -> entries_at q out = entries_at q (memtable_versions s).
Proof.
  intros Hs Hfl Hf. pose proof (flush_compaction_ok _ _ _ Hs Hfl) as Hco. destruct Hfl as [_ _ _ Hsize].
  destruct (store_versions user_Compare s Hs) as (vs & Hi & Ev & Hp & Hseq & Hsort & _). rewrite <- Ev in Hp, Hseq, Hsort. clear Ev vs.
  destruct (output_reads (flush_options user_Compare snapshots ewcs) fuel key_fits (mti_inv user_Compare) mti_versions mti_cur
    (MemTable_NewIterator (md_mem s)) [] Hi Hf Hco) as (out & c & E & Hc & Hso & Hok & Hlen & Hb & Hty & Hr).
  exists out, c. split_and!; [done..| |done|unfold memtable_versions in Hsize; lia|].
  - eapply Forall_impl; [exact Hty|]. intros w (v & Hv & _ & Et & _). cbn in Et |- *. rewrite Et. unfold plain_versions in Hp. rewrite Forall_forall in Hp. by apply Hp.
  - intros q Hq. apply (entries_at_same user_Compare); [done|done|]. intros k. apply Hr. destruct Hq as [->|Hq]; [right|by left].
    rewrite Forall_forall in Hseq. exact Hseq.
Qed.

(** A flush and the reads after it. The compaction iterator over the memtable of a
    store ends without a failed assertion, [BlockBuilder] makes a block of its output,
    and the block opens. At the last sequence number and at every snapshot, a scan of a
    [DBIter] over the block visits the same entries as a scan over the memtable. *)
Theorem flush_preserves_scans snapshots ewcs s fuel interval delta : memdb_inv user_Compare view s -> flush_ok snapshots ewcs s ->
  (length (memtable_versions s) < fuel)%nat -> 1 <= interval ->
  exists out c data blk, compaction_output (flush_options user_Compare snapshots ewcs) fuel (MemTable_NewIterator (md_mem s)) =
      Some ((fun w => (encode (v_parsed w), v_value w)) <$> out, c) /\ ci_status c = OK /\
    build_block interval delta kDataBlockBinarySearch kDefaultUtilRatio out = Some data /\ Block_new data = Some blk /\
    forall q max_skip n, q = md_last_sequence s \/ q ∈ snapshots -> 0 <= max_skip -> (2 * length (memtable_versions s) + 2 <= n)%nat ->
      exists es, scan_at (scan_options q max_skip) n (MemTable_NewIterator (md_mem s)) = Some es /\
        scan_at (H := block_iterator user_Compare) (scan_options q max_skip) n (NewDataIterator blk kDisableGlobalSequenceNumber) = Some es.
Proof.
  intros Hs Hfl Hf Hi. destruct (flush_output snapshots ewcs s fuel Hs Hfl Hf) as (out & c & E & Hc & Hso & Hok & Hp & Hlen & Hb & Hr).
  destruct (build_block_laws user_Compare interval delta kDataBlockBinarySearch kDefaultUtilRatio out Hi Hok Hso Hb) as (data & blk & inv & Ed & Eb & Hinv & Hlaws); [done|].
  exists out, c, data, blk. split_and!; [done..|]. intros q max_skip n Hq Hm Hn. exists (entries_at q (memtable_versions s)).
  destruct (store_versions user_Compare s Hs) as (vs & Hmi & Ev & Hmp & _ & _ & _ & _ & Hl). rewrite <- Ev in Hmp.
  assert (Ho : options_ok (scan_options q max_skip)).
  { split_and!; try done; cbn; destruct Hq as [->|Hq]; try apply Hl; destruct (proj1 (Forall_forall _ _) (proj2 (fl_snapshots _ _ _ Hfl)) q Hq); lia. }
  split; [by apply (scan_at_ok (scan_options q max_skip) n key_fits (mti_inv user_Compare) mti_versions mti_cur)|].
  rewrite <- (Hr q Hq). apply (scan_at_ok (H := block_iterator user_Compare) (scan_options q max_skip) n (fun _ => True) inv (fun _ => out) bi_cur); [done..|].
  cbn beta. lia.
Qed.
End Flush.

(** ** A concrete flush *)

Lemma no_single_ok vs k : Forall (fun v => v_type v <> kTypeSingleDeletion) vs -> single_ok (history k vs).
Proof.
  intros Hvs. assert (Hh : Forall (fun v => v_type v <> kTypeSingleDeletion) (history k vs)).
  { apply Forall_forall. intros v [_ Hv]%list_elem_of_filter. rewrite Forall_forall in Hvs. by apply Hvs. }
  induction Hh as [|v h Hv _ IH]; [done|]. by split.
Qed.

Lemma some_store_flush_ok : flush_ok BytewiseCompare [4] 6 some_store.
Proof.
  split.
  - split; repeat constructor; vm_compute; discriminate || reflexivity.
  - vm_compute. discriminate.
  - intros k. apply no_single_ok. vm_compute. repeat constructor; discriminate.
  - vm_compute. reflexivity.
Qed.

(** At the snapshot, the block shows the values that the memtable overwrote or deleted later. *)
Lemma flush_preserves_scans_witness :
  exists out c data blk, compaction_output (H := memtable_iterator BytewiseCompare) (flush_options BytewiseCompare [4] 6) 7 some_iterator =
      Some ((fun w => (encode (v_parsed w), v_value w)) <$> out, c) /\
    build_block 16 true kDataBlockBinarySearch kDefaultUtilRatio out = Some data /\ Block_new data = Some blk /\
    scan_at (H := block_iterator BytewiseCompare) (scan_options BytewiseCompare 4 8) 14 (NewDataIterator blk kDisableGlobalSequenceNumber) =
      Some [([2], [20]); ([3], [30])] /\
    scan_at (H := block_iterator BytewiseCompare) (scan_options BytewiseCompare 6 8) 14 (NewDataIterator blk kDisableGlobalSequenceNumber) = Some [([2], [21])].
Proof.
  pose proof some_iterator_length as Hl.
  destruct (flush_preserves_scans BytewiseCompare [4] 6 some_store 7 16 true (proj1 some_store_inv) some_store_flush_ok) as (out & c & data & blk & E & _ & Ed & Eb & Hs).
  - unfold memtable_versions. fold some_iterator. rewrite Hl. lia.
  - lia.
  - exists out, c, data, blk. split; [exact E|]. split; [exact Ed|]. split; [exact Eb|].
    unfold memtable_versions in Hs. fold some_iterator in Hs. rewrite Hl in Hs.
    destruct (Hs 4 8 14%nat) as (es & Em & Ek); [right; left|lia|lia|]. destruct (Hs 6 8 14%nat) as (es' & Em' & Ek'); [left; reflexivity|lia|lia|].
    split; [rewrite Ek, <- Em|rewrite Ek', <- Em']; vm_compute; reflexivity.
Defined.
