(* ===== verification/StoreIter.v ===== *)
(** * The iterator of a store over memtables and tables

    The parts together: [DBImpl::NewInternalIterator] merges the memtables and what was
    flushed, a flush writes several memtables at once ([FlushJob::WriteLevel0Table]), and
    [DBIter] shows the same before and after. *)

From S2P Require Import Prelude Comparator DbFormat Iterator WriteBatch MemTable SkipList SkipListRep MemStore DbIter DbIterCorrect Heap InternalMerge InternalMergeCorrect MemTableIter Block BlockCorrect BlockBuild CompactionIter CompactionCorrect CompactionRun Flush.

(** ** Contracts of the other iterators *)

Section Contracts.
Context (user_Compare : bytes -> bytes -> Z) `{!TotalCompare user_Compare}.

Lemma laws_seekable {I} `{InternalIterator I} (S S' : bytes -> Prop) (inv : I -> Prop) versions cur `{!InternalIteratorLaws user_Compare S inv versions cur} :
  (forall u, S' u -> S u) -> (forall i v, inv i -> v ∈ versions i -> S' (v_key v)) -> InternalIteratorLaws user_Compare S' inv versions cur.
Proof.
  intros HS Hv. split; try apply InternalIteratorLaws0.
  - intros i v Hi Hin. split; [by apply (ilaw_versions i v Hi)|by eapply Hv].
  - intros i u s t Hi Hu. apply (ilaw_Seek i u s t Hi). by apply HS.
  - intros i u s t Hi Hu. apply (ilaw_SeekForPrev i u s t Hi). by apply HS.
Qed.

Lemma empty_laws seekable : InternalIteratorLaws (H := empty_iterator) user_Compare seekable (fun _ => True) (fun _ => []) (fun _ => None).
Proof.
  split; try done.
  - intros; constructor.
  - by intros i v _ ?%elem_of_nil.
  - intros i _. by exists i.
  - intros i _. by exists i.
  - intros i u s t _ _ _. exists i, [], []. split_and!; try done. split_and!; [done|by intros ? ?%elem_of_nil|by intros ? ?%elem_of_nil].
  - intros i u s t _ _ _ _. by exists i.
Qed.

Section Sum.
Context {I J : Type} `{InternalIterator I} `{InternalIterator J} (seekable : bytes -> Prop).
Context (inv1 : I -> Prop) (versions1 : I -> list version) (cur1 : I -> option version) `{!InternalIteratorLaws user_Compare seekable inv1 versions1 cur1}.
Context (inv2 : J -> Prop) (versions2 : J -> list version) (cur2 : J -> option version) `{!InternalIteratorLaws user_Compare seekable inv2 versions2 cur2}.
#[local] Instance this_sum : InternalIterator (I + J) := sum_iterator.

Definition sum_inv : I + J -> Prop := ask_sum inv1 inv2.
Definition sum_versions : I + J -> list version := ask_sum versions1 versions2.
Definition sum_cur : I + J -> option version := ask_sum cur1 cur2.

Lemma sum_laws : InternalIteratorLaws user_Compare seekable sum_inv sum_versions sum_cur.
Proof.
  assert (Hl : forall i (r : option I) o, (exists i', r = Some i' /\ inv1 i' /\ versions1 i' = versions1 i /\ cur1 i' = o) ->
    exists x', (inl <$> r : option (I + J)) = Some x' /\ sum_inv x' /\ sum_versions x' = versions1 i /\ sum_cur x' = o) by (intros i r o (i' & -> & Hi); by exists (inl i')).
  assert (Hr : forall j (r : option J) o, (exists j', r = Some j' /\ inv2 j' /\ versions2 j' = versions2 j /\ cur2 j' = o) ->
    exists x', (inr <$> r : option (I + J)) = Some x' /\ sum_inv x' /\ sum_versions x' = versions2 j /\ sum_cur x' = o) by (intros j r o (j' & -> & Hj); by exists (inr j')).
  split.
  - intros [i|j] Hi; [by apply (ilaw_Valid i)|by apply (ilaw_Valid j)].
  - intros [i|j] Hi; [by apply (ilaw_key i)|by apply (ilaw_key j)].
  - intros [i|j] Hi; [by apply (ilaw_value i)|by apply (ilaw_value j)].
  - intros [i|j] Hi; [by apply (ilaw_status i)|by apply (ilaw_status j)].
  - intros [i|j] Hi; [by apply (ilaw_sorted i)|by apply (ilaw_sorted j)].
  - intros [i|j] v Hi Hv; [by apply (ilaw_versions i)|by apply (ilaw_versions j)].
  - intros [i|j] Hi; [by apply (Hl i), (ilaw_SeekToFirst i)|by apply (Hr j), (ilaw_SeekToFirst j)].
  - intros [i|j] Hi; [by apply (Hl i), (ilaw_SeekToLast i)|by apply (Hr j), (ilaw_SeekToLast j)].
  - intros [i|j] u s t Hi Hu Hq.
    + destruct (ilaw_Seek i u s t Hi Hu Hq) as (i' & A & B & E & Hi' & Ev & Hsp & Ec). exists (inl i'), A, B. split_and!; [exact (f_equal (fmap inl) E)|done..].
    + destruct (ilaw_Seek j u s t Hi Hu Hq) as (j' & A & B & E & Hj' & Ev & Hsp & Ec). exists (inr j'), A, B. split_and!; [exact (f_equal (fmap inr) E)|done..].
  - intros [i|j] u s t Hi Hu Hq Hty; [by apply (Hl i), (ilaw_SeekForPrev i)|by apply (Hr j), (ilaw_SeekForPrev j)].
  - intros [i|j] A v B Hi Ev Hc; [apply (Hl i); by apply (ilaw_Next i A v B)|apply (Hr j); by apply (ilaw_Next j A v B)].
  - intros [i|j] A v B Hi Ev Hc; [apply (Hl i); by apply (ilaw_Prev i A v B)|apply (Hr j); by apply (ilaw_Prev j A v B)].
Qed.
End Sum.
End Contracts.

(** ** NewMergingIterator and MergeIteratorBuilder *)

Section Merged.
Context {I : Type} `{InternalIterator I} (user_Compare : bytes -> bytes -> Z) `{!TotalCompare user_Compare} (seekable : bytes -> Prop).
Context (inv : I -> Prop) (versions : I -> list version) (cur : I -> option version) `{!InternalIteratorLaws user_Compare seekable inv versions cur}.

(** What the builder finishes with. *)
Definition built_iterator : InternalIterator (I + MergingIter I) := sum_iterator (H0 := merging_iterator user_Compare false).
Definition built_inv : I + MergingIter I -> Prop := sum_inv inv (mg_inv user_Compare inv versions cur).
Definition built_versions : I + MergingIter I -> list version := sum_versions versions (mg_versions user_Compare versions).
Definition built_cur : I + MergingIter I -> option version := sum_cur cur (mg_cur cur).

Lemma built_laws : InternalIteratorLaws (H := built_iterator) user_Compare seekable built_inv built_versions built_cur.
Proof. apply (sum_laws user_Compare (H0 := merging_iterator user_Compare false)); [done|]. by apply (merging_laws user_Compare). Qed.

(** What [NewMergingIterator] returns. *)
Definition merged_iterator : InternalIterator (EmptyIter + (I + MergingIter I)) := sum_iterator (H := empty_iterator) (H0 := built_iterator).
Definition merged_inv : EmptyIter + (I + MergingIter I) -> Prop := sum_inv (fun _ => True) built_inv.
Definition merged_versions : EmptyIter + (I + MergingIter I) -> list version := sum_versions (fun _ => []) built_versions.
Definition merged_cur : EmptyIter + (I + MergingIter I) -> option version := sum_cur (fun _ => None) built_cur.

Lemma merged_laws : InternalIteratorLaws (H := merged_iterator) user_Compare seekable merged_inv merged_versions merged_cur.
Proof. apply (sum_laws user_Compare (H := empty_iterator) (H0 := built_iterator)); [apply empty_laws|apply built_laws]. Qed.

Lemma fresh_inv m : fresh user_Compare inv versions cur m -> mg_inv user_Compare inv versions cur m.
Proof. intros Hf. by exists Forward, (mg_versions user_Compare versions m), []. Qed.

Lemma NewMergingIterator_ok l : Forall (unpositioned inv cur) l -> distinct (concat (versions <$> l)) -> zlen l <= kMaxSizet ->
  exists x, NewMergingIterator user_Compare l = Some x /\ merged_inv x /\ merged_versions x ≡ₚ concat (versions <$> l).
Proof.
  intros Hu Hd Hz. destruct l as [|i [|j l]]; unfold NewMergingIterator.
  - by exists (inl mkEmpty).
  - inversion_clear Hu as [|?? [Hi _] _]. exists (inr (inl i)). cbn. by rewrite app_nil_r.
  - destruct (MergingIterator_new_ok user_Compare seekable inv versions cur (i :: j :: l) Hu Hd Hz) as (m & -> & Hf & Hv).
    exists (inr (inr m)). split_and!; [done|by apply fresh_inv|done].
Qed.

(** [MergeIteratorBuilder::AddIterator] for each of a list, as [MemTableListVersion::AddIterators] has it. *)
Fixpoint AddIterators (l : list I) (b : MergeIteratorBuilder (I := I)) : option (MergeIteratorBuilder (I := I)) :=
  match l with
  | [] => Some b
  | i :: l' => b ← Builder_AddIterator i b; AddIterators l' b
  end.

(** The builder after [AddIterator] of each of [l]. *)
Definition builder_at (l : list I) (b : MergeIteratorBuilder (I := I)) : Prop :=
  fresh user_Compare inv versions cur (mb_merge_iter b) /\
  match l with
  | [] => mb_first_iter b = None /\ mb_use_merging_iter b = false /\ mg_children (mb_merge_iter b) = []
  | [i] => mb_first_iter b = Some i /\ mb_use_merging_iter b = false /\ mg_children (mb_merge_iter b) = []
  | _ => mb_first_iter b = None /\ mb_use_merging_iter b = true /\ length (mg_children (mb_merge_iter b)) = length l /\
         mg_versions user_Compare versions (mb_merge_iter b) ≡ₚ concat (versions <$> l)
  end.

Lemma Builder_new_ok : exists b, Builder_new user_Compare = Some b /\ builder_at [] b.
Proof.
  unfold Builder_new. destruct (MergingIterator_new_ok user_Compare seekable inv versions cur []) as (m & E & Hf & Hv); [done|by constructor|done|].
  rewrite E. cbn. eexists. split; [done|]. split; [done|]. cbn in E. unfold CurrentForward in E. cbn in E. by injection E as <-.
Qed.

Lemma childless_versions m : mg_children m = [] -> mg_versions user_Compare versions m ≡ₚ [].
Proof. intros E. unfold mg_versions. by rewrite sorted_versions_perm, E. Qed.

Lemma Builder_AddIterator_ok l i b : builder_at l b -> Forall (unpositioned inv cur) (l ++ [i]) -> distinct (concat (versions <$> (l ++ [i]))) -> zlen (l ++ [i]) <= kMaxSizet ->
  exists b', Builder_AddIterator i b = Some b' /\ builder_at (l ++ [i]) b'.
Proof.
  intros [Hf Hb] [Hl Hi]%Forall_app Hd Hz. rewrite Forall_singleton in Hi. rewrite fmap_app, concat_app in Hd. cbn [fmap list_fmap concat] in Hd. rewrite app_nil_r in Hd.
  unfold Builder_AddIterator. destruct l as [|j [|k l]].
  - destruct Hb as (-> & E & Hc). cbn. rewrite E. eexists. split; [done|]. by split.
  - destruct Hb as (-> & -> & Hc). inversion_clear Hl as [|?? Hj _]. cbn in Hd. rewrite app_nil_r in Hd.
    destruct (mg_AddIterator_ok user_Compare seekable inv versions cur (mb_merge_iter b) j [] Hf) as (m & -> & Hfm & Hvm & Hlm); [by apply childless_versions|done| |by rewrite Hc|].
    { unfold distinct in *. cbn. rewrite fmap_app in Hd. by apply NoDup_app in Hd as [? _]. }
    rewrite Hc in Hlm. cbn [mbind option_bind mb_use_merging_iter mb_merge_iter mb_first_iter].
    destruct (mg_AddIterator_ok user_Compare seekable inv versions cur m i (versions j) Hfm Hvm Hi Hd) as (m' & -> & Hfm' & Hvm' & Hlm'); [unfold zlen; rewrite Hlm; by vm_compute|].
    cbn. eexists. split; [done|]. split; [done|]. cbn. rewrite Hlm', Hlm. split_and!; [done..|]. by rewrite app_nil_r.
  - destruct Hb as (E1 & E & Hn & Hv). rewrite E1. cbn [mbind option_bind]. rewrite E, E1.
    destruct (mg_AddIterator_ok user_Compare seekable inv versions cur (mb_merge_iter b) i _ Hf Hv Hi Hd) as (m' & -> & Hfm' & Hvm' & Hlm').
    { revert Hz. unfold zlen. rewrite Hn, length_app. cbn. lia. }
    cbn [mbind option_bind]. eexists. split; [done|]. split; [done|]. cbn [app mb_first_iter mb_use_merging_iter mb_merge_iter]. split_and!; [done|done| |].
    + rewrite Hlm', Hn. cbn. rewrite length_app. cbn. lia.
    + rewrite Hvm'. change (j :: k :: l ++ [i]) with ((j :: k :: l) ++ [i]). by rewrite fmap_app, concat_app; cbn [fmap list_fmap concat]; rewrite app_nil_r.
Qed.

Lemma concat_prefix_distinct (l1 l2 : list I) : distinct (concat (versions <$> (l1 ++ l2))) -> distinct (concat (versions <$> l1)).
Proof. unfold distinct. rewrite fmap_app, concat_app, fmap_app. by intros [? _]%NoDup_app. Qed.

Lemma AddIterators_ok l2 : forall l1 b, builder_at l1 b -> Forall (unpositioned inv cur) (l1 ++ l2) -> distinct (concat (versions <$> (l1 ++ l2))) -> zlen (l1 ++ l2) <= kMaxSizet ->
  exists b', AddIterators l2 b = Some b' /\ builder_at (l1 ++ l2) b'.
Proof.
  induction l2 as [|i l2 IH]; intros l1 b Hb Hu Hd Hz; [exists b; by rewrite app_nil_r|].
  replace (l1 ++ i :: l2) with ((l1 ++ [i]) ++ l2) in * by (by rewrite <- (assoc_L (++))). cbn [AddIterators]. destruct (Builder_AddIterator_ok l1 i b Hb) as (b1 & -> & Hb1).
  - by apply Forall_app in Hu as [? _]. - by eapply concat_prefix_distinct. - revert Hz. rewrite zlen_app. pose proof (zlen_nonneg l2). lia.
  - by apply (IH (l1 ++ [i]) b1).
Qed.

Lemma Builder_Finish_ok l b : builder_at l b -> l <> [] -> Forall (unpositioned inv cur) l ->
  exists x, Builder_Finish b = Some x /\ built_inv x /\ built_versions x ≡ₚ concat (versions <$> l).
Proof.
  intros [Hf Hb] Hne Hu. destruct l as [|i [|j l]]; [done| |]; unfold Builder_Finish.
  - destruct Hb as (-> & -> & _). inversion_clear Hu as [|?? [Hi _] _]. exists (inl i). cbn. by rewrite app_nil_r.
  - destruct Hb as (_ & -> & _ & Hv). exists (inr (mb_merge_iter b)). split_and!; [done|by apply fresh_inv|done].
Qed.

(** [DBImpl::NewInternalIterator], without range deletions: the active memtable, the
    immutable ones, and the files of the current version. *)
Definition NewInternalIterator (mem : I) (imm files : list I) : option (I + MergingIter I) :=
  b ← Builder_new user_Compare;
  b ← Builder_AddIterator mem b;
  b ← AddIterators imm b;
  b ← AddIterators files b;
  Builder_Finish b.

Lemma NewInternalIterator_ok mem imm files : Forall (unpositioned inv cur) (mem :: imm ++ files) -> distinct (concat (versions <$> (mem :: imm ++ files))) ->
  zlen (mem :: imm ++ files) <= kMaxSizet ->
  exists x, NewInternalIterator mem imm files = Some x /\ built_inv x /\ built_versions x ≡ₚ concat (versions <$> (mem :: imm ++ files)).
Proof.
  intros Hu Hd Hz. unfold NewInternalIterator. destruct Builder_new_ok as (b & -> & Hb). cbn [mbind option_bind].
  destruct (AddIterators_ok (mem :: imm) [] b Hb) as (b2 & E & Hb2).
  - by apply (Forall_app _ (mem :: imm) files) in Hu as [? _]. - by apply (concat_prefix_distinct (mem :: imm) files).
  - revert Hz. change (mem :: imm ++ files) with ((mem :: imm) ++ files). rewrite zlen_app. pose proof (zlen_nonneg files). cbn. lia.
  - cbn [AddIterators] in E. destruct (Builder_AddIterator mem b) as [b1|]; [|done]. cbn [mbind option_bind] in *. rewrite E. cbn [mbind option_bind].
    destruct (AddIterators_ok files (mem :: imm) b2 Hb2 Hu Hd Hz) as (b3 & -> & Hb3). cbn [mbind option_bind]. by apply Builder_Finish_ok.
Qed.
End Merged.

(** C8. [MergingIterator]. Over children that are not positioned and whose versions are
    distinct, the constructor ends without a failed assertion, and what it makes keeps the
    contract of an internal iterator over the versions of all the children in the order
    of internal keys: positioning, both seeks to any internal key, steps in both
    directions with the change of direction between them, in either seek mode. *)
Theorem merging_iterator_contract {I} `{InternalIterator I} user_Compare `{!TotalCompare user_Compare} prefix_seek_mode_ seekable (inv : I -> Prop) versions cur
    `{!InternalIteratorLaws user_Compare seekable inv versions cur} children :
  Forall (unpositioned inv cur) children -> distinct (concat (versions <$> children)) -> zlen children <= kMaxSizet ->
  (exists m, mg_new user_Compare children = Some m /\ mg_inv user_Compare inv versions cur m /\ mg_cur cur m = None /\
    mg_versions user_Compare versions m = sorted_versions user_Compare (concat (versions <$> children))) /\
  InternalIteratorLaws (H := merging_iterator user_Compare prefix_seek_mode_) user_Compare seekable
    (mg_inv user_Compare inv versions cur) (mg_versions user_Compare versions) (mg_cur cur).
Proof.
  intros Hu Hd Hz. pose proof (merging_laws user_Compare prefix_seek_mode_ seekable inv versions cur) as Hl. split; [|done].
  destruct (MergingIterator_new_ok user_Compare seekable inv versions cur children Hu Hd Hz) as (m & E & Hf & Hv). pose proof (fresh_inv user_Compare inv versions cur m Hf) as Hm.
  exists m. split_and!; [done|done| |].
  - by rewrite (placed_cur _ _ _ _ _ _ _ _ _ Hf).
  - apply (sorted_versions_unique user_Compare); [|done]. exact (@ilaw_sorted _ _ _ _ _ _ _ Hl m Hm).
Qed.

(** ** Reads of runs that lie above each other *)

(** The sequence numbers of [X] are above those of [Y]. *)
Definition above (X Y : list version) : Prop := forall x y, x ∈ X -> y ∈ Y -> v_seq y < v_seq x.

Section Runs.
Context (user_Compare : bytes -> bytes -> Z) `{!TotalCompare user_Compare}.
Abbreviation lt := (vlt user_Compare).

Lemma newest_None vs k q : newest vs k q = None <-> forall v, v ∈ vs -> ~ visible k q v.
Proof.
  unfold newest. rewrite head_None. split; [|by intros Hn; apply filter_none].
  intros E v Hv Hvis. assert (Hin : v ∈ filter (visible k q) vs) by by apply list_elem_of_filter. rewrite E in Hin. by apply elem_of_nil in Hin.
Qed.

Lemma newest_max vs k q w : StronglySorted lt vs -> newest vs k q = Some w -> w ∈ vs /\ visible k q w /\ forall v, v ∈ vs -> visible k q v -> v_seq v <= v_seq w.
Proof.
  intros Hs. induction Hs as [|x vs Hs IH Hx]; [done|]. rewrite newest_cons. case_decide as Hvis.
  - intros [= <-]. split; [by left|split; [done|]]. intros v [->|Hv]%elem_of_cons Hv'; [done|]. rewrite Forall_forall in Hx. specialize (Hx v Hv).
    rewrite vlt_spec in Hx by done. destruct Hx as [Hc|[_ Hc]]; [|lia]. destruct Hvis as [E1 _], Hv' as [E2 _]. rewrite E1, E2, cmp_refl in Hc by done. lia.
  - intros (Hin & Hw & Hm)%IH. split; [by right|split; [done|]]. intros v [->|Hv]%elem_of_cons Hv'; [done|by apply Hm].
Qed.

Lemma newest_union vs A B k q : StronglySorted lt vs -> StronglySorted lt A -> StronglySorted lt B -> vs ≡ₚ A ++ B -> above A B ->
  newest vs k q = match newest A k q with Some w => Some w | None => newest B k q end.
Proof.
  intros Hs HA HB Hp Hab. assert (Hin : forall v, v ∈ vs <-> v ∈ A \/ v ∈ B) by (intros v; by rewrite Hp, elem_of_app).
  assert (Hd : distinct (A ++ B)) by (eapply distinct_perm; [exact Hp|by apply (sorted_distinct user_Compare)]).
  assert (Heq : forall w w', w ∈ vs -> w' ∈ vs -> visible k q w -> visible k q w' -> v_seq w = v_seq w' -> w = w').
  { intros w w' H1 H2 [E1 _] [E2 _] E. apply (distinct_eq (A ++ B)); [done|by rewrite <- Hp|by rewrite <- Hp|]. unfold v_id. congruence. }
  destruct (newest vs k q) as [w|] eqn:En.
  - apply newest_max in En as (Hw & Hv & Hm); [|done]. destruct (newest A k q) as [a|] eqn:Ea.
    + apply newest_max in Ea as (Ha & Hva & Hma); [|done]. f_equal. apply Heq; [done|apply Hin; by left|done|done|].
      apply Z.le_antisymm; [|apply Hm; [apply Hin; by left|done]]. apply Hin in Hw as [Hw|Hw]; [by apply Hma|]. specialize (Hab a w Ha Hw). lia.
    + destruct (newest B k q) as [b|] eqn:Eb.
      * apply newest_max in Eb as (Hb & Hvb & Hmb); [|done]. f_equal. apply Heq; [done|apply Hin; by right|done|done|].
        apply Z.le_antisymm; [|apply Hm; [apply Hin; by right|done]]. apply Hin in Hw as [Hw|Hw]; [|by apply Hmb]. by destruct (proj1 (newest_None _ _ _) Ea w Hw).
      * apply Hin in Hw as [Hw|Hw]; [by destruct (proj1 (newest_None _ _ _) Ea w Hw)|by destruct (proj1 (newest_None _ _ _) Eb w Hw)].
  - rewrite (proj2 (newest_None A k q)), (proj2 (newest_None B k q)); [done| |]; intros v Hv; apply (proj1 (newest_None vs k q) En), Hin; auto.
Qed.

(** Replacing the middle one of three runs. *)
Lemma read_middle vs ws A B B' C q k : StronglySorted lt vs -> StronglySorted lt ws -> StronglySorted lt A -> StronglySorted lt B -> StronglySorted lt B' -> StronglySorted lt C ->
  vs ≡ₚ A ++ B ++ C -> ws ≡ₚ A ++ B' ++ C -> above A (B ++ C) -> above A (B' ++ C) -> above B C -> above B' C ->
  read_runs q k B' C = read_runs q k B C -> read_runs q k ws [] = read_runs q k vs [].
Proof.
  intros Hvs Hws HA HB HB' HC Ev Ew Ha Ha' Hb Hb' Hr.
  assert (Hsub : forall X l, l ≡ₚ A ++ X -> StronglySorted lt l -> distinct X).
  { intros X l E Hl. apply (sorted_distinct user_Compare) in Hl. apply (distinct_perm _ _ E) in Hl. unfold distinct in *. rewrite fmap_app in Hl. by apply NoDup_app in Hl as (_ & _ & ?). }
  assert (Hone : forall X l, l ≡ₚ A ++ X ++ C -> StronglySorted lt l -> StronglySorted lt X -> above A (X ++ C) -> above X C ->
    read_runs q k l [] = match newest A k q with Some w => version_value w | None => read_runs q k X C end).
  { intros X l E Hl HX Hax Hxc. unfold read_runs. pose proof (sorted_versions_sorted user_Compare (X ++ C) (Hsub _ _ E Hl)) as HS. pose proof (sorted_versions_perm user_Compare (X ++ C)) as HP.
    rewrite (newest_union l A (sorted_versions user_Compare (X ++ C))); [|done..|by rewrite HP|by intros x y Hx; rewrite HP; apply Hax].
    destruct (newest A k q); [done|]. rewrite (newest_union _ X C) by done. destruct (newest X k q); [done|]. by destruct (newest C k q). }
  rewrite (Hone B' ws), (Hone B vs) by done. by rewrite Hr.
Qed.
End Runs.

(** ** A flush of several memtables *)

Section Store.
Context (user_Compare : bytes -> bytes -> Z) `{!TotalCompare user_Compare}.

(** The iterators of the files that are there already, whatever they are. *)
Context {J : Type} `{InternalIterator J} (finv : J -> Prop) (fversions : J -> list version) (fcur : J -> option version).
Context `{!InternalIteratorLaws user_Compare key_fits finv fversions fcur}.

Abbreviation view := (skip_list_view (KeyComparator user_Compare)).
Abbreviation store_iter := (MemTableIterator + (DataBlockIter + J))%type.
#[local] Instance of_memtable : InternalIterator MemTableIterator := memtable_iterator user_Compare.
#[local] Instance of_memtable_laws : InternalIteratorLaws user_Compare key_fits (mti_inv user_Compare) mti_versions mti_cur := memtable_iterator_laws user_Compare.
#[local] Instance of_block : InternalIterator DataBlockIter := block_iterator user_Compare.
#[local] Instance of_table : InternalIterator (DataBlockIter + J) := sum_iterator.
#[local] Instance of_store : InternalIterator store_iter := sum_iterator.
#[local] Instance of_built : InternalIterator (store_iter + MergingIter store_iter) := built_iterator user_Compare.
#[local] Instance of_merged : InternalIterator (EmptyIter + (MemTableIterator + MergingIter MemTableIterator)) := merged_iterator user_Compare.
#[local] Instance of_merged_laws : InternalIteratorLaws user_Compare key_fits (merged_inv user_Compare (mti_inv user_Compare) mti_versions mti_cur) (merged_versions user_Compare mti_versions) (merged_cur mti_cur) :=
  merged_laws user_Compare key_fits _ _ _.

Definition memtable_iter (s : @memdb SkipListRep) : MemTableIterator := MemTable_NewIterator (md_mem s).
Definition mem_iter (s : @memdb SkipListRep) : store_iter := inl (memtable_iter s).
Definition table_iter (blk : Block) : store_iter := inr (inl (NewDataIterator blk kDisableGlobalSequenceNumber)).
Definition file_iter (j : J) : store_iter := inr (inr j).

(** A scan of [DBIter] over the internal iterator of the store. *)
Definition store_scan (q max_skip : Z) (n : nat) (mem : store_iter) (imm files : list store_iter) : option (list entry) :=
  x ← NewInternalIterator user_Compare mem imm files;
  scan_at (scan_options user_Compare q max_skip) n x.

Definition store_inv (binv : DataBlockIter -> Prop) : store_iter -> Prop := sum_inv (mti_inv user_Compare) (sum_inv binv finv).
Definition store_cur : store_iter -> option version := sum_cur mti_cur (sum_cur bi_cur fcur).
Definition store_run (out : list version) : store_iter -> list version := sum_versions mti_versions (sum_versions (fun _ => out) fversions).

Lemma reader_options q max_skip : 0 <= q <= kMaxSequenceNumber -> 0 <= max_skip -> options_ok (scan_options user_Compare q max_skip).
Proof. intros Hq Hm. destruct Hq; by split_and!. Qed.

Lemma store_scan_ok binv out q max_skip n mem imm files : InternalIteratorLaws user_Compare key_fits binv (fun _ => out) bi_cur ->
  0 <= q <= kMaxSequenceNumber -> 0 <= max_skip ->
  let is_ := mem :: imm ++ files in let vs := concat (store_run out <$> is_) in
  Forall (unpositioned (store_inv binv) store_cur) is_ -> distinct vs -> zlen is_ <= kMaxSizet -> plain_versions vs -> (2 * length vs + 2 <= n)%nat ->
  store_scan q max_skip n mem imm files = Some (entries_at q (sorted_versions user_Compare vs)).
Proof.
  intros Hlaws Hq Hm is_ vs Hu Hd Hz Hp Hn.
  assert (Hs : InternalIteratorLaws user_Compare key_fits (store_inv binv) (store_run out) store_cur) by (apply sum_laws; [apply _|by apply sum_laws]).
  assert (Hb : InternalIteratorLaws user_Compare key_fits (built_inv user_Compare (store_inv binv) (store_run out) store_cur) (built_versions user_Compare (store_run out)) (built_cur store_cur))
    by (by apply built_laws).
  destruct (NewInternalIterator_ok user_Compare key_fits (store_inv binv) (store_run out) store_cur mem imm files Hu Hd Hz) as (x & E & Hx & Ev).
  unfold store_scan. rewrite E. cbn [mbind option_bind].
  assert (Hso : StronglySorted (vlt user_Compare) (built_versions user_Compare (store_run out) x)) by apply (ilaw_sorted x Hx).
  rewrite (scan_at_ok (scan_options user_Compare q max_skip) n key_fits _ (built_versions user_Compare (store_run out)) _ x); [|by apply reader_options|done| |].
  - by rewrite (sorted_versions_unique user_Compare _ _ Hso Ev).
  - unfold plain_versions in *. by rewrite Ev.
  - by rewrite Ev.
Qed.

Definition run_of (ms : list (@memdb SkipListRep)) : list version := concat (memtable_versions <$> ms).
Definition file_run (files : list J) : list version := concat (fversions <$> files).

(** A store with the active memtable [s], the immutable ones [ms], the newest first, and
    [files] below them: what a flush of all of [ms] relies on. *)
Record flush_store_ok (snapshots : list Z) (ewcs : Z) (s : @memdb SkipListRep) (ms : list (@memdb SkipListRep)) (files : list J) : Prop := {
  fs_memtables : Forall (memdb_inv user_Compare view) (s :: ms);
  fs_files : Forall (unpositioned finv fcur) files;
  fs_files_distinct : distinct (file_run files);
  fs_files_types : plain_versions (file_run files);
  fs_stacked : StronglySorted above ((memtable_versions <$> (s :: ms)) ++ [file_run files]);
  fs_snapshots : StronglySorted Z.lt snapshots /\ Forall (fun q => 0 < q <= kMaxSequenceNumber) snapshots;
  fs_conflict : earliest_snapshot (flush_options user_Compare snapshots ewcs) <= ewcs;
  fs_single : forall k, single_ok (history k (sorted_versions user_Compare (run_of ms) ++ sorted_versions user_Compare (file_run files)));
  fs_size : block_bound (run_of ms) < 2 ^ 32;
  fs_count : 2 + zlen ms + zlen files <= kMaxSizet
}.

Lemma memtable_fresh s : memdb_inv user_Compare view s -> unpositioned (mti_inv user_Compare) mti_cur (memtable_iter s) /\
  plain_versions (memtable_versions s) /\ StronglySorted (vlt user_Compare) (memtable_versions s).
Proof. intros Hs. destruct (store_versions user_Compare s Hs) as (vs & Hi & Ev & Hp & _ & Hso & _). unfold memtable_versions. by rewrite Ev. Qed.

Lemma above_concat A (L : list (list version)) : Forall (above A) L -> above A (concat L).
Proof. intros HL a x Ha (l & Hl & Hx)%elem_of_concat. rewrite Forall_forall in HL. by apply (HL l). Qed.

Lemma above_distinct A B : distinct A -> distinct B -> above A B -> distinct (A ++ B).
Proof.
  intros HA HB Hab. unfold distinct in *. rewrite fmap_app. apply NoDup_app. split_and!; [done| |done].
  intros x (a & -> & Ha)%list_elem_of_fmap (b & E & Hb)%list_elem_of_fmap. specialize (Hab a b Ha Hb). injection E as _ Es. lia.
Qed.

Lemma stacked_distinct L : Forall distinct L -> StronglySorted above L -> distinct (concat L).
Proof.
  intros HL Hs. induction Hs as [|A L _ IH HA]; [apply NoDup_nil_2|]. inversion_clear HL. cbn. apply above_distinct; [done|by apply IH|by apply above_concat].
Qed.

Lemma block_bound_perm vs ws : vs ≡ₚ ws -> block_bound vs = block_bound ws.
Proof. induction 1; cbn; try lia. unfold block_bound in *. lia. Qed.

Lemma store_run_mem out ms : concat (store_run out <$> (mem_iter <$> ms)) = run_of ms.
Proof. by rewrite <- list_fmap_compose. Qed.

Lemma store_run_files out files : concat (store_run out <$> (file_iter <$> files)) = file_run files.
Proof. by rewrite <- list_fmap_compose. Qed.

Lemma mem_iters_fresh binv ms : Forall (memdb_inv user_Compare view) ms -> Forall (unpositioned (store_inv binv) store_cur) (mem_iter <$> ms).
Proof. intros Hm. apply Forall_fmap. eapply Forall_impl; [exact Hm|]. intros m Hmm. apply (memtable_fresh m Hmm). Qed.

Lemma file_iters_fresh binv files : Forall (unpositioned finv fcur) files -> Forall (unpositioned (store_inv binv) store_cur) (file_iter <$> files).
Proof. intros Hf. by apply Forall_fmap. Qed.

Lemma table_unpositioned blk g : bi_cur (NewDataIterator blk g) = None.
Proof.
  unfold NewDataIterator. do 2 (case_match; [done|]). unfold bi_cur, bi_show_key, DataBlockIter_Initialize, c_Valid. cbn. by rewrite Z.ltb_irrefl.
Qed.

Section Flushed.
Context (snapshots : list Z) (ewcs : Z) (s : @memdb SkipListRep) (ms : list (@memdb SkipListRep)) (files : list J) (Hok : flush_store_ok snapshots ewcs s ms files).

Lemma run_plain l : Forall (memdb_inv user_Compare view) l -> plain_versions (run_of l).
Proof.
  intros Hl. apply Forall_forall. intros v (vs & Hvs & Hv)%elem_of_concat. apply list_elem_of_fmap in Hvs as (m & -> & Hm).
  rewrite Forall_forall in Hl. destruct (memtable_fresh m (Hl m Hm)) as (_ & Hp & _). unfold plain_versions in Hp. rewrite Forall_forall in Hp. by apply Hp.
Qed.

Lemma runs_distinct l : Forall (memdb_inv user_Compare view) l -> Forall distinct (memtable_versions <$> l).
Proof. intros Hl. apply Forall_fmap. eapply Forall_impl; [exact Hl|]. intros m Hm. by apply (sorted_distinct user_Compare), memtable_fresh. Qed.

(** The three runs of the store lie above each other. *)
Lemma flush_runs : above (memtable_versions s) (run_of ms ++ file_run files) /\ above (run_of ms) (file_run files) /\ distinct (run_of ms).
Proof.
  destruct Hok as [Hm _ _ _ Hst _ _ _ _ _]. inversion_clear Hm as [|?? Hs Hms]. cbn in Hst. apply StronglySorted_inv in Hst as [Hst Hs']. split_and!.
  - apply (above_concat _ ((memtable_versions <$> ms) ++ [file_run files])) in Hs'. rewrite concat_app in Hs'. cbn in Hs'. by rewrite app_nil_r in Hs'.
  - intros x y (l & Hl & Hx)%elem_of_concat Hy. apply (StronglySorted_app_1_elem_of above _ _ l (file_run files) Hst); [done|by left|done|done].
  - apply stacked_distinct; [by apply runs_distinct|]. by apply StronglySorted_app_1_l in Hst.
Qed.

(** What [NewMergingIterator] gives the flush: the memtables are picked from the oldest on. *)
Lemma flush_input : exists it, NewMergingIterator user_Compare (memtable_iter <$> reverse ms) = Some it /\
  merged_inv user_Compare (mti_inv user_Compare) mti_versions mti_cur it /\
  merged_versions user_Compare mti_versions it = sorted_versions user_Compare (run_of ms).
Proof.
  destruct flush_runs as (_ & _ & Hd). inversion_clear Hok as [Hm _ _ _ _ _ _ _ _ Hz]. inversion_clear Hm as [|?? _ Hms].
  assert (Hp : concat (mti_versions <$> (memtable_iter <$> reverse ms)) ≡ₚ run_of ms).
  { rewrite <- list_fmap_compose. unfold run_of. by rewrite reverse_Permutation. }
  destruct (NewMergingIterator_ok user_Compare key_fits (mti_inv user_Compare) mti_versions mti_cur (memtable_iter <$> reverse ms)) as (it & E & Hi & Ev).
  - apply Forall_fmap, Forall_reverse. eapply Forall_impl; [exact Hms|]. intros m Hm. apply (memtable_fresh m Hm).
  - by eapply distinct_perm.
  - revert Hz. unfold zlen. rewrite length_fmap, length_reverse. lia.
  - exists it. split_and!; [done..|]. apply (sorted_versions_unique user_Compare); [apply (ilaw_sorted it Hi)|by rewrite Ev].
Qed.

Lemma flush_many_compaction_ok : compaction_ok (flush_options user_Compare snapshots ewcs) (sorted_versions user_Compare (run_of ms)) (sorted_versions user_Compare (file_run files)).
Proof.
  destruct flush_runs as (_ & Hb & _). destruct Hok as [Hm _ _ _ _ Hsn Hc Hsi _ _]. inversion_clear Hm as [|?? _ Hms]. split; [done|done| |done| |done].
  - unfold plain_versions. rewrite sorted_versions_perm. by apply run_plain.
  - intros v w. rewrite !sorted_versions_perm. intros Hv Hw _. by apply Hb.
Qed.

Definition reader_ok (q : Z) : Prop := 0 <= q <= kMaxSequenceNumber /\ (q ∈ snapshots \/ forall v, v ∈ run_of ms -> v_seq v <= q).

(** What the flush writes. *)
Lemma flush_many_output it fuel : merged_inv user_Compare (mti_inv user_Compare) mti_versions mti_cur it ->
  merged_versions user_Compare mti_versions it = sorted_versions user_Compare (run_of ms) -> (length (run_of ms) < fuel)%nat ->
  exists out c, compaction_output (flush_options user_Compare snapshots ewcs) fuel it = Some ((fun w => (encode (v_parsed w), v_value w)) <$> out, c) /\ ci_status c = OK /\
    StronglySorted (vlt user_Compare) out /\ Forall version_ok out /\ plain_versions out /\ (length out <= length (run_of ms))%nat /\ block_bound out < 2 ^ 32 /\
    above (memtable_versions s) (out ++ file_run files) /\ above out (file_run files) /\
    forall q k, reader_ok q -> read_runs q k out (sorted_versions user_Compare (file_run files)) = read_runs q k (sorted_versions user_Compare (run_of ms)) (sorted_versions user_Compare (file_run files)).
Proof.
  intros Hi Ev Hf. destruct flush_runs as (Ha & Hb & _). assert (Hl : length (sorted_versions user_Compare (run_of ms)) = length (run_of ms)) by by rewrite sorted_versions_perm.
  destruct (output_reads (flush_options user_Compare snapshots ewcs) fuel key_fits _ (merged_versions user_Compare mti_versions) _ it (sorted_versions user_Compare (file_run files)) Hi) as (out & c & E & Hc & Hso & Hvo & Hlen & Hbb & Hty & Hr).
  { by rewrite Ev, Hl. } { rewrite Ev. apply flush_many_compaction_ok. }
  rewrite Ev in Hlen, Hbb, Hty, Hr. rewrite Forall_forall in Hty. cbn in Hty. setoid_rewrite sorted_versions_perm in Hty. rewrite Hl in Hlen.
  rewrite (block_bound_perm _ _ (sorted_versions_perm user_Compare (run_of ms))) in Hbb. destruct Hok as [Hm _ _ _ _ _ _ _ Hsize _]. inversion_clear Hm as [|?? _ Hms].
  exists out, c. split_and!; [done..| |done|lia| | |].
  - apply Forall_forall. intros w Hw. destruct (Hty w Hw) as (v & Hv & _ & -> & _). pose proof (run_plain ms Hms) as Hp. unfold plain_versions in Hp. rewrite Forall_forall in Hp. by apply Hp.
  - intros a w Haa [Hw|Hw]%elem_of_app; [|apply Ha; [done|by apply elem_of_app; right]]. destruct (Hty w Hw) as (v & Hv & _ & _ & ->). apply Ha; [done|by apply elem_of_app; left].
  - intros w y Hw Hy. destruct (Hty w Hw) as (v & Hv & _ & _ & ->). by apply Hb.
  - intros q k [_ Hq]. apply Hr. destruct Hq as [Hq|Hq]; [by left|right]. intros v. rewrite sorted_versions_perm. apply Hq.
Qed.

Lemma scan_before binv out q max_skip n : InternalIteratorLaws user_Compare key_fits binv (fun _ => out) bi_cur -> 0 <= q <= kMaxSequenceNumber -> 0 <= max_skip ->
  let all := memtable_versions s ++ run_of ms ++ file_run files in (2 * length all + 2 <= n)%nat ->
  store_scan q max_skip n (mem_iter s) (mem_iter <$> ms) (file_iter <$> files) = Some (entries_at q (sorted_versions user_Compare all)).
Proof.
  intros Hlaws Hq Hm all Hn. destruct flush_runs as (Ha & Hb & Hdm). destruct Hok as [Hms Hfi Hfd Hfp _ _ _ _ _ Hz]. inversion_clear Hms as [|?? Hs Hms']. destruct (memtable_fresh s Hs) as (Hsi & Hps & Hss).
  pose proof (store_scan_ok binv out q max_skip n (mem_iter s) (mem_iter <$> ms) (file_iter <$> files) Hlaws Hq Hm) as Hscan. cbv zeta in Hscan.
  cbn [fmap list_fmap concat] in Hscan. rewrite fmap_app, concat_app, store_run_mem, store_run_files in Hscan. apply Hscan; [| | | |done].
  - constructor; [done|]. apply Forall_app_2; [by apply mem_iters_fresh|by apply file_iters_fresh].
  - apply above_distinct; [by apply (sorted_distinct user_Compare)|by apply above_distinct|done].
  - revert Hz. unfold zlen. cbn [length]. rewrite length_app, !length_fmap. lia.
  - apply Forall_app_2; [done|]. apply Forall_app_2; [by apply run_plain|done].
Qed.

Lemma scan_after binv out blk q max_skip n : InternalIteratorLaws user_Compare key_fits binv (fun _ => out) bi_cur -> binv (NewDataIterator blk kDisableGlobalSequenceNumber) ->
  0 <= q <= kMaxSequenceNumber -> 0 <= max_skip -> StronglySorted (vlt user_Compare) out -> plain_versions out -> above (memtable_versions s) (out ++ file_run files) -> above out (file_run files) ->
  let all := memtable_versions s ++ out ++ file_run files in (2 * length all + 2 <= n)%nat ->
  store_scan q max_skip n (mem_iter s) [] (table_iter blk :: (file_iter <$> files)) = Some (entries_at q (sorted_versions user_Compare all)).
Proof.
  intros Hlaws Hblk Hq Hm Hso Hpo Ha Hb all Hn. destruct Hok as [Hms Hfi Hfd Hfp _ _ _ _ _ Hz]. inversion_clear Hms as [|?? Hs Hms']. destruct (memtable_fresh s Hs) as (Hsi & Hps & Hss).
  pose proof (store_scan_ok binv out q max_skip n (mem_iter s) [] (table_iter blk :: (file_iter <$> files)) Hlaws Hq Hm) as Hscan. cbv zeta in Hscan.
  cbn [fmap list_fmap concat app] in Hscan. rewrite store_run_files in Hscan. apply Hscan; [| | | |done].
  - constructor; [done|]. constructor; [split; [done|apply table_unpositioned]|by apply file_iters_fresh].
  - apply above_distinct; [by apply (sorted_distinct user_Compare)|apply above_distinct; [by apply (sorted_distinct user_Compare)|done..]|done].
  - revert Hz. unfold zlen. cbn [length]. rewrite !length_fmap. lia.
  - apply Forall_app_2; [done|]. by apply Forall_app_2.
Qed.

(** The runs before and after the flush show the same. *)
Lemma flushed_entries out q : reader_ok q -> StronglySorted (vlt user_Compare) out -> above (memtable_versions s) (out ++ file_run files) -> above out (file_run files) ->
  (forall k, read_runs q k out (sorted_versions user_Compare (file_run files)) = read_runs q k (sorted_versions user_Compare (run_of ms)) (sorted_versions user_Compare (file_run files))) ->
  entries_at q (sorted_versions user_Compare (memtable_versions s ++ out ++ file_run files)) = entries_at q (sorted_versions user_Compare (memtable_versions s ++ run_of ms ++ file_run files)).
Proof.
  intros Hq Hso Ha' Hb' Hr. destruct flush_runs as (Ha & Hb & Hdm). destruct Hok as [Hms _ Hfd _ _ _ _ _ _ _]. inversion_clear Hms as [|?? Hs _]. destruct (memtable_fresh s Hs) as (_ & _ & Hss).
  pose proof (sorted_distinct user_Compare _ Hss) as Hds. pose proof (sorted_distinct user_Compare _ Hso) as Hdo.
  assert (H1 : distinct (memtable_versions s ++ run_of ms ++ file_run files)) by (apply above_distinct; [done|by apply above_distinct|done]).
  assert (H2 : distinct (memtable_versions s ++ out ++ file_run files)) by (apply above_distinct; [done|by apply above_distinct|done]).
  apply (entries_at_same user_Compare); [by apply sorted_versions_sorted..|]. intros k.
  apply (read_middle user_Compare _ _ (memtable_versions s) (sorted_versions user_Compare (run_of ms)) out (sorted_versions user_Compare (file_run files)));
    try done; try (by apply sorted_versions_sorted); try (by rewrite !sorted_versions_perm); intros x y; rewrite ?elem_of_app, ?sorted_versions_perm, <- ?elem_of_app; auto.
Qed.
End Flushed.

(** C10. A flush of any number of immutable memtables under a running store. The merging
    iterator over their iterators, the compaction iterator over it and [BlockBuilder] end
    without a failed assertion and the block opens. For the newest state and every
    snapshot, the scan of [DBIter] over the internal iterator of the store (active
    memtable, immutable memtables, files) visits the same entries before the flush and
    after it, when the block stands in the place of the memtables; they are the newest
    values the reader sees in all the runs together. *)
Theorem flush_memtables_preserve_scans snapshots ewcs s ms files fuel interval delta : flush_store_ok snapshots ewcs s ms files ->
  (length (run_of ms) < fuel)%nat -> 1 <= interval ->
  exists it out c data blk, NewMergingIterator user_Compare (memtable_iter <$> reverse ms) = Some it /\
    compaction_output (flush_options user_Compare snapshots ewcs) fuel it = Some ((fun w => (encode (v_parsed w), v_value w)) <$> out, c) /\ ci_status c = OK /\
    build_block interval delta kDataBlockBinarySearch kDefaultUtilRatio out = Some data /\ Block_new data = Some blk /\
    forall q max_skip n, reader_ok snapshots ms q -> 0 <= max_skip ->
      let all := memtable_versions s ++ run_of ms ++ file_run files in
      let es := entries_at q (sorted_versions user_Compare all) in (2 * length all + 2 <= n)%nat ->
      store_scan q max_skip n (mem_iter s) (mem_iter <$> ms) (file_iter <$> files) = Some es /\
      store_scan q max_skip n (mem_iter s) [] (table_iter blk :: (file_iter <$> files)) = Some es.
Proof.
  intros Hok Hf Hint. destruct (flush_input _ _ _ _ _ Hok) as (it & Eit & Hit & Evit).
  destruct (flush_many_output _ _ _ _ _ Hok it fuel Hit Evit Hf) as (out & c & E & Hc & Hso & Hvo & Hpo & Hlo & Hbo & Ha & Hb & Hr).
  destruct (build_block_laws user_Compare interval delta kDataBlockBinarySearch kDefaultUtilRatio out Hint Hvo Hso Hbo) as (data & blk & binv & Ed & Eb & Hbi & Hlaws); [done|].
  exists it, out, c, data, blk. split_and!; [done..|]. intros q max_skip n Hq Hm all es Hn.
  assert (Hkl : InternalIteratorLaws user_Compare key_fits binv (fun _ => out) bi_cur).
  { apply (laws_seekable user_Compare (fun _ => True)); [done|done|]. intros i v _ Hv. rewrite Forall_forall in Hvo. apply (Hvo v Hv). }
  split; [by apply (scan_before _ _ _ _ _ Hok binv out); [|apply Hq|..]|].
  unfold es, all. rewrite <- (flushed_entries _ _ _ _ _ Hok out q); [|done..|intros k; by apply Hr].
  apply (scan_after _ _ _ _ _ Hok binv); try done; [apply Hq|]. revert Hn. unfold all. rewrite !length_app. lia.
Qed.
End Store.

(** ** A concrete store

    Three values in a file, four later versions in two immutable memtables, one version in
    the active one; a snapshot is taken between the versions of the memtables. *)

Definition old_versions : list version := [mkVersion 1 kTypeValue [1] [10]; mkVersion 2 kTypeValue [2] [20]; mkVersion 3 kTypeValue [3] [30]].
Definition older_store : @memdb SkipListRep := store_of [mkVersion 4 kTypeDeletion [1] []; mkVersion 5 kTypeValue [2] [21]].
Definition newer_store : @memdb SkipListRep := store_of [mkVersion 6 kTypeDeletion [3] []; mkVersion 7 kTypeValue [4] [40]].
Definition active_store : @memdb SkipListRep := store_of [mkVersion 8 kTypeValue [3] [31]].

#[local] Ltac concrete_versions := repeat (constructor; [split; [by split_and!|by (left + (right; left))]|]); constructor.
#[local] Ltac concrete_sorted := cbn; repeat (constructor; [|repeat (constructor; [lia|]); constructor]); constructor.

Lemma concrete_stores : Forall (memdb_inv BytewiseCompare bytewise_view) [active_store; newer_store; older_store].
Proof. apply Forall_cons_2; [|apply Forall_cons_2; [|apply Forall_cons_2; [|apply Forall_nil_2]]]; (apply store_of_inv; [concrete_versions|concrete_sorted|vm_compute; reflexivity]). Qed.

Lemma old_versions_ok : Forall version_ok old_versions /\ StronglySorted (vlt BytewiseCompare) old_versions.
Proof. split; repeat constructor; vm_compute; (discriminate || reflexivity). Qed.

Lemma concrete_runs : memtable_versions <$> [active_store; newer_store; older_store] =
  [[mkVersion 8 kTypeValue [3] [31]]; [mkVersion 6 kTypeDeletion [3] []; mkVersion 7 kTypeValue [4] [40]]; [mkVersion 4 kTypeDeletion [1] []; mkVersion 5 kTypeValue [2] [21]]].
Proof. vm_compute. reflexivity. Qed.

Lemma concrete_distinct : distinct (concat (memtable_versions <$> [active_store; newer_store; older_store])).
Proof. rewrite concrete_runs. unfold distinct. apply (bool_decide_unpack (NoDup _)). vm_compute. exact I. Qed.

Lemma above_intro X Y : Forall (fun x => Forall (fun y => v_seq y < v_seq x) Y) X -> above X Y.
Proof. intros HX x y Hx Hy. rewrite Forall_forall in HX. specialize (HX x Hx). rewrite Forall_forall in HX. by apply HX. Qed.

Lemma concrete_stacked : StronglySorted above ((memtable_versions <$> [active_store; newer_store; older_store]) ++ [concat [old_versions]]).
Proof. rewrite concrete_runs. cbn [app]. repeat (constructor || apply above_intro). Qed.

Lemma concrete_newest : forall v, v ∈ run_of [newer_store; older_store] -> v_seq v <= 8.
Proof. apply Forall_forall. vm_compute. repeat constructor; discriminate. Qed.

(** Three memtables: the versions of all of them, merged. *)
Lemma merging_iterator_contract_witness : exists m,
  mg_new (H := memtable_iterator BytewiseCompare) BytewiseCompare (memtable_iter <$> [active_store; newer_store; older_store]) = Some m /\
  (v_seq <$> mg_versions BytewiseCompare mti_versions m) = [4; 5; 8; 6; 7] /\
  exists m', SeekToLast (Iterator := @internal_iterator _ (merging_iterator (H := memtable_iterator BytewiseCompare) BytewiseCompare false)) m = Some m' /\
    v_key <$> mg_cur mti_cur m' = Some [4].
Proof.
  destruct (merging_iterator_contract (H := memtable_iterator BytewiseCompare) (InternalIteratorLaws0 := memtable_iterator_laws BytewiseCompare) BytewiseCompare false key_fits (mti_inv BytewiseCompare) mti_versions mti_cur
    (memtable_iter <$> [active_store; newer_store; older_store])) as [(m & E & Hm & _ & Ev) Hl].
  - apply Forall_fmap. eapply Forall_impl; [exact concrete_stores|]. intros s Hs. apply (memtable_fresh BytewiseCompare s Hs).
  - exact concrete_distinct.
  - vm_compute. discriminate.
  - exists m. split; [exact E|]. assert (Es : mg_versions BytewiseCompare mti_versions m = sorted_versions BytewiseCompare (concat (memtable_versions <$> [active_store; newer_store; older_store]))) by exact Ev.
    rewrite concrete_runs in Es. rewrite Es. split; [vm_compute; reflexivity|].
    destruct (@ilaw_SeekToLast _ _ _ _ _ _ _ Hl m Hm) as (m' & E' & _ & _ & Ec). exists m'. split; [exact E'|]. rewrite Ec, Es. vm_compute. reflexivity.
Defined.

Definition concrete_scan (old blk : option Block) (imm : list (@memdb SkipListRep)) (q : Z) : option (list entry) :=
  o ← old;
  store_scan (H := block_iterator BytewiseCompare) BytewiseCompare q 8 18 (mem_iter active_store) (mem_iter <$> imm)
    ((table_iter <$> option_list blk) ++ [file_iter (NewDataIterator o kDisableGlobalSequenceNumber)]).

(** The flush of both memtables. At the snapshot the old value of the third key is still
    shown, after it the new one; the deletion in the block hides the first key of the file. *)
Lemma flush_memtables_preserve_scans_witness : exists old data blk, (build_block 16 true kDataBlockBinarySearch kDefaultUtilRatio old_versions ≫= Block_new) = Some old /\
  Block_new data = Some blk /\
  concrete_scan (Some old) (Some blk) [] 5 = Some [([2], [21]); ([3], [30])] /\
  concrete_scan (Some old) (Some blk) [] 8 = Some [([2], [21]); ([3], [31]); ([4], [40])] /\
  concrete_scan (Some old) None [newer_store; older_store] 8 = Some [([2], [21]); ([3], [31]); ([4], [40])].
Proof.
  destruct old_versions_ok as [Hok Hso].
  destruct (build_block_laws BytewiseCompare 16 true kDataBlockBinarySearch kDefaultUtilRatio old_versions) as (odata & old & finv & Eo & Ebo & Hfi & Hl); [lia|exact Hok|exact Hso|vm_compute; reflexivity|discriminate|].
  assert (Hkl : InternalIteratorLaws (H := block_iterator BytewiseCompare) BytewiseCompare key_fits finv (fun _ => old_versions) bi_cur).
  { apply (laws_seekable (H := block_iterator BytewiseCompare) BytewiseCompare (fun _ => True)); [exact Hl|intros; exact I|]. intros i v _ Hv. rewrite Forall_forall in Hok. apply (Hok v Hv). }
  destruct (flush_memtables_preserve_scans (H := block_iterator BytewiseCompare) BytewiseCompare finv (fun _ => old_versions) bi_cur [5] 5 active_store [newer_store; older_store]
    [NewDataIterator old kDisableGlobalSequenceNumber] 5 16 true) as (it & out & c & data & blk & _ & _ & _ & _ & Eb & Hs).
  - split.
    + exact concrete_stores.
    + constructor; [split; [exact Hfi|apply table_unpositioned]|constructor].
    + apply (bool_decide_unpack (NoDup _)). vm_compute. exact I.
    + repeat constructor.
    + exact concrete_stacked.
    + split; repeat constructor; vm_compute; discriminate || reflexivity.
    + vm_compute. discriminate.
    + intros k. apply no_single_ok. vm_compute. repeat constructor; discriminate.
    + vm_compute. reflexivity.
    + vm_compute. discriminate.
  - vm_compute. lia.
  - lia.
  - exists old, data, blk. split; [rewrite Eo; exact Ebo|]. split; [exact Eb|].
    destruct (Hs 5 8 18%nat) as [_ E1]; [split; [split; vm_compute; discriminate|left; left]|lia|vm_compute; lia|].
    destruct (Hs 8 8 18%nat) as [E2 E3]; [split; [split; vm_compute; discriminate|right; exact concrete_newest]|lia|vm_compute; lia|].
    split; [etransitivity; [exact E1|vm_compute; reflexivity]|]. split; [etransitivity; [exact E3|vm_compute; reflexivity]|].
    etransitivity; [exact E2|vm_compute; reflexivity].
Defined.
