(* ===== verification/WriteThread.v ===== *)
(** * Group commit ([db/write_thread.cc], [DBImpl::WriteImpl])

    Concurrent writers link themselves into a list with a compare-and-swap; the oldest
    leads a group, writes the log and the memtable for it, hands the rest of the list
    over to the next leader and completes its followers. Threads take steps one at a
    time, in any order; memory is sequentially consistent. A step makes at most one
    access to what threads share: [newest_writer_], the last sequence number, and the
    states of the writers. [AwaitState] and [SetState] are a blocked read and a write of
    the state. The writers and groups live on the stacks of their threads: they are gone
    once the thread has returned, and to access one then, or to fail an assertion, is
    [Failed].

    Modelled without pipelined writes, write stalls, callbacks, a second write queue and
    writes that skip the memtable. What a batch does to the memtable is its status. What the
    log returns, and whether a record whose write failed is in it, are chosen anew in each
    step that writes the log ([log_io]). *)

From S2P Require Import Prelude Coding WriteBatch.

Definition STATE_INIT : Z := 1.
Definition STATE_GROUP_LEADER : Z := 2.
Definition STATE_MEMTABLE_WRITER_LEADER : Z := 4.
Definition STATE_PARALLEL_MEMTABLE_WRITER : Z := 8.
Definition STATE_COMPLETED : Z := 16.

(** What a thread calls: [WriteImpl] with a batch, or [EnterUnbatched] without. *)
Record Job := mkJob {
  j_batch : option WriteBatch;
  j_sync : bool;
  j_no_slowdown : bool;
  j_disable_wal : bool
}.

Record Writer := mkWriter {
  w_state : Z;
  w_write_group : option nat;   (* the leader on whose stack it is *)
  w_sequence : Z;
  w_status : Status;
  w_link_older : option nat;
  w_link_newer : option nat
}.

Definition Writer_new : Writer := mkWriter STATE_INIT None (2 ^ 56 - 1) OK None None.

Record WriteGroup := mkWriteGroup {
  g_last_writer : nat;
  g_last_sequence : option Z;   (* [None]: not initialised *)
  g_status : Status;
  g_running : Z;
  g_size : Z
}.

Record Config := mkConfig {
  c_job : nat -> Job;
  c_allow_concurrent_memtable_write : bool;
  c_max_write_batch_group_size_bytes : Z;
  c_insert : nat -> Status      (* inserting the batch of a thread into the memtable *)
}.

(** ** Program counters *)

(** The local variables of a leader. *)
Record locals := mkLocals { ld_status : Status; ld_last_sequence : Z; ld_current_sequence : Z }.

Inductive pc :=
  | JoinStart
  | LinkTry (writers : option nat)                                (* in [LinkOne] *)
  | LinkedLeader
  | Awaiting (goal_mask : Z)
  | Joined
  | LeadStart
  | EnterStart (ld : locals)
  | EnterLinks (ld : locals) (newest_writer head : nat)           (* in [CreateMissingNewerLinks] *)
  | EnterNext (ld : locals) (newest_writer w : nat) (size max_size : Z)
  | WriteLog (ld : locals)
  | InsertGroup (ld : locals)
  | LaunchNext (ld : locals) (w : nat)                            (* in [LaunchParallelMemTableWriters] *)
  | LaunchInc (ld : locals) (w : nat)
  | ParallelInsert (ld : option locals)                           (* [Some]: the leader *)
  | ParallelDone (ld : option locals)                             (* in [CompleteParallelMemTableWriter] *)
  | ParallelLeave (ld : option locals)
  | ExitSequence (ld : locals)
  | FollowerSequence
  | FollowerExit                                                  (* [ExitAsBatchGroupFollower] *)
  | ExitStart (g : nat) (status : Status)                         (* [ExitAsBatchGroupLeader] of the group [g] *)
  | ExitTry (g : nat) (status : Status) (head : option nat)
  | ExitLinks (g : nat) (status : Status) (head : nat)
  | ExitHand (g : nat) (status : Status)
  | ExitSignal (g : nat) (status : Status)
  | ExitDone (g : nat) (status : Status) (last_writer : nat)
  | FollowerSignal (g : nat)
  | Alone                                                         (* between [EnterUnbatched] and [ExitUnbatched] *)
  | AloneLinks (head : nat)
  | AloneHand
  | AloneSignal (next_leader : nat)
  | Returned (status : Status).

Record WriteThread := mkWriteThread {
  newest_writer_ : option nat;
  writers : gmap nat Writer;
  groups : gmap nat WriteGroup;
  pcs : gmap nat pc;
  last_sequence : Z;                 (* of the versions *)
  wal : list (Z * list nat);         (* the records of the log: first sequence number, writers *)
  mem : list (Z * nat);              (* the batches in the memtable, with their sequence numbers *)
  linked : list nat                  (* ghost: the order in which writers were linked *)
}.

Inductive outcome := Blocked | Failed | Stepped (s : WriteThread).

(** The log and its files: the status of [AddRecord], and whether the whole record is in the
    log although it failed (with the flush after the last append, say); the statuses of
    syncing the live logs; [log_dir_synced_] and the status of syncing the directory. *)
Record log_io := mkLogIO { io_add : Status; io_added : bool; io_sync : list Status; io_log_dir_synced : bool; io_dir_sync : Status }.

(** What the environment decides: whether a weak compare-and-swap fails spuriously, the
    status of [PreprocessWrite], and what the log does. *)
Record choice := mkChoice { ch_spurious : bool; ch_status : Status; ch_io : log_io }.

(** ** State *)

Definition set_newest (n : option nat) (s : WriteThread) : WriteThread :=
  mkWriteThread n (writers s) (groups s) (pcs s) (last_sequence s) (wal s) (mem s) (linked s).
Definition set_writers (m : gmap nat Writer) (s : WriteThread) : WriteThread :=
  mkWriteThread (newest_writer_ s) m (groups s) (pcs s) (last_sequence s) (wal s) (mem s) (linked s).
Definition set_groups (m : gmap nat WriteGroup) (s : WriteThread) : WriteThread :=
  mkWriteThread (newest_writer_ s) (writers s) m (pcs s) (last_sequence s) (wal s) (mem s) (linked s).
Definition goto (t : nat) (p : pc) (s : WriteThread) : WriteThread :=
  mkWriteThread (newest_writer_ s) (writers s) (groups s) (<[t := p]> (pcs s)) (last_sequence s) (wal s) (mem s) (linked s).
Definition set_last_sequence (q : Z) (s : WriteThread) : WriteThread :=
  mkWriteThread (newest_writer_ s) (writers s) (groups s) (pcs s) q (wal s) (mem s) (linked s).
Definition add_wal (r : Z * list nat) (s : WriteThread) : WriteThread :=
  mkWriteThread (newest_writer_ s) (writers s) (groups s) (pcs s) (last_sequence s) (wal s ++ [r]) (mem s) (linked s).
Definition add_mem (l : list (Z * nat)) (s : WriteThread) : WriteThread :=
  mkWriteThread (newest_writer_ s) (writers s) (groups s) (pcs s) (last_sequence s) (wal s) (mem s ++ l) (linked s).
Definition add_linked (t : nat) (s : WriteThread) : WriteThread :=
  mkWriteThread (newest_writer_ s) (writers s) (groups s) (pcs s) (last_sequence s) (wal s) (mem s) (linked s ++ [t]).

Definition with_state (x : Z) (w : Writer) : Writer := mkWriter x (w_write_group w) (w_sequence w) (w_status w) (w_link_older w) (w_link_newer w).
Definition with_group (g : nat) (w : Writer) : Writer := mkWriter (w_state w) (Some g) (w_sequence w) (w_status w) (w_link_older w) (w_link_newer w).
Definition with_sequence (q : Z) (w : Writer) : Writer := mkWriter (w_state w) (w_write_group w) q (w_status w) (w_link_older w) (w_link_newer w).
Definition with_status (x : Status) (w : Writer) : Writer := mkWriter (w_state w) (w_write_group w) (w_sequence w) x (w_link_older w) (w_link_newer w).
Definition with_older (x : option nat) (w : Writer) : Writer := mkWriter (w_state w) (w_write_group w) (w_sequence w) (w_status w) x (w_link_newer w).
Definition with_newer (x : option nat) (w : Writer) : Writer := mkWriter (w_state w) (w_write_group w) (w_sequence w) (w_status w) (w_link_older w) x.

(** A store to a writer, which must be there. *)
Definition store (t : nat) (f : Writer -> Writer) (s : WriteThread) : option WriteThread :=
  w ← writers s !! t; Some (set_writers (<[t := f w]> (writers s)) s).

Definition SetState (t : nat) (new_state : Z) (s : WriteThread) : option WriteThread := store t (with_state new_state) s.

Definition stepped (r : option WriteThread) : outcome := match r with Some s => Stepped s | None => Failed end.
Definition assert {A} (b : bool) (r : option A) : option A := if b then r else None.

Section Steps.
Context (c : Config).

Definition batch_of (t : nat) : option WriteBatch := j_batch (c_job c t).
Definition batch_bytes (t : nat) : Z := from_option GetDataSize 0 (batch_of t).
Definition batch_count (t : nat) : Z := from_option Count 0 (batch_of t).
Definition is_unbatched (t : nat) : bool := match batch_of t with Some _ => false | None => true end.

(** What [JoinBatchGroup] and [EnterUnbatched] wait for. *)
Definition goal_mask (t : nat) : Z :=
  if is_unbatched t then STATE_GROUP_LEADER
  else Z.lor (Z.lor STATE_GROUP_LEADER STATE_MEMTABLE_WRITER_LEADER) (Z.lor STATE_PARALLEL_MEMTABLE_WRITER STATE_COMPLETED).

(** The thread returns, and its stack is gone. *)
Definition leave (t : nat) (status : Status) (s : WriteThread) : WriteThread :=
  goto t (Returned status) (set_groups (delete t (groups s)) (set_writers (delete t (writers s)) s)).

(** ** Links *)

(** [LinkOne]: one round of the loop around the compare-and-swap. *)
Definition LinkOne_try (t : nat) (writers_ : option nat) (spurious : bool) (s : WriteThread) : option WriteThread :=
  s ← store t (with_older writers_) s;
  if bool_decide (newest_writer_ s = writers_) && negb spurious
  then Some (goto t (match writers_ with None => LinkedLeader | Some _ => Awaiting (goal_mask t) end) (add_linked t (set_newest (Some t) s)))
  else Some (goto t (LinkTry (newest_writer_ s)) s).

(** [CreateMissingNewerLinks]: one round; without a next [head] the loop is left. *)
Definition missing_link (head : nat) (s : WriteThread) : option (option nat * WriteThread) :=
  h ← writers s !! head;
  match w_link_older h with
  | None => Some (None, s)
  | Some next =>
      n ← writers s !! next;
      match w_link_newer n with
      | Some x => assert (x =? head)%nat (Some (None, s))
      | None => s ← store next (with_newer (Some head)) s; Some (Some next, s)
      end
  end.

(** ** The leader *)

(** The iteration over a group. *)
Fixpoint group_from (fuel : nat) (w last : nat) (s : WriteThread) : option (list nat) :=
  match fuel with
  | O => None
  | S fuel' =>
      x ← writers s !! w;
      if (w =? last)%nat then Some [w] else next ← w_link_newer x; rest ← group_from fuel' next last s; Some (w :: rest)
  end.

Definition group_members (g : nat) (s : WriteThread) : option (list nat) :=
  grp ← groups s !! g; group_from (S (size (writers s))) g (g_last_writer grp) s.

Definition max_group_size (leader : nat) : Z :=
  let max := c_max_write_batch_group_size_bytes c in
  let min_batch_size_bytes := max / 8 in
  if batch_bytes leader <=? min_batch_size_bytes then u64 (batch_bytes leader + min_batch_size_bytes) else max.

(** Whether [w] joins the group. *)
Definition may_join (leader w : nat) (size max_size : Z) : bool :=
  let jl := c_job c leader in
  let jw := c_job c w in
  negb (j_sync jw && negb (j_sync jl)) && eqb (j_no_slowdown jw) (j_no_slowdown jl) && eqb (j_disable_wal jw) (j_disable_wal jl) &&
  negb (is_unbatched w) && negb (u64 (size + batch_bytes w) >? max_size).

(** [EnterAsBatchGroupLeader], up to the load of [newest_writer_]. *)
Definition EnterAsBatchGroupLeader (t : nat) (ld : locals) (s : WriteThread) : option WriteThread :=
  w ← writers s !! t;
  assert (bool_decide (w_link_older w = None) && negb (is_unbatched t))
    (s ← store t (with_group t) s;
     newest ← newest_writer_ s;
     Some (goto t (EnterLinks ld newest newest) (set_groups (<[t := mkWriteGroup t None OK 0 1]> (groups s)) s))).

Definition EnterAsBatchGroupLeader_next (t : nat) (ld : locals) (newest w : nat) (size max_size : Z) (s : WriteThread) : option WriteThread :=
  if (w =? newest)%nat then Some (goto t (WriteLog ld) s)
  else
    x ← writers s !! w;
    w' ← w_link_newer x;
    if may_join t w' size max_size then
      s ← store w' (with_group t) s;
      grp ← groups s !! t;
      Some (goto t (EnterNext ld newest w' (u64 (size + batch_bytes w')) max_size)
        (set_groups (<[t := mkWriteGroup w' (g_last_sequence grp) (g_status grp) (g_running grp) (u64 (g_size grp + 1))]> (groups s)) s))
    else Some (goto t (WriteLog ld) s).

Definition ShouldWriteToMemtable (s : WriteThread) (t : nat) : bool := match writers s !! t with Some w => ok (w_status w) | None => false end.

Fixpoint assign_sequences (ws : list nat) (seq : Z) (s : WriteThread) : option WriteThread :=
  match ws with
  | [] => Some s
  | w :: ws' =>
      s' ← store w (with_sequence seq) s;
      assign_sequences ws' (if ShouldWriteToMemtable s w then u64 (seq + batch_count w) else seq) s'
  end.

(** [HasMerge] is asked while the answer may change [parallel]. *)
Fixpoint no_merges (ws : list nat) : option bool :=
  match ws with
  | [] => Some true
  | w :: ws' => b ← batch_of w; m ← HasMerge b; if m : bool then Some false else no_merges ws'
  end.

(** The loop over [logs_]. *)
Fixpoint sync_logs (io_s : Status) (l : list Status) : Status :=
  match l with
  | [] => io_s
  | r :: l' => if ok r then sync_logs r l' else r
  end.

(** Whether the record is in the log, and the status. *)
Definition WriteToWAL (need_log_sync : bool) (io : log_io) : bool * Status :=
  let io_s := io_add io in
  let io_s' :=
    if ok io_s && need_log_sync then
      let io_s := sync_logs io_s (io_sync io) in
      if ok io_s && negb (io_log_dir_synced io) then io_dir_sync io else io_s
    else io_s in
  (ok io_s || io_added io, io_s').

(** The log, and what follows from its status. *)
Definition write_log (t : nat) (ld : locals) (io : log_io) (s : WriteThread) : option WriteThread :=
  if negb (ok (ld_status ld)) then Some (goto t (ExitSequence ld) s)
  else
    members ← group_members t s;
    grp ← groups s !! t;
    let memtable_writers := filter (fun w => ShouldWriteToMemtable s w = true) members in
    parallel ← (if c_allow_concurrent_memtable_write c && (g_size grp >? 1) then no_merges memtable_writers else Some false);
    let total_count := foldr (fun w n => u64 (batch_count w + n)) 0 memtable_writers in
    let current_sequence := u64 (ld_last_sequence ld + 1) in
    let '(added, io_s) := if j_disable_wal (c_job c t) then (false, OK) else WriteToWAL (j_sync (c_job c t)) io in
    let s := if added : bool then add_wal (current_sequence, members) s else s in
    let ld := mkLocals io_s (u64 (ld_last_sequence ld + total_count)) current_sequence in
    if ok io_s then
      s ← assign_sequences members current_sequence s;
      if parallel : bool
      then Some (goto t (LaunchNext ld t) (set_groups (<[t := mkWriteGroup (g_last_writer grp) (g_last_sequence grp) (g_status grp) (g_size grp) (g_size grp)]> (groups s)) s))
      else Some (goto t (InsertGroup ld) s)
    else Some (goto t (ExitSequence ld) s).

(** [InsertInto] of a group. *)
Fixpoint insert_members (ws : list nat) (seq : Z) (s : WriteThread) : option (Status * WriteThread) :=
  match ws with
  | [] => Some (OK, s)
  | w :: ws' =>
      let should := ShouldWriteToMemtable s w in
      s ← store w (with_sequence seq) s;
      if should : bool then
        let r := c_insert c w in
        s ← store w (with_status r) s;
        if ok r then insert_members ws' (u64 (seq + batch_count w)) (add_mem [(seq, w)] s) else Some (r, s)
      else insert_members ws' seq s
  end.

Definition insert_group (t : nat) (ld : locals) (s : WriteThread) : option WriteThread :=
  members ← group_members t s;
  '(r, s) ← insert_members members (ld_current_sequence ld) s;
  s ← store t (with_status r) s;
  Some (goto t (ExitSequence ld) s).

(** [SetLastSequence] of the versions. *)
Definition SetLastSequence (q : Z) (s : WriteThread) : option WriteThread :=
  assert (q >=? last_sequence s) (Some (set_last_sequence q s)).

Definition publish (t : nat) (ld : locals) (s : WriteThread) : option WriteThread :=
  s ← (if ok (ld_status ld) then SetLastSequence (ld_last_sequence ld) s else Some s);
  Some (goto t (ExitStart t (ld_status ld)) s).

(** *** [ExitAsBatchGroupLeader] *)

Definition exit_start (t g : nat) (status : Status) (s : WriteThread) : option WriteThread :=
  grp ← groups s !! g;
  leader ← writers s !! g;
  assert (bool_decide (w_link_older leader = None))
    (Some (goto t (ExitTry g (if ok status && negb (ok (g_status grp)) then g_status grp else status) (newest_writer_ s)) s)).

Definition exit_try (t g : nat) (status : Status) (head : option nat) (s : WriteThread) : option WriteThread :=
  grp ← groups s !! g;
  let last_writer := g_last_writer grp in
  if bool_decide (head = Some last_writer) then
    if bool_decide (newest_writer_ s = head) then Some (goto t (ExitDone g status last_writer) (set_newest None s))
    else h ← newest_writer_ s; Some (goto t (ExitLinks g status h) s)
  else h ← head; Some (goto t (ExitLinks g status h) s).

Definition exit_hand (t g : nat) (status : Status) (s : WriteThread) : option WriteThread :=
  grp ← groups s !! g;
  lw ← writers s !! g_last_writer grp;
  next ← w_link_newer lw;
  nw ← writers s !! next;
  assert (bool_decide (w_link_older nw = Some (g_last_writer grp)))
    (s ← store next (with_older None) s; Some (goto t (ExitSignal g status) s)).

Definition exit_signal (t g : nat) (status : Status) (s : WriteThread) : option WriteThread :=
  grp ← groups s !! g;
  lw ← writers s !! g_last_writer grp;
  next ← w_link_newer lw;
  s ← SetState next STATE_GROUP_LEADER s;
  Some (goto t (ExitDone g status (g_last_writer grp)) s).

Definition exit_done (t g : nat) (status : Status) (cur : nat) (s : WriteThread) : option WriteThread :=
  if (cur =? g)%nat then
    if (t =? g)%nat then w ← writers s !! t; Some (leave t (if ok status then w_status w else status) s)
    else Some (goto t (FollowerSignal g) s)
  else
    w ← writers s !! cur;
    s ← store cur (with_status status) s;
    next ← w_link_older w;
    s ← SetState cur STATE_COMPLETED s;
    Some (goto t (ExitDone g status next) s).

(** ** Parallel groups *)

Definition launch_next (t : nat) (ld : locals) (w : nat) (s : WriteThread) : option WriteThread :=
  s ← SetState w STATE_PARALLEL_MEMTABLE_WRITER s; Some (goto t (LaunchInc ld w) s).

Definition launch_inc (t : nat) (ld : locals) (w : nat) (s : WriteThread) : option WriteThread :=
  grp ← groups s !! t;
  if (w =? g_last_writer grp)%nat then Some (goto t (ParallelInsert (Some ld)) s)
  else x ← writers s !! w; next ← w_link_newer x; Some (goto t (LaunchNext ld next) s).

(** [InsertInto] of one writer. *)
Definition parallel_insert (t : nat) (ld : option locals) (s : WriteThread) : option WriteThread :=
  w ← writers s !! t;
  if ok (w_status w) then
    assert (match ld with Some ld => w_sequence w =? ld_current_sequence ld | None => true end)
      (s ← store t (with_status (c_insert c t)) s;
       Some (goto t (ParallelDone ld) (if ok (c_insert c t) then add_mem [(w_sequence w, t)] s else s)))
  else Some (goto t (ParallelDone ld) s).

Definition set_group_status (g : nat) (x : Status) (s : WriteThread) : option WriteThread :=
  grp ← groups s !! g;
  Some (set_groups (<[g := mkWriteGroup (g_last_writer grp) (g_last_sequence grp) x (g_running grp) (g_size grp)]> (groups s)) s).

Definition parallel_done (t : nat) (ld : option locals) (s : WriteThread) : option WriteThread :=
  w ← writers s !! t;
  g ← w_write_group w;
  s ← (if ok (w_status w) then Some s else set_group_status g (w_status w) s);
  Some (goto t (ParallelLeave ld) s).

Definition parallel_leave (t : nat) (ld : option locals) (s : WriteThread) : option WriteThread :=
  w ← writers s !! t;
  g ← w_write_group w;
  grp ← groups s !! g;
  let s := set_groups (<[g := mkWriteGroup (g_last_writer grp) (g_last_sequence grp) (g_status grp) (u64 (g_running grp - 1)) (g_size grp)]> (groups s)) s in
  if g_running grp >? 1 then Some (goto t (Awaiting STATE_COMPLETED) s)
  else s ← store t (with_status (g_status grp)) s; Some (goto t (match ld with Some ld => ExitSequence ld | None => FollowerSequence end) s).

(** The follower that is done last publishes the sequence number of the group. *)
Definition follower_sequence (t : nat) (s : WriteThread) : option WriteThread :=
  w ← writers s !! t;
  g ← w_write_group w;
  grp ← groups s !! g;
  q ← g_last_sequence grp;
  s ← SetLastSequence q s;
  Some (goto t FollowerExit s).

Definition ExitAsBatchGroupFollower (t : nat) (s : WriteThread) : option WriteThread :=
  w ← writers s !! t;
  g ← w_write_group w;
  grp ← groups s !! g;
  assert ((w_state w =? STATE_PARALLEL_MEMTABLE_WRITER) && ok (g_status grp)) (Some (goto t (ExitStart g (g_status grp)) s)).

Definition follower_signal (t g : nat) (s : WriteThread) : option WriteThread :=
  w ← writers s !! t;
  assert (ok (w_status w) && (w_state w =? STATE_COMPLETED)) (s ← SetState g STATE_COMPLETED s; Some (goto t Joined s)).

(** ** [WriteImpl] and [EnterUnbatched] *)

(** After [JoinBatchGroup]. *)
Definition joined (t : nat) (s : WriteThread) : option WriteThread :=
  w ← writers s !! t;
  if w_state w =? STATE_PARALLEL_MEMTABLE_WRITER then Some (goto t (ParallelInsert None) s)
  else if w_state w =? STATE_COMPLETED then Some (leave t (w_status w) s)
  else assert (w_state w =? STATE_GROUP_LEADER) (Some (goto t LeadStart s)).

(** [ExitUnbatched]. *)
Definition ExitUnbatched (t : nat) (s : WriteThread) : option WriteThread :=
  if bool_decide (newest_writer_ s = Some t) then Some (leave t OK (set_newest None s))
  else h ← newest_writer_ s; Some (goto t (AloneLinks h) s).

Definition alone_hand (t : nat) (s : WriteThread) : option WriteThread :=
  w ← writers s !! t;
  next ← w_link_newer w;
  s ← store next (with_older None) s;
  Some (goto t (AloneSignal next) s).

Definition step (s : WriteThread) (t : nat) (x : choice) : outcome :=
  match pcs s !! t with
  | None | Some (Returned _) => Blocked
  | Some JoinStart => Stepped (goto t (LinkTry (newest_writer_ s)) (set_writers (<[t := Writer_new]> (writers s)) s))
  | Some (LinkTry writers_) => stepped (LinkOne_try t writers_ (ch_spurious x) s)
  | Some LinkedLeader =>
      if is_unbatched t then Stepped (goto t Alone s)
      else stepped (s ← SetState t STATE_GROUP_LEADER s; Some (goto t Joined s))
  | Some (Awaiting mask) =>
      match writers s !! t with
      | None => Failed
      | Some w => if Z.land (w_state w) mask =? 0 then Blocked else Stepped (goto t (if is_unbatched t then Alone else Joined) s)
      end
  | Some Joined => stepped (joined t s)
  | Some LeadStart => Stepped (goto t (EnterStart (mkLocals (ch_status x) (last_sequence s) 0)) s)
  | Some (EnterStart ld) => stepped (EnterAsBatchGroupLeader t ld s)
  | Some (EnterLinks ld newest head) =>
      stepped ('(next, s) ← missing_link head s;
               Some (goto t (match next with
                             | Some head => EnterLinks ld newest head
                             | None => EnterNext ld newest t (batch_bytes t) (max_group_size t)
                             end) s))
  | Some (EnterNext ld newest w size max_size) => stepped (EnterAsBatchGroupLeader_next t ld newest w size max_size s)
  | Some (WriteLog ld) => stepped (write_log t ld (ch_io x) s)
  | Some (InsertGroup ld) => stepped (insert_group t ld s)
  | Some (LaunchNext ld w) => stepped (launch_next t ld w s)
  | Some (LaunchInc ld w) => stepped (launch_inc t ld w s)
  | Some (ParallelInsert ld) => stepped (parallel_insert t ld s)
  | Some (ParallelDone ld) => stepped (parallel_done t ld s)
  | Some (ParallelLeave ld) => stepped (parallel_leave t ld s)
  | Some (ExitSequence ld) => stepped (publish t ld s)
  | Some FollowerSequence => stepped (follower_sequence t s)
  | Some FollowerExit => stepped (ExitAsBatchGroupFollower t s)
  | Some (ExitStart g status) => stepped (exit_start t g status s)
  | Some (ExitTry g status head) => stepped (exit_try t g status head s)
  | Some (ExitLinks g status head) =>
      stepped ('(next, s) ← missing_link head s;
               Some (goto t (match next with Some head => ExitLinks g status head | None => ExitHand g status end) s))
  | Some (ExitHand g status) => stepped (exit_hand t g status s)
  | Some (ExitSignal g status) => stepped (exit_signal t g status s)
  | Some (ExitDone g status cur) => stepped (exit_done t g status cur s)
  | Some (FollowerSignal g) => stepped (follower_signal t g s)
  | Some Alone => stepped (ExitUnbatched t s)
  | Some (AloneLinks head) =>
      stepped ('(next, s) ← missing_link head s;
               Some (goto t (match next with Some head => AloneLinks head | None => AloneHand end) s))
  | Some AloneHand => stepped (alone_hand t s)
  | Some (AloneSignal next) => stepped (s ← SetState next STATE_GROUP_LEADER s; Some (leave t OK s))
  end.

Definition WriteThread_new (n : nat) (last : Z) : WriteThread :=
  mkWriteThread None ∅ ∅ (list_to_map ((fun t => (t, JoinStart)) <$> seq 0 n)) last [] [] [].

(** Runs of [n] threads. *)
Inductive reachable (n : nat) (last : Z) : WriteThread -> Prop :=
  | reachable_new : reachable n last (WriteThread_new n last)
  | reachable_step s t x s' : reachable n last s -> step s t x = Stepped s' -> reachable n last s'.

Fixpoint run (s : WriteThread) (l : list nat) (x : choice) : outcome :=
  match l with
  | [] => Stepped s
  | t :: l' => match step s t x with Stepped s' => run s' l' x | r => r end
  end.
End Steps.
