(* ===== verification/WriteThreadCorrect.v ===== *)
(** * Correctness of group commit

    In every state that threads can reach, whatever the order of their steps, the writers
    that are linked are a queue whose oldest writer leads; the groups that were written
    are numbered without gaps in the order of the queue; and nobody accesses a writer
    whose thread has returned. *)

From S2P Require Import Prelude Coding WriteBatch WriteThread.

(** The groups that were written, each with whether the log took it without an error;
    a group with an error is here if its record is in the log all the same. *)
Abbreviation history := (list (bool * list nat)).

Section Correct.
Context (c : Config) (n : nat) (last0 : Z).
Implicit Types (s : WriteThread) (Q past : list nat).
Abbreviation count := (batch_count c).
Abbreviation alone := (fun t => is_unbatched c t = true).
Abbreviation batched := (fun t => is_unbatched c t = false).

(** ** What was written *)

Definition total (ws : list nat) : Z := foldr (fun w q => count w + q) 0 ws.

(** The writers with the sequence numbers that follow [q]. *)
Fixpoint numbered (q : Z) (ws : list nat) : list (Z * nat) :=
  match ws with
  | [] => []
  | w :: ws' => (q + 1, w) :: numbered (q + count w) ws'
  end.

Definition members (GG : history) : list nat := concat GG.*2.

(** The writers without an error, whose batches belong into the memtable. *)
Definition kept (GG : history) : list nat := GG ≫= fun e => if e.1 : bool then e.2 else [].

(** The records of the log for groups of writers after [q]: one with an error does not use
    up its sequence numbers. *)
Fixpoint records (q : Z) (GG : history) : list (Z * list nat) :=
  match GG with
  | [] => []
  | (b, ws) :: GG' =>
      (if from_option (fun w => j_disable_wal (c_job c w)) false (head ws) then [] else [(q + 1, ws)]) ++
      records (if b : bool then q + total ws else q) GG'
  end.

Lemma members_app GG GG' : members (GG ++ GG') = members GG ++ members GG'.
Proof. unfold members. by rewrite fmap_app, concat_app. Qed.

Lemma kept_app GG GG' : kept (GG ++ GG') = kept GG ++ kept GG'.
Proof. unfold kept. by rewrite bind_app. Qed.

Lemma kept_sub GG : kept GG `sublist_of` members GG.
Proof. induction GG as [|[[|] ws] GG IH]; [done|by apply sublist_app|]. cbn. by apply sublist_inserts_l. Qed.

Lemma total_app l l' : total (l ++ l') = total l + total l'.
Proof. unfold total. induction l as [|w l IH]; cbn; [done|]. rewrite IH. lia. Qed.

Lemma total_cons w l : total (w :: l) = count w + total l.
Proof. done. Qed.

Lemma numbered_app q l l' : numbered q (l ++ l') = numbered q l ++ numbered (q + total l) l'.
Proof. revert q. induction l as [|w l IH]; intros q; cbn [app numbered]; [by rewrite Z.add_0_r|]. rewrite IH, total_cons, Z.add_assoc. done. Qed.

Lemma records_app q GG GG' : records q (GG ++ GG') = records q GG ++ records (q + total (kept GG)) GG'.
Proof.
  revert q. induction GG as [|[[|] ws] GG IH]; intros q; cbn [app records]; [by rewrite Z.add_0_r| |by rewrite IH, <- app_assoc].
  change (kept ((true, ws) :: GG)) with (ws ++ kept GG). by rewrite IH, total_app, <- app_assoc, Z.add_assoc.
Qed.

(** ** The queue *)

Definition older_at Q (cut i : nat) : option nat := if decide (i = O \/ i = cut) then None else Q !! pred i.

(** The links to newer writers exist up to [m], and those that a walk from [k] down to
    [j] has made. *)
Definition newer_at Q (m j k i : nat) : option nat := if decide (i < m \/ j <= i < k)%nat then Q !! S i else None.

Definition links s Q (cut m j k : nat) : Prop :=
  forall i q, Q !! i = Some q -> exists w, writers s !! q = Some w /\ w_status w = OK /\
    w_link_older w = older_at Q cut i /\ w_link_newer w = newer_at Q m j k i.

(** Without a walk. *)
Definition resting s Q (cut m : nat) : Prop := (m < length Q)%nat /\ links s Q cut m 0 0.

(** A walk of [CreateMissingNewerLinks] from the writer at [k], at [head]. *)
Definition walking s Q (m : nat) (k head : nat) : Prop :=
  exists j, Q !! j = Some head /\ (j <= k)%nat /\ (m <= k < length Q)%nat /\ links s Q 0 m j k.

Definition state_is s t (x : Z) : Prop := w_state <$> writers s !! t = Some x.

Definition awaiting s t : Prop :=
  pcs s !! t = Some (Awaiting (goal_mask c t)) /\ state_is s t STATE_INIT.

(** The group of the leader [L]: the writers up to [g]. *)
Definition group_at s Q (L g : nat) : Prop :=
  exists last grp, Q !! g = Some last /\ groups s !! L = Some grp /\ g_last_writer grp = last /\ g_status grp = OK /\ g_size grp = u64 (Z.of_nat (S g)) /\
    forall i w, (i <= g)%nat -> Q !! i = Some w -> batched w /\ j_disable_wal (c_job c w) = j_disable_wal (c_job c L).

Definition in_group s Q (L g m : nat) : Prop := group_at s Q L g /\ (g <= m)%nat.

(** What the leader has written of its group: to the log, to the memtable, and published. *)
Record progress := mkProgress { in_wal : history; in_mem : history; published : history }.

Definition nothing : progress := mkProgress [] [] [].
Definition all_of (e : history) : progress := mkProgress e e e.
Definition entry (b : bool) Q (g : nat) : history := [(b, take (S g) Q)].

(** The log failed, with or without the record. *)
Definition failed Q (g : nat) (x : progress) : Prop := x = nothing \/ x = all_of (entry false Q g).

Definition inserted (st : Status) Q (g : nat) (x : progress) : Prop :=
  if ok st then x = mkProgress (entry true Q g) (entry true Q g) [] else failed Q g x.

Definition written (st : Status) Q (g : nat) (x : progress) : Prop :=
  if ok st then x = all_of (entry true Q g) else failed Q g x.

Definition lead s Q (L : nat) (p : pc) (x : progress) : Prop :=
  match p with
  | LinkedLeader => x = nothing /\ state_is s L STATE_INIT /\ exists m, resting s Q 0 m
  | Awaiting mask => x = nothing /\ mask = goal_mask c L /\ state_is s L STATE_GROUP_LEADER /\ exists m, resting s Q 0 m
  | Joined => x = nothing /\ batched L /\ state_is s L STATE_GROUP_LEADER /\ exists m, resting s Q 0 m
  | LeadStart => x = nothing /\ batched L /\ exists m, resting s Q 0 m
  | EnterStart ld => x = nothing /\ batched L /\ ld_last_sequence ld = last_sequence s /\ exists m, resting s Q 0 m
  | EnterLinks ld newest head => x = nothing /\ ld_last_sequence ld = last_sequence s /\ group_at s Q L 0 /\
      exists m k, Q !! k = Some newest /\ walking s Q m k head
  | EnterNext ld newest w _ _ => x = nothing /\ ld_last_sequence ld = last_sequence s /\
      exists g k, Q !! g = Some w /\ group_at s Q L g /\ (g <= k)%nat /\ Q !! k = Some newest /\ resting s Q 0 k
  | WriteLog ld => x = nothing /\ ld_last_sequence ld = last_sequence s /\ exists g m, in_group s Q L g m /\ resting s Q 0 m
  | InsertGroup ld => exists g m, in_group s Q L g m /\ resting s Q 0 m /\ x = mkProgress (entry true Q g) [] [] /\ ld_status ld = OK /\
      ld_current_sequence ld = last_sequence s + 1 /\ ld_last_sequence ld = last_sequence s + total (take (S g) Q)
  | ExitSequence ld => exists g m, in_group s Q L g m /\ resting s Q 0 m /\
      inserted (ld_status ld) Q g x /\
      (ld_status ld = OK -> ld_last_sequence ld = last_sequence s + total (take (S g) Q))
  | ExitStart L' st => L' = L /\ exists g m, in_group s Q L g m /\ resting s Q 0 m /\ written st Q g x
  | ExitTry L' st head => L' = L /\ exists g m k, in_group s Q L g m /\ resting s Q 0 m /\ written st Q g x /\ (g <= k)%nat /\ Q !! k = head /\ is_Some head
  | ExitLinks L' st head => L' = L /\ exists g m k, in_group s Q L g m /\ walking s Q m k head /\ written st Q g x /\ (g < k)%nat
  | ExitHand L' st => L' = L /\ exists g m, in_group s Q L g m /\ resting s Q 0 m /\ written st Q g x /\ (g < m)%nat
  | ExitSignal L' st => L' = L /\ exists g m, in_group s Q L g m /\ resting s Q (S g) m /\ written st Q g x /\ (g < m)%nat
  | Alone => x = nothing /\ alone L /\ exists m, resting s Q 0 m
  | AloneLinks head => x = nothing /\ alone L /\ exists m k, walking s Q m k head /\ (0 < k)%nat
  | AloneHand => x = nothing /\ alone L /\ exists m, resting s Q 0 m /\ (0 < m)%nat
  | AloneSignal next => x = nothing /\ alone L /\ exists m, resting s Q 1 m /\ (0 < m)%nat /\ Q !! 1%nat = Some next
  | _ => False
  end.

(** The queue and its leader. *)
Record front s Q (x : progress) : Prop := {
  fr_newest : newest_writer_ s = list.last Q;
  fr_lead : match Q with [] => x = nothing | L :: _ => exists p, pcs s !! L = Some p /\ lead s Q L p x end;
  fr_wait : forall i q, Q !! S i = Some q -> awaiting s q
}.

(** ** The other threads *)

(** A thread that is not linked. *)
Definition outside s t : Prop :=
  pcs s !! t = Some JoinStart \/
  exists old w, pcs s !! t = Some (LinkTry old) /\ writers s !! t = Some w /\ w_state w = STATE_INIT /\ w_status w = OK /\ w_link_newer w = None.

(** A thread that has left the queue: a follower that its leader has yet to complete, a
    completed follower, a leader that completes its followers, or a thread that has
    returned. [owner] gives the leaders of the first kind. *)
Definition left s GG (owner : gmap nat nat) t : Prop :=
  match owner !! t with
  | Some L => awaiting s t /\ batched t /\ exists st cur, pcs s !! L = Some (ExitDone L st cur) /\ (st = OK <-> t ∈ kept GG)
  | None =>
      (exists w, writers s !! t = Some w /\ w_state w = STATE_COMPLETED /\ batched t /\ (w_status w = OK <-> t ∈ kept GG) /\
         (pcs s !! t = Some (Awaiting (goal_mask c t)) \/ pcs s !! t = Some Joined)) \/
      (exists st cur w, pcs s !! t = Some (ExitDone t st cur) /\ batched t /\ (st = OK <-> t ∈ kept GG) /\ writers s !! t = Some w /\ w_status w = OK) \/
      (exists st, pcs s !! t = Some (Returned st) /\ (batched t -> (st = OK <-> t ∈ kept GG)))
  end.

(** The followers of a leader that completes them, old to new. *)
Definition completes s (owner : gmap nat nat) L : Prop :=
  forall st cur, pcs s !! L = Some (ExitDone L st cur) ->
  exists fs, list.last (L :: fs) = Some cur /\ NoDup fs /\ (forall f, f ∈ fs <-> owner !! f = Some L) /\
    forall i f, fs !! i = Some f -> exists w, writers s !! f = Some w /\ w_link_older w = (L :: fs) !! i.

Record rest s past Q GG (owner : gmap nat nat) : Prop := {
  re_outside : forall t, (t < n)%nat -> t ∉ past ++ Q -> outside s t;
  re_left : forall t, t ∈ past -> left s GG owner t;
  re_owner : forall f L, owner !! f = Some L -> f ∈ past /\ L ∈ past;
  re_completes : forall L, L ∈ past -> completes s owner L
}.

Record data s past GG (x : progress) : Prop := {
  da_wal : wal s = records last0 (GG ++ in_wal x);
  da_mem : mem s = numbered last0 (kept (GG ++ in_mem x));
  da_last : last_sequence s = last0 + total (kept (GG ++ published x));
  da_sub : members GG `sublist_of` past;
  da_batched : Forall batched (kept GG)
}.

Record inv s past Q GG (owner : gmap nat nat) (x : progress) : Prop := {
  in_linked : linked s = past ++ Q;
  in_NoDup : NoDup (past ++ Q);
  in_threads : forall t, is_Some (pcs s !! t) <-> (t < n)%nat;
  in_bound : Forall (fun t => (t < n)%nat) (past ++ Q);
  in_front : front s Q x;
  in_rest : rest s past Q GG owner;
  in_data : data s past GG x
}.

(** ** Frames *)

Definition agree s s' (l : list nat) : Prop := forall q, q ∈ l -> writers s' !! q = writers s !! q.

Lemma links_frame s s' Q cut m j k : agree s s' Q -> links s Q cut m j k -> links s' Q cut m j k.
Proof. intros Ha Hl i q Hq. destruct (Hl i q Hq) as (w & Hw & H). exists w. rewrite Ha by (by eapply list_elem_of_lookup_2). done. Qed.

Lemma resting_frame s s' Q cut m : agree s s' Q -> resting s Q cut m -> resting s' Q cut m.
Proof. intros Ha [Hm Hl]. split; [done|]. by eapply links_frame. Qed.

Lemma walking_frame s s' Q m k h : agree s s' Q -> walking s Q m k h -> walking s' Q m k h.
Proof. intros Ha (j & Hj & Hjk & Hm & Hl). exists j. split_and!; try done; [lia..|]. by eapply links_frame. Qed.

Lemma state_frame s s' Q t x : agree s s' Q -> t ∈ Q -> state_is s t x -> state_is s' t x.
Proof. intros Ha Ht Hs. unfold state_is. by rewrite Ha. Qed.

Lemma group_frame s s' Q L g : groups s' !! L = groups s !! L -> group_at s Q L g -> group_at s' Q L g.
Proof. intros Hg (last & grp & H). exists last, grp. by rewrite Hg. Qed.

Lemma in_group_frame s s' Q L g m : groups s' !! L = groups s !! L -> in_group s Q L g m -> in_group s' Q L g m.
Proof. intros Hg [H Hm]. split; [|done]. by eapply group_frame. Qed.

Lemma lead_frame s s' Q L p x : agree s s' Q -> L ∈ Q -> groups s' !! L = groups s !! L -> last_sequence s' = last_sequence s ->
  lead s Q L p x -> lead s' Q L p x.
Proof.
  intros Ha HL Hg Hq. destruct p; cbn; try done; rewrite ?Hq; intros;
    repeat match goal with H : _ /\ _ |- _ => destruct H | H : exists _, _ |- _ => destruct H end;
    repeat match goal with |- _ /\ _ => split | |- exists _, _ => eexists end; try done; eauto using resting_frame, walking_frame, state_frame, group_frame, in_group_frame.
Qed.

Lemma outside_frame s s' t : writers s' !! t = writers s !! t -> pcs s' !! t = pcs s !! t -> outside s t -> outside s' t.
Proof. intros Hw Hp. unfold outside. by rewrite Hw, Hp. Qed.

Lemma left_frame s s' GG owner t : writers s' !! t = writers s !! t -> pcs s' !! t = pcs s !! t ->
  (forall L, owner !! t = Some L -> pcs s' !! L = pcs s !! L) -> left s GG owner t -> left s' GG owner t.
Proof.
  intros Hw Hp Ho. unfold left. destruct (owner !! t) as [L|]; unfold awaiting, state_is; rewrite ?Hw, ?Hp; [|done]. by rewrite (Ho L eq_refl).
Qed.

Lemma completes_frame s s' owner L : pcs s' !! L = pcs s !! L -> (forall f, owner !! f = Some L -> writers s' !! f = writers s !! f) ->
  completes s owner L -> completes s' owner L.
Proof.
  intros Hp Hf Hc st cur. rewrite Hp. intros E. destruct (Hc st cur E) as (fs & Hl & Hn & Hin & Hch). exists fs. split_and!; try done.
  intros i f Hi. destruct (Hch i f Hi) as (w & Hw & Ho). exists w. rewrite Hf; [done|]. apply Hin. by eapply list_elem_of_lookup_2.
Qed.

(** A step within the queue does not concern the other threads. *)
Lemma rest_frame s s' past Q GG owner : NoDup (past ++ Q) ->
  (forall t, t ∉ Q -> writers s' !! t = writers s !! t /\ pcs s' !! t = pcs s !! t) -> rest s past Q GG owner -> rest s' past Q GG owner.
Proof.
  intros Hn Ha [Hout Hleft Hown Hcom]. assert (Hp : forall t, t ∈ past -> t ∉ Q) by (apply NoDup_app in Hn as (_ & Hn & _); exact Hn). split.
  - intros t Ht Hi. destruct (Ha t) as [Hw Hpc]; [set_solver|]. eapply outside_frame; [done..|]. by apply Hout.
  - intros t Ht. destruct (Ha t (Hp t Ht)) as [Hw Hpc]. eapply left_frame; [done..| |by apply Hleft]. intros L HL. apply Ha, Hp. by destruct (Hown t L HL).
  - done.
  - intros L HL. destruct (Ha L (Hp L HL)) as [_ Hpc]. eapply completes_frame; [done| |by apply Hcom]. intros f Hf. apply Ha, Hp. by destruct (Hown f L Hf).
Qed.

Lemma front_step s s' L Q x x' p : NoDup (L :: Q) -> front s (L :: Q) x -> newest_writer_ s' = newest_writer_ s ->
  (forall t, t <> L -> pcs s' !! t = pcs s !! t) -> pcs s' !! L = Some p ->
  (forall q, q ∈ Q -> w_state <$> writers s' !! q = w_state <$> writers s !! q) -> lead s' (L :: Q) L p x' -> front s' (L :: Q) x'.
Proof.
  intros Hn [Hnew _ Hwait] Hn' Hp HL Hst Hlead. apply NoDup_cons in Hn as [HLQ _]. split; [by rewrite Hn'|by exists p|].
  intros i q Hq. destruct (Hwait i q Hq) as [Hpc Hs]. cbn in Hq. assert (q ∈ Q) by (by eapply list_elem_of_lookup_2).
  split; [rewrite Hp; [done|by intros ->]|]. unfold state_is. by rewrite Hst.
Qed.

(** A step of the leader that leaves the queue as it is. *)
Lemma leader_step s s' past L Q GG owner x x' p : inv s past (L :: Q) GG owner x ->
  linked s' = linked s -> newest_writer_ s' = newest_writer_ s ->
  (forall t, t <> L -> pcs s' !! t = pcs s !! t) -> pcs s' !! L = Some p ->
  (forall t, t ∉ L :: Q -> writers s' !! t = writers s !! t) ->
  (forall q, q ∈ Q -> w_state <$> writers s' !! q = w_state <$> writers s !! q) ->
  lead s' (L :: Q) L p x' -> data s' past GG x' -> inv s' past (L :: Q) GG owner x'.
Proof.
  intros [Hl Hn Ht Hb Hf Hr Hd] El En Hp HL Hw Hst Hlead Hd'. assert (HnQ : NoDup (L :: Q)) by (by apply NoDup_app in Hn as (_ & _ & ?)).
  split; [by rewrite El|done| |done|by eapply front_step|eapply rest_frame; [done| |done]|done].
  - intros t. destruct (decide (t = L)) as [->|Hne]; [|by rewrite Hp].
    rewrite HL. split; [|by eexists]. intros _. rewrite Forall_forall in Hb. apply Hb. set_solver.
  - intros t Hi. split; [by apply Hw|]. apply Hp. set_solver.
Qed.

(** ** Steps of threads that are not in the queue *)

Lemma front_frame s s' Q x : agree s s' Q -> (forall q, q ∈ Q -> pcs s' !! q = pcs s !! q) -> (forall q, q ∈ Q -> groups s' !! q = groups s !! q) ->
  newest_writer_ s' = newest_writer_ s -> last_sequence s' = last_sequence s -> front s Q x -> front s' Q x.
Proof.
  intros Ha Hp Hg Hn Hq [Hnew Hlead Hwait]. split; [by rewrite Hn| |].
  - destruct Q as [|L Q]; [done|]. destruct Hlead as (p & Hpc & Hl). assert (L ∈ L :: Q) by left. exists p. rewrite Hp by done. split; [done|].
    apply (lead_frame s s'); auto.
  - intros i q Hi. destruct (Hwait i q Hi) as [Hpc Hs]. assert (q ∈ Q) by (by eapply list_elem_of_lookup_2). split; [by rewrite Hp|].
    by eapply (state_frame s s' Q).
Qed.

Lemma data_frame s s' past GG x : wal s' = wal s -> mem s' = mem s -> last_sequence s' = last_sequence s -> data s past GG x -> data s' past GG x.
Proof. intros E1 E2 E3 [? ? ? ? ?]. split; congruence. Qed.

Lemma threads_step s s' t : (forall t, is_Some (pcs s !! t) <-> (t < n)%nat) -> (t < n)%nat -> is_Some (pcs s' !! t) ->
  (forall u, u <> t -> pcs s' !! u = pcs s !! u) -> forall u, is_Some (pcs s' !! u) <-> (u < n)%nat.
Proof. intros Ht Hn Hs Hp u. destruct (decide (u = t)) as [->|Hu]; [done|]. by rewrite Hp. Qed.

Lemma outside_step s s' past Q GG owner x t : inv s past Q GG owner x -> (t < n)%nat -> t ∉ past ++ Q ->
  linked s' = linked s -> newest_writer_ s' = newest_writer_ s -> groups s' = groups s -> last_sequence s' = last_sequence s ->
  wal s' = wal s -> mem s' = mem s ->
  (forall u, u <> t -> writers s' !! u = writers s !! u /\ pcs s' !! u = pcs s !! u) -> outside s' t -> inv s' past Q GG owner x.
Proof.
  intros [Hl Hn Ht Hb Hf [Hout Hleft Hown Hcom] Hd] Htn Hti El En Eg Eq Ew Em Ha Ho.
  assert (Hne : forall u, u ∈ past ++ Q -> u <> t) by (by intros u Hu ->).
  split; [by rewrite El|done| |done| |split|by apply (data_frame s s')].
  - apply (threads_step s s' t); [done..| |by intros u Hu; apply Ha]. destruct Ho as [->|(? & ? & -> & _)]; by eexists.
  - eapply front_frame; [..|done]; [intros q Hq; apply Ha, Hne, elem_of_app; by right..|by rewrite Eg|done|done].
  - intros u Hu Hi. destruct (decide (u = t)) as [->|Hut]; [done|]. destruct (Ha u Hut). eapply outside_frame; [done..|by apply Hout].
  - intros u Hu. destruct (Ha u) as [Hw Hp]; [apply Hne, elem_of_app; by left|]. eapply left_frame; [done..| |by apply Hleft].
    intros L HL. apply Ha, Hne, elem_of_app. left. by destruct (Hown u L HL).
  - done.
  - intros L HL. eapply completes_frame; [apply Ha, Hne, elem_of_app; by left| |by apply Hcom].
    intros f Hf'. apply Ha, Hne, elem_of_app. left. by destruct (Hown f L Hf').
Qed.

Lemma store_eq s t f w : writers s !! t = Some w -> store t f s = Some (set_writers (<[t := f w]> (writers s)) s).
Proof. intros E. unfold store. by rewrite E. Qed.

Lemma set_writers_twice s m m' : set_writers m (set_writers m' s) = set_writers m s.
Proof. done. Qed.

Lemma goto_other s t u p : u <> t -> pcs (goto t p s) !! u = pcs s !! u.
Proof. intros Hu. cbn. by rewrite lookup_insert_ne. Qed.

Lemma goto_same s t p : pcs (goto t p s) !! t = Some p.
Proof. cbn. by rewrite lookup_insert_eq. Qed.

Lemma join_step s past Q GG owner x t y : inv s past Q GG owner x -> pcs s !! t = Some JoinStart -> t ∉ past ++ Q ->
  exists s', step c s t y = Stepped s' /\ inv s' past Q GG owner x.
Proof.
  intros Hi Hpc Ht. unfold step. rewrite Hpc. eexists. split; [done|]. eapply (outside_step _ _ _ _ _ _ _ t); try done.
  - apply (in_threads _ _ _ _ _ _ Hi). by eexists.
  - intros u Hu. cbn. by rewrite !lookup_insert_ne.
  - right. eexists _, _. cbn. rewrite !lookup_insert_eq. by split_and!.
Qed.

(** *** Joining the queue *)

Lemma lookup_snoc_lt {A} (l : list A) x i : (i < length l)%nat -> (l ++ [x]) !! i = l !! i.
Proof. intros Hi. by rewrite lookup_app_l. Qed.

Lemma links_snoc s s' Q cut m j k t w : agree s s' Q -> (m < length Q)%nat -> (k < length Q)%nat -> (cut < length Q)%nat ->
  writers s' !! t = Some w -> w_status w = OK -> w_link_older w = list.last Q -> w_link_newer w = None ->
  links s Q cut m j k -> links s' (Q ++ [t]) cut m j k.
Proof.
  intros Ha Hm Hk Hc Hw Hok Ho Hn Hl i q Hi. destruct (decide (i < length Q)%nat) as [Hlt|Hge].
  - rewrite lookup_snoc_lt in Hi by done. destruct (Hl i q Hi) as (v & Hv & Hv1 & Hv2 & Hv3). exists v. rewrite Ha by (by eapply list_elem_of_lookup_2).
    split_and!; [done|done|rewrite Hv2|rewrite Hv3].
    + unfold older_at. case_decide; [done|]. by rewrite lookup_snoc_lt by lia.
    + unfold newer_at. case_decide; [|done]. by rewrite lookup_snoc_lt by lia.
  - pose proof (lookup_lt_Some _ _ _ Hi) as Hlen. rewrite length_app in Hlen. cbn in Hlen. assert (i = length Q) as -> by lia.
    rewrite lookup_app_r, Nat.sub_diag in Hi by done. injection Hi as <-. exists w. split_and!; [done|done|rewrite Ho|rewrite Hn].
    + unfold older_at. rewrite decide_False by lia. rewrite lookup_snoc_lt by lia. apply last_lookup.
    + unfold newer_at. rewrite decide_False by lia. done.
Qed.

Section Snoc.
Context (s s' : WriteThread) (Q : list nat) (t : nat) (w : Writer).
Context (Ha : agree s s' Q) (Hw : writers s' !! t = Some w) (Hok : w_status w = OK) (Ho : w_link_older w = list.last Q) (Hnew : w_link_newer w = None).

Lemma resting_snoc cut m : (cut <= m)%nat -> resting s Q cut m -> resting s' (Q ++ [t]) cut m.
Proof. intros Hc [Hm Hl]. split; [rewrite length_app; cbn; lia|]. eapply links_snoc; try done; lia. Qed.

Lemma walking_snoc m k h : walking s Q m k h -> walking s' (Q ++ [t]) m k h.
Proof.
  intros (j & Hj & Hjk & Hm & Hl). exists j. split_and!; [by apply lookup_app_l_Some|done|lia|rewrite length_app; cbn; lia|].
  eapply links_snoc; try done; lia.
Qed.

Lemma state_snoc L x : L ∈ Q -> state_is s L x -> state_is s' L x.
Proof. intros HL Hx. by eapply (state_frame s s' Q). Qed.

Lemma group_snoc L g : groups s' !! L = groups s !! L -> group_at s Q L g -> group_at s' (Q ++ [t]) L g.
Proof.
  intros Hg (last & grp & Hl & Hgr & H1 & H2 & H2' & H3). exists last, grp. rewrite Hg. split_and!; try done; [by apply lookup_app_l_Some|].
  intros i v Hi Hv. apply (H3 i v Hi). apply lookup_lt_Some in Hl. by rewrite lookup_snoc_lt in Hv by lia.
Qed.

Lemma in_group_snoc L g m : groups s' !! L = groups s !! L -> in_group s Q L g m -> in_group s' (Q ++ [t]) L g m.
Proof. intros Hg [H Hm]. split; [|done]. by apply group_snoc. Qed.

Lemma group_take L g : group_at s Q L g -> take (S g) (Q ++ [t]) = take (S g) Q.
Proof. intros (last & _ & Hl & _). apply lookup_lt_Some in Hl. apply take_app_le. lia. Qed.

Lemma entry_snoc L g b : group_at s Q L g -> entry b (Q ++ [t]) g = entry b Q g.
Proof. intros Hg. unfold entry. by rewrite (group_take L g). Qed.

Lemma failed_snoc L g x : group_at s Q L g -> failed (Q ++ [t]) g x <-> failed Q g x.
Proof. intros Hg. unfold failed. by rewrite (entry_snoc L g). Qed.

Lemma inserted_snoc L g st x : group_at s Q L g -> inserted st (Q ++ [t]) g x <-> inserted st Q g x.
Proof. intros Hg. unfold inserted. rewrite (entry_snoc L g) by done. destruct (ok st); [done|by apply (failed_snoc L)]. Qed.

Lemma written_snoc L g st x : group_at s Q L g -> written st (Q ++ [t]) g x <-> written st Q g x.
Proof. intros Hg. unfold written. rewrite (entry_snoc L g) by done. destruct (ok st); [done|by apply (failed_snoc L)]. Qed.

Lemma lead_snoc L p x : L ∈ Q -> groups s' !! L = groups s !! L -> last_sequence s' = last_sequence s ->
  lead s Q L p x -> lead s' (Q ++ [t]) L p x.
Proof.
  intros HL Hg Hq. destruct p; cbn; try done; rewrite ?Hq; intros;
    repeat match goal with H : _ /\ _ |- _ => destruct H | H : exists _, _ |- _ => destruct H end; subst;
    try match goal with H : in_group _ _ _ _ _ |- _ => pose proof (proj1 H) end;
    repeat match goal with |- _ /\ _ => split | |- exists _, _ => eexists end; try done;
    eauto using resting_snoc, walking_snoc, state_snoc, group_snoc, in_group_snoc, lookup_app_l_Some, Nat.le_0_l;
    try (match goal with H : group_at _ _ _ _ |- _ => rewrite ?(written_snoc _ _ _ _ H), ?(inserted_snoc _ _ _ _ H), ?(entry_snoc _ _ _ H), ?(group_take _ _ H) end; done).
  match goal with H : is_Some (Q !! _) |- _ => destruct H as [? E]; rewrite lookup_app_l; [done|by eapply lookup_lt_Some] end.
Qed.
End Snoc.

Lemma outside_writer s t old : outside s t -> pcs s !! t = Some (LinkTry old) ->
  exists w, writers s !! t = Some w /\ w_state w = STATE_INIT /\ w_status w = OK /\ w_link_newer w = None.
Proof. intros [E|(? & w & _ & H)]; [congruence|]. by exists w. Qed.

(** The compare-and-swap appends the writer to the queue. *)
Lemma linked_step s past Q GG owner x t w : inv s past Q GG owner x -> t ∉ past ++ Q -> (t < n)%nat ->
  writers s !! t = Some w -> w_state w = STATE_INIT -> w_status w = OK -> w_link_newer w = None ->
  inv (goto t (match list.last Q with None => LinkedLeader | Some _ => Awaiting (goal_mask c t) end)
         (add_linked t (set_newest (Some t) (set_writers (<[t := with_older (list.last Q) w]> (writers s)) s)))) past (Q ++ [t]) GG owner x.
Proof.
  intros [Hl Hn Ht Hb Hf [Hout Hleft Hown Hcom] Hd] Hti Htn Hw Hst Hok Hnw. set (s' := goto t _ _).
  assert (Hne : forall u, u ∈ past ++ Q -> u <> t) by (by intros u Hu ->).
  assert (Ha : forall u, u <> t -> writers s' !! u = writers s !! u /\ pcs s' !! u = pcs s !! u) by (intros u Hu; cbn; by rewrite !lookup_insert_ne).
  assert (HaQ : agree s s' Q) by (intros q Hq; apply Ha, Hne, elem_of_app; by right).
  assert (Hwt : writers s' !! t = Some (with_older (list.last Q) w)) by (cbn; by rewrite lookup_insert_eq).
  split; [cbn; by rewrite Hl, app_assoc| | | | |split|by apply (data_frame s s')].
  - rewrite app_assoc. apply NoDup_app. split_and!; [done| |apply NoDup_singleton]. intros u Hu ->%list_elem_of_singleton. by apply (Hne t).
  - apply (threads_step s s' t); [done|done|cbn; rewrite lookup_insert_eq; by eexists|by intros u Hu; apply Ha].
  - rewrite app_assoc. apply Forall_app. split; [done|by constructor].
  - destruct Hf as [Hnew Hlead Hwait]. split.
    + cbn. by rewrite last_snoc.
    + destruct Q as [|L Q]; cbn [app].
      * subst x. exists LinkedLeader. split; [apply goto_same|]. split; [done|]. split; [unfold state_is; rewrite Hwt; cbn; by rewrite Hst|].
        exists O. split; [cbn; lia|]. intros i q Hi. destruct i; [|done]. injection Hi as <-. eexists. split; [exact Hwt|]. by split_and!.
      * destruct Hlead as (p & Hp & Hlead). assert (HL : L ∈ L :: Q) by left. exists p. split; [rewrite (proj2 (Ha L ltac:(apply Hne, elem_of_app; by right))); done|].
        change (L :: Q ++ [t]) with ((L :: Q) ++ [t]). by eapply (lead_snoc s s' (L :: Q) t _ HaQ Hwt).
    + intros i q Hi. destruct (decide (S i < length Q)%nat) as [Hlt|Hge].
      * rewrite lookup_snoc_lt in Hi by done. destruct (Hwait i q Hi) as [Hp Hs]. assert (Hq : q ∈ Q) by (by eapply list_elem_of_lookup_2).
        split; [rewrite (proj2 (Ha q ltac:(apply Hne, elem_of_app; by right))); done|by eapply (state_frame s s' Q)].
      * pose proof (lookup_lt_Some _ _ _ Hi) as Hlen. rewrite length_app in Hlen. cbn in Hlen. assert (S i = length Q) as Ei by lia.
        rewrite Ei, lookup_app_r, Nat.sub_diag in Hi by done. injection Hi as <-.
        destruct (list.last Q) as [y|] eqn:Ey; [|apply last_None in Ey; subst Q; done].
        split; [apply goto_same|]. unfold state_is. rewrite Hwt. cbn. by rewrite Hst.
  - intros u Hu Hi. assert (u <> t) as Hut by (intros ->; apply Hi; rewrite !elem_of_app; right; right; by left).
    destruct (Ha u Hut). eapply outside_frame; [done..|apply Hout; [done|]]. intros Hin. apply Hi. rewrite app_assoc. apply elem_of_app. by left.
  - intros u Hu. destruct (Ha u) as [Hw' Hp]; [apply Hne, elem_of_app; by left|]. eapply left_frame; [done..| |by apply Hleft].
    intros L HL. apply Ha, Hne, elem_of_app. left. by destruct (Hown u L HL).
  - done.
  - intros L HL. eapply completes_frame; [apply Ha, Hne, elem_of_app; by left| |by apply Hcom].
    intros f Hf'. apply Ha, Hne, elem_of_app. left. by destruct (Hown f L Hf').
Qed.

Lemma try_step s past Q GG owner x t old y : inv s past Q GG owner x -> pcs s !! t = Some (LinkTry old) -> t ∉ past ++ Q ->
  exists s' Q', step c s t y = Stepped s' /\ inv s' past Q' GG owner x.
Proof.
  intros Hi Hpc Ht. assert (Htn : (t < n)%nat) by (apply (in_threads _ _ _ _ _ _ Hi); by eexists).
  destruct (outside_writer s t old) as (w & Hw & Hst & Hok & Hnw); [by apply (re_outside _ _ _ _ _ (in_rest _ _ _ _ _ _ Hi))|done|].
  unfold step. rewrite Hpc. unfold LinkOne_try. rewrite (store_eq _ _ _ w Hw). cbn [mbind option_bind].
  destruct (bool_decide _ && _) eqn:E.
  - apply andb_true_iff in E as [E%bool_decide_eq_true _]. cbn in E. rewrite <- E, (fr_newest _ _ _ (in_front _ _ _ _ _ _ Hi)).
    eexists _, (Q ++ [t]). split; [reflexivity|]. by apply linked_step.
  - eexists _, Q. split; [reflexivity|]. eapply (outside_step s _ _ _ _ _ _ t); try done.
    + intros u Hu. cbn. by rewrite !lookup_insert_ne.
    + right. eexists _, _. cbn. rewrite !lookup_insert_eq. split_and!; [done|done|exact Hst|exact Hok|exact Hnw].
Qed.

(** ** Steps of threads that have left the queue *)

Lemma left_no_owner s past Q GG owner x t : inv s past Q GG owner x -> (forall st cur, pcs s !! t <> Some (ExitDone t st cur)) ->
  forall u, owner !! u <> Some t.
Proof.
  intros Hi Hno u Hu. destruct (re_owner _ _ _ _ _ (in_rest _ _ _ _ _ _ Hi) u t Hu) as [Hp _].
  pose proof (re_left _ _ _ _ _ (in_rest _ _ _ _ _ _ Hi) u Hp) as Hl. unfold left in Hl. rewrite Hu in Hl. destruct Hl as (_ & _ & st & cur & E & _). by apply (Hno st cur).
Qed.

Lemma past_step s s' past Q GG owner x t : inv s past Q GG owner x -> t ∈ past -> (forall u, owner !! u <> Some t) ->
  linked s' = linked s -> newest_writer_ s' = newest_writer_ s -> (forall u, u <> t -> groups s' !! u = groups s !! u) ->
  last_sequence s' = last_sequence s -> wal s' = wal s -> mem s' = mem s ->
  (forall u, u <> t -> writers s' !! u = writers s !! u /\ pcs s' !! u = pcs s !! u) ->
  is_Some (pcs s' !! t) -> (forall st cur, pcs s' !! t <> Some (ExitDone t st cur)) -> owner !! t = None -> left s' GG owner t -> inv s' past Q GG owner x.
Proof.
  intros [Hl Hn Ht Hb Hf [Hout Hleft Hown Hcom] Hd] Htp Hno El En Eg Eq Ew Em Ha Hs Hnd Ho Hlt.
  assert (Htn : (t < n)%nat) by (rewrite Forall_forall in Hb; apply Hb, elem_of_app; by left).
  assert (HQ : forall q, q ∈ Q -> q <> t) by (intros q Hq ->; apply NoDup_app in Hn as (_ & Hn & _); by apply (Hn t)).
  split; [by rewrite El|done|by apply (threads_step s s' t); [..|intros u Hu; apply Ha]|done| |split|by apply (data_frame s s')].
  - eapply front_frame; [..|done]; [intros q Hq; by apply Ha, HQ..|intros q Hq; by apply Eg, HQ|done|done].
  - intros u Hu Hi. destruct (Ha u) as [Hw Hp]; [intros ->; apply Hi, elem_of_app; by left|]. eapply outside_frame; [done..|by apply Hout].
  - intros u Hu. destruct (decide (u = t)) as [->|Hut]; [done|]. destruct (Ha u Hut). eapply left_frame; [done..| |by apply Hleft].
    intros L HL. apply Ha. intros ->. by apply (Hno u).
  - done.
  - intros L HL. destruct (decide (L = t)) as [->|HLt]; [intros st cur E; by destruct (Hnd st cur)|].
    eapply completes_frame; [by apply Ha| |by apply Hcom]. intros f Hf'. apply Ha. intros ->. congruence.
Qed.

(** A completed follower wakes up and returns. *)
Lemma woken_step s past Q GG owner x t y : inv s past Q GG owner x -> t ∈ past -> pcs s !! t = Some (Awaiting (goal_mask c t)) ->
  step c s t y = Blocked \/ exists s', step c s t y = Stepped s' /\ inv s' past Q GG owner x.
Proof.
  intros Hi Ht Hpc. pose proof (re_left _ _ _ _ _ (in_rest _ _ _ _ _ _ Hi) t Ht) as Hl. unfold step. rewrite Hpc. unfold left in Hl.
  destruct (owner !! t) as [L|] eqn:Eo.
  - destruct Hl as ([_ Hs] & Hb & _). unfold state_is in Hs. destruct (writers s !! t) as [w|]; [|done]. injection Hs as ->. left.
    unfold goal_mask. by rewrite Hb.
  - destruct Hl as [(w & Hw & Hst & Hb & Hok & _)|[(? & ? & ? & E & _)|(? & E & _)]]; [|congruence..].
    rewrite Hw, Hst. unfold goal_mask. rewrite Hb. right. eexists. split; [reflexivity|].
    eapply (past_step s _ _ _ _ _ _ t); try done; [|intros u Hu; split; [done|by apply goto_other]|rewrite goto_same; by eexists|by rewrite goto_same|].
    + apply (left_no_owner _ _ _ _ _ _ _ Hi). congruence.
    + unfold left. rewrite Eo. left. exists w. split_and!; try done; [apply Hok..|]. right. apply goto_same.
Qed.

Lemma finish_left s past Q GG owner x t st : inv s past Q GG owner x -> t ∈ past -> owner !! t = None -> (forall u, owner !! u <> Some t) ->
  (batched t -> (st = OK <-> t ∈ kept GG)) -> inv (leave t st s) past Q GG owner x.
Proof.
  intros Hi Ht Eo Hno Hst. eapply (past_step s _ _ _ _ _ _ t); try done.
  - intros u Hu. cbn. by rewrite lookup_delete_ne.
  - intros u Hu. cbn. by rewrite lookup_delete_ne, lookup_insert_ne.
  - cbn. rewrite lookup_insert_eq. by eexists.
  - cbn. by rewrite lookup_insert_eq.
  - unfold left. rewrite Eo. right. right. exists st. split; [cbn; by rewrite lookup_insert_eq|done].
Qed.

Lemma completed_step s past Q GG owner x t y : inv s past Q GG owner x -> t ∈ past -> pcs s !! t = Some Joined ->
  exists s', step c s t y = Stepped s' /\ inv s' past Q GG owner x.
Proof.
  intros Hi Ht Hpc. pose proof (re_left _ _ _ _ _ (in_rest _ _ _ _ _ _ Hi) t Ht) as Hl. unfold step. rewrite Hpc. unfold left in Hl.
  destruct (owner !! t) as [L|] eqn:Eo; [by destruct Hl as ([E _] & _); congruence|].
  destruct Hl as [(w & Hw & Hst & Hb & Hok & _)|[(? & ? & ? & E & _)|(? & E & _)]]; [|congruence..].
  unfold joined. rewrite Hw. cbn [mbind option_bind]. rewrite Hst. eexists. split; [reflexivity|].
  apply finish_left; try done. apply (left_no_owner _ _ _ _ _ _ _ Hi). congruence.
Qed.

(** *** A leader completes its followers *)

Lemma exiting s past Q GG owner x t st cur : inv s past Q GG owner x -> t ∈ past -> pcs s !! t = Some (ExitDone t st cur) ->
  owner !! t = None /\ batched t /\ (st = OK <-> t ∈ kept GG) /\ exists w, writers s !! t = Some w /\ w_status w = OK.
Proof.
  intros Hi Ht Hpc. pose proof (re_left _ _ _ _ _ (in_rest _ _ _ _ _ _ Hi) t Ht) as Hl. unfold left in Hl.
  destruct (owner !! t) as [L|] eqn:Eo; [by destruct Hl as ([E _] & _); congruence|].
  destruct Hl as [(w & _ & _ & _ & _ & [E|E])|[(st' & cur' & w & E & Hb & Hok & Hw & Hws)|(? & E & _)]]; [congruence..| |congruence].
  rewrite Hpc in E. injection E as <- <-. split_and!; try done; [apply Hok..|]. by exists w.
Qed.

(** The last follower is completed. *)
Lemma complete_one s past Q GG owner x t st cur wf next fs : inv s past Q GG owner x -> t ∈ past -> pcs s !! t = Some (ExitDone t st cur) ->
  writers s !! cur = Some wf -> owner !! cur = Some t -> list.last (t :: fs) = Some next -> NoDup (fs ++ [cur]) ->
  (forall f, f ∈ fs ++ [cur] <-> owner !! f = Some t) ->
  (forall i f, fs !! i = Some f -> exists w, writers s !! f = Some w /\ w_link_older w = (t :: fs) !! i) ->
  inv (goto t (ExitDone t st next) (set_writers (<[cur := with_state STATE_COMPLETED (with_status st wf)]> (writers s)) s)) past Q GG (delete cur owner) x.
Proof.
  intros Hi Ht Hpc Hwf Hoc Hnext Hnd Hin Hch. destruct (exiting _ _ _ _ _ _ _ _ _ Hi Ht Hpc) as (Hot & Hbt & Hst & wt & Hwt & Hwts).
  assert (Hct : cur <> t) by congruence. set (s' := goto t _ _).
  destruct Hi as [Hl Hn Hth Hb Hf [Hout Hleft Hown Hcom] Hd]. destruct (Hown cur t Hoc) as [Hcp _].
  assert (Hw : forall u, u <> cur -> writers s' !! u = writers s !! u) by (intros u Hu; cbn; by rewrite lookup_insert_ne).
  assert (Hp : forall u, u <> t -> pcs s' !! u = pcs s !! u) by (intros u Hu; cbn; by rewrite lookup_insert_ne).
  assert (HQ : forall q, q ∈ Q -> q <> t /\ q <> cur) by (intros q Hq; apply NoDup_app in Hn as (_ & Hn & _); split; intros ->; [apply (Hn _ Ht Hq)|apply (Hn _ Hcp Hq)]).
  pose proof (Hleft cur Hcp) as Hlc. unfold left in Hlc. rewrite Hoc in Hlc. destruct Hlc as ([Hpcc Hsc] & Hbc & st' & cur' & Et & Hokc).
  rewrite Hpc in Et. injection Et as <- <-.
  split; [done|done| |done| |split|by apply (data_frame s s')].
  - apply (threads_step s s' t); [done|rewrite Forall_forall in Hb; apply Hb, elem_of_app; by left|unfold s'; rewrite goto_same; by eexists|done].
  - eapply front_frame; [..|done]; try done; intros q Hq; destruct (HQ q Hq); [by apply Hw|by apply Hp].
  - intros u Hu Hi. eapply outside_frame; [apply Hw|apply Hp|by apply Hout]; intros ->; apply Hi, elem_of_app; by left.
  - intros u Hu. destruct (decide (u = cur)) as [->|Huc].
    { unfold left. rewrite lookup_delete_eq. left. eexists. split; [cbn; by rewrite lookup_insert_eq|]. cbn [w_state w_status with_state with_status].
      split_and!; try done; [apply Hokc..|]. left. rewrite Hp by done. exact Hpcc. }
    destruct (decide (u = t)) as [->|Hut].
    { unfold left. rewrite lookup_delete_ne, Hot by done. right. left. exists st, next, wt. split_and!; try done; [apply goto_same|apply Hst..|by rewrite Hw]. }
    pose proof (Hleft u Hu) as Hlu. unfold left in *. rewrite lookup_delete_ne by done. destruct (owner !! u) as [L|] eqn:Eu.
    + destruct Hlu as ([Hpu Hsu] & Hbu & stu & cu & EL & Hoku). split; [split; [by rewrite Hp|unfold state_is; by rewrite Hw]|]. split; [done|].
      destruct (decide (L = t)) as [->|HLt]; [|exists stu, cu; by rewrite Hp]. rewrite Hpc in EL. injection EL as <- <-. exists st, next. by unfold s'; rewrite goto_same.
    + rewrite Hw, Hp by done. exact Hlu.
  - intros f L Hf'. apply lookup_delete_Some in Hf' as [_ Hf']. by apply Hown.
  - intros L HL. destruct (decide (L = t)) as [->|HLt].
    + intros st' cur' E. unfold s' in E. rewrite goto_same in E. injection E as <- <-. exists fs.
      apply NoDup_app in Hnd as (Hnd & Hdis & _). assert (Hcf : cur ∉ fs) by (intros Hc; apply (Hdis cur Hc); by left). split_and!; try done.
      * intros f. rewrite lookup_delete_Some, <- Hin, elem_of_app, list_elem_of_singleton. split; [|by intros [? [?| ->]]]. intros Hff. split; [by intros ->|by left].
      * intros i f Hif. destruct (Hch i f Hif) as (w & Hwf' & Ho). exists w. rewrite Hw; [done|]. intros ->. apply Hcf. by eapply list_elem_of_lookup_2.
    + eapply (completes_frame s); [by apply Hp| |].
      * intros f Hf'. apply lookup_delete_Some in Hf' as [Hfc _]. by apply Hw.
      * intros st' cur' E. destruct (Hcom L HL st' cur' E) as (fs' & H1 & H2 & H3 & H4). exists fs'. split_and!; try done. intros f. rewrite H3, lookup_delete_Some.
        split; [|tauto]. intros Hf'. split; [|done]. intros ->. congruence.
Qed.

Lemma done_step s past Q GG owner x t st cur y : inv s past Q GG owner x -> t ∈ past -> pcs s !! t = Some (ExitDone t st cur) ->
  exists s' owner', step c s t y = Stepped s' /\ inv s' past Q GG owner' x.
Proof.
  intros Hi Ht Hpc. destruct (exiting _ _ _ _ _ _ _ _ _ Hi Ht Hpc) as (Hot & Hbt & Hst & wt & Hwt & Hwts).
  destruct (re_completes _ _ _ _ _ (in_rest _ _ _ _ _ _ Hi) t Ht st cur Hpc) as (fs & Hlast & Hnd & Hin & Hch).
  unfold step. rewrite Hpc. unfold exit_done. rewrite Nat.eqb_refl.
  destruct fs as [|cur' fs _] using rev_ind.
  - injection Hlast as <-. rewrite Nat.eqb_refl, Hwt. cbn [mbind option_bind]. eexists _, owner. split; [reflexivity|].
    apply finish_left; try done; [intros u Hu; apply Hin in Hu; by apply elem_of_nil in Hu|]. intros _. rewrite Hwts. unfold ok. by case_bool_decide; subst.
  - rewrite app_comm_cons, last_snoc in Hlast. injection Hlast as ->. assert (Hoc : owner !! cur = Some t) by (apply Hin, elem_of_app; right; by left).
    assert (Hct : cur <> t) by congruence. rewrite (proj2 (Nat.eqb_neq _ _) Hct).
    destruct (Hch (length fs) cur) as (wf & Hwf & Hold); [by rewrite lookup_app_r, Nat.sub_diag by done|].
    destruct (list.last (t :: fs)) as [next|] eqn:Hnext; [|by apply last_None in Hnext].
    assert (Hold' : w_link_older wf = Some next).
    { rewrite Hold, app_comm_cons, lookup_app_l by (cbn; lia). rewrite <- Hnext, last_lookup. done. }
    rewrite Hwf. cbn [mbind option_bind]. rewrite (store_eq _ _ _ wf Hwf). cbn [mbind option_bind]. rewrite Hold'. cbn [mbind option_bind].
    unfold SetState. erewrite store_eq by (cbn; apply lookup_insert_eq). cbn [mbind option_bind stepped]. eexists _, (delete cur owner). split; [reflexivity|].
    rewrite set_writers_twice. cbn [writers set_writers]. rewrite insert_insert_eq. eapply complete_one; try done.
    intros i f Hif. destruct (Hch i f) as (w & Hw & Ho); [by apply lookup_app_l_Some|]. exists w. split; [done|].
    rewrite Ho, app_comm_cons, lookup_app_l; [done|]. apply lookup_lt_Some in Hif. cbn. lia.
Qed.

(** ** Steps of the leader *)

Definition same_links (w w' : Writer) : Prop :=
  w_state w' = w_state w /\ w_status w' = w_status w /\ w_link_older w' = w_link_older w /\ w_link_newer w' = w_link_newer w.

(** Nothing that the invariant knows of the writers has changed. *)
Definition similar s s' : Prop := forall t, option_Forall2 same_links (writers s !! t) (writers s' !! t).

Lemma similar_refl s s' : writers s' = writers s -> similar s s'.
Proof. intros E t. rewrite E. destruct (writers s !! t); by constructor. Qed.

Lemma similar_trans s s' s'' : similar s s' -> similar s' s'' -> similar s s''.
Proof.
  intros H1 H2 t. specialize (H1 t). specialize (H2 t). destruct H1 as [w w' H1|]; inversion H2 as [? w'' H3|]; subst; constructor.
  destruct H1 as (? & ? & ? & ?), H3 as (? & ? & ? & ?). split_and!; congruence.
Qed.

Lemma similar_insert s t w w' : writers s !! t = Some w -> same_links w w' -> similar s (set_writers (<[t := w']> (writers s)) s).
Proof.
  intros Hw Hs u. cbn. destruct (decide (u = t)) as [->|Hu]; [rewrite Hw, lookup_insert_eq; by constructor|].
  rewrite lookup_insert_ne by done. destruct (writers s !! u); by constructor.
Qed.

Lemma links_similar s s' Q cut m j k : similar s s' -> links s Q cut m j k -> links s' Q cut m j k.
Proof.
  intros Hs Hl i q Hi. destruct (Hl i q Hi) as (w & Hw & H1 & H2 & H3). specialize (Hs q). rewrite Hw in Hs. inversion Hs as [? w' Hsl E|]; subst.
  destruct Hsl as (E1 & E2 & E3 & E4). exists w'. split_and!; congruence.
Qed.

Lemma state_similar s s' t : similar s s' -> w_state <$> writers s' !! t = w_state <$> writers s !! t.
Proof. intros Hs. specialize (Hs t). destruct Hs as [w w' (E & _)|]; cbn; congruence. Qed.

Lemma resting_similar s s' Q cut m : similar s s' -> resting s Q cut m -> resting s' Q cut m.
Proof. intros Hs [Hm Hl]. split; [done|]. by eapply links_similar. Qed.

(** Changes of the leader's program counter. *)
Lemma goto_step s past L Q GG owner x p : inv s past (L :: Q) GG owner x -> lead s (L :: Q) L p x -> inv (goto L p s) past (L :: Q) GG owner x.
Proof.
  intros Hi Hl. apply (leader_step s _ past L Q GG owner x x p); try done.
  - intros t Ht. by apply goto_other.
  - apply goto_same.
  - eapply data_frame; [..|apply (in_data _ _ _ _ _ _ Hi)]; done.
Qed.

(** With changes of writers and the group. *)
Lemma lead_step s s1 past L Q GG owner x x' p : inv s past (L :: Q) GG owner x -> linked s1 = linked s -> newest_writer_ s1 = newest_writer_ s -> pcs s1 = pcs s ->
  (forall t, t ∉ L :: Q -> writers s1 !! t = writers s !! t) -> (forall q, q ∈ Q -> w_state <$> writers s1 !! q = w_state <$> writers s !! q) ->
  lead s1 (L :: Q) L p x' -> data s1 past GG x' -> inv (goto L p s1) past (L :: Q) GG owner x'.
Proof.
  intros Hi El En Ep Hw Hst Hl Hd. apply (leader_step s _ past L Q GG owner x x' p); try done.
  - intros t Ht. rewrite goto_other by done. by rewrite Ep.
  - apply goto_same.
  - eapply data_frame; [..|exact Hd]; done.
Qed.

Lemma newer_at_iff Q m j k m' j' k' i : (i < m \/ j <= i < k)%nat <-> (i < m' \/ j' <= i < k')%nat -> newer_at Q m j k i = newer_at Q m' j' k' i.
Proof. intros H. unfold newer_at. destruct (decide (i < m \/ j <= i < k)%nat); [rewrite decide_True|rewrite decide_False]; tauto. Qed.

Lemma walk_end s Q m j k : (m <= k < length Q)%nat -> (j <= k)%nat -> (j <= m)%nat -> links s Q 0 m j k -> resting s Q 0 k.
Proof.
  intros Hm Hj Hjm Hl. split; [lia|]. intros i q Hi. destruct (Hl i q Hi) as (w & Hw & H1 & H2 & H3). exists w. split_and!; try done.
  rewrite H3. apply newer_at_iff. lia.
Qed.

(** One round of [CreateMissingNewerLinks]. *)
Lemma missing_link_ok s Q m k head : NoDup Q -> walking s Q m k head ->
  (missing_link head s = Some (None, s) /\ resting s Q 0 k) \/
  exists next w, next ∈ Q /\ writers s !! next = Some w /\
    missing_link head s = Some (Some next, set_writers (<[next := with_newer (Some head) w]> (writers s)) s) /\
    walking (set_writers (<[next := with_newer (Some head) w]> (writers s)) s) Q m k next.
Proof.
  intros Hnd (j & Hj & Hjk & Hm & Hl). destruct (Hl j head Hj) as (h & Hh & _ & Ho & _). unfold missing_link. rewrite Hh. cbn [mbind option_bind]. rewrite Ho.
  destruct j as [|j]; cbn [older_at decide]; [left; split; [done|]; eapply walk_end; [done|..|done]; lia|].
  unfold older_at. rewrite decide_False by lia. cbn [pred]. destruct (lookup_lt_is_Some_2 Q j) as [next Hnext]; [apply lookup_lt_Some in Hj; lia|]. rewrite Hnext.
  destruct (Hl j next Hnext) as (w & Hw & Hok & Hwo & Hwn). rewrite Hw. cbn [mbind option_bind]. rewrite Hwn. unfold newer_at.
  destruct (decide (j < m \/ S j <= j < k)%nat) as [Hjm|Hjm].
  - rewrite Hj. unfold assert. rewrite Nat.eqb_refl. left. split; [done|]. eapply walk_end; [done|..|done]; lia.
  - right. exists next, w. rewrite (store_eq _ _ _ w Hw). cbn [mbind option_bind]. split_and!; [by eapply list_elem_of_lookup_2|done|done|].
    exists j. split_and!; [done|lia|lia|lia|]. intros i q Hi. destruct (decide (i = j)) as [->|Hij].
    + rewrite Hnext in Hi. injection Hi as <-. exists (with_newer (Some head) w). cbn [writers set_writers]. rewrite lookup_insert_eq. split_and!; [done|done|done|].
      cbn. unfold newer_at. rewrite decide_True by lia. done.
    + assert (Hq : q <> next). { intros ->. apply Hij. by eapply NoDup_lookup. }
      destruct (Hl i q Hi) as (v & Hv & H1 & H2 & H3). exists v. cbn [writers set_writers]. rewrite lookup_insert_ne by done. split_and!; try done.
      rewrite H3. apply newer_at_iff. lia.
Qed.

(** The step is possible and keeps the invariant. *)
Definition keeps s t (y : choice) : Prop := exists s' past Q GG owner x, step c s t y = Stepped s' /\ inv s' past Q GG owner x.

Section Leader.
Context (s : WriteThread) (past : list nat) (L : nat) (Q : list nat) (GG : history) (owner : gmap nat nat) (x : progress) (y : choice).
Context (Hi : inv s past (L :: Q) GG owner x).
Abbreviation LQ := (L :: Q).

Lemma LQ_NoDup : NoDup LQ.
Proof. pose proof (in_NoDup _ _ _ _ _ _ Hi) as Hn. by apply NoDup_app in Hn as (_ & _ & ?). Qed.

Lemma keeps_goto p : step c s L y = Stepped (goto L p s) -> lead s LQ L p x -> keeps s L y.
Proof. intros E Hl. exists (goto L p s), past, LQ, GG, owner, x. split; [done|]. by apply goto_step. Qed.

(** A store to a writer of the queue, and perhaps to the group. *)
Lemma keeps_store p q w w' gs : step c s L y = Stepped (goto L p (set_groups gs (set_writers (<[q := w']> (writers s)) s))) ->
  q ∈ LQ -> writers s !! q = Some w -> (q <> L -> w_state w' = w_state w) ->
  lead (set_groups gs (set_writers (<[q := w']> (writers s)) s)) LQ L p x -> keeps s L y.
Proof.
  intros E Hq Hw Hst Hl. eexists _, past, LQ, GG, owner, x. split; [exact E|]. eapply lead_step; try done.
  - intros t Ht. cbn. rewrite lookup_insert_ne; [done|]. by intros ->.
  - intros q' Hq'. cbn. destruct (decide (q' = q)) as [->|]; [|by rewrite lookup_insert_ne]. rewrite lookup_insert_eq, Hw. cbn. rewrite Hst; [done|].
    intros ->. pose proof LQ_NoDup as Hn. by apply NoDup_cons in Hn as [? _].
  - eapply data_frame; [..|apply (in_data _ _ _ _ _ _ Hi)]; done.
Qed.

Lemma leader_links cut m j k : links s LQ cut m j k -> exists w, writers s !! L = Some w /\ w_status w = OK /\ w_link_older w = None /\ w_link_newer w = newer_at LQ m j k 0.
Proof. intros Hl. destruct (Hl 0%nat L eq_refl) as (w & Hw & H1 & H2 & H3). by exists w. Qed.

Lemma linked_leader_step : pcs s !! L = Some LinkedLeader -> lead s LQ L LinkedLeader x -> keeps s L y.
Proof.
  intros Hpc (Hx & Hst & m & Hm & Hl). destruct (is_unbatched c L) eqn:Eu.
  - apply (keeps_goto Alone); [unfold step; by rewrite Hpc, Eu|]. split_and!; [done|done|]. by exists m.
  - destruct (leader_links _ _ _ _ Hl) as (w & Hw & H1 & H2 & H3). apply (keeps_store Joined L w (with_state STATE_GROUP_LEADER w) (groups s)); [|left|done|done|].
    + unfold step. rewrite Hpc, Eu. unfold SetState. by rewrite (store_eq _ _ _ w Hw).
    + split_and!; [done|done|unfold state_is; cbn; by rewrite lookup_insert_eq|]. exists m. split; [done|]. intros i q Hiq. destruct (Hl i q Hiq) as (v & Hv & H).
      cbn. destruct (decide (q = L)) as [->|Hq]; [|rewrite lookup_insert_ne by done; by exists v].
      rewrite lookup_insert_eq. eexists. split; [done|]. rewrite Hw in Hv. by injection Hv as <-.
Qed.

Lemma land_leader t : (Z.land STATE_GROUP_LEADER (goal_mask c t) =? 0) = false.
Proof. unfold goal_mask. by destruct (is_unbatched c t). Qed.

Lemma wake_step mask : pcs s !! L = Some (Awaiting mask) -> lead s LQ L (Awaiting mask) x -> keeps s L y.
Proof.
  intros Hpc (Hx & -> & Hst & m & Hr). apply (keeps_goto (if is_unbatched c L then Alone else Joined)).
  - unfold step. rewrite Hpc. unfold state_is in Hst. destruct (writers s !! L) as [w|]; [|done]. injection Hst as ->. by rewrite land_leader.
  - destruct (is_unbatched c L) eqn:Eu; split_and!; try done; by exists m.
Qed.

Lemma joined_step : pcs s !! L = Some Joined -> lead s LQ L Joined x -> keeps s L y.
Proof.
  intros Hpc (Hx & Hb & Hst & m & Hr). apply (keeps_goto LeadStart); [|split_and!; try done; by exists m].
  unfold step. rewrite Hpc. unfold joined. unfold state_is in Hst. destruct (writers s !! L) as [w|]; [|done]. injection Hst as Hst. cbn [mbind option_bind]. by rewrite Hst.
Qed.

Lemma lead_start_step : pcs s !! L = Some LeadStart -> lead s LQ L LeadStart x -> keeps s L y.
Proof.
  intros Hpc (Hx & Hb & m & Hr). apply (keeps_goto (EnterStart (mkLocals (ch_status y) (last_sequence s) 0))); [unfold step; by rewrite Hpc|].
  split_and!; try done. by exists m.
Qed.

Lemma links_store q w f m cut j k gs : writers s !! q = Some w -> same_links w (f w) -> links s LQ cut m j k ->
  links (set_groups gs (set_writers (<[q := f w]> (writers s)) s)) LQ cut m j k.
Proof. intros Hw Hf Hl. by apply (links_similar s); [apply (similar_insert s q w)|]. Qed.

Lemma last_newest : exists q, newest_writer_ s = Some q /\ LQ !! (length Q) = Some q.
Proof.
  rewrite (fr_newest _ _ _ (in_front _ _ _ _ _ _ Hi)). destruct (list.last LQ) as [q|] eqn:E; [|by apply last_None in E]. exists q. split; [done|].
  by rewrite last_lookup in E.
Qed.

Lemma enter_start_step ld : pcs s !! L = Some (EnterStart ld) -> lead s LQ L (EnterStart ld) x -> keeps s L y.
Proof.
  intros Hpc (Hx & Hb & Hld & m & Hm & Hl). destruct (leader_links _ _ _ _ Hl) as (w & Hw & H1 & H2 & H3). destruct last_newest as (q & Hq & HqL).
  apply (keeps_store (EnterLinks ld q q) L w (with_group L w) (<[L := mkWriteGroup L None OK 0 1]> (groups s))); [|left|done|done|].
  - unfold step. rewrite Hpc. unfold EnterAsBatchGroupLeader. rewrite Hw. cbn [mbind option_bind]. rewrite H2, bool_decide_eq_true_2, Hb by done. cbn [negb andb assert].
    rewrite (store_eq _ _ _ w Hw). cbn [mbind option_bind newest_writer_ set_writers]. by rewrite Hq.
  - split_and!; [done|done| |].
    + eexists L, _. cbn. rewrite lookup_insert_eq. split_and!; try done. intros i v Hiz Hv. assert (i = O) as -> by lia. by injection Hv as <-.
    + exists m, (length Q). split; [done|]. exists (length Q). cbn in Hm. split_and!; [done|lia|lia|cbn; lia|].
      eapply links_store; try done. intros i v Hiv. destruct (Hl i v Hiv) as (u & Hu & G1 & G2 & G3). exists u. split_and!; try done. rewrite G3. apply newer_at_iff. lia.
Qed.

Lemma enter_links_step ld newest head : pcs s !! L = Some (EnterLinks ld newest head) -> lead s LQ L (EnterLinks ld newest head) x -> keeps s L y.
Proof.
  intros Hpc (Hx & Hld & Hg & m & k & Hk & Hw). destruct (missing_link_ok s LQ m k head LQ_NoDup Hw) as [[E Hr]|(next & w & Hn & Hnw & E & Hw')].
  - apply (keeps_goto (EnterNext ld newest L (batch_bytes c L) (max_group_size c L))); [unfold step; by rewrite Hpc, E|].
    split_and!; [done|done|]. exists O, k. split_and!; try done. lia.
  - apply (keeps_store (EnterLinks ld newest next) next w (with_newer (Some head) w) (groups s)); try done; [unfold step; by rewrite Hpc, E|].
    split_and!; [done|done|done|]. exists m, k. split; [done|]. exact Hw'.
Qed.

Lemma may_join_ok w size max_size : may_join c L w size max_size = true -> batched w /\ j_disable_wal (c_job c w) = j_disable_wal (c_job c L).
Proof.
  unfold may_join. rewrite !andb_true_iff. intros ((((_ & _) & Hd) & Hb) & _). split; [by apply negb_true_iff in Hb|]. by apply eqb_prop in Hd.
Qed.

Lemma enter_next_step ld newest w size max_size : pcs s !! L = Some (EnterNext ld newest w size max_size) ->
  lead s LQ L (EnterNext ld newest w size max_size) x -> keeps s L y.
Proof.
  intros Hpc (Hx & Hld & g & k & Hg & Hgr & Hgk & Hk & Hr). destruct (decide (w = newest)) as [->|Hne].
  { apply (keeps_goto (WriteLog ld)); [unfold step; rewrite Hpc; unfold EnterAsBatchGroupLeader_next; by rewrite Nat.eqb_refl|].
    split_and!; [done|done|]. exists g, k. by split. }
  assert (Hlt : (g < k)%nat). { destruct (decide (g = k)) as [->|]; [|lia]. rewrite Hg in Hk. injection Hk as ->. done. }
  destruct Hr as [Hkl Hl]. destruct (Hl g w Hg) as (v & Hv & _ & _ & Hnew). unfold newer_at in Hnew. rewrite decide_True in Hnew by lia.
  destruct (lookup_lt_is_Some_2 LQ (S g)) as [w' Hw']; [lia|]. destruct (Hl _ _ Hw') as (v' & Hv' & _).
  assert (Estep : step c s L y = stepped (EnterAsBatchGroupLeader_next c L ld newest w size max_size s)) by (unfold step; by rewrite Hpc).
  unfold EnterAsBatchGroupLeader_next in Estep. rewrite (proj2 (Nat.eqb_neq _ _) Hne), Hv in Estep. cbn [mbind option_bind] in Estep.
  rewrite Hnew, Hw' in Estep. cbn [mbind option_bind] in Estep. destruct (may_join c L w' size max_size) eqn:Ej.
  - destruct Hgr as (last & grp & _ & Hgrp & _ & Hgs & Hsz & Hmem). rewrite (store_eq _ _ _ v' Hv') in Estep. cbn [mbind option_bind groups set_writers] in Estep.
    rewrite Hgrp in Estep. cbn [mbind option_bind stepped] in Estep. eapply keeps_store; [exact Estep|by eapply list_elem_of_lookup_2|exact Hv'|done|].
    split_and!; [done|done|]. exists (S g), k. split; [done|]. split; [|split_and!; [lia|done|split; [done|by apply links_store]]].
    eexists _, _. cbn [groups set_groups]. rewrite lookup_insert_eq. split_and!; try done; [cbn [g_size]; rewrite Hsz; unfold u64; div_lia|].
    intros i u Hiz Hu. destruct (decide (i = S g)) as [->|]; [|apply (Hmem i u); [lia|done]]. rewrite Hw' in Hu. injection Hu as <-. by eapply may_join_ok.
  - apply (keeps_goto (WriteLog ld)); [exact Estep|]. split_and!; [done|done|]. exists g, k. by split.
Qed.

(** *** The members of the group *)

Lemma writers_size : (forall q, q ∈ LQ -> is_Some (writers s !! q)) -> (length LQ <= size (writers s))%nat.
Proof.
  intros Hq. rewrite <- (size_dom (D := gset nat)). rewrite <- (size_list_to_set (C := gset nat) LQ) by apply LQ_NoDup.
  apply subseteq_size. intros q Hin%elem_of_list_to_set. by apply elem_of_dom, Hq.
Qed.

Lemma group_from_ok g m last : resting s LQ 0 m -> (g <= m)%nat -> LQ !! g = Some last -> forall d fuel i q, (i + d = g)%nat -> (d < fuel)%nat -> LQ !! i = Some q ->
  group_from fuel q last s = Some (drop i (take (S g) LQ)).
Proof.
  intros [Hm Hl] Hgm Hlast. induction d as [|d IH]; intros fuel i q Hd Hf Hiq; (destruct fuel as [|fuel]; [lia|]); cbn [group_from];
    destruct (Hl i q Hiq) as (w & Hw & _ & _ & Hnew); rewrite Hw; cbn [mbind option_bind].
  - assert (i = g) as -> by lia. rewrite Hiq in Hlast. injection Hlast as ->. rewrite Nat.eqb_refl. f_equal.
    rewrite (take_S_r LQ g last) by done. rewrite drop_app_ge by (rewrite length_take; lia). rewrite length_take_le by (apply lookup_lt_Some in Hiq; lia). by rewrite Nat.sub_diag.
  - assert (Hq : q <> last). { intros ->. assert (i = g) by (by eapply NoDup_lookup; [apply LQ_NoDup|..]). lia. }
    rewrite (proj2 (Nat.eqb_neq _ _) Hq), Hnew. unfold newer_at. rewrite decide_True by lia.
    destruct (lookup_lt_is_Some_2 LQ (S i)) as [q' Hq']; [apply lookup_lt_Some in Hlast; lia|]. rewrite Hq'. cbn [mbind option_bind].
    rewrite (IH fuel (S i) q') by (done || lia). cbn [mbind option_bind]. f_equal. symmetry. apply drop_S. rewrite lookup_take_lt by lia. done.
Qed.

Lemma members_ok g m : in_group s LQ L g m -> resting s LQ 0 m -> group_members L s = Some (take (S g) LQ).
Proof.
  intros [(last & grp & Hlast & Hgrp & Eg & _) Hgm] Hr. unfold group_members. rewrite Hgrp. cbn [mbind option_bind]. rewrite Eg.
  assert (Hsize : (length LQ <= size (writers s))%nat).
  { apply writers_size. intros q [i Hq]%list_elem_of_lookup. destruct (proj2 Hr i q Hq) as (w & Hw & _). by eexists. }
  rewrite (group_from_ok g m last Hr Hgm Hlast g _ 0%nat L); [done|done| |done]. apply lookup_lt_Some in Hlast. lia.
Qed.

(** *** Writing the group *)

Context (Hins : forall t, c_insert c t = OK).
Context (Hcount : forall t, 0 <= count t) (Hlast0 : 0 <= last0) (Hbound : last0 + total (seq 0 n) <= 2 ^ 56 - 1).

Lemma total_nonneg l : 0 <= total l.
Proof. induction l as [|w l IH]; [done|]. rewrite total_cons. specialize (Hcount w). lia. Qed.

Lemma total_threads l : NoDup l -> Forall (fun t => (t < n)%nat) l -> total l <= total (seq 0 n).
Proof.
  intros Hn Hl. assert (Hs : l ⊆+ seq 0 n). { apply NoDup_submseteq; [done|]. intros t Ht. rewrite Forall_forall in Hl. apply elem_of_seq. specialize (Hl t Ht). lia. }
  apply submseteq_Permutation in Hs as [k Hk]. assert (E : total (seq 0 n) = total (l ++ k)).
  { unfold total. apply (foldr_permutation_proper (=)); try apply _; [|done]. intros a b q. lia. }
  rewrite E, total_app. pose proof (total_nonneg k). lia.
Qed.

Lemma group_bound k : kept (published x) = [] -> 0 <= last_sequence s /\ last_sequence s + total (take k LQ) <= 2 ^ 56 - 1.
Proof.
  intros Hp. destruct (in_data _ _ _ _ _ _ Hi) as [_ _ Hq Hsub _]. rewrite kept_app, Hp, app_nil_r in Hq. rewrite Hq. split; [pose proof (total_nonneg (kept GG)); lia|].
  assert (Hs : kept GG ++ take k LQ `sublist_of` past ++ LQ) by (apply sublist_app; [by etrans; [apply kept_sub|]|apply sublist_take]).
  assert (Ht : total (kept GG ++ take k LQ) <= total (seq 0 n)).
  { apply total_threads; [eapply sublist_NoDup; [apply (in_NoDup _ _ _ _ _ _ Hi)|exact Hs]|].
    pose proof (in_bound _ _ _ _ _ _ Hi) as Hb. rewrite Forall_forall in Hb. apply Forall_forall. intros t Ht. apply Hb.
    by eapply elem_of_submseteq, sublist_submseteq. }
  rewrite total_app in Ht. lia.
Qed.

Lemma assign_ok ws : forall q s0, (forall w, w ∈ ws -> is_Some (writers s0 !! w)) ->
  exists s', assign_sequences c ws q s0 = Some s' /\ similar s0 s' /\ s' = set_writers (writers s') s0 /\ (forall t, t ∉ ws -> writers s' !! t = writers s0 !! t).
Proof.
  induction ws as [|w ws IH]; intros q s0 Hw; cbn [assign_sequences]; [exists s0; split_and!; [done|by apply similar_refl|by destruct s0|done]|].
  destruct (Hw w) as [v Hv]; [left|]. rewrite (store_eq _ _ _ v Hv). cbn [mbind option_bind]. set (s1 := set_writers _ _).
  assert (Hsim : similar s0 s1) by (by apply (similar_insert s0 w v)).
  destruct (IH (if ShouldWriteToMemtable s0 w then u64 (q + count w) else q) s1) as (s' & E & Hs & Es & Ho).
  { intros u Hu. specialize (Hsim u). destruct (Hw u) as [v' Hv']; [by right|]. rewrite Hv' in Hsim. inversion Hsim. by eexists. }
  exists s'. split_and!; [done|by eapply similar_trans|by rewrite Es|]. intros t Ht. apply not_elem_of_cons in Ht as [Htw Ht]. rewrite Ho by done. cbn. by rewrite lookup_insert_ne.
Qed.

Lemma insert_ok ws : forall q s0, (forall w, w ∈ ws -> w_status <$> writers s0 !! w = Some OK) -> 0 <= q -> q + total ws < 2 ^ 64 ->
  exists s', insert_members c ws q s0 = Some (OK, s') /\ similar s0 s' /\ s' = add_mem (numbered (q - 1) ws) (set_writers (writers s') s0) /\
    (forall t, t ∉ ws -> writers s' !! t = writers s0 !! t).
Proof.
  induction ws as [|w ws IH]; intros q s0 Hw Hq Hb; cbn [insert_members].
  { exists s0. split_and!; [done|by apply similar_refl|destruct s0; unfold add_mem; cbn; by rewrite app_nil_r|done]. }
  rewrite total_cons in Hb. pose proof (total_nonneg ws). pose proof (Hcount w).
  destruct (writers s0 !! w) as [v|] eqn:Hv; [|specialize (Hw w ltac:(left)); by rewrite Hv in Hw].
  assert (Hok : w_status v = OK) by (specialize (Hw w ltac:(left)); rewrite Hv in Hw; by injection Hw).
  unfold ShouldWriteToMemtable. rewrite Hv, Hok. cbn [ok]. rewrite (store_eq _ _ _ v Hv). cbn [mbind option_bind].
  erewrite store_eq by (cbn; apply lookup_insert_eq). cbn [mbind option_bind]. rewrite Hins. cbn [ok]. rewrite set_writers_twice. cbn [writers set_writers].
  rewrite insert_insert_eq, u64_small by lia. set (s1 := set_writers _ _).
  assert (Hsim : similar s0 s1) by (apply (similar_insert s0 w v); [done|by split_and!]).
  destruct (IH (q + count w) (add_mem [(q, w)] s1)) as (s' & E & Hs & Es & Ho); [|lia|lia|].
  { intros u Hu. specialize (Hsim u). specialize (Hw u ltac:(by right)). cbn [writers add_mem]. destruct Hsim as [? ? (_ & Eu & _)|]; [|done]. cbn in *. congruence. }
  exists s'. split_and!; [exact E| | |].
  - eapply similar_trans; [exact Hsim|exact Hs].
  - rewrite Es. unfold s1, add_mem, set_writers. cbn [numbered newest_writer_ groups pcs last_sequence wal mem linked writers]. rewrite <- app_assoc. cbn [app].
    do 4 f_equal; [f_equal; lia|]. f_equal. lia.
  - intros t Ht. apply not_elem_of_cons in Ht as [Htw Ht]. rewrite Ho by done. cbn. by rewrite lookup_insert_ne.
Qed.

Lemma member_writers g m : resting s LQ 0 m -> forall w, w ∈ take (S g) LQ -> w_status <$> writers s !! w = Some OK.
Proof.
  intros [_ Hl] w Hw. apply elem_of_take in Hw as (i & Hiw & _). destruct (Hl i w Hiw) as (v & Hv & Hok & _). rewrite Hv. cbn. by rewrite Hok.
Qed.

Lemma all_write g m : resting s LQ 0 m -> filter (fun w => ShouldWriteToMemtable s w = true) (take (S g) LQ) = take (S g) LQ.
Proof.
  intros Hr. pose proof (member_writers g m Hr) as Hm. induction (take (S g) LQ) as [|w l IH]; [done|]. rewrite filter_cons, decide_True.
  - f_equal. apply IH. intros u Hu. apply Hm. by right.
  - specialize (Hm w ltac:(left)). unfold ShouldWriteToMemtable. destruct (writers s !! w) as [v|]; [|done]. injection Hm as ->. done.
Qed.

Lemma total_count_ok l : total l < 2 ^ 64 -> foldr (fun w q => u64 (count w + q)) 0 l = total l.
Proof.
  induction l as [|w l IH]; [done|]. rewrite total_cons. pose proof (total_nonneg l). pose proof (Hcount w). intros Hl. cbn. rewrite IH by lia. apply u64_small. lia.
Qed.

(** The state after the write to the log. *)
Definition logged (added : bool) (g : nat) : WriteThread := if added then add_wal (last_sequence s + 1, take (S g) LQ) s else s.

Lemma logged_frame added g : linked (logged added g) = linked s /\ newest_writer_ (logged added g) = newest_writer_ s /\ pcs (logged added g) = pcs s /\
  groups (logged added g) = groups s /\ last_sequence (logged added g) = last_sequence s /\ mem (logged added g) = mem s /\ writers (logged added g) = writers s.
Proof. by destruct added. Qed.

(** A record is added unless the group does without the log, or the log fails. *)
Lemma logged_wal added b g : x = nothing -> added = negb (j_disable_wal (c_job c L)) -> wal (logged added g) = records last0 (GG ++ entry b LQ g).
Proof.
  intros Hx ->. destruct (in_data _ _ _ _ _ _ Hi) as [Ewal _ Hq _ _]. rewrite Hx in Ewal, Hq. cbn in Ewal, Hq. rewrite app_nil_r in Ewal, Hq.
  rewrite records_app, <- Ewal, <- Hq. unfold logged. cbn [records entry take head from_option]. destruct (j_disable_wal (c_job c L)); cbn; by rewrite ?app_nil_r.
Qed.

Lemma WriteToWAL_added need_log_sync io : (WriteToWAL need_log_sync io).2 = OK -> (WriteToWAL need_log_sync io).1 = true.
Proof. unfold WriteToWAL. cbn. destruct (ok (io_add io)) eqn:E; [done|]. cbn. intros E'. by rewrite E' in E. Qed.

(** The log fails: the leader goes on to complete its group with the error. *)
Lemma log_failed ld added g m : x = nothing -> in_group s LQ L g m -> resting s LQ 0 m -> ok (ld_status ld) = false ->
  (added = true -> j_disable_wal (c_job c L) = false) -> step c s L y = Stepped (goto L (ExitSequence ld) (logged added g)) -> keeps s L y.
Proof.
  intros Hx Hg Hr Eok Hadd Estep. destruct (logged_frame added g) as (F1 & F2 & F3 & F4 & F5 & F6 & F7).
  eexists _, past, LQ, GG, owner, (if added then all_of (entry false LQ g) else nothing). split; [exact Estep|].
  eapply lead_step; [exact Hi|done|done|done|by rewrite F7|by rewrite F7| |].
  - exists g, m. split; [by eapply in_group_frame; [|exact Hg]; rewrite F4|]. split; [by eapply resting_similar; [apply similar_refl|]|].
    unfold inserted, failed. rewrite Eok. split; [destruct added; [by right|by left]|]. intros E. by rewrite E in Eok.
  - pose proof (in_data _ _ _ _ _ _ Hi) as Hd. destruct added; [|by rewrite <- Hx]. destruct Hd as [D1 D2 D3 D4 D5]. rewrite Hx in D2, D3. cbn [in_mem published nothing] in D2, D3.
    rewrite app_nil_r in D2, D3. split; [|rewrite F6|rewrite F5|done|done].
    + apply logged_wal; [done|]. by rewrite Hadd.
    + cbn [in_mem all_of]. rewrite kept_app. cbn. by rewrite app_nil_r.
    + cbn [published all_of]. rewrite kept_app. cbn. by rewrite app_nil_r.
Qed.

(** The log succeeds: the sequence numbers are assigned. *)
Lemma log_succeeded ld g m added : x = nothing -> in_group s LQ L g m -> resting s LQ 0 m -> added = negb (j_disable_wal (c_job c L)) ->
  ld_status ld = OK -> ld_current_sequence ld = last_sequence s + 1 -> ld_last_sequence ld = last_sequence s + total (take (S g) LQ) ->
  step c s L y = stepped (s' ← assign_sequences c (take (S g) LQ) (last_sequence s + 1) (logged added g); Some (goto L (InsertGroup ld) s')) -> keeps s L y.
Proof.
  intros Hx Hg Hr Hadd H1 H2 H3 Estep. destruct (logged_frame added g) as (F1 & F2 & F3 & F4 & F5 & F6 & F7).
  destruct (assign_ok (take (S g) LQ) (last_sequence s + 1) (logged added g)) as (s2 & Ea & Hsim & Es2 & Ho2).
  { intros w Hw. rewrite F7. pose proof (member_writers g m Hr w Hw) as Hm. destruct (writers s !! w); [by eexists|done]. }
  rewrite Ea in Estep. cbn [mbind option_bind stepped] in Estep.
  assert (Hsim' : similar s s2) by (eapply similar_trans; [|exact Hsim]; by apply similar_refl).
  eexists _, past, LQ, GG, owner, (mkProgress (entry true LQ g) [] []). split; [exact Estep|].
  assert (Hflds : linked s2 = linked s /\ newest_writer_ s2 = newest_writer_ s /\ pcs s2 = pcs s /\ groups s2 = groups s /\ last_sequence s2 = last_sequence s /\ mem s2 = mem s /\ wal s2 = wal (logged added g)).
  { rewrite Es2. by split_and!. }
  destruct Hflds as (G1 & G2 & G3 & G4 & G5 & G6 & G7). eapply lead_step; [exact Hi|done|done|done| | | |].
  - intros t Ht. rewrite Ho2, F7; [done|]. intros Hin. apply Ht. by apply elem_of_take in Hin as (i & Hin%list_elem_of_lookup_2 & _).
  - intros q Hq. by apply state_similar.
  - exists g, m. split; [by eapply in_group_frame; [|exact Hg]; rewrite G4|]. split; [by eapply resting_similar|]. rewrite G5. by split_and!.
  - destruct (in_data _ _ _ _ _ _ Hi) as [D1 D2 D3 D4 D5]. rewrite Hx in D2, D3. split; [|by rewrite G6|by rewrite G5|done|done].
    rewrite G7. by apply logged_wal.
Qed.

Lemma write_log_step ld : c_allow_concurrent_memtable_write c = false \/ Q = [] -> pcs s !! L = Some (WriteLog ld) -> lead s LQ L (WriteLog ld) x -> keeps s L y.
Proof.
  intros Hpar Hpc (Hx & Hld & g & m & Hg & Hr). assert (Estep : step c s L y = stepped (write_log c L ld (ch_io y) s)) by (unfold step; by rewrite Hpc).
  unfold write_log in Estep. destruct (ok (ld_status ld)) eqn:Eok; cbn [negb] in Estep; [|by apply (log_failed ld false g m)].
  rewrite (members_ok g m Hg Hr) in Estep. cbn [mbind option_bind] in Estep.
  pose proof Hg as [(last & grp & Hlast & Hgrp & _ & _ & Hsz & _) Hgm]. rewrite Hgrp in Estep. cbn [mbind option_bind] in Estep.
  assert (Epar : c_allow_concurrent_memtable_write c && (g_size grp >? 1) = false).
  { destruct Hpar as [->|HQ]; [done|]. apply lookup_lt_Some in Hlast. rewrite HQ in Hlast. cbn in Hlast. assert (g = O) as -> by lia. rewrite Hsz. apply andb_false_r. }
  rewrite Epar in Estep. cbn [mbind option_bind] in Estep.
  rewrite (all_write g m Hr) in Estep. destruct (group_bound (S g)) as [Hq0 Hqb]; [by rewrite Hx|].
  assert (Ht0 : 0 <= total (take (S g) LQ)) by apply total_nonneg. rewrite total_count_ok, Hld in Estep by lia.
  rewrite !u64_small in Estep by lia. destruct (j_disable_wal (c_job c L)) eqn:Ed.
  { cbn [ok] in Estep. by apply (log_succeeded (mkLocals OK (last_sequence s + total (take (S g) LQ)) (last_sequence s + 1)) g m false); rewrite ?Ed. }
  pose proof (WriteToWAL_added (j_sync (c_job c L)) (ch_io y)) as Hadd. destruct (WriteToWAL _ _) as [added io_s]. cbn in Hadd.
  destruct (ok io_s) eqn:Eio; [|by eapply (log_failed _ added g m); [..|exact Estep]].
  assert (Eio' : io_s = OK) by (unfold ok in Eio; by case_bool_decide). rewrite (Hadd Eio'), Eio' in Estep.
  by apply (log_succeeded (mkLocals OK (last_sequence s + total (take (S g) LQ)) (last_sequence s + 1)) g m true); rewrite ?Ed.
Qed.

Lemma insert_group_step ld : pcs s !! L = Some (InsertGroup ld) -> lead s LQ L (InsertGroup ld) x -> keeps s L y.
Proof.
  intros Hpc (g & m & Hg & Hr & Hx & Hok & Hcur & Hlast). assert (Estep : step c s L y = stepped (insert_group c L ld s)) by (unfold step; by rewrite Hpc).
  unfold insert_group in Estep. rewrite (members_ok g m Hg Hr), Hcur in Estep. cbn [mbind option_bind] in Estep.
  destruct (group_bound (S g)) as [Hq0 Hqb]; [by rewrite Hx|].
  destruct (insert_ok (take (S g) LQ) (last_sequence s + 1) s) as (s1 & E1 & Hsim & Es1 & Ho1); [by apply (member_writers g m Hr)|lia|lia|].
  rewrite E1 in Estep. cbn [mbind option_bind] in Estep. destruct (proj2 Hr 0%nat L eq_refl) as (w & Hw & Hwok & _). pose proof (Hsim L) as HsL. rewrite Hw in HsL.
  inversion HsL as [? w1 (G1 & G2 & G3 & G4) E0 Hw1|]; subst. symmetry in Hw1. rewrite (store_eq _ _ _ w1 Hw1) in Estep. cbn [mbind option_bind stepped] in Estep.
  set (s2 := set_writers _ _) in Estep. assert (Hsim2 : similar s s2).
  { eapply similar_trans; [exact Hsim|]. apply (similar_insert s1 L w1); [done|]. split_and!; try done. cbn. congruence. }
  replace (last_sequence s + 1 - 1) with (last_sequence s) in Es1 by lia.
  assert (Hflds : linked s2 = linked s /\ newest_writer_ s2 = newest_writer_ s /\ pcs s2 = pcs s /\ groups s2 = groups s /\ last_sequence s2 = last_sequence s /\
    mem s2 = mem s ++ numbered (last_sequence s) (take (S g) LQ) /\ wal s2 = wal s) by (unfold s2; by rewrite Es1).
  destruct Hflds as (F1 & F2 & F3 & F4 & F5 & F6 & F7).
  eexists _, past, LQ, GG, owner, (mkProgress (entry true LQ g) (entry true LQ g) []). split; [exact Estep|].
  eapply lead_step; [exact Hi|done|done|done| | | |].
  - intros t Ht. cbn. rewrite lookup_insert_ne by (intros ->; apply Ht; left). apply Ho1. intros Hin. apply Ht. by apply elem_of_take in Hin as (i & Hin%list_elem_of_lookup_2 & _).
  - intros q Hq. by apply state_similar.
  - exists g, m. split; [by eapply in_group_frame; [|exact Hg]; rewrite F4|]. split; [by eapply resting_similar|]. rewrite Hok, F5. by split.
  - destruct (in_data _ _ _ _ _ _ Hi) as [D1 D2 D3 D4 D5]. cbn in D1, D2, D3. rewrite app_nil_r in D2, D3. split; [by rewrite F7|rewrite F6|rewrite F5; cbn; by rewrite app_nil_r|done|done].
    cbn [in_mem]. rewrite D2, D3, kept_app, numbered_app. cbn. by rewrite app_nil_r.
Qed.

Lemma exit_sequence_step ld : pcs s !! L = Some (ExitSequence ld) -> lead s LQ L (ExitSequence ld) x -> keeps s L y.
Proof.
  intros Hpc (g & m & Hg & Hr & Hx & Hlast). unfold inserted in Hx. assert (Estep : step c s L y = stepped (publish L ld s)) by (unfold step; by rewrite Hpc).
  unfold publish in Estep. destruct (ok (ld_status ld)) eqn:Eok.
  - assert (Hok : ld_status ld = OK) by (unfold ok in Eok; by case_bool_decide). specialize (Hlast Hok). pose proof (total_nonneg (take (S g) LQ)).
    unfold SetLastSequence, assert in Estep. rewrite Hlast, (proj2 (Z.geb_le _ _)) in Estep by lia. cbn [mbind option_bind stepped] in Estep.
    eexists _, past, LQ, GG, owner, (all_of (entry true LQ g)). split; [exact Estep|]. eapply lead_step; [exact Hi|done|done|done|done|done| |].
    + split; [done|]. exists g, m. split; [done|]. split; [done|]. unfold written. by rewrite Eok.
    + destruct (in_data _ _ _ _ _ _ Hi) as [D1 D2 D3 D4 D5]. rewrite Hx in D1, D2, D3. split; [done|done| |done|done]. cbn in *. rewrite app_nil_r in D3.
      rewrite D3, kept_app, total_app. cbn. rewrite app_nil_r. lia.
  - eapply keeps_goto; [exact Estep|]. split; [done|]. exists g, m. split; [done|]. split; [done|]. unfold written. by rewrite Eok.
Qed.

Lemma exit_start_step g' st : pcs s !! L = Some (ExitStart g' st) -> lead s LQ L (ExitStart g' st) x -> keeps s L y.
Proof.
  intros Hpc (-> & g & m & Hg & Hr & Hx). pose proof Hg as [(last & grp & Hlast & Hgrp & _ & Hgs & _) Hgm].
  destruct (leader_links _ _ _ _ (proj2 Hr)) as (w & Hw & _ & Hold & _). destruct last_newest as (q & Hq & HqL).
  apply (keeps_goto (ExitTry L st (Some q))).
  - unfold step. rewrite Hpc. unfold exit_start. rewrite Hgrp, Hw. cbn [mbind option_bind]. rewrite Hold, bool_decide_eq_true_2, Hgs, Hq by done. cbn. by rewrite andb_false_r.
  - split; [done|]. exists g, m, (length Q). split; [done|]. split; [done|]. split; [done|]. split; [destruct Hr as [Hm _]; cbn in Hm; lia|]. split; [done|by eexists].
Qed.

(** Another writer was linked. *)
Lemma exit_more_step L' st h g m k : step c s L y = Stepped (goto L (ExitLinks L' st h) s) -> L' = L -> in_group s LQ L g m -> resting s LQ 0 m -> written st LQ g x ->
  LQ !! k = Some h -> (g < k)%nat -> keeps s L y.
Proof.
  intros E -> Hg [Hm Hl] Hx Hk Hgk. apply (keeps_goto (ExitLinks L st h)); [done|]. split; [done|]. pose proof (lookup_lt_Some _ _ _ Hk) as Hkl.
  destruct (decide (m <= k)%nat) as [Hmk|Hmk].
  - exists g, m, k. split; [done|]. split; [|by split]. exists k. split; [done|]. split; [done|]. split; [done|]. intros i q Hiq.
    destruct (Hl i q Hiq) as (w & Hw & H1 & H2 & H3). exists w. split_and!; try done. rewrite H3. apply newer_at_iff. lia.
  - (* the links are there already *)
    exists g, m, m. split; [done|]. destruct Hg as [_ Hgm]. split; [|split; [done|lia]]. exists k. split; [done|]. split; [lia|]. split; [lia|]. intros i q Hiq.
    destruct (Hl i q Hiq) as (w & Hw & H1 & H2 & H3). exists w. split_and!; try done. rewrite H3. apply newer_at_iff. lia.
Qed.

Lemma exit_links_step g' st head : pcs s !! L = Some (ExitLinks g' st head) -> lead s LQ L (ExitLinks g' st head) x -> keeps s L y.
Proof.
  intros Hpc (-> & g & m & k & Hg & Hw & Hx & Hgk). pose proof Hg as [Hga Hgm]. destruct (missing_link_ok s LQ m k head LQ_NoDup Hw) as [[E Hr]|(next & w & Hn & Hnw & E & Hw')].
  - apply (keeps_goto (ExitHand L st)); [unfold step; by rewrite Hpc, E|]. split; [done|]. exists g, k. split; [split; [done|lia]|by split].
  - apply (keeps_store (ExitLinks L st next) next w (with_newer (Some head) w) (groups s)); try done; [unfold step; by rewrite Hpc, E|].
    split; [done|]. exists g, m, k. split; [done|]. by split.
Qed.

(** The links after the next leader was cut off. *)
Lemma cut_links g m next w : resting s LQ 0 m -> (g < m)%nat -> LQ !! S g = Some next -> writers s !! next = Some w ->
  resting (set_writers (<[next := with_older None w]> (writers s)) s) LQ (S g) m.
Proof.
  intros [Hm Hl] Hgm Hnext Hw. split; [done|]. intros i q Hiq. destruct (Hl i q Hiq) as (v & Hv & H1 & H2 & H3). cbn [writers set_writers].
  destruct (decide (q = next)) as [->|Hq].
  - assert (i = S g) as -> by (by eapply NoDup_lookup; [apply LQ_NoDup|..]). rewrite Hw in Hv. injection Hv as <-. rewrite lookup_insert_eq. eexists. split_and!; [done|done| |done].
    cbn. unfold older_at. by rewrite decide_True by lia.
  - rewrite lookup_insert_ne by done. exists v. split_and!; try done. rewrite H2. unfold older_at.
    assert (i <> S g) by (intros ->; congruence). destruct (decide (i = 0 \/ i = 0)%nat); [rewrite decide_True by lia|rewrite decide_False by lia]; done.
Qed.

Lemma next_writer g m : resting s LQ 0 m -> (g < m)%nat -> exists next w, LQ !! S g = Some next /\ next ∈ LQ /\ next <> L /\ writers s !! next = Some w /\ w_link_older w = LQ !! g.
Proof.
  intros [Hm Hl] Hgm. destruct (lookup_lt_is_Some_2 LQ (S g)) as [next Hnext]; [lia|]. destruct (Hl _ _ Hnext) as (w & Hw & _ & Ho & _). exists next, w.
  split_and!; [done|by eapply list_elem_of_lookup_2| |done|by rewrite Ho; unfold older_at; rewrite decide_False by lia].
  intros ->. pose proof (NoDup_lookup LQ 0 (S g) L LQ_NoDup eq_refl Hnext). lia.
Qed.

Lemma exit_hand_step g' st : pcs s !! L = Some (ExitHand g' st) -> lead s LQ L (ExitHand g' st) x -> keeps s L y.
Proof.
  intros Hpc (-> & g & m & Hg & Hr & Hx & Hgm'). pose proof Hg as [(last & grp & Hlast & Hgrp & Egl & Hgs & Hsz & Hmem) Hgm]. destruct (next_writer g m Hr Hgm') as (next & w & Hnext & HnQ & HnL & Hw & Hold).
  destruct (proj2 Hr g last Hlast) as (v & Hv & _ & _ & Hnew). unfold newer_at in Hnew. rewrite decide_True in Hnew by lia.
  apply (keeps_store (ExitSignal L st) next w (with_older None w) (groups s)); try done.
  - unfold step. rewrite Hpc. unfold exit_hand. rewrite Hgrp. cbn [mbind option_bind]. rewrite Egl, Hv. cbn [mbind option_bind]. rewrite Hnew, Hnext. cbn [mbind option_bind].
    rewrite Hw. cbn [mbind option_bind]. rewrite Hold, bool_decide_eq_true_2 by done. cbn [assert]. by rewrite (store_eq _ _ _ w Hw).
  - split; [done|]. exists g, m. split; [done|]. split; [by apply cut_links|by split].
Qed.

Lemma alone_links_step head : pcs s !! L = Some (AloneLinks head) -> lead s LQ L (AloneLinks head) x -> keeps s L y.
Proof.
  intros Hpc (Hx & Ha & m & k & Hw & Hk). destruct (missing_link_ok s LQ m k head LQ_NoDup Hw) as [[E Hr]|(next & w & Hn & Hnw & E & Hw')].
  - apply (keeps_goto AloneHand); [unfold step; by rewrite Hpc, E|]. split; [done|]. split; [done|]. by exists k.
  - apply (keeps_store (AloneLinks next) next w (with_newer (Some head) w) (groups s)); try done; [unfold step; by rewrite Hpc, E|].
    split; [done|]. split; [done|]. exists m, k. by split.
Qed.

Lemma alone_hand_step : pcs s !! L = Some AloneHand -> lead s LQ L AloneHand x -> keeps s L y.
Proof.
  intros Hpc (Hx & Ha & m & Hr & Hm). destruct (next_writer 0 m Hr Hm) as (next & w & Hnext & HnQ & HnL & Hw & Hold).
  destruct (leader_links _ _ _ _ (proj2 Hr)) as (v & Hv & _ & _ & Hnew). unfold newer_at in Hnew. rewrite decide_True in Hnew by lia.
  apply (keeps_store (AloneSignal next) next w (with_older None w) (groups s)); try done.
  - unfold step. rewrite Hpc. unfold alone_hand. rewrite Hv. cbn [mbind option_bind]. rewrite Hnew, Hnext. cbn [mbind option_bind]. by rewrite (store_eq _ _ _ w Hw).
  - split; [done|]. split; [done|]. exists m. split; [by apply (cut_links 0)|by split].
Qed.
End Leader.

(** ** The group leaves the queue *)

Definition own (L : nat) (fs : list nat) (owner : gmap nat nat) : gmap nat nat := foldr (fun f o => <[f := L]> o) owner fs.

Lemma own_lookup L fs owner t : own L fs owner !! t = if decide (t ∈ fs) then Some L else owner !! t.
Proof.
  unfold own. induction fs as [|f fs IH]; cbn; [by rewrite decide_False by apply not_elem_of_nil|]. destruct (decide (t = f)) as [->|Hne].
  - rewrite lookup_insert_eq, decide_True by left. done.
  - rewrite lookup_insert_ne, IH by done. destruct (decide (t ∈ fs)); [rewrite decide_True by (by right)|rewrite decide_False by (by apply not_elem_of_cons)]; done.
Qed.

Lemma head_not_in (l : list nat) t : t ∉ l -> head l <> Some t.
Proof. destruct l as [|u l]; [done|]. intros Ht [= ->]. apply Ht. left. Qed.

Section Detach.
Context (s s' : WriteThread) (past : list nat) (L : nat) (fs B : list nat) (GG pub : history) (owner : gmap nat nat).
Context (Hi : inv s past (L :: fs ++ B) GG owner (mkProgress pub pub pub)).
Context (El : linked s' = linked s) (Enew : newest_writer_ s' = list.last B) (Ew : wal s' = wal s) (Em : mem s' = mem s) (Eq : last_sequence s' = last_sequence s).
Context (Hpcs : forall t, t <> L -> pcs s' !! t = pcs s !! t) (HpL : is_Some (pcs s' !! L)).
Context (Hws : forall t, t <> L -> head B <> Some t -> writers s' !! t = writers s !! t).
Context (HB : match B with [] => True | N :: _ => state_is s' N STATE_GROUP_LEADER /\ exists m, resting s' B 0 m end).
Context (Hpub : pub = [] \/ exists b, pub = [(b, L :: fs)]) (Hbat : Forall batched (kept pub)).
Abbreviation GG' := (GG ++ pub).
Abbreviation owner' := (own L fs owner).
Context (HleftL : left s' GG' owner' L) (HcomL : completes s' owner' L).
Context (Hfs : forall f, f ∈ fs -> batched f /\ exists st cur, pcs s' !! L = Some (ExitDone L st cur) /\ (st = OK <-> f ∈ kept GG')).

Lemma detach_NoDup : NoDup (past ++ (L :: fs) ++ B).
Proof using Hi. exact (in_NoDup _ _ _ _ _ _ Hi). Qed.

Lemma detach_past t : t ∈ past -> t ∉ L :: fs /\ t ∉ B.
Proof using Hi. intros Ht. pose proof detach_NoDup as Hn. apply NoDup_app in Hn as (_ & Hn & _). specialize (Hn t Ht). rewrite elem_of_app in Hn. split; intros H; apply Hn; [by left|by right]. Qed.

Lemma detach_group t : t ∈ L :: fs -> t ∉ B.
Proof using Hi. intros Ht. pose proof detach_NoDup as Hn. apply NoDup_app in Hn as (_ & _ & Hn). apply NoDup_app in Hn as (_ & Hn & _). by apply Hn. Qed.

Lemma detach_front : front s' B nothing.
Proof.
  destruct (in_front _ _ _ _ _ _ Hi) as [_ _ Hwait]. pose proof detach_NoDup as Hn. apply NoDup_app in Hn as (_ & _ & Hn). apply NoDup_app in Hn as (_ & HLB & HnB).
  assert (HB' : forall i q, B !! i = Some q -> awaiting s q /\ q <> L).
  { intros i q Hq. split.
    - apply (Hwait (length fs + i)%nat). rewrite app_comm_cons, lookup_app_r by (cbn; lia). cbn [length]. by replace (S (length fs + i) - S (length fs))%nat with i by lia.
    - intros ->. apply (HLB L); [left|by eapply list_elem_of_lookup_2]. }
  split; [done| |].
  - destruct B as [|N B']; [done|]. destruct HB as [Hst [m Hm]]. destruct (HB' 0%nat N eq_refl) as [[Hp _] HNL]. exists (Awaiting (goal_mask c N)). rewrite Hpcs by done.
    split; [done|]. split_and!; try done. by exists m.
  - intros i q Hq. destruct (HB' _ _ Hq) as [[Hp Hs] HqL]. split; [by rewrite Hpcs|]. unfold state_is. rewrite Hws; [done|done|].
    destruct B as [|N B']; [done|]. intros [= ->]. pose proof (NoDup_lookup (q :: B') 0 (S i) q HnB eq_refl Hq). lia.
Qed.

Lemma detach_member t : t ∈ past -> t ∈ kept GG <-> t ∈ kept GG'.
Proof.
  intros Ht. rewrite kept_app, elem_of_app. split; [by left|]. intros [?|Hin]; [done|].
  assert (Hsub : t ∈ members pub) by (by eapply elem_of_submseteq, sublist_submseteq, kept_sub).
  destruct Hpub as [Hp|[b Hp]]; rewrite Hp in Hsub; [by apply elem_of_nil in Hsub|]. cbn in Hsub. rewrite app_nil_r in Hsub. by destruct (detach_past t Ht).
Qed.

Lemma detach_owner t : t ∈ past -> owner' !! t = owner !! t.
Proof. intros Ht. rewrite own_lookup, decide_False; [done|]. destruct (detach_past t Ht) as [H _]. apply not_elem_of_cons in H. tauto. Qed.

Lemma detach_same t : t ∈ past -> writers s' !! t = writers s !! t /\ pcs s' !! t = pcs s !! t.
Proof.
  intros Ht. destruct (detach_past t Ht) as [H1 H2]. apply not_elem_of_cons in H1 as [H1 _]. split; [apply Hws; [done|by apply head_not_in]|by apply Hpcs].
Qed.

Lemma left_GG s0 GG0 GG1 o0 o1 t : (t ∈ kept GG0 <-> t ∈ kept GG1) -> o1 !! t = o0 !! t -> left s0 GG0 o0 t -> left s0 GG1 o1 t.
Proof. intros Hg Ho. unfold left. rewrite Ho. destruct (o0 !! t); setoid_rewrite Hg; done. Qed.

Lemma detach_rest : rest s' (past ++ L :: fs) B GG' owner'.
Proof.
  destruct (in_rest _ _ _ _ _ _ Hi) as [Hout Hleft Hown Hcom]. split.
  - intros t Htn Ht. rewrite <- app_assoc in Ht. assert (Hne : t <> L /\ t ∉ B) by (rewrite !elem_of_app, elem_of_cons in Ht; tauto).
    eapply outside_frame; [apply Hws; [|apply head_not_in]; tauto|apply Hpcs; tauto|by apply Hout].
  - intros t [Ht|Ht]%elem_of_app.
    + destruct (detach_same t Ht) as [Hw Hp]. eapply left_frame; [exact Hw|exact Hp| |].
      * intros L' HL'. rewrite detach_owner in HL' by done. apply detach_same. by destruct (Hown t L' HL').
      * eapply left_GG; [by apply detach_member|by apply detach_owner|by apply Hleft].
    + apply elem_of_cons in Ht as [->|Ht]; [done|]. unfold left. rewrite own_lookup, decide_True by done. destruct (Hfs t Ht) as [Hb Hst]. split; [|done].
      pose proof Ht as [i Hit]%list_elem_of_lookup. destruct (fr_wait _ _ _ (in_front _ _ _ _ _ _ Hi) i t) as [Hp Hs]; [cbn; by apply lookup_app_l_Some|].
      assert (HtL : t <> L). { intros ->. pose proof detach_NoDup as Hn. apply NoDup_app in Hn as (_ & _ & Hn). apply NoDup_app in Hn as (Hn & _). by apply NoDup_cons in Hn as [? _]. }
      split; [by rewrite Hpcs|]. unfold state_is. rewrite Hws; [done|done|]. apply head_not_in, detach_group. by right.
  - intros f L' Hf. rewrite own_lookup in Hf. destruct (decide (f ∈ fs)) as [Hin|].
    + injection Hf as <-. split; apply elem_of_app; right; [by right|left].
    + destruct (Hown f L' Hf). split; apply elem_of_app; by left.
  - intros L' [HL'|HL']%elem_of_app.
    + assert (Hiff : forall f, owner !! f = Some L' <-> owner' !! f = Some L').
      { intros f. rewrite own_lookup. destruct (decide (f ∈ fs)) as [Hin|]; [|done]. split.
        - intros Hf. destruct (Hown f L' Hf) as [Hp _]. destruct (detach_past f Hp) as [Hno _]. destruct Hno. by right.
        - intros E. injection E as E. destruct (detach_past L' HL') as [Hno _]. destruct Hno. rewrite <- E. left. }
      apply (completes_frame s); [by apply detach_same| |].
      * intros f Hf. apply Hiff in Hf. apply detach_same. by destruct (Hown f L' Hf).
      * intros st cur E. destruct (Hcom L' HL' st cur E) as (gs & G1 & G2 & G3 & G4). exists gs. split_and!; try done. intros f. by rewrite G3.
    + apply elem_of_cons in HL' as [->|HL']; [done|]. intros st cur E. exfalso. pose proof HL' as [i Hit]%list_elem_of_lookup.
      destruct (fr_wait _ _ _ (in_front _ _ _ _ _ _ Hi) i L') as [Hp _]; [cbn; by apply lookup_app_l_Some|].
      destruct (decide (L' = L)) as [->|HLL]; [|rewrite Hpcs in E by done; congruence].
      pose proof detach_NoDup as Hn. apply NoDup_app in Hn as (_ & _ & Hn). apply NoDup_app in Hn as (Hn & _). by apply NoDup_cons in Hn as [? _].
Qed.

Lemma detach : inv s' (past ++ L :: fs) B GG' owner' nothing.
Proof.
  split; [rewrite El, (in_linked _ _ _ _ _ _ Hi); by rewrite <- app_assoc|rewrite <- app_assoc; exact detach_NoDup| |rewrite <- app_assoc; exact (in_bound _ _ _ _ _ _ Hi)
    |exact detach_front|exact detach_rest|].
  - apply (threads_step s s' L); [exact (in_threads _ _ _ _ _ _ Hi)| |done|done]. pose proof (in_bound _ _ _ _ _ _ Hi) as Hb. rewrite Forall_forall in Hb. apply Hb. set_solver.
  - destruct (in_data _ _ _ _ _ _ Hi) as [D1 D2 D3 D4 D5]. cbn in D1, D2, D3. split; cbn; rewrite ?app_nil_r; [by rewrite Ew|by rewrite Em|by rewrite Eq| |].
    + rewrite members_app. apply sublist_app; [done|]. destruct Hpub as [Hp|[b Hp]]; rewrite Hp; [apply sublist_nil_l|cbn; by rewrite app_nil_r].
    + rewrite kept_app. apply Forall_app. by split.
Qed.
End Detach.

(** A leader with its group. *)
Lemma group_detach s s' past L fs B GG owner x st last cut m j k : let Q := L :: fs ++ B in
  inv s past Q GG owner x -> written st Q (length fs) x -> group_at s Q L (length fs) -> links s Q cut m j k -> cut = O \/ cut = S (length fs) ->
  linked s' = linked s -> newest_writer_ s' = list.last B -> wal s' = wal s -> mem s' = mem s -> last_sequence s' = last_sequence s ->
  (forall t, t <> L -> pcs s' !! t = pcs s !! t) -> pcs s' !! L = Some (ExitDone L st last) -> list.last (L :: fs) = Some last ->
  (forall t, head B <> Some t -> writers s' !! t = writers s !! t) ->
  match B with [] => True | N :: _ => state_is s' N STATE_GROUP_LEADER /\ exists m, resting s' B 0 m end ->
  exists past' GG' owner', inv s' past' B GG' owner' nothing.
Proof.
  intros Q Hi Hx Hg Hl Hcut El En Ew Em Eq Hp HpL Hlast Hw HB.
  assert (Htake : take (S (length fs)) Q = L :: fs) by exact (take_app_length (L :: fs) B).
  assert (Hpub : exists pub, x = mkProgress pub pub pub /\ (pub = [] \/ exists b, pub = [(b, L :: fs)]) /\ kept pub = if ok st then L :: fs else []).
  { unfold written, failed, entry in Hx. rewrite Htake in Hx. destruct (ok st); [|destruct Hx as [Hx|Hx]]; rewrite Hx; eexists; (split; [reflexivity|]).
    - split; [right; by eexists|]. cbn. by rewrite app_nil_r.
    - split; [by left|done].
    - split; [right; by eexists|done]. }
  destruct Hpub as (pub & Ex & Hpub & Hkept). rewrite Ex in Hi. pose proof Hi as Hi'.
  assert (Hmem : forall i f, (i <= length fs)%nat -> Q !! i = Some f -> batched f) by (destruct Hg as (? & ? & _ & _ & _ & _ & _ & H); intros i f Hif E; by destruct (H i f Hif E)).
  assert (HLp : L ∉ past). { intros HLp. destruct (detach_past s past L fs B GG pub owner Hi' L HLp) as [H _]. apply H. left. }
  pose proof (detach_NoDup s past L fs B GG pub owner Hi') as Hn. assert (HLfs : L ∉ fs /\ NoDup fs).
  { apply NoDup_app in Hn as (_ & _ & Hn). apply NoDup_app in Hn as (Hn & _). by apply NoDup_cons in Hn. }
  assert (Hown : forall f, owner !! f <> Some L) by (intros f Hf; by destruct (re_owner _ _ _ _ _ (in_rest _ _ _ _ _ _ Hi) f L Hf)).
  assert (Hst : forall f, f ∈ L :: fs -> st = OK <-> f ∈ kept (GG ++ pub)).
  { intros f Hf. rewrite kept_app, elem_of_app, Hkept. unfold ok. case_bool_decide as E; [tauto|]. split; [done|]. intros [Hin|Hin]; [|by apply elem_of_nil in Hin].
    exfalso. destruct (detach_past s past L fs B GG pub owner Hi' f) as [H _]; [|done]. destruct (in_data _ _ _ _ _ _ Hi) as [_ _ _ Hsub _].
    eapply elem_of_submseteq, sublist_submseteq; [exact Hin|]. by etrans; [apply kept_sub|]. }
  assert (Hold : forall i f, (L :: fs) !! i = Some f -> exists w, writers s' !! f = Some w /\ w_status w = OK /\ w_link_older w = older_at Q 0 i).
  { intros i f Hif. assert (HfB : f ∉ B) by (apply (detach_group s past L fs B GG pub owner Hi'); by eapply list_elem_of_lookup_2).
    rewrite Hw by (by apply head_not_in). assert (HifQ : Q !! i = Some f) by (unfold Q; rewrite app_comm_cons; by apply lookup_app_l_Some).
    destruct (Hl i f HifQ) as (w & Hww & Hok & Ho & _). exists w. split_and!; try done. rewrite Ho. unfold older_at. apply lookup_lt_Some in Hif. cbn in Hif.
    destruct (decide (i = 0 \/ i = 0)%nat); [rewrite decide_True by lia|rewrite decide_False by lia]; done. }
  exists (past ++ L :: fs), (GG ++ pub), (own L fs owner). apply (detach s s' past L fs B GG pub owner Hi'); try done.
  - intros t _. by apply Hw.
  - rewrite Hkept. destruct (ok st); [|constructor]. apply Forall_forall. intros f [i Hf]%list_elem_of_lookup. apply (Hmem i); [apply lookup_lt_Some in Hf; cbn in Hf; lia|]. unfold Q. rewrite app_comm_cons. by apply lookup_app_l_Some.
  - unfold left. rewrite own_lookup, decide_False by tauto. assert (owner !! L = None) as ->.
    { destruct (owner !! L) as [L'|] eqn:E; [|done]. by destruct (re_owner _ _ _ _ _ (in_rest _ _ _ _ _ _ Hi) L L' E). }
    right. left. destruct (Hold 0%nat L eq_refl) as (w & Hww & Hok & _). exists st, last, w. split; [done|]. split; [by apply (Hmem 0%nat); [lia|]|].
    split; [apply Hst; left|by split].
  - intros st' cur E. rewrite HpL in E. injection E as <- <-. exists fs. split_and!; [done|tauto| |].
    + intros f. rewrite own_lookup. destruct (decide (f ∈ fs)); [done|]. split; [done|]. intros Hf. by destruct (Hown f).
    + intros i f Hif. destruct (Hold (S i) f Hif) as (w & Hww & _ & Ho). exists w. split; [done|]. rewrite Ho. unfold older_at. rewrite decide_False by lia. cbn [pred].
      unfold Q. rewrite app_comm_cons. rewrite lookup_app_l; [done|]. apply lookup_lt_Some in Hif. cbn. lia.
  - intros f Hf. pose proof Hf as [i Hif]%list_elem_of_lookup. split.
    + apply (Hmem (S i)); [apply lookup_lt_Some in Hif; lia|]. unfold Q. cbn. by apply lookup_app_l_Some.
    + exists st, last. split; [done|]. apply Hst. by right.
Qed.

Lemma resting_drop s A B m : A <> [] -> (length A <= m)%nat -> resting s (A ++ B) (length A) m -> resting s B 0 (m - length A).
Proof.
  intros HA HAm [Hm Hl]. rewrite length_app in Hm. split; [lia|]. intros i q Hiq. assert (HA' : (0 < length A)%nat) by (destruct A; [done|cbn; lia]).
  destruct (Hl (length A + i)%nat q) as (w & Hw & H1 & H2 & H3); [rewrite lookup_app_r by lia; by rewrite Nat.add_comm, Nat.add_sub|]. exists w. split_and!; [done|done|rewrite H2|rewrite H3].
  - unfold older_at. destruct (decide (i = 0 \/ i = 0)%nat); [rewrite decide_True by lia; done|]. rewrite decide_False by lia. rewrite lookup_app_r by lia. f_equal. lia.
  - unfold newer_at. destruct (decide (length A + i < m \/ 0 <= length A + i < 0)%nat); [rewrite decide_True by lia|by rewrite decide_False by lia].
    rewrite lookup_app_r by lia. f_equal. lia.
Qed.

Lemma resting_signal s s' B m N w x : resting s B 0 m -> writers s !! N = Some w -> (forall t, t ∈ B -> t <> N -> writers s' !! t = writers s !! t) ->
  writers s' !! N = Some (with_state x w) -> resting s' B 0 m.
Proof.
  intros [Hm Hl] Hw Ho HN. split; [done|]. intros i q Hiq. destruct (Hl i q Hiq) as (v & Hv & H1 & H2 & H3). destruct (decide (q = N)) as [->|Hq].
  - rewrite Hw in Hv. injection Hv as <-. eexists. by split_and!.
  - exists v. rewrite Ho; [done| |done]. by eapply list_elem_of_lookup_2.
Qed.

Section Exits.
Context (s : WriteThread) (past : list nat) (L : nat) (Q : list nat) (GG : history) (owner : gmap nat nat) (x : progress) (y : choice).
Context (Hi : inv s past (L :: Q) GG owner x).

Lemma exit_try_step g' st head : pcs s !! L = Some (ExitTry g' st head) -> lead s (L :: Q) L (ExitTry g' st head) x -> keeps s L y.
Proof.
  intros Hpc (-> & g & m & k & Hg & Hr & Hx & Hgk & Hk & [h ->]). pose proof Hg as [(last & grp & Hlast & Hgrp & Egl & Hgs & Hsz & Hmem) Hgm].
  pose proof (LQ_NoDup s past L Q GG owner x Hi) as HnQ. destruct (last_newest s past L Q GG owner x Hi) as (q & Hq & HqL).
  assert (Estep : step c s L y = stepped (exit_try L L st (Some h) s)) by (unfold step; by rewrite Hpc). unfold exit_try in Estep.
  rewrite Hgrp in Estep. cbn [mbind option_bind] in Estep. rewrite Egl in Estep. case_bool_decide as Eh.
  2:{ assert (g <> k) by (intros ->; congruence). eapply (exit_more_step s past L Q GG owner x y Hi L st h g m k); try done. lia. }
  injection Eh as ->. rewrite Hq in Estep. case_bool_decide as En.
  - injection En as ->. assert (g = length Q) as -> by (by eapply NoDup_lookup; [exact HnQ|..]). cbn [stepped] in Estep.
    destruct (group_detach s (goto L (ExitDone L st last) (set_newest None s)) past L Q [] GG owner x st last 0 m 0 0) as (past' & GG' & owner' & Hd); rewrite ?app_nil_r; try done.
    + exact (proj1 Hg).
    + exact (proj2 Hr).
    + by left.
    + intros t Ht. cbn. by rewrite lookup_insert_ne.
    + cbn. by rewrite lookup_insert_eq.
    + rewrite last_lookup. exact Hlast.
    + by eexists _, past', [], GG', owner', nothing.
  - cbn [mbind option_bind stepped] in Estep. assert (Hne : g <> length Q) by (intros ->; congruence). apply lookup_lt_Some in Hlast as Hgl. cbn in Hgl.
    eapply (exit_more_step s past L Q GG owner x y Hi L st q g m (length Q)); try done. lia.
Qed.

Lemma exit_signal_step g' st : pcs s !! L = Some (ExitSignal g' st) -> lead s (L :: Q) L (ExitSignal g' st) x -> keeps s L y.
Proof.
  intros Hpc (-> & g & m & Hg & Hr & Hx & Hgm'). pose proof Hg as [(last & grp & Hlast & Hgrp & Egl & Hgs & Hsz & Hmem) Hgm].
  pose proof (LQ_NoDup s past L Q GG owner x Hi) as HnQ. pose proof Hr as [Hm Hl]. cbn in Hm.
  destruct (lookup_lt_is_Some_2 Q g) as [N HN]; [lia|]. assert (HNQ : (L :: Q) !! S g = Some N) by done. destruct (Hl _ _ HNQ) as (w & Hw & _).
  destruct (Hl g last Hlast) as (v & Hv & _ & _ & Hnew). unfold newer_at in Hnew. rewrite decide_True in Hnew by lia. rewrite HNQ in Hnew.
  assert (Estep : step c s L y = stepped (exit_signal L L st s)) by (unfold step; by rewrite Hpc). unfold exit_signal in Estep.
  rewrite Hgrp in Estep. cbn [mbind option_bind] in Estep. rewrite Egl, Hv in Estep. cbn [mbind option_bind] in Estep. rewrite Hnew in Estep. cbn [mbind option_bind] in Estep.
  unfold SetState in Estep. rewrite (store_eq _ _ _ w Hw) in Estep. cbn [mbind option_bind stepped] in Estep. set (s' := goto L _ _) in Estep.
  assert (HQ : Q = take g Q ++ drop g Q) by (by rewrite take_drop). assert (HB : drop g Q = N :: drop (S g) Q) by (by apply drop_S).
  assert (Hlen : length (take g Q) = g) by (rewrite length_take; lia).
  destruct (group_detach s s' past L (take g Q) (drop g Q) GG owner x st last (S g) m 0 0) as (past' & GG' & owner' & Hd); rewrite <- ?HQ, ?Hlen; try done.
  - exact (proj1 Hg).
  - by right.
  - cbn. rewrite (fr_newest _ _ _ (in_front _ _ _ _ _ _ Hi)).
    transitivity (list.last ((L :: take g Q) ++ drop g Q)); [cbn [app]; by rewrite <- HQ|]. rewrite HB. by rewrite last_app_cons.
  - intros t Ht. cbn. by rewrite lookup_insert_ne.
  - cbn. by rewrite lookup_insert_eq.
  - rewrite last_lookup. cbn [length pred]. rewrite Hlen. destruct g as [|g]; [done|]. change (take (S g) Q !! g = Some last). rewrite lookup_take_lt by lia. exact Hlast.
  - intros t Ht. rewrite HB in Ht. cbn. rewrite lookup_insert_ne; [done|]. intros ->. by apply Ht.
  - rewrite HB. split; [unfold state_is; cbn; by rewrite lookup_insert_eq|]. rewrite <- HB. exists (m - S g)%nat.
    eapply (resting_signal s s' _ _ N w); [|done|intros t _ Ht; cbn; by rewrite lookup_insert_ne|cbn; by rewrite lookup_insert_eq].
    replace (S g) with (length (L :: take g Q)) by (cbn; lia). apply resting_drop; [done|cbn; lia|]. cbn [app length]. rewrite <- HQ, Hlen. done.
  - by eexists _, past', (drop g Q), GG', owner', nothing.
Qed.

Lemma alone_detach s' B : Q = B -> alone L -> x = nothing -> linked s' = linked s -> newest_writer_ s' = list.last B -> wal s' = wal s -> mem s' = mem s ->
  last_sequence s' = last_sequence s -> (forall t, t <> L -> pcs s' !! t = pcs s !! t) -> pcs s' !! L = Some (Returned OK) ->
  (forall t, t <> L -> head B <> Some t -> writers s' !! t = writers s !! t) ->
  match B with [] => True | N :: _ => state_is s' N STATE_GROUP_LEADER /\ exists m, resting s' B 0 m end ->
  inv s' (past ++ [L]) B GG owner nothing.
Proof.
  intros HB Ha Hx El En Ew Em Eq Hp HpL Hw Hst. rewrite Hx, HB in Hi. pose proof (detach s s' past L [] B GG [] owner Hi El En Ew Em Eq Hp) as Hd. rewrite app_nil_r in Hd. cbn [own foldr] in Hd.
  apply Hd; try done; [by left| |intros st cur E; congruence|by intros f Hf%elem_of_nil].
  unfold left. assert (owner !! L = None) as ->.
  { destruct (owner !! L) as [L'|] eqn:E; [|done]. destruct (re_owner _ _ _ _ _ (in_rest _ _ _ _ _ _ Hi) L L' E) as [HL _].
    destruct (detach_past s past L [] B GG [] owner Hi L HL) as [H _]. destruct H. left. }
  right. right. exists OK. split; [done|]. congruence.
Qed.

Lemma alone_step : pcs s !! L = Some Alone -> lead s (L :: Q) L Alone x -> keeps s L y.
Proof.
  intros Hpc (Hx & Ha & m & Hm & Hl). destruct (last_newest s past L Q GG owner x Hi) as (q & Hq & HqL).
  assert (Estep : step c s L y = stepped (ExitUnbatched L s)) by (unfold step; by rewrite Hpc). unfold ExitUnbatched in Estep. rewrite Hq in Estep.
  case_bool_decide as E.
  - injection E as ->. pose proof (NoDup_lookup (L :: Q) 0 (length Q) L (LQ_NoDup s past L Q GG owner x Hi) eq_refl HqL) as HQ. assert (EQ : Q = []) by (by destruct Q).
    eexists _, (past ++ [L]), [], GG, owner, nothing. split; [exact Estep|]. apply (alone_detach _ []); try done.
    + intros t Ht. cbn. by rewrite lookup_insert_ne.
    + cbn. by rewrite lookup_insert_eq.
    + intros t Ht _. cbn. by rewrite lookup_delete_ne.
  - cbn [mbind option_bind stepped] in Estep. apply (keeps_goto s past L Q GG owner x y Hi (AloneLinks q)); [exact Estep|]. split; [done|]. split; [done|]. cbn in Hm.
    exists m, (length Q). assert (Hpos : (0 < length Q)%nat) by (destruct Q; [cbn in HqL; congruence|cbn; lia]). split; [|done]. exists (length Q). split; [done|]. split; [lia|]. split; [cbn; lia|].
    intros i u Hu. destruct (Hl i u Hu) as (w & Hw & H1 & H2 & H3). exists w. split_and!; try done. rewrite H3. apply newer_at_iff. lia.
Qed.

Lemma alone_signal_step next : pcs s !! L = Some (AloneSignal next) -> lead s (L :: Q) L (AloneSignal next) x -> keeps s L y.
Proof.
  intros Hpc (Hx & Ha & m & Hr & Hm & Hnext). pose proof (LQ_NoDup s past L Q GG owner x Hi) as HnQ. destruct (proj2 Hr _ _ Hnext) as (w & Hw & _).
  assert (EQ : exists Q', Q = next :: Q') by (destruct Q as [|N Q']; [done|injection Hnext as ->; by exists Q']). destruct EQ as [Q' EQ].
  assert (HnLQ : L ∉ Q) by (by apply NoDup_cons in HnQ as [? _]). assert (HnL : next <> L) by (intros ->; apply HnLQ; rewrite EQ; left).
  assert (Estep : step c s L y = stepped (s0 ← SetState next STATE_GROUP_LEADER s; Some (leave L OK s0))) by (unfold step; by rewrite Hpc).
  unfold SetState in Estep. rewrite (store_eq _ _ _ w Hw) in Estep. cbn [mbind option_bind stepped] in Estep.
  eexists _, (past ++ [L]), (next :: Q'), GG, owner, nothing. split; [exact Estep|]. apply alone_detach; try done.
  - cbn [newest_writer_ leave goto set_groups set_writers]. rewrite (fr_newest _ _ _ (in_front _ _ _ _ _ _ Hi)), EQ. done.
  - intros t Ht. cbn. by rewrite lookup_insert_ne.
  - cbn. by rewrite lookup_insert_eq.
  - intros t Ht Hh. cbn. rewrite lookup_delete_ne, lookup_insert_ne; [done|by intros ->|done].
  - split; [unfold state_is; cbn; by rewrite lookup_delete_ne, lookup_insert_eq|]. exists (m - 1)%nat. rewrite <- EQ.
    eapply (resting_signal s _ _ _ next w); [|done| |cbn; by rewrite lookup_delete_ne, lookup_insert_eq].
    + apply (resting_drop s [L] Q m); [done|cbn; lia|done].
    + intros t Ht Hne. cbn. rewrite lookup_delete_ne, lookup_insert_ne; [done|done|]. by intros ->.
Qed.
End Exits.

(** ** All steps *)

Context (Hins : forall t, c_insert c t = OK).
Context (Hcount : forall t, 0 <= count t) (Hlast0 : 0 <= last0) (Hbound : last0 + total (seq 0 n) <= 2 ^ 56 - 1).

(** The leader can always go on. *)
Lemma leader_keeps s past L Q GG owner x y : c_allow_concurrent_memtable_write c = false \/ Q = [] -> inv s past (L :: Q) GG owner x -> keeps s L y.
Proof.
  intros Hpar Hi. destruct (fr_lead _ _ _ (in_front _ _ _ _ _ _ Hi)) as (p & Hpc & Hl). destruct p; try done;
    eauto using linked_leader_step, wake_step, joined_step, lead_start_step, enter_start_step, enter_links_step, enter_next_step, write_log_step, insert_group_step,
      exit_sequence_step, exit_start_step, exit_try_step, exit_links_step, exit_hand_step, exit_signal_step, alone_step, alone_links_step, alone_hand_step, alone_signal_step.
Qed.

Lemma outside_keeps s past Q GG owner x t y : inv s past Q GG owner x -> (t < n)%nat -> t ∉ past ++ Q -> keeps s t y.
Proof.
  intros Hi Htn Ht. destruct (re_outside _ _ _ _ _ (in_rest _ _ _ _ _ _ Hi) t Htn Ht) as [Hpc|(old & w & Hpc & _)].
  - destruct (join_step s past Q GG owner x t y Hi Hpc Ht) as (s' & E & Hi'). by exists s', past, Q, GG, owner, x.
  - destruct (try_step s past Q GG owner x t old y Hi Hpc Ht) as (s' & Q' & E & Hi'). by exists s', past, Q', GG, owner, x.
Qed.

(** A thread that has left the queue waits for its leader, has returned, or can go on. *)
Lemma left_step s past Q GG owner x t y : inv s past Q GG owner x -> t ∈ past ->
  (step c s t y = Blocked /\ exists L, owner !! t = Some L) \/ (exists st, pcs s !! t = Some (Returned st)) \/ keeps s t y.
Proof.
  intros Hi Ht. pose proof (re_left _ _ _ _ _ (in_rest _ _ _ _ _ _ Hi) t Ht) as Hl. unfold left in Hl. destruct (owner !! t) as [L|] eqn:Eo.
  - left. split; [|by eexists]. destruct Hl as ([Hpc Hs] & Hb & _). unfold step. rewrite Hpc. unfold state_is in Hs. destruct (writers s !! t) as [w|]; [|done].
    injection Hs as ->. unfold goal_mask. by rewrite Hb.
  - right. destruct Hl as [(w & Hw & Hst & Hb & _ & [Hpc|Hpc])|[(st & cur & w & Hpc & _)|(st & Hpc & _)]]; [right..|left; by exists st].
    + destruct (woken_step s past Q GG owner x t y Hi Ht Hpc) as [E|(s' & E & Hi')]; [|by exists s', past, Q, GG, owner, x].
      unfold step in E. rewrite Hpc, Hw, Hst in E. unfold goal_mask in E. by rewrite Hb in E.
    + destruct (completed_step s past Q GG owner x t y Hi Ht Hpc) as (s' & E & Hi'). by exists s', past, Q, GG, owner, x.
    + destruct (done_step s past Q GG owner x t st cur y Hi Ht Hpc) as (s' & owner' & E & Hi'). by exists s', past, Q, GG, owner', x.
Qed.

Lemma waiting_blocked s t y : awaiting s t -> step c s t y = Blocked.
Proof.
  intros [Hpc Hs]. unfold step. rewrite Hpc. unfold state_is in Hs. destruct (writers s !! t) as [w|]; [|done]. injection Hs as ->.
  unfold goal_mask. by destruct (is_unbatched c t).
Qed.

(** The memtable is written by leaders only, whatever the interleaving; or no other call of a
    write is under way, as where one thread writes. *)
Definition may_step s t : Prop :=
  c_allow_concurrent_memtable_write c = false \/
  forall u, u <> t -> pcs s !! u = None \/ pcs s !! u = Some JoinStart \/ exists st, pcs s !! u = Some (Returned st).

Lemma leader_may_step s past L Q GG owner x : inv s past (L :: Q) GG owner x -> may_step s L -> c_allow_concurrent_memtable_write c = false \/ Q = [].
Proof.
  intros Hi [Hc|Ha]; [by left|]. right. destruct Q as [|q Q]; [done|]. destruct (fr_wait _ _ _ (in_front _ _ _ _ _ _ Hi) 0%nat q eq_refl) as [Hpc _].
  pose proof (LQ_NoDup s past L (q :: Q) GG owner x Hi) as Hn. apply NoDup_cons in Hn as [Hn _].
  destruct (Ha q) as [E|[E|[st E]]]; [intros ->; apply Hn; left|congruence..].
Qed.

Lemma step_ok s past Q GG owner x t y : may_step s t -> inv s past Q GG owner x -> step c s t y = Blocked \/ keeps s t y.
Proof.
  intros Hm Hi. destruct (decide (t < n)%nat) as [Htn|Htn].
  2:{ left. unfold step. destruct (pcs s !! t) eqn:E; [|done]. destruct Htn. apply (in_threads _ _ _ _ _ _ Hi). by eexists. }
  destruct (decide (t ∈ past)) as [Hp|Hp].
  { destruct (left_step s past Q GG owner x t y Hi Hp) as [[? _]|[[st Hst]|?]]; [by left|left; unfold step; by rewrite Hst|by right]. }
  destruct (decide (t ∈ Q)) as [[i Hq]%list_elem_of_lookup|HQ]; [|right; eapply outside_keeps; [done..|]; rewrite elem_of_app; tauto].
  destruct Q as [|L Q]; [done|]. destruct i as [|i].
  - injection Hq as ->. right. eapply leader_keeps; [|done]. by eapply leader_may_step.
  - left. apply waiting_blocked. by apply (fr_wait _ _ _ (in_front _ _ _ _ _ _ Hi) i).
Qed.

(** Runs of [n] threads of this kind. *)
Inductive serial_run : WriteThread -> Prop :=
  | serial_new : serial_run (WriteThread_new n last0)
  | serial_step s t y s' : serial_run s -> may_step s t -> step c s t y = Stepped s' -> serial_run s'.

Lemma inv_new : inv (WriteThread_new n last0) [] [] [] ∅ nothing.
Proof.
  assert (Hp : forall t, pcs (WriteThread_new n last0) !! t = if decide (t < n)%nat then Some JoinStart else None).
  { intros t. cbn. destruct (decide (t < n)%nat) as [Ht|Ht].
    - apply elem_of_list_to_map; [|apply list_elem_of_fmap; exists t; split; [done|]; apply elem_of_seq; lia].
      rewrite <- list_fmap_compose. unfold compose. cbn. rewrite list_fmap_id. apply NoDup_seq.
    - apply not_elem_of_list_to_map. rewrite <- list_fmap_compose. unfold compose. cbn. rewrite list_fmap_id, elem_of_seq. lia. }
  split; [done|constructor| |constructor|by split| |].
  - intros t. rewrite Hp. destruct (decide (t < n)%nat); [split; [done|by eexists]|split; [by intros [? ?]|done]].
  - split; [|by intros t ?%elem_of_nil|done|by intros t ?%elem_of_nil]. intros t Ht _. left. rewrite Hp. by rewrite decide_True.
  - split; cbn; [done|done|lia|done|constructor].
Qed.

Lemma serial_run_inv s : serial_run s -> exists past Q GG owner x, inv s past Q GG owner x.
Proof.
  induction 1 as [|s t y s' _ (past & Q & GG & owner & x & Hi) Hm E]; [eexists _, _, _, _, _; exact inv_new|].
  destruct (step_ok s past Q GG owner x t y Hm Hi) as [E'|(s2 & past' & Q' & GG' & owner' & x' & E' & Hi')]; [congruence|].
  rewrite E in E'. injection E' as <-. by exists past', Q', GG', owner', x'.
Qed.
End Correct.
