(* ===== verification/GroupCommit.v ===== *)
(** * What group commit promises

    Theorems about the write threads of [db/write_thread.cc] and [DBImpl::WriteImpl]: the
    serial order of concurrent writes and the absence of deadlocks, where insertions into the
    memtable succeed and are made by leaders alone or writes do not overlap; and what is
    wrong with groups that write the memtable in parallel and with failed insertions. *)

From S2P Require Import Prelude Coding WriteBatch WriteThread WriteThreadCorrect.

(** Insertions into the memtable succeed, and the sequence numbers suffice. *)
Record insertions_ok (c : Config) (n : nat) (last : Z) : Prop := {
  sw_insert : forall t, c_insert c t = OK;
  sw_count : forall t, 0 <= batch_count c t;
  sw_last : 0 <= last;
  sw_bound : last + total c (seq 0 n) <= 2 ^ 56 - 1
}.



Section Facts.
Context (c : Config) (n : nat) (last : Z).
Context (s : WriteThread) (past Q : list nat) (GG : history) (owner : gmap nat nat) (x : progress) (Hi : inv c n last s past Q GG owner x).





End Facts.



(** ** Runs *)

Lemma run_reachable c n last s l y s' : reachable c n last s -> run c s l y = Stepped s' -> reachable c n last s'.
Proof.
  revert s. induction l as [|t l IH]; intros s Hr; cbn [run]; [by intros [= <-]|].
  destruct (step c s t y) as [| |s1] eqn:E; [done|done|]. intros. by eapply IH; [eapply reachable_step|].
Qed.

Lemma run_steps c n last l y s : run c (WriteThread_new n last) l y = Stepped s -> reachable c n last s.
Proof. intros. by eapply run_reachable; [apply reachable_new|]. Qed.

(** A step changes the program counter of its thread only. *)
Lemma store_pcs t f s s' : store t f s = Some s' -> pcs s' = pcs s.
Proof. unfold store. intros (w & _ & [= <-])%bind_Some. done. Qed.

Lemma missing_link_pcs h s x s' : missing_link h s = Some (x, s') -> pcs s' = pcs s.
Proof.
  unfold missing_link. intros (w & _ & E)%bind_Some. destruct (w_link_older w); [|by injection E as _ <-]. apply bind_Some in E as (v & _ & E).
  destruct (w_link_newer v); [unfold assert in E; destruct (_ =? _)%nat; [by injection E as _ <-|done]|]. apply bind_Some in E as (s1 & E1 & [= _ <-]). by apply store_pcs in E1.
Qed.

Lemma assign_pcs c ws q s s' : assign_sequences c ws q s = Some s' -> pcs s' = pcs s.
Proof.
  revert q s. induction ws as [|w ws IH]; intros q s; cbn [assign_sequences]; [by intros [= <-]|]. intros (s1 & E1 & E)%bind_Some.
  rewrite (IH _ _ E). by apply store_pcs in E1.
Qed.

Lemma insert_pcs c ws q s r s' : insert_members c ws q s = Some (r, s') -> pcs s' = pcs s.
Proof.
  revert q s. induction ws as [|w ws IH]; intros q s; cbn [insert_members]; [by intros [= _ <-]|]. intros (s1 & E1 & E)%bind_Some. apply store_pcs in E1.
  destruct (ShouldWriteToMemtable s w); [|by rewrite (IH _ _ E)]. apply bind_Some in E as (s2 & E2 & E). apply store_pcs in E2.
  destruct (ok _); [rewrite (IH _ _ E); cbn; congruence|]. injection E as _ <-. congruence.
Qed.

Ltac inv_step := repeat match goal with
  | H : stepped _ = Stepped _ |- _ => unfold stepped in H
  | H : Stepped _ = Stepped _ |- _ => injection H as <-
  | H : Some _ = Some _ |- _ => injection H; clear H; intros; subst
  | H : (_ ≫= _) = Some _ |- _ => apply bind_Some in H as (? & ? & H)
  | H : assert _ _ = Some _ |- _ => unfold assert in H
  | H : store _ _ _ = Some _ |- _ => apply store_pcs in H
  | H : SetState _ _ _ = Some _ |- _ => unfold SetState in H
  | H : SetLastSequence _ _ = Some _ |- _ => unfold SetLastSequence in H
  | H : set_group_status _ _ _ = Some _ |- _ => unfold set_group_status in H
  | H : missing_link _ _ = Some (_, _) |- _ => apply missing_link_pcs in H
  | H : assign_sequences _ _ _ _ = Some _ |- _ => apply assign_pcs in H
  | H : insert_members _ _ _ _ = Some (_, _) |- _ => apply insert_pcs in H
  | H : context [match ?e with _ => _ end] |- _ => destruct e eqn:?; try done
  end.

Lemma step_pcs c s t y s' : step c s t y = Stepped s' -> forall u, u <> t -> pcs s' !! u = pcs s !! u.
Proof.
  intros E u Hu. assert (Hp : exists p, pcs s' = <[t := p]> (pcs s)); [|destruct Hp as [p ->]; by rewrite lookup_insert_ne].
  unfold step in E. destruct (pcs s !! t) as [p|]; [|done].
  destruct p; try done; unfold LinkOne_try, joined, EnterAsBatchGroupLeader, EnterAsBatchGroupLeader_next, write_log, insert_group, launch_next, launch_inc, parallel_insert, parallel_done,
    parallel_leave, publish, follower_sequence, ExitAsBatchGroupFollower, exit_start, exit_try, exit_hand, exit_signal, exit_done, follower_signal,
    ExitUnbatched, alone_hand, leave in E; inv_step; eexists; cbn;
    repeat match goal with |- context [pcs (if ?b then _ else _)] => destruct b | H : context [pcs (if ?b then _ else _)] |- _ => destruct b end; cbn;
    repeat match goal with H : pcs _ = _ |- _ => cbn in H; rewrite H; clear H end; reflexivity.
Qed.

(** Threads that are not there take no steps. *)
Lemma no_pc c n last s t : insertions_ok c n last -> serial_run c n last s -> (n <= t)%nat -> pcs s !! t = None.
Proof.
  intros [H2 H3 H4 H5] Hr Ht. destruct (serial_run_inv c n last H2 H3 H4 H5 s Hr) as (past & Q & GG & owner & x & Hi).
  destruct (pcs s !! t) eqn:E; [|done]. assert (Hs : is_Some (pcs s !! t)) by (by rewrite E). apply (in_threads _ _ _ _ _ _ _ _ _ Hi) in Hs. lia.
Qed.

Lemma no_thread c n last s t y : insertions_ok c n last -> serial_run c n last s -> (n <= t)%nat -> step c s t y = Blocked.
Proof. intros Hok Hr Ht. unfold step. by rewrite (no_pc c n last s t). Qed.

(** Two threads that put one key each, and the statuses of their insertions. *)
Definition example_batch : WriteBatch := (WriteBatch_Put (WriteBatch_new 0 0) 0 [97] [1]).2.
Definition example_config (concurrent : bool) (insert : nat -> Status) : Config :=
  mkConfig (fun _ => mkJob (Some example_batch) false false false) concurrent 1000 insert.
Definition example_choice : choice := mkChoice false OK (mkLogIO OK true [OK] false OK).
Definition example_run (c : Config) (l : list nat) : WriteThread :=
  match run c (WriteThread_new 2 0) l example_choice with Stepped s => s | _ => WriteThread_new 2 0 end.

Lemma example_reachable c l : reachable c 2 0 (example_run c l).
Proof.
  unfold example_run. destruct (run c _ l _) eqn:E; [apply reachable_new..|]. by eapply run_steps.
Qed.

Lemma example_ok concurrent : insertions_ok (example_config concurrent (fun _ => OK)) 2 0.
Proof. split; try done. Qed.

(** With leaders that write the memtable, all runs are of the kind of the theorems. *)
Lemma reachable_serial c n last s : c_allow_concurrent_memtable_write c = false -> reachable c n last s -> serial_run c n last s.
Proof. intros Hc. induction 1 as [|s t y s' _ IH E]; [apply serial_new|]. eapply serial_step; [exact IH|by left|exact E]. Qed.

(** In any configuration, so are runs of one write after the other. *)
Definition others_idle (s : WriteThread) (t : nat) : Prop :=
  forall u, u <> t -> pcs s !! u = None \/ pcs s !! u = Some JoinStart \/ exists st, pcs s !! u = Some (Returned st).


(** Where leaders are not alone in writing the memtable, at most one write is under way. *)
Lemma one_active c n last s : serial_run c n last s -> c_allow_concurrent_memtable_write c = false \/ exists t, others_idle s t.
Proof.
  induction 1 as [|s t y s' _ IH [Hc|Ho] E]; [|by left|].
  - right. exists O. intros u _. cbn. destruct (list_to_map _ !! u) as [p|] eqn:E; [|by left]. right. left. apply elem_of_list_to_map_2, list_elem_of_fmap in E as (? & [= _ ->] & _). done.
  - right. exists t. intros u Hu. rewrite (step_pcs _ _ _ _ _ E) by done. by apply Ho.
Qed.

Section Progress.
Context (c : Config) (n : nat) (last : Z) (Hok : insertions_ok c n last).
Context (s : WriteThread) (past Q : list nat) (GG : history) (owner : gmap nat nat) (x : progress) (Hi : inv c n last s past Q GG owner x) (y : choice).

(** A thread without a leader to wait for. *)
Lemma owner_steps t L : t ∈ past -> owner !! t = Some L -> keeps c n last s L y /\ L <> t /\ exists st cur, pcs s !! L = Some (ExitDone L st cur).
Proof.
  intros Ht HL. destruct (re_owner _ _ _ _ _ _ _ (in_rest _ _ _ _ _ _ _ _ _ Hi) t L HL) as [_ HLp].
  pose proof (re_left _ _ _ _ _ _ _ (in_rest _ _ _ _ _ _ _ _ _ Hi) t Ht) as Hl. unfold left in Hl. rewrite HL in Hl. destruct Hl as ([Hpt _] & _ & st & cur & Hpc & _).
  destruct (done_step c n last s past Q GG owner x L st cur y Hi HLp Hpc) as (s' & owner' & E & Hi'). split_and!; [by exists s', past, Q, GG, owner', x|congruence|by eexists _, _].
Qed.

Lemma thread_cases t : (t < n)%nat -> (c_allow_concurrent_memtable_write c = false \/ others_idle s t) ->
  (exists st, pcs s !! t = Some (Returned st)) \/ exists u, may_step c s u /\ keeps c n last s u y.
Proof.
  destruct Hok as [H2 H3 H4 H5]. intros Ht Hm.
  assert (Hmt : may_step c s t) by (destruct Hm; [by left|by right]).
  assert (Hlead : forall L Q', Q = L :: Q' -> L = t \/ c_allow_concurrent_memtable_write c = false).
  { intros L Q' ->. destruct Hm as [|Hm]; [by right|]. destruct (decide (L = t)) as [|HL]; [by left|]. exfalso.
    destruct (fr_lead _ _ _ _ (in_front _ _ _ _ _ _ _ _ _ Hi)) as (p & Hpc & Hl). destruct (Hm L HL) as [E|[E|[st E]]]; rewrite E in Hpc; [done|injection Hpc as <-; done..]. }
  destruct (decide (t ∈ past)) as [Hp|Hp].
  { destruct (left_step c n last s past Q GG owner x t y Hi Hp) as [[_ [L HL]]|[?|?]]; [|by left|right; by exists t].
    destruct (owner_steps t L Hp HL) as (Hk & HLt & st & cur & Hpc). destruct Hm as [Hc|Hm]; [right; exists L; split; [by left|done]|].
    destruct (Hm L HLt) as [E|[E|[? E]]]; congruence. }
  right. destruct Q as [|L Q'] eqn:EQ; [exists t; split; [done|]; eapply outside_keeps; [exact Hi|done|]; by rewrite app_nil_r|].
  destruct (Hlead L Q' eq_refl) as [->|Hc].
  - exists t. split; [done|]. eapply leader_keeps; [done..| |exact Hi]. by eapply leader_may_step.
  - exists L. split; [by left|]. eapply leader_keeps; [done..|by left|exact Hi].
Qed.

Lemma someone_steps t : (t < n)%nat -> c_allow_concurrent_memtable_write c = false \/ (exists a, others_idle s a) ->
  (exists st, pcs s !! t = Some (Returned st)) \/ exists u, may_step c s u /\ keeps c n last s u y.
Proof.
  intros Ht [Hc|[a Ha]]; [apply thread_cases; [done|by left]|]. destruct (decide (t = a)) as [->|Hta]; [apply thread_cases; [done|by right]|].
  destruct (Ha t Hta) as [E|[E|?]]; [|destruct (pcs s !! a) as [p|] eqn:Ea|by left].
  - assert (Hs : is_Some (pcs s !! t)) by (by apply (in_threads _ _ _ _ _ _ _ _ _ Hi)). rewrite E in Hs. by destruct Hs.
  - destruct (thread_cases a) as [[st Hst]|?]; [apply (in_threads _ _ _ _ _ _ _ _ _ Hi); by eexists|by right| |by right].
    apply thread_cases; [done|]. right. intros u Hu. destruct (decide (u = a)) as [->|]; [right; right; by exists st|by apply Ha].
  - apply thread_cases; [done|]. right. intros u Hu. destruct (decide (u = a)) as [->|]; [by left|by apply Ha].
Qed.
End Progress.


(** C7. Group commit has no deadlock where leaders alone write the memtable or writes do not
    overlap (as in [group_commit_serial]), insertions into it succeed and sequence numbers
    suffice: where no thread that may take a step can take one, whatever the environment
    does, every write has returned. *)
Theorem group_commit_progress c n last s : insertions_ok c n last -> serial_run c n last s -> (forall t y, may_step c s t -> step c s t y = Blocked) ->
  forall t, (t < n)%nat -> exists st, pcs s !! t = Some (Returned st).
Proof.
  intros Hok Hr Hbl t Ht. pose proof Hok as [H2 H3 H4 H5]. destruct (serial_run_inv c n last H2 H3 H4 H5 s Hr) as (past & Q & GG & owner & x & Hi).
  set (y := mkChoice false OK (mkLogIO OK true [] false OK)).
  destruct (someone_steps c n last Hok s past Q GG owner x Hi y t Ht (one_active _ _ _ _ Hr)) as [|(u & Hm & s' & ? & ? & ? & ? & ? & E & _)]; [done|].
  by rewrite Hbl in E.
Qed.

(** ** Witnesses and errors *)

(** Both threads link themselves, the first leads a group of two and returns; then the second. *)
Definition example_leads : list nat := [0; 0; 1; 1]%nat ++ replicate 15 0%nat.

Lemma example_leads_serial l : serial_run (example_config false (fun _ => OK)) 2 0 (example_run (example_config false (fun _ => OK)) l).
Proof. apply reachable_serial; [done|apply example_reachable]. Qed.






Lemma group_commit_progress_witness :
  let s := example_run (example_config false (fun _ => OK)) (example_leads ++ [1; 1]%nat) in exists st, pcs s !! 1%nat = Some (Returned st).
Proof.
  apply (group_commit_progress (example_config false (fun _ => OK)) 2 0 _ (example_ok false) (example_leads_serial _)); [|lia].
  intros t y _. destruct t as [|[|t]]; [vm_compute; reflexivity..|]. apply (no_thread _ 2 0); [exact (example_ok false)|apply example_leads_serial|lia].
Defined.

(** C39. A group that writes the memtable in parallel may publish what was never set: two
    writers reach a state where the follower is the last to finish its insertion and
    [SetLastSequence] is called with the [last_sequence] of the group, whose assignment
    in [WriteImpl] is commented out. *)
Theorem parallel_group_uninitialised : exists c s, reachable c 2 0 s /\ pcs s !! 1%nat = Some FollowerSequence /\
  (g_last_sequence <$> groups s !! 0%nat) = Some None /\ forall y, step c s 1%nat y = Failed.
Proof.
  set (c := example_config true (fun _ => OK)). exists c, (example_run c ([0; 0; 1; 1]%nat ++ replicate 16 0%nat ++ replicate 5 1%nat)).
  split; [apply example_reachable|]. split; [vm_compute; reflexivity|]. split; [vm_compute; reflexivity|]. intros y. vm_compute. reflexivity.
Qed.

(** C40. A write may return OK without being in the memtable: where the insertion of the
    second batch of a group fails, the leader returns the error and completes the follower,
    whose batch is missing, with its own status of the log. *)
Theorem failed_insert_returns_ok : exists c s, reachable c 2 0 s /\ pcs s !! 1%nat = Some (Returned OK) /\
  (1%nat ∉ (mem s).*2) /\ pcs s !! 0%nat = Some (Returned Corruption).
Proof.
  set (c := example_config false (fun t => if (t =? 1)%nat then Corruption else OK)). exists c, (example_run c (example_leads ++ [1; 1]%nat)).
  split; [apply example_reachable|]. split; [vm_compute; reflexivity|]. split; [|vm_compute; reflexivity].
  assert (Hm : (mem (example_run c (example_leads ++ [1; 1]%nat))).*2 = [0%nat]) by (vm_compute; reflexivity). rewrite Hm, list_elem_of_singleton. discriminate.
Qed.
