(* ===== verification/Xxh3.v ===== *)
(** * The 64-bit hash ([util/xxh3p.h], [util/hash.cc])

    [Hash64], which the filters of the newer format use: the preview of XXH3 that RocksDB
    keeps, with its cases by length, the scalar code and the vector code of x86 for long
    keys, and both ways to multiply. Reads outside of the input or the secret and failed
    assertions are [None]. The 128-bit variants are not used and left out. *)

From S2P Require Import Prelude Coding.

Definition PRIME32_1 : Z := 0x9E3779B1.
Definition PRIME32_2 : Z := 0x85EBCA77.
Definition PRIME32_3 : Z := 0xC2B2AE3D.
Definition PRIME64_1 : Z := 0x9E3779B185EBCA87.
Definition PRIME64_2 : Z := 0xC2B2AE3D27D4EB4F.
Definition PRIME64_3 : Z := 0x165667B19E3779F9.
Definition PRIME64_4 : Z := 0x85EBCA77C2B2AE63.
Definition PRIME64_5 : Z := 0x27D4EB2F165667C5.

Definition XXH3p_SECRET_SIZE_MIN : Z := 136.

Definition kSecret : bytes :=
  [0xb8; 0xfe; 0x6c; 0x39; 0x23; 0xa4; 0x4b; 0xbe; 0x7c; 0x01; 0x81; 0x2c; 0xf7; 0x21; 0xad; 0x1c;
   0xde; 0xd4; 0x6d; 0xe9; 0x83; 0x90; 0x97; 0xdb; 0x72; 0x40; 0xa4; 0xa4; 0xb7; 0xb3; 0x67; 0x1f;
   0xcb; 0x79; 0xe6; 0x4e; 0xcc; 0xc0; 0xe5; 0x78; 0x82; 0x5a; 0xd0; 0x7d; 0xcc; 0xff; 0x72; 0x21;
   0xb8; 0x08; 0x46; 0x74; 0xf7; 0x43; 0x24; 0x8e; 0xe0; 0x35; 0x90; 0xe6; 0x81; 0x3a; 0x26; 0x4c;
   0x3c; 0x28; 0x52; 0xbb; 0x91; 0xc3; 0x00; 0xcb; 0x88; 0xd0; 0x65; 0x8b; 0x1b; 0x53; 0x2e; 0xa3;
   0x71; 0x64; 0x48; 0x97; 0xa2; 0x0d; 0xf9; 0x4e; 0x38; 0x19; 0xef; 0x46; 0xa9; 0xde; 0xac; 0xd8;
   0xa8; 0xfa; 0x76; 0x3f; 0xe3; 0x9c; 0x34; 0x3f; 0xf9; 0xdc; 0xbb; 0xc7; 0xc7; 0x0b; 0x4f; 0x1d;
   0x8a; 0x51; 0xe0; 0x4b; 0xcd; 0xb4; 0x59; 0x31; 0xc8; 0x9f; 0x7e; 0xc9; 0xd9; 0x78; 0x73; 0x64;
   0xea; 0xc5; 0xac; 0x83; 0x34; 0xd3; 0xeb; 0xc3; 0xc5; 0x81; 0xa0; 0xff; 0xfa; 0x13; 0x63; 0xeb;
   0x17; 0x0d; 0xdd; 0x51; 0xb7; 0xf0; 0xda; 0x49; 0xd3; 0x16; 0x55; 0x26; 0x29; 0xd4; 0x68; 0x9e;
   0x2b; 0x16; 0xbe; 0x58; 0x7d; 0x47; 0xa1; 0xfc; 0x8f; 0xf8; 0xb8; 0xd1; 0x7a; 0xd0; 0x31; 0xce;
   0x45; 0xcb; 0x3a; 0x8f; 0x95; 0x16; 0x04; 0x28; 0xaf; 0xd7; 0xfb; 0xca; 0xbb; 0x4b; 0x40; 0x7e].

(** [XXH_readLE32] and [XXH_readLE64] at [ptr + off]. *)
Definition XXH_readLE32 (ptr : bytes) (off : Z) : option Z :=
  if (0 <=? off) && (off + 4 <=? zlen ptr) then Some (memcpy_to 4 (drop (Z.to_nat off) ptr)) else None.

Definition XXH_readLE64 (ptr : bytes) (off : Z) : option Z :=
  if (0 <=? off) && (off + 8 <=? zlen ptr) then Some (memcpy_to 8 (drop (Z.to_nat off) ptr)) else None.

Definition byte_at (ptr : bytes) (off : Z) : option Z := if 0 <=? off then ptr !! Z.to_nat off else None.

Definition XXH_mult32to64 (x y : Z) : Z := u64 (Z.land x 0xFFFFFFFF * Z.land y 0xFFFFFFFF).

(** The low and the high half of the product: with a 128-bit type, and without it. *)
Definition XXH_mult64to128_wide (lhs rhs : Z) : Z * Z :=
  let product := (lhs * rhs) mod 2 ^ 128 in (u64 product, u64 (Z.shiftr product 64)).

Definition XXH_mult64to128_portable (lhs rhs : Z) : Z * Z :=
  let lo_lo := XXH_mult32to64 (Z.land lhs 0xFFFFFFFF) (Z.land rhs 0xFFFFFFFF) in
  let hi_lo := XXH_mult32to64 (Z.shiftr lhs 32) (Z.land rhs 0xFFFFFFFF) in
  let lo_hi := XXH_mult32to64 (Z.land lhs 0xFFFFFFFF) (Z.shiftr rhs 32) in
  let hi_hi := XXH_mult32to64 (Z.shiftr lhs 32) (Z.shiftr rhs 32) in
  let cross := u64 (u64 (Z.shiftr lo_lo 32 + Z.land hi_lo 0xFFFFFFFF) + lo_hi) in
  let upper := u64 (u64 (Z.shiftr hi_lo 32 + Z.shiftr cross 32) + hi_hi) in
  let lower := Z.lor (u64 (Z.shiftl cross 32)) (Z.land lo_lo 0xFFFFFFFF) in
  (lower, upper).

(** How the code is compiled: with a 128-bit type, and with vectors of [lanes] 64-bit lanes
    (2 with SSE2, 4 with AVX2) or without. *)
Inductive XXH_VECTOR := XXH_SCALAR | XXH_SSE2 | XXH_AVX2.
Record Build := mkBuild { has_int128 : bool; vector : XXH_VECTOR }.

Section Hash.
Context (build : Build).

Definition XXH_mult64to128 (lhs rhs : Z) : Z * Z :=
  if has_int128 build then XXH_mult64to128_wide lhs rhs else XXH_mult64to128_portable lhs rhs.

Definition XXH3p_mul128_fold64 (lhs rhs : Z) : Z :=
  let product := XXH_mult64to128 lhs rhs in Z.lxor product.1 product.2.

Definition XXH3p_avalanche (h64 : Z) : Z :=
  let h64 := Z.lxor h64 (Z.shiftr h64 37) in
  let h64 := u64 (h64 * PRIME64_3) in
  Z.lxor h64 (Z.shiftr h64 32).

(** ** Short keys *)

Definition XXH3p_len_1to3_64b (input secret : bytes) (seed : Z) : option Z :=
  let len := zlen input in
  c1 ← byte_at input 0;
  c2 ← byte_at input (Z.shiftr len 1);
  c3 ← byte_at input (len - 1);
  s ← XXH_readLE32 secret 0;
  let combined := Z.lor (Z.lor (Z.lor c1 (u32 (Z.shiftl c2 8))) (u32 (Z.shiftl c3 16))) (u32 (Z.shiftl len 24)) in
  let keyed := Z.lxor combined (u64 (s + seed)) in
  let mixed := u64 (keyed * PRIME64_1) in
  Some (XXH3p_avalanche mixed).

Definition XXH3p_len_4to8_64b (input secret : bytes) (seed : Z) : option Z :=
  let len := zlen input in
  input_lo ← XXH_readLE32 input 0;
  input_hi ← XXH_readLE32 input (len - 4);
  s ← XXH_readLE64 secret 0;
  let input_64 := Z.lor input_lo (u64 (Z.shiftl input_hi 32)) in
  let keyed := Z.lxor input_64 (u64 (s + seed)) in
  let mix64 := u64 (len + u64 (Z.lxor keyed (Z.shiftr keyed 51) * PRIME32_1)) in
  Some (XXH3p_avalanche (u64 (Z.lxor mix64 (Z.shiftr mix64 47) * PRIME64_2))).

Definition XXH3p_len_9to16_64b (input secret : bytes) (seed : Z) : option Z :=
  let len := zlen input in
  i0 ← XXH_readLE64 input 0;
  i1 ← XXH_readLE64 input (len - 8);
  s0 ← XXH_readLE64 secret 0;
  s1 ← XXH_readLE64 secret 8;
  let input_lo := Z.lxor i0 (u64 (s0 + seed)) in
  let input_hi := Z.lxor i1 (u64 (s1 - seed)) in
  let acc := u64 (u64 (len + u64 (input_lo + input_hi)) + XXH3p_mul128_fold64 input_lo input_hi) in
  Some (XXH3p_avalanche acc).

Definition XXH3p_len_0to16_64b (input secret : bytes) (seed : Z) : option Z :=
  let len := zlen input in
  if 16 <? len then None
  else if 8 <? len then XXH3p_len_9to16_64b input secret seed
  else if 4 <=? len then XXH3p_len_4to8_64b input secret seed
  else if negb (len =? 0) then XXH3p_len_1to3_64b input secret seed
  else s ← XXH_readLE64 secret 0; Some (XXH3p_mul128_fold64 (u64 (seed + s)) PRIME64_2).

(** ** Keys of up to 240 bytes *)

Definition XXH3p_mix16B (input : bytes) (ioff : Z) (secret : bytes) (soff : Z) (seed64 : Z) : option Z :=
  input_lo ← XXH_readLE64 input ioff;
  input_hi ← XXH_readLE64 input (ioff + 8);
  s0 ← XXH_readLE64 secret soff;
  s1 ← XXH_readLE64 secret (soff + 8);
  Some (XXH3p_mul128_fold64 (Z.lxor input_lo (u64 (s0 + seed64))) (Z.lxor input_hi (u64 (s1 - seed64)))).

(** [acc += XXH3p_mix16B(input + ioff, secret + soff, seed)] for each pair of offsets. *)
Fixpoint mix_all (input secret : bytes) (seed : Z) (offs : list (Z * Z)) (acc : Z) : option Z :=
  match offs with
  | [] => Some acc
  | (ioff, soff) :: offs' => m ← XXH3p_mix16B input ioff secret soff seed; mix_all input secret seed offs' (u64 (acc + m))
  end.

Definition XXH3p_len_17to128_64b (input secret : bytes) (seed : Z) : option Z :=
  let len := zlen input in
  if (zlen secret <? XXH3p_SECRET_SIZE_MIN) || negb ((16 <? len) && (len <=? 128)) then None
  else
    let offs :=
      (if 32 <? len then
         (if 64 <? len then
            (if 96 <? len then [(48, 96); (len - 64, 112)] else []) ++ [(32, 64); (len - 48, 80)]
          else []) ++ [(16, 32); (len - 32, 48)]
       else []) ++ [(0, 0); (len - 16, 16)] in
    acc ← mix_all input secret seed offs (u64 (len * PRIME64_1));
    Some (XXH3p_avalanche acc).

Definition XXH3p_MIDSIZE_MAX : Z := 240.
Definition XXH3p_MIDSIZE_STARTOFFSET : Z := 3.
Definition XXH3p_MIDSIZE_LASTOFFSET : Z := 17.

Definition XXH3p_len_129to240_64b (input secret : bytes) (seed : Z) : option Z :=
  let len := zlen input in
  if (zlen secret <? XXH3p_SECRET_SIZE_MIN) || negb ((128 <? len) && (len <=? XXH3p_MIDSIZE_MAX)) then None
  else
    let nbRounds := len / 16 in
    acc ← mix_all input secret seed ((fun i => (16 * i, 16 * i)) <$> seqZ 0 8) (u64 (len * PRIME64_1));
    let acc := XXH3p_avalanche acc in
    if nbRounds <? 8 then None
    else
      acc ← mix_all input secret seed ((fun i => (16 * i, 16 * (i - 8) + XXH3p_MIDSIZE_STARTOFFSET)) <$> seqZ 8 (nbRounds - 8)) acc;
      acc ← mix_all input secret seed [(len - 16, XXH3p_SECRET_SIZE_MIN - XXH3p_MIDSIZE_LASTOFFSET)] acc;
      Some (XXH3p_avalanche acc).

(** ** Long keys *)

Definition STRIPE_LEN : Z := 64.
Definition XXH_SECRET_CONSUME_RATE : Z := 8.
Definition ACC_NB : nat := 8.

(** *** The scalar code *)

(** The loop of [XXH3p_accumulate_512] with 64-bit accumulators: [xacc], the input at [ioff]
    and the secret at [soff]. *)
Fixpoint accumulate_scalar (todo i : nat) (input : bytes) (ioff : Z) (secret : bytes) (soff : Z) (xacc : list Z) : option (list Z) :=
  match todo with
  | O => Some xacc
  | S todo' =>
      data_val ← XXH_readLE64 input (ioff + 8 * Z.of_nat i);
      s ← XXH_readLE64 secret (soff + Z.of_nat i * 8);
      let data_key := Z.lxor data_val s in
      a ← xacc !! i;
      let a := u64 (a + data_val) in
      let a := u64 (a + XXH_mult32to64 (Z.land data_key 0xFFFFFFFF) (Z.shiftr data_key 32)) in
      accumulate_scalar todo' (S i) input ioff secret soff (<[i := a]> xacc)
  end.

Fixpoint scramble_scalar (todo i : nat) (secret : bytes) (soff : Z) (xacc : list Z) : option (list Z) :=
  match todo with
  | O => Some xacc
  | S todo' =>
      key64 ← XXH_readLE64 secret (soff + 8 * Z.of_nat i);
      acc64 ← xacc !! i;
      let acc64 := Z.lxor acc64 (Z.shiftr acc64 47) in
      let acc64 := Z.lxor acc64 key64 in
      let acc64 := u64 (acc64 * PRIME32_1) in
      scramble_scalar todo' (S i) secret soff (<[i := acc64]> xacc)
  end.

(** *** The vector code: a register is a list of 64-bit lanes *)

Definition vec_loadu (lanes : nat) (ptr : bytes) (off : Z) : option (list Z) := mapM (fun i => XXH_readLE64 ptr (off + 8 * Z.of_nat i)) (seq 0 lanes).
Definition vec_xor (a b : list Z) : list Z := zip_with Z.lxor a b.
Definition vec_add_epi64 (a b : list Z) : list Z := zip_with (fun x y => u64 (x + y)) a b.
(** The lower halves of the lanes are multiplied. *)
Definition vec_mul_epu32 (a b : list Z) : list Z := zip_with (fun x y => u32 x * u32 y) a b.
Definition vec_srli_epi64 (a : list Z) (n : Z) : list Z := (fun x => Z.shiftr x n) <$> a.
Definition vec_slli_epi64 (a : list Z) (n : Z) : list Z := (fun x => u64 (Z.shiftl x n)) <$> a.
Definition vec_set1_epi32 (lanes : nat) (x : Z) : list Z := replicate lanes (u32 x + 2 ^ 32 * u32 x).
(** In each 128 bits, word [j] of the result is the one that bits [2 * j] and [2 * j + 1] of
    [imm] name. *)
Definition word_of (x y imm j : Z) : Z :=
  let w := Z.land (Z.shiftr imm (2 * j)) 3 in
  if w =? 0 then u32 x else if w =? 1 then Z.shiftr x 32 else if w =? 2 then u32 y else Z.shiftr y 32.
Fixpoint vec_shuffle_epi32 (a : list Z) (imm : Z) : list Z :=
  match a with
  | x :: y :: a' => (word_of x y imm 0 + 2 ^ 32 * word_of x y imm 1) :: (word_of x y imm 2 + 2 ^ 32 * word_of x y imm 3) :: vec_shuffle_epi32 a' imm
  | _ => []
  end.

(** One turn of the loop over registers, on [xacc[i]]. *)
Definition accumulate_vec (lanes : nat) (input : bytes) (ioff : Z) (secret : bytes) (soff : Z) (xacc_i : list Z) : option (list Z) :=
  data_vec ← vec_loadu lanes input ioff;
  key_vec ← vec_loadu lanes secret soff;
  let data_key := vec_xor data_vec key_vec in
  let product := vec_mul_epu32 data_key (vec_shuffle_epi32 data_key 0x31) in
  let sum := vec_add_epi64 xacc_i data_vec in
  Some (vec_add_epi64 product sum).

Definition scramble_vec (lanes : nat) (secret : bytes) (soff : Z) (xacc_i : list Z) : option (list Z) :=
  let prime32 := vec_set1_epi32 lanes PRIME32_1 in
  let shifted := vec_srli_epi64 xacc_i 47 in
  let data_vec := vec_xor xacc_i shifted in
  key_vec ← vec_loadu lanes secret soff;
  let data_key := vec_xor data_vec key_vec in
  let data_key_hi := vec_shuffle_epi32 data_key 0x31 in
  let prod_lo := vec_mul_epu32 data_key prime32 in
  let prod_hi := vec_mul_epu32 data_key_hi prime32 in
  Some (vec_add_epi64 prod_lo (vec_slli_epi64 prod_hi 32)).

(** The loops over the registers of the accumulators. *)
Fixpoint accumulate_regs (todo : nat) (lanes : nat) (input : bytes) (ioff : Z) (secret : bytes) (soff : Z) (acc : list Z) : option (list Z) :=
  match todo with
  | O => Some acc
  | S todo' =>
      r ← accumulate_vec lanes input ioff secret soff (take lanes acc);
      rest ← accumulate_regs todo' lanes input (ioff + 8 * Z.of_nat lanes) secret (soff + 8 * Z.of_nat lanes) (drop lanes acc);
      Some (r ++ rest)
  end.

Fixpoint scramble_regs (todo : nat) (lanes : nat) (secret : bytes) (soff : Z) (acc : list Z) : option (list Z) :=
  match todo with
  | O => Some acc
  | S todo' =>
      r ← scramble_vec lanes secret soff (take lanes acc);
      rest ← scramble_regs todo' lanes secret (soff + 8 * Z.of_nat lanes) (drop lanes acc);
      Some (r ++ rest)
  end.

Definition XXH3p_accumulate_512 (acc : list Z) (input : bytes) (ioff : Z) (secret : bytes) (soff : Z) : option (list Z) :=
  match vector build with
  | XXH_SCALAR => accumulate_scalar ACC_NB 0 input ioff secret soff acc
  | XXH_SSE2 => accumulate_regs 4 2 input ioff secret soff acc
  | XXH_AVX2 => accumulate_regs 2 4 input ioff secret soff acc
  end.

Definition XXH3p_scrambleAcc (acc : list Z) (secret : bytes) (soff : Z) : option (list Z) :=
  match vector build with
  | XXH_SCALAR => scramble_scalar ACC_NB 0 secret soff acc
  | XXH_SSE2 => scramble_regs 4 2 secret soff acc
  | XXH_AVX2 => scramble_regs 2 4 secret soff acc
  end.

(** [for (n = 0; n < nbStripes; n++)], from [n] on. *)
Fixpoint XXH3p_accumulate (todo : nat) (n : Z) (acc : list Z) (input : bytes) (ioff : Z) (secret : bytes) : option (list Z) :=
  match todo with
  | O => Some acc
  | S todo' =>
      acc ← XXH3p_accumulate_512 acc input (ioff + n * STRIPE_LEN) secret (n * XXH_SECRET_CONSUME_RATE);
      XXH3p_accumulate todo' (n + 1) acc input ioff secret
  end.

Fixpoint block_loop (todo : nat) (n : Z) (acc : list Z) (input secret : bytes) (nb_rounds block_len : Z) : option (list Z) :=
  match todo with
  | O => Some acc
  | S todo' =>
      acc ← XXH3p_accumulate (Z.to_nat nb_rounds) 0 acc input (n * block_len) secret;
      acc ← XXH3p_scrambleAcc acc secret (zlen secret - STRIPE_LEN);
      block_loop todo' (n + 1) acc input secret nb_rounds block_len
  end.

Definition XXH_SECRET_LASTACC_START : Z := 7.

Definition XXH3p_hashLong_internal_loop (acc : list Z) (input secret : bytes) : option (list Z) :=
  let len := zlen input in
  let nb_rounds := (zlen secret - STRIPE_LEN) / XXH_SECRET_CONSUME_RATE in
  let block_len := STRIPE_LEN * nb_rounds in
  let nb_blocks := len / block_len in
  if zlen secret <? XXH3p_SECRET_SIZE_MIN then None
  else
    acc ← block_loop (Z.to_nat nb_blocks) 0 acc input secret nb_rounds block_len;
    if len <=? STRIPE_LEN then None
    else
      let nbStripes := (len - block_len * nb_blocks) / STRIPE_LEN in
      if zlen secret / XXH_SECRET_CONSUME_RATE <? nbStripes then None
      else
        acc ← XXH3p_accumulate (Z.to_nat nbStripes) 0 acc input (nb_blocks * block_len) secret;
        if negb (Z.land len (STRIPE_LEN - 1) =? 0) then
          XXH3p_accumulate_512 acc input (len - STRIPE_LEN) secret (zlen secret - STRIPE_LEN - XXH_SECRET_LASTACC_START)
        else Some acc.

(** [XXH3p_mix2Accs(acc + i, secret + soff)]. *)
Definition XXH3p_mix2Accs (acc : list Z) (i : nat) (secret : bytes) (soff : Z) : option Z :=
  a0 ← acc !! i;
  a1 ← acc !! S i;
  s0 ← XXH_readLE64 secret soff;
  s1 ← XXH_readLE64 secret (soff + 8);
  Some (XXH3p_mul128_fold64 (Z.lxor a0 s0) (Z.lxor a1 s1)).

Definition XXH3p_mergeAccs (acc : list Z) (secret : bytes) (soff start : Z) : option Z :=
  m0 ← XXH3p_mix2Accs acc 0 secret soff;
  m1 ← XXH3p_mix2Accs acc 2 secret (soff + 16);
  m2 ← XXH3p_mix2Accs acc 4 secret (soff + 32);
  m3 ← XXH3p_mix2Accs acc 6 secret (soff + 48);
  let result64 := u64 (start + m0) in
  let result64 := u64 (result64 + m1) in
  let result64 := u64 (result64 + m2) in
  let result64 := u64 (result64 + m3) in
  Some (XXH3p_avalanche result64).

Definition XXH3p_INIT_ACC : list Z := [PRIME32_3; PRIME64_1; PRIME64_2; PRIME64_3; PRIME64_4; PRIME32_2; PRIME64_5; PRIME32_1].

Definition XXH_SECRET_MERGEACCS_START : Z := 11.

Definition XXH3p_hashLong_internal (input secret : bytes) : option Z :=
  acc ← XXH3p_hashLong_internal_loop XXH3p_INIT_ACC input secret;
  if zlen secret <? 64 + XXH_SECRET_MERGEACCS_START then None
  else XXH3p_mergeAccs acc secret XXH_SECRET_MERGEACCS_START (u64 (zlen input * PRIME64_1)).

Definition XXH3p_hashLong_64b_defaultSecret (input : bytes) : option Z := XXH3p_hashLong_internal input kSecret.

(** The secret with the seed added to and subtracted from its words in turn; it is written
    to an array of the size of [kSecret]. *)
Fixpoint custom_secret_loop (todo : nat) (i : Z) (seed64 : Z) : option bytes :=
  match todo with
  | O => Some []
  | S todo' =>
      s0 ← XXH_readLE64 kSecret (16 * i);
      s1 ← XXH_readLE64 kSecret (16 * i + 8);
      rest ← custom_secret_loop todo' (i + 1) seed64;
      Some (memcpy_from 8 (u64 (s0 + seed64)) ++ memcpy_from 8 (u64 (s1 - seed64)) ++ rest)
  end.

Definition XXH3p_initCustomSecret (seed64 : Z) : option bytes := custom_secret_loop (Z.to_nat (zlen kSecret / 16)) 0 seed64.

Definition XXH3p_hashLong_64b_withSeed (input : bytes) (seed : Z) : option Z :=
  if seed =? 0 then XXH3p_hashLong_64b_defaultSecret input
  else secret ← XXH3p_initCustomSecret seed; XXH3p_hashLong_internal input secret.

(** ** Entry points *)

Definition XXH3p_64bits (input : bytes) : option Z :=
  let len := zlen input in
  if len <=? 16 then XXH3p_len_0to16_64b input kSecret 0
  else if len <=? 128 then XXH3p_len_17to128_64b input kSecret 0
  else if len <=? XXH3p_MIDSIZE_MAX then XXH3p_len_129to240_64b input kSecret 0
  else XXH3p_hashLong_64b_defaultSecret input.

Definition XXH3p_64bits_withSeed (input : bytes) (seed : Z) : option Z :=
  let len := zlen input in
  if len <=? 16 then XXH3p_len_0to16_64b input kSecret seed
  else if len <=? 128 then XXH3p_len_17to128_64b input kSecret seed
  else if len <=? XXH3p_MIDSIZE_MAX then XXH3p_len_129to240_64b input kSecret seed
  else XXH3p_hashLong_64b_withSeed input seed.

(** [Hash64] of [util/hash.cc]. *)
Definition Hash64 (data : bytes) : option Z := XXH3p_64bits data.
Definition Hash64_withSeed (data : bytes) (seed : Z) : option Z := XXH3p_64bits_withSeed data seed.
End Hash.
