(* ===== verification/Xxh3Correct.v ===== *)
(** * Correctness of the 64-bit hash

    However it is compiled, the hash is defined for every input (all reads are within the
    input and the secret, and no assertion fails), fits 64 bits, and is the same. *)

From S2P Require Import Prelude Coding Hash Xxh3.

Definition is_u64 (x : Z) : Prop := 0 <= x < 2 ^ 64.

Lemma lxor_u64 x y : is_u64 x -> is_u64 y -> is_u64 (Z.lxor x y).
Proof. intros Hx Hy. by apply lxor_range. Qed.

Lemma shiftr_u64 x n : is_u64 x -> 0 <= n -> is_u64 (Z.shiftr x n).
Proof.
  intros Hx Hn. red in Hx |- *. rewrite shiftr_div by lia. pose proof (Z.pow_pos_nonneg 2 n). split; [apply Z.div_pos; lia|]. apply Z.div_lt_upper_bound; [lia|]. nia.
Qed.

Lemma u64_u64 x : is_u64 (u64 x).
Proof. apply u64_range. Qed.

#[local] Hint Resolve lxor_u64 shiftr_u64 u64_u64 : u64.

(** ** Multiplication *)

Lemma mult32to64_val x y : XXH_mult32to64 x y = u32 x * u32 y.
Proof.
  unfold XXH_mult32to64. change 0xFFFFFFFF with (2 ^ 32 - 1). rewrite !land_ones_mod by lia. fold (u32 x). fold (u32 y).
  pose proof (u32_range x). pose proof (u32_range y). apply u64_small. nia.
Qed.

Lemma mult64to128_eq lhs rhs : is_u64 lhs -> is_u64 rhs -> XXH_mult64to128_portable lhs rhs = XXH_mult64to128_wide lhs rhs.
Proof.
  intros Hl Hr. unfold XXH_mult64to128_portable, XXH_mult64to128_wide. red in Hl, Hr. rewrite !mult32to64_val. change 0xFFFFFFFF with (2 ^ 32 - 1). rewrite !land_ones_mod, !shiftr_div by lia.
  fold (u32 lhs). fold (u32 rhs). set (ll := u32 lhs). set (rl := u32 rhs). set (lh := lhs / 2 ^ 32). set (rh := rhs / 2 ^ 32).
  assert (El : lhs = lh * 2 ^ 32 + ll) by (unfold lh, ll, u32; rewrite Z.mul_comm; by apply Z.div_mod). assert (Er : rhs = rh * 2 ^ 32 + rl) by (unfold rh, rl, u32; rewrite Z.mul_comm; by apply Z.div_mod).
  assert (0 <= ll < 2 ^ 32) by apply u32_range. assert (0 <= rl < 2 ^ 32) by apply u32_range. assert (0 <= lh < 2 ^ 32) by (unfold lh; div_lia). assert (0 <= rh < 2 ^ 32) by (unfold rh; div_lia).
  clearbody ll rl lh rh. subst lhs rhs. rewrite !(u32_small ll), !(u32_small rl), !(u32_small lh), !(u32_small rh) by lia.
  assert (B : forall a b, 0 <= a < 2 ^ 32 -> 0 <= b < 2 ^ 32 -> 0 <= a * b <= (2 ^ 32 - 1) * (2 ^ 32 - 1)) by (intros; nia).
  pose proof (B ll rl ltac:(lia) ltac:(lia)). pose proof (B lh rl ltac:(lia) ltac:(lia)). pose proof (B ll rh ltac:(lia) ltac:(lia)). pose proof (B lh rh ltac:(lia) ltac:(lia)).
  replace ((lh * 2 ^ 32 + ll) * (rh * 2 ^ 32 + rl)) with (lh * rh * 2 ^ 64 + (lh * rl + ll * rh) * 2 ^ 32 + ll * rl) by ring.
  set (a := ll * rl) in *. set (b := lh * rl) in *. set (c := ll * rh) in *. set (d := lh * rh) in *. clearbody a b c d.
  set (cross := u64 (u64 (a / 2 ^ 32 + b mod 2 ^ 32) + c)). assert (Ec : cross = a / 2 ^ 32 + b mod 2 ^ 32 + c) by (unfold cross, u64; div_lia). clearbody cross.
  rewrite Z.lor_comm. replace (u64 (Z.shiftl cross 32)) with (Z.shiftl (cross mod 2 ^ 32) 32) by (unfold u64; rewrite !Z.shiftl_mul_pow2 by lia; div_lia). rewrite lor_shiftl_add by (first [lia|apply Z.mod_pos_bound; lia]).
  f_equal; unfold u64; div_lia.
Qed.

Lemma fold64_build build build' lhs rhs : is_u64 lhs -> is_u64 rhs -> XXH3p_mul128_fold64 build lhs rhs = XXH3p_mul128_fold64 build' lhs rhs.
Proof.
  intros Hl Hr. unfold XXH3p_mul128_fold64, XXH_mult64to128. destruct (has_int128 build), (has_int128 build'); by rewrite ?mult64to128_eq.
Qed.

Lemma fold64_u64 build lhs rhs : is_u64 lhs -> is_u64 rhs -> is_u64 (XXH3p_mul128_fold64 build lhs rhs).
Proof.
  intros Hl Hr. rewrite (fold64_build build (mkBuild true XXH_SCALAR)) by done. unfold XXH3p_mul128_fold64. apply lxor_u64; apply u64_range.
Qed.

Lemma avalanche_u64 h : is_u64 (XXH3p_avalanche h).
Proof. unfold XXH3p_avalanche. eauto with u64 lia. Qed.

(** ** Reads *)

Definition le64 (p : bytes) (off : Z) : Z := memcpy_to 8 (drop (Z.to_nat off) p).

Lemma memcpy_to_range n (p : bytes) : is_bytes p -> 0 <= memcpy_to n p < 256 ^ Z.of_nat n.
Proof.
  revert p. induction n as [|n IH]; intros p Hp; [done|]. rewrite Nat2Z.inj_succ, Z.pow_succ_r by lia. destruct p as [|b p]; cbn [memcpy_to]; [assert (0 < 256 ^ Z.of_nat n) by (apply Z.pow_pos_nonneg; lia); lia|].
  apply Forall_cons_1 in Hp as [Hb Hp]. specialize (IH p Hp). red in Hb. lia.
Qed.

Lemma le64_u64 p off : is_bytes p -> is_u64 (le64 p off).
Proof. intros Hp. apply (memcpy_to_range 8). by apply Forall_drop. Qed.

Lemma read64_ok p off : 0 <= off -> off + 8 <= zlen p -> XXH_readLE64 p off = Some (le64 p off).
Proof. intros H0 H1. unfold XXH_readLE64. destruct (Z.leb_spec 0 off); [|lia]. destruct (Z.leb_spec (off + 8) (zlen p)); [|lia]. done. Qed.

Lemma read32_ok p off : is_bytes p -> 0 <= off -> off + 4 <= zlen p -> exists v, XXH_readLE32 p off = Some v /\ 0 <= v < 2 ^ 32.
Proof.
  intros Hp H0 H1. unfold XXH_readLE32. destruct (Z.leb_spec 0 off); [|lia]. destruct (Z.leb_spec (off + 4) (zlen p)); [|lia]. eexists. split; [done|].
  apply (memcpy_to_range 4). by apply Forall_drop.
Qed.

Lemma byte_at_ok p off : is_bytes p -> 0 <= off < zlen p -> exists c, byte_at p off = Some c /\ is_byte c.
Proof.
  intros Hp Ho. unfold byte_at. destruct (Z.leb_spec 0 off); [|lia]. destruct (lookup_lt_is_Some_2 p (Z.to_nat off)) as [c Ec]; [unfold zlen in Ho; lia|].
  exists c. split; [done|]. by eapply Forall_lookup_1 in Hp.
Qed.

(** The words from [off] on. *)
Fixpoint words (n : nat) (p : bytes) (off : Z) : list Z := match n with O => [] | S n' => le64 p off :: words n' p (off + 8) end.

Lemma words_length n p off : length (words n p off) = n.
Proof. revert off. induction n; intros off; cbn; auto. Qed.

Lemma words_u64 n p off : is_bytes p -> Forall is_u64 (words n p off).
Proof. intros Hp. revert off. induction n; intros off; cbn; constructor; [by apply le64_u64|done]. Qed.

Lemma words_app n m p off : words (n + m) p off = words n p off ++ words m p (off + 8 * Z.of_nat n).
Proof. revert off. induction n as [|n IH]; intros off; cbn [words Nat.add app]; [f_equal; lia|]. rewrite IH. do 3 f_equal. lia. Qed.

Lemma loadu_words lanes p off : 0 <= off -> off + 8 * Z.of_nat lanes <= zlen p -> vec_loadu lanes p off = Some (words lanes p off).
Proof.
  intros H0 H1. unfold vec_loadu. assert (Hgen : forall n s, off + 8 * Z.of_nat (s + n) <= zlen p -> mapM (fun i => XXH_readLE64 p (off + 8 * Z.of_nat i)) (seq s n) = Some (words n p (off + 8 * Z.of_nat s))).
  { induction n as [|n IH]; intros s Hs; [done|]. cbn [seq mapM words]. rewrite read64_ok by lia. cbn [mbind option_bind]. rewrite IH by (rewrite Nat.add_succ_comm; done). cbn. do 3 f_equal. lia. }
  rewrite Hgen by done. do 2 f_equal. lia.
Qed.

(** ** Accumulators *)

(** One lane of [accumulate_512] and of [scrambleAcc]. *)
Definition lane_acc (a d k : Z) : Z := let dk := Z.lxor d k in u64 (u64 (a + d) + u32 dk * Z.shiftr dk 32).
Definition lane_scramble (a k : Z) : Z := u64 (Z.lxor (Z.lxor a (Z.shiftr a 47)) k * PRIME32_1).

Definition acc_stripe (acc d k : list Z) : list Z := zip_with (fun a dk => lane_acc a dk.1 dk.2) acc (zip d k).

Lemma hi_word x : is_u64 x -> 0 <= Z.shiftr x 32 < 2 ^ 32.
Proof. intros Hx. red in Hx. rewrite shiftr_div by lia. div_lia. Qed.

Lemma acc_stripe_app acc1 acc2 d1 d2 k1 k2 : length acc1 = length d1 -> length d1 = length k1 -> acc_stripe (acc1 ++ acc2) (d1 ++ d2) (k1 ++ k2) = acc_stripe acc1 d1 k1 ++ acc_stripe acc2 d2 k2.
Proof. intros H1 H2. unfold acc_stripe. rewrite (zip_with_app _ d1), zip_with_app; [done|rewrite length_zip_with; lia|done]. Qed.

(** *** The scalar loops *)

Lemma insert_split {A} (l : list A) i x : (i < length l)%nat -> take (S i) (<[i := x]> l) = take i l ++ [x] /\ drop (S i) (<[i := x]> l) = drop (S i) l.
Proof. intros Hi. rewrite drop_insert_lt, (take_S_r _ i x), take_insert_ge by (first [lia|by apply list_lookup_insert_eq]). done. Qed.

Lemma accumulate_scalar_ok todo i input ioff secret soff xacc : is_bytes input -> is_bytes secret -> length xacc = (i + todo)%nat ->
  0 <= ioff -> ioff + 8 * Z.of_nat (i + todo) <= zlen input -> 0 <= soff -> soff + 8 * Z.of_nat (i + todo) <= zlen secret ->
  accumulate_scalar todo i input ioff secret soff xacc =
    Some (take i xacc ++ acc_stripe (drop i xacc) (words todo input (ioff + 8 * Z.of_nat i)) (words todo secret (soff + 8 * Z.of_nat i))).
Proof.
  intros Hi Hs. revert i xacc. induction todo as [|todo IH]; intros i xacc Hl Hi0 Hi1 Hs0 Hs1; cbn [accumulate_scalar words].
  - rewrite drop_ge, take_ge by lia. by rewrite app_nil_r.
  - rewrite !read64_ok by lia. cbn [mbind option_bind]. destruct (lookup_lt_is_Some_2 xacc i) as [a Ea]; [lia|]. rewrite Ea. cbn [mbind option_bind]. rewrite mult32to64_val.
    rewrite IH by (rewrite ?length_insert; lia). f_equal. rewrite (drop_S xacc a i Ea). set (a' := u64 _). destruct (insert_split xacc i a') as [-> ->]; [lia|].
    rewrite <- app_assoc. unfold acc_stripe at 2. cbn [zip zip_with app fst snd]. f_equal. f_equal.
    + unfold a', lane_acc. replace (soff + Z.of_nat i * 8) with (soff + 8 * Z.of_nat i) by lia. set (dk := Z.lxor _ _). assert (Hdk : is_u64 dk) by (apply lxor_u64; by apply le64_u64).
      rewrite (u32_small (Z.shiftr dk 32)) by (by apply hi_word). do 3 f_equal. change 0xFFFFFFFF with (2 ^ 32 - 1). rewrite land_ones_mod by lia. unfold u32. apply Z.mod_mod. lia.
    + unfold acc_stripe. f_equal. f_equal; f_equal; lia.
Qed.

Lemma scramble_scalar_ok todo i secret soff xacc : length xacc = (i + todo)%nat -> 0 <= soff -> soff + 8 * Z.of_nat (i + todo) <= zlen secret ->
  scramble_scalar todo i secret soff xacc = Some (take i xacc ++ zip_with lane_scramble (drop i xacc) (words todo secret (soff + 8 * Z.of_nat i))).
Proof.
  revert i xacc. induction todo as [|todo IH]; intros i xacc Hl Hs0 Hs1; cbn [scramble_scalar words].
  - rewrite drop_ge, take_ge by lia. by rewrite app_nil_r.
  - rewrite !read64_ok by lia. cbn [mbind option_bind]. destruct (lookup_lt_is_Some_2 xacc i) as [a Ea]; [lia|]. rewrite Ea. cbn [mbind option_bind]. fold (lane_scramble a (le64 secret (soff + 8 * Z.of_nat i))).
    rewrite IH by (rewrite ?length_insert; lia). f_equal. rewrite (drop_S xacc a i Ea). destruct (insert_split xacc i (lane_scramble a (le64 secret (soff + 8 * Z.of_nat i)))) as [-> ->]; [lia|].
    rewrite <- app_assoc. cbn [zip_with app]. do 4 f_equal. lia.
Qed.

(** *** The vector loops *)

(** The product of the two halves of each lane, for registers of an even number of lanes. *)
Lemma mul_shuffle n (l : list Z) : length l = (2 * n)%nat -> Forall is_u64 l -> vec_mul_epu32 l (vec_shuffle_epi32 l 0x31) = (fun x => u32 x * Z.shiftr x 32) <$> l.
Proof.
  revert l. induction n as [|n IH]; intros l Hl Hu; [by destruct l|]. destruct l as [|x [|y l]]; try (cbn in Hl; lia). apply Forall_cons_1 in Hu as [Hx Hu]. apply Forall_cons_1 in Hu as [Hy Hu].
  cbn [vec_shuffle_epi32]. unfold vec_mul_epu32 in *. cbn [zip_with]. rewrite !fmap_cons, IH by (first [done|cbn in Hl; lia]). pose proof (hi_word x Hx). pose proof (hi_word y Hy).
  change (word_of x y 0x31 0) with (Z.shiftr x 32). change (word_of x y 0x31 2) with (Z.shiftr y 32). f_equal; [|f_equal]; f_equal; unfold u32; rewrite (Z.mul_comm (2 ^ 32)), Z.mod_add, Z.mod_small; lia.
Qed.

Lemma hi_shuffle n (l : list Z) : length l = (2 * n)%nat -> Forall is_u64 l -> u32 <$> vec_shuffle_epi32 l 0x31 = (fun x => Z.shiftr x 32) <$> l.
Proof.
  revert l. induction n as [|n IH]; intros l Hl Hu; [by destruct l|]. destruct l as [|x [|y l]]; try (cbn in Hl; lia). apply Forall_cons_1 in Hu as [Hx Hu]. apply Forall_cons_1 in Hu as [Hy Hu].
  cbn [vec_shuffle_epi32]. rewrite !fmap_cons, IH by (first [done|cbn in Hl; lia]). pose proof (hi_word x Hx). pose proof (hi_word y Hy).
  change (word_of x y 0x31 0) with (Z.shiftr x 32). change (word_of x y 0x31 2) with (Z.shiftr y 32). f_equal; [|f_equal]; unfold u32; rewrite (Z.mul_comm (2 ^ 32)), Z.mod_add, Z.mod_small; lia.
Qed.

Lemma xor_u64 (d k : list Z) : Forall is_u64 d -> Forall is_u64 k -> Forall is_u64 (vec_xor d k).
Proof. intros Hd. revert k. induction Hd as [|x d Hx Hd IH]; intros [|y k] Hk; try done; constructor; apply Forall_cons_1 in Hk as [Hy Hk]; [by apply lxor_u64|by apply IH]. Qed.

Lemma accumulate_vec_ok n input ioff secret soff (xacc_i : list Z) : is_bytes input -> is_bytes secret -> length xacc_i = (2 * n)%nat ->
  0 <= ioff -> ioff + 8 * Z.of_nat (2 * n) <= zlen input -> 0 <= soff -> soff + 8 * Z.of_nat (2 * n) <= zlen secret ->
  accumulate_vec (2 * n) input ioff secret soff xacc_i = Some (acc_stripe xacc_i (words (2 * n) input ioff) (words (2 * n) secret soff)).
Proof.
  intros Hi Hs Hl Hi0 Hi1 Hs0 Hs1. unfold accumulate_vec. rewrite !loadu_words by done. cbn [mbind option_bind]. f_equal.
  pose proof (words_length (2 * n) input ioff) as Ld. pose proof (words_length (2 * n) secret soff) as Lk. pose proof (words_u64 (2 * n) input ioff Hi) as Ud. pose proof (words_u64 (2 * n) secret soff Hs) as Uk.
  set (d := words (2 * n) input ioff) in *. set (k := words (2 * n) secret soff) in *. clearbody d k.
  rewrite (mul_shuffle n) by (first [by apply xor_u64|unfold vec_xor; rewrite length_zip_with; lia]). clear -Hl Ld Lk. revert d k Hl Ld Lk. generalize (2 * n)%nat as m. intros m. revert xacc_i.
  induction m as [|m IH]; intros [|a acc] [|x d] [|y k] Ha Hd Hk; try done. unfold acc_stripe, vec_add_epi64, vec_xor in *. cbn [zip_with zip fmap list_fmap fst snd]. f_equal; [unfold lane_acc; f_equal; lia|].
  apply IH; [by injection Ha|by injection Hd|by injection Hk].
Qed.

Lemma scramble_product dk : is_u64 dk -> u64 (u32 dk * PRIME32_1 + u64 (Z.shiftl (Z.shiftr dk 32 * PRIME32_1) 32)) = u64 (dk * PRIME32_1).
Proof.
  intros Hd. red in Hd. rewrite Z.shiftl_mul_pow2, shiftr_div by lia. unfold u64, u32. rewrite Zplus_mod_idemp_r. f_equal. rewrite (Z.div_mod dk (2 ^ 32)) at 3 by lia. ring.
Qed.

Lemma scramble_vec_ok n secret soff (xacc_i : list Z) : is_bytes secret -> length xacc_i = (2 * n)%nat -> Forall is_u64 xacc_i -> 0 <= soff -> soff + 8 * Z.of_nat (2 * n) <= zlen secret ->
  scramble_vec (2 * n) secret soff xacc_i = Some (zip_with lane_scramble xacc_i (words (2 * n) secret soff)).
Proof.
  intros Hs Hl Ha Hs0 Hs1. unfold scramble_vec. rewrite loadu_words by done. cbn [mbind option_bind]. f_equal. pose proof (words_length (2 * n) secret soff) as Lk. pose proof (words_u64 (2 * n) secret soff Hs) as Uk.
  set (k := words (2 * n) secret soff) in *. clearbody k. set (dk := vec_xor (vec_xor xacc_i (vec_srli_epi64 xacc_i 47)) k).
  assert (Edk : dk = zip_with (fun a y => Z.lxor (Z.lxor a (Z.shiftr a 47)) y) xacc_i k).
  { unfold dk, vec_xor, vec_srli_epi64. clear. revert k. induction xacc_i as [|a acc IH]; intros [|y k]; try done. cbn [fmap list_fmap zip_with]. by rewrite IH. }
  assert (Udk : Forall is_u64 dk).
  { unfold dk. apply xor_u64; [|done]. apply xor_u64; [done|]. apply Forall_fmap. eapply Forall_impl; [done|]. intros x Hx. cbn. apply shiftr_u64; [done|lia]. }
  assert (Ldk : length dk = (2 * n)%nat) by (rewrite Edk, length_zip_with; lia).
  replace (zip_with lane_scramble xacc_i k) with ((fun x => u64 (x * PRIME32_1)) <$> dk) by (rewrite Edk; clear; revert k; induction xacc_i as [|a acc IH]; intros [|y k]; try done; cbn [zip_with fmap list_fmap]; by rewrite IH).
  clearbody dk. clear Edk. pose proof (hi_shuffle n dk Ldk Udk) as Hhi. set (sh := vec_shuffle_epi32 dk 0x31) in *. clearbody sh. clear -Udk Ldk Hhi. revert sh dk Udk Ldk Hhi. generalize (2 * n)%nat as m.
  induction m as [|m IH]; intros sh [|x dk] Hu Hl Hhi; try done. destruct sh as [|s sh]; [done|]. apply Forall_cons_1 in Hu as [Hx Hu]. rewrite !fmap_cons in Hhi. injection Hhi as Es Hhi.
  unfold vec_set1_epi32, vec_mul_epu32, vec_slli_epi64, vec_add_epi64 in *. cbn [replicate zip_with fmap list_fmap]. f_equal; [|apply IH; [done|by injection Hl|done]].
  change (u32 (u32 PRIME32_1 + 2 ^ 32 * u32 PRIME32_1)) with PRIME32_1. rewrite Es. by apply scramble_product.
Qed.

Lemma accumulate_regs_ok todo n input ioff secret soff acc : is_bytes input -> is_bytes secret -> length acc = (todo * (2 * n))%nat ->
  0 <= ioff -> ioff + 8 * Z.of_nat (todo * (2 * n)) <= zlen input -> 0 <= soff -> soff + 8 * Z.of_nat (todo * (2 * n)) <= zlen secret ->
  accumulate_regs todo (2 * n) input ioff secret soff acc = Some (acc_stripe acc (words (todo * (2 * n)) input ioff) (words (todo * (2 * n)) secret soff)).
Proof.
  intros Hi Hs. revert ioff soff acc. induction todo as [|todo IH]; intros ioff soff acc Hl Hi0 Hi1 Hs0 Hs1; cbn [accumulate_regs].
  - by destruct acc.
  - change ((S todo * (2 * n))%nat) with ((2 * n + todo * (2 * n))%nat) in *. rewrite accumulate_vec_ok by (first [done|rewrite length_take; lia|lia]). cbn [mbind option_bind]. rewrite IH by (rewrite ?length_drop; lia). cbn [mbind option_bind]. f_equal. rewrite !words_app, <- acc_stripe_app.
    + by rewrite take_drop.
    + rewrite words_length, length_take. lia.
    + by rewrite !words_length.
Qed.

Lemma scramble_regs_ok todo n secret soff acc : is_bytes secret -> length acc = (todo * (2 * n))%nat -> Forall is_u64 acc ->
  0 <= soff -> soff + 8 * Z.of_nat (todo * (2 * n)) <= zlen secret ->
  scramble_regs todo (2 * n) secret soff acc = Some (zip_with lane_scramble acc (words (todo * (2 * n)) secret soff)).
Proof.
  intros Hs. revert soff acc. induction todo as [|todo IH]; intros soff acc Hl Ha Hs0 Hs1; cbn [scramble_regs].
  - by destruct acc.
  - change ((S todo * (2 * n))%nat) with ((2 * n + todo * (2 * n))%nat) in *. rewrite scramble_vec_ok by (first [done|by apply Forall_take|rewrite length_take; lia|lia]). cbn [mbind option_bind]. rewrite IH by (first [by apply Forall_drop|rewrite ?length_drop; lia]). cbn [mbind option_bind]. f_equal.
    rewrite words_app, <- zip_with_app by (rewrite words_length, length_take; lia). by rewrite take_drop.
Qed.

(** Eight accumulators. *)
Definition acc_ok (acc : list Z) : Prop := length acc = 8%nat /\ Forall is_u64 acc.

(** The result does not depend on how the code is compiled. *)
Definition same_acc (f : Build -> option (list Z)) : Prop := exists acc, acc_ok acc /\ forall b, f b = Some acc.
Definition same_hash (f : Build -> option Z) : Prop := exists h, is_u64 h /\ forall b, f b = Some h.

Lemma accumulate_512_same acc input ioff secret soff : acc_ok acc -> is_bytes input -> is_bytes secret -> 0 <= ioff -> ioff + 64 <= zlen input -> 0 <= soff -> soff + 64 <= zlen secret ->
  same_acc (fun b => XXH3p_accumulate_512 b acc input ioff secret soff).
Proof.
  intros [Hl Hu] Hi Hs Hi0 Hi1 Hs0 Hs1. exists (acc_stripe acc (words 8 input ioff) (words 8 secret soff)). split.
  - split; [unfold acc_stripe; rewrite !length_zip_with, !words_length; lia|]. unfold acc_stripe. generalize (zip (words 8 input ioff) (words 8 secret soff)). clear.
    induction acc as [|a acc IH]; intros [|x l]; try done. constructor; [apply u64_u64|apply IH].
  - intros b. unfold XXH3p_accumulate_512. destruct (vector b).
    + unfold ACC_NB. rewrite accumulate_scalar_ok by (first [done|lia]). replace (ioff + 8 * Z.of_nat 0) with ioff by lia. by replace (soff + 8 * Z.of_nat 0) with soff by lia.
    + apply (accumulate_regs_ok 4 1); first [done|lia].
    + apply (accumulate_regs_ok 2 2); first [done|lia].
Qed.

Lemma scramble_same acc secret soff : acc_ok acc -> is_bytes secret -> 0 <= soff -> soff + 64 <= zlen secret -> same_acc (fun b => XXH3p_scrambleAcc b acc secret soff).
Proof.
  intros [Hl Hu] Hs Hs0 Hs1. exists (zip_with lane_scramble acc (words 8 secret soff)). split.
  - split; [rewrite length_zip_with, words_length; lia|]. generalize (words 8 secret soff). clear. induction acc as [|a acc IH]; intros [|x l]; try done. constructor; [apply u64_u64|apply IH].
  - intros b. unfold XXH3p_scrambleAcc. destruct (vector b).
    + unfold ACC_NB. rewrite scramble_scalar_ok by (first [done|lia]). by replace (soff + 8 * Z.of_nat 0) with soff by lia.
    + apply (scramble_regs_ok 4 1); first [done|lia].
    + apply (scramble_regs_ok 2 2); first [done|lia].
Qed.

Lemma same_acc_bind (f : Build -> option (list Z)) (g : Build -> list Z -> option (list Z)) : same_acc f -> (forall acc, acc_ok acc -> same_acc (fun b => g b acc)) -> same_acc (fun b => f b ≫= g b).
Proof. intros (acc & Ha & Hf) Hg. destruct (Hg acc Ha) as (acc' & Ha' & Hg'). exists acc'. split; [done|]. intros b. rewrite Hf. apply Hg'. Qed.

Lemma same_acc_ret acc : acc_ok acc -> same_acc (fun _ => Some acc).
Proof. intros Ha. by exists acc. Qed.

(** ** Long keys *)

Section Long.
Context (input secret : bytes) (Hi : is_bytes input) (Hs : is_bytes secret) (Hsl : zlen secret = 192).

Lemma accumulate_same todo n acc ioff : acc_ok acc -> 0 <= ioff -> 0 <= n -> n + Z.of_nat todo <= 17 -> ioff + (n + Z.of_nat todo) * 64 <= zlen input ->
  same_acc (fun b => XXH3p_accumulate b todo n acc input ioff secret).
Proof.
  revert n acc. induction todo as [|todo IH]; intros n acc Ha Hi0 Hn Hn17 Hi1; cbn [XXH3p_accumulate]; [by apply same_acc_ret|].
  unfold STRIPE_LEN, XXH_SECRET_CONSUME_RATE. apply same_acc_bind; [apply accumulate_512_same; first [done|lia]|]. intros acc' Ha'. apply IH; first [done|lia].
Qed.

Lemma block_loop_same todo n acc : acc_ok acc -> 0 <= n -> (n + Z.of_nat todo) * 1024 <= zlen input -> same_acc (fun b => block_loop b todo n acc input secret 16 1024).
Proof.
  revert n acc. induction todo as [|todo IH]; intros n acc Ha Hn Hl; cbn [block_loop]; [by apply same_acc_ret|]. rewrite Hsl. change (Z.to_nat 16) with 16%nat.
  apply same_acc_bind; [apply accumulate_same; first [done|lia]|]. intros acc1 Ha1. apply same_acc_bind; [apply scramble_same; first [done|unfold STRIPE_LEN; lia]|]. intros acc2 Ha2. apply IH; first [done|lia].
Qed.

Lemma internal_loop_same acc : acc_ok acc -> 64 < zlen input -> same_acc (fun b => XXH3p_hashLong_internal_loop b acc input secret).
Proof.
  intros Ha Hlen. unfold XXH3p_hashLong_internal_loop. rewrite Hsl. unfold STRIPE_LEN, XXH_SECRET_CONSUME_RATE, XXH3p_SECRET_SIZE_MIN, XXH_SECRET_LASTACC_START. change ((192 - 64) / 8) with 16. change (64 * 16) with 1024. change (192 <? 136) with false. cbn [negb].
  assert (Hb : 0 <= zlen input / 1024 /\ zlen input / 1024 * 1024 <= zlen input < (zlen input / 1024 + 1) * 1024) by div_lia. set (nb := zlen input / 1024) in *. clearbody nb.
  apply same_acc_bind; [apply block_loop_same; first [done|lia]|]. intros acc1 Ha1. destruct (Z.leb_spec (zlen input) 64); [lia|].
  assert (Hst : 0 <= (zlen input - 1024 * nb) / 64 <= 15 /\ (zlen input - 1024 * nb) / 64 * 64 <= zlen input - 1024 * nb) by div_lia. set (st := (zlen input - 1024 * nb) / 64) in *. clearbody st.
  change (192 / 8) with 24. destruct (Z.ltb_spec 24 st); [lia|]. apply same_acc_bind; [apply accumulate_same; first [done|lia]|]. intros acc2 Ha2.
  destruct (negb _); [apply accumulate_512_same; first [done|lia]|by apply same_acc_ret].
Qed.

Lemma mix2Accs_same acc i soff : acc_ok acc -> (i + 1 < 8)%nat -> 0 <= soff -> soff + 16 <= zlen secret -> same_hash (fun b => XXH3p_mix2Accs b acc i secret soff).
Proof.
  intros [Hl Hu] Hi8 Hs0 Hs1. unfold XXH3p_mix2Accs. destruct (lookup_lt_is_Some_2 acc i) as [a0 E0]; [lia|]. destruct (lookup_lt_is_Some_2 acc (S i)) as [a1 E1]; [lia|].
  rewrite E0, E1, !read64_ok by lia. cbn [mbind option_bind]. pose proof (le64_u64 secret soff Hs). pose proof (le64_u64 secret (soff + 8) Hs).
  eapply Forall_lookup_1 in E0 as U0; [|done]. eapply Forall_lookup_1 in E1 as U1; [|done].
  eexists. split; [|intros b; f_equal; apply (fold64_build b (mkBuild true XXH_SCALAR)); by apply lxor_u64]. apply fold64_u64; by apply lxor_u64.
Qed.

Lemma hashLong_same : 64 < zlen input -> same_hash (fun b => XXH3p_hashLong_internal b input secret).
Proof.
  intros Hlen. destruct (internal_loop_same XXH3p_INIT_ACC) as (acc & Ha & Hacc); [split; [done|repeat (constructor; [by split|]); constructor]|done|].
  unfold XXH3p_hashLong_internal. unfold XXH3p_mergeAccs, XXH_SECRET_MERGEACCS_START.
  destruct (mix2Accs_same acc 0 11) as (m0 & _ & E0); [done|lia..|]. destruct (mix2Accs_same acc 2 (11 + 16)) as (m1 & _ & E1); [done|lia..|].
  destruct (mix2Accs_same acc 4 (11 + 32)) as (m2 & _ & E2); [done|lia..|]. destruct (mix2Accs_same acc 6 (11 + 48)) as (m3 & _ & E3); [done|lia..|].
  eexists. split; [|intros b; rewrite Hacc; cbn [mbind option_bind]; rewrite Hsl; change (192 <? 64 + 11) with false; rewrite E0, E1, E2, E3; reflexivity]. apply avalanche_u64.
Qed.
End Long.

(** ** Short keys *)

Section Short.
Context (input secret : bytes) (Hi : is_bytes input) (Hs : is_bytes secret) (Hsl : zlen secret = 192).

Lemma len_0to16_same seed : zlen input <= 16 -> same_hash (fun b => XXH3p_len_0to16_64b b input secret seed).
Proof.
  intros Hl. pose proof (zlen_nonneg input). unfold XXH3p_len_0to16_64b. destruct (Z.ltb_spec 16 (zlen input)); [lia|]. destruct (Z.ltb_spec 8 (zlen input)); [|destruct (Z.leb_spec 4 (zlen input)); [|destruct (Z.eqb_spec (zlen input) 0)]].
  - unfold XXH3p_len_9to16_64b. rewrite !read64_ok by lia. cbn [mbind option_bind]. eexists. split; [|intros b; rewrite (fold64_build b (mkBuild true XXH_SCALAR)) by (apply lxor_u64; auto using le64_u64, u64_u64); reflexivity].
    apply avalanche_u64.
  - unfold XXH3p_len_4to8_64b. destruct (read32_ok input 0) as (v & -> & _); [done|lia..|]. destruct (read32_ok input (zlen input - 4)) as (w & -> & _); [done|lia..|]. rewrite read64_ok by lia. cbn [mbind option_bind]. eexists. split; [|done]. apply avalanche_u64.
  - cbn [negb]. rewrite read64_ok by lia. cbn [mbind option_bind]. eexists. split; [|intros b; f_equal; apply (fold64_build b (mkBuild true XXH_SCALAR)); [apply u64_u64|by split]]. apply fold64_u64; [apply u64_u64|by split].
  - cbn [negb]. unfold XXH3p_len_1to3_64b. destruct (byte_at_ok input 0) as (c1 & -> & _); [done|lia|]. destruct (byte_at_ok input (Z.shiftr (zlen input) 1)) as (c2 & -> & _); [done|rewrite shiftr_div by lia; div_lia|].
    destruct (byte_at_ok input (zlen input - 1)) as (c3 & -> & _); [done|lia|]. destruct (read32_ok secret 0) as (v & -> & _); [done|lia..|]. cbn [mbind option_bind]. eexists. split; [|done]. apply avalanche_u64.
Qed.

(** ** Keys of up to 240 bytes *)

Lemma mix16B_same ioff soff seed : 0 <= ioff -> ioff + 16 <= zlen input -> 0 <= soff -> soff + 16 <= zlen secret -> same_hash (fun b => XXH3p_mix16B b input ioff secret soff seed).
Proof.
  intros Hi0 Hi1 Hs0 Hs1. unfold XXH3p_mix16B. rewrite !read64_ok by lia. cbn [mbind option_bind].
  eexists. split; [|intros b; f_equal; apply (fold64_build b (mkBuild true XXH_SCALAR)); apply lxor_u64; auto using le64_u64, u64_u64]. apply fold64_u64; apply lxor_u64; auto using le64_u64, u64_u64.
Qed.

Definition offs_ok (o : Z * Z) : Prop := (0 <= o.1 /\ o.1 + 16 <= zlen input) /\ 0 <= o.2 /\ o.2 + 16 <= 192.

Lemma mix_all_same seed offs acc : Forall offs_ok offs -> exists acc', forall b, mix_all b input secret seed offs acc = Some acc'.
Proof.
  intros Ho. revert acc. induction Ho as [|[ioff soff] offs [[Hi0 Hi1] [Hs0 Hs1]] Ho IH]; intros acc; cbn [mix_all]; [by exists acc|]. cbn in Hi0, Hi1, Hs0, Hs1.
  destruct (mix16B_same ioff soff seed) as (m & _ & Em); [lia..|]. destruct (IH (u64 (acc + m))) as [acc' E]. exists acc'. intros b. rewrite Em. cbn [mbind option_bind]. apply E.
Qed.

Lemma len_17to128_same seed : 16 < zlen input <= 128 -> same_hash (fun b => XXH3p_len_17to128_64b b input secret seed).
Proof.
  intros Hl. unfold XXH3p_len_17to128_64b. rewrite Hsl. change (192 <? XXH3p_SECRET_SIZE_MIN) with false. destruct (Z.ltb_spec 16 (zlen input)); [|lia]. destruct (Z.leb_spec (zlen input) 128); [|lia]. cbn [andb orb negb].
  set (offs := (if 32 <? zlen input then _ else []) ++ _). destruct (mix_all_same seed offs (u64 (zlen input * PRIME64_1))) as [acc' E].
  { unfold offs. destruct (Z.ltb_spec 32 (zlen input)); [destruct (Z.ltb_spec 64 (zlen input)); [destruct (Z.ltb_spec 96 (zlen input))|]|]; cbn [app]; repeat constructor; cbn; lia. }
  eexists. split; [|intros b; rewrite E; reflexivity]. apply avalanche_u64.
Qed.

Lemma len_129to240_same seed : 128 < zlen input <= 240 -> same_hash (fun b => XXH3p_len_129to240_64b b input secret seed).
Proof.
  intros Hl. unfold XXH3p_len_129to240_64b, XXH3p_MIDSIZE_MAX, XXH3p_MIDSIZE_STARTOFFSET, XXH3p_MIDSIZE_LASTOFFSET. rewrite Hsl. unfold XXH3p_SECRET_SIZE_MIN. change (192 <? 136) with false.
  destruct (Z.ltb_spec 128 (zlen input)); [|lia]. destruct (Z.leb_spec (zlen input) 240); [|lia]. cbn [andb orb negb]. assert (Hr : 8 <= zlen input / 16 <= 15 /\ zlen input / 16 * 16 <= zlen input) by div_lia. set (r := zlen input / 16) in *. clearbody r.
  destruct (Z.ltb_spec r 8); [lia|]. destruct (mix_all_same seed ((fun i => (16 * i, 16 * i)) <$> seqZ 0 8) (u64 (zlen input * PRIME64_1))) as [a1 E1].
  { apply Forall_fmap, Forall_forall. intros i Hin. apply elem_of_seqZ in Hin. split; cbn; lia. }
  destruct (mix_all_same seed ((fun i => (16 * i, 16 * (i - 8) + 3)) <$> seqZ 8 (r - 8)) (XXH3p_avalanche a1)) as [a2 E2].
  { apply Forall_fmap, Forall_forall. intros i Hin. apply elem_of_seqZ in Hin. split; cbn; lia. }
  destruct (mix_all_same seed [(zlen input - 16, 136 - 17)] a2) as [a3 E3]; [repeat constructor; cbn; lia|].
  eexists. split; [|intros b; rewrite E1; cbn [mbind option_bind]; rewrite E2; cbn [mbind option_bind]; rewrite E3; reflexivity]. apply avalanche_u64.
Qed.
End Short.

(** ** Entry points *)

Lemma kSecret_bytes : is_bytes kSecret.
Proof. bytes_dec. Qed.

Lemma custom_secret_ok todo i seed : 0 <= i -> 16 * (i + Z.of_nat todo) <= 192 -> exists s, custom_secret_loop todo i seed = Some s /\ is_bytes s /\ zlen s = 16 * Z.of_nat todo.
Proof.
  revert i. induction todo as [|todo IH]; intros i Hi Hl; cbn [custom_secret_loop]; [exists []; split_and!; [done|constructor|done]|]. rewrite !read64_ok by (change (zlen kSecret) with 192; lia). cbn [mbind option_bind].
  destruct (IH (i + 1)) as (s & -> & Hb & Hz); [lia..|]. cbn [mbind option_bind]. eexists. split; [done|]. split; [repeat apply Forall_app_2; first [done|apply memcpy_from_bytes]|].
  unfold zlen in *. rewrite !length_app, !memcpy_from_length. lia.
Qed.

Lemma Hash64_same input seed : is_bytes input -> same_hash (fun b => Hash64_withSeed b input seed).
Proof.
  intros Hi. unfold Hash64_withSeed, XXH3p_64bits_withSeed. pose proof kSecret_bytes as Hs. assert (Hk : zlen kSecret = 192) by reflexivity. destruct (Z.leb_spec (zlen input) 16); [by apply len_0to16_same|].
  destruct (Z.leb_spec (zlen input) 128); [apply len_17to128_same; first [done|lia]|]. unfold XXH3p_MIDSIZE_MAX. destruct (Z.leb_spec (zlen input) 240); [apply len_129to240_same; first [done|lia]|].
  unfold XXH3p_hashLong_64b_withSeed, XXH3p_hashLong_64b_defaultSecret. destruct (seed =? 0); [apply hashLong_same; first [done|lia]|].
  destruct (custom_secret_ok 12 0 seed) as (s & Es & Hb & Hz); [lia..|]. unfold XXH3p_initCustomSecret. change (Z.to_nat (zlen kSecret / 16)) with 12%nat. rewrite Es. cbn [mbind option_bind]. apply hashLong_same; first [done|lia].
Qed.

(** C32. [Hash64] is defined for every input and seed: all reads are within the input and the
    secret, and no assertion fails. It fits 64 bits, does not depend on whether it is
    compiled with a 128-bit type and with scalar, SSE2 or AVX2 code, and with seed 0 it is the
    hash without a seed. *)
Theorem hash64_total_and_portable (input : bytes) (seed : Z) : is_bytes input ->
  exists h, 0 <= h < 2 ^ 64 /\ (forall b, Hash64_withSeed b input seed = Some h) /\ (forall b, Hash64_withSeed b input 0 = Hash64 b input).
Proof.
  intros Hi. destruct (Hash64_same input seed Hi) as (h & Hh & E). exists h. split; [exact Hh|]. split; [exact E|]. intros b. unfold Hash64_withSeed, XXH3p_64bits_withSeed, Hash64, XXH3p_64bits. done.
Qed.

(** A value of the tests of the source. *)
Lemma hash64_total_and_portable_witness : exists h, (0 <= h < 2 ^ 64 /\ (forall b, Hash64_withSeed b [0x67; 0x53; 0x81; 0x1c] 0 = Some h)) /\ h = 9010661983527562386.
Proof.
  destruct (hash64_total_and_portable [0x67; 0x53; 0x81; 0x1c] 0 ltac:(bytes_dec)) as (h & Hh & E & _). exists h. split; [split; [exact Hh|exact E]|].
  specialize (E (mkBuild true XXH_SSE2)). vm_compute in E. congruence.
Defined.
