(* ===== verification/Double.v ===== *)
(** * Doubles

    The [double] of the sources, a binary64 number of IEEE 754, with the operations that
    they use, rounded to nearest. What is proved of an operation is where its result lies:
    rounding does not cross a number that has a place among those rounded to. *)

From Stdlib Require Import SpecFloat.
From S2P Require Import Prelude.

Definition double : Type := spec_float.

(** The mantissa and the exponent of a finite number are those of its format. *)
Definition is_double (x : double) : Prop := valid_binary 53 1024 x = true.

(** An [int] that is converted, and a literal [num / den] whose numerator and denominator
    are exact. *)
Definition double_of_int (z : Z) : double := binary_normalize 53 1024 z 0 false.
Definition double_of_ratio (num den : Z) : double := SFdiv 53 1024 (double_of_int num) (double_of_int den).

Definition double_mul (x y : double) : double := SFmul 53 1024 x y.
Definition double_add (x y : double) : double := SFadd 53 1024 x y.

(** [x * y + z] in one operation, to which a compiler may contract the two: the product is
    not rounded. *)
Definition double_fma (x y z : double) : double :=
  match x, y, z with
  | S754_finite sx mx ex, S754_finite sy my ey, S754_finite sz mz ez =>
      let e := Z.min (ex + ey) ez in
      binary_normalize 53 1024
        (cond_Zopp (xorb sx sy) (Z.pos (mx * my) * 2 ^ (ex + ey - e)) + cond_Zopp sz (Z.pos mz * 2 ^ (ez - e))) e false
  | S754_finite _ _ _, S754_finite _ _ _, S754_infinity _ => z
  | _, _, _ => double_add (double_mul x y) z
  end.

(** [x < y], which is false for a NaN. *)
Definition double_lt (x y : double) : bool := SFltb x y.

(** Without the fraction. *)
Definition double_trunc (x : double) : Z :=
  match x with
  | S754_finite s m e =>
      let a := if e <? 0 then Z.pos m / 2 ^ (- e) else Z.pos m * 2 ^ e in
      if s then - a else a
  | _ => 0
  end.

(** [static_cast<int>(x)]: undefined for what does not fit. *)
Definition double_to_int (x : double) : option Z :=
  match x with
  | S754_zero _ | S754_finite _ _ _ => if (- 2 ^ 31 <=? double_trunc x) && (double_trunc x <? 2 ^ 31) then Some (double_trunc x) else None
  | _ => None
  end.

(** ** Rounding *)

Lemma digits_log2 (m : positive) : Z.pos (digits2_pos m) = Z.log2 (Z.pos m) + 1.
Proof.
  assert (E : forall p, digits2_pos p = Pos.size p) by (induction p; cbn; congruence).
  rewrite E. destruct m; cbn; lia.
Qed.

Lemma digits_range (m : positive) d : Z.pos (digits2_pos m) = d -> 2 ^ (d - 1) <= Z.pos m < 2 ^ d.
Proof. rewrite digits_log2. intros <-. replace (Z.log2 (Z.pos m) + 1 - 1) with (Z.log2 (Z.pos m)) by lia. apply Z.log2_spec. lia. Qed.

Lemma digits_unique (m : positive) d : 0 < d -> 2 ^ (d - 1) <= Z.pos m < 2 ^ d -> Z.pos (digits2_pos m) = d.
Proof.
  intros Hd Hm. rewrite digits_log2, (Z.log2_unique (Z.pos m) (d - 1)); [lia|lia|]. replace (Z.succ (d - 1)) with d by lia. done.
Qed.

Lemma shr_1_m mrs : 0 <= shr_m mrs -> shr_m (shr_1 mrs) = shr_m mrs / 2.
Proof. destruct mrs as [[|[p|p|]|p] r s]; cbn [shr_m shr_1]; intros Hm; [done|rewrite (Pos2Z.inj_xI p)|rewrite (Pos2Z.inj_xO p)|done|lia]; div_lia. Qed.

Lemma iter_shr p : forall mrs, 0 <= shr_m mrs -> shr_m (SpecFloat.iter_pos shr_1 p mrs) = shr_m mrs / 2 ^ Z.pos p.
Proof.
  induction p as [p IH|p IH|]; intros mrs Hm; cbn [SpecFloat.iter_pos].
  - assert (H1 : 0 <= shr_m (shr_1 mrs)) by (rewrite shr_1_m by done; apply Z.div_pos; lia).
    rewrite IH, IH, shr_1_m by (first [done|rewrite IH by done; apply Z.div_pos; [done|apply Z.pow_pos_nonneg; lia]]).
    rewrite !Z.div_div by (first [lia|apply Z.pow_pos_nonneg; lia]). f_equal. rewrite <- !Z.pow_add_r by lia. rewrite <- Z.pow_succ_r by lia. f_equal. lia.
  - rewrite IH, IH by (first [done|rewrite IH by done; apply Z.div_pos; [done|apply Z.pow_pos_nonneg; lia]]).
    rewrite Z.div_div by (first [lia|apply Z.pow_pos_nonneg; lia]). f_equal. rewrite <- Z.pow_add_r by lia. f_equal. lia.
  - by apply shr_1_m.
Qed.

Lemma nearest_range q l : q <= round_nearest_even q l <= q + 1.
Proof. destruct l as [|[]]; cbn; [lia| |lia|lia]. destruct (Z.even q); lia. Qed.

(** The rounding of [m * 2 ^ e] when [n] digits are too many: multiples of [2 ^ n], which
    are numbers of the format, stay below or above it. *)
Lemma round_between s (m : positive) e n : Z.pos (digits2_pos m) = 53 + n -> 0 < n -> -1074 <= e + n <= 970 ->
  exists M E, binary_round_aux 53 1024 s (Z.pos m) e loc_Exact = S754_finite s M E /\ e + n <= E <= e + n + 1 /\
    forall T, (2 ^ n | T) -> (T <= Z.pos m -> T <= Z.pos M * 2 ^ (E - e)) /\ (Z.pos m < T -> Z.pos M * 2 ^ (E - e) <= T).
Proof.
  intros Hd Hn He. pose proof (digits_range m _ Hd) as Hm. assert (H2 : 0 < 2 ^ n) by (apply Z.pow_pos_nonneg; lia).
  unfold binary_round_aux, shr_fexp at 1. cbn [Zdigits2]. rewrite Hd. replace (fexp 53 1024 (53 + n + e) - e) with n by (unfold fexp, emin; lia).
  destruct n as [|p|p]; [lia| |lia]. cbn [shr shr_record_of_loc].
  set (mrs := SpecFloat.iter_pos _ _ _). assert (Eq : shr_m mrs = Z.pos m / 2 ^ Z.pos p) by (unfold mrs; by rewrite iter_shr).
  set (q := shr_m mrs) in *. clearbody mrs.
  assert (Hq : 2 ^ 52 <= q < 2 ^ 53).
  { rewrite Eq. replace (53 + Z.pos p - 1) with (52 + Z.pos p) in Hm by lia. rewrite !Z.pow_add_r in Hm by lia. split; [apply Z.div_le_lower_bound; lia|apply Z.div_lt_upper_bound; lia]. }
  assert (Hdiv : 2 ^ Z.pos p * q <= Z.pos m < 2 ^ Z.pos p * (q + 1)).
  { rewrite Eq. pose proof (Z.mul_div_le (Z.pos m) (2 ^ Z.pos p) H2). pose proof (Z.mul_succ_div_gt (Z.pos m) (2 ^ Z.pos p) H2). lia. }
  pose proof (nearest_range q (loc_of_shr_record mrs)) as Hr. set (r := round_nearest_even q (loc_of_shr_record mrs)) in *. clearbody r.
  assert (HT : forall T, (2 ^ Z.pos p | T) -> (T <= Z.pos m -> T <= r * 2 ^ Z.pos p) /\ (Z.pos m < T -> r * 2 ^ Z.pos p <= T)).
  { intros T [t ->]. split; intros Hle; apply Z.mul_le_mono_nonneg_r; try lia; nia. }
  clear Eq Hdiv Hd Hm. destruct r as [|r|r]; [lia| |lia]. unfold shr_fexp. cbn [Zdigits2 shr_record_of_loc].
  destruct (decide (Z.pos r = 2 ^ 53)) as [E|E].
  - assert (r = 9007199254740992%positive) as -> by (change (2 ^ 53) with 9007199254740992 in E; congruence). exists (2 ^ 52)%positive, (e + Z.pos p + 1).
    assert (Ed : Z.pos (digits2_pos 9007199254740992) = 54) by reflexivity. rewrite Ed. replace (fexp 53 1024 (54 + (e + Z.pos p)) - (e + Z.pos p)) with 1 by (unfold fexp, emin; lia).
    cbn [shr SpecFloat.iter_pos shr_1 shr_m]. destruct (Z.leb_spec (e + Z.pos p + 1) (1024 - 53)); [|lia]. split_and!; [done|lia|lia|].
    replace (e + Z.pos p + 1 - e) with (Z.pos p + 1) by lia. rewrite Z.pow_add_r by lia. intros T HTd. destruct (HT T HTd) as [H3 H4]. split; intros Hle; [specialize (H3 Hle)|specialize (H4 Hle)]; lia.
  - exists r, (e + Z.pos p). rewrite (digits_unique r 53) by lia. replace (fexp 53 1024 (53 + (e + Z.pos p)) - (e + Z.pos p)) with 0 by (unfold fexp, emin; lia).
    cbn [shr shr_m]. destruct (Z.leb_spec (e + Z.pos p) (1024 - 53)); [|lia]. replace (e + Z.pos p - e) with (Z.pos p) by lia. split_and!; [done|lia|lia|exact HT].
Qed.

(** ** Sums of positive numbers *)

Lemma shl_align_value (m : positive) e e' : e' <= e -> Z.pos (shl_align m e e').1 = Z.pos m * 2 ^ (e - e').
Proof.
  intros He. unfold shl_align. destruct (e' - e) as [|d|d] eqn:E; [replace (e - e') with 0 by lia; cbn; lia|lia|].
  replace (e - e') with (Z.pos d) by lia. cbn [fst]. rewrite <- Z.shiftl_mul_pow2 by lia. exact (Pos.iter_swap_gen _ _ Z.pos xO (Z.mul 2) ltac:(done) d m).
Qed.

(** A sum that is between two integers, well before the next one, is so when it is rounded
    and loses its fraction. *)
Lemma normalize_to_int sum e lo hi : e <= -53 -> -900 <= e -> 0 < lo -> hi < 2 ^ 17 - 1 -> lo * 2 ^ (- e) <= sum -> sum < (4 * hi + 3) * 2 ^ (- e - 2) ->
  exists z, double_to_int (binary_normalize 53 1024 sum e false) = Some z /\ lo <= z <= hi.
Proof.
  intros He He' Hlo Hhi Hl Hh. assert (Hp : 0 < 2 ^ (- e - 2)) by (apply Z.pow_pos_nonneg; lia).
  assert (Hpe : 2 ^ (- e) = 4 * 2 ^ (- e - 2)) by (change 4 with (2 ^ 2); rewrite <- Z.pow_add_r by lia; f_equal; lia).
  destruct sum as [|sum|sum]; [nia| |nia]. set (n := Z.log2 (Z.pos sum) - 52).
  assert (Hn : - e - 52 <= n <= - e - 36).
  { unfold n. split; [enough (- e <= Z.log2 (Z.pos sum)) by lia; apply Z.log2_le_pow2; nia|].
    enough (Z.log2 (Z.pos sum) < - e + 17) by lia. apply Z.log2_lt_pow2; [lia|]. rewrite Z.pow_add_r, Hpe by lia. nia. }
  assert (Hd : Z.pos (digits2_pos sum) = 53 + n) by (rewrite digits_log2; lia). clearbody n.
  cbn [binary_normalize]. unfold binary_round. rewrite Hd. unfold shl_align. replace (fexp 53 1024 (53 + n + e) - e) with n by (unfold fexp, emin; lia).
  destruct n as [|n|n]; [lia| |lia]. destruct (round_between false sum e (Z.pos n) Hd ltac:(lia) ltac:(lia)) as (M & E & -> & HE & HT).
  assert (Hdiv : forall k, (2 ^ Z.pos n | k * 2 ^ (- e - 2))).
  { intros k. exists (k * 2 ^ (- e - 2 - Z.pos n)). rewrite <- Z.mul_assoc, <- Z.pow_add_r by lia. do 2 f_equal. lia. }
  destruct (HT (lo * 4 * 2 ^ (- e - 2)) (Hdiv _)) as [H1 _]. destruct (HT ((4 * hi + 3) * 2 ^ (- e - 2)) (Hdiv _)) as [_ H2].
  specialize (H1 ltac:(lia)). specialize (H2 Hh). cbn [double_to_int double_trunc]. destruct (Z.ltb_spec E 0); [|lia].
  assert (HEe : 2 ^ (- e) = 2 ^ (- E) * 2 ^ (E - e)) by (rewrite <- Z.pow_add_r by lia; f_equal; lia).
  assert (0 < 2 ^ (- E)) by (apply Z.pow_pos_nonneg; lia). assert (0 < 2 ^ (E - e)) by (apply Z.pow_pos_nonneg; lia).
  assert (Hz : lo <= Z.pos M / 2 ^ (- E) <= hi).
  { split; [apply Z.div_le_lower_bound; nia|]. enough (Z.pos M / 2 ^ (- E) < hi + 1) by lia. apply Z.div_lt_upper_bound; nia. }
  exists (Z.pos M / 2 ^ (- E)). split; [|done]. destruct (Z.leb_spec (- 2 ^ 31) (Z.pos M / 2 ^ (- E))); [|lia]. destruct (Z.ltb_spec (Z.pos M / 2 ^ (- E)) (2 ^ 31)); [done|lia].
Qed.

(** *** Comparisons with small integers *)

Lemma finite_lt m1 e1 m2 e2 : double_lt (S754_finite false m1 e1) (S754_finite false m2 e2) = true <-> e1 < e2 \/ (e1 = e2 /\ Z.pos m1 < Z.pos m2).
Proof.
  unfold double_lt, SFltb. cbn [SFcompare]. change (Pos.compare_cont Eq m1 m2) with (Pos.compare m1 m2).
  destruct (Z.compare_spec e1 e2); [destruct (Pos.compare_spec m1 m2)|..]; split; intros; try done; lia.
Qed.

(** A number that is not less than 1 and is less than 100. *)
Lemma between_1_100 x : is_double x -> double_lt x (double_of_int 1) = false -> double_lt x (double_of_int 100) = true ->
  exists m e, x = S754_finite false m e /\ -52 <= e <= -46 /\ 2 ^ 52 <= Z.pos m < 2 ^ 53 /\ Z.pos m < 100 * 2 ^ (- e).
Proof.
  assert (double_of_int 1 = S754_finite false 4503599627370496 (-52)) as -> by (vm_compute; reflexivity).
  assert (double_of_int 100 = S754_finite false 7036874417766400 (-46)) as -> by (vm_compute; reflexivity).
  destruct x as [[]|[]| |[] m e]; try done. intros Hv Hlo Hhi%finite_lt. apply not_true_iff_false in Hlo. rewrite finite_lt in Hlo.
  apply andb_true_iff in Hv as [Hc _]. apply Z.eqb_eq in Hc. exists m, e. split; [done|]. assert (He : -52 <= e <= -46) by lia.
  assert (Hd : Z.pos (digits2_pos m) = 53) by (unfold fexp, emin in Hc; lia). apply digits_range in Hd. change (53 - 1) with 52 in Hd.
  split_and!; [lia|lia|lia|lia|]. destruct Hhi as [Hlt|[-> Hlt]].
  - assert (2 ^ 47 <= 2 ^ (- e)) by (apply Z.pow_le_mono_r; lia). lia.
  - assert (100 * 2 ^ (- -46) = 7036874417766400) as -> by (vm_compute; reflexivity). done.
Qed.
