(* ===== verification/Bloom.v ===== *)
(** * Bloom filters ([util/bloom_impl.h], [table/block_based/filter_policy.cc])

    The filters that the programs turn on with [NewBloomFilterPolicy]: the three
    implementations of probing (the one local to a cache line with its AVX2 code, and the two
    legacy ones), the builders and readers of filters with their metadata, and full filter
    blocks ([table/block_based/full_filter_block.cc]) with lookups of a range of keys
    ([table/multiget_context.h]). The number of bits per key is a double; whether the
    compiler contracts a product and a sum of doubles is an argument. [None] is undefined behaviour (an
    access outside an array, an overflow of [int], a division by zero) or a failed
    assertion. The 64-bit hash, which is in Xxh3.v, is an argument; estimates of false positive
    rates and filters optimised for the allocator are left out. *)

From S2P Require Import Prelude Coding Hash Double.

(** ** Bits of an array *)

(** [data[base + bitpos / 8] |= 1 << (bitpos % 8)]. *)
Definition set_bit (data : bytes) (base bitpos : Z) : option bytes :=
  let i := Z.to_nat (base + bitpos / 8) in
  b ← data !! i;
  Some (<[i := u8 (Z.lor b (Z.shiftl 1 (bitpos mod 8)))]> data).

(** [(data[base + bitpos / 8] & (1 << (bitpos % 8))) != 0]. *)
Definition get_bit (data : bytes) (base bitpos : Z) : option bool :=
  b ← data !! Z.to_nat (base + bitpos / 8);
  Some (negb (Z.land b (Z.shiftl 1 (bitpos mod 8)) =? 0)).

(** The loops of all implementations: [bitpos] of the hash, and the hash of the next probe. *)
Section Probes.
Context (bitpos next : Z -> Z).

Fixpoint add_probes (num_probes : nat) (h : Z) (base : Z) (data : bytes) : option bytes :=
  match num_probes with
  | O => Some data
  | S n => data ← set_bit data base (bitpos h); add_probes n (next h) base data
  end.

Fixpoint may_match_probes (num_probes : nat) (h : Z) (base : Z) (data : bytes) : option bool :=
  match num_probes with
  | O => Some true
  | S n => b ← get_bit data base (bitpos h); if b : bool then may_match_probes n (next h) base data else Some false
  end.
End Probes.

(** ** FastLocalBloomImpl *)

Definition fast_ChooseNumProbes (millibits_per_key : Z) : Z :=
  if millibits_per_key <=? 2080 then 1
  else if millibits_per_key <=? 3580 then 2
  else if millibits_per_key <=? 5100 then 3
  else if millibits_per_key <=? 6640 then 4
  else if millibits_per_key <=? 8300 then 5
  else if millibits_per_key <=? 10070 then 6
  else if millibits_per_key <=? 11720 then 7
  else if millibits_per_key <=? 14001 then 8
  else if millibits_per_key <=? 16050 then 9
  else if millibits_per_key <=? 18300 then 10
  else if millibits_per_key <=? 22001 then 11
  else if millibits_per_key <=? 25501 then 12
  else if 50000 <? millibits_per_key then 24
  else (millibits_per_key - 1) / 2000 - 1.

Definition golden : Z := 0x9e3779b9.

(** The 9-bit address within the 512 bits of a cache line. *)
Definition line_bitpos (h : Z) : Z := Z.shiftr h (32 - 9).
Definition remix (h : Z) : Z := u32 (h * golden).

Definition fast_AddHashPrepared (h2 num_probes : Z) (data : bytes) (at_cache_line : Z) : option bytes :=
  add_probes line_bitpos remix (Z.to_nat num_probes) h2 at_cache_line data.

(** The arguments of [fastrange32] are in this order in the source. *)
Definition fast_PrepareHash (h1 len_bytes : Z) : Z := u32 (Z.shiftl (fastrange32 (Z.shiftr len_bytes 6) h1) 6).

Definition fast_AddHash (h1 h2 len_bytes num_probes : Z) (data : bytes) : option bytes :=
  fast_AddHashPrepared h2 num_probes data (fast_PrepareHash h1 len_bytes).

(** *** Without AVX2 *)
Definition MayMatchPortable (h2 num_probes : Z) (data : bytes) (at_cache_line : Z) : option bool :=
  may_match_probes line_bitpos remix (Z.to_nat num_probes) h2 at_cache_line data.

(** *** With AVX2: a register is a list of eight 32-bit words *)
Definition mm_set1 (x : Z) : list Z := replicate 8 (u32 x).
Definition mm_mullo (a b : list Z) : list Z := zip_with (fun x y => u32 (x * y)) a b.
Definition mm_srli (a : list Z) (n : Z) : list Z := (fun x => Z.shiftr x n) <$> a.
Definition mm_slli (a : list Z) (n : Z) : list Z := (fun x => u32 (Z.shiftl x n)) <$> a.
(** An arithmetic shift fills with the sign. *)
Definition mm_srai (a : list Z) (n : Z) : list Z := (fun x => u32 (Z.shiftr (i32 x) n)) <$> a.
Definition mm_sub (a b : list Z) : list Z := zip_with (fun x y => u32 (x - y)) a b.
(** A shift by 32 or more gives 0. *)
Definition mm_sllv (a b : list Z) : list Z := zip_with (fun x n => if n <? 32 then u32 (Z.shiftl x n) else 0) a b.
(** The lowest three bits of an index count. *)
Definition mm_permutevar8x32 (a idx : list Z) : list Z := (fun i => nth (Z.to_nat (Z.land i 7)) a 0) <$> idx.
(** A byte of the result is from [b] where the top bit of the byte of the mask is set. *)
Definition blend_byte (x y m : Z) (i : nat) : Z :=
  let s := if Z.testbit m (8 * Z.of_nat i + 7) then y else x in Z.land (Z.shiftr s (8 * Z.of_nat i)) 255.
Definition blend_word (x y m : Z) : Z := memcpy_to 4 (blend_byte x y m <$> seq 0 4).
Fixpoint mm_blendv (a b mask : list Z) : list Z :=
  match a, b, mask with
  | x :: a', y :: b', m :: mask' => blend_word x y m :: mm_blendv a' b' mask'
  | _, _, _ => []
  end.
(** Whether [b] has no bit that [a] does not have. *)
Definition mm_testc (a b : list Z) : bool := forallb (fun xy => Z.land (Z.lxor xy.1 0xffffffff) xy.2 =? 0) (zip a b).
(** Eight little-endian words from byte [base] on. *)
Definition mm_loadu (data : bytes) (base : Z) : option (list Z) :=
  if base + 32 <=? zlen data then Some ((fun i => memcpy_to 4 (drop (Z.to_nat base + 4 * i) data)) <$> seq 0 8) else None.

Definition multipliers : list Z := [0x00000001; 0x9e3779b9; 0xe35e67b1; 0x734297e9; 0x35fbe861; 0xdeb7c719; 0x448b211; 0x3459b749].

(** One round of the loop: whether the next up to eight probes match. *)
Definition avx2_round (h rem_probes : Z) (data : bytes) (at_cache_line : Z) : option bool :=
  let hash_vector := mm_mullo (mm_set1 h) multipliers in
  let word_addresses := mm_srli hash_vector 28 in
  lower ← mm_loadu data at_cache_line;
  upper ← mm_loadu data (at_cache_line + 32);
  let lower := mm_permutevar8x32 lower word_addresses in
  let upper := mm_permutevar8x32 upper word_addresses in
  let upper_lower_selector := mm_srai hash_vector 31 in
  let value_vector := mm_blendv lower upper upper_lower_selector in
  let zero_to_seven := [0; 1; 2; 3; 4; 5; 6; 7] in
  let k_selector := mm_srli (mm_sub zero_to_seven (mm_set1 rem_probes)) 31 in
  let bit_addresses := mm_srli (mm_slli hash_vector 4) 27 in
  let bit_mask := mm_sllv k_selector bit_addresses in
  Some (mm_testc value_vector bit_mask).

(** Each round but the last takes eight probes: [num_probes] rounds are enough. *)
Fixpoint avx2_loop (fuel : nat) (h rem_probes : Z) (data : bytes) (at_cache_line : Z) : option bool :=
  match fuel with
  | O => None
  | S fuel' =>
      matched ← avx2_round h rem_probes data at_cache_line;
      if rem_probes <=? 8 then Some matched
      else if negb matched then Some false
      else avx2_loop fuel' (u32 (h * 0xab25f4c1)) (rem_probes - 8) data at_cache_line
  end.

Definition MayMatchAvx2 (h2 num_probes : Z) (data : bytes) (at_cache_line : Z) : option bool :=
  avx2_loop (S (Z.to_nat num_probes)) h2 num_probes data at_cache_line.

Definition fast_HashMayMatchPrepared (have_avx2 : bool) : Z -> Z -> bytes -> Z -> option bool :=
  if have_avx2 then MayMatchAvx2 else MayMatchPortable.

Definition fast_HashMayMatch (have_avx2 : bool) (h1 h2 len_bytes num_probes : Z) (data : bytes) : option bool :=
  fast_HashMayMatchPrepared have_avx2 h2 num_probes data (fast_PrepareHash h1 len_bytes).

(** ** LegacyNoLocalityBloomImpl *)

(** [bits_per_key * 0.69] is less than the [int], and so fits one. *)
Definition legacy_ChooseNumProbes (bits_per_key : Z) : Z :=
  let num_probes := double_trunc (double_mul (double_of_int bits_per_key) (double_of_ratio 69 100)) in
  let num_probes := if num_probes <? 1 then 1 else num_probes in
  if 30 <? num_probes then 30 else num_probes.

(** Rotate right 17 bits. *)
Definition delta_of (h : Z) : Z := Z.lor (Z.shiftr h 17) (u32 (Z.shiftl h 15)).

Definition nolocality_AddHash (h total_bits num_probes : Z) (data : bytes) : option bytes :=
  let delta := delta_of h in
  if total_bits =? 0 then if 0 <? num_probes then None else Some data
  else add_probes (fun h => h mod total_bits) (fun h => u32 (h + delta)) (Z.to_nat num_probes) h 0 data.

Definition nolocality_HashMayMatch (h total_bits num_probes : Z) (data : bytes) : option bool :=
  let delta := delta_of h in
  if total_bits =? 0 then if 0 <? num_probes then None else Some true
  else may_match_probes (fun h => h mod total_bits) (fun h => u32 (h + delta)) (Z.to_nat num_probes) h 0 data.

(** ** LegacyLocalityBloomImpl *)

Section Locality.
Context (ExtraRotates : bool).

Definition GetLine (h num_lines : Z) : option Z :=
  let offset_h := if ExtraRotates then Z.lor (Z.shiftr h 11) (u32 (Z.shiftl h 21)) else h in
  if num_lines =? 0 then None else Some (offset_h mod num_lines).

(** [GetLine(h, num_lines) << log2_cache_line_bytes]. *)
Definition locality_PrepareHashMayMatch (h num_lines log2_cache_line_bytes : Z) : option Z :=
  line ← GetLine h num_lines;
  if log2_cache_line_bytes <? 32 then Some (u32 (Z.shiftl line log2_cache_line_bytes)) else None.

Definition locality_bitpos (log2_cache_line_bits h : Z) : Z := Z.land h (Z.shiftl 1 log2_cache_line_bits - 1).

Definition locality_next (log2_cache_line_bits delta h : Z) : Z :=
  let h := if ExtraRotates then Z.lor (Z.shiftr h log2_cache_line_bits) (u32 (Z.shiftl h (32 - log2_cache_line_bits))) else h in
  u32 (h + delta).

(** [1 << log2_cache_line_bits] is an [int]. *)
Definition locality_AddHash (h num_lines num_probes : Z) (data : bytes) (log2_cache_line_bytes : Z) : option bytes :=
  let log2_cache_line_bits := log2_cache_line_bytes + 3 in
  at_offset ← locality_PrepareHashMayMatch h num_lines log2_cache_line_bytes;
  if (0 <? num_probes) && (30 <? log2_cache_line_bits) then None
  else add_probes (locality_bitpos log2_cache_line_bits) (locality_next log2_cache_line_bits (delta_of h)) (Z.to_nat num_probes) h at_offset data.

Definition locality_HashMayMatchPrepared (h num_probes : Z) (data : bytes) (at_offset log2_cache_line_bytes : Z) : option bool :=
  let log2_cache_line_bits := log2_cache_line_bytes + 3 in
  if (0 <? num_probes) && (30 <? log2_cache_line_bits) then None
  else may_match_probes (locality_bitpos log2_cache_line_bits) (locality_next log2_cache_line_bits (delta_of h)) (Z.to_nat num_probes) h at_offset data.

Definition locality_HashMayMatch (h num_lines num_probes : Z) (data : bytes) (log2_cache_line_bytes : Z) : option bool :=
  at_offset ← locality_PrepareHashMayMatch h num_lines log2_cache_line_bytes;
  locality_HashMayMatchPrepared h num_probes data at_offset log2_cache_line_bytes.
End Locality.

(** ** Builders *)

(** [CACHE_LINE_SIZE] of the x86 builds. *)
Definition CACHE_LINE_SIZE : Z := 64.

Fixpoint constexpr_log2_ (fuel : nat) (a e : Z) : Z :=
  match fuel with
  | O => a
  | S fuel' => if e =? 1 then a else constexpr_log2_ fuel' (a + 1) (e / 2)
  end.
Definition constexpr_log2 (t : Z) : Z := constexpr_log2_ (Z.to_nat t) 0 t.

(** [AddKey] of both builders: a hash that equals the last one is left out. *)
Definition push_hash (hash : Z) (hash_entries : list Z) : list Z :=
  match last hash_entries with
  | Some b => if hash =? b then hash_entries else hash_entries ++ [hash]
  | None => [hash]
  end.

(** *** FastLocalBloomBitsBuilder, without [optimize_filters_for_memory] *)

Definition fast_CalculateSpace (millibits_per_key num_entry : Z) : Z :=
  let raw_target_len := u64 (u64 (num_entry * millibits_per_key) + 7999) / 8000 in
  let raw_target_len := if 0xffffffc0 <=? raw_target_len then 0xffffffc0 else raw_target_len in
  let target_len := Z.land (u32 (raw_target_len + 63)) (Z.lxor 0xffffffff 63) in
  u32 (target_len + 5).

Definition fast_CalculateNumEntry (millibits_per_key bytes : Z) : Z :=
  let bytes_no_meta := if 5 <=? bytes then bytes - 5 else 0 in
  i32 (u64 (8000 * bytes_no_meta) / millibits_per_key).

(** What [AddAllEntries] keeps: the deque, and the arrays [hashes] and [byte_offsets],
    which are not initialised. *)
Record AddBuffer := mkAddBuffer { ab_entries : list Z; ab_hashes : list (option Z); ab_byte_offsets : list (option Z) }.

(** Takes the hash at the front of the deque into slot [i]. *)
Definition buffer_hash (len : Z) (i : nat) (b : AddBuffer) : option AddBuffer :=
  match ab_entries b with
  | [] => None
  | h :: rest =>
      if (i <? length (ab_hashes b))%nat then
        Some (mkAddBuffer rest (<[i := Some (Upper32of64 h)]> (ab_hashes b)) (<[i := Some (fast_PrepareHash (Lower32of64 h) len)]> (ab_byte_offsets b)))
      else None
  end.

(** [AddHashPrepared] for slot [i]. *)
Definition process_hash (num_probes : Z) (i : nat) (b : AddBuffer) (data : bytes) : option bytes :=
  hash ← mjoin (ab_hashes b !! i);
  byte_offset ← mjoin (ab_byte_offsets b !! i);
  fast_AddHashPrepared hash num_probes data byte_offset.

Definition kBufferMask : nat := 7.

(** Prime the buffer: slots [i] on, [todo] of them. *)
Fixpoint prime_loop (todo : nat) (len : Z) (i : nat) (b : AddBuffer) : option AddBuffer :=
  match todo with
  | O => Some b
  | S todo' => b ← buffer_hash len i b; prime_loop todo' len (S i) b
  end.

Fixpoint process_loop (todo : nat) (len num_probes : Z) (i : nat) (b : AddBuffer) (data : bytes) : option (AddBuffer * bytes) :=
  match todo with
  | O => Some (b, data)
  | S todo' =>
      let slot := Nat.land i kBufferMask in
      data ← process_hash num_probes slot b data;
      b ← buffer_hash len slot b;
      process_loop todo' len num_probes (S i) b data
  end.

Fixpoint finish_loop (todo : nat) (num_probes : Z) (i : nat) (b : AddBuffer) (data : bytes) : option bytes :=
  match todo with
  | O => Some data
  | S todo' => data ← process_hash num_probes i b data; finish_loop todo' num_probes (S i) b data
  end.

(** The deque that is left, and the data. *)
Definition AddAllEntries (hash_entries : list Z) (data : bytes) (len num_probes : Z) : option (list Z * bytes) :=
  let num_entries := length hash_entries in
  let primed := Nat.min (S kBufferMask) num_entries in
  b ← prime_loop primed len 0 (mkAddBuffer hash_entries (replicate (S kBufferMask) None) (replicate (S kBufferMask) None));
  '(b, data) ← process_loop (num_entries - primed) len num_probes primed b data;
  data ← finish_loop primed num_probes 0 b data;
  Some (ab_entries b, data).

(** The version without prefetching that the comment in the source gives. *)
Fixpoint AddAllEntries_simple (hash_entries : list Z) (data : bytes) (len num_probes : Z) : option bytes :=
  match hash_entries with
  | [] => Some data
  | h :: rest => data ← fast_AddHash (Lower32of64 h) (Upper32of64 h) len num_probes data; AddAllEntries_simple rest data len num_probes
  end.

(** [data[i] = b]. *)
Definition store_byte (i b : Z) (data : bytes) : option bytes :=
  if (0 <=? i) && (i <? zlen data) then Some (<[Z.to_nat i := u8 b]> data) else None.

Definition fast_Finish (millibits_per_key : Z) (hash_entries : list Z) : option bytes :=
  let len_with_metadata := fast_CalculateSpace millibits_per_key (zlen hash_entries) in
  if len_with_metadata <? 5 then None
  else
    let buf := replicate (Z.to_nat len_with_metadata) 0 in
    let num_probes := fast_ChooseNumProbes millibits_per_key in
    let len := len_with_metadata - 5 in
    '(hash_entries, buf) ← (if 0 <? len then AddAllEntries hash_entries buf len num_probes else Some (hash_entries, buf));
    match hash_entries with
    | [] =>
        buf ← store_byte len (-1) buf;
        buf ← store_byte (len + 1) 0 buf;
        store_byte (len + 2) num_probes buf
    | _ => None
    end.

(** *** LegacyBloomBitsBuilder *)

Definition GetTotalBitsForLocality (total_bits : Z) : Z :=
  let num_lines := u32 (total_bits + CACHE_LINE_SIZE * 8 - 1) / (CACHE_LINE_SIZE * 8) in
  let num_lines := if num_lines mod 2 =? 0 then u32 (num_lines + 1) else num_lines in
  u32 (num_lines * (CACHE_LINE_SIZE * 8)).

(** The space, [total_bits] and [num_lines]; [num_entry * bits_per_key] is an [int]. *)
Definition legacy_CalculateSpace (bits_per_key num_entry : Z) : option (Z * Z * Z) :=
  if bits_per_key =? 0 then None
  else if num_entry =? 0 then Some (5, 0, 0)
  else if (- 2 ^ 31 <=? num_entry * bits_per_key) && (num_entry * bits_per_key <? 2 ^ 31) then
    let total_bits := GetTotalBitsForLocality (u32 (num_entry * bits_per_key)) in
    let num_lines := total_bits / (CACHE_LINE_SIZE * 8) in
    if (0 <? total_bits) && (total_bits mod 8 =? 0) then Some (u32 (total_bits / 8 + 5), total_bits, num_lines) else None
  else None.

(** [for (; n >= low; n--)]. *)
Fixpoint num_entry_loop (fuel : nat) (bits_per_key bytes low n : Z) : option Z :=
  match fuel with
  | O => None
  | S fuel' =>
      if low <=? n then
        '(sz, _, _) ← legacy_CalculateSpace bits_per_key n;
        if sz <=? bytes then Some n else num_entry_loop fuel' bits_per_key bytes low (n - 1)
      else Some n
  end.

Definition legacy_CalculateNumEntry (bits_per_key bytes : Z) : option Z :=
  if (bits_per_key =? 0) || (bytes =? 0) then None
  else
    let high := i32 (u32 (u32 (bytes * 8) / bits_per_key + 1)) in
    n ← num_entry_loop (S (Z.to_nat high)) bits_per_key bytes 1 high;
    if n <? high then Some n else None.

Fixpoint legacy_add_loop (hash_entries : list Z) (num_lines num_probes : Z) (data : bytes) : option bytes :=
  match hash_entries with
  | [] => Some data
  | h :: rest => data ← locality_AddHash false h num_lines num_probes data (constexpr_log2 CACHE_LINE_SIZE); legacy_add_loop rest num_lines num_probes data
  end.

(** [memcpy] of [b] to [data + i]. *)
Definition store_bytes (i : Z) (b data : bytes) : option bytes :=
  if (0 <=? i) && (i + zlen b <=? zlen data) then Some (take (Z.to_nat i) data ++ b ++ drop (Z.to_nat i + length b) data) else None.

Definition legacy_Finish (bits_per_key num_probes : Z) (hash_entries : list Z) : option bytes :=
  '(sz, total_bits, num_lines) ← legacy_CalculateSpace bits_per_key (i32 (zlen hash_entries));
  let data := replicate (Z.to_nat sz) 0 in
  data ← (if negb (total_bits =? 0) && negb (num_lines =? 0) then legacy_add_loop hash_entries num_lines num_probes data else Some data);
  data ← store_byte (total_bits / 8) num_probes data;
  data ← store_bytes (total_bits / 8 + 1) (EncodeFixed32 num_lines) data;
  Some (take (Z.to_nat (total_bits / 8 + 5)) data).

(** ** The policy *)

Inductive Mode := kLegacyBloom | kDeprecatedBlock | kFastLocalBloom | kAuto.

Record BloomFilterPolicy := mkPolicy { mode_ : Mode; millibits_per_key_ : Z; whole_bits_per_key_ : Z }.

(** [bits_per_key * 1000.0 + 0.500001], which the compiler may contract to one operation. *)
Definition nudged_millibits (contracted : bool) (bits_per_key : double) : double :=
  if contracted then double_fma bits_per_key (double_of_int 1000) (double_of_ratio 500001 1000000)
  else double_add (double_mul bits_per_key (double_of_int 1000)) (double_of_ratio 500001 1000000).

Definition BloomFilterPolicy_new (contracted : bool) (bits_per_key : double) (mode : Mode) : option BloomFilterPolicy :=
  let bits_per_key :=
    if double_lt bits_per_key (double_of_int 1) then double_of_int 1
    else if negb (double_lt bits_per_key (double_of_int 100)) then double_of_int 100 else bits_per_key in
  millibits_per_key ← double_to_int (nudged_millibits contracted bits_per_key);
  Some (mkPolicy mode millibits_per_key ((millibits_per_key + 500) / 1000)).

Definition NewBloomFilterPolicy (contracted : bool) (bits_per_key : double) (use_block_based_builder : bool) : option BloomFilterPolicy :=
  BloomFilterPolicy_new contracted bits_per_key (if use_block_based_builder then kDeprecatedBlock else kAuto).

Inductive FilterBitsBuilder :=
  | FastLocalBloomBitsBuilder (millibits_per_key : Z) (hash_entries : list Z)
  | LegacyBloomBitsBuilder (bits_per_key num_probes : Z) (hash_entries : list Z).

(** The loop: at most [n] turns of the switch. The result is a null pointer or a builder. *)
Fixpoint builder_loop (n : nat) (p : BloomFilterPolicy) (format_version : Z) (cur : Mode) : option (option FilterBitsBuilder) :=
  match n with
  | O => None
  | S n' =>
      match cur with
      | kAuto => builder_loop n' p format_version (if format_version <? 5 then kLegacyBloom else kFastLocalBloom)
      | kDeprecatedBlock => Some None
      | kFastLocalBloom => if 1000 <=? millibits_per_key_ p then Some (Some (FastLocalBloomBitsBuilder (millibits_per_key_ p) [])) else None
      | kLegacyBloom =>
          if whole_bits_per_key_ p =? 0 then None
          else Some (Some (LegacyBloomBitsBuilder (whole_bits_per_key_ p) (legacy_ChooseNumProbes (whole_bits_per_key_ p)) []))
      end
  end.

Definition GetBuilderWithContext (p : BloomFilterPolicy) (format_version : Z) : option (option FilterBitsBuilder) :=
  builder_loop 2 p format_version (mode_ p).

(** *** Block-based filters, which are deprecated *)

Fixpoint create_loop (keys : list bytes) (bits num_probes : Z) (array : bytes) : option bytes :=
  match keys with
  | [] => Some array
  | k :: keys' => array ← nolocality_AddHash (BloomHash k) bits num_probes array; create_loop keys' bits num_probes array
  end.

Definition CreateFilter (p : BloomFilterPolicy) (keys : list bytes) (dst : bytes) : option bytes :=
  let n := zlen keys in
  match mode_ p with
  | kDeprecatedBlock =>
      if n * whole_bits_per_key_ p <? 2 ^ 31 then
        let bits := u32 (n * whole_bits_per_key_ p) in
        let bits := if bits <? 64 then 64 else bits in
        let len := u32 (bits + 7) / 8 in
        let bits := u32 (len * 8) in
        let num_probes := legacy_ChooseNumProbes (whole_bits_per_key_ p) in
        array ← create_loop keys bits num_probes (replicate (Z.to_nat len) 0 ++ [u8 num_probes]);
        Some (dst ++ array)
      else None
  | _ => None
  end.

Definition KeyMayMatch (key bloom_filter : bytes) : option bool :=
  let len := zlen bloom_filter in
  if (len <? 2) || (0xffffffff <? len) then Some false
  else
    let bits := u32 (u32 (len - 1) * 8) in
    k ← last bloom_filter;
    if 30 <? k then Some true else nolocality_HashMayMatch (BloomHash key) bits k bloom_filter.

(** ** Readers *)

Inductive FilterBitsReader :=
  | AlwaysTrueFilter
  | AlwaysFalseFilter
  | LegacyBloomBitsReader (data : bytes) (num_probes num_lines log2_cache_line_size : Z)
  | FastLocalBloomBitsReader (data : bytes) (num_probes len_bytes : Z).

(** [while ((num_lines << log2_cache_line_size) < len)]; to shift by 32 is undefined. *)
Fixpoint cache_line_loop (fuel : nat) (num_lines len log2_cache_line_size : Z) : option Z :=
  match fuel with
  | O => None
  | S fuel' =>
      if u32 (Z.shiftl num_lines log2_cache_line_size) <? len then cache_line_loop fuel' num_lines len (log2_cache_line_size + 1)
      else Some log2_cache_line_size
  end.

(** [static_cast<int8_t>(c)]. *)
Definition int8 (c : Z) : Z := if c <? 128 then c else c - 256.

Definition GetBloomBitsReader (contents : bytes) : option FilterBitsReader :=
  let len_with_meta := u32 (zlen contents) in
  let len := len_with_meta - 5 in
  if len <=? 0 then None
  else
    sub_impl_val ← contents !! Z.to_nat (len_with_meta - 4);
    block_and_probes ← contents !! Z.to_nat (len_with_meta - 3);
    let log2_block_bytes := Z.land (Z.shiftr (int8 block_and_probes) 5) 7 + 6 in
    let num_probes := Z.land (int8 block_and_probes) 31 in
    if (num_probes <? 1) || (30 <? num_probes) then Some AlwaysTrueFilter
    else
      let rest := DecodeFixed16 (drop (Z.to_nat (len_with_meta - 2)) contents) in
      if negb (rest =? 0) then Some AlwaysTrueFilter
      else if (sub_impl_val =? 0) && (log2_block_bytes =? 6) then Some (FastLocalBloomBitsReader contents num_probes len)
      else Some AlwaysTrueFilter.

Definition GetFilterBitsReader (contents : bytes) : option FilterBitsReader :=
  let len_with_meta := u32 (zlen contents) in
  if len_with_meta <=? 5 then Some AlwaysFalseFilter
  else
    c ← contents !! Z.to_nat (len_with_meta - 5);
    let raw_num_probes := int8 c in
    if raw_num_probes <? 1 then
      if raw_num_probes =? -1 then GetBloomBitsReader contents else Some AlwaysTrueFilter
    else
      let len := len_with_meta - 5 in
      let num_lines := DecodeFixed32 (drop (Z.to_nat (len_with_meta - 4)) contents) in
      if u32 (num_lines * CACHE_LINE_SIZE) =? len then
        Some (LegacyBloomBitsReader contents raw_num_probes num_lines (constexpr_log2 CACHE_LINE_SIZE))
      else if (num_lines =? 0) || negb (len mod num_lines =? 0) then Some AlwaysTrueFilter
      else
        log2_cache_line_size ← cache_line_loop 32 num_lines len 0;
        if negb (u32 (Z.shiftl num_lines log2_cache_line_size) =? len) then Some AlwaysTrueFilter
        else Some (LegacyBloomBitsReader contents raw_num_probes num_lines log2_cache_line_size).

(** ** Ranges of keys of a MultiGet *)

(** The size of the arrays for several keys. *)
Definition MAX_BATCH_SIZE : Z := 32.

(** The [ukey] of every key, and a bit for each that is done. *)
Record MultiGetContext := mkMultiGet { sorted_keys_ : list bytes; value_mask_ : Z }.

(** A bit is set for each key that is skipped. *)
Record Range := mkRange { rg_start : nat; rg_end : nat; rg_skip_mask : Z }.

Definition range_skipped (ctx : MultiGetContext) (range : Range) (index : nat) : bool :=
  Z.testbit (Z.lor (value_mask_ ctx) (rg_skip_mask range)) (Z.of_nat index).

(** The loop of an iterator from [index] on, with [end - index] in [todo]. *)
Fixpoint range_advance (todo : nat) (ctx : MultiGetContext) (range : Range) (index : nat) : nat :=
  match todo with
  | O => index
  | S todo' => if range_skipped ctx range index then range_advance todo' ctx range (S index) else index
  end.

(** [begin()] and [operator++]. *)
Definition range_begin (ctx : MultiGetContext) (range : Range) : nat := range_advance (rg_end range - rg_start range) ctx range (rg_start range).
Definition range_next (ctx : MultiGetContext) (range : Range) (index : nat) : nat := range_advance (rg_end range - S index) ctx range (S index).

(** [Range(mget_range, first, last)]. *)
Definition Range_copy (mget_range : Range) (first last : nat) : option Range :=
  if (first <? 64)%nat && (last <? 64)%nat then Some (mkRange first last (rg_skip_mask mget_range)) else None.

Definition SkipKey (range : Range) (index : nat) : Range :=
  mkRange (rg_start range) (rg_end range) (Z.lor (rg_skip_mask range) (2 ^ Z.of_nat index)).

Section Readers.
(** [Hash64] without a seed, and whether the code is compiled with AVX2. *)
Context (Hash64 : bytes -> Z) (have_avx2 : bool).

Definition GetSliceHash64 (key : bytes) : Z := Hash64 key.

Definition bits_AddKey (key : bytes) (b : FilterBitsBuilder) : FilterBitsBuilder :=
  match b with
  | FastLocalBloomBitsBuilder m es => FastLocalBloomBitsBuilder m (push_hash (GetSliceHash64 key) es)
  | LegacyBloomBitsBuilder bk np es => LegacyBloomBitsBuilder bk np (push_hash (BloomHash key) es)
  end.

Definition bits_Finish (b : FilterBitsBuilder) : option bytes :=
  match b with
  | FastLocalBloomBitsBuilder m es => fast_Finish m es
  | LegacyBloomBitsBuilder bk np es => legacy_Finish bk np es
  end.

Definition bits_MayMatch (r : FilterBitsReader) (key : bytes) : option bool :=
  match r with
  | AlwaysTrueFilter => Some true
  | AlwaysFalseFilter => Some false
  | LegacyBloomBitsReader data num_probes num_lines log2 =>
      let hash := BloomHash key in
      byte_offset ← locality_PrepareHashMayMatch false hash num_lines log2;
      locality_HashMayMatchPrepared false hash num_probes data byte_offset log2
  | FastLocalBloomBitsReader data num_probes len_bytes =>
      let h := GetSliceHash64 key in
      let byte_offset := fast_PrepareHash (Lower32of64 h) len_bytes in
      fast_HashMayMatchPrepared have_avx2 (Upper32of64 h) num_probes data byte_offset
  end.

(** For several keys: all hashes first, then all probes. *)
Definition bits_MayMatch_all (r : FilterBitsReader) (keys : list bytes) : option (list bool) :=
  match r with
  | LegacyBloomBitsReader data num_probes num_lines log2 =>
      if MAX_BATCH_SIZE <? zlen keys then None
      else
        prepared ← mapM (fun key => o ← locality_PrepareHashMayMatch false (BloomHash key) num_lines log2; Some (BloomHash key, o)) keys;
        mapM (fun p => locality_HashMayMatchPrepared false p.1 num_probes data p.2 log2) prepared
  | FastLocalBloomBitsReader data num_probes len_bytes =>
      if MAX_BATCH_SIZE <? zlen keys then None
      else
        let prepared := (fun key => let h := GetSliceHash64 key in (Upper32of64 h, fast_PrepareHash (Lower32of64 h) len_bytes)) <$> keys in
        mapM (fun p => fast_HashMayMatchPrepared have_avx2 p.1 num_probes data p.2) prepared
  | _ => mapM (bits_MayMatch r) keys
  end.

(** ** Full filter blocks *)

(** [InDomain] and [Transform] of a prefix extractor. *)
Record SliceTransform := mkSliceTransform { InDomain : bytes -> bool; Transform : bytes -> bytes }.

(** A string that was recorded, with its flag. *)
Record FullFilterBlockBuilder := mkFullFilter {
  prefix_extractor_ : option SliceTransform;
  whole_key_filtering_ : bool;
  last_whole_key_recorded_ : bool;
  last_whole_key_str_ : bytes;
  last_prefix_recorded_ : bool;
  last_prefix_str_ : bytes;
  num_added_ : Z;
  filter_bits_builder_ : FilterBitsBuilder
}.

Definition FullFilterBlockBuilder_new (prefix_extractor : option SliceTransform) (whole_key_filtering : bool) (b : FilterBitsBuilder) : FullFilterBlockBuilder :=
  mkFullFilter prefix_extractor whole_key_filtering false [] false [] 0 b.

Definition full_AddKey (key : bytes) (f : FullFilterBlockBuilder) : FullFilterBlockBuilder :=
  mkFullFilter (prefix_extractor_ f) (whole_key_filtering_ f) (last_whole_key_recorded_ f) (last_whole_key_str_ f) (last_prefix_recorded_ f) (last_prefix_str_ f)
    (u32 (num_added_ f + 1)) (bits_AddKey key (filter_bits_builder_ f)).

Definition record_whole_key (key : bytes) (f : FullFilterBlockBuilder) : FullFilterBlockBuilder :=
  mkFullFilter (prefix_extractor_ f) (whole_key_filtering_ f) true key (last_prefix_recorded_ f) (last_prefix_str_ f) (num_added_ f) (filter_bits_builder_ f).

Definition record_prefix (prefix : bytes) (f : FullFilterBlockBuilder) : FullFilterBlockBuilder :=
  mkFullFilter (prefix_extractor_ f) (whole_key_filtering_ f) (last_whole_key_recorded_ f) (last_whole_key_str_ f) true prefix (num_added_ f) (filter_bits_builder_ f).

Definition AddPrefix (t : SliceTransform) (key : bytes) (f : FullFilterBlockBuilder) : FullFilterBlockBuilder :=
  let prefix := Transform t key in
  if whole_key_filtering_ f then
    if negb (last_prefix_recorded_ f) || negb (bool_decide (last_prefix_str_ f = prefix)) then record_prefix prefix (full_AddKey prefix f) else f
  else full_AddKey prefix f.

Definition full_Add (key : bytes) (f : FullFilterBlockBuilder) : FullFilterBlockBuilder :=
  let add_prefix := match prefix_extractor_ f with Some t => InDomain t key | None => false end in
  let f :=
    if whole_key_filtering_ f then
      if negb add_prefix then full_AddKey key f
      else if negb (last_whole_key_recorded_ f) || negb (bool_decide (last_whole_key_str_ f = key)) then record_whole_key key (full_AddKey key f)
      else f
    else f in
  match prefix_extractor_ f with
  | Some t => if add_prefix then AddPrefix t key f else f
  | None => f
  end.

(** The contents of the block. *)
Definition full_Finish (f : FullFilterBlockBuilder) : option bytes :=
  if negb (num_added_ f =? 0) then bits_Finish (filter_bits_builder_ f) else Some [].

(** [ParsedFullFilterBlock]: a null pointer for an empty block. *)
Definition ParsedFullFilterBlock (contents : bytes) : option (option FilterBitsReader) :=
  match contents with
  | [] => Some None
  | _ => r ← GetFilterBitsReader contents; Some (Some r)
  end.

(** [FullFilterBlockReader] over a block that could be read. *)
Definition full_MayMatch (filter_bits_reader : option FilterBitsReader) (entry : bytes) : option bool :=
  match filter_bits_reader with
  | Some r => bits_MayMatch r entry
  | None => Some true
  end.

Definition full_KeyMayMatch (whole_key_filtering : bool) (filter_bits_reader : option FilterBitsReader) (key : bytes) : option bool :=
  if negb whole_key_filtering then Some true else full_MayMatch filter_bits_reader key.

Definition full_PrefixMayMatch (filter_bits_reader : option FilterBitsReader) (prefix : bytes) : option bool :=
  full_MayMatch filter_bits_reader prefix.

(** *** Several keys *)

(** [for (iter = filter_range.begin(); ...)]: the keys or prefixes to look for. A key
    outside the domain is skipped in the copy of the range. *)
Fixpoint gather_keys (fuel : nat) (ctx : MultiGetContext) (prefix_extractor : option SliceTransform) (filter_range : Range) (iter : nat) (keys : list bytes) : option (Range * list bytes) :=
  match fuel with
  | O => None
  | S fuel' =>
      if (iter =? rg_end filter_range)%nat then Some (filter_range, keys)
      else
        ukey ← sorted_keys_ ctx !! iter;
        match prefix_extractor with
        | None => if zlen keys <? MAX_BATCH_SIZE then gather_keys fuel' ctx prefix_extractor filter_range (range_next ctx filter_range iter) (keys ++ [ukey]) else None
        | Some t =>
            if InDomain t ukey then
              if zlen keys <? MAX_BATCH_SIZE then gather_keys fuel' ctx prefix_extractor filter_range (range_next ctx filter_range iter) (keys ++ [Transform t ukey]) else None
            else
              let filter_range := SkipKey filter_range iter in
              gather_keys fuel' ctx prefix_extractor filter_range (range_next ctx filter_range iter) keys
        end
  end.

(** The second loop, with [i] the number of keys so far. *)
Fixpoint skip_unmatched (fuel : nat) (ctx : MultiGetContext) (filter_range : Range) (iter i : nat) (may_match : list bool) (range : Range) : option Range :=
  match fuel with
  | O => None
  | S fuel' =>
      if (iter =? rg_end filter_range)%nat then Some range
      else
        m ← may_match !! i;
        skip_unmatched fuel' ctx filter_range (range_next ctx filter_range iter) (S i) may_match (if negb m then SkipKey range iter else range)
  end.

Definition range_fuel (range : Range) : nat := S (rg_end range - rg_start range).

(** [FullFilterBlockReader::MayMatch] of a range of keys. *)
Definition full_MayMatch_range (prefix_extractor : option SliceTransform) (filter_bits_reader : option FilterBitsReader) (ctx : MultiGetContext) (range : Range) : option Range :=
  match filter_bits_reader with
  | None => Some range
  | Some r =>
      filter_range ← Range_copy range (range_begin ctx range) (rg_end range);
      '(filter_range, keys) ← gather_keys (range_fuel filter_range) ctx prefix_extractor filter_range (range_begin ctx filter_range) [];
      answers ← bits_MayMatch_all r keys;
      let may_match := answers ++ drop (length answers) (true :: replicate (Z.to_nat MAX_BATCH_SIZE - 1) false) in
      skip_unmatched (range_fuel filter_range) ctx filter_range (range_begin ctx filter_range) 0 may_match range
  end.

Definition full_KeysMayMatch (whole_key_filtering : bool) (filter_bits_reader : option FilterBitsReader) (ctx : MultiGetContext) (range : Range) : option Range :=
  if negb whole_key_filtering then Some range else full_MayMatch_range None filter_bits_reader ctx range.

Definition full_PrefixesMayMatch (prefix_extractor : option SliceTransform) (filter_bits_reader : option FilterBitsReader) (ctx : MultiGetContext) (range : Range) : option Range :=
  full_MayMatch_range prefix_extractor filter_bits_reader ctx range.
End Readers.
