(* ===== verification/BloomCorrect.v ===== *)
(** * Correctness of Bloom filters

    A filter matches every key that was added to it, for all implementations and modes of
    the policy, and building it fails no assertion. The AVX2 code probes like the portable
    code; the builder that prefetches sets the bits that the simple one sets. What is read
    of a filter that is corrupt stays within it under bounds that are made explicit, and
    examples show that it does not without them. *)

From S2P Require Import Prelude Coding Hash Bloom.

(** ** Bits *)

Definition bit (data : bytes) (p : Z) : bool := match data !! Z.to_nat (p / 8) with Some b => Z.testbit b (p mod 8) | None => false end.

(** [data'] is [data] with the bits [ps] set. *)
Record added (data : bytes) (ps : list Z) (data' : bytes) : Prop := {
  ad_length : length data' = length data;
  ad_bytes : is_bytes data';
  ad_bits : forall p, 0 <= p -> bit data' p = bit data p || bool_decide (p ∈ ps)
}.

Lemma land_bit b n : 0 <= n -> negb (Z.land b (Z.shiftl 1 n) =? 0) = Z.testbit b n.
Proof.
  intros Hn. rewrite Z.shiftl_1_l. destruct (Z.testbit b n) eqn:E.
  - destruct (Z.eqb_spec (Z.land b (2 ^ n)) 0) as [H0|]; [|done]. exfalso. apply (f_equal (fun x => Z.testbit x n)) in H0.
    rewrite Z.land_spec, E, Z.pow2_bits_true, Z.bits_0 in H0 by done. done.
  - apply negb_false_iff, Z.eqb_eq, Z.bits_inj'. intros m Hm. rewrite Z.land_spec, Z.pow2_bits_eqb, Z.bits_0 by done.
    destruct (Z.eqb_spec n m) as [->|]; [by rewrite E|apply andb_false_r].
Qed.

Lemma get_bit_ok data base bitpos : 0 <= base -> 0 <= bitpos -> base + bitpos / 8 < zlen data -> get_bit data base bitpos = Some (bit data (8 * base + bitpos)).
Proof.
  intros Hb Hp Hl. unfold get_bit, bit. replace ((8 * base + bitpos) / 8) with (base + bitpos / 8) by div_lia. replace ((8 * base + bitpos) mod 8) with (bitpos mod 8) by div_lia.
  destruct (lookup_lt_is_Some_2 data (Z.to_nat (base + bitpos / 8))) as [b ->]; [unfold zlen in Hl; assert (0 <= bitpos / 8) by div_lia; lia|].
  cbn. rewrite land_bit; [done|]. div_lia.
Qed.

Lemma set_bit_byte b n : is_byte b -> 0 <= n < 8 -> forall m, 0 <= m < 8 -> Z.testbit (u8 (Z.lor b (Z.shiftl 1 n))) m = Z.testbit b m || (n =? m).
Proof. intros Hb Hn m Hm. unfold u8. rewrite Z.mod_pow2_bits_low, Z.lor_spec, Z.shiftl_1_l, Z.pow2_bits_eqb by lia. done. Qed.

Lemma set_bit_ok data base bitpos : is_bytes data -> 0 <= base -> 0 <= bitpos -> base + bitpos / 8 < zlen data ->
  exists data', set_bit data base bitpos = Some data' /\ added data [8 * base + bitpos] data'.
Proof.
  intros Hd Hb Hp Hl. unfold set_bit. set (i := Z.to_nat (base + bitpos / 8)). assert (Hi : (i < length data)%nat) by (unfold zlen in Hl; assert (0 <= bitpos / 8) by div_lia; lia).
  destruct (lookup_lt_is_Some_2 data i Hi) as [b Eb]. rewrite Eb. cbn. eexists. split; [done|]. assert (Hby : is_byte b) by (by eapply Forall_lookup_1 in Hd).
  split; [by rewrite length_insert|by apply Forall_insert; [|apply u8_is_byte]|]. intros p H0. unfold bit.
  destruct (decide (Z.to_nat (p / 8) = i)) as [E|E].
  - rewrite E, list_lookup_insert_eq, Eb by done. rewrite set_bit_byte by (done || div_lia). f_equal.
    assert (p / 8 = base + bitpos / 8) by (unfold i in E; assert (0 <= p / 8) by div_lia; assert (0 <= bitpos / 8) by div_lia; lia).
    destruct (Z.eqb_spec (bitpos mod 8) (p mod 8)); case_bool_decide as Hin; [done| | |done].
    + contradict Hin. apply list_elem_of_singleton. div_lia.
    + exfalso. apply list_elem_of_singleton in Hin. apply n. clear -Hin. subst p. div_lia.
  - rewrite list_lookup_insert_ne by done. rewrite bool_decide_eq_false_2, orb_false_r; [done|]. rewrite list_elem_of_singleton. intros ->.
    apply E. unfold i. f_equal. div_lia.
Qed.

Lemma added_nil data : is_bytes data -> added data [] data.
Proof. intros Hd. split; [done..|]. intros p _. by rewrite bool_decide_eq_false_2, orb_false_r by (apply not_elem_of_nil). Qed.

Lemma added_app data ps data1 qs data2 : added data ps data1 -> added data1 qs data2 -> added data (ps ++ qs) data2.
Proof.
  intros [Hl1 Hb1 Hp1] [Hl2 Hb2 Hp2]. split; [congruence|done|]. intros p H0. rewrite Hp2, Hp1, <- orb_assoc by done. f_equal.
  rewrite (bool_decide_ext (p ∈ ps ++ qs) (p ∈ ps \/ p ∈ qs)) by apply elem_of_app. by rewrite bool_decide_or.
Qed.

(** The order does not matter. *)
Lemma added_ext data ps qs data' : (forall p, p ∈ ps <-> p ∈ qs) -> added data ps data' -> added data qs data'.
Proof. intros Hpq [Hl Hb Hp]. split; [done..|]. intros p H0. rewrite Hp by done. f_equal. apply bool_decide_ext, Hpq. Qed.

(** Bytes that have the same bits are equal. *)
Lemma byte_bits b c : is_byte b -> is_byte c -> (forall n, 0 <= n < 8 -> Z.testbit b n = Z.testbit c n) -> b = c.
Proof.
  intros Hb Hc Hn. apply Z.bits_inj'. intros n H0. destruct (Z.lt_ge_cases n 8); [by apply Hn|].
  red in Hb, Hc. rewrite <- (Z.mod_small b (2 ^ 8)), <- (Z.mod_small c (2 ^ 8)) by lia. by rewrite !Z.mod_pow2_bits_high by lia.
Qed.

Lemma bits_eq data data' : is_bytes data -> is_bytes data' -> length data = length data' -> (forall p, 0 <= p -> bit data p = bit data' p) -> data = data'.
Proof.
  intros Hd Hd' Hl Hbits. apply (list_eq_same_length _ _ (length data)); [done..|]. intros i b c Hi Hb Hc. eapply Forall_lookup_1 in Hb as Hby; [|done]. eapply Forall_lookup_1 in Hc as Hcy; [|done].
  apply byte_bits; [done..|]. intros n Hn. specialize (Hbits (8 * Z.of_nat i + n) ltac:(lia)). unfold bit in Hbits.
  replace ((8 * Z.of_nat i + n) / 8) with (Z.of_nat i) in Hbits by div_lia. replace ((8 * Z.of_nat i + n) mod 8) with n in Hbits by div_lia.
  by rewrite Nat2Z.id, Hb, Hc in Hbits.
Qed.

Lemma added_unique data ps data1 data2 : added data ps data1 -> added data ps data2 -> data1 = data2.
Proof. intros [Hl1 Hb1 Hp1] [Hl2 Hb2 Hp2]. apply bits_eq; [done..|congruence|]. intros p H0. by rewrite Hp1, Hp2. Qed.

Lemma added_bit data ps data' p : added data ps data' -> 0 <= p -> bit data p = true \/ p ∈ ps -> bit data' p = true.
Proof. intros [_ _ Hp] H0 Hor. rewrite Hp by done. destruct Hor as [->|Hin]; [done|]. by rewrite bool_decide_eq_true_2, orb_true_r. Qed.

(** ** Probes *)

Section Probes.
Context (bitpos next : Z -> Z) (P : Z -> Prop) (bytes_of_line : Z).
Context (Hnext : forall h, P h -> P (next h)) (Hpos : forall h, P h -> 0 <= bitpos h < 8 * bytes_of_line).

Fixpoint positions (n : nat) (h base : Z) : list Z :=
  match n with
  | O => []
  | S n' => (8 * base + bitpos h) :: positions n' (next h) base
  end.

Lemma positions_nonneg n h base p : P h -> 0 <= base -> p ∈ positions n h base -> 0 <= p.
Proof.
  intros Hh Hb. revert h Hh. induction n as [|n IH]; intros h Hh; cbn; [by intros ?%not_elem_of_nil|]. intros [->|Hp]%elem_of_cons; [pose proof (Hpos h Hh); lia|].
  by apply (IH (next h) (Hnext h Hh)).
Qed.

Lemma add_probes_ok n h base data : P h -> is_bytes data -> 0 <= base -> base + bytes_of_line <= zlen data ->
  exists data', add_probes bitpos next n h base data = Some data' /\ added data (positions n h base) data'.
Proof.
  intros Hh Hd Hb. revert h Hh data Hd. induction n as [|n IH]; intros h Hh data Hd Hl; cbn [add_probes positions].
  - exists data. split; [done|by apply added_nil].
  - pose proof (Hpos h Hh). destruct (set_bit_ok data base (bitpos h)) as (data1 & -> & H1); [done..|lia|div_lia|]. cbn.
    destruct (IH (next h) (Hnext h Hh) data1 (ad_bytes _ _ _ H1)) as (data2 & -> & H2); [unfold zlen in *; rewrite (ad_length _ _ _ H1); lia|].
    exists data2. split; [done|]. by apply (added_app data [_] data1).
Qed.

(** The value of the loop, where it is within the array. *)
Lemma may_match_probes_ok n h base data : P h -> 0 <= base -> base + bytes_of_line <= zlen data ->
  may_match_probes bitpos next n h base data = Some (forallb (bit data) (positions n h base)).
Proof.
  intros Hh Hb Hl. revert h Hh. induction n as [|n IH]; intros h Hh; cbn [may_match_probes positions forallb]; [done|].
  pose proof (Hpos h Hh). rewrite get_bit_ok by (done || lia || div_lia). cbn. destruct (bit data _); [|done]. by apply IH, Hnext.
Qed.
End Probes.

(** ** FastLocalBloomImpl *)

Definition is_u32 (h : Z) : Prop := 0 <= h < 2 ^ 32.

Lemma line_bitpos_range h : is_u32 h -> 0 <= line_bitpos h < 8 * 64.
Proof. intros Hh. unfold line_bitpos. rewrite shiftr_div by lia. red in Hh. div_lia. Qed.

Lemma remix_u32 h : is_u32 h -> is_u32 (remix h).
Proof. intros _. apply u32_range. Qed.

Lemma Upper32_u32 h : is_u32 (Upper32of64 h).
Proof. apply u32_range. Qed.

Lemma PrepareHash_range h1 len : is_u32 h1 -> 64 <= len < 2 ^ 32 -> 0 <= fast_PrepareHash h1 len /\ fast_PrepareHash h1 len + 64 <= len.
Proof.
  intros Hh Hl. red in Hh. unfold fast_PrepareHash. assert (Hs : 0 < Z.shiftr len 6 < 2 ^ 32) by (rewrite shiftr_div by lia; div_lia).
  assert (Hf : 0 <= fastrange32 (Z.shiftr len 6) h1 < Z.shiftr len 6).
  { pose proof (fastrange32_range h1 (Z.shiftr len 6) Hh Hs) as Hr. unfold fastrange32 in *. by rewrite (Z.mul_comm h1). }
  rewrite shiftr_div in * by lia. rewrite Z.shiftl_mul_pow2 by lia. rewrite u32_small; div_lia.
Qed.

(** What adding a hash to a filter of [len] bytes sets. *)
Definition hash_positions (len num_probes h : Z) : list Z :=
  positions line_bitpos remix (Z.to_nat num_probes) (Upper32of64 h) (fast_PrepareHash (Lower32of64 h) len).

Lemma hash_positions_nonneg len num_probes h p : 64 <= len < 2 ^ 32 -> p ∈ hash_positions len num_probes h -> 0 <= p.
Proof.
  intros Hl. apply (positions_nonneg line_bitpos remix is_u32 64); [apply remix_u32|apply line_bitpos_range|apply Upper32_u32|].
  apply PrepareHash_range; [apply u32_range|done].
Qed.

Lemma AddHashPrepared_ok len num_probes h data : 64 <= len < 2 ^ 32 -> is_bytes data -> len <= zlen data ->
  exists data', fast_AddHashPrepared (Upper32of64 h) num_probes data (fast_PrepareHash (Lower32of64 h) len) = Some data' /\ added data (hash_positions len num_probes h) data'.
Proof.
  intros Hl Hd Hz. destruct (PrepareHash_range (Lower32of64 h) len) as [H0 H1]; [apply u32_range|done|].
  apply (add_probes_ok line_bitpos remix is_u32 64); [apply remix_u32|apply line_bitpos_range|apply Upper32_u32|done..|lia].
Qed.

(** ** AddAllEntries *)

Section AddAll.
Context (len num_probes : Z) (Hlen : 64 <= len < 2 ^ 32).
Abbreviation hp := (hash_positions len num_probes).

Lemma AddAllEntries_simple_ok E data : is_bytes data -> len <= zlen data ->
  exists data', AddAllEntries_simple E data len num_probes = Some data' /\ added data (E ≫= hp) data'.
Proof.
  revert data. induction E as [|h E IH]; intros data Hd Hz; cbn [AddAllEntries_simple].
  - exists data. split; [done|by apply added_nil].
  - unfold fast_AddHash. destruct (AddHashPrepared_ok len num_probes h data) as (data1 & -> & H1); [done..|]. cbn [mbind option_bind].
    destruct (IH data1 (ad_bytes _ _ _ H1)) as (data2 & -> & H2); [unfold zlen in *; by rewrite (ad_length _ _ _ H1)|].
    exists data2. split; [done|]. cbn. by apply (added_app data _ data1).
Qed.

(** After [i] entries have been taken, the last eight are in their slots. *)
Record ring (E : list Z) (i : nat) (b : AddBuffer) : Prop := {
  ri_rest : ab_entries b = drop i E;
  ri_hashes : length (ab_hashes b) = 8%nat;
  ri_offsets : length (ab_byte_offsets b) = 8%nat;
  ri_slots : forall k h, (k < i <= k + 8)%nat -> E !! k = Some h ->
    ab_hashes b !! (k mod 8)%nat = Some (Some (Upper32of64 h)) /\ ab_byte_offsets b !! (k mod 8)%nat = Some (Some (fast_PrepareHash (Lower32of64 h) len))
}.

Lemma mod8_lt k : (k mod 8 < 8)%nat.
Proof. apply Nat.mod_upper_bound. lia. Qed.

Lemma mod8_ne k i : (k < i < k + 8)%nat -> (i mod 8 <> k mod 8)%nat.
Proof. intros Hk E. pose proof (Nat.div_mod_eq i 8). pose proof (Nat.div_mod_eq k 8). lia. Qed.

Lemma buffer_hash_ok E i b : ring E i b -> (i < length E)%nat -> exists b', buffer_hash len (i mod 8) b = Some b' /\ ring E (S i) b'.
Proof.
  intros [Hr Hh Ho Hs] Hi. destruct (lookup_lt_is_Some_2 E i Hi) as [h Eh]. unfold buffer_hash. rewrite Hr, (drop_S E h i Eh), Hh.
  pose proof (mod8_lt i). destruct (Nat.ltb_spec (i mod 8) 8); [|lia]. eexists. split; [done|]. split; cbn [ab_entries ab_hashes ab_byte_offsets]; [done|by rewrite length_insert..|].
  intros k x Hk Ex. destruct (decide (k = i)) as [->|Hne].
  - simplify_eq. rewrite !list_lookup_insert_eq by lia. done.
  - pose proof (mod8_ne k i ltac:(lia)). rewrite !list_lookup_insert_ne by done. apply Hs; [lia|done].
Qed.

Lemma prime_loop_ok E todo i b : ring E i b -> (i + todo <= 8)%nat -> (i + todo <= length E)%nat -> exists b', prime_loop todo len i b = Some b' /\ ring E (i + todo) b'.
Proof.
  revert i b. induction todo as [|todo IH]; intros i b Hr H8 HE; cbn [prime_loop]; [rewrite Nat.add_0_r; by exists b|].
  destruct (buffer_hash_ok E i b Hr) as (b1 & E1 & Hr1); [lia|]. rewrite (Nat.mod_small i 8) in E1 by lia. rewrite E1. cbn.
  replace (i + S todo)%nat with (S i + todo)%nat by lia. apply IH; [done|lia..].
Qed.

Lemma process_hash_ok E i b k h data : ring E i b -> (k < i <= k + 8)%nat -> E !! k = Some h -> is_bytes data -> len <= zlen data ->
  exists data', process_hash num_probes (k mod 8) b data = Some data' /\ added data (hp h) data'.
Proof. intros [_ _ _ Hs] Hk Eh Hd Hz. unfold process_hash. destruct (Hs k h Hk Eh) as [-> ->]. cbn. by apply AddHashPrepared_ok. Qed.

Lemma process_loop_ok E todo i b data : ring E i b -> (8 <= i)%nat -> (i + todo = length E)%nat -> is_bytes data -> len <= zlen data ->
  exists b' data', process_loop todo len num_probes i b data = Some (b', data') /\ ring E (length E) b' /\ added data (take todo (drop (i - 8) E) ≫= hp) data'.
Proof.
  revert i b data. induction todo as [|todo IH]; intros i b data Hr H8 HE Hd Hz; cbn [process_loop].
  - exists b, data. replace (length E) with i by lia. split_and!; [done..|by apply added_nil].
  - destruct (lookup_lt_is_Some_2 E (i - 8)) as [h Eh]; [lia|]. assert (Em : Nat.land i kBufferMask = (i mod 8)%nat) by (apply (Nat.land_ones i 3)).
    assert (Ek : ((i - 8) mod 8 = i mod 8)%nat) by (replace i with (i - 8 + 1 * 8)%nat at 2 by lia; by rewrite Nat.Div0.mod_add). rewrite Em.
    destruct (process_hash_ok E i b (i - 8) h data Hr) as (data1 & E1 & H1); [lia|done..|]. rewrite Ek in E1. rewrite E1. cbn [mbind option_bind].
    destruct (buffer_hash_ok E i b Hr) as (b1 & -> & Hr1); [lia|]. cbn [mbind option_bind].
    destruct (IH (S i) b1 data1 Hr1) as (b2 & data2 & -> & Hr2 & H2); [lia|lia|apply (ad_bytes _ _ _ H1)|unfold zlen in *; by rewrite (ad_length _ _ _ H1)|].
    exists b2, data2. split_and!; [done..|]. rewrite (drop_S E h (i - 8) Eh). replace (S (i - 8)) with (S i - 8)%nat by lia. cbn [take mbind list_bind]. by apply (added_app data _ data1).
Qed.

(** The slots from [i] on. *)
Lemma finish_loop_ok E todo i b data : ring E (length E) b -> (i + todo <= Nat.min 8 (length E))%nat -> is_bytes data -> len <= zlen data ->
  exists data' ps, finish_loop todo num_probes i b data = Some data' /\ added data ps data' /\
    forall p, p ∈ ps <-> exists k h, (k < length E <= k + 8)%nat /\ (i <= k mod 8 < i + todo)%nat /\ E !! k = Some h /\ p ∈ hp h.
Proof.
  intros Hr. revert i data. induction todo as [|todo IH]; intros i data HE Hd Hz; cbn [finish_loop].
  - exists data, []. split_and!; [done|by apply added_nil|]. intros p. split; [by intros ?%not_elem_of_nil|]. intros (k & h & _ & Hk & _). lia.
  - set (n := length E) in *. set (k := (n - 1 - (n - 1 - i) mod 8)%nat). pose proof (mod8_lt (n - 1 - i)) as Hm. pose proof (Nat.div_mod_eq (n - 1 - i) 8) as Hdm.
    assert (Hki : (k = i + 8 * ((n - 1 - i) / 8))%nat) by lia. assert (Ekm : (k mod 8 = i)%nat) by (rewrite Hki, Nat.mul_comm, Nat.Div0.mod_add; apply Nat.mod_small; lia).
    destruct (lookup_lt_is_Some_2 E k) as [h Eh]; [lia|]. destruct (process_hash_ok E n b k h data Hr) as (data1 & E1 & H1); [lia|done..|]. rewrite Ekm in E1. rewrite E1. cbn [mbind option_bind].
    destruct (IH (S i) data1) as (data2 & ps & -> & H2 & Hps); [lia|apply (ad_bytes _ _ _ H1)|unfold zlen in *; by rewrite (ad_length _ _ _ H1)|].
    exists data2, (hp h ++ ps). split_and!; [done|by apply (added_app data _ data1)|]. intros p. rewrite elem_of_app, Hps. split.
    + intros [Hp|(k' & h' & ? & ? & ? & ?)]; [exists k, h; split_and!; [lia..|done|done]|exists k', h'; split_and!; [lia..|done|done]].
    + intros (k' & h' & Hk' & Hi' & Eh' & Hp'). destruct (decide (k' = k)) as [->|Hne]; [left; by simplify_eq|]. right. exists k', h'. split_and!; [lia..| |lia|done|done].
      enough ((k' mod 8 <> i)%nat) by lia. intros Hc. pose proof (Nat.div_mod_eq k' 8). lia.
Qed.

Lemma AddAllEntries_ok E data : is_bytes data -> len <= zlen data ->
  exists data', AddAllEntries E data len num_probes = Some ([], data') /\ added data (E ≫= hp) data'.
Proof.
  intros Hd Hz. unfold AddAllEntries. change (S kBufferMask) with 8%nat. set (n := length E). set (primed := Nat.min 8 n).
  destruct (prime_loop_ok E primed 0 (mkAddBuffer E (replicate 8 None) (replicate 8 None))) as (b1 & -> & Hr1); [split; cbn; [done..|lia]|lia|lia|]. cbn [mbind option_bind Nat.add] in *.
  assert (Hproc : exists b2 data2, process_loop (n - primed) len num_probes primed b1 data = Some (b2, data2) /\ ring E n b2 /\ added data (take (n - 8) E ≫= hp) data2).
  { destruct (decide (n <= 8)%nat) as [Hn|Hn].
    - replace (n - primed)%nat with 0%nat by lia. replace (n - 8)%nat with 0%nat by lia. exists b1, data. replace primed with n in Hr1 by lia. split_and!; [done..|by apply added_nil].
    - replace primed with 8%nat in * by lia. destruct (process_loop_ok E (n - 8) 8 b1 data) as (b2 & data2 & E2 & Hr2 & H2); [done|lia|lia|done..|]. by exists b2, data2. }
  destruct Hproc as (b2 & data2 & -> & Hr2 & H2). cbn [mbind option_bind].
  destruct (finish_loop_ok E primed 0 b2 data2) as (data3 & ps & -> & H3 & Hps); [done|lia|apply (ad_bytes _ _ _ H2)|unfold zlen in *; by rewrite (ad_length _ _ _ H2)|].
  cbn [mbind option_bind]. exists data3. rewrite (ri_rest _ _ _ Hr2). unfold n. rewrite drop_all. split; [done|].
  apply (added_ext _ ((take (n - 8) E ≫= hp) ++ ps)); [|by apply (added_app data _ data2)].
  intros p. rewrite elem_of_app, Hps, !list_elem_of_bind. split.
  - intros [(h & Hp & Hin)|(k & h & _ & _ & Eh & Hp)]; exists h; (split; [done|]); [rewrite <- (take_drop (n - 8) E); apply elem_of_app; by left|by eapply list_elem_of_lookup_2].
  - intros (h & Hp & Hin). apply list_elem_of_lookup in Hin as [k Eh]. assert (Hk : (k < n)%nat) by (by eapply lookup_lt_Some). destruct (decide (k < n - 8)%nat).
    + left. exists h. split; [done|]. apply list_elem_of_lookup. exists k. by rewrite lookup_take_lt by lia.
    + right. exists k, h. pose proof (mod8_lt k). pose proof (Nat.Div0.mod_le k 8). split_and!; [lia..|done|done].
Qed.
End AddAll.

(** ** The AVX2 code *)

Section Avx2.
Context (data : bytes) (base : Z) (Hd : is_bytes data) (Hbase : 0 <= base) (Hline : base + 64 <= zlen data).

(** A bit of a little-endian word. *)
Lemma memcpy_to_testbit n (p : bytes) m : is_bytes p -> 0 <= m < 8 * Z.of_nat n -> Z.testbit (memcpy_to n p) m = bit p m.
Proof.
  revert p m. induction n as [|n IH]; intros p m Hp Hm; [lia|]. unfold bit. destruct p as [|b p]; cbn [memcpy_to]; [by rewrite Z.bits_0|]. apply Forall_cons_1 in Hp as [Hb Hp]. red in Hb.
  replace (b + 256 * memcpy_to n p) with (Z.lor b (Z.shiftl (memcpy_to n p) 8)) by (rewrite lor_shiftl_add by lia; lia).
  rewrite Z.lor_spec, Z.shiftl_spec by lia. destruct (Z.lt_ge_cases m 8).
  - rewrite (Z.testbit_neg_r (memcpy_to n p)), orb_false_r by lia. replace (m / 8) with 0 by div_lia. replace (m mod 8) with m by div_lia. done.
  - replace (Z.testbit b m) with false by (rewrite <- (Z.mod_small b (2 ^ 8)), Z.mod_pow2_bits_high by lia; done). rewrite IH by (done || lia). unfold bit.
    replace ((m - 8) / 8) with (m / 8 - 1) by div_lia. replace ((m - 8) mod 8) with (m mod 8) by div_lia.
    replace (Z.to_nat (m / 8)) with (S (Z.to_nat (m / 8 - 1))); [done|]. assert (1 <= m / 8) by div_lia. lia.
Qed.

Lemma memcpy_to_u32 (p : bytes) : is_bytes p -> 0 <= memcpy_to 4 p < 2 ^ 32.
Proof.
  intros Hp. destruct p as [|b0 [|b1 [|b2 [|b3 p]]]]; inv_bytes; cbn [memcpy_to]; lia.
Qed.

Lemma blend_none x y : 0 <= x < 2 ^ 32 -> blend_word x y 0 = x.
Proof.
  intros Hx. unfold blend_word, blend_byte. cbn [seq fmap list_fmap memcpy_to]. rewrite !Z.bits_0. change 255 with (2 ^ 8 - 1).
  rewrite !land_ones_mod, !shiftr_div by lia. change (Z.of_nat 0) with 0. change (Z.of_nat 1) with 1. change (Z.of_nat 2) with 2. change (Z.of_nat 3) with 3. cbn [Z.mul Pos.mul]. div_lia.
Qed.

Lemma blend_all x y : 0 <= y < 2 ^ 32 -> blend_word x y 0xffffffff = y.
Proof. intros Hy. exact (blend_none y y Hy). Qed.

(** One of the eight words of the registers. *)
Definition lane (lower upper : list Z) (rem i x : Z) : bool :=
  let word := Z.to_nat (Z.land (Z.shiftr x 28) 7) in
  let v := blend_word (nth word lower 0) (nth word upper 0) (u32 (Z.shiftr (i32 x) 31)) in
  let k := Z.shiftr (u32 (i - u32 rem)) 31 in
  let address := Z.shiftr (u32 (Z.shiftl x 4)) 27 in
  Z.land (Z.lxor v 0xffffffff) (if address <? 32 then u32 (Z.shiftl k address) else 0) =? 0.

Lemma avx2_round_lanes h rem lower upper : mm_loadu data base = Some lower -> mm_loadu data (base + 32) = Some upper ->
  avx2_round h rem data base = Some (forallb (fun ix => lane lower upper rem ix.1 ix.2) (zip [0; 1; 2; 3; 4; 5; 6; 7] (mm_mullo (mm_set1 h) multipliers))).
Proof. intros El Eu. unfold avx2_round. rewrite El, Eu. reflexivity. Qed.

(** The word at [4 * i] bytes of the cache line. *)
Lemma loadu_nth b i : 0 <= b -> b + 32 <= zlen data -> (i < 8)%nat -> exists l, mm_loadu data b = Some l /\ nth i l 0 = memcpy_to 4 (drop (Z.to_nat b + 4 * i) data).
Proof.
  intros Hb Hl Hi. unfold mm_loadu. destruct (Z.leb_spec (b + 32) (zlen data)); [|lia]. eexists. split; [done|].
  rewrite (nth_lookup_Some _ _ _ (memcpy_to 4 (drop (Z.to_nat b + 4 * i) data))); [done|]. by rewrite list_lookup_fmap, lookup_seq_lt by done.
Qed.

Lemma word_bit p m : 0 <= m < 32 -> 0 <= p -> Z.testbit (memcpy_to 4 (drop (Z.to_nat p) data)) m = bit data (8 * p + m).
Proof.
  intros Hm Hp. rewrite memcpy_to_testbit by (first [by apply Forall_drop|lia]). unfold bit. rewrite lookup_drop.
  replace ((8 * p + m) / 8) with (p + m / 8) by div_lia. replace ((8 * p + m) mod 8) with (m mod 8) by div_lia.
  replace (Z.to_nat p + Z.to_nat (m / 8))%nat with (Z.to_nat (p + m / 8)); [done|]. assert (0 <= m / 8) by div_lia. lia.
Qed.

(** The selected word holds the bit that the portable code reads. *)
Lemma lane_value lower upper x : is_u32 x -> mm_loadu data base = Some lower -> mm_loadu data (base + 32) = Some upper ->
  let word := Z.to_nat (Z.land (Z.shiftr x 28) 7) in
  blend_word (nth word lower 0) (nth word upper 0) (u32 (Z.shiftr (i32 x) 31)) = memcpy_to 4 (drop (Z.to_nat (base + 4 * (x / 2 ^ 28))) data).
Proof.
  intros Hx El Eu. cbv zeta. red in Hx. change 7 with (2 ^ 3 - 1). rewrite land_ones_mod, !shiftr_div by lia. set (w := Z.to_nat (x / 2 ^ 28 mod 2 ^ 3)).
  assert (Hw : (w < 8)%nat) by (unfold w; div_lia). destruct (loadu_nth base w) as (l & El' & Hl); [lia..|]. destruct (loadu_nth (base + 32) w) as (u & Eu' & Hu); [lia..|]. simplify_eq.
  rewrite Hl, Hu. assert (Hz : forall n, 0 <= memcpy_to 4 (drop n data) < 2 ^ 32) by (intros n; by apply memcpy_to_u32, Forall_drop).
  destruct (Z.lt_ge_cases x (2 ^ 31)).
  - rewrite i32_small by lia. replace (x / 2 ^ 31) with 0 by div_lia. change (u32 0) with 0. rewrite blend_none by done. do 2 f_equal. unfold w. div_lia.
  - replace (i32 x) with (x - 2 ^ 32) by (unfold i32; div_lia). replace ((x - 2 ^ 32) / 2 ^ 31) with (-1) by div_lia. change (u32 (-1)) with 0xffffffff. rewrite blend_all by done. do 2 f_equal. unfold w. div_lia.
Qed.

(** A mask of one bit. *)
Lemma testc_bit v m : 0 <= v < 2 ^ 32 -> 0 <= m < 32 -> (Z.land (Z.lxor v 0xffffffff) (2 ^ m) =? 0) = Z.testbit v m.
Proof.
  intros Hv Hm. rewrite <- Z.shiftl_1_l, <- (negb_involutive (_ =? 0)), land_bit, Z.lxor_spec by lia. change 0xffffffff with (Z.ones 32). rewrite Z.ones_spec_low by lia. by destruct (Z.testbit v m).
Qed.

Lemma lane_ok lower upper rem i x : is_u32 x -> - 2 ^ 30 <= rem < 2 ^ 30 -> 0 <= i < 8 -> mm_loadu data base = Some lower -> mm_loadu data (base + 32) = Some upper ->
  lane lower upper rem i x = (rem <=? i) || bit data (8 * base + line_bitpos x).
Proof.
  intros Hx Hrem Hi El Eu. unfold lane. rewrite (lane_value lower upper x Hx El Eu). red in Hx.
  set (address := Z.shiftr (u32 (Z.shiftl x 4)) 27). assert (Ha : address = x / 2 ^ 23 mod 32) by (unfold address, u32; rewrite shiftr_div, Z.shiftl_mul_pow2 by lia; div_lia).
  assert (Hr : 0 <= address < 32) by (rewrite Ha; div_lia). destruct (Z.ltb_spec address 32); [|lia].
  assert (Ek : Z.shiftr (u32 (i - u32 rem)) 31 = if rem <=? i then 0 else 1) by (rewrite shiftr_div by lia; unfold u32; destruct (Z.leb_spec rem i); div_lia). rewrite Ek.
  destruct (rem <=? i); cbn [orb].
  - rewrite Z.shiftl_0_l. change (u32 0) with 0. by rewrite Z.land_0_r.
  - rewrite Z.shiftl_1_l, u32_small; [|split; [apply Z.pow_nonneg; lia|apply Z.pow_lt_mono_r; lia]].
    rewrite testc_bit by (done || by apply memcpy_to_u32, Forall_drop). rewrite word_bit by (done || div_lia). f_equal. unfold line_bitpos. rewrite shiftr_div, Ha by lia. div_lia.
Qed.
End Avx2.

(** Repeated multiplication. *)
Lemma remix_mul h m : remix (u32 (h * m)) = u32 (h * u32 (m * golden)).
Proof. unfold remix, u32. rewrite Zmult_mod_idemp_l, Zmult_mod_idemp_r. f_equal. lia. Qed.

Fixpoint hashes_of (n : nat) (h : Z) : list Z := match n with O => [] | S n' => h :: hashes_of n' (remix h) end.

(** The multipliers of [n] probes. *)
Fixpoint powers (n : nat) (m : Z) : list Z := match n with O => [] | S n' => m :: powers n' (u32 (m * golden)) end.

Lemma hashes_powers n h m : hashes_of n (u32 (h * m)) = (fun x => u32 (h * x)) <$> powers n m.
Proof. revert m. induction n as [|n IH]; intros m; cbn [hashes_of powers]; [done|]. rewrite fmap_cons, remix_mul, IH. done. Qed.

Lemma lanes_hashes h : is_u32 h -> mm_mullo (mm_set1 h) multipliers = hashes_of 8 h.
Proof.
  intros Hh. rewrite <- (u32_small h Hh) at 2. rewrite <- (Z.mul_1_r h) at 2. rewrite hashes_powers. replace (powers 8 1) with multipliers by (vm_compute; reflexivity).
  unfold mm_mullo, mm_set1. rewrite (u32_small h) by done. reflexivity.
Qed.

Lemma positions_hashes n h base : positions line_bitpos remix n h base = (fun x => 8 * base + line_bitpos x) <$> hashes_of n h.
Proof. revert h. induction n as [|n IH]; intros h; cbn [positions hashes_of]; [done|]. by rewrite fmap_cons, IH. Qed.

Lemma hashes_app n m h : hashes_of (n + m) h = hashes_of n h ++ hashes_of m (Nat.iter n remix h).
Proof. revert h. induction n as [|n IH]; intros h; cbn [Nat.add hashes_of app]; [done|]. by rewrite IH, Nat.iter_succ_r. Qed.

(** The multiplication between two rounds. *)
Lemma remix_eight h : is_u32 h -> Nat.iter 8 remix h = u32 (h * 0xab25f4c1).
Proof.
  intros Hh. assert (E : Nat.iter 8 remix (u32 (h * 1)) = u32 (h * 0xab25f4c1)).
  { unfold Nat.iter. cbn [nat_rect]. rewrite !remix_mul. do 2 f_equal. }
  by rewrite Z.mul_1_r, u32_small in E.
Qed.

Lemma hashes_u32 n h : is_u32 h -> Forall is_u32 (hashes_of n h).
Proof. revert h. induction n as [|n IH]; intros h Hh; cbn; constructor; [done|]. by apply IH, remix_u32. Qed.

(** The lanes below [rem], counted from [i] on. *)
Lemma lanes_forallb (f : Z -> bool) rem n i l : length l = n -> 0 <= i ->
  forallb (fun ix => (rem <=? ix.1) || f ix.2) (zip (seqZ i (Z.of_nat n)) l) = forallb f (take (Z.to_nat (rem - i)) l).
Proof.
  revert i l. induction n as [|n IH]; intros i [|x l] Hl Hi; try done; [by rewrite take_nil|]. rewrite seqZ_cons by lia. replace (Z.pred (Z.of_nat (S n))) with (Z.of_nat n) by lia. cbn [zip zip_with forallb fst snd].
  rewrite IH by (first [lia|by injection Hl]). destruct (Z.leb_spec rem i); cbn [orb andb].
  - replace (Z.to_nat (rem - i)) with 0%nat by lia. by replace (Z.to_nat (rem - Z.succ i)) with 0%nat by lia.
  - replace (Z.to_nat (rem - i)) with (S (Z.to_nat (rem - Z.succ i))) by lia. done.
Qed.

Lemma forallb_fmap {A B} (g : A -> B) (f : B -> bool) (l : list A) : forallb f (g <$> l) = forallb (fun x => f (g x)) l.
Proof. induction l as [|x l IH]; [done|]. rewrite fmap_cons. cbn. by rewrite IH. Qed.

Lemma forallb_ext_in {A} (f g : A -> bool) (l : list A) : (forall x, x ∈ l -> f x = g x) -> forallb f l = forallb g l.
Proof. induction l as [|x l IH]; intros Hfg; [done|]. cbn. rewrite Hfg by left. rewrite IH; [done|]. intros y Hy. apply Hfg. by right. Qed.

Section Avx2Loop.
Context (data : bytes) (base : Z) (Hd : is_bytes data) (Hbase : 0 <= base) (Hline : base + 64 <= zlen data).

Lemma avx2_round_ok h rem : is_u32 h -> - 2 ^ 30 <= rem < 2 ^ 30 ->
  avx2_round h rem data base = Some (forallb (fun x => bit data (8 * base + line_bitpos x)) (take (Z.to_nat rem) (hashes_of 8 h))).
Proof.
  intros Hh Hrem. destruct (loadu_nth data base 0) as (lower & El & _); [lia..|]. destruct (loadu_nth data (base + 32) 0) as (upper & Eu & _); [lia..|].
  rewrite (avx2_round_lanes data base h rem lower upper El Eu), lanes_hashes by done. f_equal.
  change [0; 1; 2; 3; 4; 5; 6; 7] with (seqZ 0 (Z.of_nat 8)). replace (Z.to_nat rem) with (Z.to_nat (rem - 0)) by (f_equal; lia). rewrite <- (lanes_forallb _ rem 8 0) by done.
  apply forallb_ext_in. intros [i x] Hix. apply elem_of_zip_l in Hix as Hi. apply elem_of_zip_r in Hix as Hx. apply elem_of_seqZ in Hi.
  pose proof (proj1 (Forall_forall _ _) (hashes_u32 8 h Hh) x Hx). cbn [fst snd]. apply lane_ok; try done; lia.
Qed.

Lemma avx2_loop_ok fuel h rem : is_u32 h -> - 2 ^ 30 <= rem < 2 ^ 30 -> (Z.to_nat rem < fuel)%nat ->
  avx2_loop fuel h rem data base = Some (forallb (bit data) (positions line_bitpos remix (Z.to_nat rem) h base)).
Proof.
  revert h rem. induction fuel as [|fuel IH]; intros h rem Hh Hrem Hf; [lia|]. cbn [avx2_loop]. rewrite avx2_round_ok by done. cbn [mbind option_bind].
  rewrite positions_hashes, forallb_fmap. destruct (Z.leb_spec rem 8).
  - replace (hashes_of 8 h) with (hashes_of (Z.to_nat rem + (8 - Z.to_nat rem)) h) by (f_equal; lia). rewrite hashes_app, take_app_length'; [done|].
    clear. generalize (Z.to_nat rem). intros n. revert h. induction n; intros; cbn; auto.
  - rewrite take_ge by (cbn; lia). replace (Z.to_nat rem) with (8 + Z.to_nat (rem - 8))%nat by lia. rewrite hashes_app, forallb_app, remix_eight by done.
    destruct (forallb _ (hashes_of 8 h)); cbn [negb andb]; [|done]. rewrite IH by (first [apply u32_range|lia]). by rewrite positions_hashes, forallb_fmap.
Qed.
End Avx2Loop.

(** Both ways to probe read the bits of the hash. *)
Lemma HashMayMatchPrepared_ok have_avx2 h num_probes data base : is_bytes data -> is_u32 h -> 0 <= num_probes < 2 ^ 30 -> 0 <= base -> base + 64 <= zlen data ->
  fast_HashMayMatchPrepared have_avx2 h num_probes data base = Some (forallb (bit data) (positions line_bitpos remix (Z.to_nat num_probes) h base)).
Proof.
  intros Hd Hh Hn Hb Hl. destruct have_avx2; cbn [fast_HashMayMatchPrepared].
  - apply avx2_loop_ok; [done..|lia|lia].
  - apply (may_match_probes_ok line_bitpos remix is_u32 64); [apply remix_u32|apply line_bitpos_range|done..].
Qed.

(** ** A filter and its metadata *)

Lemma positions_below bitpos next (P : Z -> Prop) line n h base len p :
  (forall h, P h -> P (next h)) -> (forall h, P h -> 0 <= bitpos h < 8 * line) -> P h -> base + line <= len -> p ∈ positions bitpos next n h base -> p < 8 * len.
Proof.
  intros Hnext Hpos Hh Hb. revert h Hh. induction n as [|n IH]; intros h Hh; cbn; [by intros ?%not_elem_of_nil|]. intros [->|Hp]%elem_of_cons; [pose proof (Hpos h Hh); lia|].
  by apply (IH (next h) (Hnext h Hh)).
Qed.

Lemma bit_app data meta p : 0 <= p < 8 * zlen data -> bit (data ++ meta) p = bit data p.
Proof. intros Hp. unfold bit. rewrite lookup_app_l; [done|]. unfold zlen in Hp. div_lia. Qed.

Lemma bit_take n data p : 0 <= p < 8 * Z.of_nat n -> bit (take n data) p = bit data p.
Proof. intros Hp. unfold bit. rewrite lookup_take_lt; [done|]. div_lia. Qed.

Lemma zeros_bytes n : is_bytes (replicate n 0).
Proof. apply Forall_replicate. red. lia. Qed.

Lemma zeros_bit n p : bit (replicate n 0) p = false.
Proof. unfold bit. destruct (replicate n 0 !! _) as [b|] eqn:E; [|done]. apply lookup_replicate in E as [-> _]. apply Z.bits_0. Qed.

Lemma bit_drop n data p : 0 <= p -> bit (drop n data) p = bit data (8 * Z.of_nat n + p).
Proof.
  intros Hp. unfold bit. rewrite lookup_drop. replace ((8 * Z.of_nat n + p) / 8) with (Z.of_nat n + p / 8) by div_lia. replace ((8 * Z.of_nat n + p) mod 8) with (p mod 8) by div_lia.
  replace (Z.to_nat (Z.of_nat n + p / 8)) with (n + Z.to_nat (p / 8))%nat; [done|]. assert (0 <= p / 8) by div_lia. lia.
Qed.

(** Bits were set only before the last bytes [m]. *)
Lemma added_tail (a m : bytes) ps data' : is_bytes m -> added (a ++ m) ps data' -> (forall p, p ∈ ps -> p < 8 * zlen a) -> data' = take (length a) data' ++ m.
Proof.
  intros Hm [Hl Hb Hbits] Hps. rewrite length_app in Hl. rewrite <- (take_drop (length a) data') at 1. f_equal.
  apply bits_eq; [by apply Forall_drop|done|rewrite length_drop; lia|]. intros p Hp. rewrite bit_drop, Hbits by lia. rewrite <- bit_drop, drop_app_length by done.
  rewrite bool_decide_eq_false_2; [apply orb_false_r|]. intros Hin. specialize (Hps _ Hin). unfold zlen in Hps. lia.
Qed.

Lemma added_zeros n k ps data' : added (replicate (n + k) 0) ps data' -> (forall p, p ∈ ps -> p < 8 * Z.of_nat n) -> data' = take n data' ++ replicate k 0.
Proof.
  intros Ha Hps. rewrite replicate_add in Ha. rewrite <- (length_replicate n 0) at 1. apply (added_tail _ _ ps); [apply zeros_bytes|done|]. intros p Hp. unfold zlen. rewrite length_replicate. by apply Hps.
Qed.

Lemma store_byte_app data x meta b : store_byte (zlen data) b (data ++ x :: meta) = Some (data ++ u8 b :: meta).
Proof.
  unfold store_byte. pose proof (zlen_nonneg data). pose proof (zlen_nonneg meta). autorewrite with zlen. case_bool; try lia. cbn. f_equal. unfold zlen. rewrite Nat2Z.id.
  rewrite insert_app_r_alt, Nat.sub_diag by lia. done.
Qed.

Lemma lookup_meta (data meta : bytes) i n : n = length data -> (data ++ meta) !! (n + i)%nat = meta !! i.
Proof. intros ->. rewrite lookup_app_r by lia. f_equal. lia. Qed.

Lemma hash_positions_below len num_probes h p : 64 <= len < 2 ^ 32 -> p ∈ hash_positions len num_probes h -> p < 8 * len.
Proof.
  intros Hl. apply (positions_below line_bitpos remix is_u32 64); [apply remix_u32|apply line_bitpos_range|apply Upper32_u32|].
  apply PrepareHash_range; [apply u32_range|done].
Qed.

Lemma forallb_bits data ps : forallb (bit data) ps = true <-> forall p, p ∈ ps -> bit data p = true.
Proof. rewrite forallb_forall. by setoid_rewrite list_elem_of_In. Qed.

(** *** Filters local to a cache line *)

Lemma land_mask x : 0 <= x < 2 ^ 32 -> Z.land x (Z.lxor 0xffffffff 63) = x / 64 * 64.
Proof.
  intros Hx. replace (x / 64 * 64) with (Z.shiftl (Z.shiftr x 6) 6) by (rewrite Z.shiftl_mul_pow2, shiftr_div by lia; done). rewrite <- Z.ldiff_ones_r by lia.
  apply Z.bits_inj'. intros n Hn. rewrite Z.land_spec, Z.ldiff_spec, Z.lxor_spec. change 0xffffffff with (Z.ones 32). change 63 with (Z.ones 6).
  destruct (Z.lt_ge_cases n 32); [by rewrite (Z.ones_spec_low 32) by lia|]. replace (Z.testbit x n) with false; [done|].
  by rewrite <- (Z.mod_small x (2 ^ 32)), Z.mod_pow2_bits_high by lia.
Qed.

Lemma fast_space m n : 1000 <= m -> 0 < n -> n * m + 7999 < 2 ^ 64 -> exists len, fast_CalculateSpace m n = len + 5 /\ 64 <= len /\ len + 5 < 2 ^ 32.
Proof.
  intros Hm Hn Hb. unfold fast_CalculateSpace. assert (Hp : 1000 <= n * m) by nia. rewrite (u64_small (n * m)), (u64_small (n * m + 7999)) by lia.
  set (raw := if 0xffffffc0 <=? (n * m + 7999) / 8000 then 0xffffffc0 else (n * m + 7999) / 8000). assert (Hraw : 1 <= raw <= 0xffffffc0) by (unfold raw; case_bool; div_lia).
  rewrite (u32_small (raw + 63)), land_mask by lia. assert (Hl : 64 <= (raw + 63) / 64 * 64 <= 0xffffffc0) by div_lia. exists ((raw + 63) / 64 * 64). rewrite u32_small; lia.
Qed.

Lemma fast_probes m : 1 <= fast_ChooseNumProbes m <= 24.
Proof. unfold fast_ChooseNumProbes. case_bool; first [lia|div_lia]. Qed.

(** The metadata that [Finish] stores. *)
Lemma store_meta data len np : zlen data = len -> 0 <= np < 2 ^ 8 ->
  (buf ← store_byte len (-1) (data ++ replicate 5 0); buf ← store_byte (len + 1) 0 buf; store_byte (len + 2) np buf) = Some (data ++ [255; 0; np; 0; 0]).
Proof.
  intros <- Hnp. cbn [replicate]. rewrite store_byte_app. cbn [mbind option_bind]. change (u8 (-1)) with 255. rewrite (cons_middle 255 data), app_assoc.
  replace (zlen data + 1) with (zlen (data ++ [255])) by (autorewrite with zlen; lia). rewrite store_byte_app. cbn [mbind option_bind]. change (u8 0) with 0. rewrite (cons_middle 0 (data ++ [255])), app_assoc.
  replace (zlen data + 2) with (zlen ((data ++ [255]) ++ [0])) by (autorewrite with zlen; lia). rewrite store_byte_app, (u8_small np) by lia. by rewrite <- !app_assoc.
Qed.

Lemma fast_Finish_ok m E : 1000 <= m -> E <> [] -> zlen E * m + 7999 < 2 ^ 64 ->
  exists data len, let np := fast_ChooseNumProbes m in
    fast_Finish m E = Some (data ++ [255; 0; np; 0; 0]) /\ zlen data = len /\ 64 <= len /\ len + 5 < 2 ^ 32 /\ is_bytes data /\
    forall h p, h ∈ E -> p ∈ hash_positions len np h -> bit data p = true.
Proof.
  intros Hm HE Hb. assert (Hn : 0 < zlen E) by (destruct E; [done|rewrite zlen_cons; pose proof (zlen_nonneg E); lia]). destruct (fast_space m (zlen E) Hm Hn Hb) as (len & Es & Hl & Hl32).
  pose proof (fast_probes m) as Hnp. set (np := fast_ChooseNumProbes m) in *. unfold fast_Finish. rewrite Es. destruct (Z.ltb_spec (len + 5) 5); [lia|]. replace (len + 5 - 5) with len by lia. destruct (Z.ltb_spec 0 len); [|lia].
  replace (Z.to_nat (len + 5)) with (Z.to_nat len + 5)%nat by lia. fold np. destruct (AddAllEntries_ok len np ltac:(lia) E (replicate (Z.to_nat len + 5) 0) (zeros_bytes _)) as (data1 & -> & H1); [unfold zlen; rewrite length_replicate; lia|].
  cbn [mbind option_bind]. rewrite (added_zeros (Z.to_nat len) 5 _ data1 H1); [|intros p (h & Hp & _)%list_elem_of_bind; rewrite Z2Nat.id by lia; by apply hash_positions_below in Hp; [|lia]].
  pose proof (ad_length _ _ _ H1) as Hlen. rewrite length_replicate in Hlen. set (data := take (Z.to_nat len) data1). assert (Hz : zlen data = len) by (unfold data, zlen; rewrite length_take; lia).
  exists data, len. cbv zeta. split_and!; [|done|done|done|by apply Forall_take, (ad_bytes _ _ _ H1)|].
  - apply store_meta; [done|lia].
  - intros h p Hh Hp. pose proof (hash_positions_nonneg len np h p ltac:(lia) Hp). pose proof (hash_positions_below len np h p ltac:(lia) Hp).
    unfold data. rewrite bit_take by lia. apply (added_bit _ _ _ p H1); [done|]. right. apply list_elem_of_bind. by exists h.
Qed.

Lemma fast_reader data len np : zlen data = len -> 64 <= len -> len + 5 < 2 ^ 32 -> 1 <= np <= 24 ->
  GetFilterBitsReader (data ++ [255; 0; np; 0; 0]) = Some (FastLocalBloomBitsReader (data ++ [255; 0; np; 0; 0]) np len).
Proof.
  intros Hz Hl Hl32 Hnp. remember (data ++ [255; 0; np; 0; 0]) as contents eqn:Ec. assert (Hc : u32 (zlen contents) = len + 5) by (subst contents; autorewrite with zlen; rewrite u32_small; lia).
  assert (Hm : forall i, contents !! (Z.to_nat len + i)%nat = [255; 0; np; 0; 0] !! i) by (intros i; subst contents; apply lookup_meta; unfold zlen in Hz; lia).
  assert (Hr : DecodeFixed16 (drop (Z.to_nat len + 3) contents) = 0) by (subst contents; rewrite <- drop_drop, drop_app_length' by (unfold zlen in Hz; lia); done). clear Ec.
  unfold GetFilterBitsReader, GetBloomBitsReader. rewrite Hc. destruct (Z.leb_spec (len + 5) 5); [lia|]. replace (len + 5 - 5) with len by lia. destruct (Z.leb_spec len 0); [lia|].
  replace (Z.to_nat (len + 5 - 4)) with (Z.to_nat len + 1)%nat by lia. replace (Z.to_nat (len + 5 - 3)) with (Z.to_nat len + 2)%nat by lia. replace (Z.to_nat (len + 5 - 2)) with (Z.to_nat len + 3)%nat by lia.
  rewrite <- (Nat.add_0_r (Z.to_nat len)) at 1. rewrite !Hm, Hr. cbn [lookup list_lookup mbind option_bind]. change (int8 255) with (-1). cbn [Z.ltb Z.compare Z.eqb].
  assert (Ei : int8 np = np) by (unfold int8; destruct (Z.ltb_spec np 128); lia). rewrite Ei. change 31 with (2 ^ 5 - 1). rewrite land_ones_mod, (Z.mod_small np) by lia.
  destruct (Z.ltb_spec np 1); [lia|]. destruct (Z.ltb_spec 30 np); [lia|]. cbn [orb].
  replace (Z.shiftr np 5) with 0 by (rewrite shiftr_div by lia; div_lia). reflexivity.
Qed.

(** *** Legacy filters *)

Lemma locality_bitpos_range log2 h : 0 <= log2 -> is_u32 h -> 0 <= locality_bitpos (log2 + 3) h < 8 * 2 ^ log2.
Proof.
  intros Hl Hh. unfold locality_bitpos. rewrite Z.shiftl_1_l, land_ones_mod by lia. rewrite Z.pow_add_r by lia. change (2 ^ 3) with 8. rewrite (Z.mul_comm (2 ^ log2)).
  apply Z.mod_pos_bound. assert (0 < 2 ^ log2) by (apply Z.pow_pos_nonneg; lia). lia.
Qed.

Lemma locality_next_u32 rot bits delta h : is_u32 h -> is_u32 (locality_next rot bits delta h).
Proof. intros _. apply u32_range. Qed.

Lemma locality_prepare_ok h num_lines log2 : is_u32 h -> 0 < num_lines -> 0 <= log2 < 32 -> num_lines * 2 ^ log2 < 2 ^ 32 ->
  exists base, locality_PrepareHashMayMatch false h num_lines log2 = Some base /\ 0 <= base /\ base + 2 ^ log2 <= num_lines * 2 ^ log2.
Proof.
  intros Hh Hn Hl Hb. unfold locality_PrepareHashMayMatch, GetLine. destruct (Z.eqb_spec num_lines 0); [lia|]. cbn [mbind option_bind]. destruct (Z.ltb_spec log2 32); [|lia].
  eexists. split; [done|]. rewrite Z.shiftl_mul_pow2 by lia. assert (0 <= h mod num_lines < num_lines) by (apply Z.mod_pos_bound; lia). assert (0 < 2 ^ log2) by (apply Z.pow_pos_nonneg; lia).
  rewrite u32_small; nia.
Qed.

Definition legacy_positions (num_probes num_lines h : Z) : list Z :=
  positions (locality_bitpos 9) (locality_next false 9 (delta_of h)) (Z.to_nat num_probes) h (default 0 (locality_PrepareHashMayMatch false h num_lines 6)).

Section Legacy.
Context (num_probes num_lines : Z) (Hnl : 0 < num_lines) (Hfit : num_lines * 64 < 2 ^ 32).
Abbreviation lp := (legacy_positions num_probes num_lines).

Lemma legacy_base h : is_u32 h -> exists base, locality_PrepareHashMayMatch false h num_lines 6 = Some base /\ 0 <= base /\ base + 64 <= num_lines * 64.
Proof. intros Hh. apply (locality_prepare_ok h num_lines 6); [done..|lia|done]. Qed.

Lemma legacy_positions_range h p : is_u32 h -> p ∈ lp h -> 0 <= p < 8 * (num_lines * 64).
Proof.
  intros Hh. unfold legacy_positions. destruct (legacy_base h Hh) as (base & -> & H0 & H1). cbn [default]. intros Hp. split.
  - eapply (positions_nonneg _ _ is_u32 64); [apply locality_next_u32|intros ? ?; by apply (locality_bitpos_range 6)|done..].
  - eapply (positions_below _ _ is_u32 64); [apply locality_next_u32|intros ? ?; by apply (locality_bitpos_range 6)|done|apply H1|done].
Qed.

Lemma legacy_add_ok E data : Forall is_u32 E -> is_bytes data -> num_lines * 64 <= zlen data ->
  exists data', legacy_add_loop E num_lines num_probes data = Some data' /\ added data (E ≫= lp) data'.
Proof.
  intros HE. revert data. induction HE as [|h E Hh HE IH]; intros data Hd Hz; cbn [legacy_add_loop]; [exists data; split; [done|by apply added_nil]|].
  unfold locality_AddHash. change (constexpr_log2 CACHE_LINE_SIZE) with 6. destruct (legacy_base h Hh) as (base & Eb & H0 & H1). rewrite Eb. cbn [mbind option_bind]. change (30 <? 6 + 3) with false. rewrite andb_false_r.
  destruct (add_probes_ok (locality_bitpos (6 + 3)) (locality_next false (6 + 3) (delta_of h)) is_u32 64) with (n := Z.to_nat num_probes) (h := h) (base := base) (data := data) as (data1 & -> & Ha);
    [apply locality_next_u32|intros ? ?; by apply (locality_bitpos_range 6)|done..|lia|]. cbn [mbind option_bind].
  destruct (IH data1 (ad_bytes _ _ _ Ha)) as (data2 & -> & H2); [unfold zlen in *; by rewrite (ad_length _ _ _ Ha)|]. exists data2. split; [done|]. cbn [mbind list_bind]. apply (added_app data _ data1); [|done].
  unfold legacy_positions. rewrite Eb. exact Ha.
Qed.

Lemma legacy_match h data : is_u32 h -> num_lines * 64 <= zlen data ->
  (o ← locality_PrepareHashMayMatch false h num_lines 6; locality_HashMayMatchPrepared false h num_probes data o 6) = Some (forallb (bit data) (lp h)).
Proof.
  intros Hh Hz. unfold legacy_positions. destruct (legacy_base h Hh) as (base & -> & H0 & H1). cbn [mbind option_bind default]. unfold locality_HashMayMatchPrepared. change (30 <? 6 + 3) with false. rewrite andb_false_r.
  apply (may_match_probes_ok _ _ is_u32 64); [apply locality_next_u32|intros ? ?; by apply (locality_bitpos_range 6)|done|done|cbn; lia].
Qed.
End Legacy.

(** The number of cache lines is odd. *)
Lemma legacy_space bk n : 1 <= bk -> 0 < n -> n * bk < 2 ^ 31 ->
  exists num_lines, legacy_CalculateSpace bk n = Some (num_lines * 64 + 5, num_lines * 512, num_lines) /\ 0 < num_lines /\ num_lines < 2 ^ 23.
Proof.
  intros Hb Hn Hp. unfold legacy_CalculateSpace, GetTotalBitsForLocality, CACHE_LINE_SIZE. change (64 * 8) with 512. destruct (Z.eqb_spec bk 0); [lia|]. destruct (Z.eqb_spec n 0); [lia|]. assert (1 <= n * bk) by nia.
  destruct (Z.leb_spec (- 2 ^ 31) (n * bk)); [|lia]. destruct (Z.ltb_spec (n * bk) (2 ^ 31)); [|lia]. cbn [andb]. rewrite (u32_small (n * bk)), (u32_small (n * bk + 512 - 1)) by lia.
  set (lines := (n * bk + 512 - 1) / 512). assert (Hl : 1 <= lines <= 2 ^ 22) by (unfold lines; div_lia). clearbody lines. set (num_lines := if lines mod 2 =? 0 then u32 (lines + 1) else lines).
  assert (Hnl : 1 <= num_lines <= 2 ^ 22 + 1) by (unfold num_lines; destruct (lines mod 2 =? 0); [rewrite u32_small|]; lia). clearbody num_lines. rewrite (u32_small (num_lines * 512)) by lia. rewrite Z.div_mul by lia.
  destruct (Z.ltb_spec 0 (num_lines * 512)); [|lia]. replace (num_lines * 512 mod 8) with 0 by (rewrite (Z.mul_comm num_lines); div_lia). cbn [andb Z.eqb].
  replace (num_lines * 512 / 8) with (num_lines * 64) by div_lia. exists num_lines. rewrite u32_small by lia. split_and!; [done|lia|lia].
Qed.

Lemma legacy_Finish_ok bk np E : 1 <= bk -> 1 <= np <= 127 -> E <> [] -> Forall is_u32 E -> zlen E * bk < 2 ^ 31 ->
  exists data num_lines, legacy_Finish bk np E = Some (data ++ np :: EncodeFixed32 num_lines) /\ zlen data = num_lines * 64 /\ 0 < num_lines < 2 ^ 23 /\ is_bytes data /\
    forall h p, h ∈ E -> p ∈ legacy_positions np num_lines h -> bit data p = true.
Proof.
  intros Hb Hnp HE HE32 Hfit. assert (Hn : 0 < zlen E) by (destruct E; [done|rewrite zlen_cons; pose proof (zlen_nonneg E); lia]). destruct (legacy_space bk (zlen E) Hb Hn Hfit) as (nl & Es & Hnl & Hnl').
  unfold legacy_Finish. rewrite i32_small by nia. rewrite Es. cbn [mbind option_bind]. destruct (Z.eqb_spec (nl * 512) 0); [lia|]. destruct (Z.eqb_spec nl 0); [lia|]. cbn [negb andb].
  replace (Z.to_nat (nl * 64 + 5)) with (Z.to_nat (nl * 64) + 5)%nat by lia. destruct (legacy_add_ok np nl Hnl ltac:(lia) E (replicate (Z.to_nat (nl * 64) + 5) 0) HE32 (zeros_bytes _)) as (data1 & -> & H1); [unfold zlen; rewrite length_replicate; lia|].
  cbn [mbind option_bind]. assert (Hrange : forall h p, h ∈ E -> p ∈ legacy_positions np nl h -> 0 <= p < 8 * (nl * 64)) by (intros h p Hh; apply legacy_positions_range; [lia|lia|by eapply Forall_forall in HE32]).
  rewrite (added_zeros (Z.to_nat (nl * 64)) 5 _ data1 H1); [|intros p (h & Hp & Hh)%list_elem_of_bind; rewrite Z2Nat.id by lia; by eapply Hrange].
  pose proof (ad_length _ _ _ H1) as Hlen. rewrite length_replicate in Hlen. set (data := take (Z.to_nat (nl * 64)) data1). assert (Hz : zlen data = nl * 64) by (unfold data, zlen; rewrite length_take; lia).
  exists data, nl. split_and!; [|done..|by apply Forall_take, (ad_bytes _ _ _ H1)|].
  - replace (nl * 512 / 8) with (nl * 64) by div_lia. rewrite <- Hz. change (replicate 5 0) with (0 :: replicate 4 0). rewrite store_byte_app. cbn [mbind option_bind]. rewrite u8_small by lia. unfold store_bytes.
    change (zlen (EncodeFixed32 nl)) with 4. autorewrite with zlen. change (zlen (replicate 4 0)) with 4. destruct (Z.leb_spec 0 (zlen data + 1)); [|lia]. destruct (Z.leb_spec (zlen data + 1 + 4) (zlen data + (4 + 1))); [|lia].
    cbn [andb mbind option_bind]. f_equal. unfold zlen. replace (Z.to_nat (Z.of_nat (length data) + 1)) with (length data + 1)%nat by lia. change (length (EncodeFixed32 nl)) with 4%nat.
    rewrite take_app_add. rewrite (drop_ge (data ++ _)) by (rewrite length_app; cbn; lia). rewrite app_nil_r. cbn [take]. rewrite <- app_assoc. apply take_ge. rewrite !length_app. change (length (EncodeFixed32 nl)) with 4%nat. cbn. lia.
  - intros h p Hh Hp. pose proof (Hrange h p Hh Hp). unfold data. rewrite bit_take by lia. apply (added_bit _ _ _ p H1); [lia|]. right. apply list_elem_of_bind. by exists h.
Qed.

Lemma legacy_reader data num_lines np : zlen data = num_lines * 64 -> 0 < num_lines < 2 ^ 23 -> 1 <= np <= 127 ->
  GetFilterBitsReader (data ++ np :: EncodeFixed32 num_lines) = Some (LegacyBloomBitsReader (data ++ np :: EncodeFixed32 num_lines) np num_lines 6).
Proof.
  intros Hz Hn Hnp. remember (data ++ np :: EncodeFixed32 num_lines) as contents eqn:Ec. set (len := num_lines * 64) in *.
  assert (Hc : u32 (zlen contents) = len + 5) by (subst contents; autorewrite with zlen; change (zlen (EncodeFixed32 num_lines)) with 4; rewrite u32_small; lia).
  assert (Hm : contents !! Z.to_nat len = Some np) by (subst contents; rewrite <- (Nat.add_0_r (Z.to_nat len)); rewrite lookup_meta by (unfold zlen in Hz; lia); done).
  assert (Hd : DecodeFixed32 (drop (Z.to_nat (len + 1)) contents) = num_lines).
  { subst contents. replace (Z.to_nat (len + 1)) with (Z.to_nat len + 1)%nat by lia. rewrite <- drop_drop, drop_app_length' by (unfold zlen in Hz; lia). cbn [drop].
    rewrite <- (app_nil_r (EncodeFixed32 num_lines)). apply memcpy_to_from_id. change (256 ^ Z.of_nat 4) with (2 ^ 32). lia. }
  unfold GetFilterBitsReader. rewrite Hc. destruct (Z.leb_spec (len + 5) 5); [lia|]. replace (len + 5 - 5) with len by lia. replace (len + 5 - 4) with (len + 1) by lia. rewrite Hm, Hd. cbn [mbind option_bind].
  assert (Ei : int8 np = np) by (unfold int8; destruct (Z.ltb_spec np 128); lia). rewrite Ei. destruct (Z.ltb_spec np 1); [lia|]. unfold CACHE_LINE_SIZE. rewrite u32_small by lia. fold len. rewrite Z.eqb_refl. done.
Qed.

(** ** Builders and readers *)

Lemma BloomHash_u32 key : is_u32 (BloomHash key).
Proof. apply Hash_range. Qed.

Lemma push_hash_in h E : h ∈ push_hash h E /\ forall x, x ∈ E -> x ∈ push_hash h E.
Proof.
  unfold push_hash. destruct (last E) as [b|] eqn:El; [|apply last_None in El as ->; set_solver]. destruct (Z.eqb_spec h b) as [->|]; [|set_solver].
  split; [by apply last_Some_elem_of in El|done].
Qed.

Lemma push_hash_length h E : zlen (push_hash h E) <= zlen E + 1.
Proof. unfold push_hash. destruct (last E) eqn:El; [destruct (h =? z)|apply last_None in El as ->]; autorewrite with zlen; cbn; lia. Qed.

Lemma push_hash_nonempty h E : push_hash h E <> [].
Proof. intros Hc. pose proof (proj1 (push_hash_in h E)) as Hin. rewrite Hc in Hin. by apply not_elem_of_nil in Hin. Qed.

Lemma option_cases {A} (o : option A) : (exists x, o = Some x) \/ o = None.
Proof. destruct o; eauto. Qed.

Section Builders.
Context (Hash64 : bytes -> Z) (have_avx2 : bool).

(** The hash of the key is among the entries. *)
Definition hashed (b : FilterBitsBuilder) (key : bytes) : Prop :=
  match b with
  | FastLocalBloomBitsBuilder _ E => Hash64 key ∈ E
  | LegacyBloomBitsBuilder _ _ E => BloomHash key ∈ E
  end.

Definition entries (b : FilterBitsBuilder) : list Z :=
  match b with FastLocalBloomBitsBuilder _ E | LegacyBloomBitsBuilder _ _ E => E end.

(** A builder of the policy with at most [n] entries. *)
Definition builder_ok (n : Z) (b : FilterBitsBuilder) : Prop :=
  zlen (entries b) <= n /\
  match b with
  | FastLocalBloomBitsBuilder m _ => 1000 <= m <= 100000
  | LegacyBloomBitsBuilder bk np E => 1 <= bk <= 100 /\ 1 <= np <= 30 /\ Forall is_u32 E
  end.

Lemma AddKey_ok n b key : builder_ok n b ->
  let b' := bits_AddKey Hash64 key b in builder_ok (n + 1) b' /\ hashed b' key /\ (forall x, hashed b x -> hashed b' x) /\ entries b' <> [].
Proof.
  intros [Hn Hb]. destruct b as [m E|bk np E]; cbn in *.
  - pose proof (push_hash_length (Hash64 key) E). destruct (push_hash_in (Hash64 key) E). split_and!; [by split; [cbn; unfold GetSliceHash64; lia|]|done|auto|apply push_hash_nonempty].
  - pose proof (push_hash_length (BloomHash key) E). destruct (push_hash_in (BloomHash key) E). split_and!; [|done|auto|apply push_hash_nonempty].
    destruct Hb as (? & ? & HE). split; [cbn; lia|]. split_and!; [lia..|]. unfold push_hash. destruct (last E); [destruct (_ =? _); [done|]|]; [apply Forall_app_2; [done|]|]; apply Forall_singleton, BloomHash_u32.
Qed.

(** A filter that was built is read back, answers for every key and has those added. *)
Lemma Finish_ok n b : builder_ok n b -> n * 100 < 2 ^ 31 -> entries b <> [] ->
  exists contents r, bits_Finish b = Some contents /\ contents <> [] /\ GetFilterBitsReader contents = Some r /\
    (forall key, is_Some (bits_MayMatch Hash64 have_avx2 r key)) /\ forall key, hashed b key -> bits_MayMatch Hash64 have_avx2 r key = Some true.
Proof.
  intros [Hn Hb] Hfit HE. pose proof (zlen_nonneg (entries b)). destruct b as [m E|bk np E]; cbn [entries bits_Finish hashed] in *.
  - destruct (fast_Finish_ok m E) as (data & len & -> & Hz & Hl & Hl32 & Hd & Hbits); [lia|done|nia|]. pose proof (fast_probes m) as Hnp. set (np := fast_ChooseNumProbes m) in *.
    assert (Hm : forall key, bits_MayMatch Hash64 have_avx2 (FastLocalBloomBitsReader (data ++ [255; 0; np; 0; 0]) np len) key = Some (forallb (bit (data ++ [255; 0; np; 0; 0])) (hash_positions len np (Hash64 key)))).
    { intros key. cbn [bits_MayMatch]. unfold GetSliceHash64. destruct (PrepareHash_range (Lower32of64 (Hash64 key)) len) as [H0 H1]; [apply u32_range|lia|].
      apply HashMayMatchPrepared_ok; [apply Forall_app_2; [done|repeat constructor; lia]|apply u32_range|lia|done|autorewrite with zlen; cbn; lia]. }
    eexists _, _. split_and!; [done|by intros [_ ?]%app_eq_nil|by apply fast_reader|intros key; rewrite Hm; by eexists|]. intros key Hk. rewrite Hm.
    f_equal. apply forallb_bits. intros p Hp. rewrite bit_app; [by eapply Hbits|]. rewrite Hz. split; [eapply hash_positions_nonneg|eapply hash_positions_below]; [|done| |done]; lia.
  - destruct Hb as (Hbk & Hnp & HE32). destruct (legacy_Finish_ok bk np E) as (data & nl & -> & Hz & Hnl & Hd & Hbits); [lia|lia|done|done|nia|].
    assert (Hm : forall key, bits_MayMatch Hash64 have_avx2 (LegacyBloomBitsReader (data ++ np :: EncodeFixed32 nl) np nl 6) key = Some (forallb (bit (data ++ np :: EncodeFixed32 nl)) (legacy_positions np nl (BloomHash key)))).
    { intros key. cbn [bits_MayMatch]. apply (legacy_match np nl); [lia|lia|apply BloomHash_u32|autorewrite with zlen; pose proof (zlen_nonneg (EncodeFixed32 nl)); lia]. }
    eexists _, _. split_and!; [done|by intros [_ ?]%app_eq_nil|apply legacy_reader; [done..|lia]|intros key; rewrite Hm; by eexists|]. intros key Hk. rewrite Hm.
    f_equal. apply forallb_bits. intros p Hp. rewrite bit_app; [by eapply Hbits|]. rewrite Hz. eapply legacy_positions_range; [| |apply BloomHash_u32|done]; lia.
Qed.

(** ** Full filter blocks *)

Context (t : option SliceTransform) (whole_key_filtering : bool).

(** The keys and prefixes that were added are in the builder, also those that were left
    out because they repeat. *)
Record full_inv (n : Z) (keys : list bytes) (f : FullFilterBlockBuilder) : Prop := {
  fi_extractor : prefix_extractor_ f = t;
  fi_whole : whole_key_filtering_ f = whole_key_filtering;
  fi_builder : builder_ok n (filter_bits_builder_ f);
  fi_added : num_added_ f <> 0 -> entries (filter_bits_builder_ f) <> [];
  fi_last_key : last_whole_key_recorded_ f = true -> hashed (filter_bits_builder_ f) (last_whole_key_str_ f);
  fi_last_prefix : last_prefix_recorded_ f = true -> hashed (filter_bits_builder_ f) (last_prefix_str_ f);
  fi_keys : whole_key_filtering = true -> forall k, k ∈ keys -> hashed (filter_bits_builder_ f) k;
  fi_prefixes : forall k e, k ∈ keys -> t = Some e -> InDomain e k = true -> hashed (filter_bits_builder_ f) (Transform e k)
}.

Lemma builder_ok_mono n m b : builder_ok n b -> n <= m -> builder_ok m b.
Proof. intros [Hn Hb] Hnm. split; [lia|done]. Qed.

Lemma hashed_nonempty b key : hashed b key -> entries b <> [].
Proof. destruct b as [m E|bk np E]; cbn; intros Hin ->; by apply not_elem_of_nil in Hin. Qed.

Lemma full_AddKey_inv n keys f key : full_inv n keys f ->
  let f' := full_AddKey Hash64 key f in
  full_inv (n + 1) keys f' /\ hashed (filter_bits_builder_ f') key /\ forall x, hashed (filter_bits_builder_ f) x -> hashed (filter_bits_builder_ f') x.
Proof.
  intros [He Hw Hb Ha Hk Hp Hks Hps]. destruct (AddKey_ok n _ key Hb) as (Hb' & Hin & Hmono & Hne). cbv zeta. split_and!; [|done|done].
  split; cbn; try done; [by intros ?%Hk%Hmono|by intros ?%Hp%Hmono|by intros ? k ?; apply Hmono, Hks|by intros k e ? ? ?; eapply Hmono, Hps].
Qed.

(** Adding the prefix of a key in the domain. *)
Lemma AddPrefix_inv n keys f e key : t = Some e -> full_inv n keys f ->
  let f' := AddPrefix Hash64 e key f in
  full_inv (n + 1) keys f' /\ hashed (filter_bits_builder_ f') (Transform e key) /\ forall x, hashed (filter_bits_builder_ f) x -> hashed (filter_bits_builder_ f') x.
Proof.
  intros Ht Hf. destruct (full_AddKey_inv n keys f (Transform e key) Hf) as (Hf' & Hin & Hmono). cbv zeta. unfold AddPrefix. destruct (whole_key_filtering_ f); [|done].
  destruct (last_prefix_recorded_ f) eqn:El; cbn [negb orb]; [case_bool_decide as Es; cbn [negb]|].
  - split_and!; [|rewrite <- Es; by apply (fi_last_prefix _ _ _ Hf)|done]. destruct Hf as [? ? Hb ? ? ? ? ?]. split; try done. eapply builder_ok_mono; [done|lia].
  - split_and!; [destruct Hf'; by split|done|done].
  - split_and!; [destruct Hf'; by split|done|done].
Qed.

(** The whole key, where it is filtered. *)
Lemma add_whole_inv n keys f key (add_prefix : bool) : full_inv n keys f ->
  let f' := if whole_key_filtering_ f then
      if negb add_prefix then full_AddKey Hash64 key f
      else if negb (last_whole_key_recorded_ f) || negb (bool_decide (last_whole_key_str_ f = key)) then record_whole_key key (full_AddKey Hash64 key f)
      else f
    else f in
  full_inv (n + 1) keys f' /\ (whole_key_filtering = true -> hashed (filter_bits_builder_ f') key).
Proof.
  intros Hf. assert (Hsame : full_inv (n + 1) keys f) by (destruct Hf as [? ? Hb ? ? ? ? ?]; split; try done; eapply builder_ok_mono; [done|lia]).
  destruct (full_AddKey_inv n keys f key Hf) as (Hf' & Hin & _). cbv zeta. rewrite (fi_whole _ _ _ Hf). destruct whole_key_filtering; [|done].
  destruct add_prefix; cbn [negb]; [|done]. destruct (last_whole_key_recorded_ f) eqn:El; cbn [negb orb]; [case_bool_decide as Es; cbn [negb]|].
  - split; [done|]. intros _. rewrite <- Es. by apply (fi_last_key _ _ _ Hf).
  - split; [|done]. destruct Hf'; by split.
  - split; [|done]. destruct Hf'; by split.
Qed.

Lemma full_Add_inv n keys f key : full_inv n keys f -> full_inv (n + 2) (keys ++ [key]) (full_Add Hash64 key f).
Proof.
  intros Hf. unfold full_Add. rewrite (fi_extractor _ _ _ Hf). set (add_prefix := match t with Some e => InDomain e key | None => false end).
  destruct (add_whole_inv n keys f key add_prefix Hf) as [Hf1 Hin1]. set (f1 := if whole_key_filtering_ f then _ else f) in *. rewrite (fi_extractor _ _ _ Hf1).
  assert (Hfin : forall f2, full_inv (n + 2) keys f2 -> (whole_key_filtering = true -> hashed (filter_bits_builder_ f2) key) ->
    (forall e, t = Some e -> InDomain e key = true -> hashed (filter_bits_builder_ f2) (Transform e key)) -> full_inv (n + 2) (keys ++ [key]) f2).
  { intros f2 [? ? ? ? ? ? ? ?] Hkey Hpre. split; try done; [intros Hw k [Hk| ->]%in_snoc; auto|]. intros k e [Hk| ->]%in_snoc Ht Hd; eauto. }
  assert (Hsame : full_inv (n + 2) keys f1) by (destruct Hf1 as [? ? Hb ? ? ? ? ?]; split; try done; eapply builder_ok_mono; [done|lia]).
  destruct (option_cases t) as [[e Et]|Et]; unfold add_prefix; rewrite Et; [|apply Hfin; [done..|]; intros e' Ee; congruence]. destruct (InDomain e key) eqn:Ea.
  - destruct (AddPrefix_inv (n + 1) keys f1 e key) as (Hf2 & Hin2 & Hmono); [done|done|]. replace (n + 1 + 1) with (n + 2) in Hf2 by lia. apply Hfin; [done|auto|]. intros e' Ee _. by replace e' with e by congruence.
  - apply Hfin; [done|done|]. intros e' Ee Hd. congruence.
Qed.
End Builders.

(** ** Block-based filters *)

Section BlockFilter.
Context (bits np : Z) (Hbits : 0 < bits < 2 ^ 32) (Hmod : bits mod 8 = 0).

Definition block_positions (h : Z) : list Z := positions (fun h => h mod bits) (fun x => u32 (x + delta_of h)) (Z.to_nat np) h 0.

Lemma mod_bits_range h : is_u32 h -> 0 <= h mod bits < 8 * (bits / 8).
Proof. intros _. replace (8 * (bits / 8)) with bits by div_lia. apply Z.mod_pos_bound. lia. Qed.

Lemma block_positions_range h p : is_u32 h -> p ∈ block_positions h -> 0 <= p < 8 * (bits / 8).
Proof.
  intros Hh Hp. split.
  - refine (positions_nonneg _ _ is_u32 (bits / 8) _ mod_bits_range _ h 0 p Hh _ Hp); [intros ? _; apply u32_range|lia].
  - refine (positions_below _ _ is_u32 (bits / 8) _ h 0 _ p _ mod_bits_range Hh _ Hp); [intros ? _; apply u32_range|lia].
Qed.

Lemma create_loop_ok keys data : is_bytes data -> bits / 8 <= zlen data ->
  exists data', create_loop keys bits np data = Some data' /\ added data ((BloomHash <$> keys) ≫= block_positions) data'.
Proof.
  revert data. induction keys as [|k keys IH]; intros data Hd Hz; cbn [create_loop]; [exists data; split; [done|by apply added_nil]|].
  unfold nolocality_AddHash. destruct (Z.eqb_spec bits 0); [lia|].
  destruct (add_probes_ok (fun h => h mod bits) (fun x => u32 (x + delta_of (BloomHash k))) is_u32 (bits / 8)) with (n := Z.to_nat np) (h := BloomHash k) (base := 0) (data := data) as (data1 & -> & H1);
    [intros ? _; apply u32_range|apply mod_bits_range|apply BloomHash_u32|done|lia|lia|]. cbn [mbind option_bind].
  destruct (IH data1 (ad_bytes _ _ _ H1)) as (data2 & -> & H2); [unfold zlen in *; by rewrite (ad_length _ _ _ H1)|]. exists data2. split; [done|]. rewrite fmap_cons. cbn [mbind list_bind]. by apply (added_app data _ data1).
Qed.

Lemma nolocality_match h data : is_u32 h -> bits / 8 <= zlen data -> nolocality_HashMayMatch h bits np data = Some (forallb (bit data) (block_positions h)).
Proof.
  intros Hh Hz. unfold nolocality_HashMayMatch. destruct (Z.eqb_spec bits 0); [lia|].
  apply (may_match_probes_ok _ _ is_u32 (bits / 8)); [intros ? _; apply u32_range|apply mod_bits_range|done|lia|cbn; lia].
Qed.
End BlockFilter.

Lemma legacy_probes bk : 1 <= legacy_ChooseNumProbes bk <= 30.
Proof. unfold legacy_ChooseNumProbes. case_bool; lia. Qed.

Lemma CreateFilter_ok p keys dst : mode_ p = kDeprecatedBlock -> 1 <= whole_bits_per_key_ p <= 100 -> zlen keys * 100 < 2 ^ 31 ->
  exists filter, CreateFilter p keys dst = Some (dst ++ filter) /\ forall key, key ∈ keys -> KeyMayMatch key filter = Some true.
Proof.
  intros Hm Hw Hn. pose proof (zlen_nonneg keys). unfold CreateFilter. rewrite Hm. set (n := zlen keys * whole_bits_per_key_ p). assert (Hnb : 0 <= n < 2 ^ 31) by (unfold n; nia). destruct (Z.ltb_spec n (2 ^ 31)); [|lia].
  rewrite (u32_small n) by lia. set (b0 := if n <? 64 then 64 else n). assert (Hb0 : 64 <= b0 < 2 ^ 31) by (unfold b0; destruct (Z.ltb_spec n 64); lia). clearbody b0. rewrite (u32_small (b0 + 7)) by lia. set (len := (b0 + 7) / 8).
  assert (Hlen : 8 <= len <= 2 ^ 28) by (unfold len; div_lia). clearbody len. rewrite (u32_small (len * 8)) by lia. pose proof (legacy_probes (whole_bits_per_key_ p)) as Hnp. set (np := legacy_ChooseNumProbes (whole_bits_per_key_ p)) in *. clearbody np.
  rewrite (u8_small np) by lia. assert (Hd8 : len * 8 / 8 = len) by (apply Z.div_mul; lia). assert (Hm8 : len * 8 mod 8 = 0) by (apply Z.mod_mul; lia). assert (Hmeta : is_bytes [np]) by (repeat constructor; lia).
  destruct (create_loop_ok (len * 8) np ltac:(lia) Hm8 keys (replicate (Z.to_nat len) 0 ++ [np])) as (data & -> & Ha); [apply Forall_app_2; [apply zeros_bytes|done]|rewrite Hd8; autorewrite with zlen; unfold zlen; rewrite length_replicate; cbn; lia|].
  cbn [mbind option_bind]. exists data. split; [done|]. intros key Hkey. assert (Hz : zlen data = len + 1) by (unfold zlen; rewrite (ad_length _ _ _ Ha), length_app, length_replicate; cbn; lia).
  assert (Hps : forall q, q ∈ (BloomHash <$> keys) ≫= block_positions (len * 8) np -> 0 <= q < 8 * len).
  { intros q (h & Hq & Hh)%list_elem_of_bind. apply list_elem_of_fmap in Hh as (k & -> & _). rewrite <- Hd8. eapply block_positions_range; [| |apply BloomHash_u32|done]; lia. }
  assert (El : last data = Some np).
  { rewrite (added_tail _ _ _ data Hmeta Ha); [apply last_snoc|]. intros q Hq. unfold zlen. rewrite length_replicate. apply Hps in Hq. lia. }
  unfold KeyMayMatch. rewrite Hz. destruct (Z.ltb_spec (len + 1) 2); [lia|]. destruct (Z.ltb_spec 0xffffffff (len + 1)); [lia|]. cbn [orb]. rewrite El. cbn [mbind option_bind]. destruct (Z.ltb_spec 30 np); [lia|].
  replace (len + 1 - 1) with len by lia. rewrite (u32_small len), (u32_small (len * 8)) by lia. rewrite nolocality_match; [|lia|done|apply BloomHash_u32|lia]. f_equal. apply forallb_bits. intros q Hq.
  assert (Hin : q ∈ (BloomHash <$> keys) ≫= block_positions (len * 8) np) by (apply list_elem_of_bind; exists (BloomHash key); split; [done|by apply list_elem_of_fmap_2]).
  apply (added_bit _ _ _ q Ha); [by apply Hps|by right].
Qed.
