(* ===== verification/Filters.v ===== *)
(** * What Bloom filters promise

    The theorems about the filters of Bloom.v: no false negatives through all of their
    code, agreement of the optimised code with the simple one, and what reading a corrupt
    filter may access. *)

From Stdlib Require Import SpecFloat.
From S2P Require Import Prelude Coding Hash Xxh3 Double Bloom BloomCorrect.

(** ** The policy *)







(** ** Several keys at once *)


Lemma mapM_true {A} (f : A -> option bool) (l : list A) : (forall x, x ∈ l -> f x = Some true) -> mapM f l = Some (replicate (length l) true).
Proof.
  induction l as [|x l IH]; intros Hf; [done|]. cbn. rewrite Hf by left. cbn. rewrite IH; [done|]. intros y Hy. apply Hf. by right.
Qed.


(** ** Ranges of keys *)

Section Ranges.
Context (ctx : MultiGetContext).











End Ranges.

(** ** Full filter blocks *)











(** ** Optimised code *)

(** C33. The AVX2 code of [HashMayMatchPrepared] answers what the portable loop answers, for
    every cache line, hash and number of probes; both are defined. *)
Theorem avx2_probing_agrees (data : bytes) (base h num_probes : Z) :
  is_bytes data -> is_u32 h -> 0 <= num_probes < 2 ^ 30 -> 0 <= base -> base + 64 <= zlen data ->
  exists b, MayMatchAvx2 h num_probes data base = Some b /\ MayMatchPortable h num_probes data base = Some b.
Proof.
  intros Hd Hh Hn Hb Hl. eexists. split; [by apply (HashMayMatchPrepared_ok true)|by apply (HashMayMatchPrepared_ok false)].
Qed.

(** Nineteen probes take three rounds. *)
Lemma avx2_probing_agrees_witness : exists b, MayMatchAvx2 0x12345678 19 (replicate 70 255) 3 = Some b /\ MayMatchPortable 0x12345678 19 (replicate 70 255) 3 = Some b.
Proof.
  apply (avx2_probing_agrees (replicate 70 255) 3 0x12345678 19); [bytes_dec|split; [discriminate|reflexivity]|split; [discriminate|reflexivity]|discriminate|discriminate].
Defined.

(** [AddAllEntries], which buffers eight hashes while it prefetches and processes them
    out of order, empties the deque and leaves the bytes that the simple version in the
    comment of the source leaves. *)
Theorem prefetching_adds_the_same (hash_entries : list Z) (data : bytes) (len num_probes : Z) :
  is_bytes data -> 64 <= len < 2 ^ 32 -> len <= zlen data ->
  exists data', AddAllEntries hash_entries data len num_probes = Some ([], data') /\ AddAllEntries_simple hash_entries data len num_probes = Some data'.
Proof.
  intros Hd Hl Hz. destruct (AddAllEntries_ok len num_probes Hl hash_entries data Hd Hz) as (data1 & -> & H1).
  destruct (AddAllEntries_simple_ok len num_probes Hl hash_entries data Hd Hz) as (data2 & -> & H2). exists data1. split; [done|]. f_equal. by apply (added_unique data _ data2 data1 H2).
Qed.

(** Eleven hashes, which do not fit the buffer. *)
Lemma prefetching_adds_the_same_witness : exists data', AddAllEntries ((fun i => i * 0x123456789abcdef) <$> seqZ 1 11) (replicate 133 0) 128 6 = Some ([], data') /\
  AddAllEntries_simple ((fun i => i * 0x123456789abcdef) <$> seqZ 1 11) (replicate 133 0) 128 6 = Some data'.
Proof. apply (prefetching_adds_the_same _ (replicate 133 0) 128 6); [bytes_dec|split; [discriminate|reflexivity]|discriminate]. Defined.

(** ** Corrupt filters *)

(** The loop for a cache line of another size ends at the power of two, if there is one. *)
Lemma cache_line_loop_ok fuel num_lines len log2 : 0 < num_lines -> 0 <= log2 -> num_lines * 2 ^ log2 < 2 * len -> 0 < len < 2 ^ 31 -> 32 <= log2 + Z.of_nat fuel ->
  exists k, cache_line_loop fuel num_lines len log2 = Some k /\ log2 <= k /\ num_lines * 2 ^ k < 2 * len.
Proof.
  revert log2. induction fuel as [|fuel IH]; intros log2 Hn Hl Hb Hlen Hf.
  { exfalso. pose proof (Z.pow_le_mono_r 2 32 log2 ltac:(lia) ltac:(lia)). nia. }
  cbn [cache_line_loop]. rewrite Z.shiftl_mul_pow2, u32_small by (first [lia|assert (0 < 2 ^ log2) by (apply Z.pow_pos_nonneg; lia); nia]). destruct (Z.ltb_spec (num_lines * 2 ^ log2) len).
  - destruct (IH (log2 + 1)) as (k & -> & Hk & Hkb); [lia|lia|rewrite Z.pow_add_r by lia; lia|lia|lia|]. exists k. split_and!; [done|lia|done].
  - exists log2. split_and!; [done|lia|done].
Qed.

(** What a reader may assume of itself. *)
Definition in_bounds (r : FilterBitsReader) : Prop :=
  match r with
  | LegacyBloomBitsReader data _ num_lines log2 => num_lines * 2 ^ log2 < 2 ^ 32
  | FastLocalBloomBitsReader data _ len => 64 <= len
  | _ => True
  end.

(** What [GetFilterBitsReader] makes of any contents. *)
Definition reader_of (contents : bytes) (r : FilterBitsReader) : Prop :=
  match r with
  | LegacyBloomBitsReader data _ num_lines log2 => data = contents /\ 0 < num_lines /\ 0 <= log2 <= 27 /\ u32 (num_lines * 2 ^ log2) = zlen contents - 5
  | FastLocalBloomBitsReader data num_probes len => data = contents /\ 1 <= num_probes <= 30 /\ len = zlen contents - 5
  | _ => True
  end.

Lemma lookup_contents (contents : bytes) i : 0 <= i < zlen contents -> exists c, contents !! Z.to_nat i = Some c.
Proof. intros Hi. apply lookup_lt_is_Some_2. unfold zlen in Hi. lia. Qed.

Lemma bloom_reader_of contents : 5 < zlen contents < 2 ^ 32 -> exists r, GetBloomBitsReader contents = Some r /\ reader_of contents r.
Proof.
  intros Hl. unfold GetBloomBitsReader. rewrite u32_small by lia. destruct (Z.leb_spec (zlen contents - 5) 0); [lia|].
  destruct (lookup_contents contents (zlen contents - 4)) as [c1 ->]; [lia|]. destruct (lookup_contents contents (zlen contents - 3)) as [c2 ->]; [lia|]. cbn [mbind option_bind].
  set (np := Z.land (int8 c2) 31). destruct (Z.ltb_spec np 1); [by eexists|]. destruct (Z.ltb_spec 30 np); [by eexists|]. cbn [orb].
  destruct (negb _); [by eexists|]. destruct (_ && _); [|by eexists]. eexists. split; [done|]. cbn. split_and!; [done|lia|lia|done].
Qed.

Lemma filter_reader_of contents : is_bytes contents -> zlen contents <= 2 ^ 28 -> exists r, GetFilterBitsReader contents = Some r /\ reader_of contents r.
Proof.
  intros Hd Hl. pose proof (zlen_nonneg contents). unfold GetFilterBitsReader. rewrite u32_small by lia. destruct (Z.leb_spec (zlen contents) 5); [by eexists|].
  destruct (lookup_contents contents (zlen contents - 5)) as [c ->]; [lia|]. cbn [mbind option_bind]. destruct (Z.ltb_spec (int8 c) 1); [destruct (_ =? _); [apply bloom_reader_of; lia|by eexists]|].
  set (len := zlen contents - 5). set (nl := DecodeFixed32 _). assert (Hnl : 0 <= nl < 2 ^ 32) by (by apply memcpy_to_u32, Forall_drop). clearbody nl.
  destruct (Z.eqb_spec (u32 (nl * CACHE_LINE_SIZE)) len) as [E|E].
  - eexists. split; [done|]. cbn [reader_of]. change (constexpr_log2 CACHE_LINE_SIZE) with 6. change (2 ^ 6) with CACHE_LINE_SIZE. split_and!; [done| |lia|lia|done].
    destruct (Z.eq_dec nl 0) as [->|]; [|lia]. change (u32 (0 * CACHE_LINE_SIZE)) with 0 in E. lia.
  - destruct (Z.eqb_spec nl 0); [by eexists|]. destruct (Z.eqb_spec (len mod nl) 0) as [Em|Em]; cbn [negb orb]; [|by eexists].
    assert (nl <= len) by (destruct (Z.le_gt_cases nl len); [done|]; rewrite Z.mod_small in Em; lia).
    destruct (cache_line_loop_ok 32 nl len 0) as (k & -> & Hk & Hkb); [lia..|]. cbn [mbind option_bind]. rewrite Z.shiftl_mul_pow2 by lia.
    destruct (Z.eqb_spec (u32 (nl * 2 ^ k)) len) as [Ek|Ek]; cbn [negb]; [|by eexists]. eexists. split; [done|]. cbn [reader_of]. split_and!; [done|lia|lia| |done].
    destruct (Z.le_gt_cases k 27); [done|]. pose proof (Z.pow_le_mono_r 2 28 k ltac:(lia) ltac:(lia)). rewrite u32_small in Ek; nia.
Qed.

Lemma MayMatch_defined Hash64 have_avx2 contents r key : is_bytes contents -> zlen contents <= 2 ^ 28 -> reader_of contents r -> in_bounds r -> exists b, bits_MayMatch Hash64 have_avx2 r key = Some b.
Proof.
  intros Hd Hl Hr Hb. destruct r as [| |data np nl log2|data np len]; cbn [bits_MayMatch reader_of in_bounds] in *; [by eexists..| |].
  - destruct Hr as (-> & Hn & Hlog & Elen). assert (0 < 2 ^ log2) by (apply Z.pow_pos_nonneg; lia). rewrite u32_small in Elen by nia.
    destruct (locality_prepare_ok (BloomHash key) nl log2) as (base & -> & H0 & H1); [apply BloomHash_u32|done|lia|done|]. cbn [mbind option_bind]. unfold locality_HashMayMatchPrepared.
    destruct (Z.ltb_spec 30 (log2 + 3)); [lia|]. rewrite andb_false_r. eexists.
    apply (may_match_probes_ok _ _ is_u32 (2 ^ log2)); [apply locality_next_u32|intros ? ?; apply locality_bitpos_range; [lia|done]|apply BloomHash_u32|done|lia].
  - destruct Hr as (-> & Hn & ->). destruct (PrepareHash_range (Lower32of64 (Hash64 key)) (zlen contents - 5)) as [H0 H1]; [apply u32_range|lia|]. eexists. unfold GetSliceHash64.
    apply HashMayMatchPrepared_ok; [done|apply u32_range|lia|done|lia].
Qed.

(** C34. Any contents of up to 2^28 bytes make a reader, without reading outside of them. Its
    answers to all keys are defined if the number of cache lines times their size does not
    wrap around (legacy filters) and if there is a whole cache line (filters local to one). *)
Theorem filter_reads_in_bounds (Hash64 : bytes -> Z) (have_avx2 : bool) (contents : bytes) :
  is_bytes contents -> zlen contents <= 2 ^ 28 ->
  exists r, GetFilterBitsReader contents = Some r /\ (in_bounds r -> forall key, exists b, bits_MayMatch Hash64 have_avx2 r key = Some b).
Proof.
  intros Hd Hl. destruct (filter_reader_of contents Hd Hl) as (r & Er & Hr). exists r. split; [done|]. intros Hb key. by eapply MayMatch_defined.
Qed.

(** Two cache lines of 32 bytes each, as another machine may have written them. *)
Lemma filter_reads_in_bounds_witness : exists r, GetFilterBitsReader (replicate 64 170 ++ [6; 2; 0; 0; 0]) = Some r /\
  (in_bounds r -> forall key, exists b, bits_MayMatch (fun _ => 0) false r key = Some b).
Proof. apply (filter_reads_in_bounds (fun _ => 0) false (replicate 64 170 ++ [6; 2; 0; 0; 0])); [bytes_dec|discriminate]. Defined.

(** A register cannot be loaded from less than 32 bytes. *)
Lemma avx2_round_short h rem data base : zlen data < base + 32 -> avx2_round h rem data base = None.
Proof. intros Hl. unfold avx2_round. assert (E : mm_loadu data base = None) by (unfold mm_loadu; destruct (Z.leb_spec (base + 32) (zlen data)); [lia|done]). by rewrite E. Qed.

(** Without these bounds a corrupt filter is read outside of its contents: a legacy
    filter of one cache line that claims 2^26 + 1 of them passes the check of its size, which
    wraps around; and a filter local to a cache line may have less than one, of which the
    AVX2 code reads 64 bytes whatever the key. *)
Theorem corrupt_filter_overruns :
  (exists contents r key, is_bytes contents /\ zlen contents = 69 /\ GetFilterBitsReader contents = Some r /\ forall Hash64 have_avx2, bits_MayMatch Hash64 have_avx2 r key = None) /\
  (exists contents r, is_bytes contents /\ zlen contents = 6 /\ GetFilterBitsReader contents = Some r /\ forall Hash64 key, bits_MayMatch Hash64 true r key = None).
Proof.
  split.
  - exists (replicate 64 255 ++ 6 :: EncodeFixed32 (2 ^ 26 + 1)), (LegacyBloomBitsReader (replicate 64 255 ++ 6 :: EncodeFixed32 (2 ^ 26 + 1)) 6 (2 ^ 26 + 1) 6), [111; 114; 109; 113].
    split_and!; [bytes_dec|reflexivity|vm_compute; reflexivity|]. intros Hash64 have_avx2. cbn [bits_MayMatch]. vm_compute. reflexivity.
  - exists [0; 255; 0; 1; 0; 0], (FastLocalBloomBitsReader [0; 255; 0; 1; 0; 0] 1 1). split_and!; [bytes_dec|reflexivity|reflexivity|]. intros Hash64 key. cbn [bits_MayMatch fast_HashMayMatchPrepared].
    unfold MayMatchAvx2. cbn [avx2_loop]. rewrite avx2_round_short; [done|]. change (zlen [0; 255; 0; 1; 0; 0]) with 6. pose proof (u32_range (Z.shiftl (fastrange32 (Z.shiftr 1 6) (Lower32of64 (GetSliceHash64 Hash64 key))) 6)).
    unfold fast_PrepareHash. lia.
Qed.
