(* ===== verification/Recovery.v ===== *)
(** * Recovery from the write-ahead log ([DBImpl::RecoverLogFiles])

    The loop that reads the records of one log, makes a write batch of each and
    inserts it into the memtable, with the rules of the recovery modes for damaged
    records. Not modelled: WAL filters, flushes during recovery and the several logs
    of a store; the memtable is the one of the default column family, to which no
    update of the log has been flushed. *)

From S2P Require Import Prelude Coding Comparator DbFormat WriteBatch MemTable SkipListRep Log.

Section Recovery.
Context (user_Compare : bytes -> bytes -> Z) {T : Type} `{!MemTableRep T}.
Context (paranoid_checks : bool) (wal_recovery_mode : WALRecoveryMode) (log_number : Z).

(** The variables of the loop. *)
Record recovery := mkRecovery {
  rc_reader : Reader;
  rc_status : Status;
  rc_mem : MemTable T;
  rc_next_sequence : Z;
  rc_stop_replay_for_corruption : bool
}.

(** [reporter.status] is not null. *)
Definition reports_status : bool :=
  paranoid_checks && negb (bool_decide (wal_recovery_mode = kSkipAnyCorruptedRecords)).

Definition reason_status (why : reason) : Status := match why with read_failed => IOError | _ => Corruption end.

(** [LogReporter::Corruption]. *)
Definition reporter_Corruption (status s : Status) : Status :=
  if reports_status && ok status then s else status.

(** The calls that the reader made since it had made [n] of them. *)
Definition report_new (n : nat) (reports : list (Z * reason)) (status : Status) : Status :=
  fold_left (fun st why => reporter_Corruption st (reason_status why.2)) (drop n reports) status.

Definition MaybeIgnoreError (s : Status) : Status := if ok s || paranoid_checks then s else OK.

(** The batch of a record goes into the memtable. [None] where an assertion fails. *)
Definition replay_batch (batch : WriteBatch) (stop : bool) (st : recovery) : option recovery :=
  '(s, mem, next_sequence) ← InsertInto user_Compare false true true batch (rc_mem st);
  let status := MaybeIgnoreError s in
  let status := if ok status then status else reporter_Corruption status status in
  Some (mkRecovery (rc_reader st) status mem next_sequence stop).

(** The body of the loop for a record: whether it goes on, and the new state. *)
Definition replay_record (record : bytes) (st : recovery) : option (bool * recovery) :=
  let upd status stop := mkRecovery (rc_reader st) status (rc_mem st) (rc_next_sequence st) stop in
  if zlen record <? kHeader then
    Some (true, upd (reporter_Corruption (rc_status st) Corruption) (rc_stop_replay_for_corruption st))
  else
    let batch := SetContents (WriteBatch_new 0 0) record in
    let sequence := Sequence batch in
    let point_in_time := bool_decide (wal_recovery_mode = kPointInTimeRecovery) in
    let stop := if point_in_time && (sequence =? rc_next_sequence st) then false else rc_stop_replay_for_corruption st in
    if point_in_time && stop then Some (false, upd (rc_status st) stop)
    else st' ← replay_batch batch stop st; Some (true, st').

(** The [while] loop; the fuel bounds the number of records. *)
Fixpoint replay_log (fuel : nat) (st : recovery) : option recovery :=
  match fuel with
  | O => None
  | S fuel' =>
      '(res, r) ← ReadRecord true log_number wal_recovery_mode (rc_reader st);
      let status := report_new (length (rd_reports (rc_reader st))) (rd_reports r) (rc_status st) in
      let st := mkRecovery r status (rc_mem st) (rc_next_sequence st) (rc_stop_replay_for_corruption st) in
      match res with
      | Some record =>
          if ok status then
            '(go_on, st) ← replay_record record st;
            if go_on : bool then replay_log fuel' st else Some st
          else Some st
      | None => Some st
      end
  end.

(** What follows the loop for a log: [inl] the status returned to the caller, or the
    state to go on with. *)
Definition after_log (st : recovery) : Status + recovery :=
  if ok (rc_status st) then inr st
  else if bool_decide (rc_status st = NotSupported) then inl NotSupported
  else if bool_decide (wal_recovery_mode = kSkipAnyCorruptedRecords) then
    inr (mkRecovery (rc_reader st) OK (rc_mem st) (rc_next_sequence st) (rc_stop_replay_for_corruption st))
  else if bool_decide (wal_recovery_mode = kPointInTimeRecovery) then
    if bool_decide (rc_status st = IOError) then inl IOError
    else inr (mkRecovery (rc_reader st) OK (rc_mem st) (rc_next_sequence st) true)
  else inl (rc_status st).

(** One log, into an empty memtable. *)
Definition RecoverLogFile (fuel : nat) (file : bytes) (latest next_sequence : Z) : option (Status + recovery) :=
  after_log <$> replay_log fuel (mkRecovery (Reader_new file false) OK (MemTable_new latest) next_sequence false).
End Recovery.

(** ** Records that are read without a report *)

Section Replay.
Context (user_Compare : bytes -> bytes -> Z) `{!TotalCompare user_Compare}.
Context {T : Type} `{!MemTableRep T} (entries : RepView T) `{!MemTableRepLaws user_Compare entries}.
Context (paranoid_checks : bool) (wal_recovery_mode : WALRecoveryMode) (log_number : Z).

Lemma report_new_same n (reports : list (Z * reason)) status : n = length reports ->
  report_new paranoid_checks wal_recovery_mode n reports status = status.
Proof. intros ->. unfold report_new. by rewrite drop_all. Qed.

Lemma SetContents_holds b b0 seq recs : holds b seq recs -> holds (SetContents b0 (rep_ b)) seq recs.
Proof.
  intros [? ? ? ? _]. split; [done..|]. apply Forall_true. intros r. unfold flag_asserted.
  destruct (flag_of r) eqn:E; [|done]. destruct r; cbn in E; try done; injection E as <-; done.
Qed.

(** The log of batches that continue each other is replayed batch by batch. *)
Lemma replay_batches bs recss seq n r r' m vs last next :
  batches_hold seq bs recss -> mem_inv user_Compare entries m vs last -> last < seq ->
  seq + zlen (concat recss) - 1 <= kMaxSequenceNumber ->
  read_all true log_number n wal_recovery_mode r = Some (rep_ <$> bs, r') -> rd_reports r' = rd_reports r ->
  exists m' last', replay_log user_Compare paranoid_checks wal_recovery_mode log_number n (mkRecovery r OK m next false)
    = Some (mkRecovery r' OK m' (match bs with [] => next | _ => seq + zlen (concat recss) end) false) /\
    mem_inv user_Compare entries m' (insert_records user_Compare vs seq (concat recss)) last'.
Proof.
  intros Hb. revert n r m vs last next. induction Hb as [seq|seq b bs recs recss Hh Hp Hb IH]; intros n r m vs last next Hm Hlt Hmax Hread Hrep;
    (destruct n as [|n]; [done|]); cbn [read_all replay_log rc_reader rc_status rc_mem rc_next_sequence rc_stop_replay_for_corruption] in *;
    (destruct (ReadRecord true log_number wal_recovery_mode r) as [[res r1]|] eqn:E1; [|done]); cbn [mbind option_bind rc_reader] in *;
    pose proof (ReadRecord_reports _ _ _ _ _ _ E1) as Hp1.
  - destruct res as [x|]; [by destruct (read_all _ _ _ _ _) as [[? ?]|]|]. injection Hread as <-.
    rewrite report_new_same by (by rewrite Hrep). by exists m, last.
  - destruct res as [x|]; [|done]. destruct (read_all true log_number n wal_recovery_mode r1) as [[xs r2]|] eqn:E2; [|done].
    cbn in Hread. injection Hread as -> -> ->. pose proof (read_all_reports _ _ _ _ _ _ _ E2) as Hp2.
    assert (Er1 : rd_reports r1 = rd_reports r).
    { apply (anti_symm prefix); [|done]. by rewrite <- Hrep. }
    rewrite report_new_same by (by rewrite Er1). change (ok OK) with true. cbv iota.
    cbn [concat] in *. rewrite zlen_app in *. pose proof (zlen_nonneg recs). pose proof (zlen_nonneg (concat recss)).
    assert (Hsz : (zlen (rep_ b) <? kHeader) = false).
    { apply Z.ltb_ge. rewrite (rep_size _ _ _ Hh). pose proof (zlen_nonneg (payload recs)). lia. }
    pose proof (SetContents_holds b (WriteBatch_new 0 0) seq recs Hh) as Hh'.
    destruct (InsertInto_holds user_Compare entries true true _ seq recs m vs last Hh' Hp Hm Hlt ltac:(lia)) as (m1 & Ei & Hm1).
    unfold replay_record, replay_batch. cbn [rc_reader rc_status rc_mem rc_next_sequence rc_stop_replay_for_corruption]. rewrite Hsz.
    rewrite Ei.
    assert (Estop : forall c : bool, (if c then false else false) = false) by (by intros []). rewrite Estop, andb_false_r. cbn [mbind option_bind MaybeIgnoreError]. unfold MaybeIgnoreError. change (ok OK) with true. cbn [orb].
    destruct (IH n r1 m1 _ _ (seq + zlen recs) Hm1) as (m' & last' & E & Hm'); [destruct recs; lia|lia|done|congruence|].
    exists m', last'. rewrite insert_records_app, Z.add_assoc. change (ok OK) with true. cbv iota. cbn. split; [|done]. rewrite E.
    destruct Hb; [|done]. by cbn; rewrite Z.add_0_r.
Qed.
End Replay.

(** ** Theorems *)

(** C2. No acknowledged batch is lost in a crash: when the log of some batches ends
    anywhere within the batch that was being written, recovery succeeds, in every
    mode but absolute consistency and whether errors are ignored or not; the
    memtable it builds answers every read, at every snapshot, with the last write
    that the acknowledged batches made to the key, and the next sequence number is
    the one after them. *)
Theorem crash_recovery user_Compare `{!TotalCompare user_Compare} {T} `{!MemTableRep T}
    (entries : RepView T) `{!MemTableRepLaws user_Compare entries}
    paranoid_checks mode log_number recycle manual_flush latest bs recss b k l snapshot s0 :
  0 <= latest -> batches_hold (latest + 1) bs recss -> latest + zlen (concat recss) <= kMaxSequenceNumber ->
  concat recss <> [] -> Forall (fun b => is_bytes (rep_ b)) bs -> is_bytes (rep_ b) ->
  (recycle = true -> 0 <= log_number < 2 ^ 32) -> mode <> kAbsoluteConsistency ->
  plain l -> zlen (l_user_key l) + 8 < 2 ^ 32 -> 0 <= snapshot <= kMaxSequenceNumber -> sv_status s0 <> MergeInProgress ->
  exists w w', write_all (Writer_new [] log_number recycle manual_flush) (rep_ <$> bs) = Some (true, w) /\
    AddRecord w (rep_ b) = Some (true, w') /\ (length (dest_ w) < length (dest_ w'))%nat /\
    ((length (dest_ w) <= k < length (dest_ w'))%nat ->
     exists st, RecoverLogFile user_Compare paranoid_checks mode log_number (length bs + 1) (take k (dest_ w')) latest kMaxSequenceNumber
         = Some (inr st) /\
       rc_next_sequence st = latest + 1 + zlen (concat recss) /\
       Get user_Compare (rc_mem st) l snapshot s0
       = Some (get_result l s0
           (last (filter (visible (l_user_key l) snapshot) (record_versions (latest + 1) (concat recss)))))).
Proof.
  intros Hlat Hb Hmax Hne Hbs Hbb Hlog Hmode Hp Hk Hsn Hst.
  destruct (write_torn true log_number recycle manual_flush mode (rep_ <$> bs) (rep_ b) k) as (w & w' & E & E' & Hlt & Hread);
    [by apply Forall_fmap|done..|].
  exists w, w'. split; [done|]. split; [done|]. split; [done|]. intros Hkr. destruct (Hread Hkr) as (r & Er & Hrep). rewrite length_fmap in Er.
  destruct (replay_batches user_Compare entries paranoid_checks mode log_number bs recss (latest + 1) (length bs + 1) _ r
    (MemTable_new latest) [] latest kMaxSequenceNumber Hb (mem_inv_new user_Compare entries latest Hlat) ltac:(lia) ltac:(lia) Er Hrep)
    as (m & last' & Erp & Hm).
  unfold RecoverLogFile. rewrite Erp. cbn. eexists. split; [reflexivity|]. cbn [rc_next_sequence rc_mem]. split.
  - destruct Hb; [done|done].
  - apply (Get_record_versions user_Compare entries _ _ _ last'); try done. by eapply batches_hold_plain.
Qed.

Lemma crash_recovery_witness :
  let b1 := SetSequence (WriteBatch_Put (WriteBatch_Put (WriteBatch_new 0 0) 0 [1] [10]).2 0 [2] [20]).2 8 in
  let b2 := SetSequence (WriteBatch_Put (WriteBatch_new 0 0) 0 [1] [30]).2 10 in
  let b3 := SetSequence (WriteBatch_Delete (WriteBatch_new 0 0) 0 [1]).2 11 in
  let s0 := mkSaver OK false false None 0 [] false in
  let l := mkLookup [1] 0 None true None false true false in
  exists w w', write_all (Writer_new (F := bytes) [] 5 true false) (rep_ <$> [b1; b2]) = Some (true, w) /\
    AddRecord w (rep_ b3) = Some (true, w') /\
    exists st, @RecoverLogFile BytewiseCompare _ (skip_list_rep (KeyComparator BytewiseCompare) 301) true kPointInTimeRecovery 5 3 (take 80 (dest_ w')) 7 kMaxSequenceNumber
        = Some (inr st) /\
      rc_next_sequence st = 11 /\
      @Get BytewiseCompare _ (skip_list_rep (KeyComparator BytewiseCompare) 301) (rc_mem st) l 100 s0 = Some (true, mkSaver OK true false (Some [30]) 10 [] false).
Proof.
  intros b1 b2 b3 s0 l.
  destruct (@crash_recovery BytewiseCompare _ _ (skip_list_rep (KeyComparator BytewiseCompare) 301) (skip_list_view (KeyComparator BytewiseCompare)) (skip_list_laws BytewiseCompare 301)
    true kPointInTimeRecovery 5 true false 7 [b1; b2] [[RPut 0 [1] [10]; RPut 0 [2] [20]]; [RPut 0 [1] [30]]] b3 80 l 100 s0)
    as (w & w' & E & E' & _ & H).
  - lia.
  - repeat constructor; try (eexists; split_and!; [reflexivity|reflexivity|reflexivity]); try reflexivity; vm_compute; (reflexivity || discriminate).
  - vm_compute. discriminate.
  - discriminate.
  - repeat constructor; vm_compute; (reflexivity || discriminate).
  - bytes_dec.
  - lia.
  - discriminate.
  - repeat split.
  - reflexivity.
  - vm_compute. split; discriminate.
  - discriminate.
  - pose proof E as Ew. vm_compute in Ew. injection Ew as <-. pose proof E' as Ew'. vm_compute in Ew'. injection Ew' as <-.
    destruct H as (st & Est & En & Eg); [cbn; lia|].
    exact (ex_intro _ _ (ex_intro _ _ (conj E (conj E' (ex_intro _ st (conj Est (conj En Eg))))))).
Defined.
