(* ===== verification/Queue.v ===== *)
(** * The request queues between the user thread and the workers

    [qs] and [tail] of the p2KVS programs: one array of request slots per
    instance, filled by the main thread and read by the instance's worker. The
    main thread stores the fields of the slot at [tail[q]] and then increments
    [tail[q]]; a worker reads a slot only when its index is below the tail it
    saw. Accesses interleave one at a time, in program order on each thread. *)

From S2P Require Import Prelude.

(** What a worker reads below the tail is published. *)
Lemma lookup_published {A} (pub slots : list A) i r :
  pub `prefix_of` slots -> slots !! i = Some r -> (i < length pub)%nat -> pub !! i = Some r.
Proof. intros [l ->] Hr Hi. by rewrite lookup_app_l in Hr. Qed.

(** A worker that stands at an end marker after live requests only has taken all
    requests that come before the first marker. *)
Lemma taken_all {A} (live : A -> Prop) (reqs pub : list A) marker i r :
  pub `prefix_of` reqs ++ [marker] -> Forall live reqs -> pub !! i = Some r -> ~ live r ->
  take i pub = reqs.
Proof.
  intros Hpre Hlive Hl Hend. pose proof (prefix_lookup_Some _ _ _ _ Hl Hpre) as Hl'.
  destruct (decide (i < length reqs)%nat) as [Hlt|Hge].
  - exfalso. rewrite lookup_app_l in Hl' by done. rewrite Forall_lookup in Hlive. by apply Hend, (Hlive _ _ Hl').
  - pose proof (lookup_lt_Some _ _ _ Hl') as Hlt. rewrite length_app in Hlt. cbn in Hlt.
    pose proof (lookup_lt_Some _ _ _ Hl) as Hlt2. assert (i = length reqs) as -> by lia.
    destruct Hpre as [l El]. apply (f_equal (take (length reqs))) in El.
    rewrite take_app_length, take_app_le in El by lia. done.
Qed.

Section Queue.
(** The request struct and the state of a worker. *)
Context {R W : Type}.

(** The globals [qs] and [tail]. *)
Record shared := mkShared { qs : list (list R); tail : list Z }.

(** A memory action of the main thread. *)
Inductive action :=
  | Store (q : nat) (set_fields : R -> R)   (* qs[q][tail[q]].f = v; ... *)
  | Publish (q : nat).                      (* tail[q]++ *)

(** [None] where an index is outside its array. *)
Definition exec_action (a : action) (sh : shared) : option shared :=
  match a with
  | Store q set_fields =>
      t ← tail sh !! q; slots ← qs sh !! q; r ← slots !! Z.to_nat t;
      Some (mkShared (<[q := <[Z.to_nat t := set_fields r]> slots]> (qs sh)) (tail sh))
  | Publish q =>
      t ← tail sh !! q;
      Some (mkShared (qs sh) (<[q := u32 (t + 1)]> (tail sh)))
  end.

(** What the main thread does for one request on one queue. *)
Definition post : Type := nat * (R -> R).

Definition post_actions (p : post) : list action := [Store p.1 p.2; Publish p.1].

Definition actions (posts : list post) : list action := posts ≫= post_actions.

(** ** The threads together *)

(** One step of worker [q], which sees [tail[q]] and its array of slots; [None]
    while it sleeps in its polling loop and when the thread has returned. *)
Context (worker_step : nat -> Z -> list R -> W -> option W).

Record system := mkSystem { main : list action; mem : shared; workers : list W }.

Inductive step : system -> system -> Prop :=
  | step_main a rest sh sh' ws :
      exec_action a sh = Some sh' ->
      step (mkSystem (a :: rest) sh ws) (mkSystem rest sh' ws)
  | step_worker acts sh ws q w w' t slots :
      ws !! q = Some w -> tail sh !! q = Some t -> qs sh !! q = Some slots ->
      worker_step q t slots w = Some w' ->
      step (mkSystem acts sh ws) (mkSystem acts sh (<[q := w']> ws)).

(** A schedule: whose turn it is, the main thread's or worker [q]'s. *)
Definition exec_turn (turn : option nat) (st : system) : option system :=
  match turn with
  | None =>
      match main st with
      | [] => None
      | a :: rest => sh' ← exec_action a (mem st); Some (mkSystem rest sh' (workers st))
      end
  | Some q =>
      w ← workers st !! q; t ← tail (mem st) !! q; slots ← qs (mem st) !! q;
      w' ← worker_step q t slots w;
      Some (mkSystem (main st) (mem st) (<[q := w']> (workers st)))
  end.

Fixpoint exec_schedule (turns : list (option nat)) (st : system) : option system :=
  match turns with
  | [] => Some st
  | turn :: turns' => st' ← exec_turn turn st; exec_schedule turns' st'
  end.

Lemma exec_turn_step turn st st' : exec_turn turn st = Some st' -> step st st'.
Proof.
  destruct st as [acts sh ws], turn as [q|]; cbn; intros E.
  - destruct (ws !! q) eqn:E1; [|done]; cbn in E. destruct (tail sh !! q) eqn:E2; [|done]; cbn in E.
    destruct (qs sh !! q) eqn:E3; [|done]; cbn in E. destruct (worker_step _ _ _ _) eqn:E4; [|done]. cbn in E.
    injection E as <-. by eapply step_worker.
  - destruct acts as [|a rest]; [done|]. destruct (exec_action a sh) eqn:E1; [|done]. cbn in E.
    injection E as <-. by apply step_main.
Qed.

Lemma exec_schedule_nsteps turns st st' : exec_schedule turns st = Some st' -> nsteps step (length turns) st st'.
Proof.
  revert st. induction turns as [|turn turns IH]; intros st; cbn; [intros [= ->]; constructor|].
  destruct (exec_turn turn st) as [st1|] eqn:E; [|done]. cbn. intros E2.
  eapply nsteps_l; [by eapply exec_turn_step|by apply IH].
Qed.

Lemma exec_schedule_reachable turns st st' : exec_schedule turns st = Some st' -> rtc step st st'.
Proof. intros E. apply rtc_nsteps. eexists. by eapply exec_schedule_nsteps. Qed.

(** ** The memory after a number of posts *)

(** The value of a slot before anything is stored in it, the slots of each
    array, and the number of queues. *)
Context (r0 : R) (cap n : nat).

Definition initial_memory : shared := mkShared (replicate n (replicate cap r0)) (replicate n 0).

(** The requests posted to queue [q], in order. *)
Definition sent (posts : list post) (q : nat) : list R :=
  (fun p : post => p.2 r0) <$> filter (fun p : post => p.1 = q) posts.

Definition slots_of (l : list R) : list R := l ++ replicate (cap - length l) r0.

(** The array of each queue [q] holds [stored q]; [visible q] is below the tail. *)
Record mem_is (sh : shared) (stored visible : nat -> list R) : Prop := {
  mi_qs : length (qs sh) = n;
  mi_tail : length (tail sh) = n;
  mi_slots : forall q, (q < n)%nat -> qs sh !! q = Some (slots_of (stored q));
  mi_tails : forall q, (q < n)%nat -> tail sh !! q = Some (zlen (visible q))
}.

(** What fits: every post goes to a queue and no array overflows. *)
Definition posts_fit (posts : list post) : Prop :=
  Forall (fun p : post => (p.1 < n)%nat) posts /\
  forall q, (length (sent posts q) <= cap)%nat.

Lemma sent_app p1 p2 q : sent (p1 ++ p2) q = sent p1 q ++ sent p2 q.
Proof. unfold sent. by rewrite filter_app, fmap_app. Qed.

Lemma sent_one q f q' : sent [(q, f)] q' = if decide (q = q') then [f r0] else [].
Proof. unfold sent. cbn. by destruct (decide (q = q')). Qed.

(** A post to every queue, as for the end markers. *)
Lemma sent_all_queues f q : (q < n)%nat -> sent ((fun i => (i, f)) <$> seq 0 n) q = [f r0].
Proof.
  intros Hq. unfold sent.
  assert (G : forall m a, (a <= q < a + m)%nat ->
    (fun p : post => p.2 r0) <$> filter (fun p : post => p.1 = q) ((fun i => (i, f)) <$> seq a m) = [f r0]).
  { induction m as [|m IH]; intros a Ha; [lia|]. cbn [seq fmap list_fmap]. rewrite filter_cons. cbn.
    destruct (decide (a = q)) as [->|Hne]; [|apply IH; lia]. cbn. f_equal.
    rewrite filter_none; [done|]. intros p Hp. apply list_elem_of_fmap in Hp as (j & -> & Hj).
    apply elem_of_seq in Hj. cbn. lia. }
  apply G. lia.
Qed.

Lemma actions_length (posts : list post) : length (actions posts) = (2 * length posts)%nat.
Proof. induction posts as [|p l IH]; [done|]. cbn. unfold actions in IH. cbn in IH. rewrite IH. lia. Qed.

Lemma sent_prefix p1 p2 q : sent p1 q `prefix_of` sent (p1 ++ p2) q.
Proof. rewrite sent_app. by apply prefix_app_r. Qed.

Lemma posts_fit_prefix p1 p2 : posts_fit (p1 ++ p2) -> posts_fit p1.
Proof.
  intros [Hq Hl]. apply Forall_app in Hq as [? _]. split; [done|].
  intros q. specialize (Hl q). rewrite sent_app, length_app in Hl. lia.
Qed.

Lemma initial_mem : mem_is initial_memory (sent []) (sent []).
Proof.
  split; cbn; rewrite ?length_replicate; [done|done| |]; intros q Hq; rewrite lookup_replicate_2 by done.
  - unfold slots_of, sent. cbn. by rewrite Nat.sub_0_r.
  - done.
Qed.

Lemma slots_of_store l v :
  (length l < cap)%nat -> <[length l := v]> (slots_of l) = slots_of (l ++ [v]).
Proof.
  intros Hl. unfold slots_of. rewrite insert_app_r_alt by lia. rewrite Nat.sub_diag, length_app. cbn.
  destruct (cap - length l)%nat as [|m] eqn:E; [lia|]. cbn.
  replace (cap - (length l + 1))%nat with m by lia. by rewrite <- app_assoc.
Qed.

Lemma store_mem done_ q f sh :
  mem_is sh (sent done_) (sent done_) -> posts_fit (done_ ++ [(q, f)]) ->
  exists sh', exec_action (Store q f) sh = Some sh' /\
    mem_is sh' (sent (done_ ++ [(q, f)])) (sent done_).
Proof.
  intros [Hn Ht Hs Htl] [Hq Hc]. apply Forall_app in Hq as [_ Hq]. apply Forall_inv in Hq. cbn in Hq.
  specialize (Hc q). rewrite sent_app, length_app, sent_one, decide_True in Hc by done. cbn in Hc.
  cbn. rewrite (Htl q Hq), (Hs q Hq). cbn.
  assert (E : slots_of (sent done_ q) !! length (sent done_ q) = Some r0).
  { unfold slots_of. rewrite lookup_app_r, Nat.sub_diag by lia. by apply lookup_replicate_2; lia. }
  unfold zlen. rewrite ?Nat2Z.id, E. cbn. eexists. split; [done|].
  rewrite slots_of_store by lia. split; cbn; rewrite ?length_insert; [done|done| |done].
  intros q' Hq'. rewrite sent_app, sent_one. destruct (decide (q = q')) as [<-|].
  - by rewrite list_lookup_insert_eq by lia.
  - rewrite list_lookup_insert_ne, app_nil_r by done. by apply Hs.
Qed.

Lemma publish_mem done_ q f sh :
  Z.of_nat cap < 2 ^ 31 ->
  mem_is sh (sent (done_ ++ [(q, f)])) (sent done_) -> posts_fit (done_ ++ [(q, f)]) ->
  exists sh', exec_action (Publish q) sh = Some sh' /\
    mem_is sh' (sent (done_ ++ [(q, f)])) (sent (done_ ++ [(q, f)])).
Proof.
  intros Hcap [Hn Ht Hs Htl] [Hq Hc]. apply Forall_app in Hq as [_ Hq]. apply Forall_inv in Hq. cbn in Hq.
  specialize (Hc q). rewrite sent_app, length_app, sent_one, decide_True in Hc by done. cbn in Hc.
  cbn. rewrite (Htl q Hq). cbn. eexists. split; [done|].
  split; cbn; rewrite ?length_insert; [done|done|done|].
  intros q' Hq'. rewrite sent_app, sent_one. destruct (decide (q = q')) as [<-|].
  - rewrite list_lookup_insert_eq by lia. f_equal. unfold zlen. rewrite length_app. cbn.
    rewrite u32_small by (unfold zlen; lia). lia.
  - rewrite list_lookup_insert_ne, app_nil_r by done. by apply Htl.
Qed.

(** The queues share out the posts. *)
Lemma sum_indicator q a m : (a <= q < a + m)%nat ->
  sum_list ((fun q' => if decide (q = q') then 1 else 0)%nat <$> seq a m) = 1%nat.
Proof.
  revert a. induction m as [|m IH]; intros a Ha; [lia|]. cbn. destruct (decide (q = a)) as [->|Hne].
  - assert (E : forall b, (a < b)%nat -> sum_list ((fun q' => if decide (a = q') then 1 else 0)%nat <$> seq b m) = 0%nat).
    { clear. induction m as [|m IH]; intros b Hb; [done|]. cbn. rewrite decide_False, IH by lia. done. }
    rewrite E by lia. done.
  - rewrite IH by lia. done.
Qed.

Lemma sum_list_plus {A} (f g : A -> nat) (l : list A) :
  sum_list ((fun x => f x + g x)%nat <$> l) = (sum_list (f <$> l) + sum_list (g <$> l))%nat.
Proof. induction l as [|x l IH]; [done|]. cbn. rewrite IH. lia. Qed.

Lemma sum_list_ones a m : sum_list ((fun _ => 1%nat) <$> seq a m) = m.
Proof. revert a. induction m as [|m IH]; intros a; [done|]. cbn. by rewrite IH. Qed.

Lemma sent_total posts : Forall (fun p : post => (p.1 < n)%nat) posts ->
  sum_list ((fun q => length (sent posts q)) <$> seq 0 n) = length posts.
Proof.
  induction 1 as [|[q f] posts Hq _ IH].
  - unfold sent. cbn. induction (seq 0 n); [done|]. cbn. done.
  - transitivity (sum_list ((fun q' => (if decide (q = q') then 1 else 0) + length (sent posts q'))%nat <$> seq 0 n)).
    + f_equal. apply list_fmap_ext. intros _ q' _. change ((q, f) :: posts) with ([(q, f)] ++ posts).
      rewrite sent_app, length_app, sent_one. by case_decide.
    + rewrite sum_list_plus, IH, sum_indicator; [done|]. cbn in Hq. lia.
Qed.

(** ** Invariants of whole programs *)

(** What each worker knows of its own state, given the requests published on its
    queue; it survives new requests and every step of the worker. *)
Context (winv : nat -> list R -> W -> Prop).
Context (winv_mono : forall q pub pub' w, winv q pub w -> pub `prefix_of` pub' -> winv q pub' w).
Context (winv_step : forall q pub slots w w',
  winv q pub w -> zlen pub < 2 ^ 31 -> pub `prefix_of` slots ->
  worker_step q (zlen pub) slots w = Some w' -> winv q pub w').

(** The main thread between two posts, or between a post's store and its
    increment of the tail. *)
Inductive main_inv (posts : list post) : list action -> shared -> list post -> Prop :=
  | main_between done_ rest sh :
      posts = done_ ++ rest -> mem_is sh (sent done_) (sent done_) ->
      main_inv posts (actions rest) sh done_
  | main_stored done_ p rest sh :
      posts = done_ ++ p :: rest -> mem_is sh (sent (done_ ++ [p])) (sent done_) ->
      main_inv posts (Publish p.1 :: actions rest) sh done_.

Definition system_inv (posts : list post) (st : system) (done_ : list post) : Prop :=
  main_inv posts (main st) (mem st) done_ /\ length (workers st) = n /\
  forall q w, workers st !! q = Some w -> winv q (sent done_ q) w.

(** What a worker reads: the tail is the number of published requests, and these
    are a prefix of the slots. *)
Lemma main_inv_reads posts acts sh done_ q :
  main_inv posts acts sh done_ -> (q < n)%nat ->
  tail sh !! q = Some (zlen (sent done_ q)) /\
  exists slots, qs sh !! q = Some slots /\ sent done_ q `prefix_of` slots.
Proof.
  intros [d rest sh' _ [_ _ Hs Ht]|d p rest sh' _ [_ _ Hs Ht]] Hq; split; [by apply Ht| |by apply Ht|].
  - exists (slots_of (sent d q)). split; [by apply Hs|]. by apply prefix_app_r.
  - exists (slots_of (sent (d ++ [p]) q)). split; [by apply Hs|]. rewrite sent_app.
    unfold slots_of. apply prefix_app_r, prefix_app_r. done.
Qed.

Lemma main_inv_done posts acts sh done_ :
  main_inv posts acts sh done_ -> done_ `prefix_of` posts.
Proof. intros [d rest sh' -> _|d p rest sh' -> _]; by apply prefix_app_r. Qed.

(** No store of the main thread is out of range, and each keeps the invariant. *)
Lemma main_inv_step posts a acts sh done_ :
  Z.of_nat cap < 2 ^ 31 -> posts_fit posts -> main_inv posts (a :: acts) sh done_ ->
  exists sh' done', exec_action a sh = Some sh' /\ main_inv posts acts sh' done' /\ done_ `prefix_of` done'.
Proof.
  intros Hcap Hfit Hm. inversion Hm as [d rest sh' Hp Hmem Ea|d p rest sh' Hp Hmem Ea]; subst.
  - destruct rest as [|[q f] rest]; [done|]. cbn in Ea. injection Ea as <- <-.
    destruct (store_mem done_ q f sh Hmem) as (sh' & E & Hmem').
    { rewrite (assoc (++) done_ [(q, f)] rest) in Hfit. by eapply posts_fit_prefix. }
    exists sh', done_. split_and!; [done| |done]. by apply (main_stored _ _ (q, f) rest).
  - destruct p as [q f]. destruct (publish_mem done_ q f sh Hcap Hmem) as (sh' & E & Hmem').
    { rewrite (assoc (++) done_ [(q, f)] rest) in Hfit. by eapply posts_fit_prefix. }
    exists sh', (done_ ++ [(q, f)]). split_and!; [done| |by apply prefix_app_r].
    apply main_between; [|done]. by rewrite <- app_assoc.
Qed.

Lemma sent_bound posts done_ q :
  Z.of_nat cap < 2 ^ 31 -> posts_fit posts -> done_ `prefix_of` posts -> zlen (sent done_ q) < 2 ^ 31.
Proof.
  intros Hcap [_ Hl] [l ->]. specialize (Hl q). rewrite sent_app, length_app in Hl. unfold zlen. lia.
Qed.

Lemma sent_mono done_ done' q : done_ `prefix_of` done' -> sent done_ q `prefix_of` sent done' q.
Proof. intros [l ->]. apply sent_prefix. Qed.

Lemma system_inv_step posts st st' done_ :
  Z.of_nat cap < 2 ^ 31 -> posts_fit posts -> system_inv posts st done_ -> step st st' ->
  exists done', system_inv posts st' done'.
Proof.
  intros Hcap Hfit (Hm & Hn & Hw) Hs. destruct Hs as [a rest sh sh' ws E|acts sh ws q w w' t slots Hq Ht Hqs E];
    cbn in *.
  - destruct (main_inv_step _ _ _ _ _ Hcap Hfit Hm) as (sh1 & done' & E' & Hm' & Hpre).
    rewrite E in E'. injection E' as <-. exists done'. split_and!; [done..|]. cbn.
    intros q w Hq. eapply winv_mono; [by apply Hw|by apply sent_mono].
  - exists done_. split_and!; cbn; [done|by rewrite length_insert|].
    assert (Hqn : (q < n)%nat) by (rewrite <- Hn; by eapply lookup_lt_Some).
    destruct (main_inv_reads _ _ _ _ _ Hm Hqn) as (Ht' & slots' & Hqs' & Hpre). simplify_eq.
    intros q' w0. destruct (decide (q = q')) as [<-|].
    + rewrite list_lookup_insert_eq by lia. intros [= <-]. eapply winv_step; [by apply Hw| |done|done].
      eapply sent_bound; [done..|by eapply main_inv_done].
    + rewrite list_lookup_insert_ne by done. apply Hw.
Qed.

Definition initial (posts : list post) (ws : list W) : system :=
  mkSystem (actions posts) initial_memory ws.

(** The invariant holds in every reachable state. *)
Lemma system_inv_reachable posts ws st :
  Z.of_nat cap < 2 ^ 31 -> posts_fit posts -> length ws = n ->
  (forall q w, ws !! q = Some w -> winv q [] w) ->
  rtc step (initial posts ws) st -> exists done_, system_inv posts st done_.
Proof.
  intros Hcap Hfit Hn Hw Hr.
  assert (H0 : exists done_, system_inv posts (initial posts ws) done_).
  { exists []. split_and!; [|done|done]. apply main_between; [done|apply initial_mem]. }
  induction Hr as [st|st st1 st2 Hs _ IH]; [done|].
  apply IH. destruct H0 as [done_ H0]. by eapply system_inv_step.
Qed.

(** ** Runs end *)

(** A run that cannot go on: the main thread has posted everything, and no
    worker can move. *)
Lemma system_stuck posts st done_ :
  Z.of_nat cap < 2 ^ 31 -> posts_fit posts -> system_inv posts st done_ -> ~ (exists st', step st st') ->
  main st = [] /\ forall q w, workers st !! q = Some w -> winv q (sent posts q) w /\
    exists slots, sent posts q `prefix_of` slots /\ worker_step q (zlen (sent posts q)) slots w = None.
Proof.
  intros Hcap Hfit (Hm & Hn & Hw) Hstuck. destruct st as [acts sh ws]. cbn in *.
  destruct acts as [|a acts].
  2:{ destruct (main_inv_step _ _ _ _ _ Hcap Hfit Hm) as (sh' & _ & E & _). exfalso. apply Hstuck.
      eexists. by apply step_main. }
  assert (done_ = posts) as ->.
  { inversion Hm as [d rest sh' Hp _ Ea|]; subst. destruct rest; [by rewrite app_nil_r|done]. }
  split; [done|]. intros q w Hq. split; [by apply Hw|].
  assert (Hqn : (q < n)%nat) by (rewrite <- Hn; by eapply lookup_lt_Some).
  destruct (main_inv_reads _ _ _ _ _ Hm Hqn) as (Ht & slots & Hqs & Hpre).
  exists slots. split; [done|]. destruct (worker_step q (zlen (sent posts q)) slots w) as [w'|] eqn:E; [|done].
  exfalso. apply Hstuck. eexists. by eapply step_worker.
Qed.

(** A measure of what a worker has left to do. *)
Context (wmeasure : nat -> W -> nat).

Fixpoint workers_measure (q : nat) (ws : list W) : nat :=
  match ws with
  | [] => 0
  | w :: ws' => wmeasure q w + workers_measure (S q) ws'
  end.

Definition measure (st : system) : nat := length (main st) + workers_measure 0 (workers st).

Lemma workers_measure_insert q ws i w w' :
  ws !! i = Some w -> (wmeasure (q + i) w' < wmeasure (q + i) w)%nat ->
  (workers_measure q (<[i := w']> ws) < workers_measure q ws)%nat.
Proof.
  revert q i. induction ws as [|w0 ws IH]; intros q i Hi Hlt; [done|]. destruct i as [|i]; cbn in *.
  - injection Hi as ->. rewrite Nat.add_0_r in Hlt. lia.
  - specialize (IH (S q) i Hi). rewrite <- Nat.add_succ_comm in Hlt. apply Nat.add_lt_mono_l, (IH Hlt).
Qed.

Lemma workers_measure_sum q ws m :
  (forall i w, ws !! i = Some w -> wmeasure (q + i) w = m (q + i)%nat) ->
  workers_measure q ws = sum_list (m <$> seq q (length ws)).
Proof.
  revert q. induction ws as [|w ws IH]; intros q Hm; [done|]. cbn. rewrite IH.
  - specialize (Hm 0%nat w eq_refl). rewrite Nat.add_0_r in Hm. by rewrite Hm.
  - intros i w' Hi. specialize (Hm (S i) w' Hi). by rewrite Nat.add_succ_r in Hm.
Qed.

Lemma run_bounded posts ws k st :
  Z.of_nat cap < 2 ^ 31 -> posts_fit posts -> length ws = n ->
  (forall q w, ws !! q = Some w -> winv q [] w) ->
  (forall q pub slots w w', (q < n)%nat -> winv q pub w -> pub `prefix_of` sent posts q -> pub `prefix_of` slots ->
     zlen pub < 2 ^ 31 -> worker_step q (zlen pub) slots w = Some w' -> (wmeasure q w' < wmeasure q w)%nat) ->
  nsteps step k (initial posts ws) st -> (k + measure st <= measure (initial posts ws))%nat.
Proof.
  intros Hcap Hfit Hn Hw Hdec Hk.
  assert (H0 : exists done_, system_inv posts (initial posts ws) done_).
  { exists []. split_and!; [|done|done]. apply main_between; [done|apply initial_mem]. }
  clear Hn. revert H0 Hk. generalize (initial posts ws) as s0. clear Hw ws. intros s0 H0 Hk.
  induction Hk as [s|k s1 s2 s3 Hs Hk IH]; [done|]. destruct H0 as [done_ H0].
  pose proof (system_inv_step _ _ _ _ Hcap Hfit H0 Hs) as H1. specialize (IH H1).
  enough (measure s2 < measure s1)%nat by lia. destruct H0 as (Hm & Hn & Hw).
  destruct Hs as [a rest sh sh' ws E|acts sh ws q w w' t slots Hq Ht Hqs E]; unfold measure; cbn in *; [lia|].
  assert (Hqn : (q < n)%nat) by (rewrite <- Hn; by eapply lookup_lt_Some).
  destruct (main_inv_reads _ _ _ _ _ Hm Hqn) as (Ht' & slots' & Hqs' & Hpre). simplify_eq.
  pose proof (main_inv_done _ _ _ _ Hm) as Hd.
  enough (wmeasure q w' < wmeasure q w)%nat by (pose proof (workers_measure_insert 0 ws q w w' Hq); cbn in *; lia).
  eapply Hdec; [done|by apply Hw|by apply sent_mono|done| |done]. by eapply sent_bound.
Qed.
End Queue.
