(* ===== verification/Ycsb.v ===== *)
(** * ycsb.cpp: the trace-driven p2KVS engine

    The user thread distributes the commands of a trace over [QUEUE_NUM] request
    queues by key; each queue has a worker with a store of its own, which gathers
    consecutive writes in a [WriteBatch] and point reads in a [MultiGet]. The
    macros ([key_size_], [value_size_], [BATCH_SIZE], [QUEUE_NUM]) are arguments;
    [MULTIGET] and [MULTISCAN] are defined, as in the source. *)

From S2P Require Import Prelude Comparator KeyGen Iterator KVStore Queue.

(** ** Requests and commands *)

Record async_requests := mkRequest {
  rq_key : Z;        (* uint64_t *)
  rq_seq : Z;        (* int *)
  rq_scan_size : Z;  (* int *)
  rq_write : bool
}.

Definition async_requests_default : async_requests := mkRequest 0 0 (-1) false.

Record command := mkCommand { c_key : Z; c_scan_size : Z; c_cmd : Z }.

Record timespec := mkTimespec { tv_sec : Z; tv_nsec : Z }.

Definition duration_ns (start end_ : timespec) : Z :=
  u64 (i64 (i64 (i64 (tv_sec end_ * 1000000000 + tv_nsec end_) - tv_sec start * 1000000000) - tv_nsec start)).

(** ** The user thread: distributing the trace *)

(** The field assignments of each kind of request. *)
Definition set_read (ops key : Z) (r : async_requests) : async_requests :=
  mkRequest key ops (rq_scan_size r) false.

Definition set_write (ops key : Z) (r : async_requests) : async_requests :=
  mkRequest key ops (rq_scan_size r) true.

Definition set_scan (ops key scan_size : Z) (r : async_requests) : async_requests :=
  mkRequest key ops scan_size false.

Definition set_end (r : async_requests) : async_requests :=
  mkRequest (u64 (-1)) (-1) (rq_scan_size r) (rq_write r).

Definition chr_R : Z := 82.
Definition chr_U : Z := 85.
Definition chr_I : Z := 73.
Definition chr_S : Z := 83.

(** One iteration of the dispatch loop: a read or a write goes to the queue of
    its key, a scan to all queues, anything else nowhere. *)
Definition dispatch_command (QUEUE_NUM ops : Z) (c : command) : list (@post async_requests) :=
  if c_cmd c =? chr_R then
    [(Z.to_nat (c_key c mod QUEUE_NUM), set_read ops (c_key c))]
  else if (c_cmd c =? chr_U) || (c_cmd c =? chr_I) then
    [(Z.to_nat (c_key c mod QUEUE_NUM), set_write ops (c_key c))]
  else if c_cmd c =? chr_S then
    (fun i => (i, set_scan ops (c_key c) (c_scan_size c))) <$> seq 0 (Z.to_nat QUEUE_NUM)
  else [].

Fixpoint dispatch (QUEUE_NUM ops : Z) (cmds : list command) : list (@post async_requests) :=
  match cmds with
  | [] => []
  | c :: cmds' => dispatch_command QUEUE_NUM ops c ++ dispatch QUEUE_NUM (i32 (ops + 1)) cmds'
  end.

(** Everything the user thread posts: the trace, then an end marker per queue. *)
Definition main_posts (QUEUE_NUM : Z) (cmds : list command) : list (@post async_requests) :=
  dispatch QUEUE_NUM 0 cmds ++ ((fun i => (i, set_end)) <$> seq 0 (Z.to_nat QUEUE_NUM)).

(** ** The worker *)

(** A [Slice(key, key_size_)]: it points to the worker's [key] array. *)
Inductive key_slice := KeyArray.

(** Where the worker is: at the head of its loop, sleeping in the polling loop,
    past it with a request to fetch, or out of the loop. *)
Inductive phase := Testing | Polling | Fetching | Returned.

#[global] Instance phase_eq_dec : EqDecision phase.
Proof. solve_decision. Defined.

Record worker (S B : Type) := mkWorker {
  w_seq : Z;
  w_batch_size : Z;
  w_batch : B;
  w_multiget_keys : list key_slice;
  w_key : bytes;
  w_found : Z;
  w_busy : bool;
  w_phase : phase;
  w_db : S;
  (* history: the keys looked up by MultiGet and their results *)
  w_gets : list (bytes * option bytes)
}.
Arguments mkWorker {S B}.
Arguments w_seq {S B}.
Arguments w_batch_size {S B}.
Arguments w_batch {S B}.
Arguments w_multiget_keys {S B}.
Arguments w_key {S B}.
Arguments w_found {S B}.
Arguments w_busy {S B}.
Arguments w_phase {S B}.
Arguments w_db {S B}.
Arguments w_gets {S B}.

Definition WRITE_BATCH_SIZE (BATCH_SIZE key_size_ value_size_ : Z) : Z :=
  if BATCH_SIZE =? 1 then 1 else 4096 / (key_size_ + value_size_).

Section Worker.
Context {S B : Type} `{Batch B} `{!DB S B}.
Context (key_size_ value_size_ BATCH_SIZE : Z).

(** [value]: [value_size_] characters '0'. *)
Definition value_str : bytes := replicate (Z.to_nat value_size_) 48.

Definition initial_worker (db : S) : worker S B :=
  mkWorker 0 0 batch_new [] (replicate (Z.to_nat key_size_) 0) 0 false Testing db [].

(** [s = db->Write(writeoptions, &batch); if (s.ok()) found += batch_size;] *)
Definition write_batch (w : worker S B) : worker S B :=
  let '(ok, db') := db_Write (w_db w) (w_batch w) in
  mkWorker (w_seq w) (w_batch_size w) (w_batch w) (w_multiget_keys w) (w_key w)
    (if ok : bool then u64 (w_found w + w_batch_size w) else w_found w) (w_busy w) (w_phase w) db' (w_gets w).

(** [batch.Clear(); batch_size = 0;] *)
Definition clear_batch (w : worker S B) : worker S B :=
  mkWorker (w_seq w) 0 (batch_Clear (w_batch w)) (w_multiget_keys w) (w_key w)
    (w_found w) (w_busy w) (w_phase w) (w_db w) (w_gets w).

Definition flush_writes (w : worker S B) : worker S B :=
  if w_batch_size w =? 0 then w else clear_batch (write_batch w).

(** The bytes a slice points to when the store reads it. *)
Definition deref (w : worker S B) (s : key_slice) : bytes :=
  match s with KeyArray => w_key w end.

(** [ss = db->MultiGet(readoptions, mutliget_keys, &values)], and the count of
    the statuses that are ok. *)
Definition multiget (w : worker S B) : worker S B :=
  let keys := deref w <$> w_multiget_keys w in
  let ss := db_MultiGet (w_db w) keys in
  mkWorker (w_seq w) (w_batch_size w) (w_batch w) (w_multiget_keys w) (w_key w)
    (u64 (w_found w + zlen (filter is_Some ss))) (w_busy w) (w_phase w) (w_db w)
    (w_gets w ++ zip keys ss).

Definition clear_keys (w : worker S B) : worker S B :=
  mkWorker (w_seq w) (w_batch_size w) (w_batch w) [] (w_key w)
    (w_found w) (w_busy w) (w_phase w) (w_db w) (w_gets w).

Definition flush_reads (w : worker S B) : worker S B :=
  match w_multiget_keys w with
  | [] => w
  | _ => clear_keys (multiget w)
  end.

Definition set_phase (p : phase) (b : bool) (w : worker S B) : worker S B :=
  mkWorker (w_seq w) (w_batch_size w) (w_batch w) (w_multiget_keys w) (w_key w)
    (w_found w) b p (w_db w) (w_gets w).

(** [seq++], and the key of the request generated into the key array. *)
Definition take_request (request : async_requests) (w : worker S B) : worker S B :=
  mkWorker (w_seq w + 1) (w_batch_size w) (w_batch w) (w_multiget_keys w)
    (GenerateKeyFromInt key_size_ (rq_key request))
    (w_found w) (w_busy w) Testing (w_db w) (w_gets w).

(** [batch.Put(k, value); batch_size++;] *)
Definition batch_put (w : worker S B) : worker S B :=
  mkWorker (w_seq w) (w_batch_size w + 1) (batch_Put (w_batch w) (w_key w) value_str)
    (w_multiget_keys w) (w_key w) (w_found w) (w_busy w) (w_phase w) (w_db w) (w_gets w).

Definition push_key (w : worker S B) : worker S B :=
  mkWorker (w_seq w) (w_batch_size w) (w_batch w) (w_multiget_keys w ++ [KeyArray])
    (w_key w) (w_found w) (w_busy w) (w_phase w) (w_db w) (w_gets w).

(** The loop [for (int i = 1; i < scan_size && iter->Valid(); i++)], with
    [scan_size - i] in [fuel]: the iterations it makes. *)
Fixpoint scan_loop (fuel : nat) (iter : ListIter) : Z :=
  match fuel with
  | O => 0
  | Datatypes.S fuel' =>
      if @Valid _ (list_iterator BytewiseCompare) iter then
        match @Next _ (list_iterator BytewiseCompare) iter with
        | Some iter' => 1 + scan_loop fuel' iter'
        | None => 1
        end
      else 0
  end.

Definition scan_request (scan_size : Z) (w : worker S B) : worker S B :=
  let iter := mkListIter (db_NewIterator (w_db w)) None in
  let iter' := default iter (@Seek _ (list_iterator BytewiseCompare) iter (w_key w)) in
  mkWorker (w_seq w) (w_batch_size w) (w_batch w) (w_multiget_keys w) (w_key w)
    (u64 (w_found w + 1 + scan_loop (Z.to_nat (scan_size - 1)) iter')) (w_busy w) (w_phase w) (w_db w) (w_gets w).

(** The end marker: write and read what is pending and leave the loop. *)
Definition finish (w : worker S B) : worker S B :=
  let w1 := if w_batch_size w =? 0 then w else write_batch w in
  let w2 := match w_multiget_keys w1 with [] => w1 | _ => multiget w1 end in
  set_phase Returned (w_busy w2) w2.

(** A request that is not the end marker. *)
Definition process (request : async_requests) (w : worker S B) : worker S B :=
  let w1 := take_request request w in
  if rq_write request then
    let w2 := batch_put w1 in
    if WRITE_BATCH_SIZE BATCH_SIZE key_size_ value_size_ <=? w_batch_size w2
    then clear_batch (write_batch w2) else w2
  else
    let w2 := flush_writes w1 in
    if rq_scan_size request =? -1 then
      let w3 := push_key w2 in
      if zlen (w_multiget_keys w3) =? BATCH_SIZE then clear_keys (multiget w3) else w3
    else scan_request (rq_scan_size request) w2.

Definition handle (request : async_requests) (w : worker S B) : worker S B :=
  if rq_seq request =? -1 then finish w else process request w.

(** One step of the thread, between two reads of [tail]: [seq >= tail[queue_seq]]
    compares as unsigned. *)
Definition worker_step (_ : nat) (tail : Z) (slots : list async_requests) (w : worker S B)
  : option (worker S B) :=
  let fetch := request ← slots !! Z.to_nat (w_seq w); Some (handle request w) in
  match w_phase w with
  | Testing =>
      if tail <=? u32 (w_seq w)
      then Some (set_phase Polling false (flush_reads (flush_writes w)))
      else fetch
  | Polling =>
      if tail <=? u32 (w_seq w) then None else Some (set_phase Fetching true w)
  | Fetching => fetch
  | Returned => None
  end.
End Worker.

(** ** What a worker has done *)

Section Correct.
Context {S B : Type} `{Batch B} `{!DB S B}.
Context (batch_inv : B -> Prop) (batch_ops : B -> list entry).
Context (db_inv : S -> Prop) (contents : S -> gmap bytes bytes).
Context `{!BatchLaws batch_inv batch_ops} `{!DBLaws batch_inv batch_ops db_inv contents}.
(** The stores accept every write (no I/O error). *)
Context (writes_succeed : forall s b, db_inv s -> batch_inv b -> (db_Write s b).1 = true).
Context (key_size_ value_size_ BATCH_SIZE : Z).
Context (Hks : 0 < key_size_ < 2 ^ 32 - 8) (Hvs : 0 <= value_size_ < 2 ^ 32).

Abbreviation worker := (worker S B).
Abbreviation wstep := (worker_step (S := S) (B := B) key_size_ value_size_ BATCH_SIZE).

(** The puts that a sequence of requests asks for. *)
Definition writes_of (reqs : list async_requests) : list entry :=
  reqs ≫= fun r => if rq_write r then [(GenerateKeyFromInt key_size_ (rq_key r), value_str value_size_)] else [].

(** The store with the batch applied. *)
Definition pending (w : worker) : gmap bytes bytes := apply_puts (batch_ops (w_batch w)) (contents (w_db w)).

Record good (w : worker) : Prop := {
  g_db : db_inv (w_db w);
  g_batch : batch_inv (w_batch w);
  g_size : w_batch_size w = zlen (batch_ops (w_batch w))
}.

Record winv (m0 : gmap bytes bytes) (pub : list async_requests) (w : worker) : Prop := {
  wi_seq : 0 <= w_seq w <= zlen pub;
  wi_live : Forall (fun r => rq_seq r <> -1) (take (Z.to_nat (w_seq w)) pub);
  wi_running : w_phase w <> Returned -> good w /\ w_batch_size w <= 4096 /\
    pending w = apply_puts (writes_of (take (Z.to_nat (w_seq w)) pub)) m0;
  wi_returned : w_phase w = Returned -> db_inv (w_db w) /\
    contents (w_db w) = apply_puts (writes_of (take (Z.to_nat (w_seq w)) pub)) m0 /\
    exists r, pub !! Z.to_nat (w_seq w) = Some r /\ rq_seq r = -1;
  wi_fetch : w_phase w = Fetching -> w_seq w < zlen pub
}.

Lemma writes_of_app r1 r2 : writes_of (r1 ++ r2) = writes_of r1 ++ writes_of r2.
Proof. apply bind_app. Qed.

Lemma writes_of_one r : writes_of [r]
  = if rq_write r then [(GenerateKeyFromInt key_size_ (rq_key r), value_str value_size_)] else [].
Proof. unfold writes_of. cbn. by rewrite app_nil_r. Qed.

Lemma write_batch_good w : good w -> db_inv (w_db (write_batch w)) /\ contents (w_db (write_batch w)) = pending w.
Proof.
  intros [Hd Hb Hs]. pose proof (writes_succeed _ _ Hd Hb) as Hok.
  destruct (law_Write (w_db w) (w_batch w) Hd Hb Hok) as [Hd' Hc]. unfold write_batch, pending.
  by destruct (db_Write (w_db w) (w_batch w)) as [ok db'].
Qed.

Lemma write_batch_batch w : w_batch (write_batch w) = w_batch w.
Proof. unfold write_batch. by destruct (db_Write _ _). Qed.

Lemma write_clear_good w : good w ->
  good (clear_batch (write_batch w)) /\ pending (clear_batch (write_batch w)) = pending w /\
  batch_ops (w_batch (clear_batch (write_batch w))) = [].
Proof.
  intros Hg. destruct (write_batch_good w Hg) as [Hd Hc]. destruct Hg as [_ Hb _].
  destruct (law_batch_Clear (w_batch w) Hb) as [Hb' Hn]. unfold pending at 1. cbn. rewrite write_batch_batch, Hn.
  split_and!; [|done|done]. split; cbn; rewrite ?write_batch_batch, ?Hn; done.
Qed.

Lemma flush_writes_good w : good w ->
  good (flush_writes w) /\ pending (flush_writes w) = pending w /\ batch_ops (w_batch (flush_writes w)) = [] /\
  w_batch_size (flush_writes w) = 0.
Proof.
  intros Hg. unfold flush_writes. destruct (Z.eqb_spec (w_batch_size w) 0) as [E|E].
  - split_and!; [done|done| |done]. destruct Hg as [_ _ Hs]. rewrite E in Hs. by destruct (batch_ops (w_batch w)).
  - destruct (write_clear_good w Hg) as (? & ? & ?). done.
Qed.

Lemma batch_put_good w : good w -> zlen (w_key w) + 8 < 2 ^ 32 -> w_batch_size w < 2 ^ 32 - 1 ->
  good (batch_put value_size_ w) /\ pending (batch_put value_size_ w) = <[w_key w := value_str value_size_]> (pending w).
Proof.
  intros [Hd Hb Hs] Hk Hlt.
  destruct (law_batch_Put (w_batch w) (w_key w) (value_str value_size_) Hb Hk) as [Hb' Ho].
  { unfold value_str, zlen. rewrite length_replicate. lia. }
  { by rewrite <- Hs. }
  split.
  - split; cbn; [done|done|]. rewrite Ho, Hs. unfold zlen. rewrite length_app. cbn. lia.
  - unfold pending. cbn. rewrite Ho. by rewrite apply_puts_app.
Qed.

(** Reading leaves the store and the batch alone. *)
Record same_writes (w w' : worker) : Prop := {
  sw_db : w_db w' = w_db w;
  sw_batch : w_batch w' = w_batch w;
  sw_size : w_batch_size w' = w_batch_size w;
  sw_seq : w_seq w' = w_seq w
}.

Lemma same_writes_good w w' : same_writes w w' -> good w -> good w' /\ pending w' = pending w.
Proof.
  intros [E1 E2 E3 _] [Hd Hb Hs]. unfold pending. rewrite E1, E2. split; [|done].
  split; by rewrite ?E1, ?E2, ?E3.
Qed.

Lemma flush_reads_same w : same_writes w (flush_reads w).
Proof. unfold flush_reads. by destruct (w_multiget_keys w). Qed.

Lemma flush_writes_seq w : w_seq (flush_writes w) = w_seq w.
Proof. unfold flush_writes, write_batch. destruct (_ =? _); [done|]. by destruct (db_Write _ _). Qed.

Lemma write_clear_seq w : w_seq (clear_batch (write_batch w)) = w_seq w.
Proof. unfold write_batch. by destruct (db_Write _ _). Qed.

(** *** A request *)

Lemma key_length v : zlen (GenerateKeyFromInt key_size_ v) + 8 < 2 ^ 32.
Proof. rewrite GenerateKeyFromInt_length; lia. Qed.

Lemma take_request_good r w : good w ->
  good (take_request key_size_ r w) /\ pending (take_request key_size_ r w) = pending w.
Proof. by intros [Hd Hb Hs]. Qed.

Lemma write_limit : WRITE_BATCH_SIZE BATCH_SIZE key_size_ value_size_ <= 4096.
Proof.
  unfold WRITE_BATCH_SIZE. case_bool; [lia|].
  apply Z.div_le_upper_bound; lia.
Qed.

Lemma process_writes r w : good w -> w_batch_size w <= 4096 ->
  let w' := process key_size_ value_size_ BATCH_SIZE r w in
  good w' /\ w_batch_size w' <= 4096 /\ pending w' = apply_puts (writes_of [r]) (pending w).
Proof.
  intros Hg Hsz. destruct (take_request_good r w Hg) as [Hg1 Hp1]. unfold process. cbv zeta.
  set (w1 := take_request key_size_ r w) in *. rewrite writes_of_one.
  destruct (rq_write r) eqn:Hw.
  - destruct (batch_put_good w1 Hg1) as [Hg2 Hp2]; [apply key_length|cbn; lia|].
    set (w2 := batch_put value_size_ w1) in *.
    assert (E : pending w2 = <[GenerateKeyFromInt key_size_ (rq_key r) := value_str value_size_]> (pending w))
      by by rewrite Hp2, Hp1.
    pose proof write_limit. destruct (Z.leb_spec (WRITE_BATCH_SIZE BATCH_SIZE key_size_ value_size_) (w_batch_size w2)).
    + destruct (write_clear_good w2 Hg2) as (? & Hp3 & _). rewrite Hp3. split_and!; [done|cbn; lia|done].
    + split_and!; [done|lia|done].
  - destruct (flush_writes_good w1 Hg1) as (Hg2 & Hp2 & _ & Hz). set (w2 := flush_writes w1) in *.
    set (w3 := if rq_scan_size r =? -1 then _ else _).
    assert (Hs : same_writes w2 w3).
    { unfold w3. destruct (rq_scan_size r =? -1); [|done]. by destruct (zlen _ =? BATCH_SIZE). }
    destruct (same_writes_good _ _ Hs Hg2) as [Hg3 Hp3]. rewrite Hp3, Hp2, Hp1.
    destruct Hs as [_ _ E _]. split_and!; [done|rewrite E; lia|done].
Qed.

Lemma process_seq r w :
  w_seq (process key_size_ value_size_ BATCH_SIZE r w) = w_seq w + 1 /\
  w_phase (process key_size_ value_size_ BATCH_SIZE r w) = Testing.
Proof.
  unfold process, flush_writes, write_batch. destruct (rq_write r).
  - destruct (_ <=? _); [|done]. by destruct (db_Write _ _).
  - destruct (_ =? 0); [|destruct (db_Write _ _)]; destruct (_ =? -1); try done; by destruct (_ =? BATCH_SIZE).
Qed.

Lemma finish_writes w : good w -> db_inv (w_db (finish w)) /\ contents (w_db (finish w)) = pending w /\
  w_seq (finish w) = w_seq w /\ w_phase (finish w) = Returned.
Proof.
  intros Hg. unfold finish. set (w1 := if w_batch_size w =? 0 then w else write_batch w).
  assert (H1 : db_inv (w_db w1) /\ contents (w_db w1) = pending w /\ w_seq w1 = w_seq w).
  { unfold w1. destruct (Z.eqb_spec (w_batch_size w) 0) as [E|E].
    - destruct Hg as [Hd _ Hs]. split_and!; [done| |done]. unfold pending. rewrite E in Hs.
      by destruct (batch_ops (w_batch w)).
    - destruct (write_batch_good w Hg). split_and!; [done..|]. unfold write_batch. by destruct (db_Write _ _). }
  destruct H1 as (? & ? & ?). by destruct (w_multiget_keys w1).
Qed.
(** *** Steps of the worker *)

Lemma handle_winv m0 pub r w :
  winv m0 pub w -> w_phase w <> Returned -> pub !! Z.to_nat (w_seq w) = Some r ->
  winv m0 pub (handle key_size_ value_size_ BATCH_SIZE r w).
Proof.
  intros [Hseq Hlive Hrun _ _] Hph Hr. destruct (Hrun Hph) as (Hg & Hsz & Hp).
  pose proof (lookup_lt_Some _ _ _ Hr) as Hlt. unfold handle. destruct (Z.eqb_spec (rq_seq r) (-1)) as [E|E].
  - destruct (finish_writes w Hg) as (Hd & Hc & Es & Ep). split; rewrite ?Es, ?Ep; [done..| |done].
    intros _. split_and!; [done|by rewrite Hc|by exists r].
  - destruct (process_writes r w Hg Hsz) as (Hg' & Hsz' & Hp').
    destruct (process_seq r w) as [Es Ep].
    split; rewrite ?Es, ?Ep; [unfold zlen; lia| | |done|done];
      replace (Z.to_nat (w_seq w + 1)) with (Datatypes.S (Z.to_nat (w_seq w))) by lia;
      rewrite (take_S_r _ _ r Hr).
    + apply Forall_app. split; [done|]. by constructor.
    + intros _. split_and!; [done..|]. rewrite Hp', Hp, writes_of_app. by rewrite apply_puts_app.
Qed.

Lemma winv_mono m0 pub pub' w : winv m0 pub w -> pub `prefix_of` pub' -> winv m0 pub' w.
Proof.
  intros [Hseq Hlive Hrun Hret Hf] Hpre.
  assert (Ht : take (Z.to_nat (w_seq w)) pub' = take (Z.to_nat (w_seq w)) pub).
  { destruct Hpre as [l ->]. rewrite take_app_le; [done|]. unfold zlen in Hseq. lia. }
  assert (Hl : zlen pub <= zlen pub') by (unfold zlen; apply inj_le, prefix_length, Hpre).
  split; rewrite ?Ht; [lia|done|done| |intros E; specialize (Hf E); lia].
  intros E. destruct (Hret E) as (? & ? & r & Hr & ?). split_and!; [done..|]. exists r. split; [|done].
  by eapply prefix_lookup_Some.
Qed.

Lemma flush_all_winv m0 pub w p :
  winv m0 pub w -> w_phase w = Testing -> p <> Returned -> p <> Fetching ->
  winv m0 pub (set_phase p false (flush_reads (flush_writes w))).
Proof.
  intros [Hseq Hlive Hrun _ _] Hph Hp1 Hp2. destruct Hrun as (Hg & Hsz & Hp); [by rewrite Hph|].
  destruct (flush_writes_good w Hg) as (Hg1 & Hpd1 & _ & Hz1).
  pose proof (flush_reads_same (flush_writes w)) as Hs.
  destruct (same_writes_good _ _ Hs Hg1) as [[Hd Hb Hsz'] Hpd2]. destruct Hs as [E1 E2 E3 E4].
  split; cbn; rewrite ?E4, ?flush_writes_seq; [done|done| |done|done].
  intros _. split_and!; [done|lia|]. unfold pending in *. cbn. congruence.
Qed.

Lemma winv_step m0 (q : nat) pub slots w w' :
  winv m0 pub w -> zlen pub < 2 ^ 31 -> pub `prefix_of` slots ->
  wstep q (zlen pub) slots w = Some w' -> winv m0 pub w'.
Proof.
  intros Hw Hb Hpre. pose proof (wi_seq _ _ _ Hw) as Hseq.
  assert (Hf : forall r, slots !! Z.to_nat (w_seq w) = Some r -> w_seq w < zlen pub -> w_phase w <> Returned ->
    winv m0 pub (handle key_size_ value_size_ BATCH_SIZE r w)).
  { intros r Hr Hlt Hph. eapply handle_winv; [done|done|]. eapply lookup_published; [done..|]. unfold zlen in Hlt. lia. }
  unfold worker_step. rewrite u32_small by lia.
  destruct (w_phase w) eqn:Hph; [| | |done].
  - destruct (Z.leb_spec (zlen pub) (w_seq w)).
    + intros [= <-]. by apply flush_all_winv.
    + destruct (slots !! _) eqn:Hr; [|done]. cbn. intros [= <-]. by apply Hf.
  - destruct (Z.leb_spec (zlen pub) (w_seq w)); [done|]. intros [= <-].
    destruct Hw as [H1 H2 H3 H4 H5]. split; cbn; [done|done| |done|done].
    intros _. destruct H3 as ([? ? ?] & ? & ?); [by rewrite Hph|]. split_and!; done.
  - pose proof (wi_fetch _ _ _ Hw Hph). destruct (slots !! _) eqn:Hr; [|done]. cbn. intros [= <-]. by apply Hf.
Qed.

(** *** What the reads return *)

Definition is_point_read (r : async_requests) : bool := negb (rq_write r) && (rq_scan_size r =? -1).

Definition point_reads (reqs : list async_requests) : list async_requests := filter is_point_read reqs.

(** A result that is right for the key of request [j] after the writes of the
    requests up to [j]. *)
Definition read_at (m0 : gmap bytes bytes) (pub : list async_requests) (bound : Z) (g : bytes * option bytes) : Prop :=
  exists j r, Z.of_nat j < bound /\ pub !! j = Some r /\ g.1 = GenerateKeyFromInt key_size_ (rq_key r) /\
    g.2 = apply_puts (writes_of (take (Datatypes.S j) pub)) m0 !! g.1.

Definition pending_reads (w : worker) : nat :=
  match w_phase w with Returned => 0 | _ => length (w_multiget_keys w) end.

Record rinv (m0 : gmap bytes bytes) (pub : list async_requests) (w : worker) : Prop := {
  ri_count : (length (w_gets w) + pending_reads w = length (point_reads (take (Z.to_nat (w_seq w)) pub)))%nat;
  ri_gets : Forall (read_at m0 pub (w_seq w)) (w_gets w);
  ri_key : 0 < w_seq w -> exists r, pub !! Z.to_nat (w_seq w - 1) = Some r /\
    w_key w = GenerateKeyFromInt key_size_ (rq_key r)
}.

Lemma multiget_gets w :
  w_gets (multiget w) = w_gets w ++ replicate (length (w_multiget_keys w)) (w_key w, db_Get (w_db w) (w_key w)).
Proof.
  unfold multiget, db_MultiGet. cbn. f_equal. rewrite <- list_fmap_compose.
  induction (w_multiget_keys w) as [|[] l IH]; [done|]. cbn. by f_equal.
Qed.

Lemma read_at_mono m0 pub b b' g : read_at m0 pub b g -> b <= b' -> read_at m0 pub b' g.
Proof. intros (j & r & Hj & ?) Hb. exists j, r. split; [lia|done]. Qed.

(** The results of a MultiGet on a store that holds the writes of the requests
    taken so far. *)
Lemma multiget_read_at m0 pub w r :
  db_inv (w_db w) -> 0 < w_seq w -> pub !! Z.to_nat (w_seq w - 1) = Some r ->
  w_key w = GenerateKeyFromInt key_size_ (rq_key r) ->
  contents (w_db w) = apply_puts (writes_of (take (Z.to_nat (w_seq w)) pub)) m0 ->
  Forall (read_at m0 pub (w_seq w)) (w_gets w) -> Forall (read_at m0 pub (w_seq w)) (w_gets (multiget w)).
Proof.
  intros Hd Hpos Hr Hk Hc Hg. rewrite multiget_gets. apply Forall_app. split; [done|].
  apply Forall_replicate. exists (Z.to_nat (w_seq w - 1)), r. cbn. split_and!; [lia|done|done|].
  rewrite law_Get by (done || rewrite Hk; apply key_length). replace (Datatypes.S (Z.to_nat (w_seq w - 1))) with (Z.to_nat (w_seq w)) by lia.
  by rewrite <- Hc.
Qed.

Lemma drained_contents w : good w -> batch_ops (w_batch w) = [] -> contents (w_db w) = pending w.
Proof. intros _ E. unfold pending. by rewrite E. Qed.

Lemma flush_writes_reads w : w_gets (flush_writes w) = w_gets w /\ w_key (flush_writes w) = w_key w /\
  w_multiget_keys (flush_writes w) = w_multiget_keys w /\ w_phase (flush_writes w) = w_phase w.
Proof. unfold flush_writes, write_batch. destruct (_ =? _); [done|]. by destruct (db_Write _ _). Qed.

Lemma write_batch_reads w : w_gets (write_batch w) = w_gets w /\ w_key (write_batch w) = w_key w /\
  w_multiget_keys (write_batch w) = w_multiget_keys w /\ w_seq (write_batch w) = w_seq w.
Proof. unfold write_batch. by destruct (db_Write _ _). Qed.

Lemma rinv_keys_pos m0 pub w : rinv m0 pub w -> 0 <= w_seq w -> w_phase w <> Returned ->
  w_multiget_keys w <> [] -> 0 < w_seq w.
Proof.
  intros [Hc _ _] H0 Hph Hk. destruct (Z.eq_dec (w_seq w) 0) as [E|]; [|lia]. exfalso.
  rewrite E in Hc. change (length (point_reads (take (Z.to_nat 0) pub))) with 0%nat in Hc.
  unfold pending_reads in Hc. destruct (w_multiget_keys w); [done|]. cbn in Hc. destruct (w_phase w); [lia..|done].
Qed.

Lemma point_reads_snoc reqs r :
  length (point_reads (reqs ++ [r])) = (length (point_reads reqs) + if is_point_read r then 1 else 0)%nat.
Proof.
  unfold point_reads. rewrite filter_app, length_app. f_equal. rewrite filter_cons.
  by destruct (is_point_read r).
Qed.

(** The parts of the state that [rinv] speaks of. *)
Lemma rinv_same m0 pub w w' :
  w_gets w' = w_gets w -> pending_reads w' = pending_reads w -> w_key w' = w_key w -> w_seq w' = w_seq w ->
  rinv m0 pub w -> rinv m0 pub w'.
Proof. intros E1 E2 E3 E4 [H1 H2 H3]. split; by rewrite ?E1, ?E2, ?E3, ?E4. Qed.

(** Taking a request that is not a point read. *)
Lemma rinv_take m0 pub r w w' :
  rinv m0 pub w -> 0 <= w_seq w -> pub !! Z.to_nat (w_seq w) = Some r -> is_point_read r = false ->
  w_gets w' = w_gets w -> pending_reads w' = pending_reads w ->
  w_key w' = GenerateKeyFromInt key_size_ (rq_key r) -> w_seq w' = w_seq w + 1 ->
  rinv m0 pub w'.
Proof.
  intros [H1 H2 H3] H0 Hr Hp E1 E2 E3 E4. split; rewrite ?E1, ?E2, ?E3, ?E4.
  - replace (Z.to_nat (w_seq w + 1)) with (Datatypes.S (Z.to_nat (w_seq w))) by lia.
    rewrite (take_S_r _ _ r Hr), point_reads_snoc, Hp. lia.
  - eapply Forall_impl; [done|]. intros g Hg. eapply read_at_mono; [done|lia].
  - intros _. exists r. by replace (w_seq w + 1 - 1) with (w_seq w) by lia.
Qed.

(** Taking a point read: its slice is pending, or all slices are looked up. *)
Lemma rinv_point_read m0 pub r w w2 :
  rinv m0 pub w -> 0 <= w_seq w -> w_phase w <> Returned ->
  pub !! Z.to_nat (w_seq w) = Some r -> is_point_read r = true ->
  w_gets w2 = w_gets w -> w_multiget_keys w2 = w_multiget_keys w -> w_phase w2 = Testing ->
  w_key w2 = GenerateKeyFromInt key_size_ (rq_key r) -> w_seq w2 = w_seq w + 1 ->
  db_inv (w_db w2) -> contents (w_db w2) = apply_puts (writes_of (take (Z.to_nat (w_seq w2)) pub)) m0 ->
  rinv m0 pub (push_key w2) /\ rinv m0 pub (clear_keys (multiget (push_key w2))).
Proof.
  intros [H1 H2 H3] H0 Hph Hr Hp E1 E2 Ep E3 E4 Hd Hc.
  assert (Hk : pending_reads w = length (w_multiget_keys w)) by (unfold pending_reads; by destruct (w_phase w)).
  assert (Hr' : pub !! Z.to_nat (w_seq w2 - 1) = Some r)
    by (rewrite E4; by replace (w_seq w + 1 - 1) with (w_seq w) by lia).
  assert (H2' : Forall (read_at m0 pub (w_seq w2)) (w_gets w2)).
  { rewrite E1. eapply Forall_impl; [done|]. intros g Hg. eapply read_at_mono; [done|lia]. }
  assert (H1' : (length (w_gets w2) + length (w_multiget_keys w2) + 1
                 = length (point_reads (take (Z.to_nat (w_seq w2)) pub)))%nat).
  { rewrite E4. replace (Z.to_nat (w_seq w + 1)) with (Datatypes.S (Z.to_nat (w_seq w))) by lia.
    rewrite (take_S_r _ _ r Hr), point_reads_snoc, Hp, E1, E2, <- H1, Hk. lia. }
  split; split; [| |by eauto| | |by eauto].
  - unfold pending_reads. cbn. rewrite Ep, length_app. cbn. lia.
  - done.
  - change (w_gets (clear_keys (multiget (push_key w2)))) with (w_gets (multiget (push_key w2))).
    rewrite multiget_gets, length_app, length_replicate. unfold pending_reads. cbn. rewrite Ep, length_app. cbn. lia.
  - apply (multiget_read_at m0 pub (push_key w2) r); cbn; try done. lia.
Qed.

Lemma process_rinv m0 pub r w :
  winv m0 pub w -> rinv m0 pub w -> w_phase w <> Returned -> pub !! Z.to_nat (w_seq w) = Some r ->
  rinv m0 pub (process key_size_ value_size_ BATCH_SIZE r w).
Proof.
  intros Hw Hr Hph Hl. destruct (wi_running _ _ _ Hw Hph) as (Hg & Hsz & Hp). pose proof (wi_seq _ _ _ Hw) as Hs.
  assert (Hk : pending_reads w = length (w_multiget_keys w)) by (unfold pending_reads; by destruct (w_phase w)).
  destruct (take_request_good r w Hg) as [Hg1 Hp1]. unfold process. cbv zeta.
  set (w1 := take_request key_size_ r w) in *.
  destruct (rq_write r) eqn:Hwr.
  - assert (Hnp : is_point_read r = false) by (unfold is_point_read; by rewrite Hwr).
    destruct (write_batch_reads (batch_put value_size_ w1)) as (E1 & E2 & E3 & E4).
    destruct (_ <=? _); apply (rinv_take m0 pub r w); try done; cbn; rewrite ?E1, ?E2, ?E4, ?Hk; try done; try lia.
    unfold pending_reads. cbn. rewrite E3. unfold write_batch. by destruct (db_Write _ _).
  - destruct (flush_writes_good w1 Hg1) as (Hg2 & Hp2 & Hn2 & _).
    pose proof (drained_contents _ Hg2 Hn2) as Hc2. destruct (flush_writes_reads w1) as (E1 & E2 & E3 & E4).
    pose proof (flush_writes_seq w1) as E5. set (w2 := flush_writes w1) in *.
    destruct (rq_scan_size r =? -1) eqn:Hsc.
    + destruct (rinv_point_read m0 pub r w w2) as [Ha Hb]; try done; try lia.
      * unfold is_point_read. by rewrite Hwr, Hsc.
      * by destruct Hg2.
      * rewrite Hc2, Hp2, Hp1, Hp, E5. cbn.
        replace (Z.to_nat (w_seq w + 1)) with (Datatypes.S (Z.to_nat (w_seq w))) by lia.
        rewrite (take_S_r _ _ r Hl), writes_of_app, writes_of_one, Hwr. by rewrite app_nil_r.
      * by destruct (_ =? BATCH_SIZE).
    + apply (rinv_take m0 pub r w); try done; try lia; unfold scan_request; cbn; rewrite ?E1, ?E2, ?E5; try done.
      * unfold is_point_read. rewrite Hsc. apply andb_false_r.
      * unfold pending_reads at 1. cbn. rewrite E3, E4. cbn. done.
Qed.

(** Looking up what is pending, on a store with every write taken so far. *)
Lemma multiget_rinv m0 pub w :
  rinv m0 pub w -> 0 <= w_seq w -> w_phase w <> Returned -> w_multiget_keys w <> [] ->
  db_inv (w_db w) -> contents (w_db w) = apply_puts (writes_of (take (Z.to_nat (w_seq w)) pub)) m0 ->
  rinv m0 pub (clear_keys (multiget w)) /\ rinv m0 pub (set_phase Returned (w_busy w) (multiget w)).
Proof.
  intros Hr H0 Hph Hk Hd Hc. pose proof (rinv_keys_pos _ _ _ Hr H0 Hph Hk) as Hpos. destruct Hr as [H1 H2 H3].
  destruct (H3 Hpos) as (r & Hr & Ek).
  assert (Hl : (length (w_gets (multiget w)) = length (point_reads (take (Z.to_nat (w_seq w)) pub)))%nat).
  { rewrite multiget_gets, length_app, length_replicate, <- H1. unfold pending_reads. by destruct (w_phase w). }
  pose proof (multiget_read_at m0 pub w r Hd Hpos Hr Ek Hc H2) as Hm.
  split; split; [|done|done| |done|done].
  - etransitivity; [|exact Hl]. unfold pending_reads. cbn. destruct (w_phase w); lia.
  - etransitivity; [|exact Hl]. unfold pending_reads. cbn. lia.
Qed.

Lemma finish_rinv m0 pub w :
  winv m0 pub w -> rinv m0 pub w -> w_phase w <> Returned -> rinv m0 pub (finish w).
Proof.
  intros Hw Hr Hph. destruct (wi_running _ _ _ Hw Hph) as (Hg & _ & Hp). pose proof (wi_seq _ _ _ Hw) as Hs.
  unfold finish. set (w1 := if w_batch_size w =? 0 then w else write_batch w). cbv zeta.
  assert (Hw1 : db_inv (w_db w1) /\ contents (w_db w1) = pending w /\ w_seq w1 = w_seq w /\ w_phase w1 = w_phase w /\
    w_gets w1 = w_gets w /\ w_key w1 = w_key w /\ w_multiget_keys w1 = w_multiget_keys w).
  { unfold w1. destruct (Z.eqb_spec (w_batch_size w) 0) as [E|E].
    - destruct Hg as [Hd _ Hsz]. split_and!; try done. unfold pending. rewrite E in Hsz.
      by destruct (batch_ops (w_batch w)).
    - destruct (write_batch_good w Hg). split_and!; try done; unfold write_batch; by destruct (db_Write _ _). }
  destruct Hw1 as (Hd & Hc & E1 & E2 & E3 & E4 & E5).
  assert (Hr1 : rinv m0 pub w1) by (eapply rinv_same; [done| |done..]; unfold pending_reads; by rewrite E2, E5).
  destruct (w_multiget_keys w1) as [|k ks] eqn:Ek.
  - eapply rinv_same; [..|exact Hr1]; try done. unfold pending_reads. cbn. rewrite Ek. by destruct (w_phase w1).
  - apply (multiget_rinv m0 pub w1); rewrite ?E1, ?E2, ?Ek; [done|lia|done|done|done|by rewrite Hc].
Qed.

Lemma flush_all_rinv m0 pub w :
  winv m0 pub w -> rinv m0 pub w -> w_phase w = Testing ->
  rinv m0 pub (set_phase Polling false (flush_reads (flush_writes w))).
Proof.
  intros Hw Hr Hph. destruct (wi_running _ _ _ Hw) as (Hg & _ & Hp); [by rewrite Hph|].
  pose proof (wi_seq _ _ _ Hw) as Hs. destruct (flush_writes_good w Hg) as (Hg1 & Hp1 & Hn1 & _).
  pose proof (drained_contents _ Hg1 Hn1) as Hc1. destruct (flush_writes_reads w) as (E1 & E2 & E3 & E4).
  pose proof (flush_writes_seq w) as E5. set (w1 := flush_writes w) in *.
  assert (Hr1 : rinv m0 pub w1) by (eapply rinv_same; [done| |done..]; unfold pending_reads; by rewrite E3, E4).
  assert (Hr2 : rinv m0 pub (flush_reads w1)).
  { unfold flush_reads. destruct (w_multiget_keys w1) as [|k ks] eqn:Ek; [done|].
    apply (multiget_rinv m0 pub w1); rewrite ?E4, ?E5, ?Hph, ?Ek; try done; [lia|by destruct Hg1|congruence]. }
  eapply rinv_same; [..|exact Hr2]; try done.
  assert (Ep : w_phase (flush_reads w1) = Testing) by (unfold flush_reads; destruct (w_multiget_keys w1); cbn; congruence).
  unfold pending_reads. cbn. by rewrite Ep.
Qed.

Lemma rinv_mono m0 pub pub' w : winv m0 pub w -> rinv m0 pub w -> pub `prefix_of` pub' -> rinv m0 pub' w.
Proof.
  intros Hw [H1 H2 H3] Hpre. pose proof (wi_seq _ _ _ Hw) as Hseq. unfold zlen in Hseq.
  assert (Ht : forall i, (i <= length pub)%nat -> take i pub' = take i pub).
  { intros i Hi. destruct Hpre as [l ->]. by rewrite take_app_le. }
  split.
  - rewrite Ht by lia. done.
  - eapply Forall_impl; [done|]. intros g (j & r & Hj & Hr & Ek & Ev). exists j, r.
    split_and!; [done|by eapply prefix_lookup_Some|done|]. rewrite Ht; [done|].
    apply lookup_lt_Some in Hr. lia.
  - intros Hpos. destruct (H3 Hpos) as (r & Hr & Ek). exists r. split; [by eapply prefix_lookup_Some|done].
Qed.

Lemma rinv_step m0 (q : nat) pub slots w w' :
  winv m0 pub w -> rinv m0 pub w -> zlen pub < 2 ^ 31 -> pub `prefix_of` slots ->
  wstep q (zlen pub) slots w = Some w' -> rinv m0 pub w'.
Proof.
  intros Hw Hr Hb Hpre. pose proof (wi_seq _ _ _ Hw) as Hseq.
  assert (Hf : forall r, slots !! Z.to_nat (w_seq w) = Some r -> w_seq w < zlen pub -> w_phase w <> Returned ->
    rinv m0 pub (handle key_size_ value_size_ BATCH_SIZE r w)).
  { intros r Hl Hlt Hph. unfold handle. destruct (rq_seq r =? -1); [by apply finish_rinv|].
    apply process_rinv; [done..|]. eapply lookup_published; [done..|]. unfold zlen in Hlt. lia. }
  unfold worker_step. rewrite u32_small by lia.
  destruct (w_phase w) eqn:Hph; [| | |done].
  - destruct (Z.leb_spec (zlen pub) (w_seq w)).
    + intros [= <-]. by apply flush_all_rinv.
    + destruct (slots !! _) eqn:Hl; [|done]. cbn. intros [= <-]. by apply Hf.
  - destruct (_ <=? _); [done|]. intros [= <-]. eapply rinv_same; [..|exact Hr]; try done.
    unfold pending_reads. cbn. by rewrite Hph.
  - pose proof (wi_fetch _ _ _ Hw Hph). destruct (slots !! _) eqn:Hl; [|done]. cbn. intros [= <-]. by apply Hf.
Qed.

(** *** Reads without batching *)

(** The point reads of a sequence of requests, each answered before the next. *)
Fixpoint seq_gets (m : gmap bytes bytes) (reqs : list async_requests) : list (bytes * option bytes) :=
  match reqs with
  | [] => []
  | r :: reqs' =>
      let k := GenerateKeyFromInt key_size_ (rq_key r) in
      if rq_write r then seq_gets (<[k := value_str value_size_]> m) reqs'
      else if rq_scan_size r =? -1 then (k, m !! k) :: seq_gets m reqs'
      else seq_gets m reqs'
  end.

Lemma seq_gets_app m r1 r2 : seq_gets m (r1 ++ r2) = seq_gets m r1 ++ seq_gets (apply_puts (writes_of r1) m) r2.
Proof.
  revert m. induction r1 as [|r r1 IH]; intros m; [done|].
  change (r :: r1) with ([r] ++ r1) at 3. rewrite writes_of_app, writes_of_one, apply_puts_app. cbn.
  destruct (rq_write r); [by rewrite IH|]. destruct (_ =? -1); cbn; by rewrite IH.
Qed.

Definition sinv (m0 : gmap bytes bytes) (pub : list async_requests) (w : worker) : Prop :=
  w_multiget_keys w = [] /\ w_gets w = seq_gets m0 (take (Z.to_nat (w_seq w)) pub).

Lemma process_sinv m0 pub r w : BATCH_SIZE = 1 ->
  winv m0 pub w -> sinv m0 pub w -> w_phase w <> Returned -> pub !! Z.to_nat (w_seq w) = Some r ->
  sinv m0 pub (process key_size_ value_size_ BATCH_SIZE r w).
Proof.
  intros HB Hw [Hk Hgets] Hph Hl. destruct (wi_running _ _ _ Hw Hph) as (Hg & _ & Hp).
  pose proof (wi_seq _ _ _ Hw) as Hs. destruct (process_seq r w) as [Es _].
  unfold sinv. rewrite Es. replace (Z.to_nat (w_seq w + 1)) with (Datatypes.S (Z.to_nat (w_seq w))) by lia.
  rewrite (take_S_r _ _ r Hl), seq_gets_app, <- Hgets, <- Hp.
  destruct (take_request_good r w Hg) as [Hg1 Hp1]. unfold process. cbv zeta.
  set (w1 := take_request key_size_ r w) in *. cbn [seq_gets].
  destruct (rq_write r).
  - destruct (write_batch_reads (batch_put value_size_ w1)) as (E1 & E2 & E3 & E4).
    destruct (_ <=? _); cbn; rewrite ?E1, ?E3, ?app_nil_r; done.
  - destruct (flush_writes_good w1 Hg1) as (Hg2 & Hp2 & Hn2 & _).
    pose proof (drained_contents _ Hg2 Hn2) as Hc2. destruct (flush_writes_reads w1) as (E1 & E2 & E3 & E4).
    set (w2 := flush_writes w1) in *. destruct (rq_scan_size r =? -1).
    + assert (Ek : w_multiget_keys (push_key w2) = [KeyArray]) by (cbn; by rewrite E3; cbn; rewrite Hk).
      rewrite Ek, HB. cbn [zlen]. change (zlen [KeyArray] =? 1) with true. cbv iota.
      split; [done|]. change (w_gets (clear_keys (multiget (push_key w2)))) with (w_gets (multiget (push_key w2))).
      rewrite multiget_gets, Ek. cbn. rewrite law_Get by ((by destruct Hg2) || (rewrite E2; apply key_length)).
      rewrite E1, E2, Hc2, Hp2, Hp1. done.
    + unfold scan_request. cbn. rewrite E1, E3, app_nil_r. done.
Qed.

Lemma sinv_step m0 (q : nat) pub slots w w' : BATCH_SIZE = 1 ->
  winv m0 pub w -> sinv m0 pub w -> zlen pub < 2 ^ 31 -> pub `prefix_of` slots ->
  wstep q (zlen pub) slots w = Some w' -> sinv m0 pub w'.
Proof.
  intros HB Hw Hsv Hb Hpre. pose proof (wi_seq _ _ _ Hw) as Hseq.
  assert (Hf : forall r, slots !! Z.to_nat (w_seq w) = Some r -> w_seq w < zlen pub -> w_phase w <> Returned ->
    sinv m0 pub (handle key_size_ value_size_ BATCH_SIZE r w)).
  { intros r Hl Hlt Hph. unfold handle. destruct (rq_seq r =? -1).
    - destruct Hsv as [Hk Hgets]. destruct (write_batch_reads w) as (E1 & E2 & E3 & E4). unfold finish.
      destruct (w_batch_size w =? 0); rewrite ?E3, Hk; [done|]. split; cbn; by rewrite ?E1, ?E3, ?E4.
    - apply process_sinv; [done..|]. eapply lookup_published; [done..|]. unfold zlen in Hlt. lia. }
  unfold worker_step. rewrite u32_small by lia.
  destruct (w_phase w) eqn:Hph; [| | |done].
  - destruct (Z.leb_spec (zlen pub) (w_seq w)).
    + intros [= <-]. destruct Hsv as [Hk Hgets]. destruct (flush_writes_reads w) as (E1 & E2 & E3 & E4).
      pose proof (flush_writes_seq w) as E5. unfold flush_reads. rewrite E3, Hk. split; cbn; congruence.
    + destruct (slots !! _) eqn:Hl; [|done]. cbn. intros [= <-]. by apply Hf.
  - destruct (_ <=? _); [done|]. by intros [= <-].
  - pose proof (wi_fetch _ _ _ Hw Hph). destruct (slots !! _) eqn:Hl; [|done]. cbn. intros [= <-]. by apply Hf.
Qed.

Lemma sinv_mono m0 pub pub' w : winv m0 pub w -> sinv m0 pub w -> pub `prefix_of` pub' -> sinv m0 pub' w.
Proof.
  intros Hw [H1 H2] [l ->]. pose proof (wi_seq _ _ _ Hw) as Hseq. unfold zlen in Hseq.
  split; [done|]. rewrite take_app_le by lia. done.
Qed.

(** *** All of it *)

Definition winv_all (m0 : gmap bytes bytes) (pub : list async_requests) (w : worker) : Prop :=
  winv m0 pub w /\ rinv m0 pub w /\ (BATCH_SIZE = 1 -> sinv m0 pub w).

Lemma winv_all_mono m0 pub pub' w : winv_all m0 pub w -> pub `prefix_of` pub' -> winv_all m0 pub' w.
Proof.
  intros (Hw & Hr & Hs) Hpre. split_and!; [by eapply winv_mono|by eapply rinv_mono|].
  intros HB. eapply sinv_mono; eauto.
Qed.

Lemma winv_all_step m0 (q : nat) pub slots w w' :
  winv_all m0 pub w -> zlen pub < 2 ^ 31 -> pub `prefix_of` slots ->
  wstep q (zlen pub) slots w = Some w' -> winv_all m0 pub w'.
Proof.
  intros (Hw & Hr & Hs) Hb Hpre E. split_and!; [by eapply winv_step|by eapply rinv_step|].
  intros HB. eapply sinv_step; eauto.
Qed.

Lemma initial_winv_all db : db_inv db -> winv_all (contents db) [] (initial_worker key_size_ db).
Proof.
  intros Hd. destruct (law_batch_new (BatchLaws := BatchLaws0)) as [Hb Hn].
  split_and!; [|by split; cbn|done].
  split; cbn; [done|constructor| |done|done]. intros _. split_and!; [|done|].
  - split; cbn; [done|done|by rewrite Hn].
  - unfold pending. cbn. by rewrite Hn.
Qed.
End Correct.

(** ** What the user thread has sent *)

Section Sent.
Context (QUEUE_NUM : Z) (HQ : 0 < QUEUE_NUM).

Abbreviation sent := (sent async_requests_default).

(** The commands that queue [q] is to serve. *)
Definition for_queue (q : nat) (c : command) : Prop := c_key c mod QUEUE_NUM = Z.of_nat q.

#[global] Instance for_queue_dec q c : Decision (for_queue q c).
Proof. unfold for_queue. apply _. Defined.

Lemma dispatch_command_queues ops c : Forall (fun p : post => (p.1 < Z.to_nat QUEUE_NUM)%nat) (dispatch_command QUEUE_NUM ops c).
Proof.
  pose proof (Z.mod_pos_bound (c_key c) QUEUE_NUM HQ). unfold dispatch_command.
  destruct (_ =? _); [|destruct (_ || _); [|destruct (_ =? _)]]; repeat constructor; cbn; [lia|lia|].
  apply Forall_fmap, Forall_forall. intros i Hi. apply elem_of_seq in Hi. cbn. lia.
Qed.

Lemma main_posts_queues cmds : Forall (fun p : post => (p.1 < Z.to_nat QUEUE_NUM)%nat) (main_posts QUEUE_NUM cmds).
Proof.
  unfold main_posts. apply Forall_app. split.
  - generalize 0. induction cmds as [|c cmds IH]; intros ops; cbn; [constructor|].
    apply Forall_app. split; [apply dispatch_command_queues|apply IH].
  - apply Forall_fmap, Forall_forall. intros i Hi. apply elem_of_seq in Hi. cbn. lia.
Qed.

Lemma sent_main_posts cmds q : (q < Z.to_nat QUEUE_NUM)%nat ->
  sent (main_posts QUEUE_NUM cmds) q = sent (dispatch QUEUE_NUM 0 cmds) q ++ [set_end async_requests_default].
Proof. intros Hq. unfold main_posts. by rewrite sent_app, sent_all_queues. Qed.

(** The requests of a command on queue [q]. *)
Lemma sent_dispatch_command ops c q : (q < Z.to_nat QUEUE_NUM)%nat ->
  sent (dispatch_command QUEUE_NUM ops c) q =
  (if c_cmd c =? chr_R then if decide (for_queue q c) then [mkRequest (c_key c) ops (-1) false] else []
   else if (c_cmd c =? chr_U) || (c_cmd c =? chr_I) then
     if decide (for_queue q c) then [mkRequest (c_key c) ops (-1) true] else []
   else if c_cmd c =? chr_S then [mkRequest (c_key c) ops (c_scan_size c) false]
   else []).
Proof.
  intros Hq. pose proof (Z.mod_pos_bound (c_key c) QUEUE_NUM HQ).
  assert (E : (Z.to_nat (c_key c mod QUEUE_NUM) = q) <-> for_queue q c) by (unfold for_queue; lia).
  unfold dispatch_command. destruct (_ =? _); [|destruct (_ || _); [|destruct (_ =? _)]].
  - rewrite sent_one. do 2 case_decide; try tauto; done.
  - rewrite sent_one. do 2 case_decide; try tauto; done.
  - by rewrite sent_all_queues.
  - done.
Qed.

(** No request of the trace looks like an end marker. *)
Lemma dispatch_live q cmds ops : (q < Z.to_nat QUEUE_NUM)%nat -> 0 <= ops -> ops + zlen cmds < 2 ^ 31 ->
  Forall (fun r => rq_seq r <> -1) (sent (dispatch QUEUE_NUM ops cmds) q).
Proof.
  intros Hq. revert ops. induction cmds as [|c cmds IH]; intros ops H0 Hb; [constructor|].
  unfold zlen in *. cbn in Hb.
  cbn [dispatch]. rewrite sent_app. apply Forall_app. split.
  - rewrite sent_dispatch_command by done.
    destruct (_ =? _); [|destruct (_ || _); [|destruct (_ =? _)]]; try case_decide; repeat constructor; cbn; lia.
  - rewrite i32_small by lia. apply IH; lia.
Qed.

Context (key_size_ value_size_ : Z).

(** The puts of the trace, in order. *)
Definition is_write (c : command) : bool := (c_cmd c =? chr_U) || (c_cmd c =? chr_I).

Definition trace_writes (cmds : list command) : list entry :=
  cmds ≫= fun c => if is_write c then [(GenerateKeyFromInt key_size_ (c_key c), value_str value_size_)] else [].

Lemma trace_writes_cons c cmds : trace_writes (c :: cmds)
  = (if is_write c then [(GenerateKeyFromInt key_size_ (c_key c), value_str value_size_)] else []) ++ trace_writes cmds.
Proof. done. Qed.

Lemma writes_of_sent q cmds ops : (q < Z.to_nat QUEUE_NUM)%nat ->
  writes_of key_size_ value_size_ (sent (dispatch QUEUE_NUM ops cmds) q)
  = trace_writes (filter (for_queue q) cmds).
Proof.
  intros Hq. revert ops. induction cmds as [|c cmds IH]; intros ops; [done|].
  cbn [dispatch]. rewrite sent_app, writes_of_app, IH, filter_cons, sent_dispatch_command by done.
  assert (ER : c_cmd c = chr_R -> is_write c = false) by (unfold is_write; by intros ->).
  destruct (decide (for_queue q c)); rewrite ?trace_writes_cons; fold (is_write c);
    destruct (Z.eqb_spec (c_cmd c) chr_R) as [E|_]; rewrite ?ER by done; [done| |done|];
    (destruct (is_write c); [done|]); by destruct (c_cmd c =? chr_S).
Qed.

(** Dropping commands on other keys does not change what a key maps to. *)
Lemma trace_writes_filter (P : command -> Prop) `{!forall c, Decision (P c)} k cmds m :
  (forall c, c ∈ cmds -> GenerateKeyFromInt key_size_ (c_key c) = k -> P c) ->
  apply_puts (trace_writes (filter P cmds)) m !! k = apply_puts (trace_writes cmds) m !! k.
Proof.
  enough (G : forall m1 m2 : gmap bytes bytes, m1 !! k = m2 !! k ->
    (forall c, c ∈ cmds -> GenerateKeyFromInt key_size_ (c_key c) = k -> P c) ->
    apply_puts (trace_writes (filter P cmds)) m1 !! k = apply_puts (trace_writes cmds) m2 !! k) by (by apply G).
  induction cmds as [|c cmds IH]; intros m1 m2 Hm HP; [done|].
  assert (HP' : forall c', c' ∈ cmds -> GenerateKeyFromInt key_size_ (c_key c') = k -> P c')
    by (intros; apply HP; [by right|done]).
  rewrite filter_cons, (trace_writes_cons c cmds), apply_puts_app.
  destruct (decide (P c)) as [Hc|Hc].
  - rewrite trace_writes_cons, apply_puts_app.
    apply IH; [|done]. destruct (is_write c); [|done]. cbn. by rewrite !lookup_insert, Hm.
  - apply IH; [|done]. destruct (is_write c); [|done]. cbn.
    rewrite lookup_insert_ne; [done|]. intros E. apply Hc, HP; [by left|done].
Qed.
End Sent.

(** ** The whole program *)

Section System.
Context {S B : Type} `{Batch B} `{!DB S B}.
Context (batch_inv : B -> Prop) (batch_ops : B -> list entry).
Context (db_inv : S -> Prop) (contents : S -> gmap bytes bytes).
Context `{!BatchLaws batch_inv batch_ops} `{!DBLaws batch_inv batch_ops db_inv contents}.
Context (writes_succeed : forall s b, db_inv s -> batch_inv b -> (db_Write s b).1 = true).
Context (key_size_ value_size_ BATCH_SIZE QUEUE_NUM : Z).
Context (Hks : 8 <= key_size_ < 2 ^ 32 - 8) (Hvs : 0 <= value_size_ < 2 ^ 32) (HQ : 0 < QUEUE_NUM).
(** [cap] slots per queue, a store per queue, and the commands of the trace. *)
Context (cap : nat) (dbs : list S) (cmds : list command).
Context (Hcap : Z.of_nat cap < 2 ^ 31) (Hdbs : zlen dbs = QUEUE_NUM) (Hopen : Forall db_inv dbs).
Context (Hcmds : zlen cmds < 2 ^ 31).

Abbreviation wstep := (worker_step (S := S) (B := B) key_size_ value_size_ BATCH_SIZE).
Abbreviation sent := (sent async_requests_default).
Abbreviation posts := (main_posts QUEUE_NUM cmds).

Definition ycsb_step : system -> system -> Prop := step wstep.

Definition ycsb_start : system :=
  initial async_requests_default cap (Z.to_nat QUEUE_NUM) posts (initial_worker key_size_ <$> dbs).

(** The arrays hold the requests of the trace and an end marker each. *)
Definition queues_fit : Prop := forall q, (length (sent posts q) <= cap)%nat.

Definition queue_inv (q : nat) (pub : list async_requests) (w : worker S B) : Prop :=
  exists db, dbs !! q = Some db /\
    winv_all batch_inv batch_ops db_inv contents key_size_ value_size_ BATCH_SIZE (contents db) pub w.

Lemma Hks' : 0 < key_size_ < 2 ^ 32 - 8.
Proof. lia. Qed.

Lemma ycsb_posts_fit : queues_fit ->
  posts_fit async_requests_default cap (Z.to_nat QUEUE_NUM) posts.
Proof. intros Hf. split; [by apply main_posts_queues|exact Hf]. Qed.

Lemma queue_inv_mono q pub pub' w : queue_inv q pub w -> pub `prefix_of` pub' -> queue_inv q pub' w.
Proof. intros (db & Hdb & Hw) Hpre. exists db. split; [done|]. by eapply winv_all_mono. Qed.

Lemma queue_inv_step q pub slots w w' :
  queue_inv q pub w -> zlen pub < 2 ^ 31 -> pub `prefix_of` slots ->
  wstep q (zlen pub) slots w = Some w' -> queue_inv q pub w'.
Proof.
  intros (db & Hdb & Hw) Hb Hpre E. exists db. split; [done|].
  eapply winv_all_step; [apply _..|exact writes_succeed|apply Hks'|done|done|done|done|done].
Qed.

Lemma queue_inv_initial q w : (initial_worker key_size_ <$> dbs) !! q = Some w -> queue_inv q [] w.
Proof.
  rewrite list_lookup_fmap. destruct (dbs !! q) as [db|] eqn:Hdb; [|done]. cbn. intros [= <-].
  exists db. split; [done|]. apply initial_winv_all; [apply _|]. by eapply Forall_lookup_1.
Qed.

Lemma ycsb_inv st : queues_fit -> rtc ycsb_step ycsb_start st ->
  exists done_, system_inv async_requests_default cap (Z.to_nat QUEUE_NUM) queue_inv posts st done_.
Proof.
  intros Hf Hr. eapply system_inv_reachable; [apply queue_inv_mono|apply queue_inv_step|done| | | |exact Hr].
  - by apply ycsb_posts_fit.
  - rewrite length_fmap. unfold zlen in Hdbs. lia.
  - apply queue_inv_initial.
Qed.

(** The requests that queue [q] gets before its end marker. *)
Abbreviation requests q := (sent (dispatch QUEUE_NUM 0 cmds) q).

(** What is known of a worker whose thread has returned: it has taken all
    requests of its queue. *)
Lemma returned_worker st q w db :
  queues_fit -> rtc ycsb_step ycsb_start st -> workers st !! q = Some w -> w_phase w = Returned ->
  dbs !! q = Some db -> exists pub,
  take (Z.to_nat (w_seq w)) pub = requests q /\
  winv_all batch_inv batch_ops db_inv contents key_size_ value_size_ BATCH_SIZE (contents db) pub w.
Proof.
  intros Hf Hr Hw Hph Hdb. destruct (ycsb_inv st Hf Hr) as (done_ & Hm & Hn & Hinv).
  destruct (Hinv q w Hw) as (db' & Hdb' & Hall). simplify_eq.
  exists (sent done_ q). split; [|done]. destruct Hall as (Hwi & _).
  destruct (wi_returned _ _ _ _ _ _ _ _ _ Hwi Hph) as (_ & _ & r & Hl & Hend).
  pose proof (wi_live _ _ _ _ _ _ _ _ _ Hwi) as Hlive. pose proof (wi_seq _ _ _ _ _ _ _ _ _ Hwi) as Hseq.
  assert (Hq : (q < Z.to_nat QUEUE_NUM)%nat) by (rewrite <- Hn; by eapply lookup_lt_Some).
  pose proof (sent_mono async_requests_default _ _ q (main_inv_done _ _ _ _ _ _ _ Hm)) as Hpre.
  rewrite sent_main_posts in Hpre by done.
  pose proof (dispatch_live QUEUE_NUM HQ q cmds 0 Hq ltac:(lia) ltac:(lia)) as Hlive'.
  apply (taken_all (fun r => rq_seq r <> -1) (requests q) _ (set_end async_requests_default) _ r); auto.
Qed.

(** *** How long it runs *)

Definition phase_rank (p : phase) : nat :=
  match p with Testing => 3 | Polling => 2 | Fetching => 1 | Returned => 0 end.

(** Four steps at most for each request left. *)
Definition work_left (q : nat) (w : worker S B) : nat :=
  4 * (length (sent posts q) - Z.to_nat (w_seq w)) + phase_rank (w_phase w).

Lemma finish_phase w : w_seq (finish (S := S) (B := B) w) = w_seq w /\ w_phase (finish w) = Returned.
Proof.
  unfold finish, write_batch. destruct (_ =? 0); [|destruct (db_Write _ _)]; cbn; by destruct (w_multiget_keys w).
Qed.

Lemma flush_all_seq (w : worker S B) : w_seq (flush_reads (flush_writes w)) = w_seq w.
Proof.
  transitivity (w_seq (flush_writes w)); [|apply flush_writes_seq].
  unfold flush_reads. by destruct (w_multiget_keys _).
Qed.

Lemma step_work_left q pub slots w w' :
  (q < Z.to_nat QUEUE_NUM)%nat -> queue_inv q pub w -> pub `prefix_of` sent posts q -> pub `prefix_of` slots ->
  zlen pub < 2 ^ 31 -> wstep q (zlen pub) slots w = Some w' -> (work_left q w' < work_left q w)%nat.
Proof.
  intros Hq (db & Hdb & Hw & _) Hpre Hpre' Hb. pose proof (wi_seq _ _ _ _ _ _ _ _ _ Hw) as Hseq.
  apply prefix_length in Hpre. unfold worker_step, work_left. rewrite u32_small by lia. unfold zlen in *.
  assert (Hf : forall r, w_phase w <> Returned -> (Z.to_nat (w_seq w) < length pub)%nat ->
    (4 * (length (sent posts q) - Z.to_nat (w_seq (handle key_size_ value_size_ BATCH_SIZE r w)))
     + phase_rank (w_phase (handle key_size_ value_size_ BATCH_SIZE r w))
     < 4 * (length (sent posts q) - Z.to_nat (w_seq w)) + phase_rank (w_phase w))%nat).
  { intros r Hph Hlt. unfold handle. destruct (_ =? -1).
    - destruct (finish_phase w) as [-> ->]. destruct (w_phase w); cbn; (lia || done).
    - destruct (process_seq key_size_ value_size_ BATCH_SIZE r w) as [-> ->].
      replace (Z.to_nat (w_seq w + 1)) with (Datatypes.S (Z.to_nat (w_seq w))) by lia.
      destruct (w_phase w); cbn; (lia || done). }
  destruct (w_phase w) eqn:Hph; [| | |done].
  - destruct (Z.leb_spec (Z.of_nat (length pub)) (w_seq w)).
    + intros [= <-]. cbn. rewrite flush_all_seq. lia.
    + destruct (slots !! _); [|done]. cbn. intros [= <-]. apply Hf; [done|lia].
  - destruct (_ <=? _); [done|]. intros [= <-]. cbn. lia.
  - pose proof (wi_fetch _ _ _ _ _ _ _ _ _ Hw Hph) as Hlt. unfold zlen in Hlt.
    destruct (slots !! _); [|done]. cbn. intros [= <-]. apply Hf; [done|lia].
Qed.

Lemma start_measure :
  measure work_left ycsb_start = (6 * length posts + 3 * Z.to_nat QUEUE_NUM)%nat.
Proof.
  unfold measure, ycsb_start, initial. cbn [main workers].
  rewrite actions_length, (workers_measure_sum work_left 0 _ (fun q => length (sent posts q) + length (sent posts q) +
    (length (sent posts q) + length (sent posts q)) + 3)%nat).
  - rewrite length_fmap. replace (length dbs) with (Z.to_nat QUEUE_NUM) by (unfold zlen in Hdbs; lia).
    rewrite !sum_list_plus, !sent_total by (by apply main_posts_queues).
    assert (E3 : forall a m, sum_list ((fun _ => 3%nat) <$> seq a m) = (3 * m)%nat).
    { intros a m. revert a. induction m as [|m IH]; intros a; [done|]. cbn. rewrite IH. lia. }
    rewrite E3. lia.
  - intros i w Hi. rewrite list_lookup_fmap in Hi. destruct (dbs !! i); [|done]. cbn in Hi. injection Hi as <-.
    unfold work_left. cbn -[Nat.mul]. lia.
Qed.

(** A worker that cannot move although its end marker is there has returned. *)
Lemma stuck_returned q w slots : (q < Z.to_nat QUEUE_NUM)%nat ->
  queue_inv q (sent posts q) w -> zlen (sent posts q) < 2 ^ 31 -> sent posts q `prefix_of` slots ->
  wstep q (zlen (sent posts q)) slots w = None -> w_phase w = Returned.
Proof.
  intros Hq (db & Hdb & Hw & _) Hb Hpre. pose proof (wi_seq _ _ _ _ _ _ _ _ _ Hw) as Hseq.
  pose proof (wi_live _ _ _ _ _ _ _ _ _ Hw) as Hlive.
  assert (Hlt : w_seq w < zlen (sent posts q)).
  { destruct (Z.eq_dec (w_seq w) (zlen (sent posts q))) as [E|]; [|lia]. exfalso.
    rewrite E in Hlive. unfold zlen in Hlive. rewrite Nat2Z.id, firstn_all, sent_main_posts in Hlive by done.
    apply Forall_app in Hlive as [_ Hlive]. apply Forall_inv in Hlive. done. }
  unfold worker_step. rewrite u32_small by lia.
  assert (Hf : slots !! Z.to_nat (w_seq w) <> None).
  { apply prefix_length in Hpre. unfold zlen in *.
    apply not_eq_None_Some, lookup_lt_is_Some_2. lia. }
  destruct (w_phase w); [| | |done].
  - destruct (Z.leb_spec (zlen (sent posts q)) (w_seq w)); [done|]. by destruct (slots !! _).
  - destruct (Z.leb_spec (zlen (sent posts q)) (w_seq w)); [lia|done].
  - by destruct (slots !! _).
Qed.

(** *** Theorems *)

(** C1. Whatever the interleaving of the user thread and the workers and however
    the workers batch: once the worker of queue [q] has returned, its store maps
    the key of every number that is [q] modulo [QUEUE_NUM] to what the writes of
    the whole trace, applied one by one in trace order, give it, and no other
    generated key of the store has changed. *)
Theorem partition_serializable st q w db v :
  queues_fit -> rtc ycsb_step ycsb_start st ->
  workers st !! q = Some w -> w_phase w = Returned -> dbs !! q = Some db ->
  Forall (fun c => 0 <= c_key c < 2 ^ 64) cmds -> 0 <= v < 2 ^ 64 ->
  contents (w_db w) !! GenerateKeyFromInt key_size_ v =
  (if decide (v mod QUEUE_NUM = Z.of_nat q)
   then apply_puts (trace_writes key_size_ value_size_ cmds) (contents db)
   else contents db) !! GenerateKeyFromInt key_size_ v.
Proof.
  intros Hf Hr Hw Hph Hdb Hk Hv.
  destruct (returned_worker st q w db Hf Hr Hw Hph Hdb) as (pub & Ht & Hwi & _).
  destruct (wi_returned _ _ _ _ _ _ _ _ _ Hwi Hph) as (_ & Hc & _).
  destruct (ycsb_inv st Hf Hr) as (done_ & _ & Hn & _).
  assert (Hq : (q < Z.to_nat QUEUE_NUM)%nat) by (rewrite <- Hn; by eapply lookup_lt_Some).
  rewrite Hc, Ht, writes_of_sent by done.
  assert (Hinj : forall c, c ∈ cmds -> GenerateKeyFromInt key_size_ (c_key c) = GenerateKeyFromInt key_size_ v ->
    c_key c = v).
  { intros c Hin E. rewrite Forall_forall in Hk. specialize (Hk c Hin).
    eapply GenerateKeyFromInt_inj; [| | |exact E]; lia. }
  case_decide as Hd.
  - apply trace_writes_filter. intros c Hin E. unfold for_queue. by rewrite (Hinj c Hin E).
  - rewrite <- (trace_writes_filter key_size_ value_size_ (fun _ => False)).
    2: { intros c Hin E. apply list_elem_of_filter in Hin as [Hfq Hin]. unfold for_queue in Hfq.
         by rewrite (Hinj c Hin E) in Hfq. }
    by rewrite filter_none by tauto.
Qed.

(** With [BATCH_SIZE] 1, the results a returned worker has got for its point
    reads are, in order, those of executing its requests one at a time: each read
    returns what the store holds after exactly the writes before it. *)
Theorem reads_without_batching st q w db :
  queues_fit -> rtc ycsb_step ycsb_start st ->
  workers st !! q = Some w -> w_phase w = Returned -> dbs !! q = Some db -> BATCH_SIZE = 1 ->
  w_gets w = seq_gets key_size_ value_size_ (contents db) (requests q).
Proof.
  intros Hf Hr Hw Hph Hdb HB.
  destruct (returned_worker st q w db Hf Hr Hw Hph Hdb) as (pub & Ht & Hwi & _ & Hs).
  destruct (Hs HB) as [_ ->]. by rewrite Ht.
Qed.

(** C23. With any [BATCH_SIZE], a returned worker has got one result per point read
    of its queue, and each result is the value of the key of some request [j]
    after exactly the writes of the requests up to [j]: no write that precedes
    the lookup in the queue is missed. *)
Theorem multiget_results st q w db :
  queues_fit -> rtc ycsb_step ycsb_start st ->
  workers st !! q = Some w -> w_phase w = Returned -> dbs !! q = Some db ->
  length (w_gets w) = length (point_reads (requests q)) /\
  Forall (read_at key_size_ value_size_ (contents db) (requests q) (zlen (requests q))) (w_gets w).
Proof.
  intros Hf Hr Hw Hph Hdb.
  destruct (returned_worker st q w db Hf Hr Hw Hph Hdb) as (pub & Ht & Hwi & [Hc Hg _] & _).
  pose proof (wi_seq _ _ _ _ _ _ _ _ _ Hwi) as Hseq.
  assert (Hl : length (requests q) = Z.to_nat (w_seq w)).
  { rewrite <- Ht, length_take. unfold zlen in Hseq. lia. }
  rewrite <- Ht in *. split.
  - rewrite <- Hc. unfold pending_reads. rewrite Hph. lia.
  - eapply Forall_impl; [exact Hg|]. intros g (j & r & Hj & Hr' & Ek & Ev).
    exists j, r. unfold zlen. rewrite Hl. split_and!; [lia| |done|].
    + rewrite lookup_take_lt by lia. done.
    + rewrite take_take, Nat.min_l by lia. done.
Qed.

(** C24. Where no queue is sent more requests than its array has slots, every run
    ends: an interleaving has at most [6 * P + 3 * QUEUE_NUM] steps, for [P] posted
    requests, in which the sleeps of the polling loops are not counted; in every
    state the next store of the user thread to a slot or to a tail is within its
    array; and a run that cannot go on has posted the whole trace and every worker
    thread has returned, so that the joins of the user thread return. *)
Theorem ycsb_terminates k st :
  queues_fit -> nsteps ycsb_step k ycsb_start st ->
  (k <= 6 * length posts + 3 * Z.to_nat QUEUE_NUM)%nat /\
  (forall a rest, main st = a :: rest -> is_Some (exec_action a (mem st))) /\
  (~ (exists st', ycsb_step st st') ->
   main st = [] /\ length (workers st) = Z.to_nat QUEUE_NUM /\
   Forall (fun w => w_phase w = Returned) (workers st)).
Proof.
  intros Hf Hk. pose proof (ycsb_posts_fit Hf) as Hfit.
  destruct (ycsb_inv st Hf) as (done_ & Hinv); [apply rtc_nsteps; eauto|]. split_and!.
  - pose proof start_measure as Em. unfold ycsb_start in *.
    enough (k + measure work_left st <= 6 * length posts + 3 * Z.to_nat QUEUE_NUM)%nat by lia.
    rewrite <- Em. eapply run_bounded; [apply queue_inv_mono|apply queue_inv_step|done|done| | |apply step_work_left|done].
    + rewrite length_fmap. unfold zlen in Hdbs. lia.
    + apply queue_inv_initial.
  - intros a rest Ea. destruct Hinv as (Hm & _). rewrite Ea in Hm.
    destruct (main_inv_step _ _ _ _ _ _ _ _ Hcap Hfit Hm) as (sh' & _ & E & _). by exists sh'.
  - intros Hstuck. destruct (system_stuck _ _ _ _ _ _ _ _ Hcap Hfit Hinv Hstuck) as [Hmain Hw].
    destruct Hinv as (_ & Hn & _). split_and!; [done|done|].
    apply Forall_lookup. intros q w Hq. destruct (Hw q w Hq) as (Hqi & slots & Hpre & E).
    eapply stuck_returned; [|done| |done|done].
    + rewrite <- Hn. by eapply lookup_lt_Some.
    + specialize (Hf q). unfold zlen. lia.
Qed.
End System.

(** ** A run

    Two queues of nine slots; the workers take their first looks at the tails
    while the user thread is still posting. *)

Abbreviation demo_map := (gmap bytes bytes).

Definition demo_cmds : list command :=
  [mkCommand 1 0 chr_I; mkCommand 2 0 chr_U; mkCommand 1 0 chr_R; mkCommand 4 0 chr_R;
   mkCommand 0 2 chr_S; mkCommand 2 0 chr_R].

Definition demo_turns : list (option nat) :=
  [None; Some 0; None; Some 1; None; None; Some 1]%nat ++
  mjoin (replicate 7 [None; Some 0; None; Some 1]%nat) ++ [Some 0; Some 1]%nat.

Definition demo_start : system (W := worker demo_map (list entry)) :=
  ycsb_start 8 2 9 [∅; ∅] demo_cmds.

Definition demo_end (BATCH_SIZE : Z) : system (W := worker demo_map (list entry)) :=
  default demo_start (exec_schedule (worker_step 8 1 BATCH_SIZE) demo_turns demo_start).

Definition demo_worker (BATCH_SIZE : Z) (q : nat) : worker demo_map (list entry) :=
  default (initial_worker 8 ∅) (workers (demo_end BATCH_SIZE) !! q).

Lemma demo_nsteps BATCH_SIZE : BATCH_SIZE = 1 \/ BATCH_SIZE = 2 ->
  nsteps (ycsb_step 8 1 BATCH_SIZE) 37 demo_start (demo_end BATCH_SIZE).
Proof.
  intros HB. apply (exec_schedule_nsteps (worker_step 8 1 BATCH_SIZE) demo_turns).
  unfold demo_end. destruct (exec_schedule _ _ _) eqn:E; [done|].
  exfalso. revert E. destruct HB as [-> | ->]; vm_compute; discriminate.
Qed.

Lemma demo_reachable BATCH_SIZE : BATCH_SIZE = 1 \/ BATCH_SIZE = 2 ->
  rtc (ycsb_step 8 1 BATCH_SIZE) demo_start (demo_end BATCH_SIZE).
Proof. intros HB. apply rtc_nsteps. eexists. by apply demo_nsteps. Qed.

Lemma demo_fit : queues_fit 2 9 demo_cmds.
Proof.
  intros q. unfold sent. rewrite length_fmap. etransitivity; [apply length_filter|].
  apply Nat.leb_le. vm_compute. reflexivity.
Qed.

Lemma demo_writes_succeed (s : demo_map) (b : list entry) : True -> True -> (db_Write s b).1 = true.
Proof. done. Qed.

(** Solves what the theorems ask of the configuration and of the run. *)
Ltac demo_solve :=
  match goal with
  | |- queues_fit _ _ _ => exact demo_fit
  | |- rtc _ _ _ => apply demo_reachable; (by left) || (by right)
  | |- Forall _ _ => repeat constructor; cbn; lia
  | |- _ = _ => vm_compute; reflexivity
  | |- _ => lia
  end.

Lemma partition_serializable_witness :
  w_db (demo_worker 2 0) !! GenerateKeyFromInt 8 2 = Some [48] /\
  w_db (demo_worker 2 0) !! GenerateKeyFromInt 8 1 = None.
Proof.
  split.
  - rewrite (partition_serializable (fun _ => True) (fun b => b) (fun _ => True) (fun s => s) demo_writes_succeed
      8 1 2 2 ltac:(lia) ltac:(lia) ltac:(lia) 9 [∅; ∅] demo_cmds
      ltac:(done) ltac:(done) ltac:(repeat constructor) ltac:(done) (demo_end 2) 0 (demo_worker 2 0) ∅ 2);
      demo_solve.
  - rewrite (partition_serializable (fun _ => True) (fun b => b) (fun _ => True) (fun s => s) demo_writes_succeed
      8 1 2 2 ltac:(lia) ltac:(lia) ltac:(lia) 9 [∅; ∅] demo_cmds
      ltac:(done) ltac:(done) ltac:(repeat constructor) ltac:(done) (demo_end 2) 0 (demo_worker 2 0) ∅ 1);
      demo_solve.
Defined.

Lemma reads_without_batching_witness :
  w_gets (demo_worker 1 0) = [(GenerateKeyFromInt 8 4, None); (GenerateKeyFromInt 8 2, Some [48])].
Proof.
  rewrite (reads_without_batching (fun _ => True) (fun b => b) (fun _ => True) (fun s => s) demo_writes_succeed
    8 1 1 2 ltac:(lia) ltac:(lia) ltac:(lia) 9 [∅; ∅] demo_cmds
    ltac:(done) ltac:(done) ltac:(repeat constructor) ltac:(done) (demo_end 1) 0 (demo_worker 1 0) ∅);
    demo_solve.
Defined.

Lemma multiget_results_witness :
  length (w_gets (demo_worker 2 0)) = 2%nat.
Proof.
  destruct (multiget_results (fun _ => True) (fun b => b) (fun _ => True) (fun s => s) demo_writes_succeed
    8 1 2 2 ltac:(lia) ltac:(lia) ltac:(lia) 9 [∅; ∅] demo_cmds
    ltac:(done) ltac:(done) ltac:(repeat constructor) ltac:(done) (demo_end 2) 0 (demo_worker 2 0) ∅) as [E _];
    [demo_solve..|]. rewrite E. vm_compute. reflexivity.
Defined.

Lemma ycsb_terminates_witness :
  (37 <= 6 * length (main_posts 2 demo_cmds) + 3 * Z.to_nat 2)%nat /\
  (forall a rest, main (demo_end 2) = a :: rest -> is_Some (exec_action a (mem (demo_end 2)))) /\
  (~ (exists st', ycsb_step 8 1 2 (demo_end 2) st') ->
   main (demo_end 2) = [] /\ length (workers (demo_end 2)) = Z.to_nat 2 /\
   Forall (fun w => w_phase w = Returned) (workers (demo_end 2))).
Proof.
  apply (ycsb_terminates (fun _ => True) (fun b => b) (fun _ => True) (fun s => s) demo_writes_succeed
    8 1 2 2 ltac:(lia) ltac:(lia) ltac:(lia) 9 [∅; ∅] demo_cmds
    ltac:(done) ltac:(done) ltac:(repeat constructor) 37 (demo_end 2));
    [demo_solve|apply demo_nsteps; by right].
Defined.

(** All slices of a [MultiGet] point to the one key array: in this run the read of
    key 4 is pending when the scan of key 0 overwrites the array, and key 0 is
    looked up in its place. *)
Lemma multiget_keys_aliased :
  rq_key <$> point_reads (sent async_requests_default (dispatch 2 0 demo_cmds) 0) = [4; 2] /\
  (w_gets (demo_worker 2 0)).*1 = [GenerateKeyFromInt 8 0; GenerateKeyFromInt 8 2].
Proof. split; vm_compute; reflexivity. Qed.
