(* ===== verification/Loader.v ===== *)
(** * write_test.cpp: loading the stores

    The loader shares out the keys of a generator over the request queues; the worker
    of each queue gathers the requests that it finds there, up to [BATCH_SIZE], in a
    [WriteBatch]. The workers of write_test_leveldb.cpp are in Polling.v and
    OtherStores.v. The macros ([QUEUE_NUM], [TOTAL_NUM], [BATCH_SIZE], [key_size_]) are
    arguments. *)

From S2P Require Import Prelude Comparator Random KeyGen Iterator KVStore Queue.

(** ** Requests *)

(** Time stamps are left out. *)
Record load_request := mkLoad { lq_seq : Z; lq_key : Z; lq_batch_pos : Z }.

Definition load_request_default : load_request := mkLoad (-1) (-1) 0.

(** ** The main thread *)

(** [key] is a [uint64_t] and the field an [int]. *)
Definition set_load (i key : Z) (r : load_request) : load_request := mkLoad i (i32 key) (lq_batch_pos r).

Definition set_load_end (r : load_request) : load_request := mkLoad (-1) (-1) (lq_batch_pos r).

(** The loop [for (int i = 0; i < TOTAL_NUM; i++)], from [i] on. *)
Fixpoint load_loop (QUEUE_NUM : Z) (todo : nat) (i : Z) (keygen : KeyGenerator) : option (list (@post load_request)) :=
  match todo with
  | O => Some []
  | S todo' =>
      '(key, keygen') ← KeyGenerator_Next keygen;
      rest ← load_loop QUEUE_NUM todo' (i + 1) keygen';
      Some ((Z.to_nat (i32 (key mod QUEUE_NUM)), set_load i key) :: rest)
  end.

(** Everything that the main thread posts. *)
Definition load_posts (QUEUE_NUM TOTAL_NUM : Z) (keygen : KeyGenerator) : option (list (@post load_request)) :=
  posts ← load_loop QUEUE_NUM (Z.to_nat TOTAL_NUM) 0 keygen;
  Some (posts ++ ((fun i => (i, set_load_end)) <$> seq 0 (Z.to_nat QUEUE_NUM))).

(** The slots of each array: [TOTAL_NUM / QUEUE_NUM + EXPAND_QUEUE_SIZE]. *)
Definition load_slots (QUEUE_NUM TOTAL_NUM : Z) : Z := TOTAL_NUM / QUEUE_NUM + (TOTAL_NUM / 10 + 1).

(** ** The worker *)

Record loader (S : Type) := mkLoader { ld_seq : Z; ld_endflag : bool; ld_db : S }.
Arguments mkLoader {S}.
Arguments ld_seq {S}.
Arguments ld_endflag {S}.
Arguments ld_db {S}.

(** [value]: 100 characters '0'. *)
Definition load_value : bytes := replicate 100 48.

Section Worker.
Context {S B : Type} `{Batch B} `{!DB S B}.
Context (key_size_ BATCH_SIZE : Z).

(** The [for] loop that fills the batch, with [BATCH_SIZE - batch_size] in [todo]:
    the batch, [seq], [batch_size] and [endflag]. *)
Fixpoint fill_batch (todo : nat) (t : Z) (slots : list load_request) (seq batch_size : Z) (batch : B)
  : option (B * Z * Z * bool) :=
  match todo with
  | O => Some (batch, seq, batch_size, false)
  | Datatypes.S todo' =>
      if seq <? t then
        request ← slots !! Z.to_nat seq;
        if lq_seq request =? -1 then Some (batch, seq, batch_size, true)
        else fill_batch todo' t slots (seq + 1) (batch_size + 1)
               (batch_Put batch (GenerateKeyFromInt key_size_ (u64 (lq_key request))) load_value)
      else Some (batch, seq, batch_size, false)
  end.

(** One turn of [while (!endflag)], from the read of [tail]; [None] while the thread
    yields and when it has left the loop. *)
Definition load_step (_ : nat) (tail : Z) (slots : list load_request) (w : loader S) : option (loader S) :=
  if ld_endflag w then None
  else if tail <=? ld_seq w then None
  else
    '(batch, seq, batch_size, endflag) ← fill_batch (Z.to_nat BATCH_SIZE) tail slots (ld_seq w) 0 batch_new;
    let db := if batch_size =? 0 then ld_db w else (db_Write (ld_db w) batch).2 in
    Some (mkLoader seq endflag db).

Definition initial_loader (db : S) : loader S := mkLoader 0 false db.

(** After the loop: the distribution of batch sizes over the processed requests; [None]
    where an index is outside its array. *)
Fixpoint batch_size_distribution (slots : list load_request) (dist : list Z) (todo : nat) (i : Z) : option (list Z) :=
  match todo with
  | O => Some dist
  | Datatypes.S todo' =>
      request ← slots !! Z.to_nat i;
      let pos := lq_batch_pos request - 1 in
      if (0 <=? pos) && (pos <? BATCH_SIZE) then
        c ← dist !! Z.to_nat pos;
        batch_size_distribution slots (<[Z.to_nat pos := i32 (c + 1)]> dist) todo' (i + 1)
      else None
  end.

(** What the thread reports: latency and rates, from [atime]; [None] also for a
    division by zero. *)
Definition load_report (slots : list load_request) (seq atime : Z) : option (Z * Z * Z) :=
  _ ← batch_size_distribution slots (replicate (Z.to_nat BATCH_SIZE) 0) (Z.to_nat seq) 0;
  if (seq =? 0) || (atime =? 0) then None
  else Some (Z.quot atime seq, Z.quot (1000000000 * seq) atime,
             Z.quot (1000000000 * 128 / 1024 / 1024 * seq) atime).
End Worker.

(** ** Workers *)

Section Correct.
Context {S B : Type} `{Batch B} `{!DB S B}.
Context (batch_inv : B -> Prop) (batch_ops : B -> list entry).
Context (db_inv : S -> Prop) (contents : S -> gmap bytes bytes).
Context `{!BatchLaws batch_inv batch_ops} `{!DBLaws batch_inv batch_ops db_inv contents}.
(** The stores accept every write (no I/O error). *)
Context (writes_succeed : forall s b, db_inv s -> batch_inv b -> (db_Write s b).1 = true).
Context (key_size_ BATCH_SIZE : Z).
Context (Hks : 8 <= key_size_ < 2 ^ 32 - 8) (HB : 0 < BATCH_SIZE < 2 ^ 32).

Definition live (r : load_request) : Prop := lq_seq r <> -1.

Definition load_put (r : load_request) : entry := (GenerateKeyFromInt key_size_ (u64 (lq_key r)), load_value).

Record linv (m0 : gmap bytes bytes) (pub : list load_request) (w : loader S) : Prop := {
  li_seq : 0 <= ld_seq w <= zlen pub;
  li_live : Forall live (take (Z.to_nat (ld_seq w)) pub);
  li_db : db_inv (ld_db w);
  li_contents : contents (ld_db w) = apply_puts (load_put <$> take (Z.to_nat (ld_seq w)) pub) m0;
  li_end : ld_endflag w = true -> exists r, pub !! Z.to_nat (ld_seq w) = Some r /\ ~ live r
}.

Lemma linv_mono m0 pub pub' w : linv m0 pub w -> pub `prefix_of` pub' -> linv m0 pub' w.
Proof.
  intros [Hs Hl Hd Hc He] Hpre. pose proof (prefix_length _ _ Hpre) as Hle. destruct Hpre as [l ->]. unfold zlen in Hs.
  assert (Et : take (Z.to_nat (ld_seq w)) (pub ++ l) = take (Z.to_nat (ld_seq w)) pub) by (apply take_app_le; lia).
  split; rewrite ?Et; [unfold zlen; lia|done..|]. intros E. destruct (He E) as (r & Hr & Hn). exists r. split; [|done].
  by apply lookup_app_l_Some.
Qed.

(** The batch gets the puts of the requests it takes, and at least one is taken unless
    the first is the end marker. *)
Lemma fill_batch_ok todo pub slots seq n b :
  pub `prefix_of` slots -> 0 <= seq <= zlen pub -> 0 <= n -> n + Z.of_nat todo < 2 ^ 32 ->
  batch_inv b -> zlen (batch_ops b) = n ->
  exists b' taken endflag,
    fill_batch key_size_ todo (zlen pub) slots seq n b = Some (b', seq + zlen taken, n + zlen taken, endflag) /\
    batch_inv b' /\ batch_ops b' = batch_ops b ++ (load_put <$> taken) /\ Forall live taken /\
    take (Z.to_nat (seq + zlen taken)) pub = take (Z.to_nat seq) pub ++ taken /\ seq + zlen taken <= zlen pub /\
    (endflag = true -> exists r, pub !! Z.to_nat (seq + zlen taken) = Some r /\ ~ live r) /\
    (seq < zlen pub -> (0 < todo)%nat -> endflag = false -> 0 < zlen taken).
Proof.
  intros Hpre. revert seq n b. induction todo as [|todo IH]; intros seq n b Hs Hn Hb Hi Ho.
  - exists b, [], false. change (zlen []) with 0. rewrite !Z.add_0_r, !app_nil_r. cbn. split_and!; first [done|lia].
  - cbn [fill_batch]. destruct (Z.ltb_spec seq (zlen pub)) as [Hlt|Hge].
    2: { exists b, [], false. change (zlen []) with 0. rewrite !Z.add_0_r, !app_nil_r. split_and!; first [done|lia]. }
    destruct (lookup_lt_is_Some_2 pub (Z.to_nat seq)) as [r Hr]; [unfold zlen in *; lia|].
    rewrite (prefix_lookup_Some _ _ _ _ Hr Hpre). cbn [mbind option_bind].
    destruct (Z.eqb_spec (lq_seq r) (-1)) as [E|E].
    { exists b, [], true. change (zlen []) with 0. rewrite !Z.add_0_r, !app_nil_r. split_and!; try done; [lia|]. intros _.
      exists r. split; [done|]. intros Hl. by apply Hl. }
    destruct (law_batch_Put b (load_put r).1 load_value Hi) as [Hi' Ho'].
    { cbn [load_put fst]. rewrite GenerateKeyFromInt_length; lia. }
    { done. }
    { rewrite Ho. lia. }
    destruct (IH (seq + 1) (n + 1) (batch_Put b (load_put r).1 load_value)) as (b' & taken & fl & E' & Hb' & Hops & Hlive & Ht & Hle & Hend & _);
      [lia|lia|lia|done|rewrite Ho'; unfold zlen in *; rewrite length_app; cbn; lia|].
    assert (Ez : zlen (r :: taken) = zlen taken + 1) by (unfold zlen; cbn; lia).
    pose proof (zlen_nonneg taken).
    exists b', (r :: taken), fl. cbn [load_put fst] in E'. rewrite E', Ez. replace (seq + 1 + zlen taken) with (seq + (zlen taken + 1)) in * by lia.
    split_and!; [do 3 f_equal; lia|done| |by constructor| |lia|done|lia].
    + rewrite Hops, Ho', <- app_assoc. done.
    + rewrite Ht. replace (Z.to_nat (seq + 1)) with (Datatypes.S (Z.to_nat seq)) by lia.
      rewrite (take_S_r _ _ _ Hr), <- app_assoc. done.
Qed.

Lemma load_step_ok m0 (q : nat) pub slots w w' :
  linv m0 pub w -> zlen pub < 2 ^ 31 -> pub `prefix_of` slots -> load_step key_size_ BATCH_SIZE q (zlen pub) slots w = Some w' ->
  linv m0 pub w' /\ ld_endflag w = false /\ (ld_seq w < ld_seq w' \/ ld_endflag w' = true) /\ ld_seq w <= ld_seq w'.
Proof.
  intros [Hs Hl Hd Hc He] Hb Hpre. unfold load_step. destruct (ld_endflag w) eqn:Ef; [done|].
  destruct (Z.leb_spec (zlen pub) (ld_seq w)); [done|]. destruct law_batch_new as [Hn En].
  destruct (fill_batch_ok (Z.to_nat BATCH_SIZE) pub slots (ld_seq w) 0 batch_new Hpre Hs) as
    (b & taken & fl & -> & Hi & Ho & Hlive & Ht & Hle & Hend & Hprog); [lia|lia|done|by rewrite En|].
  cbn [mbind option_bind]. intros [= <-]. cbn [ld_seq ld_endflag ld_db]. pose proof (zlen_nonneg taken) as Hz.
  assert (Hdb : db_inv (if 0 + zlen taken =? 0 then ld_db w else (db_Write (ld_db w) b).2) /\
    contents (if 0 + zlen taken =? 0 then ld_db w else (db_Write (ld_db w) b).2) = apply_puts (load_put <$> taken) (contents (ld_db w))).
  { destruct (Z.eqb_spec (0 + zlen taken) 0) as [E|E].
    - assert (taken = []) as -> by (destruct taken; [done|unfold zlen in E; cbn in E; lia]). done.
    - destruct (law_Write (ld_db w) b Hd Hi (writes_succeed _ _ Hd Hi)) as [Hd' Hc']. split; [done|]. by rewrite Hc', Ho, En. }
  destruct Hdb as [Hd' Hc']. split_and!; [|done| |lia].
  - split; cbn [ld_seq ld_endflag ld_db]; [lia| |done| |done].
    + rewrite Ht. by apply Forall_app.
    + rewrite Hc', Hc, Ht, fmap_app, apply_puts_app. done.
  - destruct fl; [by right|left]. specialize (Hprog ltac:(lia) ltac:(lia) eq_refl). lia.
Qed.

Lemma initial_linv db : db_inv db -> linv (contents db) [] (initial_loader db).
Proof. intros Hd. by split. Qed.
End Correct.

(** ** What the main thread has posted *)

Section Sent.
Context (QUEUE_NUM : Z) (HQ : 0 < QUEUE_NUM < 2 ^ 31).

Abbreviation sent := (sent load_request_default).

(** The posts for given keys. *)
Fixpoint load_from (i : Z) (keys : list Z) : list (@post load_request) :=
  match keys with
  | [] => []
  | key :: keys' => (Z.to_nat (i32 (key mod QUEUE_NUM)), set_load i key) :: load_from (i + 1) keys'
  end.

Lemma load_loop_keys n i g keys g' : KeyGenerator_take n g = Some (keys, g') -> load_loop QUEUE_NUM n i g = Some (load_from i keys).
Proof.
  revert i g keys. induction n as [|n IH]; intros i g keys; cbn; [by intros [= <- <-]|].
  destruct (KeyGenerator_Next g) as [[k g1]|]; [|done]. cbn. destruct (KeyGenerator_take n g1) as [[ks g2]|] eqn:E; [|done].
  cbn. intros [= <- <-]. by rewrite (IH (i + 1) g1 ks E).
Qed.

Lemma queue_of key : Z.to_nat (i32 (key mod QUEUE_NUM)) = Z.to_nat (key mod QUEUE_NUM).
Proof. pose proof (Z.mod_pos_bound key QUEUE_NUM). by rewrite i32_small by lia. Qed.

Lemma load_from_queues i keys : Forall (fun p : post => (p.1 < Z.to_nat QUEUE_NUM)%nat) (load_from i keys).
Proof.
  revert i. induction keys as [|k keys IH]; intros i; constructor; [|apply IH]. cbn [fst]. rewrite queue_of.
  pose proof (Z.mod_pos_bound k QUEUE_NUM). lia.
Qed.

Lemma load_from_cons i k keys :
  load_from i (k :: keys) = ([(Z.to_nat (i32 (k mod QUEUE_NUM)), set_load i k)] : list post) ++ load_from (i + 1) keys.
Proof. done. Qed.

(** A queue gets the keys of its residue, in order, in live requests. *)
Lemma sent_load q i keys : Forall (fun k => 0 <= k < 2 ^ 31) keys -> 0 <= i ->
  lq_key <$> sent (load_from i keys) q = filter (fun k => k mod QUEUE_NUM = Z.of_nat q) keys /\ Forall live (sent (load_from i keys) q).
Proof.
  intros Hk. revert i. induction Hk as [|k keys Hk _ IH]; intros i Hi; [done|].
  rewrite load_from_cons, sent_app, sent_one, filter_cons, queue_of. destruct (IH (i + 1) ltac:(lia)) as [IH1 IH2].
  pose proof (Z.mod_pos_bound k QUEUE_NUM ltac:(lia)). rewrite fmap_app, IH1, Forall_app.
  destruct (decide (Z.to_nat (k mod QUEUE_NUM) = q)) as [E|E], (decide (k mod QUEUE_NUM = Z.of_nat q)) as [E'|E']; try lia.
  - cbn. rewrite i32_small by lia. split; [done|]. split; [|done]. repeat constructor. unfold live. cbn. lia.
  - done.
Qed.

(** The number of keys of a residue. *)
Lemma residue_count T q : 0 <= T ->
  Z.of_nat (length (filter (fun k => k mod QUEUE_NUM = q) (seqZ 0 T))) <= T / QUEUE_NUM + 1.
Proof.
  intros HT. set (l := filter _ _). assert (Hnd : NoDup l) by apply NoDup_filter, NoDup_seqZ.
  assert (Hnd' : NoDup ((fun k => k / QUEUE_NUM) <$> l)).
  { apply NoDup_fmap_2_strong; [|done]. intros x y Hx Hy Exy. apply list_elem_of_filter in Hx as [Hx _], Hy as [Hy _].
    rewrite (Z.div_mod x QUEUE_NUM), (Z.div_mod y QUEUE_NUM), Exy, Hx, Hy by lia. done. }
  assert (Hle : (length ((fun k => (k / QUEUE_NUM)%Z) <$> l) <= length (seqZ 0 (T / QUEUE_NUM + 1)%Z))%nat).
  { apply NoDup_incl_length; [by apply NoDup_ListNoDup|]. intros x Hx. apply list_elem_of_In in Hx. apply list_elem_of_In.
    apply list_elem_of_fmap in Hx as (k & -> & Hk). apply list_elem_of_filter in Hk as [_ Hk]. apply elem_of_seqZ in Hk.
    apply elem_of_seqZ. split; [apply Z.div_pos; lia|]. pose proof (Z.div_le_mono k T QUEUE_NUM). lia. }
  rewrite length_fmap, length_seqZ in Hle. pose proof (Z.div_pos T QUEUE_NUM). lia.
Qed.
End Sent.

(** Puts of one value under different keys. *)
Lemma apply_puts_same {A} `{!EqDecision A} (f : A -> bytes) (value : bytes) (ks : list A) (m : gmap bytes bytes) v :
  (forall k, k ∈ ks -> f k = f v -> k = v) ->
  apply_puts ((fun k => (f k, value)) <$> ks) m !! f v = if decide (v ∈ ks) then Some value else m !! f v.
Proof.
  revert m. induction ks as [|k ks IH]; intros m Hinj; [done|]. rewrite fmap_cons.
  change (apply_puts ((f k, value) :: ((fun k => (f k, value)) <$> ks)) m) with (apply_puts ((fun k => (f k, value)) <$> ks) (<[f k := value]> m)).
  rewrite IH by (intros; apply Hinj; [by right|done]). destruct (decide (v ∈ ks)) as [Hin|Hnin].
  - rewrite decide_True; [done|by right].
  - destruct (decide (k = v)) as [->|Hne].
    + rewrite lookup_insert_eq, decide_True; [done|by left].
    + rewrite lookup_insert_ne, decide_False; [done| |].
      * intros Hin. apply elem_of_cons in Hin as [->|]; done.
      * intros E. apply Hne, Hinj; [by left|done].
Qed.

(** ** The whole program *)

Section System.
Context {S B : Type} `{Batch B} `{!DB S B}.
Context (batch_inv : B -> Prop) (batch_ops : B -> list entry).
Context (db_inv : S -> Prop) (contents : S -> gmap bytes bytes).
Context `{!BatchLaws batch_inv batch_ops} `{!DBLaws batch_inv batch_ops db_inv contents}.
Context (writes_succeed : forall s b, db_inv s -> batch_inv b -> (db_Write s b).1 = true).
Context (key_size_ BATCH_SIZE QUEUE_NUM TOTAL_NUM : Z).
Context (Hks : 8 <= key_size_ < 2 ^ 32 - 8) (HB : 0 < BATCH_SIZE < 2 ^ 32) (HQ : 0 < QUEUE_NUM < 2 ^ 31).
Context (HT : 10 <= TOTAL_NUM) (Hslots : load_slots QUEUE_NUM TOTAL_NUM < 2 ^ 31) (HT31 : TOTAL_NUM < 2 ^ 31).
Context (dbs : list S) (Hdbs : zlen dbs = QUEUE_NUM) (Hopen : Forall db_inv dbs).
(** [std::shuffle] permutes. *)
Context (shuffle : list Z -> mt_state -> list Z) (Hshuffle : forall l rng, shuffle l rng ≡ₚ l).
Context (SEED : Z) (rand : mt_state) (mode : WriteMode) (Hmode : mode <> RANDOM).

Abbreviation keygen := (KeyGenerator_new shuffle SEED rand mode TOTAL_NUM).
Abbreviation sent := (sent load_request_default).
Abbreviation cap := (Z.to_nat (load_slots QUEUE_NUM TOTAL_NUM)).
Abbreviation n := (Z.to_nat QUEUE_NUM).

Definition loader_step : system -> system -> Prop := step (load_step (S := S) (B := B) key_size_ BATCH_SIZE).

Definition loader_start (posts : list post) : system :=
  initial load_request_default cap n posts (initial_loader <$> dbs).

Definition loader_inv (q : nat) (pub : list load_request) (w : loader S) : Prop :=
  exists db, dbs !! q = Some db /\ linv db_inv contents key_size_ (contents db) pub w.

(** What is posted: every key once, then the end markers. *)
Lemma load_posts_ok : exists keys, keys ≡ₚ seqZ 0 TOTAL_NUM /\
  load_posts QUEUE_NUM TOTAL_NUM keygen = Some (load_from QUEUE_NUM 0 keys ++ ((fun i => (i, set_load_end)) <$> seq 0 n)).
Proof.
  destruct (KeyGenerator_take_all shuffle SEED rand mode TOTAL_NUM Hshuffle ltac:(lia) Hmode) as (keys & g & E & Hp & _).
  exists keys. split; [done|]. unfold load_posts. by rewrite (load_loop_keys QUEUE_NUM _ 0 _ keys g E).
Qed.

Section Posted.
Context (keys : list Z) (Hkeys : keys ≡ₚ seqZ 0 TOTAL_NUM).
Abbreviation posts := (load_from QUEUE_NUM 0 keys ++ ((fun i => (i, set_load_end)) <$> seq 0 n)).

Lemma keys_range : Forall (fun k => 0 <= k < 2 ^ 31) keys.
Proof. apply Forall_forall. intros k Hk. rewrite Hkeys in Hk. apply elem_of_seqZ in Hk. lia. Qed.

Lemma sent_posts q : (q < n)%nat -> sent posts q = sent (load_from QUEUE_NUM 0 keys) q ++ [set_load_end load_request_default].
Proof. intros Hq. by rewrite sent_app, sent_all_queues. Qed.

Lemma posts_queues : Forall (fun p : post => (p.1 < n)%nat) posts.
Proof.
  apply Forall_app. split; [by apply load_from_queues|]. apply Forall_fmap, Forall_forall. intros i Hi.
  apply elem_of_seq in Hi. cbn. lia.
Qed.

(** The arrays are large enough. *)
Lemma load_posts_fit : posts_fit load_request_default cap n posts.
Proof.
  split; [apply posts_queues|]. intros q. destruct (decide (q < n)%nat) as [Hq|Hq].
  - rewrite sent_posts, length_app by done. cbn [length]. destruct (sent_load QUEUE_NUM HQ q 0 keys keys_range ltac:(lia)) as [E _].
    apply (f_equal length) in E. rewrite length_fmap in E. rewrite E.
    assert (Hp : filter (fun k => k mod QUEUE_NUM = Z.of_nat q) keys ≡ₚ filter (fun k => k mod QUEUE_NUM = Z.of_nat q) (seqZ 0 TOTAL_NUM))
      by (by rewrite Hkeys).
    rewrite (Permutation_length Hp). pose proof (residue_count QUEUE_NUM HQ TOTAL_NUM (Z.of_nat q) ltac:(lia)).
    pose proof (Z.div_le_mono 10 TOTAL_NUM 10 ltac:(lia) HT). change (10 / 10) with 1 in *. unfold load_slots.
    pose proof (Z.div_pos TOTAL_NUM QUEUE_NUM). lia.
  - unfold Queue.sent. rewrite filter_none; [cbn; lia|]. intros p Hp E. pose proof posts_queues as Hall.
    rewrite Forall_forall in Hall. specialize (Hall p Hp). lia.
Qed.

Lemma cap_bound : Z.of_nat cap < 2 ^ 31.
Proof. unfold load_slots in *. pose proof (Z.div_pos TOTAL_NUM QUEUE_NUM). pose proof (Z.div_pos TOTAL_NUM 10). lia. Qed.

Lemma loader_inv_mono q pub pub' w : loader_inv q pub w -> pub `prefix_of` pub' -> loader_inv q pub' w.
Proof. intros (db & Hdb & Hw) Hpre. exists db. split; [done|]. by eapply linv_mono. Qed.

Lemma loader_inv_step q pub slots w w' : loader_inv q pub w -> zlen pub < 2 ^ 31 -> pub `prefix_of` slots ->
  load_step (B := B) key_size_ BATCH_SIZE q (zlen pub) slots w = Some w' -> loader_inv q pub w'.
Proof.
  intros (db & Hdb & Hw) Hb Hpre E. exists db. split; [done|].
  by destruct (load_step_ok batch_inv batch_ops db_inv contents writes_succeed key_size_ BATCH_SIZE Hks HB _ q pub slots w w' Hw Hb Hpre E) as [? _].
Qed.

Lemma loader_inv_initial q w : (initial_loader <$> dbs) !! q = Some w -> loader_inv q [] w.
Proof.
  rewrite list_lookup_fmap. destruct (dbs !! q) as [db|] eqn:Hdb; [|done]. cbn. intros [= <-].
  exists db. split; [done|]. apply initial_linv. by eapply Forall_lookup_1.
Qed.

Lemma loaders_length : length (initial_loader <$> dbs) = n.
Proof. rewrite length_fmap. unfold zlen in Hdbs. lia. Qed.

Lemma loader_reach st : rtc loader_step (loader_start posts) st ->
  exists done_, system_inv load_request_default cap n loader_inv posts st done_.
Proof.
  intros Hr. eapply system_inv_reachable; [apply loader_inv_mono|apply loader_inv_step|apply cap_bound|apply load_posts_fit|
    apply loaders_length|apply loader_inv_initial|exact Hr].
Qed.

(** A worker that has left its loop has written the keys of its residue. *)
Lemma loaded st q w db : rtc loader_step (loader_start posts) st -> workers st !! q = Some w -> ld_endflag w = true -> dbs !! q = Some db ->
  (q < n)%nat /\ contents (ld_db w)
  = apply_puts ((fun k => (GenerateKeyFromInt key_size_ k, load_value)) <$> filter (fun k => k mod QUEUE_NUM = Z.of_nat q) keys) (contents db).
Proof.
  intros Hr Hw He Hdb. destruct (loader_reach st Hr) as (done_ & Hm & Hn & Hinv).
  destruct (Hinv q w Hw) as (db' & Hdb' & [Hs Hl _ Hc Hend]). simplify_eq.
  assert (Hq : (q < n)%nat) by (rewrite <- Hn; by eapply lookup_lt_Some). split; [done|].
  destruct (Hend He) as (r & Hr' & Hnl). destruct (sent_load QUEUE_NUM HQ q 0 keys keys_range ltac:(lia)) as [Ek Hlive].
  pose proof (sent_mono load_request_default _ _ q (main_inv_done _ _ _ _ _ _ _ Hm)) as Hpre. rewrite sent_posts in Hpre by done.
  rewrite Hc, (taken_all live _ _ _ _ r Hpre Hlive Hr' Hnl), <- Ek. f_equal. rewrite <- list_fmap_compose.
  apply list_fmap_ext. intros i r' Hi. unfold load_put. cbn [compose]. rewrite u64_small; [done|].
  assert (Hk : lq_key r' ∈ filter (fun k => k mod QUEUE_NUM = Z.of_nat q) keys).
  { rewrite <- Ek. apply list_elem_of_fmap. exists r'. split; [done|]. by eapply list_elem_of_lookup_2. }
  apply list_elem_of_filter in Hk as [_ Hk]. pose proof keys_range as Hkr. rewrite Forall_forall in Hkr. specialize (Hkr _ Hk). lia.
Qed.

(** *** How long it runs *)

Definition load_left (q : nat) (w : loader S) : nat :=
  length (sent posts q) - Z.to_nat (ld_seq w) + (if ld_endflag w then 0 else 1).

Lemma step_load_left q pub slots w w' :
  (q < n)%nat -> loader_inv q pub w -> pub `prefix_of` sent posts q -> pub `prefix_of` slots ->
  zlen pub < 2 ^ 31 -> load_step (B := B) key_size_ BATCH_SIZE q (zlen pub) slots w = Some w' -> (load_left q w' < load_left q w)%nat.
Proof.
  intros Hq (db & Hdb & Hw) Hpre Hpre' Hb E. apply prefix_length in Hpre.
  destruct (load_step_ok batch_inv batch_ops db_inv contents writes_succeed key_size_ BATCH_SIZE Hks HB _ q pub slots w w' Hw Hb Hpre' E)
    as (Hw' & Ef & Hprog & Hle).
  pose proof (li_seq _ _ _ _ _ _ Hw). pose proof (li_seq _ _ _ _ _ _ Hw') as Hs'. unfold zlen in *. unfold load_left. rewrite Ef.
  destruct Hprog as [Hlt|Et]; [destruct (ld_endflag w'); lia|]. rewrite Et. lia.
Qed.

Lemma loader_measure : measure load_left (loader_start posts) = (3 * length posts + n)%nat.
Proof.
  unfold measure, loader_start, initial. cbn [main workers]. rewrite actions_length.
  rewrite (workers_measure_sum load_left 0 _ (fun q => length (sent posts q) + 1)%nat).
  - rewrite loaders_length, sum_list_plus, sent_total, sum_list_ones by (apply posts_queues). lia.
  - intros i w Hi. rewrite list_lookup_fmap in Hi. destruct (dbs !! i); [|done]. cbn in Hi. injection Hi as <-.
    unfold load_left. cbn. lia.
Qed.

(** A worker that cannot move although its end marker is there has left its loop. *)
Lemma stuck_loaded q w slots : (q < n)%nat -> loader_inv q (sent posts q) w -> sent posts q `prefix_of` slots ->
  zlen (sent posts q) < 2 ^ 31 ->
  load_step (B := B) key_size_ BATCH_SIZE q (zlen (sent posts q)) slots w = None -> ld_endflag w = true.
Proof.
  intros Hq (db & Hdb & [Hs Hl _ _ _]) Hpre Hb. unfold load_step. destruct (ld_endflag w); [done|].
  destruct (Z.leb_spec (zlen (sent posts q)) (ld_seq w)) as [Hge|Hlt].
  - exfalso. assert (E : ld_seq w = zlen (sent posts q)) by lia. rewrite E in Hl. unfold zlen in Hl.
    rewrite Nat2Z.id, firstn_all, sent_posts in Hl by done. apply Forall_app in Hl as [_ Hl]. apply Forall_inv in Hl. by apply Hl.
  - destruct law_batch_new as [Hn En].
    destruct (fill_batch_ok batch_inv batch_ops key_size_ Hks (Z.to_nat BATCH_SIZE) (sent posts q) slots (ld_seq w) 0 batch_new Hpre Hs)
      as (b & taken & fl & -> & _); [lia|lia|done|by rewrite En|done].
Qed.

Lemma loader_ends k st : nsteps loader_step k (loader_start posts) st ->
  (k <= 3 * length posts + n)%nat /\
  (~ (exists st', loader_step st st') -> main st = [] /\ length (workers st) = n /\ Forall (fun w => ld_endflag w = true) (workers st)).
Proof.
  intros Hk. destruct (loader_reach st) as (done_ & Hinv); [apply rtc_nsteps; eauto|]. split.
  - pose proof loader_measure as Em.
    enough (k + measure load_left st <= 3 * length posts + n)%nat by lia.
    rewrite <- Em. eapply run_bounded; [apply loader_inv_mono|apply loader_inv_step|apply cap_bound|apply load_posts_fit|
      apply loaders_length|apply loader_inv_initial|apply step_load_left|exact Hk].
  - intros Hstuck. destruct (system_stuck _ _ _ _ _ _ _ _ cap_bound load_posts_fit Hinv Hstuck) as [Hmain Hw].
    destruct Hinv as (_ & Hn & _). split_and!; [done|done|].
    apply Forall_lookup. intros q w Hq. destruct (Hw q w Hq) as (Hqi & slots & Hpre & E).
    eapply stuck_loaded; [|done|done| |done].
    + rewrite <- Hn. by eapply lookup_lt_Some.
    + destruct load_posts_fit as [_ Hl]. specialize (Hl q). pose proof cap_bound. unfold zlen. lia.
Qed.
End Posted.

(** *** Theorems *)

(** C25. The loader loads every key once, into the store of its residue: whatever the
    interleaving of the threads and the sizes of the batches, a worker that has left
    its loop has put exactly the keys below [TOTAL_NUM] that are its number modulo
    [QUEUE_NUM], and changed nothing else; for the sequential and for the shuffled
    order of the keys. *)
Theorem loader_loads posts st q w db v :
  load_posts QUEUE_NUM TOTAL_NUM keygen = Some posts -> rtc loader_step (loader_start posts) st ->
  workers st !! q = Some w -> ld_endflag w = true -> dbs !! q = Some db -> 0 <= v < 2 ^ 64 ->
  contents (ld_db w) !! GenerateKeyFromInt key_size_ v
  = if decide (v < TOTAL_NUM /\ v mod QUEUE_NUM = Z.of_nat q) then Some load_value
    else contents db !! GenerateKeyFromInt key_size_ v.
Proof.
  intros Ep Hr Hw He Hdb Hv. destruct load_posts_ok as (keys & Hkeys & E). rewrite Ep in E. injection E as ->.
  destruct (loaded keys Hkeys st q w db Hr Hw He Hdb) as [Hq ->]. rewrite apply_puts_same.
  - assert (Hin : v ∈ filter (fun k => k mod QUEUE_NUM = Z.of_nat q) keys <-> v < TOTAL_NUM /\ v mod QUEUE_NUM = Z.of_nat q).
    { rewrite list_elem_of_filter, Hkeys, elem_of_seqZ. lia. }
    destruct (decide (v ∈ _)) as [H1|H1], (decide (v < TOTAL_NUM /\ _)) as [H2|H2]; tauto.
  - intros k Hk. apply list_elem_of_filter in Hk as [_ Hk]. pose proof (keys_range keys Hkeys) as Hkr. rewrite Forall_forall in Hkr.
    specialize (Hkr k Hk). apply GenerateKeyFromInt_inj; lia.
Qed.

(** C26. The loader ends: the generator never fails its assertion, no slot outside an
    array is written, a run has at most three steps per post and one per worker (turns
    in which a thread yields not counted), and a run that cannot go on has posted
    everything and all workers have left their loops. *)
Theorem loader_terminates :
  exists posts, load_posts QUEUE_NUM TOTAL_NUM keygen = Some posts /\
    Z.of_nat (length posts) = TOTAL_NUM + QUEUE_NUM /\
    forall k st, nsteps loader_step k (loader_start posts) st ->
      (k <= 3 * length posts + n)%nat /\
      (~ (exists st', loader_step st st') -> main st = [] /\ length (workers st) = n /\ Forall (fun w => ld_endflag w = true) (workers st)).
Proof.
  destruct load_posts_ok as (keys & Hkeys & E). eexists. split; [exact E|]. split; [|by apply loader_ends].
  rewrite length_app, length_fmap, length_seq. assert (El : forall i, length (load_from QUEUE_NUM i keys) = length keys).
  { clear. induction keys as [|k ks IH]; intros i; [done|]. cbn. by rewrite IH. }
  rewrite El, (Permutation_length Hkeys), length_seqZ. lia.
Qed.
End System.

(** ** A run

    Two queues and eleven keys. *)

Definition demo_load_start (posts : list post) : system (W := loader (gmap bytes bytes)) := loader_start 2 11 [∅; ∅] posts.

Definition demo_load_posts : list (@post load_request) :=
  default [] (load_posts 2 11 (KeyGenerator_new (fun l _ => l) 14664 [] SEQUENTIAL 11)).

Definition demo_load_turns : list (option nat) :=
  mjoin (replicate 8 [None; None]) ++ [Some 0; Some 1]%nat ++ mjoin (replicate 5 [None; None]) ++ [Some 0; Some 1; Some 0]%nat.

Definition demo_load_end : system (W := loader (gmap bytes bytes)) :=
  default (demo_load_start []) (exec_schedule (load_step (B := list entry) 8 3) demo_load_turns (demo_load_start demo_load_posts)).

Definition demo_loader (q : nat) : loader (gmap bytes bytes) := default (initial_loader ∅) (workers demo_load_end !! q).

Lemma demo_load_nsteps : nsteps (loader_step (B := list entry) 8 3) 31 (demo_load_start demo_load_posts) demo_load_end.
Proof.
  apply (exec_schedule_nsteps (load_step 8 3) demo_load_turns). unfold demo_load_end.
  assert (E : bool_decide (is_Some (exec_schedule (load_step (B := list entry) 8 3) demo_load_turns (demo_load_start demo_load_posts))) = true)
    by (vm_compute; reflexivity).
  apply bool_decide_eq_true in E as [st ->]. done.
Qed.

Lemma demo_load_succeed (s : gmap bytes bytes) (b : list entry) : True -> True -> (db_Write s b).1 = true.
Proof. done. Qed.

Lemma loader_loads_witness :
  ld_db (demo_loader 1) !! GenerateKeyFromInt 8 9 = Some load_value /\ ld_db (demo_loader 1) !! GenerateKeyFromInt 8 8 = None.
Proof.
  assert (Hr : rtc (loader_step (B := list entry) 8 3) (demo_load_start demo_load_posts) demo_load_end)
    by (apply rtc_nsteps; eexists; exact demo_load_nsteps).
  assert (Hload : forall v, 0 <= v < 2 ^ 64 -> ld_db (demo_loader 1) !! GenerateKeyFromInt 8 v
    = if decide (v < 11 /\ v mod 2 = Z.of_nat 1) then Some load_value else (∅ : gmap bytes bytes) !! GenerateKeyFromInt 8 v).
  { intros v Hv. refine (loader_loads (B := list entry) (fun _ => True) (fun b => b) (fun _ => True) (fun s => s) demo_load_succeed 8 3 2 11
      _ _ _ _ _ _ [∅; ∅] _ _ (fun l _ => l) _ 14664 [] SEQUENTIAL _ demo_load_posts demo_load_end 1 (demo_loader 1) ∅ v _ Hr _ _ _ Hv);
      first [lia|vm_compute; reflexivity|by repeat constructor|done]. }
  split; rewrite Hload by lia; reflexivity.
Defined.

Lemma loader_terminates_witness :
  exists posts, load_posts 2 11 (KeyGenerator_new (fun l _ => rev l) 14664 [] UNIQUE_RANDOM 11) = Some posts /\
    Z.of_nat (length posts) = 13.
Proof.
  destruct (loader_terminates (S := gmap bytes bytes) (B := list entry) (fun _ => True) (fun b => b) (fun _ => True) (fun s => s) demo_load_succeed 8 3 2 11
    ltac:(lia) ltac:(lia) ltac:(lia) ltac:(lia) ltac:(done) ltac:(lia) [∅; ∅] ltac:(done) ltac:(by repeat constructor) (fun l _ => rev l)
    ltac:(intros l rng; symmetry; apply Permutation_rev) 14664 [] UNIQUE_RANDOM ltac:(done)) as (posts & E & Hl & _).
  exists posts. split; [exact E|exact Hl].
Defined.

(** *** The report

    [batch_pos] is never stored to: the assignment is commented out. The first entry of
    the distribution is outside the array for every processed request, and a thread
    without requests divides by their number. *)
Lemma load_report_undefined BATCH_SIZE slots seq atime :
  0 <= seq -> Forall (fun r => lq_batch_pos r = 0) slots -> load_report BATCH_SIZE slots seq atime = None.
Proof.
  intros Hs Hp. unfold load_report. destruct (Z.eq_dec seq 0) as [->|Hne]; [done|].
  destruct (Z.to_nat seq) as [|m] eqn:E; [lia|]. cbn [batch_size_distribution].
  destruct (slots !! Z.to_nat 0) as [r|] eqn:Er; [|done]. cbn [mbind option_bind].
  rewrite Forall_lookup in Hp. by rewrite (Hp _ _ Er).
Qed.
