(* ===== verification/ReadTest.v ===== *)
(** * read_test.cpp: point reads over the stores

    The main thread shares out random keys over the request queues as long as the
    merging iterator over all stores is valid; the worker of each queue gathers
    [BATCH_SIZE] keys for a [MultiGet] and counts what it finds. The macros
    ([QUEUE_NUM], [READ_NUM], [BATCH_SIZE], [key_size_]) are arguments; [SEQ_READ] is not
    defined, as in the source. *)

From S2P Require Import Prelude Comparator Random KeyGen Iterator MergeIter KVStore Queue Ycsb.

(** ** Requests *)

Inductive REQUEST_TYPE := RT_WRITE | RT_READ | RT_SCAN.

Record read_request := mkRead { rr_seq : Z; rr_key : Z; rr_type : REQUEST_TYPE }.

Definition read_request_default : read_request := mkRead 0 0 RT_WRITE.

Definition set_point_read (i key : Z) (r : read_request) : read_request := mkRead i key RT_READ.

Definition set_read_end (r : read_request) : read_request := mkRead (-1) (-1) (rr_type r).

(** ** The main thread *)

Section Main.
Context {S B : Type} `{!DB S B}.

(** [iters], [merge_iter] and [merge_iter->SeekToFirst()]. *)
Definition open_merge_iter (dbs : list S) : option (@MergingIterator ListIter) :=
  let iters : list ListIter := (fun db => mkListIter (db_NewIterator (B := B) db) None) <$> dbs in
  m ← @MergingIterator_new ListIter (list_iterator BytewiseCompare) BytewiseCompare iters;
  @merging_SeekToFirst ListIter (list_iterator BytewiseCompare) BytewiseCompare m.

(** The loop [for (i = 0; i < READ_NUM && merge_iter->Valid(); i++)], from [i] on. The
    key is stored in an [int]; a negative one has no queue. *)
Fixpoint post_reads (QUEUE_NUM : Z) (merge_iter : @MergingIterator ListIter) (todo : nat) (i : Z) (keygen : KeyGenerator)
  : option (list (@post read_request)) :=
  match todo with
  | O => Some []
  | Datatypes.S todo' =>
      if merging_Valid merge_iter then
        '(next, keygen') ← KeyGenerator_Next keygen;
        let key := i32 next in
        let q_num := Z.rem key QUEUE_NUM in
        if q_num <? 0 then None
        else
          rest ← post_reads QUEUE_NUM merge_iter todo' (i + 1) keygen';
          Some ((Z.to_nat q_num, set_point_read i key) :: rest)
      else Some []
  end.

Definition read_posts (QUEUE_NUM READ_NUM : Z) (dbs : list S) (keygen : KeyGenerator) : option (list (@post read_request)) :=
  merge_iter ← open_merge_iter dbs;
  posts ← post_reads QUEUE_NUM merge_iter (Z.to_nat READ_NUM) 0 keygen;
  Some (posts ++ ((fun i => (i, set_read_end)) <$> seq 0 (Z.to_nat QUEUE_NUM))).
End Main.

(** ** The worker *)

Record reader := mkReader {
  rd_seq : Z;
  rd_endflag : bool;
  rd_keys : list key_slice;
  rd_key : bytes;
  rd_found : Z
}.

Section Worker.
Context {S B : Type} `{!DB S B}.
Context (key_size_ BATCH_SIZE : Z) (dbs : list S).

Definition initial_reader : reader := mkReader 0 false [] (replicate (Z.to_nat key_size_) 0) 0.

(** The bytes a slice points to when the store reads it. *)
Definition slice_bytes (key : bytes) (s : key_slice) : bytes := match s with KeyArray => key end.

(** A request that is not the end marker: the key goes to the key array, a slice of the
    array to [keys], and a full vector to [MultiGet]. *)
Definition read_one (db : S) (request : read_request) (w : reader) : reader :=
  let key := GenerateKeyFromInt key_size_ (u64 (rr_key request)) in
  let keys := rd_keys w ++ [KeyArray] in
  if zlen keys =? BATCH_SIZE then
    let ss := db_MultiGet (B := B) db (slice_bytes key <$> keys) in
    mkReader (rd_seq w + 1) false [] key (i32 (rd_found w + zlen (filter is_Some ss)))
  else mkReader (rd_seq w + 1) false keys key (rd_found w).

(** One turn of [while (!endflag)]; [None] while the thread sleeps and when it has left
    the loop. *)
Definition read_step (q : nat) (tail : Z) (slots : list read_request) (w : reader) : option reader :=
  if rd_endflag w then None
  else if tail <=? rd_seq w then None
  else
    db ← dbs !! q;
    request ← slots !! Z.to_nat (rd_seq w);
    if rr_seq request =? -1 then Some (mkReader (rd_seq w) true (rd_keys w) (rd_key w) (rd_found w))
    else Some (read_one db request w).
End Worker.

(** ** Workers *)

Section Correct.
Context {S B : Type} `{Batch B} `{!DB S B}.
Context (batch_inv : B -> Prop) (batch_ops : B -> list entry).
Context (db_inv : S -> Prop) (contents : S -> gmap bytes bytes).
Context `{!DBLaws batch_inv batch_ops db_inv contents}.
Context (key_size_ BATCH_SIZE : Z) (Hks : 8 <= key_size_ < 2 ^ 32 - 8) (HB : 0 < BATCH_SIZE).

Abbreviation batch := (Z.to_nat BATCH_SIZE).

Definition live_read (r : read_request) : Prop := rr_seq r <> -1.

(** The key of request [i] is in the store. *)
Definition key_present (m : gmap bytes bytes) (reqs : list read_request) (i : nat) : Prop :=
  match reqs !! i with Some r => is_Some (m !! GenerateKeyFromInt key_size_ (u64 (rr_key r))) | None => False end.

#[global] Instance key_present_dec m reqs i : Decision (key_present m reqs i).
Proof. unfold key_present. destruct (reqs !! i); apply _. Defined.

(** The complete groups of [BATCH_SIZE] among [k] requests whose last key is present. *)
Definition groups_found (m : gmap bytes bytes) (reqs : list read_request) (k : nat) : nat :=
  length (filter (fun j => key_present m reqs (j * batch + (batch - 1))) (seq 0 (k / batch))).

Record rdinv (m : gmap bytes bytes) (pub : list read_request) (w : reader) : Prop := {
  ri_seq : 0 <= rd_seq w <= zlen pub;
  ri_live : Forall live_read (take (Z.to_nat (rd_seq w)) pub);
  ri_keys : length (rd_keys w) = (Z.to_nat (rd_seq w) mod batch)%nat;
  ri_found : rd_found w = Z.of_nat (batch * groups_found m pub (Z.to_nat (rd_seq w)));
  ri_end : rd_endflag w = true -> exists r, pub !! Z.to_nat (rd_seq w) = Some r /\ ~ live_read r
}.

Lemma key_present_prefix m pub pub' i : pub `prefix_of` pub' -> (i < length pub)%nat -> key_present m pub' i <-> key_present m pub i.
Proof. intros [l ->] Hi. unfold key_present. by rewrite lookup_app_l. Qed.

Lemma filter_seq_iff (P Q : nat -> Prop) `{!forall x, Decision (P x)} `{!forall x, Decision (Q x)} k :
  (forall j, (j < k)%nat -> P j <-> Q j) -> filter P (seq 0 k) = filter Q (seq 0 k).
Proof.
  intros HPQ. assert (G : forall l : list nat, (forall j, j ∈ l -> P j <-> Q j) -> filter P l = filter Q l).
  { induction l as [|j l IH]; intros Hl; [done|]. rewrite !filter_cons, IH by (intros; apply Hl; by right).
    specialize (Hl j ltac:(by left)). destruct (decide (P j)), (decide (Q j)); tauto. }
  apply G. intros j Hj. apply elem_of_seq in Hj. apply HPQ. lia.
Qed.

Lemma group_index j k : (0 < batch)%nat -> (j < k / batch)%nat -> (j * batch + (batch - 1) < k)%nat.
Proof. intros Hb Hj. pose proof (Nat.mul_div_le k batch). nia. Qed.

Lemma groups_found_prefix m pub pub' k : pub `prefix_of` pub' -> (k <= length pub)%nat -> groups_found m pub' k = groups_found m pub k.
Proof.
  intros Hpre Hk. unfold groups_found. f_equal. apply filter_seq_iff. intros j Hj. apply key_present_prefix; [done|].
  pose proof (group_index j k ltac:(lia) Hj). lia.
Qed.

Lemma groups_found_bound m pub k : (batch * groups_found m pub k <= k)%nat.
Proof.
  unfold groups_found. pose proof (length_filter (fun j => key_present m pub (j * batch + (batch - 1))) (seq 0 (k / batch))) as Hl.
  rewrite length_seq in Hl. pose proof (Nat.mul_div_le k batch). nia.
Qed.

(** One request more: a group is complete or it is not. *)
Lemma groups_found_next m pub k :
  ((k mod batch + 1 = batch)%nat -> ((k + 1) mod batch = 0)%nat /\
     groups_found m pub (k + 1) = (groups_found m pub k + (if decide (key_present m pub k) then 1 else 0))%nat) /\
  ((k mod batch + 1 <> batch)%nat -> ((k + 1) mod batch = k mod batch + 1)%nat /\ groups_found m pub (k + 1) = groups_found m pub k).
Proof.
  pose proof (Nat.div_mod_eq k batch) as Ek. pose proof (Nat.mod_upper_bound k batch ltac:(lia)) as Hlt. split; intros E.
  - assert (Ed : ((k + 1) / batch = k / batch + 1)%nat) by (symmetry; apply (Nat.div_unique _ _ _ 0%nat); lia).
    split; [symmetry; apply (Nat.mod_unique _ _ (k / batch + 1)%nat); lia|]. unfold groups_found. rewrite Ed, seq_app, filter_app, length_app. cbn [seq].
    f_equal. rewrite Nat.add_0_l, filter_cons. replace (k / batch * batch + (batch - 1))%nat with k by lia.
    by destruct (decide (key_present m pub k)).
  - assert (Ed : ((k + 1) / batch = k / batch)%nat) by (symmetry; apply (Nat.div_unique _ _ _ (k mod batch + 1)%nat); lia).
    split; [symmetry; apply (Nat.mod_unique _ _ (k / batch)%nat); lia|]. unfold groups_found. by rewrite Ed.
Qed.

Lemma rdinv_mono m pub pub' w : rdinv m pub w -> pub `prefix_of` pub' -> rdinv m pub' w.
Proof.
  intros [Hs Hl Hk Hf He] Hpre. pose proof (prefix_length _ _ Hpre) as Hle. unfold zlen in Hs.
  split; [unfold zlen; lia| |done| |].
  - destruct Hpre as [l ->]. by rewrite take_app_le by lia.
  - rewrite (groups_found_prefix m pub pub' _ Hpre) by lia. done.
  - intros E. destruct (He E) as (r & Hr & Hn). exists r. split; [|done]. by eapply prefix_lookup_Some.
Qed.

(** All slices of a [MultiGet] point to the key array. *)
Lemma multiget_same (db : S) key (keys : list key_slice) :
  zlen (filter is_Some (db_MultiGet (B := B) db (slice_bytes key <$> keys)))
  = if decide (is_Some (db_Get (B := B) db key)) then zlen keys else 0.
Proof.
  unfold db_MultiGet, zlen. induction keys as [|[] keys IH]; [by destruct (decide _)|]. rewrite !fmap_cons, filter_cons. cbn [slice_bytes].
  destruct (decide (is_Some (db_Get db key))); cbn [length] in *; lia.
Qed.

Lemma read_one_ok db pub r w : db_inv db -> rdinv (contents db) pub w -> zlen pub < 2 ^ 31 ->
  pub !! Z.to_nat (rd_seq w) = Some r -> live_read r ->
  rdinv (contents db) pub (read_one (B := B) key_size_ BATCH_SIZE db r w) /\
  rd_seq (read_one (B := B) key_size_ BATCH_SIZE db r w) = rd_seq w + 1 /\ rd_endflag (read_one (B := B) key_size_ BATCH_SIZE db r w) = false.
Proof.
  intros Hd [Hs Hl Hk Hf _] Hb Hr Hlive. pose proof (lookup_lt_Some _ _ _ Hr) as Hlt.
  destruct (groups_found_next (contents db) pub (Z.to_nat (rd_seq w))) as [Hfull Hpart].
  assert (En : Z.to_nat (rd_seq w + 1) = (Z.to_nat (rd_seq w) + 1)%nat) by lia.
  assert (Et : Forall live_read (take (Z.to_nat (rd_seq w) + 1) pub)).
  { rewrite Nat.add_1_r, (take_S_r _ _ _ Hr). apply Forall_app. split; [done|]. by constructor. }
  unfold read_one. assert (Ek : zlen (rd_keys w ++ [KeyArray]) = Z.of_nat (Z.to_nat (rd_seq w) mod batch + 1)).
  { unfold zlen. rewrite length_app, Hk. done. }
  destruct (Z.eqb_spec (zlen (rd_keys w ++ [KeyArray])) BATCH_SIZE) as [E|E].
  - destruct (Hfull ltac:(lia)) as [Hm Hg]. split; [|done].
    pose proof (groups_found_bound (contents db) pub (Z.to_nat (rd_seq w) + 1)) as Hbd. unfold zlen in Hb.
    split; cbn [rd_seq rd_keys rd_found rd_endflag]; rewrite ?En; [unfold zlen in *; lia|done|by rewrite Hm| |done].
    rewrite multiget_same, E, Hf, (law_Get db) by (done || rewrite GenerateKeyFromInt_length; lia).
    assert (Hp : key_present (contents db) pub (Z.to_nat (rd_seq w)) <-> is_Some (contents db !! GenerateKeyFromInt key_size_ (u64 (rr_key r))))
      by (unfold key_present; by rewrite Hr).
    rewrite Hg in *. destruct (decide (is_Some _)) as [Hi|Hi], (decide (key_present _ _ _)) as [Hi'|Hi']; try tauto;
      rewrite i32_small by nia; nia.
  - destruct (Hpart ltac:(lia)) as [Hm Hg]. split; [|done].
    split; cbn [rd_seq rd_keys rd_found rd_endflag]; rewrite ?En; [unfold zlen in *; lia|done| |by rewrite Hg|done].
    rewrite Hm, length_app, Hk. done.
Qed.

Lemma read_step_ok dbs db (q : nat) pub slots w w' : dbs !! q = Some db -> db_inv db ->
  rdinv (contents db) pub w -> zlen pub < 2 ^ 31 -> pub `prefix_of` slots ->
  read_step (B := B) key_size_ BATCH_SIZE dbs q (zlen pub) slots w = Some w' ->
  rdinv (contents db) pub w' /\ rd_endflag w = false /\
  (rd_seq w' = rd_seq w + 1 \/ rd_seq w' = rd_seq w /\ rd_endflag w' = true).
Proof.
  intros Hdb Hd Hw Hb Hpre. unfold read_step. destruct (rd_endflag w) eqn:Ef; [done|].
  destruct (Z.leb_spec (zlen pub) (rd_seq w)); [done|]. rewrite Hdb. cbn [mbind option_bind].
  destruct (slots !! Z.to_nat (rd_seq w)) as [r|] eqn:Er; [|done]. cbn [mbind option_bind].
  pose proof (ri_seq _ _ _ Hw) as Hs. assert (Hr : pub !! Z.to_nat (rd_seq w) = Some r).
  { eapply lookup_published; [done|done|unfold zlen in *; lia]. }
  destruct (Z.eqb_spec (rr_seq r) (-1)) as [E|E]; intros [= <-].
  - split_and!; [|done|by right]. destruct Hw as [? ? ? ? _]. split; cbn [rd_seq rd_keys rd_found rd_endflag]; try done.
    intros _. exists r. split; [done|]. intros Hl. by apply Hl.
  - destruct (read_one_ok db pub r w Hd Hw Hb Hr E) as (? & ? & ?). split_and!; [done..|by left].
Qed.

Lemma initial_rdinv m : rdinv m [] (initial_reader key_size_).
Proof.
  split; cbn [rd_seq rd_keys rd_found rd_endflag initial_reader]; try done; [by rewrite Nat.Div0.mod_0_l|].
  unfold groups_found. rewrite Nat.Div0.div_0_l. cbn. lia.
Qed.
End Correct.

(** ** The whole program *)

Section System.
Context {S B : Type} `{Batch B} `{!DB S B}.
Context (batch_inv : B -> Prop) (batch_ops : B -> list entry).
Context (db_inv : S -> Prop) (contents : S -> gmap bytes bytes).
Context `{!DBLaws batch_inv batch_ops db_inv contents}.
Context (key_size_ BATCH_SIZE QUEUE_NUM READ_NUM : Z).
Context (Hks : 8 <= key_size_ < 2 ^ 32 - 8) (HB : 0 < BATCH_SIZE) (HQ : 0 < QUEUE_NUM < 2 ^ 31).
Context (cap : nat) (Hcap : Z.of_nat cap < 2 ^ 31).
Context (dbs : list S) (Hdbs : zlen dbs = QUEUE_NUM) (Hopen : Forall db_inv dbs).
Context (keygen : KeyGenerator) (posts : list (@post read_request)).
Context (Hposts : read_posts (B := B) QUEUE_NUM READ_NUM dbs keygen = Some posts).

Abbreviation sent := (sent read_request_default).
Abbreviation n := (Z.to_nat QUEUE_NUM).

Definition reader_step : system -> system -> Prop := step (read_step (B := B) key_size_ BATCH_SIZE dbs).

Definition reader_start : system := initial read_request_default cap n posts (replicate n (initial_reader key_size_)).

Definition reader_inv (q : nat) (pub : list read_request) (w : reader) : Prop :=
  exists db, dbs !! q = Some db /\ rdinv key_size_ BATCH_SIZE (contents db) pub w.

(** The requests of a queue, without the end marker. *)
Definition queue_reads (q : nat) : list read_request := take (length (sent posts q) - 1) (sent posts q).

Lemma post_reads_ok merge_iter todo i g ps : 0 <= i -> post_reads QUEUE_NUM merge_iter todo i g = Some ps ->
  Forall (fun p : post => (p.1 < n)%nat) ps /\ forall q, Forall live_read (sent ps q).
Proof.
  revert i g ps. induction todo as [|todo IH]; intros i g ps Hi; cbn [post_reads]; [by intros [= <-]|].
  destruct (merging_Valid merge_iter); [|by intros [= <-]]. destruct (KeyGenerator_Next g) as [[k g']|]; [|done]. cbn [mbind option_bind].
  case_bool; [done|]. destruct (post_reads _ _ _ _ _) as [rest|] eqn:E; [|done]. cbn [mbind option_bind]. intros [= <-].
  destruct (IH (i + 1) g' rest ltac:(lia) E) as [IH1 IH2]. split.
  - constructor; [|done]. cbn [fst]. pose proof (Z.rem_bound_abs (i32 k) QUEUE_NUM ltac:(lia)). lia.
  - intros q. specialize (IH2 q). unfold Queue.sent in *. rewrite filter_cons. destruct (decide _); [|done]. constructor; [|done].
    unfold live_read. cbn. lia.
Qed.

Lemma read_posts_ok : exists ps, posts = ps ++ ((fun i => (i, set_read_end)) <$> seq 0 n) /\
  Forall (fun p : post => (p.1 < n)%nat) posts /\
  forall q, (q < n)%nat -> sent posts q = sent ps q ++ [set_read_end read_request_default] /\ queue_reads q = sent ps q /\ Forall live_read (sent ps q).
Proof.
  pose proof Hposts as E. unfold read_posts in E. destruct (open_merge_iter dbs) as [m|]; [|done]. cbn [mbind option_bind] in E.
  destruct (post_reads _ _ _ _ _) as [ps|] eqn:El; [|done]. cbn [mbind option_bind] in E. injection E as E.
  destruct (post_reads_ok m (Z.to_nat READ_NUM) 0 keygen ps ltac:(lia) El) as [Hq Hl]. exists ps. split; [done|]. split.
  - rewrite <- E. apply Forall_app. split; [done|]. apply Forall_fmap, Forall_forall. intros i Hi. apply elem_of_seq in Hi. cbn. lia.
  - intros q Hqn. assert (Es : sent posts q = sent ps q ++ [set_read_end read_request_default]) by (rewrite <- E; etransitivity; [apply sent_app|]; f_equal; by apply sent_all_queues).
    split_and!; [done| |done]. unfold queue_reads. rewrite Es, length_app. cbn [length]. rewrite Nat.add_sub. apply take_app_length.
Qed.

Lemma reader_inv_mono q pub pub' w : reader_inv q pub w -> pub `prefix_of` pub' -> reader_inv q pub' w.
Proof. intros (db & Hdb & Hw) Hpre. exists db. split; [done|]. by eapply rdinv_mono. Qed.

Lemma reader_inv_step q pub slots w w' : reader_inv q pub w -> zlen pub < 2 ^ 31 -> pub `prefix_of` slots ->
  read_step (B := B) key_size_ BATCH_SIZE dbs q (zlen pub) slots w = Some w' -> reader_inv q pub w'.
Proof.
  intros (db & Hdb & Hw) Hb Hpre E. exists db. split; [done|]. assert (Hd : db_inv db) by (by eapply Forall_lookup_1).
  by destruct (read_step_ok batch_inv batch_ops db_inv contents key_size_ BATCH_SIZE Hks HB dbs db q pub slots w w' Hdb Hd Hw Hb Hpre E) as [? _].
Qed.

Lemma readers_length : length (replicate n (initial_reader key_size_)) = n.
Proof. apply length_replicate. Qed.

Lemma reader_inv_initial q w : replicate n (initial_reader key_size_) !! q = Some w -> reader_inv q [] w.
Proof.
  intros E. apply lookup_replicate in E as [-> Hq]. destruct (lookup_lt_is_Some_2 dbs q) as [db Hdb]; [unfold zlen in Hdbs; lia|].
  exists db. split; [done|]. by apply initial_rdinv.
Qed.

Section Fit.
(** The arrays hold the requests. *)
Context (Hfit : forall q, (length (sent posts q) <= cap)%nat).

Lemma reads_fit : posts_fit read_request_default cap n posts.
Proof. destruct read_posts_ok as (ps & _ & Hq & _). by split. Qed.

Lemma reader_reach st : rtc reader_step reader_start st -> exists done_, system_inv read_request_default cap n reader_inv posts st done_.
Proof.
  intros Hr. eapply system_inv_reachable; [apply reader_inv_mono|apply reader_inv_step|done|apply reads_fit|
    apply readers_length|apply reader_inv_initial|exact Hr].
Qed.

Definition reads_left (q : nat) (w : reader) : nat :=
  length (sent posts q) - Z.to_nat (rd_seq w) + (if rd_endflag w then 0 else 1).

Lemma step_reads_left q pub slots w w' :
  (q < n)%nat -> reader_inv q pub w -> pub `prefix_of` sent posts q -> pub `prefix_of` slots ->
  zlen pub < 2 ^ 31 -> read_step (B := B) key_size_ BATCH_SIZE dbs q (zlen pub) slots w = Some w' -> (reads_left q w' < reads_left q w)%nat.
Proof.
  intros Hq (db & Hdb & Hw) Hpre Hpre' Hb E. apply prefix_length in Hpre. assert (Hd : db_inv db) by (by eapply Forall_lookup_1).
  destruct (read_step_ok batch_inv batch_ops db_inv contents key_size_ BATCH_SIZE Hks HB dbs db q pub slots w w' Hdb Hd Hw Hb Hpre' E)
    as (Hw' & Ef & Hprog).
  pose proof (ri_seq _ _ _ _ _ Hw). pose proof (ri_seq _ _ _ _ _ Hw'). unfold zlen in *. unfold reads_left. rewrite Ef.
  destruct Hprog as [Hlt|[Es Et]]; [destruct (rd_endflag w'); lia|]. rewrite Et, Es. lia.
Qed.

Lemma stuck_read q w slots : (q < n)%nat -> reader_inv q (sent posts q) w -> sent posts q `prefix_of` slots ->
  read_step (B := B) key_size_ BATCH_SIZE dbs q (zlen (sent posts q)) slots w = None -> rd_endflag w = true.
Proof.
  intros Hq (db & Hdb & [Hs Hl _ _ _]) Hpre. unfold read_step. destruct (rd_endflag w); [done|].
  destruct (Z.leb_spec (zlen (sent posts q)) (rd_seq w)) as [Hge|Hlt].
  - exfalso. assert (E : rd_seq w = zlen (sent posts q)) by lia. rewrite E in Hl. unfold zlen in Hl.
    destruct read_posts_ok as (ps & _ & _ & Hps). destruct (Hps q Hq) as [Es _].
    rewrite Nat2Z.id, firstn_all, Es in Hl. apply Forall_app in Hl as [_ Hl]. apply Forall_inv in Hl. by apply Hl.
  - rewrite Hdb. cbn [mbind option_bind]. destruct (lookup_lt_is_Some_2 (sent posts q) (Z.to_nat (rd_seq w))) as [r Hr]; [unfold zlen in *; lia|].
    rewrite (prefix_lookup_Some _ _ _ _ Hr Hpre). cbn [mbind option_bind]. by case_bool.
Qed.

Lemma reader_measure : measure reads_left reader_start = (3 * length posts + n)%nat.
Proof.
  unfold measure, reader_start, initial. cbn [main workers]. rewrite actions_length.
  rewrite (workers_measure_sum reads_left 0 _ (fun q => length (sent posts q) + 1)%nat).
  - destruct read_posts_ok as (ps & _ & Hq & _). rewrite readers_length, sum_list_plus, sent_total, sum_list_ones by done. lia.
  - intros i w Hi. apply lookup_replicate in Hi as [-> _]. unfold reads_left. cbn. lia.
Qed.
End Fit.

(** *** Theorems *)

(** C27. What read_test counts: a worker that has left its loop has taken all requests
    of its queue, and has counted [BATCH_SIZE] for every complete group of
    [BATCH_SIZE] consecutive requests whose last key is in the store, since all the
    slices of a group point to the array with the last key. Keys after the last complete
    group are not looked up: when every requested key is in the store, the count is the
    number of requests rounded down to a multiple of [BATCH_SIZE]. *)
Theorem read_test_counts st q w db :
  (forall q, (length (sent posts q) <= cap)%nat) -> rtc reader_step reader_start st ->
  workers st !! q = Some w -> rd_endflag w = true -> dbs !! q = Some db ->
  rd_seq w = zlen (queue_reads q) /\
  rd_found w = BATCH_SIZE * Z.of_nat (groups_found key_size_ BATCH_SIZE (contents db) (queue_reads q) (length (queue_reads q))) /\
  ((forall i, (i < length (queue_reads q))%nat -> key_present key_size_ (contents db) (queue_reads q) i) ->
   rd_found w = zlen (queue_reads q) - zlen (queue_reads q) mod BATCH_SIZE).
Proof.
  intros Hfit Hr Hw He Hdb. destruct (reader_reach Hfit st Hr) as (done_ & Hm & Hn & Hinv).
  destruct (Hinv q w Hw) as (db' & Hdb' & [Hs Hl _ Hf Hend]). simplify_eq.
  assert (Hq : (q < n)%nat) by (rewrite <- Hn; by eapply lookup_lt_Some).
  destruct read_posts_ok as (ps & _ & _ & Hps). destruct (Hps q Hq) as (Es & Eq & Hlive). destruct (Hend He) as (r & Hr' & Hnl).
  pose proof (sent_mono read_request_default _ _ q (main_inv_done _ _ _ _ _ _ _ Hm)) as Hpre. rewrite Es in Hpre.
  pose proof (taken_all live_read _ _ _ _ r Hpre Hlive Hr' Hnl) as Et. rewrite <- Eq in Et.
  assert (Elen : length (queue_reads q) = Z.to_nat (rd_seq w)) by (rewrite <- Et, length_take; unfold zlen in Hs; lia).
  assert (Ef : rd_found w = BATCH_SIZE * Z.of_nat (groups_found key_size_ BATCH_SIZE (contents db) (queue_reads q) (length (queue_reads q)))).
  { rewrite Hf, Elen, Nat2Z.inj_mul, Z2Nat.id by lia. do 2 f_equal.
    rewrite (groups_found_prefix key_size_ BATCH_SIZE Hks HB (contents db) (queue_reads q) (sent done_ q)); [done| |lia].
    rewrite <- Et. exists (drop (Z.to_nat (rd_seq w)) (sent done_ q)). symmetry. apply take_drop. }
  split; [unfold zlen; lia|]. split; [done|]. intros Hall. rewrite Ef. unfold groups_found. rewrite filter_every.
  - rewrite length_seq, Nat2Z.inj_div, Z2Nat.id by lia. unfold zlen.
    pose proof (Z.div_mod (Z.of_nat (length (queue_reads q))) BATCH_SIZE). lia.
  - intros j Hj. apply elem_of_seq in Hj. apply Hall.
    pose proof (group_index BATCH_SIZE HB j (length (queue_reads q)) ltac:(lia) ltac:(lia)). lia.
Qed.

(** read_test ends: a run has at most three steps per post and one per worker
    (sleeps not counted), and a run that cannot go on has posted everything and all
    workers have left their loops. *)
Theorem read_test_terminates k st :
  (forall q, (length (sent posts q) <= cap)%nat) -> nsteps reader_step k reader_start st ->
  (k <= 3 * length posts + n)%nat /\
  (~ (exists st', reader_step st st') -> main st = [] /\ length (workers st) = n /\ Forall (fun w => rd_endflag w = true) (workers st)).
Proof.
  intros Hfit Hk. destruct (reader_reach Hfit st) as (done_ & Hinv); [apply rtc_nsteps; eauto|]. split.
  - pose proof reader_measure as Em. enough (k + measure reads_left st <= 3 * length posts + n)%nat by lia.
    rewrite <- Em. eapply run_bounded; [apply reader_inv_mono|apply reader_inv_step|done|by apply reads_fit|
      apply readers_length|apply reader_inv_initial|apply step_reads_left|exact Hk].
  - intros Hstuck. destruct (system_stuck _ _ _ _ _ _ _ _ Hcap (reads_fit Hfit) Hinv Hstuck) as [Hmain Hw].
    destruct Hinv as (_ & Hn & _). split_and!; [done|done|].
    apply Forall_lookup. intros q w Hq. destruct (Hw q w Hq) as (Hqi & slots & Hpre & E).
    eapply stuck_read; [|done|done|done]. rewrite <- Hn. by eapply lookup_lt_Some.
Qed.
End System.

(** ** A run

    Two stores, with the keys 0, 2 and 4 and with the key 1, and the requests 0 to 4 in
    groups of two. *)

Definition demo_read_dbs : list (gmap bytes bytes) :=
  [list_to_map ((fun k => (GenerateKeyFromInt 8 k, [48])) <$> [0; 2; 4]); list_to_map [(GenerateKeyFromInt 8 1, [48])]].

Definition demo_read_keygen : KeyGenerator := KeyGenerator_new (fun l _ => l) 4321 [] SEQUENTIAL 5.

Definition demo_read_posts : list (@post read_request) :=
  default [] (read_posts (B := list entry) 2 5 demo_read_dbs demo_read_keygen).

Definition demo_read_start : system (W := reader) := reader_start 8 2 7 demo_read_posts.

Definition demo_read_turns : list (option nat) :=
  [None; None; Some 0; None; None; Some 1]%nat ++ replicate 10 None ++ [Some 1; Some 0; Some 1; Some 0; Some 0]%nat.

Definition demo_read_end : system (W := reader) :=
  default demo_read_start (exec_schedule (read_step (B := list entry) 8 2 demo_read_dbs) demo_read_turns demo_read_start).

Definition demo_reader (q : nat) : reader := default (initial_reader 8) (workers demo_read_end !! q).

Lemma demo_read_nsteps : nsteps (reader_step (B := list entry) 8 2 demo_read_dbs) 21 demo_read_start demo_read_end.
Proof.
  apply (exec_schedule_nsteps (read_step 8 2 demo_read_dbs) demo_read_turns). unfold demo_read_end.
  assert (E : bool_decide (is_Some (exec_schedule (read_step (B := list entry) 8 2 demo_read_dbs) demo_read_turns demo_read_start)) = true)
    by (vm_compute; reflexivity).
  apply bool_decide_eq_true in E as [st ->]. done.
Qed.

Lemma demo_read_fit q : (length (sent read_request_default demo_read_posts q) <= 7)%nat.
Proof.
  unfold sent. rewrite length_fmap. etransitivity; [apply length_filter|]. apply Nat.leb_le. vm_compute. reflexivity.
Qed.

(** Solves what the theorems ask of the configuration. *)
Ltac demo_read_solve := first [lia|vm_compute; reflexivity|by repeat constructor|done].

Lemma read_test_counts_witness : rd_found (demo_reader 0) = 2 /\ rd_found (demo_reader 1) = 0.
Proof.
  assert (Hr : rtc (reader_step (B := list entry) 8 2 demo_read_dbs) demo_read_start demo_read_end)
    by (apply rtc_nsteps; eexists; exact demo_read_nsteps).
  split.
  - refine (eq_trans (proj1 (proj2 (read_test_counts (B := list entry) (fun _ => True) (fun b => b) (fun _ => True) (fun s => s) 8 2 2 5
      _ _ _ 7 _ demo_read_dbs _ _ demo_read_keygen demo_read_posts _ demo_read_end 0 (demo_reader 0) (default ∅ (demo_read_dbs !! 0%nat))
      demo_read_fit Hr _ _ _))) _); demo_read_solve.
  - refine (eq_trans (proj1 (proj2 (read_test_counts (B := list entry) (fun _ => True) (fun b => b) (fun _ => True) (fun s => s) 8 2 2 5
      _ _ _ 7 _ demo_read_dbs _ _ demo_read_keygen demo_read_posts _ demo_read_end 1 (demo_reader 1) (default ∅ (demo_read_dbs !! 1%nat))
      demo_read_fit Hr _ _ _))) _); demo_read_solve.
Defined.

Lemma read_test_terminates_witness : (21 <= 3 * length demo_read_posts + Z.to_nat 2)%nat.
Proof.
  refine (proj1 (read_test_terminates (B := list entry) (fun _ => True) (fun b => b) (fun _ => True) (fun s => s) 8 2 2 5
    _ _ _ 7 _ demo_read_dbs _ _ demo_read_keygen demo_read_posts _ 21 demo_read_end demo_read_fit demo_read_nsteps)); demo_read_solve.
Defined.

(** Four of the five requested keys of this run are in their store and two are counted:
    4 is never looked up, and 3 is looked up in the place of 1. *)
Lemma read_test_misses :
  (rr_key <$> queue_reads demo_read_posts 0) = [0; 2; 4] /\ rd_found (demo_reader 0) = 2 /\
  (rr_key <$> queue_reads demo_read_posts 1) = [1; 3] /\ rd_found (demo_reader 1) = 0.
Proof. vm_compute. done. Qed.
