(* ===== verification/Trace.v ===== *)
(** * Reading the trace file ([ycsb.cpp], [main])

    Each line of a trace is a command word padded to six characters, a key in
    decimal and, for a scan, a blank and the number of entries. [atol], [atoi]
    and [strchr] are written out from their C definitions. *)

From S2P Require Import Prelude Ycsb.

(** ** The C library *)

Definition isspace (c : Z) : bool := (c =? 32) || ((9 <=? c) && (c <=? 13)).
Definition isdigit (c : Z) : bool := (48 <=? c) && (c <=? 57).

Fixpoint skip_spaces (s : bytes) : bytes :=
  match s with
  | c :: s' => if isspace c then skip_spaces s' else s
  | [] => []
  end.

(** The number that the digits at the start of [s] continue, from [acc]. *)
Fixpoint read_digits (acc : Z) (s : bytes) : Z :=
  match s with
  | c :: s' => if isdigit c then read_digits (10 * acc + (c - 48)) s' else acc
  | [] => acc
  end.

(** [strtol(s, NULL, 10)]: out-of-range numbers saturate. *)
Definition atol (s : bytes) : Z :=
  let clamp z := Z.max (- 2 ^ 63) (Z.min (2 ^ 63 - 1) z) in
  match skip_spaces s with
  | 45 :: s' => clamp (- read_digits 0 s')
  | 43 :: s' => clamp (read_digits 0 s')
  | s' => clamp (read_digits 0 s')
  end.

Definition atoi (s : bytes) : Z := i32 (atol s).

(** The string from the first occurrence of [c] on. *)
Fixpoint strchr (s : bytes) (c : Z) : option bytes :=
  match s with
  | [] => None
  | c' :: s' => if c' =? c then Some s else strchr s' c
  end.

(** ** The loop over the lines *)

Definition i16 (z : Z) : Z := (z + 2 ^ 15) mod 2 ^ 16 - 2 ^ 15.

(** A line as [getline] leaves it in [buf], the newline included. [None] where the
    code reads outside the line: a line of less than six characters, a scan
    without a second blank. The entry of [cmds] was zero before. *)
Definition parse_line (buf : bytes) : option command :=
  if zlen buf <? 6 then None else
  cmd ← head buf;
  let keybuf := drop 6 buf in
  let key := u64 (atol keybuf) in
  if cmd =? chr_S then
    blank ← strchr keybuf 32;
    Some (mkCommand key (i16 (atoi (drop 1 blank))) cmd)
  else Some (mkCommand key 0 cmd).

(** [None] also when the lines outnumber the array [cmds]. *)
Fixpoint parse_trace (TOTAL_NUM : nat) (lines : list bytes) : option (list command) :=
  match lines, TOTAL_NUM with
  | [], _ => Some []
  | _ :: _, O => None
  | buf :: lines', S n => c ← parse_line buf; cs ← parse_trace n lines'; Some (c :: cs)
  end.

(** ** Writing a trace *)

(** Decimal digits, with the number of digits as fuel. *)
Fixpoint dec_digits (fuel : nat) (z : Z) (acc : bytes) : bytes :=
  match fuel with
  | O => acc
  | S fuel' =>
      let acc' := (48 + z mod 10) :: acc in
      if z / 10 =? 0 then acc' else dec_digits fuel' (z / 10) acc'
  end.

Definition dec (z : Z) : bytes := dec_digits 20 z [].

(** The line of a command: its letter, five more characters of the word, the key,
    and the size for a scan. *)
Definition print_command (word : bytes) (c : command) : bytes :=
  c_cmd c :: word ++ dec (c_key c) ++
  (if c_cmd c =? chr_S then 32 :: dec (c_scan_size c) else []) ++ [10].

(** What a trace file can hold. *)
Definition command_ok (c : command) : Prop :=
  0 <= c_key c < 2 ^ 63 /\
  (if c_cmd c =? chr_S then 0 <= c_scan_size c < 2 ^ 15 else c_scan_size c = 0).

(** ** Lemmas *)

Lemma read_digits_dec fuel z acc rest :
  0 <= z < 10 ^ Z.of_nat fuel -> (0 < fuel)%nat ->
  exists k, 0 <= k /\ (forall a', read_digits a' (dec_digits fuel z acc ++ rest) = read_digits (a' * 10 ^ k + z) (acc ++ rest)) /\
    exists d, 48 <= d <= 57 /\ head (dec_digits fuel z acc) = Some d.
Proof.
  revert z acc. induction fuel as [|fuel IH]; intros z acc Hz Hf; [lia|]. cbn [dec_digits].
  assert (Hd : forall a' r, read_digits a' ((48 + z mod 10) :: r) = read_digits (10 * a' + z mod 10) r).
  { intros a' r. cbn [read_digits]. unfold isdigit. pose proof (Z.mod_pos_bound z 10 ltac:(lia)).
    destruct (Z.leb_spec 48 (48 + z mod 10)), (Z.leb_spec (48 + z mod 10) 57); cbn; try lia. f_equal. lia. }
  destruct (Z.eqb_spec (z / 10) 0) as [E|E].
  - exists 1. split_and!; [lia| |].
    + intros a'. cbn [app]. rewrite Hd. f_equal. rewrite (Z.div_mod z 10) at 2 by lia. lia.
    + eexists. split; [|done]. pose proof (Z.mod_pos_bound z 10 ltac:(lia)). lia.
  - assert (Hz' : 0 <= z / 10 < 10 ^ Z.of_nat fuel).
    { split; [apply Z.div_pos; lia|]. apply Z.div_lt_upper_bound; [lia|].
      rewrite <- Z.pow_succ_r by lia. rewrite <- Nat2Z.inj_succ. apply Hz. }
    assert (Hf' : (0 < fuel)%nat) by (destruct fuel; [cbn in Hz'; lia|lia]).
    destruct (IH (z / 10) ((48 + z mod 10) :: acc) Hz' Hf') as (k & Hk & Hr & Hh).
    exists (k + 1). split_and!; [lia| |done]. intros a'. rewrite Hr. cbn [app]. rewrite Hd. f_equal.
    rewrite Z.pow_add_r, Z.pow_1_r by lia. pose proof (Z.div_mod z 10). lia.
Qed.

(** Digits followed by something else read back as the number. *)
Lemma atol_dec z c rest :
  0 <= z < 2 ^ 63 -> isdigit c = false -> atol (dec z ++ c :: rest) = z.
Proof.
  intros Hz Hc. destruct (read_digits_dec 20 z [] (c :: rest)) as (k & Hk & Hr & d & Hd & Ed); [|lia|].
  { change (10 ^ Z.of_nat 20) with 100000000000000000000. lia. }
  specialize (Hr 0). cbn [app read_digits] in Hr. rewrite Hc in Hr.
  fold (dec z) in *. unfold atol. destruct (dec z) as [|d' l]; [done|]. cbn in Ed. injection Ed as ->.
  assert (Es : isspace d = false) by (unfold isspace; case_bool; cbn; done || lia).
  cbn [app skip_spaces] in *. rewrite Es.
  assert (E : Z.max (- 2 ^ 63) (Z.min (2 ^ 63 - 1) (read_digits 0 (d :: l ++ c :: rest))) = z) by (rewrite Hr; lia).
  destruct (Z.eq_dec d 45) as [->|]; [lia|]. destruct (Z.eq_dec d 43) as [->|]; [lia|].
  repeat (match goal with |- context [match ?x with _ => _ end] => is_var x; destruct x; try done end).
Qed.

Lemma dec_is_digits z : 0 <= z -> Forall (fun c => isdigit c = true) (dec z).
Proof.
  unfold dec. intros Hz. assert (G : forall fuel z acc, Forall (fun c => isdigit c = true) acc ->
    Forall (fun c => isdigit c = true) (dec_digits fuel z acc)); [|by apply G].
  induction fuel as [|fuel IH]; intros y acc Ha; [done|]. cbn.
  assert (Hd : isdigit (48 + y mod 10) = true).
  { unfold isdigit. pose proof (Z.mod_pos_bound y 10 ltac:(lia)). case_bool; cbn; (done || lia). }
  destruct (_ =? 0); [by constructor|]. apply IH. by constructor.
Qed.

Lemma strchr_digits s c rest :
  Forall (fun d => isdigit d = true) s -> isdigit c = false -> strchr (s ++ c :: rest) c = Some (c :: rest).
Proof.
  intros Hs Hc. induction Hs as [|d s Hd _ IH]; cbn; [by rewrite Z.eqb_refl|].
  destruct (Z.eqb_spec d c) as [->|]; [congruence|done].
Qed.

Lemma parse_print_command word c :
  length word = 5%nat -> command_ok c -> parse_line (print_command word c) = Some c.
Proof.
  intros Hw [Hk Hs]. unfold parse_line, print_command.
  set (tl := (if c_cmd c =? chr_S then _ else _) ++ [10]).
  assert (Hl : (zlen (c_cmd c :: word ++ dec (c_key c) ++ tl) <? 6) = false).
  { apply Z.ltb_ge. unfold zlen. cbn [length]. rewrite length_app. lia. }
  rewrite Hl. cbn [head mbind option_bind].
  change (drop 6 (c_cmd c :: word ++ dec (c_key c) ++ tl)) with (drop 5 (word ++ dec (c_key c) ++ tl)).
  rewrite <- Hw, drop_app_length.
  assert (Ek : atol (dec (c_key c) ++ tl) = c_key c) by (unfold tl; destruct (_ =? _); by apply atol_dec).
  rewrite Ek, u64_small by lia. unfold tl. destruct (Z.eqb_spec (c_cmd c) chr_S) as [E|E]; [|destruct c; cbn in *; congruence].
  cbn [app]. rewrite strchr_digits by (done || (apply dec_is_digits; lia)). cbn [mbind option_bind].
  change (drop 1 (32 :: dec (c_scan_size c) ++ [10])) with (dec (c_scan_size c) ++ [10]).
  unfold atoi. rewrite atol_dec by (done || lia). rewrite i32_small by lia. unfold i16.
  rewrite Z.mod_small by lia. replace (c_scan_size c + 2 ^ 15 - 2 ^ 15) with (c_scan_size c) by lia. by destruct c.
Qed.

(** C36. A trace that is written out line by line, any five characters after the
    letter of each command, is read back as the same commands, if they fit the
    array. *)
Theorem trace_roundtrip (word : command -> bytes) TOTAL_NUM cmds :
  (forall c, length (word c) = 5%nat) -> Forall command_ok cmds -> (length cmds <= TOTAL_NUM)%nat ->
  parse_trace TOTAL_NUM ((fun c => print_command (word c) c) <$> cmds) = Some cmds.
Proof.
  intros Hw Hc. revert TOTAL_NUM. induction Hc as [|c cmds Hc _ IH]; intros n Hn; [by destruct n|].
  destruct n as [|n]; cbn in Hn; [lia|]. cbn [fmap list_fmap parse_trace].
  rewrite parse_print_command by done. cbn. rewrite IH by lia. done.
Qed.

(** "INSERT12" and "SCAN  7 100". *)
Lemma trace_roundtrip_witness :
  parse_trace 2 [[73; 78; 83; 69; 82; 84; 49; 50; 10]; [83; 67; 65; 78; 32; 32; 55; 32; 49; 48; 48; 10]]
  = Some [mkCommand 12 0 chr_I; mkCommand 7 100 chr_S].
Proof.
  apply (trace_roundtrip (fun c => if c_cmd c =? chr_S then [67; 65; 78; 32; 32] else [78; 83; 69; 82; 84]) 2
    [mkCommand 12 0 chr_I; mkCommand 7 100 chr_S]).
  - intros c. by destruct (c_cmd c =? chr_S).
  - repeat constructor; cbn; lia.
  - cbn. lia.
Defined.
