(* ===== verification/Polling.v ===== *)
(** * Workers that poll a queue (the programs on LevelDB and WiredTiger)

    write_test_leveldb.cpp, read_test_leveldb.cpp, write_test_wt.cpp and read_test_wt.cpp
    have the main thread of write_test.cpp; their workers take up to [BATCH_SIZE]
    requests off the queue in each turn of their loop and do something with each and
    something after the last. This file has the loop and the threads, with what is done as
    an argument; OtherStores.v has the four programs. *)

From S2P Require Import Prelude Random KeyGen Queue Loader.

(** [A] is what a worker keeps between two turns of its loop. *)
Record poller (A : Type) := mkPoller { po_seq : Z; po_endflag : bool; po_state : A }.
Arguments mkPoller {A}.
Arguments po_seq {A}.
Arguments po_endflag {A}.
Arguments po_state {A}.

Section Poll.
(** The state [L] within a turn, how it begins, what is done with a request, and what is
    done after the loop, with [batch_size]. [None] is undefined behaviour. *)
Context {A L : Type} (begin : A -> L) (handle : load_request -> L -> option L) (finish : Z -> L -> option A).
Context (BATCH_SIZE : Z).

(** [for (batch_size = 0; seq < t && batch_size < BATCH_SIZE; seq++, batch_size++)], with
    [BATCH_SIZE - batch_size] in [todo]: the state, [seq], [batch_size] and [endflag]. *)
Fixpoint gather (todo : nat) (t : Z) (slots : list load_request) (seq batch_size : Z) (l : L) : option (L * Z * Z * bool) :=
  match todo with
  | O => Some (l, seq, batch_size, false)
  | S todo' =>
      if seq <? t then
        request ← slots !! Z.to_nat seq;
        if lq_seq request =? -1 then Some (l, seq, batch_size, true)
        else l' ← handle request l; gather todo' t slots (seq + 1) (batch_size + 1) l'
      else Some (l, seq, batch_size, false)
  end.

(** A turn of [while (!endflag)] from the read of [tail] on. *)
Definition poll_turn (t : Z) (slots : list load_request) (w : poller A) : option (poller A) :=
  '(l, seq, batch_size, endflag) ← gather (Z.to_nat BATCH_SIZE) t slots (po_seq w) 0 (begin (po_state w));
  a ← finish batch_size l;
  Some (mkPoller seq endflag a).

(** [None] while the thread yields and when it has left the loop. *)
Definition poll_step (_ : nat) (t : Z) (slots : list load_request) (w : poller A) : option (poller A) :=
  if po_endflag w then None else if t <=? po_seq w then None else poll_turn t slots w.

Definition initial_poller (a : A) : poller A := mkPoller 0 false a.

(** Where the source does not [continue] after [yield], a turn in which nothing is there
    changes nothing. *)
Lemma idle_turn t slots w : t <= po_seq w -> finish 0 (begin (po_state w)) = Some (po_state w) -> po_endflag w = false -> poll_turn t slots w = Some w.
Proof.
  intros Ht Hf He. unfold poll_turn. destruct w as [seq fl a]. cbn in *. subst fl.
  destruct (Z.to_nat BATCH_SIZE) as [|todo]; cbn; [by rewrite Hf|]. destruct (Z.ltb_spec seq t); [lia|]. cbn. by rewrite Hf.
Qed.

(** ** What a worker does with its requests *)

Fixpoint handle_all (g : list load_request) (l : L) : option L :=
  match g with
  | [] => Some l
  | r :: g' => l' ← handle r l; handle_all g' l'
  end.

(** The requests of one turn, and of several. *)
Definition group_run (g : list load_request) (a : A) : option A := l ← handle_all g (begin a); finish (zlen g) l.

Fixpoint groups_run (gs : list (list load_request)) (a : A) : option A :=
  match gs with
  | [] => Some a
  | g :: gs' => a' ← group_run g a; groups_run gs' a'
  end.

Lemma groups_run_snoc gs g a : groups_run (gs ++ [g]) a = groups_run gs a ≫= group_run g.
Proof.
  revert a. induction gs as [|g0 gs IH]; intros a; cbn [app groups_run].
  - cbn. by destruct (group_run g a).
  - destruct (group_run g0 a); [|done]. cbn. by rewrite IH.
Qed.

Fixpoint live_prefix (l : list load_request) : list load_request :=
  match l with
  | [] => []
  | r :: l' => if lq_seq r =? -1 then [] else r :: live_prefix l'
  end.

Lemma live_prefix_live l : Forall live (live_prefix l).
Proof. induction l as [|r l IH]; cbn; [done|]. destruct (Z.eqb_spec (lq_seq r) (-1)); by constructor. Qed.

Lemma live_prefix_prefix l : live_prefix l `prefix_of` l.
Proof. induction l as [|r l IH]; cbn; [done|]. destruct (lq_seq r =? -1); [apply prefix_nil|by apply prefix_cons]. Qed.

(** The requests that a turn takes, and whether it meets the end marker. *)
Definition taken (todo : nat) (pub : list load_request) (seq : Z) : list load_request := live_prefix (take todo (drop (Z.to_nat seq) pub)).

Lemma gather_taken todo pub slots seq n l : pub `prefix_of` slots -> 0 <= seq <= zlen pub ->
  let g := taken todo pub seq in
  exists fl, gather todo (zlen pub) slots seq n l = (l' ← handle_all g l; Some (l', seq + zlen g, n + zlen g, fl)) /\
    (fl = true -> exists r, pub !! Z.to_nat (seq + zlen g) = Some r /\ ~ live r) /\
    (fl = false -> zlen g = Z.min (Z.of_nat todo) (zlen pub - seq)).
Proof.
  intros Hpre. cbv zeta. revert seq n l. induction todo as [|todo IH]; intros seq n l Hs; unfold taken.
  - exists false. change (live_prefix _) with (@nil load_request). change (zlen []) with 0. cbn [handle_all gather mbind option_bind]. rewrite !Z.add_0_r. split_and!; [done|done|intros _; lia].
  - cbn [gather]. destruct (Z.ltb_spec seq (zlen pub)) as [Hlt|Hge].
    2: { exists false. rewrite drop_ge by (unfold zlen in *; lia). change (live_prefix _) with (@nil load_request). cbn [handle_all mbind option_bind]. change (zlen []) with 0. rewrite !Z.add_0_r. split_and!; [done|done|intros _; lia]. }
    destruct (lookup_lt_is_Some_2 pub (Z.to_nat seq)) as [r Hr]; [unfold zlen in *; lia|]. rewrite (prefix_lookup_Some _ _ _ _ Hr Hpre). cbn [mbind option_bind].
    rewrite (drop_S pub r (Z.to_nat seq) Hr). cbn [take live_prefix]. destruct (Z.eqb_spec (lq_seq r) (-1)) as [E|E].
    + exists true. cbn [handle_all mbind option_bind]. change (zlen []) with 0. rewrite !Z.add_0_r. split_and!; [done| |done]. intros _. exists r. split; [done|]. by intros [].
    + destruct (IH (seq + 1) (n + 1)) with (l := l) as (fl0 & _ & Hend & Hn); [lia|]. unfold taken in *.
      replace (Z.to_nat (seq + 1)) with (S (Z.to_nat seq)) in * by lia. set (g := live_prefix (take todo (drop (S (Z.to_nat seq)) pub))) in *.
      assert (Ez : zlen (r :: g) = zlen g + 1) by (unfold zlen; cbn; lia). cbn [handle_all].
      destruct (handle r l) as [l'|]; cbn [mbind option_bind].
      * destruct (IH (seq + 1) (n + 1) l') as (fl & -> & Hend' & Hn'); [lia|]. exists fl. rewrite Ez. replace (Z.to_nat (seq + 1)) with (S (Z.to_nat seq)) in * by lia.
        replace (seq + (zlen g + 1)) with (seq + 1 + zlen g) by lia. replace (n + (zlen g + 1)) with (n + 1 + zlen g) by lia. split_and!; [done|done|].
        intros Hf. specialize (Hn' Hf). fold g in Hn'. lia.
      * exists fl0. rewrite Ez. replace (seq + (zlen g + 1)) with (seq + 1 + zlen g) by lia. split_and!; [done|done|]. intros Hf. specialize (Hn Hf). lia.
Qed.
End Poll.

(** ** Workers *)

Section Correct.
Context {A L : Type} (begin : A -> L) (handle : load_request -> L -> option L) (finish : Z -> L -> option A).
Context (BATCH_SIZE : Z) (HB : 0 < BATCH_SIZE).

(** A group of requests of a turn. *)
Definition group_size (g : list load_request) : Prop := 0 < zlen g <= BATCH_SIZE.

(** A turn that takes nothing changes nothing. *)
Context (Hidle : forall a, finish 0 (begin a) = Some a).

Abbreviation run := (groups_run begin handle finish).

(** The requests before [seq] were taken in groups. *)
Record polled (a0 : A) (pub : list load_request) (w : poller A) : Prop := {
  pi_seq : 0 <= po_seq w <= zlen pub;
  pi_live : Forall live (take (Z.to_nat (po_seq w)) pub);
  pi_groups : exists gs, concat gs = take (Z.to_nat (po_seq w)) pub /\ Forall group_size gs /\ run gs a0 = Some (po_state w);
  pi_end : po_endflag w = true -> exists r, pub !! Z.to_nat (po_seq w) = Some r /\ ~ live r
}.

Lemma polled_mono a0 pub pub' w : polled a0 pub w -> pub `prefix_of` pub' -> polled a0 pub' w.
Proof.
  intros [Hs Hl Hg He] Hpre. pose proof (prefix_length _ _ Hpre) as Hle. destruct Hpre as [l ->]. unfold zlen in Hs.
  assert (Et : take (Z.to_nat (po_seq w)) (pub ++ l) = take (Z.to_nat (po_seq w)) pub) by (apply take_app_le; lia).
  split; rewrite ?Et; [unfold zlen; lia|done..|]. intros E. destruct (He E) as (r & Hr & Hn). exists r. split; [|done]. by apply lookup_app_l_Some.
Qed.

Lemma taken_size todo (pub : list load_request) seq : zlen (taken todo pub seq) <= Z.of_nat todo.
Proof. unfold taken, zlen. pose proof (prefix_length _ _ (live_prefix_prefix (take todo (drop (Z.to_nat seq) pub)))). rewrite length_take in *. lia. Qed.

Lemma taken_take todo (pub : list load_request) seq : 0 <= seq ->
  take (Z.to_nat (seq + zlen (taken todo pub seq))) pub = take (Z.to_nat seq) pub ++ taken todo pub seq.
Proof.
  intros Hs. unfold taken. destruct (live_prefix_prefix (take todo (drop (Z.to_nat seq) pub))) as [l El].
  set (g := live_prefix _) in *. rewrite <- (take_drop todo (drop (Z.to_nat seq) pub)) in El at 1.
  assert (Ed : exists l', drop (Z.to_nat seq) pub = g ++ l').
  { exists (l ++ drop todo (drop (Z.to_nat seq) pub)). rewrite (assoc_L (++)), <- El. by rewrite !take_drop. }
  destruct Ed as [l' Ed]. destruct (decide (Z.to_nat seq <= length pub)%nat) as [Hle|Hgt].
  - rewrite <- (take_drop (Z.to_nat seq) pub) at 1. rewrite Ed.
    replace (Z.to_nat (seq + zlen g)) with (length (take (Z.to_nat seq) pub) + length g)%nat by (rewrite length_take; unfold zlen; lia).
    rewrite (assoc_L (++)), <- length_app. apply take_app_length.
  - rewrite drop_ge in Ed by lia. symmetry in Ed. apply app_eq_nil in Ed as [-> _]. change (zlen []) with 0. by rewrite Z.add_0_r, app_nil_r.
Qed.

Lemma poll_step_ok a0 (q : nat) pub slots w w' : polled a0 pub w -> pub `prefix_of` slots -> poll_step begin handle finish BATCH_SIZE q (zlen pub) slots w = Some w' ->
  polled a0 pub w' /\ po_endflag w = false /\ (po_seq w < po_seq w' \/ po_endflag w' = true) /\ po_seq w <= po_seq w'.
Proof.
  intros [Hs Hl (gs & Eg & Hgs & Er) _] Hpre. unfold poll_step. destruct (po_endflag w); [done|]. destruct (Z.leb_spec (zlen pub) (po_seq w)); [done|].
  unfold poll_turn. destruct (gather_taken handle (Z.to_nat BATCH_SIZE) pub slots (po_seq w) 0 (begin (po_state w)) Hpre Hs) as (fl & -> & Hend & Hn).
  pose proof (taken_take (Z.to_nat BATCH_SIZE) pub (po_seq w) ltac:(lia)) as Et. pose proof (taken_size (Z.to_nat BATCH_SIZE) pub (po_seq w)) as Hsz.
  pose proof (live_prefix_live (take (Z.to_nat BATCH_SIZE) (drop (Z.to_nat (po_seq w)) pub))) as Hlive. fold (taken (Z.to_nat BATCH_SIZE) pub (po_seq w)) in Hlive.
  set (g := taken (Z.to_nat BATCH_SIZE) pub (po_seq w)) in *. pose proof (zlen_nonneg g) as Hz. rewrite Z.add_0_l.
  assert (Hle : po_seq w + zlen g <= zlen pub).
  { apply (f_equal length) in Et. rewrite length_app, !length_take in Et. unfold zlen in *. lia. }
  destruct (handle_all handle g (begin (po_state w))) as [l|] eqn:El; [|done]. cbn [mbind option_bind]. destruct (finish (zlen g) l) as [a|] eqn:Ea; [|done]. cbn [mbind option_bind].
  intros [= <-]. cbn [po_seq po_endflag po_state]. split_and!; [|done| |lia].
  - split; cbn [po_seq po_endflag po_state]; [lia|rewrite Et; by apply Forall_app| |done]. destruct (decide (zlen g = 0)) as [E0|E0].
    + assert (E : g = []) by (destruct g; [done|unfold zlen in E0; cbn in E0; lia]). rewrite E in El, Ea. cbn in El. injection El as <-. change (zlen []) with 0 in Ea.
      rewrite Hidle in Ea. injection Ea as <-. exists gs. by rewrite E0, Z.add_0_r.
    + exists (gs ++ [g]). rewrite concat_app, Eg, Et. cbn. rewrite app_nil_r. split_and!; [done| |].
      * apply Forall_app_2; [done|]. constructor; [unfold group_size; lia|done].
      * rewrite groups_run_snoc, Er. cbn. unfold group_run. by rewrite El.
  - destruct fl; [by right|left]. specialize (Hn eq_refl). lia.
Qed.

(** A worker keeps [ok], and no group of [okr] requests is undefined. *)
Context (ok : A -> Prop) (okr : load_request -> Prop).
Context (Hgroup : forall a g, ok a -> group_size g -> Forall okr g -> Forall live g -> exists a', group_run begin handle finish g a = Some a' /\ ok a').

Lemma groups_ok gs : forall a, ok a -> Forall group_size gs -> Forall okr (concat gs) -> Forall live (concat gs) -> exists a', run gs a = Some a' /\ ok a'.
Proof.
  induction gs as [|g gs IH]; intros a Ha Hgs Hok Hlv; [by exists a|]. inversion_clear Hgs. cbn [concat] in *. apply Forall_app in Hok as [? ?], Hlv as [? ?].
  destruct (Hgroup a g) as (a' & E & Ha'); [done..|]. cbn. rewrite E. by apply IH.
Qed.

Lemma poll_progress a0 (q : nat) pub slots w : polled a0 pub w -> ok a0 -> Forall okr pub -> pub `prefix_of` slots -> po_endflag w = false -> po_seq w < zlen pub ->
  is_Some (poll_step begin handle finish BATCH_SIZE q (zlen pub) slots w).
Proof.
  intros [Hs Hl (gs & Eg & Hgs & Er) _] Ha Hok Hpre Hfl Hlt. unfold poll_step. rewrite Hfl. destruct (Z.leb_spec (zlen pub) (po_seq w)); [lia|].
  assert (Ho : ok (po_state w)).
  { destruct (groups_ok gs a0 Ha Hgs) as (a' & E & Ha'); [rewrite Eg; by apply Forall_take|by rewrite Eg|]. rewrite Er in E. by injection E as ->. }
  unfold poll_turn. destruct (gather_taken handle (Z.to_nat BATCH_SIZE) pub slots (po_seq w) 0 (begin (po_state w)) Hpre Hs) as (fl & -> & _).
  set (g := taken (Z.to_nat BATCH_SIZE) pub (po_seq w)) in *.
  assert (Hg : exists a, group_run begin handle finish g (po_state w) = Some a).
  { destruct (decide (zlen g = 0)) as [E0|E0].
    - assert (E : g = []) by (destruct g; [done|unfold zlen in E0; cbn in E0; lia]). rewrite E. exists (po_state w). apply Hidle.
    - pose proof (taken_size (Z.to_nat BATCH_SIZE) pub (po_seq w)) as Hsz. fold g in Hsz. pose proof (zlen_nonneg g). pose proof (taken_take (Z.to_nat BATCH_SIZE) pub (po_seq w) ltac:(lia)) as Et. fold g in Et.
      destruct (Hgroup (po_state w) g Ho) as (a & E & _); [unfold group_size; lia| |apply live_prefix_live|by exists a].
      apply (Forall_take _ (Z.to_nat (po_seq w + zlen g))) in Hok. rewrite Et in Hok. by apply Forall_app in Hok as [_ ?]. }
  destruct Hg as [a Ea]. unfold group_run in Ea. destruct (handle_all handle g (begin (po_state w))) as [l|]; [|done]. cbn [mbind option_bind] in *. rewrite Z.add_0_l, Ea. by eexists.
Qed.
End Correct.

(** ** The threads *)

(** Every run from [start] has at most [bound] steps, and one that cannot go on is in a
    state of [P]. *)
Definition ends {T} (R : relation T) (start : T) (bound : nat) (P : T -> Prop) : Prop :=
  forall k st, nsteps R k start st -> (k <= bound)%nat /\ (~ (exists st', R st st') -> P st).

(** Everything is posted and all workers have left their loops. *)
Definition all_left {A} (n : nat) (st : system (R := load_request) (W := poller A)) : Prop :=
  main st = [] /\ length (workers st) = n /\ Forall (fun w => po_endflag w = true) (workers st).

Section System.
Context {A L : Type} (begin : A -> L) (handle : load_request -> L -> option L) (finish : Z -> L -> option A).
Context (Hidle : forall a, finish 0 (begin a) = Some a).
Context (BATCH_SIZE QUEUE_NUM : Z) (cap : nat) (HB : 0 < BATCH_SIZE) (HQ : 0 < QUEUE_NUM < 2 ^ 31) (Hcap : Z.of_nat cap < 2 ^ 31).
Context (starts : list A) (Hstarts : zlen starts = QUEUE_NUM) (keys : list Z) (Hkeys : Forall (fun k => 0 <= k < 2 ^ 31) keys).

Abbreviation n := (Z.to_nat QUEUE_NUM).
Abbreviation sent := (sent load_request_default).

(** The posts for the given keys, and the end markers. *)
Definition key_posts : list (@post load_request) := load_from QUEUE_NUM 0 keys ++ ((fun i => (i, set_load_end)) <$> seq 0 n).

(** The requests of queue [q] without its end marker. *)
Definition requests_of (q : nat) : list load_request := sent (load_from QUEUE_NUM 0 keys) q.

Context (Hfit : posts_fit load_request_default cap n key_posts).

Definition poll_system_step : system -> system -> Prop := step (poll_step begin handle finish BATCH_SIZE).
Definition poll_start (posts : list (@post load_request)) : system := initial load_request_default cap n posts (initial_poller <$> starts).

Definition poll_inv (q : nat) (pub : list load_request) (w : poller A) : Prop :=
  exists a0, starts !! q = Some a0 /\ polled begin handle finish BATCH_SIZE a0 pub w.

Lemma poll_sent q : (q < n)%nat -> sent key_posts q = requests_of q ++ [set_load_end load_request_default].
Proof. intros Hq. unfold key_posts, requests_of. by rewrite sent_app, sent_all_queues. Qed.

Lemma requests_keys q : lq_key <$> requests_of q = filter (fun k => k mod QUEUE_NUM = Z.of_nat q) keys /\ Forall live (requests_of q).
Proof. apply (sent_load QUEUE_NUM HQ q 0 keys Hkeys). apply Z.le_refl. Qed.

Lemma poll_inv_mono q pub pub' w : poll_inv q pub w -> pub `prefix_of` pub' -> poll_inv q pub' w.
Proof. intros (a0 & Ha & Hw) Hpre. exists a0. split; [done|]. by eapply polled_mono. Qed.

Lemma poll_inv_step q pub slots w w' : poll_inv q pub w -> zlen pub < 2 ^ 31 -> pub `prefix_of` slots ->
  poll_step begin handle finish BATCH_SIZE q (zlen pub) slots w = Some w' -> poll_inv q pub w'.
Proof.
  intros (a0 & Ha & Hw) _ Hpre E. exists a0. split; [done|]. apply (poll_step_ok begin handle finish BATCH_SIZE HB Hidle a0 q pub slots w w' Hw Hpre E).
Qed.

Lemma poll_inv_initial q w : (initial_poller <$> starts) !! q = Some w -> poll_inv q [] w.
Proof.
  rewrite list_lookup_fmap. destruct (starts !! q) as [a|] eqn:E; [|done]. cbn. intros [= <-]. exists a. split; [done|].
  split; cbn; [done|done| |done]. by exists [].
Qed.

Lemma pollers_length : length (initial_poller <$> starts) = n.
Proof. rewrite length_fmap. unfold zlen in Hstarts. lia. Qed.

Lemma poll_reach st : rtc poll_system_step (poll_start key_posts) st -> exists done_, system_inv load_request_default cap n poll_inv key_posts st done_.
Proof.
  intros Hr. eapply system_inv_reachable; [apply poll_inv_mono|apply poll_inv_step|done|done|apply pollers_length|apply poll_inv_initial|exact Hr].
Qed.

(** A worker that has left its loop has taken all the requests of its queue, in order and in groups. *)
Lemma polled_all st q w : rtc poll_system_step (poll_start key_posts) st -> workers st !! q = Some w -> po_endflag w = true ->
  (q < n)%nat /\ exists a0 gs, starts !! q = Some a0 /\ concat gs = requests_of q /\ Forall (group_size BATCH_SIZE) gs /\ groups_run begin handle finish gs a0 = Some (po_state w) /\
    po_seq w = zlen (requests_of q).
Proof.
  intros Hr Hw He. destruct (poll_reach st Hr) as (done_ & Hm & Hn & Hinv). destruct (Hinv q w Hw) as (a0 & Ha & [Hs Hl (gs & Eg & Hgs & Er) Hend]).
  assert (Hq : (q < n)%nat) by (rewrite <- Hn; by eapply lookup_lt_Some). split; [done|]. exists a0, gs.
  destruct (Hend He) as (r & Hr' & Hnl). destruct (requests_keys q) as [_ Hlive].
  pose proof (sent_mono load_request_default _ _ q (main_inv_done _ _ _ _ _ _ _ Hm)) as Hpre. rewrite poll_sent in Hpre by done.
  pose proof (taken_all live _ _ _ _ r Hpre Hlive Hr' Hnl) as Et. split_and!; [done|by rewrite Eg|done|done|].
  rewrite <- Et. unfold zlen in *. rewrite length_take. lia.
Qed.

(** *** How long it runs *)

Definition poll_left (q : nat) (w : poller A) : nat := length (sent key_posts q) - Z.to_nat (po_seq w) + (if po_endflag w then 0 else 1).

Lemma step_poll_left q pub slots w w' : (q < n)%nat -> poll_inv q pub w -> pub `prefix_of` sent key_posts q -> pub `prefix_of` slots ->
  zlen pub < 2 ^ 31 -> poll_step begin handle finish BATCH_SIZE q (zlen pub) slots w = Some w' -> (poll_left q w' < poll_left q w)%nat.
Proof.
  intros Hq (a0 & Ha & Hw) Hpre Hpre' _ E. apply prefix_length in Hpre.
  destruct (poll_step_ok begin handle finish BATCH_SIZE HB Hidle a0 q pub slots w w' Hw Hpre' E) as (Hw' & Ef & Hprog & Hle).
  pose proof (pi_seq _ _ _ _ _ _ _ Hw). pose proof (pi_seq _ _ _ _ _ _ _ Hw'). unfold zlen in *. unfold poll_left. rewrite Ef.
  destruct Hprog as [Hlt|Et]; [destruct (po_endflag w'); lia|]. rewrite Et. lia.
Qed.

Lemma poll_measure : measure poll_left (poll_start key_posts) = (3 * length key_posts + n)%nat.
Proof.
  unfold measure, poll_start, initial. cbn [main workers]. rewrite actions_length. rewrite (workers_measure_sum poll_left 0 _ (fun q => length (sent key_posts q) + 1)%nat).
  - rewrite pollers_length, sum_list_plus, sent_total, sum_list_ones by apply Hfit. lia.
  - intros i w Hi. rewrite list_lookup_fmap in Hi. destruct (starts !! i); [|done]. cbn in Hi. injection Hi as <-. unfold poll_left. cbn. lia.
Qed.

(** What the store of queue [q] keeps, and the requests that it can take. *)
Context (ok : nat -> A -> Prop) (okr : nat -> load_request -> Prop).
Context (Hok : forall q a, starts !! q = Some a -> ok q a) (Hokr : forall q, (q < n)%nat -> Forall (okr q) (sent key_posts q)).
Context (Hgroup : forall q a g, ok q a -> group_size BATCH_SIZE g -> Forall (okr q) g -> Forall live g -> exists a', group_run begin handle finish g a = Some a' /\ ok q a').

Lemma stuck_polled q w slots : (q < n)%nat -> poll_inv q (sent key_posts q) w -> sent key_posts q `prefix_of` slots ->
  poll_step begin handle finish BATCH_SIZE q (zlen (sent key_posts q)) slots w = None -> po_endflag w = true.
Proof.
  intros Hq (a0 & Ha & Hw) Hpre E. destruct (po_endflag w) eqn:Ef; [done|]. exfalso. pose proof Hw as [Hs Hl _ _]. destruct (decide (po_seq w < zlen (sent key_posts q))) as [Hlt|Hge].
  - destruct (poll_progress begin handle finish BATCH_SIZE HB Hidle (ok q) (okr q) (Hgroup q) a0 q (sent key_posts q) slots w Hw (Hok q a0 Ha) (Hokr q Hq) Hpre Ef Hlt) as [w' Hw']. by rewrite E in Hw'.
  - assert (Es : po_seq w = zlen (sent key_posts q)) by lia. rewrite Es in Hl. unfold zlen in Hl. rewrite Nat2Z.id, firstn_all, poll_sent in Hl by done.
    apply Forall_app in Hl as [_ Hl]. apply Forall_inv in Hl. by apply Hl.
Qed.

Lemma poll_ends : ends poll_system_step (poll_start key_posts) (3 * length key_posts + n) (all_left n).
Proof.
  intros k st Hk. destruct (poll_reach st) as (done_ & Hinv); [apply rtc_nsteps; eauto|]. split.
  - pose proof poll_measure as Em. enough (k + measure poll_left st <= 3 * length key_posts + n)%nat by lia.
    rewrite <- Em. eapply run_bounded; [apply poll_inv_mono|apply poll_inv_step|done|done|apply pollers_length|apply poll_inv_initial|apply step_poll_left|exact Hk].
  - intros Hstuck. destruct (system_stuck _ _ _ _ _ _ _ _ Hcap Hfit Hinv Hstuck) as [Hmain Hw]. destruct Hinv as (_ & Hn & _). split_and!; [done|done|].
    apply Forall_lookup. intros q w Hq. destruct (Hw q w Hq) as (Hqi & slots & Hpre & E). eapply stuck_polled; [|done|done|done]. rewrite <- Hn. by eapply lookup_lt_Some.
Qed.
End System.
