(* ===== verification/OtherStores.v ===== *)
(** * The programs on LevelDB and WiredTiger

    write_test_leveldb.cpp and read_test_leveldb.cpp load LevelDB stores and read from
    them, write_test_wt.cpp and read_test_wt.cpp do the same with WiredTiger tables. The
    threads are those of Polling.v. LevelDB is behind the interface of a store and a batch
    of KVStore.v, WiredTiger behind that of a cursor. The pragma of read_test_leveldb.cpp
    has no effect, since its rule in the Makefile does not turn OpenMP on. *)

From S2P Require Import Prelude Comparator Random KeyGen Iterator KVStore Queue Ycsb Loader ReadTest Trace Polling.

(** ** LevelDB *)

Section LevelDb.
Context {S B : Type} `{Batch B} `{!DB S B} (key_size_ : Z).

(** *** The worker of write_test_leveldb.cpp *)

(** [WriteBatch batch]. *)
Definition leveldb_begin (db : S) : S * B := (db, batch_new).

Definition leveldb_put (r : load_request) (l : S * B) : option (S * B) :=
  Some (l.1, batch_Put l.2 (GenerateKeyFromInt key_size_ (u64 (lq_key r))) load_value).

Definition leveldb_write (batch_size : Z) (l : S * B) : option S := Some (if batch_size =? 0 then l.1 else (db_Write l.1 l.2).2).

(** *** The worker of read_test_leveldb.cpp *)

Record leveldb_reader := mkLevelReader { lr_db : S; lr_keys : list key_slice; lr_key : bytes; lr_num : Z }.

Definition leveldb_reader_new (db : S) : leveldb_reader := mkLevelReader db [] (replicate (Z.to_nat key_size_) 0) 0.

Definition leveldb_push (r : load_request) (l : leveldb_reader) : option leveldb_reader :=
  Some (mkLevelReader (lr_db l) (lr_keys l ++ [KeyArray]) (GenerateKeyFromInt key_size_ (u64 (lq_key r))) (lr_num l)).

(** [for (int i = 0; i < batch_size; i++)], from [i] on. *)
Fixpoint leveldb_gets (todo : nat) (i : nat) (l : leveldb_reader) : option leveldb_reader :=
  match todo with
  | O => Some l
  | Datatypes.S todo' =>
      k ← lr_keys l !! i;
      leveldb_gets todo' (Datatypes.S i)
        (match db_Get (B := B) (lr_db l) (slice_bytes (lr_key l) k) with
         | Some _ => mkLevelReader (lr_db l) (lr_keys l) (lr_key l) (i32 (lr_num l + 1))
         | None => l
         end)
  end.

Definition leveldb_finish (batch_size : Z) (l : leveldb_reader) : option leveldb_reader :=
  if batch_size =? 0 then Some l
  else l ← leveldb_gets (Z.to_nat batch_size) 0 l; Some (mkLevelReader (lr_db l) [] (lr_key l) (lr_num l)).
End LevelDb.

(** ** WiredTiger *)

(** A cursor of a table of strings. [insert] and [search_near] return an error code, the
    latter with the value it stores in [exactp]. *)
Class Cursor (C : Type) := {
  cursor_set_key : C -> bytes -> C;
  cursor_set_value : C -> bytes -> C;
  cursor_insert : C -> Z * C;
  cursor_search_near : C -> Z * Z * C;
  cursor_get_value : C -> Z * C;
  cursor_reset : C -> C
}.

(** [sprintf(key, "%028d", k)] of an [int], without the terminating zero. *)
Definition zero_pad (width : nat) (digits : bytes) : bytes := replicate (width - length digits) 48 ++ digits.

Definition sprintf_028d (k : Z) : bytes :=
  if k <? 0 then 45 :: zero_pad 27 (dec_digits 10 (- k) []) else zero_pad 28 (dec_digits 10 k []).

(** [value_str]: the last of its 100 characters ends the string. *)
Definition wt_value : bytes := replicate 99 48.

Section WiredTiger.
Context {C : Type} `{Cursor C} (key_size_ : Z).

(** The key goes to an array of [key_size_ + 1] characters. *)
Definition wt_key (r : load_request) : option bytes :=
  let key := sprintf_028d (lq_key r) in if zlen key + 1 <=? key_size_ + 1 then Some key else None.

(** *** The worker of write_test_wt.cpp; it only reports an error of [insert]. *)
Definition wt_insert (r : load_request) (c : C) : option C :=
  key ← wt_key r;
  Some (cursor_insert (cursor_set_value (cursor_set_key c key) wt_value)).2.

Definition wt_done (batch_size : Z) (c : C) : option C := Some c.

(** *** The worker of read_test_wt.cpp *)

Record wt_reader := mkWtReader { wr_cursor : C; wr_num : Z }.

Definition wt_search (r : load_request) (l : wt_reader) : option wt_reader :=
  key ← wt_key r;
  let '(ret, exact, c) := cursor_search_near (cursor_set_key (wr_cursor l) key) in
  let c := (cursor_get_value c).2 in
  Some (if ret =? 0 then mkWtReader (cursor_reset c) (if exact =? 0 then i32 (wr_num l + 1) else wr_num l)
        else mkWtReader c (wr_num l)).

Definition wt_search_done (batch_size : Z) (l : wt_reader) : option wt_reader := Some l.
End WiredTiger.
Arguments wt_reader : clear implicits.
Arguments leveldb_reader : clear implicits.

(** ** The main threads *)

Section Main.
Context (QUEUE_NUM TOTAL_NUM : Z) (HQ : 0 < QUEUE_NUM < 2 ^ 31) (HT : 10 <= TOTAL_NUM < 2 ^ 31).
Context (shuffle : list Z -> mt_state -> list Z) (Hshuffle : forall l rng, shuffle l rng ≡ₚ l) (SEED : Z) (rand : mt_state).

Lemma loader_posts mode : mode <> RANDOM -> exists keys, keys ≡ₚ seqZ 0 TOTAL_NUM /\
  load_posts QUEUE_NUM TOTAL_NUM (KeyGenerator_new shuffle SEED rand mode TOTAL_NUM) = Some (key_posts QUEUE_NUM keys).
Proof.
  intros Hm. destruct (KeyGenerator_take_all shuffle SEED rand mode TOTAL_NUM Hshuffle ltac:(lia) Hm) as (keys & g & E & Hp & _).
  exists keys. split; [done|]. unfold load_posts. by rewrite (load_loop_keys QUEUE_NUM _ 0 _ keys g E).
Qed.

(** The readers take the first [READ_NUM] of the shuffled keys. *)
Lemma reader_posts READ_NUM : 0 <= READ_NUM <= TOTAL_NUM -> exists keys, Forall (fun k => 0 <= k < TOTAL_NUM) keys /\ (zlen keys = READ_NUM /\ NoDup keys) /\
  load_posts QUEUE_NUM READ_NUM (KeyGenerator_new shuffle SEED rand UNIQUE_RANDOM TOTAL_NUM) = Some (key_posts QUEUE_NUM keys).
Proof.
  intros HR. assert (Hp : RandomShuffle shuffle (seqZ 0 TOTAL_NUM) (u32 SEED) ≡ₚ seqZ 0 TOTAL_NUM) by apply Hshuffle. pose proof (Permutation_length Hp) as Hl. rewrite length_seqZ in Hl.
  exists (take (Z.to_nat READ_NUM) (RandomShuffle shuffle (seqZ 0 TOTAL_NUM) (u32 SEED))). split_and!.
  - apply Forall_take, Forall_forall. intros k. rewrite Hp, elem_of_seqZ. lia.
  - unfold zlen. rewrite length_take. lia.
  - apply (sublist_NoDup _ (RandomShuffle shuffle (seqZ 0 TOTAL_NUM) (u32 SEED))); [rewrite Hp; apply NoDup_seqZ|apply sublist_take].
  - unfold load_posts. erewrite load_loop_keys; [done|]. rewrite KeyGenerator_take_unique; unfold zlen; cbn; try done; lia.
Qed.

Lemma keys_small keys : Forall (fun k => 0 <= k < TOTAL_NUM) keys -> Forall (fun k => 0 <= k < 2 ^ 31) keys.
Proof. intros Hk. eapply Forall_impl; [exact Hk|]. cbn. lia. Qed.

Lemma all_keys keys : keys ≡ₚ seqZ 0 TOTAL_NUM -> Forall (fun k => 0 <= k < TOTAL_NUM) keys.
Proof. intros Hp. apply Forall_forall. intros k. rewrite Hp, elem_of_seqZ. lia. Qed.

(** The keys that a queue gets. *)
Lemma request_key keys q r : Forall (fun k => 0 <= k < TOTAL_NUM) keys -> r ∈ requests_of QUEUE_NUM keys q ->
  0 <= lq_key r < TOTAL_NUM /\ lq_key r mod QUEUE_NUM = Z.of_nat q.
Proof.
  intros Hk Hr. destruct (requests_keys QUEUE_NUM HQ keys (keys_small keys Hk) q) as [E _].
  assert (Hin : lq_key r ∈ lq_key <$> requests_of QUEUE_NUM keys q) by (apply list_elem_of_fmap; by exists r). rewrite E in Hin.
  apply list_elem_of_filter in Hin as [Hq Hin]. rewrite Forall_forall in Hk. by split; [apply Hk|].
Qed.

(** Every key of the residue is requested when all keys are. *)
Lemma key_requested keys q v : keys ≡ₚ seqZ 0 TOTAL_NUM -> 0 <= v < TOTAL_NUM -> v mod QUEUE_NUM = Z.of_nat q -> v ∈ lq_key <$> requests_of QUEUE_NUM keys q.
Proof.
  intros Hp Hv Hq. destruct (requests_keys QUEUE_NUM HQ keys (keys_small keys (all_keys keys Hp)) q) as [-> _]. apply list_elem_of_filter. split; [done|]. rewrite Hp, elem_of_seqZ. lia.
Qed.

(** No queue gets more than all the keys that are read, or than all the keys of its
    residue. Where an array of the reader has room for either, the posts fit. *)
Definition reads_fit (READ_NUM : Z) : Prop := Z.min READ_NUM (TOTAL_NUM / QUEUE_NUM + 1) <= READ_NUM / QUEUE_NUM + READ_NUM / 10.

(** So with one queue, and when all keys are read. *)
Lemma reads_fit_one_or_all READ_NUM : 0 <= READ_NUM -> QUEUE_NUM = 1 \/ READ_NUM = TOTAL_NUM -> reads_fit READ_NUM.
Proof.
  unfold reads_fit. intros HR [->| ->]; [rewrite !Z.div_1_r; pose proof (Z.div_pos READ_NUM 10); lia|].
  pose proof (Z.div_le_mono 10 TOTAL_NUM 10 ltac:(lia) ltac:(lia)). change (10 / 10) with 1 in *. lia.
Qed.

Lemma read_posts_fit READ_NUM keys : Forall (fun k => 0 <= k < TOTAL_NUM) keys -> zlen keys = READ_NUM -> NoDup keys -> reads_fit READ_NUM ->
  posts_fit load_request_default (Z.to_nat (load_slots QUEUE_NUM READ_NUM)) (Z.to_nat QUEUE_NUM) (key_posts QUEUE_NUM keys).
Proof.
  intros Hk Hz Hnd Hfit. pose proof (posts_queues QUEUE_NUM HQ keys) as Hall. split; [exact Hall|]. intros q. destruct (decide (q < Z.to_nat QUEUE_NUM)%nat) as [Hq|Hq].
  - rewrite poll_sent, length_app by done. cbn [length]. destruct (requests_keys QUEUE_NUM HQ keys (keys_small keys Hk) q) as [E _].
    apply (f_equal length) in E. rewrite length_fmap in E. rewrite E. pose proof (length_filter (fun k => k mod QUEUE_NUM = Z.of_nat q) keys).
    pose proof (residue_count QUEUE_NUM HQ TOTAL_NUM (Z.of_nat q) ltac:(lia)).
    assert (Z.of_nat (length (filter (fun k => k mod QUEUE_NUM = Z.of_nat q) keys)) <= Z.of_nat (length (filter (fun k => k mod QUEUE_NUM = Z.of_nat q) (seqZ 0 TOTAL_NUM)))).
    { apply Nat2Z.inj_le, submseteq_length, NoDup_submseteq; [by apply NoDup_filter|]. intros k. rewrite !list_elem_of_filter, elem_of_seqZ. rewrite Forall_forall in Hk. intros [? ?%Hk]. lia. }
    unfold reads_fit, load_slots, zlen in *. lia.
  - unfold sent. rewrite filter_none; [cbn; lia|]. intros p Hp E. rewrite Forall_forall in Hall. specialize (Hall p Hp). lia.
Qed.
End Main.

(** Puts of one value: every put key has it. *)
Lemma apply_puts_present {A} (f : A -> bytes) (value : bytes) (l : list A) (m : gmap bytes bytes) x : x ∈ l -> apply_puts ((fun r => (f r, value)) <$> l) m !! f x = Some value.
Proof.
  intros Hx. rewrite apply_puts_lookup. destruct (last (filter (fun e : entry => e.1 = f x) ((fun r => (f r, value)) <$> l))) as [e|] eqn:E.
  - apply last_Some_elem_of, list_elem_of_filter in E as [_ He]. apply list_elem_of_fmap in He as (y & -> & _). done.
  - apply last_None in E. assert (Hin : (f x, value) ∈ filter (fun e : entry => e.1 = f x) ((fun r => (f r, value)) <$> l)).
    { apply list_elem_of_filter. split; [done|]. apply list_elem_of_fmap. by exists x. }
    rewrite E in Hin. by apply elem_of_nil in Hin.
Qed.

Lemma apply_puts_absent {A} (f : A -> bytes) (value : bytes) (l : list A) (m : gmap bytes bytes) k : (forall x, x ∈ l -> f x <> k) -> apply_puts ((fun r => (f r, value)) <$> l) m !! k = m !! k.
Proof.
  intros Hne. rewrite apply_puts_lookup. destruct (last (filter (fun e : entry => e.1 = k) ((fun r => (f r, value)) <$> l))) as [e|] eqn:E; [|done].
  apply last_Some_elem_of, list_elem_of_filter in E as [Ek He]. apply list_elem_of_fmap in He as (y & -> & Hy). by destruct (Hne y Hy).
Qed.

(** ** Loading and reading LevelDB *)

Section LevelDbCorrect.
Context {S B : Type} `{Batch B} `{!DB S B}.
Context (batch_inv : B -> Prop) (batch_ops : B -> list entry) (db_inv : S -> Prop) (contents : S -> gmap bytes bytes).
Context `{!BatchLaws batch_inv batch_ops} `{!DBLaws batch_inv batch_ops db_inv contents}.
(** The stores accept every write (no I/O error). *)
Context (writes_succeed : forall s b, db_inv s -> batch_inv b -> (db_Write s b).1 = true).
Context (key_size_ : Z) (Hks : 8 <= key_size_ < 2 ^ 32 - 8).

Abbreviation put_of := (load_put key_size_).

Lemma leveldb_puts_ok g : forall (db : S) b, batch_inv b -> zlen (batch_ops b) + zlen g < 2 ^ 32 ->
  exists b', handle_all (leveldb_put key_size_) g (db, b) = Some (db, b') /\ batch_inv b' /\ batch_ops b' = batch_ops b ++ (put_of <$> g).
Proof.
  induction g as [|r g IH]; intros db b Hb Hz; [exists b; by rewrite app_nil_r|]. unfold zlen in Hz. cbn [length] in Hz.
  destruct (law_batch_Put b (put_of r).1 load_value Hb) as [Hb' Ho]; [cbn; rewrite GenerateKeyFromInt_length; lia|done|unfold zlen; lia|].
  destruct (IH db (batch_Put b (put_of r).1 load_value) Hb') as (b' & E & Hi & Eo); [rewrite Ho; unfold zlen; rewrite length_app; cbn; lia|].
  exists b'. cbn. rewrite Eo, Ho. split_and!; [exact E|done|]. by rewrite <- (assoc_L (++)).
Qed.

Lemma leveldb_group_ok g db : db_inv db -> zlen g < 2 ^ 32 ->
  exists db', group_run (leveldb_begin (B := B)) (leveldb_put key_size_) leveldb_write g db = Some db' /\ db_inv db' /\ contents db' = apply_puts (put_of <$> g) (contents db).
Proof.
  intros Hd Hz. destruct law_batch_new as [Hn En]. destruct (leveldb_puts_ok g db batch_new Hn) as (b & E & Hb & Eo); [by rewrite En|].
  unfold group_run, leveldb_begin, leveldb_write. rewrite E. cbn [mbind option_bind fst snd]. eexists. split; [done|].
  destruct (Z.eqb_spec (zlen g) 0) as [E0|E0]; [assert (g = []) as -> by (destruct g; [done|unfold zlen in E0; cbn in E0; lia]); done|].
  destruct (law_Write db b Hd Hb (writes_succeed db b Hd Hb)) as [Hd' Hc]. split; [done|]. by rewrite Hc, Eo, En.
Qed.

Lemma leveldb_groups_ok BATCH_SIZE gs : BATCH_SIZE < 2 ^ 32 -> Forall (group_size BATCH_SIZE) gs -> forall db db', db_inv db ->
  groups_run (leveldb_begin (B := B)) (leveldb_put key_size_) leveldb_write gs db = Some db' -> db_inv db' /\ contents db' = apply_puts (put_of <$> concat gs) (contents db).
Proof.
  intros HB. induction 1 as [|g gs [_ Hg] _ IH]; intros db db' Hd; [by intros [= <-]|]. cbn [groups_run].
  destruct (leveldb_group_ok g db Hd ltac:(lia)) as (d1 & -> & Hd1 & Ec). cbn [mbind option_bind]. intros (Hd' & ->)%IH; [|done]. split; [done|].
  rewrite Ec. cbn [concat]. by rewrite fmap_app, apply_puts_app.
Qed.

(** *** Reads *)

Lemma leveldb_pushes g : forall l : leveldb_reader S, handle_all (leveldb_push key_size_) g l =
  Some (mkLevelReader (lr_db l) (lr_keys l ++ replicate (length g) KeyArray) (match last g with Some r => GenerateKeyFromInt key_size_ (u64 (lq_key r)) | None => lr_key l end) (lr_num l)).
Proof.
  induction g as [|r g IH]; intros l; [cbn; rewrite app_nil_r; by destruct l|]. cbn [handle_all leveldb_push mbind option_bind].
  rewrite IH. cbn [lr_db lr_keys lr_key lr_num]. rewrite <- (assoc_L (++)), last_cons. by destruct (last g).
Qed.

Lemma leveldb_gets_ok todo : forall i (l : leveldb_reader S), (i + todo <= length (lr_keys l))%nat -> db_inv (lr_db l) -> zlen (lr_key l) + 8 < 2 ^ 32 ->
  is_Some (contents (lr_db l) !! lr_key l) -> 0 <= lr_num l -> lr_num l + Z.of_nat todo < 2 ^ 31 ->
  leveldb_gets (B := B) todo i l = Some (mkLevelReader (lr_db l) (lr_keys l) (lr_key l) (lr_num l + Z.of_nat todo)).
Proof.
  induction todo as [|todo IH]; intros i l Hi Hd Hz Hp Hn Hb; cbn [leveldb_gets]; [rewrite Z.add_0_r; by destruct l|].
  destruct (lookup_lt_is_Some_2 (lr_keys l) i) as [[] ->]; [lia|]. cbn [mbind option_bind slice_bytes].
  rewrite law_Get by done. destruct Hp as [v Hv]. rewrite Hv, i32_small by lia. rewrite IH; cbn [lr_db lr_keys lr_key lr_num]; [|lia|done|done|by exists v|lia|lia].
  do 2 f_equal. lia.
Qed.

Lemma leveldb_gets_some todo : forall i (l : leveldb_reader S), (i + todo <= length (lr_keys l))%nat -> is_Some (leveldb_gets (B := B) todo i l).
Proof.
  induction todo as [|todo IH]; intros i l Hi; cbn [leveldb_gets]; [by eexists|].
  destruct (lookup_lt_is_Some_2 (lr_keys l) i) as [k ->]; [lia|]. cbn [mbind option_bind]. apply IH. destruct (db_Get _ _); cbn [lr_keys]; lia.
Qed.

Lemma leveldb_group_some g (a : leveldb_reader S) : lr_keys a = [] -> 0 < zlen g ->
  exists a', group_run id (leveldb_push key_size_) (leveldb_finish (B := B)) g a = Some a' /\ lr_keys a' = [].
Proof.
  intros Ha Hg. unfold group_run, id. rewrite leveldb_pushes, Ha. cbn [mbind option_bind app]. unfold leveldb_finish. destruct (Z.eqb_spec (zlen g) 0); [lia|].
  match goal with |- context [leveldb_gets ?t ?i ?l] => destruct (leveldb_gets_some t i l) as [a' ->]; [cbn; rewrite length_replicate; unfold zlen; lia|] end.
  cbn. by eexists.
Qed.

(** Every get of a turn reads the key of its last request, since the slices point to one array. *)
Lemma leveldb_read_group g db key num : db_inv db -> 0 < zlen g -> 0 <= num -> num + zlen g < 2 ^ 31 ->
  Forall (fun r => is_Some (contents db !! GenerateKeyFromInt key_size_ (u64 (lq_key r)))) g ->
  exists key', group_run id (leveldb_push key_size_) (leveldb_finish (B := B)) g (mkLevelReader db [] key num) = Some (mkLevelReader db [] key' (num + zlen g)).
Proof.
  intros Hd Hg Hn Hb Hp. unfold group_run, id. rewrite leveldb_pushes. cbn [mbind option_bind lr_db lr_keys lr_num app].
  destruct (last g) as [r|] eqn:El; [|apply last_None in El; subst g; unfold zlen in Hg; cbn in Hg; lia].
  eexists. unfold leveldb_finish. destruct (Z.eqb_spec (zlen g) 0); [lia|]. rewrite leveldb_gets_ok; cbn [lr_db lr_keys lr_key lr_num mbind option_bind]; [|rewrite length_replicate; unfold zlen; lia|done| | |done|].
  - by rewrite Z2Nat.id by lia.
  - rewrite GenerateKeyFromInt_length; lia.
  - rewrite Forall_forall in Hp. by apply Hp, last_Some_elem_of.
  - lia.
Qed.

Lemma leveldb_read_groups BATCH_SIZE gs : Forall (group_size BATCH_SIZE) gs -> forall db key num a, db_inv db -> 0 <= num -> num + zlen (concat gs) < 2 ^ 31 ->
  Forall (fun r => is_Some (contents db !! GenerateKeyFromInt key_size_ (u64 (lq_key r)))) (concat gs) ->
  groups_run id (leveldb_push key_size_) (leveldb_finish (B := B)) gs (mkLevelReader db [] key num) = Some a -> lr_num a = num + zlen (concat gs).
Proof.
  induction 1 as [|g gs [Hg _] _ IH]; intros db key num a Hd Hn Hb Hp.
  - intros [= <-]. cbn. change (zlen (@nil load_request)) with 0. lia.
  - cbn [concat groups_run] in *. rewrite zlen_app in *. pose proof (zlen_nonneg (concat gs)). apply Forall_app in Hp as [Hp1 Hp2].
    destruct (leveldb_read_group g db key num Hd Hg Hn ltac:(lia) Hp1) as (key' & ->). cbn [mbind option_bind]. intros E. rewrite (IH db key' (num + zlen g) a Hd); [lia|lia|lia|done|done].
Qed.

(** *** The programs *)

Context (BATCH_SIZE READ_BATCH_SIZE QUEUE_NUM TOTAL_NUM READ_NUM : Z) (HB : 0 < BATCH_SIZE < 2 ^ 32) (HRB : 0 < READ_BATCH_SIZE).
Context (HQ : 0 < QUEUE_NUM < 2 ^ 31) (HT : 10 <= TOTAL_NUM < 2 ^ 31) (HR : 0 <= READ_NUM <= TOTAL_NUM).
Context (Hslots : load_slots QUEUE_NUM TOTAL_NUM < 2 ^ 31) (Hrslots : load_slots QUEUE_NUM READ_NUM < 2 ^ 31).
Context (dbs : list S) (Hdbs : zlen dbs = QUEUE_NUM) (Hopen : Forall db_inv dbs).
Context (shuffle : list Z -> mt_state -> list Z) (Hshuffle : forall l rng, shuffle l rng ≡ₚ l) (SEED : Z) (rand : mt_state).

Abbreviation n := (Z.to_nat QUEUE_NUM).
Abbreviation keygen := (KeyGenerator_new shuffle SEED rand UNIQUE_RANDOM TOTAL_NUM).

Definition leveldb_load_step : system -> system -> Prop := poll_system_step (leveldb_begin (B := B)) (leveldb_put key_size_) leveldb_write BATCH_SIZE.
Definition leveldb_load_start (posts : list post) : system := poll_start QUEUE_NUM (Z.to_nat (load_slots QUEUE_NUM TOTAL_NUM)) dbs posts.
Definition leveldb_read_step : system -> system -> Prop := poll_system_step id (leveldb_push (S := S) key_size_) (leveldb_finish (B := B)) READ_BATCH_SIZE.
Definition leveldb_read_start (stores : list S) (posts : list post) : system :=
  poll_start QUEUE_NUM (Z.to_nat (load_slots QUEUE_NUM READ_NUM)) (leveldb_reader_new key_size_ <$> stores) posts.

(** The stores after the loader: every key is in the store of its residue. *)
Definition stores_loaded (stores : list S) : Prop := zlen stores = QUEUE_NUM /\ forall q db, stores !! q = Some db ->
  db_inv db /\ forall v, 0 <= v < TOTAL_NUM -> v mod QUEUE_NUM = Z.of_nat q -> contents db !! GenerateKeyFromInt key_size_ v = Some load_value.

Lemma leveldb_loads keys st : keys ≡ₚ seqZ 0 TOTAL_NUM -> rtc leveldb_load_step (leveldb_load_start (key_posts QUEUE_NUM keys)) st -> all_left n st ->
  stores_loaded (po_state <$> workers st).
Proof.
  intros Hk Hr (_ & Hn & Hl). pose proof (keys_small TOTAL_NUM HT keys (all_keys TOTAL_NUM keys Hk)) as Hks'. split; [unfold zlen; rewrite length_fmap; lia|].
  intros q db Hdb. rewrite list_lookup_fmap in Hdb. destruct (workers st !! q) as [w|] eqn:Hw; [|done]. injection Hdb as <-.
  destruct (polled_all (leveldb_begin (B := B)) (leveldb_put key_size_) leveldb_write ltac:(done) BATCH_SIZE QUEUE_NUM _ ltac:(lia) HQ (cap_bound QUEUE_NUM TOTAL_NUM ltac:(lia) ltac:(lia) Hslots)
    dbs Hdbs keys Hks' (load_posts_fit QUEUE_NUM TOTAL_NUM HQ ltac:(lia) ltac:(lia) keys Hk) st q w Hr Hw (Forall_lookup_1 _ _ _ _ Hl Hw)) as (Hq & db0 & gs & Hdb0 & Eg & Hgs & Er & _).
  destruct (leveldb_groups_ok BATCH_SIZE gs ltac:(lia) Hgs db0 (po_state w) (Forall_lookup_1 _ _ _ _ Hopen Hdb0) Er) as [Hi Ec]. split; [done|]. intros v Hv Hvq.
  destruct (proj1 (list_elem_of_fmap _ _ _) (key_requested QUEUE_NUM TOTAL_NUM HQ HT keys q v Hk Hv Hvq)) as (r & -> & Hrin). rewrite Ec, Eg.
  unfold load_put. rewrite <- (u64_small (lq_key r)) at 1 by lia.
  exact (apply_puts_present (fun r => GenerateKeyFromInt key_size_ (u64 (lq_key r))) load_value _ _ r Hrin).
Qed.

Lemma leveldb_load_ends keys : keys ≡ₚ seqZ 0 TOTAL_NUM ->
  ends leveldb_load_step (leveldb_load_start (key_posts QUEUE_NUM keys)) (3 * length (key_posts QUEUE_NUM keys) + n) (all_left n).
Proof.
  intros Hk. apply (poll_ends (leveldb_begin (B := B)) (leveldb_put key_size_) leveldb_write ltac:(done) BATCH_SIZE QUEUE_NUM (Z.to_nat (load_slots QUEUE_NUM TOTAL_NUM)) ltac:(lia) HQ ltac:(lia) dbs Hdbs keys (load_posts_fit QUEUE_NUM TOTAL_NUM HQ ltac:(lia) ltac:(lia) keys Hk)
    (fun _ => db_inv) (fun _ _ => True)).
  - intros q db Hdb. exact (Forall_lookup_1 _ _ _ _ Hopen Hdb).
  - intros q _. by apply Forall_forall.
  - intros q db g Hdb [_ Hg] _ _. destruct (leveldb_group_ok g db Hdb ltac:(lia)) as (db' & E & Hd' & _). by exists db'.
Qed.

Lemma leveldb_reads stores keys : stores_loaded stores -> Forall (fun k => 0 <= k < TOTAL_NUM) keys ->
  posts_fit load_request_default (Z.to_nat (load_slots QUEUE_NUM READ_NUM)) n (key_posts QUEUE_NUM keys) ->
  ends leveldb_read_step (leveldb_read_start stores (key_posts QUEUE_NUM keys)) (3 * length (key_posts QUEUE_NUM keys) + n)
    (fun st => all_left n st /\ forall q w, workers st !! q = Some w -> lr_num (po_state w) = po_seq w /\ po_seq w = zlen (requests_of QUEUE_NUM keys q)).
Proof.
  intros [Hn Hld] Hk Hfit k st Hst. assert (Hlen : zlen (leveldb_reader_new key_size_ <$> stores) = QUEUE_NUM) by (unfold zlen in *; by rewrite length_fmap).
  assert (Hpres : forall q db, stores !! q = Some db -> Forall (fun r => is_Some (contents db !! GenerateKeyFromInt key_size_ (u64 (lq_key r)))) (requests_of QUEUE_NUM keys q)).
  { intros q db Hdb. apply Forall_forall. intros r Hr. destruct (request_key QUEUE_NUM TOTAL_NUM HQ HT keys q r Hk Hr) as [Hv Hvq]. rewrite u64_small by lia.
    destruct (Hld q db Hdb) as [_ Hc]. rewrite Hc by done. by eexists. }
  destruct (poll_ends id (leveldb_push (S := S) key_size_) (leveldb_finish (B := B)) ltac:(done) READ_BATCH_SIZE QUEUE_NUM (Z.to_nat (load_slots QUEUE_NUM READ_NUM)) HRB HQ ltac:(lia) _ Hlen keys Hfit
    (fun _ a => lr_keys a = []) (fun _ _ => True)) with (k := k) (st := st) as [Hb Hleft]; [| | |done|].
  - intros q a Ha. rewrite list_lookup_fmap in Ha. destruct (stores !! q); [|done]. by injection Ha as <-.
  - intros q _. by apply Forall_forall.
  - intros q a g Ha [Hg _] _ _. by apply leveldb_group_some.
  - split; [done|]. intros Hstuck. specialize (Hleft Hstuck). split; [done|]. intros q w Hw. destruct Hleft as (_ & _ & Hl).
    destruct (polled_all id (leveldb_push (S := S) key_size_) (leveldb_finish (B := B)) ltac:(done) READ_BATCH_SIZE QUEUE_NUM (Z.to_nat (load_slots QUEUE_NUM READ_NUM)) HRB HQ ltac:(lia) _ Hlen keys (keys_small TOTAL_NUM HT keys Hk) Hfit
      st q w ltac:(apply rtc_nsteps; by exists k) Hw (Forall_lookup_1 _ _ _ _ Hl Hw)) as (Hq & a0 & gs & Ha0 & Eg & Hgs & Er & Hseq).
    rewrite list_lookup_fmap in Ha0. destruct (stores !! q) as [db|] eqn:Hdb; [|done]. injection Ha0 as <-. destruct (Hld q db Hdb) as [Hi _].
    destruct Hfit as [_ Hc]. specialize (Hc q). rewrite poll_sent, length_app in Hc by done. split; [|done]. rewrite Hseq.
    rewrite (leveldb_read_groups READ_BATCH_SIZE gs Hgs db (replicate (Z.to_nat key_size_) 0) 0 (po_state w)); [by rewrite Eg|done|done| |rewrite Eg; by apply Hpres|done].
    rewrite Eg. unfold zlen. lia.
Qed.

(** C21. Loading LevelDB and reading it, when both programs have the same [TOTAL_NUM] and
    no write fails. Whatever the interleaving of the threads, the loader ends within three
    steps per request and one per worker without a failed assertion or an access outside
    a queue, and has left all workers with every key in the store of its residue. The
    shuffled keys fit the arrays of the reader's queues whenever there is room for all
    reads or for all the keys of a residue, in particular with one queue or when all keys
    are read. If they fit, the reader over these stores ends as well, and every worker
    reports that it found all of its requests: the gets of a turn all read the last key
    of the turn, but no key is missing. *)
Theorem leveldb_load_and_read : exists posts, load_posts QUEUE_NUM TOTAL_NUM keygen = Some posts /\
  ends leveldb_load_step (leveldb_load_start posts) (3 * length posts + n) (all_left n) /\
  forall st, rtc leveldb_load_step (leveldb_load_start posts) st -> all_left n st ->
    let stores := po_state <$> workers st in stores_loaded stores /\
    exists rposts, load_posts QUEUE_NUM READ_NUM keygen = Some rposts /\
      (reads_fit QUEUE_NUM TOTAL_NUM READ_NUM -> posts_fit load_request_default (Z.to_nat (load_slots QUEUE_NUM READ_NUM)) n rposts) /\
      (posts_fit load_request_default (Z.to_nat (load_slots QUEUE_NUM READ_NUM)) n rposts ->
       ends leveldb_read_step (leveldb_read_start stores rposts) (3 * length rposts + n)
         (fun st' => all_left n st' /\ forall q w, workers st' !! q = Some w -> lr_num (po_state w) = po_seq w)).
Proof.
  destruct (loader_posts QUEUE_NUM TOTAL_NUM HT shuffle Hshuffle SEED rand UNIQUE_RANDOM ltac:(done)) as (keys & Hk & E).
  destruct (reader_posts QUEUE_NUM TOTAL_NUM HT shuffle Hshuffle SEED rand READ_NUM HR) as (rkeys & Hrk & [Hz Hnd] & Er).
  exists (key_posts QUEUE_NUM keys). split_and!; [done|by apply leveldb_load_ends|]. intros st Hst Hl stores. pose proof (leveldb_loads keys st Hk Hst Hl) as Hld. split; [done|].
  exists (key_posts QUEUE_NUM rkeys). split_and!; [done|by apply (read_posts_fit QUEUE_NUM TOTAL_NUM)|]. intros Hfit k st' Hk'. destruct (leveldb_reads stores rkeys Hld Hrk Hfit k st' Hk') as [Hb Hend]. split; [done|].
  intros Hstuck. destruct (Hend Hstuck) as [Ha Hnum]. split; [done|]. intros q w Hw. by destruct (Hnum q w Hw).
Qed.
End LevelDbCorrect.

(** ** Loading and reading WiredTiger *)

(** What WiredTiger documents: [insert] adds or overwrites the row of the key that was set,
    [search_near] stores 0 if it
    finds the row, another number if it finds one next to it, and returns an error
    otherwise. [rows] is the table, the
    other two what was set. *)
Class CursorLaws {C} `{Cursor C} (cursor_inv : C -> Prop) (rows : C -> gmap bytes bytes) (set_key_of set_value_of : C -> option bytes) : Prop := {
  law_set_key : forall c k, cursor_inv c -> cursor_inv (cursor_set_key c k) /\ rows (cursor_set_key c k) = rows c /\ set_key_of (cursor_set_key c k) = Some k;
  law_set_value : forall c v, cursor_inv c -> cursor_inv (cursor_set_value c v) /\ rows (cursor_set_value c v) = rows c /\
    set_key_of (cursor_set_value c v) = set_key_of c /\ set_value_of (cursor_set_value c v) = Some v;
  law_insert : forall c k v, cursor_inv c -> set_key_of c = Some k -> set_value_of c = Some v -> (cursor_insert c).1 = 0 ->
    cursor_inv (cursor_insert c).2 /\ rows (cursor_insert c).2 = <[k := v]> (rows c);
  law_search_near : forall c k, cursor_inv c -> set_key_of c = Some k ->
    cursor_inv (cursor_search_near c).2 /\ rows (cursor_search_near c).2 = rows c /\
    ((cursor_search_near c).1.1 = 0 -> (cursor_search_near c).1.2 = 0 <-> is_Some (rows c !! k));
  law_get_value : forall c, cursor_inv c -> cursor_inv (cursor_get_value c).2 /\ rows (cursor_get_value c).2 = rows c;
  law_reset : forall c, cursor_inv c -> cursor_inv (cursor_reset c) /\ rows (cursor_reset c) = rows c
}.

(** *** Keys *)

Lemma dec_digits_length fuel z : forall acc, (length (dec_digits fuel z acc) <= fuel + length acc)%nat.
Proof.
  revert z. induction fuel as [|fuel IH]; intros z acc; [done|]. cbn [dec_digits]. case_match; cbn [length]; [lia|]. etransitivity; [apply IH|]. cbn. lia.
Qed.

Lemma read_zeros i s : read_digits 0 (replicate i 48 ++ s) = read_digits 0 s.
Proof. induction i as [|i IH]; [done|]. exact IH. Qed.

(** The number can be read back, so that keys of different numbers differ. *)
Lemma sprintf_read k : 0 <= k < 2 ^ 31 -> read_digits 0 (sprintf_028d k) = k.
Proof.
  intros Hk. unfold sprintf_028d, zero_pad. destruct (Z.ltb_spec k 0); [lia|]. rewrite read_zeros. destruct (read_digits_dec 10 k [] []) as (i & _ & E & _).
  - change (10 ^ Z.of_nat 10) with 10000000000. lia.
  - lia.
  - specialize (E 0). rewrite !app_nil_r in E. by rewrite E.
Qed.

Lemma sprintf_length k : zlen (sprintf_028d k) = 28.
Proof.
  unfold sprintf_028d, zero_pad, zlen. pose proof (dec_digits_length 10 k []). pose proof (dec_digits_length 10 (- k) []). cbn [length] in *.
  case_match; cbn [length]; rewrite length_app, length_replicate; lia.
Qed.

Section WiredTigerCorrect.
Context {C : Type} `{Cursor C} (cursor_inv : C -> Prop) (rows : C -> gmap bytes bytes) (set_key_of set_value_of : C -> option bytes).
Context `{!CursorLaws cursor_inv rows set_key_of set_value_of}.
(** No I/O error. The cursors are opened without a configuration, so that they overwrite
    and an insertion with a key and a value set has no other reason to fail. *)
Context (inserts_succeed : forall c k v, cursor_inv c -> set_key_of c = Some k -> set_value_of c = Some v -> (cursor_insert c).1 = 0).
Context (searches_succeed : forall c k, cursor_inv c -> set_key_of c = Some k -> is_Some (rows c !! k) -> (cursor_search_near c).1.1 = 0).
Context (key_size_ : Z) (Hks : 28 <= key_size_).

Definition wt_put (r : load_request) : entry := (sprintf_028d (lq_key r), wt_value).

Lemma wt_key_ok r : wt_key key_size_ r = Some (sprintf_028d (lq_key r)).
Proof. unfold wt_key. rewrite sprintf_length. case_bool; [done|lia]. Qed.

Lemma wt_insert_ok r c : cursor_inv c -> exists c', wt_insert key_size_ r c = Some c' /\ cursor_inv c' /\ rows c' = <[(wt_put r).1 := (wt_put r).2]> (rows c).
Proof.
  intros Hc. unfold wt_insert. rewrite wt_key_ok. cbn [mbind option_bind]. eexists. split; [done|].
  destruct (law_set_key c (sprintf_028d (lq_key r)) Hc) as (Hc1 & Er1 & Ek1). destruct (law_set_value _ wt_value Hc1) as (Hc2 & Er2 & Ek2 & Ev2).
  destruct (law_insert _ (sprintf_028d (lq_key r)) wt_value Hc2) as [Hc3 Er3]; [by rewrite Ek2|done|by eapply inserts_succeed; [|rewrite Ek2|]|]. split; [done|]. by rewrite Er3, Er2, Er1.
Qed.

Lemma wt_inserts_ok g : forall c, cursor_inv c -> exists c', handle_all (wt_insert key_size_) g c = Some c' /\ cursor_inv c' /\ rows c' = apply_puts (wt_put <$> g) (rows c).
Proof.
  induction g as [|r g IH]; intros c Hc; [by exists c|]. destruct (wt_insert_ok r c Hc) as (c1 & E & Hc1 & Er1). cbn [handle_all]. rewrite E. cbn [mbind option_bind].
  destruct (IH c1 Hc1) as (c' & -> & Hc' & Er'). exists c'. split_and!; [done..|]. by rewrite Er', Er1.
Qed.

Lemma wt_groups_ok gs : forall c c', cursor_inv c -> groups_run id (wt_insert key_size_) wt_done gs c = Some c' -> cursor_inv c' /\ rows c' = apply_puts (wt_put <$> concat gs) (rows c).
Proof.
  induction gs as [|g gs IH]; intros c c' Hc; [by intros [= <-]|]. cbn [groups_run]. unfold group_run, id, wt_done. destruct (wt_inserts_ok g c Hc) as (c1 & -> & Hc1 & Er1).
  cbn [mbind option_bind]. intros (Hc' & ->)%IH; [|done]. split; [done|]. rewrite Er1. cbn [concat]. by rewrite fmap_app, apply_puts_app.
Qed.

(** *** Reads: each request that is in the table counts. *)

Definition wt_present (m : gmap bytes bytes) (r : load_request) : Prop := is_Some (m !! sprintf_028d (lq_key r)).

#[global] Instance wt_present_dec m r : Decision (wt_present m r).
Proof. unfold wt_present. apply _. Defined.

Lemma wt_search_ok r l : cursor_inv (wr_cursor l) -> 0 <= wr_num l < 2 ^ 31 - 1 ->
  exists l', wt_search key_size_ r l = Some l' /\ cursor_inv (wr_cursor l') /\ rows (wr_cursor l') = rows (wr_cursor l) /\
    wr_num l' = wr_num l + (if decide (wt_present (rows (wr_cursor l)) r) then 1 else 0).
Proof.
  intros Hc Hn. unfold wt_search. rewrite wt_key_ok. cbn [mbind option_bind]. set (k := sprintf_028d (lq_key r)).
  destruct (law_set_key (wr_cursor l) k Hc) as (Hc1 & Er1 & Ek1). set (c1 := cursor_set_key (wr_cursor l) k) in *.
  destruct (law_search_near c1 k Hc1 Ek1) as (Hc2 & Er2 & Hex). pose proof (searches_succeed c1 k Hc1 Ek1) as Hok. rewrite Er1 in Hex, Hok. fold (wt_present (rows (wr_cursor l)) r) in Hex, Hok.
  destruct (cursor_search_near c1) as [[ret exact] c2]. cbn [fst snd] in *. destruct (law_get_value c2 Hc2) as [Hc3 Er3]. destruct (law_reset _ Hc3) as [Hc4 Er4]. eexists. split; [done|].
  destruct (Z.eqb_spec ret 0) as [E|E]; cbn [wr_cursor wr_num].
  - split_and!; [done|congruence|]. specialize (Hex E). destruct (Z.eqb_spec exact 0); [rewrite decide_True by tauto; apply i32_small; lia|rewrite decide_False by tauto; lia].
  - split_and!; [done|congruence|]. rewrite decide_False by tauto. lia.
Qed.

Definition wt_count (m : gmap bytes bytes) (g : list load_request) : Z := zlen (filter (wt_present m) g).

Lemma wt_searches_ok g : forall l, cursor_inv (wr_cursor l) -> 0 <= wr_num l -> wr_num l + zlen g < 2 ^ 31 ->
  exists l', handle_all (wt_search key_size_) g l = Some l' /\ cursor_inv (wr_cursor l') /\ rows (wr_cursor l') = rows (wr_cursor l) /\ wr_num l' = wr_num l + wt_count (rows (wr_cursor l)) g.
Proof.
  induction g as [|r g IH]; intros l Hc Hn Hb; [exists l; unfold wt_count; change (zlen (filter _ [])) with 0; rewrite Z.add_0_r; by split_and!|].
  unfold zlen in Hb. cbn [length] in Hb. destruct (wt_search_ok r l Hc ltac:(lia)) as (l1 & E & Hc1 & Er1 & En1). cbn [handle_all]. rewrite E. cbn [mbind option_bind].
  destruct (IH l1 Hc1) as (l' & -> & Hc' & Er' & En'); [case_decide; lia|unfold zlen; case_decide; lia|]. exists l'. split_and!; [done|done|congruence|].
  rewrite En', En1, Er1. unfold wt_count. rewrite filter_cons. case_decide; unfold zlen; cbn [length]; lia.
Qed.

Lemma wt_read_groups gs : forall l l', cursor_inv (wr_cursor l) -> 0 <= wr_num l -> wr_num l + zlen (concat gs) < 2 ^ 31 ->
  groups_run id (wt_search key_size_) wt_search_done gs l = Some l' -> wr_num l' = wr_num l + wt_count (rows (wr_cursor l)) (concat gs).
Proof.
  induction gs as [|g gs IH]; intros l l' Hc Hn Hb; [intros [= <-]; symmetry; apply Z.add_0_r|]. cbn [groups_run concat] in *. rewrite zlen_app in Hb.
  pose proof (zlen_nonneg (concat gs)). unfold group_run, id, wt_search_done. destruct (wt_searches_ok g l Hc Hn ltac:(lia)) as (l1 & -> & Hc1 & Er1 & En1). cbn [mbind option_bind].
  assert (Hle : 0 <= wt_count (rows (wr_cursor l)) g <= zlen g) by (unfold wt_count, zlen; pose proof (length_filter (wt_present (rows (wr_cursor l))) g); lia).
  intros E. rewrite (IH l1 l' Hc1 ltac:(lia) ltac:(lia) E), En1, Er1. unfold wt_count. rewrite filter_app, zlen_app. lia.
Qed.

(** A turn is never undefined. *)
Lemma wt_group_some g (l : wt_reader C) : exists l', group_run id (wt_search key_size_) wt_search_done g l = Some l'.
Proof.
  unfold group_run, id, wt_search_done. revert l. induction g as [|r g IH]; intros l; [by exists l|]. cbn [handle_all].
  assert (E : is_Some (wt_search key_size_ r l)).
  { unfold wt_search. rewrite wt_key_ok. cbn [mbind option_bind]. destruct (cursor_search_near _) as [[ret exact] c]. by eexists. }
  destruct E as [l1 ->]. cbn [mbind option_bind]. apply IH.
Qed.

(** *** The programs *)

Context (BATCH_SIZE READ_BATCH_SIZE QUEUE_NUM TOTAL_NUM READ_NUM : Z) (HB : 0 < BATCH_SIZE) (HRB : 0 < READ_BATCH_SIZE).
Context (HQ : 0 < QUEUE_NUM < 2 ^ 31) (HT : 10 <= TOTAL_NUM < 2 ^ 31) (HR : 0 <= READ_NUM <= TOTAL_NUM).
Context (Hslots : load_slots QUEUE_NUM TOTAL_NUM < 2 ^ 31) (Hrslots : load_slots QUEUE_NUM READ_NUM < 2 ^ 31).
Context (cursors : list C) (Hcursors : zlen cursors = QUEUE_NUM) (Hopen : Forall cursor_inv cursors).
Context (shuffle : list Z -> mt_state -> list Z) (Hshuffle : forall l rng, shuffle l rng ≡ₚ l) (SEED : Z) (rand : mt_state).

Abbreviation n := (Z.to_nat QUEUE_NUM).
Abbreviation keygen mode := (KeyGenerator_new shuffle SEED rand mode TOTAL_NUM).

Definition wt_load_step : system -> system -> Prop := poll_system_step id (wt_insert (C := C) key_size_) wt_done BATCH_SIZE.
Definition wt_load_start (posts : list post) : system := poll_start QUEUE_NUM (Z.to_nat (load_slots QUEUE_NUM TOTAL_NUM)) cursors posts.
Definition wt_read_step : system -> system -> Prop := poll_system_step id (wt_search (C := C) key_size_) wt_search_done READ_BATCH_SIZE.
Definition wt_read_start (tables : list C) (posts : list post) : system :=
  poll_start QUEUE_NUM (Z.to_nat (load_slots QUEUE_NUM READ_NUM)) ((fun c => mkWtReader c 0) <$> tables) posts.

(** What the loader leaves: the rows of the residue, and what was there under other keys. *)
Definition tables_loaded (tables : list C) : Prop := zlen tables = QUEUE_NUM /\ forall q c c0, tables !! q = Some c -> cursors !! q = Some c0 ->
  cursor_inv c /\
  (forall v, 0 <= v < TOTAL_NUM -> v mod QUEUE_NUM = Z.of_nat q -> rows c !! sprintf_028d v = Some wt_value) /\
  forall k, (forall v, 0 <= v < TOTAL_NUM -> v mod QUEUE_NUM = Z.of_nat q -> sprintf_028d v <> k) -> rows c !! k = rows c0 !! k.

Lemma wt_loads keys st : keys ≡ₚ seqZ 0 TOTAL_NUM -> rtc wt_load_step (wt_load_start (key_posts QUEUE_NUM keys)) st -> all_left n st ->
  tables_loaded (po_state <$> workers st).
Proof.
  intros Hk Hr (_ & Hn & Hl). pose proof (all_keys TOTAL_NUM keys Hk) as Hka. pose proof (keys_small TOTAL_NUM HT keys Hka) as Hks'. split; [unfold zlen; rewrite length_fmap; lia|].
  intros q c c0 Hc Hc0. rewrite list_lookup_fmap in Hc. destruct (workers st !! q) as [w|] eqn:Hw; [|done]. injection Hc as <-.
  destruct (polled_all id (wt_insert (C := C) key_size_) wt_done ltac:(done) BATCH_SIZE QUEUE_NUM (Z.to_nat (load_slots QUEUE_NUM TOTAL_NUM)) HB HQ ltac:(lia)
    cursors Hcursors keys Hks' (load_posts_fit QUEUE_NUM TOTAL_NUM HQ ltac:(lia) ltac:(lia) keys Hk) st q w Hr Hw (Forall_lookup_1 _ _ _ _ Hl Hw)) as (Hq & c1 & gs & Hc1 & Eg & _ & Er & _).
  rewrite Hc0 in Hc1. injection Hc1 as <-. destruct (wt_groups_ok gs c0 (po_state w) (Forall_lookup_1 _ _ _ _ Hopen Hc0) Er) as [Hi Ec].
  rewrite Ec, Eg. split_and!; [done| |].
  - intros v Hv Hvq. destruct (proj1 (list_elem_of_fmap _ _ _) (key_requested QUEUE_NUM TOTAL_NUM HQ HT keys q v Hk Hv Hvq)) as (r & -> & Hrin).
    exact (apply_puts_present (fun r => sprintf_028d (lq_key r)) wt_value _ _ r Hrin).
  - intros k Hne. apply (apply_puts_absent (fun r => sprintf_028d (lq_key r))). intros r Hrin. destruct (request_key QUEUE_NUM TOTAL_NUM HQ HT keys q r Hka Hrin). by apply Hne.
Qed.

(** Different keys have different rows. *)
Lemma sprintf_inj v v' : 0 <= v < 2 ^ 31 -> 0 <= v' < 2 ^ 31 -> sprintf_028d v = sprintf_028d v' -> v = v'.
Proof. intros Hv Hv' E. by rewrite <- (sprintf_read v), <- (sprintf_read v'), E. Qed.

Lemma wt_load_ends keys : keys ≡ₚ seqZ 0 TOTAL_NUM ->
  ends wt_load_step (wt_load_start (key_posts QUEUE_NUM keys)) (3 * length (key_posts QUEUE_NUM keys) + n) (all_left n).
Proof.
  intros Hk. apply (poll_ends id (wt_insert (C := C) key_size_) wt_done ltac:(done) BATCH_SIZE QUEUE_NUM (Z.to_nat (load_slots QUEUE_NUM TOTAL_NUM)) HB HQ ltac:(lia) cursors Hcursors keys
    (load_posts_fit QUEUE_NUM TOTAL_NUM HQ ltac:(lia) ltac:(lia) keys Hk) (fun _ => cursor_inv) (fun _ _ => True)).
  - intros q c Hc. exact (Forall_lookup_1 _ _ _ _ Hopen Hc).
  - intros q _. by apply Forall_forall.
  - intros q c g Hc _ _ _. unfold group_run, id, wt_done. destruct (wt_inserts_ok g c Hc) as (c' & -> & Hc' & _). by exists c'.
Qed.

(** A reader counts the requests that are in its table. *)
Lemma wt_reads tables keys : zlen tables = QUEUE_NUM -> Forall cursor_inv tables -> Forall (fun k => 0 <= k < TOTAL_NUM) keys ->
  posts_fit load_request_default (Z.to_nat (load_slots QUEUE_NUM READ_NUM)) n (key_posts QUEUE_NUM keys) ->
  ends wt_read_step (wt_read_start tables (key_posts QUEUE_NUM keys)) (3 * length (key_posts QUEUE_NUM keys) + n)
    (fun st => all_left n st /\ forall q w c, workers st !! q = Some w -> tables !! q = Some c ->
       wr_num (po_state w) = wt_count (rows c) (requests_of QUEUE_NUM keys q) /\ po_seq w = zlen (requests_of QUEUE_NUM keys q)).
Proof.
  intros Hn Hti Hk Hfit k st Hst. assert (Hlen : zlen ((fun c => mkWtReader c 0) <$> tables) = QUEUE_NUM) by (unfold zlen in *; by rewrite length_fmap).
  destruct (poll_ends id (wt_search (C := C) key_size_) wt_search_done ltac:(done) READ_BATCH_SIZE QUEUE_NUM (Z.to_nat (load_slots QUEUE_NUM READ_NUM)) HRB HQ ltac:(lia) _ Hlen keys Hfit
    (fun _ _ => True) (fun _ _ => True)) with (k := k) (st := st) as [Hb Hleft]; [done|intros q _; by apply Forall_forall| |done|].
  - intros q l g _ _ _ _. destruct (wt_group_some g l) as [l' E]. by exists l'.
  - split; [done|]. intros Hstuck. specialize (Hleft Hstuck). split; [done|]. intros q w c Hw Hc. destruct Hleft as (_ & _ & Hl).
    destruct (polled_all id (wt_search (C := C) key_size_) wt_search_done ltac:(done) READ_BATCH_SIZE QUEUE_NUM (Z.to_nat (load_slots QUEUE_NUM READ_NUM)) HRB HQ ltac:(lia) _ Hlen keys
      (keys_small TOTAL_NUM HT keys Hk) Hfit st q w ltac:(apply rtc_nsteps; by exists k) Hw (Forall_lookup_1 _ _ _ _ Hl Hw)) as (Hq & l0 & gs & Hl0 & Eg & _ & Er & Hseq).
    rewrite list_lookup_fmap, Hc in Hl0. injection Hl0 as <-. destruct Hfit as [_ Hcap]. specialize (Hcap q). rewrite poll_sent, length_app in Hcap by done. split; [|done].
    rewrite (wt_read_groups gs (mkWtReader c 0) (po_state w)); [by rewrite Eg|exact (Forall_lookup_1 _ _ _ _ Hti Hc)|done| |done]. rewrite Eg. unfold zlen. cbn [wr_num]. lia.
Qed.

(** C22. Loading WiredTiger and reading it, when both programs have the same [TOTAL_NUM],
    no insertion with a key and a value set fails and no search for a row that is there.
    Whatever the interleaving of the threads, the loader ends without an access outside a
    queue or the key array, and has left in the table of each worker a row for every key
    of its residue, under the key's zero-padded decimal number; every other row of the
    table is as it was before. The shuffled keys fit the arrays of the reader's queues
    whenever there is room for all reads or for all the keys of a residue, in particular
    with one queue or when all keys are read. If they fit, the reader over these tables
    ends as well, and every worker reports that it found all of its requests. *)
Theorem wt_load_and_read : exists posts, load_posts QUEUE_NUM TOTAL_NUM (keygen SEQUENTIAL) = Some posts /\
  ends wt_load_step (wt_load_start posts) (3 * length posts + n) (all_left n) /\
  forall st, rtc wt_load_step (wt_load_start posts) st -> all_left n st ->
    let tables := po_state <$> workers st in tables_loaded tables /\
    exists rposts, load_posts QUEUE_NUM READ_NUM (keygen UNIQUE_RANDOM) = Some rposts /\
      (reads_fit QUEUE_NUM TOTAL_NUM READ_NUM -> posts_fit load_request_default (Z.to_nat (load_slots QUEUE_NUM READ_NUM)) n rposts) /\
      (posts_fit load_request_default (Z.to_nat (load_slots QUEUE_NUM READ_NUM)) n rposts ->
       ends wt_read_step (wt_read_start tables rposts) (3 * length rposts + n)
         (fun st' => all_left n st' /\ forall q w, workers st' !! q = Some w -> wr_num (po_state w) = po_seq w)).
Proof.
  destruct (loader_posts QUEUE_NUM TOTAL_NUM HT shuffle Hshuffle SEED rand SEQUENTIAL ltac:(done)) as (keys & Hk & E).
  destruct (reader_posts QUEUE_NUM TOTAL_NUM HT shuffle Hshuffle SEED rand READ_NUM HR) as (rkeys & Hrk & [Hz Hnd] & Er).
  exists (key_posts QUEUE_NUM keys). split_and!; [done|by apply wt_load_ends|]. intros st Hst Hl tables. pose proof (wt_loads keys st Hk Hst Hl) as Hld. split; [done|].
  exists (key_posts QUEUE_NUM rkeys). split_and!; [done|by apply (read_posts_fit QUEUE_NUM TOTAL_NUM)|]. intros Hfit. destruct Hld as [Hn Hld].
  assert (Hcur : forall q c, tables !! q = Some c -> exists c0, cursors !! q = Some c0).
  { intros q c Hc. apply lookup_lt_is_Some_2. apply lookup_lt_Some in Hc. fold tables in Hn. unfold zlen in *. lia. }
  assert (Hti : Forall cursor_inv tables) by (apply Forall_lookup; intros q c Hc; destruct (Hcur q c Hc) as [c0 Hc0]; by destruct (Hld q c c0 Hc Hc0)).
  intros k st' Hk'. destruct (wt_reads tables rkeys Hn Hti Hrk Hfit k st' Hk') as [Hb Hend]. split; [done|]. intros Hstuck. destruct (Hend Hstuck) as [Ha Hnum]. split; [done|].
  intros q w Hw. destruct (lookup_lt_is_Some_2 tables q) as [c Hc]; [apply lookup_lt_Some in Hw; destruct Ha as (_ & Ha & _); fold tables in Hn; unfold zlen in Hn; lia|].
  destruct (Hnum q w c Hw Hc) as [-> ->]. destruct (Hcur q c Hc) as [c0 Hc0]. destruct (Hld q c c0 Hc Hc0) as (_ & Hrows & _). unfold wt_count. f_equal. apply filter_every.
  intros r Hr. destruct (request_key QUEUE_NUM TOTAL_NUM HQ HT rkeys q r Hrk Hr) as [Hv Hvq]. unfold wt_present. rewrite Hrows by done. by eexists.
Qed.
End WiredTigerCorrect.

(** ** Concrete runs: two stores and eleven keys, of which four are read *)

Definition demo_shuffle (l : list Z) (_ : mt_state) : list Z := rev l.

Lemma demo_shuffle_permutes l rng : demo_shuffle l rng ≡ₚ l.
Proof. symmetry. apply Permutation_rev. Qed.

(** The main thread posts everything, then each worker runs to its end. *)
Definition demo_turns (w0 w1 posts : nat) : list (option nat) := replicate (2 * posts) None ++ replicate w0 (Some 0%nat) ++ replicate w1 (Some 1%nat).

#[local] Instance all_left_dec {A} n (st : system (W := poller A)) : Decision (all_left n st).
Proof. unfold all_left. apply _. Defined.

(** Nothing happens once all have left. *)
Lemma all_left_stuck {A L} (begin : A -> L) handle finish BATCH_SIZE n st : all_left n st -> ~ exists st', poll_system_step begin handle finish BATCH_SIZE st st'.
Proof.
  intros (Hm & _ & Hl) [st' Hs]. inversion Hs as [|acts sh ws q w w' t slots Hw _ _ E]; subst; [done|]. cbn in Hl.
  unfold poll_step in E. by rewrite (Forall_lookup_1 _ _ _ _ Hl Hw) in E.
Qed.

Lemma ends_reached {A L} (begin : A -> L) handle finish BATCH_SIZE n start bound P turns st :
  ends (poll_system_step begin handle finish BATCH_SIZE) start bound P -> exec_schedule (poll_step begin handle finish BATCH_SIZE) turns start = Some st -> all_left n st -> P st.
Proof. intros He E Hl. apply (He _ _ (exec_schedule_nsteps _ _ _ _ E)). by eapply all_left_stuck. Qed.

Lemma bool_left {A} n (o : option (system (W := poller A))) st : (st0 ← o; Some (bool_decide (all_left n st0))) = Some true -> o = Some st -> all_left n st.
Proof. intros E ->. cbn in E. injection E as E. by apply bool_decide_eq_true in E. Qed.

Definition demo_leveldb_posts (count : Z) : list (@post load_request) :=
  default [] (load_posts 2 count (KeyGenerator_new demo_shuffle 14664 [] UNIQUE_RANDOM 11)).

Abbreviation demo_leveldb_loaded :=
  (exec_schedule (poll_step (leveldb_begin (S := gmap bytes bytes) (B := list entry)) (leveldb_put 8) leveldb_write 1) (demo_turns 7 6 13) (leveldb_load_start 2 11 [∅; ∅] (demo_leveldb_posts 11))).

Lemma demo_leveldb_reach (dbs : list (gmap bytes bytes)) posts turns st :
  exec_schedule (poll_step (leveldb_begin (B := list entry)) (leveldb_put 8) leveldb_write 1) turns (leveldb_load_start 2 11 dbs posts) = Some st ->
  rtc (leveldb_load_step (S := gmap bytes bytes) (B := list entry) 8 1) (leveldb_load_start 2 11 dbs posts) st.
Proof. apply exec_schedule_reachable. Qed.

Lemma demo_leveldb_run st : demo_leveldb_loaded = Some st ->
  rtc (leveldb_load_step (S := gmap bytes bytes) (B := list entry) 8 1) (leveldb_load_start 2 11 [∅; ∅] (demo_leveldb_posts 11)) st /\ all_left 2 st.
Proof.
  intros Es. split; [exact (demo_leveldb_reach _ _ _ _ Es)|].
  apply (bool_left 2 demo_leveldb_loaded); [vm_compute; reflexivity|exact Es].
Qed.

(** Two of the four keys that are read go to each queue. *)
Lemma demo_posts_fit : posts_fit load_request_default (Z.to_nat (load_slots 2 4)) 2 (demo_leveldb_posts 4).
Proof. split; [vm_compute; repeat constructor|]. intros [|[|q]]; vm_compute; lia. Qed.

Abbreviation demo_leveldb_read st :=
  (exec_schedule (poll_step id (leveldb_push (S := gmap bytes bytes) 8) (leveldb_finish (B := list entry)) 32) (demo_turns 1 1 6) (leveldb_read_start 8 2 4 (po_state <$> workers st) (demo_leveldb_posts 4))).

Lemma leveldb_load_and_read_witness : exists st st', demo_leveldb_loaded = Some st /\ demo_leveldb_read st = Some st' /\
  stores_loaded (fun _ => True) (fun m => m) 8 2 11 (po_state <$> workers st) /\
  (forall q w, workers st' !! q = Some w -> lr_num (po_state w) = po_seq w) /\ po_seq <$> workers st' = [2; 2].
Proof.
  destruct (leveldb_load_and_read (S := gmap bytes bytes) (B := list entry) (fun _ => True) (fun b => b) (fun _ => True) (fun m => m) demo_load_succeed 8 ltac:(lia)
    1 32 2 11 4 ltac:(lia) ltac:(lia) ltac:(lia) ltac:(lia) ltac:(lia) ltac:(vm_compute; reflexivity) ltac:(vm_compute; reflexivity) [∅; ∅] ltac:(reflexivity) ltac:(repeat constructor)
    demo_shuffle demo_shuffle_permutes 14664 []) as (posts & E & _ & Hst).
  assert (Ep : posts = demo_leveldb_posts 11) by (unfold demo_leveldb_posts; rewrite E; reflexivity). subst posts.
  assert (Es : (st ← demo_leveldb_loaded; st' ← demo_leveldb_read st; Some (bool_decide (all_left 2 st'), po_seq <$> workers st')) = Some (true, [2; 2])) by (vm_compute; reflexivity).
  destruct demo_leveldb_loaded as [st|] eqn:E1; [|discriminate Es]. cbn [mbind option_bind] in Es.
  destruct (demo_leveldb_run st E1) as [Hrun Hleft]. destruct (Hst st Hrun Hleft) as (Hld & rposts & Er & _ & Hread).
  assert (Erp : rposts = demo_leveldb_posts 4) by (unfold demo_leveldb_posts; rewrite Er; reflexivity). subst rposts. specialize (Hread demo_posts_fit).
  destruct (demo_leveldb_read st) as [st'|] eqn:E2; [|discriminate Es]. cbn [mbind option_bind] in Es. injection Es as El Eseq. apply bool_decide_eq_true in El.
  exists st, st'. destruct (ends_reached _ _ _ _ _ _ _ _ _ _ Hread E2 El) as [_ Hnum]. split_and!; [reflexivity|exact E2|exact Hld|exact Hnum|exact Eseq].
Defined.

(** A cursor over a map. *)
Record map_cursor := mkMapCursor { mc_rows : gmap bytes bytes; mc_key : option bytes; mc_value : option bytes }.

#[local] Instance map_cursor_ops : Cursor map_cursor := {|
  cursor_set_key := fun c k => mkMapCursor (mc_rows c) (Some k) (mc_value c);
  cursor_set_value := fun c v => mkMapCursor (mc_rows c) (mc_key c) (Some v);
  cursor_insert := fun c => match mc_key c, mc_value c with Some k, Some v => (0, mkMapCursor (<[k := v]> (mc_rows c)) None None) | _, _ => (22, c) end;
  cursor_search_near := fun c => match mc_key c with Some k => (0, if mc_rows c !! k then 0 else 1, c) | None => (22, 0, c) end;
  cursor_get_value := fun c => (0, c);
  cursor_reset := fun c => mkMapCursor (mc_rows c) None None |}.

Lemma map_cursor_laws : CursorLaws (fun _ : map_cursor => True) mc_rows mc_key mc_value.
Proof.
  split; [by intros|by intros| | |by intros|by intros].
  - intros c k v _ Hk Hv _. cbn. by rewrite Hk, Hv.
  - intros c k _ Hk. cbn. rewrite Hk. cbn. split_and!; [done|done|]. intros _. destruct (mc_rows c !! k); split; intros E; [by eexists|done|done|by destruct E].
Qed.

Definition demo_wt_posts : list (@post load_request) := default [] (load_posts 2 11 (KeyGenerator_new demo_shuffle 14664 [] SEQUENTIAL 11)).

Definition empty_cursor : map_cursor := mkMapCursor ∅ None None.

Definition demo_wt_loaded : option (system (W := poller map_cursor)) :=
  exec_schedule (poll_step id (wt_insert 28) wt_done 1) (demo_turns 7 6 13) (wt_load_start 2 11 [empty_cursor; empty_cursor] demo_wt_posts).

Definition demo_wt_read (st : system (R := load_request) (W := poller map_cursor)) : option (system (W := poller (wt_reader map_cursor))) :=
  exec_schedule (poll_step id (wt_search 28) wt_search_done 32) (demo_turns 1 1 6) (wt_read_start 2 4 (po_state <$> workers st) (demo_leveldb_posts 4)).

Lemma map_insert_succeeds (c : map_cursor) k v : True -> mc_key c = Some k -> mc_value c = Some v -> (cursor_insert c).1 = 0.
Proof. intros _ Hk Hv. cbn. by rewrite Hk, Hv. Qed.

Lemma map_search_succeeds (c : map_cursor) k : True -> mc_key c = Some k -> is_Some (mc_rows c !! k) -> (cursor_search_near c).1.1 = 0.
Proof. intros _ Hk _. cbn. by rewrite Hk. Qed.

(** The second worker has the row of 9 and not that of 8; both readers find their two keys. *)
Lemma wt_load_and_read_witness : exists st st', demo_wt_loaded = Some st /\ demo_wt_read st = Some st' /\
  (forall q w, q = 1%nat -> (workers st !! q) = Some w -> mc_rows (po_state w) !! sprintf_028d 9 = Some wt_value /\ mc_rows (po_state w) !! sprintf_028d 8 = None) /\
  (forall q w, workers st' !! q = Some w -> wr_num (po_state w) = po_seq w) /\ po_seq <$> workers st' = [2; 2].
Proof.
  destruct (wt_load_and_read (C := map_cursor) (fun _ => True) mc_rows mc_key mc_value (CursorLaws0 := map_cursor_laws) map_insert_succeeds map_search_succeeds
    28 ltac:(lia) 1 32 2 11 4 ltac:(lia) ltac:(lia) ltac:(lia) ltac:(lia) ltac:(lia) ltac:(vm_compute; reflexivity) ltac:(vm_compute; reflexivity)
    [empty_cursor; empty_cursor] ltac:(reflexivity) ltac:(repeat constructor) demo_shuffle demo_shuffle_permutes 14664 []) as (posts & E & _ & Hst).
  assert (Ep : posts = demo_wt_posts) by (unfold demo_wt_posts; rewrite E; reflexivity). subst posts.
  assert (Es : (st ← demo_wt_loaded; st' ← demo_wt_read st; Some (bool_decide (all_left 2 st), bool_decide (all_left 2 st'), po_seq <$> workers st')) = Some (true, true, [2; 2])) by (vm_compute; reflexivity).
  destruct demo_wt_loaded as [st|] eqn:E1; [|discriminate Es]. cbn [mbind option_bind] in Es.
  destruct (demo_wt_read st) as [st'|] eqn:E2; [|discriminate Es]. cbn [mbind option_bind] in Es. injection Es as El El' Eseq. apply bool_decide_eq_true in El, El'.
  destruct (Hst st (exec_schedule_reachable _ _ _ _ E1) El) as ([_ Hld] & rposts & Er & _ & Hread).
  assert (Erp : rposts = demo_leveldb_posts 4) by (unfold demo_leveldb_posts; rewrite Er; reflexivity). subst rposts. specialize (Hread demo_posts_fit).
  exists st, st'. destruct (ends_reached _ _ _ _ _ _ _ _ _ _ Hread E2 El') as [_ Hnum]. split_and!; [reflexivity|exact E2| |exact Hnum|exact Eseq].
  intros q w -> Hw. destruct (Hld 1%nat (po_state w) empty_cursor) as (_ & Hv & Hk); [rewrite list_lookup_fmap, Hw; reflexivity|reflexivity|].
  split; [apply Hv; [lia|reflexivity]|]. rewrite Hk; [reflexivity|]. intros v Hb Hq Eq. apply sprintf_inj in Eq; [|lia|lia]. rewrite Eq in Hq. discriminate Hq.
Defined.
