(* ===== verification/ScanTest.v ===== *)
(** * scan_test.cpp: scans over all stores

    Every worker scans its store from the key of a request on and leaves the keys in a
    vector; the merge thread waits until all workers have done so and merges the vectors.
    They hand over through [scan_status]. Undefined behaviour (a store or a read outside
    a vector, a slice of a string that is gone) and a failed assertion are an outcome of
    their own. The macros are
    arguments; [MULTITHREAD_SCAN] is defined, as in the source. *)

From S2P Require Import Prelude Comparator Iterator KeyGen Queue.

(** ** Requests *)

Record scan_async_requests := mkScan { sc_seq : Z; sc_key : Z; sc_scan_size : Z; sc_write : bool }.

Definition scan_async_default : scan_async_requests := mkScan 0 0 0 false.

Definition set_scan_request (i key scan_size : Z) (r : scan_async_requests) : scan_async_requests := mkScan i key scan_size false.

Definition set_scan_end (r : scan_async_requests) : scan_async_requests := mkScan (-1) (-1) (sc_scan_size r) (sc_write r).

(** The main thread: each request goes to all queues, the key that was generated is
    replaced by 0, and [scan_size] is 100. *)
Definition scan_posts (QUEUE_NUM READ_NUM : nat) : list (@post scan_async_requests) :=
  (seq 0 READ_NUM ≫= fun i => (fun q_num => (q_num, set_scan_request (Z.of_nat i) 0 100)) <$> seq 0 QUEUE_NUM) ++
  ((fun i => (i, set_scan_end)) <$> seq 0 QUEUE_NUM).

(** ** The vectors *)

(** A slice of a string that was destroyed is [None]. *)
Abbreviation slice := (option bytes).

(** [scans[q][i] = s]: outside the vector it is undefined, also within its capacity. *)
Definition vector_store (i : nat) (s : slice) (v : list slice) : option (list slice) :=
  if (i <? length v)%nat then Some (<[i := s]> v) else None.

(** ** vector_merge_iter *)

Record vector_merge_iter := mkVectorMerge { vm_now : list nat; vm_current : nat }.

(** [scans[i][now[i]]]. *)
Definition vm_at (scans : list (list slice)) (now : list nat) (i : nat) : option slice := n ← now !! i; v ← scans !! i; v !! n.

(** The loop of [FindSmallest] over the queues in [l]; only comparing reads the characters. *)
Fixpoint smallest_loop (scans : list (list slice)) (now : list nat) (l : list nat) (smallest : nat) (smallest_key : slice) : option nat :=
  match l with
  | [] => Some smallest
  | i :: l' =>
      key ← vm_at scans now i;
      k ← key;
      s ← smallest_key;
      if BytewiseCompare k s <? 0 then smallest_loop scans now l' i key else smallest_loop scans now l' smallest smallest_key
  end.

Definition vm_FindSmallest (scans : list (list slice)) (now : list nat) : option vector_merge_iter :=
  key ← vm_at scans now 0;
  smallest ← smallest_loop scans now (seq 1 (length now - 1)) 0 key;
  Some (mkVectorMerge now smallest).

Definition vm_new (QUEUE_NUM : nat) (scans : list (list slice)) : option vector_merge_iter := vm_FindSmallest scans (replicate QUEUE_NUM 0%nat).

(** [Next]: whether the vector of the current key has another one. *)
Definition vm_Next (scans : list (list slice)) (m : vector_merge_iter) : option (bool * vector_merge_iter) :=
  v ← scans !! vm_current m;
  n ← vm_now m !! vm_current m;
  if (length v <=? n + 1)%nat then Some (false, m)
  else m' ← vm_FindSmallest scans (<[vm_current m := S n]> (vm_now m)); Some (true, m').

Definition vm_key (scans : list (list slice)) (m : vector_merge_iter) : option bytes := s ← vm_at scans (vm_now m) (vm_current m); s.

(** ** Threads *)

Inductive SCAN_STATUS := SCAN_OVER | MERGE_START | NEED_ITER | ITER_OVER.

#[global] Instance SCAN_STATUS_eq_dec : EqDecision SCAN_STATUS.
Proof. solve_decision. Defined.

(** What the workers and the merge thread share. *)
Record scan_memory := mkScanMemory { scan_status : list SCAN_STATUS; scans : list (list slice) }.

Definition set_status (q : nat) (s : SCAN_STATUS) (m : scan_memory) : scan_memory := mkScanMemory (<[q := s]> (scan_status m)) (scans m).
Definition set_vector (q : nat) (v : list slice) (m : scan_memory) : scan_memory := mkScanMemory (scan_status m) (<[q := v]> (scans m)).

(** The outcome of a step of a thread: it waits, it did something undefined, or it moved. *)
Inductive outcome (A : Type) := Waits | Undefined | Moves (a : A).
Arguments Waits {A}.
Arguments Undefined {A}.
Arguments Moves {A}.

Definition or_undefined {A} (o : option A) : outcome A := match o with Some a => Moves a | None => Undefined end.

Section Worker.
Context {I : Type} `{Iterator I} (key_size_ : Z).

(** Where a worker is: polling its queue, after its scan with [iter], in the loop that
    waits for [SCAN_OVER], or out of its loop. *)
Inductive scan_pc := Polling | Scanned (iter : I) | Merging (iter : I) | Left.

Record scan_worker := mkScanWorker { sw_seq : Z; sw_pc : scan_pc; sw_found : Z }.

(** [for (int i = 1; i < a.scan_size; i++)]: the vector, the iterator and [found]. *)
Fixpoint store_loop (todo : nat) (iter : I) (size : nat) (v : list slice) (found : Z) : option (list slice * I * Z) :=
  match todo with
  | O => Some (v, iter, found)
  | S todo' =>
      iter ← Next iter;
      if Valid iter then
        _ ← key iter;
        v ← vector_store size None v;
        store_loop todo' iter (S size) v (found + 1)
      else Some (v, iter, found)
  end.

(** The scan of one request, from [NewIterator] to before the store of [MERGE_START];
    an iterator that is not valid is deleted, and the worker goes on with the next request. *)
Definition scan_one (new_iter : I) (request : scan_async_requests) (v : list slice) (w : scan_worker) : option (list slice * scan_worker) :=
  iter ← Seek new_iter (GenerateKeyFromInt key_size_ (u64 (sc_key request)));
  if Valid iter then
    str ← key iter;
    v ← vector_store 0 (Some str) v;
    '(v, iter, found) ← store_loop (Z.to_nat (sc_scan_size request - 1)) iter 1 v (sw_found w + 1);
    Some (v, mkScanWorker (sw_seq w) (Scanned iter) found)
  else Some (v, mkScanWorker (sw_seq w + 1) Polling (sw_found w)).

(** [for (int i = 0; i < a.scan_size; i++)] after [NEED_ITER]. *)
Fixpoint more_loop (todo : nat) (iter : I) (v : list slice) (found : Z) : option (list slice * I * Z) :=
  match todo with
  | O => Some (v, iter, found)
  | S todo' =>
      iter ← Next iter;
      if Valid iter then _ ← key iter; more_loop todo' iter (v ++ [None]) (found + 1) else Some (v, iter, found)
  end.

(** A step of worker [q], which sees [tail[q]], its slots and the shared memory. *)
Definition scan_worker_step (new_iter : I) (q : nat) (tail : Z) (slots : list scan_async_requests) (w : scan_worker) (m : scan_memory) : outcome (scan_worker * scan_memory) :=
  match sw_pc w with
  | Left => Waits
  | Polling =>
      if tail <=? sw_seq w then Waits
      else or_undefined (
        request ← slots !! Z.to_nat (sw_seq w);
        if sc_seq request =? -1 then Some (mkScanWorker (sw_seq w) Left (sw_found w), m)
        else
          v ← scans m !! q;
          '(v, w) ← scan_one new_iter request v w;
          Some (w, set_vector q v m))
  | Scanned iter => Moves (mkScanWorker (sw_seq w) (Merging iter) (sw_found w), set_status q MERGE_START m)
  | Merging iter =>
      match scan_status m !! q with
      | Some SCAN_OVER => Moves (mkScanWorker (sw_seq w + 1) Polling (sw_found w), set_vector q [] m)
      | Some NEED_ITER => or_undefined (
          request ← slots !! Z.to_nat (sw_seq w);
          v ← scans m !! q;
          '(v, iter, found) ← more_loop (Z.to_nat (sc_scan_size request)) iter v (sw_found w);
          Some (mkScanWorker (sw_seq w) (Merging iter) found, set_status q ITER_OVER (set_vector q v m)))
      | _ => Waits
      end
  end.
End Worker.
Arguments scan_worker : clear implicits.
Arguments scan_pc : clear implicits.

(** ** The merge thread *)

(** Where it is: waiting for [MERGE_START] of queue [i]; before round [i] of the merge
    loop; waiting for [ITER_OVER] of the current queue; storing [SCAN_OVER] for queue [i]
    on; out of its loop. *)
Inductive merge_pc :=
  | WaitStart (i : nat)
  | Merge (i : nat) (mergeiter : vector_merge_iter)
  | WaitIter (i : nat) (mergeiter : vector_merge_iter)
  | Release (i : nat)
  | Finished.

Record merger := mkMerger { mr_seq : nat; mr_pc : merge_pc }.

Definition merge_step (QUEUE_NUM READ_NUM : nat) (t : merger) (m : scan_memory) : outcome (merger * scan_memory) :=
  match mr_pc t with
  | Finished => Waits
  | WaitStart i =>
      if (i <? QUEUE_NUM)%nat then
        if decide (scan_status m !! i = Some MERGE_START) then Moves (mkMerger (mr_seq t) (WaitStart (S i)), m) else Waits
      else or_undefined (mergeiter ← vm_new QUEUE_NUM (scans m); Some (mkMerger (mr_seq t) (Merge 1 mergeiter), m))
  | Merge i mergeiter =>
      if (i <? 100)%nat then
        or_undefined ('(s, mergeiter) ← vm_Next (scans m) mergeiter;
          if s : bool then Some (mkMerger (mr_seq t) (Merge (S i) mergeiter), m)
          else Some (mkMerger (mr_seq t) (WaitIter i mergeiter), set_status (vm_current mergeiter) NEED_ITER m))
      else Moves (mkMerger (mr_seq t) (Release 0), m)
  | WaitIter i mergeiter =>
      if decide (scan_status m !! vm_current mergeiter = Some ITER_OVER) then
        or_undefined ('(s, mergeiter) ← vm_Next (scans m) mergeiter;
          if s : bool then Some (mkMerger (mr_seq t) (Merge (S i) mergeiter), m) else None)
      else Waits
  | Release i =>
      if (i <? QUEUE_NUM)%nat then Moves (mkMerger (mr_seq t) (Release (S i)), set_status i SCAN_OVER m)
      else Moves (mkMerger (S (mr_seq t)) (if (S (mr_seq t) <? READ_NUM)%nat then WaitStart 0 else Finished), m)
  end.

Definition initial_merger (READ_NUM : nat) : merger := mkMerger 0 (if (0 <? READ_NUM)%nat then WaitStart 0 else Finished).

(** ** The program *)

Section System.
Context {I : Type} `{Iterator I} (key_size_ : Z) (QUEUE_NUM READ_NUM : nat) (iters : list I).

Record scan_system := mkScanSystem {
  ss_main : list (@action scan_async_requests);
  ss_queues : @shared scan_async_requests;
  ss_workers : list (scan_worker I);
  ss_memory : scan_memory;
  ss_merger : merger
}.

(** The result of a step; [None] is undefined behaviour. *)
Definition result {A} (o : outcome A) (k : A -> scan_system) : option (option scan_system) :=
  match o with Waits => None | Undefined => Some None | Moves a => Some (Some (k a)) end.

(** A step of the main thread, of worker [q] (whose [NewIterator] gives [iters !! q]), or
    of the merge thread. *)
Inductive scan_step (st : scan_system) : option scan_system -> Prop :=
  | scan_main a rest r : ss_main st = a :: rest ->
      (match exec_action a (ss_queues st) with Some sh => Some (mkScanSystem rest sh (ss_workers st) (ss_memory st) (ss_merger st)) | None => None end) = r ->
      scan_step st r
  | scan_work q w i t slots r : ss_workers st !! q = Some w -> iters !! q = Some i -> tail (ss_queues st) !! q = Some t -> qs (ss_queues st) !! q = Some slots ->
      result (scan_worker_step key_size_ i q t slots w (ss_memory st))
        (fun x => mkScanSystem (ss_main st) (ss_queues st) (<[q := x.1]> (ss_workers st)) x.2 (ss_merger st)) = Some r ->
      scan_step st r
  | scan_merge r : result (merge_step QUEUE_NUM READ_NUM (ss_merger st) (ss_memory st))
        (fun x => mkScanSystem (ss_main st) (ss_queues st) (ss_workers st) x.2 x.1) = Some r -> scan_step st r.

Definition scan_start (cap : nat) : scan_system := mkScanSystem (actions (scan_posts QUEUE_NUM READ_NUM)) (initial_memory scan_async_default cap QUEUE_NUM)
  (replicate QUEUE_NUM (mkScanWorker 0 Polling 0)) (mkScanMemory (replicate QUEUE_NUM SCAN_OVER) (replicate QUEUE_NUM [])) (initial_merger READ_NUM).

Definition scan_reachable (st st' : scan_system) : Prop := rtc (fun a b => scan_step a (Some b)) st st'.
End System.

(** ** No scan is ever handed over *)

Section Never.
Context {I : Type} `{Iterator I} (key_size_ : Z) (QUEUE_NUM READ_NUM : nat) (iters : list I) (HQ : (0 < QUEUE_NUM)%nat) (HR : (0 < READ_NUM)%nat).

(** Nothing was handed over: the vectors are empty and the merge thread waits for the first worker. *)
Record untouched (st : scan_system (I := I)) : Prop := {
  un_memory : ss_memory st = mkScanMemory (replicate QUEUE_NUM SCAN_OVER) (replicate QUEUE_NUM []);
  un_merger : ss_merger st = mkMerger 0 (WaitStart 0);
  un_workers : forall q w, ss_workers st !! q = Some w -> sw_pc w = Polling \/ sw_pc w = Left
}.

Lemma scan_one_empty (i : I) r w v w' : scan_one key_size_ i r [] w = Some (v, w') -> v = [] /\ sw_pc w' = Polling.
Proof.
  unfold scan_one. destruct (Seek i _) as [iter|]; [|done]. cbn [mbind option_bind]. destruct (Valid iter); [by destruct (key iter)|]. intros [= <- <-]. done.
Qed.

Lemma worker_untouched (i : I) q t slots w m w' m' : m = mkScanMemory (replicate QUEUE_NUM SCAN_OVER) (replicate QUEUE_NUM []) -> sw_pc w = Polling \/ sw_pc w = Left ->
  scan_worker_step key_size_ i q t slots w m = Moves (w', m') -> m' = m /\ (sw_pc w' = Polling \/ sw_pc w' = Left).
Proof.
  intros Hm [E|E]; unfold scan_worker_step; rewrite E; [|done]. destruct (t <=? sw_seq w); [done|]. destruct (slots !! Z.to_nat (sw_seq w)) as [r|]; [|done]. cbn [mbind option_bind].
  destruct (sc_seq r =? -1); cbn [or_undefined]; [intros [= <- <-]; split; [done|by right]|]. destruct (scans m !! q) as [v|] eqn:Ev; [|done]. cbn [mbind option_bind].
  assert (v = []) as -> by (rewrite Hm in Ev; by apply lookup_replicate in Ev as [-> _]).
  destruct (scan_one key_size_ i r [] w) as [[v1 w1]|] eqn:Eo; [|done]. cbn [mbind option_bind or_undefined]. intros [= <- <-]. apply scan_one_empty in Eo as [-> Hp]. split; [|by left].
  unfold set_vector. rewrite list_insert_id by done. by destruct m.
Qed.

Lemma step_untouched st st' : untouched st -> scan_step key_size_ QUEUE_NUM READ_NUM iters st (Some st') -> untouched st'.
Proof.
  intros [Hm Ht Hw] Hs. inversion Hs as [a rest r Ea Er|q w i t slots r Hq Hi Htl Hqs Er|r Er]; subst r.
  - destruct (exec_action a _); [|done]. injection Er as <-. by split.
  - unfold result in Er. destruct (scan_worker_step _ _ _ _ _ _ _) as [| |[w' m']] eqn:E; try done. injection Er as <-.
    destruct (worker_untouched _ _ _ _ _ _ _ _ Hm (Hw q w Hq) E) as [-> Hp]. split; cbn; [done|done|]. intros q' w0.
    destruct (decide (q = q')) as [<-|]; [|rewrite list_lookup_insert_ne by done; apply Hw]. rewrite list_lookup_insert_eq by (by eapply lookup_lt_Some). by intros [= <-].
  - unfold result, merge_step in Er. rewrite Ht, Hm in Er. cbn [mr_pc mr_seq scan_status] in Er. rewrite (proj2 (Nat.ltb_lt 0 QUEUE_NUM) HQ), lookup_replicate_2 in Er by done.
    rewrite decide_False in Er by (intros E; discriminate E). discriminate Er.
Qed.

Lemma reachable_untouched cap st : scan_reachable key_size_ QUEUE_NUM READ_NUM iters (scan_start QUEUE_NUM READ_NUM cap) st -> untouched st.
Proof.
  intros Hr. assert (H0 : untouched (scan_start (I := I) QUEUE_NUM READ_NUM cap)).
  { split; cbn; [done| |].
    - unfold initial_merger. by destruct (Nat.ltb_spec 0 READ_NUM); [|lia].
    - intros q w Hq. apply lookup_replicate in Hq as [-> _]. by left. }
  induction Hr as [|st1 st2 st3 Hs _ IH]; [done|]. apply IH. by eapply step_untouched.
Qed.

Context (inv : I -> Prop) (entries : I -> list entry) (cur : I -> option entry) `{!IteratorLaws BytewiseCompare (fun _ => True) inv entries cur} (Hiters : Forall inv iters).

(** C38. scan_test.cpp never merges a scan. In every state that its threads can reach the
    merge thread still waits for the first worker to hand over, so that [main] does not
    return from joining it; and a worker that comes to a request while its store has a
    key from the requested one on stores into a vector of size 0, which is undefined. *)
Theorem scan_test_never_merges cap st : scan_reachable key_size_ QUEUE_NUM READ_NUM iters (scan_start QUEUE_NUM READ_NUM cap) st ->
  mr_pc (ss_merger st) = WaitStart 0 /\ (forall q, (q < QUEUE_NUM)%nat -> scan_status (ss_memory st) !! q = Some SCAN_OVER) /\
  forall q w i t slots r e, ss_workers st !! q = Some w -> sw_pc w = Polling -> iters !! q = Some i -> tail (ss_queues st) !! q = Some t -> qs (ss_queues st) !! q = Some slots ->
    sw_seq w < t -> slots !! Z.to_nat (sw_seq w) = Some r -> sc_seq r <> -1 ->
    e ∈ entries i -> BytewiseCompare (GenerateKeyFromInt key_size_ (u64 (sc_key r))) e.1 <= 0 -> (q < QUEUE_NUM)%nat ->
    scan_step key_size_ QUEUE_NUM READ_NUM iters st None.
Proof.
  intros Hr. apply reachable_untouched in Hr as [Hm Ht Hw]. split_and!; [by rewrite Ht|intros q Hq; rewrite Hm; by apply lookup_replicate_2|].
  intros q w i t slots r e Hq Hpc Hi Htl Hqs Hlt Hsl Hns He Hle Hqn. eapply (scan_work _ _ _ _ st q w i t slots); [done..|]. unfold result, scan_worker_step. rewrite Hpc.
  destruct (Z.leb_spec t (sw_seq w)); [lia|]. rewrite Hsl. cbn [mbind option_bind]. destruct (Z.eqb_spec (sc_seq r) (-1)); [done|]. rewrite Hm. cbn [scans].
  rewrite lookup_replicate_2 by done. cbn [mbind option_bind]. unfold scan_one. pose proof (Forall_lookup_1 _ _ _ _ Hiters Hi) as Hinv.
  destruct (law_Seek i (GenerateKeyFromInt key_size_ (u64 (sc_key r))) Hinv Logic.I) as (i' & -> & Hi' & _ & Hmin). cbn [mbind option_bind].
  rewrite law_Valid, law_key by done. destruct (cur i') as [e'|]; [done|]. by destruct (Hmin e He).
Qed.
End Never.

(** ** The merge of vectors *)

(** The keys that the iterator visits in at most [k] moves. *)
Fixpoint vm_run (scans : list (list slice)) (k : nat) (m : vector_merge_iter) : option (list bytes) :=
  x ← vm_key scans m;
  match k with
  | O => Some [x]
  | S k' =>
      '(s, m') ← vm_Next scans m;
      if s : bool then rest ← vm_run scans k' m'; Some (x :: rest) else Some [x]
  end.

Section Merge.
(** Vectors whose strings are all there. *)
Context (vs : list (list bytes)).
Abbreviation live := ((fun v : list bytes => Some <$> v) <$> vs).
Abbreviation le := (fun a b : bytes => BytewiseCompare a b <= 0).

Lemma ble_refl a : le a a.
Proof. cbn. by rewrite cmp_refl by apply _. Qed.

Lemma ble_not_lt a b : 0 <= BytewiseCompare a b -> le b a.
Proof. intros Hab. destruct (Z.le_gt_cases (BytewiseCompare b a) 0) as [|Hgt]; [done|]. assert (Hlt : BytewiseCompare a b < 0) by (apply cmp_flip; lia). lia. Qed.

Lemma ble_trans a b c : le a b -> le b c -> le a c.
Proof. apply cmp_le_trans. apply _. Qed.

(** [now] is a position in every vector. *)
Definition within (now : list nat) : Prop := length now = length vs /\ forall i n, now !! i = Some n -> exists v x, vs !! i = Some v /\ v !! n = Some x.

Definition head_at (now : list nat) (i : nat) : option bytes := n ← now !! i; v ← vs !! i; v !! n.

Lemma vm_at_live now i : vm_at live now i = Some <$> head_at now i.
Proof.
  unfold vm_at, head_at. destruct (now !! i) as [n|]; [|done]. cbn. rewrite list_lookup_fmap. destruct (vs !! i) as [v|]; [|done]. cbn. rewrite list_lookup_fmap. by destruct (v !! n).
Qed.

Lemma within_head now i : within now -> (i < length now)%nat -> exists x, head_at now i = Some x.
Proof. intros [_ Hw] Hi. destruct (lookup_lt_is_Some_2 now i Hi) as [n Hn]. destruct (Hw i n Hn) as (v & x & Hv & Hx). exists x. unfold head_at. by rewrite Hn; cbn; rewrite Hv. Qed.

Lemma smallest_loop_ok now l : within now -> Forall (fun i => (i < length now)%nat) l -> forall s x, head_at now s = Some x -> (s < length now)%nat ->
  exists c y, smallest_loop live now l s (Some x) = Some c /\ (c < length now)%nat /\ head_at now c = Some y /\ le y x /\ forall i z, i ∈ l -> head_at now i = Some z -> le y z.
Proof.
  intros Hw Hl. induction Hl as [|i l Hi _ IH]; intros s x Hs Hsl.
  - exists s, x. split_and!; [done|done|done|apply ble_refl|]. by intros i z ?%elem_of_nil.
  - cbn [smallest_loop]. rewrite vm_at_live. destruct (within_head now i Hw Hi) as [y Hy]. rewrite Hy. cbn [fmap option_fmap option_map mbind option_bind].
    destruct (Z.ltb_spec (BytewiseCompare y x) 0) as [Hlt|Hge].
    + destruct (IH i y Hy Hi) as (c & z & E & Hc & Hz & Hle & Hall). exists c, z. split_and!; [done|done|done|apply (ble_trans z y x); [done|lia]|].
      intros j u [->|Hj]%elem_of_cons Hu; [rewrite Hy in Hu; by injection Hu as <-|by apply (Hall j)].
    + destruct (IH s x Hs Hsl) as (c & z & E & Hc & Hz & Hle & Hall). exists c, z. split_and!; [done|done|done|done|].
      intros j u [->|Hj]%elem_of_cons Hu; [rewrite Hy in Hu; injection Hu as <-|by apply (Hall j)]. apply (ble_trans z x y); [done|by apply ble_not_lt].
Qed.

(** [c] has the smallest of the keys at [now]. *)
Definition at_smallest (m : vector_merge_iter) (x : bytes) : Prop :=
  within (vm_now m) /\ head_at (vm_now m) (vm_current m) = Some x /\ forall i z, head_at (vm_now m) i = Some z -> le x z.

Lemma FindSmallest_ok now : within now -> (0 < length now)%nat -> exists m x, vm_FindSmallest live now = Some m /\ vm_now m = now /\ at_smallest m x.
Proof.
  intros Hw Hn. destruct (within_head now 0 Hw Hn) as [x Hx]. unfold vm_FindSmallest. rewrite vm_at_live, Hx. cbn [fmap option_fmap option_map mbind option_bind].
  destruct (smallest_loop_ok now (seq 1 (length now - 1)) Hw) with (s := 0%nat) (x := x) as (c & y & -> & Hc & Hy & Hle & Hall); [|done|done|].
  { apply Forall_forall. intros i Hi. apply elem_of_seq in Hi. lia. }
  cbn [mbind option_bind]. exists (mkVectorMerge now c), y. split_and!; [done|done|]. split_and!; [done|done|]. cbn [vm_now]. intros i z Hz.
  destruct (decide (i = 0%nat)) as [->|Hi]; [rewrite Hx in Hz; by injection Hz as <-|]. apply (Hall i); [|done]. apply elem_of_seq.
  assert (i < length now)%nat; [|lia]. unfold head_at in Hz. destruct (now !! i) eqn:E; [by eapply lookup_lt_Some|done].
Qed.

(** The keys before [now], and those from [now] on. *)
Definition passed (now : list nat) : list bytes := concat (zip_with take now vs).
Definition ahead (now : list nat) (x : bytes) : Prop := exists i n v, now !! i = Some n /\ vs !! i = Some v /\ x ∈ drop n v.

Lemma passed_move now c n v x : now !! c = Some n -> vs !! c = Some v -> v !! n = Some x -> passed (<[c := S n]> now) ≡ₚ x :: passed now.
Proof.
  unfold passed. revert now c. induction vs as [|u us IH]; intros now c Hn Hv Hx; [by rewrite lookup_nil in Hv|]. destruct now as [|n0 now]; [done|]. destruct c as [|c]; cbn in Hn, Hv.
  - injection Hn as ->. injection Hv as ->. cbn. rewrite (take_S_r v n x) by done. rewrite <- (assoc_L (++)). cbn [app]. by rewrite <- Permutation_middle.
  - cbn. rewrite (IH now c Hn Hv Hx). by rewrite <- Permutation_middle.
Qed.

Context (Hsorted : Forall (StronglySorted le) vs).

Lemma smallest_ahead m x y : at_smallest m x -> ahead (vm_now m) y -> le x y.
Proof.
  intros (_ & _ & Hmin) (i & n & v & Hn & Hv & Hy). assert (Hs := Forall_lookup_1 _ _ _ _ Hsorted Hv). rewrite <- (take_drop n v) in Hs. apply StronglySorted_app_1_r in Hs.
  destruct (drop n v) as [|z l] eqn:Ed; [by apply elem_of_nil in Hy|]. assert (Hz : v !! n = Some z) by (rewrite <- (Nat.add_0_r n), <- lookup_drop, Ed; done).
  assert (Hxz : le x z) by (apply (Hmin i); unfold head_at; rewrite Hn; cbn; by rewrite Hv). apply elem_of_cons in Hy as [->|Hy]; [done|]. apply StronglySorted_inv in Hs as [_ Hs].
  rewrite Forall_forall in Hs. apply (ble_trans x z y); [done|by apply Hs].
Qed.

Lemma ahead_move now c n y : now !! c = Some n -> ahead (<[c := S n]> now) y -> ahead now y.
Proof.
  intros Hc (i & k & v & Hk & Hv & Hy). destruct (decide (c = i)) as [<-|Hne].
  - rewrite list_lookup_insert_eq in Hk by (by eapply lookup_lt_Some). injection Hk as <-. exists c, n, v. split_and!; [done|done|].
    apply list_elem_of_lookup in Hy as [j E]. rewrite lookup_drop in E. apply (list_elem_of_lookup_2 _ (S j)). rewrite lookup_drop, <- E. f_equal. lia.
  - rewrite list_lookup_insert_ne in Hk by done. by exists i, k, v.
Qed.

(** What was visited: sorted, from [now] on, and not above what is still ahead. *)
Record visits (now : list nat) (k : nat) (visited : list bytes) (now' : list nat) : Prop := {
  vi_sorted : StronglySorted le visited;
  vi_from : Forall (ahead now) visited;
  vi_passed : visited ++ passed now ≡ₚ passed now';
  vi_ahead : forall y, ahead now' y -> ahead now y /\ forall z, z ∈ visited -> le z y;
  vi_length : length visited = S k \/ (length visited <= S k)%nat /\ exists i v, vs !! i = Some v /\ now' !! i = Some (length v)
}.

Lemma at_smallest_current m x : at_smallest m x -> exists n v, vm_now m !! vm_current m = Some n /\ vs !! vm_current m = Some v /\ v !! n = Some x.
Proof.
  intros (_ & Hx & _). unfold head_at in Hx. destruct (vm_now m !! vm_current m) as [n|]; [|done]. cbn in Hx. destruct (vs !! vm_current m) as [v|]; [|done]. by exists n, v.
Qed.

Lemma visit_one m x n v k : at_smallest m x -> vm_now m !! vm_current m = Some n -> vs !! vm_current m = Some v -> v !! n = Some x ->
  k = 0%nat \/ (length v <= n + 1)%nat -> visits (vm_now m) k [x] (<[vm_current m := S n]> (vm_now m)).
Proof.
  intros Hm Hn Hv Hx Hk. pose proof (lookup_lt_Some _ _ _ Hx) as Hlt. split.
  - repeat constructor.
  - constructor; [|done]. exists (vm_current m), n, v. split_and!; [done|done|]. apply (list_elem_of_lookup_2 _ 0). by rewrite lookup_drop, Nat.add_0_r.
  - cbn. by rewrite (passed_move _ _ _ _ _ Hn Hv Hx).
  - intros y Hy. apply (ahead_move _ _ _ _ Hn) in Hy. split; [done|]. intros z ->%list_elem_of_singleton. by eapply smallest_ahead.
  - destruct Hk as [->|Hk]; [by left|right]. split; [cbn; lia|]. exists (vm_current m), v. split; [done|]. rewrite list_lookup_insert_eq by (by eapply lookup_lt_Some). f_equal. lia.
Qed.

Lemma vm_run_ok k : forall m x, at_smallest m x -> exists visited now', vm_run live k m = Some visited /\ visits (vm_now m) k visited now'.
Proof.
  induction k as [|k IH]; intros m x Hm; destruct (at_smallest_current m x Hm) as (n & v & Hn & Hv & Hx).
  - exists [x], (<[vm_current m := S n]> (vm_now m)). split; [|by apply (visit_one m x n v); [..|left]]. cbn. unfold vm_key. rewrite vm_at_live. destruct Hm as (_ & -> & _). done.
  - cbn [vm_run]. unfold vm_key. rewrite vm_at_live. destruct Hm as (Hw & Eh & Hmin). rewrite Eh. cbn [fmap option_fmap option_map mbind option_bind]. unfold vm_Next.
    rewrite list_lookup_fmap, Hv, Hn. cbn [fmap option_fmap option_map mbind option_bind]. rewrite length_fmap. destruct (Nat.leb_spec (length v) (n + 1)) as [Hend|Hmore].
    + exists [x], (<[vm_current m := S n]> (vm_now m)). split; [done|]. by apply (visit_one m x n v); [done|done|done|done|right].
    + set (now1 := <[vm_current m := S n]> (vm_now m)). assert (Hw1 : within now1).
      { destruct Hw as [Hl Hw]. split; [unfold now1; by rewrite length_insert|]. intros i j Hj. unfold now1 in Hj. destruct (decide (vm_current m = i)) as [<-|Hne].
        - rewrite list_lookup_insert_eq in Hj by (by eapply lookup_lt_Some). injection Hj as <-. destruct (lookup_lt_is_Some_2 v (S n)) as [z Hz]; [lia|]. by exists v, z.
        - rewrite list_lookup_insert_ne in Hj by done. by apply Hw. }
      destruct (FindSmallest_ok now1 Hw1) as (m1 & x1 & -> & En1 & Hm1); [unfold now1; rewrite length_insert; apply lookup_lt_Some in Hn; lia|]. cbn [mbind option_bind].
      destruct (IH m1 x1 Hm1) as (rest & now' & -> & Hrest). rewrite En1 in Hrest. cbn [mbind option_bind]. exists (x :: rest), now'. split; [done|]. destruct Hrest as [Hs Hf Hp Ha Hl].
      assert (Hle : forall z, z ∈ rest -> le x z).
      { intros z Hz. rewrite Forall_forall in Hf. apply (smallest_ahead m x z); [by split_and!|]. eapply ahead_move; [exact Hn|by apply Hf]. }
      destruct (visit_one m x n v 0 ltac:(by split_and!) Hn Hv Hx ltac:(by left)) as [_ Hf1 _ _ _]. split.
      * constructor; [done|]. by apply Forall_forall.
      * constructor; [by apply Forall_inv in Hf1|]. eapply Forall_impl; [exact Hf|]. intros z Hz. by eapply ahead_move.
      * rewrite <- Hp. unfold now1. rewrite (passed_move _ _ _ _ _ Hn Hv Hx). by rewrite <- Permutation_middle.
      * intros y Hy. destruct (Ha y Hy) as [Hy1 Hy2]. assert (Hy0 : ahead (vm_now m) y) by (by eapply ahead_move). split; [done|]. intros z [->|Hz]%elem_of_cons; [|by apply Hy2].
        by apply (smallest_ahead m x y).
      * cbn [length]. destruct Hl as [->|[Hl Hex]]; [by left|right]. split; [lia|done].
Qed.

Lemma passed_none (us : list (list bytes)) : concat (zip_with take (replicate (length us) 0%nat) us) = [].
Proof. induction us as [|u us IH]; [done|]. cbn. by rewrite IH. Qed.

(** C29. [vector_merge_iter] merges. Over sorted vectors, none of them empty and all of
    their strings alive, the constructor and any number of moves read nothing outside a
    vector. The visited keys are in order, they are the keys before some positions of the
    vectors, and no key from these positions on is smaller than one of them. Fewer keys
    than asked for are visited only if a vector has come to its end, where the merge
    thread asks its worker for more. *)
Theorem vector_merge_sorted k : vs <> [] -> Forall (fun v => v <> []) vs ->
  exists m visited now', vm_new (length vs) live = Some m /\ vm_run live k m = Some visited /\
    StronglySorted le visited /\ visited ≡ₚ passed now' /\ (forall y z, ahead now' y -> z ∈ visited -> le z y) /\
    (length visited = S k \/ exists i v, vs !! i = Some v /\ now' !! i = Some (length v)).
Proof.
  intros Hne Hall. unfold vm_new. assert (Hw : within (replicate (length vs) 0%nat)).
  { split; [by rewrite length_replicate|]. intros i n Hn. apply lookup_replicate in Hn as [-> Hi]. destruct (lookup_lt_is_Some_2 vs i Hi) as [v Hv]. rewrite Forall_forall in Hall.
    destruct v as [|x v]; [by destruct (Hall [] (list_elem_of_lookup_2 _ _ _ Hv))|]. by exists (x :: v), x. }
  destruct (FindSmallest_ok (replicate (length vs) 0%nat) Hw) as (m & x & E & En & Hm); [rewrite length_replicate; by destruct vs; [|cbn; lia]|].
  destruct (vm_run_ok k m x Hm) as (visited & now' & Er & [Hs _ Hp Ha Hl]). exists m, visited, now'. rewrite En in Hp. unfold passed at 1 in Hp. rewrite passed_none, app_nil_r in Hp.
  split_and!; [done..| |]. - intros y z Hy. by apply Ha. - destruct Hl as [?|[_ ?]]; [by left|by right].
Qed.
End Merge.

Lemma vector_merge_sorted_witness : exists m, vm_new 2 [Some <$> [[1]; [4]; [6]]; Some <$> [[2]; [3]]] = Some m /\
  exists visited, vm_run [Some <$> [[1]; [4]; [6]]; Some <$> [[2]; [3]]] 2 m = Some visited /\ StronglySorted (fun a b => BytewiseCompare a b <= 0) visited /\ visited = [[1]; [2]; [3]].
Proof.
  destruct (vector_merge_sorted [[[1]; [4]; [6]]; [[2]; [3]]]) with (k := 2%nat) as (m & visited & now' & E & Er & Hs & _).
  - repeat constructor; vm_compute; discriminate.
  - discriminate.
  - repeat constructor; discriminate.
  - exists m. split; [exact E|]. exists visited. split; [exact Er|]. split; [exact Hs|].
    assert (E' : (m ← vm_new 2 [Some <$> [[1]; [4]; [6]]; Some <$> [[2]; [3]]]; vm_run [Some <$> [[1]; [4]; [6]]; Some <$> [[2]; [3]]] 2 m) = Some [[1]; [2]; [3]]) by (vm_compute; reflexivity).
    change (vm_new 2 [Some <$> [[1]; [4]; [6]]; Some <$> [[2]; [3]]] = Some m) in E. change (vm_run [Some <$> [[1]; [4]; [6]]; Some <$> [[2]; [3]]] 2 m = Some visited) in Er.
    rewrite E in E'. cbn [mbind option_bind] in E'. rewrite Er in E'. injection E' as ->. reflexivity.
Defined.

(** A store with one key: after the first request is posted, the scan is undefined. *)
#[local] Instance one_store_iterator : Iterator ListIter := list_iterator BytewiseCompare.

Definition one_store : ListIter := mkListIter [(GenerateKeyFromInt 8 5, [7])] None.

Definition posted_system : option (scan_system (I := ListIter)) :=
  let st := scan_start 1 1 2 in
  match ss_main st with
  | a :: b :: rest => sh ← exec_action a (ss_queues st); sh ← exec_action b sh; Some (mkScanSystem rest sh (ss_workers st) (ss_memory st) (ss_merger st))
  | _ => None
  end.

Lemma posted_reachable st : posted_system = Some st -> scan_reachable 8 1 1 [one_store] (scan_start 1 1 2) st.
Proof.
  intros E. unfold posted_system in E. cbn zeta in E. destruct (ss_main (scan_start 1 1 2)) as [|a [|b rest]] eqn:Em; [done..|].
  destruct (exec_action a _) as [sh|] eqn:Ea; [|done]. cbn [mbind option_bind] in E. destruct (exec_action b sh) as [sh'|] eqn:Eb; [|done]. injection E as <-.
  eapply rtc_l; [|apply rtc_once].
  - eapply (scan_main _ _ _ _ _ a (b :: rest)); [exact Em|]. by rewrite Ea.
  - eapply (scan_main _ _ _ _ _ b rest); [done|]. cbn [ss_queues]. by rewrite Eb.
Qed.

Lemma scan_test_never_merges_witness : exists st, scan_reachable 8 1 1 [one_store] (scan_start 1 1 2) st /\
  mr_pc (ss_merger st) = WaitStart 0 /\ scan_step 8 1 1 [one_store] st None.
Proof.
  assert (Es : bool_decide (is_Some posted_system) = true) by (vm_compute; reflexivity). apply bool_decide_eq_true in Es as [st Es]. exists st.
  pose proof (posted_reachable st Es) as Hr. split; [exact Hr|].
  destruct (scan_test_never_merges 8 1 1 [one_store] ltac:(lia) ltac:(lia) (li_inv BytewiseCompare) li_entries li_cur ltac:(repeat constructor) 2 st Hr) as (Hpc & _ & Hund).
  split; [exact Hpc|]. vm_compute in Es. injection Es as <-.
  apply (Hund 0%nat (mkScanWorker 0 Polling 0) one_store 1 [mkScan 0 0 100 false; scan_async_default] (mkScan 0 0 100 false) (GenerateKeyFromInt 8 5, [7])); try reflexivity.
  - discriminate. - left. - vm_compute. discriminate. - lia.
Defined.
