(* ===== verification/Config.v ===== *)
(** * defines.h: the configurations of the programs

    A build picks a number of queues and a batch size ([Q1B1] ... [Q12B32]), a
    workload, which fixes the number of requests, the extra room per queue and
    the key size, and for some workloads a value size. *)

From S2P Require Import Prelude Queue Ycsb.

(** ** The macros *)

Inductive queue_macro :=
  | Q1B1 | Q4B1 | Q8B1 | Q12B1 | Q1B16 | Q4B16 | Q8B16 | Q1B32 | Q4B32 | Q8B32
  | Q1B4 | Q4B4 | Q8B4 | Q12B32 | QDefault.

Definition QUEUE_NUM (m : queue_macro) : Z :=
  match m with
  | Q1B1 | Q1B16 | Q1B32 | Q1B4 | QDefault => 1
  | Q4B1 | Q4B16 | Q4B32 | Q4B4 => 4
  | Q8B1 | Q8B16 | Q8B32 | Q8B4 => 8
  | Q12B1 | Q12B32 => 12
  end.

Definition BATCH_SIZE (m : queue_macro) : Z :=
  match m with
  | Q1B1 | Q4B1 | Q8B1 | Q12B1 | QDefault => 1
  | Q1B16 | Q4B16 | Q8B16 => 16
  | Q1B32 | Q4B32 | Q8B32 | Q12B32 => 32
  | Q1B4 | Q4B4 | Q8B4 => 4
  end.

Inductive workload :=
  | SPLINTER_LOAD | SPLINTER_SCAN | SPLINTER_F | SPLINTER_RUN
  | YCSB_LOAD | YCSB_RUN | YCSB_SCAN | YCSB_F
  | LONGKEY_LOAD | LONGKEY_RUN | LONGKEY2_LOAD | LONGKEY2_RUN | LONGKEY_SCAN | LONGKEY_F
  | WDefault.

#[global] Instance workload_eq_dec : EqDecision workload.
Proof. solve_decision. Defined.

Definition TOTAL_NUM (w : workload) : Z :=
  match w with
  | SPLINTER_LOAD => 673000000
  | SPLINTER_SCAN => 20000000
  | SPLINTER_F => 240000805
  | SPLINTER_RUN => 160000000
  | YCSB_LOAD | YCSB_RUN | YCSB_SCAN | WDefault => 1000000
  | YCSB_F => 1500000
  | LONGKEY_LOAD | LONGKEY2_LOAD => 100000000
  | LONGKEY_RUN | LONGKEY2_RUN => 20000000
  | LONGKEY_SCAN => 3000000
  | LONGKEY_F => 29998597
  end.

Definition EXPAND_QUEUE_SIZE (w : workload) (QUEUE_NUM : Z) : Z :=
  match w with
  | SPLINTER_LOAD => TOTAL_NUM w / 100 + 1
  | SPLINTER_SCAN => TOTAL_NUM w * (QUEUE_NUM - 1) / QUEUE_NUM
  | SPLINTER_F => TOTAL_NUM w / QUEUE_NUM
  | YCSB_SCAN | LONGKEY_SCAN => TOTAL_NUM w
  | _ => TOTAL_NUM w / 10 + 1
  end.

Definition key_size_ (w : workload) : Z :=
  match w with
  | SPLINTER_LOAD | SPLINTER_SCAN | SPLINTER_F | SPLINTER_RUN => 24
  | _ => 28
  end.

Inductive value_macro := VALUE_64 | VALUE_128 | VALUE_256 | VALUE_512 | VALUE_1024 | VALUE_2048 | VALUE_4096.

Definition value_macro_size (v : value_macro) : Z :=
  match v with
  | VALUE_64 => 36 | VALUE_128 => 100 | VALUE_256 => 228 | VALUE_512 => 484
  | VALUE_1024 => 998 | VALUE_2048 => 2020 | VALUE_4096 => 4068
  end.

(** [None] where no macro defines [value_size_] and the program does not compile;
    a [VALUE_n] macro comes after the workload's. *)
Definition value_size_ (w : workload) (v : option value_macro) : option Z :=
  match v with
  | Some v => Some (value_macro_size v)
  | None =>
      match w with
      | SPLINTER_LOAD | SPLINTER_SCAN | SPLINTER_F | SPLINTER_RUN | YCSB_SCAN | YCSB_F | WDefault => Some 100
      | _ => None
      end
  end.

(** The slots of each array of [qs]. *)
Definition queue_slots (w : workload) (QUEUE_NUM : Z) : Z :=
  TOTAL_NUM w / QUEUE_NUM + EXPAND_QUEUE_SIZE w QUEUE_NUM.

(** ** Theorems *)

(** In every configuration the queue arrays, the number of requests, the keys
    and the values are within the widths of the [int] and [unsigned] counters that
    index and measure them, and the batch limit of the worker is between 1 and 68 puts. *)
Theorem config_widths (m : queue_macro) (w : workload) (v : option value_macro) (vs : Z) :
  value_size_ w v = Some vs ->
  1 <= QUEUE_NUM m <= 12 /\ 1 <= BATCH_SIZE m <= 32 /\ TOTAL_NUM w < 2 ^ 31 /\
  QUEUE_NUM m <= queue_slots w (QUEUE_NUM m) < 2 ^ 31 /\ 8 <= key_size_ w < 2 ^ 32 /\
  0 <= vs < 2 ^ 32 /\ 1 <= WRITE_BATCH_SIZE (BATCH_SIZE m) (key_size_ w) vs <= 68.
Proof.
  destruct v as [v|]; cbn; [intros [= <-]|intros Hv; assert (vs = 100) as -> by (destruct w; congruence)].
  - destruct m, w, v; repeat split; vm_compute; (discriminate || reflexivity).
  - destruct m, w; repeat split; vm_compute; (discriminate || reflexivity).
Qed.

Lemma config_widths_witness : 1 <= WRITE_BATCH_SIZE (BATCH_SIZE Q8B32) (key_size_ YCSB_RUN) 4068 <= 68.
Proof. by destruct (config_widths Q8B32 YCSB_RUN (Some VALUE_4096) 4068 eq_refl) as (_ & _ & _ & _ & _ & _ & ?). Defined.

(** A command adds at most one request to a queue. *)
Lemma sent_dispatch_length Q q cmds ops : 0 < Q -> (q < Z.to_nat Q)%nat ->
  (length (sent async_requests_default (dispatch Q ops cmds) q) <= length cmds)%nat.
Proof.
  intros HQ Hq. revert ops. induction cmds as [|c cmds IH]; intros ops; [done|].
  cbn [dispatch]. rewrite sent_app, length_app, sent_dispatch_command by done. specialize (IH (i32 (ops + 1))).
  cbn [length]. destruct (_ =? _); [|destruct (_ || _); [|destruct (_ =? _)]]; try case_decide; cbn [length]; lia.
Qed.

Lemma sent_no_queue posts q n : Forall (fun p : @post async_requests => (p.1 < n)%nat) posts -> (n <= q)%nat ->
  sent async_requests_default posts q = [].
Proof.
  intros Hp Hq. unfold sent. rewrite filter_none; [done|]. rewrite Forall_forall in Hp.
  intros p Hin. specialize (Hp p Hin). lia.
Qed.

Lemma fit_if_room Q cap cmds : 0 < Q -> (length cmds < cap)%nat -> queues_fit Q cap cmds.
Proof.
  intros HQ Hc q. destruct (decide (q < Z.to_nat Q)%nat) as [Hq|Hq].
  - rewrite sent_main_posts, length_app by done. pose proof (sent_dispatch_length Q q cmds 0 HQ Hq). cbn. lia.
  - rewrite (sent_no_queue _ _ (Z.to_nat Q)); [cbn; lia|by apply main_posts_queues|lia].
Qed.

(** Every queue gets every scan, and an end marker. *)
Lemma scans_overrun Q cap cmds : 0 < Q -> (cap <= length cmds)%nat -> Forall (fun c => c_cmd c = chr_S) cmds -> ~ queues_fit Q cap cmds.
Proof.
  intros HQ Hc Hs Hf. specialize (Hf 0%nat). rewrite sent_main_posts, length_app in Hf by lia. cbn [length] in Hf.
  assert (E : forall ops, length (sent async_requests_default (dispatch Q ops cmds) 0) = length cmds).
  { clear Hc Hf. induction Hs as [|c cmds Hc _ IH]; intros ops; [done|].
    cbn [dispatch]. rewrite sent_app, length_app, IH, sent_dispatch_command, Hc by lia. done. }
  rewrite E in Hf. lia.
Qed.

(** The configurations whose arrays have more than [TOTAL_NUM] slots. *)
Lemma room_for_all (m : queue_macro) (w : workload) :
  TOTAL_NUM w < queue_slots w (QUEUE_NUM m) <-> w = YCSB_SCAN \/ w = LONGKEY_SCAN \/ (QUEUE_NUM m = 1 /\ w <> SPLINTER_SCAN).
Proof.
  split; [|intros [->|[->|[E Hne]]]; [by destruct m|by destruct m|rewrite E; by destruct w]].
  intros Hlt. apply Z.ltb_lt in Hlt. destruct w; auto; right; right; (split; [|discriminate] || exfalso); destruct m; try reflexivity; exfalso; vm_compute in Hlt; discriminate Hlt.
Qed.

(** C37. The configurations that hold every trace: no trace of [TOTAL_NUM] commands
    overruns a queue, whatever keys and scans it has, exactly when the workload is
    [YCSB_SCAN] or [LONGKEY_SCAN], with any number of queues, or is not
    [SPLINTER_SCAN] and there is one queue. In all other configurations, those of
    [SPLINTER_SCAN] among them, some trace overruns a queue. *)
Theorem queue_capacity_sufficient (m : queue_macro) (w : workload) :
  (forall cmds, zlen cmds <= TOTAL_NUM w -> queues_fit (QUEUE_NUM m) (Z.to_nat (queue_slots w (QUEUE_NUM m))) cmds)
  <-> w = YCSB_SCAN \/ w = LONGKEY_SCAN \/ (QUEUE_NUM m = 1 /\ w <> SPLINTER_SCAN).
Proof.
  rewrite <- room_for_all. assert (HQ : 0 < QUEUE_NUM m) by (by destruct m). assert (HT : 0 < TOTAL_NUM w) by (by destruct w). split.
  - intros Hfit. destruct (Z.lt_ge_cases (TOTAL_NUM w) (queue_slots w (QUEUE_NUM m))) as [|Hle]; [done|]. exfalso.
    apply (scans_overrun (QUEUE_NUM m) (Z.to_nat (queue_slots w (QUEUE_NUM m))) (replicate (Z.to_nat (TOTAL_NUM w)) (mkCommand 0 10 chr_S))).
    + done.
    + rewrite length_replicate. lia.
    + by apply Forall_replicate.
    + apply Hfit. unfold zlen. rewrite length_replicate. lia.
  - intros Hlt cmds Hl. apply fit_if_room; [done|]. unfold zlen in Hl. lia.
Qed.

(** [SPLINTER_SCAN] is short of one slot: a trace of [TOTAL_NUM] scans does not
    fit its queues, for any number of them. *)
Theorem splinter_scan_overruns (m : queue_macro) (cmds : list command) :
  zlen cmds = TOTAL_NUM SPLINTER_SCAN -> Forall (fun c => c_cmd c = chr_S) cmds ->
  ~ queues_fit (QUEUE_NUM m) (Z.to_nat (queue_slots SPLINTER_SCAN (QUEUE_NUM m))) cmds.
Proof.
  intros Hl Hs. apply scans_overrun; [by destruct m| |done]. unfold zlen in Hl.
  assert (queue_slots SPLINTER_SCAN (QUEUE_NUM m) <= TOTAL_NUM SPLINTER_SCAN) by (destruct m; vm_compute; discriminate). lia.
Qed.

Lemma splinter_scan_overruns_witness :
  ~ queues_fit (QUEUE_NUM Q4B1) (Z.to_nat (queue_slots SPLINTER_SCAN (QUEUE_NUM Q4B1)))
      (replicate (Z.to_nat (TOTAL_NUM SPLINTER_SCAN)) (mkCommand 0 10 chr_S)).
Proof.
  apply (splinter_scan_overruns Q4B1).
  - unfold zlen. rewrite length_replicate. apply Z2Nat.id. done.
  - by apply Forall_replicate.
Defined.
